(* ===== verification/_CoqProject ===== *)
-Q . S2P
Prelude.v
GraphSpec.v
Payload.v
Buffer.v
Health.v
Kahn.v
Lifecycle.v
Scc.v
Diagnostics.v
PlanText.v
Compile.v
CompileFacts.v
Channel.v
ChannelFacts.v
ChannelInv.v
Bus.v
BusFacts.v
Router.v
RouterFacts.v
Scheduler.v
Trigger.v
TriggerFacts.v
Component.v
Validate.v
ValidateFacts.v
Metrics.v
Yaml.v
Json.v
Logging.v
StateStore.v
LiveObserve.v
TaskExecutor.v
TaskExecutorFacts.v
Lanes.v
Program.v
Ros2.v
EventRuntime.v
ProgramFacts.v
RunInvariant.v
EventRuntimeFacts.v
EventLoopFacts.v
EventRunFacts.v
QuietRun.v
ConfigFacts.v
RunProperties.v
MetricSchema.v
RunnerResult.v
Otel.v
RunnerMetrics.v
RunnerTrace.v
Runner.v
RunnerLogic.v
LifecycleFacts.v
RunnerMetricsFacts.v
RunnerFacts.v
ComponentBase.v
RunnerRun.v
RunnerProperties.v
QuietRunner.v
CApi.v
CApiFacts.v
Plugins.v
PluginFacts.v
Prometheus.v
PrometheusFacts.v
Utf8.v
Loader.v
LoaderFacts.v
LoaderShape.v
LoaderTemplates.v
LoaderRoundtrip.v
LoaderProperties.v
CliSupport.v
CliOutput.v
CliLint.v
CliObserve.v
Cli.v
CliObserveFacts.v
CliFacts.v
Submit.v
