(* ===== verification/Prelude.v ===== *)
(** * TopoExec: a verification library for the in-process graph runtime

    TopoExec runs graphs of components in one process.  A graph file is read into declarative records, validated, compiled
    into an execution plan, and run: components publish payloads, a router stages the publications, a bus stores them
    in bounded channels, a trigger engine decides which component is ready, and the state, config, task and observation
    services sit next to it.  A command line tool, a C interface, plugins and exporters stand around this core.  The library
    translates [src/src/*.cpp], [src/include/topoexec/] and [src/tools/topoexec/main.cpp] into Rocq functions and step
    relations, one file per component, and proves what makes each of them correct.

    ** Parts, files and sources

    The declarative model.
    - GraphSpec.v: the records of [graph.hpp], [component.hpp], [clock.hpp] with their enumerations and parsers.
    - Payload.v, Buffer.v: [payload.cpp], [buffer.cpp].  Buffers are mutable and shared, so they live in a heap of
      addresses with reference counts; payloads point into it.
    - Health.v: the coalescing health-event sink of [health.hpp].

    The front end, all of it in [graph.cpp] and [diagnostics.cpp].
    - Diagnostics.v: registry of diagnostic codes, classification of error texts.
    - Validate.v, ValidateFacts.v: [validate_graph_impl], check by check, and [dry_run_graph].
    - Lifecycle.v: [compute_component_lifecycle_order].  Scc.v: [tarjan_scc].  Compile.v, CompileFacts.v:
      [compile_graph_impl].  Kahn.v holds the invariant of the queue algorithm that Lifecycle.v and Compile.v run over
      different data; validation calls the lifecycle order and the compiler.
    - PlanText.v: the plan text and the Mermaid diagram of a compiled graph.

    Graph files, [graph_io.cpp].
    - Utf8.v: the check of the encoding.
    - Yaml.v: the interface of the YAML library ([YamlLib] with its laws [YamlLaws]) and its implementation by trees, which
      shows that the laws can hold and writes the concrete documents of the witnesses.
    - Loader.v: [load_graph_file] and [load_graph_text] with every reader, the limits, and the expansion of subgraphs and
      templates.  LoaderFacts.v, LoaderShape.v, LoaderTemplates.v, LoaderRoundtrip.v: limits and errors, name spaces, the
      substitution of parameters, documents that are written and read back; LoaderProperties.v states the properties.
    - Json.v: the interface of the JSON library ([JsonLib], [JsonLaws]) and the plan as JSON.

    The data plane.
    - Channel.v (ChannelFacts.v, ChannelInv.v): one channel of [RuntimeChannelBus] in [channel.cpp].
    - Bus.v, BusFacts.v: the bus over all channels; every operation of the bus is a composition of the operations of
      Channel.v, and BusFacts.v proves so, which carries the invariants of ChannelInv.v to every reachable bus.
    - Router.v, RouterFacts.v: [RuntimePublicationRouter] of [channel.cpp], which commits its stages to the bus.
    - Trigger.v, TriggerFacts.v: [trigger_policy.cpp], which drains the bus.
    - Component.v: [component_registry.cpp] and the context through which a component publishes ([component.cpp]).
      Submit.v: tasks that a component submits, and the callback that publishes their results.

    The services.
    - Scheduler.v: stop tokens, lane registry and metrics of [scheduler.cpp].
    - StateStore.v: the state blackboard and config snapshots of [state.cpp].
    - LiveObserve.v: the lock-free ring, streams and sessions of [live_observe.cpp].
    - TaskExecutor.v, TaskExecutorFacts.v: the two executors of [task_executor.cpp].
    - Metrics.v, Logging.v: the metric registry of [metrics.cpp] and the structured logger of [logging.cpp].

    The event runtime, [event_runtime.cpp], which calls all of the above.
    - Lanes.v: admission to worker pools, the order in which a pool takes its work, the schedule of fixed-rate lanes.
    - Program.v: what a component can do to the objects of a run.  An execution is a tree of calls on the graph context
      ([Prog]); [perform] gives each call its meaning, [run_prog] runs a program without interruption.
    - EventRuntime.v: [EventRuntime::run], from configuration transactions and epochs down to one invocation, in a
      monad of state, failure and fuel.  A batch on a thread pool interleaves the calls of its invocations as a choice
      function decides.
    - ProgramFacts.v, RunInvariant.v: what user code keeps, total-correctness triples for the monad, and the invariant of
      a run.  EventRuntimeFacts.v, EventLoopFacts.v, EventRunFacts.v, ConfigFacts.v carry it through
      invocations, loops, epochs and transactions; RunProperties.v states the properties.
      QuietRun.v: runs of components that only return success.

    The runner, [runtime_runner.cpp], the entry point of the library, which calls the front end and the event runtime.
    - MetricSchema.v: the table of metric descriptors and the check of samples, [metric_schema.cpp].
    - ComponentBase.v: the base class of components and factories of classes, over the programs of Program.v.
    - RunnerResult.v: options, results, settings of the configuration, observers.  RunnerTrace.v: the spans of [trace.cpp],
      the trace and the live events of a result.  RunnerMetrics.v: the metrics of a result.
    - Runner.v: [RuntimeRunner::run], in a monad of state, exceptions that are caught, and failure; the calls on the
      components are kept as a log.
    - RunnerLogic.v: triples for the monad and what the collection of metrics leaves alone.  LifecycleFacts.v,
      RunnerMetricsFacts.v, RunnerFacts.v, RunnerRun.v: the order of the calls, the metrics, texts that are read back, the
      observers, and termination; RunnerProperties.v and QuietRunner.v state the properties.

    Around the runner.
    - Plugins.v, PluginFacts.v: the plugin loader, [plugin_loader.cpp]; a library is what its symbols answer.
    - Prometheus.v, PrometheusFacts.v, Otel.v: the exporters of [adapters/prometheus.hpp] and [adapters/otel.hpp].
    - Ros2.v: endpoints, mappings and bridge of [adapters/ros2.hpp].
    - CApi.v, CApiFacts.v: [graph_builder.hpp] and the C interface [c_api.cpp].
    - CliSupport.v, CliOutput.v, CliLint.v, CliObserve.v, Cli.v: the command line tool [tools/topoexec/main.cpp]: its demo
      components and texts, its reports, the lint rules, live records and live assertions, and [main] from a parsed command
      line to output, files and exit code.  CliObserveFacts.v and CliFacts.v state what it promises.

    Prelude.v itself holds what the files share: functional record update, 64-bit wrapping, text helpers, total map
    lookup, lemmas on lists, folds, sorting and sums, and the hint databases.

    ** What the theorems show
    - Front end, for graphs whose region ids are distinct (with others the compiler need not come back): validation returns and
      accepts exactly the graphs that satisfy a declarative contract; compilation
      accepts exactly the graphs whose composite loops are the cycles of the immediate edges, and orders the regions
      topologically and by priority.  Tarjan's and Kahn's algorithms are correct for every input; diagnostics are
      registered; diagrams have unique, safe node ids.
    - Graph files: a load ends with a graph within every limit or with [std::invalid_argument], unless the document contains
      itself, where it may not come back; a graph that the format can express is read back unchanged from a document that says it; a
      document loads to its own parts and one expansion for each subgraph and instance, whose identifiers are in its name space;
      substitution is a reference substitution that
      does not look at what it put in; exactly the encodings of Unicode scalar values are accepted.
    - Data plane: channels stay bounded, sorted and account for every message; readers receive in order and at most
      once, up to the cap on tracked readers; batches are atomic; the router bounds asynchronous publications, isolates discarded regions and
      defers to the epoch boundary what it should; the trigger engine loses no message of a component whose inputs are distinct, and each
      policy fires when it should.
    - Services: the state store refines an abstract blackboard with values, writers and versions; config snapshots follow the log of transactions; the
      ring refines a bounded queue under every interleaving; the executors lose no task and drain at shutdown; the
      buffer pool's statistics are the truth about its heap.
    - Event runtime: a run ends and reports consistently, and leaves router, bus and channels well formed, however workers
      interleave and whatever the components do, as long as their configuration hooks return ([validate_config] and [apply_config]
      are called without a guard), no trigger repeats an input and the clock goes on; composite loops refine an abstract loop and
      settle their outputs by policy; components read the
      state of the last epoch boundary; configuration transactions are atomic; pool workers are exclusive and take the
      best priority; the due times of a fixed-rate lane are at least a period apart.
    - Runner: under the same conditions every call returns with a consistent verdict, whatever else user code throws or refuses; components
      are called in the documented order of the lifecycle, and when no [deactivate] throws all that were activated are deactivated once, in
      reverse; the metrics of a
      result conform to the schema of the library; the trace is complete and ordered; observers are told everything
      once; sizes and component ids are read back from the texts that hold them; runs of components that only return
      success end without an error after the calls that were asked for.
    - Around the runner: a failed plugin load leaves the registry as it was, up to the failures that the loader finds too
      late; a sample that was exported while there was room is read back from the text; percentiles are read inside of the values; the C interface
      runs what was built; the lint rules report what their declarative form derives; the live assertions on records and counters hold exactly when
      the recorded events satisfy them; live records carry the names of what was observed; the exit code of the tool means what
      its command found, a record directory holds the files of a record up to a write that fails, and the tool comes back; results of submitted tasks are published like those of components.

    ** Conventions
    - An operation that holds a mutex for its whole body is one function from state to state.  Code with several
      critical sections, or with atomic accesses and no mutex, is a step relation with one step per section or access.
    - Exceptions are the left summand of a sum; [None] stands for undefined behaviour, an uncaught exception, or fuel
      that ran out, and the theorems show which inputs exclude it.
    - [int] and [std::size_t] values that enter arithmetic are [Z], and wrap ([u64]) where the code can wrap them;
      counters that grow by one per call are [nat].
    - Clocks, [stod], factories, component code, works and callbacks are arguments.
    - Fuel: the number of regions for the compiler, the number of components for the lifecycle order, nodes and targets
      plus one for Tarjan, names in use plus one for node ids, pending messages plus one for the trigger policies,
      [max_tasks] for a bounded [run_ready], [max_config_depth] plus two for the limits of a configuration, the length of a
      text plus one for its substitution, the depth of a node plus one for the expansion of a template.  Each file proves
      that its fuel is enough.  A run of the event runtime
      consumes fuel only in the wait for a tick and in a batch; the theorems hold for every fuel from some bound on.
    - A call of the runner meets an environment ([RunnerEnvironment] of Runner.v): the clock, the stop token, the moves of
      workers, the times and ids of spans, the clock of the health events and of the live events, and the samples that
      components left in the metric registry.  Its fuel is that of the compiler and that of the event runtime.
    - Component code that executes may publish, read, drain, stage state and configurations, report convergence and ask
      for cancellation; clock readings, stop requests and the moves of workers are functions of the moment of a run.
    - Results of operations on [double]s are rationals, rounded by a function that is an argument; what is needed of it is a
      hypothesis ([rounding] of Metrics.v).
    - Code of other libraries is an interface with laws: [YamlLib] and [JsonLib]; the tree instances of Yaml.v and Json.v
      satisfy the laws.  Nodes need not be trees: the law on depths speaks of the nodes that a descent ends in ([well_nested]).  The
      file system under a record directory is an argument too ([RecordDisk] of CliObserve.v).
    - The finding theorems (in RouterFacts.v, TriggerFacts.v, CompileFacts.v, ValidateFacts.v, Lanes.v, RunnerMetricsFacts.v,
      PluginFacts.v, PrometheusFacts.v, LoaderProperties.v, Metrics.v, RunProperties.v, RunnerProperties.v, CliObserveFacts.v) evaluate the model on an input where the code departs
      from its intent.

    ** Not modelled
    The YAML and JSON libraries and CLI11 themselves, the dynamic linker, compiler macros.  What a descent into a document that contains
    itself would build before the stack is exhausted ([Diverged] of Loader.v stands for it); numbers of a document that are not
    finite; histogram values that are not finite; failures of the
    standard output; running out of memory.  Of the event runtime: the direct use of the pointers
    of a context by a component, the callbacks of the run options other than through the stop token, thread names, and the
    handler around exceptions of the runtime's own operations, which well-formed objects do not raise.  The example programs
    and benchmarks, which only call the library with components of their own. *)

From Stdlib Require Export Lia ZArith.
From stdpp Require Export base list gmap strings pretty sorting.

(** ** Functional record update

    [r <| f := v |>] replaces the field [f] of [r]; [r <| f ::= g |>] applies [g] to it.  A record type
    opts in with an [Eta] instance that rebuilds it from its projections. *)
Class Eta (R : Type) := eta : R -> R.
Class Setter {R T : Type} (proj : R -> T) := set_field : (T -> T) -> R -> R.
Arguments set_field {R T} proj {_} _ _ / : assert.

Ltac solve_setter :=
  lazymatch goal with
  | |- @Setter ?R ?T ?proj =>
      let upd := fresh "upd" in
      let rcd := fresh "rcd" in
      unfold Setter; intros upd rcd;
      let whole := eval hnf in (eta rcd) in
      let abstracted := eval pattern (proj rcd) in whole in
      lazymatch abstracted with
      | ?h _ => let res := eval cbv beta in (h (upd (proj rcd))) in exact res
      end
  end.
#[export] Hint Extern 1 (Setter _) => solve_setter : typeclass_instances.

Declare Scope rec_scope.
Delimit Scope rec_scope with rec.
Notation "r <| f ::= g |>" := (set_field f g r)
  (at level 1, f at next level, g at level 100, left associativity) : rec_scope.
Notation "r <| f := v |>" := (set_field f (fun _ => v) r)
  (at level 1, f at next level, v at level 100, left associativity) : rec_scope.
Open Scope rec_scope.


(** ** Ordered traversal of a [std::map<std::string, V>]

    A C++ ordered map is a [gmap string V]; the code that iterates over one visits the keys in
    [std::string] order, which compares bytes as unsigned characters, that is [String.le]. *)
Definition key_le {V : Type} (x y : string * V) : Prop := String.le x.1 y.1.
#[export] Instance key_le_dec {V} : RelDecision (@key_le V).
Proof. intros x y. unfold key_le. apply _. Defined.
#[export] Instance key_le_total {V} : Total (@key_le V).
Proof. intros x y. unfold key_le. apply (total String.le). Qed.
#[export] Instance key_le_trans {V} : Transitive (@key_le V).
Proof. intros x y z. unfold key_le. apply (transitivity (R := String.le)). Qed.

Definition map_items {V : Type} (m : gmap string V) : list (string * V) :=
  merge_sort key_le (map_to_list m).
Definition map_keys {V : Type} (m : gmap string V) : list string := (map_items m).*1.
(** [m\[k\]] of the C++ map: the stored value, or the default that the subscript inserts. *)
Definition map_at {V : Type} (d : V) (m : gmap string V) (k : string) : V := default d (m !! k).

Section ordered_map.
Context {V : Type}.
Implicit Types (m : gmap string V) (k : string) (v : V).

Lemma map_items_perm m : map_items m ≡ₚ map_to_list m.
Proof. apply merge_sort_Permutation. Qed.

Lemma elem_of_map_items m k v : (k, v) ∈ map_items m ↔ m !! k = Some v.
Proof. rewrite map_items_perm. apply elem_of_map_to_list. Qed.

Lemma elem_of_map_keys m k : k ∈ map_keys m ↔ is_Some (m !! k).
Proof.
  unfold map_keys. rewrite list_elem_of_fmap. split.
  - intros [[k' v] [-> H]]. exists v. by apply elem_of_map_items.
  - intros [v H]. exists (k, v). split; [done|]. by apply elem_of_map_items.
Qed.

Lemma NoDup_map_keys m : NoDup (map_keys m).
Proof. unfold map_keys. rewrite map_items_perm. apply NoDup_fst_map_to_list. Qed.

Lemma map_items_sorted m : StronglySorted key_le (map_items m).
Proof. apply StronglySorted_merge_sort; apply _. Qed.

Lemma length_map_keys m : length (map_keys m) = size m.
Proof. unfold map_keys. rewrite length_fmap, map_items_perm. apply length_map_to_list. Qed.

Lemma map_items_empty : map_items (∅ : gmap string V) = [].
Proof. unfold map_items. by rewrite map_to_list_empty. Qed.

Lemma map_at_insert_eq d m k v : map_at d (<[k:=v]> m) k = v.
Proof. unfold map_at. by rewrite lookup_insert_eq. Qed.
Lemma map_at_insert_ne d m k k' v : k ≠ k' → map_at d (<[k:=v]> m) k' = map_at d m k'.
Proof. intros. unfold map_at. by rewrite lookup_insert_ne. Qed.
End ordered_map.

(** Traversal of a [std::set<std::string>], in the same order; inserting answers whether the key is new. *)
Definition set_items (X : gset string) : list string := merge_sort String.le (elements X).
Lemma elem_of_set_items X x : x ∈ set_items X ↔ x ∈ X.
Proof. unfold set_items. rewrite merge_sort_Permutation. apply elem_of_elements. Qed.
Lemma NoDup_set_items X : NoDup (set_items X).
Proof. unfold set_items. rewrite merge_sort_Permutation. apply NoDup_elements. Qed.

(** ** Standard-library helpers the sources share *)

(** [std::string::empty]. *)
Definition str_empty (s : string) : bool := match s with EmptyString => true | _ => false end.
(** [std::to_string] of an unsigned integer, in decimal. *)
Definition to_string_nat (n : nat) : string := pretty n.
(** [std::to_string] of a signed integer. *)
Definition to_string_Z (z : Z) : string := pretty z.
(** [a == b] on strings, as the boolean the conditions use. *)
Definition str_eqb (a b : string) : bool := bool_decide (a = b).
(** [std::count_if]. *)
Definition count_if {A} (p : A -> bool) (l : list A) : nat := length (List.filter p l).

(** The widths the program computes with: [std::size_t] and [std::uint64_t] are 64 bits wide. *)
Definition u64_max : Z := 2 ^ 64 - 1.
Definition u64 (z : Z) : Z := z mod 2 ^ 64.
Definition ms (n : Z) : Z := n * 1000000.

Create HintDb topoexec.
Create Rewrite HintDb topoexec.

Lemma str_eqb_eq a b : str_eqb a b = true ↔ a = b.
Proof. unfold str_eqb. apply bool_decide_eq_true. Qed.
Lemma str_eqb_refl a : str_eqb a a = true.
Proof. by apply str_eqb_eq. Qed.
Lemma str_empty_true s : str_empty s = true ↔ s = EmptyString.
Proof. destruct s; simpl; split; congruence. Qed.
Lemma str_app_nil (b : string) : EmptyString +:+ b = b.
Proof. done. Qed.
Lemma str_app_cons a (s b : string) : String a s +:+ b = String a (s +:+ b).
Proof. done. Qed.
Lemma str_app_nil_r (s : string) : s +:+ EmptyString = s.
Proof. induction s as [|a s IH]; [done|]. by rewrite str_app_cons, IH. Qed.
Lemma str_app_assoc (a b c : string) : (a +:+ b) +:+ c = a +:+ b +:+ c.
Proof. induction a as [|x a IH]; [done|]. by rewrite !str_app_cons, IH. Qed.
Lemma str_app_length (a b : string) : String.length (a +:+ b) = String.length a + String.length b.
Proof. induction a as [|x a IH]; [done|]. rewrite str_app_cons. simpl. by rewrite IH. Qed.
Lemma u64_small z : (0 <= z <= u64_max)%Z → u64 z = z.
Proof. unfold u64, u64_max. intros. apply Z.mod_small. lia. Qed.
Lemma u64_range z : (0 <= u64 z <= u64_max)%Z.
Proof. unfold u64, u64_max. pose proof (Z.mod_pos_bound z (2 ^ 64)). lia. Qed.

Lemma u64_le z : (0 <= z)%Z → (u64 z <= z)%Z.
Proof. unfold u64. intros. apply Z.mod_le; lia. Qed.

Section count_if.
Context {A : Type} (p : A -> bool).
Lemma count_if_nil : count_if p [] = 0.
Proof. done. Qed.
Lemma count_if_cons x l : count_if p (x :: l) = (if p x then 1 else 0) + count_if p l.
Proof. unfold count_if. simpl. by destruct (p x). Qed.
Lemma count_if_app l1 l2 : count_if p (l1 ++ l2) = count_if p l1 + count_if p l2.
Proof. unfold count_if. by rewrite List.filter_app, length_app. Qed.
Lemma count_if_le l : count_if p l <= length l.
Proof. induction l as [|x l IH]; [done|]. rewrite count_if_cons. simpl. destruct (p x); lia. Qed.
Lemma count_if_pos l : 0 < count_if p l → ∃ x, x ∈ l ∧ p x = true.
Proof.
  induction l as [|x l IH]; [rewrite count_if_nil; lia|]. rewrite count_if_cons. destruct (p x) eqn:E.
  - intros _. exists x. split; [left|done].
  - intros [y [??]]%IH. exists y. split; [by right|done].
Qed.
End count_if.
#[export] Hint Rewrite @count_if_nil @count_if_cons @count_if_app : topoexec.

(** Sums of a measure over a list. *)
Fixpoint sum_with {A} (f : A -> Z) (l : list A) : Z :=
  match l with [] => 0 | x :: r => f x + sum_with f r end.
Section sum_with.
Context {A : Type} (f : A -> Z).
Lemma sum_with_app l1 l2 : sum_with f (l1 ++ l2) = (sum_with f l1 + sum_with f l2)%Z.
Proof. induction l1 as [|x l1 IH]; cbn [sum_with app]; [done|]. rewrite IH. lia. Qed.
Lemma sum_with_nonneg l : (∀ x, x ∈ l → 0 <= f x)%Z → (0 <= sum_with f l)%Z.
Proof.
  intros H. induction l as [|x l IH]; cbn [sum_with]; [lia|].
  assert (0 <= f x)%Z by (apply H; left). assert (0 <= sum_with f l)%Z by (apply IH; intros; apply H; by right). lia.
Qed.
End sum_with.

(** Removing the first element that satisfies a test: [erase(find_if(...))]. *)
Fixpoint remove_first {A} (p : A -> bool) (l : list A) : option (list A) :=
  match l with
  | [] => None
  | x :: r => if p x then Some r else option_map (cons x) (remove_first p r)
  end.
Section remove_first.
Context {A : Type} (p : A -> bool).
Lemma remove_first_Some l l' :
  remove_first p l = Some l' ↔ ∃ l1 x l2, l = l1 ++ x :: l2 ∧ l' = l1 ++ l2 ∧ p x = true ∧ Forall (fun y => p y = false) l1.
Proof.
  revert l'. induction l as [|y l IH]; intros l'; simpl.
  - split; [done|]. intros (l1 & x & l2 & H & _). by destruct l1.
  - destruct (p y) eqn:E.
    + split.
      * intros [= <-]. exists [], y, l. auto.
      * intros (l1 & x & l2 & H & -> & Hx & Hl). destruct l1 as [|z l1]; simplify_eq/=; [done|].
        inversion Hl; congruence.
    + split.
      * destruct (remove_first p l) as [r|]; [|done]. intros [= <-].
        destruct (proj1 (IH r) eq_refl) as (l1 & x & l2 & -> & -> & Hx & Hl).
        exists (y :: l1), x, l2. auto.
      * intros (l1 & x & l2 & H & -> & Hx & Hl). destruct l1 as [|z l1]; simplify_eq/=; [congruence|].
        inversion Hl; subst. rewrite (proj2 (IH (l1 ++ l2))); [done|]. eauto 10.
Qed.
Lemma remove_first_None l : remove_first p l = None ↔ Forall (fun y => p y = false) l.
Proof.
  induction l as [|y l IH]; simpl; [split; auto|]. destruct (p y) eqn:E.
  - split; [done|]. inversion 1; congruence.
  - destruct (remove_first p l); simpl.
    + split; [done|]. intros [_ H]%Forall_cons. apply IH in H. done.
    + split; [|done]. intros _. constructor; [done|]. by apply IH.
Qed.
Lemma remove_first_count q l l' :
  remove_first p l = Some l' → (∀ x, p x = true → q x = true) → count_if q l = S (count_if q l').
Proof.
  intros (l1 & x & l2 & -> & -> & Hx & _)%remove_first_Some Hq.
  autorewrite with topoexec. rewrite (Hq x Hx). lia.
Qed.
Lemma remove_first_length l l' : remove_first p l = Some l' → length l = S (length l').
Proof.
  intros (l1 & x & l2 & -> & -> & _ & _)%remove_first_Some. rewrite !length_app. simpl. lia.
Qed.
End remove_first.

(** ** Tactics *)

(** Split every conjunction and existential of the hypotheses, and use the equations. *)
Ltac split_hyps :=
  repeat match goal with
  | H : _ ∧ _ |- _ => destruct H
  | H : ∃ _, _ |- _ => destruct H
  end; simplify_eq/=.
(** Rewrite with the hypothesis that gives the value of [t]. *)
Ltac use_eq t := match goal with H : t = _ |- _ => rewrite H end.
(** Case on the tests of the goal, then simplify. *)
Ltac crush_match := repeat (case_match; simplify_eq/=; try done).

(** ** [std::min_element]: the first element that no later one beats *)
Fixpoint min_element_from {A} (lt : A -> A -> bool) (best : A) (l : list A) : A :=
  match l with
  | [] => best
  | x :: r => min_element_from lt (if lt x best then x else best) r
  end.
Definition min_element {A} (lt : A -> A -> bool) (l : list A) : option A :=
  match l with [] => None | x :: r => Some (min_element_from lt x r) end.

Section min_element.
Context {A : Type} (lt : A -> A -> bool).
Context (lt_trans : ∀ x y z, lt x y = true → lt y z = true → lt x z = true).
Context (lt_irrefl : ∀ x, lt x x = false).
Context (lt_incomp : ∀ x y z, lt x y = false → lt y z = false → lt x z = false).

Lemma min_element_from_elem best l : min_element_from lt best l = best ∨ min_element_from lt best l ∈ l.
Proof.
  revert best. induction l as [|x l IH]; intros best; simpl; [by left|].
  destruct (IH (if lt x best then x else best)) as [->|?]; [|right; by right].
  destruct (lt x best); [right; left|by left].
Qed.

Lemma min_element_from_le best l :
  lt best (min_element_from lt best l) = false ∧ ∀ y, y ∈ l → lt y (min_element_from lt best l) = false.
Proof.
  revert best. induction l as [|x l IH]; intros best; simpl.
  - split; [apply lt_irrefl|]. intros y Hy. by apply elem_of_nil in Hy.
  - destruct (IH (if lt x best then x else best)) as [H1 H2]. destruct (lt x best) eqn:E.
    + assert (Hb : lt best x = false).
      { destruct (lt best x) eqn:E'; [|done]. pose proof (lt_trans _ _ _ E E') as Hc.
        by rewrite lt_irrefl in Hc. }
      split; [by apply (lt_incomp _ x)|]. intros y [->|Hy]%elem_of_cons; auto.
    + split; [done|]. intros y [->|Hy]%elem_of_cons; [|auto]. by apply (lt_incomp _ best).
Qed.
End min_element.
