(* ===== verification/GraphSpec.v ===== *)
(** * GraphSpec: the declarative graph model shared by every component

    The structs of [include/topoexec/runtime/graph.hpp], [component.hpp] and [clock.hpp] that the runtime
    components read, with their default member initialisers, and the endpoint helpers of
    [src/channel.cpp] and [src/graph.cpp].  C++ [int] fields are [Z]; [std::vector] is [list];
    [std::map] is [gmap string]. *)

From S2P Require Export Prelude.
From Stdlib Require Import Ascii.
From Stdlib Require QArith_base.
Local Open Scope nat_scope.
Local Open Scope string_scope.

(** ** Clocks and timestamps (clock.hpp) *)
Inductive TimestampDomain := kSteady | kSystem | kDevice | kExternal.
#[export] Instance TimestampDomain_eq_dec : EqDecision TimestampDomain.
Proof. solve_decision. Defined.

Definition parse_timestamp_domain_value (value : string) : option TimestampDomain :=
  if str_eqb value "steady" then Some kSteady else
  if str_eqb value "system" then Some kSystem else
  if str_eqb value "device" then Some kDevice else
  if str_eqb value "external" then Some kExternal else None.
Definition is_timestamp_domain_value (value : string) : bool :=
  match parse_timestamp_domain_value value with Some _ => true | None => false end.
Definition timestamp_domain_name (domain : TimestampDomain) : string :=
  match domain with
  | kSteady => "steady" | kSystem => "system" | kDevice => "device" | kExternal => "external"
  end.

Record EventTimestamp := mkEventTimestamp {
  ts_domain : TimestampDomain;
  ts_nanoseconds : Z;
  ts_source : string }.
Definition make_event_timestamp (domain : TimestampDomain) (nanoseconds : Z) (source : string) : EventTimestamp :=
  mkEventTimestamp domain nanoseconds source.

(** ** Component specs (graph.hpp, component.hpp) *)
Record ConfigView := mkConfigView {
  config_values : gmap string string;
  config_nested_values : gset string }.
Definition config_is_nested (c : ConfigView) (name : string) : bool := bool_decide (name ∈ config_nested_values c).
Definition empty_config : ConfigView := mkConfigView ∅ ∅.

Inductive ComponentRole := kProcessing | kInputBoundary | kOutputBoundary | kInputOutputBoundary.
Definition component_role_name (role : ComponentRole) : string :=
  match role with
  | kProcessing => "processing" | kInputBoundary => "input"
  | kOutputBoundary => "output" | kInputOutputBoundary => "input_output"
  end.
Definition parse_component_role (value : string) : option ComponentRole :=
  if str_eqb value "processing" then Some kProcessing else
  if str_eqb value "input" then Some kInputBoundary else
  if str_eqb value "output" then Some kOutputBoundary else
  if str_eqb value "input_output" then Some kInputOutputBoundary else None.
Definition component_role_has_input (role : ComponentRole) : bool :=
  match role with kInputBoundary | kInputOutputBoundary => true | _ => false end.
Definition component_role_has_output (role : ComponentRole) : bool :=
  match role with kOutputBoundary | kInputOutputBoundary => true | _ => false end.

Record EventSourceSpec := mkEventSource {
  source_id : string; source_type : string; source_inputs : list string; source_input : string;
  source_period_ms : Z }.
Record TriggerPolicySpec := mkTriggerPolicy {
  trigger_type : string; trigger_inputs : list string; trigger_input : string;
  batch_size : Z; batch_window_ms : Z; sync_slop_ms : Z; min_interval_ms : Z; max_latency_ms : Z;
  watermark_lateness_ms : Z; debounce_window_ms : Z; trigger_condition : string; coalesce : bool }.
Record ExecutionSpec := mkExecution {
  exec_lane : string; exec_reentrant : bool; exec_priority : string; exec_budget_ms : Z; exec_on_error : string }.
Record ComponentNodeSpec := mkComponentNode {
  comp_id : string; comp_type : string; event_sources : list EventSourceSpec;
  trigger_policy : TriggerPolicySpec; execution : ExecutionSpec; depends_on : list string;
  boundary_role : ComponentRole; boundary_descriptor : string; comp_config : ConfigView }.

Definition default_trigger_policy : TriggerPolicySpec :=
  mkTriggerPolicy "manual" [] "" 0 0 0 0 0 0 0 "all_inputs_ready" false.
Definition default_execution : ExecutionSpec := mkExecution "" false "normal" 0 "fail_fast".

(** ** Edges *)
Record EdgePolicySpec := mkEdgePolicy {
  policy_mode : string; policy_capacity : Z; policy_overflow : string; policy_lifespan_ms : Z;
  policy_deadline_ms : Z; policy_max_inflight : Z; policy_preserve_order : bool; policy_allow_drop : bool;
  policy_emit_health_events : bool; policy_timestamp_domain : string; policy_copy_policy : string;
  policy_owner : string; policy_readers : string }.
Definition default_edge_policy : EdgePolicySpec :=
  mkEdgePolicy "latest" 1 "overwrite" 0 0 0 true true true "steady" "copy" "runtime" "single".

Inductive EdgeKind := kImmediate | kDelay | kState | kAsync.
#[export] Instance EdgeKind_eq_dec : EqDecision EdgeKind.
Proof. solve_decision. Defined.
Definition edge_kind_name (kind : EdgeKind) : string :=
  match kind with kImmediate => "immediate" | kDelay => "delay" | kState => "state" | kAsync => "async" end.

Record EdgeSpec := mkEdge {
  edge_id : string; edge_from : string; edge_to : string; edge_kind : EdgeKind; edge_has_kind : bool;
  edge_invalid_kind : string; edge_policy : EdgePolicySpec }.

(** ** Lanes, composite loops and the graph *)
Record LaneSpec := mkLane {
  lane_id : string; lane_type : string; lane_hz : QArith_base.Q; lane_priority : string; lane_max_callback_ms : Z;
  lane_max_threads : Z; lane_queue_capacity : Z; lane_overflow : string; lane_wall_clock_enabled : bool;
  lane_period_ms : Z; lane_tick_budget_ms : Z; lane_overrun_policy : string; lane_thread_name : string;
  lane_cpu_affinity : list Z; lane_nice_priority : Z; lane_rt_policy : string; lane_rt_priority : Z;
  lane_isolation_intent : string }.
Record LoopPolicySpec := mkLoopPolicy {
  loop_type : string; loop_budget_ms : Z; loop_max_iterations : Z; loop_max_inflight : Z;
  loop_drop_policy : string; loop_min_interval_ms : Z; loop_convergence : string;
  loop_residual_threshold : option QArith_base.Q; loop_partial_success : string }.
Record CompositeLoopSpec := mkCompositeLoop {
  loop_id : string; loop_components : list string; loop_policy : LoopPolicySpec }.
Record GraphHierarchyEntry := mkHierarchy {
  hier_id : string; hier_components : list string; hier_edges : list string; hier_composite_loops : list string }.
Record ClockPolicySpec := mkClockPolicy { clock_runtime_domain : string; clock_event_domain : string }.
Record GraphSpec := mkGraph {
  graph_schema_version : Z; graph_name : string; graph_kind : string; graph_clock : ClockPolicySpec;
  graph_config : ConfigView; graph_lanes : list LaneSpec; graph_components : list ComponentNodeSpec;
  graph_edges : list EdgeSpec; graph_composite_loops : list CompositeLoopSpec;
  graph_hierarchy : list GraphHierarchyEntry }.
Definition kTopoExecSchemaVersion : Z := 1.

(** ** The compiled plan *)
Inductive CompiledRegionKind := kComponent | kCompositeLoop.
Definition region_kind_name (kind : CompiledRegionKind) : string :=
  match kind with kComponent => "component" | kCompositeLoop => "composite_loop" end.
Record CompiledGraphRegion := mkRegion {
  region_id : string; region_kind : CompiledRegionKind; region_components : list string;
  region_loop_id : string; region_loop_policy : LoopPolicySpec;
  incoming_regions : list string; outgoing_regions : list string }.
Record GraphCompiledPlan := mkPlan {
  plan_regions : list CompiledGraphRegion; region_order : list string;
  component_region : gmap string string; immediate_sccs : list (list string) }.
#[export] Instance eta_CompiledGraphRegion : Eta CompiledGraphRegion := fun r =>
  mkRegion (region_id r) (region_kind r) (region_components r) (region_loop_id r) (region_loop_policy r)
    (incoming_regions r) (outgoing_regions r).
#[export] Instance eta_GraphCompiledPlan : Eta GraphCompiledPlan := fun p =>
  mkPlan (plan_regions p) (region_order p) (component_region p) (immediate_sccs p).
Definition default_loop_policy : LoopPolicySpec := mkLoopPolicy "" 0 0 0 "" 0 "" None "".

(** ** Endpoints: "component.port" *)

(** [endpoint.rfind('.')]; [None] is [std::string::npos]. *)
Fixpoint rfind_dot (s : string) : option nat :=
  match s with
  | EmptyString => None
  | String c r =>
      match rfind_dot r with
      | Some n => Some (S n)
      | None => if bool_decide (c = "."%char) then Some 0 else None
      end
  end.

Definition component_id_from_endpoint (endpoint : string) : string :=
  match rfind_dot endpoint with
  | None => endpoint
  | Some dot => String.substring 0 dot endpoint
  end.

Definition port_name_from_endpoint (endpoint : string) : string :=
  match rfind_dot endpoint with
  | None => ""
  | Some dot =>
      if (String.length endpoint <=? dot + 1)%nat then ""
      else String.substring (dot + 1) (String.length endpoint - (dot + 1)) endpoint
  end.

(** ** Lemmas *)
Lemma parse_timestamp_domain_name d : parse_timestamp_domain_value (timestamp_domain_name d) = Some d.
Proof. by destruct d. Qed.
Lemma parse_component_role_name r : parse_component_role (component_role_name r) = Some r.
Proof. by destruct r. Qed.

Lemma rfind_dot_app_dot c p : rfind_dot p = None → rfind_dot (c +:+ "." +:+ p) = Some (String.length c).
Proof.
  intros Hp. induction c as [|a c IH].
  - rewrite str_app_nil, str_app_cons, str_app_nil. cbn. by rewrite Hp.
  - rewrite str_app_cons. cbn. by rewrite IH.
Qed.
Lemma substring_prefix a b : String.substring 0 (String.length a) (a +:+ b) = a.
Proof. induction a as [|x a IH]; [by destruct b|]. rewrite str_app_cons. cbn. by rewrite IH. Qed.
Lemma substring_all b : String.substring 0 (String.length b) b = b.
Proof. rewrite <- (str_app_nil_r b) at 2. apply substring_prefix. Qed.
Lemma substring_suffix a b n :
  String.substring (String.length a + n) (String.length b) (a +:+ b) = String.substring n (String.length b) b.
Proof. induction a as [|x a IH]; [done|]. rewrite str_app_cons. cbn. done. Qed.

(** Splitting an endpoint built as [component_id + "." + port] (component.cpp [GraphContext::publish]) gives the
    two parts back, whenever the port name contains no dot. *)
Lemma endpoint_split c p : rfind_dot p = None →
  component_id_from_endpoint (c +:+ "." +:+ p) = c ∧ port_name_from_endpoint (c +:+ "." +:+ p) = p.
Proof.
  intros Hp. unfold component_id_from_endpoint, port_name_from_endpoint. rewrite rfind_dot_app_dot by done.
  split; [apply substring_prefix|]. rewrite !str_app_length. change (String.length ".") with 1.
  destruct (Nat.leb_spec (String.length c + (1 + String.length p)) (String.length c + 1)).
  - destruct p; simpl in *; [done|lia].
  - replace (String.length c + (1 + String.length p) - (String.length c + 1)) with (String.length p) by lia.
    rewrite <- str_app_assoc. replace (String.length c + 1) with (String.length (c +:+ ".") + 0)
      by (rewrite str_app_length; simpl; lia).
    rewrite substring_suffix. apply substring_all.
Qed.
