(* ===== verification/Payload.v ===== *)
(** * Payload: shared buffers, frame views and runtime payloads

    Models [src/payload.cpp], [include/topoexec/runtime/payload.hpp] and the [SharedBuffer]/[FrameView] part of
    [src/buffer.cpp].  A [std::shared_ptr<SharedBuffer>] is an optional address into a buffer heap, because
    buffers are mutable and shared; a [std::shared_ptr<const RuntimePayload>] is an optional value, because the
    pointee never changes.  [std::size_t] fields are [Z] in the range [0 .. 2^64-1], and every subtraction on
    them wraps.  An exception is the left summand of a result. *)

From S2P Require Export GraphSpec.
Local Open Scope nat_scope.

(** ** Shared buffers *)
Record SharedBuffer := mkSharedBuffer { sb_bytes : list Z }.
Abbreviation buffer_heap := (gmap nat SharedBuffer).
Abbreviation buffer_ptr := (option nat).

Definition SharedBuffer_new (size : nat) : SharedBuffer := mkSharedBuffer (replicate size 0%Z).
Definition SharedBuffer_size (b : SharedBuffer) : Z := Z.of_nat (length (sb_bytes b)).
Definition SharedBuffer_resize (b : SharedBuffer) (size : nat) : SharedBuffer :=
  mkSharedBuffer (resize size 0%Z (sb_bytes b)).
(** [buffer->size()] through a non-null pointer. *)
Definition buffer_size (h : buffer_heap) (l : nat) : Z := from_option SharedBuffer_size 0%Z (h !! l).

(** An address inside a buffer: the buffer and a byte offset; [None] is [nullptr]. *)
Abbreviation address := (option (nat * Z)).

(** The bounds test shared by [FrameView::valid] and [BinaryBlobPayload::valid]: two comparisons and a
    subtraction that cannot wrap once the first comparison holds. *)
Definition view_valid (h : buffer_heap) (buffer : buffer_ptr) (offset size : Z) : bool :=
  match buffer with
  | None => false
  | Some l => (offset <=? buffer_size h l)%Z && (size <=? u64 (buffer_size h l - offset))%Z
  end.

Record FrameView := mkFrameView {
  fv_buffer : buffer_ptr; fv_offset : Z; fv_size : Z; fv_width : Z; fv_height : Z; fv_stride : Z;
  fv_format : string }.
Definition empty_frame : FrameView := mkFrameView None 0 0 0 0 0 "".
Definition FrameView_valid (h : buffer_heap) (f : FrameView) : bool :=
  view_valid h (fv_buffer f) (fv_offset f) (fv_size f).
Definition FrameView_data (h : buffer_heap) (f : FrameView) : address :=
  if negb (FrameView_valid h f) then None
  else match fv_buffer f with None => None | Some l => Some (l, fv_offset f) end.
Definition FrameView_payload_address (h : buffer_heap) (f : FrameView) : address := FrameView_data h f.

(** ** Payload variants *)
Record BinaryBlobPayload := mkBinaryBlob {
  blob_buffer : buffer_ptr; blob_offset : Z; blob_size : Z; blob_format : string }.
Definition BinaryBlobPayload_valid (h : buffer_heap) (b : BinaryBlobPayload) : bool :=
  view_valid h (blob_buffer b) (blob_offset b) (blob_size b).
Definition BinaryBlobPayload_data (h : buffer_heap) (b : BinaryBlobPayload) : address :=
  if negb (BinaryBlobPayload_valid h b) then None
  else match blob_buffer b with None => None | Some l => Some (l, blob_offset b) end.

Record OpaquePayload := mkOpaque {
  opaque_object : option nat; opaque_size_bytes : Z; opaque_debug_summary : string }.
Definition OpaquePayload_valid (o : OpaquePayload) : bool :=
  match opaque_object o with Some _ => true | None => false end.

Inductive RuntimePayloadValue :=
| TextPayload (text : string)
| FramePayload (frame : FrameView)
| BlobPayload (blob : BinaryBlobPayload)
| OpaqueValue (opaque : OpaquePayload).

Record RuntimePayload := mkPayload { payload_schema : string; payload_value : RuntimePayloadValue }.
Abbreviation RuntimePayloadPtr := (option RuntimePayload).

Definition kTextPayloadSchema : string := "topoexec.runtime.Text".
Definition kFrameViewPayloadSchema : string := "topoexec.runtime.FrameView".
Definition kBinaryBlobPayloadSchema : string := "topoexec.runtime.BinaryBlob".

Definition is_text (p : RuntimePayload) : bool :=
  match payload_value p with TextPayload _ => true | _ => false end.
Definition is_large_payload (p : RuntimePayload) : bool := negb (is_text p).

Definition make_text_payload (text schema : string) : RuntimePayload := mkPayload schema (TextPayload text).
Definition make_frame_payload (frame : FrameView) (schema : string) : RuntimePayload :=
  mkPayload schema (FramePayload frame).
Definition make_binary_blob_payload (buffer : buffer_ptr) (offset size : Z) (format schema : string) : RuntimePayload :=
  mkPayload schema (BlobPayload (mkBinaryBlob buffer offset size format)).
Definition make_opaque_payload (object : option nat) (schema : string) (size_bytes : Z) (summary : string)
  : RuntimePayload := mkPayload schema (OpaqueValue (mkOpaque object size_bytes summary)).
Definition make_shared_payload (p : RuntimePayload) : RuntimePayloadPtr := Some p.

(** ** Typed access: the message of the exception, or the alternative *)
Definition context_prefix (context : string) : string := if str_empty context then "" else context +:+ ": ".
Definition require_text_payload (p : RuntimePayload) (context : string) : string + string :=
  match payload_value p with
  | TextPayload t => inr t
  | _ => inl (context_prefix context +:+ "expected Text payload, got schema " +:+ payload_schema p)
  end.
Definition require_frame_payload (p : RuntimePayload) (context : string) : string + FrameView :=
  match payload_value p with
  | FramePayload f => inr f
  | _ => inl (context_prefix context +:+ "expected FrameView payload, got schema " +:+ payload_schema p)
  end.
Definition require_binary_blob_payload (p : RuntimePayload) (context : string) : string + BinaryBlobPayload :=
  match payload_value p with
  | BlobPayload b => inr b
  | _ => inl (context_prefix context +:+ "expected BinaryBlob payload, got schema " +:+ payload_schema p)
  end.
Definition require_opaque_payload (p : RuntimePayload) (context : string) : string + OpaquePayload :=
  match payload_value p with
  | OpaqueValue o => inr o
  | _ => inl (context_prefix context +:+ "expected Opaque payload, got schema " +:+ payload_schema p)
  end.

Definition payload_text (p : RuntimePayload) : string + string := require_text_payload p "".
Definition payload_empty (p : RuntimePayload) : string + bool :=
  match payload_text p with inl e => inl e | inr t => inr (str_empty t) end.
Definition payload_eq_string (p : RuntimePayload) (rhs : string) : string + bool :=
  match payload_text p with inl e => inl e | inr t => inr (str_eqb t rhs) end.

Definition copy_text_payload (p : RuntimePayload) : string + RuntimePayload :=
  match require_text_payload p "" with
  | inl e => inl e
  | inr t => inr (make_text_payload t (payload_schema p))
  end.

(** ** Descriptions *)
Definition kMaxSummaryBytes : nat := 64.
Definition summarize_text (text : string) : string :=
  if String.length text <=? kMaxSummaryBytes then text
  else String.substring 0 kMaxSummaryBytes text +:+ "...".

Record PayloadSchemaInfo := mkSchemaInfo {
  info_type_name : string; info_schema_id : string; info_summary : string; info_size_estimate : Z;
  info_large : bool }.

Definition describe_payload_schema (p : RuntimePayload) : PayloadSchemaInfo :=
  match payload_value p with
  | TextPayload text =>
      mkSchemaInfo "TextPayload" (payload_schema p) (summarize_text text) (Z.of_nat (String.length text))
        (is_large_payload p)
  | FramePayload frame =>
      let base := if str_empty (fv_format frame) then "frame" else fv_format frame in
      let summary :=
        if (negb (fv_width frame =? 0) || negb (fv_height frame =? 0))%Z
        then base +:+ " " +:+ to_string_Z (fv_width frame) +:+ "x" +:+ to_string_Z (fv_height frame) else base in
      mkSchemaInfo "FrameView" (payload_schema p) summary (fv_size frame) (is_large_payload p)
  | BlobPayload blob =>
      mkSchemaInfo "BinaryBlobPayload" (payload_schema p)
        (if str_empty (blob_format blob) then "binary_blob" else blob_format blob) (blob_size blob)
        (is_large_payload p)
  | OpaqueValue opaque =>
      mkSchemaInfo "OpaquePayload" (payload_schema p) (opaque_debug_summary opaque) (opaque_size_bytes opaque)
        (is_large_payload p)
  end.

(** [operator<<]: the text written to the stream. *)
Definition payload_to_stream (p : RuntimePayload) : string :=
  match payload_value p with
  | TextPayload t => t
  | OpaqueValue o =>
      if negb (str_empty (opaque_debug_summary o))
      then payload_schema p +:+ ":" +:+ opaque_debug_summary o else payload_schema p
  | _ => payload_schema p
  end.

(** ** Properties *)

(** Bytes a view can reach: every index of the view is an index of its buffer. *)
Lemma view_valid_spec h l off sz : (0 <= off)%Z → (0 <= sz)%Z → (buffer_size h l <= u64_max)%Z →
  view_valid h (Some l) off sz = true ↔ (off + sz <= buffer_size h l)%Z.
Proof.
  intros Ho Hs Hb. unfold view_valid. rewrite andb_true_iff, !Z.leb_le. split.
  - intros [H1 H2]. rewrite u64_small in H2 by lia. lia.
  - intros H. split; [lia|]. rewrite u64_small by lia. lia.
Qed.

Lemma buffer_size_nonneg h l : (0 <= buffer_size h l)%Z.
Proof. unfold buffer_size, SharedBuffer_size. destruct (h !! l); simpl; lia. Qed.

(** A [FrameView] is accepted exactly when the whole byte range lies inside its buffer: the test cannot be
    defeated by an [offset + size] that wraps around 64 bits. *)
Theorem frame_valid_in_bounds h f :
  (0 <= fv_offset f <= u64_max)%Z → (0 <= fv_size f <= u64_max)%Z →
  (∀ l, buffer_size h l <= u64_max)%Z →
  FrameView_valid h f = true ↔
  ∃ l, fv_buffer f = Some l ∧ (fv_offset f + fv_size f <= buffer_size h l)%Z ∧
       FrameView_data h f = Some (l, fv_offset f).
Proof.
  intros Ho Hs Hb. unfold FrameView_data. split.
  - intros Hv. rewrite Hv. simpl. destruct (fv_buffer f) as [l|] eqn:E; [|by unfold FrameView_valid in Hv; rewrite E in Hv].
    exists l. unfold FrameView_valid in Hv. rewrite E in Hv. split; [done|]. split; [|done].
    apply view_valid_spec in Hv; [done|lia..|]. apply Hb.
  - intros (l & El & Hle & _). unfold FrameView_valid. rewrite El.
    apply view_valid_spec; [lia..|apply Hb|done].
Qed.

(** The deep copy a [copy] channel makes: it succeeds exactly on text payloads, and the copy has the same schema
    and the same text. *)
Lemma copy_text_payload_spec p :
  (is_large_payload p = false ∧ copy_text_payload p = inr p) ∨
  (is_large_payload p = true ∧
   copy_text_payload p = inl ("expected Text payload, got schema " +:+ payload_schema p)).
Proof.
  unfold copy_text_payload, require_text_payload, is_large_payload, is_text, make_text_payload.
  destruct p as [s [t|f|b|o]]; simpl; auto.
Qed.

Lemma summarize_text_length t : String.length (summarize_text t) <= kMaxSummaryBytes + 3.
Proof.
  unfold summarize_text. destruct (Nat.leb_spec (String.length t) kMaxSummaryBytes); [lia|].
  rewrite str_app_length. change (String.length "...") with 3.
  assert (∀ s n, String.length (String.substring 0 n s) <= n) as Hsub.
  { induction s as [|c s IH]; intros [|n]; simpl; try lia. specialize (IH n). lia. }
  specialize (Hsub t kMaxSummaryBytes). lia.
Qed.
