(* ===== verification/Buffer.v ===== *)
(** * Buffer: the byte-buffer pool and its loaned frames

    Models [src/buffer.cpp] ([BufferPool], [LoanedFrame]) and [include/topoexec/runtime/buffer.hpp].  Every public
    operation of the pool holds [mutex_] for its whole body, so an operation is one atomic step on the heap of
    buffers, the pool and the loaned frames.  Byte sizes are 64-bit: every sum of sizes wraps ([u64]); counters
    that grow by one per call are [nat]. *)

From S2P Require Export Payload.
Local Open Scope nat_scope.

(** ** Sizes *)
Definition align_up (value alignment : Z) : Z :=
  if ((alignment <=? 1) || (value =? 0))%Z then value else
  let remainder := (value mod alignment)%Z in
  if (remainder =? 0)%Z then value else
  let increment := (alignment - remainder)%Z in
  if (u64_max - increment <? value)%Z then value else (value + increment)%Z.

Record BufferPoolConfig := mkPoolConfig {
  fixed_block_size : Z; bucket_sizes : list Z; alignment : Z; max_bytes : Z }.
Record BufferPoolStats := mkPoolStats {
  alloc_count : nat; reuse_count : nat; loan_count : nat; release_count : nat; detached_count : nat;
  exhausted_count : nat; bytes_allocated : Z; bytes_owned : Z; active_bytes : Z; high_watermark_bytes : Z;
  bytes_available : Z; active_count : nat; available_count : nat; stats_max_bytes : Z }.
#[export] Instance eta_BufferPoolStats : Eta BufferPoolStats := fun s =>
  mkPoolStats (alloc_count s) (reuse_count s) (loan_count s) (release_count s) (detached_count s)
    (exhausted_count s) (bytes_allocated s) (bytes_owned s) (active_bytes s) (high_watermark_bytes s)
    (bytes_available s) (active_count s) (available_count s) (stats_max_bytes s).
Definition empty_pool_stats : BufferPoolStats := mkPoolStats 0 0 0 0 0 0 0 0 0 0 0 0 0 0.

Record BufferPool := mkPool {
  pool_config : BufferPoolConfig; pool_available : list buffer_ptr; pool_stats : BufferPoolStats }.
#[export] Instance eta_BufferPool : Eta BufferPool := fun p =>
  mkPool (pool_config p) (pool_available p) (pool_stats p).

Definition BufferPool_new (config : BufferPoolConfig) : BufferPool :=
  let config := if (alignment config =? 0)%Z
                then mkPoolConfig (fixed_block_size config) (bucket_sizes config) 1 (max_bytes config) else config in
  mkPool config [] (empty_pool_stats <| stats_max_bytes := max_bytes config |>).

(** Buckets that fit come before buckets that do not; among either kind, smaller is better. *)
Definition bucket_lt (requested lhs rhs : Z) : bool :=
  let lhs_fits := (requested <=? lhs)%Z in
  let rhs_fits := (requested <=? rhs)%Z in
  if negb (Bool.eqb lhs_fits rhs_fits) then lhs_fits else (lhs <? rhs)%Z.

Definition allocation_size (config : BufferPoolConfig) (requested : Z) : Z :=
  let chosen :=
    match bucket_sizes config with
    | [] => if (0 <? fixed_block_size config)%Z then Z.max (fixed_block_size config) requested else requested
    | _ :: _ =>
        match min_element (bucket_lt requested) (bucket_sizes config) with
        | Some bucket => if (requested <=? bucket)%Z then bucket else requested
        | None => requested
        end
    end in
  align_up chosen (alignment config).

Definition can_allocate (p : BufferPool) (allocation_size : Z) : bool :=
  (max_bytes (pool_config p) =? 0)%Z ||
  ((bytes_owned (pool_stats p) <=? max_bytes (pool_config p))%Z &&
   (allocation_size <=? u64 (max_bytes (pool_config p) - bytes_owned (pool_stats p)))%Z).

(** ** Pool operations *)
Definition ptr_size (h : buffer_heap) (b : buffer_ptr) : Z := from_option (buffer_size h) 0%Z b.
Definition refresh_available_stats (h : buffer_heap) (p : BufferPool) : BufferPool :=
  p <| pool_stats ::= fun s =>
    s <| available_count := length (pool_available p) |>
      <| bytes_available := fold_left (fun acc b => u64 (acc + ptr_size h b)) (pool_available p) 0%Z |> |>.

(** A loaned frame: whether [pool_] still points to the pool, and its view. *)
Record LoanedFrame := mkLoanedFrame { lf_pool : bool; lf_view : FrameView }.
Definition empty_loan : LoanedFrame := mkLoanedFrame false empty_frame.

(** The first free buffer that is large enough, and the free list without it. *)
Fixpoint take_reusable (h : buffer_heap) (size : Z) (l : list buffer_ptr) : option (nat * list buffer_ptr) :=
  match l with
  | [] => None
  | c :: r =>
      match c with
      | Some b => if (size <=? buffer_size h b)%Z then Some (b, r)
                  else option_map (fun x => (x.1, c :: x.2)) (take_reusable h size r)
      | None => option_map (fun x => (x.1, c :: x.2)) (take_reusable h size r)
      end
  end.

Definition account_loan (h : buffer_heap) (b : nat) (s : BufferPoolStats) : BufferPoolStats :=
  let active := u64 (active_bytes s + buffer_size h b) in
  s <| loan_count ::= S |> <| active_count ::= S |> <| active_bytes := active |>
    <| high_watermark_bytes := Z.max (high_watermark_bytes s) active |>.

Definition loan_frame (h : buffer_heap) (p : BufferPool) (size width height stride : Z) (format : string)
  : buffer_heap * BufferPool * LoanedFrame :=
  let frame b := mkLoanedFrame true (mkFrameView (Some b) 0 size width height stride format) in
  match take_reusable h size (pool_available p) with
  | None =>
      let allocated_size := allocation_size (pool_config p) size in
      if negb (can_allocate p allocated_size)
      then (h, refresh_available_stats h (p <| pool_stats ::= fun s => s <| exhausted_count ::= S |> |>), empty_loan)
      else
        let b := fresh (dom h) in
        let h' := <[b := SharedBuffer_new (Z.to_nat allocated_size)]> h in
        let p1 := p <| pool_stats ::= fun s =>
          s <| alloc_count ::= S |> <| bytes_allocated ::= fun x => u64 (x + allocated_size) |>
            <| bytes_owned ::= fun x => u64 (x + allocated_size) |> |> in
        (h', refresh_available_stats h' (p1 <| pool_stats ::= account_loan h' b |>), frame b)
  | Some (b, rest) =>
      let p1 := p <| pool_available := rest |> <| pool_stats ::= fun s => s <| reuse_count ::= S |> |> in
      (h, refresh_available_stats h (p1 <| pool_stats ::= account_loan h b |>), frame b)
  end.

(** [if (x >= size) x -= size; else x = 0]. *)
Definition saturating_sub (x size : Z) : Z := if (size <=? x)%Z then (x - size)%Z else 0%Z.

Definition mark_detached (h : buffer_heap) (p : BufferPool) (buffer : buffer_ptr) : BufferPool :=
  match buffer with
  | None => p
  | Some b =>
      refresh_available_stats h (p <| pool_stats ::= fun s =>
        s <| detached_count ::= S |> <| active_count ::= pred |>
          <| active_bytes ::= fun x => saturating_sub x (buffer_size h b) |>
          <| bytes_owned ::= fun x => saturating_sub x (buffer_size h b) |> |>)
  end.

Definition return_buffer (h : buffer_heap) (p : BufferPool) (buffer : buffer_ptr) : BufferPool :=
  match buffer with
  | None => p
  | Some b =>
      refresh_available_stats h (p <| pool_available ::= fun l => l ++ [Some b] |> <| pool_stats ::= fun s =>
        s <| release_count ::= S |> <| active_count ::= pred |>
          <| active_bytes ::= fun x => saturating_sub x (buffer_size h b) |> |>)
  end.

Definition has_outstanding_loans (p : BufferPool) : bool := negb (active_count (pool_stats p) =? 0).

(** [LoanedFrame::release] (also the destructor) and [LoanedFrame::detach]. *)
Definition LoanedFrame_release (h : buffer_heap) (p : BufferPool) (f : LoanedFrame) : BufferPool * LoanedFrame :=
  let p' := if lf_pool f && bool_decide (fv_buffer (lf_view f) <> None)
            then return_buffer h p (fv_buffer (lf_view f)) else p in
  (p', empty_loan).
Definition LoanedFrame_detach (h : buffer_heap) (p : BufferPool) (f : LoanedFrame)
  : BufferPool * LoanedFrame * FrameView :=
  let p' := if lf_pool f && bool_decide (fv_buffer (lf_view f) <> None)
            then mark_detached h p (fv_buffer (lf_view f)) else p in
  let v := lf_view f in
  (p', mkLoanedFrame false (mkFrameView None (fv_offset v) (fv_size v) (fv_width v) (fv_height v) (fv_stride v) ""), v).
Definition LoanedFrame_valid (h : buffer_heap) (f : LoanedFrame) : bool := FrameView_valid h (lf_view f).

(** ** The pool and its clients as a transition system *)
Record PoolWorld := mkWorld { w_heap : buffer_heap; w_pool : BufferPool; w_loans : list LoanedFrame }.

(** A client loans a frame, or releases or detaches the i-th frame it was given.  The premise of [step_loan] is
    the machine's: the buffers that are alive together fit in a 64-bit address space. *)
Inductive pool_step : PoolWorld -> PoolWorld -> Prop :=
| step_loan h p ls size width height stride format h' p' f :
    (0 <= size <= u64_max)%Z ->
    (bytes_owned (pool_stats p) + allocation_size (pool_config p) size <= u64_max)%Z ->
    loan_frame h p size width height stride format = (h', p', f) ->
    pool_step (mkWorld h p ls) (mkWorld h' p' (ls ++ [f]))
| step_release h p ls i f p' f' :
    ls !! i = Some f -> LoanedFrame_release h p f = (p', f') ->
    pool_step (mkWorld h p ls) (mkWorld h p' (<[i:=f']> ls))
| step_detach h p ls i f p' f' v :
    ls !! i = Some f -> LoanedFrame_detach h p f = (p', f', v) ->
    pool_step (mkWorld h p ls) (mkWorld h p' (<[i:=f']> ls)).

(** The buffers out on loan. *)
Definition loaned_buffer (f : LoanedFrame) : option nat := if lf_pool f then fv_buffer (lf_view f) else None.
Definition loaned_buffers (ls : list LoanedFrame) : list nat := omap loaned_buffer ls.
Definition bytes_of (h : buffer_heap) (l : list nat) : Z := sum_with (buffer_size h) l.

(** The pool's accounting agrees with the buffers themselves: no buffer is both free and loaned, or loaned twice;
    the byte and buffer counters are the true totals; the owned bytes respect [max_bytes]. *)
Definition pool_inv (w : PoolWorld) : Prop :=
  let s := pool_stats (w_pool w) in
  let acts := loaned_buffers (w_loans w) in
  ∃ avs : list nat,
    pool_available (w_pool w) = Some <$> avs ∧ NoDup (avs ++ acts) ∧
    (∀ b, b ∈ avs ++ acts → b ∈ dom (w_heap w)) ∧
    available_count s = length avs ∧ bytes_available s = bytes_of (w_heap w) avs ∧
    active_count s = length acts ∧ active_bytes s = bytes_of (w_heap w) acts ∧
    bytes_owned s = (bytes_of (w_heap w) avs + bytes_of (w_heap w) acts)%Z ∧
    (active_bytes s <= high_watermark_bytes s)%Z ∧ (bytes_owned s <= u64_max)%Z ∧
    (max_bytes (pool_config (w_pool w)) ≠ 0%Z → (bytes_owned s <= max_bytes (pool_config (w_pool w)))%Z).

(** ** Sizes: bounds, alignment, best fit *)
Lemma align_up_ge v a : (v <= align_up v a)%Z.
Proof.
  unfold align_up. destruct ((a <=? 1) || (v =? 0))%Z eqn:E; [lia|].
  apply orb_false_iff in E as [E1 E2]. apply Z.leb_gt in E1.
  pose proof (Z.mod_pos_bound v a ltac:(lia)).
  destruct (Z.eqb_spec (v mod a) 0); [lia|]. destruct (Z.ltb_spec (u64_max - (a - v mod a)) v); lia.
Qed.

Lemma align_up_range v a : (0 <= v <= u64_max)%Z → (0 <= align_up v a <= u64_max)%Z.
Proof.
  intros Hv. pose proof (align_up_ge v a). split; [lia|]. unfold align_up.
  destruct ((a <=? 1) || (v =? 0))%Z; [lia|]. destruct (Z.eqb_spec (v mod a) 0); [lia|].
  destruct (Z.ltb_spec (u64_max - (a - v mod a)) v); lia.
Qed.

Lemma align_up_multiple v a : (1 < a)%Z → (0 <= v)%Z → (v + a <= u64_max)%Z →
  (align_up v a mod a = 0)%Z ∧ (align_up v a < v + a)%Z.
Proof.
  intros Ha Hv Hmax. unfold align_up.
  destruct ((a <=? 1) || (v =? 0))%Z eqn:E.
  { apply orb_true_iff in E as [E|E]; [apply Z.leb_le in E; lia|]. apply Z.eqb_eq in E as ->.
    rewrite Z.mod_0_l by lia. lia. }
  pose proof (Z.mod_pos_bound v a ltac:(lia)). destruct (Z.eqb_spec (v mod a) 0); [lia|].
  destruct (Z.ltb_spec (u64_max - (a - v mod a)) v); [lia|]. split; [|lia].
  rewrite (Z.div_mod v a) at 1 by lia.
  replace (a * (v / a) + v mod a + (a - v mod a))%Z with ((v / a + 1) * a)%Z by lia. apply Z.mod_mul. lia.
Qed.

Lemma bucket_lt_trans r x y z : bucket_lt r x y = true → bucket_lt r y z = true → bucket_lt r x z = true.
Proof. unfold bucket_lt. destruct (r <=? x)%Z, (r <=? y)%Z, (r <=? z)%Z; simpl; intros; first [congruence | lia]. Qed.
Lemma bucket_lt_irrefl r x : bucket_lt r x x = false.
Proof. unfold bucket_lt. destruct (r <=? x)%Z; simpl; apply Z.ltb_irrefl. Qed.
Lemma bucket_lt_incomp r x y z : bucket_lt r x y = false → bucket_lt r y z = false → bucket_lt r x z = false.
Proof. unfold bucket_lt. destruct (r <=? x)%Z, (r <=? y)%Z, (r <=? z)%Z; simpl; intros; first [congruence | lia]. Qed.

Lemma min_bucket_spec r l b : min_element (bucket_lt r) l = Some b →
  b ∈ l ∧ ∀ y, y ∈ l → (r <= y)%Z → (r <= b <= y)%Z.
Proof.
  destruct l as [|x l]; [done|]. simpl. intros [= <-]. split.
  { destruct (min_element_from_elem (bucket_lt r) x l) as [->|?]; [left|by right]. }
  pose proof (min_element_from_le _ (bucket_lt_trans r) (bucket_lt_irrefl r) (bucket_lt_incomp r) x l) as [H1 H2].
  intros y Hy Hr. assert (bucket_lt r y (min_element_from (bucket_lt r) x l) = false) as H.
  { apply elem_of_cons in Hy as [->|?]; auto. }
  revert H. generalize (min_element_from (bucket_lt r) x l). intros m H.
  unfold bucket_lt in H. apply Z.leb_le in Hr. rewrite Hr in H.
  destruct (Z.leb_spec r m); simpl in H; [|done]. apply Z.ltb_ge in H. lia.
Qed.

Lemma allocation_size_ge c r : (r <= allocation_size c r)%Z.
Proof.
  unfold allocation_size. etransitivity; [|apply align_up_ge].
  destruct (bucket_sizes c) as [|x l].
  - destruct (0 <? fixed_block_size c)%Z; lia.
  - destruct (min_element _ _) as [b|]; [|lia]. destruct (Z.leb_spec r b); lia.
Qed.

(** Best fit: with buckets configured and one of them large enough, the buffer is allocated from the smallest
    bucket that fits, rounded up to the alignment; without buckets the block size is a lower bound. *)
Lemma allocation_size_best_fit c r y :
  y ∈ bucket_sizes c → (r <= y)%Z →
  ∃ b, b ∈ bucket_sizes c ∧ (r <= b <= y)%Z ∧ (∀ z, z ∈ bucket_sizes c → (r <= z)%Z → (b <= z)%Z) ∧
       allocation_size c r = align_up b (alignment c).
Proof.
  intros Hy Hr. unfold allocation_size. destruct (bucket_sizes c) as [|x l] eqn:E; [by apply elem_of_nil in Hy|].
  destruct (min_element (bucket_lt r) (x :: l)) as [b|] eqn:Eb; [|done].
  destruct (min_bucket_spec _ _ _ Eb) as [Hb Hmin]. exists b.
  pose proof (Hmin y Hy Hr). assert ((r <=? b)%Z = true) as -> by (apply Z.leb_le; lia).
  split; [done|]. split; [lia|]. split; [|done]. intros z Hz Hrz. specialize (Hmin z Hz Hrz). lia.
Qed.

(** ** Accounting *)
Section accounting.
Implicit Types (h : buffer_heap) (l avs : list nat) (p : BufferPool) (f : LoanedFrame).

Lemma bytes_of_app h l1 l2 : bytes_of h (l1 ++ l2) = (bytes_of h l1 + bytes_of h l2)%Z.
Proof. apply sum_with_app. Qed.
Lemma bytes_of_cons h b l : bytes_of h (b :: l) = (buffer_size h b + bytes_of h l)%Z.
Proof. done. Qed.
Lemma bytes_of_nonneg h l : (0 <= bytes_of h l)%Z.
Proof. apply sum_with_nonneg. intros. apply buffer_size_nonneg. Qed.
Lemma bytes_of_perm h l1 l2 : l1 ≡ₚ l2 → bytes_of h l1 = bytes_of h l2.
Proof. unfold bytes_of. induction 1; cbn [sum_with]; lia. Qed.
Lemma bytes_of_insert h b x l : b ∉ l → bytes_of (<[b:=x]> h) l = bytes_of h l.
Proof.
  intros Hb. induction l as [|y l IH]; [done|]. rewrite not_elem_of_cons in Hb. destruct Hb as [Hy Hl].
  rewrite !bytes_of_cons, IH by done. unfold buffer_size. by rewrite lookup_insert_ne.
Qed.
Lemma buffer_size_fresh h b n : buffer_size (<[b := SharedBuffer_new n]> h) b = Z.of_nat n.
Proof.
  unfold buffer_size. rewrite lookup_insert_eq. simpl. unfold SharedBuffer_size. simpl. by rewrite length_replicate.
Qed.

Lemma refresh_fold h avs acc : (0 <= acc)%Z → (acc + bytes_of h avs <= u64_max)%Z →
  fold_left (fun acc b => u64 (acc + ptr_size h b)) (Some <$> avs) acc = (acc + bytes_of h avs)%Z.
Proof.
  revert acc. induction avs as [|b avs IH]; intros acc H0 H; cbn [fmap list_fmap fold_left]; [unfold bytes_of; simpl; lia|].
  rewrite bytes_of_cons in *. pose proof (bytes_of_nonneg h avs). pose proof (buffer_size_nonneg h b).
  simpl. rewrite u64_small by lia. rewrite IH by lia. lia.
Qed.

Lemma take_reusable_spec h size avs b rest : take_reusable h size (Some <$> avs) = Some (b, rest) →
  ∃ l1 l2, avs = l1 ++ b :: l2 ∧ rest = Some <$> (l1 ++ l2) ∧ (size <= buffer_size h b)%Z.
Proof.
  revert rest. induction avs as [|c avs IH]; intros rest; rewrite ?fmap_cons; cbn [take_reusable]; [done|].
  destruct (Z.leb_spec size (buffer_size h c)).
  - intros [= -> <-]. by exists [], avs.
  - destruct (take_reusable h size (Some <$> avs)) as [[b' r]|]; [|done]. simpl. intros [= -> <-].
    destruct (IH r eq_refl) as (l1 & l2 & -> & -> & ?). by exists (c :: l1), l2.
Qed.
Lemma take_reusable_None h size avs : take_reusable h size (Some <$> avs) = None →
  ∀ b, b ∈ avs → (buffer_size h b < size)%Z.
Proof.
  induction avs as [|c avs IH]; rewrite ?fmap_cons; cbn [take_reusable]; intros H b Hb; [by apply elem_of_nil in Hb|].
  destruct (Z.leb_spec size (buffer_size h c)); [done|].
  destruct (take_reusable h size (Some <$> avs)); [done|].
  apply elem_of_cons in Hb as [->|?]; auto.
Qed.

Lemma loaned_buffers_app ls1 ls2 : loaned_buffers (ls1 ++ ls2) = loaned_buffers ls1 ++ loaned_buffers ls2.
Proof. apply omap_app. Qed.
Lemma loaned_buffers_end ls i f f' : ls !! i = Some f → loaned_buffer f' = None →
  match loaned_buffer f with
  | Some b => loaned_buffers ls ≡ₚ b :: loaned_buffers (<[i:=f']> ls)
  | None => loaned_buffers (<[i:=f']> ls) = loaned_buffers ls
  end.
Proof.
  intros (l1 & l2 & -> & ->)%list_elem_of_split_length Hf'.
  rewrite insert_app_r_alt, Nat.sub_diag by done. cbn [insert list_insert].
  rewrite !loaned_buffers_app. unfold loaned_buffers at 2 4 6 8. cbn [omap list_omap]. rewrite Hf'.
  destruct (loaned_buffer f) as [b|]; [|done]. by rewrite Permutation_middle.
Qed.
End accounting.
#[export] Hint Rewrite bytes_of_app bytes_of_cons : topoexec.

(** The pool of a world, and what one operation may assume about it, with the available list exposed. *)
Ltac open_inv :=
  match goal with H : pool_inv _ |- _ =>
    destruct H as (avs & Hav & Hnd & Hdom & Hac & Hba & Hcnt & Hab & Hown & Hhw & Hfit & Hmax); simpl in * end.

Lemma refresh_inv h p ls avs :
  pool_available p = Some <$> avs → NoDup (avs ++ loaned_buffers ls) →
  (∀ b, b ∈ avs ++ loaned_buffers ls → b ∈ dom h) →
  active_count (pool_stats p) = length (loaned_buffers ls) →
  active_bytes (pool_stats p) = bytes_of h (loaned_buffers ls) →
  bytes_owned (pool_stats p) = (bytes_of h avs + bytes_of h (loaned_buffers ls))%Z →
  (active_bytes (pool_stats p) <= high_watermark_bytes (pool_stats p))%Z →
  (bytes_owned (pool_stats p) <= u64_max)%Z →
  (max_bytes (pool_config p) ≠ 0%Z → (bytes_owned (pool_stats p) <= max_bytes (pool_config p))%Z) →
  pool_inv (mkWorld h (refresh_available_stats h p) ls).
Proof.
  intros Hav Hnd Hdom Hcnt Hab Hown Hhw Hfit Hmax. exists avs. simpl. rewrite Hav, refresh_fold.
  - rewrite length_fmap, Z.add_0_l. done.
  - lia.
  - pose proof (bytes_of_nonneg h (loaned_buffers ls)). lia.
Qed.

Lemma loaned_buffers_snoc ls f b : loaned_buffer f = Some b → loaned_buffers (ls ++ [f]) = loaned_buffers ls ++ [b].
Proof. intros Hf. rewrite loaned_buffers_app. unfold loaned_buffers at 2. cbn [omap list_omap]. by rewrite Hf. Qed.

Lemma loan_frame_inv h p ls size w ht st fmt h' p' f :
  pool_inv (mkWorld h p ls) → (0 <= size <= u64_max)%Z →
  (bytes_owned (pool_stats p) + allocation_size (pool_config p) size <= u64_max)%Z →
  loan_frame h p size w ht st fmt = (h', p', f) → pool_inv (mkWorld h' p' (ls ++ [f])).
Proof.
  intros Hinv Hsz Hroom. open_inv. pose proof (allocation_size_ge (pool_config p) size) as Hge.
  pose proof (bytes_of_nonneg h avs). pose proof (bytes_of_nonneg h (loaned_buffers ls)).
  unfold loan_frame. rewrite Hav. destruct (take_reusable h size (Some <$> avs)) as [[b rest]|] eqn:Et.
  - intros [= <- <- <-]. apply take_reusable_spec in Et as (l1 & l2 & -> & -> & Hb).
    pose proof (buffer_size_nonneg h b). pose proof (bytes_of_nonneg h (l1 ++ l2)).
    assert (bytes_of h (l1 ++ b :: l2) = buffer_size h b + bytes_of h (l1 ++ l2))%Z as Hsplit
      by (autorewrite with topoexec; lia).
    assert ((l1 ++ b :: l2) ++ loaned_buffers ls ≡ₚ (l1 ++ l2) ++ loaned_buffers ls ++ [b]) as Hp.
    { rewrite <- !app_assoc. simpl. rewrite <- Permutation_middle. rewrite !app_assoc.
      by rewrite <- Permutation_cons_append. }
    apply refresh_inv with (avs := l1 ++ l2); simpl; rewrite ?(loaned_buffers_snoc _ _ b) by done.
    + done.
    + by rewrite <- Hp.
    + intros x Hx. apply Hdom. by rewrite Hp.
    + rewrite length_app. simpl. lia.
    + autorewrite with topoexec in *. change (bytes_of h []) with 0%Z. rewrite u64_small by lia. lia.
    + autorewrite with topoexec in *. change (bytes_of h []) with 0%Z. lia.
    + lia.
    + lia.
    + done.
  - destruct (can_allocate p (allocation_size (pool_config p) size)) eqn:Ec; simpl; intros [= <- <- <-].
    + set (b := fresh (dom h)). set (a := allocation_size (pool_config p) size) in *.
      assert (b ∉ avs ++ loaned_buffers ls) as Hfresh.
      { intros Hb%Hdom. by apply (is_fresh (dom h)) in Hb. }
      rewrite elem_of_app in Hfresh. assert ((b ∉ avs) ∧ (b ∉ loaned_buffers ls)) as [Hf1 Hf2] by tauto.
      apply refresh_inv with (avs := avs); simpl; rewrite ?(loaned_buffers_snoc _ _ b) by done; try done.
      * rewrite app_assoc. apply NoDup_app. split; [done|]. split; [|apply NoDup_singleton].
        intros x Hx ->%list_elem_of_singleton. apply elem_of_app in Hx. tauto.
      * intros x Hx. rewrite dom_insert. rewrite app_assoc in Hx. apply elem_of_app in Hx as [?|Hx].
        -- apply elem_of_union_r. by apply Hdom.
        -- apply list_elem_of_singleton in Hx as ->. by apply elem_of_union_l, elem_of_singleton.
      * rewrite length_app. simpl. lia.
      * autorewrite with topoexec. rewrite !bytes_of_insert, buffer_size_fresh by done.
        change (bytes_of _ []) with 0%Z. rewrite u64_small by lia. lia.
      * autorewrite with topoexec. rewrite !bytes_of_insert, buffer_size_fresh by done.
        change (bytes_of _ []) with 0%Z. rewrite u64_small by lia. lia.
      * lia.
      * rewrite u64_small by lia. lia.
      * intros Hm. rewrite u64_small by lia. unfold can_allocate in Ec.
        apply Z.eqb_neq in Hm. rewrite Hm in Ec. simpl in Ec. apply andb_true_iff in Ec as [E1 E2].
        apply Z.leb_le in E1, E2. apply Z.eqb_neq in Hm. pose proof (u64_le (max_bytes (pool_config p) - bytes_owned (pool_stats p)) ltac:(lia)). lia.
    + assert (loaned_buffers (ls ++ [empty_loan]) = loaned_buffers ls) as Hls
        by (rewrite loaned_buffers_app; apply app_nil_r).
      apply refresh_inv with (avs := avs); simpl; rewrite ?Hls; done.
Qed.

Lemma end_loan_inv h p ls i f f' (q : BufferPool) b :
  pool_inv (mkWorld h p ls) → ls !! i = Some f → loaned_buffer f' = None → loaned_buffer f = Some b →
  q = return_buffer h p (Some b) ∨ q = mark_detached h p (Some b) →
  pool_inv (mkWorld h q (<[i:=f']> ls)).
Proof.
  intros Hinv Hi Hf' Hf Hq. open_inv. pose proof (loaned_buffers_end ls i f f' Hi Hf') as Hp. rewrite Hf in Hp.
  set (acts := loaned_buffers (<[i:=f']> ls)) in *.
  assert (length (loaned_buffers ls) = S (length acts)) as Hlen by (by rewrite Hp).
  rewrite (bytes_of_perm _ _ _ Hp), bytes_of_cons in Hab, Hown.
  pose proof (bytes_of_nonneg h avs). pose proof (bytes_of_nonneg h acts). pose proof (buffer_size_nonneg h b).
  rewrite Hp in Hnd. assert (∀ x, x ∈ avs ++ b :: acts → x ∈ dom h) as Hdom' by (intros x Hx; apply Hdom; by rewrite Hp).
  assert (saturating_sub (active_bytes (pool_stats p)) (buffer_size h b) = bytes_of h acts) as Hsub.
  { unfold saturating_sub. destruct (Z.leb_spec (buffer_size h b) (active_bytes (pool_stats p))); lia. }
  destruct Hq as [-> | ->]; simpl.
  - apply refresh_inv with (avs := avs ++ [b]); simpl; fold acts; rewrite ?Hsub, ?Hav; try done.
    + by rewrite fmap_app.
    + by rewrite <- app_assoc.
    + intros x Hx. apply Hdom'. by rewrite <- app_assoc in Hx.
    + lia.
    + autorewrite with topoexec. change (bytes_of h []) with 0%Z. lia.
    + lia.
  - assert (saturating_sub (bytes_owned (pool_stats p)) (buffer_size h b) = bytes_of h avs + bytes_of h acts)%Z as Hsub'.
    { unfold saturating_sub. destruct (Z.leb_spec (buffer_size h b) (bytes_owned (pool_stats p))); lia. }
    rewrite <- Permutation_middle in Hnd. apply NoDup_cons in Hnd as [_ Hnd].
    apply refresh_inv with (avs := avs); simpl; fold acts; rewrite ?Hsub, ?Hsub', ?Hav; try done; try lia.
    intros x Hx. apply Hdom'. rewrite <- Permutation_middle. by apply elem_of_cons; right.
Qed.

Lemma keep_loan_inv h p ls i f f' :
  pool_inv (mkWorld h p ls) → ls !! i = Some f → loaned_buffer f' = None → loaned_buffer f = None →
  pool_inv (mkWorld h p (<[i:=f']> ls)).
Proof.
  intros Hinv Hi Hf' Hf. pose proof (loaned_buffers_end ls i f f' Hi Hf') as Hp. rewrite Hf in Hp.
  unfold pool_inv in *. simpl in *. by rewrite Hp.
Qed.

Lemma loaned_buffer_test f :
  lf_pool f && bool_decide (fv_buffer (lf_view f) <> None) =
  match loaned_buffer f with Some _ => true | None => false end.
Proof. unfold loaned_buffer. destruct (lf_pool f); [|done]. simpl. by destruct (fv_buffer (lf_view f)). Qed.

Lemma pool_step_inv w w' : pool_step w w' → pool_inv w → pool_inv w'.
Proof.
  intros [h p ls size wd ht st fmt h' p' f Hsz Hroom Hl | h p ls i f p' f' Hi Hr | h p ls i f p' f' v Hi Hd] Hinv.
  - by eapply loan_frame_inv.
  - unfold LoanedFrame_release in Hr. rewrite loaned_buffer_test in Hr. injection Hr as <- <-.
    destruct (loaned_buffer f) as [b|] eqn:E; [|by eapply keep_loan_inv].
    eapply end_loan_inv; [done..|]. left. unfold loaned_buffer in E. destruct (lf_pool f); [by rewrite E|done].
  - unfold LoanedFrame_detach in Hd. rewrite loaned_buffer_test in Hd. injection Hd as <- <- _.
    destruct (loaned_buffer f) as [b|] eqn:E; [|by eapply keep_loan_inv].
    eapply end_loan_inv; [done..|]. right. unfold loaned_buffer in E. destruct (lf_pool f); [by rewrite E|done].
Qed.

Lemma pool_inv_new c h : (0 <= max_bytes c)%Z → pool_inv (mkWorld h (BufferPool_new c) []).
Proof.
  intros Hc. exists []. unfold BufferPool_new, bytes_of. simpl.
  destruct (alignment c =? 0)%Z; simpl;
    (split; [done|]; split; [constructor|]; split; [intros b Hb; by apply elem_of_nil in Hb|];
     repeat split; try lia; unfold u64_max; try lia).
Qed.

(** In every state that clients can reach by loaning, releasing and detaching frames, the pool's statistics
    are the truth about the buffers: the free list and the outstanding loans share no buffer and repeat none, the
    available, active and owned byte counts are the sizes of exactly those buffers, the high watermark bounds the
    active bytes, and a configured [max_bytes] is never exceeded. *)
Theorem pool_accounting c h w :
  (0 <= max_bytes c)%Z → rtc pool_step (mkWorld h (BufferPool_new c) []) w → pool_inv w.
Proof.
  intros Hc Hr. assert (pool_inv (mkWorld h (BufferPool_new c) [])) as H0 by (by apply pool_inv_new).
  revert H0. induction Hr as [|x y z Hs Hr IH]; [done|]. intros Hx. apply IH. by eapply pool_step_inv.
Qed.

Definition demo_pool_config : BufferPoolConfig := mkPoolConfig 0 [64; 16; 32]%Z 8 100.
Definition demo_loan (w : PoolWorld) (size : Z) : PoolWorld :=
  let '(h, p, f) := loan_frame (w_heap w) (w_pool w) size 0 0 0 "" in mkWorld h p (w_loans w ++ [f]).
Definition demo_release (w : PoolWorld) (i : nat) : PoolWorld :=
  let '(p, f) := LoanedFrame_release (w_heap w) (w_pool w) (nth i (w_loans w) empty_loan) in
  mkWorld (w_heap w) p (<[i:=f]> (w_loans w)).
Definition demo_world : PoolWorld :=
  demo_loan (demo_release (demo_loan (mkWorld ∅ (BufferPool_new demo_pool_config) []) 20) 0) 30.

Lemma pool_accounting_witness :
  (0 <= max_bytes demo_pool_config)%Z ∧ reuse_count (pool_stats (w_pool demo_world)) = 1 ∧ pool_inv demo_world.
Proof.
  split; [vm_compute; discriminate|]. split; [vm_compute; reflexivity|].
  apply (pool_accounting demo_pool_config ∅ demo_world); [vm_compute; discriminate|].
  eapply rtc_l; [eapply (step_loan _ _ _ 20 0 0 0 ""); [vm_compute; split; discriminate|vm_compute; discriminate|reflexivity]|].
  eapply rtc_l; [eapply (step_release _ _ _ 0); reflexivity|].
  eapply rtc_l; [eapply (step_loan _ _ _ 30 0 0 0 ""); [vm_compute; split; discriminate|vm_compute; discriminate|reflexivity]|].
  apply rtc_refl.
Defined.
