(* ===== verification/Health.v ===== *)
(** * Health: the bounded, coalescing health-event sink

    Models [include/topoexec/runtime/health.hpp].  [emit] uses [try_to_lock]; whether the lock was obtained is an
    argument of the model, because it depends on the other threads.  [observed_at] is the steady-clock reading of
    the emission, in nanoseconds. *)

From S2P Require Export GraphSpec.
Local Open Scope nat_scope.

Definition kDefaultHealthEventCapacity : nat := 64.

Inductive HealthEventKind :=
| kChannelOverflow | kChannelStaleDrop | kChannelDeadlineMiss | kBackpressureHighWatermark | kTaskReject
| kSchedulerReject.
#[export] Instance HealthEventKind_eq_dec : EqDecision HealthEventKind.
Proof. solve_decision. Defined.

Definition health_event_kind_name (kind : HealthEventKind) : string :=
  match kind with
  | kChannelOverflow => "channel_overflow"
  | kChannelStaleDrop => "channel_stale_drop"
  | kChannelDeadlineMiss => "channel_deadline_miss"
  | kBackpressureHighWatermark => "backpressure_high_watermark"
  | kTaskReject => "task_reject"
  | kSchedulerReject => "scheduler_reject"
  end.

Record HealthEvent := mkHealthEvent {
  he_kind : HealthEventKind; he_source : string; he_component_id : string; he_lane : string;
  he_channel_id : string; he_edge_id : string; he_policy : string; he_reason : string; he_sequence : nat;
  he_depth : nat; he_capacity : nat; he_occurrence_count : nat; he_attributes : gmap string string;
  he_observed_at : Z }.
#[export] Instance eta_HealthEvent : Eta HealthEvent := fun e =>
  mkHealthEvent (he_kind e) (he_source e) (he_component_id e) (he_lane e) (he_channel_id e) (he_edge_id e)
    (he_policy e) (he_reason e) (he_sequence e) (he_depth e) (he_capacity e) (he_occurrence_count e)
    (he_attributes e) (he_observed_at e).
Definition default_health_event : HealthEvent :=
  mkHealthEvent kChannelOverflow "" "" "" "" "" "" "" 0 0 0 1 ∅ 0.

Record HealthEventSink := mkSink {
  sink_capacity : nat; sink_enabled : bool; sink_events : list HealthEvent; sink_dropped_count : nat;
  sink_coalesced_count : nat }.
#[export] Instance eta_HealthEventSink : Eta HealthEventSink := fun s =>
  mkSink (sink_capacity s) (sink_enabled s) (sink_events s) (sink_dropped_count s) (sink_coalesced_count s).
Definition HealthEventSink_new (capacity : nat) (enabled : bool) : HealthEventSink := mkSink capacity enabled [] 0 0.
Definition sink_set_enabled (enabled : bool) (s : HealthEventSink) : HealthEventSink := s <| sink_enabled := enabled |>.

Definition same_coalescing_key (left right : HealthEvent) : bool :=
  bool_decide (he_kind left = he_kind right) && str_eqb (he_source left) (he_source right) &&
  str_eqb (he_component_id left) (he_component_id right) && str_eqb (he_lane left) (he_lane right) &&
  str_eqb (he_channel_id left) (he_channel_id right) && str_eqb (he_edge_id left) (he_edge_id right) &&
  str_eqb (he_policy left) (he_policy right).

(** The in-place update of an existing event of the same key. *)
Definition coalesce_into (existing event : HealthEvent) : HealthEvent :=
  existing <| he_occurrence_count ::= fun n => n + he_occurrence_count event |>
           <| he_sequence := he_sequence event |> <| he_depth := he_depth event |>
           <| he_capacity := he_capacity event |> <| he_reason := he_reason event |>
           <| he_attributes := he_attributes event |> <| he_observed_at := he_observed_at event |>.

(** The loop over [events_]: coalesce into the first event with the same key, or [None] when there is none. *)
Fixpoint coalesce_first (event : HealthEvent) (l : list HealthEvent) : option (list HealthEvent) :=
  match l with
  | [] => None
  | e :: r => if same_coalescing_key e event then Some (coalesce_into e event :: r)
              else option_map (cons e) (coalesce_first event r)
  end.

Definition sink_emit (locked : bool) (now : Z) (event : HealthEvent) (s : HealthEventSink) : HealthEventSink :=
  if negb (sink_enabled s) then s else
  if sink_capacity s =? 0 then s <| sink_dropped_count ::= S |> else
  if negb locked then s <| sink_dropped_count ::= S |> else
  let event := event <| he_observed_at := now |>
                     <| he_occurrence_count ::= fun n => if n =? 0 then 1 else n |> in
  match coalesce_first event (sink_events s) with
  | Some events => s <| sink_events := events |> <| sink_coalesced_count ::= S |>
  | None =>
      let s := if sink_capacity s <=? length (sink_events s)
               then s <| sink_events ::= tail |> <| sink_dropped_count ::= S |> else s in
      s <| sink_events ::= fun l => l ++ [event] |>
  end.

Definition health_event_attributes (event : HealthEvent) : gmap string string :=
  let put (name value : string) (m : gmap string string) := if str_empty value then m else <[name := value]> m in
  let a := <["kind" := health_event_kind_name (he_kind event)]> (he_attributes event) in
  let a := put "source" (he_source event) a in
  let a := put "component_id" (he_component_id event) a in
  let a := put "lane" (he_lane event) a in
  let a := put "channel_id" (he_channel_id event) a in
  let a := put "edge_id" (he_edge_id event) a in
  let a := put "policy" (he_policy event) a in
  let a := put "reason" (he_reason event) a in
  let a := if he_sequence event =? 0 then a else <["sequence" := to_string_nat (he_sequence event)]> a in
  let a := <["depth" := to_string_nat (he_depth event)]> a in
  let a := <["capacity" := to_string_nat (he_capacity event)]> a in
  <["occurrence_count" := to_string_nat (he_occurrence_count event)]> a.

(** ** Properties *)
Definition health_key (e : HealthEvent) :=
  (he_kind e, he_source e, he_component_id e, he_lane e, he_channel_id e, he_edge_id e, he_policy e).

Lemma same_coalescing_key_spec a b : same_coalescing_key a b = true ↔ health_key a = health_key b.
Proof.
  unfold same_coalescing_key, health_key. rewrite !andb_true_iff, !str_eqb_eq, bool_decide_eq_true.
  split; [by intros [[[[[[-> ->] ->] ->] ->] ->] ->]|]. intros. by simplify_eq.
Qed.

Definition total_occurrences (l : list HealthEvent) : nat := sum_list_with he_occurrence_count l.

Lemma coalesce_first_Some e l l' : coalesce_first e l = Some l' →
  length l' = length l ∧ health_key <$> l' = health_key <$> l ∧
  total_occurrences l' = total_occurrences l + he_occurrence_count e.
Proof.
  revert l'. induction l as [|x l IH]; intros l'; cbn [coalesce_first]; [done|]. case_match eqn:E.
  - intros [= <-]. unfold total_occurrences. simpl. split; [done|]. split; [done|]. lia.
  - destruct (coalesce_first e l) as [r|]; [|done]. intros [= <-].
    destruct (IH r eq_refl) as (H1 & H2 & H3). unfold total_occurrences in *. rewrite !fmap_cons. simpl.
    rewrite H1, H2, H3. split; [done|]. split; [done|]. lia.
Qed.
Lemma coalesce_first_None e l : coalesce_first e l = None → health_key e ∉ health_key <$> l.
Proof.
  induction l as [|x l IH]; cbn [coalesce_first]; [intros _ H; by apply elem_of_nil in H|]. case_match eqn:E; [done|].
  destruct (coalesce_first e l); [done|]. intros _. rewrite fmap_cons, not_elem_of_cons. split; [|by apply IH].
  intros Hk. symmetry in Hk. apply same_coalescing_key_spec in Hk. congruence.
Qed.

(** The sink's invariant: bounded, and at most one event per coalescing key. *)
Definition sink_inv (s : HealthEventSink) : Prop :=
  length (sink_events s) <= sink_capacity s ∧ NoDup (health_key <$> sink_events s).

Lemma sink_emit_inv locked now e s : sink_inv s → sink_inv (sink_emit locked now e s).
Proof.
  intros [Hlen Hnd]. unfold sink_emit. destruct (sink_enabled s); [|done]. simpl.
  destruct (Nat.eqb_spec (sink_capacity s) 0); [done|]. destruct locked; [|done]. simpl.
  match goal with |- context [coalesce_first ?ev _] => set (ev' := ev) end.
  destruct (coalesce_first ev' (sink_events s)) as [l|] eqn:E.
  - apply coalesce_first_Some in E as (H1 & H2 & _). split; simpl; [lia|by rewrite H2].
  - apply coalesce_first_None in E. destruct (Nat.leb_spec (sink_capacity s) (length (sink_events s))); split; simpl.
    + destruct (sink_events s); simpl in *; [lia|]. rewrite length_app. simpl. lia.
    + destruct (sink_events s) as [|x l]; simpl in *; [lia|]. rewrite fmap_app. apply NoDup_app.
      apply NoDup_cons in Hnd as [_ Hnd]. split; [done|]. split; [|apply NoDup_singleton].
      intros y Hy ->%list_elem_of_singleton. apply not_elem_of_cons in E as [_ E]. done.
    + rewrite length_app. simpl. lia.
    + rewrite fmap_app. apply NoDup_app. split; [done|]. split; [|apply NoDup_singleton].
      intros y Hy ->%list_elem_of_singleton. done.
Qed.

(** What the sink holds never exceeds its capacity and never lists a key twice, whatever is emitted under whatever
    lock outcomes; and while nothing was dropped, every occurrence emitted is accounted for. *)
Definition emit_all (s : HealthEventSink) (es : list (bool * Z * HealthEvent)) : HealthEventSink :=
  fold_left (fun s x => sink_emit x.1.1 x.1.2 x.2 s) es s.
Definition emitted_occurrences (es : list (bool * Z * HealthEvent)) : nat :=
  sum_list_with (fun x => if he_occurrence_count x.2 =? 0 then 1 else he_occurrence_count x.2) es.

Lemma sink_emit_dropped locked now e s : sink_dropped_count s <= sink_dropped_count (sink_emit locked now e s).
Proof. unfold sink_emit. repeat case_match; simpl; lia. Qed.
Lemma emit_all_dropped es s : sink_dropped_count s <= sink_dropped_count (emit_all s es).
Proof.
  revert s. induction es as [|x es IH]; intros s; simpl; [lia|].
  etransitivity; [apply (sink_emit_dropped x.1.1 x.1.2 x.2)|apply IH].
Qed.

Lemma sink_emit_config locked now e s :
  sink_enabled (sink_emit locked now e s) = sink_enabled s ∧ sink_capacity (sink_emit locked now e s) = sink_capacity s.
Proof. unfold sink_emit. repeat case_match; simpl; done. Qed.

Lemma sink_emit_occurrences locked now e s :
  sink_enabled s = true → sink_dropped_count (sink_emit locked now e s) = sink_dropped_count s →
  total_occurrences (sink_events (sink_emit locked now e s)) =
  total_occurrences (sink_events s) + (if he_occurrence_count e =? 0 then 1 else he_occurrence_count e).
Proof.
  intros Hen. unfold sink_emit. rewrite Hen. simpl.
  destruct (Nat.eqb_spec (sink_capacity s) 0); [simpl; lia|]. destruct locked; simpl; [|lia].
  match goal with |- context [coalesce_first ?ev _] => set (ev' := ev) end.
  destruct (coalesce_first ev' (sink_events s)) as [l|] eqn:E; simpl.
  - intros _. by apply coalesce_first_Some in E as (_ & _ & ->).
  - destruct (Nat.leb_spec (sink_capacity s) (length (sink_events s))); simpl; [lia|]. intros _.
    unfold total_occurrences. rewrite sum_list_with_app. simpl. lia.
Qed.

(** The health sink is a bounded, coalescing, loss-accounting buffer: after any sequence of emissions, with any
    interleaving of lock failures, it holds at most [capacity] events, at most one per coalescing key, and if its
    dropped counter is still zero the occurrence counts of the held events add up to every occurrence emitted. *)
Theorem health_sink_bounded_and_lossless capacity enabled es :
  let s := emit_all (HealthEventSink_new capacity enabled) es in
  length (sink_events s) <= capacity ∧ NoDup (health_key <$> sink_events s) ∧
  (enabled = true → sink_dropped_count s = 0 → total_occurrences (sink_events s) = emitted_occurrences es).
Proof.
  simpl. set (s0 := HealthEventSink_new capacity enabled).
  assert (∀ s, sink_inv s → sink_inv (emit_all s es) ∧ sink_capacity (emit_all s es) = sink_capacity s) as Hinv.
  { induction es as [|x es IH]; intros s Hs; [done|]. simpl. destruct (IH _ (sink_emit_inv x.1.1 x.1.2 x.2 s Hs)) as [? ->].
    split; [done|]. apply sink_emit_config. }
  assert (∀ s, sink_enabled s = true → sink_dropped_count (emit_all s es) = sink_dropped_count s →
    total_occurrences (sink_events (emit_all s es)) = total_occurrences (sink_events s) + emitted_occurrences es) as Hsum.
  { clear Hinv. induction es as [|x es IH]; intros s Hen Hd; simpl in *; [lia|].
    pose proof (sink_emit_dropped x.1.1 x.1.2 x.2 s). pose proof (emit_all_dropped es (sink_emit x.1.1 x.1.2 x.2 s)).
    rewrite IH; [|by rewrite (proj1 (sink_emit_config _ _ _ _))|lia].
    rewrite sink_emit_occurrences by (done || lia). unfold emitted_occurrences. simpl. lia. }
  destruct (Hinv s0) as [[Hl Hn] Hc]; [split; [simpl; lia|constructor]|]. rewrite Hc in Hl.
  split; [done|]. split; [done|]. intros -> Hd. by apply (Hsum s0).
Qed.

Definition demo_emissions : list (bool * Z * HealthEvent) :=
  [(true, 1%Z, default_health_event <| he_depth := 1 |>);
   (true, 2%Z, default_health_event <| he_lane := "fast" |>);
   (true, 3%Z, default_health_event <| he_depth := 4 |>)].
Lemma health_sink_bounded_and_lossless_witness :
  let s := emit_all (HealthEventSink_new 2 true) demo_emissions in
  sink_coalesced_count s = 1 ∧ total_occurrences (sink_events s) = 3.
Proof.
  split; [vm_compute; reflexivity|].
  apply (health_sink_bounded_and_lossless 2 true demo_emissions); vm_compute; reflexivity.
Defined.
