(* ===== verification/Kahn.v ===== *)
(** * Kahn: the queue algorithm for topological orders, independently of its data structures

    [src/graph.cpp] runs Kahn's algorithm twice: over component indices ([compute_component_lifecycle_order],
    Lifecycle.v) and over region ids with a priority-sorted queue ([compile_graph_impl], Compile.v).  This file holds
    the invariant both loops keep, over an abstract successor function, with one lemma per statement of the loop. *)

From S2P Require Export Prelude.

Definition occ {A} `{!EqDecision A} (x : A) (l : list A) : nat := count_if (fun y => bool_decide (y = x)) l.
(** [u] comes before [v] in [l]. *)
Definition precedes {A} (l : list A) (u v : A) : Prop := ∃ l1 l2, l = l1 ++ v :: l2 ∧ u ∈ l1.

Section occ.
Context {A : Type} `{!EqDecision A}.
Implicit Types (x y : A) (l : list A).
Lemma occ_cons x y l : occ x (y :: l) = (if decide (y = x) then 1 else 0) + occ x l.
Proof. unfold occ. rewrite count_if_cons. by destruct (decide (y = x)); case_bool_decide. Qed.
Lemma occ_app x l1 l2 : occ x (l1 ++ l2) = occ x l1 + occ x l2.
Proof. apply count_if_app. Qed.
Lemma occ_pos x l : 0 < occ x l ↔ x ∈ l.
Proof.
  induction l as [|y l IH]; [unfold occ; rewrite count_if_nil; split; [lia|by intros ?%elem_of_nil]|].
  rewrite occ_cons, elem_of_cons, <- IH. destruct (decide (y = x)); split; [auto|lia|auto with lia|naive_solver lia].
Qed.
Lemma occ_zero x l : occ x l = 0 ↔ x ∉ l.
Proof. rewrite <- occ_pos. lia. Qed.
Lemma occ_perm x l1 l2 : l1 ≡ₚ l2 → occ x l1 = occ x l2.
Proof. induction 1; rewrite ?occ_cons; lia. Qed.
End occ.

Section kahn.
Context {A : Type} `{!EqDecision A} (succs : A → list A) (nodes : list A).
Context (nodes_unique : NoDup nodes) (nodes_closed : ∀ u v, u ∈ nodes → v ∈ succs u → v ∈ nodes).

(** The edges whose source is not in the order yet, as the list of their targets. *)
Definition pending_edges (order : list A) : list A := mjoin (succs <$> filter (.∉ order) nodes).

(** The state of the loop: in-degrees, queue, output so far, and the successors of the last popped node that the
    inner loop has still to visit. *)
Record kahn_inv (indegree : A → nat) (ready order visiting : list A) : Prop := {
  ki_unique : NoDup (order ++ ready);
  ki_nodes : ∀ x, x ∈ order ++ ready → x ∈ nodes;
  ki_visiting : ∀ x, x ∈ visiting → x ∈ nodes;
  ki_indegree : ∀ x, x ∈ nodes → indegree x = occ x (pending_edges order) + occ x visiting;
  ki_zero : ∀ x, x ∈ nodes → (x ∈ order ++ ready ↔ indegree x = 0);
  ki_order : ∀ u v, u ∈ nodes → v ∈ succs u → v ∈ order → precedes order u v }.

(** A list that contains every node once and every edge forwards. *)
Definition topological (l : list A) : Prop :=
  l ≡ₚ nodes ∧ ∀ u v, u ∈ nodes → v ∈ succs u → precedes l u v.

Lemma filter_pop order x : x ∈ nodes → x ∉ order → filter (.∉ order) nodes ≡ₚ x :: filter (.∉ order ++ [x]) nodes.
Proof.
  intros Hx Ho. apply NoDup_Permutation.
  - by apply NoDup_filter.
  - constructor; [|by apply NoDup_filter]. rewrite list_elem_of_filter. set_solver.
  - intros y. rewrite elem_of_cons, !list_elem_of_filter, elem_of_app, list_elem_of_singleton.
    destruct (decide (y = x)); naive_solver.
Qed.
Lemma pending_edges_pop order x y : x ∈ nodes → x ∉ order →
  occ y (pending_edges order) = occ y (succs x) + occ y (pending_edges (order ++ [x])).
Proof.
  intros Hx Ho. unfold pending_edges. rewrite <- occ_app.
  apply occ_perm. change (succs x ++ mjoin ?l) with (mjoin (succs x :: l)).
  apply join_Permutation. rewrite <- fmap_cons. by apply fmap_Permutation, filter_pop.
Qed.
Lemma elem_of_pending_edges order v : v ∈ pending_edges order ↔ ∃ u, u ∈ nodes ∧ u ∉ order ∧ v ∈ succs u.
Proof.
  clear nodes_unique nodes_closed.
  unfold pending_edges. rewrite list_elem_of_join. setoid_rewrite list_elem_of_fmap. setoid_rewrite list_elem_of_filter.
  naive_solver.
Qed.

Lemma pending_edges_nil : pending_edges [] = mjoin (succs <$> nodes).
Proof.
  clear nodes_unique nodes_closed. unfold pending_edges. do 2 f_equal.
  induction nodes as [|x l IH]; [done|]. by rewrite filter_cons_True, IH by (by intros ?%elem_of_nil).
Qed.

(** The start of the loop: the nodes without a predecessor are queued, in any order. *)
Lemma kahn_start indegree ready :
  (∀ x, x ∈ nodes → indegree x = occ x (pending_edges [])) → NoDup ready →
  (∀ x, x ∈ ready ↔ x ∈ nodes ∧ indegree x = 0) → kahn_inv indegree ready [] [].
Proof.
  clear nodes_unique nodes_closed.
  intros Hi Hn Hr. split; simpl; try (by intros ? ?%elem_of_nil); try done.
  - intros x [??]%Hr. done.
  - intros x Hx. rewrite Hi by done. unfold occ at 3. rewrite count_if_nil. lia.
  - intros x Hx. rewrite Hr. naive_solver.
  - intros u v _ _ ?%elem_of_nil. done.
Qed.
(** Reordering the queue. *)
Lemma kahn_reorder indegree ready ready' order visiting :
  ready ≡ₚ ready' → kahn_inv indegree ready order visiting → kahn_inv indegree ready' order visiting.
Proof.
  clear nodes_unique nodes_closed.
  intros Hp [H1 H2 H3 H4 H5 H6]. split; try done.
  - by rewrite <- Hp.
  - intros x Hx. apply H2. by rewrite Hp.
  - intros x Hx. rewrite <- H5 by done. by rewrite Hp.
Qed.
(** Popping a node and appending it to the order. *)
Lemma kahn_pop indegree x ready order :
  kahn_inv indegree (x :: ready) order [] → kahn_inv indegree ready (order ++ [x]) (succs x).
Proof.
  intros [H1 H2 H3 H4 H5 H6].
  assert (Hx : x ∈ nodes) by (apply H2; set_solver).
  assert (Ho : x ∉ order) by (apply NoDup_app in H1 as (_&H1&_); set_solver).
  assert (Ha : (order ++ [x]) ++ ready = order ++ x :: ready) by (by rewrite <- (assoc_L (++))).
  split; rewrite ?Ha; try done.
  - intros v Hv. by eapply nodes_closed.
  - intros y Hy. rewrite H4 by done. rewrite (pending_edges_pop order x) by done. unfold occ at 3. rewrite count_if_nil. lia.
  - intros u v Hu Hv Hin. apply elem_of_app in Hin as [Hin|Hin].
    + destruct (H6 u v Hu Hv Hin) as (l1&l2&->&?). exists l1, (l2 ++ [x]). split; [|done].
      by rewrite <- (assoc_L (++)).
    + apply list_elem_of_singleton in Hin as ->. exists order, []. split; [done|].
      destruct (decide (u ∈ order)) as [|Hn]; [done|]. exfalso.
      assert (indegree x = 0) as Hz by (apply H5; set_solver). rewrite H4 in Hz by done.
      assert (0 < occ x (pending_edges order)); [|lia]. apply occ_pos, elem_of_pending_edges. eauto.
Qed.
(** Visiting one successor: its in-degree is positive, goes down by one, and the node is queued at zero. *)
Lemma kahn_visit indegree indegree' ready order x visiting :
  kahn_inv indegree ready order (x :: visiting) →
  0 < indegree x ∧
  (indegree' x = pred (indegree x) → (∀ y, y ∈ nodes → y ≠ x → indegree' y = indegree y) →
   kahn_inv indegree' (if indegree' x =? 0 then ready ++ [x] else ready) order visiting).
Proof.
  clear nodes_unique nodes_closed.
  intros [H1 H2 H3 H4 H5 H6].
  assert (Hx : x ∈ nodes) by (apply H3; left).
  assert (Hpos : 0 < indegree x). { rewrite H4 by done. rewrite occ_cons, decide_True by done. lia. }
  assert (Hnr : x ∉ order ++ ready). { rewrite H5 by done. lia. }
  split; [done|]. intros He Hne.
  assert (Hi : ∀ y, y ∈ nodes → indegree' y = occ y (pending_edges order) + occ y visiting).
  { intros y Hy. destruct (decide (y = x)) as [->|?].
    - rewrite He, H4 by done. rewrite occ_cons, decide_True by done. lia.
    - rewrite Hne, H4 by done. rewrite occ_cons, decide_False by done. lia. }
  assert (Hz : ∀ y, y ∈ nodes → y ≠ x → (y ∈ order ++ ready ↔ indegree' y = 0)) by (intros; rewrite Hne; auto).
  destruct (Nat.eqb_spec (indegree' x) 0) as [E|E]; split; try done.
  - rewrite (assoc_L (++)). apply NoDup_app. split; [done|]. split; [set_solver|apply NoDup_singleton].
  - intros y. rewrite (assoc_L (++)), elem_of_app, list_elem_of_singleton. naive_solver.
  - intros y Hy. apply H3. by right.
  - intros y Hy. rewrite (assoc_L (++)), elem_of_app, list_elem_of_singleton.
    destruct (decide (y = x)) as [->|?]; [naive_solver|]. rewrite Hz by done. naive_solver.
  - intros y Hy. apply H3. by right.
  - intros y Hy. destruct (decide (y = x)) as [->|?]; [|by apply Hz]. naive_solver.
Qed.
(** The loop runs at most once per node. *)
Lemma kahn_length indegree ready order visiting :
  kahn_inv indegree ready order visiting → length order + length ready <= length nodes.
Proof.
  clear nodes_unique nodes_closed.
  intros [H1 H2 _ _ _ _]. rewrite <- length_app. apply submseteq_length, NoDup_submseteq; [done|exact H2].
Qed.
(** When the queue is empty, either every node is in the order, which is then topological, or there is no
    topological order at all. *)
Lemma kahn_end indegree order : kahn_inv indegree [] order [] →
  (length order = length nodes → topological order) ∧ (length order ≠ length nodes → ¬ ∃ l, topological l).
Proof.
  intros [H1 H2 H3 H4 H5 H6]. rewrite app_nil_r in *. split.
  - intros Hl. assert (Hp : order ≡ₚ nodes).
    { apply submseteq_length_Permutation; [by apply NoDup_submseteq|lia]. }
    split; [done|]. intros u v Hu Hv. apply H6; [done|done|]. rewrite Hp. by eapply nodes_closed.
  - intros Hl [l [Hp Hf]].
    assert (Hex : ∃ x, x ∈ l ∧ x ∉ order).
    { apply Exists_exists. apply not_Forall_Exists; [apply _|]. intros Hall. apply Hl. apply Permutation_length.
      apply NoDup_Permutation; [done..|]. intros x. split; [apply H2|]. rewrite <- Hp. rewrite Forall_forall in Hall. auto. }
    assert (Hfirst : ∃ l1 x l2, l = l1 ++ x :: l2 ∧ x ∉ order ∧ ∀ y, y ∈ l1 → y ∈ order).
    { clear Hp Hf. induction l as [|y l IH]; [by destruct Hex as (?&?%elem_of_nil&_)|].
      destruct (decide (y ∈ order)) as [Hy|Hy]; [|exists [], y, l; split; [done|split; [done|by intros ? ?%elem_of_nil]]].
      destruct IH as (l1&x&l2&->&?&Hl1); [set_solver|]. exists (y :: l1), x, l2. split; [done|]. set_solver. }
    destruct Hfirst as (l1&x&l2&->&Hx&Hl1).
    assert (Hxn : x ∈ nodes) by (rewrite <- Hp; set_solver).
    assert (0 < indegree x) as Hpos. { assert (indegree x ≠ 0); [|lia]. by rewrite <- H5. }
    rewrite H4 in Hpos by done. change (occ x []) with 0 in Hpos. rewrite Nat.add_0_r in Hpos.
    apply occ_pos, elem_of_pending_edges in Hpos as (u&Hu&Huo&Hux).
    destruct (Hf u x Hu Hux) as (m1&m2&Heq&Hm).
    assert (NoDup (l1 ++ x :: l2)) as Hnd by (by rewrite Hp).
    assert (m1 = l1) as ->; [|auto].
    clear -Heq Hnd. revert m1 Heq. induction l1 as [|y l1 IH]; intros [|z m1] Heq; simplify_eq/=; [done| | |].
    + exfalso. apply NoDup_cons in Hnd as [Hnd _]. set_solver.
    + exfalso. apply NoDup_cons in Hnd as [Hnd _]. set_solver.
    + f_equal. apply IH; [by apply NoDup_cons in Hnd as [_ ?]|done].
Qed.
End kahn.
