(* ===== verification/Lifecycle.v ===== *)
(** * Lifecycle: the order in which components are configured and started

    Models [compute_component_lifecycle_order] and [component_lifecycle_order] of [src/graph.cpp]: the dependencies of
    every component are resolved to indices, then Kahn's algorithm emits the indices.  The loop has fuel; the number
    of components is enough ([lifecycle_order_returns]).  The theorem is that the order is a permutation of the
    components in which every dependency comes first, and that a failure is reported exactly when a dependency is
    repeated or missing, or no such order exists. *)

From S2P Require Export Kahn GraphSpec.
Local Open Scope nat_scope.

(** ** Definitions *)
Record LifecycleOrderResult := mkLifecycle { lo_ok : bool; lo_errors : list string; lo_order : list nat }.
#[export] Instance eta_LifecycleOrderResult : Eta LifecycleOrderResult := fun r =>
  mkLifecycle (lo_ok r) (lo_errors r) (lo_order r).
Definition lifecycle_error (r : LifecycleOrderResult) (error : string) : LifecycleOrderResult :=
  r <| lo_ok := false |> <| lo_errors ::= fun l => l ++ [error] |>.

(** The locals of the scan over the dependencies. *)
Record LifecycleScan := mkScan {
  scan_result : LifecycleOrderResult; scan_dependents : list (list nat); scan_indegrees : list nat }.
#[export] Instance eta_LifecycleScan : Eta LifecycleScan := fun s =>
  mkScan (scan_result s) (scan_dependents s) (scan_indegrees s).

Fixpoint component_indexes (index : nat) (components : list ComponentNodeSpec) (m : gmap string nat) : gmap string nat :=
  match components with
  | [] => m
  | c :: rest => component_indexes (S index) rest (<[comp_id c := index]> m)
  end.

Fixpoint scan_dependencies (indexes : gmap string nat) (index : nat) (id : string) (seen : gset string)
    (dependencies : list string) (s : LifecycleScan) : LifecycleScan :=
  match dependencies with
  | [] => s
  | d :: rest =>
      if bool_decide (d ∈ seen) then
        scan_dependencies indexes index id seen rest
          (s <| scan_result ::= fun r => lifecycle_error r
                  ("component " +:+ id +:+ " has duplicate lifecycle dependency " +:+ d) |>)
      else match indexes !! d with
      | None =>
          scan_dependencies indexes index id ({[d]} ∪ seen) rest
            (s <| scan_result ::= fun r => lifecycle_error r
                    ("component " +:+ id +:+ " depends_on missing component " +:+ d) |>)
      | Some found =>
          scan_dependencies indexes index id ({[d]} ∪ seen) rest
            (s <| scan_dependents ::= alter (fun l => l ++ [index]) found |>
               <| scan_indegrees ::= alter S index |>)
      end
  end.
Fixpoint scan_components (indexes : gmap string nat) (index : nat) (components : list ComponentNodeSpec)
    (s : LifecycleScan) : LifecycleScan :=
  match components with
  | [] => s
  | c :: rest => scan_components indexes (S index) rest
                   (scan_dependencies indexes index (comp_id c) ∅ (depends_on c) s)
  end.

Fixpoint release_dependents (dependents indegrees ready : list nat) : list nat * list nat :=
  match dependents with
  | [] => (indegrees, ready)
  | d :: rest =>
      let indegrees' := if 0 <? indegrees !!! d then alter pred d indegrees else indegrees in
      release_dependents rest indegrees' (if indegrees' !!! d =? 0 then ready ++ [d] else ready)
  end.
Fixpoint lifecycle_loop (fuel : nat) (dependents : list (list nat)) (indegrees ready order : list nat)
    : option (list nat) :=
  match ready with
  | [] => Some order
  | current :: ready' =>
      match fuel with
      | 0 => None
      | S fuel' =>
          let '(indegrees', ready'') := release_dependents (dependents !!! current) indegrees ready' in
          lifecycle_loop fuel' dependents indegrees' ready'' (order ++ [current])
      end
  end.

Definition compute_component_lifecycle_order (graph : GraphSpec) : option LifecycleOrderResult :=
  let components := graph_components graph in
  let count := length components in
  let s := scan_components (component_indexes 0 components ∅) 0 components
             (mkScan (mkLifecycle true [] []) (replicate count []) (replicate count 0)) in
  let ready := List.filter (fun index => scan_indegrees s !!! index =? 0) (seq 0 count) in
  order ← lifecycle_loop count (scan_dependents s) (scan_indegrees s) ready [];
  let result := (scan_result s) <| lo_order := order |> in
  Some (if length order =? count then result
        else lifecycle_error result "component depends_on graph contains a cycle").

(** The exported function throws the first error as [std::invalid_argument]: [inl]. *)
Definition component_lifecycle_order (graph : GraphSpec) : option (string + list nat) :=
  result ← compute_component_lifecycle_order graph;
  Some (if lo_ok result then inr (lo_order result)
        else inl (default EmptyString (head (lo_errors result)))).

(** ** Specification *)

(** The component an id names: the last one declared with it. *)
Definition names (components : list ComponentNodeSpec) (id : string) (index : nat) : Prop :=
  (∃ c, components !! index = Some c ∧ comp_id c = id) ∧
  ∀ j c, index < j → components !! j = Some c → comp_id c ≠ id.
(** Component [v] depends on component [u]. *)
Definition depends (components : list ComponentNodeSpec) (u v : nat) : Prop :=
  ∃ c d, components !! v = Some c ∧ d ∈ depends_on c ∧ names components d u.
(** Every component lists each dependency once, and only declared ones. *)
Definition dependencies_resolved (components : list ComponentNodeSpec) : Prop :=
  ∀ c, c ∈ components → NoDup (depends_on c) ∧ ∀ d, d ∈ depends_on c → ∃ u, names components d u.
(** An order of all the components in which dependencies come first. *)
Definition dependency_order (components : list ComponentNodeSpec) (order : list nat) : Prop :=
  order ≡ₚ seq 0 (length components) ∧ ∀ u v, depends components u v → precedes order u v.

(** ** Resolving ids *)
Lemma component_indexes_spec cs n m d u :
  component_indexes n cs m !! d = Some u ↔
  (∃ k, u = n + k ∧ names cs d k) ∨ (m !! d = Some u ∧ ∀ c, c ∈ cs → comp_id c ≠ d).
Proof.
  revert n m. induction cs as [|c cs IH]; intros n m; simpl.
  - split; [intros H; right; split; [done|intros c Hc; by apply elem_of_nil in Hc]|].
    intros [(k&_&(c&Hc&_)&_)|[? _]]; [by rewrite lookup_nil in Hc|done].
  - rewrite IH. split.
    + intros [(k&->&Hk)|[Hm Hc]].
      * left. exists (S k). split; [lia|]. destruct Hk as [Hk1 Hk2]. split; [done|]. intros [|j] x Hj; [lia|].
        apply Hk2. lia.
      * apply lookup_insert_Some in Hm as [[<- ->]|[Hne Hm]].
        -- left. exists 0. split; [lia|]. split; [by exists c|]. intros [|j] x Hj; [lia|].
           intros Hx. apply Hc. by apply (list_elem_of_lookup_2 cs j).
        -- right. split; [done|]. intros x [->|Hx]%elem_of_cons; auto.
    + intros [(k&->&Hk1&Hk2)|[Hm Hc]].
      * destruct k as [|k].
        -- right. destruct Hk1 as (x&Hx&<-). simplify_eq/=. rewrite Nat.add_0_r, lookup_insert_eq.
           split; [done|]. intros y Hy. apply list_elem_of_lookup_1 in Hy as [j Hj]. apply (Hk2 (S j)); [lia|done].
        -- left. exists k. split; [lia|]. split; [done|]. intros j x Hj. apply (Hk2 (S j)). lia.
      * right. rewrite lookup_insert_ne by (apply Hc; left). split; [done|]. intros x Hx. apply Hc. by right.
Qed.
Lemma component_indexes_names cs d u : component_indexes 0 cs ∅ !! d = Some u ↔ names cs d u.
Proof.
  rewrite component_indexes_spec. split; [|eauto]. intros [(k&->&?)|[H _]]; [done|].
  by rewrite lookup_empty in H.
Qed.
Lemma names_bound cs d u : names cs d u → u < length cs.
Proof. intros [(c&Hc&_) _]. by eapply lookup_lt_Some. Qed.

(** ** The scan *)

(** What the scan of components [< n] has recorded: the edge lists, their in-degrees, and an error when something
    does not resolve. *)
Record scan_inv (cs : list ComponentNodeSpec) (edge : nat → nat → Prop) (s : LifecycleScan) : Prop := {
  si_dependents : length (scan_dependents s) = length cs;
  si_indegrees : length (scan_indegrees s) = length cs;
  si_edges : ∀ u v, v ∈ scan_dependents s !!! u ↔ edge u v;
  si_counts : ∀ v, v < length cs → scan_indegrees s !!! v = occ v (mjoin (scan_dependents s));
  si_bound : ∀ u v, edge u v → v < length cs;
  si_order : lo_order (scan_result s) = [];
  si_ok : lo_ok (scan_result s) = true ↔ lo_errors (scan_result s) = [] }.

Lemma occ_join_alter v (l : list (list nat)) i x : i < length l →
  occ v (mjoin (alter (fun t => t ++ [x]) i l)) = occ v (mjoin l) + (if decide (x = v) then 1 else 0).
Proof.
  revert i. induction l as [|t l IH]; intros [|i] Hi; simpl in Hi; [lia|lia| |].
  - change (mjoin (alter _ 0 (t :: l))) with ((t ++ [x]) ++ mjoin l). change (mjoin (t :: l)) with (t ++ mjoin l).
    rewrite !occ_app, occ_cons. change (occ v []) with 0. lia.
  - change (mjoin (alter ?f (S i) (t :: l))) with (t ++ mjoin (alter f i l)). change (mjoin (t :: l)) with (t ++ mjoin l).
    rewrite !occ_app, IH by lia. lia.
Qed.
Lemma lookup_total_alter_nat {A} `{!Inhabited A} (f : A → A) (l : list A) i j : i < length l →
  alter f i l !!! j = if decide (i = j) then f (l !!! j) else l !!! j.
Proof.
  intros Hi. rewrite list_lookup_total_alter. destruct (decide (i = j)) as [<-|Hne].
  - by rewrite decide_True by done.
  - rewrite decide_False by naive_solver. done.
Qed.

Lemma scan_inv_error cs edge s e :
  scan_inv cs edge s → scan_inv cs edge (s <| scan_result ::= fun r => lifecycle_error r e |>).
Proof.
  intros [H1 H2 H3 H4 H5 H6 H7]. split; simpl; try done. split; [done|]. by destruct (lo_errors (scan_result s)).
Qed.
Lemma scan_inv_edge cs edge s u v : scan_inv cs edge s → u < length cs → v < length cs →
  scan_inv cs (fun x y => edge x y ∨ (x = u ∧ y = v))
    (s <| scan_dependents ::= alter (fun l => l ++ [v]) u |> <| scan_indegrees ::= alter S v |>).
Proof.
  intros [H1 H2 H3 H4 H5 H6 H7] Hu Hv. split; simpl; rewrite ?length_alter; try done.
  - intros x y. rewrite lookup_total_alter_nat by lia. rewrite <- H3.
    destruct (decide (u = x)) as [->|?]; [|naive_solver]. rewrite elem_of_app, list_elem_of_singleton. naive_solver.
  - intros y Hy. rewrite lookup_total_alter_nat, occ_join_alter by lia.
    destruct (decide (v = y)); rewrite H4 by done; lia.
  - intros x y [?|[-> ->]]; [by eapply H5|done].
Qed.

Lemma scan_dependencies_spec cs index id deps seen edge s :
  let s' := scan_dependencies (component_indexes 0 cs ∅) index id seen deps s in
  index < length cs → scan_inv cs edge s →
  (∀ d u, d ∈ seen → names cs d u → edge u index) →
  scan_inv cs (fun u v => edge u v ∨ (v = index ∧ ∃ d, d ∈ deps ∧ names cs d u)) s' ∧
  (lo_ok (scan_result s') = true ↔
   lo_ok (scan_result s) = true ∧ NoDup deps ∧ ∀ d, d ∈ deps → d ∉ seen ∧ ∃ u, names cs d u).
Proof.
  revert seen edge s. induction deps as [|d deps IH]; intros seen edge s s' Hi I Hs; simpl in s'.
  - subst s'. split; [|by split; [intros; split; [done|split; [constructor|by intros ? ?%elem_of_nil]]|intros [? _]]].
    destruct I as [H1 H2 H3 H4 H5 H6 H7]. split; try done.
    + intros u v. rewrite H3. split; [auto|]. intros [?|[_ (d&Hd&_)]]; [done|by apply elem_of_nil in Hd].
    + intros u v [?|[_ (d&Hd&_)]]; [by eapply H5|by apply elem_of_nil in Hd].
  - assert (Hext : ∀ (e1 e2 : nat → nat → Prop) t, (∀ u v, e1 u v ↔ e2 u v) → scan_inv cs e1 t → scan_inv cs e2 t).
    { intros e1 e2 t He [H1 H2 H3 H4 H5 H6 H7]. split; try done; [intros; rewrite <- He; apply H3|].
      intros u v Huv. by eapply H5, He. }
    subst s'. destruct (bool_decide (d ∈ seen)) eqn:Eseen; [apply bool_decide_eq_true in Eseen|apply bool_decide_eq_false in Eseen].
    + match goal with |- context [scan_dependencies _ _ _ _ _ ?t] =>
        destruct (IH seen edge t Hi) as [J1 J2]; [by apply scan_inv_error|exact Hs|] end. split.
      * eapply Hext; [|exact J1]. intros u v. simpl. split; [intros [?|(->&d'&?&?)]; [by left|right; split; [done|exists d'; split; [by right|done]]]|].
        intros [?|(->&d'&[->|Hd']%elem_of_cons&?)]; [by left|left; eauto|right; eauto].
      * rewrite J2. simpl. split; [by intros [? _]|]. intros (_&_&Hd). destruct (Hd d) as [? _]; [left|done].
    + destruct (component_indexes 0 cs ∅ !! d) as [u0|] eqn:Ed.
      * apply component_indexes_names in Ed.
        destruct (IH ({[d]} ∪ seen) _ _ Hi (scan_inv_edge _ _ _ u0 index I (names_bound _ _ _ Ed) Hi)) as [J1 J2].
        { intros d' u [->%elem_of_singleton|Hd']%elem_of_union Hn; [|left; eauto].
          right. split; [|done]. by apply component_indexes_names in Ed, Hn; simplify_eq. }
        split.
        -- eapply Hext; [|exact J1]. intros u v. simpl. split.
           ++ intros [[?|[-> ->]]|(->&d'&?&?)]; [by left|right|right]; (split; [done|]); [exists d|exists d']; set_solver.
           ++ intros [?|(->&d'&[->|Hd']%elem_of_cons&Hn)]; [by left; left| |right; eauto].
              left; right. split; [|done]. by apply component_indexes_names in Ed, Hn; simplify_eq.
        -- rewrite J2. simpl. rewrite NoDup_cons. split.
           ++ intros (?&?&Hd). split; [done|]. split; [split; [|done]|].
              ** intros Hin. destruct (Hd d Hin) as [Hx _]. set_solver.
              ** intros d' [->|Hd']%elem_of_cons; [split; eauto|]. destruct (Hd d' Hd'). split; [set_solver|done].
           ++ intros (?&[??]&Hd). split; [done|]. split; [done|]. intros d' Hd'.
              destruct (Hd d') as [??]; [by right|]. split; [|done]. set_solver.
      * match goal with |- context [scan_dependencies _ _ _ _ _ ?t] =>
          destruct (IH ({[d]} ∪ seen) edge t Hi) as [J1 J2]; [by apply scan_inv_error| |] end.
        { intros d' u [->%elem_of_singleton|Hd']%elem_of_union Hn; [|eauto].
          by apply component_indexes_names in Hn; simplify_eq. }
        assert (Hno : ∀ u, ¬ names cs d u) by (intros u Hn%component_indexes_names; congruence).
        split.
        -- eapply Hext; [|exact J1]. intros u v. simpl. split; [intros [?|(->&d'&?&?)]; [by left|right; split; [done|exists d'; split; [by right|done]]]|].
           intros [?|(->&d'&[->|Hd']%elem_of_cons&Hn)]; [by left|by destruct (Hno _ Hn)|right; eauto].
        -- rewrite J2. simpl. split; [by intros [? _]|]. intros (_&_&Hd).
           destruct (Hd d) as [_ [u Hu]]; [left|]. by destruct (Hno u).
Qed.
Lemma scan_inv_ext cs (e1 e2 : nat → nat → Prop) s : (∀ u v, e1 u v ↔ e2 u v) → scan_inv cs e1 s → scan_inv cs e2 s.
Proof.
  intros He [H1 H2 H3 H4 H5 H6 H7]. split; try done; [intros; rewrite <- He; apply H3|].
  intros u v Huv. by eapply H5, He.
Qed.
Lemma scan_components_spec cs pre rest s :
  let s' := scan_components (component_indexes 0 cs ∅) (length pre) rest s in
  cs = pre ++ rest → scan_inv cs (fun u v => v < length pre ∧ depends cs u v) s →
  scan_inv cs (depends cs) s' ∧
  (lo_ok (scan_result s') = true ↔ lo_ok (scan_result s) = true ∧
     ∀ c, c ∈ rest → NoDup (depends_on c) ∧ ∀ d, d ∈ depends_on c → ∃ u, names cs d u).
Proof.
  revert pre s. induction rest as [|c rest IH]; intros pre s s' Hcs I; simpl in s'; subst s'.
  - split; [|by split; [intros; split; [done|by intros ? ?%elem_of_nil]|intros [? _]]].
    eapply scan_inv_ext; [|exact I]. intros u v. split; [by intros [_ ?]|]. intros H. split; [|done].
    destruct H as (x&d&Hx&_). rewrite app_nil_r in Hcs. rewrite <- Hcs. by eapply lookup_lt_Some.
  - assert (Hlen : length pre < length cs) by (rewrite Hcs, length_app; simpl; lia).
    assert (Hc : cs !! length pre = Some c) by (rewrite Hcs; by apply list_lookup_middle).
    destruct (scan_dependencies_spec cs (length pre) (comp_id c) (depends_on c) ∅ _ s Hlen I) as [J1 J2]; [set_solver|].
    assert (Hl : S (length pre) = length (pre ++ [c])) by (rewrite length_app; simpl; lia). rewrite Hl.
    destruct (IH (pre ++ [c]) (scan_dependencies (component_indexes 0 cs ∅) (length pre) (comp_id c) ∅ (depends_on c) s))
      as [K1 K2]; [by rewrite <- (assoc_L (++))| |].
    + eapply scan_inv_ext; [|exact J1]. intros u v. simpl. rewrite <- Hl. split.
      * intros [[? ?]|(->&d&?&?)]; [auto with lia|]. split; [lia|]. exists c, d. auto.
      * intros [Hv Hd]. destruct (decide (v = length pre)) as [->|?]; [|left; split; [lia|done]].
        right. split; [done|]. destruct Hd as (x&d&Hx&?&?). rewrite Hc in Hx. simplify_eq. eauto.
    + split; [done|]. rewrite K2, J2. split.
      * intros ((?&?&Hd)&Hr). split; [done|]. intros x [->|Hx]%elem_of_cons; [|auto].
        split; [done|]. intros d Hin. by destruct (Hd d Hin).
      * intros (?&Hall). split; [|intros x Hx; apply Hall; by right]. split; [done|].
        destruct (Hall c) as [? Hd]; [left|]. split; [done|]. intros d Hin. split; [set_solver|auto].
Qed.

(** ** The loop *)
Lemma release_dependents_spec succs nodes visiting indegrees ready order :
  kahn_inv succs nodes (fun x => indegrees !!! x) ready order visiting → (∀ x, x ∈ nodes → x < length indegrees) →
  let '(indegrees', ready') := release_dependents visiting indegrees ready in
  kahn_inv succs nodes (fun x => indegrees' !!! x) ready' order [] ∧ length indegrees' = length indegrees.
Proof.
  revert indegrees ready. induction visiting as [|x visiting IH]; intros indegrees ready I Hlen; [done|].
  cbn [release_dependents].
  assert (x < length indegrees) as Hx. { apply Hlen. eapply ki_visiting; [exact I|left]. }
  destruct (kahn_visit succs nodes (fun y => indegrees !!! y) (fun y => alter pred x indegrees !!! y) _ _ _ _ I) as [Hpos Hstep].
  rewrite (proj2 (Nat.ltb_lt 0 _) Hpos).
  specialize (IH (alter pred x indegrees) (if alter pred x indegrees !!! x =? 0 then ready ++ [x] else ready)).
  rewrite length_alter in IH. apply IH; [|done]. apply Hstep.
  - by rewrite lookup_total_alter_nat, decide_True by done.
  - intros y _ Hy. by rewrite lookup_total_alter_nat, decide_False by done.
Qed.
Lemma lifecycle_loop_spec nodes dependents fuel indegrees ready order :
  let succs u := dependents !!! u in
  NoDup nodes → (∀ u v, u ∈ nodes → v ∈ succs u → v ∈ nodes) →
  kahn_inv succs nodes (fun x => indegrees !!! x) ready order [] →
  (∀ x, x ∈ nodes → x < length indegrees) → length nodes <= fuel + length order →
  ∃ order' (indegrees' : list nat), lifecycle_loop fuel dependents indegrees ready order = Some order' ∧
    kahn_inv succs nodes (fun x => indegrees' !!! x) [] order' [].
Proof.
  intros succs Hn Hc. revert indegrees ready order. induction fuel as [|fuel IH]; intros indegrees ready order I Hlen Hf;
    pose proof (kahn_length _ _ _ _ _ _ I) as Hl; (destruct ready as [|x ready]; [by exists order, indegrees|]); simpl in *; [lia|].
  apply (kahn_pop succs nodes Hn Hc) in I. pose proof (release_dependents_spec _ _ _ _ _ _ I Hlen) as Hr.
  change (dependents !!! x) with (succs x). destruct (release_dependents (succs x) indegrees ready) as [indegrees' ready'].
  destruct Hr as [I' Hl']. apply IH; [done|by rewrite Hl'|]. rewrite length_app. simpl. lia.
Qed.

Lemma lookup_total_seq {A} `{!Inhabited A} (l : list A) : (fun i => l !!! i) <$> seq 0 (length l) = l.
Proof.
  apply list_eq. intros i. rewrite list_lookup_fmap. destruct (decide (i < length l)) as [Hi|Hi].
  - rewrite lookup_seq_lt by done. simpl. symmetry. by apply list_lookup_lookup_total_lt.
  - rewrite lookup_seq_ge, lookup_ge_None_2 by lia. done.
Qed.

Lemma join_replicate_nil n : mjoin (replicate n ([] : list nat)) = [].
Proof. by induction n. Qed.

Lemma compute_order_spec g : ∃ r, compute_component_lifecycle_order g = Some r ∧
  (lo_ok r = true → dependency_order (graph_components g) (lo_order r)) ∧
  (lo_ok r = true ↔ dependencies_resolved (graph_components g) ∧ ∃ l, dependency_order (graph_components g) l) ∧
  (lo_ok r = true ↔ lo_errors r = []).
Proof.
  set (cs := graph_components g).
  destruct (scan_components_spec cs [] cs (mkScan (mkLifecycle true [] []) (replicate (length cs) []) (replicate (length cs) 0)))
    as [I Hok]; [done| |].
  { assert (∀ u, replicate (length cs) ([] : list nat) !!! u = []) as Hr.
    { intros u. rewrite list_lookup_total_alt. destruct (_ !! u) as [t|] eqn:E; [|done].
      by apply lookup_replicate in E as [-> _]. }
    split; simpl; rewrite ?length_replicate; try done.
    - intros u v. rewrite Hr. split; [by intros ?%elem_of_nil|lia].
    - intros v Hv. rewrite (join_replicate_nil (length cs)).
      rewrite list_lookup_total_alt. by rewrite lookup_replicate_2.
    - lia. }
  unfold compute_component_lifecycle_order. cbv zeta. fold cs.
  set (s := scan_components _ 0 cs _) in *. change (length []) with 0 in I, Hok. fold s in I, Hok.
  set (succs u := scan_dependents s !!! u). set (nodes := seq 0 (length cs)).
  assert (Hlc : length nodes = length cs) by apply length_seq.
  assert (Hc : ∀ u v, u ∈ nodes → v ∈ succs u → v ∈ nodes).
  { intros u v _ Hv%(si_edges _ _ _ I). apply elem_of_seq. pose proof (si_bound _ _ _ I _ _ Hv). lia. }
  destruct (lifecycle_loop_spec nodes (scan_dependents s) (length cs) (scan_indegrees s)
    (List.filter (fun i => scan_indegrees s !!! i =? 0) nodes) []) as (order&indegrees&->&K);
    [apply NoDup_seq|exact Hc| | |rewrite Hlc; lia|].
  { apply kahn_start.
    - intros x Hx%elem_of_seq. rewrite (si_counts _ _ _ I) by lia. rewrite pending_edges_nil. unfold nodes, succs.
      by rewrite <- (si_dependents _ _ _ I), lookup_total_seq.
    - apply NoDup_ListNoDup, List.NoDup_filter, NoDup_ListNoDup, NoDup_seq.
    - intros x. rewrite list_elem_of_In, List.filter_In, <- list_elem_of_In, Nat.eqb_eq. done. }
  { intros x Hx%elem_of_seq. rewrite (si_indegrees _ _ _ I). lia. }
  destruct (kahn_end succs nodes (NoDup_seq _ _) Hc _ _ K) as [Hend1 Hend2]. rewrite Hlc in Hend1, Hend2.
  assert (Htop : ∀ l, topological succs nodes l ↔ dependency_order cs l).
  { intros l. unfold topological, dependency_order. fold nodes. split; intros [Hp Hf]; (split; [done|]).
    - intros u v Huv. apply Hf; [|by apply (si_edges _ _ _ I)]. destruct Huv as (?&?&_&_&?%names_bound).
      apply elem_of_seq. lia.
    - intros u v _ Huv. apply Hf. by apply (si_edges _ _ _ I). }
  eexists. split; [done|]. destruct (Nat.eqb_spec (length order) (length cs)) as [El|El]; simpl.
  - split; [intros _; apply Htop; auto|]. split; [|apply (si_ok _ _ _ I)]. rewrite Hok. simpl. split.
    + intros [_ ?]. split; [done|]. exists order. apply Htop. auto.
    + intros [? _]. done.
  - split; [done|]. split; [|split; [done|by destruct (lo_errors _)]]. split; [done|].
    intros [_ [l Hl]]. destruct (Hend2 El). exists l. by apply Htop.
Qed.

(** C36. The lifecycle order is computed for every graph.  An order is returned only when every component names declared components
    as its dependencies, each once, and it holds every component once, each after the components it depends on; the exception is thrown exactly when a component repeats a dependency or
    names an undeclared one, or no such order exists. *)
Theorem lifecycle_order_correct g :
  ∃ result, component_lifecycle_order g = Some result ∧
  match result with
  | inr order => dependencies_resolved (graph_components g) ∧ dependency_order (graph_components g) order
  | inl _ => ¬ (dependencies_resolved (graph_components g) ∧ ∃ l, dependency_order (graph_components g) l)
  end.
Proof.
  destruct (compute_order_spec g) as (r&Hr&H1&H2&_). unfold component_lifecycle_order. rewrite Hr. simpl.
  eexists. split; [done|]. destruct (lo_ok r) eqn:E; [split; [by apply H2|by apply H1]|]. rewrite <- H2. done.
Qed.
