(* ===== verification/Scc.v ===== *)
(** * Scc: strongly connected components

    Models [tarjan_scc] of [src/graph.cpp]: Tarjan's algorithm as the code runs it, with its index and low-link maps,
    its stack and the recursive closure [strong_connect].  The recursion has fuel, one more than the number of listed
    nodes and edge targets; [tarjan_scc_correct] shows that it is enough and that the result is the list of strongly
    connected components, each sorted, in an order where edges lead to earlier components. *)

From S2P Require Export Prelude.
Local Open Scope nat_scope.

(** ** The algorithm *)
Record TarjanState := mkTarjan {
  scc_components : list (list string); index_of : gmap string nat; lowlink : gmap string nat;
  on_stack : gset string; scc_stack : list string; next_index : nat }.
#[export] Instance eta_TarjanState : Eta TarjanState := fun s =>
  mkTarjan (scc_components s) (index_of s) (lowlink s) (on_stack s) (scc_stack s) (next_index s).

(** The back of the vector [stack] is the head of [scc_stack]. *)
Definition push_node (node : string) (s : TarjanState) : TarjanState :=
  s <| index_of ::= <[node := next_index s]> |> <| lowlink ::= <[node := next_index s]> |>
    <| next_index ::= S |> <| scc_stack ::= cons node |> <| on_stack ::= fun o => {[node]} ∪ o |>.
Fixpoint pop_component (node : string) (stack : list string) (on : gset string) (component : list string)
    : list string * gset string * list string :=
  match stack with
  | [] => ([], on, component)
  | value :: rest =>
      if decide (value = node) then (rest, on ∖ {[value]}, component ++ [value])
      else pop_component node rest (on ∖ {[value]}) (component ++ [value])
  end.
Definition close_component (node : string) (s : TarjanState) : TarjanState :=
  let '(stack, on, component) := pop_component node (scc_stack s) (on_stack s) [] in
  s <| scc_stack := stack |> <| on_stack := on |>
    <| scc_components ::= fun cs => cs ++ [merge_sort String.le component] |>.
Definition lower (node : string) (value : nat) (s : TarjanState) : TarjanState :=
  s <| lowlink ::= fun l => <[node := map_at 0 l node `min` value]> l |>.

Fixpoint visit_edges (connect : string → TarjanState → option TarjanState) (node : string) (targets : list string)
    (s : TarjanState) : option TarjanState :=
  match targets with
  | [] => Some s
  | next :: rest =>
      match index_of s !! next with
      | None => s' ← connect next s; visit_edges connect node rest (lower node (map_at 0 (lowlink s') next) s')
      | Some _ =>
          if decide (next ∈ on_stack s) then visit_edges connect node rest (lower node (map_at 0 (index_of s) next) s)
          else visit_edges connect node rest s
      end
  end.
Fixpoint strong_connect (edges : gmap string (list string)) (fuel : nat) (node : string) (s : TarjanState)
    : option TarjanState :=
  match fuel with
  | 0 => None
  | S fuel' =>
      s' ← visit_edges (strong_connect edges fuel') node (map_at [] edges node) (push_node node s);
      Some (if map_at 0 (lowlink s') node =? map_at 0 (index_of s') node then close_component node s' else s')
  end.
Fixpoint connect_nodes (edges : gmap string (list string)) (fuel : nat) (nodes : list string) (s : TarjanState)
    : option TarjanState :=
  match nodes with
  | [] => Some s
  | node :: rest =>
      match index_of s !! node with
      | None => s' ← strong_connect edges fuel node s; connect_nodes edges fuel rest s'
      | Some _ => connect_nodes edges fuel rest s
      end
  end.
Definition tarjan_scc (nodes : list string) (edges : gmap string (list string)) : option (list (list string)) :=
  let fuel := S (length nodes + length (mjoin (map_to_list edges).*2)) in
  s ← connect_nodes edges fuel nodes (mkTarjan [] ∅ ∅ ∅ [] 0);
  Some (scc_components s).

(** ** Specification *)
Definition edge_in (edges : gmap string (list string)) (x y : string) : Prop := y ∈ map_at [] edges x.
Definition reaches (edges : gmap string (list string)) : string → string → Prop := rtc (edge_in edges).
(** [c] is a strongly connected component, as a sorted list. *)
Definition is_scc (edges : gmap string (list string)) (c : list string) : Prop :=
  c ≠ [] ∧ StronglySorted String.le c ∧ ∀ x, x ∈ c → ∀ y, y ∈ c ↔ reaches edges x y ∧ reaches edges y x.
(** Edges out of a component lead into it or into an earlier one. *)
Definition edges_go_back (edges : gmap string (list string)) (cs : list (list string)) : Prop :=
  ∀ c1 c c2 x y, cs = c1 ++ c :: c2 → x ∈ c → edge_in edges x y → y ∈ c ∨ y ∈ mjoin c1.

Section tarjan.
Context (edges : gmap string (list string)) (universe : gset string).
Context (universe_closed : ∀ x y, edge_in edges x y → y ∈ universe).
Abbreviation E := (edge_in edges).
Abbreviation reach := (reaches edges).
Definition idx (s : TarjanState) (x : string) : nat := map_at 0 (index_of s) x.
Definition low (s : TarjanState) (x : string) : nat := map_at 0 (lowlink s) x.
Definition visited (s : TarjanState) (x : string) : Prop := is_Some (index_of s !! x).
Definition closed_nodes (s : TarjanState) : list string := mjoin (scc_components s).
Definition unvisited (s : TarjanState) : nat := size (universe ∖ dom (index_of s)).

(** [gray] are the nodes whose call is active, the innermost one included. *)
Record tarjan_inv (gray : gset string) (s : TarjanState) : Prop := {
  ti_universe : ∀ x, visited s x → x ∈ universe;
  ti_next : ∀ x, visited s x → idx s x < next_index s;
  ti_sorted : StronglySorted (fun x y => idx s y < idx s x) (scc_stack s);
  ti_visited : ∀ x, visited s x ↔ x ∈ scc_stack s ∨ x ∈ closed_nodes s;
  ti_unique : NoDup (closed_nodes s);
  ti_disjoint : ∀ x, x ∈ scc_stack s → x ∉ closed_nodes s;
  ti_on_stack : ∀ x, x ∈ on_stack s ↔ x ∈ scc_stack s;
  ti_gray : ∀ g, g ∈ gray → g ∈ scc_stack s;
  ti_explored : ∀ x y, visited s x → x ∉ gray → E x y → visited s y;
  ti_down : ∀ x, x ∈ scc_stack s → ∃ g, g ∈ gray ∧ idx s g <= idx s x ∧ reach x g;
  ti_up : ∀ g x, g ∈ gray → x ∈ scc_stack s → idx s g <= idx s x → reach g x;
  ti_sccs : ∀ c, c ∈ scc_components s → is_scc edges c;
  ti_order : edges_go_back edges (scc_components s) }.

(** What a call leaves alone: the nodes already visited keep their maps, and the stack and the components only grow. *)
Record grows (s s' : TarjanState) : Prop := {
  gr_index : index_of s ⊆ index_of s';
  gr_low : ∀ x, visited s x → lowlink s' !! x = lowlink s !! x;
  gr_next : next_index s <= next_index s';
  gr_components : ∃ cs, scc_components s' = scc_components s ++ cs;
  gr_fresh : ∀ x, visited s' x → ¬ visited s x → next_index s <= idx s' x }.

(** The result of a call on [node]: with [new] the part of the stack above the old one, the low-link bounds the
    indices of the old stack nodes that [new] has edges to, and is the index of a stack node that [node] reaches,
    unless the call closed its component. *)
Record connected (gray : gset string) (node : string) (s s' : TarjanState) (new : list string) : Prop := {
  cn_inv : tarjan_inv gray s';
  cn_grows : grows s s';
  cn_visited : visited s' node;
  cn_stack : scc_stack s' = new ++ scc_stack s;
  cn_cross : ∀ x y, x ∈ new → E x y → y ∈ scc_stack s → low s' node <= idx s' y;
  cn_low : (new = [] ∧ low s' node = idx s' node) ∨ ∃ y, y ∈ scc_stack s' ∧ idx s' y = low s' node ∧ reach node y }.
Definition connects (connect : string → TarjanState → option TarjanState) (budget : nat) : Prop :=
  ∀ gray node s, tarjan_inv gray s → node ∈ universe → ¬ visited s node → (∀ g, g ∈ gray → reach g node) →
  unvisited s < budget → ∃ s' new, connect node s = Some s' ∧ connected gray node s s' new.

(** ** Growth *)
Lemma visited_grows s s' x : grows s s' → visited s x → visited s' x.
Proof. intros G [i Hi]. exists i. by eapply lookup_weaken, G. Qed.
Lemma idx_grows s s' x : grows s s' → visited s x → idx s' x = idx s x.
Proof. intros G [i Hi]. unfold idx, map_at. by rewrite (lookup_weaken _ _ _ _ Hi (gr_index _ _ G)), Hi. Qed.
Lemma low_grows s s' x : grows s s' → visited s x → low s' x = low s x.
Proof. intros G Hv. unfold low, map_at. by rewrite (gr_low _ _ G). Qed.
Lemma grows_refl s : grows s s.
Proof. split; try done. by exists []; rewrite app_nil_r. Qed.
Lemma grows_trans s1 s2 s3 : grows s1 s2 → grows s2 s3 → grows s1 s3.
Proof.
  intros G1 G2. split.
  - etrans; [apply G1|apply G2].
  - intros x Hx. rewrite (gr_low _ _ G2) by (by eapply visited_grows). by apply G1.
  - etrans; [apply G1|apply G2].
  - destruct (gr_components _ _ G1) as [cs1 E1], (gr_components _ _ G2) as [cs2 E2]. exists (cs1 ++ cs2).
    by rewrite E2, E1, (assoc_L (++)).
  - intros x H3 H1. destruct (decide (is_Some (index_of s2 !! x))) as [H2|H2].
    + rewrite (idx_grows s2 s3) by done. by apply G1.
    + etrans; [apply G1|]. by apply G2.
Qed.
Lemma unvisited_grows s s' : grows s s' → unvisited s' <= unvisited s.
Proof.
  intros G. unfold unvisited. apply subseteq_size. intros x. rewrite !elem_of_difference, !elem_of_dom. intros [? Hx]. split; [done|].
  intros Hv. apply Hx. by eapply visited_grows.
Qed.
Lemma unvisited_push s node : node ∈ universe → ¬ visited s node → unvisited (push_node node s) < unvisited s.
Proof.
  intros Hu Hv. unfold unvisited. apply subset_size. simpl. rewrite dom_insert_L. split; [set_solver|]. intros Hs.
  assert (node ∈ universe ∖ ({[node]} ∪ dom (index_of s))); [|set_solver]. apply Hs. apply elem_of_difference.
  split; [done|]. by rewrite elem_of_dom.
Qed.
Lemma stack_visited gray s x : tarjan_inv gray s → x ∈ scc_stack s → visited s x.
Proof. intros I Hx. apply (ti_visited _ _ I). by left. Qed.
#[local] Hint Resolve grows_refl grows_trans visited_grows stack_visited : core.

(** ** Entering a node *)
Lemma sorted_weaken {A} (R1 R2 : A → A → Prop) l :
  (∀ x y, x ∈ l → y ∈ l → R1 x y → R2 x y) → StronglySorted R1 l → StronglySorted R2 l.
Proof.
  intros HR. induction 1 as [|x l Hs IH Hf]; constructor.
  - apply IH. intros y z ??. apply HR; by right.
  - rewrite Forall_forall in Hf |- *. intros y Hy. apply HR; [left|by right|auto].
Qed.
Lemma push_grows s node : ¬ visited s node → grows s (push_node node s).
Proof.
  intros Hv. assert (index_of s !! node = None) as Hn by (by apply eq_None_not_Some). split; simpl.
  - by apply insert_subseteq.
  - intros x Hx. rewrite lookup_insert_ne; [done|]. by intros <-.
  - lia.
  - exists []. by rewrite app_nil_r.
  - intros x Hx Hx'. unfold idx, map_at. simpl. destruct (decide (node = x)) as [<-|Hne]; [by rewrite lookup_insert_eq|].
    destruct Hx' as []. unfold visited in *. simpl in Hx. by rewrite lookup_insert_ne in Hx.
Qed.
Lemma idx_push s node : idx (push_node node s) node = next_index s.
Proof. unfold idx, map_at. simpl. by rewrite lookup_insert_eq. Qed.
Lemma visited_push s node x : visited (push_node node s) x ↔ x = node ∨ visited s x.
Proof. unfold visited. simpl. rewrite lookup_insert_is_Some'. naive_solver. Qed.

Lemma push_inv gray s node : tarjan_inv gray s → node ∈ universe → ¬ visited s node → (∀ g, g ∈ gray → reach g node) →
  tarjan_inv ({[node]} ∪ gray) (push_node node s).
Proof.
  intros I Hu Hv Hg. pose proof (push_grows s node Hv) as G.
  assert (Hi : ∀ x, visited s x → idx (push_node node s) x = idx s x) by (intros; by apply idx_grows).
  assert (Hst : ∀ x, x ∈ scc_stack s → visited s x) by (intros; by eapply stack_visited).
  assert (Hlt : ∀ x, visited s x → idx (push_node node s) x < next_index s) by (intros; rewrite Hi by done; by apply I).
  split.
  - intros x [->|Hx]%visited_push; [done|]. by apply (ti_universe _ _ I).
  - intros x [->|Hx]%visited_push; simpl; [rewrite idx_push; lia|]. specialize (Hlt x Hx). lia.
  - simpl. constructor.
    + eapply sorted_weaken; [|apply I]. intros x y Hx Hy. by rewrite !Hi by auto.
    + apply Forall_forall. intros x Hx. rewrite idx_push. auto.
  - intros x. rewrite visited_push, (ti_visited _ _ I). simpl. rewrite elem_of_cons. unfold closed_nodes. simpl. tauto.
  - apply I.
  - simpl. intros x [->|Hx]%elem_of_cons; [|by apply (ti_disjoint _ _ I)].
    intros Hc. apply Hv, (ti_visited _ _ I). by right.
  - intros x. simpl. rewrite elem_of_union, elem_of_singleton, elem_of_cons, (ti_on_stack _ _ I). done.
  - simpl. intros g [->%elem_of_singleton|Hg']%elem_of_union; [left|right]. by apply (ti_gray _ _ I).
  - intros x y [->|Hx]%visited_push Hng He; [set_solver|]. apply visited_push. right. eapply (ti_explored _ _ I); [done| |done].
    set_solver.
  - simpl. intros x [->|Hx]%elem_of_cons.
    + exists node. split; [set_solver|]. split; [done|apply rtc_refl].
    + destruct (ti_down _ _ I x Hx) as (g&Hg'&Hle&Hr). exists g. split; [set_solver|]. split; [|done].
      rewrite !Hi; auto. apply Hst, (ti_gray _ _ I), Hg'.
  - simpl. intros g x [->%elem_of_singleton|Hg']%elem_of_union [->|Hx]%elem_of_cons Hle; try apply rtc_refl; [| |].
    + rewrite idx_push in Hle. specialize (Hlt x (Hst x Hx)). lia.
    + by apply Hg.
    + apply (ti_up _ _ I); [done..|]. rewrite !Hi in Hle; auto. apply Hst, (ti_gray _ _ I), Hg'.
  - apply I.
  - apply I.
Qed.
Lemma lower_inv gray node v s : tarjan_inv gray s → tarjan_inv gray (lower node v s).
Proof. intros []. by split. Qed.
Lemma low_lower node v s : low (lower node v s) node = low s node `min` v.
Proof. unfold low, map_at. simpl. by rewrite lookup_insert_eq. Qed.
Lemma lower_grows s0 s node v : ¬ visited s0 node → grows s0 s → grows s0 (lower node v s).
Proof.
  intros Hv []. split; simpl; try done. intros x Hx. rewrite lookup_insert_ne; [auto|]. by intros <-.
Qed.

(** ** The loop over the edges of a node *)
Record loop_inv (budget : nat) (gray : gset string) (node : string) (s0 : TarjanState) (seen : list string)
    (s : TarjanState) (new : list string) : Prop := {
  li_inv : tarjan_inv ({[node]} ∪ gray) s;
  li_grows : grows s0 s;
  li_budget : unvisited s < budget;
  li_stack : scc_stack s = new ++ node :: scc_stack s0;
  li_node : idx s node = next_index s0;
  li_low_le : low s node <= idx s node;
  li_low : ∃ y, y ∈ scc_stack s ∧ idx s y = low s node ∧ reach node y;
  li_cross : ∀ x y, x ∈ new ∧ E x y ∨ y ∈ seen → y ∈ scc_stack s0 → low s node <= idx s y;
  li_seen : ∀ y, y ∈ seen → visited s y }.

Section visiting.
Context (budget : nat) (gray : gset string) (node : string) (s0 : TarjanState).
Context (I0 : tarjan_inv gray s0) (Hnode : ¬ visited s0 node).

Lemma loop_node_visited seen s new : loop_inv budget gray node s0 seen s new → visited s node.
Proof. intros L. eapply stack_visited; [apply L|]. rewrite (li_stack _ _ _ _ _ _ _ L). set_solver. Qed.
Lemma loop_gray_reach seen s new g : loop_inv budget gray node s0 seen s new → g ∈ {[node]} ∪ gray → reach g node.
Proof.
  intros L Hg. apply (ti_up _ _ (li_inv _ _ _ _ _ _ _ L)); [done| |].
  - rewrite (li_stack _ _ _ _ _ _ _ L). set_solver.
  - apply elem_of_union in Hg as [->%elem_of_singleton|Hg]; [done|]. rewrite (li_node _ _ _ _ _ _ _ L).
    assert (visited s0 g) as Hv by (eapply stack_visited; [done|by apply (ti_gray _ _ I0)]).
    rewrite (idx_grows s0 s) by (done || apply L). apply Nat.lt_le_incl. by apply (ti_next _ _ I0).
Qed.
(** An edge to a node on the stack lowers the low-link; any other visited node changes nothing. *)
Lemma loop_visited seen s new next : loop_inv budget gray node s0 seen s new → E node next → visited s next →
  loop_inv budget gray node s0 (seen ++ [next])
    (if decide (next ∈ on_stack s) then lower node (idx s next) s else s) new.
Proof.
  intros L He Hv. pose proof (li_inv _ _ _ _ _ _ _ L) as I. destruct (decide (next ∈ on_stack s)) as [Ho|Ho].
  - apply (ti_on_stack _ _ I) in Ho. destruct L as [L1 L2 L3 L4 L5 L6 L7 L8 L9]. split; try done.
    + by apply lower_inv.
    + by apply lower_grows.
    + rewrite low_lower. change (idx (lower node (idx s next) s) node) with (idx s node). lia.
    + rewrite low_lower. destruct (Nat.min_spec (low s node) (idx s next)) as [[_ ->]|[_ ->]]; [done|].
      exists next. split; [done|]. split; [done|]. by apply rtc_once.
    + intros x y Hxy Hy. rewrite low_lower. change (idx (lower node (idx s next) s) y) with (idx s y).
      rewrite elem_of_app, list_elem_of_singleton in Hxy.
      destruct Hxy as [Hx|[Hy'|<-]]; [|specialize (L8 x y (or_intror Hy') Hy)|]; [specialize (L8 x y (or_introl Hx) Hy)| |]; lia.
    + intros y [Hy| ->%list_elem_of_singleton]%elem_of_app; [by apply L9|done].
  - rewrite (ti_on_stack _ _ I) in Ho. destruct L as [L1 L2 L3 L4 L5 L6 L7 L8 L9]. split; try done.
    + intros x y Hxy Hy. apply (L8 x y); [|done]. rewrite elem_of_app, list_elem_of_singleton in Hxy.
      destruct Hxy as [?|[?| ->]]; [by left|by right|]. destruct Ho. rewrite L4. set_solver.
    + intros y [Hy| ->%list_elem_of_singleton]%elem_of_app; [by apply L9|done].
Qed.
(** An edge to a new node: the call, then the low-link of the node takes its minimum with that of the child. *)
Lemma loop_call seen s new next s' newc : loop_inv budget gray node s0 seen s new → E node next → ¬ visited s next →
  connected ({[node]} ∪ gray) next s s' newc →
  loop_inv budget gray node s0 (seen ++ [next]) (lower node (low s' next) s') (newc ++ new).
Proof.
  intros L He Hv C. pose proof (loop_node_visited _ _ _ L) as Hnv.
  destruct L as [L1 L2 L3 L4 L5 L6 L7 L8 L9], C as [C1 C2 C3 C4 C5 C6].
  assert (Hi : ∀ x, visited s x → idx (lower node (low s' next) s') x = idx s x) by (intros; by apply (idx_grows s s')).
  assert (Hlow : low (lower node (low s' next) s') node = low s node `min` low s' next).
  { rewrite low_lower. by rewrite (low_grows s s'). }
  assert (Hst : ∀ x, x ∈ scc_stack s → visited s x) by (intros; by eapply stack_visited).
  assert (H0s : ∀ x, x ∈ scc_stack s0 → x ∈ scc_stack s) by (rewrite L4; set_solver).
  split.
  - by apply lower_inv.
  - apply lower_grows; [done|]. by eapply grows_trans.
  - eapply Nat.le_lt_trans; [|exact L3]. change (unvisited (lower node (low s' next) s')) with (unvisited s').
    by apply unvisited_grows.
  - simpl. by rewrite C4, L4, (assoc_L (++)).
  - by rewrite Hi.
  - rewrite Hlow, Hi by done. lia.
  - rewrite Hlow. destruct (Nat.min_spec (low s node) (low s' next)) as [[_ ->]|[Hle ->]].
    + destruct L7 as (y&Hy&Hy'&Hr). exists y. simpl. rewrite Hi by auto. split; [rewrite C4; set_solver|done].
    + destruct C6 as [[_ Heq]|(y&Hy&Hy'&Hr)].
      * pose proof (gr_fresh _ _ C2 next C3 Hv). pose proof (ti_next _ _ L1 node Hnv). lia.
      * exists y. split; [done|]. split; [done|]. by eapply rtc_l.
  - intros x y Hxy Hy. rewrite Hlow, Hi by auto. rewrite !elem_of_app, list_elem_of_singleton in Hxy.
    destruct Hxy as [[[Hx|Hx] Hxy]|[Hs| ->]].
    + pose proof (C5 x y Hx Hxy (H0s y Hy)) as Hc. rewrite (idx_grows s s') in Hc by auto. lia.
    + specialize (L8 x y (or_introl (conj Hx Hxy)) Hy). lia.
    + specialize (L8 x y (or_intror Hs) Hy). lia.
    + destruct Hv. auto.
  - intros y [Hy| ->%list_elem_of_singleton]%elem_of_app; [|done]. apply (visited_grows s s'); auto.
Qed.
End visiting.

(** ** Leaving a node *)
Lemma pop_component_spec node new rest on comp : node ∉ new →
  pop_component node (new ++ node :: rest) on comp = (rest, on ∖ list_to_set (new ++ [node]), comp ++ new ++ [node]).
Proof.
  revert on comp. induction new as [|x new IH]; intros on comp Hn; simpl.
  - rewrite decide_True by done. by rewrite (right_id_L ∅ (∪)).
  - rewrite not_elem_of_cons in Hn. rewrite decide_False by naive_solver. rewrite IH by naive_solver.
    rewrite difference_difference_l_L, <- (assoc_L (++)). done.
Qed.
Lemma sorted_suffix {A} (R : A → A → Prop) l1 l2 : StronglySorted R (l1 ++ l2) → StronglySorted R l2.
Proof. induction l1 as [|x l1 IH]; [done|]. intros [? _]%StronglySorted_inv. auto. Qed.
Lemma sorted_above {A} (R : A → A → Prop) l1 y l2 x : StronglySorted R (l1 ++ y :: l2) → x ∈ l1 → R x y.
Proof.
  induction l1 as [|z l1 IH]; [by intros _ ?%elem_of_nil|]. intros [Hs Hf]%StronglySorted_inv [->|Hx]%elem_of_cons; [|auto].
  rewrite Forall_forall in Hf. apply Hf. set_solver.
Qed.
Lemma sorted_NoDup {A} (f : A → nat) l : StronglySorted (fun x y => f y < f x) l → NoDup l.
Proof.
  induction 1 as [|x l Hs IH Hf]; constructor; [|done]. intros Hx. rewrite Forall_forall in Hf. specialize (Hf x Hx). lia.
Qed.
Lemma edges_go_back_snoc cs c : edges_go_back edges cs →
  (∀ x y, x ∈ c → E x y → y ∈ c ∨ y ∈ mjoin cs) → edges_go_back edges (cs ++ [c]).
Proof.
  intros Ho Hc c1 d c2 x y Heq Hx He. destruct c2 as [|d' c2 _] using rev_ind.
  - apply app_inj_2 in Heq as [-> [= ->]]; [|done]. eauto.
  - rewrite app_comm_cons, (assoc_L (++)) in Heq. apply app_inj_2 in Heq as [-> _]; [|done]. by eapply Ho.
Qed.
Lemma edges_go_back_closed cs x y : edges_go_back edges cs → x ∈ mjoin cs → E x y → y ∈ mjoin cs.
Proof.
  intros Ho (c&Hx&Hc)%list_elem_of_join He. apply list_elem_of_split in Hc as (c1&c2&->).
  destruct (Ho c1 c c2 x y eq_refl Hx He) as [H|H].
  - apply list_elem_of_join. exists c. split; [done|set_solver].
  - apply list_elem_of_join in H as (d&?&?). apply list_elem_of_join. exists d. split; [done|set_solver].
Qed.
Lemma edges_go_back_reach cs x y : edges_go_back edges cs → reach x y → x ∈ mjoin cs → y ∈ mjoin cs.
Proof. intros Ho. induction 1; eauto using edges_go_back_closed. Qed.

Section leaving.
Context (budget : nat) (gray : gset string) (node : string) (s0 s : TarjanState) (new : list string).
Context (I0 : tarjan_inv gray s0) (Hnode : ¬ visited s0 node).
Context (L : loop_inv budget gray node s0 (map_at [] edges node) s new).
Let I := li_inv _ _ _ _ _ _ _ L.
Let Hstack := li_stack _ _ _ _ _ _ _ L.

Lemma leave_unique : NoDup (new ++ node :: scc_stack s0).
Proof. rewrite <- Hstack. eapply (sorted_NoDup (idx s)), I. Qed.
Lemma leave_old x : x ∈ scc_stack s0 → visited s0 x ∧ idx s x = idx s0 x ∧ idx s x < idx s node.
Proof.
  intros Hx. assert (visited s0 x) as Hv by (by eapply stack_visited). split; [done|].
  rewrite (idx_grows s0 s) by (done || apply L). split; [done|]. rewrite (li_node _ _ _ _ _ _ _ L). by apply (ti_next _ _ I0).
Qed.
Lemma leave_explored x y : x ∈ new ++ [node] → E x y → visited s y.
Proof.
  intros Hx He. apply elem_of_app in Hx as [Hx| ->%list_elem_of_singleton]; [|by apply (li_seen _ _ _ _ _ _ _ L)].
  eapply (ti_explored _ _ I); [|  |exact He].
  - eapply stack_visited; [exact I|]. rewrite Hstack. set_solver.
  - intros Hg. pose proof leave_unique as [_ [Hu _]]%NoDup_app. apply (Hu x Hx).
    apply elem_of_union in Hg as [->%elem_of_singleton|Hg]; [left|right; by apply (ti_gray _ _ I0)].
Qed.
Lemma leave_connected x : x ∈ new ++ [node] → reach node x ∧ reach x node.
Proof.
  intros Hx. assert (x ∈ scc_stack s) as Hs by (rewrite Hstack; set_solver).
  assert (idx s node <= idx s x) as Hle.
  { apply elem_of_app in Hx as [Hx| ->%list_elem_of_singleton]; [|done]. apply Nat.lt_le_incl.
    apply (sorted_above (fun x y => idx s y < idx s x) new node (scc_stack s0)); [|done]. rewrite <- Hstack. apply I. }
  split; [apply (ti_up _ _ I); [set_solver|done..]|]. destruct (ti_down _ _ I x Hs) as (g&Hg&_&Hr).
  etrans; [exact Hr|]. eapply loop_gray_reach; [exact I0|exact Hnode|exact L|exact Hg].
Qed.
Lemma leave_cross x y : x ∈ new ++ [node] → E x y → y ∈ scc_stack s0 → low s node <= idx s y.
Proof.
  intros [Hx| ->%list_elem_of_singleton]%elem_of_app He Hy.
  - apply (li_cross _ _ _ _ _ _ _ L x y); auto.
  - apply (li_cross _ _ _ _ _ _ _ L node y); [by right|done].
Qed.

(** The low-link equals the index: the stack down to the node is a strongly connected component. *)
Section closing.
Context (Hroot : low s node = idx s node).
Lemma closing_edges x y : x ∈ new ++ [node] → E x y → y ∈ new ++ [node] ∨ y ∈ closed_nodes s.
Proof.
  intros Hx He. apply leave_explored in He as Hv; [|done]. apply (ti_visited _ _ I) in Hv as [Hv|Hv]; [|by right].
  left. rewrite Hstack in Hv. apply elem_of_app in Hv as [?|[->|Hy]%elem_of_cons]; [set_solver..|].
  pose proof (leave_cross x y Hx He Hy). destruct (leave_old y Hy) as (_&_&?). lia.
Qed.
Lemma closing_reach x y : x ∈ new ++ [node] → reach x y → y ∈ new ++ [node] ∨ y ∈ closed_nodes s.
Proof.
  intros Hx Hr. assert (x ∈ new ++ [node] ∨ x ∈ closed_nodes s) as H by auto. clear Hx. revert H.
  induction Hr as [|x z y He Hr IH]; [done|]. intros [Hx|Hx]; apply IH; [by eapply closing_edges|].
  right. by eapply edges_go_back_closed; [apply I| |].
Qed.
Lemma closing_disjoint x : x ∈ new ++ [node] → x ∉ closed_nodes s.
Proof. intros Hx. apply (ti_disjoint _ _ I). rewrite Hstack. set_solver. Qed.
Lemma closing_scc : is_scc edges (merge_sort String.le (new ++ [node])).
Proof.
  pose proof (merge_sort_Permutation String.le (new ++ [node])) as Hp. split; [|split].
  - intros Hn. rewrite Hn in Hp. apply Permutation_nil_l in Hp. by destruct new.
  - apply StronglySorted_merge_sort; apply _.
  - intros x Hx y. rewrite Hp in Hx. rewrite Hp. destruct (leave_connected x Hx) as [Hx1 Hx2]. split.
    + intros Hy. destruct (leave_connected y Hy). split; by etrans.
    + intros [H1 H2]. destruct (closing_reach x y Hx H1) as [|Hc]; [done|]. exfalso. apply (closing_disjoint x Hx).
      eapply edges_go_back_reach; [apply I|exact H2|done].
Qed.
Lemma close_component_eq : close_component node s =
  s <| scc_stack := scc_stack s0 |> <| on_stack := on_stack s ∖ list_to_set (new ++ [node]) |>
    <| scc_components ::= fun cs => cs ++ [merge_sort String.le (new ++ [node])] |>.
Proof.
  unfold close_component. rewrite Hstack, pop_component_spec; [done|]. pose proof leave_unique as [_ [Hu _]]%NoDup_app.
  intros Hx. apply (Hu node Hx). left.
Qed.
Lemma closing_nodes x : x ∈ closed_nodes (close_component node s) ↔ x ∈ closed_nodes s ∨ x ∈ new ++ [node].
Proof.
  rewrite close_component_eq. unfold closed_nodes. simpl. rewrite join_app, elem_of_app. simpl. rewrite app_nil_r.
  by rewrite merge_sort_Permutation.
Qed.
Lemma closing_inv : tarjan_inv gray (close_component node s).
Proof.
  pose proof leave_unique as Hu.
  assert (Hs0 : ∀ x, x ∈ scc_stack s0 → x ∈ scc_stack s) by (rewrite Hstack; set_solver).
  assert (Hcl := closing_nodes). rewrite close_component_eq in *. split.
  - apply I.
  - apply I.
  - simpl. eapply sorted_suffix. rewrite (cons_middle node), (assoc_L (++)) in Hstack. simpl. rewrite <- Hstack. apply I.
  - intros x. rewrite Hcl. change (visited _ x) with (visited s x). rewrite (ti_visited _ _ I), Hstack. simpl. set_solver.
  - unfold closed_nodes. simpl. rewrite join_app. simpl. rewrite app_nil_r, merge_sort_Permutation.
    apply NoDup_app. split; [apply I|]. rewrite cons_middle, (assoc_L (++)) in Hu. apply NoDup_app in Hu as [Hu _].
    split; [|done]. intros x Hx Hx'. by apply (closing_disjoint x Hx').
  - simpl. intros x Hx. rewrite Hcl. intros [Hc|Hc]; [by apply (ti_disjoint _ _ I x); [apply Hs0|]|].
    rewrite cons_middle, (assoc_L (++)) in Hu. apply NoDup_app in Hu as (_&Hu&_). by apply (Hu x Hc).
  - intros x. simpl. rewrite elem_of_difference, (ti_on_stack _ _ I), elem_of_list_to_set, Hstack.
    rewrite cons_middle, (assoc_L (++)) in Hu. apply NoDup_app in Hu as (_&Hu&_).
    rewrite cons_middle, (assoc_L (++)), elem_of_app. naive_solver.
  - apply I0.
  - intros x y Hv Hg He. change (visited s y). destruct (decide (x = node)) as [->|Hne].
    + eapply leave_explored; [|done]. set_solver.
    + eapply (ti_explored _ _ I); [exact Hv|set_solver|done].
  - simpl. intros x Hx. destruct (ti_down _ _ I0 x Hx) as (g&Hg&Hle&Hr). exists g. split; [done|]. split; [|done].
    change (idx s g <= idx s x). destruct (leave_old x Hx) as (_&->&_), (leave_old g (ti_gray _ _ I0 g Hg)) as (_&->&_). done.
  - simpl. intros g x Hg Hx Hle. change (idx s g <= idx s x) in Hle.
    destruct (leave_old x Hx) as (_&E1&_), (leave_old g (ti_gray _ _ I0 g Hg)) as (_&E2&_). rewrite E1, E2 in Hle.
    by apply (ti_up _ _ I0).
  - simpl. intros c [Hc| ->%list_elem_of_singleton]%elem_of_app; [by apply (ti_sccs _ _ I)|apply closing_scc].
  - simpl. apply edges_go_back_snoc; [apply I|]. intros x y. rewrite merge_sort_Permutation. apply closing_edges.
Qed.
Lemma closing_connected : connected gray node s0 (close_component node s) [].
Proof.
  pose proof closing_inv as HI. rewrite close_component_eq in *. pose proof (li_grows _ _ _ _ _ _ _ L) as G. split.
  - done.
  - destruct G as [G1 G2 G3 [cs G4] G5]. split; try done. simpl. rewrite G4. eexists. by rewrite <- (assoc_L (++)).
  - change (visited s node). eapply loop_node_visited; [exact I0|exact Hnode|exact L].
  - done.
  - by intros x y ?%elem_of_nil.
  - left. done.
Qed.
End closing.

(** The low-link is smaller: the node stays on the stack. *)
Lemma staying_connected : low s node ≠ idx s node → connected gray node s0 s (new ++ [node]).
Proof.
  intros Hne. pose proof (li_low_le _ _ _ _ _ _ _ L) as Hle. destruct (li_low _ _ _ _ _ _ _ L) as (y&Hy&Hyl&Hyr).
  split; [|apply L| | | |].
  - split; try apply I.
    + intros g Hg. rewrite Hstack. apply elem_of_app. right. right. by apply (ti_gray _ _ I0).
    + intros x z Hv Hg He. destruct (decide (x = node)) as [->|Hxn].
      * eapply leave_explored; [|done]. set_solver.
      * eapply (ti_explored _ _ I); [exact Hv|set_solver|done].
    + intros x Hx. destruct (ti_down _ _ I x Hx) as (g&[->%elem_of_singleton|Hg]%elem_of_union&Hgx&Hr); [|eauto].
      destruct (ti_down _ _ I y Hy) as (g&[->%elem_of_singleton|Hg]%elem_of_union&Hgy&Hr'); [lia|].
      exists g. split; [done|]. split; [lia|]. etrans; [exact Hr|]. by etrans.
    + intros g x Hg. apply (ti_up _ _ I). set_solver.
  - eapply loop_node_visited; [exact I0|exact Hnode|exact L].
  - rewrite Hstack. by rewrite <- (assoc_L (++)).
  - apply leave_cross.
  - right. eauto.
Qed.
End leaving.

(** ** The recursion *)
Lemma visit_edges_spec connect budget gray node s0 targets seen s new :
  connects connect budget → tarjan_inv gray s0 → ¬ visited s0 node →
  loop_inv budget gray node s0 seen s new → (∀ y, y ∈ targets → E node y) →
  ∃ s' new', visit_edges connect node targets s = Some s' ∧ loop_inv budget gray node s0 (seen ++ targets) s' new'.
Proof.
  intros Hconn I0 Hv. revert seen s new. induction targets as [|next targets IH]; intros seen s new L He; simpl.
  - exists s, new. by rewrite app_nil_r.
  - assert (E node next) as Hn by (apply He; left). rewrite (cons_middle next), (assoc_L (++)).
    assert (∀ y, y ∈ targets → E node y) as He' by (intros; apply He; by right).
    destruct (index_of s !! next) as [i|] eqn:Ei.
    + pose proof (loop_visited budget gray node s0 I0 Hv seen s new next L Hn (mk_is_Some _ _ Ei)) as L'.
      change (map_at 0 (index_of s) next) with (idx s next).
      destruct (decide (next ∈ on_stack s)); by eapply IH.
    + destruct (Hconn ({[node]} ∪ gray) next s) as (s'&newc&->&C); [apply L| | | |apply L|].
      * by eapply universe_closed.
      * by apply eq_None_not_Some.
      * intros g Hg. eapply rtc_r; [|exact Hn]. by apply (loop_gray_reach budget gray node s0 I0 Hv seen s new).
      * eapply IH; [|done]. eapply loop_call; [exact I0|exact Hv|exact L|exact Hn|by apply eq_None_not_Some|exact C].
Qed.
Lemma strong_connect_spec fuel : connects (strong_connect edges fuel) fuel.
Proof.
  induction fuel as [|fuel IH]; intros gray node s I Hu Hv Hg Hf; [lia|]. simpl.
  pose proof (unvisited_push s node Hu Hv) as Hun.
  assert (loop_inv fuel gray node s [] (push_node node s) []) as L.
  { split.
    - by apply push_inv.
    - by apply push_grows.
    - lia.
    - done.
    - apply idx_push.
    - unfold low, idx, map_at. simpl. by rewrite !lookup_insert_eq.
    - exists node. split; [left|]. split; [|apply rtc_refl]. unfold low, idx, map_at. simpl. by rewrite !lookup_insert_eq.
    - intros x y [[?%elem_of_nil _]|?%elem_of_nil]; done.
    - by intros y ?%elem_of_nil. }
  destruct (visit_edges_spec _ fuel gray node s (map_at [] edges node) [] _ [] IH I Hv L) as (s'&new&->&L'); [done|].
  simpl. change (map_at 0 (lowlink s') node) with (low s' node). change (map_at 0 (index_of s') node) with (idx s' node).
  destruct (Nat.eqb_spec (low s' node) (idx s' node)) as [Heq|Hne].
  - eexists _, []. split; [done|]. eapply closing_connected; [exact I|exact Hv|exact L'|exact Heq].
  - eexists _, _. split; [done|]. eapply staying_connected; [exact I|exact Hv|exact L'|exact Hne].
Qed.
Lemma connect_nodes_spec fuel nodes s : tarjan_inv ∅ s → (∀ x, x ∈ nodes → x ∈ universe) → size universe < fuel →
  ∃ s', connect_nodes edges fuel nodes s = Some s' ∧ tarjan_inv ∅ s' ∧ (∀ x, visited s x ∨ x ∈ nodes → visited s' x).
Proof.
  intros I Hu Hf. revert s I. induction nodes as [|node nodes IH]; intros s I; simpl.
  - exists s. split; [done|]. split; [done|]. by intros x [?|?%elem_of_nil].
  - assert (∀ x, x ∈ nodes → x ∈ universe) as Hu' by (intros; apply Hu; by right).
    destruct (index_of s !! node) as [i|] eqn:Ei.
    + destruct (IH Hu' s I) as (s'&->&I'&Hx). exists s'. split; [done|]. split; [done|].
      intros x [?|[->|?]%elem_of_cons]; apply Hx; [by left|left; by eexists|by right].
    + destruct (strong_connect_spec fuel ∅ node s I) as (s1&new&->&C); [apply Hu; left|by apply eq_None_not_Some|set_solver| |].
      { eapply Nat.le_lt_trans; [|exact Hf]. unfold unvisited. apply subseteq_size. set_solver. }
      simpl. destruct (IH Hu' s1 (cn_inv _ _ _ _ _ C)) as (s'&->&I'&Hx). exists s'. split; [done|]. split; [done|].
      pose proof (cn_grows _ _ _ _ _ C) as G.
      intros x [?|[->|?]%elem_of_cons]; apply Hx; [left; by eapply visited_grows|left; exact (cn_visited _ _ _ _ _ C)|by right].
Qed.
End tarjan.

Lemma tarjan_inv_empty edges universe : tarjan_inv edges universe ∅ (mkTarjan [] ∅ ∅ ∅ [] 0).
Proof.
  split; simpl; try (by intros ? ?%elem_of_nil); try (intros x H; set_solver).
  - intros x [i Hi]. simpl in Hi. by rewrite lookup_empty in Hi.
  - intros x [i Hi]. simpl in Hi. by rewrite lookup_empty in Hi.
  - constructor.
  - intros x. unfold visited, closed_nodes. simpl. rewrite lookup_empty, !elem_of_nil. split; [by intros []|naive_solver].
  - constructor.
  - intros x. by rewrite elem_of_nil, elem_of_empty.
  - intros c1 c c2 x y Heq. by destruct c1.
Qed.
Lemma size_list_to_set_le (l : list string) : size (list_to_set l : gset string) <= length l.
Proof.
  induction l as [|x l IH]; [by rewrite list_to_set_nil, size_empty|].
  rewrite list_to_set_cons, size_union_alt, size_singleton. apply le_n_S.
  etrans; [|exact IH]. apply subseteq_size. set_solver.
Qed.
Lemma edge_targets_bound edges x y : edge_in edges x y → y ∈ mjoin (map_to_list edges).*2.
Proof.
  unfold edge_in, map_at. destruct (edges !! x) as [l|] eqn:E; simpl; [|by intros ?%elem_of_nil]. intros Hy.
  apply list_elem_of_join. exists l. split; [done|]. apply list_elem_of_fmap. exists (x, l).
  split; [done|]. by apply elem_of_map_to_list.
Qed.

Lemma tarjan_condenses nodes edges : ∃ cs, tarjan_scc nodes edges = Some cs ∧
  (∀ c, c ∈ cs → is_scc edges c) ∧ NoDup (mjoin cs) ∧ (∀ x, x ∈ nodes → x ∈ mjoin cs) ∧ edges_go_back edges cs ∧
  (∀ x, x ∈ mjoin cs → x ∈ nodes ∨ x ∈ mjoin (map_to_list edges).*2).
Proof.
  set (targets := mjoin (map_to_list edges).*2). unfold tarjan_scc. fold targets.
  destruct (connect_nodes_spec edges (list_to_set (nodes ++ targets))) with (fuel := S (length nodes + length targets))
    (nodes := nodes) (s := mkTarjan [] ∅ ∅ ∅ [] 0) as (s&->&I&Hv).
  - intros x y H%edge_targets_bound. apply elem_of_list_to_set, elem_of_app. by right.
  - apply tarjan_inv_empty.
  - intros x Hx. apply elem_of_list_to_set, elem_of_app. by left.
  - rewrite <- length_app. apply Nat.lt_succ_r, size_list_to_set_le.
  - exists (scc_components s). split; [done|]. split; [apply I|]. split; [apply I|]. split; [|split; [apply I|]].
    + intros x Hx. assert (visited s x) as H by auto. apply (ti_visited _ _ _ _ I) in H as [H|H]; [|done].
      destruct (ti_down _ _ _ _ I x H) as (g&Hg&_). set_solver.
    + intros x Hx. assert (visited s x) as H%(ti_universe _ _ _ _ I) by (apply (ti_visited _ _ _ _ I); by right).
      apply elem_of_list_to_set, elem_of_app in H. done.
Qed.

(** C35. Tarjan's algorithm, as it is written, returns for every graph: its result is a list of sorted strongly connected
    components that contain every given node and no node twice, and edges lead from a component into itself or into
    an earlier one.  It holds no other nodes than the given ones and the targets of edges. *)
Theorem tarjan_scc_correct nodes edges : ∃ cs, tarjan_scc nodes edges = Some cs ∧
  (∀ c, c ∈ cs → is_scc edges c) ∧ NoDup (mjoin cs) ∧ (∀ x, x ∈ nodes → x ∈ mjoin cs) ∧ edges_go_back edges cs ∧
  (∀ x, x ∈ mjoin cs → x ∈ nodes ∨ x ∈ mjoin (map_to_list edges).*2).
Proof. apply tarjan_condenses. Qed.
