(* ===== verification/Diagnostics.v ===== *)
(** * Diagnostics: the diagnostic registry and the classification of validation errors

    Models [src/diagnostics.cpp] and [diagnostic_code_for], [suggested_fix_for], [make_diagnostic] of
    [src/graph.cpp]: an error text is classified by the phrases it contains, and the registry gives the suggested fix
    and the category of its code. *)

From S2P Require Export GraphSpec.
From Stdlib Require Import Ascii.
Local Open Scope nat_scope.
Local Open Scope string_scope.

(** ** The registry (diagnostics.cpp) *)
Record GraphDiagnosticDescriptor := mkDescriptor {
  desc_code : string; desc_severity : string; desc_category : string; desc_summary : string; desc_suggested_fix : string }.
Definition graph_diagnostic_registry : list GraphDiagnosticDescriptor :=
  [mkDescriptor "unknown_component" "error" "graph_structure"
     "An edge, dependency, or loop references a component id that is not declared."
     "Check component ids referenced by edges, depends_on, and CompositeLoop declarations.";
   mkDescriptor "unknown_port" "error" "graph_structure"
     "An edge endpoint references a port that the component descriptor does not expose."
     "Check component descriptors and endpoint port names.";
   mkDescriptor "payload_type_mismatch" "error" "payload"
     "An edge connects descriptor ports with incompatible payload contracts."
     ("Align the source output and target input schema or payload_type, or insert an explicit " +:+
      "transform.");
   mkDescriptor "missing_required_input" "error" "graph_structure"
     "A descriptor-declared required input has no incoming edge."
     "Connect the required input or mark the port optional in the component descriptor.";
   mkDescriptor "optional_input_unconnected" "advisory" "graph_structure"
     "A descriptor-declared optional input has no incoming edge."
     "Ignore this if the component can run without the port, or connect it to silence the advisory.";
   mkDescriptor "boundary_role_mismatch" "error" "graph_structure"
     "A graph boundary role is incompatible with the component descriptor role."
     "Align the graph boundary role with the descriptor's input/output boundary capability.";
   mkDescriptor "port_multiplicity_mismatch" "error" "graph_structure"
     "A single-input port has multiple incoming edges."
     "Use one incoming edge or mark the descriptor input as multiple.";
   mkDescriptor "duplicate_id" "error" "graph_structure"
     "A graph section contains duplicate ids."
     "Use unique ids inside each graph section.";
   mkDescriptor "immediate_cycle_without_loop" "error" "graph_structure"
     "Immediate edges form a cycle without an owning CompositeLoop."
     "Break the cycle with delay/state/async or declare an exact CompositeLoop.";
   mkDescriptor "partial_composite_loop" "error" "graph_structure"
     "A CompositeLoop declaration only partially matches an immediate SCC."
     "Make the CompositeLoop component set exactly match one immediate SCC.";
   mkDescriptor "decorative_composite_loop" "error" "graph_structure"
     "A CompositeLoop declaration does not own an immediate cycle."
     "Remove the CompositeLoop or add the immediate feedback edges it owns.";
   mkDescriptor "multi_state_writer" "error" "channel"
     "Multiple state edges write the same target snapshot."
     "Keep one writer per state target until an explicit merge policy exists.";
   mkDescriptor "invalid_move_only_multireader" "error" "payload"
     "A move_only payload policy was combined with multi-reader delivery."
     "Use readers: single for move_only or switch to shared_view/copy.";
   mkDescriptor "invalid_channel_policy" "error" "channel"
     "A channel policy field is unsupported or internally inconsistent."
     "Use a supported bounded channel mode, capacity, overflow, timestamp, owner, and copy policy.";
   mkDescriptor "unsupported_lane_type" "error" "scheduler"
     "A scheduler lane type is not implemented by the core runtime."
     "Use event_loop, fixed_rate, or thread_pool.";
   mkDescriptor "trigger_missing_input" "error" "trigger"
     "A trigger/event-source input is missing or has no incoming edge."
     "Add trigger inputs and matching incoming edges.";
   mkDescriptor "incompatible_trigger_edge_mode" "error" "trigger"
     "Trigger policy and event-source declarations are incompatible with the incoming edge shape."
     "Align event_sources, trigger_policy, and incoming edge modes.";
   mkDescriptor "unsupported_error_policy" "error" "scheduler"
     "A non-fail-fast execution error policy was requested."
     "Use fail_fast until continue/isolate policies are implemented.";
   mkDescriptor "advisory_lane_field_ignored" "advisory" "scheduler"
     ("A scheduler lane field is parsed and preserved but not enforced, or only applied best-effort, " +:+
      "by the current runtime.")
     "Treat the field as documentation only until the matching scheduler capability is implemented.";
   mkDescriptor "advisory_execution_field_ignored" "advisory" "scheduler"
     "A component execution field is parsed and preserved but not enforced by the current runtime."
     "Treat the field as documentation only until the matching execution capability is implemented.";
   mkDescriptor "backpressure_risk" "warning" "channel"
     "A channel policy can stall or drop under slow-consumer pressure."
     ("Prefer latest/overwrite for freshness, reduce capacity, or make the edge asynchronous when " +:+
      "blocking is unsafe.");
   mkDescriptor "large_payload_copy" "warning" "payload"
     "A large payload edge uses copy semantics."
     "Use shared_view or loaned_view for large frame/blob payloads unless the copy is intentional.";
   mkDescriptor "high_queue_depth_latency_risk" "warning" "channel"
     "A deep queue can hide latency and grow tail delays."
     ("Reduce capacity, use latest/overwrite for freshness, or document why the backlog is bounded " +:+
      "and acceptable.");
   mkDescriptor "trigger_never_ready" "warning" "trigger"
     "A trigger configuration is accepted but unlikely to become ready at runtime."
     ("Align event_sources with trigger_policy inputs or switch to a manual/timer trigger when no " +:+
      "message edge drives it.");
   mkDescriptor "subgraph_hidden_cycle" "warning" "graph_structure"
     "A future nested/runtime subgraph boundary could hide an immediate cycle from local reasoning."
     ("Keep phase-1 subgraphs as compile-time expansion, expose the cycle at the parent graph " +:+
      "boundary, or declare the exact CompositeLoop owner.");
   mkDescriptor "diagnostic_note" "info" "graph_structure"
     "Informational diagnostic note."
     "No action required unless a stricter workflow promotes informational diagnostics.";
   mkDescriptor "graph_validation_error" "error" "graph_structure"
     "Generic graph validation failure."
     "Inspect the graph path and schema reference for the invalid contract."].
Definition graph_diagnostic_descriptor (code : string) : option GraphDiagnosticDescriptor :=
  List.find (fun d => str_eqb (desc_code d) code) graph_diagnostic_registry.
Definition graph_diagnostic_category (code : string) : string :=
  match graph_diagnostic_descriptor code with Some d => desc_category d | None => "graph_structure" end.

(** ** Classifying an error (graph.cpp) *)
Record GraphDiagnostic := mkDiagnostic {
  diag_code : string; diag_severity : string; diag_message : string; diag_graph_path : string;
  diag_involved_components : list string; diag_involved_edges : list string; diag_suggested_fix : string;
  diag_category : string }.

(** [error.find(phrase) != npos]. *)
Definition contains (error phrase : string) : bool :=
  match String.index 0 phrase error with Some _ => true | None => false end.
Definition diagnostic_code_for (error : string) : string :=
  if contains error "unknown component" || contains error "unknown target component" ||
     contains error "unknown source component" || contains error "references missing component" then "unknown_component" else
  if contains error "unknown output port" || contains error "unknown input port" then "unknown_port" else
  if contains error "payload type mismatch" then "payload_type_mismatch" else
  if contains error "missing required input" then "missing_required_input" else
  if contains error "boundary role mismatch" then "boundary_role_mismatch" else
  if contains error "multiplicity" then "port_multiplicity_mismatch" else
  if contains error "duplicate component" || contains error "duplicate edge" || contains error "duplicate lane" ||
     contains error "duplicate composite_loop" then "duplicate_id" else
  if contains error "immediate cycle" then "immediate_cycle_without_loop" else
  if contains error "does not exactly match" || contains error "must match an immediate SCC" then "partial_composite_loop" else
  if contains error "does not own a cycle" then "decorative_composite_loop" else
  if contains error "multiple writers" then "multi_state_writer" else
  if contains error "move_only" then "invalid_move_only_multireader" else
  if contains error "policy." || contains error "capacity" || contains error "overflow" then "invalid_channel_policy" else
  if contains error "unsupported type" && contains error "lane " then "unsupported_lane_type" else
  if contains error "trigger_policy" && contains error "input" then "trigger_missing_input" else
  if contains error "trigger_policy" || contains error "event_source" then "incompatible_trigger_edge_mode" else
  if contains error "execution.on_error" then "unsupported_error_policy" else "graph_validation_error".
Definition suggested_fix_for (code : string) : string :=
  match graph_diagnostic_descriptor code with
  | Some d => desc_suggested_fix d
  | None => "Inspect the graph path and schema reference for the invalid contract."
  end.

(** The text up to the first space. *)
Fixpoint until_space (s : string) : string :=
  match s with
  | EmptyString => EmptyString
  | String c r => if decide (c = " "%char) then EmptyString else String c (until_space r)
  end.
Definition token_after (message prefix : string) : string :=
  if String.prefix prefix message
  then until_space (String.substring (String.length prefix) (String.length message - String.length prefix) message)
  else "".
Definition make_diagnostic (error : string) : GraphDiagnostic :=
  let code := diagnostic_code_for error in
  let component := token_after error "component " in
  let edge := token_after error "edge " in
  let lane := token_after error "lane " in
  let loop := token_after error "composite_loop " in
  let with_path path components edges :=
    mkDiagnostic code "error" error path components edges (suggested_fix_for code) (graph_diagnostic_category code) in
  if negb (str_empty component) then with_path ("components." +:+ component) [component] [] else
  if negb (str_empty edge) then with_path ("edges." +:+ edge) [] [edge] else
  if negb (str_empty lane) then with_path ("lanes." +:+ lane) [] [] else
  if negb (str_empty loop) then with_path ("composite_loops." +:+ loop) [] [] else
  if String.prefix "graph.clock" error then with_path "graph.clock" [] [] else
  if String.prefix "runnable graph" error then with_path "graph" [] [] else with_path "" [] [].

(** ** Facts *)

(** The registry has no code twice. *)
Lemma registry_codes_unique : NoDup (desc_code <$> graph_diagnostic_registry).
Proof. apply (bool_decide_unpack _). vm_compute. exact I. Qed.

(** Whatever the text of an error, it is classified under a registered code of severity error, so that its diagnostic
    carries the fix and the category that the registry documents. *)
Theorem error_diagnostics_registered error : ∃ d,
  d ∈ graph_diagnostic_registry ∧ desc_code d = diag_code (make_diagnostic error) ∧ desc_severity d = "error" ∧
  diag_severity (make_diagnostic error) = "error" ∧ diag_message (make_diagnostic error) = error ∧
  diag_suggested_fix (make_diagnostic error) = desc_suggested_fix d ∧
  diag_category (make_diagnostic error) = desc_category d.
Proof.
  set (code := diagnostic_code_for error).
  assert (∃ d, graph_diagnostic_descriptor code = Some d ∧ desc_severity d = "error") as (d&Hd&Hs).
  { subst code. unfold diagnostic_code_for. repeat (match goal with |- context [if ?b then _ else _] => destruct b end;
      [eexists; split; [vm_compute; reflexivity|reflexivity]|]).
    eexists; split; [vm_compute; reflexivity|reflexivity]. }
  exists d. pose proof (List.find_some _ _ Hd) as [Hin Hc%str_eqb_eq].
  split; [by apply list_elem_of_In|]. unfold make_diagnostic. fold code. unfold suggested_fix_for, graph_diagnostic_category.
  rewrite Hd. repeat (match goal with |- context [if ?b then _ else _] => destruct b end; [by rewrite Hc|]). by rewrite Hc.
Qed.
