(* ===== verification/PlanText.v ===== *)
(** * PlanText: the textual renderings of a compiled graph

    Models [graph_plan_text], [mermaid_label], [mermaid_node_id], [build_mermaid_node_ids] and [graph_mermaid] of
    [src/graph.cpp].  Output streams are string concatenation.  The search for a free node id has fuel: one more than
    the number of names in use, which is enough by counting ([unique_name_returns]). *)

From S2P Require Export GraphSpec.
From Stdlib Require Import Ascii.
Local Open Scope nat_scope.
Local Open Scope string_scope.

Definition nl : string := String "010" EmptyString.
Definition quote : string := String "034" EmptyString.

Fixpoint join_ids (ids : list string) : string :=
  match ids with
  | [] => ""
  | [id] => id
  | id :: rest => id +:+ "," +:+ join_ids rest
  end.
(** The stream output of a loop. *)
Fixpoint out_each {A} (f : A -> string) (l : list A) : string :=
  match l with [] => "" | x :: r => f x +:+ out_each f r end.

(** ** The plan as text *)
Definition is_multi_reader_value (readers : string) : bool := str_eqb readers "multi" || str_eqb readers "multiple".
Definition slow_reader_drop_risk (policy : EdgePolicySpec) : bool :=
  is_multi_reader_value (policy_readers policy) &&
  (str_eqb (policy_overflow policy) "drop_oldest" || str_eqb (policy_overflow policy) "overwrite").

Definition hierarchy_text (h : GraphHierarchyEntry) : string :=
  "- subgraph " +:+ hier_id h +:+ " components=" +:+ join_ids (hier_components h) +:+
  " edges=" +:+ join_ids (hier_edges h) +:+
  (if decide (hier_composite_loops h = []) then "" else " composite_loops=" +:+ join_ids (hier_composite_loops h)) +:+ nl.
Definition region_text (r : CompiledGraphRegion) : string :=
  "- region " +:+ region_id r +:+ " kind=" +:+ region_kind_name (region_kind r) +:+
  " components=" +:+ join_ids (region_components r) +:+
  match region_kind r with
  | kCompositeLoop => " loop_policy=" +:+ loop_type (region_loop_policy r)
  | kComponent => ""
  end +:+ nl.
Definition edge_policy_text (e : EdgeSpec) : string :=
  "- edge " +:+ edge_id e +:+ " readers=" +:+ policy_readers (edge_policy e) +:+
  " copy_policy=" +:+ policy_copy_policy (edge_policy e) +:+
  " capacity=" +:+ to_string_Z (policy_capacity (edge_policy e)) +:+
  " overflow=" +:+ policy_overflow (edge_policy e) +:+
  " slow_reader_drop_risk=" +:+ (if slow_reader_drop_risk (edge_policy e) then "true" else "false") +:+ nl.
Definition graph_plan_text (graph : GraphSpec) (plan : GraphCompiledPlan) : string :=
  "graph: " +:+ graph_name graph +:+ nl +:+
  "schema_version: " +:+ to_string_Z (graph_schema_version graph) +:+ nl +:+
  "components: " +:+ to_string_nat (length (graph_components graph)) +:+ nl +:+
  "edges: " +:+ to_string_nat (length (graph_edges graph)) +:+ nl +:+
  "composite_loops: " +:+ to_string_nat (length (graph_composite_loops graph)) +:+ nl +:+
  "subgraphs: " +:+ to_string_nat (length (graph_hierarchy graph)) +:+ nl +:+
  out_each hierarchy_text (graph_hierarchy graph) +:+
  "region_order:" +:+ out_each (fun region => " " +:+ region) (region_order plan) +:+ nl +:+
  out_each region_text (plan_regions plan) +:+
  "edge_policies:" +:+ nl +:+ out_each edge_policy_text (graph_edges graph).

(** ** Mermaid labels and node ids *)
Definition mermaid_label_char (c : ascii) : string :=
  if decide (c = "034"%char) then "&quot;" else
  if decide (c = "\"%char) then "&#92;" else
  if decide (c = "["%char) then "&#91;" else
  if decide (c = "]"%char) then "&#93;" else
  if decide (c = "010"%char ∨ c = "013"%char) then " " else String c EmptyString.
Fixpoint mermaid_label (text : string) : string :=
  match text with EmptyString => EmptyString | String c rest => mermaid_label_char c +:+ mermaid_label rest end.

Definition in_range (lo hi c : ascii) : bool :=
  Nat.leb (nat_of_ascii lo) (nat_of_ascii c) && Nat.leb (nat_of_ascii c) (nat_of_ascii hi).
Definition mermaid_safe (c : ascii) : bool :=
  in_range "A"%char "Z"%char c || in_range "a"%char "z"%char c || in_range "0"%char "9"%char c ||
  bool_decide (c = "_"%char) || bool_decide (c = "."%char) || bool_decide (c = "-"%char).
Fixpoint mermaid_node_id (id : string) : string :=
  match id with
  | EmptyString => EmptyString
  | String c rest => String (if mermaid_safe c then c else "_"%char) (mermaid_node_id rest)
  end.

(** Every id that can appear as a node or an edge end. *)
Definition mermaid_originals (graph : GraphSpec) : gset string :=
  list_to_set (comp_id <$> graph_components graph) ∪
  list_to_set (graph_hierarchy graph ≫= fun h => hier_id h :: hier_components h) ∪
  list_to_set (graph_composite_loops graph ≫= fun l => loop_id l :: loop_components l) ∪
  list_to_set (graph_edges graph ≫= fun e =>
    [component_id_from_endpoint (edge_from e); component_id_from_endpoint (edge_to e)]).

Fixpoint unique_name (fuel : nat) (used : gset string) (base candidate : string) (suffix : nat) : option string :=
  if decide (candidate ∈ used) then
    match fuel with
    | 0 => None
    | S fuel' => unique_name fuel' used base (base +:+ "_" +:+ to_string_nat suffix) (S suffix)
    end
  else Some candidate.

Record MermaidNames := mkNames { name_mapping : gmap string string; name_used : gset string }.
#[export] Instance eta_MermaidNames : Eta MermaidNames := fun s => mkNames (name_mapping s) (name_used s).
Definition claim_name (id name : string) (s : MermaidNames) : MermaidNames :=
  s <| name_mapping ::= <[id := name]> |> <| name_used ::= fun u => {[name]} ∪ u |>.
Fixpoint claim_safe_names (ids : list string) (s : MermaidNames) : MermaidNames :=
  match ids with
  | [] => s
  | id :: rest => claim_safe_names rest (if str_eqb (mermaid_node_id id) id then claim_name id id s else s)
  end.
Fixpoint claim_unique_names (ids : list string) (s : MermaidNames) : option MermaidNames :=
  match ids with
  | [] => Some s
  | id :: rest =>
      match name_mapping s !! id with
      | Some _ => claim_unique_names rest s
      | None =>
          let base := mermaid_node_id id in
          candidate ← unique_name (size (name_used s)) (name_used s) base base 2;
          claim_unique_names rest (claim_name id candidate s)
      end
  end.
Definition build_mermaid_node_ids (graph : GraphSpec) : option (gmap string string) :=
  let originals := set_items (mermaid_originals graph) in
  s ← claim_unique_names originals (claim_safe_names originals (mkNames ∅ ∅));
  Some (name_mapping s).

(** ** The diagram *)
Section diagram.
Context (node_ids : gmap string string).
Definition node_id (id : string) : string := default (mermaid_node_id id) (node_ids !! id).
Definition component_node (indent : string) (c : ComponentNodeSpec) : string :=
  indent +:+ node_id (comp_id c) +:+ "[" +:+ quote +:+ mermaid_label (comp_id c) +:+ "\n" +:+
  mermaid_label (comp_type c) +:+ quote +:+ "]" +:+ nl.
Definition hierarchy_diagram (graph : GraphSpec) (h : GraphHierarchyEntry) : string :=
  "  subgraph " +:+ node_id (hier_id h) +:+ "[Subgraph: " +:+ mermaid_label (hier_id h) +:+ "]" +:+ nl +:+
  out_each (fun id =>
    match List.find (fun c => str_eqb (comp_id c) id) (graph_components graph) with
    | Some c => component_node "    " c
    | None => "    " +:+ node_id id +:+ nl
    end) (hier_components h) +:+ "  end" +:+ nl.
Definition loop_diagram (l : CompositeLoopSpec) : string :=
  "  subgraph " +:+ node_id (loop_id l) +:+ "[CompositeLoop: " +:+ mermaid_label (loop_type (loop_policy l)) +:+ "]" +:+ nl +:+
  out_each (fun id => "    " +:+ node_id id +:+ nl) (loop_components l) +:+ "  end" +:+ nl.
Definition edge_diagram (e : EdgeSpec) : string :=
  "  " +:+ node_id (component_id_from_endpoint (edge_from e)) +:+ " -->|" +:+ quote +:+ mermaid_label (edge_id e) +:+
  ":" +:+ edge_kind_name (edge_kind e) +:+ "/" +:+ mermaid_label (policy_mode (edge_policy e)) +:+ quote +:+ "| " +:+
  node_id (component_id_from_endpoint (edge_to e)) +:+ nl.
Definition diagram_body (graph : GraphSpec) : string :=
  "flowchart TD" +:+ nl +:+ "  %% graph: " +:+ mermaid_label (graph_name graph) +:+ nl +:+
  out_each (hierarchy_diagram graph) (graph_hierarchy graph) +:+
  out_each (component_node "  ")
    (filter (fun c => comp_id c ∉ (graph_hierarchy graph ≫= hier_components)) (graph_components graph)) +:+
  out_each loop_diagram (graph_composite_loops graph) +:+
  out_each edge_diagram (graph_edges graph).
End diagram.
Definition graph_mermaid (graph : GraphSpec) (plan : GraphCompiledPlan) : option string :=
  node_ids ← build_mermaid_node_ids graph;
  Some (diagram_body node_ids graph +:+ "  %% region_order: " +:+ join_ids (region_order plan) +:+ nl).

(** ** Characters of a text *)
Fixpoint every_char (p : ascii -> bool) (s : string) : bool :=
  match s with EmptyString => true | String c r => p c && every_char p r end.
Fixpoint newlines (s : string) : nat :=
  match s with EmptyString => 0 | String c r => (if decide (c = "010"%char) then 1 else 0) + newlines r end.
(** A character that cannot end a quoted Mermaid label or start another statement. *)
Definition label_safe (c : ascii) : bool :=
  negb (bool_decide (c ∈ ["034"%char; "\"%char; "["%char; "]"%char; "010"%char; "013"%char])).

Lemma every_char_app p a b : every_char p (a +:+ b) = every_char p a && every_char p b.
Proof. induction a as [|c a IH]; [done|]. rewrite str_app_cons. simpl. by rewrite IH, andb_assoc. Qed.
Lemma newlines_app a b : newlines (a +:+ b) = newlines a + newlines b.
Proof. induction a as [|c a IH]; [done|]. rewrite str_app_cons. simpl. rewrite IH. lia. Qed.
Lemma every_char_newlines p s : p "010"%char = false → every_char p s = true → newlines s = 0.
Proof.
  intros Hp. induction s as [|c s IH]; [done|]. simpl. intros [Hc Hs]%andb_true_iff. rewrite (IH Hs).
  destruct (decide (c = "010"%char)) as [->|]; [congruence|done].
Qed.
Lemma mermaid_label_safe text : every_char label_safe (mermaid_label text) = true.
Proof.
  induction text as [|c text IH]; [done|]. simpl. rewrite every_char_app, IH, andb_true_r. unfold mermaid_label_char.
  repeat (destruct (decide _) as [|]; [reflexivity|]).
  simpl. rewrite andb_true_r. unfold label_safe. rewrite bool_decide_eq_false_2; [done|].
  rewrite !elem_of_cons, elem_of_nil. naive_solver.
Qed.
Lemma mermaid_node_id_safe id : every_char mermaid_safe (mermaid_node_id id) = true.
Proof. induction id as [|c id IH]; [done|]. simpl. rewrite IH, andb_true_r. by destruct (mermaid_safe c) eqn:E. Qed.
Lemma mermaid_node_id_of_safe id : every_char mermaid_safe id = true ↔ mermaid_node_id id = id.
Proof.
  split; [|intros <-; apply mermaid_node_id_safe]. induction id as [|c id IH]; [done|]. simpl.
  intros [-> H]%andb_true_iff. by rewrite IH.
Qed.
Lemma pretty_N_safe n s : every_char mermaid_safe s = true → every_char mermaid_safe (pretty_N_go n s) = true.
Proof.
  revert s. induction (N.lt_wf_0 n) as [n _ IH]. intros s Hs. destruct (decide (n = 0%N)) as [->|Hn].
  - by rewrite pretty_N_go_0.
  - rewrite pretty_N_go_step by lia. apply IH; [by apply N.div_lt; lia|]. simpl. rewrite Hs, andb_true_r.
    assert (n `mod` 10 < 10)%N as Hm by (apply N.mod_lt; lia). revert Hm. generalize (n `mod` 10)%N. intros m Hm.
    assert (m ∈ [0; 1; 2; 3; 4; 5; 6; 7; 8; 9]%N) as Hin.
    { rewrite !elem_of_cons. lia. }
    repeat (apply elem_of_cons in Hin as [->|Hin]; [reflexivity|]). by apply elem_of_nil in Hin.
Qed.
Lemma to_string_nat_safe n : every_char mermaid_safe (to_string_nat n) = true.
Proof.
  unfold to_string_nat, pretty, pretty_nat, pretty, pretty_N. destruct (decide _); [done|]. by apply pretty_N_safe.
Qed.

(** ** Fresh names *)
Lemma str_app_inj_l (a b c : string) : a +:+ b = a +:+ c → b = c.
Proof. induction a as [|x a IH]; [done|]. rewrite !str_app_cons. intros [=]. auto. Qed.
Lemma suffixed_inj base m n :
  base +:+ "_" +:+ to_string_nat m = base +:+ "_" +:+ to_string_nat n → m = n.
Proof. intros H%str_app_inj_l%(str_app_inj_l "_"). by apply pretty_nat_inj in H. Qed.
Lemma suffixed_neq base n : base ≠ base +:+ "_" +:+ to_string_nat n.
Proof. intros H. apply (f_equal String.length) in H. rewrite !str_app_length in H. simpl in H. lia. Qed.

(** With as much fuel as names not tried yet, the search succeeds; the name it returns is free. *)
Lemma unique_name_spec fuel used (left : gset string) base candidate suffix :
  size left <= fuel → candidate ∈ left ∨ candidate ∉ used →
  (∀ k, suffix <= k → base +:+ "_" +:+ to_string_nat k ≠ candidate) →
  (∀ k, suffix <= k → base +:+ "_" +:+ to_string_nat k ∈ used → base +:+ "_" +:+ to_string_nat k ∈ left) →
  ∃ name, unique_name fuel used base candidate suffix = Some name ∧ name ∉ used ∧
    (name = candidate ∨ ∃ k, name = base +:+ "_" +:+ to_string_nat k).
Proof.
  revert left candidate suffix. induction fuel as [|fuel IH]; intros left candidate suffix Hs Hc Hd Hf; simpl;
    (destruct (decide (candidate ∈ used)) as [Hu|Hu]; [|exists candidate; auto]).
  - assert (left = ∅) as -> by (apply leibniz_equiv, size_empty_iff; lia). destruct Hc as [Hc|Hc]; [set_solver|done].
  - destruct (IH (left ∖ {[candidate]}) (base +:+ "_" +:+ to_string_nat suffix) (S suffix)) as (name&->&?&Hn).
    + rewrite size_difference by set_solver. rewrite size_singleton. lia.
    + destruct (decide (base +:+ "_" +:+ to_string_nat suffix ∈ used)) as [Hin|]; [|by right]. left.
      apply elem_of_difference. split; [by apply Hf|]. rewrite elem_of_singleton. by apply Hd.
    + intros k Hk Heq%suffixed_inj. lia.
    + intros k Hk Hin. apply elem_of_difference. split; [apply Hf; [lia|done]|]. rewrite elem_of_singleton. apply Hd. lia.
    + exists name. split; [done|]. split; [done|]. right. destruct Hn as [->|?]; eauto.
Qed.
Lemma unique_name_returns used base :
  ∃ name, unique_name (size used) used base base 2 = Some name ∧ name ∉ used ∧
    (name = base ∨ ∃ k, name = base +:+ "_" +:+ to_string_nat k).
Proof.
  apply (unique_name_spec _ _ used); [done| | |done].
  - destruct (decide (base ∈ used)); auto.
  - intros k _ H. by apply (suffixed_neq base k).
Qed.

(** The names handed out so far are safe, pairwise distinct, and safe ids keep their own. *)
Record names_inv (s : MermaidNames) : Prop := {
  ni_used : ∀ id name, name_mapping s !! id = Some name → name ∈ name_used s;
  ni_safe : ∀ id name, name_mapping s !! id = Some name → every_char mermaid_safe name = true;
  ni_inj : ∀ id1 id2 name, name_mapping s !! id1 = Some name → name_mapping s !! id2 = Some name → id1 = id2;
  ni_own : ∀ id name, name_mapping s !! id = Some name → every_char mermaid_safe id = true → name = id }.
Lemma claim_name_inv id name s : names_inv s → name ∉ name_used s → every_char mermaid_safe name = true →
  (every_char mermaid_safe id = true → name = id) → names_inv (claim_name id name s).
Proof.
  intros [H1 H2 H3 H4] Hn Hs Ho. split; simpl.
  - intros id' n' [[<- <-]|[_ H]]%lookup_insert_Some; [set_solver|]. apply H1 in H. set_solver.
  - intros id' n' [[<- <-]|[_ H]]%lookup_insert_Some; eauto.
  - intros id1 id2 n' [[<- <-]|[? Ha]]%lookup_insert_Some [[<- ?]|[? Hb]]%lookup_insert_Some; subst; try done.
    + by apply H1 in Hb.
    + by apply H1 in Ha.
    + by eapply H3.
  - intros id' n' [[<- <-]|[_ H]]%lookup_insert_Some; eauto.
Qed.
Lemma claim_safe_names_spec ids s : NoDup ids → names_inv s → (∀ x, x ∈ name_used s → x ∉ ids) →
  names_inv (claim_safe_names ids s) ∧
  ∀ id, is_Some (name_mapping (claim_safe_names ids s) !! id) ↔
        is_Some (name_mapping s !! id) ∨ (id ∈ ids ∧ every_char mermaid_safe id = true).
Proof.
  revert s. induction ids as [|id ids IH]; intros s Hn I Hu; simpl.
  - split; [done|]. intros id. rewrite elem_of_nil. naive_solver.
  - apply NoDup_cons in Hn as [Hid Hn]. destruct (str_eqb (mermaid_node_id id) id) eqn:E.
    + apply str_eqb_eq, mermaid_node_id_of_safe in E. destruct (IH (claim_name id id s)) as [J1 J2]; [done| | |].
      * apply claim_name_inv; try done. intros Hin. apply (Hu id Hin). left.
      * simpl. intros x [->%elem_of_singleton|Hx]%elem_of_union; [done|]. intros Hx'. apply (Hu x Hx). by right.
      * split; [done|]. intros x. rewrite J2. simpl. rewrite lookup_insert_is_Some, elem_of_cons.
        destruct (decide (id = x)); naive_solver.
    + destruct (IH s) as [J1 J2]; [done..| |].
      * intros x Hx Hx'. apply (Hu x Hx). by right.
      * split; [done|]. intros x. rewrite J2, elem_of_cons.
        assert (every_char mermaid_safe id = true → False); [|naive_solver].
        intros Hs%mermaid_node_id_of_safe. by rewrite (proj2 (str_eqb_eq _ _) Hs) in E.
Qed.
Lemma claim_unique_names_spec ids s : names_inv s →
  (∀ id, id ∈ ids → every_char mermaid_safe id = true → is_Some (name_mapping s !! id)) →
  ∃ s', claim_unique_names ids s = Some s' ∧ names_inv s' ∧
    ∀ id, is_Some (name_mapping s' !! id) ↔ is_Some (name_mapping s !! id) ∨ id ∈ ids.
Proof.
  revert s. induction ids as [|id ids IH]; intros s I Hs; simpl.
  - exists s. split; [done|]. split; [done|]. intros id. rewrite elem_of_nil. naive_solver.
  - destruct (name_mapping s !! id) as [name|] eqn:E.
    + destruct (IH s I) as (s'&->&I'&Hd); [intros; apply Hs; [by right|done]|]. exists s'. split; [done|]. split; [done|].
      intros x. rewrite Hd, elem_of_cons. assert (is_Some (name_mapping s !! id)) by eauto. naive_solver.
    + destruct (unique_name_returns (name_used s) (mermaid_node_id id)) as (name&->&Hf&Hn). simpl.
      assert (every_char mermaid_safe name = true) as Hsafe.
      { destruct Hn as [->|[k ->]]; [apply mermaid_node_id_safe|].
        rewrite !every_char_app, mermaid_node_id_safe, to_string_nat_safe. done. }
      destruct (IH (claim_name id name s)) as (s'&->&I'&Hd).
      * apply claim_name_inv; try done. intros Hid. destruct (Hs id) as [? ?]; [left|done|congruence].
      * intros x Hx Hxs. simpl. apply lookup_insert_is_Some. destruct (decide (id = x)); [by left|right].
        split; [done|]. apply Hs; [by right|done].
      * exists s'. split; [done|]. split; [done|]. intros x. rewrite Hd. simpl.
        rewrite lookup_insert_is_Some, elem_of_cons. destruct (decide (id = x)); naive_solver.
Qed.

Lemma build_mermaid_node_ids_spec graph : ∃ m, build_mermaid_node_ids graph = Some m ∧
  (∀ id, is_Some (m !! id) ↔ id ∈ mermaid_originals graph) ∧
  (∀ id1 id2 name, m !! id1 = Some name → m !! id2 = Some name → id1 = id2) ∧
  (∀ id name, m !! id = Some name → every_char mermaid_safe name = true) ∧
  (∀ id name, m !! id = Some name → every_char mermaid_safe id = true → name = id).
Proof.
  set (ids := set_items (mermaid_originals graph)).
  assert (names_inv (mkNames ∅ ∅)) as I0 by (by split; intros *; simpl; rewrite lookup_empty).
  destruct (claim_safe_names_spec ids (mkNames ∅ ∅)) as [I1 H1]; [apply NoDup_set_items|done|set_solver|].
  destruct (claim_unique_names_spec ids (claim_safe_names ids (mkNames ∅ ∅))) as (s&Hs&I2&H2); [done| |].
  { intros id Hid Hsafe. apply H1. auto. }
  exists (name_mapping s). unfold build_mermaid_node_ids. fold ids. rewrite Hs. split; [done|].
  split; [|destruct I2; eauto 10].
  intros id. rewrite H2, H1. simpl. rewrite lookup_empty, <- elem_of_set_items. fold ids. unfold is_Some. naive_solver.
Qed.
(** The node ids of a diagram are computed for every graph, whatever its identifiers: each original id gets one,
    different ids get different ones, every one consists of characters that cannot break the diagram, and an id that
    is already safe is kept as it is. *)
Theorem mermaid_node_ids_unique graph : ∃ m, build_mermaid_node_ids graph = Some m ∧
  (∀ id, is_Some (m !! id) ↔ id ∈ mermaid_originals graph) ∧
  (∀ id1 id2 name, m !! id1 = Some name → m !! id2 = Some name → id1 = id2) ∧
  (∀ id name, m !! id = Some name → every_char mermaid_safe name = true) ∧
  (∀ id name, m !! id = Some name → every_char mermaid_safe id = true → name = id).
Proof. apply build_mermaid_node_ids_spec. Qed.

(** ** The lines of a diagram *)
Lemma newlines_out_each {A} (f : A → string) (n : A → nat) l : (∀ x, newlines (f x) = n x) →
  newlines (out_each f l) = sum_list_with n l.
Proof. intros Hf. induction l as [|x l IH]; [done|]. cbn [out_each sum_list_with]. by rewrite newlines_app, Hf, IH. Qed.
Lemma newlines_label text : newlines (mermaid_label text) = 0.
Proof. by apply (every_char_newlines label_safe), mermaid_label_safe. Qed.
#[local] Hint Rewrite newlines_app newlines_label : topoexec.
Lemma sum_list_with_one {A} (l : list A) : sum_list_with (fun _ => 1) l = length l.
Proof. induction l as [|x l IH]; simpl; lia. Qed.

Section diagram_lines.
Context (graph : GraphSpec) (m : gmap string string) (Hm : build_mermaid_node_ids graph = Some m).
Lemma newlines_node_id id : newlines (node_id m id) = 0.
Proof.
  destruct (build_mermaid_node_ids_spec graph) as (m'&Hm'&_&_&Hs&_). rewrite Hm in Hm'. simplify_eq.
  apply (every_char_newlines mermaid_safe); [done|]. unfold node_id.
  destruct (m' !! id) eqn:E; simpl; [by eapply Hs|apply mermaid_node_id_safe].
Qed.
#[local] Hint Rewrite newlines_node_id : topoexec.
Lemma newlines_component_node indent c : newlines indent = 0 → newlines (component_node m indent c) = 1.
Proof. intros Hi. unfold component_node. autorewrite with topoexec. by rewrite Hi. Qed.
Lemma newlines_hierarchy h : newlines (hierarchy_diagram m graph h) = 2 + length (hier_components h).
Proof.
  unfold hierarchy_diagram. autorewrite with topoexec. rewrite (newlines_out_each _ (fun _ => 1)), sum_list_with_one; [simpl; lia|].
  intros id. destruct (List.find _ _); [by apply newlines_component_node|]. by autorewrite with topoexec.
Qed.
Lemma newlines_loop l : newlines (loop_diagram m l) = 2 + length (loop_components l).
Proof.
  unfold loop_diagram. autorewrite with topoexec. rewrite (newlines_out_each _ (fun _ => 1)), sum_list_with_one; [simpl; lia|].
  intros id. by autorewrite with topoexec.
Qed.
Lemma newlines_edge e : newlines (edge_diagram m e) = 1.
Proof. unfold edge_diagram. autorewrite with topoexec. by destruct (edge_kind e). Qed.
End diagram_lines.

(** The number of lines of a diagram is fixed by the shape of the graph: no identifier, type or policy text can add
    a statement to it.  The one exception is the region order, which is written without escaping: each line break in
    a region id adds a line. *)
Theorem mermaid_lines graph plan : ∃ out, graph_mermaid graph plan = Some out ∧
  newlines out =
    3 + sum_list_with (fun h => 2 + length (hier_components h)) (graph_hierarchy graph) +
    length (filter (fun c => comp_id c ∉ (graph_hierarchy graph ≫= hier_components)) (graph_components graph)) +
    sum_list_with (fun l => 2 + length (loop_components l)) (graph_composite_loops graph) +
    length (graph_edges graph) + newlines (join_ids (region_order plan)).
Proof.
  destruct (build_mermaid_node_ids_spec graph) as (m&Hm&_). unfold graph_mermaid. rewrite Hm. simpl. eexists. split; [done|].
  unfold diagram_body. autorewrite with topoexec.
  rewrite (newlines_out_each (hierarchy_diagram m graph) (fun h => 2 + length (hier_components h))) by (by apply newlines_hierarchy).
  rewrite (newlines_out_each (component_node m "  ") (fun _ => 1)) by (intros; by apply (newlines_component_node graph)).
  rewrite (newlines_out_each (loop_diagram m) (fun l => 2 + length (loop_components l))) by (by apply (newlines_loop graph)).
  rewrite (newlines_out_each (edge_diagram m) (fun _ => 1)) by (by apply (newlines_edge graph)).
  rewrite !sum_list_with_one. simpl. lia.
Qed.
