(* ===== verification/Compile.v ===== *)
(** * Compile: the compiler from a graph to its execution plan

    Models [compile_graph_impl] of [src/graph.cpp]: the immediate edges are condensed into strongly connected
    components (Scc.v), each component becomes a region, cyclic ones owned by the composite loop that lists exactly
    their members, and the regions are ordered by Kahn's algorithm with a queue sorted by priority.  The loop that
    orders the regions has fuel: [fuel] bounds the number of regions popped. *)

From S2P Require Export Kahn Scc Diagnostics PlanText.
Local Open Scope nat_scope.

(** ** Results *)
Record GraphCompileResult := mkCompileResult {
  cr_ok : bool; cr_errors : list string; cr_diagnostics : list GraphDiagnostic; cr_plan : GraphCompiledPlan }.
#[export] Instance eta_GraphCompileResult : Eta GraphCompileResult := fun r =>
  mkCompileResult (cr_ok r) (cr_errors r) (cr_diagnostics r) (cr_plan r).
Definition compile_error (error : string) (r : GraphCompileResult) : GraphCompileResult :=
  r <| cr_ok := false |> <| cr_diagnostics ::= fun l => l ++ [make_diagnostic error] |> <| cr_errors ::= fun l => l ++ [error] |>.
Definition compile_error_if (b : bool) (error : string) (r : GraphCompileResult) : GraphCompileResult :=
  if b then compile_error error r else r.

(** ** The immediate graph *)
Definition runtime_priority_rank (priority : string) : nat :=
  if str_eqb priority "high" then 3 else
  if str_eqb priority "low" then 1 else
  if str_eqb priority "background" then 0 else 2.
Definition is_immediate (edge : EdgeSpec) : bool :=
  edge_has_kind edge && str_empty (edge_invalid_kind edge) && bool_decide (edge_kind edge = kImmediate).
Definition from_component (edge : EdgeSpec) : string := component_id_from_endpoint (edge_from edge).
Definition to_component (edge : EdgeSpec) : string := component_id_from_endpoint (edge_to edge).

Fixpoint collect_ids (components : list ComponentNodeSpec) (known : gset string) : list string :=
  match components with
  | [] => []
  | c :: rest =>
      if negb (str_empty (comp_id c)) && bool_decide (comp_id c ∉ known)
      then comp_id c :: collect_ids rest ({[comp_id c]} ∪ known) else collect_ids rest known
  end.
Definition component_ids (graph : GraphSpec) : list string := collect_ids (graph_components graph) ∅.
Definition known_components (graph : GraphSpec) : gset string := list_to_set (component_ids graph).
Definition add_immediate_edge (known : gset string) (m : gmap string (list string)) (edge : EdgeSpec)
    : gmap string (list string) :=
  if is_immediate edge && bool_decide (from_component edge ∈ known) && bool_decide (to_component edge ∈ known)
  then <[from_component edge := map_at [] m (from_component edge) ++ [to_component edge]]> m else m.
Definition immediate_edges (graph : GraphSpec) : gmap string (list string) :=
  fold_left (add_immediate_edge (known_components graph)) (graph_edges graph)
    (fold_left (fun m id => <[id := []]> m) (component_ids graph) ∅).
Definition has_immediate_self_loop (graph : GraphSpec) (component : string) : bool :=
  List.existsb (fun e => is_immediate e && str_eqb (from_component e) component && str_eqb (to_component e) component)
    (graph_edges graph).

(** ** Composite loops *)
Definition same_component_set (left right : list string) : bool :=
  bool_decide (merge_sort String.le left = merge_sort String.le right).

(** One component of a loop declaration; [owners] is [loops_by_component], as the id of the owner. *)
Fixpoint check_loop_components (known : gset string) (id : string) (components : list string) (listed : gset string)
    (owners : gmap string string) (r : GraphCompileResult) : gmap string string * GraphCompileResult :=
  match components with
  | [] => (owners, r)
  | c :: rest =>
      let r1 := compile_error_if (bool_decide (c ∈ listed))
                  ("composite_loop " +:+ id +:+ " lists duplicate component " +:+ c) r in
      let listed' := {[c]} ∪ listed in
      if bool_decide (c ∉ known) then
        check_loop_components known id rest listed' owners
          (compile_error ("composite_loop " +:+ id +:+ " references missing component " +:+ c) r1)
      else match owners !! c with
      | Some owner =>
          if str_eqb owner id then check_loop_components known id rest listed' (<[c := id]> owners) r1
          else check_loop_components known id rest listed' owners
                 (compile_error ("component " +:+ c +:+ " is owned by multiple composite_loops: " +:+ owner +:+ "," +:+ id) r1)
      | None => check_loop_components known id rest listed' (<[c := id]> owners) r1
      end
  end.
Fixpoint check_loops (known : gset string) (loops : list CompositeLoopSpec) (ids : gset string)
    (owners : gmap string string) (r : GraphCompileResult) : GraphCompileResult :=
  match loops with
  | [] => r
  | l :: rest =>
      if str_empty (loop_id l) then
        check_loops known rest ids owners (compile_error "composite_loop id must not be empty" r)
      else
        let r1 := compile_error_if (bool_decide (loop_id l ∈ ids)) ("duplicate composite_loop: " +:+ loop_id l) r in
        let '(owners', r2) := check_loop_components known (loop_id l) (loop_components l) ∅ owners r1 in
        check_loops known rest ({[loop_id l]} ∪ ids) owners' r2
  end.

(** ** Regions *)
Definition is_cyclic (graph : GraphSpec) (scc : list string) : bool :=
  (1 <? length scc) || match scc with [] => false | c :: _ => has_immediate_self_loop graph c end.
Definition matching_loop (graph : GraphSpec) (scc : list string) : option CompositeLoopSpec :=
  List.find (fun l => same_component_set (loop_components l) scc) (graph_composite_loops graph).
Definition make_region (graph : GraphSpec) (index : nat) (scc : list string) : CompiledGraphRegion :=
  match matching_loop graph scc with
  | Some l => mkRegion (loop_id l) kCompositeLoop scc (loop_id l) (loop_policy l) [] []
  | None =>
      let id := match scc with [c] => c | _ => "region_" +:+ to_string_nat index end in
      mkRegion id kComponent scc "" default_loop_policy [] []
  end.
(** The errors of one strongly connected component. *)
Definition check_region (graph : GraphSpec) (scc : list string) (r : GraphCompileResult) : GraphCompileResult :=
  let cyclic := is_cyclic graph scc in
  match matching_loop graph scc with
  | None =>
      compile_error_if cyclic ("immediate cycle detected among components " +:+ join_ids scc +:+
        "; declare a matching composite_loop or use delay/state/async edges") r
  | Some l =>
      compile_error_if (negb cyclic) ("composite_loop " +:+ loop_id l +:+
        " does not match an immediate cyclic strongly connected component") r
  end.
Definition record_region (m : gmap string string) (region : CompiledGraphRegion) : gmap string string :=
  fold_left (fun m c => <[c := region_id region]> m) (region_components region) m.
Definition matched_loop_ids (graph : GraphSpec) (sccs : list (list string)) : gset string :=
  list_to_set (omap (fun scc => loop_id <$> matching_loop graph scc) sccs).

(** ** Edges between regions *)
Record RegionEdges := mkRegionEdges {
  outgoing : gmap string (gset string); incoming : gmap string (gset string); region_indegree : gmap string nat }.
#[export] Instance eta_RegionEdges : Eta RegionEdges := fun e =>
  mkRegionEdges (outgoing e) (incoming e) (region_indegree e).
Definition insert_into (m : gmap string (gset string)) (k v : string) : gmap string (gset string) :=
  <[k := {[v]} ∪ map_at ∅ m k]> m.

(** The index of the strongly connected component of a component: [component_scc]. *)
Fixpoint component_scc (index : nat) (sccs : list (list string)) (m : gmap string nat) : gmap string nat :=
  match sccs with
  | [] => m
  | scc :: rest => component_scc (S index) rest (fold_left (fun m c => <[c := index]> m) scc m)
  end.
Definition add_region_edge (scc_of : gmap string nat) (region_ids : list string) (e : RegionEdges) (edge : EdgeSpec)
    : RegionEdges :=
  if negb (is_immediate edge) then e else
  match scc_of !! from_component edge, scc_of !! to_component edge with
  | Some from_scc, Some to_scc =>
      if from_scc =? to_scc then e else
      let from_region := region_ids !!! from_scc in
      let to_region := region_ids !!! to_scc in
      if bool_decide (to_region ∈ map_at ∅ (outgoing e) from_region) then e
      else e <| outgoing ::= fun m => insert_into m from_region to_region |>
             <| incoming ::= fun m => insert_into m to_region from_region |>
             <| region_indegree ::= fun m => <[to_region := S (map_at 0 m to_region)]> m |>
  | _, _ => e
  end.
Definition link_region (e : RegionEdges) (region : CompiledGraphRegion) : CompiledGraphRegion :=
  region <| outgoing_regions := set_items (map_at ∅ (outgoing e) (region_id region)) |>
         <| incoming_regions := set_items (map_at ∅ (incoming e) (region_id region)) |>.

(** ** Ordering the regions *)
Definition component_priority (graph : GraphSpec) : gmap string nat :=
  fold_left (fun m c => <[comp_id c := runtime_priority_rank (exec_priority (execution c))]> m) (graph_components graph) ∅.
(** [rank] starts at [-1]; a region that is not found, or has no component, has the rank of "normal". *)
Definition region_priority_rank (priorities : gmap string nat) (regions : list CompiledGraphRegion) (id : string) : nat :=
  match List.find (fun r => str_eqb (region_id r) id) regions with
  | None => 2
  | Some r =>
      match region_components r with
      | [] => 2
      | cs => fold_left (fun rank c => rank `max` map_at 0 priorities c) cs 0
      end
  end.

Section ordering.
Context (rank : string → nat).
(** [std::stable_sort] by descending rank. *)
Fixpoint insert_ranked (x : string) (l : list string) : list string :=
  match l with
  | [] => [x]
  | y :: r => if rank x <? rank y then y :: insert_ranked x r else x :: l
  end.
Definition sort_ready (l : list string) : list string := foldr insert_ranked [] l.

Fixpoint release_regions (targets : list string) (indegree : gmap string nat) (ready : list string)
    : gmap string nat * list string :=
  match targets with
  | [] => (indegree, ready)
  | next :: rest =>
      let n := pred (map_at 0 indegree next) in
      let indegree' := <[next := n]> indegree in
      release_regions rest indegree' (if n =? 0 then sort_ready (ready ++ [next]) else ready)
  end.
Fixpoint region_loop (fuel : nat) (out : gmap string (gset string)) (indegree : gmap string nat)
    (ready order : list string) : option (list string) :=
  match ready with
  | [] => Some order
  | id :: ready' =>
      match fuel with
      | 0 => None
      | S fuel' =>
          let '(indegree', ready'') := release_regions (set_items (map_at ∅ out id)) indegree ready' in
          region_loop fuel' out indegree' ready'' (order ++ [id])
      end
  end.
End ordering.

(** ** The compiler *)
Definition graph_sccs (graph : GraphSpec) : option (list (list string)) :=
  tarjan_scc (component_ids graph) (immediate_edges graph).
Definition make_regions (graph : GraphSpec) (sccs : list (list string)) : list CompiledGraphRegion :=
  imap (make_region graph) sccs.
Definition region_edges (graph : GraphSpec) (sccs : list (list string)) (region_ids : list string) : RegionEdges :=
  fold_left (add_region_edge (component_scc 0 sccs ∅) region_ids) (graph_edges graph)
    (mkRegionEdges ∅ ∅ (fold_left (fun m id => <[id := 0]> m) region_ids ∅)).
Definition check_matched (graph : GraphSpec) (sccs : list (list string)) (r : GraphCompileResult) : GraphCompileResult :=
  fold_left (fun r l => compile_error_if (bool_decide (loop_id l ∉ matched_loop_ids graph sccs))
    ("composite_loop " +:+ loop_id l +:+ " must exactly match one immediate cyclic strongly connected component") r)
    (graph_composite_loops graph) r.

Definition compile_graph (fuel : nat) (graph : GraphSpec) : option GraphCompileResult :=
  sccs ← graph_sccs graph;
  let regions := make_regions graph sccs in
  let ids := region_id <$> regions in
  let edges := region_edges graph sccs ids in
  let linked := link_region edges <$> regions in
  let rank := region_priority_rank (component_priority graph) linked in
  let ready := sort_ready rank (filter (fun id => map_at 0 (region_indegree edges) id = 0) ids) in
  order ← region_loop rank fuel (outgoing edges) (region_indegree edges) ready [];
  let r0 := mkCompileResult true [] [] (mkPlan linked order (fold_left record_region regions ∅) sccs) in
  let r1 := check_loops (known_components graph) (graph_composite_loops graph) ∅ ∅ r0 in
  let r2 := fold_left (fun r scc => check_region graph scc r) sccs r1 in
  let r3 := check_matched graph sccs r2 in
  Some (compile_error_if (negb (length order =? length ids))
          "compiled immediate region graph is cyclic after SCC condensation" r3).
