(* ===== verification/CompileFacts.v ===== *)
(** * CompileFacts: what the compiled plan guarantees

    The regions of a plan are the strongly connected components of the immediate graph; the region order contains each
    region once, respects every immediate edge and prefers higher priorities; a graph compiles without an error
    exactly when its composite loops are the cyclic components.  The proofs rest on Scc.v and Kahn.v. *)

From S2P Require Export Compile.
Local Open Scope nat_scope.

(** ** The immediate graph *)
Lemma elem_of_collect_ids cs known id :
  id ∈ collect_ids cs known ↔ id ≠ EmptyString ∧ id ∉ known ∧ ∃ c, c ∈ cs ∧ comp_id c = id.
Proof.
  revert known. induction cs as [|c cs IH]; intros known; simpl.
  - split; [by intros ?%elem_of_nil|]. by intros (_&_&c&?%elem_of_nil&_).
  - destruct (str_empty (comp_id c)) eqn:E; [|case_bool_decide as Hk]; simpl.
    + apply str_empty_true in E. rewrite IH. setoid_rewrite elem_of_cons. naive_solver.
    + rewrite elem_of_cons, IH, not_elem_of_union, not_elem_of_singleton. setoid_rewrite elem_of_cons.
      assert (comp_id c ≠ EmptyString) by (intros H; rewrite H in E; done).
      destruct (decide (id = comp_id c)); naive_solver.
    + rewrite IH. setoid_rewrite elem_of_cons. naive_solver.
Qed.
Lemma NoDup_collect_ids cs known : NoDup (collect_ids cs known).
Proof.
  revert known. induction cs as [|c cs IH]; intros known; simpl; [constructor|].
  destruct (_ && _); [|done]. constructor; [|done].
  intros (_&Hk&_)%elem_of_collect_ids. apply Hk, elem_of_union_l, elem_of_singleton. done.
Qed.
Lemma elem_of_known graph id : id ∈ known_components graph ↔ id ∈ component_ids graph.
Proof. unfold known_components. apply elem_of_list_to_set. Qed.

(** There is an immediate edge from component [x] to component [y]. *)
Definition immediate (graph : GraphSpec) (x y : string) : Prop :=
  ∃ e, e ∈ graph_edges graph ∧ is_immediate e = true ∧ from_component e = x ∧ to_component e = y ∧
    x ∈ component_ids graph ∧ y ∈ component_ids graph.

Lemma add_immediate_edges_spec known es m x y :
  y ∈ map_at [] (fold_left (add_immediate_edge known) es m) x ↔
  y ∈ map_at [] m x ∨ ∃ e, e ∈ es ∧ is_immediate e = true ∧ from_component e = x ∧ to_component e = y ∧ x ∈ known ∧ y ∈ known.
Proof.
  revert m. induction es as [|e es IH]; intros m; simpl.
  - split; [auto|]. intros [?|(e&?%elem_of_nil&_)]; done.
  - rewrite IH. set (P e := is_immediate e = true ∧ from_component e = x ∧ to_component e = y ∧ x ∈ known ∧ y ∈ known).
    assert (y ∈ map_at [] (add_immediate_edge known m e) x ↔ y ∈ map_at [] m x ∨ P e) as ->.
    { unfold add_immediate_edge, P. destruct (is_immediate e); simpl; [|intuition congruence].
      case_bool_decide as Hf; simpl; [|intuition (subst; done)]. case_bool_decide as Ht; simpl; [|intuition (subst; done)].
      destruct (decide (from_component e = x)) as [<-|Hne]; [|rewrite map_at_insert_ne by done; intuition congruence].
      rewrite map_at_insert_eq, elem_of_app, list_elem_of_singleton. intuition (subst; auto). }
    change ((y ∈ map_at [] m x ∨ P e) ∨ (∃ e, e ∈ es ∧ P e) ↔ y ∈ map_at [] m x ∨ ∃ e', e' ∈ e :: es ∧ P e').
    split.
    + intros [[?|?]|(e'&?&?)]; [by left|right; exists e; split; [left|done]|right; exists e'; split; [by right|done]].
    + intros [?|(e'&[->|?]%elem_of_cons&?)]; eauto.
Qed.
Lemma immediate_edges_spec graph x y : edge_in (immediate_edges graph) x y ↔ immediate graph x y.
Proof.
  unfold edge_in, immediate_edges, immediate. rewrite add_immediate_edges_spec. setoid_rewrite elem_of_known.
  split; [|naive_solver]. intros [Hm|?]; [|naive_solver]. exfalso. revert Hm.
  assert (∀ ids (m : gmap string (list string)), (∀ k, map_at [] m k = []) →
    y ∉ map_at [] (fold_left (fun m id => <[id := []]> m) ids m) x) as H.
  { induction ids as [|id ids IH]; intros m Hm; simpl; [rewrite Hm; apply not_elem_of_nil|]. apply IH. intros k.
    destruct (decide (id = k)) as [->|?]; [apply map_at_insert_eq|by rewrite map_at_insert_ne]. }
  apply H. intros k. unfold map_at. by rewrite lookup_empty.
Qed.
Lemma immediate_known graph x y : immediate graph x y → x ∈ component_ids graph ∧ y ∈ component_ids graph.
Proof. intros (e&_&_&_&_&?). done. Qed.
Lemma edge_targets_immediate graph y :
  y ∈ mjoin (map_to_list (immediate_edges graph)).*2 → ∃ x, immediate graph x y.
Proof.
  intros (l&Hy&Hl)%list_elem_of_join. apply list_elem_of_fmap in Hl as ([x l']&Hl&Hx). apply elem_of_map_to_list in Hx.
  simpl in Hl. subst l'. exists x.
  apply immediate_edges_spec. unfold edge_in, map_at. by rewrite Hx.
Qed.

(** ** The components and their indices *)

(** [sccs] are the strongly connected components of the immediate graph, in the compiler's order. *)
Record condensation (graph : GraphSpec) (sccs : list (list string)) : Prop := {
  co_scc : ∀ c, c ∈ sccs → is_scc (immediate_edges graph) c;
  co_unique : NoDup (mjoin sccs);
  co_members : ∀ x, x ∈ mjoin sccs ↔ x ∈ component_ids graph;
  co_back : edges_go_back (immediate_edges graph) sccs }.
Lemma graph_sccs_spec graph : ∃ sccs, graph_sccs graph = Some sccs ∧ condensation graph sccs.
Proof.
  destruct (tarjan_condenses (component_ids graph) (immediate_edges graph)) as (cs&Hcs&H1&H2&H3&H4&H5).
  exists cs. split; [exact Hcs|]. split; try done. intros x. split; [|apply H3].
  intros [?|Hy]%H5; [done|]. apply edge_targets_immediate in Hy as [y Hy]. by destruct (immediate_known _ _ _ Hy).
Qed.

Lemma fold_insert_all {A} (v : A) ids m k :
  fold_left (fun m c => <[c := v]> m) ids m !! k = (if decide (k ∈ ids) then Some v else (m : gmap string A) !! k).
Proof.
  revert m. induction ids as [|id ids IH]; intros m; cbn [fold_left].
  - rewrite decide_False by apply not_elem_of_nil. done.
  - rewrite IH. destruct (decide (k ∈ ids)) as [H|H]; [rewrite decide_True by (by right); done|].
    destruct (decide (id = k)) as [->|Hne].
    + rewrite lookup_insert_eq, decide_True by left. done.
    + rewrite lookup_insert_ne, decide_False by set_solver. done.
Qed.
Lemma component_scc_spec sccs n m k i : NoDup (mjoin sccs) → (∀ c, c ∈ mjoin sccs → m !! c = None) →
  component_scc n sccs m !! k = Some i ↔ (∃ j c, i = n + j ∧ sccs !! j = Some c ∧ k ∈ c) ∨ m !! k = Some i.
Proof.
  revert n m. induction sccs as [|c sccs IH]; intros n m Hn Hm; simpl.
  - split; [auto|]. intros [(j&c&_&H&_)|?]; [|done]. by rewrite lookup_nil in H.
  - apply NoDup_app in Hn as (Hc&Hd&Hn). change (mjoin (c :: sccs)) with (c ++ mjoin sccs) in Hm.
    rewrite IH; [|done|].
    + rewrite fold_insert_all. split.
      * intros [(j&c'&->&?&?)|H]; [left; exists (S j), c'; split; [lia|done]|].
        destruct (decide (k ∈ c)); [|auto]. simplify_eq. left. exists 0, c. split; [lia|done].
      * intros [([|j]&c'&->&?&?)|H]; simplify_eq/=.
        -- right. rewrite Nat.add_0_r. by rewrite decide_True.
        -- left. exists j, c'. split; [lia|done].
        -- right. rewrite decide_False; [done|]. intros Hk. rewrite Hm in H; [done|]. set_solver.
    + intros k' Hk'. rewrite fold_insert_all, decide_False by set_solver. apply Hm. set_solver.
Qed.
Lemma component_scc_lookup sccs k i : NoDup (mjoin sccs) →
  component_scc 0 sccs ∅ !! k = Some i ↔ ∃ c, sccs !! i = Some c ∧ k ∈ c.
Proof.
  intros Hn. rewrite component_scc_spec by (done || intros; apply lookup_empty). rewrite lookup_empty. naive_solver.
Qed.

(** ** The queue sorted by priority *)
Section ranked.
Context (rank : string → nat).
Definition ranked (l : list string) : Prop := StronglySorted (fun a b => rank b <= rank a) l.
Lemma insert_ranked_perm x l : insert_ranked rank x l ≡ₚ x :: l.
Proof. induction l as [|y l IH]; simpl; [done|]. destruct (_ <? _); [|done]. rewrite IH. apply Permutation_swap. Qed.
Lemma sort_ready_perm l : sort_ready rank l ≡ₚ l.
Proof. induction l as [|x l IH]; simpl; [done|]. by rewrite insert_ranked_perm, IH. Qed.
Lemma insert_ranked_sorted x l : ranked l → ranked (insert_ranked rank x l).
Proof.
  unfold ranked. induction 1 as [|y l Hs IH Hf]; simpl; [by repeat constructor|].
  destruct (Nat.ltb_spec (rank x) (rank y)).
  - constructor; [done|]. rewrite insert_ranked_perm. constructor; [lia|done].
  - constructor; [by constructor|]. constructor; [done|]. eapply Forall_impl; [exact Hf|]. simpl. lia.
Qed.
Lemma sort_ready_sorted l : ranked (sort_ready rank l).
Proof. unfold ranked. induction l as [|x l IH]; simpl; [constructor|]. by apply insert_ranked_sorted. Qed.

(** In the order, each node comes with the highest rank among those whose predecessors all came before it. *)
Definition greedy (succs : string → list string) (nodes order : list string) : Prop :=
  ∀ l1 r l2, order = l1 ++ r :: l2 → ∀ r', r' ∈ nodes → r' ∉ l1 →
    (∀ u, u ∈ nodes → r' ∈ succs u → u ∈ l1) → rank r' <= rank r.

Context (out : gmap string (gset string)) (nodes : list string).
Let succs (u : string) : list string := set_items (map_at ∅ out u).
Context (Hn : NoDup nodes) (Hc : ∀ u v, u ∈ nodes → v ∈ succs u → v ∈ nodes).

Lemma release_regions_spec visiting indegree ready order :
  kahn_inv succs nodes (fun x => map_at 0 indegree x) ready order visiting → ranked ready →
  let '(indegree', ready') := release_regions rank visiting indegree ready in
  kahn_inv succs nodes (fun x => map_at 0 indegree' x) ready' order [] ∧ ranked ready'.
Proof.
  revert indegree ready. induction visiting as [|x visiting IH]; intros indegree ready I Hr; [done|].
  cbn [release_regions]. set (n := pred (map_at 0 indegree x)).
  destruct (kahn_visit succs nodes (fun y => map_at 0 indegree y) (fun y => map_at 0 (<[x := n]> indegree) y) _ _ _ _ I)
    as [_ Hstep].
  apply IH; [|by destruct (n =? 0); [apply sort_ready_sorted|]].
  assert (map_at 0 (<[x := n]> indegree) x = n) as Hx by apply map_at_insert_eq. rewrite Hx in Hstep.
  assert (kahn_inv succs nodes (fun y => map_at 0 (<[x := n]> indegree) y)
    (if n =? 0 then ready ++ [x] else ready) order visiting) as J.
  { apply Hstep; [done|]. intros y _ Hy. by rewrite map_at_insert_ne. }
  destruct (n =? 0); [|done]. eapply kahn_reorder; [|exact J]. by rewrite sort_ready_perm.
Qed.
Lemma greedy_pop indegree x ready order :
  kahn_inv succs nodes (fun y => map_at 0 indegree y) (x :: ready) order [] → ranked (x :: ready) →
  greedy succs nodes order → greedy succs nodes (order ++ [x]).
Proof.
  intros I Hr Hg l1 r l2 Heq r' Hr' Hn1 Hp. destruct l2 as [|y l2 _] using rev_ind.
  - apply app_inj_2 in Heq as [-> [= ->]]; [|done].
    assert (map_at 0 indegree r' = 0) as Hz.
    { rewrite (ki_indegree _ _ _ _ _ _ I r' Hr'). change (occ r' []) with 0. rewrite Nat.add_0_r.
      apply occ_zero. intros (u&Hu&Huo&Hur)%elem_of_pending_edges. auto. }
    apply (ki_zero _ _ _ _ _ _ I r' Hr') in Hz. apply elem_of_app in Hz as [?|[->|Hz]%elem_of_cons]; [done|done|].
    apply StronglySorted_inv in Hr as [_ Hf]. rewrite Forall_forall in Hf. by apply Hf.
  - rewrite app_comm_cons, (assoc_L (++)) in Heq. apply app_inj_2 in Heq as [-> _]; [|done]. by eapply Hg.
Qed.
Lemma region_loop_spec fuel indegree ready order :
  kahn_inv succs nodes (fun x => map_at 0 indegree x) ready order [] → ranked ready → greedy succs nodes order →
  length nodes <= fuel + length order →
  ∃ order' (indegree' : gmap string nat), region_loop rank fuel out indegree ready order = Some order' ∧
    kahn_inv succs nodes (fun x => map_at 0 indegree' x) [] order' [] ∧ greedy succs nodes order'.
Proof.
  revert indegree ready order. induction fuel as [|fuel IH]; intros indegree ready order I Hr Hg Hf;
    pose proof (kahn_length _ _ _ _ _ _ I) as Hl; (destruct ready as [|x ready]; [by exists order, indegree|]); simpl in *; [lia|].
  pose proof (greedy_pop _ _ _ _ I Hr Hg) as Hg'. apply StronglySorted_inv in Hr as [Hr _].
  apply (kahn_pop succs nodes Hn Hc) in I. pose proof (release_regions_spec _ _ _ _ I Hr) as Hrel.
  change (set_items (map_at ∅ out x)) with (succs x).
  destruct (release_regions rank (succs x) indegree ready) as [indegree' ready']. destruct Hrel as [I' Hr'].
  apply IH; [done..|]. rewrite length_app. simpl. lia.
Qed.
End ranked.

(** ** Edges between regions *)
Lemma occ_join_update {A} `{!EqDecision A} (f f' : string → list A) ids u v x : NoDup ids → u ∈ ids →
  f' u ≡ₚ v :: f u → (∀ w, w ≠ u → f' w = f w) →
  occ x (mjoin (f' <$> ids)) = occ x (mjoin (f <$> ids)) + (if decide (v = x) then 1 else 0).
Proof.
  intros Hn Hu Hf Hne. induction ids as [|w ids IH]; [by apply elem_of_nil in Hu|].
  apply NoDup_cons in Hn as [Hw Hn]. rewrite !fmap_cons. change (mjoin (?a :: ?b)) with (a ++ mjoin b). rewrite !occ_app.
  destruct (decide (w = u)) as [->|Hwu].
  - rewrite (occ_perm x _ _ Hf), occ_cons.
    rewrite (list_fmap_ext f' f ids); [lia|]. intros i y Hy. apply Hne. intros ->. apply Hw. by eapply list_elem_of_lookup_2.
  - rewrite (Hne w Hwu), IH by (done || set_solver). lia.
Qed.
Section region_edges.
Context (scc_of : gmap string nat) (ids : list string) (Hids : NoDup ids).
Context (Hbound : ∀ c i, scc_of !! c = Some i → i < length ids).
(** The edge crosses from region [x] to region [y]. *)
Definition crosses (e : EdgeSpec) (x y : string) : Prop :=
  is_immediate e = true ∧ ∃ i j, scc_of !! from_component e = Some i ∧ scc_of !! to_component e = Some j ∧ i ≠ j ∧
    ids !!! i = x ∧ ids !!! j = y.
Definition successors (E : RegionEdges) (u : string) : list string := set_items (map_at ∅ (outgoing E) u).
Record region_edges_inv (es : list EdgeSpec) (E : RegionEdges) : Prop := {
  rei_out : ∀ x y, y ∈ map_at ∅ (outgoing E) x ↔ ∃ e, e ∈ es ∧ crosses e x y;
  rei_in : ∀ x y, x ∈ map_at ∅ (incoming E) y ↔ y ∈ map_at ∅ (outgoing E) x;
  rei_indegree : ∀ x, map_at 0 (region_indegree E) x = occ x (mjoin (successors E <$> ids)) }.
Lemma elem_of_insert_into (m : gmap string (gset string)) k v k' v' :
  v' ∈ map_at ∅ (insert_into m k v) k' ↔ (k' = k ∧ v' = v) ∨ v' ∈ map_at ∅ m k'.
Proof.
  unfold insert_into. destruct (decide (k = k')) as [<-|Hne].
  - rewrite map_at_insert_eq, elem_of_union, elem_of_singleton. naive_solver.
  - rewrite map_at_insert_ne by done. naive_solver.
Qed.
Lemma set_items_insert x X : x ∉ X → set_items ({[x]} ∪ X) ≡ₚ x :: set_items X.
Proof. intros Hx. unfold set_items. rewrite !merge_sort_Permutation. by apply elements_union_singleton. Qed.
Lemma region_edges_inv_ext es e E : (∀ x y, crosses e x y → y ∈ map_at ∅ (outgoing E) x) →
  region_edges_inv es E → region_edges_inv (es ++ [e]) E.
Proof.
  intros Hc [H1 H2 H3]. split; [|done..]. intros x y. setoid_rewrite elem_of_app. setoid_rewrite list_elem_of_singleton.
  rewrite H1. split; [naive_solver|]. intros (e'&[?| ->]&?); [eauto|]. apply H1. auto.
Qed.
Lemma add_region_edge_inv es e E : region_edges_inv es E → region_edges_inv (es ++ [e]) (add_region_edge scc_of ids E e).
Proof.
  intros I. unfold add_region_edge. destruct (is_immediate e) eqn:Ei; simpl.
  2: { apply region_edges_inv_ext; [|done]. intros x y [? _]. congruence. }
  destruct (scc_of !! from_component e) as [i|] eqn:Ef; [|by apply region_edges_inv_ext; [intros x y (_&?&?&?&_); congruence|]].
  destruct (scc_of !! to_component e) as [j|] eqn:Et; [|by apply region_edges_inv_ext; [intros x y (_&?&?&?&?&_); congruence|]].
  assert (∀ x y, crosses e x y ↔ i ≠ j ∧ ids !!! i = x ∧ ids !!! j = y) as Hcr.
  { intros x y. unfold crosses. rewrite Ei, Ef, Et. split; [naive_solver|]. intros [? [? ?]]. split; [done|]. by exists i, j. }
  destruct (Nat.eqb_spec i j) as [Hij|Hij]; [by apply region_edges_inv_ext; [intros x y [? _]%Hcr|]|].
  case_bool_decide as Hin; [apply region_edges_inv_ext; [by intros x y (_&<-&<-)%Hcr|done]|].
  destruct I as [H1 H2 H3]. split.
  - intros x y. simpl. rewrite elem_of_insert_into, H1. setoid_rewrite elem_of_app. setoid_rewrite list_elem_of_singleton.
    split.
    + intros [[-> ->]|(e'&?&?)]; [exists e; split; [by right|by apply Hcr]|eauto].
    + intros (e'&[?| ->]&Hx); [eauto|]. apply Hcr in Hx as (_&<-&<-). by left.
  - intros x y. simpl. rewrite !elem_of_insert_into, H2. naive_solver.
  - intros x. simpl.
    rewrite (occ_join_update (successors E) _ ids (ids !!! i) (ids !!! j)); [|done| | |].
    + destruct (decide (ids !!! j = x)) as [<-|Hne]; [rewrite map_at_insert_eq, H3; lia|].
      rewrite map_at_insert_ne, H3 by done. lia.
    + apply (list_elem_of_lookup_2 _ i), list_lookup_lookup_total_lt. eauto.
    + unfold successors. simpl. unfold insert_into at 1. rewrite map_at_insert_eq. by apply set_items_insert.
    + intros w Hw. unfold successors. simpl. unfold insert_into. by rewrite map_at_insert_ne.
Qed.
Lemma region_edges_fold es es0 E : region_edges_inv es0 E →
  region_edges_inv (es0 ++ es) (fold_left (add_region_edge scc_of ids) es E).
Proof.
  revert es0 E. induction es as [|e es IH]; intros es0 E I; simpl; [by rewrite app_nil_r|].
  rewrite cons_middle, (assoc_L (++)). by apply IH, add_region_edge_inv.
Qed.
Lemma region_edges_start : region_edges_inv [] (mkRegionEdges ∅ ∅ (fold_left (fun m id => <[id := 0]> m) ids ∅)).
Proof.
  split; simpl.
  - intros x y. unfold map_at. rewrite lookup_empty. simpl. split; [set_solver|]. by intros (e&?%elem_of_nil&_).
  - intros x y. unfold map_at. rewrite !lookup_empty. simpl. set_solver.
  - intros x. unfold map_at. rewrite fold_insert_all, lookup_empty.
    assert (occ x (mjoin (successors (mkRegionEdges ∅ ∅ (fold_left (fun m id => <[id := 0]> m) ids ∅)) <$> ids)) = 0) as ->.
    { apply occ_zero. intros (l&Hx&Hl)%list_elem_of_join. apply list_elem_of_fmap in Hl as (u&->&_).
      apply elem_of_set_items in Hx. unfold map_at in Hx. simpl in Hx. rewrite lookup_empty in Hx. set_solver. }
    by destruct (decide _).
Qed.
End region_edges.

(** ** The plan *)
Definition region_ids (graph : GraphSpec) (sccs : list (list string)) : list string :=
  region_id <$> make_regions graph sccs.
Lemma lookup_region_ids graph sccs i :
  region_ids graph sccs !! i = (fun c => region_id (make_region graph i c)) <$> sccs !! i.
Proof. unfold region_ids, make_regions. rewrite list_lookup_fmap, list_lookup_imap. by destruct (sccs !! i). Qed.
Lemma length_region_ids graph sccs : length (region_ids graph sccs) = length sccs.
Proof. unfold region_ids, make_regions. by rewrite length_fmap, length_imap. Qed.
Lemma precedes_reverse {A} `{!Inhabited A} (l : list A) i j : j < i → i < length l → precedes (reverse l) (l !!! i) (l !!! j).
Proof.
  intros Hji Hi. assert (l !! j = Some (l !!! j)) as Hj by (apply list_lookup_lookup_total_lt; lia).
  exists (reverse (drop (S j) l)), (reverse (take j l)). split.
  - rewrite <- (take_drop_middle l j _ Hj) at 1. by rewrite reverse_app, reverse_cons, <- (assoc_L (++)).
  - rewrite elem_of_reverse. apply (list_elem_of_lookup_2 _ (i - S j)). rewrite lookup_drop.
    replace (S j + (i - S j)) with i by lia. by apply list_lookup_lookup_total_lt.
Qed.
(** In an order, [u] is listed before [v]. *)
Definition crosses_edge (graph : GraphSpec) (sccs : list (list string)) : EdgeSpec → string → string → Prop :=
  crosses (component_scc 0 sccs ∅) (region_ids graph sccs).

Section plan.
Context (graph : GraphSpec) (sccs : list (list string)) (C : condensation graph sccs).
Let ids := region_ids graph sccs.
Let scc_of := component_scc 0 sccs ∅.
Lemma scc_of_lookup k i : scc_of !! k = Some i ↔ ∃ c, sccs !! i = Some c ∧ k ∈ c.
Proof. apply component_scc_lookup, C. Qed.
Lemma scc_of_bound k i : scc_of !! k = Some i → i < length ids.
Proof. intros (c&Hc&_)%scc_of_lookup. unfold ids. rewrite length_region_ids. by eapply lookup_lt_Some. Qed.
(** An immediate edge between different components leads from a later one to an earlier one. *)
Lemma crossing_goes_back e i j : is_immediate e = true → e ∈ graph_edges graph → scc_of !! from_component e = Some i →
  scc_of !! to_component e = Some j → i ≠ j → j < i.
Proof.
  intros Hi He Hf Ht Hij. apply scc_of_lookup in Hf as (c&Hc&Hfc). pose proof Ht as (d&Hd&Htd)%scc_of_lookup.
  assert (∀ k x, x ∈ mjoin (take k sccs) → scc_of !! x = Some j → j < k) as Hk.
  { intros k x (b&Hx&Hb)%list_elem_of_join Hxj. apply list_elem_of_lookup_1 in Hb as [m Hm].
    apply lookup_take_Some in Hm as [Hm Hmk]. assert (scc_of !! x = Some m) as Hxm by (apply scc_of_lookup; eauto).
    rewrite Hxj in Hxm. injection Hxm as ->. done. }
  assert (sccs = take i sccs ++ c :: drop (S i) sccs) as Heq by (by rewrite take_drop_middle).
  assert (edge_in (immediate_edges graph) (from_component e) (to_component e)) as Hedge.
  { apply immediate_edges_spec. exists e. repeat (split; [done|]). split; apply (co_members _ _ C), list_elem_of_join;
      eexists; (split; [eassumption|by eapply list_elem_of_lookup_2]). }
  destruct (co_back _ _ C _ _ _ _ _ Heq Hfc Hedge) as [Hin|Hin]; [|by eapply Hk].
  assert (scc_of !! to_component e = Some i) as Hti by (apply scc_of_lookup; eauto). congruence.
Qed.

Context (Hids : NoDup ids).
Let E := region_edges graph sccs ids.
Lemma plan_edges : region_edges_inv scc_of ids (graph_edges graph) E.
Proof. apply (region_edges_fold scc_of ids Hids scc_of_bound _ []), region_edges_start; [exact Hids|apply scc_of_bound].
Qed.
Lemma successors_spec u v : v ∈ successors E u ↔ ∃ e, e ∈ graph_edges graph ∧ crosses scc_of ids e u v.
Proof. unfold successors. rewrite elem_of_set_items. apply (rei_out _ _ _ _ plan_edges). Qed.
Lemma crosses_ids e u v : crosses scc_of ids e u v → u ∈ ids ∧ v ∈ ids.
Proof.
  intros (_&i&j&Hi&Hj&_&<-&<-). split; [apply (list_elem_of_lookup_2 _ i)|apply (list_elem_of_lookup_2 _ j)];
    apply list_lookup_lookup_total_lt; by eapply scc_of_bound.
Qed.
Lemma plan_topological : topological (successors E) ids (reverse ids).
Proof.
  split; [apply reverse_Permutation|]. intros u v _ (e&He&Hi&i&j&Hf&Ht&Hij&<-&<-)%successors_spec.
  apply precedes_reverse; [by eapply crossing_goes_back|by eapply scc_of_bound].
Qed.
Lemma order_spec rank fuel : length ids <= fuel →
  ∃ order, region_loop rank fuel (outgoing E) (region_indegree E)
             (sort_ready rank (filter (fun id => map_at 0 (region_indegree E) id = 0) ids)) [] = Some order ∧
    topological (successors E) ids order ∧ greedy rank (successors E) ids order.
Proof.
  intros Hf.
  assert (∀ u v, u ∈ ids → v ∈ successors E u → v ∈ ids) as Hc.
  { intros u v _ (e&_&?%crosses_ids)%successors_spec. tauto. }
  destruct (region_loop_spec rank (outgoing E) ids Hids Hc fuel (region_indegree E)
    (sort_ready rank (filter (fun id => map_at 0 (region_indegree E) id = 0) ids)) []) as (order&ind&Ho&I&Hg).
  - apply kahn_start.
    + intros x _. rewrite (rei_indegree _ _ _ _ plan_edges), pending_edges_nil. done.
    + rewrite sort_ready_perm. by apply NoDup_filter.
    + intros x. rewrite sort_ready_perm, list_elem_of_filter. tauto.
  - apply sort_ready_sorted.
  - intros l1 r l2 Heq. by destruct l1.
  - simpl. lia.
  - exists order. split; [done|]. split; [|done]. destruct (kahn_end _ _ Hids Hc _ _ I) as [H1 H2].
    destruct (decide (length order = length ids)) as [|Hne]; [auto|]. destruct (H2 Hne). eexists. apply plan_topological.
Qed.
End plan.

Lemma region_ids_linked graph sccs E : region_id <$> (link_region E <$> make_regions graph sccs) = region_ids graph sccs.
Proof. unfold region_ids. rewrite <- list_fmap_compose. by apply list_fmap_ext. Qed.
Lemma compile_error_if_plan b e r : cr_plan (compile_error_if b e r) = cr_plan r.
Proof. by destruct b. Qed.
Lemma check_loop_components_plan known id cs listed owners r :
  cr_plan (snd (check_loop_components known id cs listed owners r)) = cr_plan r.
Proof.
  revert listed owners r. induction cs as [|c cs IH]; intros listed owners r; cbn [check_loop_components]; [done|].
  destruct (bool_decide (c ∉ known)); [rewrite IH; apply compile_error_if_plan|].
  destruct (owners !! c) as [owner|]; [destruct (str_eqb owner id)|]; rewrite IH; apply compile_error_if_plan.
Qed.
Lemma check_loops_plan known ls ids owners r : cr_plan (check_loops known ls ids owners r) = cr_plan r.
Proof.
  revert ids owners r. induction ls as [|l ls IH]; intros ids owners r; simpl; [done|].
  destruct (str_empty _); [by rewrite IH|].
  match goal with |- context [check_loop_components known ?i ?c ?s ?o ?x] =>
    pose proof (check_loop_components_plan known i c s o x) as H; destruct (check_loop_components known i c s o x) as [o' r'] end.
  rewrite IH. simpl in H. rewrite H. apply compile_error_if_plan.
Qed.
Lemma check_regions_plan graph sccs r : cr_plan (fold_left (fun r scc => check_region graph scc r) sccs r) = cr_plan r.
Proof.
  revert r. induction sccs as [|c sccs IH]; intros r; simpl; [done|]. rewrite IH. unfold check_region.
  destruct (matching_loop graph c); [by destruct (negb _)|by destruct (is_cyclic _ _)].
Qed.
Lemma check_matched_plan graph sccs r : cr_plan (check_matched graph sccs r) = cr_plan r.
Proof.
  unfold check_matched. revert r. induction (graph_composite_loops graph) as [|l ls IH]; intros r; simpl; [done|].
  rewrite IH. by destruct (bool_decide _).
Qed.

(** C3. For a graph whose region ids are distinct, and with fuel for its regions, compilation returns a plan.  The
    region order holds every region once; every immediate edge between two regions goes forwards in it; and each
    region comes with the highest priority among those whose predecessors are already ordered.  (Without distinct region ids the ordering need
    not come back, clashing_region_ids_diverge.) *)
Theorem compile_orders_regions graph fuel sccs :
  graph_sccs graph = Some sccs → NoDup (region_ids graph sccs) → length sccs <= fuel →
  ∃ r, compile_graph fuel graph = Some r ∧ let plan := cr_plan r in
    immediate_sccs plan = sccs ∧ region_order plan ≡ₚ region_ids graph sccs ∧
    (∀ e u v, e ∈ graph_edges graph → crosses_edge graph sccs e u v → precedes (region_order plan) u v) ∧
    ∃ succs, (∀ u v, v ∈ succs u ↔ ∃ e, e ∈ graph_edges graph ∧ crosses_edge graph sccs e u v) ∧
      greedy (region_priority_rank (component_priority graph) (plan_regions plan)) succs (region_ids graph sccs)
        (region_order plan).
Proof.
  intros Hs Hn Hf. destruct (graph_sccs_spec graph) as (sccs'&Hs'&C). rewrite Hs in Hs'. simplify_eq.
  unfold compile_graph. rewrite Hs. cbn [mbind option_bind].
  change (region_id <$> make_regions graph sccs') with (region_ids graph sccs').
  set (E := region_edges graph sccs' (region_ids graph sccs')). set (regions := link_region E <$> make_regions graph sccs').
  set (rank := region_priority_rank (component_priority graph) regions).
  destruct (order_spec graph sccs' C Hn rank fuel) as (order&Ho&[Hp Ht]&Hg); [by rewrite length_region_ids|].
  fold E in Ho, Ht, Hg. cbv zeta. rewrite Ho. cbn [mbind option_bind]. eexists. split; [done|].
  rewrite compile_error_if_plan, check_matched_plan, check_regions_plan, check_loops_plan. simpl. split; [done|]. split; [done|]. split.
  - intros e u v He Hx. apply Ht; [by apply (crosses_ids graph sccs' C) in Hx as [? _]|].
    apply (successors_spec graph sccs' C Hn). eauto.
  - exists (successors E). split; [|exact Hg]. apply (successors_spec graph sccs' C Hn).
Qed.

(** ** Composite loops are the cycles *)

(** [x] and [y] lie on one cycle of immediate edges. *)
Definition same_cycle (graph : GraphSpec) (x y : string) : Prop := tc (immediate graph) x y ∧ tc (immediate graph) y x.
(** The composite loops of the graph are its cycles, each declared once with exactly its components. *)
Record loops_exact (graph : GraphSpec) : Prop := {
  le_named : ∀ l, l ∈ graph_composite_loops graph → loop_id l ≠ EmptyString;
  le_unique : NoDup (loop_id <$> graph_composite_loops graph);
  le_components : ∀ l, l ∈ graph_composite_loops graph → loop_components l ≠ [] ∧ NoDup (loop_components l) ∧
    ∀ x, x ∈ loop_components l → ∀ y, y ∈ loop_components l ↔ same_cycle graph x y;
  le_cycles : ∀ x, same_cycle graph x x → ∃ l, l ∈ graph_composite_loops graph ∧ x ∈ loop_components l;
  le_disjoint : ∀ l1 l2 x, l1 ∈ graph_composite_loops graph → l2 ∈ graph_composite_loops graph →
    x ∈ loop_components l1 → x ∈ loop_components l2 → loop_id l1 = loop_id l2 }.

Lemma compile_error_if_ok b e r : cr_ok (compile_error_if b e r) = true ↔ cr_ok r = true ∧ b = false.
Proof. destruct b; simpl; naive_solver. Qed.

Section loop_checks.
Context (known : gset string).
Definition components_fit (id : string) (cs : list string) (listed : gset string) (owners : gmap string string) : Prop :=
  NoDup cs ∧ ∀ c, c ∈ cs → c ∉ listed ∧ c ∈ known ∧ ∀ o, owners !! c = Some o → o = id.
Lemma components_fit_cons id c cs listed owners :
  components_fit id (c :: cs) listed owners ↔
  c ∉ listed ∧ c ∈ known ∧ (∀ o, owners !! c = Some o → o = id) ∧ components_fit id cs ({[c]} ∪ listed) (<[c := id]> owners).
Proof.
  unfold components_fit. rewrite NoDup_cons. split.
  - intros [[Hc Hn] H]. destruct (H c) as (?&?&?); [left|]. do 3 (split; [done|]). split; [done|]. intros d Hd.
    destruct (H d) as (?&?&Ho); [by right|]. assert (d ≠ c) by (by intros ->).
    split; [set_solver|]. split; [done|]. rewrite lookup_insert_ne by done. done.
  - intros (H1&H2&H3&Hn&H). split; [split; [|done]|].
    + intros Hc. destruct (H c Hc) as (?&_). set_solver.
    + intros d [->|Hd]%elem_of_cons; [done|]. destruct (H d Hd) as (Hl&?&Ho).
      assert (d ≠ c) by set_solver. rewrite lookup_insert_ne in Ho by done. split; [set_solver|done].
Qed.
Lemma check_loop_components_ok id cs listed owners r :
  let '(owners', r') := check_loop_components known id cs listed owners r in
  (cr_ok r' = true ↔ cr_ok r = true ∧ components_fit id cs listed owners) ∧
  (cr_ok r' = true → owners' = fold_left (fun m c => <[c := id]> m) cs owners).
Proof.
  revert listed owners r. induction cs as [|c cs IH]; intros listed owners r; cbn [check_loop_components].
  - split; [|done]. unfold components_fit. split; [|by intros [? _]]. intros ?. split; [done|].
    split; [constructor|by intros ? ?%elem_of_nil].
  - pose proof (components_fit_cons id c cs listed owners) as Hcons. case_bool_decide as Hk.
    + match goal with |- context [check_loop_components known id cs ?l ?o ?x] =>
        specialize (IH l o x); destruct (check_loop_components known id cs l o x) as [o' r'] end.
      destruct IH as [IH _]. simpl in IH. split; [|rewrite IH; by intros [? _]]. rewrite IH, Hcons. naive_solver.
    + destruct (owners !! c) as [o|] eqn:Eo; [destruct (str_eqb o id) eqn:Eoi|];
        match goal with |- context [check_loop_components known id cs ?l ?ow ?x] =>
          specialize (IH l ow x); destruct (check_loop_components known id cs l ow x) as [o' r'] end;
        destruct IH as [IH1 IH2].
      * apply str_eqb_eq in Eoi as ->. split; [|exact IH2]. rewrite IH1, Hcons, compile_error_if_ok, bool_decide_eq_false. naive_solver.
      * assert (o ≠ id) by (intros ->; by rewrite str_eqb_refl in Eoi). simpl in IH1.
        split; [|rewrite IH1; by intros [? _]]. rewrite IH1, Hcons. naive_solver.
      * split; [|exact IH2]. rewrite IH1, Hcons, compile_error_if_ok, bool_decide_eq_false. naive_solver.
Qed.
Definition loops_fit (ls : list CompositeLoopSpec) (ids : gset string) (owners : gmap string string) : Prop :=
  (∀ l, l ∈ ls → loop_id l ≠ EmptyString ∧ loop_id l ∉ ids ∧ components_fit (loop_id l) (loop_components l) ∅ owners) ∧
  NoDup (loop_id <$> ls) ∧
  ∀ l1 l2 x, l1 ∈ ls → l2 ∈ ls → x ∈ loop_components l1 → x ∈ loop_components l2 → loop_id l1 = loop_id l2.
Lemma loops_fit_cons l ls ids owners :
  loops_fit (l :: ls) ids owners ↔
  loop_id l ≠ EmptyString ∧ loop_id l ∉ ids ∧ components_fit (loop_id l) (loop_components l) ∅ owners ∧
  loops_fit ls ({[loop_id l]} ∪ ids) (fold_left (fun m c => <[c := loop_id l]> m) (loop_components l) owners).
Proof.
  unfold loops_fit, components_fit. rewrite fmap_cons, NoDup_cons. split.
  - intros (H&[Hl Hn]&Hd). destruct (H l) as (?&?&?); [left|]. do 3 (split; [done|]). split; [|split; [done|]].
    + intros k Hk. destruct (H k) as (?&?&Hf&Hc); [by right|]. split; [done|].
      split; [|split; [done|]].
      * rewrite not_elem_of_union, not_elem_of_singleton. split; [|done]. intros Heq. apply Hl. rewrite <- Heq.
        by apply list_elem_of_fmap_2.
      * intros c Hcc. destruct (Hc c Hcc) as (?&?&Ho). split; [done|]. split; [done|]. intros o. rewrite fold_insert_all.
        destruct (decide _) as [Hcl|]; [|apply Ho]. intros [= <-]. by apply (Hd l k c); [left|right| |].
    + intros l1 l2 x ??. apply Hd; by right.
  - intros (Hne&Hi&Hf&H&Hn&Hd). split; [|split; [split; [|done]|]].
    + intros k [->|Hk]%elem_of_cons; [done|]. destruct (H k Hk) as (?&?&Hnk&Hc). split; [done|]. split; [set_solver|].
      split; [done|]. intros c Hcc. destruct (Hc c Hcc) as (?&?&Ho). split; [done|]. split; [done|]. intros o Hco.
      destruct (decide (c ∈ loop_components l)) as [Hcl|Hcl].
      * rewrite (proj2 (proj2 (proj2 Hf c Hcl)) o Hco). apply Ho. by rewrite fold_insert_all, decide_True.
      * apply Ho. by rewrite fold_insert_all, decide_False.
    + intros (k&Hk&Hkl)%list_elem_of_fmap. destruct (H k Hkl) as (_&Hi'&_). rewrite <- Hk in Hi'. set_solver.
    + assert (∀ k x, k ∈ ls → x ∈ loop_components k → x ∈ loop_components l → loop_id l = loop_id k) as Hx.
      { intros k x Hk Hxk Hxl. destruct (H k Hk) as (_&_&_&Hc). apply (Hc x Hxk). by rewrite fold_insert_all, decide_True. }
      intros l1 l2 x [->|H1]%elem_of_cons [->|H2]%elem_of_cons Hx1 Hx2; [done|by eapply Hx|symmetry; by eapply Hx|by eapply Hd].
Qed.
Lemma check_loops_ok ls ids owners r :
  cr_ok (check_loops known ls ids owners r) = true ↔ cr_ok r = true ∧ loops_fit ls ids owners.
Proof.
  revert ids owners r. induction ls as [|l ls IH]; intros ids owners r; cbn [check_loops].
  - split; [|by intros [? _]]. intros ?. split; [done|]. split; [by intros ? ?%elem_of_nil|]. split; [constructor|by intros ??? ?%elem_of_nil].
  - rewrite loops_fit_cons. destruct (str_empty (loop_id l)) eqn:Ee.
    + apply str_empty_true in Ee. rewrite IH. simpl. naive_solver.
    + assert (loop_id l ≠ EmptyString) by (intros H; by rewrite H in Ee).
      match goal with |- context [check_loop_components known ?i ?c ?s ?o ?x] =>
        pose proof (check_loop_components_ok i c s o x) as Hc; destruct (check_loop_components known i c s o x) as [o' r'] end.
      destruct Hc as [Hc1 Hc2]. rewrite IH. rewrite compile_error_if_ok, bool_decide_eq_false in Hc1. split.
      * intros [Hr Hf]. rewrite (Hc2 Hr) in Hf. apply Hc1 in Hr as [[??]?]. done.
      * intros (?&_&?&?&Hf). assert (cr_ok r' = true) as Hr by (by apply Hc1). rewrite (Hc2 Hr). done.
Qed.
End loop_checks.

Lemma same_component_set_spec l1 l2 : same_component_set l1 l2 = true ↔ l1 ≡ₚ l2.
Proof.
  unfold same_component_set. rewrite bool_decide_eq_true. split.
  - intros H. by rewrite <- (merge_sort_Permutation String.le l1), H, merge_sort_Permutation.
  - intros H. apply (StronglySorted_unique String.le); try apply (StronglySorted_merge_sort String.le).
    by rewrite !merge_sort_Permutation.
Qed.
Lemma matching_loop_Some graph scc l : matching_loop graph scc = Some l →
  l ∈ graph_composite_loops graph ∧ loop_components l ≡ₚ scc.
Proof.
  intros [H1 H2]%List.find_some. split; [by apply list_elem_of_In|]. by apply same_component_set_spec.
Qed.
Lemma matching_loop_exists graph scc l : l ∈ graph_composite_loops graph → loop_components l ≡ₚ scc →
  is_Some (matching_loop graph scc).
Proof.
  intros Hl Hp. destruct (matching_loop graph scc) eqn:E; [by eexists|]. exfalso.
  pose proof (List.find_none _ _ E l (proj1 (list_elem_of_In _ _) Hl)) as H. simpl in H.
  by rewrite (proj2 (same_component_set_spec _ _) Hp) in H.
Qed.
Lemma check_regions_ok graph sccs r :
  cr_ok (fold_left (fun r scc => check_region graph scc r) sccs r) = true ↔
  cr_ok r = true ∧ ∀ scc, scc ∈ sccs → (is_cyclic graph scc = true ↔ is_Some (matching_loop graph scc)).
Proof.
  revert r. induction sccs as [|c sccs IH]; intros r; simpl.
  - split; [|by intros [? _]]. intros ?. split; [done|by intros ? ?%elem_of_nil].
  - rewrite IH. assert (cr_ok (check_region graph c r) = true ↔
      cr_ok r = true ∧ (is_cyclic graph c = true ↔ is_Some (matching_loop graph c))) as ->.
    { unfold check_region. destruct (matching_loop graph c) as [l|]; rewrite compile_error_if_ok.
      - rewrite negb_false_iff. split; [intros [? ->]; split; [done|by split]|]. intros [? H]. split; [done|]. apply H. by eexists.
      - split; [intros [? ->]; split; [done|split; [done|by intros []]]|]. intros [? H]. split; [done|].
        destruct (is_cyclic graph c); [|done]. by destruct (proj1 H eq_refl). }
    setoid_rewrite elem_of_cons. split.
    + intros [[? Hc] Hs]. split; [done|]. intros d [->|?]; auto.
    + intros [? H]. split; [split; [done|]|]; intros; apply H; auto.
Qed.
Lemma check_matched_ok graph sccs r :
  cr_ok (check_matched graph sccs r) = true ↔
  cr_ok r = true ∧ ∀ l, l ∈ graph_composite_loops graph → loop_id l ∈ matched_loop_ids graph sccs.
Proof.
  unfold check_matched. revert r. induction (graph_composite_loops graph) as [|l ls IH]; intros r; simpl.
  - split; [|by intros [? _]]. intros ?. split; [done|by intros ? ?%elem_of_nil].
  - rewrite IH, compile_error_if_ok, bool_decide_eq_false. setoid_rewrite elem_of_cons. split.
    + intros [[? Hl] Hs]. split; [done|]. intros k [->|?]; [|auto]. by apply dec_stable in Hl.
    + intros [? H]. split; [split; [done|]|]; [intros Hn; apply Hn|]; intros; apply H; auto.
Qed.
Lemma elem_of_matched graph sccs id :
  id ∈ matched_loop_ids graph sccs ↔ ∃ scc l, scc ∈ sccs ∧ matching_loop graph scc = Some l ∧ loop_id l = id.
Proof.
  unfold matched_loop_ids. rewrite elem_of_list_to_set, list_elem_of_omap. split.
  - intros (scc&Hs&H). apply fmap_Some in H as (l&?&->). by exists scc, l.
  - intros (scc&l&?&Hm&<-). exists scc. split; [done|]. by rewrite Hm.
Qed.

Section cycles.
Context (graph : GraphSpec) (sccs : list (list string)) (C : condensation graph sccs).
Lemma reaches_immediate x y : reaches (immediate_edges graph) x y ↔ rtc (immediate graph) x y.
Proof.
  split; (induction 1 as [|x z y Hxz _ IH]; [apply rtc_refl|eapply rtc_l; [|exact IH]]); by apply immediate_edges_spec.
Qed.
Lemma scc_same x y scc : scc ∈ sccs → x ∈ scc → y ∈ scc ↔ rtc (immediate graph) x y ∧ rtc (immediate graph) y x.
Proof. intros Hs Hx. destruct (co_scc _ _ C scc Hs) as (_&_&H). rewrite (H x Hx y), !reaches_immediate. done. Qed.
Lemma same_cycle_scc x y scc : scc ∈ sccs → x ∈ scc → same_cycle graph x x → y ∈ scc ↔ same_cycle graph x y.
Proof.
  intros Hs Hx [Hc _]. rewrite (scc_same x y scc Hs Hx). split; [|intros []; split; by apply tc_rtc].
  intros [H1 H2]. split; [by eapply tc_rtc_r|by eapply tc_rtc_l].
Qed.
Lemma is_cyclic_spec scc x : scc ∈ sccs → x ∈ scc → is_cyclic graph scc = true ↔ same_cycle graph x x.
Proof.
  intros Hs Hx. assert (Hk : x ∈ component_ids graph) by (apply (co_members _ _ C), list_elem_of_join; eauto).
  assert (Hself : has_immediate_self_loop graph x = true ↔ immediate graph x x).
  { unfold has_immediate_self_loop, immediate. rewrite existsb_exists. split.
    - intros (e&He&[[Hi Hf]%andb_true_iff Ht]%andb_true_iff). apply list_elem_of_In in He. apply str_eqb_eq in Hf, Ht.
      by exists e.
    - intros (e&He&Hi&Hf&Ht&_). exists e. split; [by apply list_elem_of_In|]. by rewrite Hi, Hf, Ht, str_eqb_refl. }
  destruct scc as [|z [|w scc]]; [by apply elem_of_nil in Hx| |].
  - apply list_elem_of_singleton in Hx as ->. unfold is_cyclic. simpl. rewrite Hself. split.
    + intros H. by split; apply tc_once.
    + intros [H _]. inversion H as [|? y' ? Hxy Hyx]; subst; [done|].
      assert (y' ∈ [z]) as Hy'.
      { apply (scc_same z y' [z] Hs); [left|]. split; [by apply rtc_once|by apply tc_rtc]. }
      apply list_elem_of_singleton in Hy' as ->. done.
  - split; [intros _|done].
    assert (∃ y, y ∈ z :: w :: scc ∧ y ≠ x) as (y&Hy&Hne).
    { destruct (decide (z = x)) as [<-|]; [|exists z; split; [left|done]]. exists w. split; [right; left|].
      intros <-. pose proof (co_unique _ _ C) as Hu. apply list_elem_of_split in Hs as (c1&c2&->).
      rewrite join_app in Hu. apply NoDup_app in Hu as (_&_&Hu). cbn in Hu. apply NoDup_cons in Hu as [Hu _]. apply Hu. left. }
    apply (scc_same x y _ Hs Hx) in Hy as [H1 H2]. assert (tc (immediate graph) x x) as Ht; [|by split].
    apply rtc_inv in H1 as [->|(z'&H1&H1')]; [done|]. eapply tc_rtc_r; [by apply tc_once|]. by etrans.
Qed.
Lemma same_cycle_member x y : same_cycle graph x y → ∃ scc, scc ∈ sccs ∧ x ∈ scc.
Proof.
  intros [H _]. assert (x ∈ component_ids graph) as Hx by (destruct H as [? ? He|? ? ? He _]; by apply immediate_known in He as [? ?]).
  apply (co_members _ _ C), list_elem_of_join in Hx as (scc&?&?). eauto.
Qed.
Lemma same_cycle_refl x y : same_cycle graph x y → same_cycle graph x x.
Proof. intros [? ?]. split; by etrans. Qed.
Lemma scc_NoDup scc : scc ∈ sccs → NoDup scc.
Proof.
  intros Hs. pose proof (co_unique _ _ C) as Hu. apply list_elem_of_split in Hs as (c1&c2&->).
  rewrite join_app in Hu. apply NoDup_app in Hu as (_&_&Hu). by apply NoDup_app in Hu as [? _].
Qed.
Lemma scc_nonempty scc : scc ∈ sccs → ∃ x, x ∈ scc.
Proof. intros Hs. destruct (co_scc _ _ C scc Hs) as [Hne _]. destruct scc as [|x scc]; [done|]. exists x. left. Qed.

Lemma checks_exact :
  (loops_fit (known_components graph) (graph_composite_loops graph) ∅ ∅ ∧
   (∀ scc, scc ∈ sccs → (is_cyclic graph scc = true ↔ is_Some (matching_loop graph scc))) ∧
   (∀ l, l ∈ graph_composite_loops graph → loop_id l ∈ matched_loop_ids graph sccs)) ↔ loops_exact graph.
Proof.
  split.
  - intros ((Hl&Hn&Hd)&Hc&Hm).
    assert (Howned : ∀ l, l ∈ graph_composite_loops graph → ∃ scc, scc ∈ sccs ∧ loop_components l ≡ₚ scc).
    { intros l Hin. destruct (proj1 (elem_of_matched _ _ _) (Hm l Hin)) as (scc&l'&Hs&Hml&Hid).
      apply matching_loop_Some in Hml as [Hl' Hp]. exists scc. split; [done|].
      assert (l' = l) as ->; [|done].
      apply list_elem_of_lookup_1 in Hin as [i Hi], Hl' as [j Hj].
      assert (i = j) as ->; [|congruence]. eapply (NoDup_lookup (loop_id <$> graph_composite_loops graph)); [done| |];
        rewrite list_lookup_fmap; [by rewrite Hi|rewrite Hj; simpl; by rewrite Hid]. }
    split; try done; [intros; by apply Hl| |].
    + intros l Hin. destruct (Howned l Hin) as (scc&Hs&Hp). destruct (scc_nonempty scc Hs) as [x0 Hx0].
      split; [intros E; rewrite E, <- Hp in *; by apply elem_of_nil in Hx0|]. split; [by apply Hl|].
      intros x Hx y. rewrite Hp in Hx |- *. apply (same_cycle_scc x y scc Hs Hx).
      apply (is_cyclic_spec scc x Hs Hx). apply Hc; [done|]. by eapply matching_loop_exists.
    + intros x Hx. destruct (same_cycle_member _ _ Hx) as (scc&Hs&Hin).
      destruct (proj1 (Hc scc Hs) (proj2 (is_cyclic_spec scc x Hs Hin) Hx)) as [l Hml].
      apply matching_loop_Some in Hml as [Hll Hp]. exists l. split; [done|]. by rewrite Hp.
  - intros [H1 H2 H3 H4 H5].
    assert (Hown : ∀ l x scc, l ∈ graph_composite_loops graph → x ∈ loop_components l → scc ∈ sccs → x ∈ scc →
      loop_components l ≡ₚ scc).
    { intros l x scc Hl Hx Hs Hxs. destruct (H3 l Hl) as (_&Hnd&Hsame). apply NoDup_Permutation; [done|by apply scc_NoDup|].
      intros y. rewrite (Hsame x Hx y). symmetry. apply same_cycle_scc; [done..|]. by apply Hsame. }
    assert (Hcyc : ∀ l x, l ∈ graph_composite_loops graph → x ∈ loop_components l → same_cycle graph x x).
    { intros l x Hl Hx. by apply (proj2 (proj2 (H3 l Hl)) x Hx). }
    split; [|split].
    + split; [|split; [done|exact H5]]. intros l Hl. split; [auto|]. split; [set_solver|]. split; [by apply H3|].
      intros c Hc. split; [set_solver|]. split; [|by intros o; rewrite lookup_empty].
      apply elem_of_known, (co_members _ _ C), list_elem_of_join.
      destruct (same_cycle_member _ _ (Hcyc l c Hl Hc)) as (scc&?&?). eauto.
    + intros scc Hs. destruct (scc_nonempty scc Hs) as [x Hx]. rewrite (is_cyclic_spec scc x Hs Hx). split.
      * intros Hxx. destruct (H4 x Hxx) as (l&Hl&Hxl). eapply matching_loop_exists; [exact Hl|]. by eapply Hown.
      * intros [l Hml]. apply matching_loop_Some in Hml as [Hl Hp]. eapply Hcyc; [exact Hl|]. by rewrite Hp.
    + intros l Hl. destruct (loop_components l) as [|x cs] eqn:E; [by destruct (H3 l Hl)|].
      assert (x ∈ loop_components l) as Hx by (rewrite E; left).
      destruct (same_cycle_member _ _ (Hcyc l x Hl Hx)) as (scc&Hs&Hxs).
      destruct (matching_loop_exists graph scc l Hl) as [l' Hml]; [by eapply Hown|].
      apply elem_of_matched. exists scc, l'. split; [done|]. split; [done|].
      apply matching_loop_Some in Hml as [Hl' Hp]. apply (H5 l' l x); [done|done|by rewrite Hp|done].
Qed.
End cycles.

Lemma compile_accepts graph fuel sccs :
  graph_sccs graph = Some sccs → NoDup (region_ids graph sccs) → length sccs <= fuel →
  ∃ r, compile_graph fuel graph = Some r ∧ (cr_ok r = true ↔ loops_exact graph).
Proof.
  intros Hs Hn Hf. destruct (graph_sccs_spec graph) as (sccs'&Hs'&C). rewrite Hs in Hs'. simplify_eq.
  unfold compile_graph. rewrite Hs. cbn [mbind option_bind].
  change (region_id <$> make_regions graph sccs') with (region_ids graph sccs'). cbv zeta.
  destruct (order_spec graph sccs' C Hn (region_priority_rank (component_priority graph)
    (link_region (region_edges graph sccs' (region_ids graph sccs')) <$> make_regions graph sccs')) fuel)
    as (order&->&[Hp _]&_); [by rewrite length_region_ids|]. cbn [mbind option_bind]. eexists. split; [done|].
  rewrite (Permutation_length Hp), Nat.eqb_refl. rewrite compile_error_if_ok, check_matched_ok, check_regions_ok, check_loops_ok.
  rewrite <- (checks_exact graph sccs' C). simpl. naive_solver.
Qed.

(** C2. For a graph whose region ids are distinct, and with fuel for its regions, compilation returns, and accepts the graph exactly when its
    composite loops are its immediate cycles: each loop lists, without repetition, the components of one cycle, each cycle has a loop, and
    the loops are named and distinct.  (A graph whose region ids clash may satisfy that and not be accepted: its compilation need not come back,
    clashing_region_ids_diverge.) *)
Theorem compile_accepts_exact_loops graph fuel sccs :
  graph_sccs graph = Some sccs → NoDup (region_ids graph sccs) → length sccs <= fuel →
  ∃ r, compile_graph fuel graph = Some r ∧ (cr_ok r = true ↔ loops_exact graph).
Proof. apply compile_accepts. Qed.

(** ** Concrete graphs *)
Definition demo_component (id priority : string) : ComponentNodeSpec :=
  mkComponentNode id "t" [mkEventSource "" "manual" [] "" 0] default_trigger_policy
    (mkExecution "main" false priority 0 "fail_fast") [] kProcessing "" empty_config.
Definition demo_immediate (id from to : string) : EdgeSpec :=
  mkEdge id (from +:+ ".out") (to +:+ ".in") kImmediate true "" default_edge_policy.
Definition demo_loop (id : string) (components : list string) : CompositeLoopSpec :=
  mkCompositeLoop id components (mkLoopPolicy "fixed_point" 0 1 0 "" 0 "" None "").
Definition demo_graph (components : list (string * string)) (edges : list (string * string)) (loops : list CompositeLoopSpec)
    : GraphSpec :=
  mkGraph 1 "demo" "internal_test" (mkClockPolicy "steady" "steady") empty_config
    [mkLane "main" "event_loop" (QArith_base.Qmake 0 1) "" 0 0 0 "reject" false 0 0 "drop_tick" "" [] 0 "none" 0 "none"]
    ((fun p => demo_component p.1 p.2) <$> components)
    ((fun p => demo_immediate (p.1 +:+ ">" +:+ p.2) p.1 p.2) <$> edges) loops [].
(** A source feeds a loop of two solvers and a high-priority logger. *)
Definition loop_graph : GraphSpec :=
  demo_graph [("source", "normal"); ("left", "normal"); ("right", "low"); ("log", "high")]
    [("source", "left"); ("left", "right"); ("right", "left"); ("source", "log")] [demo_loop "solver" ["right"; "left"]].
Definition loop_sccs : list (list string) := [["left"; "right"]; ["log"]; ["source"]].

Lemma compile_orders_regions_witness :
  graph_sccs loop_graph = Some loop_sccs ∧ NoDup (region_ids loop_graph loop_sccs) ∧
  ∃ r, compile_graph 3 loop_graph = Some r ∧ region_order (cr_plan r) ≡ₚ region_ids loop_graph loop_sccs.
Proof.
  assert (graph_sccs loop_graph = Some loop_sccs) as Hs by (vm_compute; reflexivity).
  assert (NoDup (region_ids loop_graph loop_sccs)) as Hn by (apply (bool_decide_unpack _); vm_compute; exact I).
  split; [exact Hs|]. split; [exact Hn|].
  destruct (compile_orders_regions loop_graph 3 loop_sccs Hs Hn) as (r&Hr&_&Hp&_); [simpl; lia|]. exists r. split; [exact Hr|exact Hp].
Defined.
Lemma compile_accepts_exact_loops_witness :
  graph_sccs loop_graph = Some loop_sccs ∧ loops_exact loop_graph ∧
  ∃ r, compile_graph 3 loop_graph = Some r ∧ (cr_ok r = true ↔ loops_exact loop_graph).
Proof.
  assert (graph_sccs loop_graph = Some loop_sccs) as Hs by (vm_compute; reflexivity).
  assert (NoDup (region_ids loop_graph loop_sccs)) as Hn by (apply (bool_decide_unpack _); vm_compute; exact I).
  split; [exact Hs|]. destruct (compile_accepts_exact_loops loop_graph 3 loop_sccs Hs Hn) as (r&Hr&Ho); [simpl; lia|].
  split; [|exists r; split; [exact Hr|exact Ho]]. apply Ho.
  assert (Some (cr_ok r) = Some true) as [= ->]; [|reflexivity].
  change (Some (cr_ok r)) with (cr_ok <$> Some r). rewrite <- Hr. vm_compute. reflexivity.
Defined.

(** A composite loop may carry the id of a component outside it, so two regions may share one id. *)
Definition clash_graph : GraphSpec :=
  demo_graph [("x", "normal"); ("a", "normal"); ("b", "normal"); ("y", "normal"); ("p", "normal"); ("q", "normal"); ("z", "normal")]
    [("a", "b"); ("b", "a"); ("p", "q"); ("q", "p"); ("x", "y"); ("z", "y"); ("p", "z")]
    [demo_loop "x" ["a"; "b"]; demo_loop "y" ["p"; "q"]].
Definition clash_sccs : list (list string) := [["y"]; ["x"]; ["a"; "b"]; ["z"]; ["p"; "q"]].
Definition clash_out : gmap string (gset string) :=
  Eval vm_compute in outgoing (region_edges clash_graph clash_sccs (region_ids clash_graph clash_sccs)).
Definition clash_indegree (x y z : nat) : gmap string nat := <["x" := x]> (<["y" := y]> (<["z" := z]> ∅)).
Lemma clash_step rank fuel id rest x y z x' y' z' ready order :
  release_regions rank (set_items (map_at ∅ clash_out id)) (clash_indegree x y z) rest = (clash_indegree x' y' z', ready) →
  region_loop rank (S fuel) clash_out (clash_indegree x y z) (id :: rest) order =
  region_loop rank fuel clash_out (clash_indegree x' y' z') ready (order ++ [id]).
Proof. intros H. cbn [region_loop]. by rewrite H. Qed.
Lemma clash_cycles rank fuel order :
  region_loop rank fuel clash_out (clash_indegree 0 0 0) ["y"] order = None ∧
  region_loop rank fuel clash_out (clash_indegree 0 0 0) ["z"] order = None.
Proof.
  revert order. induction fuel as [|fuel IH]; intros order; [done|]. split.
  - rewrite (clash_step _ _ _ _ _ _ _ 0 0 0 ["z"]) by (vm_compute; reflexivity). apply IH.
  - rewrite (clash_step _ _ _ _ _ _ _ 0 0 0 ["y"]) by (vm_compute; reflexivity). apply IH.
Qed.

(** The id of a composite loop is not compared with the ids of components outside it.  When two such ids clash, two
    regions share an id and their edges are merged, and the ordering loop of the compiler may run for ever: here is a
    graph with distinct component ids, distinct loop ids and acyclic condensation on which no fuel is enough. *)
Theorem clashing_region_ids_diverge :
  NoDup (comp_id <$> graph_components clash_graph) ∧ NoDup (loop_id <$> graph_composite_loops clash_graph) ∧
  graph_sccs clash_graph = Some clash_sccs ∧ ¬ NoDup (region_ids clash_graph clash_sccs) ∧
  ∀ fuel, compile_graph fuel clash_graph = None.
Proof.
  split; [apply (bool_decide_unpack _); vm_compute; exact I|]. split; [apply (bool_decide_unpack _); vm_compute; exact I|].
  assert (graph_sccs clash_graph = Some clash_sccs) as Hs by (vm_compute; reflexivity). split; [exact Hs|].
  split; [apply (bool_decide_unpack _); vm_compute; exact I|].
  intros fuel. unfold compile_graph. rewrite Hs. cbn [mbind option_bind]. cbv zeta.
  set (rank := region_priority_rank _ _).
  assert (outgoing (region_edges clash_graph clash_sccs (region_id <$> make_regions clash_graph clash_sccs)) = clash_out) as ->
    by (vm_compute; reflexivity).
  assert (region_indegree (region_edges clash_graph clash_sccs (region_id <$> make_regions clash_graph clash_sccs)) =
    clash_indegree 0 2 1) as -> by (vm_compute; reflexivity).
  assert (filter (fun id => map_at 0 (clash_indegree 0 2 1) id = 0) (region_id <$> make_regions clash_graph clash_sccs) =
    ["x"; "x"]) as -> by (vm_compute; reflexivity).
  assert (sort_ready rank ["x"; "x"] = ["x"; "x"]) as ->.
  { unfold sort_ready. simpl. by rewrite Nat.ltb_irrefl. }
  destruct fuel as [|[|fuel]]; [done| |].
  - by rewrite (clash_step _ _ _ _ _ _ _ 0 1 1 ["x"]) by (vm_compute; reflexivity).
  - rewrite (clash_step _ _ _ _ _ _ _ 0 1 1 ["x"]) by (vm_compute; reflexivity).
    rewrite (clash_step _ _ _ _ _ _ _ 0 0 1 ["y"]) by (vm_compute; reflexivity).
    destruct fuel as [|fuel]; [done|]. rewrite (clash_step _ _ _ _ _ _ _ 0 0 0 ["z"]) by (vm_compute; reflexivity).
    by rewrite (proj2 (clash_cycles rank fuel _)).
Qed.
