(* ===== verification/Channel.v ===== *)
(** * Channel: one bounded channel of the runtime bus

    Models the private per-channel operations of [RuntimeChannelBus] in [src/channel.cpp] and the channel types of
    [include/topoexec/runtime/channel.hpp].  Every operation here runs with the bus mutex held.  It takes the sink
    pointer ([health_events_]) and the steady-clock reading it makes (nanoseconds), and returns the new state and
    the health events it appended to [pending_health_events_].  [message_age_ms] and [delivery_latency_ms] are
    doubles computed from a nanosecond count; the model keeps the count. *)

From S2P Require Export Payload Health.
From Stdlib Require Import Ascii.
Local Open Scope nat_scope.

(** ** Data *)
Record InvocationMetadata := mkMetadata {
  md_correlation_id : string; md_causation_id : string; md_epoch_id : nat; md_transaction_id : string;
  md_source_component : string; md_source_port : string; md_trigger_kind : string }.
#[export] Instance eta_InvocationMetadata : Eta InvocationMetadata := fun m =>
  mkMetadata (md_correlation_id m) (md_causation_id m) (md_epoch_id m) (md_transaction_id m)
    (md_source_component m) (md_source_port m) (md_trigger_kind m).
Definition empty_metadata : InvocationMetadata := mkMetadata "" "" 0 "" "" "" "".

Record RuntimeChannelPublishResult := mkResult { accepted : bool; reason : string }.
Definition accept : RuntimeChannelPublishResult := mkResult true "".
Definition reject (why : string) : RuntimeChannelPublishResult := mkResult false why.

Inductive ChannelType := kLatestOnly | kEveryMessage | kLatchedSnapshot | kPreviousTick | kBarrier.
#[export] Instance ChannelType_eq_dec : EqDecision ChannelType.
Proof. solve_decision. Defined.
Inductive DropPolicy := kOverwrite | kDropOldest | kDropNewest | kBlockProducer | kFailFast.
#[export] Instance DropPolicy_eq_dec : EqDecision DropPolicy.
Proof. solve_decision. Defined.
Inductive CopyPolicy := kCopy | kSharedView | kLoanedView | kMoveOnly.
#[export] Instance CopyPolicy_eq_dec : EqDecision CopyPolicy.
Proof. solve_decision. Defined.

Record ChannelConfig := mkChannelConfig {
  cc_id : string; cc_type : ChannelType; cc_capacity : nat; cc_drop_policy : DropPolicy;
  cc_emit_health_events : bool; cc_lifespan : Z; cc_deadline : Z; cc_timestamp_domain : TimestampDomain;
  cc_copy_policy : CopyPolicy; cc_readers : string }.

Record RuntimeChannelMessage := mkMessage {
  msg_channel_id : string; msg_payload : RuntimePayloadPtr; msg_published_at : Z; msg_received_at : Z;
  msg_sequence : nat; msg_deadline_missed : bool; msg_event_timestamp : option EventTimestamp;
  msg_metadata : InvocationMetadata }.
#[export] Instance eta_RuntimeChannelMessage : Eta RuntimeChannelMessage := fun m =>
  mkMessage (msg_channel_id m) (msg_payload m) (msg_published_at m) (msg_received_at m) (msg_sequence m)
    (msg_deadline_missed m) (msg_event_timestamp m) (msg_metadata m).

Record RuntimeChannelMetrics := mkChannelMetrics {
  cm_channel_id : string; published_count : nat; delivered_count : nat; drop_count : nat;
  deadline_miss_count : nat; stale_drop_count : nat; reject_count : nat; overwrite_count : nat;
  health_event_count : nat; payload_copy_count : nat; copy_fallback_count : nat; message_age_ns : Z;
  delivery_latency_ns : Z; depth : nat; max_depth : nat; degradation_reason : string }.
#[export] Instance eta_RuntimeChannelMetrics : Eta RuntimeChannelMetrics := fun m =>
  mkChannelMetrics (cm_channel_id m) (published_count m) (delivered_count m) (drop_count m)
    (deadline_miss_count m) (stale_drop_count m) (reject_count m) (overwrite_count m) (health_event_count m)
    (payload_copy_count m) (copy_fallback_count m) (message_age_ns m) (delivery_latency_ns m) (depth m)
    (max_depth m) (degradation_reason m).
Definition empty_channel_metrics (id : string) : RuntimeChannelMetrics :=
  mkChannelMetrics id 0 0 0 0 0 0 0 0 0 0 0 0 0 0 "".

Record ChannelState := mkChannel {
  config : ChannelConfig; from : string; to : string; next_sequence : nat;
  latest : option RuntimeChannelMessage; pending_previous_tick : option RuntimeChannelMessage;
  queue : list RuntimeChannelMessage; delivered_latest_sequences : gmap string nat;
  delivered_queue_sequences : gmap string nat; metrics : RuntimeChannelMetrics; high_watermark_reported : bool }.
#[export] Instance eta_ChannelState : Eta ChannelState := fun s =>
  mkChannel (config s) (from s) (to s) (next_sequence s) (latest s) (pending_previous_tick s) (queue s)
    (delivered_latest_sequences s) (delivered_queue_sequences s) (metrics s) (high_watermark_reported s).

(** A health event waiting to be emitted once the lock is released: the sink captured with it, and the event. *)
Record PendingChannelHealthEvent := mkPending { pe_sink : nat; pe_event : HealthEvent }.

(** ** Policies parsed from strings *)
Definition channel_type_from_policy (p : EdgePolicySpec) : ChannelType :=
  if str_eqb (policy_mode p) "latest" then kLatestOnly else
  if str_eqb (policy_mode p) "latched" then kLatchedSnapshot else
  if str_eqb (policy_mode p) "previous_tick" then kPreviousTick else
  if str_eqb (policy_mode p) "barrier" then kBarrier else kEveryMessage.
Definition drop_policy_from_string (value : string) : DropPolicy :=
  if str_eqb value "overwrite" then kOverwrite else
  if str_eqb value "drop_oldest" then kDropOldest else
  if str_eqb value "drop_newest" then kDropNewest else
  if str_eqb value "block" then kBlockProducer else
  if str_eqb value "fail_fast" || str_eqb value "reject" then kFailFast else kFailFast.
Definition drop_policy_name (policy : DropPolicy) : string :=
  match policy with
  | kOverwrite => "overwrite" | kDropOldest => "drop_oldest" | kDropNewest => "drop_newest"
  | kBlockProducer => "block" | kFailFast => "fail_fast"
  end.
Definition copy_policy_from_string (value : string) : CopyPolicy :=
  if str_eqb value "shared_view" then kSharedView else
  if str_eqb value "loaned_view" then kLoanedView else
  if str_eqb value "move_only" then kMoveOnly else kCopy.
Definition timestamp_domain_from_string (value : string) : TimestampDomain :=
  default kSteady (parse_timestamp_domain_value value).
Definition is_latest_style (type : ChannelType) : bool :=
  match type with kLatestOnly | kLatchedSnapshot | kPreviousTick => true | _ => false end.
Definition is_multi_reader (readers : string) : bool := str_eqb readers "multi" || str_eqb readers "multiple".

(** ** Metadata *)
Definition metadata_id (channel_id : string) (sequence : nat) : string :=
  channel_id +:+ "#" +:+ to_string_nat sequence.
Definition metadata_for_source_endpoint (metadata : InvocationMetadata) (source_endpoint : string)
  : InvocationMetadata :=
  let metadata := if str_empty (md_source_component metadata)
    then metadata <| md_source_component := component_id_from_endpoint source_endpoint |> else metadata in
  if str_empty (md_source_port metadata)
  then metadata <| md_source_port := port_name_from_endpoint source_endpoint |> else metadata.
Definition finalize_message_metadata (metadata : InvocationMetadata) (channel_id : string) (sequence : nat)
    (source_endpoint : string) : InvocationMetadata :=
  let metadata := metadata_for_source_endpoint metadata source_endpoint in
  let id := metadata_id channel_id sequence in
  let metadata := if str_empty (md_correlation_id metadata)
    then metadata <| md_correlation_id := id |> else metadata in
  let metadata := metadata <| md_causation_id := id |> in
  if str_empty (md_transaction_id metadata)
  then metadata <| md_transaction_id := md_correlation_id metadata |> else metadata.
Definition metadata_trace_attributes (attributes : gmap string string) (m : InvocationMetadata)
  : gmap string string :=
  let put (name value : string) (a : gmap string string) := if str_empty value then a else <[name := value]> a in
  let a := put "correlation_id" (md_correlation_id m) attributes in
  let a := put "causation_id" (md_causation_id m) a in
  let a := if md_epoch_id m =? 0 then a else <["epoch_id" := to_string_nat (md_epoch_id m)]> a in
  let a := put "transaction_id" (md_transaction_id m) a in
  let a := put "source_component" (md_source_component m) a in
  let a := put "source_port" (md_source_port m) a in
  put "trigger_kind" (md_trigger_kind m) a.

(** ** Reader de-duplication maps *)
Definition kMaxTrackedReaders : nat := 4096.
Definition prune_latest_dedup (delivered : gmap string nat) (latest_sequence : nat) : gmap string nat :=
  filter (fun kv => kv.2 = latest_sequence) delivered.
Definition prune_queue_dedup (delivered : gmap string nat) (min_retained_sequence : nat) : gmap string nat :=
  filter (fun kv => ¬ (min_retained_sequence = 0 ∨ kv.2 < min_retained_sequence)) delivered.
(** [while (size > kMax) erase(begin())]: the smallest reader ids go first. *)
Definition enforce_reader_cap (delivered : gmap string nat) : gmap string nat :=
  foldr delete delivered (take (size delivered - kMaxTrackedReaders) (map_keys delivered)).

(** ** Health events of a channel *)
Definition emit_channel_health_event (sink : option nat) (state : ChannelState) (kind : HealthEventKind)
    (sequence depth : nat) (reason : string) (attributes : gmap string string) : list PendingChannelHealthEvent :=
  match sink with
  | Some s =>
      if negb (cc_emit_health_events (config state)) then [] else
      [mkPending s (mkHealthEvent kind "channel" "" "" (cc_id (config state)) (cc_id (config state))
         (drop_policy_name (cc_drop_policy (config state))) reason sequence depth (cc_capacity (config state)) 1
         (<["to" := to state]> (<["from" := from state]> attributes)) 0)]
  | None => []
  end.

Definition bool_nat (b : bool) : nat := if b then 1 else 0.
Definition has_value {A} (o : option A) : bool := match o with Some _ => true | None => false end.
(** [state.latest.has_value() ? 1u : 0u]. *)
Definition latest_depth (state : ChannelState) : nat := bool_nat (has_value (latest state)).

(** [std::to_string(double)] of a non-negative millisecond value held as nanoseconds: six decimals. *)
Definition double_ms_to_string (ns : Z) : string :=
  let frac := to_string_Z (ns mod 1000000) in
  let zeros := foldr (fun _ s => String "0"%char s) "" (seq 0 (6 - String.length frac)) in
  to_string_Z (ns / 1000000) +:+ "." +:+ zeros +:+ frac.

Definition message_expired (state : ChannelState) (message : RuntimeChannelMessage) (now : Z) : bool :=
  (0 <? cc_lifespan (config state))%Z && (ms (cc_lifespan (config state)) <? now - msg_published_at message)%Z.

(** [++drop_count; ++reject_count; ...] of a rejected publication. *)
Definition count_health (m : RuntimeChannelMetrics) : RuntimeChannelMetrics := m <| health_event_count ::= S |>.
Definition count_reject (m : RuntimeChannelMetrics) : RuntimeChannelMetrics := m <| reject_count ::= S |>.
Definition count_drop (m : RuntimeChannelMetrics) : RuntimeChannelMetrics := m <| drop_count ::= S |>.
Definition count_overwrite (m : RuntimeChannelMetrics) : RuntimeChannelMetrics := m <| overwrite_count ::= S |>.

Definition mark_stale_drop (sink : option nat) (state : ChannelState) (message : RuntimeChannelMessage)
  : ChannelState * list PendingChannelHealthEvent :=
  let state := state <| metrics ::= fun m =>
    count_health (count_drop m) <| stale_drop_count ::= S |> <| degradation_reason := "stale message expired" |> |> in
  (state, emit_channel_health_event sink state kChannelStaleDrop (msg_sequence message) (depth (metrics state))
            "stale message expired" {["lifespan_ms" := to_string_Z (cc_lifespan (config state))]}).

Definition mark_delivery_metrics (sink : option nat) (now : Z) (state : ChannelState) (message : RuntimeChannelMessage)
  : ChannelState * list PendingChannelHealthEvent * RuntimeChannelMessage :=
  let age := (now - msg_published_at message)%Z in
  let state := state <| metrics ::= fun m =>
    m <| message_age_ns := age |> <| delivery_latency_ns := (now - msg_received_at message)%Z |> |> in
  if ((0 <? cc_deadline (config state)) && (ms (cc_deadline (config state)) <? age))%Z then
    let state := state <| metrics ::= fun m =>
      count_health m <| deadline_miss_count ::= S |> <| degradation_reason := "deadline missed" |> |> in
    (state,
     emit_channel_health_event sink state kChannelDeadlineMiss (msg_sequence message) (depth (metrics state))
       "deadline missed"
       (<["deadline_ms" := to_string_Z (cc_deadline (config state))]>
          {["age_ms" := double_ms_to_string (message_age_ns (metrics state))]}),
     message <| msg_deadline_missed := true |>)
  else (state, [], message).

(** ** Publishing *)
Definition large_payload_copy_reason (p : RuntimePayload) : string :=
  if negb (is_large_payload p) then ""
  else "cannot copy large payload schema " +:+ payload_schema p +:+ "; use shared_view or loaned_view".

Definition note_copy_fallback (why : string) (m : RuntimeChannelMetrics) : RuntimeChannelMetrics :=
  m <| copy_fallback_count ::= S |> <| degradation_reason := why |>.

(** The payload a channel stores and whether it was copied; [None] in the outer option is the exception that
    [copy_text_payload] would throw. *)
Definition prepare_payload_for_state (state : ChannelState) (source : RuntimePayload)
  : option (ChannelState * (RuntimeChannelPublishResult + (RuntimePayloadPtr * bool))) :=
  if bool_decide (cc_copy_policy (config state) = kCopy) then
    let why := large_payload_copy_reason source in
    if negb (str_empty why)
    then Some (state <| metrics ::= note_copy_fallback why |>, inl (reject why))
    else match copy_text_payload source with
         | inl _ => None
         | inr copy => Some (state, inr (make_shared_payload copy, true))
         end
  else Some (state, inr (Some source, false)).

Definition preflight_payload_for_state (state : ChannelState) (payload : RuntimePayload)
  : ChannelState * RuntimeChannelPublishResult :=
  if bool_decide (cc_copy_policy (config state) ≠ kCopy) then (state, accept) else
  let why := large_payload_copy_reason payload in
  if negb (str_empty why) then (state <| metrics ::= note_copy_fallback why |>, reject why) else (state, accept).

(** The three rejecting overflow branches, shared verbatim by [preflight_publish_to_state] and
    [publish_to_state]; [None] when the drop policy admits the message by evicting. *)
Definition overflow_rejection (sink : option nat) (state : ChannelState) (sequence : nat)
  : option (ChannelState * list PendingChannelHealthEvent * RuntimeChannelPublishResult) :=
  let refuse (count : RuntimeChannelMetrics -> RuntimeChannelMetrics) why :=
    let state := state <| metrics ::= fun m => count_health (count m) |> in
    Some (state, emit_channel_health_event sink state kChannelOverflow sequence (length (queue state)) why ∅,
          reject why) in
  match cc_drop_policy (config state) with
  | kDropNewest => refuse (fun m => count_reject (count_drop m)) "dropped newest payload"
  | kBlockProducer => refuse count_reject "would block producer"
  | kFailFast => refuse (fun m => count_reject (count_drop m)) "channel capacity exceeded"
  | kOverwrite | kDropOldest => None
  end.

Definition preflight_publish_to_state (sink : option nat) (state : ChannelState) (planned_publications : nat)
  : ChannelState * list PendingChannelHealthEvent * RuntimeChannelPublishResult :=
  if is_latest_style (cc_type (config state)) ||
     (length (queue state) + planned_publications <? cc_capacity (config state))
  then (state, [], accept)
  else match overflow_rejection sink state (next_sequence state) with
       | Some r => r
       | None => (state, [], accept)
       end.

Definition maybe_emit_high_watermark (sink : option nat) (state : ChannelState) (message : RuntimeChannelMessage)
  : ChannelState * list PendingChannelHealthEvent :=
  if high_watermark_reported state || is_latest_style (cc_type (config state)) || (cc_capacity (config state) =? 0)
     || (depth (metrics state) <? cc_capacity (config state))
  then (state, [])
  else let state := state <| high_watermark_reported := true |> in
       (state, emit_channel_health_event sink state kBackpressureHighWatermark (msg_sequence message)
                 (depth (metrics state)) "channel depth reached capacity" ∅).
Definition maybe_rearm_high_watermark (state : ChannelState) : ChannelState :=
  if depth (metrics state) <? cc_capacity (config state) then state <| high_watermark_reported := false |> else state.

(** [while (queue.size() > capacity) { pop_front(); ... }] over the queue [q]. *)
Fixpoint drop_excess (sink : option nat) (sequence : nat) (q : list RuntimeChannelMessage) (state : ChannelState)
  : ChannelState * list PendingChannelHealthEvent :=
  match q with
  | [] => (state <| queue := [] |>, [])
  | _ :: rest =>
      if cc_capacity (config state) <? length q then
        let state := state <| queue := rest |> <| metrics ::= fun m => count_health (count_overwrite m) |> in
        let ev := emit_channel_health_event sink state kChannelOverflow sequence (length rest)
                    "oldest queued payload dropped" ∅ in
        let '(state, evs) := drop_excess sink sequence rest state in (state, ev ++ evs)
      else (state <| queue := q |>, [])
  end.

Definition set_depth (d : nat) (state : ChannelState) : ChannelState :=
  state <| metrics ::= fun m => m <| depth := d |> <| max_depth := Nat.max (max_depth m) d |> |>.

(** The lambda [accept_message] of [publish_to_state]; the boolean says whether [update_sequence_] moved. *)
Definition accept_message (sink : option nat) (state : ChannelState) (message : RuntimeChannelMessage)
  : ChannelState * list PendingChannelHealthEvent * bool :=
  if bool_decide (cc_type (config state) = kPreviousTick) then
    let '(state, ev) :=
      if has_value (pending_previous_tick state) then
        let state := state <| metrics ::= fun m => count_health (count_overwrite m) |> in
        (state, emit_channel_health_event sink state kChannelOverflow (msg_sequence message) (latest_depth state + 1)
                  "previous tick pending value overwritten" ∅)
      else (state, []) in
    let state := state <| pending_previous_tick := Some message |>
                       <| metrics ::= fun m => m <| published_count ::= S |> |> in
    (set_depth (latest_depth state + 1) state, ev, false)
  else
    let state := state <| latest := Some message |> in
    let '(state, ev) :=
      if is_latest_style (cc_type (config state)) then
        let '(state, ev) :=
          if bool_decide (cc_type (config state) = kLatestOnly) && (0 <? depth (metrics state)) then
            let state := state <| metrics ::= fun m => count_health (count_overwrite m) |> in
            (state, emit_channel_health_event sink state kChannelOverflow (msg_sequence message) 1
                      "latest value overwritten" ∅)
          else (state, []) in
        (state <| queue := [] |>, ev)
      else drop_excess sink (msg_sequence message) (queue state ++ [message]) state in
    let state := state <| metrics ::= fun m => m <| published_count ::= S |> |> in
    let state := set_depth (if is_latest_style (cc_type (config state)) then latest_depth state
                            else length (queue state)) state in
    let '(state, ev') := maybe_emit_high_watermark sink state message in
    (state, ev ++ ev', true).

Definition publish_to_state (sink : option nat) (now : Z) (state : ChannelState) (payload : RuntimePayloadPtr)
    (event_timestamp : option EventTimestamp) (payload_was_copied : bool) (metadata : InvocationMetadata)
  : ChannelState * list PendingChannelHealthEvent * bool * RuntimeChannelPublishResult :=
  let sequence := next_sequence state in
  let message := mkMessage (cc_id (config state)) payload now now sequence false event_timestamp
    (finalize_message_metadata metadata (cc_id (config state)) sequence (from state)) in
  let state := state <| next_sequence := S sequence |> in
  let state := if payload_was_copied
    then state <| metrics ::= fun m => m <| payload_copy_count ::= S |> |> else state in
  let store_it := let '(state, ev, updated) := accept_message sink state message in (state, ev, updated, accept) in
  if negb (is_latest_style (cc_type (config state))) && (cc_capacity (config state) <=? length (queue state)) then
    match overflow_rejection sink state sequence with
    | Some (state, ev, r) => (state, ev, false, r)
    | None => store_it
    end
  else store_it.

(** ** Consuming *)
Definition consume_latest_from_state (sink : option nat) (now : Z) (state : ChannelState) (reader_id : string)
  : ChannelState * list PendingChannelHealthEvent * option RuntimeChannelMessage :=
  match latest state with
  | None => (state, [], None)
  | Some current =>
      if message_expired state current now then
        let '(state, ev) := mark_stale_drop sink (state <| latest := None |>) current in
        (state <| metrics ::= fun m => m <| depth := 0 |> |>, ev, None)
      else if bool_decide (delivered_latest_sequences state !! reader_id = Some (msg_sequence current))
      then (state, [], None)
      else
        let delivered := <[reader_id := msg_sequence current]> (delivered_latest_sequences state) in
        let delivered := if kMaxTrackedReaders <? size delivered
          then enforce_reader_cap (prune_latest_dedup delivered (msg_sequence current)) else delivered in
        let state := state <| delivered_latest_sequences := delivered |>
                           <| metrics ::= fun m => m <| delivered_count ::= S |> |> in
        let '(state, ev, message) := mark_delivery_metrics sink now state current in
        (state, ev, Some message)
  end.

(** The accumulators of the loop over the queue. *)
Record Drain := mkDrain {
  dr_state : ChannelState; dr_events : list PendingChannelHealthEvent;
  dr_messages : list RuntimeChannelMessage; dr_retained : list RuntimeChannelMessage }.

(** [max_batch != 0u && messages.size() >= max_batch]. *)
Definition batch_full (max_batch : nat) (messages : list RuntimeChannelMessage) : bool :=
  negb (max_batch =? 0) && (max_batch <=? length messages).

Definition consume_step (sink : option nat) (now : Z) (reader_id : string) (multi_reader : bool)
    (last_delivered max_batch : nat) (d : Drain) (message : RuntimeChannelMessage) : Drain :=
  if message_expired (dr_state d) message now then
    let '(state, ev) := mark_stale_drop sink (dr_state d) message in
    mkDrain state (dr_events d ++ ev) (dr_messages d) (dr_retained d)
  else if (multi_reader && (msg_sequence message <=? last_delivered)) || batch_full max_batch (dr_messages d) then
    mkDrain (dr_state d) (dr_events d) (dr_messages d) (dr_retained d ++ [message])
  else
    let '(state, ev, delivered) := mark_delivery_metrics sink now (dr_state d) message in
    let state := if multi_reader
      then state <| delivered_queue_sequences ::= <[reader_id := msg_sequence delivered]> |> else state in
    mkDrain state (dr_events d ++ ev) (dr_messages d ++ [delivered])
      (if multi_reader then dr_retained d ++ [message] else dr_retained d).

Definition consume_from_state (sink : option nat) (now : Z) (state : ChannelState) (reader_id : string)
    (max_batch : nat) : ChannelState * list PendingChannelHealthEvent * list RuntimeChannelMessage :=
  if bool_decide (cc_type (config state) = kBarrier) && (length (queue state) <? cc_capacity (config state))
  then (state, [], []) else
  let multi_reader := is_multi_reader (cc_readers (config state)) in
  let last_delivered := if multi_reader then default 0 (delivered_queue_sequences state !! reader_id) else 0 in
  let d := fold_left (consume_step sink now reader_id multi_reader last_delivered max_batch) (queue state)
             (mkDrain state [] [] []) in
  let state := (dr_state d) <| metrics ::= fun m => m <| delivered_count ::= fun n => n + length (dr_messages d) |> |> in
  let state := state <| queue :=
    if multi_reader || (negb (max_batch =? 0) && negb (length (dr_retained d) =? 0)) then dr_retained d else [] |> in
  let state := maybe_rearm_high_watermark (state <| metrics ::= fun m => m <| depth := length (queue state) |> |>) in
  let state :=
    if kMaxTrackedReaders <? size (delivered_queue_sequences state)
    then state <| delivered_queue_sequences ::= fun delivered => enforce_reader_cap (prune_queue_dedup delivered
           (match queue state with [] => 0 | m :: _ => msg_sequence m end)) |>
    else state in
  (state, dr_events d, dr_messages d).

Definition snapshot_step (sink : option nat) (now : Z) (max_batch : nat) (d : Drain) (message : RuntimeChannelMessage)
  : Drain :=
  if message_expired (dr_state d) message now then
    let '(state, ev) := mark_stale_drop sink (dr_state d) message in
    mkDrain state (dr_events d ++ ev) (dr_messages d) (dr_retained d)
  else mkDrain (dr_state d) (dr_events d)
         (if (max_batch =? 0) || (length (dr_messages d) <? max_batch)
          then dr_messages d ++ [message] else dr_messages d)
         (dr_retained d ++ [message]).

Definition snapshot_from_state (sink : option nat) (now : Z) (state : ChannelState) (max_batch : nat)
  : ChannelState * list PendingChannelHealthEvent * list RuntimeChannelMessage :=
  if is_latest_style (cc_type (config state)) then
    match latest state with
    | None => (state, [], [])
    | Some current =>
        if message_expired state current now then
          let '(state, ev) := mark_stale_drop sink (state <| latest := None |>) current in
          (state <| metrics ::= fun m => m <| depth := 0 |> |>, ev, [])
        else (state, [], [current])
    end
  else
    let d := fold_left (snapshot_step sink now max_batch) (queue state) (mkDrain state [] [] []) in
    let state := (dr_state d) <| queue := dr_retained d |> in
    let state := state <| metrics ::= fun m => m <| depth := length (queue state) |> |> in
    (maybe_rearm_high_watermark state, dr_events d, dr_messages d).

(** ** The epoch boundary and the metrics view of one channel *)
Definition advance_channel (state : ChannelState) : ChannelState * bool :=
  match cc_type (config state), pending_previous_tick state with
  | kPreviousTick, Some message =>
      let state := state <| latest := Some message |> <| pending_previous_tick := None |> in
      (set_depth (latest_depth state) state, true)
  | _, _ => (state, false)
  end.

Definition metrics_from_state (state : ChannelState) : RuntimeChannelMetrics :=
  let depth_now :=
    match cc_type (config state) with
    | kPreviousTick => latest_depth state + bool_nat (has_value (pending_previous_tick state))
    | t => if is_latest_style t then latest_depth state else length (queue state)
    end in
  (metrics state) <| depth := depth_now |>.

(** The body of the constructor's loop: the initial state of the channel of one edge.  [std::chrono::milliseconds]
    counts are kept as they are. *)
Definition new_channel_state (spec : EdgeSpec) : ChannelState :=
  let policy := edge_policy spec in
  mkChannel
    (mkChannelConfig (edge_id spec) (channel_type_from_policy policy)
       (Z.to_nat (Z.max 1 (policy_capacity policy))) (drop_policy_from_string (policy_overflow policy))
       (policy_emit_health_events policy) (policy_lifespan_ms policy) (policy_deadline_ms policy)
       (timestamp_domain_from_string (policy_timestamp_domain policy))
       (copy_policy_from_string (policy_copy_policy policy)) (policy_readers policy))
    (edge_from spec) (edge_to spec) 1 None None [] ∅ ∅ (empty_channel_metrics (edge_id spec)) false.

(** The bus reads a latest-style channel with [consume_latest_from_state] and drains any other. *)
Definition drain_channel (sink : option nat) (now : Z) (s : ChannelState) (reader : string) (max_batch : nat)
  : ChannelState * list PendingChannelHealthEvent * list RuntimeChannelMessage :=
  if is_latest_style (cc_type (config s)) then
    let '(s', ev, m) := consume_latest_from_state sink now s reader in (s', ev, option_list m)
  else consume_from_state sink now s reader max_batch.
