(* ===== verification/ChannelFacts.v ===== *)
(** * ChannelFacts: what one channel guarantees

    The reference reading of the channel loops of [Channel.v], the channel invariant with its preservation by
    every operation, message conservation, the de-duplication bisimulation and the epoch visibility of
    [previous_tick] channels. *)

From S2P Require Export Channel.
Local Open Scope nat_scope.

(** ** Reference definitions *)

(** The queued messages that have not outlived the channel's lifespan. *)
Definition fresh_messages (state : ChannelState) (now : Z) (q : list RuntimeChannelMessage)
  : list RuntimeChannelMessage := List.filter (fun m => negb (message_expired state m now)) q.
(** The message as delivered: flagged when its age exceeds the deadline. *)
Definition as_delivered (state : ChannelState) (now : Z) (m : RuntimeChannelMessage) : RuntimeChannelMessage :=
  if ((0 <? cc_deadline (config state)) && (ms (cc_deadline (config state)) <? now - msg_published_at m))%Z
  then m <| msg_deadline_missed := true |> else m.
(** How many messages a batch of at most [max_batch] (0: unbounded) still takes from [l] after [taken]. *)
Definition batch_room (max_batch taken : nat) (l : list RuntimeChannelMessage) : nat :=
  if max_batch =? 0 then length l else max_batch - taken.
Definition newer_than (last : nat) (l : list RuntimeChannelMessage) : list RuntimeChannelMessage :=
  List.filter (fun m => last <? msg_sequence m) l.
(** What reader [reader_id] of a channel may still receive. *)
Definition deliverable (state : ChannelState) (now : Z) (reader_id : string) : list RuntimeChannelMessage :=
  let fresh := fresh_messages state now (queue state) in
  if is_multi_reader (cc_readers (config state))
  then newer_than (default 0 (delivered_queue_sequences state !! reader_id)) fresh else fresh.

(** Metrics of [m'] after [k] stale drops and otherwise only health, age and degradation notes. *)
Definition stale_only (k : nat) (m m' : RuntimeChannelMetrics) : Prop :=
  published_count m' = published_count m ∧ delivered_count m' = delivered_count m ∧
  overwrite_count m' = overwrite_count m ∧ stale_drop_count m' = stale_drop_count m + k ∧
  depth m' = depth m ∧ max_depth m' = max_depth m ∧ reject_count m' = reject_count m.
(** Two states that differ in their metrics and queue cursors only. *)
Definition same_channel (s s' : ChannelState) : Prop :=
  config s' = config s ∧ from s' = from s ∧ to s' = to s ∧ next_sequence s' = next_sequence s ∧
  latest s' = latest s ∧ pending_previous_tick s' = pending_previous_tick s ∧
  delivered_latest_sequences s' = delivered_latest_sequences s ∧
  high_watermark_reported s' = high_watermark_reported s.

Lemma same_channel_refl s : same_channel s s.
Proof. done. Qed.
Lemma same_channel_trans s1 s2 s3 : same_channel s1 s2 → same_channel s2 s3 → same_channel s1 s3.
Proof. unfold same_channel. intros; split_hyps; repeat split; congruence. Qed.
Lemma stale_only_trans k k' m1 m2 m3 : stale_only k m1 m2 → stale_only k' m2 m3 → stale_only (k + k') m1 m3.
Proof. unfold stale_only. intros; split_hyps; repeat split; lia. Qed.
#[export] Hint Resolve same_channel_refl : topoexec.

Lemma message_expired_config s s' m now : config s' = config s → message_expired s' m now = message_expired s m now.
Proof. unfold message_expired. by intros ->. Qed.

Lemma mark_delivery_spec sink now s m s' ev m' :
  mark_delivery_metrics sink now s m = (s', ev, m') →
  same_channel s s' ∧ queue s' = queue s ∧ delivered_queue_sequences s' = delivered_queue_sequences s ∧
  stale_only 0 (metrics s) (metrics s') ∧ m' = as_delivered s now m.
Proof.
  unfold mark_delivery_metrics, as_delivered, same_channel, stale_only. cbv zeta. simpl.
  case_match; intros; simplify_eq/=; repeat split; lia.
Qed.
Lemma mark_stale_spec sink s m s' ev :
  mark_stale_drop sink s m = (s', ev) →
  same_channel s s' ∧ queue s' = queue s ∧ delivered_queue_sequences s' = delivered_queue_sequences s ∧
  stale_only 1 (metrics s) (metrics s').
Proof. unfold mark_stale_drop, same_channel, stale_only. intros; simplify_eq/=; repeat split; lia. Qed.

(** ** The queue loop against its reference *)
Lemma as_delivered_sequence s now m : msg_sequence (as_delivered s now m) = msg_sequence m.
Proof. unfold as_delivered. by case_match. Qed.
Lemma as_delivered_config s s' now m : config s' = config s → as_delivered s' now m = as_delivered s now m.
Proof. unfold as_delivered. by intros ->. Qed.
Lemma fresh_config s s' now q : config s' = config s → fresh_messages s' now q = fresh_messages s now q.
Proof.
  intros H. unfold fresh_messages. induction q as [|m q IH]; [done|]. simpl.
  rewrite (message_expired_config _ _ m now H). by rewrite IH.
Qed.
Lemma fresh_cons s now m q : fresh_messages s now (m :: q) =
  if message_expired s m now then fresh_messages s now q else m :: fresh_messages s now q.
Proof. unfold fresh_messages. simpl. by destruct (message_expired s m now). Qed.
Lemma fresh_length s now q : length (fresh_messages s now q) <= length q.
Proof. apply count_if_le. Qed.

Section consume_loop.
Context (sink : option nat) (now : Z) (reader_id : string) (multi : bool) (last max_batch : nat).

Definition loop_pending (s : ChannelState) (q : list RuntimeChannelMessage) : list RuntimeChannelMessage :=
  let fresh := fresh_messages s now q in if multi then newer_than last fresh else fresh.

Definition cursor_after (cursors : gmap string nat) (delivered : list RuntimeChannelMessage) : gmap string nat :=
  if multi then fold_left (fun c m => <[reader_id := msg_sequence m]> c) delivered cursors else cursors.

(** One accumulator after another: the same channel, [k] more stale drops, and the given lists and cursors. *)
Definition drained (k : nat) (ms' rs : list RuntimeChannelMessage) (c : gmap string nat) (d d' : Drain) : Prop :=
  same_channel (dr_state d) (dr_state d') ∧ queue (dr_state d') = queue (dr_state d) ∧
  dr_messages d' = dr_messages d ++ ms' ∧ dr_retained d' = dr_retained d ++ rs ∧
  delivered_queue_sequences (dr_state d') = c ∧ stale_only k (metrics (dr_state d)) (metrics (dr_state d')).

Lemma consume_step_spec d m :
  let s := dr_state d in
  let c := delivered_queue_sequences s in
  let d' := consume_step sink now reader_id multi last max_batch d m in
  if message_expired s m now then drained 1 [] [] c d d'
  else if (multi && (msg_sequence m <=? last)) || batch_full max_batch (dr_messages d) then drained 0 [] [m] c d d'
  else drained 0 [as_delivered s now m] (if multi then [m] else []) (cursor_after c [m]) d d'.
Proof.
  cbv zeta. unfold consume_step. destruct (message_expired (dr_state d) m now).
  - destruct (mark_stale_drop sink (dr_state d) m) as [s' ev] eqn:E. apply mark_stale_spec in E as (?&?&?&?).
    unfold drained. simpl. by rewrite !app_nil_r.
  - case_match.
    + unfold drained, stale_only. simpl. rewrite app_nil_r. repeat split; lia.
    + destruct (mark_delivery_metrics sink now (dr_state d) m) as [[s' ev] m'] eqn:E.
      apply mark_delivery_spec in E as (?&?&?&?&->). unfold drained, cursor_after. cbn [fold_left].
      destruct multi; simpl; rewrite ?app_nil_r, ?as_delivered_sequence.
      * split; [done|]. split; [done|]. split; [done|]. split; [done|]. split; [congruence|done].
      * done.
Qed.

Lemma drained_trans k1 k2 m1 m2 r1 r2 c1 c2 d1 d2 d3 :
  drained k1 m1 r1 c1 d1 d2 → drained k2 m2 r2 c2 d2 d3 → drained (k1 + k2) (m1 ++ m2) (r1 ++ r2) c2 d1 d3.
Proof.
  intros (S1&Q1&M1&R1&C1&T1) (S2&Q2&M2&R2&C2&T2).
  split; [by eapply same_channel_trans|]. split; [congruence|]. rewrite M2, M1, R2, R1, !app_assoc.
  split; [done|]. split; [done|]. split; [done|]. by eapply stale_only_trans.
Qed.

Lemma loop_pending_cons s m q : loop_pending s (m :: q) =
  if message_expired s m now then loop_pending s q
  else if multi && (msg_sequence m <=? last) then loop_pending s q else m :: loop_pending s q.
Proof.
  unfold loop_pending, fresh_messages, newer_than. simpl. destruct (message_expired s m now); simpl; [done|].
  destruct multi; simpl; [|done].
  destruct (Nat.leb_spec (msg_sequence m) last), (Nat.ltb_spec last (msg_sequence m)); (done || lia).
Qed.

Lemma consume_loop_spec q d :
  let s := dr_state d in
  let pending := loop_pending s q in
  let room := batch_room max_batch (length (dr_messages d)) pending in
  drained (length q - length (fresh_messages s now q)) (as_delivered s now <$> take room pending)
    (if multi then fresh_messages s now q else drop room pending)
    (cursor_after (delivered_queue_sequences s) (take room pending)) d
    (fold_left (consume_step sink now reader_id multi last max_batch) q d).
Proof.
  revert d. induction q as [|m q IH]; intros d; cbv zeta; cbn [fold_left].
  { assert (loop_pending (dr_state d) [] = []) as -> by (unfold loop_pending; by destruct multi).
    rewrite take_nil, drop_nil. unfold drained, stale_only, cursor_after.
    destruct multi; simpl; rewrite !app_nil_r; repeat split; lia. }
  set (s := dr_state d). pose proof (consume_step_spec d m) as Hs. cbv zeta in Hs. fold s in Hs.
  set (d1 := consume_step sink now reader_id multi last max_batch d m) in *.
  specialize (IH d1). cbv zeta in IH.
  assert (config (dr_state d1) = config s) as Hc.
  { repeat case_match; destruct Hs as ((?&_)&_); done. }
  rewrite (fresh_config s _ now q Hc) in IH.
  assert (loop_pending (dr_state d1) q = loop_pending s q) as Hp.
  { unfold loop_pending. by rewrite (fresh_config s _ now q Hc). }
  rewrite Hp in IH. rewrite loop_pending_cons.
  assert (∀ l : list RuntimeChannelMessage, as_delivered (dr_state d1) now <$> l = as_delivered s now <$> l) as Hd.
  { intros l. apply list_fmap_ext. intros. by apply as_delivered_config. }
  rewrite Hd in IH. pose proof (fresh_length s now q) as Hle.
  rewrite fresh_cons.
  destruct (message_expired s m now) eqn:Ee.
  - destruct Hs as (H1&H2&H3&H4&H5&H6). rewrite H5, H3, app_nil_r in IH.
    pose proof (drained_trans _ _ _ _ _ _ _ _ _ _ _ (conj H1 (conj H2 (conj H3 (conj H4 (conj H5 H6))))) IH) as Ht.
    replace (length (m :: q) - length (fresh_messages s now q))
      with (S (length q - length (fresh_messages s now q))) by (simpl; lia). exact Ht.
  - replace (length (m :: q) - length (m :: fresh_messages s now q))
      with (length q - length (fresh_messages s now q)) by (simpl; lia).
    destruct (multi && (msg_sequence m <=? last)) eqn:Ea; simpl in Hs.
    { pose proof Hs as (_&_&H3&_&H5&_). rewrite H3, H5, app_nil_r in IH.
      pose proof (drained_trans _ _ _ _ _ _ _ _ _ _ _ Hs IH) as Ht.
      apply andb_true_iff in Ea as [-> _]. exact Ht. }
    destruct (batch_full max_batch (dr_messages d)) eqn:Ef.
    { pose proof Hs as (_&_&H3&_&H5&_). rewrite H3, H5, app_nil_r in IH.
      pose proof (drained_trans _ _ _ _ _ _ _ _ _ _ _ Hs IH) as Ht.
      unfold batch_full in Ef. apply andb_true_iff in Ef as [Ef1 Ef2].
      apply negb_true_iff in Ef1. apply Nat.leb_le in Ef2. unfold batch_room in *. rewrite Ef1 in *.
      replace (max_batch - length (dr_messages d)) with 0 in * by lia. simpl in *. destruct multi; exact Ht. }
    pose proof Hs as (_&_&H3&_&H5&_). rewrite H5 in IH.
    pose proof (drained_trans _ _ _ _ _ _ _ _ _ _ _ Hs IH) as Ht.
    assert (batch_room max_batch (length (dr_messages d)) (m :: loop_pending s q) =
            S (batch_room max_batch (length (dr_messages d1)) (loop_pending s q))) as ->.
    { rewrite H3, length_app. unfold batch_room, batch_full in *.
      destruct (Nat.eqb_spec max_batch 0); [done|]. simpl in *. apply Nat.leb_gt in Ef. lia. }
    cbn [take drop]. rewrite fmap_cons. unfold cursor_after in *. cbn [fold_left] in *.
    destruct multi; exact Ht.
Qed.
End consume_loop.

(** The cursor map after the size check at the end of a drain. *)
Definition capped_cursors (cursors : gmap string nat) (q : list RuntimeChannelMessage) : gmap string nat :=
  if kMaxTrackedReaders <? size cursors
  then enforce_reader_cap (prune_queue_dedup cursors (match q with [] => 0 | m :: _ => msg_sequence m end))
  else cursors.
Definition barrier_closed (s : ChannelState) : bool :=
  bool_decide (cc_type (config s) = kBarrier) && (length (queue s) <? cc_capacity (config s)).

Lemma rearm_spec s : let s' := maybe_rearm_high_watermark s in
  config s' = config s ∧ from s' = from s ∧ to s' = to s ∧ next_sequence s' = next_sequence s ∧ latest s' = latest s ∧
  pending_previous_tick s' = pending_previous_tick s ∧ queue s' = queue s ∧ metrics s' = metrics s ∧
  delivered_latest_sequences s' = delivered_latest_sequences s ∧
  delivered_queue_sequences s' = delivered_queue_sequences s.
Proof. cbv zeta. unfold maybe_rearm_high_watermark. destruct (_ <? _); repeat split. Qed.

(** What a drain leaves of the queue. *)
Definition drain_rest (s : ChannelState) (now : Z) (reader_id : string) (room : nat) : list RuntimeChannelMessage :=
  if is_multi_reader (cc_readers (config s)) then fresh_messages s now (queue s)
  else drop room (deliverable s now reader_id).

Lemma consume_from_state_spec sink now s reader_id max_batch s' ev msgs :
  consume_from_state sink now s reader_id max_batch = (s', ev, msgs) → barrier_closed s = false →
  let pending := deliverable s now reader_id in
  let room := batch_room max_batch 0 pending in
  let taken := take room pending in
  config s' = config s ∧ from s' = from s ∧ to s' = to s ∧ next_sequence s' = next_sequence s ∧ latest s' = latest s ∧
  pending_previous_tick s' = pending_previous_tick s ∧
  delivered_latest_sequences s' = delivered_latest_sequences s ∧
  msgs = as_delivered s now <$> taken ∧ queue s' = drain_rest s now reader_id room ∧
  delivered_queue_sequences s' =
    capped_cursors (cursor_after reader_id (is_multi_reader (cc_readers (config s)))
                      (delivered_queue_sequences s) taken) (queue s') ∧
  published_count (metrics s') = published_count (metrics s) ∧
  overwrite_count (metrics s') = overwrite_count (metrics s) ∧
  reject_count (metrics s') = reject_count (metrics s) ∧
  delivered_count (metrics s') = delivered_count (metrics s) + length taken ∧
  stale_drop_count (metrics s') =
    stale_drop_count (metrics s) + (length (queue s) - length (fresh_messages s now (queue s))) ∧
  depth (metrics s') = length (queue s') ∧ max_depth (metrics s') = max_depth (metrics s).
Proof.
  intros H Hb. unfold consume_from_state in H. unfold barrier_closed in Hb. rewrite Hb in H. cbv zeta in *.
  set (multi := is_multi_reader (cc_readers (config s))) in *.
  set (lst := if multi then default 0 (delivered_queue_sequences s !! reader_id) else 0) in *.
  pose proof (consume_loop_spec sink now reader_id multi lst max_batch (queue s) (mkDrain s [] [] [])) as HL.
  cbv zeta in HL. simpl dr_state in HL. simpl dr_messages in HL. simpl length in HL.
  assert (loop_pending now multi lst s (queue s) = deliverable s now reader_id) as Hp.
  { unfold loop_pending, deliverable, lst, multi. by destruct (is_multi_reader (cc_readers (config s))). }
  rewrite Hp in HL. set (pending := deliverable s now reader_id) in *. set (room := batch_room max_batch 0 pending) in *.
  set (d := fold_left _ _ _) in *.
  destruct HL as ((Hc&Hf&Ht&Hn&Hl&Hpp&Hdl&_)&Hq&Hm&Hr&Hcur&(H1&H2&H3&H4&H5&H6&H7)).
  simpl in Hm, Hr, Hcur, Hc, Hf, Ht, Hn, Hl, Hpp, Hdl, H1, H2, H3, H4, H6, H7.
  assert ((if multi || negb (max_batch =? 0) && negb (length (dr_retained d) =? 0) then dr_retained d else []) =
          drain_rest s now reader_id room) as Hrest.
  { unfold drain_rest. fold multi. destruct multi; simpl; [done|]. rewrite Hr.
    change (deliverable s now reader_id) with pending.
    destruct (max_batch =? 0) eqn:E; simpl.
    - unfold room, batch_room. by rewrite E, drop_all.
    - destruct (drop room pending); done. }
  rewrite Hrest in H.
  match type of H with context [maybe_rearm_high_watermark ?x] =>
    pose proof (rearm_spec x) as HR; set (s1 := maybe_rearm_high_watermark x) in * end.
  cbv zeta in HR. simpl in HR. destruct HR as (R1&R2&R3&R4&R5&R6&R7&R8&R9&R10).
  assert (length (dr_messages d) = length (take room pending)) as Hlen by (rewrite Hm; apply length_fmap).
  injection H as <- _ <-. unfold capped_cursors.
  rewrite <- Hcur, <- R10.
  destruct (kMaxTrackedReaders <? size (delivered_queue_sequences s1)); simpl; rewrite ?R8, ?R7; simpl; rewrite ?Hlen;
    repeat split; try done; clearbody s1 d; (congruence || lia).
Qed.

(** ** Publication against its reference *)

(** The fields a metrics or watermark note never touches. *)
Definition same_content (s s' : ChannelState) : Prop :=
  config s' = config s ∧ from s' = from s ∧ to s' = to s ∧ latest s' = latest s ∧
  pending_previous_tick s' = pending_previous_tick s ∧ queue s' = queue s ∧
  delivered_latest_sequences s' = delivered_latest_sequences s ∧
  delivered_queue_sequences s' = delivered_queue_sequences s.
(** The counters that account for queued messages. *)
Definition same_counts (m m' : RuntimeChannelMetrics) : Prop :=
  published_count m' = published_count m ∧ delivered_count m' = delivered_count m ∧
  overwrite_count m' = overwrite_count m ∧ stale_drop_count m' = stale_drop_count m ∧
  depth m' = depth m ∧ max_depth m' = max_depth m.

Lemma drop_excess_spec sink seq q s s' ev :
  drop_excess sink seq q s = (s', ev) →
  let excess := length q - cc_capacity (config s) in
  config s' = config s ∧ from s' = from s ∧ to s' = to s ∧ next_sequence s' = next_sequence s ∧ latest s' = latest s ∧
  pending_previous_tick s' = pending_previous_tick s ∧ queue s' = drop excess q ∧
  delivered_latest_sequences s' = delivered_latest_sequences s ∧
  delivered_queue_sequences s' = delivered_queue_sequences s ∧
  overwrite_count (metrics s') = overwrite_count (metrics s) + excess ∧
  published_count (metrics s') = published_count (metrics s) ∧
  delivered_count (metrics s') = delivered_count (metrics s) ∧
  stale_drop_count (metrics s') = stale_drop_count (metrics s) ∧ max_depth (metrics s') = max_depth (metrics s) ∧
  reject_count (metrics s') = reject_count (metrics s) ∧ high_watermark_reported s' = high_watermark_reported s.
Proof.
  revert s s' ev. induction q as [|m q IH]; intros s s' ev; simpl.
  - intros [= <- <-]. simpl. repeat split; lia.
  - case_match eqn:E.
    + case_match eqn:E2. intros [= <- <-]. apply IH in E2. simpl in E2. split_hyps. apply Nat.ltb_lt in E.
      replace (S (length q) - cc_capacity (config s)) with (S (length q - cc_capacity (config s))) by (simpl in *; lia).
      simpl. repeat split; (congruence || lia).
    + intros [= <- <-]. apply Nat.ltb_ge in E. simpl in E. replace (S (length q) - cc_capacity (config s)) with 0 by lia.
      simpl. repeat split; lia.
Qed.

Lemma high_watermark_spec sink s m s' ev : maybe_emit_high_watermark sink s m = (s', ev) →
  same_content s s' ∧ next_sequence s' = next_sequence s ∧ metrics s' = metrics s.
Proof. unfold maybe_emit_high_watermark. case_match; intros; simplify_eq/=; done. Qed.

(** The message that [publish_to_state] builds. *)
Definition new_message (now : Z) (s : ChannelState) (payload : RuntimePayloadPtr) (ts : option EventTimestamp)
    (md : InvocationMetadata) : RuntimeChannelMessage :=
  mkMessage (cc_id (config s)) payload now now (next_sequence s) false ts
    (finalize_message_metadata md (cc_id (config s)) (next_sequence s) (from s)).
(** Why a full queue refuses a message; [None] when the policy evicts instead. *)
Definition refusal (policy : DropPolicy) : option string :=
  match policy with
  | kDropNewest => Some "dropped newest payload" | kBlockProducer => Some "would block producer"
  | kFailFast => Some "channel capacity exceeded" | kOverwrite | kDropOldest => None
  end.
Definition queue_full (s : ChannelState) : bool := cc_capacity (config s) <=? length (queue s).
(** The refusal a publication to [s] meets, if any. *)
Definition publish_refusal (s : ChannelState) : option string :=
  if negb (is_latest_style (cc_type (config s))) && queue_full s then refusal (cc_drop_policy (config s)) else None.

Lemma overflow_rejection_spec sink s seq :
  match overflow_rejection sink s seq with
  | Some (s', ev, r) => ∃ why, refusal (cc_drop_policy (config s)) = Some why ∧ r = reject why ∧
      same_content s s' ∧ next_sequence s' = next_sequence s ∧ same_counts (metrics s) (metrics s') ∧
      reject_count (metrics s') = S (reject_count (metrics s))
  | None => refusal (cc_drop_policy (config s)) = None
  end.
Proof.
  unfold overflow_rejection. cbv zeta.
  destruct (cc_drop_policy (config s)); simpl; try done; eexists; repeat split; reflexivity.
Qed.

Lemma accept_message_queue sink s m s' ev upd :
  accept_message sink s m = (s', ev, upd) → is_latest_style (cc_type (config s)) = false →
  let all := queue s ++ [m] in
  let excess := length all - cc_capacity (config s) in
  config s' = config s ∧ from s' = from s ∧ to s' = to s ∧ next_sequence s' = next_sequence s ∧
  latest s' = Some m ∧ pending_previous_tick s' = pending_previous_tick s ∧ queue s' = drop excess all ∧
  delivered_latest_sequences s' = delivered_latest_sequences s ∧
  delivered_queue_sequences s' = delivered_queue_sequences s ∧ upd = true ∧
  published_count (metrics s') = S (published_count (metrics s)) ∧
  overwrite_count (metrics s') = overwrite_count (metrics s) + excess ∧
  delivered_count (metrics s') = delivered_count (metrics s) ∧
  stale_drop_count (metrics s') = stale_drop_count (metrics s) ∧
  depth (metrics s') = length (queue s') ∧ max_depth (metrics s') = Nat.max (max_depth (metrics s)) (length (queue s')).
Proof.
  unfold accept_message. intros H Hl.
  rewrite bool_decide_eq_false_2 in H by (intros E; by rewrite E in Hl). cbn zeta in H.
  match type of H with context [if is_latest_style (cc_type (config ?x)) then _ else drop_excess _ _ _ _] =>
    change (is_latest_style (cc_type (config x))) with (is_latest_style (cc_type (config s))) in H end.
  rewrite Hl in H. destruct (drop_excess _ _ _ _) as [s1 ev1] eqn:E1. apply drop_excess_spec in E1. simpl in E1.
  destruct E1 as (Ec&?&?&?&?&?&Eq&?&?&?&?&?&?&?&?&?).
  simpl in H. rewrite Ec, Hl in H. destruct (maybe_emit_high_watermark _ _ _) as [s2 ev2] eqn:E2.
  apply high_watermark_spec in E2 as (Hs&?&Em). unfold same_content in Hs. simpl in *. split_hyps.
  rewrite Em. simpl. repeat split; (congruence || lia).
Qed.

Lemma accept_message_latest sink s m s' ev upd :
  accept_message sink s m = (s', ev, upd) → is_latest_style (cc_type (config s)) = true →
  config s' = config s ∧ from s' = from s ∧ to s' = to s ∧ next_sequence s' = next_sequence s ∧
  (if bool_decide (cc_type (config s) = kPreviousTick)
   then latest s' = latest s ∧ pending_previous_tick s' = Some m ∧ queue s' = queue s ∧ upd = false
   else latest s' = Some m ∧ pending_previous_tick s' = pending_previous_tick s ∧ queue s' = [] ∧ upd = true) ∧
  delivered_latest_sequences s' = delivered_latest_sequences s ∧
  delivered_queue_sequences s' = delivered_queue_sequences s ∧
  published_count (metrics s') = S (published_count (metrics s)) ∧ depth (metrics s') <= max_depth (metrics s').
Proof.
  unfold accept_message. intros H Hl. case_bool_decide as Ep.
  - case_match; case_match; simplify_eq/=; repeat split; lia.
  - cbn zeta in H.
    match type of H with context [if is_latest_style (cc_type (config ?x)) then _ else drop_excess _ _ _ _] =>
      change (is_latest_style (cc_type (config x))) with (is_latest_style (cc_type (config s))) in H end.
    rewrite Hl in H.
    match type of H with context [if ?c then (?a, ?b) else (?d, ?e)] => destruct c end; simpl in H; rewrite Hl in H;
    destruct (maybe_emit_high_watermark _ _ _) as [s2 ev2] eqn:E2;
    apply high_watermark_spec in E2 as (Hs&?&Em); unfold same_content in Hs; simpl in *; split_hyps;
    rewrite Em; simpl; repeat split; (congruence || lia).
Qed.

(** A publication that meets a refusal changes counters and the sequence number only; any other is stored. *)
Lemma publish_refused sink now s p ts copied md why : publish_refusal s = Some why →
  ∃ s' ev, publish_to_state sink now s p ts copied md = (s', ev, false, reject why) ∧
    same_content s s' ∧ next_sequence s' = S (next_sequence s) ∧ same_counts (metrics s) (metrics s') ∧
    reject_count (metrics s') = S (reject_count (metrics s)).
Proof.
  unfold publish_refusal, publish_to_state, queue_full. intros H.
  destruct (negb _ && _) eqn:E in H; [|done].
  set (s1 := s <| next_sequence := S (next_sequence s) |>) in *.
  set (s2 := if copied then _ else s1). cbv zeta.
  assert (config s2 = config s ∧ queue s2 = queue s) as [Ec Eq] by (by destruct copied).
  pose proof (overflow_rejection_spec sink s2 (next_sequence s)) as Ho. rewrite Ec, Eq, E.
  destruct (overflow_rejection sink s2 (next_sequence s)) as [[[s3 ev] r]|]; [|rewrite Ec in Ho; congruence].
  destruct Ho as (why'&Hr&->&Hs&Hn&Hm&Hj). rewrite Ec in Hr. assert (why' = why) as -> by congruence.
  exists s3, ev. split; [done|]. unfold same_content, same_counts in *. destruct copied; simpl in *; split_hyps;
    repeat split; congruence.
Qed.

Lemma publish_admitted sink now s p ts copied md : publish_refusal s = None →
  ∃ s0 s' ev upd, publish_to_state sink now s p ts copied md = (s', ev, upd, accept) ∧
    accept_message sink s0 (new_message now s p ts md) = (s', ev, upd) ∧
    same_content s s0 ∧ next_sequence s0 = S (next_sequence s) ∧ same_counts (metrics s) (metrics s0).
Proof.
  unfold publish_refusal, publish_to_state, queue_full. intros H.
  set (s1 := s <| next_sequence := S (next_sequence s) |>) in *. cbv zeta.
  fold (new_message now s p ts md). set (s2 := if copied then _ else s1).
  assert (config s2 = config s ∧ queue s2 = queue s) as [Ec Eq] by (by destruct copied).
  destruct (accept_message sink s2 (new_message now s p ts md)) as [[s' ev] upd] eqn:Ea.
  exists s2, s', ev, upd. split; [|split; [done|]].
  - pose proof (overflow_rejection_spec sink s2 (next_sequence s)) as Ho. rewrite Ec, Eq.
    destruct (negb _ && _) eqn:E; [|done]. rewrite Ec in Ho.
    destruct (overflow_rejection sink s2 (next_sequence s)) as [[[s3 ev3] r]|]; [|done].
    destruct Ho as (why&Hr&_). congruence.
  - unfold same_content, same_counts. destruct copied; done.
Qed.

(** ** Reads of the latest value *)
Lemma consume_latest_spec sink now s reader s' ev om :
  consume_latest_from_state sink now s reader = (s', ev, om) →
  let live := match latest s with Some c => if message_expired s c now then None else Some c | None => None end in
  let seen := match live with Some c => bool_decide (delivered_latest_sequences s !! reader = Some (msg_sequence c)) | None => true end in
  config s' = config s ∧ from s' = from s ∧ to s' = to s ∧ next_sequence s' = next_sequence s ∧
  pending_previous_tick s' = pending_previous_tick s ∧ queue s' = queue s ∧
  delivered_queue_sequences s' = delivered_queue_sequences s ∧ latest s' = live ∧
  om = (if seen then None else as_delivered s now <$> live) ∧
  delivered_latest_sequences s' = (match om with
    | None => delivered_latest_sequences s
    | Some m =>
        let d := <[reader := msg_sequence m]> (delivered_latest_sequences s) in
        if kMaxTrackedReaders <? size d then enforce_reader_cap (prune_latest_dedup d (msg_sequence m)) else d
    end) ∧
  published_count (metrics s') = published_count (metrics s) ∧
  delivered_count (metrics s') = delivered_count (metrics s) + bool_nat (has_value om) ∧
  depth (metrics s') <= depth (metrics s) ∧ max_depth (metrics s') = max_depth (metrics s).
Proof.
  unfold consume_latest_from_state. intros H. cbv zeta.
  destruct (latest s) as [c|] eqn:El; [|injection H as <- <- <-; simpl; repeat split; (done || lia)].
  destruct (message_expired s c now) eqn:Ee.
  { destruct (mark_stale_drop _ _ _) as [s1 ev1] eqn:E1. apply mark_stale_spec in E1. unfold same_channel, stale_only in E1.
    simpl in E1. split_hyps. simpl. repeat split; (congruence || lia). }
  case_bool_decide; [injection H as <- <- <-; simpl; repeat split; (done || lia)|].
  destruct (mark_delivery_metrics _ _ _ _) as [[s1 ev1] m1] eqn:E1. apply mark_delivery_spec in E1.
  unfold same_channel, stale_only in E1. simpl in E1. split_hyps. simpl.
  assert (∀ t, config t = config s → as_delivered t now c = as_delivered s now c) as Ha
    by (intros; by apply as_delivered_config).
  rewrite Ha by done. rewrite ?as_delivered_sequence. repeat split; (congruence || lia).
Qed.

(** ** Snapshots *)
Lemma snapshot_loop_spec sink now max_batch q d :
  let fresh := fresh_messages (dr_state d) now q in
  let d' := fold_left (snapshot_step sink now max_batch) q d in
  same_channel (dr_state d) (dr_state d') ∧ queue (dr_state d') = queue (dr_state d) ∧
  delivered_queue_sequences (dr_state d') = delivered_queue_sequences (dr_state d) ∧
  dr_retained d' = dr_retained d ++ fresh ∧
  dr_messages d' = dr_messages d ++ take (batch_room max_batch (length (dr_messages d)) fresh) fresh ∧
  stale_only (length q - length fresh) (metrics (dr_state d)) (metrics (dr_state d')).
Proof.
  revert d. induction q as [|m q IH]; intros d; cbv zeta; cbn [fold_left].
  { unfold stale_only. simpl. rewrite take_nil, !app_nil_r. repeat split; lia. }
  specialize (IH (snapshot_step sink now max_batch d m)). cbv zeta in IH.
  unfold snapshot_step in *. rewrite fresh_cons. destruct (message_expired (dr_state d) m now) eqn:Ee.
  - destruct (mark_stale_drop sink (dr_state d) m) as [s1 ev1] eqn:E1. apply mark_stale_spec in E1 as (Hs&Hq&Hd&Hm).
    cbn [dr_state dr_events dr_messages dr_retained] in IH. rewrite (fresh_config (dr_state d) s1 now q (proj1 Hs)) in IH.
    destruct IH as (I1&I2&I3&I4&I5&I6). pose proof (fresh_length (dr_state d) now q).
    split; [by eapply same_channel_trans|]. split; [congruence|]. split; [congruence|]. split; [done|]. split; [done|].
    pose proof (stale_only_trans _ _ _ _ _ Hm I6) as Ht. cbn [length].
    rewrite Nat.sub_succ_l by lia. exact Ht.
  - cbn [dr_state dr_events dr_messages dr_retained] in IH. destruct IH as (I1&I2&I3&I4&I5&I6).
    split; [done|]. split; [done|]. split; [done|]. rewrite I4, <- app_assoc. split; [done|].
    split; [|exact I6]. rewrite I5. unfold batch_room in *. cbn [length].
    destruct (Nat.eqb_spec max_batch 0) as [E|E]; cbn [orb take length].
    { by rewrite <- app_assoc. }
    destruct (Nat.ltb_spec (length (dr_messages d)) max_batch).
    + rewrite length_app. cbn [length]. replace (max_batch - length (dr_messages d))
        with (S (max_batch - (length (dr_messages d) + 1))) by lia. cbn [take]. by rewrite <- app_assoc.
    + by replace (max_batch - length (dr_messages d)) with 0 by lia.
Qed.

Lemma snapshot_queue_spec sink now s max_batch s' ev ms' :
  snapshot_from_state sink now s max_batch = (s', ev, ms') → is_latest_style (cc_type (config s)) = false →
  let fresh := fresh_messages s now (queue s) in
  config s' = config s ∧ from s' = from s ∧ to s' = to s ∧ next_sequence s' = next_sequence s ∧ latest s' = latest s ∧
  pending_previous_tick s' = pending_previous_tick s ∧
  delivered_latest_sequences s' = delivered_latest_sequences s ∧
  delivered_queue_sequences s' = delivered_queue_sequences s ∧ queue s' = fresh ∧
  ms' = take (batch_room max_batch 0 fresh) fresh ∧
  published_count (metrics s') = published_count (metrics s) ∧
  delivered_count (metrics s') = delivered_count (metrics s) ∧
  overwrite_count (metrics s') = overwrite_count (metrics s) ∧
  stale_drop_count (metrics s') = stale_drop_count (metrics s) + (length (queue s) - length fresh) ∧
  depth (metrics s') = length (queue s') ∧ max_depth (metrics s') = max_depth (metrics s).
Proof.
  unfold snapshot_from_state. intros H Hl. rewrite Hl in H. cbv zeta in *.
  pose proof (snapshot_loop_spec sink now max_batch (queue s) (mkDrain s [] [] [])) as HL. cbv zeta in HL.
  set (d := fold_left _ _ _) in *. simpl in HL. unfold same_channel, stale_only in HL.
  destruct HL as ((?&?&?&?&?&?&?&?)&?&?&?&?&(?&?&?&?&?&?&?)).
  match type of H with context [maybe_rearm_high_watermark ?x] =>
    pose proof (rearm_spec x) as HR; set (s1 := maybe_rearm_high_watermark x) in * end.
  cbv zeta in HR. simpl in HR. destruct HR as (R1&R2&R3&R4&R5&R6&R7&R8&R9&R10).
  injection H as <- _ <-. rewrite R8. simpl. clearbody s1 d. repeat split; (congruence || lia).
Qed.

Lemma snapshot_latest_spec sink now s max_batch s' ev ms' :
  snapshot_from_state sink now s max_batch = (s', ev, ms') → is_latest_style (cc_type (config s)) = true →
  let live := match latest s with Some c => if message_expired s c now then None else Some c | None => None end in
  config s' = config s ∧ from s' = from s ∧ to s' = to s ∧ next_sequence s' = next_sequence s ∧
  pending_previous_tick s' = pending_previous_tick s ∧ queue s' = queue s ∧
  delivered_latest_sequences s' = delivered_latest_sequences s ∧
  delivered_queue_sequences s' = delivered_queue_sequences s ∧ latest s' = live ∧ ms' = option_list live ∧
  published_count (metrics s') = published_count (metrics s) ∧
  delivered_count (metrics s') = delivered_count (metrics s) ∧
  depth (metrics s') <= depth (metrics s) ∧ max_depth (metrics s') = max_depth (metrics s).
Proof.
  unfold snapshot_from_state. intros H Hl. rewrite Hl in H. cbv zeta.
  destruct (latest s) as [c|] eqn:El; [|injection H as <- <- <-; simpl; repeat split; (done || lia)].
  destruct (message_expired s c now) eqn:Ee; [|injection H as <- <- <-; simpl; repeat split; (done || lia)].
  destruct (mark_stale_drop _ _ _) as [s1 ev1] eqn:E1. apply mark_stale_spec in E1. unfold same_channel, stale_only in E1.
  simpl in E1. split_hyps. simpl. repeat split; (congruence || lia).
Qed.

(** ** Batches and prefixes of sequence-sorted queues *)
Definition sequences (q : list RuntimeChannelMessage) : list nat := msg_sequence <$> q.

Lemma fresh_sublist s now q : fresh_messages s now q `sublist_of` q.
Proof.
  induction q as [|m q IH]; [done|]. rewrite fresh_cons. destruct (message_expired s m now); by constructor.
Qed.
Lemma newer_sublist n q : newer_than n q `sublist_of` q.
Proof. induction q as [|m q IH]; [done|]. unfold newer_than in *. simpl. case_match; by constructor. Qed.
Lemma deliverable_sublist s now r : deliverable s now r `sublist_of` queue s.
Proof.
  unfold deliverable. cbv zeta. destruct (is_multi_reader _); [etrans; [apply newer_sublist|]|]; apply fresh_sublist.
Qed.
Lemma drain_rest_sublist s now r room : drain_rest s now r room `sublist_of` queue s.
Proof.
  unfold drain_rest. destruct (is_multi_reader _); [apply fresh_sublist|].
  etrans; [apply sublist_drop|apply deliverable_sublist].
Qed.
Lemma sequences_delivered s now l : sequences (as_delivered s now <$> l) = sequences l.
Proof. unfold sequences. rewrite <- list_fmap_compose. apply list_fmap_ext. intros. apply as_delivered_sequence. Qed.
Lemma newer_than_spec n q m : m ∈ newer_than n q → n < msg_sequence m.
Proof.
  unfold newer_than. rewrite list_elem_of_In, filter_In. intros [_ H]. by apply Nat.ltb_lt.
Qed.
