(* ===== verification/ChannelInv.v ===== *)
(** * ChannelInv: invariants of one channel over every sequence of operations

    The operations the bus applies to a channel as a data type with its interpreter, the channel invariant, and the
    properties that hold after any sequence of them: bounded well-formed state, message conservation, in-order
    exactly-once delivery to each reader, and the epoch boundary of [previous_tick] channels. *)

From S2P Require Export ChannelFacts.
Local Open Scope nat_scope.

(** ** Operations *)
Inductive ChannelOp :=
| OpPublish (now : Z) (payload : RuntimePayloadPtr) (ts : option EventTimestamp) (copied : bool)
    (md : InvocationMetadata)
| OpPreflight (planned : nat)
| OpPreflightPayload (payload : RuntimePayload)
| OpDrain (now : Z) (reader : string) (max_batch : nat)
| OpSnapshot (now : Z) (max_batch : nat)
| OpAdvance.

Definition run_op (sink : option nat) (s : ChannelState) (op : ChannelOp) : ChannelState * list RuntimeChannelMessage :=
  match op with
  | OpPublish now p ts copied md => let '(s', _, _, _) := publish_to_state sink now s p ts copied md in (s', [])
  | OpPreflight planned => let '(s', _, _) := preflight_publish_to_state sink s planned in (s', [])
  | OpPreflightPayload p => let '(s', _) := preflight_payload_for_state s p in (s', [])
  | OpDrain now reader max_batch => let '(s', _, ms') := drain_channel sink now s reader max_batch in (s', ms')
  | OpSnapshot now max_batch => let '(s', _, _) := snapshot_from_state sink now s max_batch in (s', [])
  | OpAdvance => let '(s', _) := advance_channel s in (s', [])
  end.
Definition run_ops (sink : option nat) (s : ChannelState) (ops : list ChannelOp) : ChannelState :=
  fold_left (fun s op => fst (run_op sink s op)) ops s.

Definition drained_by (reader : string) (op : ChannelOp) : bool :=
  match op with OpDrain _ r _ => str_eqb r reader | _ => false end.
(** The sequence numbers that [reader] receives along a run. *)
Fixpoint received (sink : option nat) (reader : string) (s : ChannelState) (ops : list ChannelOp) : list nat :=
  match ops with
  | [] => []
  | op :: rest =>
      let '(s', ms') := run_op sink s op in
      (if drained_by reader op then sequences ms' else []) ++ received sink reader s' rest
  end.

(** ** Increasing lists *)
Definition increasing (l : list nat) : Prop := StronglySorted lt l.
Lemma increasing_sublist l l' : l `sublist_of` l' → increasing l' → increasing l.
Proof.
  unfold increasing. induction 1 as [|x l l' Hs IH|x l l' Hs IH]; [done| |]; intros [H1 H2]%StronglySorted_inv.
  - constructor; [auto|]. rewrite Forall_forall in *. intros y Hy. apply H2. by eapply elem_of_sublist.
  - auto.
Qed.
Lemma increasing_snoc l x : increasing l → (∀ y, y ∈ l → y < x) → increasing (l ++ [x]).
Proof.
  intros Hl Hx. apply StronglySorted_app. split; [|split; [done|by repeat constructor]].
  intros a b Ha Hb%list_elem_of_singleton. subst. auto.
Qed.

(** ** What an operation does to a queue-style channel *)
Section queue_ops.
Context (sink : option nat).

(** The ways a queue-style channel moves: counters only, one message stored, or messages taken out or expired. *)
Inductive queue_move (s s' : ChannelState) (op : ChannelOp) : list RuntimeChannelMessage -> Prop :=
| qm_note :
    same_content s s' -> next_sequence s <= next_sequence s' -> same_counts (metrics s) (metrics s') ->
    queue_move s s' op []
| qm_store m :
    config s' = config s -> msg_sequence m = next_sequence s -> next_sequence s' = S (next_sequence s) ->
    queue s' = drop (S (length (queue s)) - cc_capacity (config s)) (queue s ++ [m]) ->
    latest s' = Some m -> pending_previous_tick s' = pending_previous_tick s ->
    delivered_latest_sequences s' = delivered_latest_sequences s ->
    delivered_queue_sequences s' = delivered_queue_sequences s ->
    published_count (metrics s') = S (published_count (metrics s)) ->
    overwrite_count (metrics s') = overwrite_count (metrics s) + (S (length (queue s)) - cc_capacity (config s)) ->
    delivered_count (metrics s') = delivered_count (metrics s) ->
    stale_drop_count (metrics s') = stale_drop_count (metrics s) ->
    depth (metrics s') = length (queue s') ->
    max_depth (metrics s') = Nat.max (max_depth (metrics s)) (length (queue s')) ->
    queue_move s s' op []
| qm_drain now reader max_batch taken rest :
    op = OpDrain now reader max_batch ->
    config s' = config s -> next_sequence s' = next_sequence s -> latest s' = latest s ->
    pending_previous_tick s' = pending_previous_tick s ->
    delivered_latest_sequences s' = delivered_latest_sequences s ->
    deliverable s now reader = taken ++ rest ->
    queue s' = (if is_multi_reader (cc_readers (config s)) then fresh_messages s now (queue s) else rest) ->
    delivered_queue_sequences s' =
      capped_cursors (cursor_after reader (is_multi_reader (cc_readers (config s)))
                        (delivered_queue_sequences s) taken) (queue s') ->
    published_count (metrics s') = published_count (metrics s) ->
    overwrite_count (metrics s') = overwrite_count (metrics s) ->
    delivered_count (metrics s') = delivered_count (metrics s) + length taken ->
    stale_drop_count (metrics s') =
      stale_drop_count (metrics s) + (length (queue s) - length (fresh_messages s now (queue s))) ->
    depth (metrics s') = length (queue s') -> max_depth (metrics s') = max_depth (metrics s) ->
    queue_move s s' op (as_delivered s now <$> taken)
| qm_snapshot now max_batch :
    op = OpSnapshot now max_batch ->
    config s' = config s -> next_sequence s' = next_sequence s -> latest s' = latest s ->
    pending_previous_tick s' = pending_previous_tick s ->
    delivered_latest_sequences s' = delivered_latest_sequences s ->
    delivered_queue_sequences s' = delivered_queue_sequences s ->
    queue s' = fresh_messages s now (queue s) ->
    published_count (metrics s') = published_count (metrics s) ->
    overwrite_count (metrics s') = overwrite_count (metrics s) ->
    delivered_count (metrics s') = delivered_count (metrics s) ->
    stale_drop_count (metrics s') =
      stale_drop_count (metrics s) + (length (queue s) - length (fresh_messages s now (queue s))) ->
    depth (metrics s') = length (queue s') -> max_depth (metrics s') = max_depth (metrics s) ->
    queue_move s s' op [].

Lemma run_op_queue s op s' ms' :
  run_op sink s op = (s', ms') → is_latest_style (cc_type (config s)) = false → queue_move s s' op ms'.
Proof.
  intros H Hl. destruct op; simpl in H.
  - destruct (publish_to_state _ _ _ _ _ _ _) as [[[s1 ev] upd] r] eqn:E. injection H as <- <-.
    destruct (publish_refusal s) as [why|] eqn:Er.
    + destruct (publish_refused sink now s payload ts copied md why Er) as (s2&ev2&E2&Hs&Hn&Hm&_).
      rewrite E in E2. injection E2 as -> -> -> ->. apply qm_note; (done || lia).
    + destruct (publish_admitted sink now s payload ts copied md Er) as (s0&s2&ev2&upd2&E2&Ea&Hs&Hn&Hm).
      rewrite E in E2. injection E2 as -> -> -> ->. unfold same_content, same_counts in *. split_hyps.
      apply accept_message_queue in Ea; [|congruence]. cbv zeta in Ea. rewrite length_app in Ea. simpl in Ea.
      split_hyps. rewrite Nat.add_1_r in *.
      apply (qm_store _ _ _ (new_message now s payload ts md)); simpl; (congruence || lia).
  - destruct (preflight_publish_to_state _ _ _) as [[s1 ev] r] eqn:E. injection H as <- <-.
    unfold preflight_publish_to_state in E. case_match; [simplify_eq; by apply qm_note|].
    pose proof (overflow_rejection_spec sink s (next_sequence s)) as Ho.
    destruct (overflow_rejection _ _ _) as [[[s2 ev2] r2]|]; [|simplify_eq; by apply qm_note].
    injection E as -> -> ->. destruct Ho as (why&?&?&?&?&?&?). apply qm_note; (done || lia).
  - destruct (preflight_payload_for_state _ _) as [s1 r] eqn:E. injection H as <- <-.
    unfold preflight_payload_for_state in E. repeat case_match; simplify_eq; by apply qm_note.
  - destruct (drain_channel _ _ _ _ _) as [[s1 ev] msgs] eqn:E. injection H as <- <-.
    unfold drain_channel in E. rewrite Hl in E. destruct (barrier_closed s) eqn:Eb.
    { unfold consume_from_state in E. unfold barrier_closed in Eb. rewrite Eb in E. simplify_eq. by apply qm_note. }
    apply consume_from_state_spec in E; [|done]. cbv zeta in E. split_hyps.
    eapply (qm_drain _ _ _ now reader max_batch _ (drop (batch_room max_batch 0 (deliverable s now reader)) _));
      try done. by rewrite take_drop.
  - destruct (snapshot_from_state _ _ _ _) as [[s1 ev] msgs] eqn:E. injection H as <- <-.
    apply snapshot_queue_spec in E; [|done]. cbv zeta in E. split_hyps. by eapply qm_snapshot.
  - unfold advance_channel in H. destruct (cc_type (config s)) eqn:Et; simplify_eq/=; by apply qm_note.
Qed.
End queue_ops.

(** ** Reader cursors *)
Lemma foldr_delete_subseteq (ks : list string) (d : gmap string nat) : foldr delete d ks ⊆ d.
Proof. induction ks as [|k ks IH]; simpl; [done|]. etrans; [apply delete_subseteq|done]. Qed.
Lemma foldr_delete_size (ks : list string) (d : gmap string nat) :
  NoDup ks → (∀ k, k ∈ ks → is_Some (d !! k)) → size (foldr delete d ks) = size d - length ks.
Proof.
  induction ks as [|k ks IH]; simpl; intros Hn Hk; [lia|]. apply NoDup_cons in Hn as [Hk' Hn].
  assert (is_Some (foldr delete d ks !! k)) as [v Hv].
  { destruct (Hk k) as [v Hv]; [left|]. exists v. clear -Hk' Hv. induction ks as [|a ks IH]; simpl; [done|].
    apply not_elem_of_cons in Hk' as [??]. rewrite lookup_delete_ne by done. auto. }
  rewrite map_size_delete, Hv, IH; [lia|done|]. intros; apply Hk; by right.
Qed.
Lemma enforce_reader_cap_size d : size (enforce_reader_cap d) <= kMaxTrackedReaders.
Proof.
  unfold enforce_reader_cap. rewrite foldr_delete_size, length_take, length_map_keys; [lia| |].
  - eapply sublist_NoDup; [apply (NoDup_map_keys d)|apply sublist_take].
  - intros k Hk. apply elem_of_map_keys. eapply elem_of_sublist; [done|apply sublist_take].
Qed.
Lemma enforce_reader_cap_subseteq d : enforce_reader_cap d ⊆ d.
Proof. apply foldr_delete_subseteq. Qed.
Lemma capped_cursors_subseteq c q : capped_cursors c q ⊆ c.
Proof.
  unfold capped_cursors. case_match; [|done]. etrans; [apply enforce_reader_cap_subseteq|apply map_filter_subseteq].
Qed.
Lemma capped_cursors_size c q : size (capped_cursors c q) <= kMaxTrackedReaders.
Proof.
  unfold capped_cursors. case_match eqn:E; [apply enforce_reader_cap_size|]. by apply Nat.ltb_ge in E.
Qed.
Lemma capped_cursors_small c q : size c <= kMaxTrackedReaders → capped_cursors c q = c.
Proof. intros. unfold capped_cursors. by rewrite (proj2 (Nat.ltb_ge _ _)). Qed.
Lemma cursor_after_lookup r multi taken c r' n : cursor_after r multi c taken !! r' = Some n →
  c !! r' = Some n ∨ (multi = true ∧ r' = r ∧ ∃ m, m ∈ taken ∧ msg_sequence m = n).
Proof.
  unfold cursor_after. destruct multi; [|by left]. revert c. induction taken as [|m taken IH]; simpl; intros c H; [by left|].
  apply IH in H as [H|(_&->&m'&?&?)]; [|right; split; [done|]; split; [done|]; exists m'; split; [by right|done]].
  apply lookup_insert_Some in H as [[<- <-]|[??]]; [|by left]. right. split; [done|]. split; [done|]. exists m. split; [left|done].
Qed.

(** ** The invariant of a queue-style channel *)
Record queue_inv (s : ChannelState) : Prop := {
  qi_cap : 1 <= cc_capacity (config s);
  qi_next : 1 <= next_sequence s;
  qi_bound : length (queue s) <= cc_capacity (config s);
  qi_sorted : increasing (sequences (queue s));
  qi_old : ∀ m, m ∈ queue s -> 1 <= msg_sequence m < next_sequence s;
  qi_depth : depth (metrics s) = length (queue s);
  qi_max : depth (metrics s) <= max_depth (metrics s) <= cc_capacity (config s);
  qi_cursor : ∀ r n, delivered_queue_sequences s !! r = Some n -> n < next_sequence s;
  qi_readers : size (delivered_queue_sequences s) <= kMaxTrackedReaders;
  qi_conserved : published_count (metrics s) =
    length (queue s) + overwrite_count (metrics s) + stale_drop_count (metrics s) +
    (if is_multi_reader (cc_readers (config s)) then 0 else delivered_count (metrics s)) }.

Lemma queue_inv_new spec : queue_inv (new_channel_state spec).
Proof.
  unfold new_channel_state. split; simpl; try (lia || by constructor || done).
  - intros m Hm. by apply elem_of_nil in Hm.
  - rewrite map_size_empty. lia.
  - by case_match.
Qed.

Lemma deliverable_length s now r : is_multi_reader (cc_readers (config s)) = false →
  deliverable s now r = fresh_messages s now (queue s).
Proof. unfold deliverable. by intros ->. Qed.

(** Taking messages out of the queue keeps the invariant as long as the counters account for them. *)
Lemma queue_inv_shrink s s' :
  queue_inv s → config s' = config s → next_sequence s <= next_sequence s' → queue s' `sublist_of` queue s →
  depth (metrics s') = length (queue s') → max_depth (metrics s') = max_depth (metrics s) →
  (∀ r n, delivered_queue_sequences s' !! r = Some n → n < next_sequence s') →
  size (delivered_queue_sequences s') <= kMaxTrackedReaders →
  published_count (metrics s') =
    length (queue s') + overwrite_count (metrics s') + stale_drop_count (metrics s') +
    (if is_multi_reader (cc_readers (config s)) then 0 else delivered_count (metrics s')) →
  queue_inv s'.
Proof.
  intros [I1 I2 I3 I4 I5 I6 I7 I8 I9 I10] Hc Hn Hq Hd Hm Hr Hz Hp. pose proof (sublist_length _ _ Hq).
  split; rewrite ?Hc, ?Hm, ?Hd; try (lia || done).
  - eapply increasing_sublist; [by apply fmap_sublist|done].
  - intros m Hm'. specialize (I5 m (elem_of_sublist _ _ _ Hm' Hq)). lia.
Qed.

Lemma queue_inv_store s s' m :
  queue_inv s → config s' = config s → msg_sequence m = next_sequence s → next_sequence s' = S (next_sequence s) →
  let excess := S (length (queue s)) - cc_capacity (config s) in
  queue s' = drop excess (queue s ++ [m]) →
  delivered_queue_sequences s' = delivered_queue_sequences s →
  published_count (metrics s') = S (published_count (metrics s)) →
  overwrite_count (metrics s') = overwrite_count (metrics s) + excess →
  delivered_count (metrics s') = delivered_count (metrics s) →
  stale_drop_count (metrics s') = stale_drop_count (metrics s) →
  depth (metrics s') = length (queue s') →
  max_depth (metrics s') = Nat.max (max_depth (metrics s)) (length (queue s')) → queue_inv s'.
Proof.
  intros [I1 I2 I3 I4 I5 I6 I7 I8 I9 I10] Hc Hm Hn excess Hq Hr Hp Ho Hdl Hst Hd Hx.
  assert (length (queue s') = S (length (queue s)) - excess) as Hlen.
  { rewrite Hq, length_drop, length_app. simpl. lia. }
  assert (queue s' `sublist_of` queue s ++ [m]) as Hsub by (rewrite Hq; apply sublist_drop).
  assert (∀ x, x ∈ queue s' → x ∈ queue s ∨ x = m) as Hin.
  { intros x Hx'. eapply elem_of_sublist in Hx'; [|done]. apply elem_of_app in Hx' as [?|?%list_elem_of_singleton]; auto. }
  split; rewrite ?Hc, ?Hn, ?Hd, ?Hx, ?Hr; try (lia || done).
  - eapply increasing_sublist; [by apply fmap_sublist|]. unfold sequences. rewrite fmap_app. apply increasing_snoc; [done|].
    intros y (x&->&Hx')%list_elem_of_fmap. rewrite Hm. by apply I5.
  - intros x [Hx'| ->]%Hin; [|lia]. specialize (I5 x Hx'). lia.
  - intros r n Hl. specialize (I8 r n Hl). lia.
  - rewrite Hp, Ho, Hst, Hdl, I10. destruct (is_multi_reader _); lia.
Qed.

Lemma deliverable_elem s now r m : m ∈ deliverable s now r → m ∈ queue s.
Proof. intros. eapply elem_of_sublist; [done|apply deliverable_sublist]. Qed.

Lemma cursors_bounded s now reader taken rest q :
  queue_inv s → deliverable s now reader = taken ++ rest →
  ∀ r n, capped_cursors (cursor_after reader (is_multi_reader (cc_readers (config s)))
                           (delivered_queue_sequences s) taken) q !! r = Some n → n < next_sequence s.
Proof.
  intros I Hd r n H. eapply lookup_weaken in H; [|apply capped_cursors_subseteq].
  apply cursor_after_lookup in H as [H|(_&_&m&Hm&<-)]; [by eapply (qi_cursor _ I)|].
  apply (qi_old _ I), (deliverable_elem s now reader). rewrite Hd. apply elem_of_app. by left.
Qed.

Lemma queue_move_inv s s' op ms' : queue_move s s' op ms' → queue_inv s → queue_inv s'.
Proof.
  intros H I. pose proof I as [I1 I2 I3 I4 I5 I6 I7 I8 I9 I10]. destruct H.
  - unfold same_content, same_counts in *. split_hyps. apply (queue_inv_shrink s); try (done || congruence).
    + by use_eq (queue s').
    + intros r n Hr. enough (n < next_sequence s) by lia. apply (I8 r). congruence.
    + use_eq (queue s'). destruct (is_multi_reader _); lia.
  - by eapply (queue_inv_store s s' m).
  - apply (queue_inv_shrink s); try (done || lia).
    + use_eq (queue s'). destruct (is_multi_reader _) eqn:Em; [apply fresh_sublist|].
      etrans; [|apply (deliverable_sublist s now reader)]. use_eq (deliverable s now reader).
      by apply sublist_inserts_l.
    + use_eq (delivered_queue_sequences s'); use_eq (next_sequence s').
      by eapply cursors_bounded.
    + use_eq (delivered_queue_sequences s'). apply capped_cursors_size.
    + pose proof (fresh_length s now (queue s)).
      destruct (is_multi_reader (cc_readers (config s))) eqn:Em;
        use_eq (queue s'); [lia|].
      assert (length (fresh_messages s now (queue s)) = length taken + length rest).
      { rewrite <- (deliverable_length s now reader) by done.
        use_eq (deliverable s now reader). apply length_app. }
      lia.
  - apply (queue_inv_shrink s); try (done || lia || congruence).
    + use_eq (queue s'). apply fresh_sublist.
    + use_eq (delivered_queue_sequences s'); use_eq (next_sequence s'). done.
    + pose proof (fresh_length s now (queue s)). use_eq (queue s').
      destruct (is_multi_reader (cc_readers (config s))); lia.
Qed.

(** ** What a reader of a queue-style channel receives *)
Definition op_reader_in (Rs : gset string) (op : ChannelOp) : Prop :=
  match op with OpDrain _ r _ => r ∈ Rs | _ => True end.

Lemma cursor_after_dom r multi c taken Rs : r ∈ Rs → dom c ⊆ Rs → dom (cursor_after r multi c taken) ⊆ Rs.
Proof.
  unfold cursor_after. destruct multi; [|done]. revert c. induction taken as [|m t IH]; simpl; intros c Hr Hd; [done|].
  apply IH; [done|]. set_solver.
Qed.
Lemma cursor_after_other r r' multi c taken : r ≠ r' → cursor_after r multi c taken !! r' = c !! r'.
Proof.
  unfold cursor_after. destruct multi; [|done]. revert c. induction taken as [|m t IH]; simpl; intros c Hr; [done|].
  rewrite IH by done. by rewrite lookup_insert_ne.
Qed.
(** The cursor ends at the last message taken, above every other. *)
Lemma cursor_after_bound r c taken : increasing (sequences taken) →
  (∀ m, m ∈ taken → default 0 (c !! r) < msg_sequence m) →
  default 0 (c !! r) <= default 0 (cursor_after r true c taken !! r) ∧
  ∀ m, m ∈ taken → msg_sequence m <= default 0 (cursor_after r true c taken !! r).
Proof.
  unfold cursor_after. revert c. induction taken as [|m t IH]; simpl; intros c Hi Hm.
  { split; [done|]. intros m H. by apply elem_of_nil in H. }
  apply StronglySorted_inv in Hi as [Hi Hf]. rewrite Forall_forall in Hf.
  destruct (IH (<[r:=msg_sequence m]> c)) as [H1 H2]; [done| |].
  - intros x Hx. rewrite lookup_insert_eq. simpl. apply Hf. unfold sequences. apply list_elem_of_fmap. eauto.
  - rewrite lookup_insert_eq in H1. simpl in H1. specialize (Hm m ltac:(left)). split; [lia|].
    intros x [->|Hx]%elem_of_cons; auto.
Qed.
Lemma cursors_kept r multi c taken q Rs : r ∈ Rs → dom c ⊆ Rs → size Rs <= kMaxTrackedReaders →
  capped_cursors (cursor_after r multi c taken) q = cursor_after r multi c taken.
Proof.
  intros Hr Hd Hs. apply capped_cursors_small. rewrite <- (size_dom (D := gset string)).
  etrans; [apply subseteq_size; by apply cursor_after_dom|done].
Qed.

(** [D] is what reader [r] has received so far. *)
Record queue_received (Rs : gset string) (r : string) (s : ChannelState) (D : list nat) : Prop := {
  qr_increasing : increasing D;
  qr_old : ∀ d, d ∈ D -> d < next_sequence s;
  qr_dom : dom (delivered_queue_sequences s) ⊆ Rs;
  qr_ahead : if is_multi_reader (cc_readers (config s))
             then ∀ d, d ∈ D -> d <= default 0 (delivered_queue_sequences s !! r)
             else ∀ d m, d ∈ D -> m ∈ queue s -> d < msg_sequence m }.

Lemma elem_of_sequences d q : d ∈ sequences q ↔ ∃ m, m ∈ q ∧ d = msg_sequence m.
Proof. unfold sequences. rewrite list_elem_of_fmap. naive_solver. Qed.

Lemma increasing_app l1 l2 : increasing l1 → increasing l2 → (∀ x y, x ∈ l1 → y ∈ l2 → x < y) → increasing (l1 ++ l2).
Proof. intros. by apply StronglySorted_app. Qed.

(** What [reader] takes in a drain comes after all it has received, and leaves it ready for the next drain. *)
Lemma drain_receives Rs r s s' D now taken rest :
  queue_inv s → queue_received Rs r s D → r ∈ Rs → size Rs <= kMaxTrackedReaders →
  config s' = config s → next_sequence s' = next_sequence s → deliverable s now r = taken ++ rest →
  queue s' = (if is_multi_reader (cc_readers (config s)) then fresh_messages s now (queue s) else rest) →
  delivered_queue_sequences s' = capped_cursors (cursor_after r (is_multi_reader (cc_readers (config s)))
                                   (delivered_queue_sequences s) taken) (queue s') →
  queue_received Rs r s' (D ++ sequences taken).
Proof.
  intros I [R1 R2 R3 R4] Hr Hz Hc Hn Hd Hq Hcur. rewrite (cursors_kept _ _ _ _ _ Rs) in Hcur by done.
  assert (increasing (sequences (taken ++ rest))) as Hi.
  { rewrite <- Hd. eapply increasing_sublist; [apply fmap_sublist, deliverable_sublist|apply I]. }
  unfold sequences in Hi. rewrite fmap_app in Hi. apply StronglySorted_app in Hi as (Hlt&Hit&Hir).
  assert (∀ m, m ∈ taken → m ∈ queue s) as Hin.
  { intros m Hm. apply (deliverable_elem s now r). rewrite Hd. apply elem_of_app. by left. }
  assert (is_multi_reader (cc_readers (config s)) = true →
          ∀ m, m ∈ taken → default 0 (delivered_queue_sequences s !! r) < msg_sequence m) as Hnew.
  { intros Em m Hm. assert (m ∈ deliverable s now r) as Hx by (rewrite Hd; apply elem_of_app; by left).
    unfold deliverable in Hx. rewrite Em in Hx. by apply newer_than_spec in Hx. }
  split; rewrite ?Hc, ?Hn.
  - apply increasing_app; [done|done|]. intros x y Hx (m&Hm&->)%elem_of_sequences.
    destruct (is_multi_reader _); [|auto]. eapply Nat.le_lt_trans; [by apply R4|by apply Hnew].
  - intros d [?|(m&Hm&->)%elem_of_sequences]%elem_of_app; [auto|]. by apply (qi_old _ I), Hin.
  - rewrite Hcur. by apply cursor_after_dom.
  - rewrite Hcur. destruct (is_multi_reader _) eqn:Em.
    + destruct (cursor_after_bound r (delivered_queue_sequences s) taken Hit (Hnew eq_refl)) as [B1 B2].
      intros d [Hd'|(m&Hm&->)%elem_of_sequences]%elem_of_app; [|auto]. etrans; [by apply R4|done].
    + rewrite Hq. intros d m [Hd'|Hd']%elem_of_app Hm.
      * apply R4; [done|]. apply (deliverable_elem s now r). rewrite Hd. apply elem_of_app. by right.
      * apply Hlt; [done|]. apply list_elem_of_fmap. eauto.
Qed.

(** Anything else the channel does keeps what [r] has received behind what it may still receive. *)
Lemma received_shrink Rs r s s' D : queue_received Rs r s D → config s' = config s →
  next_sequence s <= next_sequence s' → queue s' `sublist_of` queue s →
  dom (delivered_queue_sequences s') ⊆ Rs →
  delivered_queue_sequences s' !! r = delivered_queue_sequences s !! r → queue_received Rs r s' D.
Proof.
  intros [R1 R2 R3 R4] Hc Hn Hq Hd Hr. split; rewrite ?Hc, ?Hr; try done.
  - intros d Hd'. specialize (R2 d Hd'). lia.
  - destruct (is_multi_reader _); [done|]. intros d m Hx Hm. apply R4; [done|]. by eapply elem_of_sublist.
Qed.
Lemma received_store Rs r s s' D m k : queue_received Rs r s D → config s' = config s →
  msg_sequence m = next_sequence s → next_sequence s' = S (next_sequence s) → queue s' = drop k (queue s ++ [m]) →
  delivered_queue_sequences s' = delivered_queue_sequences s → queue_received Rs r s' D.
Proof.
  intros [R1 R2 R3 R4] Hc Hm Hn Hq Hd. split; rewrite ?Hc, ?Hd, ?Hn; try done.
  - intros d Hx. specialize (R2 d Hx). lia.
  - destruct (is_multi_reader _); [done|]. intros d x Hx Hm'. rewrite Hq in Hm'.
    eapply elem_of_sublist in Hm'; [|apply sublist_drop]. apply elem_of_app in Hm' as [?| ->%list_elem_of_singleton]; [auto|].
    rewrite Hm. auto.
Qed.

Lemma queue_move_received Rs r s s' op ms' D :
  queue_move s s' op ms' → queue_inv s → size Rs <= kMaxTrackedReaders → op_reader_in Rs op →
  queue_received Rs r s D → queue_received Rs r s' (D ++ if drained_by r op then sequences ms' else []).
Proof.
  intros H I Hz Ho HR. destruct H.
  1, 2, 4: assert (∀ b : bool, (if b then sequences [] else []) = []) as Hb by (by intros []); rewrite Hb, app_nil_r.
  - unfold same_content in *. split_hyps. apply (received_shrink Rs r s); try (done || congruence).
    + by use_eq (queue s').
    + use_eq (delivered_queue_sequences s'). apply HR.
  - by eapply received_store.
  - apply (received_shrink Rs r s); try (done || congruence || lia).
    + use_eq (queue s'). apply fresh_sublist.
    + use_eq (delivered_queue_sequences s'). apply HR.
  - subst op. simpl in *. unfold str_eqb. case_bool_decide as E.
    + subst reader. rewrite sequences_delivered. by eapply drain_receives.
    + rewrite app_nil_r. apply (received_shrink Rs r s); try (done || lia).
      * use_eq (queue s'). destruct (is_multi_reader _); [apply fresh_sublist|].
        etrans; [|apply (deliverable_sublist s now reader)]. use_eq (deliverable s now reader). by apply sublist_inserts_l.
      * use_eq (delivered_queue_sequences s'). rewrite (cursors_kept _ _ _ _ _ Rs) by (done || apply HR).
        apply cursor_after_dom; [done|apply HR].
      * use_eq (delivered_queue_sequences s'). rewrite (cursors_kept _ _ _ _ _ Rs) by (done || apply HR).
        by apply cursor_after_other.
Qed.

(** ** Latest-style channels *)
Inductive latest_move (s s' : ChannelState) (op : ChannelOp) : list RuntimeChannelMessage -> Prop :=
| lm_note : same_content s s' -> next_sequence s <= next_sequence s' -> latest_move s s' op []
| lm_store m :
    config s' = config s -> msg_sequence m = next_sequence s -> next_sequence s' = S (next_sequence s) ->
    (if bool_decide (cc_type (config s) = kPreviousTick)
     then latest s' = latest s ∧ pending_previous_tick s' = Some m
     else latest s' = Some m ∧ pending_previous_tick s' = pending_previous_tick s) ->
    delivered_latest_sequences s' = delivered_latest_sequences s -> latest_move s s' op []
| lm_expire :
    config s' = config s -> next_sequence s' = next_sequence s ->
    pending_previous_tick s' = pending_previous_tick s -> latest s' = None ->
    delivered_latest_sequences s' = delivered_latest_sequences s -> latest_move s s' op []
| lm_read now reader max_batch m :
    op = OpDrain now reader max_batch -> config s' = config s -> next_sequence s' = next_sequence s ->
    pending_previous_tick s' = pending_previous_tick s -> latest s = Some m -> latest s' = Some m ->
    delivered_latest_sequences s !! reader ≠ Some (msg_sequence m) ->
    delivered_latest_sequences s' =
      (let d := <[reader := msg_sequence m]> (delivered_latest_sequences s) in
       if kMaxTrackedReaders <? size d then enforce_reader_cap (prune_latest_dedup d (msg_sequence m)) else d) ->
    latest_move s s' op [as_delivered s now m]
| lm_advance m :
    op = OpAdvance -> config s' = config s -> next_sequence s' = next_sequence s ->
    pending_previous_tick s = Some m -> pending_previous_tick s' = None -> latest s' = Some m ->
    delivered_latest_sequences s' = delivered_latest_sequences s -> latest_move s s' op [].

Lemma run_op_latest sink s op s' ms' :
  run_op sink s op = (s', ms') → is_latest_style (cc_type (config s)) = true → latest_move s s' op ms'.
Proof.
  intros H Hl. destruct op; simpl in H.
  - destruct (publish_to_state _ _ _ _ _ _ _) as [[[s1 ev] upd] r] eqn:E. injection H as <- <-.
    assert (publish_refusal s = None) as Er by (unfold publish_refusal; by rewrite Hl).
    destruct (publish_admitted sink now s payload ts copied md Er) as (s0&s2&ev2&upd2&E2&Ea&Hs&Hn&Hm).
    rewrite E in E2. injection E2 as -> -> -> ->. unfold same_content, same_counts in *.
    destruct Hs as (Hc&_&_&Hla&Hpe&_&Hdl&_). apply accept_message_latest in Ea; [|by rewrite Hc].
    rewrite Hc, Hla, Hpe in Ea. destruct Ea as (?&_&_&?&Hk&?&_).
    apply (lm_store _ _ _ (new_message now s payload ts md)); simpl; try congruence. by case_bool_decide; destruct Hk as (?&?&_).
  - unfold preflight_publish_to_state in H. rewrite Hl in H. simpl in H. simplify_eq. by apply lm_note.
  - destruct (preflight_payload_for_state _ _) as [s1 r] eqn:E. injection H as <- <-.
    unfold preflight_payload_for_state in E. repeat case_match; simplify_eq; by apply lm_note.
  - destruct (drain_channel _ _ _ _ _) as [[s1 ev] msgs] eqn:E. injection H as <- <-.
    unfold drain_channel in E. rewrite Hl in E. destruct (consume_latest_from_state _ _ _ _) as [[s2 ev2] om] eqn:E2.
    injection E as <- <- <-. apply consume_latest_spec in E2. cbv zeta in E2.
    destruct E2 as (?&?&?&?&?&?&?&?&Hom&Hd&_).
    destruct (latest s) as [c|] eqn:El; [|subst om; by apply lm_expire].
    destruct (message_expired s c now); [subst om; by apply lm_expire|]. case_bool_decide as Eb; subst om; simpl in *.
    + apply lm_note; [unfold same_content|lia]. repeat split; congruence.
    + rewrite as_delivered_sequence in Hd. by eapply lm_read.
  - destruct (snapshot_from_state _ _ _ _) as [[s1 ev] msgs] eqn:E. injection H as <- <-.
    apply snapshot_latest_spec in E; [|done]. cbv zeta in E. destruct E as (?&?&?&?&?&?&?&?&Hla&_).
    destruct (latest s) as [c|] eqn:El; [|by apply lm_expire]. destruct (message_expired s c now); [by apply lm_expire|].
    apply lm_note; [unfold same_content|lia]. repeat split; congruence.
  - unfold advance_channel in H. destruct (cc_type (config s)) eqn:Et; simplify_eq/=; try by apply lm_note.
    destruct (pending_previous_tick s) eqn:Ep; simplify_eq/=; [by eapply lm_advance|by apply lm_note].
Qed.

(** [D] is what reader [r] of a latest-style channel has received; every stored value is older than the next. *)
Record latest_received (Rs : gset string) (r : string) (s : ChannelState) (D : list nat) : Prop := {
  lr_increasing : increasing D;
  lr_dom : dom (delivered_latest_sequences s) ⊆ Rs;
  lr_old : ∀ d, d ∈ D -> d < next_sequence s;
  lr_latest : ∀ c, latest s = Some c -> msg_sequence c < next_sequence s;
  lr_pending : ∀ p, pending_previous_tick s = Some p -> msg_sequence p < next_sequence s ∧
                (∀ d, d ∈ D -> d < msg_sequence p) ∧ (∀ c, latest s = Some c -> msg_sequence c < msg_sequence p);
  lr_seen : ∀ c d, latest s = Some c -> d ∈ D ->
             d < msg_sequence c ∨ delivered_latest_sequences s !! r = Some (msg_sequence c) ∧ d <= msg_sequence c;
  lr_style : cc_type (config s) ≠ kPreviousTick -> pending_previous_tick s = None }.

Lemma latest_move_received Rs r s s' op ms' D :
  latest_move s s' op ms' → size Rs <= kMaxTrackedReaders → op_reader_in Rs op →
  latest_received Rs r s D → latest_received Rs r s' (D ++ if drained_by r op then sequences ms' else []).
Proof.
  intros H Hz Ho [R1 R2 R3 R4 R5 R6 R7].
  assert (∀ b : bool, (if b then sequences [] else []) = []) as Hb by (by intros []).
  destruct H as [Hs Hn|m Hc Hm Hn Hk Hd|Hc Hn Hp Hl Hd|now x mb m -> Hc Hn Hp Hl Hl' Hx Hd|m -> Hc Hn Hp Hp' Hl Hd];
    rewrite ?Hb, ?app_nil_r.
  - unfold same_content in Hs. destruct Hs as (Hc&_&_&Hl&Hp&_&Hd&_).
    split; rewrite ?Hc, ?Hd, ?Hl, ?Hp; try done.
    + intros d Hx. specialize (R3 d Hx). lia.
    + intros c Hx. specialize (R4 c Hx). lia.
    + intros p Hx. destruct (R5 p Hx) as (?&?&?). repeat split; auto; lia.
  - split; rewrite ?Hc, ?Hd, ?Hn; try done.
    + intros d Hx. specialize (R3 d Hx). lia.
    + intros c Hx. case_bool_decide; destruct Hk as [Hk1 Hk2]; [specialize (R4 c); rewrite Hk1 in Hx|rewrite Hk1 in Hx; simplify_eq; lia].
      specialize (R4 Hx). lia.
    + intros p Hx. case_bool_decide as Et; destruct Hk as [Hk1 Hk2]; rewrite Hk2 in Hx.
      * simplify_eq. rewrite Hm, Hk1. auto with lia.
      * rewrite (R7 Et) in Hx. done.
    + intros c d Hx Hdd. case_bool_decide; destruct Hk as [Hk1 Hk2]; rewrite Hk1 in Hx; [auto|].
      simplify_eq. left. rewrite Hm. auto.
    + intros Et. rewrite bool_decide_eq_false_2 in Hk by done. destruct Hk as [_ ->]. auto.
  - split; rewrite ?Hc, ?Hd, ?Hn, ?Hl, ?Hp; try done. intros p Hx. destruct (R5 p Hx) as (?&?&?). done.
  - assert (delivered_latest_sequences s' = <[x := msg_sequence m]> (delivered_latest_sequences s)) as Hd'.
    { rewrite Hd. cbv zeta. rewrite (proj2 (Nat.ltb_ge _ _)); [done|]. rewrite <- (size_dom (D := gset string)).
      etrans; [apply subseteq_size|exact Hz]. simpl in Ho. set_solver. }
    simpl in Ho. simpl drained_by. unfold str_eqb. case_bool_decide as E.
    + subst x. unfold sequences. cbn [fmap list_fmap]. rewrite as_delivered_sequence.
      assert (∀ d, d ∈ D → d < msg_sequence m) as HD.
      { intros d Hdd. destruct (R6 m d Hl Hdd) as [?|[? _]]; [done|congruence]. }
      split; rewrite ?Hc, ?Hn, ?Hd', ?Hl', ?Hp; try done.
      * by apply increasing_snoc.
      * set_solver.
      * intros d [?| ->%list_elem_of_singleton]%elem_of_app; auto.
      * intros c Hx'. simplify_eq. auto.
      * intros p Hx'. destruct (R5 p Hx') as (?&H1&H2). split; [done|]. split.
        -- intros d [?| ->%list_elem_of_singleton]%elem_of_app; auto.
        -- intros c Hc'. simplify_eq. auto.
      * intros c d Hx' Hdd. simplify_eq. rewrite lookup_insert_eq.
        apply elem_of_app in Hdd as [?| ->%list_elem_of_singleton]; [left; auto|right; auto].
    + rewrite app_nil_r. split; rewrite ?Hc, ?Hn, ?Hd', ?Hl', ?Hp; try done.
      * set_solver.
      * intros c Hx'. simplify_eq. auto.
      * intros p Hx'. destruct (R5 p Hx') as (?&H1&H2). repeat split; auto. intros c Hc'. simplify_eq. auto.
      * intros c d Hx' Hdd. simplify_eq. rewrite lookup_insert_ne by done. auto.
  - destruct (R5 m Hp) as (H1&H2&H3). split; rewrite ?Hc, ?Hd, ?Hn, ?Hl, ?Hp'; try done.
    + intros c Hx. by simplify_eq.
    + intros c d Hx Hdd. simplify_eq. left. auto.
Qed.

(** ** Runs *)
Lemma run_op_config sink s op s' ms' : run_op sink s op = (s', ms') → config s' = config s.
Proof.
  intros H. destruct (is_latest_style (cc_type (config s))) eqn:Hl.
  - apply run_op_latest in H; [|done]. destruct H; try done. by destruct H.
  - apply run_op_queue in H; [|done]. destruct H; try done. by destruct H.
Qed.

Section runs.
Context (sink : option nat).

(** Induction along a run, for an invariant that every operation of the channel preserves. *)
Lemma run_ops_ind (P : ChannelState -> Prop) s ops :
  (∀ s op s' ms', run_op sink s op = (s', ms') → P s → P s') → P s → P (run_ops sink s ops).
Proof.
  intros Hstep. revert s. induction ops as [|op ops IH]; intros s Hs; [done|]. unfold run_ops. simpl.
  destruct (run_op sink s op) as [s' ms'] eqn:E. apply IH. by eapply Hstep.
Qed.

Lemma run_ops_queue_inv s ops : is_latest_style (cc_type (config s)) = false → queue_inv s →
  queue_inv (run_ops sink s ops).
Proof.
  intros Hl Hi. apply (run_ops_ind (fun s => is_latest_style (cc_type (config s)) = false ∧ queue_inv s)); [|done].
  intros s0 op s' ms' Hr [Hl0 Hi0]. rewrite (run_op_config _ _ _ _ _ Hr). split; [done|].
  eapply queue_move_inv; [by eapply run_op_queue|done].
Qed.

Lemma received_queue Rs r s ops D :
  is_latest_style (cc_type (config s)) = false → queue_inv s → size Rs <= kMaxTrackedReaders →
  Forall (op_reader_in Rs) ops → queue_received Rs r s D → increasing (D ++ received sink r s ops).
Proof.
  revert s D. induction ops as [|op ops IH]; intros s D Hl Hi Hz Ho HR; simpl.
  { rewrite app_nil_r. apply HR. }
  apply Forall_cons in Ho as [Ho1 Ho2]. destruct (run_op sink s op) as [s' ms'] eqn:E.
  pose proof (run_op_queue _ _ _ _ _ E Hl) as Hm. rewrite app_assoc. apply IH; try done.
  - by rewrite (run_op_config _ _ _ _ _ E).
  - by eapply queue_move_inv.
  - by eapply queue_move_received.
Qed.
Lemma received_latest Rs r s ops D :
  is_latest_style (cc_type (config s)) = true → size Rs <= kMaxTrackedReaders →
  Forall (op_reader_in Rs) ops → latest_received Rs r s D → increasing (D ++ received sink r s ops).
Proof.
  revert s D. induction ops as [|op ops IH]; intros s D Hl Hz Ho HR; simpl.
  { rewrite app_nil_r. apply HR. }
  apply Forall_cons in Ho as [Ho1 Ho2]. destruct (run_op sink s op) as [s' ms'] eqn:E.
  pose proof (run_op_latest _ _ _ _ _ E Hl) as Hm. rewrite app_assoc. apply IH; try done.
  - by rewrite (run_op_config _ _ _ _ _ E).
  - by eapply latest_move_received.
Qed.
End runs.

Lemma queue_received_new Rs r spec : queue_received Rs r (new_channel_state spec) [].
Proof.
  unfold new_channel_state. split; simpl; [by constructor|..].
  - intros d Hd. by apply elem_of_nil in Hd.
  - rewrite dom_empty_L. set_solver.
  - case_match; intros d; intros; exfalso; by eapply (not_elem_of_nil d).
Qed.
Lemma latest_received_new Rs r spec : latest_received Rs r (new_channel_state spec) [].
Proof.
  unfold new_channel_state. split; simpl; try done; [by constructor|].
  intros d Hd. by apply elem_of_nil in Hd.
Qed.

(** ** Properties *)

(** C33. After any operations on a freshly built queue-style channel, its queue is within capacity, its sequence
    numbers increase and are below the next one, the depth gauge equals the queue length and never passed the
    capacity, at most 4096 reader cursors are kept, and every message ever accepted is accounted for: it is queued,
    or was evicted, or expired, or (with a single reader) was delivered. *)
Theorem channel_bounded_and_conserved sink spec ops :
  is_latest_style (channel_type_from_policy (edge_policy spec)) = false →
  queue_inv (run_ops sink (new_channel_state spec) ops).
Proof. intros H. apply run_ops_queue_inv; [done|]. apply queue_inv_new. Qed.

(** C32. Each reader of a channel receives messages in publication order and never twice, up to the cap on tracked readers: along any run in which at
    most 4096 distinct readers drain the channel, the sequence numbers delivered to a reader strictly increase,
    whatever the channel type, reader policy, batch sizes, expiry, evictions and interleaved publications.  (Beyond the cap the channel
    forgets the readers with the least names, whose next read may deliver a message again, as the comment in the code says.) *)
Theorem reader_receives_in_order sink spec ops (Rs : gset string) r :
  size Rs <= kMaxTrackedReaders → Forall (op_reader_in Rs) ops →
  increasing (received sink r (new_channel_state spec) ops).
Proof.
  intros Hz Ho. destruct (is_latest_style (cc_type (config (new_channel_state spec)))) eqn:Hl.
  - apply (received_latest sink Rs r _ ops []); try done. apply latest_received_new.
  - apply (received_queue sink Rs r _ ops []); try done; [apply queue_inv_new|apply queue_received_new].
Qed.

Definition is_advance (op : ChannelOp) : bool := match op with OpAdvance => true | _ => false end.

(** A [previous_tick] channel shows readers the value of the previous epoch only: no operation short of the
    epoch advance changes the visible value other than by expiry, a publication leaves it alone, and the advance
    makes exactly the most recently published message visible. *)
Theorem previous_tick_boundary sink s ops :
  cc_type (config s) = kPreviousTick → Forall (fun op => is_advance op = false) ops →
  let s1 := run_ops sink s ops in
  (latest s1 = latest s ∨ latest s1 = None) ∧
  ∀ now p ts copied md,
    let s2 := fst (run_op sink s1 (OpPublish now p ts copied md)) in
    latest s2 = latest s1 ∧ latest (fst (run_op sink s2 OpAdvance)) = Some (new_message now s1 p ts md).
Proof.
  intros Ht Ho s1.
  assert (cc_type (config s1) = kPreviousTick ∧ (latest s1 = latest s ∨ latest s1 = None)) as [Ht1 H1].
  { subst s1. revert s Ht. induction ops as [|op ops IH]; intros s Ht; [auto|].
    apply Forall_cons in Ho as [Ho1 Ho2]. unfold run_ops. simpl. destruct (run_op sink s op) as [s' ms'] eqn:E. simpl.
    pose proof (run_op_config _ _ _ _ _ E) as Hc. destruct (IH Ho2 s') as [H1 H2]; [by rewrite Hc|]. split; [done|].
    apply run_op_latest in E; [|by rewrite Ht]. unfold run_ops in H2.
    assert (latest s' = latest s ∨ latest s' = None) as [Hl|Hl]; [|by rewrite Hl in H2|rewrite Hl in H2; naive_solver].
    destruct E as [Hs|m ? ? ? Hk| |now x mb m ? ? ? ? H3 H4|]; subst; try auto; try done.
    - left. apply Hs.
    - rewrite bool_decide_eq_true_2 in Hk by done. left. apply Hk.
    - left. congruence. }
  split; [done|]. intros now p ts copied md. cbv zeta. simpl.
  destruct (publish_admitted sink now s1 p ts copied md) as (s0&s2&ev&upd&Ep&Ea&Hs&Hn&_).
  { unfold publish_refusal. by rewrite Ht1. }
  rewrite Ep. simpl. unfold same_content in Hs. destruct Hs as (Hc&_&_&Hla&_).
  apply accept_message_latest in Ea; [|by rewrite Hc, Ht1]. destruct Ea as (Hc2&_&_&_&Hk&_).
  rewrite bool_decide_eq_true_2 in Hk by (by rewrite Hc). destruct Hk as (Hk1&Hk2&_). split; [congruence|].
  unfold advance_channel. rewrite Hc2, Hc, Ht1, Hk2. done.
Qed.

(** A publication to a queue-style channel follows its drop policy exactly: when the queue is full and the
    policy is drop-newest, block or fail-fast, it is rejected with that policy's reason, no stored message or cursor
    changes and no update is signalled; otherwise it is accepted and the queue holds the newest [capacity] messages
    of the old queue followed by the new one, which carries the next sequence number. *)
Theorem publish_follows_drop_policy sink now s p ts copied md :
  is_latest_style (cc_type (config s)) = false →
  let '(s', _, updated, result) := publish_to_state sink now s p ts copied md in
  next_sequence s' = S (next_sequence s) ∧
  match refusal (cc_drop_policy (config s)) with
  | Some why => if queue_full s
      then result = reject why ∧ updated = false ∧ same_content s s' ∧ reject_count (metrics s') = S (reject_count (metrics s))
      else result = accept ∧ updated = true ∧
           queue s' = drop (S (length (queue s)) - cc_capacity (config s)) (queue s ++ [new_message now s p ts md])
  | None => result = accept ∧ updated = true ∧
      queue s' = drop (S (length (queue s)) - cc_capacity (config s)) (queue s ++ [new_message now s p ts md])
  end.
Proof.
  intros Hl. assert (publish_refusal s = if queue_full s then refusal (cc_drop_policy (config s)) else None) as Hr.
  { unfold publish_refusal. by rewrite Hl. }
  destruct (publish_refusal s) as [why|] eqn:Er.
  - destruct (publish_refused sink now s p ts copied md why Er) as (s'&ev&->&Hs&Hn&_&Hj).
    destruct (queue_full s); [|done]. by rewrite <- Hr.
  - destruct (publish_admitted sink now s p ts copied md Er) as (s0&s'&ev&upd&->&Ea&Hs&Hn&_).
    unfold same_content in Hs. destruct Hs as (Hc&_&_&_&_&Hq&_).
    apply accept_message_queue in Ea; [|by rewrite Hc]. cbv zeta in Ea. rewrite Hc, Hq, length_app, Nat.add_1_r in Ea.
    destruct Ea as (_&_&_&Hn'&_&_&Hq'&_&_&->&_). split; [congruence|].
    destruct (queue_full s), (refusal _); done.
Qed.

(** Draining a queue-style channel is the reference drain: the reader gets the oldest messages it may receive
    (unexpired and, with several readers, past its cursor), at most the batch bound, each flagged if its deadline
    passed; a single-reader queue keeps exactly the remaining unexpired messages and a multi-reader queue all
    unexpired ones; delivered and stale counters grow by exactly the numbers delivered and expired.  A barrier
    channel below capacity delivers nothing and does not change. *)
Theorem drain_is_reference sink now s reader max_batch :
  let '(s', ev, ms') := consume_from_state sink now s reader max_batch in
  let pending := deliverable s now reader in
  let room := if max_batch =? 0 then length pending else max_batch in
  if bool_decide (cc_type (config s) = kBarrier) && (length (queue s) <? cc_capacity (config s))
  then s' = s ∧ ms' = [] ∧ ev = []
  else ms' = as_delivered s now <$> take room pending ∧
    queue s' = (if is_multi_reader (cc_readers (config s)) then fresh_messages s now (queue s) else drop room pending) ∧
    delivered_count (metrics s') = delivered_count (metrics s) + length ms' ∧
    stale_drop_count (metrics s') =
      stale_drop_count (metrics s) + (length (queue s) - length (fresh_messages s now (queue s))) ∧
    depth (metrics s') = length (queue s').
Proof.
  destruct (consume_from_state sink now s reader max_batch) as [[s' ev] ms'] eqn:E. cbv zeta.
  fold (barrier_closed s). destruct (barrier_closed s) eqn:Eb.
  - unfold consume_from_state in E. unfold barrier_closed in Eb. rewrite Eb in E. by simplify_eq.
  - apply consume_from_state_spec in E; [|done]. cbv zeta in E. unfold drain_rest, batch_room in E.
    rewrite Nat.sub_0_r in E. split_hyps. rewrite length_fmap. by repeat split.
Qed.

(** Pruning the reader maps is invisible: dropping the cursors below the front of the queue changes nothing any
    reader may receive, and dropping the latest-value marks that are not of the current value changes no decision
    whether a reader has already seen it. *)
Theorem dedup_pruning_is_invisible s : queue_inv s →
  (∀ now r, deliverable (s <| delivered_queue_sequences ::= fun d => prune_queue_dedup d
                           (match queue s with [] => 0 | m :: _ => msg_sequence m end) |>) now r = deliverable s now r) ∧
  (∀ d r c, bool_decide (prune_latest_dedup d (msg_sequence c) !! r = Some (msg_sequence c)) =
            bool_decide (d !! r = Some (msg_sequence c))).
Proof.
  intros I. split.
  - intros now r. unfold deliverable. simpl. destruct (is_multi_reader _); [|done].
    change (fresh_messages (s <| delivered_queue_sequences ::= fun d => prune_queue_dedup d
             (match queue s with [] => 0 | m :: _ => msg_sequence m end) |>) now (queue s))
      with (fresh_messages s now (queue s)).
    set (f := fresh_messages s now (queue s)). unfold prune_queue_dedup.
    destruct (delivered_queue_sequences s !! r) as [n|] eqn:En.
    2: { by rewrite (proj2 (map_lookup_filter_None _ _ _)) by (by left). }
    destruct (queue s) as [|m q] eqn:Eq; [done|].
    destruct (decide (n < msg_sequence m)) as [Hlt|Hge].
    + rewrite (proj2 (map_lookup_filter_None _ _ _)) by (right; intros x Hx; simpl; naive_solver). simpl.
      apply List.filter_ext_in. intros x Hx%list_elem_of_In.
      assert (x ∈ m :: q) as Hx' by (eapply elem_of_sublist; [exact Hx|apply fresh_sublist]).
      assert (1 <= msg_sequence x) by (apply (qi_old _ I); by rewrite Eq).
      assert (msg_sequence m <= msg_sequence x).
      { apply elem_of_cons in Hx' as [->|Hx']; [done|]. pose proof (qi_sorted _ I) as Hs. rewrite Eq in Hs.
        apply StronglySorted_inv in Hs as [_ Hf]. rewrite Forall_forall in Hf. apply Nat.lt_le_incl, Hf, elem_of_sequences. eauto. }
      destruct (Nat.ltb_spec 0 (msg_sequence x)), (Nat.ltb_spec n (msg_sequence x)); (done || lia).
    + rewrite (proj2 (map_lookup_filter_Some _ _ _ n)); [done|]. split; [done|]. simpl.
      assert (1 <= msg_sequence m) by (apply (qi_old _ I); rewrite Eq; left). lia.
  - intros d r c. apply bool_decide_ext. unfold prune_latest_dedup. rewrite map_lookup_filter_Some. naive_solver.
Qed.

(** ** Concrete runs *)
Definition demo_policy (mode overflow readers : string) : EdgePolicySpec :=
  mkEdgePolicy mode 2 overflow 0 0 0 true true true "steady" "shared_view" "runtime" readers.
Definition demo_edge (mode overflow readers : string) : EdgeSpec :=
  mkEdge "e" "a.out" "b.in" kImmediate true "" (demo_policy mode overflow readers).
Definition demo_publish (n : Z) : ChannelOp :=
  OpPublish n (Some (make_text_payload "x" kTextPayloadSchema)) None false empty_metadata.
Definition demo_ops : list ChannelOp :=
  [demo_publish 1; demo_publish 2; OpDrain 3 "r1" 1; demo_publish 4; OpDrain 5 "r1" 0; OpDrain 6 "r2" 0].
Definition demo_state (mode overflow readers : string) : ChannelState :=
  run_ops None (new_channel_state (demo_edge mode overflow readers)) demo_ops.

Lemma channel_bounded_and_conserved_witness :
  published_count (metrics (demo_state "queue" "drop_oldest" "single")) = 3 ∧
  queue_inv (demo_state "queue" "drop_oldest" "single").
Proof. split; [vm_compute; reflexivity|]. apply channel_bounded_and_conserved. vm_compute. reflexivity. Defined.
Lemma reader_receives_in_order_witness :
  received None "r1" (new_channel_state (demo_edge "queue" "drop_oldest" "multi")) demo_ops = [1; 2; 3] ∧
  increasing (received None "r1" (new_channel_state (demo_edge "queue" "drop_oldest" "multi")) demo_ops).
Proof.
  split; [vm_compute; reflexivity|]. apply (reader_receives_in_order None _ _ {["r1"; "r2"]}).
  - apply Nat.leb_le. vm_compute. reflexivity.
  - repeat constructor; apply (bool_decide_unpack _); vm_compute; exact I.
Defined.
Lemma previous_tick_boundary_witness :
  let s1 := demo_state "previous_tick" "overwrite" "single" in
  let s2 := fst (run_op None s1 (OpPublish 9 None None false empty_metadata)) in
  latest s1 = None ∧ latest s2 = latest s1 ∧
  latest (fst (run_op None s2 OpAdvance)) = Some (new_message 9 s1 None None empty_metadata).
Proof.
  split; [vm_compute; reflexivity|].
  apply (previous_tick_boundary None (new_channel_state (demo_edge "previous_tick" "overwrite" "single")) demo_ops).
  - reflexivity.
  - repeat constructor.
Defined.
Lemma publish_follows_drop_policy_witness :
  let s := demo_state "queue" "fail_fast" "multi" in
  queue_full s = true ∧
  let '(s', _, updated, result) := publish_to_state None 9 s None None false empty_metadata in
  next_sequence s' = S (next_sequence s) ∧
  (result = reject "channel capacity exceeded" ∧ updated = false ∧ same_content s s' ∧
   reject_count (metrics s') = S (reject_count (metrics s))).
Proof.
  split; [vm_compute; reflexivity|].
  apply (publish_follows_drop_policy None 9 (demo_state "queue" "fail_fast" "multi") None None false empty_metadata).
  reflexivity.
Defined.
Lemma dedup_pruning_is_invisible_witness :
  let s := demo_state "queue" "drop_oldest" "multi" in
  let pruned := s <| delivered_queue_sequences ::= fun d => prune_queue_dedup d
                       (match queue s with [] => 0 | m :: _ => msg_sequence m end) |> in
  length (queue s) = 2 ∧ deliverable pruned 7 "r3" = deliverable s 7 "r3".
Proof.
  split; [vm_compute; reflexivity|]. apply (dedup_pruning_is_invisible (demo_state "queue" "drop_oldest" "multi")).
  apply run_ops_queue_inv; [reflexivity|apply queue_inv_new].
Defined.
