(* ===== verification/Bus.v ===== *)
(** * Bus: the channel bus

    Models [RuntimeChannelBus] of [src/channel.cpp]: the channels of a graph with their indices by source endpoint
    and by target component, and every public operation.  An operation holds [mutex_] for its body, so it is one
    function from bus to bus; it returns the health events that it emits after unlocking.  The outer [option] is
    [None] where the code would throw ([channels_.at] of a missing id, or a copy of a payload that is not text).  An
    operation that visits several channels reads the steady clock once per visit: [clock i] is the reading of the
    i-th visit. *)

From S2P Require Export Channel.
Local Open Scope nat_scope.

(** ** Data *)
Inductive RuntimeChannelPublishTarget := kChannel | kSourceEndpoint.
#[export] Instance RuntimeChannelPublishTarget_eq_dec : EqDecision RuntimeChannelPublishTarget.
Proof. solve_decision. Defined.
Record RuntimeChannelPublication := mkPublication {
  pub_target : RuntimeChannelPublishTarget; pub_id : string; pub_payload : RuntimePayloadPtr; pub_kind : EdgeKind;
  pub_event_timestamp : option EventTimestamp; pub_metadata : InvocationMetadata }.
Record RuntimeChannelReadResult := mkReadResult {
  rr_ok : bool; rr_message : option RuntimeChannelMessage; rr_reason : string }.

Record RuntimeChannelBus := mkBus {
  channels : gmap string ChannelState; source_to_channels : gmap string (list string);
  component_to_channels : gmap string (list string); update_sequence : nat; health_events : option nat }.
#[export] Instance eta_RuntimeChannelBus : Eta RuntimeChannelBus := fun b =>
  mkBus (channels b) (source_to_channels b) (component_to_channels b) (update_sequence b) (health_events b).

(** [m[k].push_back(v)]. *)
Definition push_index (m : gmap string (list string)) (k v : string) : gmap string (list string) :=
  <[k := map_at [] m k ++ [v]]> m.
Definition add_channel (b : RuntimeChannelBus) (spec : EdgeSpec) : RuntimeChannelBus :=
  b <| channels ::= <[edge_id spec := new_channel_state spec]> |>
    <| source_to_channels ::= fun m => push_index m (edge_from spec) (edge_id spec) |>
    <| component_to_channels ::= fun m => push_index m (component_id_from_endpoint (edge_to spec)) (edge_id spec) |>.
Definition RuntimeChannelBus_new (specs : list EdgeSpec) : RuntimeChannelBus :=
  fold_left add_channel specs (mkBus ∅ ∅ ∅ 0 None).

Definition bus_empty (b : RuntimeChannelBus) : bool := bool_decide (channels b = ∅).
Definition has_channel (b : RuntimeChannelBus) (channel_id : string) : bool :=
  has_value (channels b !! channel_id).
Definition set_health_event_sink (sink : option nat) (b : RuntimeChannelBus) : RuntimeChannelBus :=
  b <| health_events := sink |>.
(** [wait_for_update] returns once this holds, or at its timeout. *)
Definition update_ready (b : RuntimeChannelBus) (last_seen : nat) (stop_requested : bool) : bool :=
  negb (update_sequence b =? last_seen) || stop_requested.

(** The publication stage a client fills before a batch. *)
Definition stage (publications : list RuntimeChannelPublication) (p : RuntimeChannelPublication)
  : list RuntimeChannelPublication * RuntimeChannelPublishResult :=
  if str_empty (pub_id p) then (publications, reject "publication id must not be empty") else
  match pub_payload p with
  | None => (publications, reject "publication payload must not be null")
  | Some _ => (publications ++ [p], accept)
  end.

(** ** Publishing *)
Definition Published : Type := RuntimeChannelBus * list PendingChannelHealthEvent * RuntimeChannelPublishResult.

(** Prepare the payload for one channel and publish it: the common body of every publication. *)
Definition store_publication (b : RuntimeChannelBus) (now : Z) (channel_id : string) (state : ChannelState)
    (payload : RuntimePayload) (ts : option EventTimestamp) (md : InvocationMetadata) : option Published :=
  match prepare_payload_for_state state payload with
  | None => None
  | Some (state, inl rejected) => Some (b <| channels ::= <[channel_id := state]> |>, [], rejected)
  | Some (state, inr (payload_for_channel, copied)) =>
      let '(state, ev, updated, result) :=
        publish_to_state (health_events b) now state payload_for_channel ts copied md in
      Some (b <| channels ::= <[channel_id := state]> |>
              <| update_sequence ::= fun n => if updated : bool then S n else n |>, ev, result)
  end.

Definition publish_shared_with_metadata (b : RuntimeChannelBus) (now : Z) (channel_id : string)
    (payload : RuntimePayloadPtr) (md : InvocationMetadata) (ts : option EventTimestamp) : option Published :=
  match payload with
  | None => Some (b, [], reject "payload must not be null")
  | Some p =>
      match channels b !! channel_id with
      | None => Some (b, [], reject ("unknown channel: " +:+ channel_id))
      | Some state => store_publication b now channel_id state p ts md
      end
  end.
Definition publish_with_metadata (b : RuntimeChannelBus) (now : Z) (channel_id : string) (payload : RuntimePayload)
    (md : InvocationMetadata) (ts : option EventTimestamp) : option Published :=
  publish_shared_with_metadata b now channel_id (make_shared_payload payload) md ts.

(** An expanded publication: one payload bound to one channel. *)
Record ExpandedPublication := mkExpanded {
  ex_channel_id : string; ex_payload : RuntimePayload; ex_event_timestamp : option EventTimestamp;
  ex_metadata : InvocationMetadata }.

(** The preflight of one expanded publication, with [++planned_publications[channel_id]] when it passes. *)
Definition preflight_channel (b : RuntimeChannelBus) (planned : gmap string nat) (channel_id : string)
    (payload : RuntimePayload) : option (Published * gmap string nat) :=
  match channels b !! channel_id with
  | None => None
  | Some state =>
      let '(state, payload_preflight) := preflight_payload_for_state state payload in
      let b := b <| channels ::= <[channel_id := state]> |> in
      if negb (accepted payload_preflight) then Some (b, [], payload_preflight, planned) else
      let '(state, ev, capacity_preflight) :=
        preflight_publish_to_state (health_events b) state (map_at 0 planned channel_id) in
      let b := b <| channels ::= <[channel_id := state]> |> in
      if negb (accepted capacity_preflight) then Some (b, ev, capacity_preflight, planned)
      else Some (b, ev, accept, <[channel_id := S (map_at 0 planned channel_id)]> planned)
  end.

(** Preflight a payload for each channel of a source endpoint, stopping at the first refusal; the publications
    that passed are returned for the commit. *)
Fixpoint preflight_channels (b : RuntimeChannelBus) (planned : gmap string nat) (ids : list string)
    (payload : RuntimePayload) (ts : option EventTimestamp) (md : InvocationMetadata)
  : option (Published * gmap string nat * list ExpandedPublication) :=
  match ids with
  | [] => Some (b, [], accept, planned, [])
  | id :: rest =>
      match preflight_channel b planned id payload with
      | None => None
      | Some (b, ev, result, planned) =>
          if negb (accepted result) then Some (b, ev, result, planned, []) else
          match preflight_channels b planned rest payload ts md with
          | None => None
          | Some (b, ev', result, planned, expanded) =>
              Some (b, ev ++ ev', result, planned, mkExpanded id payload ts md :: expanded)
          end
      end
  end.

(** The commit loop: store each expanded publication, stopping at the first rejection. *)
Fixpoint commit_expanded (b : RuntimeChannelBus) (clock : nat -> Z) (expanded : list ExpandedPublication)
  : option Published :=
  match expanded with
  | [] => Some (b, [], accept)
  | e :: rest =>
      match channels b !! ex_channel_id e with
      | None => None
      | Some state =>
          match store_publication b (clock 0) (ex_channel_id e) state (ex_payload e) (ex_event_timestamp e) (ex_metadata e) with
          | None => None
          | Some (b, ev, result) =>
              if negb (accepted result) then Some (b, ev, result) else
              match commit_expanded b (fun i => clock (S i)) rest with
              | None => None
              | Some (b, ev', result) => Some (b, ev ++ ev', result)
              end
          end
      end
  end.

Definition publish_shared_from_with_metadata (b : RuntimeChannelBus) (clock : nat -> Z) (source_endpoint : string)
    (payload : RuntimePayloadPtr) (md : InvocationMetadata) (ts : option EventTimestamp) : option Published :=
  match payload with
  | None => Some (b, [], reject "payload must not be null")
  | Some p =>
      match source_to_channels b !! source_endpoint with
      | None => Some (b, [], reject ("unknown source endpoint: " +:+ source_endpoint))
      | Some ids =>
          let md := metadata_for_source_endpoint md source_endpoint in
          let commit b := commit_expanded b clock ((fun id => mkExpanded id p ts md) <$> ids) in
          if 1 <? length ids then
            match preflight_channels b ∅ ids p ts md with
            | None => None
            | Some (b, ev, result, _, _) =>
                if negb (accepted result) then Some (b, ev, result) else
                match commit b with
                | None => None
                | Some (b, ev', result) => Some (b, ev ++ ev', result)
                end
            end
          else commit b
      end
  end.
Definition publish_from_with_metadata (b : RuntimeChannelBus) (clock : nat -> Z) (source_endpoint : string)
    (payload : RuntimePayload) (md : InvocationMetadata) (ts : option EventTimestamp) : option Published :=
  publish_shared_from_with_metadata b clock source_endpoint (make_shared_payload payload) md ts.

(** The expansion loop of [publish_batch]. *)
Fixpoint expand_publications (b : RuntimeChannelBus) (planned : gmap string nat)
    (publications : list RuntimeChannelPublication) : option (Published * list ExpandedPublication) :=
  match publications with
  | [] => Some (b, [], accept, [])
  | publication :: rest =>
      match pub_payload publication with
      | None => Some (b, [], reject "payload must not be null", [])
      | Some payload =>
          let continue_with ids md :=
            match preflight_channels b planned ids payload (pub_event_timestamp publication) md with
            | None => None
            | Some (b, ev, result, planned, expanded) =>
                if negb (accepted result) then Some (b, ev, result, expanded) else
                match expand_publications b planned rest with
                | None => None
                | Some (b, ev', result, expanded') => Some (b, ev ++ ev', result, expanded ++ expanded')
                end
            end in
          match pub_target publication with
          | kChannel =>
              match channels b !! pub_id publication with
              | None => Some (b, [], reject ("unknown channel: " +:+ pub_id publication), [])
              | Some _ => continue_with [pub_id publication] (pub_metadata publication)
              end
          | kSourceEndpoint =>
              match source_to_channels b !! pub_id publication with
              | None => Some (b, [], reject ("unknown source endpoint: " +:+ pub_id publication), [])
              | Some ids => continue_with ids (metadata_for_source_endpoint (pub_metadata publication) (pub_id publication))
              end
          end
      end
  end.
Definition publish_batch (b : RuntimeChannelBus) (clock : nat -> Z) (publications : list RuntimeChannelPublication)
  : option Published :=
  match expand_publications b ∅ publications with
  | None => None
  | Some (b, ev, result, expanded) =>
      if negb (accepted result) then Some (b, ev, result) else
      match commit_expanded b clock expanded with
      | None => None
      | Some (b, ev', result) => Some (b, ev ++ ev', result)
      end
  end.

(** ** The epoch boundary *)
Definition advance_epoch (b : RuntimeChannelBus) : RuntimeChannelBus :=
  let updated := existsb (fun kv => snd (advance_channel kv.2)) (map_to_list (channels b)) in
  b <| channels ::= fmap (fun s => fst (advance_channel s)) |>
    <| update_sequence ::= fun n => if updated then S n else n |>.

(** ** Reading *)
Definition Reading (A : Type) : Type := RuntimeChannelBus * list PendingChannelHealthEvent * A.

(** [channels_.at(id)] for each id, keeping those whose target port matches ([""] matches every port). *)
Fixpoint matching_ids (b : RuntimeChannelBus) (port_name : string) (ids : list string) : option (list string) :=
  match ids with
  | [] => Some []
  | id :: rest =>
      match channels b !! id with
      | None => None
      | Some state =>
          option_map (fun l => if str_empty port_name || str_eqb (port_name_from_endpoint (to state)) port_name
                               then id :: l else l) (matching_ids b port_name rest)
      end
  end.
Definition channel_ids_for_component_port (b : RuntimeChannelBus) (component_id port_name : string)
  : option (list string) := matching_ids b port_name (map_at [] (component_to_channels b) component_id).

(** Run [f] on the stored state of channel [id] and store the state it returns. *)
Definition with_channel {A} (b : RuntimeChannelBus) (id : string)
    (f : ChannelState -> ChannelState * list PendingChannelHealthEvent * A) : option (Reading A) :=
  match channels b !! id with
  | None => None
  | Some state => let '(state, ev, a) := f state in Some (b <| channels ::= <[id := state]> |>, ev, a)
  end.

Definition read_latest_for_reader (b : RuntimeChannelBus) (now : Z) (channel_id reader_id : string)
  : option (Reading RuntimeChannelReadResult) :=
  match channels b !! channel_id with
  | None => Some (b, [], mkReadResult false None ("unknown channel: " +:+ channel_id))
  | Some state =>
      if negb (is_latest_style (cc_type (config state)))
      then Some (b, [], mkReadResult false None ("channel is not latest-style: " +:+ channel_id))
      else with_channel b channel_id (fun state =>
             let '(state, ev, m) := consume_latest_from_state (health_events b) now state reader_id in
             (state, ev, mkReadResult true m ""))
  end.

(** The first channel of [ids] for which [f] yields a message. *)
Fixpoint first_message (b : RuntimeChannelBus) (clock : nat -> Z) (ids : list string)
    (f : Z -> ChannelState -> ChannelState * list PendingChannelHealthEvent * option RuntimeChannelMessage)
  : option (Reading (option RuntimeChannelMessage)) :=
  match ids with
  | [] => Some (b, [], None)
  | id :: rest =>
      match with_channel b id (f (clock 0)) with
      | None => None
      | Some (b, ev, Some m) => Some (b, ev, Some m)
      | Some (b, ev, None) =>
          match first_message b (fun i => clock (S i)) rest f with
          | None => None
          | Some (b, ev', m) => Some (b, ev ++ ev', m)
          end
      end
  end.

Definition read_latest_update_for_component_port (b : RuntimeChannelBus) (clock : nat -> Z)
    (component_id port_name : string) : option (Reading RuntimeChannelReadResult) :=
  match channel_ids_for_component_port b component_id port_name with
  | None => None
  | Some ids =>
      match first_message b clock ids (fun now state =>
              if negb (is_latest_style (cc_type (config state))) then (state, [], None)
              else consume_latest_from_state (health_events b) now state (component_id +:+ "." +:+ port_name)) with
      | None => None
      | Some (b, ev, m) => Some (b, ev, mkReadResult true m "")
      end
  end.
Definition peek_latest_for_component_port (b : RuntimeChannelBus) (clock : nat -> Z)
    (component_id port_name : string) : option (Reading RuntimeChannelReadResult) :=
  match channel_ids_for_component_port b component_id port_name with
  | None => None
  | Some ids =>
      match first_message b clock ids (fun now state =>
              let '(state, ev, l) := snapshot_from_state (health_events b) now state 1 in (state, ev, head l)) with
      | None => None
      | Some (b, ev, m) => Some (b, ev, mkReadResult true m "")
      end
  end.

Definition drain_for_reader (b : RuntimeChannelBus) (now : Z) (channel_id reader_id : string) (max_batch : nat)
  : option (Reading (list RuntimeChannelMessage)) :=
  match channels b !! channel_id with
  | None => Some (b, [], [])
  | Some _ => with_channel b channel_id (fun state => drain_channel (health_events b) now state reader_id max_batch)
  end.

(** The loop of the batched reads: visit the channels until the batch is full, asking each for what is left of it.
    [f] is asked with 0 for an unbounded batch; [push] appends what the channel gave. *)
Fixpoint visit_channels (b : RuntimeChannelBus) (clock : nat -> Z) (ids : list string) (max_batch : nat)
    (messages : list RuntimeChannelMessage)
    (f : Z -> nat -> ChannelState -> ChannelState * list PendingChannelHealthEvent * list RuntimeChannelMessage)
    (push : ChannelState -> list RuntimeChannelMessage -> list RuntimeChannelMessage -> list RuntimeChannelMessage)
  : option (Reading (list RuntimeChannelMessage)) :=
  match ids with
  | [] => Some (b, [], messages)
  | id :: rest =>
      if batch_full max_batch messages then Some (b, [], messages) else
      match channels b !! id with
      | None => None
      | Some state =>
          let '(state', ev, got) := f (clock 0) (if max_batch =? 0 then 0 else max_batch - length messages) state in
          match visit_channels (b <| channels ::= <[id := state']> |>) (fun i => clock (S i)) rest max_batch
                  (push state messages got) f push with
          | None => None
          | Some (b, ev', messages) => Some (b, ev ++ ev', messages)
          end
      end
  end.

(** [for (message : got) { if (max_batch != 0 && messages.size() >= max_batch) break; messages.push_back(...); }] *)
Fixpoint push_bounded (max_batch : nat) (messages got : list RuntimeChannelMessage) : list RuntimeChannelMessage :=
  match got with
  | [] => messages
  | m :: rest => if batch_full max_batch messages then messages else push_bounded max_batch (messages ++ [m]) rest
  end.

Definition snapshot_for_component_port (b : RuntimeChannelBus) (clock : nat -> Z) (component_id port_name : string)
    (max_batch : nat) : option (Reading (list RuntimeChannelMessage)) :=
  match channel_ids_for_component_port b component_id port_name with
  | None => None
  | Some ids =>
      visit_channels b clock ids max_batch []
        (fun now remaining state => snapshot_from_state (health_events b) now state remaining)
        (fun _ messages got => push_bounded max_batch messages got)
  end.
Definition drain_for_component_port (b : RuntimeChannelBus) (clock : nat -> Z) (component_id port_name : string)
    (max_batch : nat) : option (Reading (list RuntimeChannelMessage)) :=
  match channel_ids_for_component_port b component_id port_name with
  | None => None
  | Some ids =>
      visit_channels b clock ids max_batch []
        (fun now remaining state =>
           drain_channel (health_events b) now state (component_id +:+ "." +:+ port_name) remaining)
        (fun state messages got => if is_latest_style (cc_type (config state)) then messages ++ got
                                   else push_bounded max_batch messages got)
  end.
Definition consume_for_component (b : RuntimeChannelBus) (clock : nat -> Z) (component_id : string)
  : option (Reading (list RuntimeChannelMessage)) :=
  visit_channels b clock (map_at [] (component_to_channels b) component_id) 0 []
    (fun now _ state => drain_channel (health_events b) now state component_id 0)
    (fun _ messages got => messages ++ got).

(** ** Metrics *)
Definition bus_metrics (b : RuntimeChannelBus) (channel_id : string) : RuntimeChannelMetrics :=
  match channels b !! channel_id with
  | None => empty_channel_metrics channel_id
  | Some state => metrics_from_state state
  end.
Definition metrics_snapshot (b : RuntimeChannelBus) : list RuntimeChannelMetrics :=
  metrics_from_state <$> (map_items (channels b)).*2.
Definition configured_capacity_for_component_port (b : RuntimeChannelBus) (component_id port_name : string)
  : option nat :=
  match channel_ids_for_component_port b component_id port_name with
  | None => None
  | Some ids => mapM (fun id => channels b !! id) ids ≫= fun states =>
      Some (sum_list_with (fun s => Nat.max 1 (cc_capacity (config s))) states)
  end.

(** ** Emission after unlocking: each captured event goes to the sink captured with it *)
Definition emit_pending_health_events (env : nat -> bool * Z) (sinks : gmap nat HealthEventSink)
    (events : list PendingChannelHealthEvent) : gmap nat HealthEventSink :=
  fst (fold_left (fun (acc : gmap nat HealthEventSink * nat) e =>
         let '(sinks, i) := acc in
         (alter (sink_emit (env i).1 (env i).2 (pe_event e)) (pe_sink e) sinks, S i)) events (sinks, 0)).
