(* ===== verification/BusFacts.v ===== *)
(** * BusFacts: what the bus guarantees

    Every bus operation is total on a well-formed bus and moves each channel by channel operations only, so the
    invariants of [ChannelInv.v] hold on every reachable bus; publications to several channels are all-or-nothing;
    batched reads respect their bound and lose nothing. *)

From S2P Require Export Bus ChannelInv.
Local Open Scope nat_scope.

(** ** Channel moves *)
Definition chan_step (s s' : ChannelState) : Prop := ∃ sink op, s' = fst (run_op sink s op).
Abbreviation chan_moves := (rtc chan_step).

Lemma chan_step_op sink op s : chan_step s (fst (run_op sink s op)).
Proof. by exists sink, op. Qed.
Lemma chan_moves_config s s' : chan_moves s s' → config s' = config s.
Proof.
  induction 1 as [|s s1 s2 (sink&op&->) _ IH]; [done|]. rewrite IH. destruct (run_op sink s op) eqn:E.
  by apply run_op_config in E.
Qed.
Lemma chan_moves_queue_inv s s' : chan_moves s s' → is_latest_style (cc_type (config s)) = false →
  queue_inv s → queue_inv s'.
Proof.
  induction 1 as [|s s1 s2 (sink&op&->) _ IH]; [done|]. intros Hl Hi. destruct (run_op sink s op) as [t ms'] eqn:E.
  apply IH; simpl.
  - by rewrite (run_op_config _ _ _ _ _ E).
  - eapply queue_move_inv; [by eapply run_op_queue|done].
Qed.

(** One channel operation per private operation of the bus. *)
Lemma publish_chan_step sink now s p ts copied md s' ev upd r :
  publish_to_state sink now s p ts copied md = (s', ev, upd, r) → chan_step s s'.
Proof. intros E. exists sink, (OpPublish now p ts copied md). simpl. by rewrite E. Qed.
Lemma preflight_chan_step sink s n s' ev r : preflight_publish_to_state sink s n = (s', ev, r) → chan_step s s'.
Proof. intros E. exists sink, (OpPreflight n). simpl. by rewrite E. Qed.
Lemma preflight_payload_chan_step s p s' r : preflight_payload_for_state s p = (s', r) → chan_step s s'.
Proof. intros E. exists None, (OpPreflightPayload p). simpl. by rewrite E. Qed.
Lemma drain_chan_step sink now s r n s' ev l : drain_channel sink now s r n = (s', ev, l) → chan_step s s'.
Proof. intros E. exists sink, (OpDrain now r n). simpl. by rewrite E. Qed.
Lemma snapshot_chan_step sink now s n s' ev l : snapshot_from_state sink now s n = (s', ev, l) → chan_step s s'.
Proof. intros E. exists sink, (OpSnapshot now n). simpl. by rewrite E. Qed.
Lemma read_latest_chan_step sink now s r s' ev m : is_latest_style (cc_type (config s)) = true →
  consume_latest_from_state sink now s r = (s', ev, m) → chan_step s s'.
Proof.
  intros Hl E. exists sink, (OpDrain now r 0). simpl. unfold drain_channel. by rewrite Hl, E.
Qed.
#[export] Hint Resolve publish_chan_step preflight_chan_step preflight_payload_chan_step drain_chan_step
  snapshot_chan_step read_latest_chan_step : topoexec.

(** The payload preparation never throws, since a payload that is not text is refused before it is copied; it
    leaves the channel alone unless it refuses, and refuses exactly what the preflight refuses. *)
Lemma prepare_payload_total s p : ∃ s' r, prepare_payload_for_state s p = Some (s', r) ∧ chan_moves s s' ∧
  match r with
  | inr _ => s' = s ∧ preflight_payload_for_state s p = (s, accept)
  | inl rej => accepted rej = false ∧ same_content s s' ∧ next_sequence s' = next_sequence s ∧
               preflight_payload_for_state s p = (s', rej)
  end.
Proof.
  unfold prepare_payload_for_state, preflight_payload_for_state, large_payload_copy_reason. case_bool_decide as Ec.
  - rewrite bool_decide_eq_false_2 by auto.
    destruct (copy_text_payload_spec p) as [[-> ->]|[El _]]; [eexists _, _; by repeat split|]. rewrite El. simpl.
    eexists _, _. split; [done|]. split; [|by repeat split].
    apply rtc_once. exists None, (OpPreflightPayload p). simpl. unfold preflight_payload_for_state, large_payload_copy_reason.
    rewrite bool_decide_eq_false_2 by auto. by rewrite El.
  - rewrite bool_decide_eq_true_2 by auto. eexists _, _. by repeat split.
Qed.

(** ** Bus moves *)
Record bus_moves (b b' : RuntimeChannelBus) : Prop := {
  bm_source : source_to_channels b' = source_to_channels b;
  bm_component : component_to_channels b' = component_to_channels b;
  bm_channels : ∀ id, option_Forall2 chan_moves (channels b !! id) (channels b' !! id) }.

Lemma bus_moves_refl b : bus_moves b b.
Proof. split; [done|done|]. intros id. destruct (channels b !! id); constructor; apply rtc_refl. Qed.
Lemma bus_moves_trans b1 b2 b3 : bus_moves b1 b2 → bus_moves b2 b3 → bus_moves b1 b3.
Proof.
  intros [S1 C1 M1] [S2 C2 M2]. split; [congruence|congruence|]. intros id. specialize (M1 id). specialize (M2 id).
  destruct M1; inversion M2; subst; constructor. by etrans.
Qed.
Lemma bus_moves_store b b' id s s' : channels b !! id = Some s → chan_moves s s' →
  channels b' = <[id := s']> (channels b) → source_to_channels b' = source_to_channels b →
  component_to_channels b' = component_to_channels b → bus_moves b b'.
Proof.
  intros Hl Hm Hc Hs Hcm. split; [done|done|]. intros k. rewrite Hc. destruct (decide (k = id)) as [->|Hne].
  - rewrite Hl, lookup_insert_eq. by constructor.
  - rewrite lookup_insert_ne by done. destruct (channels b !! k); constructor; apply rtc_refl.
Qed.
Lemma bus_moves_has b b' id : bus_moves b b' → is_Some (channels b' !! id) ↔ is_Some (channels b !! id).
Proof. intros [_ _ M]. destruct (M id); naive_solver. Qed.
#[export] Hint Resolve bus_moves_refl : topoexec.

(** Every id of the indices names a channel. *)
Definition has_all (b : RuntimeChannelBus) (ids : list string) : Prop := Forall (fun id => is_Some (channels b !! id)) ids.
Record bus_wf (b : RuntimeChannelBus) : Prop := {
  wf_source : ∀ k ids, source_to_channels b !! k = Some ids -> has_all b ids;
  wf_component : ∀ k ids, component_to_channels b !! k = Some ids -> has_all b ids }.
Lemma has_all_moves b b' ids : bus_moves b b' → has_all b ids → has_all b' ids.
Proof. intros M H. eapply Forall_impl; [exact H|]. intros id. by apply bus_moves_has. Qed.
Lemma bus_wf_moves b b' : bus_moves b b' → bus_wf b → bus_wf b'.
Proof.
  intros M [W1 W2]. split; intros k ids; [rewrite (bm_source _ _ M)|rewrite (bm_component _ _ M)];
    intros Hk; eapply has_all_moves; eauto.
Qed.
Lemma has_all_component b k : bus_wf b → has_all b (map_at [] (component_to_channels b) k).
Proof.
  intros W. unfold map_at. destruct (component_to_channels b !! k) eqn:E; simpl; [by eapply wf_component|constructor].
Qed.

(** A bus operation that returned, having only moved channels. *)
Definition moved {A} (b : RuntimeChannelBus) (o : option (Reading A)) : Prop :=
  ∃ b' ev a, o = Some (b', ev, a) ∧ bus_moves b b'.
Lemma moved_intro {A} b b' ev (a : A) : bus_moves b b' → moved b (Some (b', ev, a)).
Proof. intros. by exists b', ev, a. Qed.
#[export] Hint Resolve moved_intro : topoexec.

Lemma with_channel_moved {A} b id (f : ChannelState -> ChannelState * list PendingChannelHealthEvent * A) :
  is_Some (channels b !! id) → (∀ s s' ev a, f s = (s', ev, a) → chan_moves s s') → moved b (with_channel b id f).
Proof.
  intros [s Hs] Hf. unfold with_channel. rewrite Hs. destruct (f s) as [[s' ev] a] eqn:E. apply moved_intro.
  eapply (bus_moves_store b _ id s s'); try done. by eapply Hf.
Qed.

(** ** Publications *)

(** Same stored messages, cursors and sequence numbers everywhere: only counters may differ. *)
Definition same_messages (s s' : ChannelState) : Prop := same_content s s' ∧ next_sequence s' = next_sequence s.
Definition bus_same_messages (b b' : RuntimeChannelBus) : Prop :=
  update_sequence b' = update_sequence b ∧ ∀ id, option_Forall2 same_messages (channels b !! id) (channels b' !! id).
Lemma same_messages_refl s : same_messages s s.
Proof. by repeat split. Qed.
#[export] Hint Resolve same_messages_refl : topoexec.
Lemma bus_same_refl b : bus_same_messages b b.
Proof. split; [done|]. intros id. destruct (channels b !! id); constructor. apply same_messages_refl. Qed.
Lemma bus_same_store b b' id s s' : channels b !! id = Some s → same_messages s s' →
  channels b' = <[id := s']> (channels b) → update_sequence b' = update_sequence b → bus_same_messages b b'.
Proof.
  intros Hl Hm Hc Hu. split; [done|]. intros k. rewrite Hc. destruct (decide (k = id)) as [->|Hne].
  - rewrite Hl, lookup_insert_eq. by constructor.
  - rewrite lookup_insert_ne by done. destruct (channels b !! k); constructor. apply same_messages_refl.
Qed.
Lemma set_channel_id b id s : channels b !! id = Some s → b <| channels ::= <[id := s]> |> = b.
Proof. intros H. destruct b. simpl in *. unfold set_field. simpl. by rewrite insert_id. Qed.

Lemma store_publication_moved b now id s p ts md : channels b !! id = Some s →
  moved b (store_publication b now id s p ts md).
Proof.
  intros Hl. unfold store_publication. destruct (prepare_payload_total s p) as (s1&r&->&Hm&Hr). destruct r as [r|[q c]].
  - apply moved_intro. by eapply (bus_moves_store b _ id s s1).
  - destruct Hr as [-> _]. destruct (publish_to_state _ _ _ _ _ _ _) as [[[s2 ev] upd] r2] eqn:E. apply moved_intro.
    eapply (bus_moves_store b _ id s s2); try done. apply rtc_once. eauto with topoexec.
Qed.
Lemma commit_expanded_moved b clock l : has_all b (ex_channel_id <$> l) → moved b (commit_expanded b clock l).
Proof.
  revert b clock. induction l as [|e l IH]; intros b clock H; simpl; [auto with topoexec|].
  apply Forall_cons in H as [[s Hs] Hl]. rewrite Hs.
  destruct (store_publication_moved b (clock 0) (ex_channel_id e) s (ex_payload e) (ex_event_timestamp e) (ex_metadata e) Hs)
    as (b1&ev1&r1&->&M1). case_match; [by apply moved_intro|].
  destruct (IH b1 (fun i => clock (S i))) as (b2&ev2&r2&->&M2); [by eapply has_all_moves|].
  apply moved_intro. by eapply bus_moves_trans.
Qed.

(** [s] can take a payload [p] after [k] more publications. *)
Definition admissible (s : ChannelState) (k : nat) (p : RuntimePayload) : Prop :=
  preflight_payload_for_state s p = (s, accept) ∧
  (is_latest_style (cc_type (config s)) = true ∨ length (queue s) + k < cc_capacity (config s) ∨
   refusal (cc_drop_policy (config s)) = None).

Lemma preflight_payload_cases s p :
  preflight_payload_for_state s p = (s, accept) ∨
  ∃ s' why, preflight_payload_for_state s p = (s', reject why) ∧ same_messages s s'.
Proof.
  unfold preflight_payload_for_state. case_bool_decide; [by left|]. destruct (negb _); [right|by left].
  eexists _, _. by repeat split.
Qed.
Lemma preflight_publish_cases sink s k :
  preflight_publish_to_state sink s k = (s, [], accept) ∧
    (is_latest_style (cc_type (config s)) = true ∨ length (queue s) + k < cc_capacity (config s) ∨
     refusal (cc_drop_policy (config s)) = None) ∨
  ∃ s' ev why, preflight_publish_to_state sink s k = (s', ev, reject why) ∧ same_messages s s'.
Proof.
  unfold preflight_publish_to_state. destruct (_ || _) eqn:E.
  { left. split; [done|]. apply orb_true_iff in E as [?|?%Nat.ltb_lt]; auto. }
  pose proof (overflow_rejection_spec sink s (next_sequence s)) as H.
  destruct (overflow_rejection _ _ _) as [[[s' ev] r]|]; [right|left; auto].
  destruct H as (why&_&->&?&?&_). eexists _, _, _. split; [done|by split].
Qed.

Lemma preflight_channel_spec b planned id s p : channels b !! id = Some s →
  preflight_channel b planned id p = Some (b, [], accept, <[id := S (map_at 0 planned id)]> planned) ∧
    admissible s (map_at 0 planned id) p ∨
  ∃ b' ev why, preflight_channel b planned id p = Some (b', ev, reject why, planned) ∧ bus_moves b b' ∧ bus_same_messages b b'.
Proof.
  intros Hl. unfold preflight_channel. rewrite Hl.
  destruct (preflight_payload_cases s p) as [Hp|(s'&why&Hp&Hs)]; rewrite Hp; cbn [accepted accept reject negb].
  - rewrite set_channel_id by done.
    destruct (preflight_publish_cases (health_events b) s (map_at 0 planned id)) as [[Hc Ha]|(s'&ev&why&Hc&Hs)]; rewrite Hc;
      cbn [accepted accept reject negb].
    + left. rewrite set_channel_id by done. done.
    + right. eexists _, _, _. split; [done|]. split; [|by apply (bus_same_store b _ id s s')].
      apply (bus_moves_store b _ id s s'); try done. apply rtc_once. eauto with topoexec.
  - right. eexists _, _, _. split; [done|]. split; [|by apply (bus_same_store b _ id s s')].
    apply (bus_moves_store b _ id s s'); try done. apply rtc_once. eauto with topoexec.
Qed.

(** The counts planned for each channel by a list of expanded publications. *)
Definition plan (planned : gmap string nat) (l : list ExpandedPublication) : gmap string nat :=
  fold_left (fun m e => <[ex_channel_id e := S (map_at 0 m (ex_channel_id e))]> m) l planned.
(** Each publication of [l] is admissible after the ones planned before it. *)
Fixpoint all_admissible (b : RuntimeChannelBus) (planned : gmap string nat) (l : list ExpandedPublication) : Prop :=
  match l with
  | [] => True
  | e :: rest =>
      (∃ s, channels b !! ex_channel_id e = Some s ∧ admissible s (map_at 0 planned (ex_channel_id e)) (ex_payload e)) ∧
      all_admissible b (plan planned [e]) rest
  end.
Lemma all_admissible_app b planned l1 l2 :
  all_admissible b planned l1 → all_admissible b (plan planned l1) l2 → all_admissible b planned (l1 ++ l2).
Proof.
  revert planned. induction l1 as [|e l1 IH]; intros planned; simpl; [done|]. intros [He Hl] H2. split; [done|]. by apply IH.
Qed.

Lemma preflight_channels_spec b planned ids p ts md : has_all b ids →
  let l := (fun id => mkExpanded id p ts md) <$> ids in
  preflight_channels b planned ids p ts md = Some (b, [], accept, plan planned l, l) ∧ all_admissible b planned l ∨
  ∃ b' ev why planned' l', preflight_channels b planned ids p ts md = Some (b', ev, reject why, planned', l') ∧
    bus_moves b b' ∧ bus_same_messages b b'.
Proof.
  revert planned. induction ids as [|id ids IH]; intros planned H; cbv zeta; simpl; [by left|].
  apply Forall_cons in H as [[s Hs] Hids].
  destruct (preflight_channel_spec b planned id s p Hs) as [[-> Ha]|(b'&ev&why&->&?&?)]; cbn [accepted accept reject negb].
  - destruct (IH (<[id := S (map_at 0 planned id)]> planned) Hids) as [[E Hl]|(b'&ev&why&pl&l'&E&?&?)]; rewrite E.
    + left. split; [done|]. split; [by exists s|done].
    + right. by eexists _, _, _, _, _.
  - right. by eexists _, _, _, _, _.
Qed.

(** The channels a publication goes to. *)
Definition targets (b : RuntimeChannelBus) (pub : RuntimeChannelPublication) : list string :=
  match pub_target pub with
  | kChannel => [pub_id pub]
  | kSourceEndpoint => map_at [] (source_to_channels b) (pub_id pub)
  end.

Lemma expand_publications_spec b planned pubs : bus_wf b →
  (∃ l, expand_publications b planned pubs = Some (b, [], accept, l) ∧ all_admissible b planned l ∧
        has_all b (ex_channel_id <$> l) ∧ ex_channel_id <$> l = flat_map (targets b) pubs) ∨
  ∃ b' ev why l', expand_publications b planned pubs = Some (b', ev, reject why, l') ∧
    bus_moves b b' ∧ bus_same_messages b b'.
Proof.
  intros W. revert planned. induction pubs as [|pub pubs IH]; intros planned; simpl.
  { left. exists []. repeat split. constructor. }
  assert (∀ why, ∃ b' ev why' l', Some (b, @nil PendingChannelHealthEvent, reject why, @nil ExpandedPublication) =
    Some (b', ev, reject why', l') ∧ bus_moves b b' ∧ bus_same_messages b b') as Hrej.
  { intros why. eexists _, _, _, _. split; [done|]. split; [apply bus_moves_refl|apply bus_same_refl]. }
  destruct (pub_payload pub) as [p|]; [|right; apply Hrej].
  assert (∀ ids md, targets b pub = ids → has_all b ids → let o := match preflight_channels b planned ids p (pub_event_timestamp pub) md with
     | None => None
     | Some (b, ev, result, planned, expanded) =>
         if negb (accepted result) then Some (b, ev, result, expanded) else
         match expand_publications b planned pubs with
         | None => None
         | Some (b, ev', result, expanded') => Some (b, ev ++ ev', result, expanded ++ expanded')
         end
     end in
     (∃ l, o = Some (b, [], accept, l) ∧ all_admissible b planned l ∧ has_all b (ex_channel_id <$> l) ∧
           ex_channel_id <$> l = targets b pub ++ flat_map (targets b) pubs) ∨
     ∃ b' ev why l', o = Some (b', ev, reject why, l') ∧ bus_moves b b' ∧ bus_same_messages b b') as Hgo.
  { intros ids md Htg Hids. cbv zeta.
    destruct (preflight_channels_spec b planned ids p (pub_event_timestamp pub) md Hids)
      as [[-> Ha]|(b'&ev&why&pl&l'&->&?&?)]; cbn [accepted accept reject negb]; [|right; by eexists _, _, _, _].
    destruct (IH (plan planned ((fun id => mkExpanded id p (pub_event_timestamp pub) md) <$> ids)))
      as [(l&->&Hl&Hall&Hf)|(b'&ev&why&l'&->&?&?)]; [left|right; by eexists _, _, _, _].
    eexists. split; [done|]. split; [by apply all_admissible_app|]. rewrite fmap_app, <- list_fmap_compose.
    rewrite (list_fmap_ext _ id), list_fmap_id by done. split; [by apply Forall_app|]. by rewrite Hf, Htg. }
  destruct (pub_target pub) eqn:Et.
  - destruct (channels b !! pub_id pub) as [c|] eqn:E; [|right; apply Hrej]. apply (Hgo [pub_id pub] (pub_metadata pub)); [by unfold targets; rewrite Et|].
    apply Forall_singleton. by exists c.
  - destruct (source_to_channels b !! pub_id pub) as [ids|] eqn:E; [|right; apply Hrej]. apply Hgo; [|by eapply wf_source].
    unfold targets, map_at. by rewrite Et, E.
Qed.

(** ** Commits of admissible publications *)
Lemma preflight_payload_config s s' p : config s' = config s →
  preflight_payload_for_state s p = (s, accept) → preflight_payload_for_state s' p = (s', accept).
Proof.
  intros Hc H. unfold preflight_payload_for_state in *. rewrite Hc. case_bool_decide; [done|].
  destruct (negb _); [|done]. by simplify_eq.
Qed.

(** What one accepted publication does to its channel. *)
Definition grown (n : nat) (s s' : ChannelState) : Prop :=
  config s' = config s ∧ published_count (metrics s') = published_count (metrics s) + n ∧
  (is_latest_style (cc_type (config s)) = true ∨ length (queue s') <= length (queue s) + n).
Lemma grown_refl s : grown 0 s s.
Proof. split; [done|]. split; [lia|right; lia]. Qed.
Lemma grown_trans n m s1 s2 s3 : grown n s1 s2 → grown m s2 s3 → grown (n + m) s1 s3.
Proof.
  intros (C1&P1&Q1) (C2&P2&Q2). split; [congruence|]. split; [lia|]. rewrite C1 in Q2. destruct Q1, Q2; auto. right. lia.
Qed.

Lemma publish_grows sink now s p ts copied md s' ev upd r : publish_refusal s = None →
  publish_to_state sink now s p ts copied md = (s', ev, upd, r) → r = accept ∧ grown 1 s s'.
Proof.
  intros Hr E. destruct (publish_admitted sink now s p ts copied md Hr) as (s0&s1&ev1&upd1&E1&Ea&Hs&Hn&Hm).
  rewrite E in E1. injection E1 as -> -> -> ->. split; [done|]. unfold same_content, same_counts in *.
  destruct Hs as (Hc&_&_&_&_&Hq&_). destruct Hm as (Hp&_). unfold grown.
  destruct (is_latest_style (cc_type (config s))) eqn:Hl.
  - apply accept_message_latest in Ea; [|by rewrite Hc]. destruct Ea as (?&_&_&_&_&_&_&?&_).
    repeat split; [congruence|lia|by left].
  - apply accept_message_queue in Ea; [|by rewrite Hc]. cbv zeta in Ea. destruct Ea as (?&_&_&_&_&_&Hq'&_&_&_&?&_).
    split; [congruence|]. split; [lia|]. right. rewrite Hq', length_drop, length_app, Hq. simpl. lia.
Qed.

Lemma store_admissible b now id s p ts md k : channels b !! id = Some s → admissible s 0 p →
  k = 0 → ∃ b' ev s', store_publication b now id s p ts md = Some (b', ev, accept) ∧ grown 1 s s' ∧
    channels b' = <[id := s']> (channels b).
Proof.
  intros Hs [Hp Hroom] _. unfold store_publication. destruct (prepare_payload_total s p) as (s1&r&->&_&Hr).
  destruct r as [r|[q c]]; [destruct Hr as (Hr&_&_&E); rewrite Hp in E; by simplify_eq|]. destruct Hr as [-> _].
  destruct (publish_to_state _ _ _ _ _ _ _) as [[[s2 ev] upd] r2] eqn:E.
  apply publish_grows in E as [-> Hg]; [by eexists _, _, s2|].
  unfold publish_refusal, queue_full. destruct Hroom as [-> |[?| ->]]; [done| |by case_match].
  rewrite (proj2 (Nat.leb_gt _ _)) by lia. by rewrite andb_false_r.
Qed.

(** How many of [l] go to channel [id]. *)
Definition count_id (id : string) (l : list string) : nat := count_if (str_eqb id) l.
Lemma map_at_plan planned e id : map_at 0 (plan planned [e]) id =
  map_at 0 planned id + (if str_eqb id (ex_channel_id e) then 1 else 0).
Proof.
  unfold plan. simpl. unfold str_eqb. case_bool_decide as E.
  - subst. rewrite map_at_insert_eq. lia.
  - rewrite map_at_insert_ne by done. lia.
Qed.

(** [b] is [b0] after the publications counted by [done]. *)
Definition committed (b0 b : RuntimeChannelBus) (n : string -> nat) : Prop :=
  ∀ id, option_Forall2 (grown (n id)) (channels b0 !! id) (channels b !! id).

Lemma commit_admissible b0 b planned clock l :
  all_admissible b0 planned l → committed b0 b (map_at 0 planned) →
  ∃ b' ev, commit_expanded b clock l = Some (b', ev, accept) ∧
    committed b0 b' (fun id => map_at 0 planned id + count_id id (ex_channel_id <$> l)).
Proof.
  revert b planned clock. induction l as [|e l IH]; intros b planned clock Ha Hg; simpl.
  { exists b, []. split; [done|]. intros id. change (count_id id []) with 0. rewrite Nat.add_0_r. apply Hg. }
  destruct Ha as [(s0&Hs0&Ha) Hrest]. pose proof (Hg (ex_channel_id e)) as Hge. rewrite Hs0 in Hge.
  destruct (channels b !! ex_channel_id e) as [s|] eqn:Hs; [|inversion Hge].
  assert (grown (map_at 0 planned (ex_channel_id e)) s0 s) as Hgs by (by inversion Hge).
  assert (admissible s 0 (ex_payload e)) as Ha'.
  { destruct Hgs as (Hc&_&Hq), Ha as [Hp Hroom]. split; [by eapply preflight_payload_config|]. rewrite Hc.
    destruct Hroom as [?|[?|?]], Hq; auto. right; left. lia. }
  destruct (store_admissible b (clock 0) _ s _ (ex_event_timestamp e) (ex_metadata e) 0 Hs Ha' eq_refl) as (b1&ev1&s1&->&Hg1&Hc1).
  cbn [accepted accept negb].
  destruct (IH b1 (plan planned [e]) (fun i => clock (S i)) Hrest) as (b2&ev2&->&Hg2).
  - intros id. rewrite map_at_plan, Hc1. unfold str_eqb. case_bool_decide as E.
    + subst. rewrite Hs0, lookup_insert_eq. constructor. by eapply grown_trans.
    + rewrite lookup_insert_ne by done. rewrite Nat.add_0_r. apply Hg.
  - eexists _, _. split; [done|]. intros id. specialize (Hg2 id).
    cbv beta in Hg2. rewrite map_at_plan, <- Nat.add_assoc in Hg2. unfold count_id in *. cbv beta.
    rewrite count_if_cons. exact Hg2.
Qed.

(** What a publication to several channels does: everything is stored, or no message is. *)
Definition all_or_nothing (b : RuntimeChannelBus) (ids : list string) (o : option Published) : Prop :=
  ∃ b' ev r, o = Some (b', ev, r) ∧ bus_moves b b' ∧
    if accepted r then committed b b' (fun id => count_id id ids) else bus_same_messages b b'.

Lemma committed_0 b : committed b b (map_at 0 ∅).
Proof.
  intros id. unfold map_at. rewrite lookup_empty. destruct (channels b !! id); constructor. apply grown_refl.
Qed.
Lemma commit_all_or_nothing b clock l ev0 : bus_wf b → has_all b (ex_channel_id <$> l) → all_admissible b ∅ l →
  all_or_nothing b (ex_channel_id <$> l) (match commit_expanded b clock l with
    | None => None | Some (b', ev', r) => Some (b', ev0 ++ ev', r) end).
Proof.
  intros W Hl Ha. destruct (commit_admissible b b ∅ clock l Ha (committed_0 b)) as (b'&ev&E&Hc).
  destruct (commit_expanded_moved b clock l Hl) as (b2&ev2&r2&E2&M). rewrite E in E2. injection E2 as <- <- <-.
  rewrite E. exists b', (ev0 ++ ev), accept. split; [done|]. split; [done|]. simpl. intros id. apply Hc.
Qed.

Lemma publish_batch_spec b clock pubs : bus_wf b →
  all_or_nothing b (flat_map (targets b) pubs) (publish_batch b clock pubs).
Proof.
  intros W. unfold publish_batch.
  destruct (expand_publications_spec b ∅ pubs W) as [(l&->&Ha&Hl&<-)|(b'&ev&why&l'&->&M&Hs)]; cbn [accepted accept reject negb].
  - by apply commit_all_or_nothing.
  - by exists b', ev, (reject why).
Qed.

Lemma store_one_all_or_nothing b now id s p ts md : channels b !! id = Some s →
  ∃ b' ev r, store_publication b now id s p ts md = Some (b', ev, r) ∧ bus_moves b b' ∧
    if accepted r then committed b b' (fun k => count_id k [id])
    else ∀ k, option_Forall2 same_content (channels b !! k) (channels b' !! k).
Proof.
  intros Hs. destruct (store_publication_moved b now id s p ts md Hs) as (b'&ev&r&E&M). exists b', ev, r.
  split; [done|]. split; [done|]. unfold store_publication in E.
  destruct (prepare_payload_total s p) as (s1&o&Ep&_&Hr). rewrite Ep in E.
  assert (∀ (R : ChannelState -> ChannelState -> Prop) s', (∀ x, R x x) → R s s' → channels b' = <[id := s']> (channels b) →
    ∀ k, option_Forall2 R (channels b !! k) (channels b' !! k)) as Hput.
  { intros R s' HR Hss Hb k. rewrite Hb. destruct (decide (k = id)) as [->|].
    - rewrite Hs, lookup_insert_eq. by constructor.
    - rewrite lookup_insert_ne by done. destruct (channels b !! k); constructor. apply HR. }
  destruct o as [rej|[q c]].
  { destruct Hr as (Hrej&Hsc&_). injection E as <- <- <-. rewrite Hrej. apply (Hput same_content s1); done. }
  destruct Hr as [-> _]. destruct (publish_to_state _ _ _ _ _ _ _) as [[[s2 ev2] upd] r2] eqn:E2. injection E as <- <- <-.
  destruct (publish_refusal s) as [why|] eqn:Er.
  - destruct (publish_refused (health_events b) now s q ts c md why Er) as (s3&ev3&E3&Hsc&_).
    rewrite E2 in E3. injection E3 as -> -> -> ->. simpl. apply (Hput same_content s3); done.
  - apply publish_grows in E2 as [-> Hg]; [|done]. simpl. intros k. unfold count_id. rewrite count_if_cons, count_if_nil.
    unfold str_eqb. simpl channels. destruct (decide (k = id)) as [->|Hne].
    + rewrite Hs, lookup_insert_eq, bool_decide_eq_true_2 by done. by constructor.
    + rewrite lookup_insert_ne, bool_decide_eq_false_2 by done. destruct (channels b !! k); constructor. apply grown_refl.
Qed.

Lemma publish_shared_moved b now id p md ts : moved b (publish_shared_with_metadata b now id p md ts).
Proof.
  unfold publish_shared_with_metadata. destruct p as [p|]; [|auto with topoexec].
  destruct (channels b !! id) as [s|] eqn:E; [|auto with topoexec]. by apply store_publication_moved.
Qed.

Lemma publish_from_spec b clock endpoint p ids md ts : bus_wf b → source_to_channels b !! endpoint = Some ids →
  ∃ b' ev r, publish_shared_from_with_metadata b clock endpoint (Some p) md ts = Some (b', ev, r) ∧ bus_moves b b' ∧
    if accepted r then committed b b' (fun id => count_id id ids)
    else ∀ id, option_Forall2 same_content (channels b !! id) (channels b' !! id).
Proof.
  intros W Hids. unfold publish_shared_from_with_metadata. rewrite Hids. cbv zeta.
  pose proof (wf_source _ W _ _ Hids) as Hall. set (md' := metadata_for_source_endpoint md endpoint).
  assert (∀ l : list string, ex_channel_id <$> ((λ id, mkExpanded id p ts md') <$> l) = l) as Hid.
  { intros l. by rewrite <- list_fmap_compose, (list_fmap_ext _ id), list_fmap_id by done. }
  destruct (Nat.ltb_spec 1 (length ids)) as [Hlen|Hlen].
  - destruct (preflight_channels_spec b ∅ ids p ts md' Hall) as [[-> Ha]|(b'&ev&why&pl&l'&->&M&Hs)];
      cbn [accepted accept reject negb].
    + destruct (commit_all_or_nothing b clock ((λ id, mkExpanded id p ts md') <$> ids) [] W) as (b'&ev&r&E&M&H);
        [by rewrite Hid|exact Ha|]. rewrite Hid in H. rewrite E. exists b', ev, r. split; [done|]. split; [done|].
      destruct (accepted r); [done|]. intros k. destruct H as [_ H]. specialize (H k).
      destruct H as [? ? [? _]|]; by constructor.
    + exists b', ev, (reject why). split; [done|]. split; [done|]. simpl. intros k. destruct Hs as [_ H]. specialize (H k).
      destruct H as [? ? [? _]|]; by constructor.
  - destruct ids as [|id [|? ?]]; simpl in *; [| |lia].
    + exists b, [], accept. split; [done|]. split; [apply bus_moves_refl|]. simpl. intros k.
      destruct (channels b !! k); constructor. apply grown_refl.
    + apply Forall_cons in Hall as [[s Hs] _]. rewrite Hs.
      destruct (store_one_all_or_nothing b (clock 0) id s p ts md' Hs) as (b'&ev&r&->&M&H).
      destruct (accepted r) eqn:Er; cbn [negb]; [|exists b', ev, r; rewrite Er; done].
      exists b', (ev ++ []), accept. done.
Qed.

(** ** Reads *)
Lemma matching_ids_spec b port ids : has_all b ids →
  ∃ l, matching_ids b port ids = Some l ∧ l `sublist_of` ids.
Proof.
  induction ids as [|id ids IH]; intros H; simpl; [by exists []|]. apply Forall_cons in H as [[s ->] H].
  destruct (IH H) as (l&->&Hl). simpl. case_match; eexists; (split; [done|]); by constructor.
Qed.
Lemma channel_ids_spec b component port : bus_wf b →
  ∃ l, channel_ids_for_component_port b component port = Some l ∧ has_all b l.
Proof.
  intros W. unfold channel_ids_for_component_port. pose proof (has_all_component b component W) as H.
  destruct (matching_ids_spec b port _ H) as (l&->&Hl). exists l. split; [done|]. unfold has_all in *.
  rewrite Forall_forall in *. intros id Hid. apply H. by eapply elem_of_sublist.
Qed.

Lemma first_message_moved b clock ids f : has_all b ids →
  (∀ now s s' ev a, f now s = (s', ev, a) → chan_moves s s') → moved b (first_message b clock ids f).
Proof.
  intros Hall Hf. revert b clock Hall. induction ids as [|id ids IH]; intros b clock Hall; simpl; [auto with topoexec|].
  apply Forall_cons in Hall as [Hid Hall].
  destruct (with_channel_moved b id (f (clock 0)) Hid (Hf _)) as (b1&ev1&[m|]&->&M1); [auto with topoexec|].
  destruct (IH b1 (fun i => clock (S i))) as (b2&ev2&m2&->&M2); [by eapply has_all_moves|].
  apply moved_intro. by eapply bus_moves_trans.
Qed.

Lemma visit_channels_moved b clock ids n acc f push : has_all b ids →
  (∀ now k s s' ev a, f now k s = (s', ev, a) → chan_moves s s') → moved b (visit_channels b clock ids n acc f push).
Proof.
  intros Hall Hf. revert b clock acc Hall. induction ids as [|id ids IH]; intros b clock acc Hall; cbn [visit_channels]; [auto with topoexec|].
  case_match; [auto with topoexec|]. apply Forall_cons in Hall as [[s Hs] Hall]. rewrite Hs.
  destruct (f _ _ s) as [[s' ev] got] eqn:Ef. set (b1 := b <| channels ::= <[id:=s']> |>).
  assert (bus_moves b b1) as M1 by (eapply (bus_moves_store b b1 id s s'); try done; by eapply Hf).
  destruct (IH b1 (fun i => clock (S i)) (push s acc got)) as (b2&ev2&m2&->&M2); [by eapply has_all_moves|].
  apply moved_intro. by eapply bus_moves_trans.
Qed.

Lemma drain_moves sink now s r n s' ev l : drain_channel sink now s r n = (s', ev, l) → chan_moves s s'.
Proof. intros. apply rtc_once. eauto with topoexec. Qed.
Lemma snapshot_moves sink now s n s' ev l : snapshot_from_state sink now s n = (s', ev, l) → chan_moves s s'.
Proof. intros. apply rtc_once. eauto with topoexec. Qed.
#[export] Hint Resolve drain_moves snapshot_moves has_all_component : topoexec.

(** ** Every operation of the bus *)
Inductive BusOp :=
| BPublish (now : Z) (id : string) (p : RuntimePayloadPtr) (md : InvocationMetadata) (ts : option EventTimestamp)
| BPublishFrom (clock : nat -> Z) (endpoint : string) (p : RuntimePayloadPtr) (md : InvocationMetadata)
    (ts : option EventTimestamp)
| BPublishBatch (clock : nat -> Z) (pubs : list RuntimeChannelPublication)
| BAdvanceEpoch
| BReadLatest (now : Z) (id reader : string)
| BReadUpdate (clock : nat -> Z) (component port : string)
| BPeek (clock : nat -> Z) (component port : string)
| BDrainReader (now : Z) (id reader : string) (max_batch : nat)
| BSnapshotPort (clock : nat -> Z) (component port : string) (max_batch : nat)
| BDrainPort (clock : nat -> Z) (component port : string) (max_batch : nat)
| BConsume (clock : nat -> Z) (component : string)
| BSetSink (sink : option nat).

Definition run_bus_op (b : RuntimeChannelBus) (op : BusOp) : option RuntimeChannelBus :=
  let state {A} (o : option (Reading A)) := option_map (fun r => r.1.1) o in
  match op with
  | BPublish now id p md ts => state (publish_shared_with_metadata b now id p md ts)
  | BPublishFrom clock endpoint p md ts => state (publish_shared_from_with_metadata b clock endpoint p md ts)
  | BPublishBatch clock pubs => state (publish_batch b clock pubs)
  | BAdvanceEpoch => Some (advance_epoch b)
  | BReadLatest now id reader => state (read_latest_for_reader b now id reader)
  | BReadUpdate clock c p => state (read_latest_update_for_component_port b clock c p)
  | BPeek clock c p => state (peek_latest_for_component_port b clock c p)
  | BDrainReader now id reader n => state (drain_for_reader b now id reader n)
  | BSnapshotPort clock c p n => state (snapshot_for_component_port b clock c p n)
  | BDrainPort clock c p n => state (drain_for_component_port b clock c p n)
  | BConsume clock c => state (consume_for_component b clock c)
  | BSetSink sink => Some (set_health_event_sink sink b)
  end.
Fixpoint run_bus (b : RuntimeChannelBus) (ops : list BusOp) : option RuntimeChannelBus :=
  match ops with
  | [] => Some b
  | op :: rest => match run_bus_op b op with None => None | Some b => run_bus b rest end
  end.

Definition state_moved (b : RuntimeChannelBus) (o : option RuntimeChannelBus) : Prop := ∃ b', o = Some b' ∧ bus_moves b b'.
Lemma moved_state {A} b (o : option (Reading A)) : moved b o → state_moved b (option_map (fun r => r.1.1) o).
Proof. intros (b'&ev&a&->&M). by exists b'. Qed.
Lemma moved_map {A B} b (o : option (Reading A)) (f : A -> B) : moved b o →
  moved b (match o with None => None | Some (b', ev, a) => Some (b', ev, f a) end).
Proof. intros (b'&ev&a&->&M). by apply moved_intro. Qed.
Lemma all_or_nothing_moved b ids o : all_or_nothing b ids o → moved b o.
Proof. intros (b'&ev&r&->&M&_). by apply moved_intro. Qed.

Lemma advance_epoch_moves b : bus_moves b (advance_epoch b).
Proof.
  split; try done. intros id. unfold advance_epoch. simpl. rewrite lookup_fmap.
  destruct (channels b !! id) as [s|]; simpl; constructor. apply rtc_once. exists None, OpAdvance. simpl.
  by destruct (advance_channel s).
Qed.

Lemma run_bus_op_moves b op : bus_wf b → state_moved b (run_bus_op b op).
Proof.
  intros W. destruct op; cbn [run_bus_op].
  - apply moved_state, publish_shared_moved.
  - apply moved_state. destruct p as [p|]; [|apply moved_intro, bus_moves_refl].
    destruct (source_to_channels b !! endpoint) as [ids|] eqn:E.
    + destruct (publish_from_spec b clock endpoint p ids md ts W E) as (b'&ev&r&->&M&_). by apply moved_intro.
    + unfold publish_shared_from_with_metadata. rewrite E. apply moved_intro, bus_moves_refl.
  - eapply moved_state, all_or_nothing_moved. by apply publish_batch_spec.
  - exists (advance_epoch b). split; [done|]. apply advance_epoch_moves.
  - apply moved_state. unfold read_latest_for_reader. destruct (channels b !! id) as [s|] eqn:E; [|auto with topoexec].
    destruct (is_latest_style (cc_type (config s))) eqn:Hl; cbn [negb]; [|auto with topoexec].
    unfold with_channel. rewrite E. destruct (consume_latest_from_state _ _ _ _) as [[s' ev] m] eqn:Ec. apply moved_intro.
    eapply (bus_moves_store b _ id s s'); try done. apply rtc_once. eauto with topoexec.
  - apply moved_state. unfold read_latest_update_for_component_port.
    destruct (channel_ids_spec b component port W) as (l&->&Hl). apply (moved_map b). apply first_message_moved; [done|].
    intros now s s' ev a Hf. destruct (is_latest_style _) eqn:Hs; cbn [negb] in Hf; [|by simplify_eq].
    apply rtc_once. eauto with topoexec.
  - apply moved_state. unfold peek_latest_for_component_port.
    destruct (channel_ids_spec b component port W) as (l&->&Hl). apply (moved_map b). apply first_message_moved; [done|].
    intros now s s' ev a Hf. destruct (snapshot_from_state _ _ _ _) as [[s1 ev1] l1] eqn:Es. simplify_eq. eauto with topoexec.
  - apply moved_state. unfold drain_for_reader. destruct (channels b !! id) as [s|] eqn:E; [|auto with topoexec].
    apply with_channel_moved; [by exists s|]. eauto with topoexec.
  - apply moved_state. unfold snapshot_for_component_port. destruct (channel_ids_spec b component port W) as (l&->&Hl).
    apply visit_channels_moved; eauto with topoexec.
  - apply moved_state. unfold drain_for_component_port. destruct (channel_ids_spec b component port W) as (l&->&Hl).
    apply visit_channels_moved; eauto with topoexec.
  - apply moved_state. unfold consume_for_component. apply visit_channels_moved; eauto with topoexec.
  - eexists. split; [done|]. by split.
Qed.

(** ** Construction *)
Definition bus_origin (specs : list EdgeSpec) (b : RuntimeChannelBus) : Prop :=
  bus_wf b ∧ ∀ id s, channels b !! id = Some s → ∃ spec, spec ∈ specs ∧ edge_id spec = id ∧ s = new_channel_state spec.

Lemma add_channel_wf b spec : bus_wf b → bus_wf (add_channel b spec).
Proof.
  intros [W1 W2].
  assert (∀ ids, has_all b ids → has_all (add_channel b spec) ids) as Hkeep.
  { intros ids H. eapply Forall_impl; [exact H|]. intros id [s Hs]. simpl. destruct (decide (id = edge_id spec)) as [->|].
    - rewrite lookup_insert_eq. by eexists.
    - rewrite lookup_insert_ne by done. by exists s. }
  assert (has_all (add_channel b spec) [edge_id spec]) as Hnew.
  { apply Forall_singleton. simpl. rewrite lookup_insert_eq. by eexists. }
  assert (∀ m k k' ids, (∀ k ids, m !! k = Some ids → has_all b ids) →
    push_index m k (edge_id spec) !! k' = Some ids → has_all (add_channel b spec) ids) as Hidx.
  { intros m k k' ids Hm. unfold push_index. intros [[<- <-]|[? H]]%lookup_insert_Some; [|by eapply Hkeep, Hm].
    apply Forall_app. split; [|done]. unfold map_at. destruct (m !! k) eqn:E; simpl; [by eapply Hkeep, Hm|constructor]. }
  split; intros k ids; simpl; by apply Hidx.
Qed.
Lemma bus_new_origin specs : bus_origin specs (RuntimeChannelBus_new specs).
Proof.
  unfold RuntimeChannelBus_new.
  assert (∀ l b, bus_wf b → (∀ id s, channels b !! id = Some s → ∃ spec, spec ∈ specs ∧ edge_id spec = id ∧ s = new_channel_state spec) →
    (∀ x, x ∈ l → x ∈ specs) → bus_origin specs (fold_left add_channel l b)) as H.
  { induction l as [|spec l IH]; intros b W Ho Hl; [by split|]. simpl. apply IH.
    - by apply add_channel_wf.
    - intros id s Hs. simpl in Hs. apply lookup_insert_Some in Hs as [[<- <-]|[_ Hs]]; [|by apply Ho].
      exists spec. split; [apply Hl; left|done].
    - intros x Hx. apply Hl. by right. }
  apply H; [|intros id s Hs; simpl in Hs; by rewrite lookup_empty in Hs|done].
  split; intros k ids Hk; simpl in Hk; by rewrite lookup_empty in Hk.
Qed.

Lemma run_bus_moves b ops : bus_wf b → ∃ b', run_bus b ops = Some b' ∧ bus_moves b b' ∧ bus_wf b'.
Proof.
  revert b. induction ops as [|op ops IH]; intros b W; simpl.
  { exists b. split; [done|]. split; [apply bus_moves_refl|done]. }
  destruct (run_bus_op_moves b op W) as (b1&->&M1). destruct (IH b1 (bus_wf_moves _ _ M1 W)) as (b2&->&M2&W2).
  exists b2. split; [done|]. split; [by eapply bus_moves_trans|done].
Qed.

(** ** Properties *)

(** C30. No bus operation ever throws and every channel stays well formed: from any list of edges, any sequence of bus
    operations (publications, batches, epoch advances, reads, drains and snapshots by any reader) runs to completion;
    the bus then has the channels it was built with, each reached from its initial state by channel operations only,
    and every queue-style channel satisfies the channel invariant. *)
Theorem bus_runs_are_safe specs ops : ∃ b, run_bus (RuntimeChannelBus_new specs) ops = Some b ∧
  ∀ id, match channels (RuntimeChannelBus_new specs) !! id, channels b !! id with
        | Some s0, Some s => chan_moves s0 s ∧ (is_latest_style (cc_type (config s)) = false → queue_inv s)
        | None, None => True
        | _, _ => False
        end.
Proof.
  destruct (bus_new_origin specs) as [W Ho].
  destruct (run_bus_moves (RuntimeChannelBus_new specs) ops W) as (b&E&M&_). exists b. split; [done|]. intros id.
  pose proof (bm_channels _ _ M id) as Hm. destruct (channels (RuntimeChannelBus_new specs) !! id) as [s0|] eqn:E0.
  - destruct (channels b !! id) as [s|]; [|inversion Hm]. assert (chan_moves s0 s) as Hs by (by inversion Hm).
    split; [done|]. intros Hl. rewrite (chan_moves_config _ _ Hs) in Hl. eapply chan_moves_queue_inv; [done|done|].
    destruct (Ho id s0 E0) as (spec&_&_&->). apply queue_inv_new.
  - destruct (channels b !! id); [inversion Hm|done].
Qed.

(** C31. A publication batch is all-or-nothing: on a well-formed bus it never throws; if it is accepted, every
    publication was stored in every channel it targets, as many times as the batch names that channel; if it is
    rejected, no channel's messages, cursors or sequence numbers changed and no update was signalled. *)
Theorem publish_batch_atomic b clock pubs : bus_wf b →
  ∃ b' ev r, publish_batch b clock pubs = Some (b', ev, r) ∧
    if accepted r
    then ∀ id s, channels b !! id = Some s → ∃ s', channels b' !! id = Some s' ∧
           published_count (metrics s') = published_count (metrics s) + count_id id (flat_map (targets b) pubs)
    else bus_same_messages b b'.
Proof.
  intros W. destruct (publish_batch_spec b clock pubs W) as (b'&ev&r&E&_&H). exists b', ev, r. split; [done|].
  destruct (accepted r); [|done]. intros id s Hs. specialize (H id). rewrite Hs in H.
  inversion H as [? s' (_&Hp&_)|]; subst. by exists s'.
Qed.

(** Publishing to a source endpoint is all-or-nothing over its fan-out: it is accepted exactly when every channel
    of the endpoint stored the payload, and when it is rejected no channel's messages or cursors changed. *)
Theorem publish_from_atomic b clock endpoint p ids md ts :
  bus_wf b → source_to_channels b !! endpoint = Some ids →
  ∃ b' ev r, publish_shared_from_with_metadata b clock endpoint (Some p) md ts = Some (b', ev, r) ∧
    if accepted r
    then ∀ id s, channels b !! id = Some s → ∃ s', channels b' !! id = Some s' ∧
           published_count (metrics s') = published_count (metrics s) + count_id id ids
    else ∀ id s, channels b !! id = Some s → ∃ s', channels b' !! id = Some s' ∧ same_content s s'.
Proof.
  intros W Hids. destruct (publish_from_spec b clock endpoint p ids md ts W Hids) as (b'&ev&r&E&_&H).
  exists b', ev, r. split; [done|]. destruct (accepted r); intros id s Hs; specialize (H id); rewrite Hs in H.
  - inversion H as [? s' (_&Hp&_)|]; subst. by exists s'.
  - inversion H as [? s' Hc|]; subst. by exists s'.
Qed.

Definition demo_bus : RuntimeChannelBus :=
  RuntimeChannelBus_new [demo_edge "queue" "fail_fast" "single";
    mkEdge "f" "a.out" "c.in" kImmediate true "" (demo_policy "latest" "overwrite" "single")].
Definition demo_publication (id : string) : RuntimeChannelPublication :=
  mkPublication kSourceEndpoint id (Some (make_text_payload "x" kTextPayloadSchema)) kImmediate None empty_metadata.
Lemma publish_batch_atomic_witness :
  (∃ b' ev, publish_batch demo_bus Z.of_nat (replicate 3 (demo_publication "a.out")) =
            Some (b', ev, reject "channel capacity exceeded")) ∧
  ∃ b' ev r, publish_batch demo_bus Z.of_nat (replicate 3 (demo_publication "a.out")) = Some (b', ev, r) ∧
    if accepted r
    then ∀ id s, channels demo_bus !! id = Some s → ∃ s', channels b' !! id = Some s' ∧
           published_count (metrics s') = published_count (metrics s) +
             count_id id (flat_map (targets demo_bus) (replicate 3 (demo_publication "a.out")))
    else bus_same_messages demo_bus b'.
Proof.
  split; [eexists _, _; vm_compute; reflexivity|]. apply publish_batch_atomic, bus_new_origin.
Defined.
Lemma publish_from_atomic_witness :
  ∃ b' ev r, publish_shared_from_with_metadata demo_bus Z.of_nat "a.out"
               (Some (make_text_payload "x" kTextPayloadSchema)) empty_metadata None = Some (b', ev, r) ∧
    if accepted r
    then ∀ id s, channels demo_bus !! id = Some s → ∃ s', channels b' !! id = Some s' ∧
           published_count (metrics s') = published_count (metrics s) + count_id id ["e"; "f"]
    else ∀ id s, channels demo_bus !! id = Some s → ∃ s', channels b' !! id = Some s' ∧ same_content s s'.
Proof. apply publish_from_atomic; [apply bus_new_origin|vm_compute; reflexivity]. Defined.

(** ** Batched drains *)
Lemma drain_channel_bound sink now s r k s' ev l : drain_channel sink now s r k = (s', ev, l) → k ≠ 0 → length l <= k.
Proof.
  unfold drain_channel. intros H Hk. destruct (is_latest_style _).
  - destruct (consume_latest_from_state _ _ _ _) as [[s1 ev1] [m|]]; simplify_eq/=; lia.
  - destruct (barrier_closed s) eqn:Eb.
    + unfold consume_from_state in H. unfold barrier_closed in Eb. rewrite Eb in H. simplify_eq/=. lia.
    + apply consume_from_state_spec in H; [|done]. cbv zeta in H. destruct H as (_&_&_&_&_&_&_&->&_).
      rewrite length_fmap, length_take. unfold batch_room. rewrite (proj2 (Nat.eqb_neq k 0)) by done. lia.
Qed.
Lemma push_bounded_all n acc got : n = 0 ∨ length acc + length got <= n → push_bounded n acc got = acc ++ got.
Proof.
  revert acc. induction got as [|m got IH]; intros acc H; simpl; [by rewrite app_nil_r|].
  simpl in H. unfold batch_full. destruct (Nat.eqb_spec n 0) as [|Hn]; simpl.
  - rewrite IH by auto. by rewrite <- app_assoc.
  - destruct (Nat.leb_spec n (length acc)); [lia|]. rewrite IH by (right; rewrite length_app; simpl; lia).
    by rewrite <- app_assoc.
Qed.

Lemma visit_drain_lossless b clock ids n acc reader : n = 0 ∨ length acc <= n → has_all b ids →
  let f now remaining state := drain_channel (health_events b) now state reader remaining in
  ∃ b' ev l,
    visit_channels b clock ids n acc f (fun state messages got =>
      if is_latest_style (cc_type (config state)) then messages ++ got else push_bounded n messages got) = Some (b', ev, l) ∧
    visit_channels b clock ids n acc f (fun _ messages got => messages ++ got) = Some (b', ev, l) ∧
    (n = 0 ∨ length l <= n).
Proof.
  intros Hacc Hall f. subst f. set (sink := health_events b). clearbody sink. revert b clock acc Hacc Hall.
  induction ids as [|id ids IH]; intros b clock acc Hacc Hall; cbn [visit_channels].
  { by exists b, [], acc. }
  destruct (batch_full n acc) eqn:Ef; [by exists b, [], acc|].
  apply Forall_cons in Hall as [[s Hs] Hall]. rewrite Hs. set (k := if n =? 0 then 0 else n - length acc).
  destruct (drain_channel sink (clock 0) s reader k) as [[s' ev] got] eqn:Ed.
  assert (n = 0 ∨ length acc + length got <= n) as Hroom.
  { destruct (Nat.eqb_spec n 0) as [|Hn]; [by left|right]. subst k. unfold batch_full in Ef.
    rewrite (proj2 (Nat.eqb_neq n 0)) in Ef by done. apply Nat.leb_gt in Ef.
    apply drain_channel_bound in Ed; lia. }
  assert ((if is_latest_style (cc_type (config s)) then acc ++ got else push_bounded n acc got) = acc ++ got) as ->.
  { case_match; [done|]. by apply push_bounded_all. }
  set (b1 := b <| channels ::= <[id:=s']> |>).
  destruct (IH b1 (fun i => clock (S i)) (acc ++ got)) as (b2&ev2&l&->&->&Hl).
  - by rewrite length_app.
  - eapply has_all_moves; [|exact Hall]. eapply (bus_moves_store b b1 id s s'); try done. by eapply drain_moves.
  - by eexists _, _, _.
Qed.

(** A batched drain of a component port neither exceeds its batch nor loses a message: on a well-formed bus it
    returns, with at most [max_batch] messages when a bound is given, and its result is the concatenation of what the
    visited channels delivered, so the inner bound check never discards a message already taken from a channel. *)
Theorem drain_port_bounded_and_lossless b clock component port n : bus_wf b →
  ∃ b' ev l ids, drain_for_component_port b clock component port n = Some (b', ev, l) ∧
    channel_ids_for_component_port b component port = Some ids ∧
    visit_channels b clock ids n []
      (fun now remaining state =>
         drain_channel (health_events b) now state (component +:+ "." +:+ port) remaining)
      (fun _ messages got => messages ++ got) = Some (b', ev, l) ∧
    (n = 0 ∨ length l <= n).
Proof.
  intros W. destruct (channel_ids_spec b component port W) as (ids&E&Hids).
  destruct (visit_drain_lossless b clock ids n [] (component +:+ "." +:+ port)) as (b'&ev&l&H1&H2&H3);
    [simpl; lia|done|].
  exists b', ev, l, ids. unfold drain_for_component_port. by rewrite E.
Qed.
Lemma drain_port_bounded_and_lossless_witness :
  ∃ b' ev l ids, drain_for_component_port demo_bus Z.of_nat "b" "" 1 = Some (b', ev, l) ∧
    channel_ids_for_component_port demo_bus "b" "" = Some ids ∧
    visit_channels demo_bus Z.of_nat ids 1 []
      (fun now remaining state => drain_channel (health_events demo_bus) now state ("b" +:+ "." +:+ "") remaining)
      (fun _ messages got => messages ++ got) = Some (b', ev, l) ∧
    (1 = 0 ∨ length l <= 1).
Proof. apply drain_port_bounded_and_lossless, bus_new_origin. Defined.
