(* ===== verification/Router.v ===== *)
(** * Router: publication routing across visibility boundaries

    Models [RuntimePublicationRouter] of [src/channel.cpp]: publications made while components run are staged, then
    committed to the channel bus immediately, at the next epoch boundary, or at the end of a composite region.  The
    router holds its mutex around every access to its stages and calls the bus outside of it, with publications it
    has already removed from them.  [router_bus] is the bus behind the [channels_] pointer ([None]: null).  The trace
    collector is kept as the list of recorded span names and attributes ([None]: no collector); span ids and times
    are not modelled. *)

From S2P Require Export BusFacts.
Local Open Scope nat_scope.

(** ** Data *)
Record RuntimePublicationRouterMetrics := mkRouterMetrics {
  staged_count : nat; immediate_staged_count : nat; delayed_staged_count : nat; state_staged_count : nat;
  state_commit_count : nat; async_staged_count : nat; async_admission_accepted_count : nat;
  async_admission_rejected_count : nat; async_admission_dropped_count : nat; async_admission_overwrite_count : nat;
  async_completion_count : nat; async_in_flight_count : nat; async_max_in_flight_count : nat;
  async_cancelled_count : nat; committed_count : nat; composite_discarded_count : nat; failed_commit_count : nat }.
#[export] Instance eta_RouterMetrics : Eta RuntimePublicationRouterMetrics := fun m =>
  mkRouterMetrics (staged_count m) (immediate_staged_count m) (delayed_staged_count m) (state_staged_count m)
    (state_commit_count m) (async_staged_count m) (async_admission_accepted_count m)
    (async_admission_rejected_count m) (async_admission_dropped_count m) (async_admission_overwrite_count m)
    (async_completion_count m) (async_in_flight_count m) (async_max_in_flight_count m) (async_cancelled_count m)
    (committed_count m) (composite_discarded_count m) (failed_commit_count m).

Record RoutedEdge := mkRoutedEdge {
  re_channel_id : string; re_source_component : string; re_target_component : string; re_kind : EdgeKind;
  re_max_inflight : Z; re_overflow : string }.
Record StagedRoutedPublication := mkStaged { st_kind : EdgeKind; st_publication : RuntimeChannelPublication }.

Record Router := mkRouter {
  router_bus : option RuntimeChannelBus; router_trace : option (list (string * gmap string string));
  source_to_edges : gmap string (list RoutedEdge); active_composite_components : gset string;
  composite_external_stage : list StagedRoutedPublication; immediate_stage : list RuntimeChannelPublication;
  deferred_next_epoch : list RuntimeChannelPublication; deferred_ready : list RuntimeChannelPublication;
  router_metrics : RuntimePublicationRouterMetrics }.
#[export] Instance eta_Router : Eta Router := fun r =>
  mkRouter (router_bus r) (router_trace r) (source_to_edges r) (active_composite_components r)
    (composite_external_stage r) (immediate_stage r) (deferred_next_epoch r) (deferred_ready r) (router_metrics r).

Definition routed_edge (spec : EdgeSpec) : RoutedEdge :=
  mkRoutedEdge (edge_id spec) (component_id_from_endpoint (edge_from spec)) (component_id_from_endpoint (edge_to spec))
    (edge_kind spec) (policy_max_inflight (edge_policy spec)) (policy_overflow (edge_policy spec)).
Definition add_routed_edge (m : gmap string (list RoutedEdge)) (spec : EdgeSpec) : gmap string (list RoutedEdge) :=
  <[edge_from spec := map_at [] m (edge_from spec) ++ [routed_edge spec]]> m.
Definition Router_new (bus : option RuntimeChannelBus) (specs : list EdgeSpec) : Router :=
  mkRouter bus None (fold_left add_routed_edge specs ∅) ∅ [] [] [] []
    (mkRouterMetrics 0 0 0 0 0 0 0 0 0 0 0 0 0 0 0 0 0).

Definition set_trace_collector (trace : option (list (string * gmap string string))) (r : Router) : Router :=
  r <| router_trace := trace |>.
Definition record_trace_event (name : string) (attributes : gmap string string) (r : Router) : Router :=
  r <| router_trace ::= option_map (fun l => l ++ [(name, attributes)]) |>.

(** ** Composite regions *)
Definition begin_composite_region (components : list string) (r : Router) : Router :=
  r <| active_composite_components := list_to_set components |> <| composite_external_stage := [] |>.

(** ** Asynchronous admission *)
Definition is_async (kind : EdgeKind) : bool := bool_decide (kind = kAsync).
(** The lambda [matches]: [None] is the empty channel id, which matches every channel. *)
Definition async_matches (channel_id : option string) (kind : EdgeKind) (p : RuntimeChannelPublication) : bool :=
  is_async kind && match channel_id with None => true | Some id => str_empty id || str_eqb (pub_id p) id end.
Definition pending_async_count (r : Router) (channel_id : option string) : nat :=
  count_if (fun p => async_matches channel_id (pub_kind p) p) (deferred_next_epoch r) +
  count_if (fun p => async_matches channel_id (pub_kind p) p) (deferred_ready r) +
  count_if (fun s => async_matches channel_id (st_kind s) (st_publication s)) (composite_external_stage r).

Definition is_async_of (channel_id : string) (p : RuntimeChannelPublication) : bool :=
  is_async (pub_kind p) && str_eqb (pub_id p) channel_id.
Definition drop_oldest_pending_async (r : Router) (channel_id : string) : Router * bool :=
  match remove_first (is_async_of channel_id) (deferred_ready r) with
  | Some l => (r <| deferred_ready := l |>, true)
  | None =>
      match remove_first (is_async_of channel_id) (deferred_next_epoch r) with
      | Some l => (r <| deferred_next_epoch := l |>, true)
      | None =>
          match remove_first (fun s => is_async_of channel_id (st_publication s)) (composite_external_stage r) with
          | Some l => (r <| composite_external_stage := l |>, true)
          | None => (r, false)
          end
      end
  end.

Definition count_admission (pending : nat) (m : RuntimePublicationRouterMetrics) : RuntimePublicationRouterMetrics :=
  m <| async_admission_accepted_count ::= S |> <| async_in_flight_count := pending + 1 |>
    <| async_max_in_flight_count ::= fun n => Nat.max n (pending + 1) |>.
Definition admit_async (r : Router) (edge : RoutedEdge) : Router * RuntimeChannelPublishResult :=
  if negb (is_async (re_kind edge)) then (r, accept) else
  let pending := pending_async_count r (Some (re_channel_id edge)) in
  if ((0 <? re_max_inflight edge) && (re_max_inflight edge <=? Z.of_nat pending))%Z then
    if str_eqb (re_overflow edge) "drop_oldest" || str_eqb (re_overflow edge) "overwrite" then
      let '(r, dropped) := drop_oldest_pending_async r (re_channel_id edge) in
      if dropped : bool then
        (r <| router_metrics ::= fun m => count_admission (pending - 1) (m <| async_admission_overwrite_count ::= S |>) |>, accept)
      else (r <| router_metrics ::= count_admission pending |>, accept)
    else if str_eqb (re_overflow edge) "drop_newest" then
      (r <| router_metrics ::= fun m => m <| async_admission_dropped_count ::= S |> <| async_admission_rejected_count ::= S |>
                                          <| async_in_flight_count := pending_async_count r None |> |>,
       reject ("async admission dropped newest for channel " +:+ re_channel_id edge))
    else
      (r <| router_metrics ::= fun m => m <| async_admission_rejected_count ::= S |>
                                          <| async_in_flight_count := pending_async_count r None |> |>,
       reject ("async admission max_inflight exceeded for channel " +:+ re_channel_id edge))
  else (r <| router_metrics ::= count_admission pending |>, accept).

(** ** Publishing *)
Definition edge_publication (edge : RoutedEdge) (source_endpoint : string) (payload : RuntimePayload)
    (ts : option EventTimestamp) (md : InvocationMetadata) : RuntimeChannelPublication :=
  mkPublication kChannel (re_channel_id edge) (Some payload) (re_kind edge) ts
    ((metadata_for_source_endpoint md source_endpoint) <| md_source_component := re_source_component edge |>
       <| md_source_port := port_name_from_endpoint source_endpoint |>).

Definition count_staged (kind : EdgeKind) (m : RuntimePublicationRouterMetrics) : RuntimePublicationRouterMetrics :=
  (match kind with
   | kState => m <| state_staged_count ::= S |>
   | kAsync => m <| async_staged_count ::= S |>
   | kDelay => m <| delayed_staged_count ::= S |>
   | kImmediate => m <| immediate_staged_count ::= S |>
   end) <| staged_count ::= S |>.

(** The edge leaves the active composite region. *)
Definition leaves_region (r : Router) (edge : RoutedEdge) : bool :=
  bool_decide (active_composite_components r ≠ ∅) &&
  bool_decide (re_source_component edge ∈ active_composite_components r) &&
  bool_decide (re_target_component edge ∉ active_composite_components r).
Definition stage_publication (edge : RoutedEdge) (p : RuntimeChannelPublication) (r : Router) : Router :=
  (if leaves_region r edge then r <| composite_external_stage ::= fun l => l ++ [mkStaged (re_kind edge) p] |>
   else match re_kind edge with
        | kDelay | kState | kAsync => r <| deferred_next_epoch ::= fun l => l ++ [p] |>
        | kImmediate => r <| immediate_stage ::= fun l => l ++ [p] |>
        end) <| router_metrics ::= count_staged (re_kind edge) |>.

Definition publish_trace (edge : RoutedEdge) (md : InvocationMetadata) : gmap string string :=
  metadata_trace_attributes
    (<["channel_id" := re_channel_id edge]> (<["source_component" := re_source_component edge]>
      (<["source_port" := md_source_port md]> (<["target_component" := re_target_component edge]>
        (<["edge_kind" := edge_kind_name (re_kind edge)]> ∅))))) md.
Definition admission_trace (edge : RoutedEdge) (admitted : bool) (md : InvocationMetadata) : gmap string string :=
  metadata_trace_attributes
    (<["channel_id" := re_channel_id edge]> (<["accepted" := if admitted then "true" else "false"]>
      (<["max_inflight" := to_string_Z (re_max_inflight edge)]> ∅))) md.

Fixpoint publish_edges (edges : list RoutedEdge) (source_endpoint : string) (payload : RuntimePayload)
    (ts : option EventTimestamp) (md : InvocationMetadata) (r : Router) : Router * RuntimeChannelPublishResult :=
  match edges with
  | [] => (r, accept)
  | edge :: rest =>
      let p := edge_publication edge source_endpoint payload ts md in
      let r := record_trace_event "channel_publish" (publish_trace edge (pub_metadata p)) r in
      let '(r, admission) :=
        if is_async (re_kind edge) then
          let '(r, admission) := admit_async r edge in
          (record_trace_event "async_admission" (admission_trace edge (accepted admission) (pub_metadata p)) r, admission)
        else (r, accept) in
      if negb (accepted admission) then (r, admission)
      else publish_edges rest source_endpoint payload ts md (stage_publication edge p r)
  end.
Definition router_publish (r : Router) (source_endpoint : string) (payload : RuntimePayloadPtr)
    (md : InvocationMetadata) (ts : option EventTimestamp) : Router * RuntimeChannelPublishResult :=
  match payload with
  | None => (r, reject "payload must not be null")
  | Some p =>
      match source_to_edges r !! source_endpoint with
      | None => (r, reject ("unknown source endpoint: " +:+ source_endpoint))
      | Some edges => publish_edges edges source_endpoint p ts md r
      end
  end.

(** ** Commits *)
Definition commit_trace (p : RuntimeChannelPublication) : gmap string string :=
  metadata_trace_attributes (<["channel_id" := pub_id p]> (<["edge_kind" := edge_kind_name (pub_kind p)]> ∅))
    (pub_metadata p).
Definition note_commit (r : Router) (p : RuntimeChannelPublication) : Router :=
  let r := if bool_decide (pub_kind p = kState)
    then record_trace_event "state_commit" (commit_trace p) (r <| router_metrics ::= fun m => m <| state_commit_count ::= S |> |>)
    else r in
  record_trace_event "channel_commit" (commit_trace p) r.
(** [None] is an exception of the bus. *)
Definition commit_batch (r : Router) (clock : nat -> Z) (publications : list RuntimeChannelPublication)
  : option (Router * list PendingChannelHealthEvent * RuntimeChannelPublishResult) :=
  if bool_decide (publications = []) then Some (r, [], accept) else
  match router_bus r with
  | None => Some (r <| router_metrics ::= fun m => m <| failed_commit_count ::= S |> |>, [],
                  reject "publication router has no channel bus")
  | Some bus =>
      match publish_batch bus clock publications with
      | None => None
      | Some (bus, ev, result) =>
          let r := r <| router_bus := Some bus |> in
          if accepted result then
            Some (fold_left note_commit publications
                    (r <| router_metrics ::= fun m => m <| committed_count ::= fun n => n + length publications |> |>), ev, result)
          else Some (r <| router_metrics ::= fun m => m <| failed_commit_count ::= S |> |>, ev, result)
      end
  end.

Definition is_immediate (s : StagedRoutedPublication) : bool := bool_decide (st_kind s = kImmediate).
Definition commit_composite_region_outputs (r : Router) (clock : nat -> Z)
  : option (Router * list PendingChannelHealthEvent * RuntimeChannelPublishResult) :=
  let staged := composite_external_stage r in
  let r := r <| deferred_next_epoch ::= fun l => l ++ (st_publication <$> List.filter (fun s => negb (is_immediate s)) staged) |>
             <| composite_external_stage := [] |> <| active_composite_components := ∅ |> in
  commit_batch r clock (st_publication <$> List.filter is_immediate staged).

Definition discard_composite_region_outputs (r : Router) : Router :=
  let discarded_async := count_if (fun s => is_async (st_kind s)) (composite_external_stage r) in
  let r := r <| router_metrics ::= fun m => m <| composite_discarded_count ::= fun n => n + length (composite_external_stage r) |> |>
             <| composite_external_stage := [] |> <| active_composite_components := ∅ |> in
  if 0 <? discarded_async
  then r <| router_metrics ::= fun m => m <| async_cancelled_count ::= fun n => n + discarded_async |>
                                          <| async_in_flight_count := pending_async_count r None |> |>
  else r.

Definition begin_epoch (r : Router) (clock : nat -> Z)
  : option (Router * list PendingChannelHealthEvent * RuntimeChannelPublishResult) :=
  let r := r <| router_bus ::= option_map advance_epoch |> in
  let ready := deferred_ready r in
  let async_ready_count := count_if (fun p => is_async (pub_kind p)) ready in
  match commit_batch (r <| deferred_ready := [] |>) clock ready with
  | None => None
  | Some (r, ev, result) =>
      if accepted result && (0 <? async_ready_count)
      then Some (r <| router_metrics ::= fun m => m <| async_completion_count ::= fun n => n + async_ready_count |>
                                                    <| async_in_flight_count := pending_async_count r None |> |>, ev, result)
      else Some (r, ev, result)
  end.
Definition commit_immediate (r : Router) (clock : nat -> Z)
  : option (Router * list PendingChannelHealthEvent * RuntimeChannelPublishResult) :=
  commit_batch (r <| immediate_stage := [] |>) clock (immediate_stage r).
Definition end_epoch (r : Router) : Router :=
  r <| deferred_ready ::= fun l => l ++ deferred_next_epoch r |> <| deferred_next_epoch := [] |>.
