(* ===== verification/RouterFacts.v ===== *)
(** * RouterFacts: what the publication router guarantees

    Totality over a well-formed bus, the stage invariant (immediate, deferred and composite stages hold only the kinds
    they are for), the bound on asynchronous publications in flight, isolation of discarded composite regions, and
    the accounting of every staged publication. *)

From S2P Require Export Router.
Local Open Scope nat_scope.

(** ** Operations *)
Inductive RouterOp :=
| RPublish (source_endpoint : string) (payload : RuntimePayloadPtr) (md : InvocationMetadata) (ts : option EventTimestamp)
| RBeginComposite (components : list string)
| RCommitComposite (clock : nat -> Z)
| RDiscardComposite
| RBeginEpoch (clock : nat -> Z)
| RCommitImmediate (clock : nat -> Z)
| REndEpoch.
Definition run_router_op (r : Router) (op : RouterOp) : option Router :=
  match op with
  | RPublish endpoint p md ts => Some (fst (router_publish r endpoint p md ts))
  | RBeginComposite components => Some (begin_composite_region components r)
  | RCommitComposite clock => option_map (fun x => x.1.1) (commit_composite_region_outputs r clock)
  | RDiscardComposite => Some (discard_composite_region_outputs r)
  | RBeginEpoch clock => option_map (fun x => x.1.1) (begin_epoch r clock)
  | RCommitImmediate clock => option_map (fun x => x.1.1) (commit_immediate r clock)
  | REndEpoch => Some (end_epoch r)
  end.
Fixpoint run_router (r : Router) (ops : list RouterOp) : option Router :=
  match ops with
  | [] => Some r
  | op :: rest => match run_router_op r op with None => None | Some r => run_router r rest end
  end.

(** ** Frames *)

(** [r'] has the stages and edges of [r]; only the bus, the trace and the metrics may differ. *)
Definition same_stages (r r' : Router) : Prop :=
  source_to_edges r' = source_to_edges r ∧ active_composite_components r' = active_composite_components r ∧
  composite_external_stage r' = composite_external_stage r ∧ immediate_stage r' = immediate_stage r ∧
  deferred_next_epoch r' = deferred_next_epoch r ∧ deferred_ready r' = deferred_ready r.
Lemma same_stages_refl r : same_stages r r.
Proof. by repeat split. Qed.
Lemma same_stages_trans r1 r2 r3 : same_stages r1 r2 → same_stages r2 r3 → same_stages r1 r3.
Proof. unfold same_stages. intros. split_hyps. repeat split; congruence. Qed.
#[export] Hint Resolve same_stages_refl : topoexec.

Definition bus_ok (o : option RuntimeChannelBus) : Prop := ∀ b, o = Some b → bus_wf b.

Lemma note_commit_frame r p : same_stages r (note_commit r p) ∧ router_bus (note_commit r p) = router_bus r ∧
  committed_count (router_metrics (note_commit r p)) = committed_count (router_metrics r).
Proof. unfold note_commit. case_bool_decide; by repeat split. Qed.
(** The counters that account for staged publications. *)
Definition same_staging (m m' : RuntimePublicationRouterMetrics) : Prop :=
  staged_count m' = staged_count m ∧ immediate_staged_count m' = immediate_staged_count m ∧
  delayed_staged_count m' = delayed_staged_count m ∧ state_staged_count m' = state_staged_count m ∧
  async_staged_count m' = async_staged_count m ∧ composite_discarded_count m' = composite_discarded_count m ∧
  async_admission_overwrite_count m' = async_admission_overwrite_count m.
Lemma same_staging_refl m : same_staging m m.
Proof. by repeat split. Qed.
Lemma note_commits_frame l r : let r' := fold_left note_commit l r in
  same_stages r r' ∧ router_bus r' = router_bus r ∧ same_staging (router_metrics r) (router_metrics r') ∧
  committed_count (router_metrics r') = committed_count (router_metrics r) ∧
  failed_commit_count (router_metrics r') = failed_commit_count (router_metrics r).
Proof.
  revert r. induction l as [|p l IH]; intros r; simpl; [by repeat split|].
  destruct (IH (note_commit r p)) as (S1&B1&M1&C1&F1). destruct (note_commit_frame r p) as (S0&B0&C0).
  assert (same_staging (router_metrics r) (router_metrics (note_commit r p)) ∧
          failed_commit_count (router_metrics (note_commit r p)) = failed_commit_count (router_metrics r)) as [M0 F0].
  { unfold note_commit. case_bool_decide; by repeat split. }
  split; [by eapply same_stages_trans|]. split; [congruence|]. split; [|split; congruence].
  unfold same_staging in *. split_hyps. repeat split; congruence.
Qed.

(** A commit returns, touches no stage, and hands the batch to the bus as one all-or-nothing publication. *)
Lemma commit_batch_spec r clock pubs : bus_ok (router_bus r) →
  ∃ r' ev res, commit_batch r clock pubs = Some (r', ev, res) ∧ same_stages r r' ∧ bus_ok (router_bus r') ∧
    same_staging (router_metrics r) (router_metrics r') ∧
    failed_commit_count (router_metrics r') =
      failed_commit_count (router_metrics r) + (if accepted res then 0 else 1) ∧
    committed_count (router_metrics r') =
      committed_count (router_metrics r) + (if accepted res then length pubs else 0) ∧
    match router_bus r with
    | None => router_bus r' = None
    | Some b => pubs = [] ∧ router_bus r' = Some b ∨
        ∃ b' ev, publish_batch b clock pubs = Some (b', ev, res) ∧ router_bus r' = Some b'
    end.
Proof.
  intros Hb. unfold commit_batch. case_bool_decide as E.
  { subst. exists r, [], accept. simpl. split; [done|]. split; [done|]. split; [done|]. split; [done|].
    split; [lia|]. split; [lia|]. destruct (router_bus r); [by left|done]. }
  destruct (router_bus r) as [b|] eqn:Eb.
  - pose proof (Hb b eq_refl) as W. destruct (publish_batch_spec b clock pubs W) as (b'&ev&res&Ep&M&_). rewrite Ep.
    pose proof (bus_wf_moves _ _ M W) as W'. destruct (accepted res) eqn:Er.
    + match goal with |- context [fold_left note_commit pubs ?x] =>
        pose proof (note_commits_frame pubs x) as Hf; set (rf := fold_left note_commit pubs x) in * end.
      cbv zeta in Hf. clearbody rf. destruct Hf as (S1&B1&M1&C1&F1). simpl in *.
      eexists _, _, _. split; [done|]. rewrite Er, B1, C1, F1. split; [exact S1|].
      split; [intros ? [= <-]; done|]. split; [exact M1|]. split; [lia|]. split; [lia|]. right. by eexists _, _.
    + eexists _, _, _. split; [done|]. rewrite Er. simpl. split; [done|]. split; [intros ? [= <-]; done|].
      split; [done|]. split; [lia|]. split; [lia|]. right. by eexists _, _.
  - eexists _, _, _. split; [done|]. simpl. rewrite Eb. split; [done|]. split; [done|]. split; [done|]. split; [lia|].
    split; [lia|done].
Qed.

(** ** In-flight asynchronous publications of one channel *)
Definition inflight (channel_id : string) (r : Router) : nat :=
  count_if (is_async_of channel_id) (deferred_next_epoch r) + count_if (is_async_of channel_id) (deferred_ready r) +
  count_if (fun s => is_async_of channel_id (st_publication s)) (composite_external_stage r).

Definition router_edges (r : Router) (e : RoutedEdge) : Prop := ∃ k es, source_to_edges r !! k = Some es ∧ e ∈ es.
(** Edge ids are not empty, and edges with the same id have the same admission bound. *)
Definition edges_ok (r : Router) : Prop :=
  (∀ e, router_edges r e → re_channel_id e ≠ "") ∧
  (∀ e1 e2, router_edges r e1 → router_edges r e2 → re_channel_id e1 = re_channel_id e2 →
     re_max_inflight e1 = re_max_inflight e2).

Record router_inv (r : Router) : Prop := {
  ri_bus : bus_ok (router_bus r);
  ri_immediate : Forall (fun p => pub_kind p = kImmediate) (immediate_stage r);
  ri_next : Forall (fun p => pub_kind p ≠ kImmediate) (deferred_next_epoch r);
  ri_ready : Forall (fun p => pub_kind p ≠ kImmediate) (deferred_ready r);
  ri_staged : Forall (fun s => st_kind s = pub_kind (st_publication s)) (composite_external_stage r) }.
Definition inflight_bounded (r : Router) : Prop :=
  ∀ e, router_edges r e → (0 < re_max_inflight e)%Z → (Z.of_nat (inflight (re_channel_id e) r) <= re_max_inflight e)%Z.

Lemma count_if_ext {A} (p q : A -> bool) l : (∀ x, x ∈ l → p x = q x) → count_if p l = count_if q l.
Proof. intros H. unfold count_if. f_equal. apply List.filter_ext_in. intros x Hx. apply H. by apply list_elem_of_In. Qed.

Lemma pending_inflight r id : id ≠ "" → router_inv r → pending_async_count r (Some id) = inflight id r.
Proof.
  intros Hid I. unfold pending_async_count, inflight.
  assert (∀ k p, async_matches (Some id) k p = is_async k && str_eqb (pub_id p) id) as Hm.
  { intros k p. unfold async_matches. by destruct id. }
  f_equal; [f_equal; apply count_if_ext; intros; apply Hm|]. apply count_if_ext. intros s Hs. rewrite Hm.
  unfold is_async_of. pose proof (ri_staged _ I) as H. rewrite Forall_forall in H. by rewrite (H s Hs).
Qed.

(** ** Admission *)
Definition stage_total (r : Router) : nat :=
  length (composite_external_stage r) + length (immediate_stage r) + length (deferred_next_epoch r) + length (deferred_ready r).
(** [r'] is [r] with at most some deferred or external publications removed. *)
Definition trimmed (r r' : Router) : Prop :=
  source_to_edges r' = source_to_edges r ∧ active_composite_components r' = active_composite_components r ∧
  router_bus r' = router_bus r ∧ immediate_stage r' = immediate_stage r ∧
  deferred_next_epoch r' `sublist_of` deferred_next_epoch r ∧ deferred_ready r' `sublist_of` deferred_ready r ∧
  composite_external_stage r' `sublist_of` composite_external_stage r.

Lemma trimmed_refl r : trimmed r r.
Proof. by repeat split. Qed.
Lemma Forall_sublist {A} (P : A -> Prop) l l' : l `sublist_of` l' → Forall P l' → Forall P l.
Proof. intros Hs. rewrite !Forall_forall. intros H x Hx. apply H. by eapply elem_of_sublist. Qed.
Lemma trimmed_inv r r' : trimmed r r' → router_inv r → router_inv r'.
Proof.
  intros (_&_&Hb&Hi&Hn&Hr&Hs) [I1 I2 I3 I4 I5]. split; rewrite ?Hb, ?Hi; try done; by eapply Forall_sublist.
Qed.
Lemma trimmed_edges r r' e : trimmed r r' → router_edges r' e ↔ router_edges r e.
Proof. intros (H&_). unfold router_edges. by rewrite H. Qed.
Lemma remove_first_sublist {A} (p : A -> bool) l l' : remove_first p l = Some l' → l' `sublist_of` l.
Proof. intros (l1&x&l2&->&->&_)%remove_first_Some. apply sublist_app; [done|]. by constructor. Qed.
Lemma remove_first_None_count {A} (p : A -> bool) l : remove_first p l = None → count_if p l = 0.
Proof.
  intros H%remove_first_None. induction H as [|x l Hx Hl IH]; [done|]. by rewrite count_if_cons, Hx, IH.
Qed.

(** Dropping the oldest pending publication of a channel succeeds exactly when one is in flight, and removes one. *)
Lemma drop_oldest_spec r id r' b : drop_oldest_pending_async r id = (r', b) →
  trimmed r r' ∧ router_metrics r' = router_metrics r ∧ router_trace r' = router_trace r ∧
  (b = true → inflight id r = S (inflight id r') ∧ stage_total r = S (stage_total r')) ∧
  (b = false → r' = r ∧ inflight id r = 0).
Proof.
  unfold drop_oldest_pending_async, trimmed, inflight, stage_total. intros H.
  destruct (remove_first _ (deferred_ready r)) as [l|] eqn:E1; simplify_eq/=.
  { pose proof (remove_first_sublist _ _ _ E1). pose proof (remove_first_count _ (is_async_of id) _ _ E1 (fun _ H => H)).
    pose proof (remove_first_length _ _ _ E1). split; [done|]. split; [done|]. split; [done|]. split; [|done]. intros _. lia. }
  destruct (remove_first _ (deferred_next_epoch r)) as [l|] eqn:E2; simplify_eq/=.
  { pose proof (remove_first_sublist _ _ _ E2). pose proof (remove_first_count _ (is_async_of id) _ _ E2 (fun _ H => H)).
    pose proof (remove_first_length _ _ _ E2). split; [done|]. split; [done|]. split; [done|]. split; [|done]. intros _. lia. }
  destruct (remove_first _ (composite_external_stage r)) as [l|] eqn:E3; simplify_eq/=.
  { pose proof (remove_first_sublist _ _ _ E3).
    pose proof (remove_first_count _ (fun s => is_async_of id (st_publication s)) _ _ E3 (fun _ H => H)).
    pose proof (remove_first_length _ _ _ E3). split; [done|]. split; [done|]. split; [done|]. split; [|done]. intros _. lia. }
  split; [done|]. split; [done|]. split; [done|]. split; [done|]. intros _. split; [done|].
  by rewrite !remove_first_None_count by done.
Qed.

Lemma count_if_sublist {A} (p : A -> bool) l l' : l `sublist_of` l' → count_if p l <= count_if p l'.
Proof.
  induction 1 as [|x l l' _ IH|x l l' _ IH]; [done| |]; rewrite !count_if_cons; lia.
Qed.
Lemma trimmed_inflight r r' id : trimmed r r' → inflight id r' <= inflight id r.
Proof.
  intros (_&_&_&_&Hn&Hr&Hs). unfold inflight. pose proof (count_if_sublist (is_async_of id) _ _ Hn).
  pose proof (count_if_sublist (is_async_of id) _ _ Hr).
  pose proof (count_if_sublist (fun s => is_async_of id (st_publication s)) _ _ Hs). lia.
Qed.

(** The counters an admission leaves alone, and the one that accounts for what it evicted. *)
Definition admission_accounts (r r' : Router) : Prop :=
  let m := router_metrics r in let m' := router_metrics r' in
  staged_count m' = staged_count m ∧ immediate_staged_count m' = immediate_staged_count m ∧
  delayed_staged_count m' = delayed_staged_count m ∧ state_staged_count m' = state_staged_count m ∧
  async_staged_count m' = async_staged_count m ∧ composite_discarded_count m' = composite_discarded_count m ∧
  committed_count m' = committed_count m ∧ failed_commit_count m' = failed_commit_count m ∧
  stage_total r' + async_admission_overwrite_count m' = stage_total r + async_admission_overwrite_count m.
Lemma admission_accounts_refl r : admission_accounts r r.
Proof. by repeat split. Qed.

Lemma admit_async_spec r edge r' res : admit_async r edge = (r', res) → router_inv r → re_channel_id edge ≠ "" →
  trimmed r r' ∧ admission_accounts r r' ∧
  (accepted res = true → re_kind edge = kAsync → (0 < re_max_inflight edge)%Z →
   (Z.of_nat (inflight (re_channel_id edge) r) <= re_max_inflight edge)%Z →
   (Z.of_nat (inflight (re_channel_id edge) r') < re_max_inflight edge)%Z).
Proof.
  unfold admit_async, is_async. intros H I Hid. case_bool_decide as Ek; cbn [negb] in H.
  2: { simplify_eq. split; [apply trimmed_refl|]. split; [apply admission_accounts_refl|done]. }
  rewrite pending_inflight in H by done. set (id := re_channel_id edge) in *.
  destruct ((0 <? re_max_inflight edge) && (re_max_inflight edge <=? Z.of_nat (inflight id r)))%Z eqn:Ef.
  2: { simplify_eq. split; [by repeat split|]. split; [by repeat split|]. intros _ _ Hm _. simpl.
       change (inflight id _) with (inflight id r). apply andb_false_iff in Ef as [Ef|Ef]; lia. }
  apply andb_true_iff in Ef as [Ef1 Ef2]. destruct (_ || _) in H.
  - destruct (drop_oldest_pending_async r id) as [r1 b] eqn:Ed. apply drop_oldest_spec in Ed as (Ht&Hm&_&Hy&Hn).
    destruct b; [|destruct (Hn eq_refl); lia]. destruct (Hy eq_refl) as [Hc Hl]. simplify_eq. split; [done|].
    split; [|intros; change (inflight id _) with (inflight id r1); lia].
    unfold admission_accounts, count_admission. simpl. rewrite Hm. unfold stage_total in *. simpl. repeat split. lia.
  - destruct (str_eqb _ _) in H; simplify_eq; (split; [by repeat split|]; split; [by repeat split|done]).
Qed.

(** ** Staging one publication *)
Definition stage_kinds (m : RuntimePublicationRouterMetrics) : nat :=
  immediate_staged_count m + delayed_staged_count m + state_staged_count m + async_staged_count m.
(** Nothing staged is unaccounted for. *)
Definition balanced (r : Router) : Prop :=
  let m := router_metrics r in
  staged_count m = stage_total r + committed_count m + composite_discarded_count m + async_admission_overwrite_count m ∧
  staged_count m = stage_kinds m.

Lemma stage_publication_spec edge p r : pub_kind p = re_kind edge → pub_id p = re_channel_id edge → router_inv r →
  let r' := stage_publication edge p r in
  router_inv r' ∧ source_to_edges r' = source_to_edges r ∧ router_bus r' = router_bus r ∧
  active_composite_components r' = active_composite_components r ∧
  failed_commit_count (router_metrics r') = failed_commit_count (router_metrics r) ∧ (balanced r → balanced r') ∧
  ∀ id, inflight id r' = inflight id r + (if is_async (re_kind edge) && str_eqb (re_channel_id edge) id then 1 else 0).
Proof.
  intros Hk Hid I r'. pose proof I as [I1 I2 I3 I4 I5].
  assert (router_metrics r' = count_staged (re_kind edge) (router_metrics r)) as Hm.
  { unfold r', stage_publication. simpl. destruct (leaves_region r edge); [done|]. by destruct (re_kind edge). }
  assert (source_to_edges r' = source_to_edges r ∧ router_bus r' = router_bus r ∧
          active_composite_components r' = active_composite_components r) as (He&Hb&Hac).
  { unfold r', stage_publication. destruct (leaves_region r edge); [done|]. by destruct (re_kind edge). }
  assert (stage_total r' = S (stage_total r)) as Ht.
  { unfold r', stage_publication, stage_total. destruct (leaves_region r edge);
      [|destruct (re_kind edge)]; simpl; rewrite length_app; simpl; lia. }
  split; [|split; [done|split; [done|split; [done|split; [|split]]]]].
  - unfold r', stage_publication. destruct (leaves_region r edge).
    + split; simpl; try done. apply Forall_app. split; [done|]. by apply Forall_singleton.
    + destruct (re_kind edge) eqn:Ek; split; simpl; try done; apply Forall_app; (split; [done|]);
        apply Forall_singleton; by rewrite Hk.
  - rewrite Hm. by destruct (re_kind edge).
  - unfold balanced, stage_kinds. rewrite Hm, Ht. intros [H1 H2]. destruct (re_kind edge); simpl in *; lia.
  - intros id. unfold r', stage_publication, inflight.
    assert (is_async_of id p = is_async (re_kind edge) && str_eqb (re_channel_id edge) id) as Hp.
    { unfold is_async_of. by rewrite Hk, Hid. }
    destruct (leaves_region r edge); [|destruct (re_kind edge) eqn:Ek]; simpl; rewrite ?count_if_app, ?count_if_cons, ?count_if_nil;
      simpl; rewrite ?Hp; simpl; lia.
Qed.

Lemma edges_ok_same r r' : source_to_edges r' = source_to_edges r → edges_ok r → edges_ok r'.
Proof. unfold edges_ok, router_edges. by intros ->. Qed.

(** The invariant of the router as a whole. *)
Record router_ok (r : Router) : Prop := { ro_inv : router_inv r; ro_edges : edges_ok r; ro_bound : inflight_bounded r }.

Lemma publish_edges_spec edges endpoint p ts md r r' res :
  publish_edges edges endpoint p ts md r = (r', res) → router_ok r → (∀ e, e ∈ edges → router_edges r e) →
  router_ok r' ∧ source_to_edges r' = source_to_edges r ∧ router_bus r' = router_bus r ∧
  failed_commit_count (router_metrics r') = failed_commit_count (router_metrics r) ∧ (balanced r → balanced r').
Proof.
  revert r. induction edges as [|edge edges IH]; intros r H Hok Hin; cbn [publish_edges] in H; [by simplify_eq|].
  set (q := edge_publication edge endpoint p ts md) in *.
  set (r0 := record_trace_event "channel_publish" (publish_trace edge (pub_metadata q)) r) in *.
  assert (router_ok r0) as Hok0 by (destruct Hok as [[] [] ?]; by split).
  destruct (if is_async (re_kind edge) then _ else _) as [r1 adm] eqn:Ea in H.
  assert (trimmed r0 r1 ∧ admission_accounts r0 r1 ∧
    (accepted adm = true → re_kind edge = kAsync → (0 < re_max_inflight edge)%Z →
     (Z.of_nat (inflight (re_channel_id edge) r1) < re_max_inflight edge)%Z)) as (Ht&Hacc&Hlt).
  { unfold is_async in Ea. case_bool_decide as Ek;
      [|simplify_eq; split; [apply trimmed_refl|]; split; [apply admission_accounts_refl|done]].
    destruct (admit_async r0 edge) as [r2 adm2] eqn:E2. simplify_eq.
    apply admit_async_spec in E2 as (Ht&Hacc&Hlt); [|apply Hok0|apply Hok0, Hin; left].
    split; [exact Ht|]. split; [exact Hacc|]. intros Had Hk Hm. apply Hlt; try done.
    apply (ro_bound _ Hok0); [apply Hin; left|done]. }
  assert (router_inv r1) as I1 by (eapply trimmed_inv; [done|apply Hok0]).
  assert (edges_ok r1) as E1 by (eapply edges_ok_same; [apply Ht|apply Hok0]).
  assert (inflight_bounded r1) as B1.
  { intros e He Hm. apply (trimmed_edges r0) in He; [|done]. pose proof (ro_bound _ Hok0 e He Hm).
    pose proof (trimmed_inflight r0 r1 (re_channel_id e) Ht). lia. }
  assert (balanced r0 → balanced r1) as Hbal.
  { unfold balanced, admission_accounts, stage_kinds in *. split_hyps. intros [? ?]. split; lia. }
  assert (failed_commit_count (router_metrics r1) = failed_commit_count (router_metrics r0)) as Hf by apply Hacc.
  destruct (accepted adm) eqn:Ead; cbn [negb] in H.
  2: { simplify_eq. split; [by split|]. destruct Ht as (?&?&?&_). split; [done|]. split; [done|]. split; [done|]. exact Hbal. }
  destruct (stage_publication_spec edge q r1 eq_refl eq_refl I1) as (I2&Hs2&Hb2&Hac2&Hf2&Hbal2&Hin2).
  set (r2 := stage_publication edge q r1) in *.
  assert (∀ e, router_edges r2 e ↔ router_edges r1 e) as Hre by (intros; unfold router_edges; by rewrite Hs2).
  assert (router_ok r2) as Hok2.
  { split; [done| |].
    - by eapply edges_ok_same.
    - intros e He Hm. apply Hre in He. rewrite Hin2. unfold is_async, str_eqb.
      specialize (B1 e He Hm). case_bool_decide as Ek; simpl; [|lia]. case_bool_decide as Eid; [|lia].
      assert (router_edges r1 edge) as Hee by (eapply trimmed_edges; [done|]; apply Hin; left).
      rewrite (proj2 E1 e edge He Hee (eq_sym Eid)) in *. rewrite <- Eid. specialize (Hlt eq_refl Ek Hm). lia. }
  destruct (IH r2 H Hok2) as (Hok'&Hs'&Hb'&Hf'&Hbal').
  { intros e He. apply Hre. eapply trimmed_edges; [done|]. apply Hin. by right. }
  destruct Ht as (T1&T2&T3&_). split; [done|]. change (source_to_edges r) with (source_to_edges r0).
  change (router_bus r) with (router_bus r0). change (router_metrics r) with (router_metrics r0).
  split; [congruence|]. split; [congruence|]. split; [congruence|]. auto.
Qed.

(** ** Runs *)
Lemma router_ok_restage r r' : router_ok r → source_to_edges r' = source_to_edges r → router_inv r' →
  (∀ id, inflight id r' <= inflight id r) → router_ok r'.
Proof.
  intros [I E B] Hs I' Hi. split; [done|by eapply edges_ok_same|]. intros e He Hm.
  assert (router_edges r e) as He' by (unfold router_edges in *; by rewrite <- Hs).
  specialize (B e He' Hm). specialize (Hi (re_channel_id e)). lia.
Qed.
Lemma same_stages_inflight r r' id : same_stages r r' → inflight id r' = inflight id r.
Proof. unfold same_stages, inflight. intros; split_hyps. by rewrite H1, H3, H4. Qed.
Lemma same_stages_total r r' : same_stages r r' → stage_total r' = stage_total r.
Proof. unfold same_stages, stage_total. intros; split_hyps. by rewrite H1, H2, H3, H4. Qed.
Lemma same_stages_inv r r' : same_stages r r' → bus_ok (router_bus r') → router_inv r → router_inv r'.
Proof. intros (_&_&H1&H2&H3&H4) Hb []. split; rewrite ?H1, ?H2, ?H3, ?H4; done. Qed.

(** Taking a list of publications out of the stages and committing it. *)
Lemma commit_taken r r0 clock pubs : router_ok r → source_to_edges r0 = source_to_edges r → router_inv r0 →
  (∀ id, inflight id r0 <= inflight id r) → router_metrics r0 = router_metrics r →
  stage_total r0 + length pubs = stage_total r →
  ∃ r' ev res, commit_batch r0 clock pubs = Some (r', ev, res) ∧ router_ok r' ∧ same_stages r0 r' ∧
    failed_commit_count (router_metrics r) <= failed_commit_count (router_metrics r') ∧
    (failed_commit_count (router_metrics r') = failed_commit_count (router_metrics r) → balanced r → balanced r').
Proof.
  intros Hok Hs I0 Hi Hm Ht. destruct (commit_batch_spec r0 clock pubs (ri_bus _ I0)) as (r'&ev&res&E&S&B&M&F&C&_).
  exists r', ev, res. split; [done|]. split; [|split; [done|split]].
  - apply (router_ok_restage r); try done.
    + destruct S as (S1&_). congruence.
    + by eapply same_stages_inv.
    + intros id. rewrite (same_stages_inflight _ _ id S). apply Hi.
  - rewrite F, Hm. lia.
  - intros Hf [H1 H2]. unfold balanced, stage_kinds, same_staging in *. rewrite (same_stages_total _ _ S).
    rewrite Hm in *. destruct M as (M1&M2&M3&M4&M5&M6&M7). rewrite M1, M2, M3, M4, M5, M6, M7.
    rewrite C. destruct (accepted res); [|lia]. split; lia.
Qed.

(** A run that opens a composite region only when the previous one was committed or discarded. *)
Definition clean_op (r : Router) (op : RouterOp) : Prop :=
  match op with RBeginComposite _ => composite_external_stage r = [] | _ => True end.

Lemma count_filter {A} (p q : A -> bool) l : (∀ x, x ∈ l → q x = true → p x = true) → count_if q (List.filter p l) = count_if q l.
Proof.
  induction l as [|x l IH]; intros H; [done|]. simpl. rewrite count_if_cons.
  assert (count_if q (List.filter p l) = count_if q l) as E by (apply IH; intros y Hy; apply H; by right).
  destruct (p x) eqn:Ep; [by rewrite count_if_cons, E|]. rewrite E. destruct (q x) eqn:Eq; [|done].
  rewrite (H x ltac:(left) Eq) in Ep. done.
Qed.
Lemma count_if_fmap {A B} (f : A -> B) (p : B -> bool) l : count_if p (f <$> l) = count_if (fun x => p (f x)) l.
Proof.
  induction l as [|x l IH]; [done|]. rewrite fmap_cons, !count_if_cons. by rewrite IH.
Qed.
Lemma length_filter_split {A} (p : A -> bool) l :
  length (List.filter p l) + length (List.filter (fun x => negb (p x)) l) = length l.
Proof. induction l as [|x l IH]; [done|]. simpl. destruct (p x); simpl; lia. Qed.

Section router_ops.
Context (r : Router) (Hok : router_ok r).
Let I : router_inv r := ro_inv r Hok.

Definition router_step_ok (clean : Prop) (r' : Router) : Prop :=
  router_ok r' ∧ failed_commit_count (router_metrics r) <= failed_commit_count (router_metrics r') ∧
  (clean → failed_commit_count (router_metrics r') = failed_commit_count (router_metrics r) → balanced r → balanced r').

Lemma commit_composite_ok clock :
  ∃ r' ev res, commit_composite_region_outputs r clock = Some (r', ev, res) ∧ router_step_ok True r'.
Proof.
  unfold commit_composite_region_outputs. set (staged := composite_external_stage r).
  set (r0 := (r <| deferred_next_epoch ::= _ |> <| composite_external_stage := [] |> <| active_composite_components := ∅ |>)).
  pose proof (ri_staged _ I) as Hst. rewrite Forall_forall in Hst. fold staged in Hst.
  destruct (commit_taken r r0 clock (st_publication <$> List.filter is_immediate staged)) as (r'&ev&res&E&Hr&_&Hf&Hb); try done.
  - destruct I as [I1 I2 I3 I4 I5]. split; simpl; try done. apply Forall_app. split; [done|]. rewrite Forall_forall.
    intros p (s&->&Hs)%list_elem_of_fmap. apply list_elem_of_In, filter_In in Hs as [Hs Hk].
    apply list_elem_of_In, Hst in Hs. rewrite <- Hs. unfold is_immediate in Hk. by case_bool_decide.
  - intros id. unfold inflight. simpl. rewrite count_if_app, count_if_fmap, ?count_if_nil, count_filter; [fold staged; lia|].
    intros s Hs Hk. unfold is_async_of, is_async, is_immediate in *. rewrite (Hst s Hs). repeat case_bool_decide; simpl in *; congruence.
  - unfold stage_total. simpl. fold staged. rewrite length_app, !length_fmap. pose proof (length_filter_split is_immediate staged). lia.
  - exists r', ev, res. split; [done|]. split; [done|]. split; [done|]. intros _. exact Hb.
Qed.

Lemma commit_immediate_ok clock : ∃ r' ev res, commit_immediate r clock = Some (r', ev, res) ∧ router_step_ok True r'.
Proof.
  unfold commit_immediate.
  destruct (commit_taken r (r <| immediate_stage := [] |>) clock (immediate_stage r)) as (r'&ev&res&E&Hr&_&Hf&Hb); try done.
  - destruct I. by split.
  - unfold stage_total. simpl. lia.
  - exists r', ev, res. split; [done|]. split; [done|]. split; [done|]. intros _. exact Hb.
Qed.

Lemma begin_epoch_ok clock : ∃ r' ev res, begin_epoch r clock = Some (r', ev, res) ∧ router_step_ok True r'.
Proof.
  unfold begin_epoch. set (r1 := r <| router_bus ::= option_map advance_epoch |>).
  change (deferred_ready r1) with (deferred_ready r). set (r0 := r1 <| deferred_ready := [] |>).
  destruct (commit_taken r r0 clock (deferred_ready r)) as (r'&ev&res&E&Hr&Hs&Hf&Hb); try done.
  - destruct I as [I1 I2 I3 I4 I5]. split; simpl; try done. intros b Hb. destruct (router_bus r) as [b0|] eqn:Eb; [|done].
    injection Hb as <-. eapply bus_wf_moves; [apply advance_epoch_moves|]. by apply I1.
  - intros id. unfold inflight. simpl. rewrite ?count_if_nil. lia.
  - unfold stage_total. simpl. lia.
  - rewrite E. destruct (accepted res && _); [|exists r', ev, res; split; [done|]; split; [done|]; split; [done|]; intros _; exact Hb].
    eexists _, _, _. split; [done|]. split; [|split; [done|intros _; exact Hb]].
    apply (router_ok_restage r'); try done. destruct (ro_inv _ Hr). by split.
Qed.

Lemma discard_ok : router_step_ok True (discard_composite_region_outputs r).
Proof.
  unfold discard_composite_region_outputs.
  set (r0 := (r <| router_metrics ::= _ |> <| composite_external_stage := [] |> <| active_composite_components := ∅ |>)).
  assert (router_step_ok True r0) as (H1&H2&H3).
  { split; [|split; [done|]].
    - apply (router_ok_restage r); try done; [destruct I; split; simpl; try done; constructor|].
      intros id. unfold inflight. simpl. rewrite ?count_if_nil. lia.
    - intros _ _ [B1 B2]. unfold balanced, stage_kinds, stage_total in *. simpl. lia. }
  case_match; [|done]. split; [|split; [done|exact H3]]. apply (router_ok_restage r0); try done.
  destruct (ro_inv _ H1). by split.
Qed.
Lemma end_epoch_ok : router_step_ok True (end_epoch r).
Proof.
  unfold end_epoch. destruct I as [I1 I2 I3 I4 I5]. split; [|split; [done|]].
  - apply (router_ok_restage r); try done; [split; simpl; try done|].
    + by apply Forall_app.
    + intros id. unfold inflight. simpl. rewrite count_if_app, ?count_if_nil. lia.
  - intros _ _ [B1 B2]. unfold balanced, stage_kinds, stage_total in *. simpl. rewrite length_app. lia.
Qed.
Lemma begin_composite_ok cs : router_step_ok (composite_external_stage r = []) (begin_composite_region cs r).
Proof.
  unfold begin_composite_region. destruct I as [I1 I2 I3 I4 I5]. split; [|split; [done|]].
  - apply (router_ok_restage r); try done.
    intros id. unfold inflight. simpl. rewrite ?count_if_nil. lia.
  - intros He _ [B1 B2]. unfold balanced, stage_kinds, stage_total in *. simpl in *. rewrite He in B1. simpl in B1. lia.
Qed.
Lemma router_publish_ok endpoint p md ts : router_step_ok True (fst (router_publish r endpoint p md ts)).
Proof.
  unfold router_publish. destruct p as [p|]; [|by split; [exact Hok|split; auto]].
  destruct (source_to_edges r !! endpoint) as [edges|] eqn:E; [|by split; [exact Hok|split; auto]].
  destruct (publish_edges edges endpoint p ts md r) as [r' res] eqn:Ep.
  apply publish_edges_spec in Ep as (H1&_&_&Hf&Hb); [|done|intros e He; by exists endpoint, edges].
  simpl. split; [done|]. split; [lia|]. auto.
Qed.

Lemma run_router_op_ok op : ∃ r', run_router_op r op = Some r' ∧ router_step_ok (clean_op r op) r'.
Proof.
  destruct op; simpl.
  - eexists. split; [done|]. apply router_publish_ok.
  - eexists. split; [done|]. apply begin_composite_ok.
  - destruct (commit_composite_ok clock) as (r'&ev&res&->&?). by eexists.
  - eexists. split; [done|]. apply discard_ok.
  - destruct (begin_epoch_ok clock) as (r'&ev&res&->&?). by eexists.
  - destruct (commit_immediate_ok clock) as (r'&ev&res&->&?). by eexists.
  - eexists. split; [done|]. apply end_epoch_ok.
Qed.
End router_ops.

(** ** Construction *)
Lemma router_new_edges bus specs e : router_edges (Router_new bus specs) e → ∃ spec, spec ∈ specs ∧ e = routed_edge spec.
Proof.
  unfold Router_new, router_edges. simpl. intros (k&es&Hk&He).
  assert (∀ l m, (∀ k es e, m !! k = Some es → e ∈ es → ∃ spec, spec ∈ specs ∧ e = routed_edge spec) →
    (∀ x, x ∈ l → x ∈ specs) →
    ∀ k es e, fold_left add_routed_edge l m !! k = Some es → e ∈ es → ∃ spec, spec ∈ specs ∧ e = routed_edge spec) as H.
  { clear. induction l as [|spec l IH]; intros m Hm Hl; [done|]. simpl. apply IH.
    - intros k es e. unfold add_routed_edge. intros [[<- <-]|[_ Hk]]%lookup_insert_Some He; [|by eapply Hm].
      apply elem_of_app in He as [He|He%list_elem_of_singleton].
      + unfold map_at in He. destruct (m !! edge_from spec) eqn:E; simpl in He; [by eapply Hm|by apply elem_of_nil in He].
      + exists spec. split; [apply Hl; left|done].
    - intros x Hx. apply Hl. by right. }
  eapply H; [|done|exact Hk|exact He]. intros ? ? ? Hx. by rewrite lookup_empty in Hx.
Qed.
(** Edge ids name channels: they are not empty and not shared. *)
Definition specs_ok (specs : list EdgeSpec) : Prop := Forall (fun s => edge_id s ≠ "") specs ∧ NoDup (edge_id <$> specs).
Lemma router_new_ok bus specs : bus_ok bus → specs_ok specs → router_ok (Router_new bus specs).
Proof.
  intros Hb [Hne Hnd]. split.
  - by split.
  - split.
    + intros e (spec&Hs&->)%router_new_edges. rewrite Forall_forall in Hne. by apply Hne.
    + intros e1 e2 (s1&H1&->)%router_new_edges (s2&H2&->)%router_new_edges Hid. simpl in *.
      apply list_elem_of_lookup in H1 as [i Hi], H2 as [j Hj].
      assert (i = j) as ->; [|by simplify_eq]. eapply NoDup_lookup; [exact Hnd|..]; rewrite list_lookup_fmap, ?Hi, ?Hj; simpl;
        [done|by rewrite Hid].
  - intros e _ Hm. unfold inflight, Router_new. simpl. rewrite !count_if_nil. lia.
Qed.

Fixpoint clean_run (r : Router) (ops : list RouterOp) : Prop :=
  match ops with
  | [] => True
  | op :: rest => clean_op r op ∧ match run_router_op r op with None => True | Some r => clean_run r rest end
  end.
Lemma run_router_ok r ops : router_ok r → ∃ r', run_router r ops = Some r' ∧ router_ok r' ∧
  failed_commit_count (router_metrics r) <= failed_commit_count (router_metrics r') ∧
  (clean_run r ops → failed_commit_count (router_metrics r') = failed_commit_count (router_metrics r) → balanced r → balanced r').
Proof.
  revert r. induction ops as [|op ops IH]; intros r Hok; simpl; [by exists r|].
  destruct (run_router_op_ok r Hok op) as (r1&->&H1&Hf1&Hb1). destruct (IH r1 H1) as (r2&->&H2&Hf2&Hb2).
  exists r2. split; [done|]. split; [done|]. split; [lia|]. intros [Hc1 Hc2] Hf Hbal. apply Hb2; [done|lia|].
  apply Hb1; [done|lia|done].
Qed.

(** ** Isolation of composite regions *)

(** Publications for channel [id] that are on their way to the bus. *)
Definition routed (id : string) (r : Router) : nat :=
  let here p := str_eqb (pub_id p) id in
  count_if here (immediate_stage r) + count_if here (deferred_next_epoch r) + count_if here (deferred_ready r).
(** Channel [id] leads out of the region [cs]. *)
Definition outward (r : Router) (cs : gset string) (id : string) : Prop :=
  ∀ e, router_edges r e → re_channel_id e = id → re_source_component e ∈ cs ∧ re_target_component e ∉ cs.

Lemma trimmed_routed r r' id : trimmed r r' → routed id r' <= routed id r.
Proof.
  intros (_&_&_&Hi&Hn&Hr&_). unfold routed. rewrite Hi.
  pose proof (count_if_sublist (fun p => str_eqb (pub_id p) id) _ _ Hn).
  pose proof (count_if_sublist (fun p => str_eqb (pub_id p) id) _ _ Hr). lia.
Qed.
Lemma stage_routed edge p r id : pub_id p = re_channel_id edge → (re_channel_id edge = id → leaves_region r edge = true) →
  routed id (stage_publication edge p r) = routed id r.
Proof.
  intros Hid Hl. unfold stage_publication, routed. destruct (leaves_region r edge) eqn:E; [done|].
  assert (str_eqb (pub_id p) id = false) as Hp.
  { unfold str_eqb. apply bool_decide_eq_false. rewrite Hid. intros Hx. by apply Hl in Hx. }
  destruct (re_kind edge); simpl; rewrite count_if_app, count_if_cons, Hp, count_if_nil; lia.
Qed.

Lemma admit_async_trimmed r edge r' res : admit_async r edge = (r', res) → trimmed r r'.
Proof.
  unfold admit_async. intros H. repeat case_match; simplify_eq; try by repeat split.
  all: match goal with E : drop_oldest_pending_async _ _ = _ |- _ => apply drop_oldest_spec in E as (Ht&_) end; exact Ht.
Qed.

Lemma leaves_region_intro r edge :
  re_source_component edge ∈ active_composite_components r → re_target_component edge ∉ active_composite_components r →
  leaves_region r edge = true.
Proof.
  intros Hs Ht. unfold leaves_region. rewrite !andb_true_iff, !bool_decide_eq_true. split; [split; [|exact Hs]|exact Ht].
  intros E. rewrite E in Hs. by apply not_elem_of_empty in Hs.
Qed.
Lemma publish_edges_isolated edges endpoint p ts md r r' res cs id :
  publish_edges edges endpoint p ts md r = (r', res) → (∀ e, e ∈ edges → router_edges r e) →
  active_composite_components r = cs → outward r cs id →
  routed id r' <= routed id r ∧ active_composite_components r' = cs ∧ source_to_edges r' = source_to_edges r ∧
  router_bus r' = router_bus r.
Proof.
  revert r. induction edges as [|edge edges IH]; intros r H Hin Hac Ho; cbn [publish_edges] in H; [by simplify_eq|].
  set (q := edge_publication edge endpoint p ts md) in *. set (r0 := record_trace_event _ _ r) in *.
  destruct (if is_async (re_kind edge) then _ else _) as [r1 adm] eqn:Ea in H.
  assert (trimmed r0 r1) as Ht.
  { destruct (is_async (re_kind edge)); [|simplify_eq; apply trimmed_refl]. destruct (admit_async r0 edge) as [r2 adm2] eqn:E2. simplify_eq.
    by apply admit_async_trimmed in E2. }
  pose proof (trimmed_routed r0 r1 id Ht) as Hle. change (routed id r0) with (routed id r) in Hle.
  destruct Ht as (T1&T2&T3&_). destruct (negb _); [by simplify_eq|].
  assert (router_edges r edge) as Hedge by (apply Hin; left).
  assert (routed id (stage_publication edge q r1) = routed id r1) as Hst.
  { apply stage_routed; [done|]. intros Hid. destruct (Ho edge Hedge Hid) as [Hs Ht].
    apply leaves_region_intro; rewrite T2; change (active_composite_components r0) with (active_composite_components r);
      by rewrite Hac. }
  assert (source_to_edges (stage_publication edge q r1) = source_to_edges r ∧
    active_composite_components (stage_publication edge q r1) = cs ∧
    router_bus (stage_publication edge q r1) = router_bus r) as (S1&S2&S3).
  { unfold stage_publication. destruct (leaves_region r1 edge); [|destruct (re_kind edge)]; simpl;
      rewrite ?T1, ?T2, ?T3; done. }
  destruct (IH _ H) as (I1&I2&I3&I4).
  - intros e He. unfold router_edges. rewrite S1. apply Hin. by right.
  - done.
  - intros e He. apply Ho. unfold router_edges in *. by rewrite <- S1.
  - split; [lia|]. split; [done|]. split; congruence.
Qed.

(** ** Properties *)

(** Asynchronous admission is bounded and the stages never mix visibility classes: from a router built over edges
    with distinct non-empty ids and a bus built from any edges, every sequence of router operations runs to
    completion, and in the state reached each edge with a positive [max_inflight] has at most that many asynchronous
    publications waiting in the deferred and composite stages, the immediate stage holds immediate publications only
    and the deferred stages none. *)
Theorem async_in_flight_bounded bus_specs specs ops : specs_ok specs →
  ∃ r, run_router (Router_new (Some (RuntimeChannelBus_new bus_specs)) specs) ops = Some r ∧
    Forall (fun p => pub_kind p = kImmediate) (immediate_stage r) ∧
    Forall (fun p => pub_kind p ≠ kImmediate) (deferred_next_epoch r ++ deferred_ready r) ∧
    ∀ e, router_edges r e → (0 < re_max_inflight e)%Z →
      (Z.of_nat (pending_async_count r (Some (re_channel_id e))) <= re_max_inflight e)%Z.
Proof.
  intros Hs. set (r0 := Router_new _ _).
  assert (router_ok r0) as H0 by (apply router_new_ok; [intros b [= <-]; apply bus_new_origin|done]).
  destruct (run_router_ok r0 ops H0) as (r&E&[I Ed B]&_). exists r. split; [done|]. split; [apply I|].
  split; [apply Forall_app; split; apply I|]. intros e He Hm. rewrite pending_inflight; [by apply B|by apply Ed|done].
Qed.

(** Every staged publication is accounted for: along a run that opens a composite region only when the previous
    one was committed or discarded, and as long as no commit failed, the number of publications ever staged is the
    number still in the stages plus those committed to the bus, discarded with a region, or evicted by asynchronous
    admission; and it is the sum of the per-kind counters. *)
Theorem staged_publications_accounted bus_specs specs ops r : specs_ok specs →
  let r0 := Router_new (Some (RuntimeChannelBus_new bus_specs)) specs in
  run_router r0 ops = Some r → clean_run r0 ops → failed_commit_count (router_metrics r) = 0 → balanced r.
Proof.
  intros Hs r0 E Hc Hf.
  assert (router_ok r0) as H0 by (apply router_new_ok; [intros b [= <-]; apply bus_new_origin|done]).
  destruct (run_router_ok r0 ops H0) as (r'&E'&_&_&Hb). rewrite E in E'. injection E' as <-. by apply Hb.
Qed.

(** Discarding a composite region discards its outputs: whatever is published between [begin_composite_region]
    and [discard_composite_region_outputs], no further publication for a channel that leads out of the region is on
    its way to the bus afterwards, the external stage is empty, and the bus has not been touched. *)
Theorem composite_discard_isolates r components pubs id : outward r (list_to_set components) id →
  ∃ r', run_router r (RBeginComposite components ::
          ((fun x : string * RuntimePayloadPtr * InvocationMetadata => RPublish x.1.1 x.1.2 x.2 None) <$> pubs) ++
          [RDiscardComposite]) = Some r' ∧
    routed id r' <= routed id r ∧ composite_external_stage r' = [] ∧ router_bus r' = router_bus r.
Proof.
  intros Ho. cbn [run_router run_router_op]. set (r0 := begin_composite_region components r).
  assert (∀ l r1, active_composite_components r1 = list_to_set components → source_to_edges r1 = source_to_edges r →
    router_bus r1 = router_bus r → routed id r1 <= routed id r → ∃ r', run_router r1
      (((fun x : string * RuntimePayloadPtr * InvocationMetadata => RPublish x.1.1 x.1.2 x.2 None) <$> l) ++ [RDiscardComposite]) = Some r' ∧
    routed id r' <= routed id r ∧ composite_external_stage r' = [] ∧ router_bus r' = router_bus r) as H.
  { induction l as [|[[ep p] md] l IH]; intros r1 Ha Hs Hb Hr.
    - simpl. eexists. split; [done|]. unfold discard_composite_region_outputs. by destruct (0 <? _).
    - cbn [fmap list_fmap app run_router run_router_op]. unfold router_publish. simpl fst. simpl snd.
      destruct p as [p|]; [|by apply IH]. destruct (source_to_edges r1 !! ep) as [es|] eqn:E; [|by apply IH].
      destruct (publish_edges es ep p None md r1) as [r2 res] eqn:Ep.
      destruct (publish_edges_isolated _ _ _ _ _ _ _ _ (list_to_set components) id Ep) as (H1&H2&H3&H4); try done.
      + intros e He. by exists ep, es.
      + intros e He. apply Ho. unfold router_edges in *. by rewrite <- Hs.
      + simpl. apply IH; [done|congruence|congruence|lia]. }
  by apply H.
Qed.

(** Deferred publications cross to the bus at the epoch boundary only.  Publishing, opening or discarding a region
    and ending the epoch leave the bus as it is; the immediate commit hands it the immediate stage, which holds no
    deferred publication; [end_epoch] queues the publications of the epoch behind those already ready; and
    [begin_epoch] first advances the epoch of the bus, then hands it exactly the ready publications. *)
Theorem deferred_until_next_epoch r bus clock : router_inv r → router_bus r = Some bus →
  (∀ ep p md ts, router_bus (fst (router_publish r ep p md ts)) = Some bus) ∧
  router_bus (end_epoch r) = Some bus ∧ router_bus (discard_composite_region_outputs r) = Some bus ∧
  deferred_ready (end_epoch r) = deferred_ready r ++ deferred_next_epoch r ∧
  (∃ r' ev res, commit_immediate r clock = Some (r', ev, res) ∧ immediate_stage r' = [] ∧
     Forall (fun p => pub_kind p = kImmediate) (immediate_stage r) ∧
     (immediate_stage r ≠ [] → ∃ bus' ev', publish_batch bus clock (immediate_stage r) = Some (bus', ev', res) ∧
        router_bus r' = Some bus')) ∧
  (∃ r' ev res, begin_epoch r clock = Some (r', ev, res) ∧ deferred_ready r' = [] ∧
     (deferred_ready r ≠ [] → ∃ bus' ev', publish_batch (advance_epoch bus) clock (deferred_ready r) = Some (bus', ev', res) ∧
        router_bus r' = Some bus')).
Proof.
  intros I Hb. split; [|split; [done|split; [|split; [done|split]]]].
  - intros ep p md ts. unfold router_publish. destruct p as [p|]; [|done].
    destruct (source_to_edges r !! ep) as [es|]; [|done].
    destruct (publish_edges es ep p ts md r) as [r' res] eqn:E. simpl. revert r E I Hb.
    induction es as [|e es IH]; intros r E I Hb; cbn [publish_edges] in E; [by simplify_eq|].
    destruct (if is_async (re_kind e) then _ else _) as [r1 adm] eqn:Ea in E.
    assert (router_bus r1 = Some bus ∧ router_inv r1) as [Hb1 I1].
    { destruct (is_async (re_kind e)); [|simplify_eq; split; [done|by destruct I]].
      destruct (admit_async _ e) as [r2 adm2] eqn:E2. simplify_eq. apply admit_async_trimmed in E2.
      pose proof E2 as (_&_&Hx&_). split; [by simpl in *; congruence|].
      assert (router_inv r2) as I2 by (eapply trimmed_inv; [exact E2|by destruct I]). by destruct I2. }
    destruct (negb _); [by simplify_eq|]. apply IH in E; [done| |].
    + by apply stage_publication_spec.
    + rewrite <- Hb1. by apply stage_publication_spec.
  - unfold discard_composite_region_outputs. by destruct (0 <? _).
  - unfold commit_immediate. destruct (commit_batch_spec (r <| immediate_stage := [] |>) clock (immediate_stage r))
      as (r'&ev&res&->&S&_&_&_&_&Hp); [apply I|]. exists r', ev, res. split; [done|].
    split; [apply S|]. split; [apply I|]. intros Hne. change (router_bus (r <| immediate_stage := [] |>)) with (router_bus r) in Hp.
    rewrite Hb in Hp. destruct Hp as [[? _]|(b'&ev'&?&?)]; [done|]. by exists b', ev'.
  - unfold begin_epoch.
    change (deferred_ready (r <| router_bus ::= option_map advance_epoch |>)) with (deferred_ready r).
    set (r0 := (r <| router_bus ::= _ |>) <| deferred_ready := [] |>).
    assert (router_bus r0 = Some (advance_epoch bus)) as Hb0 by (simpl; by rewrite Hb).
    destruct (commit_batch_spec r0 clock (deferred_ready r)) as (r'&ev&res&E&S&_&_&_&_&Hp).
    { intros b. rewrite Hb0. intros [= <-]. eapply bus_wf_moves; [apply advance_epoch_moves|]. by apply I. }
    rewrite E, Hb0 in *. assert (deferred_ready r' = []) as Hr by apply S.
    destruct (accepted res && _); (eexists _, _, _; split; [done|]; split; [exact Hr|]; intros Hne;
      destruct Hp as [[? _]|(b'&ev'&?&?)]; [done|]; by exists b', ev').
Qed.

(** ** Concrete runs *)
Definition demo_async (id from_ to_ : string) (max_inflight : Z) : EdgeSpec :=
  mkEdge id from_ to_ kAsync true ""
    (mkEdgePolicy "queue" 4 "drop_oldest" 0 0 max_inflight true true true "steady" "copy" "runtime" "single").
Definition demo_specs : list EdgeSpec :=
  [demo_async "e1" "a.x" "b.in" 1; demo_async "e2" "a.y" "c.in" 2;
   mkEdge "e3" "a.x" "d.in" kImmediate true "" (demo_policy "latest" "overwrite" "single")].
Definition demo_router : Router := Router_new (Some (RuntimeChannelBus_new demo_specs)) demo_specs.
Definition demo_rpublish (endpoint : string) : RouterOp :=
  RPublish endpoint (Some (make_text_payload "x" kTextPayloadSchema)) empty_metadata None.
Definition demo_router_ops : list RouterOp :=
  [demo_rpublish "a.x"; demo_rpublish "a.y"; demo_rpublish "a.x"; RCommitImmediate Z.of_nat; REndEpoch;
   RBeginEpoch Z.of_nat; demo_rpublish "a.y"].
Lemma demo_specs_ok : specs_ok demo_specs.
Proof. split; [repeat constructor; discriminate|]. apply (bool_decide_unpack _). vm_compute. exact I. Qed.
Lemma demo_router_ok : router_ok demo_router.
Proof. apply router_new_ok; [intros b [= <-]; apply bus_new_origin|apply demo_specs_ok]. Qed.

Lemma async_in_flight_bounded_witness :
  ∃ r, run_router demo_router demo_router_ops = Some r ∧
    Forall (fun p => pub_kind p = kImmediate) (immediate_stage r) ∧
    Forall (fun p => pub_kind p ≠ kImmediate) (deferred_next_epoch r ++ deferred_ready r) ∧
    ∀ e, router_edges r e → (0 < re_max_inflight e)%Z →
      (Z.of_nat (pending_async_count r (Some (re_channel_id e))) <= re_max_inflight e)%Z.
Proof. apply (async_in_flight_bounded demo_specs demo_specs demo_router_ops demo_specs_ok). Defined.
Definition demo_final_router : Router := default demo_router (run_router demo_router demo_router_ops).
Lemma staged_publications_accounted_witness :
  committed_count (router_metrics demo_final_router) = 4 ∧ staged_count (router_metrics demo_final_router) = 6 ∧
  balanced demo_final_router.
Proof.
  split; [vm_compute; reflexivity|]. split; [vm_compute; reflexivity|].
  apply (staged_publications_accounted demo_specs demo_specs demo_router_ops demo_final_router demo_specs_ok).
  - vm_compute. reflexivity.
  - vm_compute. repeat split.
  - vm_compute. reflexivity.
Defined.
Lemma composite_discard_isolates_witness :
  ∃ r', run_router demo_router
          [RBeginComposite ["a"]; demo_rpublish "a.x"; demo_rpublish "a.y"; RDiscardComposite] = Some r' ∧
    routed "e3" r' <= routed "e3" demo_router ∧ composite_external_stage r' = [] ∧ router_bus r' = router_bus demo_router.
Proof.
  apply (composite_discard_isolates demo_router ["a"]
    [("a.x", Some (make_text_payload "x" kTextPayloadSchema), empty_metadata);
     ("a.y", Some (make_text_payload "x" kTextPayloadSchema), empty_metadata)] "e3").
  intros e (spec&Hs&->)%router_new_edges Hid. unfold demo_specs in Hs. simpl in Hid.
  assert (spec ∈ [demo_async "e1" "a.x" "b.in" 1; demo_async "e2" "a.y" "c.in" 2;
    mkEdge "e3" "a.x" "d.in" kImmediate true "" (demo_policy "latest" "overwrite" "single")]) as Hs' by exact Hs.
  repeat (apply elem_of_cons in Hs' as [->|Hs']; [try discriminate Hid|]); [|by apply elem_of_nil in Hs'].
  split; apply (bool_decide_unpack _); vm_compute; exact Logic.I.
Defined.
Lemma deferred_until_next_epoch_witness :
  router_bus (end_epoch demo_router) = Some (RuntimeChannelBus_new demo_specs) ∧
  deferred_ready (end_epoch demo_router) = deferred_ready demo_router ++ deferred_next_epoch demo_router.
Proof.
  destruct (deferred_until_next_epoch demo_router (RuntimeChannelBus_new demo_specs) Z.of_nat)
    as (_&H1&_&H2&_); [apply demo_router_ok|reflexivity|]. split; [exact H1|exact H2].
Defined.

(** The in-flight gauge of the router is overwritten with the count of a single channel: after one admitted
    publication on each of two asynchronous edges, two publications wait in the deferred stage while
    [async_in_flight_count] says one.  Every other place that sets the gauge stores the count over all channels. *)
Theorem async_gauge_undercounts :
  ∃ r, run_router demo_router [demo_rpublish "a.x"; demo_rpublish "a.y"] = Some r ∧
    pending_async_count r None = 2 ∧ async_in_flight_count (router_metrics r) = 1.
Proof. eexists. split; [vm_compute; reflexivity|]. by split. Qed.
