(* ===== verification/Scheduler.v ===== *)
(** * Scheduler: lane configuration, stop tokens and scheduler metrics

    Models [src/scheduler.cpp] and the data of [include/topoexec/runtime/scheduler.hpp].  Durations that the code
    converts to fractional milliseconds are kept in nanoseconds.  The shared [std::atomic_bool] behind stop tokens
    is a cell of a store of flags. *)

From S2P Require Export GraphSpec.
From Stdlib Require QArith_base.
Local Open Scope nat_scope.

Record SchedulerGroupConfig := mkGroup {
  group_id : string; group_type : string; group_hz : QArith_base.Q; group_priority : string; group_max_callback : Z;
  group_max_threads : Z; group_queue_capacity : Z; group_overflow : string; group_wall_clock_enabled : bool;
  group_period : Z; group_tick_budget : Z; group_overrun_policy : string; group_thread_name : string;
  group_cpu_affinity : list Z; group_nice_priority : Z; group_rt_policy : string; group_rt_priority : Z;
  group_isolation_intent : string }.

Record SchedulerMetrics := mkSchedulerMetrics {
  tick_count : nat; tick_jitter_ns : Z; tick_overrun_count : nat; skipped_tick_count : nat; max_lateness_ns : Z;
  last_callback_duration_ns : Z; blocked_duration_ns : Z; queue_depth : nat; queue_capacity : nat;
  worker_count : nat; active_count : nat; in_flight_count : nat; enqueue_rejected_count : nat;
  priority_high_count : nat; priority_normal_count : nat; priority_low_count : nat;
  priority_background_count : nat; low_priority_rejected_count : nat; starvation_guard_count : nat;
  completed_count : nat }.
#[export] Instance eta_SchedulerMetrics : Eta SchedulerMetrics := fun m =>
  mkSchedulerMetrics (tick_count m) (tick_jitter_ns m) (tick_overrun_count m) (skipped_tick_count m)
    (max_lateness_ns m) (last_callback_duration_ns m) (blocked_duration_ns m) (queue_depth m) (queue_capacity m)
    (worker_count m) (active_count m) (in_flight_count m) (enqueue_rejected_count m) (priority_high_count m)
    (priority_normal_count m) (priority_low_count m) (priority_background_count m)
    (low_priority_rejected_count m) (starvation_guard_count m) (completed_count m).
Definition empty_scheduler_metrics : SchedulerMetrics := mkSchedulerMetrics 0 0 0 0 0 0 0 0 0 0 0 0 0 0 0 0 0 0 0 0.

Record TriggerRuntimeMetrics := mkTriggerMetrics {
  tr_ready_count : nat; tr_suppressed_count : nat; tr_coalesced_count : nat; timeout_drop_count : nat;
  batch_flush_count : nat; time_sync_drop_count : nat; late_drop_count : nat; pending_drop_count : nat;
  condition_suppressed_count : nat; rate_limit_suppressed_count : nat }.
#[export] Instance eta_TriggerRuntimeMetrics : Eta TriggerRuntimeMetrics := fun m =>
  mkTriggerMetrics (tr_ready_count m) (tr_suppressed_count m) (tr_coalesced_count m) (timeout_drop_count m)
    (batch_flush_count m) (time_sync_drop_count m) (late_drop_count m) (pending_drop_count m)
    (condition_suppressed_count m) (rate_limit_suppressed_count m).
Definition empty_trigger_metrics : TriggerRuntimeMetrics := mkTriggerMetrics 0 0 0 0 0 0 0 0 0 0.

(** ** Stop tokens *)
Definition stop_flags : Type := gmap nat bool.
Definition token_valid (token : option nat) : bool := match token with Some _ => true | None => false end.
Definition token_stop_requested (h : stop_flags) (token : option nat) : bool :=
  match token with Some l => default false (h !! l) | None => false end.
Definition request_stop (source : nat) (h : stop_flags) : stop_flags := <[source := true]> h.

Inductive SchedulerStopReason := kNotStarted | kTickBound | kDurationBound | kIdle | kStopRequested | kError.
Definition stop_reason_name (reason : SchedulerStopReason) : string :=
  match reason with
  | kNotStarted => "not_started" | kTickBound => "tick_bound" | kDurationBound => "duration_bound"
  | kIdle => "idle" | kStopRequested => "stop_requested" | kError => "error"
  end.

(** ** Registry *)
Definition SchedulerRegistry : Type := gmap string SchedulerGroupConfig.
Definition add_group (group : SchedulerGroupConfig) (r : SchedulerRegistry) : SchedulerRegistry := <[group_id group := group]> r.
Definition get_group (id : string) (r : SchedulerRegistry) : option SchedulerGroupConfig := r !! id.
Definition has_group (id : string) (r : SchedulerRegistry) : bool :=
  match r !! id with Some _ => true | None => false end.
Definition registry_size (r : SchedulerRegistry) : nat := size r.

(** ** Metrics tracker *)
Definition observe_tick (scheduled_at started_at callback_duration : Z) (m : SchedulerMetrics) : SchedulerMetrics :=
  let m := m <| tick_count ::= S |> <| tick_jitter_ns := (started_at - scheduled_at)%Z |>
             <| last_callback_duration_ns := callback_duration |> in
  if (0 <? callback_duration)%Z then m <| completed_count ::= S |> else m.
Definition observe_skipped_tick (blocked_duration : Z) (m : SchedulerMetrics) : SchedulerMetrics :=
  m <| skipped_tick_count ::= S |> <| blocked_duration_ns := blocked_duration |>.
Definition observe_worker_pool (depth capacity workers active in_flight : nat) (m : SchedulerMetrics) : SchedulerMetrics :=
  m <| queue_depth := depth |> <| queue_capacity := capacity |> <| worker_count := workers |>
    <| active_count := active |> <| in_flight_count := in_flight |>.
Definition observe_enqueue_rejected (m : SchedulerMetrics) : SchedulerMetrics := m <| enqueue_rejected_count ::= S |>.
Definition observe_completed (m : SchedulerMetrics) : SchedulerMetrics := m <| completed_count ::= S |>.
