(* ===== verification/Trigger.v ===== *)
(** * Trigger: readiness of message-driven components

    Models [src/trigger_policy.cpp] ([TriggerPolicyEngine]).  The engine keeps, per component, the messages drained
    from its input channels until the trigger policy is satisfied.  [collect_ready_invocations] holds the engine's
    mutex for its whole body, so it is one function on the engine and the bus it drains.  The outer [option] is
    [None] where the code throws or has undefined behaviour ([pop_front] of an empty deque).  Reading a missing port
    of the pending map inserts an empty queue in the code; an empty queue and a missing one are never told apart, so
    the model reads with [map_at].  Timestamps are unbounded integers: the model agrees with the 64-bit code when
    differences of timestamps fit in 64 bits.  The cancellation token and the stop callback of a tick are carried
    through as identities. *)

From S2P Require Export Bus Scheduler.
Local Open Scope nat_scope.

(** ** Data *)
Inductive EventKind :=
| kMessage | kTimer | kRequest | kActionGoal | kActionCancel | kFutureReady | kTaskReady | kLifecycle | kHealth | kManual.
#[export] Instance EventKind_eq_dec : EqDecision EventKind.
Proof. solve_decision. Defined.
Inductive TriggerKind :=
| tkOnMessage | tkOnTick | tkAllInputs | tkAnyInput | tkTimeSync | tkBatch | tkRequest | tkTaskReady | tkManual
| tkWatermark | tkCondition | tkDebounce | tkRateLimit.

Record TickContext := mkTick {
  tick_sequence : nat; tick_scheduled_at : Z; tick_started_at : Z; tick_cancel_token : option nat;
  tick_stop_requested : option nat }.
Record Invocation := mkInvocation {
  inv_event : EventKind; inv_trigger : TriggerKind; inv_port : string; inv_channel_id : string;
  inv_correlation_id : string; inv_metadata : InvocationMetadata; inv_payload : RuntimePayloadPtr;
  ready_inputs : list string; payloads_by_port : gmap string RuntimePayloadPtr;
  batch_payloads : list RuntimePayloadPtr; inv_scheduled_at : Z; inv_started_at : Z; inv_received_at : Z;
  inv_published_at : Z; inv_sequence : nat; inv_deadline_missed : bool; inv_event_timestamp : option EventTimestamp;
  inv_budget : Z; inv_lane : string; inv_priority : string; inv_cancel_token : option nat;
  inv_stop_requested : option nat }.
#[export] Instance eta_Invocation : Eta Invocation := fun i =>
  mkInvocation (inv_event i) (inv_trigger i) (inv_port i) (inv_channel_id i) (inv_correlation_id i) (inv_metadata i)
    (inv_payload i) (ready_inputs i) (payloads_by_port i) (batch_payloads i) (inv_scheduled_at i) (inv_started_at i)
    (inv_received_at i) (inv_published_at i) (inv_sequence i) (inv_deadline_missed i) (inv_event_timestamp i)
    (inv_budget i) (inv_lane i) (inv_priority i) (inv_cancel_token i) (inv_stop_requested i).

(** ** Component queries *)
Definition is_timer_event_source (s : EventSourceSpec) : bool := str_eqb (source_type s) "timer".
Definition is_message_event_source (s : EventSourceSpec) : bool :=
  str_eqb (source_type s) "message" || str_eqb (source_type s) "request" || str_eqb (source_type s) "task_ready" ||
  str_eqb (source_type s) "future_ready".
Definition is_manual_event_source (s : EventSourceSpec) : bool := str_eqb (source_type s) "manual".
Definition has_timer_event_source (c : ComponentNodeSpec) : bool := existsb is_timer_event_source (event_sources c).
Definition has_message_event_source (c : ComponentNodeSpec) : bool := existsb is_message_event_source (event_sources c).
Definition has_event_driven_source (c : ComponentNodeSpec) : bool := has_message_event_source c || has_timer_event_source c.

Fixpoint event_kind_of_sources (sources : list EventSourceSpec) : EventKind :=
  match sources with
  | [] => kMessage
  | s :: rest =>
      if str_eqb (source_type s) "request" then kRequest else
      if str_eqb (source_type s) "task_ready" then kTaskReady else
      if str_eqb (source_type s) "future_ready" then kFutureReady else event_kind_of_sources rest
  end.
Definition event_kind_for_component (c : ComponentNodeSpec) : EventKind :=
  if str_eqb (trigger_type (trigger_policy c)) "request" then kRequest else
  if str_eqb (trigger_type (trigger_policy c)) "task_ready" then kTaskReady else
  event_kind_of_sources (event_sources c).
Definition timer_period_ms_for (c : ComponentNodeSpec) : option Z :=
  option_map source_period_ms (find (fun s => str_eqb (source_type s) "timer") (event_sources c)).
Definition event_task_hz_for (c : ComponentNodeSpec) : QArith_base.Q :=
  match timer_period_ms_for c with
  | None => QArith_base.Qmake 0 1
  | Some period => if (period <=? 0)%Z then QArith_base.Qmake 0 1 else QArith_base.Qmake 1000 (Z.to_pos period)
  end.
Definition trigger_policy_inputs_for (c : ComponentNodeSpec) : list string :=
  match trigger_inputs (trigger_policy c) with
  | [] => flat_map source_inputs (event_sources c)
  | inputs => inputs
  end.
Definition trigger_kind_for_policy (policy : TriggerPolicySpec) (event : EventKind) : TriggerKind :=
  if bool_decide (event = kTimer) then tkOnTick else
  let t := trigger_type policy in
  if str_eqb t "all_inputs" then tkAllInputs else
  if str_eqb t "any_input" || str_eqb t "on_event" then tkAnyInput else
  if str_eqb t "time_sync" then tkTimeSync else
  if str_eqb t "batch" then tkBatch else
  if str_eqb t "request" then tkRequest else
  if str_eqb t "task_ready" then tkTaskReady else
  if str_eqb t "watermark" then tkWatermark else
  if str_eqb t "condition" then tkCondition else
  if str_eqb t "debounce" then tkDebounce else
  if str_eqb t "rate_limit" then tkRateLimit else tkManual.
Definition trigger_kind_name (trigger : TriggerKind) : string :=
  match trigger with
  | tkOnMessage => "on_message" | tkOnTick => "on_tick" | tkAllInputs => "all_inputs" | tkAnyInput => "any_input"
  | tkTimeSync => "time_sync" | tkBatch => "batch" | tkRequest => "request" | tkTaskReady => "task_ready"
  | tkManual => "manual" | tkWatermark => "watermark" | tkCondition => "condition" | tkDebounce => "debounce"
  | tkRateLimit => "rate_limit"
  end.

(** ** Pending messages *)
Abbreviation PendingMessages := (gmap string (list RuntimeChannelMessage)).
Definition PortMessage : Type := string * RuntimeChannelMessage.

Definition messages_have_comparable_timestamps (messages : list PortMessage) : bool :=
  match messages with
  | [] => false
  | (_, m) :: _ =>
      match msg_event_timestamp m with
      | None => false
      | Some ts => forallb (fun item : PortMessage => match msg_event_timestamp item.2 with
                     | Some ts' => bool_decide (ts_domain ts' = ts_domain ts) | None => false end) messages
      end
  end.
Definition event_timestamp_ns (m : RuntimeChannelMessage) : Z :=
  match msg_event_timestamp m with Some ts => ts_nanoseconds ts | None => 0%Z end.
Definition timestamp_slop_ns (policy : TriggerPolicySpec) : Z := (sync_slop_ms policy * 1000000)%Z.
Definition watermark_lateness_ns (policy : TriggerPolicySpec) : Z := (watermark_lateness_ms policy * 1000000)%Z.

Fixpoint oldest_pending_batch_time (inputs : list string) (pending : PendingMessages) (oldest : option Z) : option Z :=
  match inputs with
  | [] => oldest
  | input :: rest =>
      let oldest := match map_at [] pending input with
        | [] => oldest
        | m :: _ => match oldest with
                    | None => Some (msg_received_at m)
                    | Some t => if (msg_received_at m <? t)%Z then Some (msg_received_at m) else Some t
                    end
        end in
      oldest_pending_batch_time rest pending oldest
  end.

Fixpoint front_messages_for_inputs (inputs : list string) (pending : PendingMessages) : option (list PortMessage) :=
  match inputs with
  | [] => Some []
  | input :: rest =>
      match map_at [] pending input with
      | [] => None
      | m :: _ => option_map (cons (input, m)) (front_messages_for_inputs rest pending)
      end
  end.
(** [pending\[port\].pop_front()]: undefined on an empty queue. *)
Definition pop_front (pending : PendingMessages) (port : string) : option PendingMessages :=
  match map_at [] pending port with [] => None | _ :: q => Some (<[port := q]> pending) end.
Fixpoint consume_front_messages (inputs : list string) (pending : PendingMessages) : option PendingMessages :=
  match inputs with
  | [] => Some pending
  | input :: rest => match pop_front pending input with None => None | Some pending => consume_front_messages rest pending end
  end.
Definition kTriggerPendingCapacityCushion : nat := 1.

(** ** The engine *)
Record TriggerPolicyEngine := mkEngine {
  te_pending : gmap string PendingMessages; te_last_invoked : gmap string Z;
  te_watermarks : gmap string (TimestampDomain -> option Z); te_last_stats : gmap string TriggerRuntimeMetrics }.
#[export] Instance eta_TriggerPolicyEngine : Eta TriggerPolicyEngine := fun e =>
  mkEngine (te_pending e) (te_last_invoked e) (te_watermarks e) (te_last_stats e).
Definition TriggerPolicyEngine_new : TriggerPolicyEngine := mkEngine ∅ ∅ ∅ ∅.

Definition take_last_stats (e : TriggerPolicyEngine) (component_id : string) : TriggerPolicyEngine * TriggerRuntimeMetrics :=
  match te_last_stats e !! component_id with
  | None => (e, empty_trigger_metrics)
  | Some stats => (e <| te_last_stats ::= <[component_id := empty_trigger_metrics]> |>, stats)
  end.

Definition base_invocation (event : EventKind) (trigger : TriggerKind) (context : TickContext) (c : ComponentNodeSpec)
    (lane : SchedulerGroupConfig) : Invocation :=
  mkInvocation event trigger "" "" ""
    (empty_metadata <| md_epoch_id := tick_sequence context |> <| md_trigger_kind := trigger_kind_name trigger |>)
    None [] ∅ [] (tick_scheduled_at context) (tick_started_at context) 0 0 (tick_sequence context) false None
    (exec_budget_ms (execution c)) (group_id lane) (exec_priority (execution c)) (tick_cancel_token context)
    (tick_stop_requested context).
Definition timer_invocation_for (context : TickContext) (c : ComponentNodeSpec) (lane : SchedulerGroupConfig) : Invocation :=
  base_invocation kTimer tkOnTick context c lane.
Definition event_invocation_for (event : EventKind) (context : TickContext) (c : ComponentNodeSpec)
    (lane : SchedulerGroupConfig) : Invocation :=
  base_invocation event (trigger_kind_for_policy (trigger_policy c) event) context c lane.

(** The body of the loop of [invocation_from_messages]: the first message with a payload names the invocation. *)
Definition add_message (context : TickContext) (trigger : TriggerKind) (i : Invocation) (item : PortMessage) : Invocation :=
  let '(port, m) := item in
  let i := match inv_payload i with
    | Some _ => i
    | None =>
        let own := metadata_id (msg_channel_id m) (msg_sequence m) in
        let md := (msg_metadata m) <| md_epoch_id := tick_sequence context |> <| md_trigger_kind := trigger_kind_name trigger |> in
        let md := if str_empty (md_correlation_id md) then md <| md_correlation_id := own |> else md in
        let md := if str_empty (md_causation_id md) then md <| md_causation_id := own |> else md in
        let md := if str_empty (md_transaction_id md) then md <| md_transaction_id := md_correlation_id md |> else md in
        i <| inv_port := port |> <| inv_channel_id := msg_channel_id m |> <| inv_metadata := md |>
          <| inv_correlation_id := md_correlation_id md |> <| inv_payload := msg_payload m |>
          <| inv_received_at := msg_received_at m |> <| inv_published_at := msg_published_at m |>
          <| inv_deadline_missed := msg_deadline_missed m |> <| inv_event_timestamp := msg_event_timestamp m |>
    end in
  i <| ready_inputs ::= fun l => l ++ [port] |> <| payloads_by_port ::= <[port := msg_payload m]> |>
    <| batch_payloads ::= fun l => l ++ [msg_payload m] |>.
Definition invocation_from_messages (event : EventKind) (trigger : TriggerKind) (context : TickContext)
    (c : ComponentNodeSpec) (lane : SchedulerGroupConfig) (messages : list PortMessage) : Invocation :=
  fold_left (add_message context trigger) messages (base_invocation event trigger context c lane).

(** ** Filling and trimming the pending queues *)

(** [drain_inputs]: the bus is drained port by port; [clock i] are the readings for the [i]-th input. *)
Fixpoint drain_inputs (bus : RuntimeChannelBus) (clock : nat -> nat -> Z) (component_id : string) (inputs : list string)
    (pending : PendingMessages) : option (RuntimeChannelBus * list PendingChannelHealthEvent * PendingMessages) :=
  match inputs with
  | [] => Some (bus, [], pending)
  | input :: rest =>
      match drain_for_component_port bus (clock 0) component_id input 0 with
      | None => None
      | Some (bus, ev, messages) =>
          match drain_inputs bus (fun i => clock (S i)) component_id rest
                  (<[input := map_at [] pending input ++ messages]> pending) with
          | None => None
          | Some (bus, ev', pending) => Some (bus, ev ++ ev', pending)
          end
      end
  end.

Definition timed_out (policy : TriggerPolicySpec) (now : Z) (m : RuntimeChannelMessage) : bool :=
  (ms (max_latency_ms policy) <? now - msg_received_at m)%Z.
Definition prune_timed_out_messages (policy : TriggerPolicySpec) (pending : PendingMessages) (now : Z)
  : PendingMessages * nat :=
  if (max_latency_ms policy <=? 0)%Z then (pending, 0) else
  (fmap (List.filter (fun m => negb (timed_out policy now m))) pending,
   sum_list_with (fun kv => count_if (timed_out policy now) kv.2) (map_items pending)).

Definition pending_limit (bus : option RuntimeChannelBus) (c : ComponentNodeSpec) (port : string) : option nat :=
  let policy := trigger_policy c in
  match (match bus with None => Some 1 | Some b =>
           option_map (Nat.max 1) (configured_capacity_for_component_port b (comp_id c) port) end) with
  | None => None
  | Some limit =>
      let limit := if (0 <? batch_size policy)%Z then Nat.max limit (Z.to_nat (batch_size policy)) else limit in
      Some (if str_eqb (trigger_type policy) "debounce" || coalesce policy then 1
            else limit + kTriggerPendingCapacityCushion)
  end.
(** [while (queue.size() > limit) { queue.pop_front(); ++dropped; }] *)
Fixpoint trim_front (limit : nat) (q : list RuntimeChannelMessage) : list RuntimeChannelMessage * nat :=
  match q with
  | [] => ([], 0)
  | _ :: rest => if limit <? length q then let '(q, dropped) := trim_front limit rest in (q, S dropped) else (q, 0)
  end.
Fixpoint enforce_ports (bus : option RuntimeChannelBus) (c : ComponentNodeSpec)
    (ports : list (string * list RuntimeChannelMessage)) (pending : PendingMessages) (dropped : nat)
  : option (PendingMessages * nat) :=
  match ports with
  | [] => Some (pending, dropped)
  | (port, q) :: rest =>
      match pending_limit bus c port with
      | None => None
      | Some limit =>
          let '(q, n) := trim_front limit q in
          enforce_ports bus c rest (<[port := q]> pending) (dropped + n)
      end
  end.
Definition enforce_pending_bounds (bus : option RuntimeChannelBus) (c : ComponentNodeSpec) (pending : PendingMessages)
  : option (PendingMessages * nat) := enforce_ports bus c (map_items pending) pending 0.

Definition rate_limited (e : TriggerPolicyEngine) (c : ComponentNodeSpec) (now : Z) : bool :=
  if (min_interval_ms (trigger_policy c) <=? 0)%Z then false else
  match te_last_invoked e !! comp_id c with
  | None => false
  | Some t => (now - t <? ms (min_interval_ms (trigger_policy c)))%Z
  end.
Definition record_invocation (c : ComponentNodeSpec) (now : Z) (e : TriggerPolicyEngine) : TriggerPolicyEngine :=
  e <| te_last_invoked ::= <[comp_id c := now]> |>.

(** ** The policies *)
Section collect.
Context (context : TickContext) (c : ComponentNodeSpec) (lane : SchedulerGroupConfig).

Definition any_input_invocation (port : string) (m : RuntimeChannelMessage) : Invocation :=
  let event := event_kind_for_component c in
  invocation_from_messages event (trigger_kind_for_policy (trigger_policy c) event) context c lane [(port, m)].
(** The loops over ports and their queues; [min_interval_ms > 0] stops after one invocation. *)
Fixpoint collect_any_ports (ports : list (string * list RuntimeChannelMessage)) (pending : PendingMessages)
  : list Invocation * PendingMessages :=
  match ports with
  | [] => ([], pending)
  | (port, q) :: rest =>
      if (0 <? min_interval_ms (trigger_policy c))%Z then
        match q with
        | m :: q => ([any_input_invocation port m], <[port := q]> pending)
        | [] => collect_any_ports rest pending
        end
      else let '(invs, pending) := collect_any_ports rest (<[port := []]> pending) in
           ((any_input_invocation port <$> q) ++ invs, pending)
  end.
Definition collect_any_input (pending : PendingMessages) : list Invocation * PendingMessages :=
  collect_any_ports (map_items pending) pending.

Definition last_of_port (kv : string * list RuntimeChannelMessage) : option PortMessage :=
  option_map (pair kv.1) (last kv.2).
Definition collect_coalesced_any_input (pending : PendingMessages) : list Invocation * PendingMessages :=
  let messages := omap last_of_port (map_items pending) in
  let pending := fmap (fun _ => []) pending in
  match messages with
  | [] => ([], pending)
  | _ :: _ =>
      let event := event_kind_for_component c in
      ([invocation_from_messages event (trigger_kind_for_policy (trigger_policy c) event) context c lane messages], pending)
  end.

Definition collect_all_inputs (pending : PendingMessages) : option (list Invocation * PendingMessages) :=
  let inputs := trigger_policy_inputs_for c in
  match front_messages_for_inputs inputs pending with
  | None => Some ([], pending)
  | Some messages =>
      match consume_front_messages inputs pending with
      | None => None
      | Some pending =>
          Some ([invocation_from_messages kMessage (trigger_kind_for_policy (trigger_policy c) kMessage) context c lane messages],
                pending)
      end
  end.

Definition port_message_lt (a b : PortMessage) : bool := (event_timestamp_ns a.2 <? event_timestamp_ns b.2)%Z.
(** The outcome of one round of the [time_sync] loop. *)
Inductive SyncRound := SyncWait | SyncFire (messages : list PortMessage) | SyncDrop (port : string).
Definition sync_round (inputs : list string) (pending : PendingMessages) : SyncRound :=
  match front_messages_for_inputs inputs pending with
  | None => SyncWait
  | Some messages =>
      let slop_ns := timestamp_slop_ns (trigger_policy c) in
      if (slop_ns <=? 0)%Z || negb (messages_have_comparable_timestamps messages) then SyncFire messages else
      match min_element port_message_lt messages, min_element (fun a b => port_message_lt b a) messages with
      | Some min_item, Some max_item =>
          if (event_timestamp_ns max_item.2 - event_timestamp_ns min_item.2 <=? slop_ns)%Z then SyncFire messages
          else SyncDrop min_item.1
      | _, _ => SyncFire messages
      end
  end.
(** The [while (true)] loop, on fuel; [None] in the inner option is running out of it. *)
Fixpoint collect_time_sync (fuel : nat) (pending : PendingMessages) (stats : TriggerRuntimeMetrics)
  : option (option (list Invocation * PendingMessages * TriggerRuntimeMetrics)) :=
  match fuel with
  | 0 => Some None
  | S fuel =>
      let inputs := trigger_policy_inputs_for c in
      match sync_round inputs pending with
      | SyncWait => Some (Some ([], pending, stats))
      | SyncFire messages =>
          match consume_front_messages inputs pending with
          | None => None
          | Some pending =>
              Some (Some ([invocation_from_messages kMessage tkTimeSync context c lane messages], pending, stats))
          end
      | SyncDrop port =>
          match pop_front pending port with
          | None => None
          | Some pending => collect_time_sync fuel pending (stats <| time_sync_drop_count ::= S |>)
          end
      end
  end.

(** One message of the watermark loop: the watermarks, the late drops and the retained messages so far. *)
Definition watermark_step (acc : (TimestampDomain -> option Z) * nat * list RuntimeChannelMessage)
    (m : RuntimeChannelMessage) : (TimestampDomain -> option Z) * nat * list RuntimeChannelMessage :=
  let '(marks, late, retained) := acc in
  match msg_event_timestamp m with
  | None => (marks, late, retained ++ [m])
  | Some ts =>
      let domain := ts_domain ts in
      let timestamp := ts_nanoseconds ts in
      match marks domain with
      | Some mark =>
          if (timestamp <? mark - watermark_lateness_ns (trigger_policy c))%Z then (marks, S late, retained)
          else if (mark <? timestamp)%Z
               then (fun d => if bool_decide (d = domain) then Some timestamp else marks d, late, retained ++ [m])
               else (marks, late, retained ++ [m])
      | None => (fun d => if bool_decide (d = domain) then Some timestamp else marks d, late, retained ++ [m])
      end
  end.
Fixpoint watermark_ports (ports : list (string * list RuntimeChannelMessage)) (pending : PendingMessages)
    (marks : TimestampDomain -> option Z) (late : nat) : PendingMessages * (TimestampDomain -> option Z) * nat :=
  match ports with
  | [] => (pending, marks, late)
  | (port, q) :: rest =>
      let '(marks, late, retained) := fold_left watermark_step q (marks, late, []) in
      watermark_ports rest (<[port := retained]> pending) marks late
  end.
Definition collect_watermark (pending : PendingMessages) (marks : TimestampDomain -> option Z)
    (stats : TriggerRuntimeMetrics)
  : list Invocation * PendingMessages * (TimestampDomain -> option Z) * TriggerRuntimeMetrics :=
  let '(pending, marks, late) := watermark_ports (map_items pending) pending marks 0 in
  let '(invs, pending) := collect_any_input pending in
  (invs, pending, marks, stats <| late_drop_count ::= fun n => n + late |>).

(** The [while (true)] loop of [event_timestamp_present], on fuel. *)
Fixpoint collect_timestamped (fuel : nat) (pending : PendingMessages) (stats : TriggerRuntimeMetrics)
  : option (option (list Invocation * PendingMessages * TriggerRuntimeMetrics)) :=
  match fuel with
  | 0 => Some None
  | S fuel =>
      let inputs := trigger_policy_inputs_for c in
      match front_messages_for_inputs inputs pending with
      | None => Some (Some ([], pending, stats <| condition_suppressed_count ::= S |>))
      | Some messages =>
          match fst <$> List.filter (fun item : PortMessage => negb (has_value (msg_event_timestamp item.2))) messages with
          | [] =>
              match consume_front_messages inputs pending with
              | None => None
              | Some pending =>
                  Some (Some ([invocation_from_messages kMessage tkCondition context c lane messages], pending, stats))
              end
          | missing =>
              match consume_front_messages missing pending with
              | None => None
              | Some pending =>
                  collect_timestamped fuel pending (stats <| pending_drop_count ::= fun n => n + length missing |>)
              end
          end
      end
  end.
Definition note_suppressed (invs : list Invocation) (stats : TriggerRuntimeMetrics) : TriggerRuntimeMetrics :=
  match invs with [] => stats <| condition_suppressed_count ::= S |> | _ => stats end.
Definition collect_condition (fuel : nat) (pending : PendingMessages) (stats : TriggerRuntimeMetrics)
  : option (option (list Invocation * PendingMessages * TriggerRuntimeMetrics)) :=
  let condition := if str_empty (trigger_condition (trigger_policy c)) then "all_inputs_ready"
                   else trigger_condition (trigger_policy c) in
  if str_eqb condition "any_input_ready" then
    let '(invs, pending) := collect_any_input pending in Some (Some (invs, pending, note_suppressed invs stats))
  else if str_eqb condition "all_inputs_ready" then
    match collect_all_inputs pending with
    | None => None
    | Some (invs, pending) => Some (Some (invs, pending, note_suppressed invs stats))
    end
  else if str_eqb condition "event_timestamp_present" then
    match trigger_policy_inputs_for c with
    | [] => Some (Some ([], pending, stats <| condition_suppressed_count ::= S |>))
    | _ => collect_timestamped fuel pending stats
    end
  else Some (Some ([], pending, stats <| condition_suppressed_count ::= S |>)).

(** How many messages the batch takes; 0 when it is not ready. *)
Definition batch_target (pending : PendingMessages) : nat :=
  let policy := trigger_policy c in
  let inputs := trigger_policy_inputs_for c in
  let available := sum_list_with (fun input => length (map_at [] pending input)) inputs in
  if available =? 0 then 0 else
  if ((0 <? batch_size policy) && (batch_size policy <=? Z.of_nat available))%Z then Z.to_nat (batch_size policy) else
  if (0 <? batch_window_ms policy)%Z then
    match oldest_pending_batch_time inputs pending None with
    | Some oldest =>
        if (ms (batch_window_ms policy) <=? tick_started_at context - oldest)%Z
        then if (0 <? batch_size policy)%Z then Nat.min available (Z.to_nat (batch_size policy)) else available
        else 0
    | None => 0
    end
  else 0.
Fixpoint take_batch (inputs : list string) (pending : PendingMessages) (messages : list PortMessage) (target : nat)
  : list PortMessage * PendingMessages :=
  match inputs with
  | [] => (messages, pending)
  | input :: rest =>
      let q := map_at [] pending input in
      let n := target - length messages in
      take_batch rest (<[input := drop n q]> pending) (messages ++ (pair input <$> take n q)) target
  end.
Definition collect_batch (pending : PendingMessages) (stats : TriggerRuntimeMetrics)
  : list Invocation * PendingMessages * TriggerRuntimeMetrics :=
  let target := batch_target pending in
  if target =? 0 then ([], pending, stats) else
  let '(messages, pending) := take_batch (trigger_policy_inputs_for c) pending [] target in
  match messages with
  | [] => ([], pending, stats)
  | _ => ([invocation_from_messages kMessage tkBatch context c lane messages], pending, stats <| batch_flush_count ::= S |>)
  end.
End collect.

(** ** Collecting *)
Definition pending_total (pending : PendingMessages) : nat := sum_list_with (fun kv => length kv.2) (map_to_list pending).

Record Collected := mkCollected {
  co_invocations : list Invocation; co_pending : PendingMessages; co_stats : TriggerRuntimeMetrics;
  co_marks : TimestampDomain -> option Z }.
Definition no_marks : TimestampDomain -> option Z := fun _ => None.

(** The dispatch on the policy type; [None] also stands for a loop that ran out of fuel. *)
Definition collect_policy (fuel : nat) (context : TickContext) (c : ComponentNodeSpec) (lane : SchedulerGroupConfig)
    (pending : PendingMessages) (stats : TriggerRuntimeMetrics) (marks : TimestampDomain -> option Z) : option Collected :=
  let t := trigger_type (trigger_policy c) in
  let looped r := match r with
    | Some (Some (invs, pending, stats)) => Some (mkCollected invs pending stats marks)
    | _ => None
    end in
  if str_eqb t "all_inputs" then
    option_map (fun r => mkCollected r.1 r.2 stats marks) (collect_all_inputs context c lane pending)
  else if str_eqb t "time_sync" then looped (collect_time_sync context c lane fuel pending stats)
  else if str_eqb t "batch" then
    let '(invs, pending, stats) := collect_batch context c lane pending stats in Some (mkCollected invs pending stats marks)
  else if str_eqb t "watermark" then
    let '(invs, pending, marks, stats) := collect_watermark context c lane pending marks stats in
    Some (mkCollected invs pending stats marks)
  else if str_eqb t "condition" then looped (collect_condition context c lane fuel pending stats)
  else if str_eqb t "debounce" || coalesce (trigger_policy c) then
    let '(invs, pending) := collect_coalesced_any_input context c lane pending in Some (mkCollected invs pending stats marks)
  else let '(invs, pending) := collect_any_input context c lane pending in Some (mkCollected invs pending stats marks).

Definition CollectResult : Type :=
  TriggerPolicyEngine * option RuntimeChannelBus * list PendingChannelHealthEvent * list Invocation.

Definition collect_ready_invocations (e : TriggerPolicyEngine) (bus : option RuntimeChannelBus)
    (clock : nat -> nat -> Z) (context : TickContext) (c : ComponentNodeSpec) (lane : SchedulerGroupConfig)
  : option CollectResult :=
  if has_timer_event_source c then Some (e, bus, [], [timer_invocation_for context c lane]) else
  if negb (has_message_event_source c) then Some (e, bus, [], [event_invocation_for kManual context c lane]) else
  let pending := map_at ∅ (te_pending e) (comp_id c) in
  let now := tick_started_at context in
  match (match bus with
         | None => Some (None, [], pending)
         | Some b => option_map (fun r : RuntimeChannelBus * list PendingChannelHealthEvent * PendingMessages =>
                                   (Some r.1.1, r.1.2, r.2))
                       (drain_inputs b clock (comp_id c) (trigger_policy_inputs_for c) pending)
         end) with
  | None => None
  | Some (bus, ev, pending) =>
      let '(pending, timeouts) := prune_timed_out_messages (trigger_policy c) pending now in
      match enforce_pending_bounds bus c pending with
      | None => None
      | Some (pending, dropped) =>
          let stats := empty_trigger_metrics <| timeout_drop_count := timeouts |> <| pending_drop_count := dropped |> in
          let store pending stats e :=
            e <| te_pending ::= <[comp_id c := pending]> |> <| te_last_stats ::= <[comp_id c := stats]> |> in
          if rate_limited e c now
          then Some (store pending (stats <| rate_limit_suppressed_count := 1 |>) e, bus, ev, [])
          else
            let marks := map_at no_marks (te_watermarks e) (comp_id c) in
            match collect_policy (S (pending_total pending)) context c lane pending stats marks with
            | None => None
            | Some r =>
                let e := store (co_pending r) (co_stats r) e in
                let e := if str_eqb (trigger_type (trigger_policy c)) "watermark"
                         then e <| te_watermarks ::= <[comp_id c := co_marks r]> |> else e in
                let e := match co_invocations r with [] => e | _ => record_invocation c now e end in
                Some (e, bus, ev, co_invocations r)
            end
      end
  end.
