(* ===== verification/TriggerFacts.v ===== *)
(** * TriggerFacts: what the trigger engine guarantees

    The pending queues as a multiset measure, termination of the two policy loops, totality of a collection over
    distinct inputs, conservation of every message drained from the bus, the bounds on the pending queues, the rate
    limit, and the specifications of the individual policies. *)

From S2P Require Export Trigger BusFacts.
Local Open Scope nat_scope.

(** ** Counting pending messages *)
Lemma sum_list_with_perm {A} (f : A -> nat) l l' : l ≡ₚ l' → sum_list_with f l = sum_list_with f l'.
Proof. induction 1; simpl; lia. Qed.
Lemma pending_total_delete p k q : p !! k = Some q → pending_total p = length q + pending_total (delete k p).
Proof.
  intros H. unfold pending_total. by rewrite <- (sum_list_with_perm _ _ _ (map_to_list_delete p k q H)).
Qed.
Lemma pending_total_insert p k q : pending_total (<[k := q]> p) + length (map_at [] p k) = pending_total p + length q.
Proof.
  rewrite (pending_total_delete (<[k := q]> p) k q) by apply lookup_insert_eq.
  rewrite delete_insert_eq. unfold map_at.
  destruct (p !! k) as [q0|] eqn:E; simpl.
  - rewrite (pending_total_delete p k q0) by done. lia.
  - rewrite delete_id by done. lia.
Qed.
Lemma pending_total_items p : pending_total p = sum_list_with (fun kv => length kv.2) (map_items p).
Proof. unfold pending_total. apply sum_list_with_perm. by rewrite map_items_perm. Qed.
Lemma pending_total_fmap (f : list RuntimeChannelMessage -> list RuntimeChannelMessage) p :
  pending_total (f <$> p) = sum_list_with (fun kv => length (f kv.2)) (map_items p).
Proof.
  unfold pending_total. rewrite map_to_list_fmap. rewrite (sum_list_with_perm _ (map_items p) (map_to_list p)) by apply map_items_perm.
  induction (map_to_list p) as [|[k q] l IH]; [done|]. simpl. f_equal. exact IH.
Qed.

Lemma pop_front_spec p port : match pop_front p port with
  | Some p' => S (pending_total p') = pending_total p ∧
      ∃ m q, map_at [] p port = m :: q ∧ p' = <[port := q]> p
  | None => map_at [] p port = []
  end.
Proof.
  unfold pop_front. destruct (map_at [] p port) as [|m q] eqn:E; [done|].
  pose proof (pending_total_insert p port q). rewrite E in *. simpl in *. split; [lia|]. by exists m, q.
Qed.

(** Over distinct inputs the fronts that were found can be consumed. *)
Lemma consume_front_spec inputs p : NoDup inputs → Forall (fun i => map_at [] p i ≠ []) inputs →
  ∃ p', consume_front_messages inputs p = Some p' ∧ pending_total p' + length inputs = pending_total p ∧
    ∀ k, map_at [] p' k = if decide (k ∈ inputs) then tail (map_at [] p k) else map_at [] p k.
Proof.
  revert p. induction inputs as [|i inputs IH]; intros p Hn Hf; cbn [consume_front_messages length].
  { exists p. split; [done|]. split; [lia|]. intros k. by rewrite decide_False by apply not_elem_of_nil. }
  apply NoDup_cons in Hn as [Hi Hn]. apply Forall_cons in Hf as [Hne Hf].
  pose proof (pop_front_spec p i) as Hp. destruct (pop_front p i) as [p1|]; [|done]. destruct Hp as (Ht&m&q&Hq&->).
  destruct (IH (<[i:=q]> p) Hn) as (p2&->&Ht2&Hk).
  { rewrite Forall_forall in *. intros j Hj. rewrite map_at_insert_ne by set_solver. auto. }
  exists p2. split; [done|]. split; [simpl; lia|]. intros k. rewrite Hk. destruct (decide (k = i)) as [->|Hne'].
  - destruct (decide (i ∈ inputs)) as [?|_]; [done|]. destruct (decide (i ∈ i :: inputs)) as [_|Hx]; [|set_solver].
    by rewrite map_at_insert_eq, Hq.
  - rewrite map_at_insert_ne by done. destruct (decide (k ∈ inputs)), (decide (k ∈ i :: inputs)); set_solver.
Qed.

Lemma front_messages_spec inputs p : match front_messages_for_inputs inputs p with
  | Some l => fst <$> l = inputs ∧ Forall (fun i => map_at [] p i ≠ []) inputs ∧
      Forall (fun im : PortMessage => head (map_at [] p im.1) = Some im.2) l
  | None => ∃ i, i ∈ inputs ∧ map_at [] p i = []
  end.
Proof.
  induction inputs as [|i inputs IH]; simpl; [by repeat constructor|].
  destruct (map_at [] p i) as [|m q] eqn:E; [exists i; split; [left|done]|].
  destruct (front_messages_for_inputs inputs p) as [l|]; simpl.
  - destruct IH as (<-&H1&H2). split; [done|]. split; constructor; simpl; rewrite ?E; done.
  - destruct IH as (j&Hj&Hq). exists j. split; [by right|done].
Qed.

(** ** Conservation, policy by policy *)
Definition delivered_total (invs : list Invocation) : nat := sum_list_with (fun i => length (batch_payloads i)) invs.
Definition drop_total (s : TriggerRuntimeMetrics) : nat :=
  timeout_drop_count s + time_sync_drop_count s + late_drop_count s + pending_drop_count s.

Lemma invocation_batch event trigger context c lane l :
  batch_payloads (invocation_from_messages event trigger context c lane l) = (fun im : PortMessage => msg_payload im.2) <$> l ∧
  ready_inputs (invocation_from_messages event trigger context c lane l) = fst <$> l.
Proof.
  unfold invocation_from_messages.
  assert (∀ i, batch_payloads (fold_left (add_message context trigger) l i) =
               batch_payloads i ++ ((fun im : PortMessage => msg_payload im.2) <$> l) ∧
               ready_inputs (fold_left (add_message context trigger) l i) = ready_inputs i ++ (fst <$> l)) as H.
  { induction l as [|[port m] l IH]; intros i; cbn [fold_left]; [by rewrite !app_nil_r|].
    destruct (IH (add_message context trigger i (port, m))) as [-> ->]. rewrite !fmap_cons. unfold add_message.
    destruct (inv_payload i); simpl; by rewrite <- !app_assoc. }
  apply H.
Qed.
Lemma delivered_one event trigger context c lane l :
  delivered_total [invocation_from_messages event trigger context c lane l] = length l.
Proof.
  unfold delivered_total. cbn [sum_list_with]. destruct (invocation_batch event trigger context c lane l) as [-> _].
  rewrite length_fmap. lia.
Qed.

Lemma match_nonempty {A B} (l : list A) (x y : B) : l ≠ [] → match l with [] => x | _ :: _ => y end = y.
Proof. by destruct l. Qed.

Section policies.
Context (context : TickContext) (c : ComponentNodeSpec) (lane : SchedulerGroupConfig).
Let inputs := trigger_policy_inputs_for c.
Context (Hdistinct : NoDup inputs).

(** Nothing is lost: what was pending is pending still, delivered, or counted as dropped. *)
Definition conserved (p : PendingMessages) (s : TriggerRuntimeMetrics) (invs : list Invocation) (p' : PendingMessages)
    (s' : TriggerRuntimeMetrics) : Prop :=
  delivered_total invs + pending_total p' + drop_total s' = pending_total p + drop_total s.

Lemma front_consume p l : front_messages_for_inputs inputs p = Some l →
  ∃ p', consume_front_messages inputs p = Some p' ∧ pending_total p' + length l = pending_total p.
Proof.
  intros H. pose proof (front_messages_spec inputs p) as Hf. rewrite H in Hf. destruct Hf as (Hl&Hne&_).
  destruct (consume_front_spec inputs p Hdistinct Hne) as (p'&->&Ht&_). exists p'. split; [done|].
  assert (length l = length inputs) as -> by (rewrite <- Hl; by rewrite length_fmap). done.
Qed.

Lemma all_inputs_conserved p s : ∃ invs p', collect_all_inputs context c lane p = Some (invs, p') ∧ conserved p s invs p' s.
Proof.
  unfold collect_all_inputs. fold inputs. destruct (front_messages_for_inputs inputs p) as [l|] eqn:E.
  - destruct (front_consume p l E) as (p'&->&Ht). eexists _, _. split; [done|]. unfold conserved. rewrite delivered_one. lia.
  - exists [], p. split; [done|]. unfold conserved, delivered_total. simpl. lia.
Qed.

Lemma any_input_batch port m : length (batch_payloads (any_input_invocation context c lane port m)) = 1.
Proof. unfold any_input_invocation. cbv zeta. by rewrite (proj1 (invocation_batch _ _ _ _ _ _)). Qed.
Lemma any_inputs_batch port q invs :
  delivered_total ((any_input_invocation context c lane port <$> q) ++ invs) = length q + delivered_total invs.
Proof.
  unfold delivered_total. rewrite sum_list_with_app. f_equal. induction q as [|m q IH]; [done|].
  rewrite fmap_cons. cbn [sum_list_with length]. by rewrite any_input_batch, IH.
Qed.
Lemma any_ports_conserved ports p : NoDup ports.*1 → Forall (fun kv => map_at [] p kv.1 = kv.2) ports →
  let '(invs, p') := collect_any_ports context c lane ports p in delivered_total invs + pending_total p' = pending_total p.
Proof.
  revert p. induction ports as [|[port q] ports IH]; intros p Hn Hf; cbn [collect_any_ports]; [done|].
  apply NoDup_cons in Hn as [Hp Hn]. apply Forall_cons in Hf as [Hq Hf]. simpl in Hq. destruct (0 <? _)%Z.
  - destruct q as [|m q]; [by apply IH|]. unfold delivered_total. cbn [sum_list_with]. rewrite any_input_batch.
    pose proof (pending_total_insert p port q) as Ht. rewrite Hq in Ht. simpl in Ht. lia.
  - specialize (IH (<[port:=[]]> p) Hn). destruct (collect_any_ports context c lane ports (<[port:=[]]> p)) as [invs p'].
    pose proof (pending_total_insert p port []) as Ht. rewrite Hq in Ht.
    rewrite any_inputs_batch.
    simpl in *. rewrite <- Nat.add_assoc, IH; [lia|]. rewrite Forall_forall in *. intros kv Hkv.
    destruct kv as [k' q']. simpl. rewrite map_at_insert_ne; [by apply (Hf (k', q'))|]. intros <-. apply Hp.
    apply list_elem_of_fmap. by exists (port, q').
Qed.
Lemma map_items_at p : Forall (fun kv : string * list RuntimeChannelMessage => map_at [] p kv.1 = kv.2) (map_items p).
Proof.
  rewrite Forall_forall. intros [k q] H%elem_of_map_items. unfold map_at. simpl. by rewrite H.
Qed.
Lemma any_input_conserved p s : let '(invs, p') := collect_any_input context c lane p in conserved p s invs p' s.
Proof.
  pose proof (any_ports_conserved (map_items p) p (NoDup_map_keys p) (map_items_at p)) as H.
  unfold collect_any_input, conserved. destruct (collect_any_ports context c lane (map_items p) p). lia.
Qed.

Lemma coalesced_conserved p s : (∀ k q, p !! k = Some q → length q <= 1) →
  let '(invs, p') := collect_coalesced_any_input context c lane p in conserved p s invs p' s.
Proof.
  intros Hs. unfold collect_coalesced_any_input, conserved.
  assert (pending_total ((fun _ => []) <$> p) = 0) as H0.
  { rewrite (pending_total_fmap (fun _ => [])). simpl. induction (map_items p); simpl; lia. }
  assert (length (omap last_of_port (map_items p)) = pending_total p) as Hl.
  { rewrite pending_total_items. assert (Forall (fun kv : string * list RuntimeChannelMessage => length kv.2 <= 1) (map_items p)) as Hf.
    { rewrite Forall_forall. intros [k q] Hk%elem_of_map_items. by eapply Hs. }
    induction Hf as [|[k q] l Hq Hl IH]; [done|]. simpl in *. unfold last_of_port at 1. simpl.
    destruct q as [|m [|? ?]]; simpl in *; [done|f_equal; exact IH|lia]. }
  destruct (omap last_of_port (map_items p)) as [|x l] eqn:E; rewrite H0; [simpl in *; lia|].
  rewrite delivered_one, Hl. lia.
Qed.

(** The round of [time_sync] only names an input whose queue it has just seen non-empty. *)
Lemma sync_round_spec p : match sync_round c inputs p with
  | SyncWait => front_messages_for_inputs inputs p = None
  | SyncFire l => front_messages_for_inputs inputs p = Some l ∧
      ((timestamp_slop_ns (trigger_policy c) <= 0)%Z ∨ messages_have_comparable_timestamps l = false ∨
       ∀ x y, x ∈ l → y ∈ l → (event_timestamp_ns x.2 - event_timestamp_ns y.2 <= timestamp_slop_ns (trigger_policy c))%Z)
  | SyncDrop port => ∃ l x y, front_messages_for_inputs inputs p = Some l ∧ x ∈ l ∧ y ∈ l ∧ port = x.1 ∧
      (∀ z, z ∈ l → (event_timestamp_ns x.2 <= event_timestamp_ns z.2)%Z) ∧
      (timestamp_slop_ns (trigger_policy c) < event_timestamp_ns y.2 - event_timestamp_ns x.2)%Z
  end.
Proof.
  unfold sync_round. destruct (front_messages_for_inputs inputs p) as [l|] eqn:E; [|done]. cbv zeta.
  destruct (Z.leb_spec (timestamp_slop_ns (trigger_policy c)) 0) as [Hs|Hs]; cbn [orb]; [by split; [done|left]|].
  destruct (messages_have_comparable_timestamps l) eqn:Ec; cbn [negb]; [|by split; [done|right; left]].
  assert (∀ m, min_element port_message_lt l = Some m → m ∈ l ∧ ∀ z, z ∈ l → (event_timestamp_ns m.2 <= event_timestamp_ns z.2)%Z) as Hmin.
  { intros m Hm. destruct l as [|a l']; [done|]. simpl in Hm. injection Hm as <-. clear. split.
    - destruct (min_element_from_elem port_message_lt a l') as [->|?]; [left|by right].
    - destruct (min_element_from_le port_message_lt) with (best := a) (l := l') as [H1 H2]; unfold port_message_lt in *;
        try (intros; lia). intros z [->|Hz]%elem_of_cons; [lia|specialize (H2 z Hz); lia]. }
  assert (∀ m, min_element (fun a b => port_message_lt b a) l = Some m → m ∈ l ∧ ∀ z, z ∈ l → (event_timestamp_ns z.2 <= event_timestamp_ns m.2)%Z) as Hmax.
  { intros m Hm. destruct l as [|a l']; [done|]. simpl in Hm. injection Hm as <-. clear. split.
    - destruct (min_element_from_elem (fun a b => port_message_lt b a) a l') as [->|?]; [left|by right].
    - destruct (min_element_from_le (fun a b => port_message_lt b a)) with (best := a) (l := l') as [H1 H2]; unfold port_message_lt in *;
        try (intros; lia). intros z [->|Hz]%elem_of_cons; [lia|specialize (H2 z Hz); lia]. }
  destruct (min_element port_message_lt l) as [mn|] eqn:En; [|destruct l; [|done]].
  2: { split; [done|]. right; right. intros x y Hx. by apply elem_of_nil in Hx. }
  destruct (min_element (fun a b => port_message_lt b a) l) as [mx|] eqn:Ex; [|destruct l; [|done]].
  2: { split; [done|]. right; right. intros x y Hx. by apply elem_of_nil in Hx. }
  destruct (Hmin _ eq_refl) as [Hmn1 Hmn2], (Hmax _ eq_refl) as [Hmx1 Hmx2].
  destruct (Z.leb_spec (event_timestamp_ns mx.2 - event_timestamp_ns mn.2) (timestamp_slop_ns (trigger_policy c))) as [El|El].
  - split; [done|]. right; right. intros x y Hx Hy. specialize (Hmx2 x Hx). specialize (Hmn2 y Hy). lia.
  - by exists l, mn, mx.
Qed.

Lemma time_sync_conserved fuel p s : pending_total p < fuel →
  ∃ invs p' s', collect_time_sync context c lane fuel p s = Some (Some (invs, p', s')) ∧ conserved p s invs p' s'.
Proof.
  revert p s. induction fuel as [|fuel IH]; intros p s Hf; [lia|]. cbn [collect_time_sync]. fold inputs. cbv zeta.
  pose proof (sync_round_spec p) as Hr. destruct (sync_round c inputs p) as [|l|port].
  - eexists _, _, _. split; [done|]. unfold conserved, delivered_total. simpl. lia.
  - destruct Hr as [E _]. destruct (front_consume p l E) as (p'&->&Ht). eexists _, _, _. split; [done|].
    unfold conserved. rewrite delivered_one. lia.
  - destruct Hr as (l&x&y&E&Hx&_&->&_). pose proof (pop_front_spec p x.1) as Hp.
    pose proof (front_messages_spec inputs p) as Hfr. rewrite E in Hfr. destruct Hfr as (_&_&Hh).
    rewrite Forall_forall in Hh. specialize (Hh x Hx).
    destruct (pop_front p x.1) as [p1|]; [|by rewrite Hp in Hh]. destruct Hp as (Ht&_).
    destruct (IH p1 (s <| time_sync_drop_count ::= S |>)) as (invs&p'&s'&->&Hc); [lia|].
    eexists _, _, _. split; [done|]. unfold conserved, drop_total in *. simpl in *. lia.
Qed.

Lemma missing_consume p l : front_messages_for_inputs inputs p = Some l → ∀ f,
  let missing := fst <$> List.filter f l in
  ∃ p', consume_front_messages missing p = Some p' ∧ pending_total p' + length missing = pending_total p.
Proof.
  intros E f missing. pose proof (front_messages_spec inputs p) as Hf. rewrite E in Hf. destruct Hf as (Hl&Hne&_).
  assert (missing `sublist_of` inputs) as Hsub.
  { rewrite <- Hl. apply fmap_sublist. clear. induction l as [|x l IH]; [done|]. simpl. destruct (f x); by constructor. }
  destruct (consume_front_spec missing p) as (p'&->&Ht&_).
  - eapply sublist_NoDup; [exact Hdistinct|done].
  - rewrite Forall_forall in *. intros i Hi. apply Hne. by eapply elem_of_sublist.
  - by exists p'.
Qed.
Lemma timestamped_conserved fuel p s : inputs ≠ [] → pending_total p < fuel →
  ∃ invs p' s', collect_timestamped context c lane fuel p s = Some (Some (invs, p', s')) ∧ conserved p s invs p' s'.
Proof.
  intros Hne. revert p s. induction fuel as [|fuel IH]; intros p s Hf; [lia|]. cbn [collect_timestamped]. fold inputs. cbv zeta.
  destruct (front_messages_for_inputs inputs p) as [l|] eqn:E.
  2: { eexists _, _, _. split; [done|]. unfold conserved, delivered_total, drop_total. simpl. lia. }
  destruct (missing_consume p l E (fun item : PortMessage => negb (has_value (msg_event_timestamp item.2)))) as (p1&Hm&Ht).
  destruct (fst <$> List.filter _ l) as [|i missing] eqn:Em.
  - destruct (front_consume p l E) as (p'&->&Ht'). eexists _, _, _. split; [done|]. unfold conserved. rewrite delivered_one. lia.
  - rewrite Hm. destruct (IH p1 (s <| pending_drop_count ::= fun n => n + length (i :: missing) |>)) as (invs&p'&s'&->&Hc).
    { simpl in Ht. lia. }
    eexists _, _, _. split; [done|]. unfold conserved, drop_total in *. simpl in *. lia.
Qed.

Lemma condition_conserved fuel p s : pending_total p < fuel →
  ∃ invs p' s', collect_condition context c lane fuel p s = Some (Some (invs, p', s')) ∧ conserved p s invs p' s'.
Proof.
  intros Hf. unfold collect_condition. cbv zeta. fold inputs.
  assert (∀ invs p', conserved p s invs p' s → conserved p s invs p' (note_suppressed invs s)) as Hn.
  { intros invs p'. unfold note_suppressed, conserved, drop_total. by destruct invs. }
  assert (conserved p s [] p (s <| condition_suppressed_count ::= S |>)) as Hnone.
  { unfold conserved, delivered_total, drop_total. simpl. lia. }
  set (condition := if str_empty _ then _ else _).
  destruct (str_eqb condition "any_input_ready").
  { pose proof (any_input_conserved p s) as H. destruct (collect_any_input context c lane p) as [invs p'].
    eexists _, _, _. split; [done|]. by apply Hn. }
  destruct (str_eqb condition "all_inputs_ready").
  { destruct (all_inputs_conserved p s) as (invs&p'&->&Hc). eexists _, _, _. split; [done|]. by apply Hn. }
  destruct (str_eqb condition "event_timestamp_present"); [|by eexists _, _, _].
  destruct (decide (inputs = [])) as [E|E]; [rewrite E; by eexists _, _, _|]. rewrite match_nonempty by done.
  by apply timestamped_conserved.
Qed.

Lemma watermark_fold_count q acc : let '(marks', late', kept') := fold_left (watermark_step c) q acc in
  late' + length kept' = acc.1.2 + length acc.2 + length q.
Proof.
  revert acc. induction q as [|m q IH]; intros [[marks late] kept]; cbn [fold_left]; [simpl; lia|].
  specialize (IH (watermark_step c (marks, late, kept) m)).
  destruct (fold_left (watermark_step c) q (watermark_step c (marks, late, kept) m)) as [[marks' late'] kept'].
  rewrite IH. unfold watermark_step. repeat case_match; simpl; rewrite ?length_app; simpl; lia.
Qed.
Lemma watermark_ports_conserved ports p marks late : NoDup ports.*1 →
  Forall (fun kv : string * list RuntimeChannelMessage => map_at [] p kv.1 = kv.2) ports →
  let '(p', _, late') := watermark_ports c ports p marks late in pending_total p' + late' = pending_total p + late.
Proof.
  revert p marks late. induction ports as [|[port q] ports IH]; intros p marks late Hn Hf; cbn [watermark_ports]; [done|].
  apply NoDup_cons in Hn as [Hp Hn]. apply Forall_cons in Hf as [Hq Hf]. simpl in Hq.
  pose proof (watermark_fold_count q (marks, late, [])) as Hc.
  destruct (fold_left (watermark_step c) q (marks, late, [])) as [[marks' late'] kept]. simpl in Hc.
  specialize (IH (<[port:=kept]> p) marks' late' Hn).
  destruct (watermark_ports c ports (<[port:=kept]> p) marks' late') as [[p2 marks2] late2]. rewrite IH.
  - pose proof (pending_total_insert p port kept) as Ht. rewrite Hq in Ht. lia.
  - rewrite Forall_forall in *. intros [k' q'] Hkv. simpl. rewrite map_at_insert_ne; [by apply (Hf (k', q'))|].
    intros <-. apply Hp. apply list_elem_of_fmap. by exists (port, q').
Qed.
Lemma watermark_conserved p marks s :
  let '(invs, p', _, s') := collect_watermark context c lane p marks s in conserved p s invs p' s'.
Proof.
  unfold collect_watermark. pose proof (watermark_ports_conserved (map_items p) p marks 0 (NoDup_map_keys p) (map_items_at p)) as Hw.
  destruct (watermark_ports c (map_items p) p marks 0) as [[p1 marks1] late].
  pose proof (any_input_conserved p1 s) as Ha. destruct (collect_any_input context c lane p1) as [invs p2].
  unfold conserved, drop_total in *. simpl. lia.
Qed.

Lemma take_batch_conserved ins p acc target :
  let '(l, p') := take_batch ins p acc target in pending_total p' + length l = pending_total p + length acc.
Proof.
  revert p acc. induction ins as [|i ins IH]; intros p acc; cbn [take_batch]; [done|]. cbv zeta.
  specialize (IH (<[i:=drop (target - length acc) (map_at [] p i)]> p) (acc ++ (pair i <$> take (target - length acc) (map_at [] p i)))).
  destruct (take_batch _ _ _ _) as [l p']. rewrite IH, length_app, length_fmap.
  pose proof (pending_total_insert p i (drop (target - length acc) (map_at [] p i))) as Ht.
  rewrite length_drop in Ht. rewrite length_take. lia.
Qed.
Lemma batch_conserved p s : let '(invs, p', s') := collect_batch context c lane p s in conserved p s invs p' s'.
Proof.
  unfold collect_batch. cbv zeta. destruct (batch_target context c p =? 0); [unfold conserved, delivered_total; simpl; lia|].
  pose proof (take_batch_conserved (trigger_policy_inputs_for c) p [] (batch_target context c p)) as Ht.
  destruct (take_batch _ _ _ _) as [[|x l] p']; simpl in Ht.
  - unfold conserved, delivered_total. simpl. lia.
  - unfold conserved. rewrite delivered_one. unfold drop_total. simpl. lia.
Qed.

(** A policy round always returns, and conserves what was pending. *)
Lemma collect_policy_conserved fuel p s marks : pending_total p < fuel →
  (str_eqb (trigger_type (trigger_policy c)) "debounce" || coalesce (trigger_policy c) = true →
   ∀ k q, p !! k = Some q → length q <= 1) →
  ∃ r, collect_policy fuel context c lane p s marks = Some r ∧ conserved p s (co_invocations r) (co_pending r) (co_stats r).
Proof.
  intros Hf Hone. unfold collect_policy. cbv zeta.
  destruct (str_eqb _ "all_inputs"); [destruct (all_inputs_conserved p s) as (invs&p'&->&?); by eexists|].
  destruct (str_eqb _ "time_sync"); [destruct (time_sync_conserved fuel p s Hf) as (invs&p'&s'&->&?); by eexists|].
  destruct (str_eqb _ "batch").
  { pose proof (batch_conserved p s) as H. destruct (collect_batch context c lane p s) as [[invs p'] s']. by eexists. }
  destruct (str_eqb _ "watermark").
  { pose proof (watermark_conserved p marks s) as H. destruct (collect_watermark context c lane p marks s) as [[[invs p'] mk] s'].
    by eexists. }
  destruct (str_eqb _ "condition"); [destruct (condition_conserved fuel p s Hf) as (invs&p'&s'&->&?); by eexists|].
  destruct (str_eqb _ "debounce" || _).
  - pose proof (coalesced_conserved p s (Hone eq_refl)) as H. destruct (collect_coalesced_any_input context c lane p). by eexists.
  - pose proof (any_input_conserved p s) as H. destruct (collect_any_input context c lane p). by eexists.
Qed.
End policies.

(** ** Filling and trimming *)
Lemma drain_inputs_moves bus clock id inputs p : bus_wf bus →
  ∃ bus' ev p', drain_inputs bus clock id inputs p = Some (bus', ev, p') ∧ bus_moves bus bus'.
Proof.
  revert bus clock p. induction inputs as [|i inputs IH]; intros bus clock p W; cbn [drain_inputs].
  { exists bus, [], p. split; [done|apply bus_moves_refl]. }
  destruct (run_bus_op_moves bus (BDrainPort (clock 0) id i 0) W) as (b1&Hb1&M1). simpl in Hb1.
  destruct (drain_for_component_port bus (clock 0) id i 0) as [[[b1' ev1] l1]|]; [|done]. simpl in Hb1. injection Hb1 as ->.
  destruct (IH b1 (fun i => clock (S i)) (<[i := map_at [] p i ++ l1]> p) (bus_wf_moves _ _ M1 W)) as (b2&ev2&p2&->&M2).
  eexists _, _, _. split; [done|]. by eapply bus_moves_trans.
Qed.

Lemma count_filter_split (f : RuntimeChannelMessage -> bool) q :
  length (List.filter (fun m => negb (f m)) q) + count_if f q = length q.
Proof. induction q as [|m q IH]; [done|]. rewrite count_if_cons. simpl. destruct (f m); simpl; lia. Qed.
Lemma prune_conserved policy p now : let '(p', n) := prune_timed_out_messages policy p now in
  pending_total p' + n = pending_total p.
Proof.
  unfold prune_timed_out_messages. destruct (max_latency_ms policy <=? 0)%Z; [lia|].
  rewrite (pending_total_fmap (List.filter (fun m => negb (timed_out policy now m)))), pending_total_items.
  induction (map_items p) as [|[k q] l IH]; [done|]. simpl. pose proof (count_filter_split (timed_out policy now) q). lia.
Qed.

Lemma trim_front_spec limit q : let '(q', n) := trim_front limit q in
  length q' + n = length q ∧ length q' <= limit ∧ q' `suffix_of` q.
Proof.
  induction q as [|m q IH]; cbn [trim_front]; [split; [done|]; split; [simpl; lia|done]|].
  destruct (Nat.ltb_spec limit (length (m :: q))).
  - destruct (trim_front limit q) as [q' n]. destruct IH as (H1&H2&H3). simpl. split; [lia|]. split; [done|].
    by apply suffix_cons_r.
  - split; [lia|]. split; [done|done].
Qed.

Definition limits_ok (bus : option RuntimeChannelBus) : Prop := ∀ b, bus = Some b → bus_wf b.
Lemma pending_limit_total bus c port : limits_ok bus → ∃ n, pending_limit bus c port = Some n.
Proof.
  intros W. unfold pending_limit. destruct bus as [b|]; [|by eexists].
  unfold configured_capacity_for_component_port. destruct (channel_ids_spec b (comp_id c) port (W b eq_refl)) as (ids&->&Hall).
  assert (∃ l, mapM (fun id => channels b !! id) ids = Some l) as [l Hl]; [|rewrite Hl; by eexists].
  induction Hall as [|id ids [s Hs] Hall [l Hl]]; [by exists []|]. exists (s :: l). simpl. by rewrite Hs, Hl.
Qed.

(** Every queue is within the limit of its port. *)
Definition within_limits (bus : option RuntimeChannelBus) (c : ComponentNodeSpec) (p : PendingMessages) : Prop :=
  ∀ k q n, p !! k = Some q → pending_limit bus c k = Some n → length q <= n.
Lemma enforce_ports_spec bus c ports p n : limits_ok bus → NoDup ports.*1 →
  Forall (fun kv : string * list RuntimeChannelMessage => map_at [] p kv.1 = kv.2) ports →
  (∀ k q n, p !! k = Some q → k ∉ ports.*1 → pending_limit bus c k = Some n → length q <= n) →
  ∃ p' n', enforce_ports bus c ports p n = Some (p', n') ∧ pending_total p' + n' = pending_total p + n ∧
    within_limits bus c p'.
Proof.
  intros W. revert p n. induction ports as [|[port q] ports IH]; intros p n Hn Hf Hd; cbn [enforce_ports].
  { exists p, n. split; [done|]. split; [done|]. intros k q m Hk. apply Hd; [done|apply not_elem_of_nil]. }
  apply NoDup_cons in Hn as [Hp Hn]. apply Forall_cons in Hf as [Hq Hf]. simpl in Hq.
  destruct (pending_limit_total bus c port W) as [m Hm]. rewrite Hm.
  pose proof (trim_front_spec m q) as Ht. destruct (trim_front m q) as [q' d]. destruct Ht as (H1&H2&_).
  destruct (IH (<[port:=q']> p) (n + d) Hn) as (p'&n'&->&Hc&Hw).
  - rewrite Forall_forall in *. intros [k' x] Hkv. simpl. rewrite map_at_insert_ne; [by apply (Hf (k', x))|].
    intros <-. apply Hp. apply list_elem_of_fmap. by exists (port, x).
  - intros k x m' Hk Hnin Hm'. apply lookup_insert_Some in Hk as [[<- <-]|[Hne Hk]]; [by simplify_eq|].
    eapply Hd; [done| |done]. simpl. by intros [?|?]%elem_of_cons.
  - eexists _, _. split; [done|]. split; [|done]. pose proof (pending_total_insert p port q') as Hi. rewrite Hq in Hi. lia.
Qed.
Lemma enforce_spec bus c p : limits_ok bus → ∃ p' n, enforce_pending_bounds bus c p = Some (p', n) ∧
  pending_total p' + n = pending_total p ∧ within_limits bus c p'.
Proof.
  intros W. destruct (enforce_ports_spec bus c (map_items p) p 0 W (NoDup_map_keys p) (map_items_at p)) as (p'&n&E&Ht&Hw).
  - intros k q n Hk Hnin. exfalso. apply Hnin. apply (elem_of_map_keys p). by eexists.
  - exists p', n. split; [done|]. split; [lia|done].
Qed.
Lemma within_one bus c p : within_limits bus c p → limits_ok bus →
  str_eqb (trigger_type (trigger_policy c)) "debounce" || coalesce (trigger_policy c) = true →
  ∀ k q, p !! k = Some q → length q <= 1.
Proof.
  intros Hw W Hc k q Hk. destruct (pending_limit_total bus c k W) as [n Hn]. rewrite (Hw k q n Hk Hn).
  unfold pending_limit in Hn. rewrite Hc in Hn. case_match; by simplify_eq.
Qed.

(** ** Properties *)
Definition message_driven (c : ComponentNodeSpec) : Prop :=
  has_timer_event_source c = false ∧ has_message_event_source c = true.
Definition pending_of (e : TriggerPolicyEngine) (c : ComponentNodeSpec) : PendingMessages := map_at ∅ (te_pending e) (comp_id c).
Definition stats_of (e : TriggerPolicyEngine) (c : ComponentNodeSpec) : TriggerRuntimeMetrics :=
  map_at empty_trigger_metrics (te_last_stats e) (comp_id c).
(** What the bus hands over when it is drained for one input after the other, and the bus that is left. *)
Fixpoint bus_drains (bus : RuntimeChannelBus) (clock : nat -> nat -> Z) (component_id : string) (inputs : list string)
    : option (RuntimeChannelBus * list (list RuntimeChannelMessage)) :=
  match inputs with
  | [] => Some (bus, [])
  | input :: rest =>
      '(bus, _, drained) ← drain_for_component_port bus (clock 0) component_id input 0;
      '(bus, others) ← bus_drains bus (fun i => clock (S i)) component_id rest;
      Some (bus, drained :: others)
  end.
Definition handed_over (drained : list (list RuntimeChannelMessage)) : nat := sum_list_with length drained.
(** Everything that the bus hands over is added to what was pending. *)
Lemma drain_inputs_fills bus clock id inputs p : bus_wf bus →
  ∃ bus' ev p' drained, drain_inputs bus clock id inputs p = Some (bus', ev, p') ∧ bus_drains bus clock id inputs = Some (bus', drained) ∧
    bus_moves bus bus' ∧ pending_total p' = pending_total p + handed_over drained.
Proof.
  revert bus clock p. induction inputs as [|i inputs IH]; intros bus clock p W; cbn [drain_inputs bus_drains].
  { exists bus, [], p, []. split_and!; [done|done|apply bus_moves_refl|unfold handed_over; simpl; lia]. }
  destruct (run_bus_op_moves bus (BDrainPort (clock 0) id i 0) W) as (b1&Hb1&M1). simpl in Hb1.
  destruct (drain_for_component_port bus (clock 0) id i 0) as [[[b1' ev1] l1]|]; [|done]. simpl in Hb1. injection Hb1 as ->. simpl.
  destruct (IH b1 (fun i => clock (S i)) (<[i := map_at [] p i ++ l1]> p) (bus_wf_moves _ _ M1 W)) as (b2&ev2&p2&drained&->&->&M2&Ht).
  eexists _, _, _, _. split_and!; [done|done|by eapply bus_moves_trans|]. rewrite Ht. unfold handed_over. simpl.
  pose proof (pending_total_insert p i (map_at [] p i ++ l1)) as Hi. rewrite length_app in Hi. lia.
Qed.

Lemma collect_ready_spec e bus clock context c lane : message_driven c → NoDup (trigger_policy_inputs_for c) → bus_wf bus →
  ∃ e' bus' ev invs drained, collect_ready_invocations e (Some bus) clock context c lane = Some (e', Some bus', ev, invs) ∧
    bus_moves bus bus' ∧ bus_drains bus clock (comp_id c) (trigger_policy_inputs_for c) = Some (bus', drained) ∧
    delivered_total invs + pending_total (pending_of e' c) + drop_total (stats_of e' c) =
      pending_total (pending_of e c) + handed_over drained ∧
    (if rate_limited e c (tick_started_at context) then invs = [] ∧ te_last_invoked e' = te_last_invoked e
     else te_last_invoked e' = match invs with [] => te_last_invoked e
                               | _ => <[comp_id c := tick_started_at context]> (te_last_invoked e) end).
Proof.
  intros [Ht Hm] Hn W. unfold collect_ready_invocations. rewrite Ht, Hm. cbn [negb]. cbv zeta. fold (pending_of e c).
  destruct (drain_inputs_fills bus clock (comp_id c) (trigger_policy_inputs_for c) (pending_of e c) W) as (b1&ev1&p1&drained&->&Hd&M1&Hfill).
  cbn [option_map fst snd].
  pose proof (prune_conserved (trigger_policy c) p1 (tick_started_at context)) as Hp.
  destruct (prune_timed_out_messages (trigger_policy c) p1 (tick_started_at context)) as [p2 n2].
  assert (limits_ok (Some b1)) as Wl by (intros b [= <-]; by eapply bus_wf_moves).
  destruct (enforce_spec (Some b1) c p2 Wl) as (p3&n3&->&Hp3&Hw).
  set (st := empty_trigger_metrics <| timeout_drop_count := n2 |> <| pending_drop_count := n3 |>).
  destruct (rate_limited e c (tick_started_at context)).
  - eexists _, _, _, _, drained. split; [done|]. split; [done|]. split; [exact Hd|]. split; [|done]. rewrite <- Hfill.
    unfold pending_of, stats_of, map_at. simpl. rewrite !lookup_insert_eq. unfold delivered_total, drop_total. simpl. lia.
  - destruct (collect_policy_conserved context c lane Hn (S (pending_total p3)) p3 st
      (map_at no_marks (te_watermarks e) (comp_id c)) ltac:(lia) (within_one _ c p3 Hw Wl)) as (r&->&Hc).
    eexists _, _, _, _, drained. split; [done|]. split; [done|]. split; [exact Hd|]. rewrite <- Hfill.
    assert (∀ X : TriggerPolicyEngine, te_pending X = <[comp_id c := co_pending r]> (te_pending e) →
      te_last_stats X = <[comp_id c := co_stats r]> (te_last_stats e) →
      delivered_total (co_invocations r) + pending_total (pending_of X c) + drop_total (stats_of X c) = pending_total p1) as HX.
    { intros X H1 H2. unfold pending_of, stats_of, map_at. rewrite H1, H2, !lookup_insert_eq. simpl.
      unfold conserved, st, drop_total in *. simpl in *. lia. }
    split; [apply HX; destruct (str_eqb _ "watermark"), (co_invocations r); done|].
    destruct (str_eqb _ "watermark"), (co_invocations r); done.
Qed.

(** With a minimum interval no policy fires more than once per collection. *)
Section single.
Context (context : TickContext) (c : ComponentNodeSpec) (lane : SchedulerGroupConfig).
Context (Hsingle : (0 < min_interval_ms (trigger_policy c))%Z).
Lemma any_ports_single ports p : length (collect_any_ports context c lane ports p).1 <= 1.
Proof.
  revert p. induction ports as [|[port q] ports IH]; intros p; cbn [collect_any_ports]; [simpl; lia|].
  rewrite (proj2 (Z.ltb_lt _ _)) by done. destruct q; [apply IH|simpl; lia].
Qed.
Lemma all_inputs_single p invs p' : collect_all_inputs context c lane p = Some (invs, p') → length invs <= 1.
Proof. unfold collect_all_inputs. intros. repeat case_match; simplify_eq/=; lia. Qed.
Lemma time_sync_single fuel p s invs p' s' : collect_time_sync context c lane fuel p s = Some (Some (invs, p', s')) → length invs <= 1.
Proof.
  revert p s. induction fuel as [|fuel IH]; intros p s H; cbn [collect_time_sync] in H; [done|].
  repeat case_match; simplify_eq/=; try lia. by eapply IH.
Qed.
Lemma timestamped_single fuel p s invs p' s' : collect_timestamped context c lane fuel p s = Some (Some (invs, p', s')) → length invs <= 1.
Proof.
  revert p s. induction fuel as [|fuel IH]; intros p s H; cbn [collect_timestamped] in H; [done|].
  repeat case_match; simplify_eq/=; try lia. by eapply IH.
Qed.
Lemma collect_policy_single fuel p s marks r : collect_policy fuel context c lane p s marks = Some r → length (co_invocations r) <= 1.
Proof.
  unfold collect_policy. cbv zeta. intros H.
  destruct (str_eqb _ "all_inputs").
  { destruct (collect_all_inputs context c lane p) as [[invs p']|] eqn:E; simplify_eq/=. by eapply all_inputs_single. }
  destruct (str_eqb _ "time_sync").
  { destruct (collect_time_sync context c lane fuel p s) as [[[[invs p'] s']|]|] eqn:E; simplify_eq/=. by eapply time_sync_single. }
  destruct (str_eqb _ "batch").
  { unfold collect_batch in H. repeat case_match; simplify_eq/=; lia. }
  destruct (str_eqb _ "watermark").
  { unfold collect_watermark, collect_any_input in H. destruct (watermark_ports _ _ _ _ _) as [[p1 m1] l1].
    pose proof (any_ports_single (map_items p1) p1). destruct (collect_any_ports _ _ _ _ _). by simplify_eq/=. }
  destruct (str_eqb _ "condition").
  { unfold collect_condition, collect_any_input in H. cbv zeta in H. set (cond := if str_empty _ then _ else _) in H.
    destruct (str_eqb cond "any_input_ready").
    { pose proof (any_ports_single (map_items p) p). destruct (collect_any_ports _ _ _ _ _). by simplify_eq/=. }
    destruct (str_eqb cond "all_inputs_ready").
    { destruct (collect_all_inputs context c lane p) as [[invs p']|] eqn:E; simplify_eq/=. by eapply all_inputs_single. }
    destruct (str_eqb cond "event_timestamp_present"); [|simplify_eq/=; lia].
    destruct (trigger_policy_inputs_for c); [simplify_eq/=; lia|].
    destruct (collect_timestamped context c lane fuel p s) as [[[[invs p'] s']|]|] eqn:E; simplify_eq/=. by eapply timestamped_single. }
  destruct (_ || _).
  - unfold collect_coalesced_any_input in H. repeat case_match; simplify_eq/=; lia.
  - unfold collect_any_input in H. pose proof (any_ports_single (map_items p) p).
    destruct (collect_any_ports _ _ _ _ _). by simplify_eq/=.
Qed.
Lemma collect_ready_single e bus clock e' bus' ev invs : message_driven c →
  collect_ready_invocations e bus clock context c lane = Some (e', bus', ev, invs) → length invs <= 1.
Proof.
  intros [Ht Hm]. unfold collect_ready_invocations. rewrite Ht, Hm. cbn [negb]. cbv zeta. intros H.
  destruct (match bus with None => _ | Some _ => _ end) as [[[b1 ev1] p1]|]; [|done].
  destruct (prune_timed_out_messages _ _ _) as [p2 n2]. destruct (enforce_pending_bounds _ _ _) as [[p3 n3]|]; [|done].
  destruct (rate_limited _ _ _); [simplify_eq/=; lia|].
  destruct (collect_policy _ _ _ _ _ _ _) as [r|] eqn:E; [|done]. simplify_eq. by eapply collect_policy_single.
Qed.
End single.

(** C34. No message is lost inside the trigger engine: for a message-driven component whose inputs are distinct, on a
    well-formed bus, a collection returns (its [time_sync] and condition loops terminate and never pop an empty
    queue), it leaves the bus as drained for those inputs one after the other, and every message that was pending or that
    the bus handed over is delivered in an invocation, still pending, or counted in one of the drop counters of the
    collection. *)
Theorem trigger_collection_conserves e bus clock context c lane :
  message_driven c → NoDup (trigger_policy_inputs_for c) → bus_wf bus →
  ∃ e' bus' ev invs drained, collect_ready_invocations e (Some bus) clock context c lane = Some (e', Some bus', ev, invs) ∧
    bus_drains bus clock (comp_id c) (trigger_policy_inputs_for c) = Some (bus', drained) ∧
    delivered_total invs + pending_total (pending_of e' c) + drop_total (stats_of e' c) =
    pending_total (pending_of e c) + handed_over drained.
Proof.
  intros Hm Hn W. destruct (collect_ready_spec e bus clock context c lane Hm Hn W) as (e'&bus'&ev&invs&drained&E&_&Hd&H&_).
  by exists e', bus', ev, invs, drained.
Qed.

(** The minimum interval is respected: a message-driven component with a positive [min_interval_ms] is invoked at
    most once per collection, an invocation comes at least the interval after the previous recorded one, and it is
    recorded at the time of the collection that produced it. *)
Theorem trigger_rate_limit e bus clock context c lane e' bus' ev invs :
  message_driven c → NoDup (trigger_policy_inputs_for c) → bus_wf bus → (0 < min_interval_ms (trigger_policy c))%Z →
  collect_ready_invocations e (Some bus) clock context c lane = Some (e', bus', ev, invs) →
  length invs <= 1 ∧
  (invs ≠ [] → te_last_invoked e' !! comp_id c = Some (tick_started_at context) ∧
     ∀ t, te_last_invoked e !! comp_id c = Some t →
       (ms (min_interval_ms (trigger_policy c)) <= tick_started_at context - t)%Z).
Proof.
  intros Hm Hn W Hi E. split; [by eapply collect_ready_single|]. intros Hne.
  destruct (collect_ready_spec e bus clock context c lane Hm Hn W) as (e2&bus2&ev2&invs2&drained&E2&_&_&_&Hr).
  rewrite E in E2. simplify_eq. destruct (rate_limited e c (tick_started_at context)) eqn:Er; [by destruct Hr|].
  destruct invs2 as [|i invs2]; [done|]. split; [rewrite Hr; apply lookup_insert_eq|]. intros t Ht.
  unfold rate_limited in Er. rewrite (proj2 (Z.leb_gt _ _)), Ht in Er by lia. lia.
Qed.

(** The [all_inputs] policy fires exactly when every input has a pending message; it then delivers the oldest
    message of each input, in input order, and removes exactly those. *)
Theorem all_inputs_fires_exactly context c lane p : NoDup (trigger_policy_inputs_for c) →
  let inputs := trigger_policy_inputs_for c in
  ∃ invs p', collect_all_inputs context c lane p = Some (invs, p') ∧
    if decide (Forall (fun i => map_at [] p i ≠ []) inputs)
    then (∃ inv, invs = [inv] ∧ ready_inputs inv = inputs ∧
            batch_payloads inv = (fun i => from_option msg_payload None (head (map_at [] p i))) <$> inputs) ∧
         ∀ k, map_at [] p' k = if decide (k ∈ inputs) then tail (map_at [] p k) else map_at [] p k
    else invs = [] ∧ p' = p.
Proof.
  intros Hn inputs. unfold collect_all_inputs. fold inputs. pose proof (front_messages_spec inputs p) as Hf.
  destruct (front_messages_for_inputs inputs p) as [l|].
  - destruct Hf as (Hl&Hne&Hh). destruct (consume_front_spec inputs p Hn Hne) as (p'&->&_&Hk).
    eexists _, p'. split; [done|]. rewrite decide_True by done. split; [|done]. eexists. split; [done|].
    destruct (invocation_batch kMessage (trigger_kind_for_policy (trigger_policy c) kMessage) context c lane l) as [-> ->].
    split; [done|]. rewrite <- Hl, <- list_fmap_compose. apply list_fmap_ext. intros i x Hx.
    rewrite Forall_forall in Hh. simpl. rewrite (Hh x); [done|]. by eapply list_elem_of_lookup_2.
  - exists [], p. split; [done|]. destruct Hf as (i&Hi&Hq). rewrite decide_False; [done|]. intros H.
    rewrite Forall_forall in H. by apply (H i).
Qed.

(** The [time_sync] policy terminates and fires only on synchronised messages: with the fuel the engine gives it
    the loop ends; what it fires on are the oldest messages of every input left after the counted drops, and with a
    positive slop either their timestamps are not comparable or they all lie within the slop of each other. *)
Theorem time_sync_fires_in_slop context c lane p s : NoDup (trigger_policy_inputs_for c) →
  ∃ invs p' s', collect_time_sync context c lane (S (pending_total p)) p s = Some (Some (invs, p', s')) ∧
    (invs = [] ∨ ∃ q l, front_messages_for_inputs (trigger_policy_inputs_for c) q = Some l ∧
       consume_front_messages (trigger_policy_inputs_for c) q = Some p' ∧
       invs = [invocation_from_messages kMessage tkTimeSync context c lane l] ∧
       pending_total q + (time_sync_drop_count s' - time_sync_drop_count s) = pending_total p ∧
       ((0 < timestamp_slop_ns (trigger_policy c))%Z → messages_have_comparable_timestamps l = true →
        ∀ x y, x ∈ l → y ∈ l → (event_timestamp_ns x.2 - event_timestamp_ns y.2 <= timestamp_slop_ns (trigger_policy c))%Z)).
Proof.
  intros Hn. destruct (time_sync_conserved context c lane Hn (S (pending_total p)) p s ltac:(lia)) as (invs&p'&s'&E&_).
  exists invs, p', s'. split; [done|].
  assert (∀ fuel p s, collect_time_sync context c lane fuel p s = Some (Some (invs, p', s')) →
    time_sync_drop_count s <= time_sync_drop_count s' ∧ (invs = [] ∨ ∃ q l,
    front_messages_for_inputs (trigger_policy_inputs_for c) q = Some l ∧
    consume_front_messages (trigger_policy_inputs_for c) q = Some p' ∧
    invs = [invocation_from_messages kMessage tkTimeSync context c lane l] ∧
    pending_total q + (time_sync_drop_count s' - time_sync_drop_count s) = pending_total p ∧
    ((0 < timestamp_slop_ns (trigger_policy c))%Z → messages_have_comparable_timestamps l = true →
     ∀ x y, x ∈ l → y ∈ l → (event_timestamp_ns x.2 - event_timestamp_ns y.2 <= timestamp_slop_ns (trigger_policy c))%Z))) as H;
    [|by eapply H].
  clear E p s. induction fuel as [|fuel IH]; intros p s E; cbn [collect_time_sync] in E; [done|]. cbv zeta in E.
  pose proof (sync_round_spec c p) as Hr. destruct (sync_round c _ p) as [|l|port].
  - simplify_eq. split; [done|by left].
  - destruct Hr as [Hl Hs]. destruct (consume_front_messages _ p) as [p1|] eqn:Ec; [|done]. simplify_eq. split; [done|].
    right. exists p, l. rewrite Nat.sub_diag, Nat.add_0_r. repeat split; try done. intros Hp Hc. destruct Hs as [?|[?|?]]; [lia|congruence|done].
  - pose proof (pop_front_spec p port) as Hp. destruct (pop_front p port) as [p1|]; [|done]. destruct Hp as [Ht _].
    apply IH in E as [Hle [->|(q&l&H1&H2&H3&H4&H5)]]; simpl in *; (split; [lia|]); [by left|right].
    exists q, l. repeat split; try done. lia.
Qed.

(** ** Watermarks *)
Definition marks_le (m m' : TimestampDomain -> option Z) : Prop := ∀ d t, m d = Some t → ∃ t', m' d = Some t' ∧ (t <= t')%Z.
(** [x] is not later than [lateness] behind the marks it met, and the marks it left cover it. *)
Definition on_time (lateness : Z) (m m' : TimestampDomain -> option Z) (x : RuntimeChannelMessage) : Prop :=
  ∀ ts, msg_event_timestamp x = Some ts →
    (∀ t, m (ts_domain ts) = Some t → (t - lateness <= ts_nanoseconds ts)%Z) ∧
    ∃ t', m' (ts_domain ts) = Some t' ∧ (ts_nanoseconds ts <= t')%Z.
Lemma marks_le_refl m : marks_le m m.
Proof. intros d t H. exists t. split; [done|lia]. Qed.
Lemma marks_le_trans m1 m2 m3 : marks_le m1 m2 → marks_le m2 m3 → marks_le m1 m3.
Proof. intros H1 H2 d t Ht. destruct (H1 d t Ht) as (t1&E1&?). destruct (H2 d t1 E1) as (t2&E2&?). exists t2. split; [done|lia]. Qed.
Lemma on_time_weaken l m0 m m' m'' x : marks_le m0 m → marks_le m' m'' → on_time l m m' x → on_time l m0 m'' x.
Proof.
  intros H0 H1 H ts Hts. destruct (H ts Hts) as [Ha (t'&Hb&?)]. split.
  - intros t Ht. destruct (H0 _ _ Ht) as (t1&E1&?). specialize (Ha _ E1). lia.
  - destruct (H1 _ _ Hb) as (t2&E2&?). exists t2. split; [done|lia].
Qed.

Section watermark.
Context (c : ComponentNodeSpec).
Let lateness := watermark_lateness_ns (trigger_policy c).
Lemma watermark_step_spec marks late kept m : let '(marks', late', kept') := watermark_step c (marks, late, kept) m in
  marks_le marks marks' ∧ ∀ x, x ∈ kept' → x ∈ kept ∨ x = m ∧ on_time lateness marks marks' m.
Proof.
  unfold watermark_step. destruct (msg_event_timestamp m) as [ts|] eqn:E.
  2: { split; [apply marks_le_refl|]. intros x [?|?%list_elem_of_singleton]%elem_of_app; [by left|right]. split; [done|].
       intros ts. by rewrite E. }
  assert (∀ t0, (∀ t, marks (ts_domain ts) = Some t → (t <= t0)%Z) →
    marks_le marks (fun d => if bool_decide (d = ts_domain ts) then Some t0 else marks d)) as Hset.
  { intros t0 H0 d t Ht. case_bool_decide; [subst; exists t0; auto|exists t; split; [done|lia]]. }
  destruct (marks (ts_domain ts)) as [mark|] eqn:Em.
  - fold lateness. destruct (Z.ltb_spec (ts_nanoseconds ts) (mark - lateness)); [split; [apply marks_le_refl|by left]|].
    destruct (Z.ltb_spec mark (ts_nanoseconds ts)).
    + split; [apply Hset; intros; simplify_eq; lia|]. intros x [?|?%list_elem_of_singleton]%elem_of_app; [by left|right].
      split; [done|]. intros ts' Hts. simplify_eq. split; [intros; simplify_eq; lia|]. exists (ts_nanoseconds ts).
      rewrite bool_decide_eq_true_2 by done. split; [done|lia].
    + split; [apply marks_le_refl|]. intros x [?|?%list_elem_of_singleton]%elem_of_app; [by left|right]. split; [done|].
      intros ts' Hts. simplify_eq. split; [intros; simplify_eq; lia|]. exists mark. split; [done|lia].
  - split; [apply Hset; intros; simplify_eq|]. intros x [?|?%list_elem_of_singleton]%elem_of_app; [by left|right].
    split; [done|]. intros ts' Hts. simplify_eq. split; [intros; simplify_eq|]. exists (ts_nanoseconds ts).
    rewrite bool_decide_eq_true_2 by done. split; [done|lia].
Qed.
Lemma watermark_fold_spec q marks late kept : let '(marks', late', kept') := fold_left (watermark_step c) q (marks, late, kept) in
  marks_le marks marks' ∧ ∀ x, x ∈ kept' → x ∈ kept ∨ on_time lateness marks marks' x.
Proof.
  revert marks late kept. induction q as [|m q IH]; intros marks late kept; cbn [fold_left].
  { split; [apply marks_le_refl|by left]. }
  pose proof (watermark_step_spec marks late kept m) as Hs. destruct (watermark_step c (marks, late, kept) m) as [[m1 l1] k1].
  specialize (IH m1 l1 k1). destruct (fold_left (watermark_step c) q (m1, l1, k1)) as [[m2 l2] k2].
  destruct Hs as [H1 H2], IH as [H3 H4]. split; [by eapply marks_le_trans|]. intros x [Hx|Hx]%H4.
  - destruct (H2 x Hx) as [?|[-> Ho]]; [by left|right]. eapply on_time_weaken; [apply marks_le_refl|exact H3|exact Ho].
  - right. eapply on_time_weaken; [exact H1|apply marks_le_refl|exact Hx].
Qed.

(** Watermarks only advance, and only messages on time pass: whatever is pending, after the watermark pass every
    domain's mark is at least what it was, and each message the pass keeps that carries a timestamp is no further than
    the configured lateness behind the mark its domain started with and is covered by the mark it ends with. *)
Theorem watermark_admits_on_time p marks :
  let '(p', marks', _) := watermark_ports c (map_items p) p marks 0 in
  marks_le marks marks' ∧ ∀ k q x, p' !! k = Some q → x ∈ q → on_time lateness marks marks' x.
Proof.
  assert (∀ ports p marks0 marks late, marks_le marks0 marks →
    (∀ k q x, p !! k = Some q → k ∉ ports.*1 → x ∈ q → on_time lateness marks0 marks x) →
    let '(p', marks', _) := watermark_ports c ports p marks late in
    marks_le marks0 marks' ∧ ∀ k q x, p' !! k = Some q → x ∈ q → on_time lateness marks0 marks' x) as H.
  { induction ports as [|[port q] ports IH]; intros p0 marks0 marks1 late Hle Hdone; cbn [watermark_ports].
    { split; [done|]. intros k q x Hk Hx. eapply Hdone; [done|apply not_elem_of_nil|done]. }
    pose proof (watermark_fold_spec q marks1 late []) as Hf.
    destruct (fold_left (watermark_step c) q (marks1, late, [])) as [[m2 l2] kept]. destruct Hf as [Hm Hk].
    apply IH; [by eapply marks_le_trans|]. intros k q' x Hl Hnin Hx. apply lookup_insert_Some in Hl as [[<- <-]|[Hne Hl]].
    - destruct (Hk x Hx) as [Hn|Ho]; [by apply elem_of_nil in Hn|].
      eapply on_time_weaken; [exact Hle|apply marks_le_refl|exact Ho].
    - eapply on_time_weaken; [apply marks_le_refl|exact Hm|]. eapply Hdone; [done| |done].
      simpl. by intros [?|?]%elem_of_cons. }
  apply H; [apply marks_le_refl|]. intros k q x Hk Hnin. exfalso. apply Hnin, (elem_of_map_keys p). by eexists.
Qed.
End watermark.

(** ** Concrete collections *)
Definition demo_component (id type : string) (inputs : list string) (min_interval : Z) : ComponentNodeSpec :=
  mkComponentNode id "T" [mkEventSource "m" "message" inputs "" 0]
    (mkTriggerPolicy type inputs "" 0 0 5 min_interval 0 0 0 "" false) default_execution [] kProcessing "" empty_config.
Definition demo_lane : SchedulerGroupConfig :=
  mkGroup "main" "inline" (QArith_base.Qmake 0 1) "normal" 0 1 8 "reject" false 0 0 "drop_tick" "" [] 0 "none" 0 "none".
Definition demo_tick (now : Z) : TickContext := mkTick 1 now now None None.
Definition demo_trigger_bus : RuntimeChannelBus :=
  default demo_bus (run_bus demo_bus
    [BPublishFrom (fun _ => 10%Z) "a.out" (Some (make_text_payload "x" kTextPayloadSchema)) empty_metadata None]).
Lemma demo_trigger_bus_wf : bus_wf demo_trigger_bus.
Proof.
  unfold demo_trigger_bus. destruct (run_bus_moves demo_bus [BPublishFrom (fun _ => 10%Z) "a.out"
    (Some (make_text_payload "x" kTextPayloadSchema)) empty_metadata None]) as (b&->&_&W); [apply bus_new_origin|exact W].
Qed.
Lemma demo_distinct id type i : NoDup (trigger_policy_inputs_for (demo_component id type ["in"] i)).
Proof. apply (bool_decide_unpack _). vm_compute. exact I. Qed.

(** A message that waits in the engine and one that waits on the bus. *)
Definition demo_waiting : TriggerPolicyEngine :=
  TriggerPolicyEngine_new <| te_pending := {["b" := {["in" := [mkMessage "e" (Some (make_text_payload "w" kTextPayloadSchema)) 0 0 1 false None empty_metadata]]}]} |>.
Lemma trigger_collection_conserves_witness :
  let c := demo_component "b" "any_input" ["in"] 0 in
  pending_total (pending_of demo_waiting c) = 1 ∧
  ∃ e' bus' ev invs drained, collect_ready_invocations demo_waiting (Some demo_trigger_bus) (fun _ _ => 11%Z)
      (demo_tick 12) c demo_lane = Some (e', Some bus', ev, invs) ∧
    bus_drains demo_trigger_bus (fun _ _ => 11%Z) "b" (trigger_policy_inputs_for c) = Some (bus', drained) ∧
    delivered_total invs + pending_total (pending_of e' c) + drop_total (stats_of e' c) = 1 + handed_over drained.
Proof.
  split; [vm_compute; reflexivity|].
  apply (trigger_collection_conserves demo_waiting demo_trigger_bus (fun _ _ => 11%Z) (demo_tick 12) (demo_component "b" "any_input" ["in"] 0) demo_lane);
    [split; reflexivity|apply demo_distinct|apply demo_trigger_bus_wf].
Defined.
(** Both messages are accounted for. *)
Example demo_handed_over :
  option_map (fun r => handed_over r.2) (bus_drains demo_trigger_bus (fun _ _ => 11%Z) "b" ["in"]) = Some 1.
Proof. vm_compute. reflexivity. Qed.
Definition demo_collected :=
  default (TriggerPolicyEngine_new, None, [], [])
    (collect_ready_invocations TriggerPolicyEngine_new (Some demo_trigger_bus) (fun _ _ => 11%Z) (demo_tick 12)
       (demo_component "b" "any_input" ["in"] 5) demo_lane).
Lemma trigger_rate_limit_witness :
  length demo_collected.2 = 1 ∧ length demo_collected.2 <= 1 ∧
  (demo_collected.2 ≠ [] → te_last_invoked demo_collected.1.1.1 !! "b" = Some 12%Z ∧
     ∀ t, te_last_invoked TriggerPolicyEngine_new !! "b" = Some t → (ms 5 <= 12 - t)%Z).
Proof.
  split; [vm_compute; reflexivity|].
  apply (trigger_rate_limit TriggerPolicyEngine_new demo_trigger_bus (fun _ _ => 11%Z) (demo_tick 12)
    (demo_component "b" "any_input" ["in"] 5) demo_lane demo_collected.1.1.1 demo_collected.1.1.2 demo_collected.1.2).
  - split; reflexivity.
  - apply demo_distinct.
  - apply demo_trigger_bus_wf.
  - reflexivity.
  - vm_compute. reflexivity.
Defined.
Definition demo_message (n : nat) (ts : Z) : RuntimeChannelMessage :=
  mkMessage "e" (Some (make_text_payload "x" kTextPayloadSchema)) 0 0 n false
    (Some (mkEventTimestamp kSteady ts "")) empty_metadata.
Lemma all_inputs_fires_exactly_witness :
  let c := demo_component "b" "all_inputs" ["in"] 0 in
  let p : PendingMessages := {["in" := [demo_message 1 0; demo_message 2 0]]} in
  ∃ invs p', collect_all_inputs (demo_tick 1) c demo_lane p = Some (invs, p') ∧
    (∃ inv, invs = [inv] ∧ ready_inputs inv = ["in"] ∧ batch_payloads inv = [msg_payload (demo_message 1 0)]) ∧
     ∀ k, map_at [] p' k = if decide (k ∈ ["in"]) then tail (map_at [] p k) else map_at [] p k.
Proof.
  intros c p. destruct (all_inputs_fires_exactly (demo_tick 1) c demo_lane p) as (invs&p'&E&H); [apply demo_distinct|].
  exists invs, p'. split; [exact E|]. rewrite decide_True in H; [exact H|]. constructor; [discriminate|constructor].
Defined.
Lemma time_sync_fires_in_slop_witness :
  let c := demo_component "b" "time_sync" ["in"] 0 in
  let p : PendingMessages := {["in" := [demo_message 1 7]]} in
  pending_total p = 1 ∧
  ∃ invs p' s', collect_time_sync (demo_tick 1) c demo_lane (S (pending_total p)) p empty_trigger_metrics
                = Some (Some (invs, p', s')) ∧
    (invs = [] ∨ ∃ q l, front_messages_for_inputs ["in"] q = Some l ∧
       consume_front_messages ["in"] q = Some p' ∧
       invs = [invocation_from_messages kMessage tkTimeSync (demo_tick 1) c demo_lane l] ∧
       pending_total q + (time_sync_drop_count s' - 0) = pending_total p ∧
       ((0 < timestamp_slop_ns (trigger_policy c))%Z → messages_have_comparable_timestamps l = true →
        ∀ x y, x ∈ l → y ∈ l → (event_timestamp_ns x.2 - event_timestamp_ns y.2 <= timestamp_slop_ns (trigger_policy c))%Z)).
Proof.
  intros c p. split; [vm_compute; reflexivity|].
  apply (time_sync_fires_in_slop (demo_tick 1) c demo_lane p empty_trigger_metrics). apply demo_distinct.
Defined.

(** With a repeated input the engine pops an empty queue: a component whose trigger inputs name the same port
    twice has one message pending there; both fronts are found, and consuming them pops the queue twice. *)
Theorem repeated_input_undefined :
  let p : PendingMessages := {["in" := [demo_message 1 0]]} in
  front_messages_for_inputs ["in"; "in"] p ≠ None ∧
  collect_all_inputs (demo_tick 1) (demo_component "b" "all_inputs" ["in"; "in"] 0) demo_lane p = None.
Proof. split; [discriminate|reflexivity]. Qed.
