(* ===== verification/Component.v ===== *)
(** * Component: descriptors, the component registry and the context of an invocation

    Models [src/component_registry.cpp], the descriptor structs of [component.hpp], and [InputView] and
    [GraphContext::publish*] of [src/component.cpp].  A factory is user code: the registry is generic in the type of
    factories.  An exception is the left summand. *)

From S2P Require Export Bus Router.
Local Open Scope nat_scope.

(** ** Descriptors *)
Inductive PortMultiplicity := kSingle | kMultiple.
Record PortDescriptor := mkPort {
  port_name : string; port_schema : string; port_payload_type : string; port_multiplicity : PortMultiplicity;
  port_required : bool }.
(** A [double] read from text: the finite ones are rationals. *)
Inductive Double := Finite (q : QArith_base.Q) | Infinity (negative : bool) | NotANumber.
Inductive ConfigValueKind := kString | kInt | kDouble | kBool.
Record ConfigFieldSpec := mkField {
  field_name : string; field_kind : ConfigValueKind; field_required : bool; field_min_value : option Double;
  field_max_value : option Double; field_enum_values : list string; field_allow_nested : bool }.
Record ComponentDescriptor := mkComponentDescriptor {
  cd_type : string; cd_name : string; cd_role : ComponentRole; cd_boundary_descriptor : string;
  cd_config_fields : list ConfigFieldSpec; cd_inputs : list PortDescriptor; cd_outputs : list PortDescriptor;
  cd_lane : string }.

(** ** The registry *)
Record ComponentRegistration := mkRegistration {
  reg_type : string; reg_component_api_version : string; reg_runtime_min_version : string;
  reg_static_registration : bool; reg_realtime_allowed : bool; reg_dry_run_safe : bool }.
Section registry.
Context {F : Type}.
Record ComponentRegistry := mkRegistry {
  registrations : gmap string ComponentRegistration; factories : gmap string F }.
Definition empty_registry : ComponentRegistry := mkRegistry ∅ ∅.
(** [None] is an empty [std::function]. *)
Definition register_component (r : ComponentRegistry) (registration : ComponentRegistration) (factory : option F)
    : string + (ComponentRegistry * bool) :=
  if str_empty (reg_type registration) then inl "component type must not be empty" else
  match factory with
  | None => inl "component factory must not be empty"
  | Some f =>
      let type := reg_type registration in
      match registrations r !! type with
      | Some _ => inr (r, false)
      | None => inr (mkRegistry (<[type := registration]> (registrations r)) (<[type := f]> (factories r)), true)
      end
  end.
Definition unregister (r : ComponentRegistry) (type : string) : ComponentRegistry * bool :=
  (mkRegistry (delete type (registrations r)) (delete type (factories r)), bool_decide (is_Some (registrations r !! type))).
Definition registry_contains (r : ComponentRegistry) (type : string) : bool := bool_decide (is_Some (registrations r !! type)).
Definition registry_metadata (r : ComponentRegistry) (type : string) : option ComponentRegistration := registrations r !! type.
(** [create] calls the factory it finds. *)
Definition registry_create (r : ComponentRegistry) (type : string) : string + F :=
  match factories r !! type with
  | None => inl ("component type is not registered: " +:+ type)
  | Some f => inr f
  end.
Definition registry_types (r : ComponentRegistry) : list string := map_keys (registrations r).

(** A type has a registration exactly when it has a factory. *)
Definition registry_wf (r : ComponentRegistry) : Prop := dom (registrations r) = dom (factories r).
Inductive RegistryOp := ORegister (registration : ComponentRegistration) (factory : option F) | OUnregister (type : string).
(** An operation that throws leaves the registry as it was. *)
Definition registry_step (r : ComponentRegistry) (op : RegistryOp) : ComponentRegistry :=
  match op with
  | ORegister registration factory =>
      match register_component r registration factory with inl _ => r | inr (r', _) => r' end
  | OUnregister type => fst (unregister r type)
  end.
Definition registry_run (ops : list RegistryOp) : ComponentRegistry := fold_left registry_step ops empty_registry.
End registry.
Arguments ComponentRegistry : clear implicits.
Arguments RegistryOp : clear implicits.

(** ** The context of an invocation *)

(** [publisher] is the router of the run; without one the context publishes to the channel bus directly. *)
Record GraphContext := mkContext {
  ctx_publisher : option Router; ctx_channels : option RuntimeChannelBus; ctx_metadata : InvocationMetadata;
  ctx_component_id : string }.
#[export] Instance eta_GraphContext : Eta GraphContext := fun c =>
  mkContext (ctx_publisher c) (ctx_channels c) (ctx_metadata c) (ctx_component_id c).

Definition publication_metadata_for (ctx : GraphContext) (port : string) : InvocationMetadata :=
  let md := (ctx_metadata ctx) <| md_source_component := ctx_component_id ctx |> <| md_source_port := port |> in
  if str_empty (md_transaction_id md) then md <| md_transaction_id := md_correlation_id md |> else md.
(** [None] where the bus throws. *)
Definition context_publish_shared (ctx : GraphContext) (clock : nat → Z) (port : string) (payload : RuntimePayloadPtr)
    (ts : option EventTimestamp) : option (GraphContext * list PendingChannelHealthEvent * RuntimeChannelPublishResult) :=
  let endpoint := ctx_component_id ctx +:+ "." +:+ port in
  let md := publication_metadata_for ctx port in
  match ctx_publisher ctx with
  | Some r => let '(r', result) := router_publish r endpoint payload md ts in
              Some (ctx <| ctx_publisher := Some r' |>, [], result)
  | None =>
      match ctx_channels ctx with
      | Some b => match publish_shared_from_with_metadata b clock endpoint payload md ts with
              | None => None
              | Some (b', events, result) => Some (ctx <| ctx_channels := Some b' |>, events, result)
              end
      | None => Some (ctx, [], reject "graph context has no publisher")
      end
  end.
Definition context_publish (ctx : GraphContext) (clock : nat → Z) (port : string) (payload : RuntimePayload)
    (ts : option EventTimestamp) : option (GraphContext * list PendingChannelHealthEvent * RuntimeChannelPublishResult) :=
  context_publish_shared ctx clock port (make_shared_payload payload) ts.

(** [InputView] reads the bus on behalf of the component. *)
Definition read_result_payload (r : RuntimeChannelReadResult) : RuntimePayloadPtr :=
  if negb (rr_ok r) then None else rr_message r ≫= msg_payload.
Definition view_read_latest_update (channels : option RuntimeChannelBus) (clock : nat → Z) (component_id port : string)
    : option (option RuntimeChannelBus * list PendingChannelHealthEvent * RuntimePayloadPtr) :=
  match channels with
  | None => Some (None, [], None)
  | Some b => match read_latest_update_for_component_port b clock component_id port with
              | None => None
              | Some (b', events, r) => Some (Some b', events, read_result_payload r)
              end
  end.
Definition view_peek_latest (channels : option RuntimeChannelBus) (clock : nat → Z) (component_id port : string)
    : option (option RuntimeChannelBus * list PendingChannelHealthEvent * RuntimePayloadPtr) :=
  match channels with
  | None => Some (None, [], None)
  | Some b => match peek_latest_for_component_port b clock component_id port with
              | None => None
              | Some (b', events, r) => Some (Some b', events, read_result_payload r)
              end
  end.
Definition view_drain (channels : option RuntimeChannelBus) (clock : nat → Z) (component_id port : string) (max_batch : nat)
    : option (option RuntimeChannelBus * list PendingChannelHealthEvent * list RuntimePayloadPtr) :=
  match channels with
  | None => Some (None, [], [])
  | Some b => match drain_for_component_port b clock component_id port max_batch with
              | None => None
              | Some (b', events, messages) => Some (Some b', events, msg_payload <$> messages)
              end
  end.

(** ** Theorems *)

(** Whatever is registered and unregistered, a type has metadata exactly when it can be created; registering a known
    type changes nothing and answers [false], an unknown one becomes creatable with exactly the given factory, and
    unregistering makes a type unknown. *)
Theorem registry_consistent {F} (ops : list (RegistryOp F)) (registration : ComponentRegistration) (f : F) :
  let r := registry_run ops in let type := reg_type registration in
  (∀ t, registry_contains r t = true ↔ ∃ g, registry_create r t = inr g) ∧
  (type ≠ EmptyString → registry_contains r type = true → register_component r registration (Some f) = inr (r, false)) ∧
  (type ≠ EmptyString → registry_contains r type = false → ∃ r', register_component r registration (Some f) = inr (r', true) ∧
     registry_create r' type = inr f ∧ ∀ t, t ≠ type → registry_create r' t = registry_create r t) ∧
  (∀ t, registry_contains (fst (unregister r t)) t = false).
Proof.
  assert (∀ ops (r : ComponentRegistry F), registry_wf r → registry_wf (fold_left registry_step ops r)) as Hwf.
  { induction ops0 as [|op ops0 IH]; intros r Hr; simpl; [done|]. apply IH. unfold registry_wf in *.
    destruct op as [rg g|t]; simpl; [|by rewrite !dom_delete_L, Hr]. unfold register_component.
    destruct (str_empty _); [done|]. destruct g; [|done]. destruct (registrations r !! _); [done|]. simpl.
    by rewrite !dom_insert_L, Hr. }
  intros r type. assert (registry_wf r) as W by (by apply Hwf). split; [|split; [|split]].
  - intros t. unfold registry_contains, registry_create. rewrite bool_decide_eq_true.
    rewrite <- elem_of_dom, W, elem_of_dom. destruct (factories r !! t); split; [eauto|eauto|intros [? ?]|intros [? ?]]; done.
  - intros Hne Hc. unfold register_component. fold type. destruct (str_empty type) eqn:E; [by apply str_empty_true in E|].
    unfold registry_contains in Hc. apply bool_decide_eq_true in Hc as [x Hx]. by rewrite Hx.
  - intros Hne Hc. unfold register_component. fold type. destruct (str_empty type) eqn:E; [by apply str_empty_true in E|].
    unfold registry_contains in Hc. apply bool_decide_eq_false, eq_None_not_Some in Hc. rewrite Hc. eexists. split; [done|].
    unfold registry_create. simpl. rewrite lookup_insert_eq. split; [done|]. intros t Ht. by rewrite lookup_insert_ne.
  - intros t. unfold registry_contains. simpl. rewrite lookup_delete_eq. by apply bool_decide_eq_false, is_Some_None.
Qed.
