(* ===== verification/Validate.v ===== *)
(** * Validate: the graph validator

    Models [validate_graph_impl] of [src/graph.cpp] with its helpers, and [dry_run_graph].  Every check is a function
    on the result record, so a validation is the sequence of its checks in the order of the code.  The registry and
    the probe of a component (its factory followed by [describe()], user code that may throw) are arguments; so is
    [stod], the C library's conversion of text to [double].  The platform is Linux. *)

From S2P Require Export Lifecycle Compile Component Trigger.
From Stdlib Require Import Ascii.
Local Open Scope nat_scope.

(** ** Results *)
Record GraphValidationResult := mkValidation {
  gv_ok : bool; gv_errors : list string; gv_diagnostics : list GraphDiagnostic; gv_plan : GraphCompiledPlan }.
#[export] Instance eta_GraphValidationResult : Eta GraphValidationResult := fun r =>
  mkValidation (gv_ok r) (gv_errors r) (gv_diagnostics r) (gv_plan r).
Definition empty_validation : GraphValidationResult := mkValidation true [] [] (mkPlan [] [] ∅ []).
Abbreviation check := (GraphValidationResult → GraphValidationResult).
Definition add_error (error : string) : check := fun r =>
  r <| gv_ok := false |> <| gv_diagnostics ::= fun l => l ++ [make_diagnostic error] |> <| gv_errors ::= fun l => l ++ [error] |>.
Definition add_diagnostic (code severity message path : string) (components edges : list string) : check := fun r =>
  r <| gv_diagnostics ::= fun l => l ++ [mkDiagnostic code severity message path components edges
         (suggested_fix_for code) (graph_diagnostic_category code)] |>.
Definition add_advisory (code message path : string) : check := add_diagnostic code "advisory" message path [] [].
Definition add_warning (code message path : string) (components edges : list string) : check :=
  add_diagnostic code "warning" message path components edges.
Definition error_if (b : bool) (error : string) : check := fun r => if b then add_error error r else r.
Definition when (b : bool) (c : check) : check := fun r => if b then c r else r.
Definition all_checks (cs : list check) : check := fun r => fold_left (fun r c => c r) cs r.
Definition for_each {A} (l : list A) (f : A → check) : check := fun r => fold_left (fun r x => f x r) l r.

(** ** Accepted values *)
Definition one_of (s : string) (l : list string) : bool := bool_decide (s ∈ l).
Definition is_allowed_scheduler_type (s : string) : bool := one_of s ["fixed_rate"; "event_loop"; "thread_pool"].
Definition is_allowed_channel_type (s : string) : bool :=
  one_of s ["latest"; "queue"; "ring_buffer"; "latched"; "barrier"; "previous_tick"].
Definition is_latest_style_channel_type (s : string) : bool := one_of s ["latest"; "latched"; "previous_tick"].
Definition is_backpressure_drop_policy (s : string) : bool := one_of s ["drop_newest"; "block"].
Definition is_allowed_drop_policy (s : string) : bool :=
  one_of s ["overwrite"; "drop_oldest"; "drop_newest"; "block"; "fail_fast"; "reject"].
Definition is_allowed_lane_overflow (s : string) : bool := is_allowed_drop_policy s || str_eqb s "reject_new".
Definition is_allowed_overrun_policy (s : string) : bool := one_of s ["drop_tick"; "skip_next"; "catch_up_once"].
Definition is_allowed_runtime_priority (s : string) : bool := one_of s [""; "background"; "low"; "normal"; "high"].
Definition is_non_default_advisory_lane_field (lane : LaneSpec) (field : string) : bool :=
  if str_eqb field "priority" then negb (str_empty (lane_priority lane)) else
  if str_eqb field "thread_name" then
    if str_eqb (lane_type lane) "thread_pool" then false else negb (str_empty (lane_thread_name lane)) else
  if str_eqb field "cpu_affinity" then bool_decide (lane_cpu_affinity lane ≠ []) else
  if str_eqb field "nice_priority" then negb (lane_nice_priority lane =? 0)%Z else
  if str_eqb field "rt_policy" then negb (str_empty (lane_rt_policy lane)) && negb (str_eqb (lane_rt_policy lane) "none") else
  if str_eqb field "rt_priority" then negb (lane_rt_priority lane =? 0)%Z else
  if str_eqb field "isolation_intent" then
    negb (str_empty (lane_isolation_intent lane)) && negb (str_eqb (lane_isolation_intent lane) "none") else
  if str_eqb field "wall_clock_enabled" then
    if str_eqb (lane_type lane) "fixed_rate" then false else lane_wall_clock_enabled lane else false.
Definition is_allowed_copy_policy (s : string) : bool := one_of s ["copy"; "shared_view"; "loaned_view"; "move_only"].
Definition is_allowed_owner (s : string) : bool := one_of s ["producer"; "runtime"; "consumer"].
Definition is_allowed_readers (s : string) : bool := one_of s ["single"; "multi"; "multiple"].
Definition high_queue_depth_latency_risk (policy : EdgePolicySpec) : bool :=
  (str_eqb (policy_mode policy) "queue" || str_eqb (policy_mode policy) "ring_buffer") && (256 <? policy_capacity policy)%Z.
Definition is_large_payload_schema (s : string) : bool := one_of s [kFrameViewPayloadSchema; kBinaryBlobPayloadSchema].
Definition is_allowed_event_source_type (s : string) : bool :=
  one_of s ["message"; "timer"; "request"; "task_ready"; "future_ready"; "manual"].
Definition is_reserved_event_source_type (s : string) : bool := one_of s ["action_goal"; "action_cancel"].
Definition is_allowed_trigger_policy_type (s : string) : bool :=
  one_of s ["on_event"; "any_input"; "all_inputs"; "time_sync"; "batch"; "request"; "task_ready"; "manual"; "watermark";
            "condition"; "debounce"; "rate_limit"].
Definition is_allowed_trigger_condition (s : string) : bool :=
  one_of s ["all_inputs_ready"; "any_input_ready"; "event_timestamp_present"].
Definition is_allowed_loop_policy_type (s : string) : bool :=
  one_of s ["fixed_point"; "transaction"; "solver_iteration"; "coalesced_event"; "async_task"].
Definition is_allowed_loop_convergence (s : string) : bool :=
  one_of s [""; "single_pass"; "after_first_iteration"; "always"; "stable_state"].
Definition is_allowed_loop_partial_success (s : string) : bool :=
  one_of s [""; "commit_outputs"; "discard_outputs"; "fail_run"].
(** Trigger types that consume named inputs: the two lists of the validator. *)
Definition needs_inputs (t : string) : bool :=
  one_of t ["on_event"; "all_inputs"; "any_input"; "time_sync"; "batch"; "watermark"; "condition"; "debounce"; "rate_limit"].
Definition names_message_inputs (t : string) : bool :=
  one_of t ["all_inputs"; "time_sync"; "batch"; "watermark"; "condition"; "debounce"; "rate_limit"].

(** ** Ports and roles *)
Definition find_port (ports : list PortDescriptor) (name : string) : option PortDescriptor :=
  List.find (fun p => str_eqb (port_name p) name) ports.
(** [Some reason] when the contracts are incompatible. *)
Definition port_contracts_incompatible (output input : PortDescriptor) : option string :=
  if negb (str_empty (port_schema output)) && negb (str_empty (port_schema input)) &&
     negb (str_eqb (port_schema output) (port_schema input))
  then Some ("schema " +:+ port_schema output +:+ " != " +:+ port_schema input) else
  if negb (str_empty (port_payload_type output)) && negb (str_empty (port_payload_type input)) &&
     negb (str_eqb (port_payload_type output) (port_payload_type input))
  then Some ("payload_type " +:+ port_payload_type output +:+ " != " +:+ port_payload_type input) else None.
Definition is_processing (role : ComponentRole) : bool := match role with kProcessing => true | _ => false end.
Definition boundary_roles_compatible (graph_role descriptor_role : ComponentRole) : bool :=
  if is_processing graph_role then true else
  if component_role_has_input graph_role && negb (component_role_has_input descriptor_role) then false else
  if component_role_has_output graph_role && negb (component_role_has_output descriptor_role) then false else true.

(** ** Configuration values *)
Definition double_lt (a b : Double) : bool :=
  match a, b with
  | NotANumber, _ | _, NotANumber => false
  | Infinity n, Infinity m => n && negb m
  | Infinity n, Finite _ => n
  | Finite _, Infinity m => negb m
  | Finite p, Finite q => match QArith_base.Qcompare p q with Lt => true | _ => false end
  end.
Definition int_min : Z := -2147483648.
Definition int_max : Z := 2147483647.
Definition of_int (z : Z) : Double := Finite (QArith_base.inject_Z z).
Definition is_finite (d : Double) : bool := match d with Finite _ => true | _ => false end.
(** [numeric == static_cast<int>(numeric)], for a finite value in range: the cast truncates. *)
Definition is_integral (d : Double) : bool :=
  match d with Finite q => (Z.rem (QArith_base.Qnum q) (Zpos (QArith_base.Qden q)) =? 0)%Z | _ => false end.
Definition config_kind_name (kind : ConfigValueKind) : string :=
  match kind with kString => "string" | kInt => "int" | kDouble => "double" | kBool => "bool" end.

Section validate.
(** [std::stod]: the value and the number of characters read, or an exception. *)
Context (stod : string → option (Double * nat)).
Definition parse_double (value : string) : option Double :=
  match stod value with Some (d, pos) => if pos =? String.length value then Some d else None | None => None end.

Definition validate_config_field (c : ComponentNodeSpec) (field : ConfigFieldSpec) : check :=
  let prefix := "component " +:+ comp_id c +:+ " config field " +:+ field_name field in
  match config_values (comp_config c) !! field_name field with
  | None => error_if (field_required field) ("component " +:+ comp_id c +:+ " missing required config field " +:+ field_name field)
  | Some value =>
      if config_is_nested (comp_config c) (field_name field) && negb (field_allow_nested field)
      then add_error (prefix +:+ " does not allow nested values")
      else match field_kind field with
      | kString => error_if (bool_decide (field_enum_values field ≠ []) && negb (one_of value (field_enum_values field)))
                     (prefix +:+ " has unsupported enum value " +:+ value)
      | kBool => error_if (negb (str_eqb value "true") && negb (str_eqb value "false")) (prefix +:+ " must be bool true/false")
      | kind =>
          match parse_double value with
          | None => add_error (prefix +:+ " must be " +:+ config_kind_name kind)
          | Some numeric => all_checks
              [ when (match kind with kInt => true | _ => false end)
                  (error_if (negb (is_finite numeric) || double_lt numeric (of_int int_min) ||
                             double_lt (of_int int_max) numeric || negb (is_integral numeric)) (prefix +:+ " must be int"));
                error_if (match field_min_value field with Some m => double_lt numeric m | None => false end)
                  (prefix +:+ " is below minimum");
                error_if (match field_max_value field with Some m => double_lt m numeric | None => false end)
                  (prefix +:+ " is above maximum") ]
          end
      end
  end.
Definition validate_component_config (c : ComponentNodeSpec) (descriptor : ComponentDescriptor) : check :=
  for_each (cd_config_fields descriptor) (validate_config_field c).

(** ** Lanes *)
Definition advisory_fields : list string :=
  ["priority"; "thread_name"; "cpu_affinity"; "nice_priority"; "rt_policy"; "rt_priority"; "isolation_intent";
   "wall_clock_enabled"].
Definition lane_checks (lane : LaneSpec) : check :=
  let prefix := "lane " +:+ lane_id lane in
  all_checks
    [ error_if (negb (is_allowed_scheduler_type (lane_type lane))) (prefix +:+ " has unsupported type " +:+ lane_type lane);
      error_if (lane_max_threads lane <? 0)%Z (prefix +:+ " max_threads must be non-negative");
      error_if (lane_queue_capacity lane <? 0)%Z (prefix +:+ " queue_capacity must be non-negative");
      error_if (lane_period_ms lane <? 0)%Z (prefix +:+ " period_ms must be non-negative");
      error_if (lane_tick_budget_ms lane <? 0)%Z (prefix +:+ " tick_budget_ms must be non-negative");
      error_if (negb (is_allowed_lane_overflow (lane_overflow lane))) (prefix +:+ " has unsupported overflow " +:+ lane_overflow lane);
      error_if (negb (is_allowed_overrun_policy (lane_overrun_policy lane)))
        (prefix +:+ " has unsupported overrun_policy " +:+ lane_overrun_policy lane);
      for_each advisory_fields (fun field => when (is_non_default_advisory_lane_field lane field)
        (add_advisory "advisory_lane_field_ignored"
           (prefix +:+ " advisory field " +:+ field +:+ " is parsed and preserved but not enforced by the current runtime")
           ("lanes." +:+ lane_id lane +:+ "." +:+ field))) ].
Fixpoint validate_lanes (lanes : list LaneSpec) (seen : gset string) (r : GraphValidationResult)
    : gset string * GraphValidationResult :=
  match lanes with
  | [] => (seen, r)
  | lane :: rest =>
      if str_empty (lane_id lane) then validate_lanes rest seen (add_error "lane id must not be empty" r)
      else validate_lanes rest ({[lane_id lane]} ∪ seen)
             (lane_checks lane (error_if (bool_decide (lane_id lane ∈ seen)) ("duplicate lane: " +:+ lane_id lane) r))
  end.

(** ** Components *)
Definition event_source_checks (c : ComponentNodeSpec) (source : EventSourceSpec) : check :=
  let prefix := "component " +:+ comp_id c in
  all_checks
    [ if is_reserved_event_source_type (source_type source)
      then add_error (prefix +:+ " event_source.type " +:+ source_type source +:+ " is reserved but not implemented in schema v1")
      else error_if (negb (is_allowed_event_source_type (source_type source)))
             (prefix +:+ " has unsupported event_source.type " +:+ source_type source);
      error_if (str_eqb (source_type source) "timer" && (source_period_ms source <=? 0)%Z)
        (prefix +:+ " timer event_source requires positive period_ms");
      error_if (str_eqb (source_type source) "message" && bool_decide (source_inputs source = []))
        (prefix +:+ " message event_source requires at least one input") ].
Definition trigger_checks (c : ComponentNodeSpec) : check :=
  let prefix := "component " +:+ comp_id c in
  let t := trigger_policy c in
  let no_inputs := bool_decide (trigger_policy_inputs_for c = []) in
  all_checks
    [ error_if (has_timer_event_source c && has_message_event_source c)
        (prefix +:+ " cannot mix timer event_source with input-driven event_source types");
      error_if (negb (is_allowed_trigger_policy_type (trigger_type t)))
        (prefix +:+ " has unsupported trigger_policy.type " +:+ trigger_type t);
      error_if (needs_inputs (trigger_type t) && has_message_event_source c && no_inputs)
        (prefix +:+ " trigger_policy requires at least one input");
      error_if ((batch_size t <? 0) || (batch_window_ms t <? 0) || (sync_slop_ms t <? 0) || (min_interval_ms t <? 0) ||
                (max_latency_ms t <? 0) || (watermark_lateness_ms t <? 0) || (debounce_window_ms t <? 0))%Z
        (prefix +:+ " trigger_policy numeric fields must be non-negative");
      error_if (0 <? debounce_window_ms t)%Z
        (prefix +:+ " trigger_policy.debounce_window_ms is reserved in schema v1 and must be 0");
      error_if (str_eqb (trigger_type t) "batch" && (batch_size t <=? 0)%Z && (batch_window_ms t <=? 0)%Z)
        (prefix +:+ " batch trigger_policy requires batch_size or batch_window_ms");
      when (names_message_inputs (trigger_type t) && negb no_inputs && negb (has_message_event_source c))
        (add_warning "trigger_never_ready"
           (prefix +:+ " trigger_policy " +:+ trigger_type t +:+ " names message inputs but has no message event_source")
           ("components." +:+ comp_id c +:+ ".trigger_policy") [comp_id c] []);
      error_if (str_eqb (trigger_type t) "condition" && negb (is_allowed_trigger_condition (trigger_condition t)))
        (prefix +:+ " condition trigger_policy.condition must be one of all_inputs_ready, any_input_ready, or event_timestamp_present");
      error_if (str_eqb (trigger_type t) "rate_limit" && (min_interval_ms t <=? 0)%Z)
        (prefix +:+ " rate_limit trigger_policy requires positive min_interval_ms") ].
Definition component_checks (lanes : gset string) (c : ComponentNodeSpec) : check :=
  let prefix := "component " +:+ comp_id c in
  let e := execution c in
  all_checks
    [ error_if (str_empty (comp_type c)) (prefix +:+ " type must not be empty");
      error_if (bool_decide (exec_lane e ∉ lanes)) (prefix +:+ " references missing lane " +:+ exec_lane e);
      error_if (negb (is_allowed_runtime_priority (exec_priority e))) (prefix +:+ " has unsupported execution.priority " +:+ exec_priority e);
      error_if (negb (str_eqb (exec_on_error e) "fail_fast"))
        (prefix +:+ " has unsupported execution.on_error " +:+ exec_on_error e +:+ " (only fail_fast is implemented)");
      error_if (bool_decide (event_sources c = [])) (prefix +:+ " requires at least one event_source");
      for_each (event_sources c) (event_source_checks c);
      trigger_checks c ].

(** The registry, and the probe of a factory: [create] then [describe], with the text of an exception on the left. *)
Context {F : Type} (registry : option (ComponentRegistry F)) (probe : F → string + ComponentDescriptor).
Definition descriptor_checks (c : ComponentNodeSpec) (d : ComponentDescriptor) : check :=
  let prefix := "component " +:+ comp_id c in
  all_checks
    [ error_if (negb (str_eqb (cd_type d) (comp_type c))) (prefix +:+ " descriptor type mismatch: " +:+ cd_type d +:+ " != " +:+ comp_type c);
      error_if (negb (str_empty (cd_lane d)) && negb (str_eqb (cd_lane d) (exec_lane (execution c))))
        (prefix +:+ " lane mismatch: descriptor " +:+ cd_lane d +:+ " != graph " +:+ exec_lane (execution c));
      error_if (negb (boundary_roles_compatible (boundary_role c) (cd_role d)))
        (prefix +:+ " boundary role mismatch: graph " +:+ component_role_name (boundary_role c) +:+
         " is incompatible with descriptor " +:+ component_role_name (cd_role d));
      validate_component_config c d ].
Definition probe_type (r : ComponentRegistry F) (type : string) : string + ComponentDescriptor :=
  match registry_create r type with inl e => inl e | inr f => probe f end.

(** The locals of the component loop. *)
Record ComponentScan := mkComponentScan {
  cs_ids : gset string; cs_descriptors : gmap string ComponentDescriptor; cs_has_input : bool; cs_has_output : bool;
  cs_has_duplicate : bool; cs_result : GraphValidationResult }.
Definition note_role (role : ComponentRole) (s : ComponentScan) : ComponentScan :=
  mkComponentScan (cs_ids s) (cs_descriptors s) (cs_has_input s || component_role_has_input role)
    (cs_has_output s || component_role_has_output role) (cs_has_duplicate s) (cs_result s).
Definition scan_check (c : check) (s : ComponentScan) : ComponentScan :=
  mkComponentScan (cs_ids s) (cs_descriptors s) (cs_has_input s) (cs_has_output s) (cs_has_duplicate s) (c (cs_result s)).
Definition note_descriptor (id : string) (d : ComponentDescriptor) (s : ComponentScan) : ComponentScan :=
  mkComponentScan (cs_ids s) (<[id := d]> (cs_descriptors s)) (cs_has_input s) (cs_has_output s) (cs_has_duplicate s) (cs_result s).
Definition note_id (id : string) (s : ComponentScan) : ComponentScan :=
  let duplicate := bool_decide (id ∈ cs_ids s) in
  mkComponentScan ({[id]} ∪ cs_ids s) (cs_descriptors s) (cs_has_input s) (cs_has_output s) (cs_has_duplicate s || duplicate)
    (error_if duplicate ("duplicate component: " +:+ id) (cs_result s)).
Definition probe_component (c : ComponentNodeSpec) (s : ComponentScan) : ComponentScan :=
  match registry with
  | None => s
  | Some r =>
      match registry_metadata r (comp_type c) with
      | None => scan_check (add_error ("component " +:+ comp_id c +:+ " type is not registered: " +:+ comp_type c)) s
      | Some _ =>
          match probe_type r (comp_type c) with
          | inl e => scan_check (add_error ("component " +:+ comp_id c +:+ " descriptor probe failed: " +:+ e)) s
          | inr d => note_descriptor (comp_id c) d (note_role (cd_role d) (scan_check (descriptor_checks c d) s))
          end
      end
  end.
Definition validate_component (lanes : gset string) (s : ComponentScan) (c : ComponentNodeSpec) : ComponentScan :=
  if str_empty (comp_id c) then scan_check (add_error "component id must not be empty") s
  else probe_component c (note_role (boundary_role c) (scan_check (component_checks lanes c) (note_id (comp_id c) s))).

(** ** Edges *)
Record EdgeScan := mkEdgeScan {
  es_ids : gset string; es_sources : gset string; es_targets : gset string; es_target_counts : gmap string nat;
  es_state_writers : gmap string (list string); es_result : GraphValidationResult }.
Definition edge_policy_checks (edge : EdgeSpec) : check :=
  let prefix := "edge " +:+ edge_id edge in
  let p := edge_policy edge in
  all_checks
    [ if negb (edge_has_kind edge) then add_error (prefix +:+ " kind is required")
      else error_if (negb (str_empty (edge_invalid_kind edge))) (prefix +:+ " has unsupported kind " +:+ edge_invalid_kind edge);
      error_if (negb (is_allowed_channel_type (policy_mode p))) (prefix +:+ " has unsupported policy.mode " +:+ policy_mode p);
      error_if (policy_capacity p <=? 0)%Z (prefix +:+ " policy.capacity must be positive");
      error_if (policy_max_inflight p <? 0)%Z (prefix +:+ " policy.max_inflight must be non-negative");
      error_if ((0 <? policy_max_inflight p)%Z && negb (bool_decide (edge_kind edge = kAsync)))
        (prefix +:+ " policy.max_inflight applies only to async edges");
      error_if (negb (is_allowed_drop_policy (policy_overflow p))) (prefix +:+ " has unsupported policy.overflow " +:+ policy_overflow p);
      error_if (is_latest_style_channel_type (policy_mode p) && is_backpressure_drop_policy (policy_overflow p))
        (prefix +:+ " latest-style policy cannot use overflow " +:+ policy_overflow p);
      error_if (negb (is_timestamp_domain_value (policy_timestamp_domain p)))
        (prefix +:+ " has unsupported policy.timestamp_domain " +:+ policy_timestamp_domain p);
      error_if (negb (is_allowed_copy_policy (policy_copy_policy p)))
        (prefix +:+ " has unsupported policy.copy_policy " +:+ policy_copy_policy p);
      error_if (negb (is_allowed_owner (policy_owner p))) (prefix +:+ " has unsupported policy.owner " +:+ policy_owner p);
      error_if (negb (is_allowed_readers (policy_readers p))) (prefix +:+ " has unsupported policy.readers " +:+ policy_readers p);
      error_if (str_eqb (policy_copy_policy p) "move_only" && negb (str_eqb (policy_readers p) "single"))
        (prefix +:+ " move_only copy_policy requires readers: single");
      if str_eqb (policy_overflow p) "block"
      then add_warning "backpressure_risk" (prefix +:+ " uses blocking overflow and may stall upstream execution")
             ("edges." +:+ edge_id edge) [] [edge_id edge]
      else when (slow_reader_drop_risk p)
             (add_warning "backpressure_risk" (prefix +:+ " is multi-reader with slow-reader drop risk")
                ("edges." +:+ edge_id edge) [] [edge_id edge]);
      when (high_queue_depth_latency_risk p)
        (add_warning "high_queue_depth_latency_risk"
           (prefix +:+ " queue capacity " +:+ to_string_Z (policy_capacity p) +:+ " can hide tail latency")
           ("edges." +:+ edge_id edge +:+ ".policy.capacity") [] [edge_id edge]) ].
Definition endpoint_checks (ids : gset string) (edge : EdgeSpec) : check :=
  let prefix := "edge " +:+ edge_id edge in
  all_checks
    [ error_if (bool_decide (from_component edge ∉ ids)) (prefix +:+ " references missing source component " +:+ from_component edge);
      error_if (bool_decide (to_component edge ∉ ids)) (prefix +:+ " references missing target component " +:+ to_component edge) ].
(** The port an endpoint names; [Some None] when the descriptor is known and has no such port. *)
Definition resolve_port (descriptors : gmap string ComponentDescriptor) (ports : ComponentDescriptor → list PortDescriptor)
    (endpoint : string) : option (option PortDescriptor) :=
  match registry with
  | None => None
  | Some _ =>
      match descriptors !! component_id_from_endpoint endpoint with
      | None => None
      | Some d =>
          let port := port_name_from_endpoint endpoint in
          if str_empty port then None else Some (find_port (ports d) port)
      end
  end.
Definition is_missing {A} (p : option (option A)) : bool := match p with Some None => true | _ => false end.
Definition port_checks (descriptors : gmap string ComponentDescriptor) (edge : EdgeSpec) : check :=
  let prefix := "edge " +:+ edge_id edge in
  let output := resolve_port descriptors cd_outputs (edge_from edge) in
  let input := resolve_port descriptors cd_inputs (edge_to edge) in
  all_checks
    [ error_if (is_missing output) (prefix +:+ " references missing output port " +:+ edge_from edge);
      error_if (is_missing input) (prefix +:+ " references missing input port " +:+ edge_to edge);
      match output, input with
      | Some (Some o), Some (Some i) =>
          match port_contracts_incompatible o i with
          | Some reason => add_error (prefix +:+ " payload type mismatch: " +:+ edge_from edge +:+ " -> " +:+ edge_to edge +:+ " " +:+ reason)
          | None => fun r => r
          end
      | _, _ => fun r => r
      end;
      match output with
      | Some (Some o) =>
          when (str_eqb (policy_copy_policy (edge_policy edge)) "copy" && is_large_payload_schema (port_schema o))
            (add_warning "large_payload_copy" (prefix +:+ " copies large payload schema " +:+ port_schema o)
               ("edges." +:+ edge_id edge) [from_component edge; to_component edge] [edge_id edge])
      | _ => fun r => r
      end ].
Definition validate_edge (ids : gset string) (descriptors : gmap string ComponentDescriptor) (s : EdgeScan) (edge : EdgeSpec)
    : EdgeScan :=
  if str_empty (edge_id edge) then
    mkEdgeScan (es_ids s) (es_sources s) (es_targets s) (es_target_counts s) (es_state_writers s)
      (add_error "edge id must not be empty" (es_result s))
  else
    mkEdgeScan ({[edge_id edge]} ∪ es_ids s) ({[edge_from edge]} ∪ es_sources s) ({[edge_to edge]} ∪ es_targets s)
      (<[edge_to edge := S (map_at 0 (es_target_counts s) (edge_to edge))]> (es_target_counts s))
      (if decide (edge_kind edge = kState)
       then <[edge_to edge := map_at [] (es_state_writers s) (edge_to edge) ++ [edge_id edge]]> (es_state_writers s)
       else es_state_writers s)
      (all_checks
         [ error_if (bool_decide (edge_id edge ∈ es_ids s)) ("duplicate edge: " +:+ edge_id edge);
           edge_policy_checks edge; endpoint_checks ids edge;
           error_if (bool_decide (edge_from edge ∈ es_sources s) && str_eqb (policy_owner (edge_policy edge)) "producer")
             ("source endpoint has multiple producer-owned edges: " +:+ edge_from edge);
           port_checks descriptors edge ] (es_result s)).
Definition state_writer_checks (writers : gmap string (list string)) : check :=
  for_each (map_items writers) (fun '(target, ids) =>
    error_if (1 <? length ids) ("state edge target has multiple writers: " +:+ target +:+ " via " +:+ join_ids ids)).

(** ** Inputs, loops and subgraphs *)
Definition input_checks (counts : gmap string nat) (c : ComponentNodeSpec) (input : PortDescriptor) : check :=
  let incoming := map_at 0 counts (comp_id c +:+ "." +:+ port_name input) in
  if str_empty (port_name input) then fun r => r else
  if incoming =? 0 then
    if port_required input then add_error ("component " +:+ comp_id c +:+ " missing required input " +:+ port_name input)
    else add_advisory "optional_input_unconnected"
           ("component " +:+ comp_id c +:+ " optional input " +:+ port_name input +:+ " has no incoming edge")
           ("components." +:+ comp_id c +:+ ".inputs." +:+ port_name input)
  else error_if (match port_multiplicity input with kSingle => 1 <? incoming | kMultiple => false end)
         ("component " +:+ comp_id c +:+ " input " +:+ port_name input +:+ " multiplicity single has multiple incoming edges").
Definition descriptor_input_checks (descriptors : gmap string ComponentDescriptor) (counts : gmap string nat)
    (c : ComponentNodeSpec) : check :=
  match descriptors !! comp_id c with
  | None => fun r => r
  | Some d => for_each (cd_inputs d) (input_checks counts c)
  end.
Definition trigger_input_checks (targets : gset string) (c : ComponentNodeSpec) : check :=
  for_each (trigger_policy_inputs_for c) (fun input =>
    error_if (bool_decide (comp_id c +:+ "." +:+ input ∉ targets))
      ("component " +:+ comp_id c +:+ " trigger input has no incoming edge: " +:+ input)).
Definition q_negative (q : QArith_base.Q) : bool := (QArith_base.Qnum q <? 0)%Z.
Definition loop_policy_checks (l : CompositeLoopSpec) : check :=
  let prefix := "composite_loop " +:+ loop_id l in
  let p := loop_policy l in
  all_checks
    [ error_if (negb (is_allowed_loop_policy_type (loop_type p))) (prefix +:+ " has unsupported loop_policy.type " +:+ loop_type p);
      error_if ((loop_budget_ms p <? 0) || (loop_max_iterations p <? 0) || (loop_max_inflight p <? 0) || (loop_min_interval_ms p <? 0))%Z
        (prefix +:+ " numeric policy fields must be non-negative");
      error_if (match loop_residual_threshold p with Some q => q_negative q | None => false end)
        (prefix +:+ " residual_threshold must be non-negative");
      error_if (negb (is_allowed_loop_convergence (loop_convergence p)))
        (prefix +:+ " has unsupported loop_policy.convergence " +:+ loop_convergence p);
      error_if (negb (is_allowed_loop_partial_success (loop_partial_success p)))
        (prefix +:+ " has unsupported loop_policy.partial_success " +:+ loop_partial_success p) ].
Definition missing_checks (id what : string) (names : list string) (known : gset string) : check :=
  for_each names (fun n => error_if (bool_decide (n ∉ known))
    ("subgraph " +:+ id +:+ " references missing expanded " +:+ what +:+ " " +:+ n)).
Fixpoint validate_hierarchy (ids edges loops : gset string) (entries : list GraphHierarchyEntry) (seen : gset string) : check :=
  match entries with
  | [] => fun r => r
  | h :: rest => fun r =>
      if str_empty (hier_id h) then validate_hierarchy ids edges loops rest seen (add_error "subgraph id must not be empty" r)
      else validate_hierarchy ids edges loops rest ({[hier_id h]} ∪ seen)
             (all_checks
                [ error_if (bool_decide (hier_id h ∈ seen)) ("duplicate subgraph: " +:+ hier_id h);
                  missing_checks (hier_id h) "component" (hier_components h) ids;
                  missing_checks (hier_id h) "edge" (hier_edges h) edges;
                  missing_checks (hier_id h) "composite_loop" (hier_composite_loops h) loops ] r)
  end.

(** ** The validator *)
Definition header_checks (graph : GraphSpec) : check :=
  all_checks
    [ error_if (negb (graph_schema_version graph =? kTopoExecSchemaVersion)%Z)
        ("schema_version must be " +:+ to_string_Z kTopoExecSchemaVersion);
      error_if (str_empty (graph_name graph)) "graph.name must not be empty";
      if str_empty (graph_kind graph) then add_error "graph.kind must not be empty"
      else error_if (negb (one_of (graph_kind graph) ["runnable"; "internal_test"])) "graph.kind must be runnable or internal_test";
      error_if (negb (str_eqb (clock_runtime_domain (graph_clock graph)) "steady")) "graph.clock.runtime_domain must be steady";
      error_if (negb (is_timestamp_domain_value (clock_event_domain (graph_clock graph))))
        ("graph.clock.event_domain has unsupported domain " +:+ clock_event_domain (graph_clock graph)) ].
Definition boundary_checks (graph : GraphSpec) (s : ComponentScan) : check :=
  when (match registry with Some _ => str_eqb (graph_kind graph) "runnable" | None => false end)
    (all_checks [ error_if (negb (cs_has_input s)) "runnable graph must declare at least one input boundary component";
                  error_if (negb (cs_has_output s)) "runnable graph must declare at least one output boundary component" ]).
Definition set_plan (plan : GraphCompiledPlan) : check := fun r => r <| gv_plan := plan |>.
(** The errors of the compiler, or nothing when a component id is repeated. *)
Definition compile_checks (fuel : nat) (graph : GraphSpec) (s : ComponentScan) (r : GraphValidationResult)
    : option GraphValidationResult :=
  if cs_has_duplicate s then Some r else
  compiled ← compile_graph fuel graph;
  Some (for_each (cr_errors compiled) add_error (set_plan (cr_plan compiled) r)).
Definition validate_graph (fuel : nat) (graph : GraphSpec) : option GraphValidationResult :=
  let '(lanes, r) := validate_lanes (graph_lanes graph) ∅ (header_checks graph empty_validation) in
  let s := fold_left (validate_component lanes) (graph_components graph) (mkComponentScan ∅ ∅ false false false r) in
  lifecycle ← compute_component_lifecycle_order graph;
  let r := boundary_checks graph s (for_each (lo_errors lifecycle) add_error (cs_result s)) in
  let e := fold_left (validate_edge (cs_ids s) (cs_descriptors s)) (graph_edges graph) (mkEdgeScan ∅ ∅ ∅ ∅ ∅ r) in
  let r := all_checks
    [ state_writer_checks (es_state_writers e);
      for_each (graph_components graph) (descriptor_input_checks (cs_descriptors s) (es_target_counts e));
      for_each (graph_components graph) (trigger_input_checks (es_targets e));
      for_each (graph_composite_loops graph) loop_policy_checks;
      validate_hierarchy (cs_ids s) (es_ids e) (list_to_set (loop_id <$> graph_composite_loops graph)) (graph_hierarchy graph) ∅ ]
    (es_result e) in
  compile_checks fuel graph s r.
End validate.

(** ** Dry runs *)
(** The value of a sample, a [double], is kept before it is rounded to one. *)
Record RuntimeMetricSample := mkSample {
  sample_name : string; sample_value : Double; sample_component_id : string; sample_lane : string; sample_channel_id : string;
  sample_tags : list string }.
Record GraphDryRunResult := mkDryRun {
  dry_ok : bool; dry_errors : list string; dry_instantiated : nat; dry_configured : nat; dry_started : nat; dry_stopped : nat;
  dry_tick_calls : nat; dry_metric_samples : nat; dry_channel_publish_count : nat; dry_channel_delivery_count : nat;
  dry_channel_drop_count : nat; dry_channel_overwrite_count : nat; dry_channel_reject_count : nat;
  dry_channel_stale_drop_count : nat; dry_channel_deadline_miss_count : nat; dry_payload_copy_count : nat;
  dry_ticked_components : list string; dry_runtime_metrics : list RuntimeMetricSample }.
Definition default_dry_run : GraphDryRunResult := mkDryRun true [] 0 0 0 0 0 0 0 0 0 0 0 0 0 0 [] [].
Fixpoint repeat_list {A} (n : nat) (l : list A) : list A := match n with 0 => [] | S n' => l ++ repeat_list n' l end.
Definition dry_run_graph {F} (stod : string → option (Double * nat)) (registry : ComponentRegistry F)
    (probe : F → string + ComponentDescriptor) (fuel : nat) (graph : GraphSpec) (tick_iterations : nat)
    : option GraphDryRunResult :=
  validation ← validate_graph stod (Some registry) probe fuel graph;
  let n := length (graph_components graph) in
  Some (if negb (gv_ok validation) then mkDryRun false (gv_errors validation) 0 0 0 0 0 0 0 0 0 0 0 0 0 0 [] [] else
    let metrics := (fun e => mkSample "runtime.channel.configured" (of_int 1) "" "" (edge_id e) []) <$> graph_edges graph in
    mkDryRun true [] n n n n (n * tick_iterations) (length metrics) 0 0 0 0 0 0 0 0
      (repeat_list tick_iterations (comp_id <$> graph_components graph)) metrics).
