(* ===== verification/ValidateFacts.v ===== *)
(** * ValidateFacts: what an accepted graph satisfies

    Every check of Validate.v is related to the condition it enforces ([enforces]): it keeps the result well reported
    and leaves it without an error exactly when the condition holds.  The conditions compose like the checks, and add
    up to the specification [graph_valid]. *)

From S2P Require Export Validate CompileFacts.
Local Open Scope nat_scope.

(** ** Checks and conditions *)

(** The flag, the list of errors and the diagnostics agree, and every diagnostic has a registered code. *)
Definition registered (d : GraphDiagnostic) : Prop :=
  ∃ e, e ∈ graph_diagnostic_registry ∧ desc_code e = diag_code d ∧ desc_severity e = diag_severity d ∧
    diag_suggested_fix d = desc_suggested_fix e ∧ diag_category d = desc_category e.
Record well_reported (r : GraphValidationResult) : Prop := {
  wr_ok : gv_ok r = true ↔ gv_errors r = [];
  wr_errors : gv_errors r = diag_message <$> filter (fun d => diag_severity d = "error") (gv_diagnostics r);
  wr_registered : Forall registered (gv_diagnostics r) }.
Record enforces (c : check) (P : Prop) : Prop := {
  en_ok : ∀ r, gv_ok (c r) = true ↔ gv_ok r = true ∧ P;
  en_reported : ∀ r, well_reported r → well_reported (c r) }.
#[global] Instance enforces_proper c : Proper (iff ==> iff) (enforces c).
Proof. intros P Q H. split; intros [H1 H2]; (split; [|done]); intros r; rewrite H1; naive_solver. Qed.

Lemma make_diagnostic_registered error : registered (make_diagnostic error) ∧
  diag_severity (make_diagnostic error) = "error" ∧ diag_message (make_diagnostic error) = error.
Proof.
  set (code := diagnostic_code_for error).
  assert (∃ d, graph_diagnostic_descriptor code = Some d ∧ desc_severity d = "error") as (d&Hd&Hs).
  { subst code. unfold diagnostic_code_for. repeat (match goal with |- context [if ?b then _ else _] => destruct b end;
      [eexists; split; [vm_compute; reflexivity|reflexivity]|]).
    eexists; split; [vm_compute; reflexivity|reflexivity]. }
  pose proof (List.find_some _ _ Hd) as [Hin Hc%str_eqb_eq]. apply list_elem_of_In in Hin.
  assert (∀ path cs es, registered (mkDiagnostic code "error" error path cs es (suggested_fix_for code)
    (graph_diagnostic_category code))) as Hr.
  { intros path cs es. exists d. unfold suggested_fix_for, graph_diagnostic_category. rewrite Hd. done. }
  unfold make_diagnostic. fold code. repeat (match goal with |- context [if ?b then _ else _] => destruct b end;
    [split; [apply Hr|done]|]). split; [apply Hr|done].
Qed.
Lemma enforces_error error : enforces (add_error error) False.
Proof.
  destruct (make_diagnostic_registered error) as (Hr&Hs&Hm).
  split; [intros r; simpl; naive_solver|]. intros r [H1 H2 H3]. split; simpl.
  - split; [done|]. by destruct (gv_errors r).
  - rewrite filter_app, fmap_app, <- H2. rewrite filter_cons_True by done. simpl. by rewrite Hm.
  - apply Forall_app. split; [done|]. by constructor.
Qed.
Lemma enforces_skip : enforces (fun r => r) True.
Proof. split; [intros r; naive_solver|done]. Qed.
Lemma enforces_note code severity message path cs es : severity ≠ "error" →
  (∃ d, graph_diagnostic_descriptor code = Some d ∧ desc_severity d = severity) →
  enforces (add_diagnostic code severity message path cs es) True.
Proof.
  intros Hs (d&Hd&<-). split; [intros r; simpl; naive_solver|]. intros r [H1 H2 H3]. split; simpl; [done| |].
  - rewrite filter_app, filter_cons_False by done. by rewrite app_nil_r.
  - apply Forall_app. split; [done|]. constructor; [|constructor]. pose proof (List.find_some _ _ Hd) as [Hin Hc%str_eqb_eq].
    exists d. split; [by apply list_elem_of_In|]. split; [done|]. split; [done|]. simpl.
    unfold suggested_fix_for, graph_diagnostic_category. by rewrite Hd.
Qed.
Lemma enforces_if (b : bool) c1 c2 P1 P2 : enforces c1 P1 → enforces c2 P2 → enforces (if b then c1 else c2) (if b then P1 else P2).
Proof. by destruct b. Qed.
Lemma enforces_error_if b error : enforces (error_if b error) (b = false).
Proof.
  destruct b; [|destruct enforces_skip as [H1 H2]; split; [intros r; naive_solver|done]].
  destruct (enforces_error error) as [H1 H2]. split; [|done]. intros r. simpl. naive_solver.
Qed.
Lemma enforces_when b c P : enforces c P → enforces (when b c) (b = true → P).
Proof.
  intros [H1 H2]. unfold when. split; intros r; destruct b; [rewrite H1; naive_solver|naive_solver|apply H2|done].
Qed.
Lemma enforces_seq c1 c2 P1 P2 : enforces c1 P1 → enforces c2 P2 → enforces (fun r => c2 (c1 r)) (P1 ∧ P2).
Proof. intros [H1 H2] [H3 H4]. split; [intros r; rewrite H3, H1; naive_solver|auto]. Qed.
Lemma enforces_nil : enforces (all_checks []) True.
Proof. exact enforces_skip. Qed.
Lemma enforces_cons c cs P Ps : enforces c P → enforces (all_checks cs) Ps → enforces (all_checks (c :: cs)) (P ∧ Ps).
Proof. intros H1 H2. exact (enforces_seq _ _ _ _ H1 H2). Qed.
Lemma enforces_each {A} (l : list A) f (P : A → Prop) :
  (∀ x, enforces (f x) (P x)) → enforces (for_each l f) (∀ x, x ∈ l → P x).
Proof.
  intros Hf. induction l as [|x l IH].
  - destruct enforces_skip as [H1 H2]. split; [|done]. intros r. simpl. split; [|by intros [? _]].
    intros ?. split; [done|by intros ? ?%elem_of_nil].
  - eapply enforces_proper; [|exact (enforces_seq _ _ _ _ (Hf x) IH)]. setoid_rewrite elem_of_cons. naive_solver.
Qed.
Lemma enforces_match {A} (o : option A) f c (P : A → Prop) Q :
  (∀ x, enforces (f x) (P x)) → enforces c Q →
  enforces (match o with Some x => f x | None => c end) (match o with Some x => P x | None => Q end).
Proof. destruct o; auto. Qed.
Lemma enforces_trivially c P : enforces c True → P → enforces c P.
Proof. intros H HP. eapply enforces_proper; [|exact H]. by split. Qed.
Ltac registered_note := apply enforces_note; [done|eexists; split; [vm_compute; reflexivity|reflexivity]].
Create HintDb enforce.
(** Relate a check to its condition, by its shape. *)
Ltac enforce :=
  lazymatch goal with
  | |- enforces (all_checks []) _ => exact enforces_nil
  | |- enforces (all_checks (_ :: _)) _ => eapply enforces_cons; [enforce|enforce]
  | |- enforces (error_if _ _) _ => exact (enforces_error_if _ _)
  | |- enforces (add_error _) _ => exact (enforces_error _)
  | |- enforces (add_warning _ _ _ _ _) _ => unfold add_warning; registered_note
  | |- enforces (add_advisory _ _ _) _ => unfold add_advisory; registered_note
  | |- enforces (when _ _) _ => eapply enforces_when; enforce
  | |- enforces (for_each _ _) _ => eapply enforces_each; intros ?; enforce
  | |- enforces (if _ then _ else _) _ => eapply enforces_if; enforce
  | |- enforces (fun r => r) _ => exact enforces_skip
  | |- _ => eauto with enforce
  end.
Ltac enforce_as := eapply enforces_proper; [|enforce].
(** An equivalence between two conjunctions of the same facts. *)
Ltac conjuncts := split; intros; destruct_and?; split_and?; auto.

(** ** The conditions *)
Definition lane_ok (l : LaneSpec) : Prop :=
  is_allowed_scheduler_type (lane_type l) = true ∧
  (0 <= lane_max_threads l ∧ 0 <= lane_queue_capacity l ∧ 0 <= lane_period_ms l ∧ 0 <= lane_tick_budget_ms l)%Z ∧
  is_allowed_lane_overflow (lane_overflow l) = true ∧ is_allowed_overrun_policy (lane_overrun_policy l) = true.
Lemma lane_checks_enforce l : enforces (lane_checks l) (lane_ok l).
Proof.
  unfold lane_checks, lane_ok. enforce_as. rewrite !negb_false_iff, !Z.ltb_ge. conjuncts.
Qed.
(** Ids that are declared once, and not before: the condition every section of a graph has to meet. *)
Definition distinct {A} (id : A → string) (ok : A → Prop) (l : list A) (seen : gset string) : Prop :=
  NoDup (id <$> l) ∧ ∀ x, x ∈ l → id x ∉ seen ∧ ok x.
Lemma distinct_nil {A} (id : A → string) ok seen : distinct id ok [] seen.
Proof. split; [constructor|by intros ? ?%elem_of_nil]. Qed.
Lemma distinct_cons {A} (id : A → string) ok x l seen :
  distinct id ok (x :: l) seen ↔ (id x ∉ seen ∧ ok x) ∧ distinct id ok l ({[id x]} ∪ seen).
Proof.
  unfold distinct. rewrite fmap_cons, NoDup_cons. setoid_rewrite elem_of_cons. setoid_rewrite not_elem_of_union.
  setoid_rewrite not_elem_of_singleton. split.
  - intros ([Hx Hn]&H). split; [by apply H; left|]. split; [done|]. intros y Hy. destruct (H y (or_intror Hy)) as [??].
    split; [split|]; [|done..]. intros Heq. apply Hx. rewrite <- Heq. by apply list_elem_of_fmap_2.
  - intros (Hx&Hn&H). split; [split; [|done]|].
    + intros (y&Heq&Hy)%list_elem_of_fmap. by destruct (H y Hy) as [[[] _] _].
    + intros y [->|Hy]; [done|]. by destruct (H y Hy) as [[_ ?] ?].
Qed.
Lemma distinct_empty {A} (id : A → string) ok l : distinct id ok l ∅ ↔ NoDup (id <$> l) ∧ ∀ x, x ∈ l → ok x.
Proof.
  unfold distinct. assert (∀ s : string, s ∉ (∅ : gset string)) as He by (intros s; apply not_elem_of_empty).
  split; intros [? H]; (split; [done|]); intros x Hx; [by destruct (H x Hx)|auto].
Qed.
Lemma declare_ids {A} (id : A → string) x l (seen : gset string) :
  list_to_set (id <$> l) ∪ ({[id x]} ∪ seen) = list_to_set (id <$> x :: l) ∪ seen.
Proof. rewrite fmap_cons, list_to_set_cons, (assoc_L (∪)), (comm_L (∪) _ {[_]}). done. Qed.

(** A declared lane. *)
Definition lane_declared (l : LaneSpec) : Prop := lane_id l ≠ EmptyString ∧ lane_ok l.
Lemma validate_lanes_spec lanes seen r : well_reported r →
  let '(ids, r') := validate_lanes lanes seen r in
  well_reported r' ∧ (gv_ok r' = true ↔ gv_ok r = true ∧ distinct lane_id lane_declared lanes seen) ∧
  (gv_ok r' = true → ids = list_to_set (lane_id <$> lanes) ∪ seen).
Proof.
  revert seen r. induction lanes as [|l lanes IH]; intros seen r W; cbn [validate_lanes].
  - split; [done|]. split; [pose proof (distinct_nil lane_id lane_declared seen); tauto|].
    intros _. by rewrite fmap_nil, list_to_set_nil, (left_id_L ∅ (∪)).
  - destruct (str_empty (lane_id l)) eqn:E.
    + apply str_empty_true in E. specialize (IH seen (add_error "lane id must not be empty" r)).
      destruct (validate_lanes lanes seen _) as [ids r']. destruct IH as (H1&H2&_); [by apply enforces_error|].
      split; [done|]. rewrite distinct_cons, H2. simpl. split; [|by intros [? _]]. split; [by intros [? _]|]. by intros (_&(_&Hne&_)&_).
    + assert (lane_id l ≠ EmptyString) as Hne by (intros Hx; by rewrite Hx in E).
      specialize (IH ({[lane_id l]} ∪ seen)
        (lane_checks l (error_if (bool_decide (lane_id l ∈ seen)) ("duplicate lane: " +:+ lane_id l) r))).
      destruct (validate_lanes lanes ({[lane_id l]} ∪ seen) _) as [ids r'].
      destruct IH as (H1&H2&H3); [apply lane_checks_enforce, enforces_error_if, W|]. split; [done|]. split.
      * rewrite distinct_cons, H2, (en_ok _ _ (lane_checks_enforce l)), (en_ok _ _ (enforces_error_if _ _)), bool_decide_eq_false.
        unfold lane_declared. tauto.
      * intros Hr. by rewrite (H3 Hr), declare_ids.
Qed.

Lemma implb_false (a b : bool) : a && b = false ↔ (a = true → b = false).
Proof. destruct a, b; naive_solver. Qed.
Lemma one_of_spec s l : one_of s l = true ↔ s ∈ l.
Proof. apply bool_decide_eq_true. Qed.
Create Rewrite HintDb enforce_rw.
#[export] Hint Rewrite negb_false_iff negb_true_iff orb_false_iff implb_false Z.ltb_ge Z.leb_gt bool_decide_eq_false bool_decide_eq_true : enforce_rw.

(** An event source the runtime implements, with what its type needs. *)
Definition source_ok (s : EventSourceSpec) : Prop :=
  is_allowed_event_source_type (source_type s) = true ∧
  (str_eqb (source_type s) "timer" = true → 0 < source_period_ms s)%Z ∧
  (str_eqb (source_type s) "message" = true → source_inputs s ≠ []).
Lemma event_source_checks_enforce c s : enforces (event_source_checks c s) (source_ok s).
Proof.
  unfold event_source_checks, source_ok. enforce_as. autorewrite with enforce_rw.
  assert (is_reserved_event_source_type (source_type s) = true → is_allowed_event_source_type (source_type s) = false) as Hr.
  { unfold is_reserved_event_source_type, is_allowed_event_source_type. rewrite one_of_spec. intros H.
    repeat (apply elem_of_cons in H as [->|H]; [reflexivity|]). by apply elem_of_nil in H. }
  destruct (is_reserved_event_source_type (source_type s)); [rewrite Hr by done|]; autorewrite with enforce_rw; conjuncts; done.
Qed.
(** A trigger policy the engine implements, with what its type needs. *)
Definition trigger_ok (c : ComponentNodeSpec) : Prop :=
  let t := trigger_policy c in
  (has_timer_event_source c = true → has_message_event_source c = false) ∧
  is_allowed_trigger_policy_type (trigger_type t) = true ∧
  (needs_inputs (trigger_type t) && has_message_event_source c = true → trigger_policy_inputs_for c ≠ []) ∧
  (0 <= batch_size t ∧ 0 <= batch_window_ms t ∧ 0 <= sync_slop_ms t ∧ 0 <= min_interval_ms t ∧ 0 <= max_latency_ms t ∧
   0 <= watermark_lateness_ms t ∧ debounce_window_ms t = 0)%Z ∧
  (str_eqb (trigger_type t) "batch" = true → 0 < batch_size t ∨ 0 < batch_window_ms t)%Z ∧
  (str_eqb (trigger_type t) "condition" = true → is_allowed_trigger_condition (trigger_condition t) = true) ∧
  (str_eqb (trigger_type t) "rate_limit" = true → 0 < min_interval_ms t)%Z.
Lemma trigger_checks_enforce c : enforces (trigger_checks c) (trigger_ok c).
Proof.
  unfold trigger_checks, trigger_ok. enforce_as. rewrite <- (andb_assoc (str_eqb _ "batch")).
  autorewrite with enforce_rw. rewrite Z.leb_le.
  set (t := trigger_policy c). assert (∀ a b : Z, ((a <= 0 → 0 < b) ↔ 0 < a ∨ 0 < b)%Z) as -> by (intros; lia).
  split; intros; destruct_and?; split_and?; auto; lia.
Qed.
Definition component_ok (lanes : gset string) (c : ComponentNodeSpec) : Prop :=
  comp_type c ≠ EmptyString ∧ exec_lane (execution c) ∈ lanes ∧
  is_allowed_runtime_priority (exec_priority (execution c)) = true ∧ exec_on_error (execution c) = "fail_fast" ∧
  event_sources c ≠ [] ∧ (∀ s, s ∈ event_sources c → source_ok s) ∧ trigger_ok c.
Lemma str_empty_false s : str_empty s = false ↔ s ≠ EmptyString.
Proof. destruct s; simpl; split; congruence. Qed.
Lemma dec_not_not {P : Prop} `{!Decision P} : ¬ ¬ P ↔ P.
Proof. split; [apply dec_stable|auto]. Qed.
Lemma component_checks_enforce lanes c : enforces (component_checks lanes c) (component_ok lanes c).
Proof.
  unfold component_checks, component_ok. enforce_as; [|apply event_source_checks_enforce|apply trigger_checks_enforce].
  rewrite str_empty_false. autorewrite with enforce_rw. rewrite str_eqb_eq, dec_not_not. conjuncts.
Qed.

(** ** Descriptors and the component scan *)
Section registry_facts.
Context (stod : string → option (Double * nat)) {F : Type} (registry : option (ComponentRegistry F))
  (probe : F → string + ComponentDescriptor).

(** The configured value of a field is of its kind and within its bounds. *)
Definition value_ok (field : ConfigFieldSpec) (value : string) : Prop :=
  match field_kind field with
  | kString => field_enum_values field ≠ [] → value ∈ field_enum_values field
  | kBool => value = "true" ∨ value = "false"
  | kind => ∃ d, parse_double stod value = Some d ∧
      (match kind with
       | kInt => is_finite d = true ∧ is_integral d = true ∧ double_lt d (of_int int_min) = false ∧
                 double_lt (of_int int_max) d = false
       | _ => True end) ∧
      (∀ m, field_min_value field = Some m → double_lt d m = false) ∧
      (∀ m, field_max_value field = Some m → double_lt m d = false)
  end.
Definition field_ok (c : ComponentNodeSpec) (field : ConfigFieldSpec) : Prop :=
  match config_values (comp_config c) !! field_name field with
  | None => field_required field = false
  | Some value => (config_is_nested (comp_config c) (field_name field) = true → field_allow_nested field = true) ∧
                  value_ok field value
  end.
Lemma bound_check (o : option Double) (f : Double → bool) :
  match o with Some m => f m | None => false end = false ↔ ∀ m, o = Some m → f m = false.
Proof. destruct o; naive_solver. Qed.
Lemma numeric_checks kind field value prefix : kind = kInt ∨ kind = kDouble →
  enforces (match parse_double stod value with
            | None => add_error (prefix +:+ " must be " +:+ config_kind_name kind)
            | Some numeric => all_checks
                [ when (match kind with kInt => true | _ => false end)
                    (error_if (negb (is_finite numeric) || double_lt numeric (of_int int_min) ||
                               double_lt (of_int int_max) numeric || negb (is_integral numeric)) (prefix +:+ " must be int"));
                  error_if (match field_min_value field with Some m => double_lt numeric m | None => false end)
                    (prefix +:+ " is below minimum");
                  error_if (match field_max_value field with Some m => double_lt m numeric | None => false end)
                    (prefix +:+ " is above maximum") ]
            end)
    (∃ d, parse_double stod value = Some d ∧
      (match kind with
       | kInt => is_finite d = true ∧ is_integral d = true ∧ double_lt d (of_int int_min) = false ∧
                 double_lt (of_int int_max) d = false
       | _ => True end) ∧
      (∀ m, field_min_value field = Some m → double_lt d m = false) ∧
      (∀ m, field_max_value field = Some m → double_lt m d = false)).
Proof.
  intros Hk. destruct (parse_double stod value) as [d|].
  - enforce_as. rewrite !(bound_check _ (fun m => double_lt _ m)), (bound_check _ (fun m => double_lt m _)).
    autorewrite with enforce_rw. destruct Hk as [->| ->]; split.
    + intros (d'&[= <-]&?&?&?). destruct_and?. split_and?; auto.
    + intros (H&?&?&_). destruct H as [[[? ?] ?] ?]; [done|]. exists d. split_and?; auto.
    + intros (d'&[= <-]&?&?&?). split_and?; auto. done.
    + intros (_&?&?&_). exists d. split_and?; auto.
  - enforce_as. split; [by intros (d&?&_)|done].
Qed.
Lemma validate_config_field_enforce c field : enforces (validate_config_field stod c field) (field_ok c field).
Proof.
  unfold validate_config_field, field_ok. destruct (config_values (comp_config c) !! field_name field) as [value|]; [|enforce].
  destruct (config_is_nested (comp_config c) (field_name field) && negb (field_allow_nested field)) eqn:En.
  - apply andb_true_iff in En as [En Ea]. apply negb_true_iff in Ea. enforce_as. rewrite En, Ea. naive_solver.
  - assert (config_is_nested (comp_config c) (field_name field) = true → field_allow_nested field = true) as Hn.
    { intros H. rewrite H in En. by destruct (field_allow_nested field). }
    unfold value_ok. destruct (field_kind field) eqn:Ek.
    + enforce_as. autorewrite with enforce_rw. rewrite one_of_spec. naive_solver.
    + eapply enforces_proper; [|exact (numeric_checks kInt field value _ (or_introl eq_refl))]. naive_solver.
    + eapply enforces_proper; [|exact (numeric_checks kDouble field value _ (or_intror eq_refl))]. naive_solver.
    + enforce_as. autorewrite with enforce_rw. rewrite str_eqb_eq.
      destruct (str_eqb value "true") eqn:Et; [apply str_eqb_eq in Et; naive_solver|].
      assert (value ≠ "true") by (intros ->; by rewrite str_eqb_refl in Et). naive_solver.
Qed.
Definition descriptor_ok (c : ComponentNodeSpec) (d : ComponentDescriptor) : Prop :=
  cd_type d = comp_type c ∧ (cd_lane d ≠ EmptyString → cd_lane d = exec_lane (execution c)) ∧
  boundary_roles_compatible (boundary_role c) (cd_role d) = true ∧ ∀ field, field ∈ cd_config_fields d → field_ok c field.
Lemma descriptor_checks_enforce c d : enforces (descriptor_checks stod c d) (descriptor_ok c d).
Proof.
  unfold descriptor_checks, descriptor_ok, validate_component_config. enforce_as; [|apply validate_config_field_enforce].
  autorewrite with enforce_rw. rewrite str_empty_false, !str_eqb_eq. conjuncts.
Qed.

(** The descriptor of a component, when there is a registry that knows its type and probing succeeds. *)
Definition describe (c : ComponentNodeSpec) : option ComponentDescriptor :=
  r ← registry; _ ← registry_metadata r (comp_type c);
  match probe_type probe r (comp_type c) with inl _ => None | inr d => Some d end.
Definition described_ok (c : ComponentNodeSpec) : Prop :=
  registry ≠ None → ∃ d, describe c = Some d ∧ descriptor_ok c d.
Definition declares (has : ComponentRole → bool) (c : ComponentNodeSpec) : bool :=
  has (boundary_role c) || match describe c with Some d => has (cd_role d) | None => false end.
Record scan_reported (s : ComponentScan) : Prop := { sr_reported : well_reported (cs_result s) }.

Lemma probe_component_spec c s : well_reported (cs_result s) →
  let s' := probe_component stod registry probe c s in
  well_reported (cs_result s') ∧ cs_ids s' = cs_ids s ∧ cs_has_duplicate s' = cs_has_duplicate s ∧
  (gv_ok (cs_result s') = true ↔ gv_ok (cs_result s) = true ∧ described_ok c) ∧
  (gv_ok (cs_result s') = true →
    cs_descriptors s' = match describe c with Some d => <[comp_id c := d]> (cs_descriptors s) | None => cs_descriptors s end ∧
    cs_has_input s' = cs_has_input s || match describe c with Some d => component_role_has_input (cd_role d) | None => false end ∧
    cs_has_output s' = cs_has_output s || match describe c with Some d => component_role_has_output (cd_role d) | None => false end).
Proof.
  intros W. unfold probe_component, described_ok, describe. destruct registry as [r|]; simpl.
  2: { rewrite !orb_false_r. split; [done|]. split; [done|]. split; [done|]. split; [naive_solver|done]. }
  destruct (registry_metadata r (comp_type c)) as [m|]; simpl.
  2: { split; [by apply enforces_error|]. split; [done|]. split; [done|]. split; [|done]. split; [done|].
       intros [_ H]. by destruct H as (?&?&_). }
  destruct (probe_type probe r (comp_type c)) as [e|d]; simpl.
  - split; [by apply enforces_error|]. split; [done|]. split; [done|]. split; [|done]. split; [done|].
    intros [_ H]. by destruct H as (?&?&_).
  - split; [by apply descriptor_checks_enforce|]. split; [done|]. split; [done|]. split; [|done].
    rewrite (en_ok _ _ (descriptor_checks_enforce c d)). naive_solver.
Qed.
Lemma validate_component_spec lanes c s : well_reported (cs_result s) →
  let s' := validate_component stod registry probe lanes s c in
  well_reported (cs_result s') ∧
  (gv_ok (cs_result s') = true ↔ gv_ok (cs_result s) = true ∧
     comp_id c ≠ EmptyString ∧ comp_id c ∉ cs_ids s ∧ component_ok lanes c ∧ described_ok c) ∧
  (cs_has_duplicate s' = true ↔ cs_has_duplicate s = true ∨ comp_id c ≠ EmptyString ∧ comp_id c ∈ cs_ids s) ∧
  (gv_ok (cs_result s') = true → cs_ids s' = {[comp_id c]} ∪ cs_ids s ∧
    cs_descriptors s' = match describe c with Some d => <[comp_id c := d]> (cs_descriptors s) | None => cs_descriptors s end ∧
    cs_has_input s' = cs_has_input s || declares component_role_has_input c ∧
    cs_has_output s' = cs_has_output s || declares component_role_has_output c).
Proof.
  intros W. unfold validate_component. destruct (str_empty (comp_id c)) eqn:Ee; cbv zeta.
  - apply str_empty_true in Ee. split; [by apply enforces_error|]. split; [|split; [naive_solver|done]].
    simpl. split; [done|]. by intros (_&?&_).
  - apply str_empty_false in Ee.
    set (s1 := note_role (boundary_role c) (scan_check (component_checks lanes c) (note_id (comp_id c) s))).
    assert (well_reported (cs_result s1)) as W1.
    { apply component_checks_enforce. simpl. by apply enforces_error_if. }
    destruct (probe_component_spec c s1 W1) as (H1&H2&H3&H4&H5). split; [done|]. split; [|split].
    + rewrite H4. simpl. rewrite (en_ok _ _ (component_checks_enforce lanes c)), (en_ok _ _ (enforces_error_if _ _)).
      rewrite bool_decide_eq_false. naive_solver.
    + rewrite H3. simpl. rewrite orb_true_iff, bool_decide_eq_true. naive_solver.
    + intros Hok. destruct (H5 Hok) as (->&->&->). rewrite H2. simpl. unfold declares. by rewrite !orb_assoc.
Qed.
Definition add_description (m : gmap string ComponentDescriptor) (c : ComponentNodeSpec) : gmap string ComponentDescriptor :=
  match describe c with Some d => <[comp_id c := d]> m | None => m end.
Definition component_declared (lanes : gset string) (c : ComponentNodeSpec) : Prop :=
  comp_id c ≠ EmptyString ∧ component_ok lanes c ∧ described_ok c.
Lemma validate_components_spec lanes cs s : well_reported (cs_result s) →
  let s' := fold_left (validate_component stod registry probe lanes) cs s in
  well_reported (cs_result s') ∧
  (gv_ok (cs_result s') = true ↔ gv_ok (cs_result s) = true ∧ distinct comp_id (component_declared lanes) cs (cs_ids s)) ∧
  (gv_ok (cs_result s') = true → cs_has_duplicate s = false → cs_has_duplicate s' = false) ∧
  (gv_ok (cs_result s') = true → cs_ids s' = list_to_set (comp_id <$> cs) ∪ cs_ids s ∧
    cs_descriptors s' = fold_left add_description cs (cs_descriptors s) ∧
    cs_has_input s' = cs_has_input s || existsb (declares component_role_has_input) cs ∧
    cs_has_output s' = cs_has_output s || existsb (declares component_role_has_output) cs).
Proof.
  revert s. induction cs as [|c cs IH]; intros s W; cbn [fold_left].
  - split; [done|]. split; [pose proof (distinct_nil comp_id (component_declared lanes) (cs_ids s)); tauto|].
    split; [done|]. intros _. rewrite fmap_nil, list_to_set_nil, (left_id_L ∅ (∪)). simpl. split; [done|]. by rewrite !orb_false_r.
  - destruct (validate_component_spec lanes c s W) as (W1&O1&D1&F1).
    destruct (IH _ W1) as (W2&O2&D2&F2). clear IH. cbv zeta. split; [done|].
    assert (gv_ok (cs_result (validate_component stod registry probe lanes s c)) = true →
      cs_ids (validate_component stod registry probe lanes s c) = {[comp_id c]} ∪ cs_ids s) as Hids by (intros H; apply (F1 H)).
    split; [|split].
    + rewrite O2, distinct_cons.
      assert (gv_ok (cs_result (validate_component stod registry probe lanes s c)) = true ↔
        gv_ok (cs_result s) = true ∧ comp_id c ∉ cs_ids s ∧ component_declared lanes c) as O1'
        by (rewrite O1; unfold component_declared; tauto).
      split; [intros [Hok H]; rewrite (Hids Hok) in H; tauto|]. intros (H1&H2&H3).
      assert (gv_ok (cs_result (validate_component stod registry probe lanes s c)) = true) as Hok by tauto.
      by rewrite (Hids Hok).
    + intros Hok Hd. apply D2; [done|]. apply O2 in Hok as (Hok&_). apply O1 in Hok as (_&_&?&_).
      destruct (cs_has_duplicate (validate_component _ _ _ _ _ _)) eqn:E; [|done].
      destruct (proj1 D1 eq_refl) as [?|[_ ?]]; [congruence|done].
    + intros Hok. destruct (F2 Hok) as (->&->&->&->). apply O2 in Hok as (Hok&_).
      destruct (F1 Hok) as (->&->&->&->). rewrite declare_ids. cbn [existsb fold_left]. by rewrite !orb_assoc.
Qed.
End registry_facts.

(** ** Edges *)
Definition edge_policy_ok (e : EdgeSpec) : Prop :=
  let p := edge_policy e in
  (edge_has_kind e = true ∧ edge_invalid_kind e = EmptyString) ∧ is_allowed_channel_type (policy_mode p) = true ∧
  (0 < policy_capacity p ∧ 0 <= policy_max_inflight p)%Z ∧ ((0 < policy_max_inflight p)%Z → edge_kind e = kAsync) ∧
  is_allowed_drop_policy (policy_overflow p) = true ∧
  (is_latest_style_channel_type (policy_mode p) = true → is_backpressure_drop_policy (policy_overflow p) = false) ∧
  is_timestamp_domain_value (policy_timestamp_domain p) = true ∧ is_allowed_copy_policy (policy_copy_policy p) = true ∧
  is_allowed_owner (policy_owner p) = true ∧ is_allowed_readers (policy_readers p) = true ∧
  (policy_copy_policy p = "move_only" → policy_readers p = "single").
Lemma edge_policy_checks_enforce e : enforces (edge_policy_checks e) (edge_policy_ok e).
Proof.
  unfold edge_policy_checks, edge_policy_ok. enforce_as. set (p := edge_policy e).
  assert ((if negb (edge_has_kind e) then False else negb (str_empty (edge_invalid_kind e)) = false) ↔
    edge_has_kind e = true ∧ edge_invalid_kind e = EmptyString) as ->.
  { destruct (edge_has_kind e); simpl; rewrite ?negb_false_iff, ?str_empty_true; naive_solver. }
  autorewrite with enforce_rw. rewrite !str_eqb_eq, Z.ltb_lt.
  split; intros; destruct_and?; split_and?; auto. by destruct (str_eqb (policy_overflow p) "block").
Qed.

Section edge_facts.
Context {F : Type} (registry : option (ComponentRegistry F)) (descriptors : gmap string ComponentDescriptor) (ids : gset string).
(** The ports of an edge exist in the descriptors that are known, and their contracts agree. *)
Definition ports_ok (e : EdgeSpec) : Prop :=
  let output := resolve_port registry descriptors cd_outputs (edge_from e) in
  let input := resolve_port registry descriptors cd_inputs (edge_to e) in
  output ≠ Some None ∧ input ≠ Some None ∧
  ∀ o i, output = Some (Some o) → input = Some (Some i) → port_contracts_incompatible o i = None.
Lemma is_missing_false {A} (p : option (option A)) : is_missing p = false ↔ p ≠ Some None.
Proof. destruct p as [[]|]; naive_solver. Qed.
Lemma port_checks_enforce e : enforces (port_checks registry descriptors e) (ports_ok e).
Proof.
  unfold port_checks, ports_ok.
  set (output := resolve_port registry descriptors cd_outputs (edge_from e)).
  set (input := resolve_port registry descriptors cd_inputs (edge_to e)).
  eapply enforces_proper; [|eapply enforces_cons; [enforce|eapply enforces_cons; [enforce|eapply enforces_cons;
    [|eapply enforces_cons; [|enforce]]]]].
  - rewrite !is_missing_false.
    instantiate (2 := (∀ o i, output = Some (Some o) → input = Some (Some i) → port_contracts_incompatible o i = None)).
    instantiate (1 := True). naive_solver.
  - destruct output as [[o|]|], input as [[i|]|]; try (eapply enforces_trivially; [exact enforces_skip|naive_solver]).
    destruct (port_contracts_incompatible o i) eqn:E.
    + eapply enforces_proper; [|apply enforces_error]. split; [|done]. intros H. by rewrite (H o i) in E.
    + eapply enforces_trivially; [exact enforces_skip|]. naive_solver.
  - destruct output as [[o|]|]; [|exact enforces_skip..]. enforce_as. naive_solver.
Qed.
Definition edge_ok (e : EdgeSpec) : Prop :=
  edge_policy_ok e ∧ from_component e ∈ ids ∧ to_component e ∈ ids ∧ ports_ok e.
Lemma endpoint_checks_enforce e : enforces (endpoint_checks ids e) (from_component e ∈ ids ∧ to_component e ∈ ids).
Proof.
  unfold endpoint_checks. enforce_as. autorewrite with enforce_rw. rewrite !dec_not_not. naive_solver.
Qed.
(** A producer-owned edge comes before every other edge with its source. *)
Definition producers_first (es : list EdgeSpec) : Prop :=
  ∀ l1 e l2, es = l1 ++ e :: l2 → policy_owner (edge_policy e) = "producer" → edge_from e ∉ edge_from <$> l1.
Definition is_state_to (t : string) (e : EdgeSpec) : Prop := edge_kind e = kState ∧ edge_to e = t.
#[export] Instance is_state_to_dec t e : Decision (is_state_to t e).
Proof. unfold is_state_to. apply _. Defined.

Lemma validate_edge_spec e s : well_reported (es_result s) →
  let s' := validate_edge registry ids descriptors s e in
  well_reported (es_result s') ∧
  (gv_ok (es_result s') = true ↔ gv_ok (es_result s) = true ∧ edge_id e ≠ EmptyString ∧ edge_id e ∉ es_ids s ∧ edge_ok e ∧
     (policy_owner (edge_policy e) = "producer" → edge_from e ∉ es_sources s)) ∧
  (gv_ok (es_result s') = true →
     es_ids s' = {[edge_id e]} ∪ es_ids s ∧ es_sources s' = {[edge_from e]} ∪ es_sources s ∧
     es_targets s' = {[edge_to e]} ∪ es_targets s ∧
     (∀ t, map_at 0 (es_target_counts s') t = (if decide (edge_to e = t) then 1 else 0) + map_at 0 (es_target_counts s) t) ∧
     (∀ t, map_at [] (es_state_writers s') t =
        map_at [] (es_state_writers s) t ++ (if decide (is_state_to t e) then [edge_id e] else []))).
Proof.
  intros W. unfold validate_edge. destruct (str_empty (edge_id e)) eqn:Ee; cbv zeta.
  - apply str_empty_true in Ee. split; [by apply enforces_error|]. simpl. split; [|done]. split; [done|]. by intros (_&?&_).
  - apply str_empty_false in Ee. cbn [es_result es_ids es_sources es_targets es_target_counts es_state_writers].
    match goal with |- context [all_checks ?cs] => assert (enforces (all_checks cs)
      (edge_id e ∉ es_ids s ∧ edge_ok e ∧ (policy_owner (edge_policy e) = "producer" → edge_from e ∉ es_sources s))) as H end.
    { eapply enforces_proper; [|enforce; [apply edge_policy_checks_enforce|apply endpoint_checks_enforce|apply port_checks_enforce]].
      autorewrite with enforce_rw. unfold edge_ok.
      assert ((edge_from e ∈ es_sources s → str_eqb (policy_owner (edge_policy e)) "producer" = false) ↔
        (policy_owner (edge_policy e) = "producer" → edge_from e ∉ es_sources s)) as ->; [|naive_solver].
      destruct (str_eqb (policy_owner (edge_policy e)) "producer") eqn:Eo; [apply str_eqb_eq in Eo; naive_solver|].
      assert (policy_owner (edge_policy e) ≠ "producer") by (intros Hx; by rewrite Hx in Eo). naive_solver. }
    split; [by apply H|]. split; [rewrite (en_ok _ _ H); naive_solver|]. intros _. do 3 (split; [done|]). split.
    + intros t. destruct (decide (edge_to e = t)) as [<-|?]; [by rewrite map_at_insert_eq|by rewrite map_at_insert_ne].
    + intros t. unfold is_state_to. destruct (decide (edge_kind e = kState)) as [Hk|Hk].
      * destruct (decide (edge_to e = t)) as [<-|Ht]; [rewrite map_at_insert_eq, decide_True by done; done|].
        rewrite map_at_insert_ne, decide_False by naive_solver. by rewrite app_nil_r.
      * rewrite decide_False by naive_solver. by rewrite app_nil_r.
Qed.
Lemma producers_first_cons e es sources :
  (policy_owner (edge_policy e) = "producer" → edge_from e ∉ sources) ∧
  (∀ l1 x l2, es = l1 ++ x :: l2 → policy_owner (edge_policy x) = "producer" →
     edge_from x ∉ list_to_set (edge_from <$> l1) ∪ ({[edge_from e]} ∪ sources)) ↔
  (∀ l1 x l2, e :: es = l1 ++ x :: l2 → policy_owner (edge_policy x) = "producer" →
     edge_from x ∉ (list_to_set (edge_from <$> l1) ∪ sources : gset string)).
Proof.
  split.
  - intros [H1 H2] [|y l1] x l2 [= <- Heq] Ho; [rewrite fmap_nil, list_to_set_nil, (left_id_L ∅ (∪)); auto|].
    specialize (H2 _ _ _ Heq Ho). rewrite fmap_cons, list_to_set_cons. set_solver.
  - intros H. split.
    + intros Ho. specialize (H [] e es eq_refl Ho). rewrite fmap_nil, list_to_set_nil, (left_id_L ∅ (∪)) in H. done.
    + intros l1 x l2 -> Ho. specialize (H (e :: l1) x l2 eq_refl Ho). rewrite fmap_cons, list_to_set_cons in H. set_solver.
Qed.
Lemma producers_first_start es :
  (∀ l1 e l2, es = l1 ++ e :: l2 → policy_owner (edge_policy e) = "producer" →
     edge_from e ∉ list_to_set (edge_from <$> l1) ∪ (∅ : gset string)) ↔ producers_first es.
Proof.
  unfold producers_first. split; intros H l1 e l2 Heq Ho; specialize (H l1 e l2 Heq Ho);
    rewrite (right_id_L ∅ (∪)), elem_of_list_to_set in *; done.
Qed.
Definition edge_declared (e : EdgeSpec) : Prop := edge_id e ≠ EmptyString ∧ edge_ok e.
Lemma validate_edges_spec es s : well_reported (es_result s) →
  let s' := fold_left (validate_edge registry ids descriptors) es s in
  well_reported (es_result s') ∧
  (gv_ok (es_result s') = true ↔ gv_ok (es_result s) = true ∧ distinct edge_id edge_declared es (es_ids s) ∧
     ∀ l1 e l2, es = l1 ++ e :: l2 → policy_owner (edge_policy e) = "producer" →
       edge_from e ∉ list_to_set (edge_from <$> l1) ∪ es_sources s) ∧
  (gv_ok (es_result s') = true →
     es_ids s' = list_to_set (edge_id <$> es) ∪ es_ids s ∧ es_targets s' = list_to_set (edge_to <$> es) ∪ es_targets s ∧
     (∀ t, map_at 0 (es_target_counts s') t = occ t (edge_to <$> es) + map_at 0 (es_target_counts s) t) ∧
     (∀ t, map_at [] (es_state_writers s') t = map_at [] (es_state_writers s) t ++ (edge_id <$> filter (is_state_to t) es))).
Proof.
  revert s. induction es as [|e es IH]; intros s W; cbn [fold_left].
  - split; [done|]. split.
    + pose proof (distinct_nil edge_id edge_declared (es_ids s)). split; [|by intros [? _]]. intros ?.
      split; [done|]. split; [done|]. intros l1 x l2 Heq. by destruct l1.
    + intros _. rewrite !fmap_nil, !list_to_set_nil, !(left_id_L ∅ (∪)). split; [done|]. split; [done|].
      split; [done|]. intros t. by rewrite app_nil_r.
  - destruct (validate_edge_spec e s W) as (W1&O1&F1). destruct (IH _ W1) as (W2&O2&F2). clear IH. cbv zeta.
    split; [done|]. split.
    + rewrite O2, distinct_cons, <- producers_first_cons.
      assert (gv_ok (es_result (validate_edge registry ids descriptors s e)) = true ↔ gv_ok (es_result s) = true ∧
        (edge_id e ∉ es_ids s ∧ edge_declared e) ∧ (policy_owner (edge_policy e) = "producer" → edge_from e ∉ es_sources s))
        as O1' by (rewrite O1; unfold edge_declared; tauto).
      split; [intros [Hok H]; destruct (F1 Hok) as (Hi&Hs&_); rewrite Hi, Hs in H; tauto|]. intros (H1&H2&H3&H4).
      assert (gv_ok (es_result (validate_edge registry ids descriptors s e)) = true) as Hok by tauto.
      destruct (F1 Hok) as (->&->&_). tauto.
    + intros Hok. destruct (F2 Hok) as (->&->&Hc&Hw). apply O2 in Hok as (Hok&_).
      destruct (F1 Hok) as (->&_&->&Hc1&Hw1). rewrite !declare_ids. split; [done|]. split; [done|]. split.
      * intros t. rewrite Hc, Hc1, fmap_cons, occ_cons. lia.
      * intros t. rewrite Hw, Hw1, <- (assoc_L (++)). f_equal.
        destruct (decide (is_state_to t e)); [by rewrite filter_cons_True|by rewrite filter_cons_False].
Qed.
End edge_facts.

(** ** Inputs, loops and subgraphs *)
Definition input_ok (counts : string → nat) (c : ComponentNodeSpec) (input : PortDescriptor) : Prop :=
  let incoming := counts (comp_id c +:+ "." +:+ port_name input) in
  port_name input = EmptyString ∨
  ((incoming = 0 → port_required input = false) ∧ (port_multiplicity input = kSingle → incoming <= 1)).
Lemma input_checks_enforce counts c input : enforces (input_checks counts c input) (input_ok (map_at 0 counts) c input).
Proof.
  unfold input_checks, input_ok. set (n := map_at 0 counts _).
  destruct (str_empty (port_name input)) eqn:Ee.
  { apply str_empty_true in Ee. eapply enforces_trivially; [exact enforces_skip|by left]. }
  apply str_empty_false in Ee. destruct (Nat.eqb_spec n 0) as [->|Hn].
  - destruct (port_required input).
    + eapply enforces_proper; [|apply enforces_error]. split; [|done]. intros [?|[H _]]; [done|]. by specialize (H eq_refl).
    + eapply enforces_trivially; [enforce|]. right. split; [done|lia].
  - enforce_as. destruct (port_multiplicity input); rewrite ?Nat.ltb_ge; split.
    + intros [?|[_ H]]; [done|auto].
    + intros H. right. split; [lia|auto].
    + done.
    + intros _. by right.
Qed.
Definition loop_policy_ok (l : CompositeLoopSpec) : Prop :=
  let p := loop_policy l in
  is_allowed_loop_policy_type (loop_type p) = true ∧
  (0 <= loop_budget_ms p ∧ 0 <= loop_max_iterations p ∧ 0 <= loop_max_inflight p ∧ 0 <= loop_min_interval_ms p)%Z ∧
  (∀ q, loop_residual_threshold p = Some q → q_negative q = false) ∧
  is_allowed_loop_convergence (loop_convergence p) = true ∧
  is_allowed_loop_partial_success (loop_partial_success p) = true.
Lemma loop_policy_checks_enforce l : enforces (loop_policy_checks l) (loop_policy_ok l).
Proof.
  unfold loop_policy_checks, loop_policy_ok. enforce_as. autorewrite with enforce_rw.
  assert ((match loop_residual_threshold (loop_policy l) with Some q => q_negative q | None => false end = false) ↔
    ∀ q, loop_residual_threshold (loop_policy l) = Some q → q_negative q = false) as ->
    by (destruct (loop_residual_threshold _); naive_solver).
  conjuncts.
Qed.
Definition hierarchy_ok (ids edges loops : gset string) (h : GraphHierarchyEntry) : Prop :=
  (∀ x, x ∈ hier_components h → x ∈ ids) ∧ (∀ x, x ∈ hier_edges h → x ∈ edges) ∧
  (∀ x, x ∈ hier_composite_loops h → x ∈ loops).
Lemma missing_checks_enforce id what names known :
  enforces (missing_checks id what names known) (∀ x, x ∈ names → x ∈ known).
Proof.
  unfold missing_checks. eapply enforces_proper; [|enforce].
  split; intros H x Hx; specialize (H x Hx); [by apply bool_decide_eq_false, dec_not_not|]. apply bool_decide_eq_false in H. by apply dec_stable in H.
Qed.
Definition hierarchy_declared (ids edges loops : gset string) (h : GraphHierarchyEntry) : Prop :=
  hier_id h ≠ EmptyString ∧ hierarchy_ok ids edges loops h.
Lemma validate_hierarchy_enforce ids edges loops hs seen :
  enforces (validate_hierarchy ids edges loops hs seen) (distinct hier_id (hierarchy_declared ids edges loops) hs seen).
Proof.
  revert seen. induction hs as [|h hs IH]; intros seen.
  - eapply enforces_trivially; [exact enforces_skip|apply distinct_nil].
  - rewrite distinct_cons. cbn [validate_hierarchy]. destruct (str_empty (hier_id h)) eqn:Ee.
    + apply str_empty_true in Ee. eapply enforces_proper; [|exact (enforces_seq _ _ _ _ (enforces_error _) (IH seen))].
      split; [|by intros [[] _]]. by intros ((_&Hne&_)&_).
    + apply str_empty_false in Ee.
      match goal with |- context [all_checks ?cs] => assert (enforces (all_checks cs)
        (hier_id h ∉ seen ∧ hierarchy_declared ids edges loops h)) as Hc end.
      { eapply enforces_proper; [|enforce; apply missing_checks_enforce]. rewrite bool_decide_eq_false.
        unfold hierarchy_declared, hierarchy_ok. pose proof (dec_not_not (P := hier_id h ∈ seen)). tauto. }
      exact (enforces_seq _ _ _ _ Hc (IH _)).
Qed.
Definition header_ok (graph : GraphSpec) : Prop :=
  graph_schema_version graph = kTopoExecSchemaVersion ∧ graph_name graph ≠ EmptyString ∧
  (graph_kind graph = "runnable" ∨ graph_kind graph = "internal_test") ∧
  clock_runtime_domain (graph_clock graph) = "steady" ∧
  is_timestamp_domain_value (clock_event_domain (graph_clock graph)) = true.
Lemma header_checks_enforce graph : enforces (header_checks graph) (header_ok graph).
Proof.
  unfold header_checks, header_ok. enforce_as.
  assert ((if str_empty (graph_kind graph) then False else negb (one_of (graph_kind graph) ["runnable"; "internal_test"]) = false) ↔
    graph_kind graph = "runnable" ∨ graph_kind graph = "internal_test") as ->.
  { destruct (str_empty (graph_kind graph)) eqn:E; [apply str_empty_true in E as ->; naive_solver|].
    rewrite negb_false_iff, one_of_spec, !elem_of_cons, elem_of_nil. naive_solver. }
  rewrite str_empty_false. autorewrite with enforce_rw. rewrite str_eqb_eq, Z.eqb_eq. conjuncts.
Qed.
(** The compiler's flag and its errors agree. *)
Definition compile_reported (r : GraphCompileResult) : Prop := cr_ok r = true ↔ cr_errors r = [].
Lemma compile_error_reported e r : compile_reported (compile_error e r).
Proof. unfold compile_reported. simpl. split; [done|]. by destruct (cr_errors r). Qed.
Lemma compile_error_if_reported b e r : compile_reported r → compile_reported (compile_error_if b e r).
Proof. destruct b; [intros _; apply compile_error_reported|done]. Qed.
Lemma check_loop_components_reported known id cs listed owners r : compile_reported r →
  compile_reported (snd (check_loop_components known id cs listed owners r)).
Proof.
  revert listed owners r. induction cs as [|c cs IH]; intros listed owners r W; cbn [check_loop_components]; [done|].
  destruct (bool_decide (c ∉ known)); [apply IH, compile_error_reported|].
  destruct (owners !! c) as [owner|]; [destruct (str_eqb owner id)|]; apply IH;
    first [by apply compile_error_if_reported | apply compile_error_reported].
Qed.
Lemma check_loops_reported known ls ids owners r : compile_reported r → compile_reported (check_loops known ls ids owners r).
Proof.
  revert ids owners r. induction ls as [|l ls IH]; intros ids owners r W; simpl; [done|].
  destruct (str_empty _); [apply IH, compile_error_reported|].
  match goal with |- context [check_loop_components known ?i ?c ?s ?o ?x] =>
    pose proof (check_loop_components_reported known i c s o x (compile_error_if_reported _ _ _ W)) as H;
    destruct (check_loop_components known i c s o x) as [o' r'] end.
  by apply IH.
Qed.
Lemma fold_reported {A} (f : GraphCompileResult → A → GraphCompileResult) l r :
  (∀ r x, compile_reported r → compile_reported (f r x)) → compile_reported r → compile_reported (fold_left f l r).
Proof. intros Hf. revert r. induction l as [|x l IH]; intros r W; simpl; auto. Qed.
Lemma compile_graph_reported fuel graph r : compile_graph fuel graph = Some r → compile_reported r.
Proof.
  unfold compile_graph. destruct (graph_sccs graph) as [sccs|]; [|done]. cbn [mbind option_bind]. cbv zeta.
  destruct (region_loop _ _ _ _ _ _) as [order|]; [|done]. cbn [mbind option_bind]. intros [= <-].
  apply compile_error_if_reported, fold_reported; [intros; by apply compile_error_if_reported|].
  apply fold_reported; [|by apply check_loops_reported].
  intros r' scc W. unfold check_region. destruct (matching_loop graph scc); by apply compile_error_if_reported.
Qed.
Lemma enforces_errors errors : enforces (for_each errors add_error) (errors = []).
Proof.
  eapply enforces_proper; [|apply enforces_each; intros ?; apply enforces_error].
  split; [intros -> ? H; by apply elem_of_nil in H|]. destruct errors as [|e errors]; [done|]. intros H. destruct (H e). left.
Qed.
Lemma enforces_plan plan : enforces (set_plan plan) True.
Proof. split; [intros r; simpl; naive_solver|]. by intros r []. Qed.

(** ** Accepted graphs *)
Section accepted.
Context (stod : string → option (Double * nat)) {F : Type} (registry : option (ComponentRegistry F))
  (probe : F → string + ComponentDescriptor).
Definition graph_descriptors (graph : GraphSpec) : gmap string ComponentDescriptor :=
  fold_left (add_description registry probe) (graph_components graph) ∅.
Definition lane_ids (graph : GraphSpec) : gset string := list_to_set (lane_id <$> graph_lanes graph).
Definition all_component_ids (graph : GraphSpec) : gset string := list_to_set (comp_id <$> graph_components graph).
Record graph_valid (graph : GraphSpec) : Prop := {
  gva_header : header_ok graph;
  gva_lanes : NoDup (lane_id <$> graph_lanes graph) ∧ ∀ l, l ∈ graph_lanes graph → lane_declared l;
  gva_components : NoDup (comp_id <$> graph_components graph) ∧ ∀ c, c ∈ graph_components graph →
    component_declared stod registry probe (lane_ids graph) c;
  gva_boundaries : registry ≠ None → graph_kind graph = "runnable" →
    existsb (declares registry probe component_role_has_input) (graph_components graph) = true ∧
    existsb (declares registry probe component_role_has_output) (graph_components graph) = true;
  gva_lifecycle : dependencies_resolved (graph_components graph) ∧ ∃ l, dependency_order (graph_components graph) l;
  gva_edges : NoDup (edge_id <$> graph_edges graph) ∧ ∀ e, e ∈ graph_edges graph →
    edge_declared registry (graph_descriptors graph) (all_component_ids graph) e;
  gva_producers : producers_first (graph_edges graph);
  gva_state_writers : ∀ t, length (filter (is_state_to t) (graph_edges graph)) <= 1;
  gva_inputs : ∀ c d, c ∈ graph_components graph → graph_descriptors graph !! comp_id c = Some d →
    ∀ input, input ∈ cd_inputs d → input_ok (fun t => occ t (edge_to <$> graph_edges graph)) c input;
  gva_triggers : ∀ c input, c ∈ graph_components graph → input ∈ trigger_policy_inputs_for c →
    comp_id c +:+ "." +:+ input ∈ edge_to <$> graph_edges graph;
  gva_loop_policies : ∀ l, l ∈ graph_composite_loops graph → loop_policy_ok l;
  gva_hierarchy : NoDup (hier_id <$> graph_hierarchy graph) ∧ ∀ h, h ∈ graph_hierarchy graph →
    hierarchy_declared (all_component_ids graph) (list_to_set (edge_id <$> graph_edges graph))
      (list_to_set (loop_id <$> graph_composite_loops graph)) h;
  gva_cycles : loops_exact graph }.

Lemma map_at_empty {A} (d : A) (t : string) : map_at d (∅ : gmap string A) t = d.
Proof. unfold map_at. by rewrite lookup_empty. Qed.
Lemma input_ok_ext f g c input : (∀ t, f t = g t) → input_ok f c input → input_ok g c input.
Proof. intros H. unfold input_ok. by rewrite H. Qed.
Lemma boundary_checks_enforce graph s : enforces (boundary_checks registry graph s)
  (registry ≠ None → graph_kind graph = "runnable" → cs_has_input s = true ∧ cs_has_output s = true).
Proof.
  unfold boundary_checks. enforce_as. rewrite !negb_false_iff. destruct registry; [rewrite str_eqb_eq|]; split.
  - intros H Hk. destruct H as [? ?]; [done..|]. done.
  - intros H _ Hk. destruct H as (?&?&_); done.
  - done.
  - intros _ H. done.
Qed.
Lemma state_writer_checks_enforce writers :
  enforces (state_writer_checks writers) (∀ t, length (map_at [] writers t) <= 1).
Proof.
  unfold state_writer_checks. eapply enforces_proper.
  2: { apply (enforces_each _ _ (fun p : string * list string => length p.2 <= 1)). intros [t ids].
       eapply enforces_proper; [|apply enforces_error_if]. by rewrite Nat.ltb_ge. }
  split.
  - intros H [t ids] Hin. apply elem_of_map_items in Hin. specialize (H t). unfold map_at in H. by rewrite Hin in H.
  - intros H t. unfold map_at. destruct (writers !! t) as [ids|] eqn:E; simpl; [|lia].
    apply (H (t, ids)). by apply elem_of_map_items.
Qed.
Lemma descriptor_input_checks_enforce descriptors counts c :
  enforces (descriptor_input_checks descriptors counts c)
    (∀ d, descriptors !! comp_id c = Some d → ∀ input, input ∈ cd_inputs d → input_ok (map_at 0 counts) c input).
Proof.
  unfold descriptor_input_checks. destruct (descriptors !! comp_id c) as [d|].
  - eapply enforces_proper; [|apply enforces_each; intros ?; apply input_checks_enforce]. naive_solver.
  - eapply enforces_trivially; [exact enforces_skip|done].
Qed.
Lemma trigger_input_checks_enforce targets c : enforces (trigger_input_checks targets c)
  (∀ input, input ∈ trigger_policy_inputs_for c → comp_id c +:+ "." +:+ input ∈ targets).
Proof.
  unfold trigger_input_checks. eapply enforces_proper; [|enforce].
  split; intros H x Hx; specialize (H x Hx); [by apply bool_decide_eq_false, dec_not_not|].
  apply bool_decide_eq_false in H. by apply dec_stable in H.
Qed.
(** The conditions of the checks that follow the edges, on the locals that the edges fill in. *)
Definition rest_ok (graph : GraphSpec) (descriptors : gmap string ComponentDescriptor) (counts writers : string → nat)
    (targets ids edges : gset string) : Prop :=
  (∀ t, writers t <= 1) ∧
  (∀ c, c ∈ graph_components graph → ∀ d, descriptors !! comp_id c = Some d → ∀ input, input ∈ cd_inputs d →
     input_ok counts c input) ∧
  (∀ c, c ∈ graph_components graph → ∀ input, input ∈ trigger_policy_inputs_for c → comp_id c +:+ "." +:+ input ∈ targets) ∧
  (∀ l, l ∈ graph_composite_loops graph → loop_policy_ok l) ∧
  distinct hier_id (hierarchy_declared ids edges (list_to_set (loop_id <$> graph_composite_loops graph))) (graph_hierarchy graph) ∅ ∧
  True.
Lemma tail_checks_enforce graph descriptors counts targets writers ids edges :
  enforces (all_checks
    [ state_writer_checks writers;
      for_each (graph_components graph) (descriptor_input_checks descriptors counts);
      for_each (graph_components graph) (trigger_input_checks targets);
      for_each (graph_composite_loops graph) loop_policy_checks;
      validate_hierarchy ids edges (list_to_set (loop_id <$> graph_composite_loops graph)) (graph_hierarchy graph) ∅ ])
    (rest_ok graph descriptors (map_at 0 counts) (fun t => length (map_at [] writers t)) targets ids edges).
Proof.
  repeat apply enforces_cons; [apply state_writer_checks_enforce| | | | |exact enforces_nil].
  - apply enforces_each. intros c. apply descriptor_input_checks_enforce.
  - apply enforces_each. intros c. apply trigger_input_checks_enforce.
  - apply enforces_each. apply loop_policy_checks_enforce.
  - apply validate_hierarchy_enforce.
Qed.
Lemma rest_ok_ext graph descriptors counts counts' writers writers' targets ids edges :
  (∀ t, counts t = counts' t) → (∀ t, writers t = writers' t) →
  rest_ok graph descriptors counts writers targets ids edges → rest_ok graph descriptors counts' writers' targets ids edges.
Proof.
  intros Hc Hw (H1&H2&H). split; [intros t; by rewrite <- Hw|]. split; [|exact H].
  intros c Hcc d Hd input Hi. eapply input_ok_ext; [exact Hc|]. by eapply H2.
Qed.

(** The sections before the edges: after them the locals describe the graph. *)
Definition sections_ok (graph : GraphSpec) : Prop :=
  header_ok graph ∧ distinct lane_id lane_declared (graph_lanes graph) ∅ ∧
  distinct comp_id (component_declared stod registry probe (lane_ids graph)) (graph_components graph) ∅.
Definition validate_sections (graph : GraphSpec) : ComponentScan :=
  let '(lanes, r) := validate_lanes (graph_lanes graph) ∅ (header_checks graph empty_validation) in
  fold_left (validate_component stod registry probe lanes) (graph_components graph) (mkComponentScan ∅ ∅ false false false r).
Lemma sections_spec graph : let s := validate_sections graph in
  well_reported (cs_result s) ∧ (gv_ok (cs_result s) = true ↔ sections_ok graph) ∧
  (gv_ok (cs_result s) = true → cs_has_duplicate s = false ∧ cs_ids s = all_component_ids graph ∧
     cs_descriptors s = graph_descriptors graph ∧
     cs_has_input s = existsb (declares registry probe component_role_has_input) (graph_components graph) ∧
     cs_has_output s = existsb (declares registry probe component_role_has_output) (graph_components graph)).
Proof.
  unfold validate_sections, sections_ok.
  assert (well_reported (header_checks graph empty_validation)) as W0.
  { apply header_checks_enforce. split; simpl; [done|done|constructor]. }
  pose proof (en_ok _ _ (header_checks_enforce graph) empty_validation) as O0.
  pose proof (validate_lanes_spec (graph_lanes graph) ∅ _ W0) as Hl.
  destruct (validate_lanes (graph_lanes graph) ∅ (header_checks graph empty_validation)) as [lanes r1].
  destruct Hl as (W1&O1&Elanes). rewrite (right_id_L ∅ (∪)) in Elanes.
  destruct (validate_components_spec stod registry probe lanes (graph_components graph) (mkComponentScan ∅ ∅ false false false r1) W1)
    as (W2&O2&D2&F2). cbv zeta. split; [exact W2|]. cbn [cs_result cs_ids cs_descriptors cs_has_input cs_has_output orb] in O2, F2.
  rewrite (right_id_L ∅ (∪)) in F2. split.
  - rewrite O2. split.
    + intros [Hr H]. rewrite (Elanes Hr) in H. split; [apply O0, O1, Hr|]. split; [apply O1, Hr|exact H].
    + intros (Hh&Hl&H). assert (gv_ok r1 = true) as Hr by (apply O1; split; [by apply O0|done]).
      split; [done|]. by rewrite (Elanes Hr).
  - intros Hok. split; [by apply D2|]. exact (F2 Hok).
Qed.
Lemma compile_checks_spec fuel graph sccs s r :
  graph_sccs graph = Some sccs → NoDup (region_ids graph sccs) → length sccs <= fuel → well_reported r →
  ∃ r', compile_checks fuel graph s r = Some r' ∧ well_reported r' ∧
    (gv_ok r' = true ↔ gv_ok r = true ∧ (cs_has_duplicate s = false → loops_exact graph)).
Proof.
  intros Hs Hn Hf W. unfold compile_checks. destruct (cs_has_duplicate s).
  { exists r. split; [done|]. split; [done|]. split; [by intros ?|by intros [? _]]. }
  destruct (compile_accepts graph fuel sccs Hs Hn Hf) as (compiled&Hc&Oc). rewrite Hc. cbn [mbind option_bind].
  pose proof (enforces_seq _ _ _ _ (enforces_plan (cr_plan compiled)) (enforces_errors (cr_errors compiled))) as H.
  eexists. split; [done|]. split; [by apply H|].
  assert (cr_errors compiled = [] ↔ loops_exact graph) as Ec by (rewrite <- Oc; symmetry; exact (compile_graph_reported _ _ _ Hc)).
  rewrite (en_ok _ _ H), Ec. tauto.
Qed.
(** The contract, in the order of the checks. *)
Definition boundaries_declared (graph : GraphSpec) : Prop := registry ≠ None → graph_kind graph = "runnable" →
  existsb (declares registry probe component_role_has_input) (graph_components graph) = true ∧
  existsb (declares registry probe component_role_has_output) (graph_components graph) = true.
Definition lifecycle_ordered (graph : GraphSpec) : Prop :=
  dependencies_resolved (graph_components graph) ∧ ∃ l, dependency_order (graph_components graph) l.
Definition edges_ok (graph : GraphSpec) : Prop :=
  distinct edge_id (edge_declared registry (graph_descriptors graph) (all_component_ids graph)) (graph_edges graph) ∅ ∧
  producers_first (graph_edges graph).
Lemma graph_valid_unfold graph : graph_valid graph ↔
  sections_ok graph ∧ boundaries_declared graph ∧ lifecycle_ordered graph ∧ edges_ok graph ∧
  rest_ok graph (graph_descriptors graph) (fun t => occ t (edge_to <$> graph_edges graph))
    (fun t => length (filter (is_state_to t) (graph_edges graph))) (list_to_set (edge_to <$> graph_edges graph))
    (all_component_ids graph) (list_to_set (edge_id <$> graph_edges graph)) ∧
  loops_exact graph.
Proof.
  unfold sections_ok, boundaries_declared, lifecycle_ordered, edges_ok, rest_ok. rewrite !distinct_empty.
  setoid_rewrite elem_of_list_to_set. split.
  - intros []. destruct_and?; split_and?; eauto.
  - intros ((?&?&?)&?&?&(?&?)&(?&?&?&?&?&_)&?). split; eauto.
Qed.
Lemma and_under (A B C : Prop) : (A → (B ↔ C)) → (A ∧ B ↔ A ∧ C).
Proof. tauto. Qed.

Lemma validation_spec fuel graph sccs :
  graph_sccs graph = Some sccs → NoDup (region_ids graph sccs) → length sccs <= fuel →
  ∃ r, validate_graph stod registry probe fuel graph = Some r ∧ well_reported r ∧ (gv_ok r = true ↔ graph_valid graph).
Proof.
  intros Hs Hn Hf. destruct (sections_spec graph) as (W2&O2&F2). unfold validate_graph, validate_sections in *.
  destruct (validate_lanes (graph_lanes graph) ∅ (header_checks graph empty_validation)) as [lanes r1].
  set (s := fold_left (validate_component stod registry probe lanes) (graph_components graph) _) in *.
  destruct (compute_order_spec graph) as (lo&Hlo&_&Olo&Elo). rewrite Hlo. cbn [mbind option_bind]. cbv zeta.
  pose proof (enforces_seq _ _ _ _ (enforces_errors (lo_errors lo)) (boundary_checks_enforce graph s)) as H3.
  destruct (validate_edges_spec registry (cs_descriptors s) (cs_ids s) (graph_edges graph) (mkEdgeScan ∅ ∅ ∅ ∅ ∅
    (boundary_checks registry graph s (for_each (lo_errors lo) add_error (cs_result s)))) (en_reported _ _ H3 _ W2)) as (W4&O4&F4).
  set (e := fold_left (validate_edge registry (cs_ids s) (cs_descriptors s)) (graph_edges graph) _) in *.
  pose proof (tail_checks_enforce graph (cs_descriptors s) (es_target_counts e) (es_targets e) (es_state_writers e) (cs_ids s)
    (es_ids e)) as H5.
  destruct (compile_checks_spec fuel graph sccs s _ Hs Hn Hf (en_reported _ _ H5 _ W4)) as (r&Hr&Wr&Or).
  exists r. split; [exact Hr|]. split; [exact Wr|]. clear Hr.
  rewrite Or, (en_ok _ _ H5), graph_valid_unfold.
  assert (gv_ok (es_result e) = true ↔ sections_ok graph ∧ boundaries_declared graph ∧ lifecycle_ordered graph ∧ edges_ok graph) as Oe.
  { rewrite O4. cbn [es_result es_ids es_sources]. rewrite (en_ok _ _ H3), O2, !Logic.and_assoc. apply and_under. intros Hsec.
    apply O2, F2 in Hsec as (_&->&->&->&->). rewrite producers_first_start. unfold lifecycle_ordered.
    rewrite <- Elo, Olo. unfold boundaries_declared, edges_ok. tauto. }
  assert (gv_ok (es_result e) = true → cs_has_duplicate s = false ∧ cs_ids s = all_component_ids graph ∧
    cs_descriptors s = graph_descriptors graph) as Fs.
  { intros Hsec%Oe. destruct Hsec as [Hsec _]. apply O2, F2 in Hsec. tauto. }
  cbn [es_ids es_targets es_target_counts es_state_writers] in F4. rewrite !(right_id_L ∅ (∪)) in F4.
  split.
  - intros [[Hok Ht] Hc]. destruct (Fs Hok) as (Hd&Hi&Hde), (F4 Hok) as (Ei&Et&Ec&Ew). rewrite Hi, Hde, Ei, Et in Ht.
    apply Oe in Hok. destruct Hok as (?&?&?&?). do 4 (split; [done|]). split; [|by apply Hc]. revert Ht. apply rest_ok_ext.
    + intros t. by rewrite Ec, map_at_empty, Nat.add_0_r.
    + intros t. by rewrite Ew, map_at_empty, length_app, length_fmap.
  - intros (?&?&?&?&Ht&Hc). assert (gv_ok (es_result e) = true) as Hok by (by apply Oe).
    destruct (Fs Hok) as (Hd&Hi&Hde), (F4 Hok) as (Ei&Et&Ec&Ew). split; [split; [done|]|done]. rewrite Hi, Hde, Ei, Et.
    revert Ht. apply rest_ok_ext.
    + intros t. by rewrite Ec, map_at_empty, Nat.add_0_r.
    + intros t. by rewrite Ew, map_at_empty, length_app, length_fmap.
Qed.
(** C1. Validation returns for every graph whose region ids are distinct, with the fuel of the compiler: the flag, the
    errors and the diagnostics of the result agree, every diagnostic carries a registered code, and the graph is
    accepted exactly when it satisfies [graph_valid].  (Without distinct region ids the compiler that the validator runs may not come
    back, CompileFacts.clashing_region_ids_diverge.) *)
Theorem validation_exact fuel graph sccs :
  graph_sccs graph = Some sccs → NoDup (region_ids graph sccs) → length sccs <= fuel →
  ∃ r, validate_graph stod registry probe fuel graph = Some r ∧ well_reported r ∧ (gv_ok r = true ↔ graph_valid graph).
Proof. apply validation_spec. Qed.
End accepted.

(** ** Concrete validations *)
Definition no_stod : string → option (Double * nat) := fun _ => None.
Definition no_probe : unit → string + ComponentDescriptor := fun _ => inl EmptyString.
Definition validate_structure (fuel : nat) (graph : GraphSpec) : option GraphValidationResult :=
  validate_graph no_stod None no_probe fuel graph.
Lemma validation_exact_witness :
  ∃ r, validate_structure 3 loop_graph = Some r ∧ gv_ok r = true ∧ graph_valid no_stod None no_probe loop_graph.
Proof.
  assert (graph_sccs loop_graph = Some loop_sccs) as Hs by (vm_compute; reflexivity).
  assert (NoDup (region_ids loop_graph loop_sccs)) as Hn by (apply (bool_decide_unpack _); vm_compute; exact I).
  destruct (validation_exact no_stod None no_probe 3 loop_graph loop_sccs Hs Hn) as (r&Hr&_&Ho); [simpl; lia|].
  assert (Some (gv_ok r) = Some true) as [= Hok].
  { change (Some (gv_ok r)) with (gv_ok <$> Some r). rewrite <- Hr. vm_compute. reflexivity. }
  exists r. split; [exact Hr|]. split; [exact Hok|]. apply Ho. exact Hok.
Defined.

Definition with_owner (owner : string) (e : EdgeSpec) : EdgeSpec :=
  let p := edge_policy e in
  mkEdge (edge_id e) (edge_from e) (edge_to e) (edge_kind e) (edge_has_kind e) (edge_invalid_kind e)
    (mkEdgePolicy (policy_mode p) (policy_capacity p) (policy_overflow p) (policy_lifespan_ms p) (policy_deadline_ms p)
       (policy_max_inflight p) (policy_preserve_order p) (policy_allow_drop p) (policy_emit_health_events p)
       (policy_timestamp_domain p) (policy_copy_policy p) owner (policy_readers p)).
Definition with_edges (edges : list EdgeSpec) (g : GraphSpec) : GraphSpec :=
  mkGraph (graph_schema_version g) (graph_name g) (graph_kind g) (graph_clock g) (graph_config g) (graph_lanes g)
    (graph_components g) edges (graph_composite_loops g) (graph_hierarchy g).
Definition fork_graph (edges : list EdgeSpec) : GraphSpec :=
  with_edges edges (demo_graph [("a", "normal"); ("b", "normal"); ("c", "normal")] [] []).
Definition owned_edge : EdgeSpec := with_owner "producer" (demo_immediate "owned" "a" "b").
Definition shared_edge : EdgeSpec := demo_immediate "shared" "a" "c".

(** The check for several producer-owned edges of one source endpoint depends on the order of the edges: one
    producer-owned edge next to one runtime-owned edge is accepted when it comes first, and rejected, as "multiple
    producer-owned edges", when it comes second. *)
Theorem producer_check_depends_on_order :
  (gv_ok <$> validate_structure 3 (fork_graph [owned_edge; shared_edge])) = Some true ∧
  (gv_errors <$> validate_structure 3 (fork_graph [shared_edge; owned_edge])) =
    Some ["source endpoint has multiple producer-owned edges: a.out"].
Proof. vm_compute. split; reflexivity. Qed.

Definition error_codes (graph : GraphSpec) : option (list (string * string)) :=
  (fun r => (fun d => (diag_code d, diag_message d)) <$> gv_diagnostics r) <$> validate_structure 9 graph.
(** Several documented diagnostic codes are not given to the errors they document, because the classifier looks for
    other phrases than the validator writes: an edge or a dependency that names a missing component, and a loop that
    is not exactly a cycle, are reported as generic errors, and an unsupported trigger type as a channel error. *)
Theorem documented_codes_not_assigned :
  error_codes (with_edges [demo_immediate "e" "a" "z"] (demo_graph [("a", "normal")] [] [])) =
    Some [("graph_validation_error", "edge e references missing target component z")] ∧
  error_codes (demo_graph [("a", "normal"); ("b", "normal")] [("a", "b")] [demo_loop "l" ["a"; "b"]]) =
    Some [("graph_validation_error",
           "composite_loop l must exactly match one immediate cyclic strongly connected component")] ∧
  error_codes (demo_graph [("a", "normal")] [] [demo_loop "l" ["a"]]) =
    Some [("graph_validation_error",
           "composite_loop l does not match an immediate cyclic strongly connected component")] ∧
  diagnostic_code_for "component a has unsupported trigger_policy.type x" = "invalid_channel_policy" ∧
  diagnostic_code_for "edge e references missing output port a.out" = "graph_validation_error".
Proof. vm_compute. repeat split. Qed.
