(* ===== verification/Metrics.v ===== *)
(** * Metrics: counters, gauges, histograms and their registry

    Models [src/metrics.cpp] and [include/topoexec/common/metrics.hpp].  Values are finite and kept as rationals; every
    operation of [double] arithmetic is rounded by [round], an argument; observations and ratios that are not finite are
    outside of the model, except for the check of the ratio. *)

From S2P Require Export Validate.
From Stdlib Require Import QArith Qround Lqa.
Local Open Scope nat_scope.

(** ** The instruments *)
Record Counter := mkCounter { counter_value : Q }.
Record Gauge := mkGauge { gauge_value : Q }.
Record Histogram := mkHistogram { histogram_values : list Q }.
Record MetricSample := mkMetricSample { ms_name : string; ms_value : Q; ms_tags : gmap string string }.
Definition gauge_set (value : Q) (g : Gauge) : Gauge := mkGauge value.
Definition histogram_observe (value : Q) (h : Histogram) : Histogram := mkHistogram (histogram_values h ++ [value]).
Definition histogram_count (h : Histogram) : nat := length (histogram_values h).
(** [std::min_element] and [std::max_element] keep the first of equal values. *)
Definition min_of (values : list Q) : Q :=
  match values with [] => 0%Q | v :: rest => fold_left (fun m x => if negb (Qle_bool m x) then x else m) rest v end.
Definition max_of (values : list Q) : Q :=
  match values with [] => 0%Q | v :: rest => fold_left (fun m x => if negb (Qle_bool x m) then x else m) rest v end.
Definition histogram_min (h : Histogram) : Q := min_of (histogram_values h).
Definition histogram_max (h : Histogram) : Q := max_of (histogram_values h).
Definition value_le (a b : Q) : Prop := Qle_bool a b = true.
#[export] Instance value_le_dec : RelDecision value_le.
Proof. intros a b. unfold value_le. apply _. Defined.
Definition sorted (values : list Q) : list Q := merge_sort value_le values.
(** The check of the ratio, for every [double]. *)
Definition ratio_refused (ratio : Double) : bool := double_lt ratio (of_int 0) || double_lt (of_int 1) ratio.

Section arithmetic.
Context (round : Q → Q).
Definition of_size (n : nat) : Q := round (inject_Z (Z.of_nat n)).
Definition counter_add (delta : Q) (c : Counter) : Counter := mkCounter (round (counter_value c + delta)).
Definition average_of (values : list Q) : Q :=
  match values with
  | [] => 0%Q
  | _ => round (fold_left (fun total x => round (total + x)) values 0%Q / of_size (length values))
  end.
Definition histogram_average (h : Histogram) : Q := average_of (histogram_values h).
(** [std::floor] and [std::ceil] of a [double], as [std::size_t]. *)
Definition lower_index (position : Q) : nat := Z.to_nat (Qfloor position).
Definition upper_index (position : Q) : nat := Z.to_nat (Qceiling position).
(** [None]: an access outside of the values. *)
Definition interpolate (values : list Q) (ratio : Q) : option Q :=
  let position := round (ratio * of_size (length values - 1)) in
  let lower := lower_index position in
  let upper := upper_index position in
  if lower =? upper then values !! lower else
  low ← values !! lower;
  high ← values !! upper;
  let fraction := round (position - of_size lower) in
  Some (round (low + round (round (high - low) * fraction))).
(** The exception, or the answer. *)
Definition percentile_of (values : list Q) (ratio : Q) : string + option Q :=
  match values with
  | [] => inr (Some 0%Q)
  | _ =>
      if ratio_refused (Finite ratio) then inl "histogram percentile ratio must be between 0 and 1"
      else inr (interpolate (sorted values) ratio)
  end.
Definition histogram_percentile (h : Histogram) (ratio : Q) : string + option Q := percentile_of (histogram_values h) ratio.

(** ** The registry *)
Record MetricRegistry := mkMetricRegistry {
  counters : gmap string Counter; gauges : gmap string Gauge; histograms : gmap string Histogram }.
(** [counters_[name]] creates what is not there. *)
Definition counter (name : string) (r : MetricRegistry) : MetricRegistry * Counter :=
  let c := map_at (mkCounter 0) (counters r) name in (mkMetricRegistry (<[name := c]> (counters r)) (gauges r) (histograms r), c).
Definition gauge (name : string) (r : MetricRegistry) : MetricRegistry * Gauge :=
  let g := map_at (mkGauge 0) (gauges r) name in (mkMetricRegistry (counters r) (<[name := g]> (gauges r)) (histograms r), g).
Definition histogram (name : string) (r : MetricRegistry) : MetricRegistry * Histogram :=
  let h := map_at (mkHistogram []) (histograms r) name in
  (mkMetricRegistry (counters r) (gauges r) (<[name := h]> (histograms r)), h).
Definition sample_of (name : string) (value : Q) : MetricSample := mkMetricSample name value ∅.
(** The ratios are literals: the nearest [double]s of 0.5, 0.95 and 0.99. *)
Definition histogram_samples (name : string) (h : Histogram) : string + option (list MetricSample) :=
  let p ratio k := match histogram_percentile h (round ratio) with
    | inl what => inl what
    | inr None => inr None
    | inr (Some v) => k v
    end in
  p (1 # 2)%Q (fun p50 => p (95 # 100)%Q (fun p95 => p (99 # 100)%Q (fun p99 =>
    inr (Some [sample_of (name +:+ ".count") (of_size (histogram_count h)); sample_of (name +:+ ".min") (histogram_min h);
      sample_of (name +:+ ".max") (histogram_max h); sample_of (name +:+ ".avg") (histogram_average h);
      sample_of (name +:+ ".p50") p50; sample_of (name +:+ ".p95") p95; sample_of (name +:+ ".p99") p99])))).
Fixpoint all_histogram_samples (l : list (string * Histogram)) : string + option (list MetricSample) :=
  match l with
  | [] => inr (Some [])
  | (name, h) :: rest =>
      match histogram_samples name h with
      | inl what => inl what
      | inr None => inr None
      | inr (Some samples) =>
          match all_histogram_samples rest with inr (Some others) => inr (Some (samples ++ others)) | other => other end
      end
  end.
Definition registry_snapshot (r : MetricRegistry) : string + option (list MetricSample) :=
  match all_histogram_samples (map_items (histograms r)) with
  | inr (Some samples) =>
      inr (Some (((fun kv => sample_of kv.1 (counter_value kv.2)) <$> map_items (counters r)) ++
                 ((fun kv => sample_of kv.1 (gauge_value kv.2)) <$> map_items (gauges r)) ++ samples))
  | other => other
  end.
End arithmetic.

(** ** Sorting *)
#[export] Instance value_le_total : Total value_le.
Proof. intros a b. unfold value_le. rewrite !Qle_bool_iff. destruct (Qlt_le_dec a b); [left; by apply Qlt_le_weak|by right]. Qed.
#[export] Instance value_le_trans : Transitive value_le.
Proof. intros a b c. unfold value_le. rewrite !Qle_bool_iff. apply Qle_trans. Qed.
Lemma sorted_perm values : sorted values ≡ₚ values.
Proof. apply merge_sort_Permutation. Qed.
Lemma sorted_length values : length (sorted values) = length values.
Proof. apply Permutation_length, sorted_perm. Qed.
Lemma values_in_order values i j a b : sorted values !! i = Some a → sorted values !! j = Some b → i <= j → (a <= b)%Q.
Proof.
  assert (StronglySorted value_le (sorted values)) as Hs by apply (StronglySorted_merge_sort value_le). revert i j.
  induction Hs as [|x l Hl IH Hx]; intros i j Hi Hj Hij; [done|]. destruct i as [|i], j as [|j]; simplify_eq/=; try lia.
  - apply Qle_refl.
  - rewrite Forall_forall in Hx. apply Qle_bool_iff, Hx. by eapply list_elem_of_lookup_2.
  - eapply IH; [done..|lia].
Qed.

(** ** Percentiles stay inside of the values *)
(** What rounding to a [double] promises: it is monotone, and integers that fit the mantissa are exact. *)
Definition max_exact : Z := 2 ^ 53.
Record rounding (round : Q → Q) : Prop := {
  rd_monotone : ∀ a b, (a <= b)%Q → (round a <= round b)%Q;
  rd_exact : ∀ z, (0 <= z <= max_exact)%Z → (round (inject_Z z) == inject_Z z)%Q }.
Section bounds.
Context (round : Q → Q) (Hround : rounding round).
Lemma round_between z a : (0 <= z <= max_exact)%Z → (0 <= a <= inject_Z z)%Q → (0 <= round a <= inject_Z z)%Q.
Proof.
  intros Hz [H1 H2]. split.
  - rewrite <- (rd_exact _ Hround 0) by (unfold max_exact; lia). by apply (rd_monotone _ Hround).
  - rewrite <- (rd_exact _ Hround z) by done. by apply (rd_monotone _ Hround).
Qed.
Lemma index_bound a n : (0 <= a <= inject_Z (Z.of_nat n))%Q → lower_index a <= upper_index a /\ upper_index a <= n.
Proof.
  intros [H1 H2]. unfold lower_index, upper_index. split.
  - apply Z2Nat.inj_le; [by apply (Qfloor_resp_le 0)|by apply (Qceiling_resp_le 0)|]. rewrite Zle_Qle.
    eapply Qle_trans; [apply Qfloor_le|apply Qle_ceiling].
  - apply Qceiling_resp_le in H2. rewrite Qceiling_Z in H2. lia.
Qed.
Lemma position_bound (values : list Q) ratio : values ≠ [] → (Z.of_nat (length values) <= max_exact)%Z → (0 <= ratio <= 1)%Q →
  (0 <= round (ratio * of_size round (length values - 1)) <= inject_Z (Z.of_nat (length values - 1)))%Q.
Proof.
  intros Hne Hl [H1 H2]. apply round_between; [lia|].
  assert (of_size round (length values - 1) == inject_Z (Z.of_nat (length values - 1)))%Q as -> by (apply (rd_exact _ Hround); lia).
  assert (0 <= inject_Z (Z.of_nat (length values - 1)))%Q as H0 by (change 0%Q with (inject_Z 0); rewrite <- Zle_Qle; lia). split; nra.
Qed.
Lemma interpolate_inside (values : list Q) ratio : values ≠ [] → (Z.of_nat (length values) <= max_exact)%Z → (0 <= ratio <= 1)%Q →
  is_Some (interpolate round values ratio).
Proof.
  intros Hne Hl Hr. pose proof (position_bound values ratio Hne Hl Hr) as Hp. unfold interpolate. cbv zeta.
  destruct (index_bound _ _ Hp) as [H1 H2]. set (p := round (ratio * of_size round (length values - 1))) in *.
  assert (0 < length values) by (destruct values; [done|simpl; lia]).
  destruct (lookup_lt_is_Some_2 values (lower_index p)) as [low ->]; [lia|].
  destruct (lookup_lt_is_Some_2 values (upper_index p)) as [high ->]; [lia|]. destruct (_ =? _); by eexists.
Qed.
Lemma ratio_accepted ratio : (0 <= ratio <= 1)%Q → ratio_refused (Finite ratio) = false.
Proof.
  intros [H1 H2]. unfold ratio_refused, of_int, double_lt. destruct (Qcompare_spec ratio (inject_Z 0)) as [| H|]; [| exfalso; change (inject_Z 0) with 0%Q in H; lra|];
    (destruct (Qcompare_spec (inject_Z 1) ratio) as [| H'|]; [done|exfalso; change (inject_Z 1) with 1%Q in H'; lra|done]).
Qed.
End bounds.

(** ** Snapshots never read outside of the values *)
Definition sized (r : MetricRegistry) : Prop :=
  ∀ name h, histograms r !! name = Some h → (Z.of_nat (histogram_count h) <= max_exact)%Z.
Lemma percentile_total round values ratio : rounding round → (Z.of_nat (length values) <= max_exact)%Z → (0 <= ratio <= 1)%Q →
  ∃ v, percentile_of round values ratio = inr (Some v).
Proof.
  intros Hr Hl Hb. unfold percentile_of. destruct values as [|x values]; [by eexists|]. rewrite ratio_accepted by done.
  destruct (interpolate_inside round Hr (sorted (x :: values)) ratio) as [v ->]; [|by rewrite sorted_length|done|by eexists].
  intros H. apply (f_equal length) in H. by rewrite sorted_length in H.
Qed.
Lemma round_ratio round a : rounding round → (0 <= a <= 1)%Q → (0 <= round a <= 1)%Q.
Proof. intros Hr Ha. by apply (round_between round Hr 1). Qed.
Lemma histogram_samples_total round name h : rounding round → (Z.of_nat (histogram_count h) <= max_exact)%Z →
  ∃ samples, histogram_samples round name h = inr (Some samples) ∧ length samples = 7.
Proof.
  intros Hr Hl. unfold histogram_samples, histogram_percentile.
  destruct (percentile_total round (histogram_values h) (round (1 # 2)) Hr Hl) as [p50 ->]; [apply round_ratio; [done|split; discriminate]|].
  destruct (percentile_total round (histogram_values h) (round (95 # 100)) Hr Hl) as [p95 ->]; [apply round_ratio; [done|split; discriminate]|].
  destruct (percentile_total round (histogram_values h) (round (99 # 100)) Hr Hl) as [p99 ->]; [apply round_ratio; [done|split; discriminate]|].
  by eexists.
Qed.
Lemma snapshot_total round r : rounding round → sized r → ∃ samples, registry_snapshot round r = inr (Some samples) ∧
  length samples = size (counters r) + size (gauges r) + 7 * size (histograms r).
Proof.
  intros Hr Hs. unfold registry_snapshot.
  assert (∃ samples, all_histogram_samples round (map_items (histograms r)) = inr (Some samples) ∧
    length samples = 7 * length (map_items (histograms r))) as (samples&->&Hl).
  { assert (∀ name h, (name, h) ∈ map_items (histograms r) → (Z.of_nat (histogram_count h) <= max_exact)%Z) as H.
    { intros name h Hin. apply (Hs name). by apply elem_of_map_items. }
    revert H. generalize (map_items (histograms r)). intros l. induction l as [|[name h] l IH]; intros H; [by eexists|]. cbn [all_histogram_samples].
    destruct (histogram_samples_total round name h Hr) as (samples&->&Hl); [apply (H name); left|].
    destruct IH as (others&->&Ho); [intros n h' Hin; apply (H n); by right|]. eexists. split; [done|].
    rewrite length_app, Hl, Ho. simpl. lia. }
  eexists. split; [done|]. rewrite !length_app, !length_fmap, Hl.
  assert (∀ A (m : gmap string A), length (map_items m) = size m) as Hm.
  { intros A m. unfold map_items. rewrite (Permutation_length (merge_sort_Permutation _ _)). apply length_map_to_list. }
  rewrite !Hm. lia.
Qed.

(** ** Percentiles without rounding *)
Definition exactly (a : Q) : Q := a.
Lemma exactly_rounding : rounding exactly.
Proof. by split. Qed.
Lemma lookup_ends values : values ≠ [] → ∀ i a, sorted values !! i = Some a → (min_of values <= a <= max_of values)%Q.
Proof.
  intros Hne i a Ha. assert (a ∈ values) as Hin by (rewrite <- sorted_perm; by eapply list_elem_of_lookup_2).
  assert (∀ l m, (fold_left (fun m x => if negb (Qle_bool m x) then x else m) l m <= m)%Q ∧
    ∀ x, x ∈ l → (fold_left (fun m x => if negb (Qle_bool m x) then x else m) l m <= x)%Q) as Hmin.
  { induction l as [|y l IH]; intros m; cbn [fold_left]; [split; [apply Qle_refl|by intros x ?%elem_of_nil]|].
    destruct (Qle_bool m y) eqn:E; cbn [negb]; [destruct (IH m) as [H1 H2]|destruct (IH y) as [H1 H2]].
    - split; [done|]. intros x [->|Hx]%elem_of_cons; [apply Qle_bool_iff in E; by eapply Qle_trans|by apply H2].
    - assert (y <= m)%Q by (apply Qlt_le_weak, Qnot_le_lt; rewrite <- Qle_bool_iff, E; discriminate).
      split; [by eapply Qle_trans|]. intros x [->|Hx]%elem_of_cons; [done|by apply H2]. }
  assert (∀ l m, (m <= fold_left (fun m x => if negb (Qle_bool x m) then x else m) l m)%Q ∧
    ∀ x, x ∈ l → (x <= fold_left (fun m x => if negb (Qle_bool x m) then x else m) l m)%Q) as Hmax.
  { induction l as [|y l IH]; intros m; cbn [fold_left]; [split; [apply Qle_refl|by intros x ?%elem_of_nil]|].
    destruct (Qle_bool y m) eqn:E; cbn [negb]; [destruct (IH m) as [H1 H2]|destruct (IH y) as [H1 H2]].
    - split; [done|]. intros x [->|Hx]%elem_of_cons; [apply Qle_bool_iff in E; by eapply Qle_trans|by apply H2].
    - assert (m <= y)%Q by (apply Qlt_le_weak, Qnot_le_lt; rewrite <- Qle_bool_iff, E; discriminate).
      split; [by eapply Qle_trans|]. intros x [->|Hx]%elem_of_cons; [done|by apply H2]. }
  destruct values as [|v rest]; [done|]. simpl. destruct (Hmin rest v) as [H1 H2], (Hmax rest v) as [H3 H4].
  apply elem_of_cons in Hin as [->|Hin]; [done|]. split; [by apply H2|by apply H4].
Qed.
(** Without rounding, a percentile interpolates between the two sorted values around its position, so it lies between the
    least and the greatest value. *)
Lemma percentile_interpolates values ratio : values ≠ [] → (Z.of_nat (length values) <= max_exact)%Z → (0 <= ratio <= 1)%Q →
  ∃ v low high i j, percentile_of exactly values ratio = inr (Some v) ∧ sorted values !! i = Some low ∧ sorted values !! j = Some high ∧
    i <= j <= S i ∧ (inject_Z (Z.of_nat i) <= ratio * inject_Z (Z.of_nat (length values - 1)) <= inject_Z (Z.of_nat j))%Q ∧
    (v == low + (high - low) * (ratio * inject_Z (Z.of_nat (length values - 1)) - inject_Z (Z.of_nat i)))%Q ∧ (low <= v <= high)%Q.
Proof.
  intros Hne Hl Hr. assert (sorted values ≠ []) as Hs.
  { intros H. apply (f_equal length) in H. rewrite sorted_length in H. by destruct values. }
  pose proof (position_bound exactly exactly_rounding (sorted values) ratio Hs) as Hp. rewrite sorted_length in Hp. specialize (Hp Hl Hr).
  unfold exactly, of_size in Hp. set (p := (ratio * inject_Z (Z.of_nat (length values - 1)))%Q) in *.
  destruct (index_bound _ _ Hp) as [H1 H2]. assert (0 < length values) as Hlen by (destruct values; [done|simpl; lia]).
  destruct (lookup_lt_is_Some_2 (sorted values) (lower_index p)) as [low Elow]; [rewrite sorted_length; lia|].
  destruct (lookup_lt_is_Some_2 (sorted values) (upper_index p)) as [high Ehigh]; [rewrite sorted_length; lia|].
  assert (inject_Z (Z.of_nat (lower_index p)) <= p)%Q as Hfloor.
  { unfold lower_index. rewrite Z2Nat.id by (apply (Qfloor_resp_le 0); apply Hp). apply Qfloor_le. }
  assert (p <= inject_Z (Z.of_nat (upper_index p)))%Q as Hceil.
  { unfold upper_index. rewrite Z2Nat.id by (apply (Qceiling_resp_le 0); apply Hp). apply Qle_ceiling. }
  assert (upper_index p <= S (lower_index p)) as Hnear.
  { unfold upper_index, lower_index. pose proof (Qlt_floor p) as Hlt. pose proof (Qceiling_lt p) as Hgt.
    assert (inject_Z (Qceiling p - 1) < inject_Z (Qfloor p + 1))%Q as H by (eapply Qlt_trans; [exact Hgt|exact Hlt]).
    rewrite <- Zlt_Qlt in H. assert (0 <= Qfloor p)%Z by (apply (Qfloor_resp_le 0), Hp). lia. }
  pose proof (values_in_order values _ _ low high Elow Ehigh H1) as Horder.
  assert (p - inject_Z (Z.of_nat (lower_index p)) <= 1)%Q as Hfrac.
  { assert (inject_Z (Z.of_nat (upper_index p)) <= inject_Z (Z.of_nat (lower_index p)) + 1)%Q; [|lra].
    change 1%Q with (inject_Z 1). rewrite <- inject_Z_plus, <- Zle_Qle. lia. }
  assert (∃ v, interpolate exactly (sorted values) ratio = Some v ∧ (v == low + (high - low) * (p - inject_Z (Z.of_nat (lower_index p))))%Q) as (v&Ev&Hv).
  { unfold interpolate. rewrite sorted_length. cbv zeta. unfold exactly, of_size. fold p. rewrite Elow, Ehigh. cbn [mbind option_bind].
    destruct (Nat.eqb_spec (lower_index p) (upper_index p)) as [E|E]; [|by eexists].
    exists low. split; [done|]. rewrite E in Elow. rewrite Ehigh in Elow. injection Elow as ->. ring. }
  exists v, low, high, (lower_index p), (upper_index p). split; [|split; [done|split; [done|split; [lia|split; [done|split; [done|]]]]]].
  - unfold percentile_of. destruct values as [|x l]; [done|]. by rewrite ratio_accepted, Ev.
  - rewrite Hv. set (t := (p - inject_Z (Z.of_nat (lower_index p)))%Q) in *. assert (0 <= t)%Q by (unfold t; lra). split; nra.
Qed.
(** C28. C. Percentiles are safe with any rounding that is monotone and exact on small integers: for a ratio between 0 and 1 and
    as many values as such integers, a percentile neither fails nor reads outside of the values, and a
    snapshot of the registry succeeds, with one sample of every counter and gauge and seven of every histogram.  In exact arithmetic
    the percentile of a histogram with a value moreover lies between its least and its greatest value; under a rounding that is not claimed. *)
Theorem percentiles_safe round r values ratio : rounding round → sized r → (Z.of_nat (length values) <= max_exact)%Z → (0 <= ratio <= 1)%Q →
  (∃ v, percentile_of round values ratio = inr (Some v)) ∧
  (∃ samples, registry_snapshot round r = inr (Some samples) ∧ length samples = size (counters r) + size (gauges r) + 7 * size (histograms r)) ∧
  (values ≠ [] → ∃ v, percentile_of exactly values ratio = inr (Some v) ∧ (min_of values <= v <= max_of values)%Q).
Proof.
  intros Hr Hs Hl Hb. split; [by apply percentile_total|]. split; [by apply snapshot_total|]. intros Hne.
  destruct (percentile_interpolates values ratio Hne Hl Hb) as (v&low&high&i&j&E&Hi&Hj&_&_&_&Hv). exists v. split; [done|].
  destruct (lookup_ends values Hne i low Hi) as [H1 _], (lookup_ends values Hne j high Hj) as [_ H2]. destruct Hv as [H3 H4].
  split; by eapply Qle_trans.
Qed.
(** The check lets a ratio through that is not a number; its position has no index. *)
Lemma nan_ratio_passes : ratio_refused NotANumber = false.
Proof. reflexivity. Qed.
(** ** A registry *)
Definition demo_registry : MetricRegistry :=
  mkMetricRegistry {["c" := mkCounter 2]} {["g" := mkGauge 3]} {["h" := mkHistogram [4; 1; 3; 2]%Q]}.
Example demo_percentiles : ∃ v, percentile_of exactly [4; 1; 3; 2]%Q (1 # 2) = inr (Some v) ∧ (v == 5 # 2)%Q.
Proof. eexists. split; [vm_compute; reflexivity|]. reflexivity. Qed.
Lemma percentiles_safe_witness :
  (∃ samples, registry_snapshot exactly demo_registry = inr (Some samples) ∧ length samples = 9) ∧
  ∃ v, percentile_of exactly [4; 1; 3; 2]%Q (3 # 4) = inr (Some v) ∧ (1 <= v <= 4)%Q.
Proof.
  destruct (percentiles_safe exactly demo_registry [4; 1; 3; 2]%Q (3 # 4)) as (_&H1&H2).
  - split; [done|reflexivity].
  - intros name h E. cbn [histograms demo_registry] in E. apply (lookup_singleton_Some "h" name) in E as [_ <-]. vm_compute. discriminate.
  - vm_compute. discriminate.
  - split; discriminate.
  - split; [exact H1|]. destruct H2 as (v&E&H); [discriminate|]. exists v. split; [exact E|exact H].
Defined.
