(* ===== verification/Yaml.v ===== *)
(** * Yaml: what the graph loader relies on

    [src/graph_io.cpp] reads documents with the yaml-cpp library, which is not part of the repository.  [YamlLib] lists the
    operations of the library that the loader calls, each an argument of the model; [YamlLaws] states the documented
    behaviour that theorems rely on: nodes built by the library read back, a subscript gives a part of the node, and a node
    that has a depth is deeper than its parts.  Nothing is assumed of the depth of other nodes: the library builds a
    sequence that contains itself from [&a [*a]], which is not accessible for [inside].

    The loader throws [std::invalid_argument]; the library throws [YAML::Exception].  [Load] is a computation that may throw
    either; [Diverged] marks a recursion that does not come back.  The only one is the copy of a template that contains
    itself.

    The end of the file implements [YamlLib] by trees whose scalars keep what they were written from.  It shows that
    [YamlLaws] can hold, and concrete documents are written with it. *)

From S2P Require Export GraphSpec.
From Stdlib Require QArith_base.
Local Open Scope nat_scope.

(** ** Exceptions *)
Inductive GraphIoError := InvalidArgument (what : string) | YamlException (what : string) | Diverged.
Inductive Load (A : Type) := Loaded (a : A) | Thrown (e : GraphIoError).
Arguments Loaded {A} a.
Arguments Thrown {A} e.
#[export] Instance load_ret : MRet Load := fun A a => Loaded a.
#[export] Instance load_bind : MBind Load := fun A B f m => match m with Loaded a => f a | Thrown e => Thrown e end.
Definition invalid {A} (what : string) : Load A := Thrown (InvalidArgument what).
(** Runs [f] on every element; the first exception ends the loop. *)
Fixpoint each {A} (f : A → Load ()) (l : list A) : Load () :=
  match l with [] => mret () | x :: rest => _ ← f x; each f rest end.
(** [for (index = 0; index < size; ++index)] with a result per element. *)
Definition collect {A B} (f : nat → A → Load B) (l : list A) : Load (list B) := mapM (λ x : nat * A, f x.1 x.2) (imap pair l).

(** ** The library *)
Inductive NodeKind := KUndefined | KNull | KScalar | KSequence | KMap.
#[export] Instance NodeKind_eq_dec : EqDecision NodeKind.
Proof. solve_decision. Defined.
(** The callbacks of [YAML::EventHandler], without their arguments. *)
Inductive YamlEvent :=
| OnDocumentStart | OnDocumentEnd | OnNull | OnAlias | OnScalar | OnSequenceStart | OnSequenceEnd | OnMapStart | OnMapEnd.
#[export] Instance YamlEvent_eq_dec : EqDecision YamlEvent.
Proof. solve_decision. Defined.
(** The result of a call that may throw a [YAML::Exception]: its message, or the value. *)
Abbreviation YamlResult A := (string + A)%type.
Class YamlLib (Node : Type) := {
  node_kind : Node → NodeKind;
  node_at : Node → string → YamlResult Node;
  node_elements : Node → list Node;
  node_items : Node → list (Node * Node);
  as_string : Node → YamlResult string;
  as_int : Node → YamlResult Z;
  as_double : Node → YamlResult QArith_base.Q;
  as_bool : Node → YamlResult bool;
  emit : Node → string;
  null_node : Node;
  scalar_node : string → Node;
  empty_sequence : Node;
  node_push : Node → Node → Node;
  empty_map : Node;
  node_set : Node → string → Node → Node;
  (** No operation of the library: the depth of a node that has one, which the model takes as the fuel of its recursion. *)
  node_depth : Node → nat;
  yaml_load : string → YamlResult Node;
  (** The events that the parser delivers before it ends or throws. *)
  yaml_events : string → list YamlEvent }.
Definition lib {A} (r : YamlResult A) : Load A := match r with inr a => Loaded a | inl what => Thrown (YamlException what) end.
(** A call whose exceptions are replaced by one of the loader. *)
Definition lib_or {A} (what : string) (r : YamlResult A) : Load A := match r with inr a => Loaded a | inl _ => invalid what end.

Section lib.
Context {Node : Type} `{YamlLib Node}.
(** [!node || node.IsNull()] *)
Definition absent (n : Node) : bool := bool_decide (node_kind n = KUndefined) || bool_decide (node_kind n = KNull).
Definition is_map (n : Node) : bool := bool_decide (node_kind n = KMap).
Definition is_sequence (n : Node) : bool := bool_decide (node_kind n = KSequence).
Definition is_scalar (n : Node) : bool := bool_decide (node_kind n = KScalar).
(** The nodes that the loader's callers write: a sequence by pushes, a map by assignments. *)
Definition sequence_node (l : list Node) : Node := fold_left node_push l empty_sequence.
Definition map_node (l : list (string * Node)) : Node := fold_left (λ n kv, node_set n kv.1 kv.2) l empty_map.
End lib.

Definition field {Node} (l : list (string * Node)) (key : string) : option Node := snd <$> List.find (λ kv, str_eqb kv.1 key) l.
(** [m] is an element or a value of [n]. *)
Definition inside {Node} `{YamlLib Node} (m n : Node) : Prop :=
  (node_kind n = KSequence ∧ m ∈ node_elements n) ∨ (node_kind n = KMap ∧ ∃ k, (k, m) ∈ node_items n).
(** No descent into [n] goes on forever: [n] is no part of itself, and neither is any part of it. *)
Definition well_nested {Node} `{YamlLib Node} (n : Node) : Prop := Acc inside n.
Class YamlLaws (Node : Type) `{YamlLib Node} := {
  inside_depth n m : well_nested n → inside m n → node_depth m < node_depth n;
  at_inside n key m : node_at n key = inr m → node_kind m = KUndefined ∨ inside m n;
  scalar_kind s : node_kind (scalar_node s) = KScalar;
  scalar_string s : as_string (scalar_node s) = inr s;
  sequence_kind l : node_kind (sequence_node l) = KSequence;
  sequence_elements l : node_elements (sequence_node l) = l;
  map_kind l : node_kind (map_node l) = KMap;
  map_subscript l key : NoDup l.*1 → ∃ n, node_at (map_node l) key = inr n ∧
    match field l key with Some m => n = m | None => node_kind n = KUndefined end;
  map_items_of l : NoDup l.*1 → node_items (map_node l) = (λ kv, (scalar_node kv.1, kv.2)) <$> l }.

(** ** Lemmas about computations *)
Lemma bind_loaded {A B} (m : Load A) (f : A → Load B) b : m ≫= f = Loaded b ↔ ∃ a, m = Loaded a ∧ f a = Loaded b.
Proof. destruct m; simpl; [naive_solver|]. split; [done|]. by intros (?&?&?). Qed.
Lemma bind_thrown {A B} (m : Load A) (f : A → Load B) e : m ≫= f = Thrown e ↔ m = Thrown e ∨ ∃ a, m = Loaded a ∧ f a = Thrown e.
Proof. destruct m; simpl; [naive_solver|]. split; [intros [= ->]; by left|]. by intros [[= ->]|(?&?&?)]. Qed.
(** Computations that throw nothing but what [P] allows. *)
Definition throws_only {A} (P : GraphIoError → Prop) (m : Load A) : Prop := ∀ e, m = Thrown e → P e.
Lemma throws_ret {A} P (a : A) : throws_only P (mret a).
Proof. by intros e [=]. Qed.
Lemma throws_loaded {A} P (a : A) : throws_only P (Loaded a).
Proof. by intros e [=]. Qed.
Lemma throws_bind {A B} P (m : Load A) (f : A → Load B) : throws_only P m → (∀ a, m = Loaded a → throws_only P (f a)) → throws_only P (m ≫= f).
Proof. intros Hm Hf e [H|(a&Ha&H)]%bind_thrown; [by apply Hm|by eapply Hf]. Qed.
Lemma throws_mapM {A B} P (f : A → Load B) l : (∀ x, x ∈ l → throws_only P (f x)) → throws_only P (mapM f l).
Proof.
  induction l as [|x l IH]; intros Hf; [apply throws_ret|]. simpl. apply throws_bind; [apply Hf; left|]. intros b _.
  apply throws_bind; [apply IH; intros; apply Hf; by right|]. intros. apply throws_ret.
Qed.
Lemma throws_each {A} P (f : A → Load ()) l : (∀ x, x ∈ l → throws_only P (f x)) → throws_only P (each f l).
Proof.
  induction l as [|x l IH]; intros Hf; [apply throws_ret|]. simpl. apply throws_bind; [apply Hf; left|]. intros _ _.
  apply IH. intros. apply Hf. by right.
Qed.
Lemma throws_collect {A B} P (f : nat → A → Load B) l : (∀ i x, x ∈ l → throws_only P (f i x)) → throws_only P (collect f l).
Proof.
  intros Hf. apply throws_mapM. intros [i x] Hx. apply Hf. apply list_elem_of_lookup in Hx as [j Hj].
  rewrite list_lookup_imap in Hj. destruct (l !! j) eqn:E; [|done]. injection Hj as <- <-. by eapply list_elem_of_lookup_2.
Qed.
Lemma each_loaded {A} (f : A → Load ()) l : each f l = Loaded () ↔ ∀ x, x ∈ l → f x = Loaded ().
Proof.
  induction l as [|x l IH]; simpl; [split; [by intros _ x ?%elem_of_nil|done]|]. rewrite bind_loaded. setoid_rewrite elem_of_cons.
  split; [intros ([]&Hx&Hl) y [->|Hy]; [done|by apply IH]|]. intros Hall. exists (). split; [by apply Hall; left|]. apply IH. auto.
Qed.
Lemma mapM_loaded {A B} (f : A → Load B) l k : mapM f l = Loaded k ↔ Forall2 (λ x y, f x = Loaded y) l k.
Proof.
  revert k. induction l as [|x l IH]; intros k; simpl.
  - split; [by intros [= <-]|]. by inversion 1.
  - rewrite bind_loaded. split.
    + intros (y&Hy&Hk). apply bind_loaded in Hk as (k'&Hk'&[= <-]). constructor; [done|by apply IH].
    + inversion 1 as [|? y ? k' Hy Hk']; subst. exists y. split; [done|]. apply bind_loaded. exists k'. split; [by apply IH|done].
Qed.
Lemma mapM_elem {A B} (f : A → Load B) l k y : mapM f l = Loaded k → y ∈ k → ∃ x, x ∈ l ∧ f x = Loaded y.
Proof.
  rewrite mapM_loaded. intros Hall [i Hi]%list_elem_of_lookup. destruct (Forall2_lookup_r _ _ _ _ _ Hall Hi) as (x&Hx&Hf).
  exists x. split; [by eapply list_elem_of_lookup_2|done].
Qed.
Lemma mapM_length {A B} (f : A → Load B) l k : mapM f l = Loaded k → length l = length k.
Proof. rewrite mapM_loaded. apply Forall2_length. Qed.
Lemma collect_elem {A B} (f : nat → A → Load B) l k y : collect f l = Loaded k → y ∈ k → ∃ i x, f i x = Loaded y.
Proof. intros H Hy. destruct (mapM_elem _ _ _ _ H Hy) as ([i x]&_&Hx). by exists i, x. Qed.
Lemma collect_length {A B} (f : nat → A → Load B) l k : collect f l = Loaded k → length l = length k.
Proof. intros H. apply mapM_length in H. by rewrite length_imap in H. Qed.
(** Takes a computation that returned apart. *)
Ltac load_inv H :=
  repeat (cbv zeta in H;
    match type of H with
    | (_ ≫= _) = Loaded _ => let a := fresh "a" in let Ha := fresh "Ha" in apply bind_loaded in H as (a&Ha&H)
    | (if ?b then _ else _) = Loaded _ => let E := fresh "E" in destruct b eqn:E; [discriminate H|]
    | mret _ = Loaded _ => injection H as H
    end).
(** Goes on after computations that returned. *)
Ltac step_loaded := repeat match goal with |- context [@mbind Load _ ?A ?B ?f (Loaded ?a)] => change (@mbind Load _ A B f (Loaded a)) with (f a); cbv beta end.

Inductive Yaml :=
| YUndefined | YNull | YText (text : string) | YInt (value : Z) | YReal (value : QArith_base.Q) | YBool (value : bool)
| YSequence (elements : list Yaml) | YMap (fields : list (string * Yaml)).
Fixpoint depth_of (n : Yaml) : nat :=
  match n with
  | YSequence l => S (fold_right (λ m d, depth_of m `max` d) 0 l)
  | YMap l => S (fold_right (λ (kv : string * Yaml) d, depth_of kv.2 `max` d) 0 l)
  | _ => 0
  end.
Definition kind_of (n : Yaml) : NodeKind :=
  match n with
  | YUndefined => KUndefined | YNull => KNull | YText _ | YInt _ | YReal _ | YBool _ => KScalar | YSequence _ => KSequence | YMap _ => KMap
  end.
Definition bool_text (b : bool) : string := if b then "true" else "false".
Definition text_of (n : Yaml) : YamlResult string :=
  match n with
  | YText s => inr s | YInt z => inr (to_string_Z z) | YBool b => inr (bool_text b) | YNull => inr "null"
  | _ => inl "bad conversion"
  end.
Fixpoint set_field (l : list (string * Yaml)) (key : string) (m : Yaml) : list (string * Yaml) :=
  match l with [] => [(key, m)] | (k, v) :: rest => if str_eqb k key then (k, m) :: rest else (k, v) :: set_field rest key m end.
(** Texts are looked up in a table of documents; the other texts are not documents. *)
Definition tree_lib (documents : string → option Yaml) : YamlLib Yaml := {|
  node_kind := kind_of;
  node_at := fun n key => match n with
    | YMap l => inr (default YUndefined (field l key)) | YText _ | YInt _ | YReal _ | YBool _ => inl "bad subscript" | _ => inr YUndefined end;
  node_elements := fun n => match n with YSequence l => l | _ => [] end;
  node_items := fun n => match n with YMap l => (λ kv, (YText kv.1, kv.2)) <$> l | _ => [] end;
  as_string := text_of;
  as_int := fun n => match n with YInt z => inr z | _ => inl "bad conversion" end;
  as_double := fun n => match n with YReal q => inr q | YInt z => inr (QArith_base.inject_Z z) | _ => inl "bad conversion" end;
  as_bool := fun n => match n with YBool b => inr b | _ => inl "bad conversion" end;
  emit := fun n => match text_of n with inr s => s | inl _ => "..." end;
  null_node := YNull;
  scalar_node := YText;
  empty_sequence := YSequence [];
  node_push := fun n m => match n with YSequence l => YSequence (l ++ [m]) | _ => YSequence [m] end;
  empty_map := YMap [];
  node_set := fun n key m => match n with YMap l => YMap (set_field l key m) | _ => YMap [(key, m)] end;
  node_depth := depth_of;
  yaml_load := fun text => match documents text with Some n => inr n | None => inl "bad document" end;
  yaml_events := fun _ => [] |}.

Section tree.
Context (documents : string → option Yaml).
Lemma fold_max_le {A} (f : A → nat) l x : x ∈ l → f x ≤ fold_right (λ m d, f m `max` d) 0 l.
Proof. induction 1; simpl; lia. Qed.
Lemma tree_sequence l : sequence_node (H := tree_lib documents) l = YSequence l.
Proof.
  unfold sequence_node. assert (∀ before, fold_left (@node_push _ (tree_lib documents)) l (YSequence before) = YSequence (before ++ l)) as H; [|apply (H [])].
  induction l as [|x l IH]; intros before; simpl; [by rewrite app_nil_r|]. rewrite IH. by rewrite <- app_assoc.
Qed.
Lemma set_fresh l key m : key ∉ l.*1 → set_field l key m = l ++ [(key, m)].
Proof.
  induction l as [|[k v] l IH]; simpl; [done|]. intros Hk. unfold str_eqb. rewrite bool_decide_eq_false_2 by set_solver. by rewrite IH by set_solver.
Qed.
Lemma tree_map l : NoDup l.*1 → map_node (H := tree_lib documents) l = YMap l.
Proof.
  unfold map_node. assert (∀ before, NoDup (before ++ l).*1 →
    fold_left (λ n (kv : string * Yaml), @node_set _ (tree_lib documents) n kv.1 kv.2) l (YMap before) = YMap (before ++ l)) as H; [|apply (H [])].
  induction l as [|[k v] l IH]; intros before Hn; simpl; [by rewrite app_nil_r|]. rewrite set_fresh.
  - rewrite IH by (by rewrite <- app_assoc). by rewrite <- app_assoc.
  - rewrite fmap_app in Hn. apply NoDup_app in Hn as (_&Hn&_). intros Hk. apply (Hn k Hk). by left.
Qed.
Lemma tree_inside n m : inside (H := tree_lib documents) m n → depth_of m < depth_of n.
Proof.
  intros [[Hk Hm]|[Hk [k Hm]]]; destruct n; try done; cbn in *.
  - pose proof (fold_max_le depth_of _ _ Hm). lia.
  - apply list_elem_of_fmap in Hm as ([k' v]&[= -> ->]&Hin).
    pose proof (fold_max_le (λ kv : string * Yaml, depth_of kv.2) _ _ Hin). simpl in *. lia.
Qed.
(** A tree has no part that contains it. *)
Lemma tree_well_nested n : well_nested (H := tree_lib documents) n.
Proof.
  induction n as [n IH] using (induction_ltof1 _ depth_of). constructor. intros m Hm. apply IH. by apply tree_inside.
Qed.
#[export] Instance tree_laws : @YamlLaws Yaml (tree_lib documents).
Proof.
  split.
  - intros n m _. apply tree_inside.
  - intros n key m. destruct n as [| | | | | |l|l]; cbn; try done; try (intros [= <-]; by left).
    intros [= <-]. unfold field. destruct (List.find _ l) as [[k v]|] eqn:Ef; [|by left]. apply find_some in Ef as [Hin _].
    right. right. split; [done|]. exists (YText k). apply list_elem_of_fmap. exists (k, v). split; [done|by apply list_elem_of_In].
  - done.
  - done.
  - intros l. by rewrite tree_sequence.
  - intros l. by rewrite tree_sequence.
  - intros l. unfold map_node. assert (∀ n, kind_of n = KMap → kind_of (fold_left (λ n (kv : string * Yaml), @node_set _ (tree_lib documents) n kv.1 kv.2) l n) = KMap) as H
      by (induction l as [|[k v] l IH]; [done|]; intros n Hn; apply IH; by destruct n). by apply (H (YMap [])).
  - intros l key Hn. rewrite tree_map by done. cbn. eexists. split; [reflexivity|]. by destruct (field l key).
  - intros l Hn. by rewrite tree_map.
Qed.
End tree.
