(* ===== verification/Json.v ===== *)
(** * Json: what the output code relies on, and the plan as JSON

    The plan, the command line tool and the logger write JSON with the nlohmann/json library, which is not part of the
    repository.  [JsonLib] lists the operations of the library that they call, each an argument of the model; [JsonLaws]
    states the documented behaviour that theorems rely on: a value reads back as what it was made of.  An object that the
    code fills key by key is written as the list of its entries, in the order of the code.

    Models [lane_capability_summary] and [graph_plan_json] of [src/graph_io.cpp]. *)

From S2P Require Export Yaml Component PlanText.
Local Open Scope nat_scope.

(** ** The library *)
Class JsonLib (Json : Type) := {
  json_string : string → Json;
  json_bool : bool → Json;
  json_int : Z → Json;
  json_number : Double → Json;
  json_array : list Json → Json;
  json_object : list (string * Json) → Json;
  (** [contains] and [at] of a key: [None] also for a value that is not an object. *)
  json_find : Json → string → option Json;
  (** [is_object] and [items()]. *)
  json_items : Json → option (list (string * Json));
  (** [is_string] and [get<std::string>]. *)
  json_text : Json → option string;
  (** [dump()] and [dump(2)]. *)
  json_dump : Json → string;
  json_pretty : Json → string }.
Class JsonLaws (Json : Type) `{JsonLib Json} := {
  find_object l key : NoDup l.*1 → json_find (json_object l) key = field l key;
  items_object l : NoDup l.*1 → ∃ entries, json_items (json_object l) = Some entries ∧ entries ≡ₚ l;
  text_string s : json_text (json_string s) = Some s;
  text_int z : json_text (json_int z) = None;
  find_string s key : json_find (json_string s) key = None;
  dump_int z : json_dump (json_int z) = to_string_Z z }.

Section values.
Context {Json : Type} `{JsonLib Json}.
Definition json_strings (l : list string) : Json := json_array (json_string <$> l).
Definition json_count (n : nat) : Json := json_int (Z.of_nat n).
(** A [std::map<std::string, ...>]. *)
Definition json_map {A} (value : A → Json) (m : gmap string A) : Json := json_object ((λ kv, (kv.1, value kv.2)) <$> map_items m).
(** [event.value(key, "")], where the field is a string. *)
Definition json_value (j : Json) (key : string) : string := default "" (json_find j key ≫= json_text).
End values.

(** ** Lemmas *)
Lemma field_in {A} (l : list (string * A)) key v : NoDup l.*1 → field l key = Some v ↔ (key, v) ∈ l.
Proof.
  unfold field. induction l as [|[k w] l IH]; intros Hn; simpl; [by split; [|intros ?%elem_of_nil]|].
  apply NoDup_cons in Hn as [Hk Hn]. rewrite elem_of_cons. destruct (str_eqb k key) eqn:E.
  - apply str_eqb_eq in E as <-. simpl. split; [intros [= ->]; by left|]. intros [[= ->]|Hin]; [done|]. exfalso. apply Hk.
    apply list_elem_of_fmap. by exists (k, v).
  - rewrite IH by done. split; [by right|]. intros [[= -> ->]|Hin]; [|done]. by rewrite str_eqb_refl in E.
Qed.
Lemma field_none {A} (l : list (string * A)) key : key ∉ l.*1 → field l key = None.
Proof.
  unfold field. induction l as [|[k w] l IH]; simpl; [done|]. intros [Hk Hl]%not_elem_of_cons.
  destruct (str_eqb k key) eqn:E; [by apply str_eqb_eq in E|by apply IH].
Qed.
(** Objects with the keys written in the code: their keys are distinct, and a field is one of the list. *)
Ltac distinct_keys := apply (bool_decide_unpack _); vm_compute; exact Logic.I.
Ltac in_fields := apply list_elem_of_In; simpl; tauto.
Section facts.
Context {Json : Type} `{JsonLaws Json}.
Lemma object_read (l : list (string * Json)) key v : NoDup l.*1 → (key, v) ∈ l → json_find (json_object l) key = Some v.
Proof. intros Hn Hin. rewrite find_object by done. by apply field_in. Qed.
Lemma object_read_none (l : list (string * Json)) key : NoDup l.*1 → key ∉ l.*1 → json_find (json_object l) key = None.
Proof. intros Hn Hin. rewrite find_object by done. by apply field_none. Qed.
Lemma object_value (l : list (string * Json)) key s : NoDup l.*1 → (key, json_string s) ∈ l → json_value (json_object l) key = s.
Proof. intros Hn Hin. unfold json_value. rewrite (object_read l key (json_string s)) by done. simpl. by rewrite text_string. Qed.
Lemma object_value_none (l : list (string * Json)) key : NoDup l.*1 → key ∉ l.*1 → json_value (json_object l) key = "".
Proof. intros Hn Hin. unfold json_value. by rewrite object_read_none. Qed.
End facts.

(** ** A tree *)
(** The laws can hold: values as trees.  Strings are printed as they are. *)
Inductive JsonTree := JString (s : string) | JBool (b : bool) | JInt (z : Z) | JNumber (d : Double) | JArray (l : list JsonTree) | JObject (l : list (string * JsonTree)).
Fixpoint separated (l : list string) : string :=
  match l with [] => "" | [s] => s | s :: rest => s +:+ "," +:+ separated rest end.
Fixpoint tree_dump (j : JsonTree) : string :=
  match j with
  | JString s => s
  | JBool b => if b then "true" else "false"
  | JInt z => to_string_Z z
  | JNumber _ => "number"
  | JArray l => "[" +:+ separated (tree_dump <$> l) +:+ "]"
  | JObject l => "{" +:+ separated ((λ kv, kv.1 +:+ ":" +:+ tree_dump kv.2) <$> l) +:+ "}"
  end.
#[export] Instance tree_json : JsonLib JsonTree := {
  json_string := JString; json_bool := JBool; json_int := JInt; json_number := JNumber; json_array := JArray; json_object := JObject;
  json_find j key := match j with JObject l => field l key | _ => None end;
  json_items j := match j with JObject l => Some l | _ => None end;
  json_text j := match j with JString s => Some s | _ => None end;
  json_dump := tree_dump; json_pretty := tree_dump }.
#[export] Instance json_tree_laws : JsonLaws JsonTree.
Proof. split; try done. intros l _. by exists l. Qed.

Definition kTopoExecSemanticContractVersion : string := "0.2".

Section plan.
Context {Json : Type} `{JsonLib Json}.
Definition lane_implemented (lane : LaneSpec) : list string * list string :=
  if str_eqb (lane_type lane) "event_loop" then
    (["deterministic_region_order"; "bounded_runner_stop_checks"; "runtime_owned_publication_commit"; "runtime_priority_ordering";
      "cooperative_cancellation"; "timeout_budget_observation"], ["manual_step_lane"])
  else if str_eqb (lane_type lane) "fixed_rate" then
    (["bounded_simulated_ticks"; "opt_in_wall_clock_cadence"; "overrun_metrics"; "jitter_metrics"; "max_lateness_metrics";
      "overrun_policy"; "runtime_priority_ordering"; "cooperative_cancellation"; "timeout_budget_observation"],
     ["independent_lane_threads"; "hard_realtime_jitter_control"])
  else if str_eqb (lane_type lane) "thread_pool" then
    (["persistent_worker_lifecycle"; "bounded_priority_queue"; "queue_admission"; "overflow_policy"; "non_reentrant_serialization";
      "priority_queue"; "cooperative_cancellation"; "timeout_budget_observation"; "worker_id_trace"; "batch_trace_span";
      "best_effort_worker_thread_naming"], [])
  else ([], ["isolated_thread"; "manual_step"]).
Definition lane_capability_summary (lane : LaneSpec) : Json :=
  json_object ([("id", json_string (lane_id lane)); ("type", json_string (lane_type lane));
    ("advisory_fields", json_strings ["priority"; "thread_name"; "cpu_affinity"; "nice_priority"; "rt_policy"; "rt_priority"; "isolation_intent"]);
    ("unsupported_claims", json_strings ["hard_preemption"; "hard_real_time"; "implicit_os_scheduler_tuning"]);
    ("implemented", json_strings (lane_implemented lane).1); ("future_extensions", json_strings (lane_implemented lane).2);
    ("max_threads", json_int (lane_max_threads lane)); ("queue_capacity", json_int (lane_queue_capacity lane));
    ("overflow", json_string (lane_overflow lane))] ++
    (if str_eqb (lane_type lane) "fixed_rate" then [("overrun_policy", json_string (lane_overrun_policy lane))] else [])).
Definition component_plan_json (c : ComponentNodeSpec) : Json :=
  json_object [("id", json_string (comp_id c)); ("type", json_string (comp_type c)); ("lane", json_string (exec_lane (execution c)));
    ("boundary_role", json_string (component_role_name (boundary_role c))); ("boundary_descriptor", json_string (boundary_descriptor c))].
Definition edge_plan_json (e : EdgeSpec) : Json :=
  let p := edge_policy e in
  json_object [("id", json_string (edge_id e)); ("from", json_string (edge_from e)); ("to", json_string (edge_to e));
    ("kind", json_string (edge_kind_name (edge_kind e))); ("mode", json_string (policy_mode p)); ("capacity", json_int (policy_capacity p));
    ("overflow", json_string (policy_overflow p)); ("max_inflight", json_int (policy_max_inflight p));
    ("copy_policy", json_string (policy_copy_policy p)); ("readers", json_string (policy_readers p));
    ("slow_reader_drop_risk", json_bool (slow_reader_drop_risk p))].
Definition hierarchy_plan_json (h : GraphHierarchyEntry) : Json :=
  json_object [("id", json_string (hier_id h)); ("components", json_strings (hier_components h)); ("edges", json_strings (hier_edges h));
    ("composite_loops", json_strings (hier_composite_loops h)); ("expansion", json_string "compile_time_namespace")].
Definition region_plan_json (r : CompiledGraphRegion) : Json :=
  json_object [("id", json_string (region_id r)); ("kind", json_string (region_kind_name (region_kind r)));
    ("components", json_strings (region_components r)); ("incoming_regions", json_strings (incoming_regions r));
    ("outgoing_regions", json_strings (outgoing_regions r)); ("loop_policy", json_string (loop_type (region_loop_policy r)))].
Definition graph_plan_fields (graph : GraphSpec) (plan : GraphCompiledPlan) : list (string * Json) :=
  [("graph", json_string (graph_name graph)); ("kind", json_string (graph_kind graph)); ("schema_version", json_int (graph_schema_version graph));
   ("scheduler_contract_version", json_string kTopoExecSemanticContractVersion);
   ("lane_capabilities", json_array (lane_capability_summary <$> graph_lanes graph));
   ("components", json_array (component_plan_json <$> graph_components graph)); ("edges", json_array (edge_plan_json <$> graph_edges graph));
   ("hierarchy", json_array (hierarchy_plan_json <$> graph_hierarchy graph));
   ("compiled_regions", json_array (region_plan_json <$> plan_regions plan)); ("region_order", json_strings (region_order plan));
   ("component_region", json_map json_string (component_region plan))].
Definition graph_plan_json (graph : GraphSpec) (plan : GraphCompiledPlan) : string := json_pretty (json_object (graph_plan_fields graph plan)).
End plan.

(** ** Lemmas *)
Section facts.
Context {Json : Type} `{JsonLaws Json}.
Lemma plan_field_found graph plan key value : (key, value) ∈ graph_plan_fields graph plan →
  json_find (json_object (graph_plan_fields graph plan)) key = Some value.
Proof. apply object_read. distinct_keys. Qed.
Lemma edge_plan_json_reads e :
  json_value (edge_plan_json e) "id" = edge_id e ∧ json_value (edge_plan_json e) "from" = edge_from e ∧
  json_value (edge_plan_json e) "to" = edge_to e ∧ json_value (edge_plan_json e) "kind" = edge_kind_name (edge_kind e).
Proof. split_and!; (apply object_value; [distinct_keys|in_fields]). Qed.
(** The overrun policy is listed for fixed-rate lanes only. *)
Lemma lane_summary_reads lane : json_value (lane_capability_summary lane) "id" = lane_id lane ∧
  json_value (lane_capability_summary lane) "overrun_policy" = if str_eqb (lane_type lane) "fixed_rate" then lane_overrun_policy lane else "".
Proof.
  unfold lane_capability_summary. destruct (str_eqb (lane_type lane) "fixed_rate"); split.
  1-3: apply object_value; [distinct_keys|in_fields].
  apply object_value_none; [distinct_keys|]. distinct_keys.
Qed.
End facts.
