(* ===== verification/Logging.v ===== *)
(** * Logging: the structured logger and its sinks

    Models [src/logging.cpp] with [include/topoexec/common/logging.hpp].  Times are nanoseconds; what a call reads from the clocks is an argument.  A sink is
    shared by reference: loggers name it, and its records are kept apart. *)

From S2P Require Export Json.
Local Open Scope nat_scope.

(** ** Records and sinks *)
Inductive LogLevel := kDebug | kInfo | kWarn | kLogError.
Definition log_level_name (level : LogLevel) : string :=
  match level with kDebug => "debug" | kInfo => "info" | kWarn => "warn" | kLogError => "error" end.
Record LogRecord := mkLogRecord {
  log_timestamp : Z; log_level : LogLevel; log_component : string; log_event : string; log_message : string; log_trace_id : string;
  log_fields : gmap string string }.
(** The text of a record, one line. *)
Definition log_record_json {Json} `{JsonLib Json} (r : LogRecord) : Json :=
  json_object ([("timestamp_ms", json_int (Z.quot (log_timestamp r) 1000000)); ("level", json_string (log_level_name (log_level r)));
    ("component", json_string (log_component r)); ("event", json_string (log_event r)); ("message", json_string (log_message r))] ++
    (if str_empty (log_trace_id r) then [] else [("trace_id", json_string (log_trace_id r))]) ++ [("fields", json_map json_string (log_fields r))]).
Definition to_json_line {Json} `{JsonLib Json} (r : LogRecord) : string := json_dump (log_record_json (Json := Json) r).
Record MemoryLogSink := mkSink { sink_records : list LogRecord }.
Definition sink_write (record : LogRecord) (s : MemoryLogSink) : MemoryLogSink := mkSink (sink_records s ++ [record]).
Definition sink_clear (s : MemoryLogSink) : MemoryLogSink := mkSink [].
(** The sinks by reference. *)
Abbreviation Sinks := (gmap nat MemoryLogSink).
Definition sink_at (sinks : Sinks) (sink : nat) : MemoryLogSink := default (mkSink []) (sinks !! sink).
Definition write_to (sink : nat) (record : LogRecord) (sinks : Sinks) : Sinks := <[sink := sink_write record (sink_at sinks sink)]> sinks.

(** ** The logger *)
Record StructuredLogger := mkLogger {
  logger_component : string; logger_sink : option nat; once_keys : gset string; throttle_last_seen : gmap string Z }.
#[export] Instance eta_StructuredLogger : Eta StructuredLogger := fun l =>
  mkLogger (logger_component l) (logger_sink l) (once_keys l) (throttle_last_seen l).
Definition StructuredLogger_new (component : string) : StructuredLogger := mkLogger component None ∅ ∅.
Definition attach_sink (sink : option nat) (l : StructuredLogger) : StructuredLogger := l <| logger_sink := sink |>.
(** What a message consists of; its time is the reading of the system clock. *)
Record LogEntry := mkEntry {
  en_time : Z; en_level : LogLevel; en_event : string; en_message : string; en_fields : gmap string string; en_trace_id : string }.
Definition record_of (component : string) (e : LogEntry) : LogRecord :=
  mkLogRecord (en_time e) (en_level e) component (en_event e) (en_message e) (en_trace_id e) (en_fields e).
Definition log (e : LogEntry) (l : StructuredLogger) (sinks : Sinks) : Sinks * LogRecord :=
  let record := record_of (logger_component l) e in
  (match logger_sink l with Some sink => write_to sink record sinks | None => sinks end, record).
Definition log_once (key : string) (e : LogEntry) (l : StructuredLogger) (sinks : Sinks) : StructuredLogger * Sinks * bool :=
  if bool_decide (key ∈ once_keys l) then (l, sinks, false) else
  let l := l <| once_keys ::= fun keys => {[key]} ∪ keys |> in
  (l, fst (log e l sinks), true).
(** [now] is the reading of the steady clock. *)
Definition log_throttle (key : string) (interval now : Z) (e : LogEntry) (l : StructuredLogger) (sinks : Sinks)
    : StructuredLogger * Sinks * bool :=
  let refused := match throttle_last_seen l !! key with Some last => (now - last <? interval)%Z | None => false end in
  if refused then (l, sinks, false) else
  let l := l <| throttle_last_seen ::= <[key := now]> |> in
  (l, fst (log e l sinks), true).
(** What the destructor of a scope timer logs. *)
Definition scope_timer_entry (event : string) (started_at finished_at system_now : Z) : LogEntry :=
  mkEntry system_now kDebug event "scope finished" {["duration_us" := to_string_Z (Z.quot (finished_at - started_at) 1000)]} "".

(** ** Sessions *)
Inductive LogCall :=
| LLog (e : LogEntry) | LOnce (key : string) (e : LogEntry) | LThrottle (key : string) (interval now : Z) (e : LogEntry).
Definition call_entry (call : LogCall) : LogEntry := match call with LLog e | LOnce _ e | LThrottle _ _ _ e => e end.
Definition log_call (call : LogCall) (l : StructuredLogger) (sinks : Sinks) : StructuredLogger * Sinks * bool :=
  match call with
  | LLog e => (l, fst (log e l sinks), true)
  | LOnce key e => log_once key e l sinks
  | LThrottle key interval now e => log_throttle key interval now e l sinks
  end.
(** The calls of a session, each with its answer. *)
Fixpoint log_session (calls : list LogCall) (l : StructuredLogger) (sinks : Sinks) : StructuredLogger * Sinks * list (LogCall * bool) :=
  match calls with
  | [] => (l, sinks, [])
  | call :: rest =>
      let '(l, sinks, written) := log_call call l sinks in
      let '(l, sinks, answers) := log_session rest l sinks in
      (l, sinks, (call, written) :: answers)
  end.
(** The records of the written calls. *)
Definition written_of (component : string) (history : list (LogCall * bool)) : list LogRecord :=
  (λ c, record_of component (call_entry c.1)) <$> filter (λ c : LogCall * bool, c.2 = true) history.
(** The reference: the answer to a call from the calls and answers before it. *)
Definition once_before (key : string) (history : list (LogCall * bool)) : Prop := ∃ e answer, (LOnce key e, answer) ∈ history.
Fixpoint last_written (key : string) (history : list (LogCall * bool)) : option Z :=
  match history with
  | [] => None
  | (call, written) :: rest =>
      match last_written key rest with
      | Some t => Some t
      | None => match call with LThrottle k _ now _ => if str_eqb k key && written then Some now else None | _ => None end
      end
  end.
Definition answers (history : list (LogCall * bool)) (call : LogCall) (written : bool) : Prop :=
  match call with
  | LLog _ => written = true
  | LOnce key _ => written = true ↔ ¬ once_before key history
  | LThrottle key interval now _ => written = false ↔ ∃ t, last_written key history = Some t ∧ (now - t < interval)%Z
  end.
Lemma last_written_snoc key history call written : last_written key (history ++ [(call, written)]) =
  match call with LThrottle k _ now _ => if str_eqb k key && written then Some now else last_written key history | _ => last_written key history end.
Proof.
  induction history as [|[c w] history IH]; simpl; [by destruct call|]. rewrite IH.
  destruct call as [e|k e|k interval now e]; [done|done|]. destruct (str_eqb k key && written); done.
Qed.
(** The logger remembers the history. *)
Record remembers (component : string) (sink : nat) (history : list (LogCall * bool)) (l : StructuredLogger) (sinks : Sinks) (before : list LogRecord) : Prop := {
  re_component : logger_component l = component; re_sink : logger_sink l = Some sink;
  re_once : ∀ key, key ∈ once_keys l ↔ once_before key history;
  re_throttle : ∀ key, throttle_last_seen l !! key = last_written key history;
  re_records : sink_records (sink_at sinks sink) =
    before ++ written_of component history }.
Lemma once_before_snoc key history call (written : bool) : once_before key (history ++ [(call, written)]) ↔
  once_before key history ∨ ∃ e, call = LOnce key e.
Proof.
  unfold once_before. setoid_rewrite elem_of_app. setoid_rewrite list_elem_of_singleton. split.
  - intros (e&a&[H|[= <- _]]); [left; by eexists _, _|right; by eexists].
  - intros [(e&a&H)|[e ->]]; [by eexists _, _; left|eexists e, written; by right].
Qed.
Lemma written_records component (history : list (LogCall * bool)) (call : LogCall) (written : bool) : 
  written_of component (history ++ [(call, written)]) =
  written_of component history ++ (if written then [record_of component (call_entry call)] else []).
Proof. unfold written_of. rewrite filter_app, fmap_app. f_equal. by destruct written. Qed.
Lemma log_writes e l sinks sink : logger_sink l = Some sink →
  sink_records (sink_at (fst (log e l sinks)) sink) = sink_records (sink_at sinks sink) ++ [record_of (logger_component l) e].
Proof. intros H. unfold log. rewrite H. simpl. unfold write_to, sink_at. by rewrite lookup_insert_eq. Qed.
Lemma log_call_remembers component sink history l sinks before call : remembers component sink history l sinks before →
  let '(l', sinks', written) := log_call call l sinks in
  remembers component sink (history ++ [(call, written)]) l' sinks' before ∧ answers history call written.
Proof.
  intros [H1 H2 H3 H4 H5].
  assert (∀ l', logger_component l' = component → logger_sink l' = Some sink → (∀ key, key ∈ once_keys l' ↔ once_before key (history ++ [(call, true)])) →
    (∀ key, throttle_last_seen l' !! key = last_written key (history ++ [(call, true)])) →
    remembers component sink (history ++ [(call, true)]) l' (fst (log (call_entry call) l' sinks)) before) as Hwritten.
  { intros l' E1 E2 E3 E4. split; [done..|]. by rewrite log_writes, written_records, H5, E1, (assoc_L (++)) by done. }
  destruct call as [e|key e|key interval now e]; cbn [log_call call_entry] in *.
  - split; [|done]. apply Hwritten; [done..| |].
    + intros k. rewrite once_before_snoc, H3. naive_solver.
    + intros k. by rewrite last_written_snoc, H4.
  - unfold log_once. case_bool_decide as Hk; cbn [answers].
    + split; [|rewrite H3 in Hk; split; [done|]; by intros []]. split; [done..| | |].
      * intros k. rewrite once_before_snoc, H3. split; [by left|]. intros [?|[e' [= -> ->]]]; [done|by apply H3].
      * intros k. by rewrite last_written_snoc, H4.
      * by rewrite written_records, app_nil_r.
    + split; [|rewrite H3 in Hk; by split]. apply Hwritten; [done..| |].
      * intros k. simpl. rewrite elem_of_union, elem_of_singleton, once_before_snoc, H3. naive_solver.
      * intros k. by rewrite last_written_snoc, H4.
  - unfold log_throttle. cbn [answers]. rewrite <- H4.
    assert ((match throttle_last_seen l !! key with Some last => (now - last <? interval)%Z | None => false end) = true ↔
      ∃ t, throttle_last_seen l !! key = Some t ∧ (now - t < interval)%Z) as Hrefused.
    { destruct (throttle_last_seen l !! key) as [last|]; [rewrite Z.ltb_lt|]; naive_solver. }
    destruct (match throttle_last_seen l !! key with Some last => (now - last <? interval)%Z | None => false end) eqn:Er.
    + split; [|by split; [intros _; apply Hrefused|]]. split; [done..| | |].
      * intros k. rewrite once_before_snoc, H3. naive_solver.
      * intros k. by rewrite last_written_snoc, andb_false_r, H4.
      * by rewrite written_records, app_nil_r.
    + split; [|split; [done|by intros ?%Hrefused]]. apply Hwritten; [done..| |].
      * intros k. rewrite once_before_snoc. simpl. rewrite H3. naive_solver.
      * intros k. rewrite last_written_snoc, andb_true_r. simpl. destruct (str_eqb key k) eqn:Ek.
        { apply str_eqb_eq in Ek as ->. by rewrite lookup_insert_eq. }
        rewrite lookup_insert_ne; [done|]. intros ->. by rewrite (proj2 (str_eqb_eq _ _) eq_refl) in Ek.
Qed.
(** C. A logger writes what it should, once and not too often: in every sequence of calls, a plain call is always written, a
    call of [log_once] exactly when no call of it had its key before, a call of [log_throttle] unless one with its key was
    written less than its interval before; and the attached sink gets the records of exactly the written calls, in order. *)
Theorem logger_filters component sink calls sinks :
  let '(l, sinks', history) := log_session calls (attach_sink (Some sink) (StructuredLogger_new component)) sinks in
  history.*1 = calls ∧ (∀ i call written, history !! i = Some (call, written) → answers (take i history) call written) ∧
  sink_records (sink_at sinks' sink) = sink_records (sink_at sinks sink) ++
    written_of component history.
Proof.
  assert (∀ past l sinks1, remembers component sink past l sinks1 (sink_records (sink_at sinks sink)) →
    let '(l', sinks2, history) := log_session calls l sinks1 in
    history.*1 = calls ∧ (∀ i call written, history !! i = Some (call, written) → answers (past ++ take i history) call written) ∧
    sink_records (sink_at sinks2 sink) = sink_records (sink_at sinks sink) ++
      written_of component (past ++ history)) as H.
  { induction calls as [|call calls IH]; intros past l sinks1 Hr; cbn [log_session].
    - split; [done|]. split; [by intros i ? ?|]. rewrite app_nil_r. apply Hr.
    - pose proof (log_call_remembers component sink past l sinks1 _ call Hr) as Hc. destruct (log_call call l sinks1) as [[l1 sinks2] written].
      destruct Hc as [Hr1 Ha]. specialize (IH _ l1 sinks2 Hr1). destruct (log_session calls l1 sinks2) as [[l2 sinks3] history].
      destruct IH as (I1&I2&I3). split; [by rewrite fmap_cons, I1|]. split.
      + intros [|i] c w Hi; simplify_eq/=; [by rewrite app_nil_r|]. rewrite cons_middle, (assoc_L (++)). by apply I2.
      + rewrite (cons_middle (call, written)), (assoc_L (++)). exact I3. }
  apply (H []). split; [done|done| |done|by rewrite app_nil_r].
  intros key. simpl. split; [by intros ?%not_elem_of_empty|]. by intros (e&a&?%elem_of_nil).
Qed.
Example demo_session :
  let entry message := mkEntry 0 kInfo "e" message ∅ "" in
  snd <$> (log_session [LOnce "k" (entry "a"); LOnce "k" (entry "b"); LThrottle "k" 10 5 (entry "c"); LThrottle "k" 10 14 (entry "d");
    LThrottle "k" 10 15 (entry "e"); LLog (entry "f")] (attach_sink (Some 0) (StructuredLogger_new "c")) ∅).2 = [true; false; true; false; true; true].
Proof. vm_compute. reflexivity. Qed.
