(* ===== verification/StateStore.v ===== *)
(** * StateStore: the state blackboard and the config snapshots

    Models [src/state.cpp]: [RuntimeStateStore], a blackboard of namespaced values with one writer per key whose staged
    writes become visible at epoch boundaries, and [ConfigSnapshotStore], the configurations of the components with
    their staged transactions.  Every public method holds the mutex of its store, so the methods are the atomic steps.
    The state store refines an abstract blackboard of committed and staged values ([state_store_refines]); the config
    store is explained by the log of the transactions it applied ([config_store_logged]). *)

From S2P Require Export Payload GraphSpec.
Local Open Scope nat_scope.

(** ** The state store *)
Record RuntimeStateWriteResult := mkStateWrite { state_accepted : bool; state_reason : string }.
Record RuntimeStateSnapshot := mkStateSnapshot {
  snap_name_space : string; snap_epoch : nat; snap_values : gmap string RuntimePayload }.
Definition snapshot_contains (s : RuntimeStateSnapshot) (key : string) : bool := bool_decide (is_Some (snap_values s !! key)).
(** A null pointer is [None]; a snapshot holds no null pointers. *)
Definition snapshot_get (s : RuntimeStateSnapshot) (key : string) : RuntimePayloadPtr := snap_values s !! key.

Record RuntimeStateStoreMetrics := mkStateMetrics {
  sm_epoch : nat; sm_namespace_count : nat; sm_current_value_count : nat; sm_staged_write_count : nat;
  sm_committed_write_count : nat; sm_rejected_write_count : nat; sm_snapshot_read_count : nat }.
#[export] Instance eta_RuntimeStateStoreMetrics : Eta RuntimeStateStoreMetrics := fun m =>
  mkStateMetrics (sm_epoch m) (sm_namespace_count m) (sm_current_value_count m) (sm_staged_write_count m)
    (sm_committed_write_count m) (sm_rejected_write_count m) (sm_snapshot_read_count m).
Record StateEntry := mkStateEntry {
  entry_current : RuntimePayloadPtr; entry_pending : RuntimePayloadPtr; entry_writer : string; entry_version : nat }.
#[export] Instance eta_StateEntry : Eta StateEntry := fun e =>
  mkStateEntry (entry_current e) (entry_pending e) (entry_writer e) (entry_version e).
Record RuntimeStateStore := mkStateStore {
  namespaces : gmap string (gmap string StateEntry); state_metrics : RuntimeStateStoreMetrics }.
#[export] Instance eta_RuntimeStateStore : Eta RuntimeStateStore := fun s => mkStateStore (namespaces s) (state_metrics s).
Definition empty_state_store : RuntimeStateStore := mkStateStore ∅ (mkStateMetrics 0 0 0 0 0 0 0).
(** The entry that [namespaces_\[name_space\]\[key\]] creates. *)
Definition new_entry : StateEntry := mkStateEntry None None "" 0.

Definition reject_write (reason : string) (s : RuntimeStateStore) : RuntimeStateStore * RuntimeStateWriteResult :=
  (s <| state_metrics ::= fun m => m <| sm_rejected_write_count ::= S |> |>, mkStateWrite false reason).
Definition validate_write (name_space key writer : string) (payload : RuntimePayloadPtr) (s : RuntimeStateStore)
    : RuntimeStateStore * RuntimeStateWriteResult :=
  if str_empty name_space then reject_write "state namespace must not be empty" s else
  if str_empty key then reject_write "state key must not be empty" s else
  if str_empty writer then reject_write "state writer must be an explicit component.port" s else
  match payload with
  | None => reject_write "state payload must not be null" s
  | Some _ =>
      match namespaces s !! name_space with
      | None => (s, mkStateWrite true "")
      | Some values =>
          match values !! key with
          | None => (s, mkStateWrite true "")
          | Some e =>
              if str_empty (entry_writer e) || str_eqb (entry_writer e) writer then (s, mkStateWrite true "")
              else reject_write ("state key " +:+ name_space +:+ "." +:+ key +:+ " already has writer " +:+ entry_writer e) s
          end
      end
  end.
Definition update_entry (name_space key : string) (f : StateEntry → StateEntry) (s : RuntimeStateStore) : RuntimeStateStore :=
  let values := map_at ∅ (namespaces s) name_space in
  s <| namespaces ::= <[name_space := <[key := f (map_at new_entry values key)]> values]> |>.
Definition seed_value (name_space key writer : string) (payload : RuntimePayloadPtr) (s : RuntimeStateStore)
    : RuntimeStateStore * RuntimeStateWriteResult :=
  let '(s, validation) := validate_write name_space key writer payload s in
  if negb (state_accepted validation) then (s, validation) else
  (update_entry name_space key (fun e => mkStateEntry payload None writer (S (entry_version e))) s, mkStateWrite true "").
Definition stage_write (name_space key writer : string) (payload : RuntimePayloadPtr) (s : RuntimeStateStore)
    : RuntimeStateStore * RuntimeStateWriteResult :=
  let '(s, validation) := validate_write name_space key writer payload s in
  if negb (state_accepted validation) then (s, validation) else
  (update_entry name_space key (fun e => e <| entry_pending := payload |> <| entry_writer := writer |>) s
     <| state_metrics ::= fun m => m <| sm_staged_write_count ::= S |> |>, mkStateWrite true "").

(** The loops over all entries count those that satisfy a test. *)
Definition state_entries (s : RuntimeStateStore) : list (string * string * StateEntry) :=
  map_items (namespaces s) ≫= fun '(ns, values) => (fun '(k, e) => (ns, k, e)) <$> map_items values.
Definition is_set (p : RuntimePayloadPtr) : bool := match p with Some _ => true | None => false end.
Definition current_value_count (s : RuntimeStateStore) : nat :=
  count_if (fun '(_, _, e) => is_set (entry_current e)) (state_entries s).
Definition commit_entry (e : StateEntry) : StateEntry :=
  match entry_pending e with
  | None => e
  | Some p => mkStateEntry (Some p) None (entry_writer e) (S (entry_version e))
  end.
Definition commit_values (values : gmap string StateEntry) : gmap string StateEntry := commit_entry <$> values.
Definition commit_epoch_boundary (s : RuntimeStateStore) : RuntimeStateStore * nat :=
  let committed := count_if (fun '(_, _, e) => is_set (entry_pending e)) (state_entries s) in
  let s' := s <| namespaces ::= fun m : gmap string (gmap string StateEntry) => commit_values <$> m |> in
  (s' <| state_metrics ::= fun m => m <| sm_epoch ::= S |> <| sm_committed_write_count ::= fun n => n + committed |>
           <| sm_namespace_count := size (namespaces s') |> <| sm_current_value_count := current_value_count s' |> |>, committed).
(** [snapshot] is a const method that counts the reads in a mutable field. *)
Definition snapshot (name_space : string) (s : RuntimeStateStore) : RuntimeStateStore * RuntimeStateSnapshot :=
  (s <| state_metrics ::= fun m => m <| sm_snapshot_read_count ::= S |> |>,
   mkStateSnapshot name_space (sm_epoch (state_metrics s)) (omap entry_current (map_at ∅ (namespaces s) name_space))).
Definition read (name_space key : string) (s : RuntimeStateStore) : RuntimeStateStore * RuntimePayloadPtr :=
  let '(s, snap) := snapshot name_space s in (s, snapshot_get snap key).
Definition store_metrics (s : RuntimeStateStore) : RuntimeStateStoreMetrics :=
  (state_metrics s) <| sm_namespace_count := size (namespaces s) |> <| sm_current_value_count := current_value_count s |>.

(** ** The config snapshots *)
Record ConfigSnapshotUpdateResult := mkConfigUpdate { update_accepted : bool; update_reason : string; update_transaction_id : nat }.
(** The wall-clock time of a transaction is an input of the step that applies it. *)
Record ConfigTransactionInfo := mkTransaction {
  tx_transaction_id : nat; tx_version : nat; tx_epoch : nat; tx_applied_at : Z; tx_applied_components : list string }.
Record ConfigSnapshotStoreMetrics := mkConfigMetrics {
  cm_epoch : nat; cm_version : nat; cm_last_transaction_id : nat; cm_component_config_count : nat; cm_staged_update_count : nat;
  cm_committed_update_count : nat; cm_immediate_update_count : nat; cm_rejected_update_count : nat;
  cm_rolled_back_update_count : nat; cm_snapshot_read_count : nat }.
#[export] Instance eta_ConfigSnapshotStoreMetrics : Eta ConfigSnapshotStoreMetrics := fun m =>
  mkConfigMetrics (cm_epoch m) (cm_version m) (cm_last_transaction_id m) (cm_component_config_count m)
    (cm_staged_update_count m) (cm_committed_update_count m) (cm_immediate_update_count m) (cm_rejected_update_count m)
    (cm_rolled_back_update_count m) (cm_snapshot_read_count m).
Record ConfigSnapshotStore := mkConfigStore {
  store_graph_config : ConfigView; component_configs : gmap string ConfigView; pending_component_configs : gmap string ConfigView;
  next_transaction_id : nat; pending_transaction_id : nat; store_last_transaction : ConfigTransactionInfo;
  config_metrics : ConfigSnapshotStoreMetrics }.
#[export] Instance eta_ConfigSnapshotStore : Eta ConfigSnapshotStore := fun s =>
  mkConfigStore (store_graph_config s) (component_configs s) (pending_component_configs s) (next_transaction_id s)
    (pending_transaction_id s) (store_last_transaction s) (config_metrics s).
Definition empty_config_store : ConfigSnapshotStore :=
  mkConfigStore empty_config ∅ ∅ 1 0 (mkTransaction 0 0 0 0 []) (mkConfigMetrics 0 0 0 0 0 0 0 0 0 0).

Definition set_graph_config (config : ConfigView) (s : ConfigSnapshotStore) : ConfigSnapshotStore :=
  s <| store_graph_config := config |>.
Definition set_component_config (component_id : string) (config : ConfigView) (s : ConfigSnapshotStore) : ConfigSnapshotStore :=
  let configs := <[component_id := config]> (component_configs s) in
  s <| component_configs := configs |> <| config_metrics ::= fun m => m <| cm_component_config_count := size configs |> |>.
Definition count_config_read (s : ConfigSnapshotStore) : ConfigSnapshotStore :=
  s <| config_metrics ::= fun m => m <| cm_snapshot_read_count ::= S |> |>.
Definition read_graph_config (s : ConfigSnapshotStore) : ConfigSnapshotStore * ConfigView :=
  (count_config_read s, store_graph_config s).
Definition read_component_config (component_id : string) (s : ConfigSnapshotStore) : ConfigSnapshotStore * ConfigView :=
  (count_config_read s, map_at empty_config (component_configs s) component_id).
Definition record_transaction (id : nat) (now : Z) (components : list string) (s : ConfigSnapshotStore) : ConfigSnapshotStore :=
  let version := S (cm_version (config_metrics s)) in
  s <| store_last_transaction := mkTransaction id version (cm_epoch (config_metrics s)) now components |>
    <| config_metrics ::= fun m => m <| cm_version := version |> <| cm_last_transaction_id := id |> |>.
Definition stage_component_config_update (component_id : string) (config : ConfigView) (apply_on_epoch_boundary : bool) (now : Z)
    (s : ConfigSnapshotStore) : ConfigSnapshotStore * ConfigSnapshotUpdateResult :=
  if str_empty component_id then
    (s <| config_metrics ::= fun m => m <| cm_rejected_update_count ::= S |> |>,
     mkConfigUpdate false "component id must not be empty" 0) else
  if apply_on_epoch_boundary then
    let s := if pending_transaction_id s =? 0
             then s <| pending_transaction_id := next_transaction_id s |> <| next_transaction_id ::= S |> else s in
    (s <| pending_component_configs ::= <[component_id := config]> |>
       <| config_metrics ::= fun m => m <| cm_staged_update_count ::= S |> |>,
     mkConfigUpdate true "" (pending_transaction_id s))
  else
    let id := next_transaction_id s in
    let s := set_component_config component_id config s
               <| config_metrics ::= fun m => m <| cm_immediate_update_count ::= S |> |> <| next_transaction_id ::= S |> in
    (record_transaction id now [component_id] s, mkConfigUpdate true "" id).
Definition rollback_pending_updates (s : ConfigSnapshotStore) : ConfigSnapshotStore * nat :=
  let rolled_back := size (pending_component_configs s) in
  (s <| pending_component_configs := ∅ |> <| pending_transaction_id := 0 |>
     <| config_metrics ::= fun m => m <| cm_rolled_back_update_count ::= fun n => n + rolled_back |>
          <| cm_rejected_update_count ::= fun n => n + rolled_back |> |>, rolled_back).
Definition commit_config_epoch (now : Z) (s : ConfigSnapshotStore) : ConfigSnapshotStore * nat :=
  let pending := map_items (pending_component_configs s) in
  let committed := size (pending_component_configs s) in
  let configs := fold_left (fun m '(id, config) => <[id := config]> m) pending (component_configs s) in
  let s' := s <| component_configs := configs |> <| pending_component_configs := ∅ |>
              <| config_metrics ::= fun m => m <| cm_epoch ::= S |> <| cm_committed_update_count ::= fun n => n + committed |>
                   <| cm_component_config_count := size configs |> |> in
  if committed =? 0 then (s', committed)
  else (record_transaction (pending_transaction_id s) now pending.*1 s' <| pending_transaction_id := 0 |>, committed).
Definition config_store_metrics (s : ConfigSnapshotStore) : ConfigSnapshotStoreMetrics :=
  (config_metrics s) <| cm_component_config_count := size (component_configs s) |>.

(** ** Specification of the state store: committed and staged values by namespace and key *)
(** How many writes were staged, committed and refused, and how many snapshots were taken. *)
Record Tallies := mkTallies { staged_writes : nat; committed_writes : nat; refused_writes : nat; snapshot_reads : nat }.
#[export] Instance eta_Tallies : Eta Tallies := fun c => mkTallies (staged_writes c) (committed_writes c) (refused_writes c) (snapshot_reads c).
(** A version counts the values that a key was given: its accepted seeds and its committed writes. *)
Record Blackboard := mkBlackboard {
  committed : gmap (string * string) RuntimePayload; staged : gmap (string * string) RuntimePayload;
  owners : gmap (string * string) string; versions : gmap (string * string) nat; boundaries : nat; tallies : Tallies }.
Definition empty_blackboard : Blackboard := mkBlackboard ∅ ∅ ∅ ∅ 0 (mkTallies 0 0 0 0).
(** The reason to refuse a write, if there is one. *)
Definition write_refused (name_space key writer : string) (payload : RuntimePayloadPtr) (b : Blackboard) : option string :=
  if str_empty name_space then Some "state namespace must not be empty" else
  if str_empty key then Some "state key must not be empty" else
  if str_empty writer then Some "state writer must be an explicit component.port" else
  if negb (is_set payload) then Some "state payload must not be null" else
  match owners b !! (name_space, key) with
  | Some owner => if str_eqb owner writer then None
                  else Some ("state key " +:+ name_space +:+ "." +:+ key +:+ " already has writer " +:+ owner)
  | None => None
  end.
Definition put (k : string * string) (p : RuntimePayloadPtr) (m : gmap (string * string) RuntimePayload) :
    gmap (string * string) RuntimePayload := match p with Some v => <[k := v]> m | None => m end.

Inductive StateOp :=
  | OSeed (name_space key writer : string) (payload : RuntimePayloadPtr)
  | OStage (name_space key writer : string) (payload : RuntimePayloadPtr)
  | OCommit
  | OSnapshot (name_space : string)
  | ORead (name_space key : string)
  | OMetrics.
Inductive StateAnswer :=
  | AWrite (result : RuntimeStateWriteResult)
  | ACommit (count : nat)
  | ASnapshot (s : RuntimeStateSnapshot)
  | ARead (p : RuntimePayloadPtr)
  | AMetrics (metrics : RuntimeStateStoreMetrics).
Definition blackboard_values (name_space : string) (b : Blackboard) : gmap string RuntimePayload :=
  map_at ∅ (map_curry (M1 := gmap string) (M2 := gmap string) (committed b)) name_space.
Definition blackboard_write (name_space key writer : string) (payload : RuntimePayloadPtr)
    (f : Blackboard → Blackboard) (b : Blackboard) : Blackboard * StateAnswer :=
  match write_refused name_space key writer payload b with
  | Some reason => (mkBlackboard (committed b) (staged b) (owners b) (versions b) (boundaries b) ((tallies b) <| refused_writes ::= S |>),
      AWrite (mkStateWrite false reason))
  | None => (f b, AWrite (mkStateWrite true ""))
  end.
Definition version_of (b : Blackboard) (k : string * string) : nat := default 0 (versions b !! k).
Definition count_snapshot (b : Blackboard) : Blackboard :=
  mkBlackboard (committed b) (staged b) (owners b) (versions b) (boundaries b) ((tallies b) <| snapshot_reads ::= S |>).
Definition blackboard_metrics (b : Blackboard) : RuntimeStateStoreMetrics :=
  mkStateMetrics (boundaries b) (size (set_map (D := gset string) fst (dom (owners b)))) (size (committed b))
    (staged_writes (tallies b)) (committed_writes (tallies b)) (refused_writes (tallies b)) (snapshot_reads (tallies b)).
Definition blackboard_step (op : StateOp) (b : Blackboard) : Blackboard * StateAnswer :=
  match op with
  | OSeed ns k w p => blackboard_write ns k w p (fun b =>
      mkBlackboard (put (ns, k) p (committed b)) (delete (ns, k) (staged b)) (<[(ns, k) := w]> (owners b))
        (<[(ns, k) := S (version_of b (ns, k))]> (versions b)) (boundaries b) (tallies b)) b
  | OStage ns k w p => blackboard_write ns k w p (fun b =>
      mkBlackboard (committed b) (put (ns, k) p (staged b)) (<[(ns, k) := w]> (owners b))
        (<[(ns, k) := version_of b (ns, k)]> (versions b)) (boundaries b) ((tallies b) <| staged_writes ::= S |>)) b
  | OCommit =>
      (mkBlackboard (staged b ∪ committed b) ∅ (owners b)
         (map_imap (fun k version => Some (if decide (is_Some (staged b !! k)) then S version else version)) (versions b))
         (S (boundaries b)) ((tallies b) <| committed_writes ::= fun n => n + size (staged b) |>), ACommit (size (staged b)))
  | OSnapshot ns => (count_snapshot b, ASnapshot (mkStateSnapshot ns (boundaries b) (blackboard_values ns b)))
  | ORead ns k => (count_snapshot b, ARead (committed b !! (ns, k)))
  | OMetrics => (b, AMetrics (blackboard_metrics b))
  end.
Definition store_step (op : StateOp) (s : RuntimeStateStore) : RuntimeStateStore * StateAnswer :=
  match op with
  | OSeed ns k w p => let '(s, r) := seed_value ns k w p s in (s, AWrite r)
  | OStage ns k w p => let '(s, r) := stage_write ns k w p s in (s, AWrite r)
  | OCommit => let '(s, n) := commit_epoch_boundary s in (s, ACommit n)
  | OSnapshot ns => let '(s, snap) := snapshot ns s in (s, ASnapshot snap)
  | ORead ns k => let '(s, p) := read ns k s in (s, ARead p)
  | OMetrics => (s, AMetrics (store_metrics s))
  end.
(** The state after a sequence of operations, and the answers. *)
Fixpoint answers {S} (step : StateOp → S → S * StateAnswer) (ops : list StateOp) (s : S) : S * list StateAnswer :=
  match ops with
  | [] => (s, [])
  | op :: rest => let '(s, a) := step op s in let '(s, l) := answers step rest s in (s, a :: l)
  end.

(** The entry of a key, and the relation between the two states. *)
Definition find_entry (s : RuntimeStateStore) (k : string * string) : option StateEntry := namespaces s !! k.1 ≫= (.!! k.2).
Record represents (s : RuntimeStateStore) (b : Blackboard) : Prop := {
  rep_committed k : committed b !! k = find_entry s k ≫= entry_current;
  rep_staged k : staged b !! k = find_entry s k ≫= entry_pending;
  rep_owners k : owners b !! k = entry_writer <$> find_entry s k;
  rep_writers k e : find_entry s k = Some e → entry_writer e ≠ EmptyString;
  rep_versions k : versions b !! k = entry_version <$> find_entry s k;
  rep_namespaces ns : is_Some (namespaces s !! ns) → ∃ k, is_Some (find_entry s (ns, k));
  rep_epoch : sm_epoch (state_metrics s) = boundaries b;
  rep_tallies : tallies b = mkTallies (sm_staged_write_count (state_metrics s)) (sm_committed_write_count (state_metrics s))
    (sm_rejected_write_count (state_metrics s)) (sm_snapshot_read_count (state_metrics s)) }.

Lemma elem_of_state_entries s ns k e : (ns, k, e) ∈ state_entries s ↔ find_entry s (ns, k) = Some e.
Proof.
  unfold state_entries, find_entry. rewrite list_elem_of_bind. split.
  - intros ([ns' values]&Hin&Hm%elem_of_map_items). apply list_elem_of_fmap in Hin as ([k' e']&[= -> -> ->]&He).
    simpl. rewrite Hm. by apply elem_of_map_items.
  - simpl. destruct (namespaces s !! ns) as [values|] eqn:E; [|done]. simpl. intros He. exists (ns, values).
    split; [|by apply elem_of_map_items]. apply list_elem_of_fmap. exists (k, e). split; [done|]. by apply elem_of_map_items.
Qed.
Lemma NoDup_state_entries s : NoDup (state_entries s).*1.
Proof.
  assert (∀ l : list (string * gmap string StateEntry), NoDup l.*1 →
    NoDup (l ≫= fun '(ns, values) => (fun '(k, e) => (ns, k, e)) <$> map_items values).*1) as H; [|apply H, NoDup_map_keys].
  induction l as [|[ns values] l IH]; intros Hn; [constructor|]. rewrite fmap_cons, NoDup_cons in Hn. destruct Hn as [Hns Hn].
  rewrite bind_cons, fmap_app, NoDup_app. split; [|split; [|by apply IH]].
  - rewrite <- list_fmap_compose. apply (NoDup_fmap_1 snd). rewrite <- list_fmap_compose.
    erewrite (list_fmap_ext _ fst); [apply NoDup_map_keys|]. by intros ? [k e] ?.
  - intros [ns' k] ([[ns1 k1] e1]&[= -> ->]&H1)%list_elem_of_fmap ([[ns2 k2] e2]&[= <- <-]&H2)%list_elem_of_fmap.
    apply list_elem_of_fmap in H1 as ([? ?]&[= -> _ _]&_). apply list_elem_of_bind in H2 as ([ns3 v3]&H2&H3).
    apply list_elem_of_fmap in H2 as ([? ?]&[= -> _ _]&_). apply Hns. apply list_elem_of_fmap. by exists (ns3, v3).
Qed.
(** Counting the entries with a value counts the keys of the abstract map that holds the values. *)
Lemma count_entries (f : StateEntry → RuntimePayloadPtr) (s : RuntimeStateStore) (m : gmap (string * string) RuntimePayload) :
  (∀ k, m !! k = find_entry s k ≫= f) → count_if (fun '(_, _, e) => is_set (f e)) (state_entries s) = size m.
Proof.
  intros Hm. unfold count_if. set (p := fun '(_, _, e) => is_set (f e)).
  rewrite <- (length_map fst (List.filter p (state_entries s))), <- (size_dom m).
  assert (NoDup (map fst (List.filter p (state_entries s)))) as Hn.
  { pose proof (NoDup_state_entries s) as Hn. revert Hn. generalize (state_entries s). intros l Hn.
    induction l as [|x l IH]; [constructor|]. rewrite fmap_cons, NoDup_cons in Hn. destruct Hn as [Hx Hn]. simpl.
    destruct (p x); [|by apply IH]. simpl. constructor; [|by apply IH]. intros Hin.
    apply list_elem_of_In, List.in_map_iff in Hin as (y&Heq&Hy). apply List.filter_In in Hy as [Hy _].
    apply Hx, list_elem_of_fmap. exists y. split; [done|by apply list_elem_of_In]. }
  rewrite <- (size_list_to_set (C := gset (string * string)) _ Hn). f_equal. apply set_eq. intros [ns k].
  rewrite elem_of_list_to_set, elem_of_dom, Hm. rewrite list_elem_of_In, List.in_map_iff. split.
  - intros ([[ns' k'] e]&[= -> ->]&[Hin Hp]%List.filter_In). apply list_elem_of_In, elem_of_state_entries in Hin. rewrite Hin.
    simpl in *. destruct (f e); [eauto|done].
  - intros [v Hv]. destruct (find_entry s (ns, k)) as [e|] eqn:E; [|done]. exists (ns, k, e). split; [done|].
    apply List.filter_In. split; [by apply list_elem_of_In, elem_of_state_entries|]. simpl in *. by rewrite Hv.
Qed.

Lemma find_update_entry ns k f s k' : find_entry (update_entry ns k f s) k' =
  if decide (k' = (ns, k)) then Some (f (default new_entry (find_entry s (ns, k)))) else find_entry s k'.
Proof.
  unfold find_entry, update_entry, map_at. simpl. destruct k' as [ns' k']. simpl.
  destruct (decide (ns' = ns)) as [->|Hns].
  - rewrite lookup_insert_eq. simpl. destruct (decide (k' = k)) as [->|Hk].
    + rewrite lookup_insert_eq, decide_True by done. by destruct (namespaces s !! ns); simpl; rewrite ?lookup_empty.
    + rewrite lookup_insert_ne, decide_False by congruence. by destruct (namespaces s !! ns); simpl; rewrite ?lookup_empty.
  - by rewrite lookup_insert_ne, decide_False by congruence.
Qed.
(** The counters that are kept in the metrics; the others are computed when they are read. *)
Definition same_counters (s s' : RuntimeStateStore) : Prop :=
  sm_epoch (state_metrics s') = sm_epoch (state_metrics s) ∧
  sm_staged_write_count (state_metrics s') = sm_staged_write_count (state_metrics s) ∧
  sm_committed_write_count (state_metrics s') = sm_committed_write_count (state_metrics s) ∧
  sm_rejected_write_count (state_metrics s') = sm_rejected_write_count (state_metrics s) ∧
  sm_snapshot_read_count (state_metrics s') = sm_snapshot_read_count (state_metrics s).
Lemma validate_write_spec ns k w p s b : represents s b → let '(s', r) := validate_write ns k w p s in
  namespaces s' = namespaces s ∧
  match write_refused ns k w p b with
  | Some reason => r = mkStateWrite false reason ∧ s' = fst (reject_write reason s)
  | None => r = mkStateWrite true "" ∧ s' = s ∧ is_Some p ∧ w ≠ EmptyString ∧
      ∀ e, find_entry s (ns, k) = Some e → entry_writer e = w
  end.
Proof.
  intros R. unfold validate_write, write_refused.
  destruct (str_empty ns); [done|]. destruct (str_empty k); [done|]. destruct (str_empty w) eqn:Ew; [done|].
  assert (w ≠ EmptyString) as Hw by (intros ->; done). destruct p as [p|]; [|done].
  rewrite (rep_owners _ _ R). unfold find_entry. simpl.
  destruct (namespaces s !! ns) as [values|] eqn:En; simpl; [|naive_solver].
  destruct (values !! k) as [e|] eqn:Ee; simpl; [|naive_solver].
  assert (find_entry s (ns, k) = Some e) as Hf by (unfold find_entry; simpl; by rewrite En).
  pose proof (rep_writers _ _ R _ _ Hf) as Hne. destruct (str_empty (entry_writer e)) eqn:Ee'; [by apply str_empty_true in Ee'|].
  simpl. destruct (str_eqb (entry_writer e) w) eqn:Eq; [|done]. apply str_eqb_eq in Eq. split_and!; [done..|by eexists|done|]. intros e' [= <-]. done.
Qed.
(** Both writes store a new entry under the same checks. *)
Lemma represents_update ns k w f g s b : represents s b → w ≠ EmptyString →
  (∀ e, entry_writer (f e) = w) →
  (∀ k', committed (g b) !! k' = if decide (k' = (ns, k)) then entry_current (f (default new_entry (find_entry s (ns, k))))
                                 else committed b !! k') →
  (∀ k', staged (g b) !! k' = if decide (k' = (ns, k)) then entry_pending (f (default new_entry (find_entry s (ns, k))))
                              else staged b !! k') →
  owners (g b) = <[(ns, k) := w]> (owners b) →
  versions (g b) = <[(ns, k) := entry_version (f (default new_entry (find_entry s (ns, k))))]> (versions b) →
  boundaries (g b) = boundaries b → tallies (g b) = tallies b →
  represents (update_entry ns k f s) (g b).
Proof.
  intros R Hw Hf Hc Hs Ho Hv Hb Ht. split.
  - intros k'. rewrite Hc, find_update_entry. case_decide; [done|apply R].
  - intros k'. rewrite Hs, find_update_entry. case_decide; [done|apply R].
  - intros k'. rewrite Ho, find_update_entry. case_decide as Hk; [subst k'; by rewrite lookup_insert_eq; simpl; rewrite Hf|].
    rewrite lookup_insert_ne by done. apply R.
  - intros k' e. rewrite find_update_entry. case_decide; [intros [= <-]; by rewrite Hf|apply R].
  - intros k'. rewrite Hv, find_update_entry. case_decide as Hk; [subst k'; by rewrite lookup_insert_eq|].
    rewrite lookup_insert_ne by done. apply R.
  - intros ns' Hn. destruct (decide (ns' = ns)) as [->|Hne]; [exists k; rewrite find_update_entry, decide_True by done; by eexists|].
    unfold update_entry in Hn. simpl in Hn. rewrite lookup_insert_ne in Hn by done. destruct (rep_namespaces _ _ R _ Hn) as [k' Hk].
    exists k'. rewrite find_update_entry, decide_False by congruence. done.
  - rewrite Hb. apply R.
  - rewrite Ht. apply R.
Qed.
Lemma represents_same s s' b b' : namespaces s' = namespaces s → sm_epoch (state_metrics s') = sm_epoch (state_metrics s) →
  b' = mkBlackboard (committed b) (staged b) (owners b) (versions b) (boundaries b)
    (mkTallies (sm_staged_write_count (state_metrics s')) (sm_committed_write_count (state_metrics s'))
       (sm_rejected_write_count (state_metrics s')) (sm_snapshot_read_count (state_metrics s'))) →
  represents s b → represents s' b'.
Proof. intros Hn He -> []. split; unfold find_entry in *; simpl; rewrite ?Hn, ?He; auto. Qed.
(** The namespaces of the metrics are those of the keys that were written. *)
Lemma namespaces_counted s b : represents s b → size (namespaces s) = size (set_map (D := gset string) fst (dom (owners b))).
Proof.
  intros R. rewrite <- size_dom. f_equal. apply set_eq. intros ns. rewrite elem_of_map, elem_of_dom. setoid_rewrite elem_of_dom.
  setoid_rewrite (rep_owners _ _ R). split.
  - intros [k Hk]%(rep_namespaces _ _ R). exists (ns, k). split; [done|]. by rewrite fmap_is_Some.
  - intros ([ns' k]&->&Hk%fmap_is_Some). unfold find_entry in Hk. simpl in *. destruct (namespaces s !! ns'); [by eexists|]. by destruct Hk.
Qed.
Lemma find_entry_same s s' k : namespaces s' = namespaces s → find_entry s' k = find_entry s k.
Proof. unfold find_entry. by intros ->. Qed.
Lemma lookup_put k p m k' : is_Some p → put k p m !! k' = if decide (k' = k) then p else m !! k'.
Proof.
  intros [v ->]. simpl. case_decide as H; [subst; by rewrite lookup_insert_eq|by rewrite lookup_insert_ne].
Qed.
Lemma find_commit_entry s k : find_entry (fst (commit_epoch_boundary s)) k = commit_entry <$> find_entry s k.
Proof.
  unfold find_entry. simpl. rewrite lookup_fmap. destruct (namespaces s !! k.1) as [values|]; simpl; [|done].
  unfold commit_values. by rewrite lookup_fmap.
Qed.
Lemma snapshot_values ns s b : represents s b →
  omap entry_current (map_at ∅ (namespaces s) ns) = blackboard_values ns b.
Proof.
  intros R. apply map_eq. intros k. rewrite lookup_omap. unfold blackboard_values, map_at.
  transitivity (committed b !! (ns, k)).
  - rewrite (rep_committed _ _ R). unfold find_entry. simpl. by destruct (namespaces s !! ns); simpl; rewrite ?lookup_empty.
  - rewrite <- (lookup_map_curry (M1 := gmap string) (M2 := gmap string)).
    destruct (map_curry (committed b) !! ns); simpl; [done|by rewrite lookup_empty].
Qed.

(** Names the parts of the counters that a state represents. *)
Ltac read_tallies R := rewrite ?(rep_tallies _ _ R); simpl; rewrite ?(rep_tallies _ _ R); reflexivity.
Lemma version_entry s b k : represents s b → version_of b k = entry_version (default new_entry (find_entry s k)).
Proof. intros R. unfold version_of. rewrite (rep_versions _ _ R). by destruct (find_entry s k). Qed.
Lemma commit_represents s b : represents s b →
  represents (fst (commit_epoch_boundary s)) (fst (blackboard_step OCommit b)) ∧ snd (commit_epoch_boundary s) = size (staged b).
Proof.
  intros R. assert (snd (commit_epoch_boundary s) = size (staged b)) as Hn by apply count_entries, R. split; [|done].
  split; cbn [blackboard_step fst committed staged owners versions boundaries tallies]; intros; rewrite ?find_commit_entry in *.
  - rewrite lookup_union, (rep_committed _ _ R), (rep_staged _ _ R). destruct (find_entry s k) as [[[c|] [p|] w v]|]; done.
  - rewrite lookup_empty. destruct (find_entry s k) as [[c [p|] w v]|]; done.
  - rewrite (rep_owners _ _ R). destruct (find_entry s k) as [[c [p|] w v]|]; done.
  - destruct (find_entry s k) as [[c [p|] w v]|] eqn:Ek; simplify_eq/=; apply (rep_writers _ _ R _ _ Ek).
  - rewrite map_lookup_imap, (rep_versions _ _ R), (rep_staged _ _ R). destruct (find_entry s k) as [[c [p|] w v]|]; simpl; [| |done].
    + done.
    + done.
  - simpl in *. rewrite lookup_fmap in H. apply fmap_is_Some in H as (k&Hk)%(rep_namespaces _ _ R). exists k.
    rewrite (find_commit_entry s). by apply fmap_is_Some.
  - simpl. by rewrite (rep_epoch _ _ R).
  - unfold commit_epoch_boundary in *. simpl in *. rewrite Hn. read_tallies R.
Qed.
Lemma step_simulation op s b : represents s b →
  represents (fst (store_step op s)) (fst (blackboard_step op b)) ∧ snd (store_step op s) = snd (blackboard_step op b).
Proof.
  intros R. destruct op as [ns k w p|ns k w p| |ns|ns k|]; cbn [store_step blackboard_step].
  - unfold seed_value, blackboard_write. pose proof (validate_write_spec ns k w p s b R) as H.
    destruct (validate_write ns k w p s) as [s' r]. destruct H as (Hn&H).
    destruct (write_refused ns k w p b) as [reason|]; [|].
    { destruct H as [-> ->]. simpl. split; [|done]. eapply represents_same; [..|exact R]; [done|done|]. simpl. f_equal. read_tallies R. }
    destruct H as (->&->&Hp&Hw&_). simpl. split; [|done].
    eapply (represents_update ns k w _ (fun b => mkBlackboard _ _ _ _ _ _)); [exact R|done|done| | |done| |done|done]; simpl.
    + intros k'. by rewrite lookup_put.
    + intros k'. case_decide; [subst; by rewrite lookup_delete_eq|by rewrite lookup_delete_ne].
    + by rewrite (version_entry s b) by done.
  - unfold stage_write, blackboard_write. pose proof (validate_write_spec ns k w p s b R) as H.
    destruct (validate_write ns k w p s) as [s' r]. destruct H as (Hn&H).
    destruct (write_refused ns k w p b) as [reason|]; [|].
    { destruct H as [-> ->]. simpl. split; [|done]. eapply represents_same; [..|exact R]; [done|done|]. simpl. f_equal. read_tallies R. }
    destruct H as (->&->&Hp&Hw&_). simpl. split; [|done].
    eapply (represents_same (update_entry ns k (fun e => e <| entry_pending := p |> <| entry_writer := w |>) s) _
      (mkBlackboard (committed b) (put (ns, k) p (staged b)) (<[(ns, k) := w]> (owners b))
        (<[(ns, k) := version_of b (ns, k)]> (versions b)) (boundaries b) (tallies b))); [done|done|simpl; f_equal; read_tallies R|].
    eapply (represents_update ns k w _ (fun b => mkBlackboard _ _ _ _ _ _)); [exact R|done|done| | |done| |done|done]; simpl.
    + intros k'. case_decide as Hk; [|done]. subst k'. rewrite (rep_committed _ _ R). by destruct (find_entry s (ns, k)).
    + intros k'. by rewrite lookup_put.
    + by rewrite (version_entry s b) by done.
  - destruct (commit_represents s b R) as [R' Hn]. destruct (commit_epoch_boundary s) as [s' n]. simpl in *. by rewrite Hn.
  - simpl. split; [eapply represents_same; [..|exact R]; [done|done|simpl; unfold count_snapshot; f_equal; read_tallies R]|].
    by rewrite (rep_epoch _ _ R), (snapshot_values _ _ _ R).
  - simpl. split; [eapply represents_same; [..|exact R]; [done|done|simpl; unfold count_snapshot; f_equal; read_tallies R]|].
    unfold snapshot_get. simpl. rewrite lookup_omap. f_equal.
    rewrite (rep_committed _ _ R). unfold find_entry, map_at. simpl. by destruct (namespaces s !! ns); simpl; rewrite ?lookup_empty.
  - simpl. split; [done|]. unfold store_metrics, blackboard_metrics, current_value_count. f_equal. rewrite (rep_tallies _ _ R), <- (namespaces_counted s b R).
    rewrite (count_entries entry_current s (committed b)) by apply R. rewrite <- (rep_epoch _ _ R). done.
Qed.
Lemma represents_empty : represents empty_state_store empty_blackboard.
Proof.
  split; intros; unfold find_entry in *; simpl in *; rewrite ?lookup_empty in *; try done.
Qed.

(** C37. The state store refines the abstract blackboard: over any sequence of operations both give the same answers, the metrics
    included, and end in states that represent each other: the same committed and staged values, writers and versions.  A
    staged write is therefore visible to no snapshot before the next boundary, and all staged writes become visible
    there together; every key keeps the writer that wrote it first; the version of a key counts its accepted seeds and its
    committed writes; and the count of a commit is the number of keys that were staged. *)
Theorem state_store_refines ops :
  let '(s, store_answers) := answers store_step ops empty_state_store in
  let '(b, board_answers) := answers blackboard_step ops empty_blackboard in
  store_answers = board_answers ∧ represents s b.
Proof.
  pose proof represents_empty as R. revert R. generalize empty_state_store, empty_blackboard.
  induction ops as [|op ops IH]; intros s b R; [done|]. cbn [answers]. destruct (step_simulation op s b R) as [R' Ha].
  destruct (store_step op s) as [s' a], (blackboard_step op b) as [b' a']. simpl in *. specialize (IH _ _ R').
  destruct (answers store_step ops s'), (answers blackboard_step ops b'). destruct IH as [-> IH]. by rewrite Ha.
Qed.

(** ** The log of a config store

    What the store applied, in order: an initial configuration has no transaction id, an immediate update and a commit
    of staged updates have one. *)
Record AppliedUpdate := mkApplied { applied_id : option nat; applied_configs : gmap string ConfigView }.
Inductive ConfigOp :=
  | OSetGraph (config : ConfigView)
  | OSetComponent (component_id : string) (config : ConfigView)
  | OReadGraph
  | OReadComponent (component_id : string)
  | OStageConfig (component_id : string) (config : ConfigView) (apply_on_epoch_boundary : bool) (now : Z)
  | ORollback
  | OCommitConfig (now : Z).
Definition config_step (s : ConfigSnapshotStore) (op : ConfigOp) : ConfigSnapshotStore :=
  match op with
  | OSetGraph config => set_graph_config config s
  | OSetComponent id config => set_component_config id config s
  | OReadGraph => fst (read_graph_config s)
  | OReadComponent id => fst (read_component_config id s)
  | OStageConfig id config boundary now => fst (stage_component_config_update id config boundary now s)
  | ORollback => fst (rollback_pending_updates s)
  | OCommitConfig now => fst (commit_config_epoch now s)
  end.
(** The update an operation applies in a state. *)
Definition applied_by (s : ConfigSnapshotStore) (op : ConfigOp) : list AppliedUpdate :=
  match op with
  | OSetComponent id config => [mkApplied None {[id := config]}]
  | OStageConfig id config false _ =>
      if str_empty id then [] else [mkApplied (Some (next_transaction_id s)) {[id := config]}]
  | OCommitConfig _ =>
      if decide (pending_component_configs s = ∅) then []
      else [mkApplied (Some (pending_transaction_id s)) (pending_component_configs s)]
  | _ => []
  end.
Definition logged_step (sl : ConfigSnapshotStore * list AppliedUpdate) (op : ConfigOp) : ConfigSnapshotStore * list AppliedUpdate :=
  (config_step sl.1 op, sl.2 ++ applied_by sl.1 op).
Definition logged_run (ops : list ConfigOp) : ConfigSnapshotStore * list AppliedUpdate :=
  fold_left logged_step ops (empty_config_store, []).
Definition active_configs (log : list AppliedUpdate) : gmap string ConfigView :=
  fold_left (fun m u => applied_configs u ∪ m) log ∅.
Definition transaction_ids (log : list AppliedUpdate) : list nat := omap applied_id log.

Record config_inv (s : ConfigSnapshotStore) (log : list AppliedUpdate) : Prop := {
  ci_active : component_configs s = active_configs log;
  ci_unique : NoDup (transaction_ids log);
  ci_ids id : id ∈ transaction_ids log → 0 < id < next_transaction_id s;
  ci_next : 0 < next_transaction_id s;
  ci_version : cm_version (config_metrics s) = length (transaction_ids log);
  ci_last : cm_last_transaction_id (config_metrics s) = default 0 (last (transaction_ids log));
  ci_last_info : tx_transaction_id (store_last_transaction s) = cm_last_transaction_id (config_metrics s) ∧
    tx_version (store_last_transaction s) = cm_version (config_metrics s);
  ci_idle : pending_transaction_id s = 0 ↔ pending_component_configs s = ∅;
  ci_pending : pending_transaction_id s ∉ transaction_ids log ∧ pending_transaction_id s < next_transaction_id s }.

Lemma active_configs_snoc log u : active_configs (log ++ [u]) = applied_configs u ∪ active_configs log.
Proof. unfold active_configs. by rewrite fold_left_app. Qed.
Lemma transaction_ids_snoc log id configs : transaction_ids (log ++ [mkApplied (Some id) configs]) = transaction_ids log ++ [id].
Proof. unfold transaction_ids. by rewrite omap_app. Qed.
Lemma transaction_ids_initial log configs : transaction_ids (log ++ [mkApplied None configs]) = transaction_ids log.
Proof. unfold transaction_ids. rewrite omap_app. simpl. by rewrite app_nil_r. Qed.
(** The loop of the commit writes the pending configurations over the active ones. *)
Lemma fold_insert_union (pending active : gmap string ConfigView) :
  fold_left (fun m '(id, config) => <[id := config]> m) (map_items pending) active = pending ∪ active.
Proof.
  assert (∀ l : list (string * ConfigView), NoDup l.*1 → ∀ (m : gmap string ConfigView) (k : string),
    fold_left (fun m '(id, config) => <[id := config]> m) l m !! k =
    match list_to_map (M := gmap string ConfigView) l !! k with Some c => Some c | None => m !! k end) as H.
  { induction l as [|[id config] l IH]; intros Hn m k; [done|]. rewrite fmap_cons, NoDup_cons in Hn.
    destruct Hn as [Hid Hn]. cbn [fold_left list_to_map]. rewrite IH by done. destruct (decide (id = k)) as [->|Hk].
    - simpl. rewrite !lookup_insert_eq. by rewrite (not_elem_of_list_to_map_1 l k).
    - simpl. by rewrite !lookup_insert_ne. }
  apply map_eq. intros k. rewrite H by apply NoDup_map_keys. rewrite lookup_union.
  replace (list_to_map (M := gmap string ConfigView) (map_items pending)) with pending;
    [by destruct (pending !! k), (active !! k)|].
  symmetry. rewrite <- (list_to_map_to_list pending) at 2. apply list_to_map_proper; [apply NoDup_map_keys|apply map_items_perm].
Qed.

Lemma config_step_inv s log op : config_inv s log → config_inv (config_step s op) (log ++ applied_by s op).
Proof.
  intros I. pose proof I as [Ha Hu Hi Hx Hv Hl [Hl1 Hl2] Hd [Hp1 Hp2]].
  destruct op as [config|id config| |id|id config boundary now| |now]; cbn [config_step applied_by]; rewrite ?app_nil_r.
  - by split.
  - split; simpl; rewrite ?transaction_ids_initial; auto. rewrite active_configs_snoc, Ha. simpl. by rewrite insert_union_singleton_l.
  - by split.
  - by split.
  - unfold stage_component_config_update. destruct (str_empty id); [destruct boundary; rewrite app_nil_r; by split|].
    destruct boundary; cbn [fst].
    + rewrite app_nil_r. destruct (Nat.eqb_spec (pending_transaction_id s) 0) as [Hz|Hz]; split; simpl; auto.
      * intros x Hx'. specialize (Hi x Hx'). lia.
      * split; [lia|]. intros H. by apply insert_non_empty in H.
      * split; [|lia]. intros Hin. specialize (Hi _ Hin). lia.
      * split; [done|]. intros H. by apply insert_non_empty in H.
    + split; simpl; rewrite ?transaction_ids_snoc; auto.
      * rewrite active_configs_snoc, Ha. simpl. by rewrite insert_union_singleton_l.
      * apply NoDup_app. split; [done|]. split; [|apply NoDup_singleton]. intros x Hx' ->%list_elem_of_singleton.
        specialize (Hi _ Hx'). lia.
      * intros x [Hx'|Hx'%list_elem_of_singleton]%elem_of_app; [specialize (Hi x Hx')|]; lia.
      * rewrite length_app, Hv. simpl. lia.
      * by rewrite last_snoc.
      * split; [|lia]. rewrite elem_of_app, list_elem_of_singleton. intros [?|?]; [done|lia].
  - split; simpl; auto; [done|]. split; [|lia]. intros Hin. specialize (Hi _ Hin). lia.
  - unfold commit_config_epoch. rewrite fold_insert_union. destruct (decide (pending_component_configs s = ∅)) as [He|He].
    + rewrite He, map_size_empty, app_nil_r. simpl. split; simpl; auto; [by rewrite (left_id_L ∅ (∪))|]. by rewrite Hd, He.
    + destruct (Nat.eqb_spec (size (pending_component_configs s)) 0) as [Hz|_]; [by apply map_size_empty_inv in Hz|].
      assert (pending_transaction_id s ≠ 0) as Hn by (by rewrite Hd). cbn [fst]. split; simpl; rewrite ?transaction_ids_snoc; auto.
      * by rewrite active_configs_snoc, Ha.
      * apply NoDup_app. split; [done|]. split; [|apply NoDup_singleton]. by intros x Hx' ->%list_elem_of_singleton.
      * intros x [Hx'|Hx'%list_elem_of_singleton]%elem_of_app; [by apply Hi|lia].
      * rewrite length_app, Hv. simpl. lia.
      * by rewrite last_snoc.
      * done.
      * split; [|lia]. rewrite elem_of_app, list_elem_of_singleton. intros [H%Hi|H]; lia.
Qed.

(** The config store is explained by the log of the updates it applied.  After any operations the active configuration
    is the log, newest first, so that a rolled-back update leaves no trace; every applied transaction has its own id;
    the version is the number of transactions and the last id is that of the last one; and a transaction is open exactly
    while updates are pending. *)
Theorem config_store_logged ops : let '(s, log) := logged_run ops in config_inv s log.
Proof.
  unfold logged_run. assert (config_inv empty_config_store []) as I.
  { split; simpl; auto using NoDup_nil_2; [by intros ? ?%elem_of_nil|done|split; [by intros ?%elem_of_nil|lia]]. }
  revert I. generalize empty_config_store, (@nil AppliedUpdate).
  induction ops as [|op ops IH]; intros s log I; [done|]. cbn [fold_left logged_step]. by apply IH, config_step_inv.
Qed.
