(* ===== verification/LiveObserve.v ===== *)
(** * LiveObserve: the lossy event stream for live observers

    Models [src/live_observe.cpp] and [live_event.hpp]: a ring buffer between the runtime, which pushes, and an
    observer, which pops, without locks; a stream that numbers the events; and a session that can be switched off.
    The ring buffer is modelled twice from the same primitives: as functions, for one call at a time, and as a step
    relation in which every atomic access of the two threads is a step, so that the calls interleave.  Acquire and
    release on the two indices make each access of the other thread's index a step of an interleaving.
    [spsc_refines_fifo] shows that every interleaving behaves as a bounded queue. *)

From S2P Require Export Prelude.
Local Open Scope nat_scope.

(** ** Events *)
Inductive LiveEventKind :=
  | kRunStarted | kRunFinished | kSchedulerEpochBegin | kSchedulerEpochEnd | kComponentBegin | kComponentEnd
  | kComponentError | kChannelPublishSummary | kChannelCommitSummary | kChannelDrop | kChannelReject | kChannelOverwrite
  | kTriggerReadySummary | kTriggerSuppressedSummary | kAsyncAdmission | kAsyncReject | kAsyncDrop | kLoopIterationBegin
  | kLoopIterationEnd | kLoopConverged | kLoopBudgetOverrun | kLoopMaxIterationsHit | kLoopError | kHealthEvent
  | kRuntimeError | kObserverDropSummary.
Inductive LiveEventExactness := kExact | kAggregated | kSampled | kLossy | kPartial.
Inductive LiveEventSeverity := kTrace | kDebug | kInfo | kWarning | kError.
Record LiveEvent := mkLiveEvent {
  ev_local_seq : nat; ev_mono_ns : Z; ev_stream_id : Z; ev_epoch_id : Z; ev_kind : Z; ev_flags : Z; ev_lane_id : Z;
  ev_worker_id : Z; ev_component_id : Z; ev_channel_id : Z; ev_loop_id : Z; ev_policy_id : Z; ev_reason_id : Z;
  ev_reserved0 : Z; ev_value0 : nat; ev_value1 : nat; ev_value2 : Z; ev_value3 : Z }.
#[export] Instance eta_LiveEvent : Eta LiveEvent := fun e =>
  mkLiveEvent (ev_local_seq e) (ev_mono_ns e) (ev_stream_id e) (ev_epoch_id e) (ev_kind e) (ev_flags e) (ev_lane_id e)
    (ev_worker_id e) (ev_component_id e) (ev_channel_id e) (ev_loop_id e) (ev_policy_id e) (ev_reason_id e)
    (ev_reserved0 e) (ev_value0 e) (ev_value1 e) (ev_value2 e) (ev_value3 e).
Definition empty_event : LiveEvent := mkLiveEvent 0 0 0 0 0 0 0 0 0 0 0 0 0 0 0 0 0 0.
Definition encode_kind (kind : LiveEventKind) : Z :=
  match kind with
  | kRunStarted => 1 | kRunFinished => 2 | kSchedulerEpochBegin => 3 | kSchedulerEpochEnd => 4 | kComponentBegin => 5
  | kComponentEnd => 6 | kComponentError => 7 | kChannelPublishSummary => 8 | kChannelCommitSummary => 9
  | kChannelDrop => 10 | kChannelReject => 11 | kChannelOverwrite => 12 | kTriggerReadySummary => 13
  | kTriggerSuppressedSummary => 14 | kAsyncAdmission => 15 | kAsyncReject => 16 | kAsyncDrop => 17
  | kLoopIterationBegin => 18 | kLoopIterationEnd => 19 | kLoopConverged => 20 | kLoopBudgetOverrun => 21
  | kLoopMaxIterationsHit => 22 | kLoopError => 23 | kHealthEvent => 24 | kRuntimeError => 25 | kObserverDropSummary => 26
  end%Z.
Definition encode_exactness (exactness : LiveEventExactness) : Z :=
  match exactness with kExact => 1 | kAggregated => 2 | kSampled => 3 | kLossy => 4 | kPartial => 5 end%Z.
Definition encode_severity (severity : LiveEventSeverity) : Z :=
  match severity with kTrace => 1 | kDebug => 2 | kInfo => 3 | kWarning => 4 | kError => 5 end%Z.

(** ** The ring buffer *)
Record LiveEventRingBuffer := mkRing {
  ring_buffer : list LiveEvent; ring_capacity : nat; read_index : nat; write_index : nat;
  ring_dropped : nat; ring_pending_drops : nat }.
#[export] Instance eta_LiveEventRingBuffer : Eta LiveEventRingBuffer := fun b =>
  mkRing (ring_buffer b) (ring_capacity b) (read_index b) (write_index b) (ring_dropped b) (ring_pending_drops b).
Definition LiveEventRingBuffer_new (capacity : nat) : LiveEventRingBuffer :=
  mkRing (if capacity =? 0 then [] else replicate (S capacity) empty_event) capacity 0 0 0 0.
Definition ring_empty (b : LiveEventRingBuffer) : bool := read_index b =? write_index b.
Definition increment (b : LiveEventRingBuffer) (value : nat) : nat :=
  if S value =? length (ring_buffer b) then 0 else S value.

(** The writes of the two threads. *)
Definition count_dropped (b : LiveEventRingBuffer) : LiveEventRingBuffer := b <| ring_dropped ::= S |>.
Definition count_pending (b : LiveEventRingBuffer) : LiveEventRingBuffer := b <| ring_pending_drops ::= S |>.
Definition store_slot (w : nat) (e : LiveEvent) (b : LiveEventRingBuffer) : LiveEventRingBuffer :=
  b <| ring_buffer ::= <[w := e]> |>.
Definition publish_slot (w : nat) (b : LiveEventRingBuffer) : LiveEventRingBuffer := b <| write_index := increment b w |>.
Definition release_slot (r : nat) (b : LiveEventRingBuffer) : LiveEventRingBuffer := b <| read_index := increment b r |>.

Definition try_push (b : LiveEventRingBuffer) (event : LiveEvent) : LiveEventRingBuffer * bool :=
  if ring_capacity b =? 0 then (count_pending (count_dropped b), false) else
  let w := write_index b in
  if increment b w =? read_index b then (count_pending (count_dropped b), false)
  else (publish_slot w (store_slot w event b), true).
(** The event read, when there is one. *)
Definition try_pop (b : LiveEventRingBuffer) : LiveEventRingBuffer * option LiveEvent :=
  if ring_capacity b =? 0 then (b, None) else
  let r := read_index b in
  if r =? write_index b then (b, None)
  else (release_slot r b, Some (default empty_event (ring_buffer b !! r))).
Definition take_pending_drop_count (b : LiveEventRingBuffer) : LiveEventRingBuffer * nat :=
  (b <| ring_pending_drops := 0 |>, ring_pending_drops b).

(** ** Streams and sessions *)
Record LiveEventStream := mkStream { stream_stream_id : Z; stream_buffer : LiveEventRingBuffer; stream_local_seq : nat }.
#[export] Instance eta_LiveEventStream : Eta LiveEventStream := fun s =>
  mkStream (stream_stream_id s) (stream_buffer s) (stream_local_seq s).
Definition LiveEventStream_new (stream_id : Z) (capacity : nat) : LiveEventStream :=
  mkStream stream_id (LiveEventRingBuffer_new capacity) 0.
Definition next_local_seq (s : LiveEventStream) : LiveEventStream * nat :=
  (s <| stream_local_seq ::= S |>, S (stream_local_seq s)).
Definition stream_try_publish (s : LiveEventStream) (event : LiveEvent) : LiveEventStream * bool :=
  let '(s, seq) := next_local_seq s in
  let queued := event <| ev_stream_id := stream_stream_id s |> <| ev_local_seq := seq |> in
  let '(b, pushed) := try_push (stream_buffer s) queued in (s <| stream_buffer := b |>, pushed).
Definition stream_try_pop (s : LiveEventStream) : LiveEventStream * option LiveEvent :=
  let '(b, event) := try_pop (stream_buffer s) in (s <| stream_buffer := b |>, event).
Definition stream_take_drop_summary (mono_ns affected_kind : Z) (s : LiveEventStream) : LiveEventStream * option LiveEvent :=
  let '(b, pending_drops) := take_pending_drop_count (stream_buffer s) in
  let s := s <| stream_buffer := b |> in
  if pending_drops =? 0 then (s, None) else
  let '(s, seq) := next_local_seq s in
  (s, Some (empty_event <| ev_local_seq := seq |> <| ev_mono_ns := mono_ns |> <| ev_stream_id := stream_stream_id s |>
    <| ev_kind := encode_kind kObserverDropSummary |> <| ev_flags := encode_exactness kLossy |>
    <| ev_reason_id := encode_severity kWarning |> <| ev_value0 := pending_drops |>
    <| ev_value1 := ring_dropped (stream_buffer s) |> <| ev_value2 := affected_kind |>)).

Inductive LiveObserveLevel := kOff | kSummary | kDetailed | kDebugLevel.
Record LiveObserveOptions := mkObserveOptions { observe_level : LiveObserveLevel; event_buffer_capacity : nat; observe_stream_id : Z }.
Record LiveObserveSession := mkSession { session_options : LiveObserveOptions; session_stream : LiveEventStream }.
#[export] Instance eta_LiveObserveSession : Eta LiveObserveSession := fun s => mkSession (session_options s) (session_stream s).
Definition LiveObserveSession_new (options : LiveObserveOptions) : LiveObserveSession :=
  mkSession options (LiveEventStream_new (observe_stream_id options) (event_buffer_capacity options)).

Section session.
(** [kLiveObserveCompiledIn]: whether the build has live observation. *)
Context (kLiveObserveCompiledIn : bool).
Definition session_enabled (s : LiveObserveSession) : bool :=
  kLiveObserveCompiledIn && match observe_level (session_options s) with kOff => false | _ => true end.
Definition session_try_publish (s : LiveObserveSession) (event : LiveEvent) : LiveObserveSession * bool :=
  if negb (session_enabled s) then (s, false) else
  let '(stream, pushed) := stream_try_publish (session_stream s) event in (s <| session_stream := stream |>, pushed).
(** The loop pops at most what the buffer holds: its capacity is enough fuel. *)
Fixpoint drain_loop (fuel max_events : nat) (stream : LiveEventStream) (events : list LiveEvent)
    : LiveEventStream * list LiveEvent :=
  match fuel with
  | 0 => (stream, events)
  | S fuel' =>
      if (max_events =? 0) || (length events <? max_events) then
        match stream_try_pop stream with
        | (stream', Some event) => drain_loop fuel' max_events stream' (events ++ [event])
        | (stream', None) => (stream', events)
        end
      else (stream, events)
  end.
Definition session_drain (max_events : nat) (s : LiveObserveSession) : LiveObserveSession * list LiveEvent :=
  if negb (session_enabled s) then (s, []) else
  let '(stream, events) := drain_loop (S (ring_capacity (stream_buffer (session_stream s)))) max_events (session_stream s) [] in
  (s <| session_stream := stream |>, events).
Definition session_take_drop_summary (mono_ns affected_kind : Z) (s : LiveObserveSession)
    : LiveObserveSession * option LiveEvent :=
  if negb (session_enabled s) then (s, None) else
  let '(stream, event) := stream_take_drop_summary mono_ns affected_kind (session_stream s) in
  (s <| session_stream := stream |>, event).
Definition session_dropped_event_count (s : LiveObserveSession) : nat :=
  if negb (session_enabled s) then 0 else ring_dropped (stream_buffer (session_stream s)).
End session.

(** ** Two threads on one ring buffer

    One thread pushes; the other pops and takes the drop counts.  A thread between two calls is idle; inside a call it
    holds the values it has loaded. *)
Inductive ProducerPc :=
  | PIdle
  | PCheck (event : LiveEvent) (w : nat)
  | PCount
  | PStore (event : LiveEvent) (w : nat)
  | PPublish (event : LiveEvent) (w : nat).
Inductive ConsumerPc :=
  | CIdle
  | CCheck (r : nat)
  | CLoad (r : nat)
  | CAdvance (r : nat) (event : LiveEvent).
Record RingMachine := mkMachine { m_ring : LiveEventRingBuffer; m_producer : ProducerPc; m_consumer : ConsumerPc }.
(** What a call does, at the access that decides it. *)
Inductive RingLabel :=
  | LPushed (event : LiveEvent) | LFull (event : LiveEvent) | LPopped (event : LiveEvent) | LEmpty | LTaken (count : nat).
Inductive ring_step : RingMachine → option RingLabel → RingMachine → Prop :=
  | push_off b c e : ring_capacity b = 0 →
      ring_step (mkMachine b PIdle c) (Some (LFull e)) (mkMachine (count_dropped b) PCount c)
  | push_begin b c e : ring_capacity b ≠ 0 →
      ring_step (mkMachine b PIdle c) None (mkMachine b (PCheck e (write_index b)) c)
  | push_full b c e w : increment b w = read_index b →
      ring_step (mkMachine b (PCheck e w) c) (Some (LFull e)) (mkMachine (count_dropped b) PCount c)
  | push_room b c e w : increment b w ≠ read_index b →
      ring_step (mkMachine b (PCheck e w) c) None (mkMachine b (PStore e w) c)
  | push_count b c : ring_step (mkMachine b PCount c) None (mkMachine (count_pending b) PIdle c)
  | push_store b c e w : ring_step (mkMachine b (PStore e w) c) None (mkMachine (store_slot w e b) (PPublish e w) c)
  | push_publish b c e w :
      ring_step (mkMachine b (PPublish e w) c) (Some (LPushed e)) (mkMachine (publish_slot w b) PIdle c)
  | pop_off b p : ring_capacity b = 0 → ring_step (mkMachine b p CIdle) (Some LEmpty) (mkMachine b p CIdle)
  | pop_begin b p : ring_capacity b ≠ 0 → ring_step (mkMachine b p CIdle) None (mkMachine b p (CCheck (read_index b)))
  | pop_empty b p r : r = write_index b → ring_step (mkMachine b p (CCheck r)) (Some LEmpty) (mkMachine b p CIdle)
  | pop_ready b p r : r ≠ write_index b → ring_step (mkMachine b p (CCheck r)) None (mkMachine b p (CLoad r))
  | pop_load b p r :
      ring_step (mkMachine b p (CLoad r)) None (mkMachine b p (CAdvance r (default empty_event (ring_buffer b !! r))))
  | pop_advance b p r e :
      ring_step (mkMachine b p (CAdvance r e)) (Some (LPopped e)) (mkMachine (release_slot r b) p CIdle)
  | take_drops b p : ring_step (mkMachine b p CIdle) (Some (LTaken (snd (take_pending_drop_count b))))
      (mkMachine (fst (take_pending_drop_count b)) p CIdle).
Inductive ring_run (m : RingMachine) : list RingLabel → RingMachine → Prop :=
  | run_start : ring_run m [] m
  | run_step tr m1 l m2 : ring_run m tr m1 → ring_step m1 l m2 → ring_run m (tr ++ option_list l) m2.
Definition machine_start (capacity : nat) : RingMachine := mkMachine (LiveEventRingBuffer_new capacity) PIdle CIdle.

(** *** The specification: a bounded queue *)
#[export] Instance LiveEvent_eq_dec : EqDecision LiveEvent.
Proof. solve_decision. Defined.
Definition fifo_step (capacity : nat) (q : list LiveEvent) (l : RingLabel) : option (list LiveEvent) :=
  match l with
  | LPushed e => if length q <? capacity then Some (q ++ [e]) else None
  | LFull _ => if length q =? capacity then Some q else None
  | LPopped e => match q with x :: q' => if decide (x = e) then Some q' else None | [] => None end
  | LEmpty => match q with [] => Some q | _ :: _ => None end
  | LTaken _ => Some q
  end.
Fixpoint fifo_run (capacity : nat) (q : list LiveEvent) (tr : list RingLabel) : option (list LiveEvent) :=
  match tr with [] => Some q | l :: rest => q' ← fifo_step capacity q l; fifo_run capacity q' rest end.
Definition full_count (tr : list RingLabel) : nat := count_if (fun l => match l with LFull _ => true | _ => false end) tr.
Definition taken_count (tr : list RingLabel) : nat := sum_list_with (fun l => match l with LTaken n => n | _ => 0 end) tr.
(** The threads never access the same slot at the same time, and only slots of the buffer. *)
Definition accesses_safe (m : RingMachine) : Prop :=
  (∀ e w, m_producer m = PStore e w → w < length (ring_buffer (m_ring m))) ∧
  (∀ r, m_consumer m = CLoad r → r < length (ring_buffer (m_ring m))) ∧
  (∀ e w r, m_producer m = PStore e w → m_consumer m = CLoad r → w ≠ r).

(** *** The invariant

    [hist] is everything pushed so far and [front] the number of pops: the indices are their remainders. *)
#[local] Arguments Nat.modulo : simpl never.
Section invariant.
Context (capacity : nat).
Abbreviation N := (S capacity).
Record ring_inv (m : RingMachine) (hist : list LiveEvent) (front : nat) : Prop := {
  ri_capacity : ring_capacity (m_ring m) = capacity;
  ri_length : capacity ≠ 0 → length (ring_buffer (m_ring m)) = N;
  ri_read : read_index (m_ring m) = front mod N;
  ri_write : write_index (m_ring m) = length hist mod N;
  ri_bounds : front <= length hist <= front + capacity;
  ri_slots i : front <= i < length hist → ring_buffer (m_ring m) !! (i mod N) = hist !! i;
  ri_producer : match m_producer m with
    | PIdle | PCount => True
    | PCheck _ w => capacity ≠ 0 ∧ w = length hist mod N
    | PStore _ w => capacity ≠ 0 ∧ w = length hist mod N ∧ length hist < front + capacity
    | PPublish e w => capacity ≠ 0 ∧ w = length hist mod N ∧ length hist < front + capacity ∧ ring_buffer (m_ring m) !! w = Some e
    end;
  ri_consumer : match m_consumer m with
    | CIdle => True
    | CCheck r => capacity ≠ 0 ∧ r = front mod N
    | CLoad r => capacity ≠ 0 ∧ r = front mod N ∧ front < length hist
    | CAdvance r e => capacity ≠ 0 ∧ r = front mod N ∧ hist !! front = Some e
    end }.

Lemma mod_succ i : (if S (i mod N) =? N then 0 else S (i mod N)) = S i mod N.
Proof.
  pose proof (Nat.mod_upper_bound i N ltac:(lia)). pose proof (Nat.div_mod_eq i N).
  destruct (Nat.eqb_spec (S (i mod N)) N) as [He|Hne].
  - apply (Nat.mod_unique _ _ (S (i / N))); lia.
  - apply (Nat.mod_unique _ _ (i / N)); lia.
Qed.
Lemma mod_inj i j : i <= j < i + N → i mod N = j mod N → i = j.
Proof.
  intros H Hm. pose proof (Nat.div_mod_eq i N). pose proof (Nat.div_mod_eq j N).
  assert (i / N = j / N); [|lia]. assert (i / N <= j / N) by (apply Nat.Div0.div_le_mono; lia). nia.
Qed.
Lemma increment_mod b i : length (ring_buffer b) = N → increment b (i mod N) = S i mod N.
Proof. intros H. unfold increment. rewrite H. apply mod_succ. Qed.

Lemma fifo_run_app q tr1 tr2 : fifo_run capacity q (tr1 ++ tr2) = q' ← fifo_run capacity q tr1; fifo_run capacity q' tr2.
Proof.
  revert q. induction tr1 as [|l tr1 IH]; intros q; [done|]. simpl. destruct (fifo_step capacity q l); simpl; [apply IH|done].
Qed.
Lemma fifo_run_option q l : fifo_run capacity q (option_list l) = match l with Some l => fifo_step capacity q l | None => Some q end.
Proof. destruct l as [l|]; [simpl; by destruct (fifo_step capacity q l)|done]. Qed.

Lemma ring_step_simulated m l m' hist front : ring_inv m hist front → ring_step m l m' →
  ∃ hist' front', ring_inv m' hist' front' ∧ fifo_run capacity (drop front hist) (option_list l) = Some (drop front' hist').
Proof.
  intros I Hs. rewrite fifo_run_option. destruct Hs as [b c e H0|b c e H0|b c e w Hf|b c e w Hf|b c|b c e w|b c e w|b p H0|b p H0|b p r Hr|b p r Hr|b p r|b p r e|b p];
    pose proof I as [Hc Hl Hrd Hw Hb Hsl Hp Hcs]; simpl in *.
  - exists hist, front. split; [by destruct I; split|]. rewrite length_drop. rewrite (proj2 (Nat.eqb_eq _ _)); [done|lia].
  - exists hist, front. split; [|done]. destruct I; split; simpl; auto. split; [congruence|done].
  - exists hist, front. split; [by destruct I; split|]. destruct Hp as [H0 ->]. rewrite increment_mod, Hrd in Hf by auto.
    rewrite length_drop. rewrite (proj2 (Nat.eqb_eq _ _)); [done|].
    destruct (decide (length hist = front + capacity)) as [?|Hne]; [lia|]. symmetry in Hf.
    apply mod_inj in Hf; lia.
  - exists hist, front. split; [|done]. destruct I; split; simpl; auto. destruct Hp as [H0 ->]. split; [done|]. split; [done|].
    destruct (decide (length hist = front + capacity)) as [He|]; [|lia]. destruct Hf. rewrite increment_mod, Hrd, He by auto.
    replace (S (front + capacity)) with (front + 1 * N) by lia. by rewrite Nat.Div0.mod_add.
  - exists hist, front. split; [|done]. destruct I; by split.
  - exists hist, front. split; [|done]. destruct Hp as (H0&->&Hroom).
    assert (length hist mod N < length (ring_buffer b)) as Hlt by (rewrite Hl by done; apply Nat.mod_upper_bound; lia).
    split; simpl; auto; [by rewrite length_insert; auto| |].
    + intros i Hi. rewrite list_lookup_insert_ne; [auto|]. intros Heq. symmetry in Heq. apply mod_inj in Heq; lia.
    + split; [done|]. split; [done|]. split; [done|]. by apply list_lookup_insert_eq.
  - exists (hist ++ [e]), front. destruct Hp as (H0&->&Hroom&Hat). split.
    + split; simpl; auto; rewrite ?length_app; simpl.
      * rewrite increment_mod by auto. f_equal. lia.
      * lia.
      * intros i Hi. destruct (decide (i = length hist)) as [->|]; [by rewrite lookup_app_r, Nat.sub_diag|].
        rewrite lookup_app_l by lia. apply Hsl. lia.
      * destruct c; auto; destruct_and?; split_and?; auto; [rewrite ?length_app; simpl; lia|].
        by apply lookup_app_l_Some.
    + rewrite length_drop, drop_app_le by lia. rewrite (proj2 (Nat.ltb_lt _ _)); [done|lia].
  - exists hist, front. split; [done|]. replace (drop front hist) with (@nil LiveEvent); [done|].
    symmetry. apply drop_ge. lia.
  - exists hist, front. split; [|done]. destruct I; split; simpl; auto. split; [congruence|done].
  - exists hist, front. destruct Hcs as [H0 ->]. split; [by destruct I; split|]. rewrite Hw in Hr.
    replace (drop front hist) with (@nil LiveEvent); [done|]. symmetry. apply drop_ge.
    apply mod_inj in Hr; lia.
  - exists hist, front. split; [|done]. destruct Hcs as [H0 ->]. destruct I; split; simpl; auto. split; [done|]. split; [done|].
    destruct (decide (front = length hist)) as [He|]; [|lia]. by rewrite Hw, <- He in Hr.
  - exists hist, front. split; [|done]. destruct Hcs as (H0&->&Hlt). destruct I; split; simpl; auto. split; [done|]. split; [done|].
    rewrite Hsl by lia. destruct (lookup_lt_is_Some_2 hist front) as [x Hx]; [done|]. by rewrite Hx.
  - exists hist, (S front). destruct Hcs as (H0&->&Hat). pose proof (lookup_lt_Some _ _ _ Hat) as Hlt. split.
    + split; simpl; auto; try lia.
      * by rewrite increment_mod by auto.
      * intros i Hi. apply Hsl. lia.
      * destruct p; auto; destruct_and?; split_and?; auto; lia.
    + rewrite (drop_S hist e front) by done. simpl. by rewrite decide_True.
  - exists hist, front. split; [|done]. destruct I; by split.
Qed.
Lemma ring_inv_start : ring_inv (machine_start capacity) [] 0.
Proof.
  split; simpl; rewrite ?Nat.Div0.mod_0_l; auto; [|lia|intros; lia]. intros H. destruct capacity as [|n]; [done|]. simpl. by rewrite length_replicate.
Qed.
Lemma ring_inv_safe m hist front : ring_inv m hist front → accesses_safe m.
Proof.
  intros [_ Hl _ _ Hb _ Hp Hc]. unfold accesses_safe.
  assert (∀ i, i mod N < N) as Hm by (intros; apply Nat.mod_upper_bound; lia). split; [|split].
  - intros e w E. rewrite E in Hp. destruct Hp as (H0&->&_). rewrite Hl by done. apply Hm.
  - intros r E. rewrite E in Hc. destruct Hc as (H0&->&_). rewrite Hl by done. apply Hm.
  - intros e w r E1 E2. rewrite E1 in Hp. rewrite E2 in Hc. destruct Hp as (_&->&Hp), Hc as (_&->&Hc). intros Heq.
    symmetry in Heq. apply mod_inj in Heq; lia.
Qed.
End invariant.

(** C38. Whatever the interleaving of the two threads, the ring buffer is a bounded queue of its capacity: an event is
    refused only when the queue is full, the observer receives the accepted events in the order they were pushed, and
    finds nothing only when the queue is empty.  The threads never touch the same slot together and no access is out
    of the buffer; and no refused event is lost to the counters: they hold the refused events, those not reported yet
    next to those taken by the observer. *)
Theorem spsc_refines_fifo capacity tr m : ring_run (machine_start capacity) tr m →
  ∃ q, fifo_run capacity [] tr = Some q ∧ length q <= capacity ∧ accesses_safe m ∧
    ring_dropped (m_ring m) = full_count tr ∧
    taken_count tr + ring_pending_drops (m_ring m) + (match m_producer m with PCount => 1 | _ => 0 end) = full_count tr.
Proof.
  intros Hrun.
  assert (∃ hist front, ring_inv capacity m hist front ∧ fifo_run capacity [] tr = Some (drop front hist)) as (hist&front&I&Hf).
  { induction Hrun as [|tr m1 l m2 Hrun IH Hs]; [exists [], 0; split; [apply ring_inv_start|done]|].
    destruct IH as (hist&front&I&Hf). destruct (ring_step_simulated _ _ _ _ _ _ I Hs) as (hist'&front'&I'&Hf').
    exists hist', front'. split; [done|]. by rewrite fifo_run_app, Hf. }
  exists (drop front hist). split; [done|]. pose proof (ri_bounds _ _ _ _ I). split; [rewrite length_drop; lia|].
  split; [by eapply ring_inv_safe|]. clear I Hf. unfold full_count, taken_count.
  induction Hrun as [|tr m1 l m2 Hrun IH Hs]; [done|]. rewrite count_if_app, sum_list_with_app.
  destruct Hs; simpl in *; rewrite ?count_if_cons, ?count_if_nil; lia.
Qed.

(** ** One call at a time

    The functions are the calls run without interruption, so the queue also explains a session that one thread uses. *)
Lemma run_steps m m1 m2 l1 tr : ring_step m l1 m1 → ring_run m1 tr m2 → ring_run m (option_list l1 ++ tr) m2.
Proof.
  intros Hs Hr. induction Hr as [|tr m2 l m3 Hr IH Hs']; [rewrite app_nil_r; by apply (run_step _ [] m); [constructor|]|].
  rewrite (assoc_L (++)). by eapply run_step.
Qed.
Ltac run_to_end := first [eapply run_start | eapply (run_steps _ _ _ None); [by constructor; auto|run_to_end]].
Lemma try_push_run b e c :
  ring_run (mkMachine b PIdle c) [if snd (try_push b e) then LPushed e else LFull e] (mkMachine (fst (try_push b e)) PIdle c).
Proof.
  unfold try_push. destruct (Nat.eqb_spec (ring_capacity b) 0) as [H0|H0].
  - eapply (run_steps _ _ _ (Some (LFull e))); [by constructor|]. run_to_end.
  - eapply (run_steps _ _ _ None); [by apply push_begin|]. destruct (Nat.eqb_spec (increment b (write_index b)) (read_index b)) as [Hf|Hf].
    + eapply (run_steps _ _ _ (Some (LFull e))); [by constructor|]. run_to_end.
    + eapply (run_steps _ _ _ None); [by constructor|]. eapply (run_steps _ _ _ None); [by constructor|].
      eapply (run_steps _ _ _ (Some (LPushed e))); [by constructor|]. run_to_end.
Qed.
Lemma try_pop_run b p :
  ring_run (mkMachine b p CIdle) [match snd (try_pop b) with Some e => LPopped e | None => LEmpty end] (mkMachine (fst (try_pop b)) p CIdle).
Proof.
  unfold try_pop. destruct (Nat.eqb_spec (ring_capacity b) 0) as [H0|H0].
  - eapply (run_steps _ _ _ (Some LEmpty)); [by constructor|]. run_to_end.
  - eapply (run_steps _ _ _ None); [by apply pop_begin|]. destruct (Nat.eqb_spec (read_index b) (write_index b)) as [He|He].
    + eapply (run_steps _ _ _ (Some LEmpty)); [by constructor|]. run_to_end.
    + eapply (run_steps _ _ _ None); [by constructor|]. eapply (run_steps _ _ _ None); [by constructor|].
      eapply (run_steps _ _ _ (Some (LPopped _))); [by constructor|]. run_to_end.
Qed.

(** A buffer at rest that holds the queue [q]. *)
Definition ring_holds (capacity : nat) (b : LiveEventRingBuffer) (q : list LiveEvent) : Prop :=
  ∃ hist front, ring_inv capacity (mkMachine b PIdle CIdle) hist front ∧ q = drop front hist.
Lemma ring_holds_run capacity b q tr b' : ring_holds capacity b q →
  ring_run (mkMachine b PIdle CIdle) tr (mkMachine b' PIdle CIdle) →
  ∃ q', fifo_run capacity q tr = Some q' ∧ ring_holds capacity b' q'.
Proof.
  intros (hist&front&I&->). revert I. generalize (mkMachine b PIdle CIdle). intros m I Hr.
  assert (∃ hist' front', ring_inv capacity (mkMachine b' PIdle CIdle) hist' front' ∧
    fifo_run capacity (drop front hist) tr = Some (drop front' hist')) as (hist'&front'&I'&Hf).
  { revert I. remember (mkMachine b' PIdle CIdle) as m' eqn:E. clear E. induction Hr as [|tr m1 l m2 Hr IH Hs]; intros I; [by exists hist, front|].
    destruct (IH I) as (h&f&I1&Hf). destruct (ring_step_simulated _ _ _ _ _ _ I1 Hs) as (h'&f'&I'&Hf').
    exists h', f'. split; [done|]. by rewrite fifo_run_app, Hf. }
  exists (drop front' hist'). split; [done|]. by exists hist', front'.
Qed.
Lemma try_push_holds capacity b q e : ring_holds capacity b q → let '(b', pushed) := try_push b e in
  ring_holds capacity b' (if pushed then q ++ [e] else q) ∧ (pushed = true ↔ length q < capacity) ∧
  ring_dropped b' = (if pushed then 0 else 1) + ring_dropped b.
Proof.
  intros H. pose proof (try_push_run b e CIdle) as Hr.
  assert (ring_dropped (fst (try_push b e)) = (if snd (try_push b e) then 0 else 1) + ring_dropped b) as Hd.
  { unfold try_push. destruct (_ =? 0); [done|]. by destruct (_ =? _). }
  destruct (try_push b e) as [b' pushed]. simpl in *.
  destruct (ring_holds_run _ _ _ _ _ H Hr) as (q'&Hf&H'). destruct pushed; simpl in Hf.
  - destruct (Nat.ltb_spec (length q) capacity); simplify_eq/=. done.
  - destruct (Nat.eqb_spec (length q) capacity); simplify_eq/=. split; [done|]. split; [|done]. split; [done|lia].
Qed.
Lemma try_pop_holds capacity b q : ring_holds capacity b q → let '(b', popped) := try_pop b in
  popped = head q ∧ ring_holds capacity b' (tail q) ∧ ring_dropped b' = ring_dropped b.
Proof.
  intros H. pose proof (try_pop_run b PIdle) as Hr. assert (ring_dropped (fst (try_pop b)) = ring_dropped b) as Hd.
  { unfold try_pop. destruct (_ =? 0); [done|]. by destruct (_ =? _). }
  destruct (try_pop b) as [b' popped]. simpl in *.
  destruct (ring_holds_run _ _ _ _ _ H Hr) as (q'&Hf&H'). destruct popped as [e|], q as [|x q]; simplify_eq/=; [|done].
  destruct (decide (x = e)); simplify_eq/=. done.
Qed.
Lemma ring_holds_new capacity : ring_holds capacity (LiveEventRingBuffer_new capacity) [].
Proof. exists [], 0. split; [apply ring_inv_start|done]. Qed.
Lemma ring_holds_take capacity b q : ring_holds capacity b q → ring_holds capacity (fst (take_pending_drop_count b)) q.
Proof. intros (hist&front&[]&->). exists hist, front. split; [by split|done]. Qed.

Section session_runs.
Context (kLiveObserveCompiledIn : bool).
(** What a session has done: the events it accepted, as they were queued, those it handed out, and the refusals. *)
Inductive SessionOp := OPublish (event : LiveEvent) | ODrain (max_events : nat) | OSummary (mono_ns affected_kind : Z).
Record SessionLog := mkLog { log_accepted : list LiveEvent; log_received : list LiveEvent; log_refused : nat }.
Definition session_step (sl : LiveObserveSession * SessionLog) (op : SessionOp) : LiveObserveSession * SessionLog :=
  let '(s, log) := sl in
  match op with
  | OPublish event =>
      let stamped := event <| ev_stream_id := stream_stream_id (session_stream s) |>
                           <| ev_local_seq := S (stream_local_seq (session_stream s)) |> in
      let '(s', pushed) := session_try_publish kLiveObserveCompiledIn s event in
      (s', if pushed then mkLog (log_accepted log ++ [stamped]) (log_received log) (log_refused log)
           else mkLog (log_accepted log) (log_received log) (S (log_refused log)))
  | ODrain max_events =>
      let '(s', events) := session_drain kLiveObserveCompiledIn max_events s in
      (s', mkLog (log_accepted log) (log_received log ++ events) (log_refused log))
  | OSummary mono_ns affected_kind => (fst (session_take_drop_summary kLiveObserveCompiledIn mono_ns affected_kind s), log)
  end.
Definition session_run (options : LiveObserveOptions) (ops : list SessionOp) : LiveObserveSession * SessionLog :=
  fold_left session_step ops (LiveObserveSession_new options, mkLog [] [] 0).
Definition seq_before (n : nat) (e : LiveEvent) : Prop := ev_local_seq e <= n.
Record session_inv (capacity : nat) (stream_id : Z) (s : LiveObserveSession) (log : SessionLog) : Prop := {
  si_queue : ∃ q, ring_holds capacity (stream_buffer (session_stream s)) q ∧ log_accepted log = log_received log ++ q ∧ length q <= capacity;
  si_dropped : ring_dropped (stream_buffer (session_stream s)) = log_refused log;
  si_id : stream_stream_id (session_stream s) = stream_id ∧ Forall (fun e => ev_stream_id e = stream_id) (log_accepted log);
  si_sorted : StronglySorted lt (ev_local_seq <$> log_accepted log);
  si_seq : Forall (seq_before (stream_local_seq (session_stream s))) (log_accepted log) }.

Lemma drain_loop_spec capacity max_events fuel stream events q : ring_holds capacity (stream_buffer stream) q →
  length q < fuel → (max_events = 0 ∨ length events <= max_events) →
  let '(stream', events') := drain_loop fuel max_events stream events in
  let n := if max_events =? 0 then length q else max_events - length events in
  events' = events ++ take n q ∧ ring_holds capacity (stream_buffer stream') (drop n q) ∧
  ring_dropped (stream_buffer stream') = ring_dropped (stream_buffer stream) ∧
  stream_stream_id stream' = stream_stream_id stream ∧ stream_local_seq stream' = stream_local_seq stream.
Proof.
  revert stream events q. induction fuel as [|fuel IH]; intros stream events q H Hf Hm; [lia|]. cbn [drain_loop].
  destruct ((max_events =? 0) || (length events <? max_events)) eqn:E.
  - unfold stream_try_pop. pose proof (try_pop_holds _ _ _ H) as Hp. destruct (try_pop (stream_buffer stream)) as [b popped].
    destruct Hp as (->&Hh&Hd). destruct q as [|x q]; simpl in *.
    + rewrite take_nil, drop_nil, app_nil_r. done.
    + assert (max_events = 0 ∨ length (events ++ [x]) <= max_events) as Hm'.
      { rewrite length_app. simpl. apply orb_true_iff in E as [E%Nat.eqb_eq|E%Nat.ltb_lt]; [by left|right; lia]. }
      specialize (IH (stream <| stream_buffer := b |>) (events ++ [x]) q Hh ltac:(lia) Hm').
      destruct (drain_loop fuel max_events _ _) as [stream' events']. simpl in *. destruct IH as (->&H2&->&->&->).
      rewrite Hd, <- (assoc_L (++)). destruct (Nat.eqb_spec max_events 0) as [->|Hne]; simpl; [done|].
      rewrite length_app in *. simpl in *. apply Nat.ltb_lt in E.
      replace (max_events - length events) with (S (max_events - (length events + 1))) by lia. done.
  - apply orb_false_iff in E as [E1%Nat.eqb_neq E2%Nat.ltb_ge]. rewrite (proj2 (Nat.eqb_neq _ _)) by done.
    replace (max_events - length events) with 0 by lia. rewrite app_nil_r. done.
Qed.
Lemma ring_holds_capacity capacity b q : ring_holds capacity b q → ring_capacity b = capacity.
Proof. by intros (?&?&[]&_). Qed.
Lemma sorted_snoc (l : list LiveEvent) e n : StronglySorted lt (ev_local_seq <$> l) → Forall (seq_before n) l →
  ev_local_seq e = S n → StronglySorted lt (ev_local_seq <$> l ++ [e]).
Proof.
  intros Hs Hf He. rewrite fmap_app. apply StronglySorted_app_2; [|done|repeat constructor].
  intros x y (e1&->&H1)%list_elem_of_fmap Hy%list_elem_of_singleton. subst y. rewrite Forall_forall in Hf.
  specialize (Hf e1 H1). unfold seq_before in Hf. lia.
Qed.
Lemma session_step_inv capacity stream_id s log op :
  session_enabled kLiveObserveCompiledIn s = true → session_inv capacity stream_id s log →
  let '(s', log') := session_step (s, log) op in
  session_inv capacity stream_id s' log' ∧ session_options s' = session_options s.
Proof.
  intros He [(q&Hq&Ha&Hb) Hd [Hi1 Hi2] Hs Hn]. destruct op as [event|max_events|mono_ns kind]; cbn [session_step].
  - unfold session_try_publish. rewrite He. simpl. unfold stream_try_publish. simpl.
    match goal with |- context [try_push _ ?e] => set (stamped := e) end.
    pose proof (try_push_holds capacity _ q stamped Hq) as Hp.
    destruct (try_push (stream_buffer (session_stream s)) stamped) as [b pushed]. simpl. destruct Hp as (Hq'&Hroom&Hdr).
    assert (Forall (seq_before (S (stream_local_seq (session_stream s)))) (log_accepted log)) as Hn'
      by (eapply Forall_impl; [exact Hn|unfold seq_before; intros; lia]).
    split; [|done]. destruct pushed; simpl in Hdr; split; simpl; auto; try congruence.
    + exists (q ++ [stamped]). split; [done|]. split; [by rewrite Ha, (assoc_L (++))|]. rewrite length_app. simpl.
      pose proof (proj1 Hroom eq_refl). lia.
    + split; [done|]. apply Forall_app. split; [done|]. by constructor.
    + by apply (sorted_snoc _ _ (stream_local_seq (session_stream s))).
    + apply Forall_app. split; [done|]. constructor; [unfold seq_before; simpl; lia|done].
    + by exists q.
  - unfold session_drain. rewrite He. cbn [negb].
    pose proof (drain_loop_spec capacity max_events (S (ring_capacity (stream_buffer (session_stream s)))) (session_stream s) [] q Hq) as H.
    destruct (drain_loop _ _ _ _) as [stream events]. rewrite (ring_holds_capacity _ _ _ Hq) in H.
    specialize (H ltac:(lia) ltac:(simpl; lia)). cbv zeta in H. destruct H as (->&Hq'&Hdr&Hid&Hseq). simpl. split; [|done]. split; simpl; auto; try congruence.
    + eexists. split; [exact Hq'|]. rewrite <- (assoc_L (++)), take_drop. split; [done|]. rewrite length_drop. lia.
    + rewrite Hid. done.
  - unfold session_take_drop_summary. rewrite He. cbn [negb].
    unfold stream_take_drop_summary, take_pending_drop_count. pose proof (ring_holds_take capacity _ q Hq) as Hq'.
    destruct (ring_pending_drops _ =? 0); simpl; (split; [|done]); split; simpl; eauto.
    eapply Forall_impl; [exact Hn|unfold seq_before; intros; lia].
Qed.
(** An enabled session loses no event without counting it, and hands the others out once and in order.  After any
    operations, the accepted events are those handed out followed by those still in the buffer, at most its capacity;
    they carry the id of the stream and strictly increasing sequence numbers; and the dropped count is the number of
    events refused. *)
Theorem session_accounts_for_events options ops : kLiveObserveCompiledIn = true → observe_level options ≠ kOff →
  let '(s, log) := session_run options ops in
  session_inv (event_buffer_capacity options) (observe_stream_id options) s log.
Proof.
  intros Hc Ho. unfold session_run.
  assert (session_inv (event_buffer_capacity options) (observe_stream_id options) (LiveObserveSession_new options) (mkLog [] [] 0)) as I.
  { split; simpl; auto using SSorted_nil. exists []. split; [apply ring_holds_new|]. split; [done|simpl; lia]. }
  assert (session_options (LiveObserveSession_new options) = options) as Hopt by done.
  revert I Hopt. generalize (LiveObserveSession_new options), (mkLog [] [] 0).
  induction ops as [|op ops IH]; intros s log I Hopt; [done|]. cbn [fold_left].
  pose proof (session_step_inv (event_buffer_capacity options) (observe_stream_id options) s log op) as H. destruct (session_step (s, log) op) as [s' log'].
  destruct H as [I' Hopt']; [|exact I|apply IH; congruence].
  unfold session_enabled. rewrite Hc, Hopt. by destruct (observe_level options).
Qed.
End session_runs.

(** ** Concrete runs *)
Definition demo_event (n : nat) : LiveEvent := empty_event <| ev_value0 := n |>.
Definition demo_options : LiveObserveOptions := mkObserveOptions kSummary 2 7.
Lemma session_accounts_for_events_witness :
  let ops := [OPublish (demo_event 1); OPublish (demo_event 2); OPublish (demo_event 3); ODrain 1; OPublish (demo_event 4); ODrain 0] in
  session_inv 2 7 (fst (session_run true demo_options ops)) (snd (session_run true demo_options ops)) ∧
  (ev_value0 <$> log_received (snd (session_run true demo_options ops)) = [1; 2; 4]) ∧ log_refused (snd (session_run true demo_options ops)) = 1.
Proof.
  intros ops. split; [|by vm_compute]. pose proof (session_accounts_for_events true demo_options ops eq_refl) as H.
  destruct (session_run true demo_options ops) as [s log]. by apply H.
Defined.
Lemma spsc_refines_fifo_witness : ∃ q, fifo_run 1 [] [LPushed (demo_event 1); LFull (demo_event 2); LPopped (demo_event 1)] = Some q.
Proof.
  destruct (spsc_refines_fifo 1 [LPushed (demo_event 1); LFull (demo_event 2); LPopped (demo_event 1)]
    (mkMachine (mkRing [demo_event 1; empty_event] 1 1 1 1 0) PCount CIdle)) as (q&Hq&_); [|by exists q].
  set (b1 := mkRing [demo_event 1; empty_event] 1 0 1 0 0).
  (* The second push is refused between the two halves of the pop. *)
  apply (run_step _ [LPushed (demo_event 1); LFull (demo_event 2)]
    (mkMachine (count_dropped b1) PCount (CAdvance 0 (demo_event 1))) (Some (LPopped (demo_event 1)))); [|apply pop_advance].
  apply (run_step _ [LPushed (demo_event 1)]
    (mkMachine b1 (PCheck (demo_event 2) 1) (CAdvance 0 (demo_event 1))) (Some (LFull (demo_event 2)))); [|by apply push_full].
  apply (run_step _ [LPushed (demo_event 1)] (mkMachine b1 PIdle (CAdvance 0 (demo_event 1))) None); [|by apply push_begin].
  apply (run_step _ [LPushed (demo_event 1)] (mkMachine b1 PIdle (CLoad 0)) None); [|apply (pop_load b1 PIdle 0)].
  apply (run_step _ [LPushed (demo_event 1)] (mkMachine b1 PIdle (CCheck 0)) None); [|by apply pop_ready].
  apply (run_step _ [LPushed (demo_event 1)] (mkMachine b1 PIdle CIdle) None); [|by apply (pop_begin b1 PIdle)].
  exact (try_push_run (LiveEventRingBuffer_new 1) (demo_event 1) CIdle).
Defined.
