(* ===== verification/TaskExecutor.v ===== *)
(** * TaskExecutor: the deterministic and the threaded task executors

    Models [src/task_executor.cpp].  The work of a task and its completion callback are user code: a work is performed
    by the argument [perform], which answers with a payload or the text of an exception, with the time it took, and
    with the submissions it makes to the executor; a callback by [complete], which answers with its submissions.

    The deterministic executor is a set of functions.  The threaded one is a step relation: every critical section of
    its mutex is a step, of the caller or of a worker, and a worker that waits for the condition variable can go on in
    every state that satisfies its predicate. *)

From S2P Require Export Payload Health.
Local Open Scope nat_scope.

(** ** Configuration, metrics, tasks *)
Record TaskExecutorConfig := mkExecutorConfig {
  max_inflight : nat; queue_capacity : nat; overflow : string; task_budget : Z }.
#[export] Instance eta_TaskExecutorConfig : Eta TaskExecutorConfig := fun c =>
  mkExecutorConfig (max_inflight c) (queue_capacity c) (overflow c) (task_budget c).
Record ThreadedTaskExecutorConfig := mkThreadedConfig {
  base_config : TaskExecutorConfig; max_workers : nat; shutdown_policy : string }.
Record TaskExecutorMetrics := mkExecutorMetrics {
  te_submitted_count : nat; te_queued_count : nat; te_active_count : nat; te_completed_count : nat; te_cancelled_count : nat;
  te_rejected_count : nat; te_failed_count : nat; te_cancellation_requested_count : nat; te_cancellation_observed_count : nat;
  te_timeout_budget_exceeded_count : nat; te_max_inflight_count : nat; te_max_outstanding_count : nat; te_queue_depth : nat;
  te_completed_backlog_depth : nat }.
#[export] Instance eta_TaskExecutorMetrics : Eta TaskExecutorMetrics := fun m =>
  mkExecutorMetrics (te_submitted_count m) (te_queued_count m) (te_active_count m) (te_completed_count m) (te_cancelled_count m)
    (te_rejected_count m) (te_failed_count m) (te_cancellation_requested_count m) (te_cancellation_observed_count m)
    (te_timeout_budget_exceeded_count m) (te_max_inflight_count m) (te_max_outstanding_count m) (te_queue_depth m)
    (te_completed_backlog_depth m).
Definition empty_executor_metrics : TaskExecutorMetrics := mkExecutorMetrics 0 0 0 0 0 0 0 0 0 0 0 0 0 0.
Record TaskSubmissionResult := mkSubmission { submission_accepted : bool; submission_task_id : nat; submission_reason : string }.
Record TaskCompletion := mkCompletion {
  completion_task_id : nat; completion_ok : bool; completion_payload : RuntimePayloadPtr; completion_error : string }.

Definition drop_oldest_overflow (overflow : string) : bool := str_eqb overflow "drop_oldest" || str_eqb overflow "overwrite".
Definition cancel_pending_shutdown_policy (policy : string) : bool :=
  str_eqb policy "cancel_pending" || str_eqb policy "cancel" || str_eqb policy "discard_pending".
Definition normalize_positive (value : nat) : nat := if value =? 0 then 1 else value.
Definition completion_limit (max_tasks available : nat) : nat := if max_tasks =? 0 then available else max_tasks `min` available.
Definition normalize_config (c : TaskExecutorConfig) : TaskExecutorConfig := c <| max_inflight ::= normalize_positive |>.
Definition admission_capacity (c : TaskExecutorConfig) : nat := max_inflight c + queue_capacity c.

Section executors.
Context {W C : Type}.
Record PendingTask := mkTask { task_id : nat; task_work : W; task_completion : option C }.
(** A call of [submit]; an empty [std::function] is [None]. *)
Abbreviation Submission := (option W * option C)%type.

(** ** The deterministic executor *)
Record DeterministicTaskExecutor := mkDeterministic {
  det_config : TaskExecutorConfig; det_next_task_id : nat; det_pending : list PendingTask; det_metrics : TaskExecutorMetrics;
  det_health : option (list HealthEvent) }.
#[export] Instance eta_DeterministicTaskExecutor : Eta DeterministicTaskExecutor := fun e =>
  mkDeterministic (det_config e) (det_next_task_id e) (det_pending e) (det_metrics e) (det_health e).
Definition DeterministicTaskExecutor_new (config : TaskExecutorConfig) : DeterministicTaskExecutor :=
  mkDeterministic (normalize_config config) 1 [] empty_executor_metrics None.
(** The events given to the sink, in order; [Health.v] models what the sink does with them. *)
Definition det_set_health_event_sink (attached : bool) (e : DeterministicTaskExecutor) : DeterministicTaskExecutor :=
  e <| det_health := if attached then Some [] else None |>.
Definition det_reject_event (reason : string) (e : DeterministicTaskExecutor) : HealthEvent :=
  default_health_event <| he_kind := kTaskReject |> <| he_source := "task_executor" |> <| he_policy := overflow (det_config e) |>
    <| he_reason := reason |> <| he_depth := length (det_pending e) |> <| he_capacity := admission_capacity (det_config e) |>.
Definition det_reject_submission (reason : string) (e : DeterministicTaskExecutor)
    : DeterministicTaskExecutor * TaskSubmissionResult :=
  let e := e <| det_metrics ::= fun m => m <| te_rejected_count ::= S |> |> in
  (e <| det_health ::= fmap (fun events => events ++ [det_reject_event reason e]) |>, mkSubmission false 0 reason).
Definition det_enqueue (work : W) (completion : option C) (e : DeterministicTaskExecutor)
    : DeterministicTaskExecutor * TaskSubmissionResult :=
  let id := det_next_task_id e in
  let pending := det_pending e ++ [mkTask id work completion] in
  let depth := length pending in
  (e <| det_next_task_id ::= S |> <| det_pending := pending |>
     <| det_metrics ::= fun m => m <| te_submitted_count ::= S |> <| te_queued_count ::= S |> <| te_queue_depth ::= Nat.max depth |>
          <| te_max_inflight_count ::= Nat.max depth |> <| te_max_outstanding_count ::= Nat.max depth |> |>,
   mkSubmission true id "").
Definition det_submit (submission : Submission) (e : DeterministicTaskExecutor) : DeterministicTaskExecutor * TaskSubmissionResult :=
  let '(work, completion) := submission in
  match work with
  | None => det_reject_submission "task work must not be empty" e
  | Some work =>
      if admission_capacity (det_config e) <=? length (det_pending e) then
        if drop_oldest_overflow (overflow (det_config e)) then
          det_enqueue work completion (e <| det_pending ::= tail |> <| det_metrics ::= fun m => m <| te_cancelled_count ::= S |> |>)
        else det_reject_submission
               (if str_eqb (overflow (det_config e)) "fail_fast" then "task executor capacity exceeded" else "task executor queue full") e
      else det_enqueue work completion e
  end.
Definition det_cancel_pending (e : DeterministicTaskExecutor) : DeterministicTaskExecutor * nat :=
  let count := length (det_pending e) in
  (e <| det_pending := [] |> <| det_metrics ::= fun m => m <| te_cancelled_count ::= fun n => n + count |> <| te_queue_depth := 0 |> |>,
   count).
Definition det_read_metrics (e : DeterministicTaskExecutor) : TaskExecutorMetrics :=
  (det_metrics e) <| te_queue_depth := length (det_pending e) |> <| te_completed_backlog_depth := 0 |>.

(** The outcome of a work: its payload or exception, the nanoseconds it took, and the submissions it made. *)
Record WorkOutcome := mkOutcome { work_result : string + RuntimePayload; work_elapsed : Z; work_submissions : list Submission }.
Context (perform : W → WorkOutcome) (complete : C → TaskCompletion → list Submission).
Definition work_completion (id : nat) (result : string + RuntimePayload) : TaskCompletion :=
  match result with
  | inr payload => mkCompletion id true (make_shared_payload payload) ""
  | inl error => mkCompletion id false None error
  end.
Definition over_budget (config : TaskExecutorConfig) (elapsed : Z) : bool :=
  (0 <? task_budget config)%Z && (ms (task_budget config) <? elapsed)%Z.
Definition det_submit_all (submissions : list Submission) (e : DeterministicTaskExecutor) : DeterministicTaskExecutor :=
  fold_left (fun e s => fst (det_submit s e)) submissions e.
(** One round of [run_ready]: the front task runs and its callback is called. *)
Definition det_run_task (task : PendingTask) (rest : list PendingTask) (e : DeterministicTaskExecutor)
    : DeterministicTaskExecutor * TaskCompletion :=
  let outcome := perform (task_work task) in
  let completion := work_completion (task_id task) (work_result outcome) in
  let e := e <| det_pending := rest |> <| det_metrics ::= fun m => m <| te_active_count := 1 |> |> in
  let e := det_submit_all (work_submissions outcome) e in
  let e := e <| det_metrics ::= fun m => if completion_ok completion then m <| te_completed_count ::= S |> else m <| te_failed_count ::= S |> |>
             <| det_metrics ::= fun m => if over_budget (det_config e) (work_elapsed outcome)
                                         then m <| te_timeout_budget_exceeded_count ::= S |> else m |>
             <| det_metrics ::= fun m => m <| te_active_count := 0 |> |> in
  (det_submit_all (match task_completion task with Some c => complete c completion | None => [] end) e, completion).
(** [cancelled n] is what the cancellation token answers to the [n]-th question. *)
Fixpoint det_run_loop (fuel max_tasks : nat) (cancelled : nat → bool) (e : DeterministicTaskExecutor)
    (completions : list TaskCompletion) : option (DeterministicTaskExecutor * list TaskCompletion) :=
  match det_pending e with
  | [] => Some (e, completions)
  | task :: rest =>
      if (max_tasks =? 0) || (length completions <? max_tasks) then
        if cancelled (length completions) then
          Some (fst (det_cancel_pending (e <| det_metrics ::= fun m => m <| te_cancellation_requested_count ::= S |>
                       <| te_cancellation_observed_count ::= S |> |>)), completions)
        else match fuel with
        | 0 => None
        | S fuel' => let '(e, completion) := det_run_task task rest e in
                     det_run_loop fuel' max_tasks cancelled e (completions ++ [completion])
        end
      else Some (e, completions)
  end.
Definition det_run_ready (fuel max_tasks : nat) (cancelled : nat → bool) (e : DeterministicTaskExecutor)
    : option (DeterministicTaskExecutor * list TaskCompletion) :=
  match det_run_loop fuel max_tasks cancelled e [] with
  | None => None
  | Some (e, completions) =>
      Some (e <| det_metrics ::= fun m => m <| te_queue_depth ::= Nat.max (length (det_pending e)) |> |>, completions)
  end.

(** ** The threaded executor *)

(** Where a worker is between two critical sections: waiting, performing a task, with the completion in hand, or
    past its loop. *)
Inductive WorkerState := WWaiting | WRunning (task : PendingTask) | WFinished (completion : TaskCompletion) | WExited.
Record ThreadedTaskExecutor := mkThreaded {
  thr_config : ThreadedTaskExecutorConfig; thr_next_task_id : nat; thr_pending : list PendingTask;
  thr_completed : list TaskCompletion; thr_workers : list WorkerState; thr_metrics : TaskExecutorMetrics;
  thr_health : option (list HealthEvent); thr_stopping : bool }.
#[export] Instance eta_ThreadedTaskExecutor : Eta ThreadedTaskExecutor := fun e =>
  mkThreaded (thr_config e) (thr_next_task_id e) (thr_pending e) (thr_completed e) (thr_workers e) (thr_metrics e)
    (thr_health e) (thr_stopping e).
Definition ThreadedTaskExecutor_new (config : ThreadedTaskExecutorConfig) : ThreadedTaskExecutor :=
  let config := mkThreadedConfig (normalize_config (base_config config)) (normalize_positive (max_workers config)) (shutdown_policy config) in
  mkThreaded config 1 [] [] (replicate (max_workers config) WWaiting) empty_executor_metrics None false.
Definition thr_capacity (e : ThreadedTaskExecutor) : nat := admission_capacity (base_config (thr_config e)).
Definition thr_overflow (e : ThreadedTaskExecutor) : string := overflow (base_config (thr_config e)).
Definition thr_active (e : ThreadedTaskExecutor) : nat := te_active_count (thr_metrics e).
Definition cancel_pending_on_shutdown (e : ThreadedTaskExecutor) : bool :=
  cancel_pending_shutdown_policy (shutdown_policy (thr_config e)).
Definition thr_reject_event (reason : string) (e : ThreadedTaskExecutor) : HealthEvent :=
  default_health_event <| he_kind := kTaskReject |> <| he_source := "task_executor" |> <| he_policy := thr_overflow e |>
    <| he_reason := reason |> <| he_depth := length (thr_pending e) + thr_active e + length (thr_completed e) |>
    <| he_capacity := thr_capacity e |>
    <| he_attributes := <["pending_depth" := to_string_nat (length (thr_pending e))]>
         (<["active_count" := to_string_nat (thr_active e)]>
         (<["completed_backlog_depth" := to_string_nat (length (thr_completed e))]>
         (<["admission_capacity" := to_string_nat (thr_capacity e)]> ∅))) |>.
Definition thr_reject_submission (reason : string) (e : ThreadedTaskExecutor) : ThreadedTaskExecutor * TaskSubmissionResult :=
  let e := e <| thr_metrics ::= fun m => m <| te_rejected_count ::= S |> |> in
  (e <| thr_health ::= fmap (fun events => events ++ [thr_reject_event reason e]) |>, mkSubmission false 0 reason).
Definition capacity_reject_reason (e : ThreadedTaskExecutor) : string :=
  if thr_capacity e <=? length (thr_completed e) then "task executor completed backlog full" else
  if str_eqb (thr_overflow e) "fail_fast" then "task executor capacity exceeded" else "task executor queue full".
(** The gauges that every critical section refreshes. *)
Definition thr_refresh (e : ThreadedTaskExecutor) : ThreadedTaskExecutor :=
  e <| thr_metrics ::= fun m => m <| te_queue_depth := length (thr_pending e) |>
         <| te_completed_backlog_depth := length (thr_completed e) |> |>.
Definition thr_inflight (e : ThreadedTaskExecutor) : nat := length (thr_pending e) + thr_active e.
Definition thr_outstanding (e : ThreadedTaskExecutor) : nat := thr_inflight e + length (thr_completed e).
Definition note_inflight (e : ThreadedTaskExecutor) : ThreadedTaskExecutor :=
  e <| thr_metrics ::= fun m => m <| te_max_inflight_count ::= Nat.max (thr_inflight e) |> |>.
Definition note_outstanding (e : ThreadedTaskExecutor) : ThreadedTaskExecutor :=
  e <| thr_metrics ::= fun m => m <| te_max_outstanding_count ::= Nat.max (thr_outstanding e) |> |>.
Definition thr_enqueue (work : W) (completion : option C) (e : ThreadedTaskExecutor) : ThreadedTaskExecutor * TaskSubmissionResult :=
  let id := thr_next_task_id e in
  let e := e <| thr_next_task_id ::= S |> <| thr_pending ::= fun l => l ++ [mkTask id work completion] |>
             <| thr_metrics ::= fun m => m <| te_submitted_count ::= S |> <| te_queued_count ::= S |> |> in
  (note_outstanding (note_inflight (thr_refresh e)), mkSubmission true id "").
Definition thr_submit (submission : Submission) (e : ThreadedTaskExecutor) : ThreadedTaskExecutor * TaskSubmissionResult :=
  let '(work, completion) := submission in
  match work with
  | None => thr_reject_submission "task work must not be empty" e
  | Some work =>
      if thr_stopping e then thr_reject_submission "task executor is shutting down" e else
      if thr_capacity e <=? thr_outstanding e then
        if drop_oldest_overflow (thr_overflow e) && bool_decide (thr_pending e ≠ []) then
          thr_enqueue work completion (e <| thr_pending ::= tail |> <| thr_metrics ::= fun m => m <| te_cancelled_count ::= S |> |>)
        else thr_reject_submission (capacity_reject_reason e) e
      else thr_enqueue work completion e
  end.
Definition thr_cancel_pending (e : ThreadedTaskExecutor) : ThreadedTaskExecutor :=
  e <| thr_pending := [] |>
    <| thr_metrics ::= fun m => m <| te_cancelled_count ::= fun n => n + length (thr_pending e) |> <| te_queue_depth := 0 |> |>.
Definition thr_run_ready (max_tasks : nat) (cancelled : bool) (e : ThreadedTaskExecutor)
    : ThreadedTaskExecutor * list TaskCompletion :=
  let e := if cancelled
           then thr_cancel_pending (e <| thr_metrics ::= fun m => m <| te_cancellation_requested_count ::= S |>
                                           <| te_cancellation_observed_count ::= S |> |>)
           else e in
  let count := completion_limit max_tasks (length (thr_completed e)) in
  (thr_refresh (e <| thr_completed ::= drop count |>), take count (thr_completed e)).
(** The first critical section of [shutdown_workers]. *)
Definition thr_shutdown (e : ThreadedTaskExecutor) : ThreadedTaskExecutor :=
  let e := e <| thr_stopping := true |> in if cancel_pending_on_shutdown e then thr_cancel_pending e else e.
Definition thr_idle (e : ThreadedTaskExecutor) : bool := bool_decide (thr_pending e = []) && (thr_active e =? 0).
Definition worker_stops (e : ThreadedTaskExecutor) : bool :=
  thr_stopping e && (bool_decide (thr_pending e = []) || cancel_pending_on_shutdown e).
Definition set_worker (i : nat) (w : WorkerState) (e : ThreadedTaskExecutor) : ThreadedTaskExecutor :=
  e <| thr_workers ::= <[i := w]> |>.
(** The critical section that takes a task. *)
Definition thr_take (i : nat) (task : PendingTask) (rest : list PendingTask) (e : ThreadedTaskExecutor) : ThreadedTaskExecutor :=
  let e := e <| thr_pending := rest |>
             <| thr_metrics ::= fun m => m <| te_active_count ::= S |> <| te_queue_depth := length rest |> |> in
  set_worker i (WRunning task) (note_outstanding (note_inflight e)).
(** [execute_task] outside the lock; the count of tasks over budget has a critical section of its own. *)
Definition thr_execute (i : nat) (task : PendingTask) (e : ThreadedTaskExecutor) : ThreadedTaskExecutor :=
  let outcome := perform (task_work task) in
  set_worker i (WFinished (work_completion (task_id task) (work_result outcome)))
    (e <| thr_metrics ::= fun m => if over_budget (base_config (thr_config e)) (work_elapsed outcome)
                                   then m <| te_timeout_budget_exceeded_count ::= S |> else m |>).
(** The critical section that hands the completion over. *)
Definition thr_finish (i : nat) (completion : TaskCompletion) (e : ThreadedTaskExecutor) : ThreadedTaskExecutor :=
  let e := e <| thr_metrics ::= fun m => if completion_ok completion then m <| te_completed_count ::= S |> else m <| te_failed_count ::= S |> |>
             <| thr_metrics ::= fun m => m <| te_active_count ::= pred |> |>
             <| thr_completed ::= fun l => l ++ [completion] |> in
  set_worker i WWaiting (note_outstanding (thr_refresh e)).
Inductive worker_step (i : nat) : ThreadedTaskExecutor → ThreadedTaskExecutor → Prop :=
  | worker_takes e task rest : thr_workers e !! i = Some WWaiting → worker_stops e = false →
      thr_pending e = task :: rest → thr_active e < max_inflight (base_config (thr_config e)) →
      worker_step i e (thr_take i task rest e)
  | worker_exits e : thr_workers e !! i = Some WWaiting → worker_stops e = true → worker_step i e (set_worker i WExited e)
  | worker_executes e task : thr_workers e !! i = Some (WRunning task) → worker_step i e (thr_execute i task e)
  | worker_finishes e completion : thr_workers e !! i = Some (WFinished completion) → worker_step i e (thr_finish i completion e).
(** The calls of other threads, the works and the callbacks included, with the ids of the tasks they deliver and of
    those they cancel. *)
Definition evicted (submission : Submission) (e : ThreadedTaskExecutor) : list nat :=
  match submission.1 with
  | Some _ => if negb (thr_stopping e) && (thr_capacity e <=? thr_outstanding e) && drop_oldest_overflow (thr_overflow e)
              then task_id <$> take 1 (thr_pending e) else []
  | None => []
  end.
Inductive caller_step (e : ThreadedTaskExecutor) : list nat → list nat → ThreadedTaskExecutor → Prop :=
  | caller_submits submission : caller_step e [] (evicted submission e) (fst (thr_submit submission e))
  | caller_runs_ready max_tasks cancelled :
      caller_step e (completion_task_id <$> snd (thr_run_ready max_tasks cancelled e))
        (if cancelled : bool then task_id <$> thr_pending e else []) (fst (thr_run_ready max_tasks cancelled e))
  | caller_cancels : caller_step e [] (task_id <$> thr_pending e) (thr_cancel_pending e)
  | caller_shuts_down :
      caller_step e [] (if cancel_pending_on_shutdown e then task_id <$> thr_pending e else []) (thr_shutdown e)
  | caller_sets_sink attached : caller_step e [] [] (e <| thr_health := if attached : bool then Some [] else None |>).
(** The executors that threads can bring about, with the ids delivered and cancelled so far. *)
Inductive thr_reachable (config : ThreadedTaskExecutorConfig) : ThreadedTaskExecutor → list nat → list nat → Prop :=
  | thr_starts : thr_reachable config (ThreadedTaskExecutor_new config) [] []
  | thr_caller e d c d' c' e' : thr_reachable config e d c → caller_step e d' c' e' → thr_reachable config e' (d ++ d') (c ++ c')
  | thr_worker e d c i e' : thr_reachable config e d c → worker_step i e e' → thr_reachable config e' d c.
End executors.
Arguments PendingTask : clear implicits.
Arguments DeterministicTaskExecutor : clear implicits.
Arguments WorkOutcome : clear implicits.
Arguments WorkerState : clear implicits.
Arguments ThreadedTaskExecutor : clear implicits.
