(* ===== verification/TaskExecutorFacts.v ===== *)
(** * TaskExecutorFacts: no executor loses, repeats or invents a task *)

From S2P Require Export TaskExecutor.
Local Open Scope nat_scope.

#[local] Arguments thr_enqueue : simpl never.
#[local] Arguments thr_take : simpl never.
#[local] Arguments thr_execute : simpl never.
#[local] Arguments thr_finish : simpl never.
Section threaded.
Context {W C : Type} (perform : W → WorkOutcome W C).
Implicit Types e : ThreadedTaskExecutor W C.

(** ** The tasks of the workers *)
Definition worker_ids (w : WorkerState W C) : list nat :=
  match w with WRunning task => [task_id task] | WFinished completion => [completion_task_id completion] | _ => [] end.
Definition running_ids e : list nat := thr_workers e ≫= worker_ids.
Definition pending_ids e : list nat := task_id <$> thr_pending e.
Definition completed_ids e : list nat := completion_task_id <$> thr_completed e.

Lemma insert_perm {A} (l : list A) i x y : l !! i = Some x → <[i := y]> l ≡ₚ y :: delete i l.
Proof.
  intros H. rewrite insert_take_drop by (by eapply lookup_lt_Some). rewrite delete_take_drop.
  by rewrite Permutation_middle.
Qed.
(** Changing one worker changes the running tasks at one place. *)
Lemma running_set_worker e i w w' : thr_workers e !! i = Some w → ∃ rest,
  running_ids e ≡ₚ worker_ids w ++ rest ∧ running_ids (set_worker i w' e) ≡ₚ worker_ids w' ++ rest.
Proof.
  intros H. exists (delete i (thr_workers e) ≫= worker_ids). unfold running_ids. simpl. split.
  - by rewrite (delete_Permutation _ _ _ H) at 1.
  - by rewrite (insert_perm _ _ _ w' H).
Qed.

(** ** The invariant *)
Record thr_inv e (delivered cancelled : list nat) : Prop := {
  ti_active : thr_active e = length (running_ids e);
  ti_inflight : thr_active e <= max_inflight (base_config (thr_config e));
  ti_outstanding : thr_outstanding e <= thr_capacity e;
  ti_ids : pending_ids e ++ running_ids e ++ completed_ids e ++ delivered ++ cancelled ≡ₚ seq 1 (pred (thr_next_task_id e));
  ti_next : 0 < thr_next_task_id e;
  ti_order : StronglySorted lt (pending_ids e);
  ti_submitted : te_submitted_count (thr_metrics e) = pred (thr_next_task_id e);
  ti_cancelled : te_cancelled_count (thr_metrics e) = length cancelled;
  ti_completed : te_completed_count (thr_metrics e) + te_failed_count (thr_metrics e) = length (thr_completed e) + length delivered;
  ti_config : 0 < max_inflight (base_config (thr_config e)) ∧ 0 < length (thr_workers e) }.

Ltac thr_unfold :=
  unfold thr_enqueue, thr_take, thr_execute, thr_finish, set_worker, note_outstanding, note_inflight, thr_refresh, thr_outstanding,
    thr_inflight, thr_active, running_ids, pending_ids, completed_ids, thr_capacity in *; simpl in *.
Lemma thr_inv_new config : thr_inv (ThreadedTaskExecutor_new config) [] [].
Proof.
  assert (∀ n, (replicate n WWaiting ≫= worker_ids) = []) as Hr by (induction n; [done|exact IHn]).
  assert (∀ n, 0 < normalize_positive n) as Hn by (intros n; unfold normalize_positive; destruct (Nat.eqb_spec n 0); lia).
  split; unfold thr_active, thr_outstanding, thr_inflight, running_ids; simpl; rewrite ?Hr; simpl; auto using SSorted_nil; try lia.
  - split; [apply Hn|]. rewrite length_replicate. apply Hn.
Qed.

Lemma seq_last n : 0 < n → seq 1 n = seq 1 (pred n) ++ [n].
Proof. destruct n as [|n]; [lia|]. intros _. by rewrite seq_S. Qed.
(** A new task: it gets the next id and goes to the back. *)
Lemma thr_enqueue_inv work completion e d c : thr_inv e d c → thr_outstanding e < thr_capacity e →
  thr_inv (fst (thr_enqueue work completion e)) d c.
Proof.
  intros [] Hroom. split; thr_unfold; rewrite ?fmap_app, ?length_app; simpl; auto; try lia.
  - rewrite <- (assoc_L (++)). cbn [app]. rewrite <- Permutation_middle, ti_ids0, (seq_last _ ti_next0). apply Permutation_cons_append.
  - apply StronglySorted_app_2; [|done|repeat constructor]. intros x y Hx ->%list_elem_of_singleton.
    assert (x ∈ seq 1 (pred (thr_next_task_id e))) as Hin%elem_of_seq; [rewrite <- ti_ids0; by apply elem_of_app; left|lia].
Qed.
(** Steps that change metrics, the sink or the stop flag only. *)
Lemma thr_inv_same e e' d c : thr_inv e d c → thr_pending e' = thr_pending e → thr_completed e' = thr_completed e →
  thr_workers e' = thr_workers e → thr_config e' = thr_config e → thr_next_task_id e' = thr_next_task_id e →
  thr_active e' = thr_active e → te_submitted_count (thr_metrics e') = te_submitted_count (thr_metrics e) →
  te_cancelled_count (thr_metrics e') = te_cancelled_count (thr_metrics e) →
  te_completed_count (thr_metrics e') + te_failed_count (thr_metrics e') =
    te_completed_count (thr_metrics e) + te_failed_count (thr_metrics e) → thr_inv e' d c.
Proof.
  intros [] Hp Hc Hw Hcf Hn Ha Hs Hcc Hcf'. split;
    unfold thr_outstanding, thr_inflight, running_ids, pending_ids, completed_ids, thr_capacity in *; congruence.
Qed.

(** Tasks that leave the queue without running are cancelled; they leave it from the front. *)
Lemma thr_inv_cancel n e e' d c : thr_inv e d c → thr_pending e' = drop n (thr_pending e) →
  thr_completed e' = thr_completed e → thr_workers e' = thr_workers e → thr_config e' = thr_config e →
  thr_next_task_id e' = thr_next_task_id e → thr_active e' = thr_active e →
  te_submitted_count (thr_metrics e') = te_submitted_count (thr_metrics e) →
  te_cancelled_count (thr_metrics e') = te_cancelled_count (thr_metrics e) + length (take n (thr_pending e)) →
  te_completed_count (thr_metrics e') + te_failed_count (thr_metrics e') =
    te_completed_count (thr_metrics e) + te_failed_count (thr_metrics e) →
  thr_inv e' d (c ++ (task_id <$> take n (thr_pending e))).
Proof.
  intros [] Hp Hc Hw Hcf Hn Ha Hs Hcc Hcf'. pose proof (take_drop n (thr_pending e)) as Ht.
  apply (f_equal length) in Ht. rewrite length_app in Ht.
  split; thr_unfold; rewrite ?Hp, ?Hc, ?Hw, ?Hcf, ?Hn, ?length_app, ?length_fmap in *; try congruence; try lia.
  - rewrite <- ti_ids0. rewrite <- (take_drop n (thr_pending e)) at 3. rewrite fmap_app, (assoc_L (++) d c).
    rewrite !(assoc_L (++)). rewrite (Permutation_app_comm _ (task_id <$> take n _)). by rewrite !(assoc_L (++)).
  - rewrite <- (take_drop n (thr_pending e)), fmap_app in ti_order0. by apply StronglySorted_app_1_r in ti_order0.
Qed.
Lemma thr_submit_inv submission e d c : thr_inv e d c → thr_inv (fst (thr_submit submission e)) d (c ++ evicted submission e).
Proof.
  intros I. assert (∀ reason, thr_inv (fst (thr_reject_submission reason e)) d (c ++ [])) as Hr
    by (intros; rewrite app_nil_r; by eapply thr_inv_same).
  destruct submission as [[work|] completion]; unfold evicted, thr_submit; cbn [fst]; [|apply Hr].
  destruct (thr_stopping e); cbn [negb andb]; [apply Hr|].
  destruct (Nat.leb_spec (thr_capacity e) (thr_outstanding e)) as [Hfull|Hroom]; cbn [andb];
    [|rewrite app_nil_r; by apply thr_enqueue_inv].
  destruct (drop_oldest_overflow (thr_overflow e)); cbn [andb]; [|apply Hr].
  destruct (thr_pending e) as [|task rest] eqn:Ep; [apply Hr|]. rewrite bool_decide_eq_true_2 by done. rewrite <- Ep.
  apply thr_enqueue_inv; [|destruct I; thr_unfold; rewrite Ep in *; simpl in *; lia].
  eapply thr_inv_cancel; [exact I|..]; simpl; try done. rewrite Ep. simpl. lia.
Qed.
Lemma thr_inv_cancel_all e e' d c : thr_inv e d c → thr_pending e' = [] →
  thr_completed e' = thr_completed e → thr_workers e' = thr_workers e → thr_config e' = thr_config e →
  thr_next_task_id e' = thr_next_task_id e → thr_active e' = thr_active e →
  te_submitted_count (thr_metrics e') = te_submitted_count (thr_metrics e) →
  te_cancelled_count (thr_metrics e') = te_cancelled_count (thr_metrics e) + length (thr_pending e) →
  te_completed_count (thr_metrics e') + te_failed_count (thr_metrics e') =
    te_completed_count (thr_metrics e) + te_failed_count (thr_metrics e) →
  thr_inv e' d (c ++ (task_id <$> thr_pending e)).
Proof.
  intros I Hp ? ? ? ? ? ? Hc ?. rewrite <- (take_ge (thr_pending e) (length (thr_pending e))) by lia.
  eapply thr_inv_cancel; [exact I|..]; try done; [by rewrite drop_ge|by rewrite take_ge].
Qed.
(** Completions are handed out from the front of the backlog. *)
Lemma thr_deliver_inv n e d c : thr_inv e d c →
  thr_inv (thr_refresh (e <| thr_completed ::= drop n |>)) (d ++ (completion_task_id <$> take n (thr_completed e))) c.
Proof.
  intros []. pose proof (take_drop n (thr_completed e)) as Ht. apply (f_equal length) in Ht. rewrite length_app in Ht.
  split; thr_unfold; rewrite ?length_app, ?length_fmap in *; try done; try lia.
  rewrite <- ti_ids0. do 2 apply Permutation_app_head. rewrite <- (take_drop n (thr_completed e)) at 3. rewrite fmap_app.
  rewrite <- !(assoc_L (++)), (assoc_L (++) (_ <$> drop n _) d), Permutation_app_swap_app. by rewrite <- (assoc_L (++)).
Qed.
Lemma caller_step_inv e d c d' c' e' : thr_inv e d c → caller_step e d' c' e' → thr_inv e' (d ++ d') (c ++ c').
Proof.
  intros I Hs. destruct Hs as [submission|max_tasks cancelled| | |attached]; rewrite ?app_nil_r.
  - by apply thr_submit_inv.
  - unfold thr_run_ready. cbn [fst snd]. apply thr_deliver_inv. destruct cancelled; [|by rewrite app_nil_r].
    by eapply thr_inv_cancel_all.
  - by eapply thr_inv_cancel_all.
  - unfold thr_shutdown. change (cancel_pending_on_shutdown (e <| thr_stopping := true |>)) with (cancel_pending_on_shutdown e).
    destruct (cancel_pending_on_shutdown e); [by eapply thr_inv_cancel_all|]. rewrite app_nil_r. by eapply thr_inv_same.
  - by eapply thr_inv_same.
Qed.
Lemma worker_step_inv i e d c e' : thr_inv e d c → worker_step perform i e e' → thr_inv e' d c.
Proof.
  intros I Hs. destruct Hs as [e task rest Hi Hst Hp Ha|e Hi Hst|e task Hi|e completion Hi].
  - destruct (running_set_worker e i _ (WRunning task) Hi) as (l&H1&H2). destruct I. rewrite H1 in ti_active0, ti_ids0.
    split; thr_unfold; rewrite ?H2, ?length_insert; rewrite ?Hp in *; simpl in *; auto; try lia.
    + by rewrite <- ti_ids0, <- Permutation_middle.
    + by inversion ti_order0.
  - destruct (running_set_worker e i _ WExited Hi) as (l&H1&H2). destruct I. rewrite H1 in ti_active0, ti_ids0.
    split; thr_unfold; rewrite ?H2, ?length_insert; auto.
  - destruct (running_set_worker e i _ (WFinished (work_completion (task_id task) (work_result (perform (task_work task))))) Hi) as (l&H1&H2).
    destruct I. rewrite H1 in ti_active0, ti_ids0.
    assert (completion_task_id (work_completion (task_id task) (work_result (perform (task_work task)))) = task_id task) as Hid
      by (by destruct (work_result _)).
    split; thr_unfold; rewrite ?H2, ?length_insert; repeat case_match; simpl in *; rewrite ?Hid; auto.
  - destruct (running_set_worker e i _ WWaiting Hi) as (l&H1&H2). destruct I. rewrite H1 in ti_active0, ti_ids0.
    split; thr_unfold; rewrite ?H2, ?length_insert, ?fmap_app, ?length_app; destruct (completion_ok completion); simpl in *; auto; try lia.
    all: rewrite <- ti_ids0; apply Permutation_app_head; rewrite <- (assoc_L (++)); cbn [app]; rewrite <- Permutation_middle.
    all: by rewrite <- Permutation_middle.
Qed.
Lemma thr_reachable_inv config e d c : thr_reachable perform config e d c → thr_inv e d c.
Proof.
  induction 1 as [|e d c d' c' e' _ IH Hs|e d c i e' _ IH Hs]; [apply thr_inv_new|by eapply caller_step_inv|by eapply worker_step_inv].
Qed.

Lemma caller_step_config e d c e' : caller_step e d c e' → thr_config e' = thr_config e.
Proof.
  destruct 1 as [[[work|] completion]|max_tasks [|]| | |]; try done; unfold thr_submit; repeat case_match; done || (unfold thr_shutdown; by case_match).
Qed.
Lemma thr_reachable_config config e d c : thr_reachable perform config e d c → thr_config e = thr_config (ThreadedTaskExecutor_new (W := W) (C := C) config).
Proof.
  induction 1 as [|e d c d' c' e' _ IH Hs|e d c i e' _ IH Hs]; [done| |].
  - by rewrite (caller_step_config _ _ _ _ Hs).
  - rewrite <- IH. by destruct Hs.
Qed.

(** C39. Whatever the threads do, at most [max_inflight] tasks run at once, the tasks waiting, running and not yet
    fetched fit the admission capacity, and every task that was accepted is in exactly one place: waiting (in the order
    of submission), running, completed, delivered to a caller or cancelled.  The counters agree with the places. *)
Theorem executor_conserves_tasks config e delivered cancelled : thr_reachable perform config e delivered cancelled →
  let bounds := normalize_config (base_config config) in let m := thr_metrics e in
  thr_active e <= max_inflight bounds ∧ thr_outstanding e <= admission_capacity bounds ∧
  NoDup (pending_ids e ++ running_ids e ++ completed_ids e ++ delivered ++ cancelled) ∧
  (∀ id, id ∈ pending_ids e ++ running_ids e ++ completed_ids e ++ delivered ++ cancelled ↔ 1 <= id <= te_submitted_count m) ∧
  StronglySorted lt (pending_ids e) ∧
  te_submitted_count m = te_completed_count m + te_failed_count m + te_cancelled_count m + length (thr_pending e) + thr_active e.
Proof.
  intros H. pose proof (thr_reachable_config _ _ _ _ H) as Hc. apply thr_reachable_inv in H. destruct H.
  unfold thr_capacity in *. rewrite Hc in *. simpl in *. split_and!; auto.
  - rewrite ti_ids0. apply NoDup_seq.
  - intros id. rewrite ti_ids0, elem_of_seq. lia.
  - apply Permutation_length in ti_ids0. rewrite length_seq, !length_app in ti_ids0. unfold pending_ids, completed_ids in *.
    rewrite !length_fmap in *. lia.
Qed.

(** ** Shutdown *)

(** Workers leave only once the executor stops, and leave no task behind. *)
Record stop_inv e : Prop := {
  si_exited : WExited ∈ thr_workers e → thr_stopping e = true ∧ thr_pending e = [];
  si_cancel : thr_stopping e = true → cancel_pending_on_shutdown e = true → thr_pending e = [] }.
Lemma stop_inv_clear e e' : stop_inv e → thr_workers e' = thr_workers e → thr_config e' = thr_config e →
  (thr_stopping e' = true → thr_pending e' = [] ∨ thr_stopping e = true ∧ thr_pending e' = thr_pending e ∨ cancel_pending_on_shutdown e = false) →
  (thr_stopping e = true → thr_stopping e' = true ∧ (thr_pending e = [] → thr_pending e' = [])) → stop_inv e'.
Proof.
  intros [Hx Hc] Hw Hcf H1 H2. split; unfold cancel_pending_on_shutdown in *; rewrite ?Hw, ?Hcf.
  - intros [Hs Hp]%Hx. by destruct (H2 Hs) as [? ?]; auto.
  - intros Hs Hcan. destruct (H1 Hs) as [?|[[Hs' Hp]|?]]; [done| |congruence]. rewrite Hp. auto.
Qed.
Lemma thr_submit_stopping submission e : thr_stopping e = true →
  thr_pending (fst (thr_submit submission e)) = thr_pending e ∧ thr_workers (fst (thr_submit submission e)) = thr_workers e.
Proof. intros H. destruct submission as [[work|] completion]; simpl; [rewrite H|]; done. Qed.
Lemma thr_submit_frame submission e :
  thr_workers (fst (thr_submit submission e)) = thr_workers e ∧ thr_config (fst (thr_submit submission e)) = thr_config e ∧
  thr_stopping (fst (thr_submit submission e)) = thr_stopping e.
Proof. destruct submission as [[work|] completion]; unfold thr_submit; repeat case_match; done. Qed.
Lemma caller_step_stop e d c e' : stop_inv e → caller_step e d c e' → stop_inv e'.
Proof.
  intros I Hs. destruct Hs as [submission|max_tasks cancelled| | |attached].
  - destruct (thr_submit_frame submission e) as (?&?&Hst). eapply stop_inv_clear; [exact I|done..| |]; rewrite Hst;
      intros Hs; destruct (thr_submit_stopping submission e Hs) as [Hp _]; rewrite Hp; auto.
  - eapply stop_inv_clear; [exact I|..]; destruct cancelled; simpl; auto.
  - eapply stop_inv_clear; [exact I|..]; simpl; auto.
  - unfold thr_shutdown. eapply stop_inv_clear; [exact I|..]; unfold cancel_pending_on_shutdown; simpl; case_match; simpl; auto.
  - eapply stop_inv_clear; [exact I|..]; simpl; auto.
Qed.
Lemma exited_insert (l : list (WorkerState W C)) i w : WExited ∈ <[i := w]> l → w = WExited ∨ WExited ∈ l.
Proof. intros [j Hj]%list_elem_of_lookup_1. apply list_lookup_insert_Some in Hj as [(_&?&_)|[_ Hj]]; [by left|right; by eapply list_elem_of_lookup_2]. Qed.
Lemma worker_step_stop i e e' : stop_inv e → worker_step perform i e e' → stop_inv e'.
Proof.
  intros [Hx Hc] Hs. destruct Hs as [e task rest Hi Hst Hp Ha|e Hi Hst|e task Hi|e completion Hi]; split; simpl.
  - intros [?|[? Hn]%Hx]%exited_insert; [done|congruence].
  - intros Hs' Hcan. specialize (Hc Hs' Hcan). congruence.
  - intros _. unfold worker_stops in Hst. apply andb_prop in Hst as [Hs [?%bool_decide_eq_true|?]%orb_prop]; auto.
  - done.
  - intros [?|?]%exited_insert; [done|auto].
  - done.
  - intros [?|?]%exited_insert; [done|auto].
  - done.
Qed.
Lemma thr_reachable_stop config e d c : thr_reachable perform config e d c → stop_inv e.
Proof.
  induction 1 as [|e d c d' c' e' _ IH Hs|e d c i e' _ IH Hs]; [|by eapply caller_step_stop|by eapply worker_step_stop].
  split; [|done]. simpl. intros H. apply elem_of_replicate in H. by destruct H.
Qed.

(** The steps the workers can still make. *)
Definition worker_work (w : WorkerState W C) : nat :=
  match w with WWaiting => 1 | WRunning _ => 3 | WFinished _ => 2 | WExited => 0 end.
Definition shutdown_work e : nat := 3 * length (thr_pending e) + sum_list_with worker_work (thr_workers e).
Definition some_worker_step e e' : Prop := ∃ i, worker_step perform i e e'.
Lemma work_insert (l : list (WorkerState W C)) i w w' : l !! i = Some w →
  sum_list_with worker_work (<[i := w']> l) + worker_work w = sum_list_with worker_work l + worker_work w'.
Proof. revert i. induction l as [|x l IH]; intros [|i] H; simplify_eq/=; [lia|]. specialize (IH i H). lia. Qed.
Lemma worker_step_work i e e' : worker_step perform i e e' → S (shutdown_work e') = shutdown_work e.
Proof.
  intros Hs. unfold shutdown_work.
  destruct Hs as [e task rest Hi Hst Hp Ha|e Hi Hst|e task Hi|e completion Hi];
    pose proof (work_insert _ _ _ WWaiting Hi); pose proof (λ t, work_insert _ _ _ (WRunning t) Hi);
    pose proof (λ c, work_insert _ _ _ (WFinished c) Hi); pose proof (work_insert _ _ _ WExited Hi);
    unfold thr_take, thr_execute, thr_finish, set_worker, note_outstanding, note_inflight, thr_refresh; simpl in *.
  - rewrite Hp. simpl. specialize (H0 task). lia.
  - lia.
  - match goal with |- context [<[_ := WFinished ?c]> _] => specialize (H1 c) end. lia.
  - lia.
Qed.
#[local] Instance exited_dec (w : WorkerState W C) : Decision (WExited = w).
Proof. by destruct w; [right|right|right|left]. Defined.
(** Neither a call from outside nor a worker makes more work for a stopping executor. *)
Lemma worker_step_stopping i e e' : worker_step perform i e e' → thr_stopping e' = thr_stopping e.
Proof. by destruct 1. Qed.
(** A worker that has not left can go on, itself or after another. *)
Lemma stopping_progress e d c : thr_inv e d c → thr_stopping e = true → ¬ Forall (eq WExited) (thr_workers e) →
  ∃ e', some_worker_step e e'.
Proof.
  intros I Hst Hall.
  destruct (decide (running_ids e = [])) as [Hnone|Hsome].
  - apply not_Forall_Exists in Hall; [|apply _].
    apply Exists_exists in Hall as (w&[i Hi]%list_elem_of_lookup_1&Hw).
    assert (worker_ids w = []) as Hids. { destruct (running_set_worker e i w w Hi) as (l&Hl&_). rewrite Hnone in Hl.
      apply Permutation_nil_l in Hl. by apply eq_sym, app_nil in Hl as [? _]. }
    destruct w; try done. destruct (worker_stops e) eqn:Hs; [exists (set_worker i WExited e), i; by constructor|].
    destruct (thr_pending e) as [|task rest] eqn:Hp.
    + unfold worker_stops in Hs. rewrite Hst, Hp in Hs. done.
    + exists (thr_take i task rest e), i. constructor; auto. destruct I. rewrite ti_active0, Hnone. simpl. lia.
  - assert (∃ id, id ∈ running_ids e) as [id Hid]. { destruct (running_ids e) as [|id l]; [done|exists id; by left]. }
    unfold running_ids in Hid. apply list_elem_of_bind in Hid as (w&Hid&[i Hi]%list_elem_of_lookup_1).
    destruct w as [|task|completion|]; try (by apply not_elem_of_nil in Hid).
    + eexists _, i. by eapply worker_executes.
    + eexists _, i. by eapply worker_finishes.
Qed.
Lemma drain_run e d c : thr_inv e d c → stop_inv e → thr_stopping e = true →
  ∃ e', rtc some_worker_step e e' ∧ Forall (eq WExited) (thr_workers e') ∧ thr_inv e' d c ∧ stop_inv e'.
Proof.
  remember (shutdown_work e) as n eqn:Hn. revert e Hn. induction n as [n IH] using lt_wf_ind. intros e -> I S Hst.
  destruct (decide (Forall (eq WExited) (thr_workers e))) as [Hall|Hall]; [by exists e|].
  destruct (stopping_progress e d c I Hst Hall) as (e1&i&Hs).
  pose proof (worker_step_work _ _ _ Hs). destruct (IH (shutdown_work e1)) with (e := e1) as (e'&Hr&?); try done; [lia|..].
  - by eapply worker_step_inv.
  - by eapply worker_step_stop.
  - by rewrite (worker_step_stopping _ _ _ Hs).
  - exists e'. split; [|done]. eapply rtc_l; [|done]. by exists i.
Qed.
Lemma running_ids_exited e : Forall (eq WExited) (thr_workers e) → running_ids e = [].
Proof. unfold running_ids. induction 1 as [|w l <- _ IH]; [done|]. exact IH. Qed.
Lemma worker_steps_bounded n e e' : nsteps some_worker_step n e e' → n + shutdown_work e' = shutdown_work e.
Proof. induction 1 as [|n e e1 e' [i Hs] _ IH]; [done|]. apply worker_step_work in Hs. lia. Qed.

(** C40. Once an executor is told to stop, its workers leave: however they are scheduled they make a bounded number of
    steps, as long as one of them has not left some worker can go on, and when all have left no task is waiting or
    running: every accepted task is completed, delivered or cancelled. *)
Theorem shutdown_drains config e d c : thr_reachable perform config e d c → thr_stopping e = true →
  (∀ n e', nsteps some_worker_step n e e' → n <= shutdown_work e ∧ (Forall (eq WExited) (thr_workers e') ∨ ∃ e'', some_worker_step e' e'')) ∧
  (∃ e', rtc some_worker_step e e' ∧ Forall (eq WExited) (thr_workers e')) ∧
  (∀ e', rtc some_worker_step e e' → Forall (eq WExited) (thr_workers e') →
     thr_idle e' = true ∧ completed_ids e' ++ d ++ c ≡ₚ seq 1 (te_submitted_count (thr_metrics e'))).
Proof.
  intros H Hst. pose proof (thr_reachable_stop _ _ _ _ H) as S. pose proof (thr_reachable_inv _ _ _ _ H) as I.
  assert (∀ e', rtc some_worker_step e e' → thr_inv e' d c ∧ stop_inv e' ∧ thr_stopping e' = true) as Hinv.
  { intros e'. clear H. induction 1 as [|e e1 e' [i Hs] _ IH]; [done|].
    apply IH; [by rewrite (worker_step_stopping _ _ _ Hs)|by eapply worker_step_stop|by eapply worker_step_inv]. }
  split_and!.
  - intros n e' Hn. split; [apply worker_steps_bounded in Hn; lia|].
    destruct (Hinv e') as (I'&_&Hst'); [by eapply rtc_nsteps_2|].
    destruct (decide (Forall (eq WExited) (thr_workers e'))); [by left|right; by eapply stopping_progress].
  - destruct (drain_run e d c I S Hst) as (e'&?&?&_). eauto.
  - intros e' Hr Hall. destruct (Hinv e' Hr) as ([]&[Hx _]&_). pose proof (running_ids_exited _ Hall) as Hrun.
    assert (thr_pending e' = []) as Hp.
    { apply Hx. destruct (thr_workers e') as [|w l]; [simpl in *; lia|]. inversion Hall; subst. by left. }
    unfold thr_idle, pending_ids in *. rewrite Hrun, Hp in *. simpl in *. rewrite ti_active0, ti_submitted0. by split.
Qed.
End threaded.

(** A run of the threaded executor: two workers, one task over capacity, then a shutdown that drains. *)
Definition demo_perform (work : nat) : WorkOutcome nat nat :=
  mkOutcome (if work =? 0 then inl "boom" else inr (mkPayload kTextPayloadSchema (TextPayload "done"))) 0 [].
Definition demo_threaded : ThreadedTaskExecutorConfig := mkThreadedConfig (mkExecutorConfig 1 1 "drop_oldest" 0) 2 "drain".
Definition demo_submit (n : nat) (e : ThreadedTaskExecutor nat nat) : ThreadedTaskExecutor nat nat := fst (thr_submit (Some n, None) e).
Definition demo_start : ThreadedTaskExecutor nat nat := demo_submit 2 (demo_submit 1 (demo_submit 0 (ThreadedTaskExecutor_new demo_threaded))).
Definition demo_state : ThreadedTaskExecutor nat nat := thr_shutdown demo_start.
Lemma demo_step e e' d c d' c' : thr_reachable demo_perform demo_threaded e d c → caller_step e d' c' e' →
  thr_reachable demo_perform demo_threaded e' (d ++ d') (c ++ c').
Proof. apply thr_caller. Qed.
Lemma demo_reachable : thr_reachable demo_perform demo_threaded demo_state [] [1].
Proof.
  exact (demo_step _ _ _ _ [] [] (demo_step _ _ _ _ [] [1] (demo_step _ _ _ _ [] [] (demo_step _ _ _ _ [] [] (thr_starts _ _)
    (caller_submits _ (Some 0, None))) (caller_submits _ (Some 1, None))) (caller_submits _ (Some 2, None))) (caller_shuts_down _)).
Qed.
Lemma executor_conserves_tasks_witness : thr_outstanding demo_state <= 2.
Proof. apply (executor_conserves_tasks _ _ _ _ _ demo_reachable). Defined.
Lemma shutdown_drains_witness :
  ∃ e', rtc (some_worker_step demo_perform) demo_state e' ∧ Forall (eq WExited) (thr_workers e').
Proof. apply (shutdown_drains _ _ _ _ _ demo_reachable). reflexivity. Defined.

(** ** The deterministic executor *)
#[local] Arguments det_enqueue : simpl never.
Section deterministic.
Context {W C : Type} (perform : W → WorkOutcome W C) (complete : C → TaskCompletion → list (option W * option C)).
Implicit Types e : DeterministicTaskExecutor W C.

(** The next task to run; the waiting tasks follow it without gap. *)
Definition det_front e : nat := det_next_task_id e - length (det_pending e).
Record det_inv (active : nat) e : Prop := {
  di_capacity : length (det_pending e) <= admission_capacity (det_config e);
  di_ids : task_id <$> det_pending e = seq (det_front e) (length (det_pending e));
  di_next : length (det_pending e) < det_next_task_id e;
  di_submitted : te_submitted_count (det_metrics e) = pred (det_next_task_id e);
  di_active : te_active_count (det_metrics e) = active;
  di_accounts : te_submitted_count (det_metrics e) = te_completed_count (det_metrics e) + te_failed_count (det_metrics e)
    + te_cancelled_count (det_metrics e) + length (det_pending e) + active;
  di_config : 0 < max_inflight (det_config e) }.
Lemma det_inv_new config : det_inv 0 (DeterministicTaskExecutor_new config).
Proof. split; simpl; auto; try lia. unfold normalize_positive. destruct (Nat.eqb_spec (max_inflight config) 0); lia. Qed.
(** Changes of metrics outside the account. *)
Lemma det_inv_same active e e' : det_inv active e → det_config e' = det_config e → det_pending e' = det_pending e →
  det_next_task_id e' = det_next_task_id e → te_submitted_count (det_metrics e') = te_submitted_count (det_metrics e) →
  te_active_count (det_metrics e') = te_active_count (det_metrics e) →
  te_completed_count (det_metrics e') = te_completed_count (det_metrics e) →
  te_failed_count (det_metrics e') = te_failed_count (det_metrics e) →
  te_cancelled_count (det_metrics e') = te_cancelled_count (det_metrics e) → det_inv active e'.
Proof. intros []. intros. split; unfold det_front in *; congruence. Qed.
Lemma det_enqueue_inv active work completion e : det_inv active e → length (det_pending e) < admission_capacity (det_config e) →
  det_inv active (fst (det_enqueue work completion e)) ∧ det_front (fst (det_enqueue work completion e)) = det_front e.
Proof.
  intros [] Hroom. assert (det_front (fst (det_enqueue work completion e)) = det_front e) as Hf
    by (unfold det_front, det_enqueue; simpl; rewrite length_app; simpl; lia).
  split; [|done]. split; rewrite ?Hf; unfold det_enqueue; simpl; rewrite ?length_app; simpl; auto; try lia.
  rewrite fmap_app, di_ids0, Nat.add_1_r, seq_S. simpl. unfold det_front. do 2 f_equal. lia.
Qed.
(** Dropping the oldest task leaves the next one in front. *)
Lemma det_pop_inv active active' m task rest e : det_inv active e → det_pending e = task :: rest → te_active_count m = active' →
  te_submitted_count m = te_submitted_count (det_metrics e) →
  te_completed_count m + te_failed_count m + te_cancelled_count m + active' =
    S (te_completed_count (det_metrics e) + te_failed_count (det_metrics e) + te_cancelled_count (det_metrics e) + active) →
  let e' := e <| det_pending := rest |> <| det_metrics := m |> in
  det_inv active' e' ∧ det_front e' = S (det_front e) ∧ task_id task = det_front e.
Proof.
  intros [] Hp Hact Hs Ha e'. subst e'. unfold det_front in *. rewrite Hp in *. simpl in *. injection di_ids0 as Hid Hids.
  split_and!; [|lia|done]. split; unfold det_front; simpl; auto; try lia. etransitivity; [exact Hids|]. f_equal. lia.
Qed.
Lemma det_submit_inv active s e : det_inv active e →
  det_inv active (fst (det_submit s e)) ∧ det_front e <= det_front (fst (det_submit s e)).
Proof.
  intros I. assert (∀ reason, det_inv active (fst (det_reject_submission reason e)) ∧
    det_front e <= det_front (fst (det_reject_submission reason e))) as Hr by (intros; split; [by eapply det_inv_same|done]).
  destruct s as [[work|] completion]; unfold det_submit; [|apply Hr].
  destruct (Nat.leb_spec (admission_capacity (det_config e)) (length (det_pending e))) as [Hfull|Hroom].
  - destruct (drop_oldest_overflow _); [|apply Hr]. destruct (det_pending e) as [|task rest] eqn:Hp.
    { destruct I. unfold admission_capacity in *. rewrite Hp in *. simpl in *. lia. }
    destruct (det_pop_inv active active ((det_metrics e) <| te_cancelled_count ::= S |>) task rest e I Hp) as (I'&Hf&_); [by destruct I|done|destruct I; simpl; lia|].
    assert (e <| det_pending ::= tail |> <| det_metrics ::= λ m, m <| te_cancelled_count ::= S |> |> =
            e <| det_pending := rest |> <| det_metrics := (det_metrics e) <| te_cancelled_count ::= S |> |>) as -> by (simpl; by rewrite Hp).
    destruct (det_enqueue_inv active work completion _ I') as [I2 ->]; [|split; [done|lia]].
    destruct I. rewrite Hp in *. simpl in *. lia.
  - destruct (det_enqueue_inv active work completion e I Hroom) as [? ->]. by split.
Qed.
Lemma det_submit_all_inv active l e : det_inv active e →
  det_inv active (det_submit_all l e) ∧ det_front e <= det_front (det_submit_all l e).
Proof.
  unfold det_submit_all. revert e. induction l as [|s l IH]; intros e I; simpl; [by split|].
  destruct (det_submit_inv _ s e I) as [I' H]. destruct (IH _ I') as [? ?]. split; [done|lia].
Qed.
Lemma det_run_task_inv task rest e : det_inv 0 e → det_pending e = task :: rest →
  let r := det_run_task perform complete task rest e in
  det_inv 0 (fst r) ∧ completion_task_id (snd r) = det_front e ∧ det_front e < det_front (fst r).
Proof.
  intros I Hp. cbn zeta. unfold det_run_task.
  destruct (det_pop_inv 0 1 ((det_metrics e) <| te_active_count := 1 |>) task rest e I Hp) as (I1&Hf1&Hid); [done|done|destruct I; simpl; lia|].
  destruct (det_submit_all_inv 1 (work_submissions (perform (task_work task))) _ I1) as [I2 Hf2].
  cbn [fst snd].
  match goal with |- det_inv 0 (det_submit_all _ ?x) ∧ _ => set (e3 := x) end.
  assert (det_inv 0 e3 ∧ det_front e3 = det_front (det_submit_all (work_submissions (perform (task_work task)))
    (e <| det_pending := rest |> <| det_metrics := (det_metrics e) <| te_active_count := 1 |> |>))) as [I3 Hf3].
  { split; [|done]. destruct I2. subst e3. split; simpl; auto; repeat case_match; simpl in *; try done; try lia. }
  match goal with |- det_inv 0 (det_submit_all ?l _) ∧ _ => destruct (det_submit_all_inv 0 l e3 I3) as [I4 Hf4] end.
  split_and!; [done| |lia]. rewrite <- Hid. by destruct (work_result _).
Qed.
Lemma det_cancel_inv e : det_inv 0 e → det_inv 0 (fst (det_cancel_pending e)).
Proof. intros []. split; unfold det_front; simpl; auto; lia. Qed.

Lemma det_run_loop_inv fuel max_tasks cancelled e cs e' cs' :
  det_run_loop perform complete fuel max_tasks cancelled e cs = Some (e', cs') → det_inv 0 e →
  StronglySorted lt (completion_task_id <$> cs) → Forall (λ id, id < det_front e) (completion_task_id <$> cs) →
  (max_tasks = 0 ∨ length cs <= max_tasks) →
  det_inv 0 e' ∧ StronglySorted lt (completion_task_id <$> cs') ∧ (max_tasks = 0 ∨ length cs' <= max_tasks) ∧
  ((max_tasks = 0 ∨ length cs' < max_tasks) → det_pending e' = []).
Proof.
  assert (∀ e, det_inv 0 e → det_inv 0 (fst (det_cancel_pending (e <| det_metrics ::= fun m => m <| te_cancellation_requested_count ::= S |>
                       <| te_cancellation_observed_count ::= S |> |>)))) as Hcancel by (intros; apply det_cancel_inv; by eapply det_inv_same).
  revert e cs. induction fuel as [|fuel IH]; intros e cs Hl I Hs Hf Hm; cbn [det_run_loop] in Hl; destruct (det_pending e) as [|task rest] eqn:Hp.
  1,3: by injection Hl as <- <-.
  all: destruct ((max_tasks =? 0) || (length cs <? max_tasks)) eqn:Hmore;
    [|apply orb_false_iff in Hmore as [?%Nat.eqb_neq ?%Nat.ltb_ge]; injection Hl as <- <-; split_and!; auto; lia].
  all: destruct (cancelled (length cs)); [injection Hl as <- <-; split_and!; [exact (Hcancel e I)|by auto..]|].
  { discriminate Hl. }
  pose proof (det_run_task_inv task rest e I Hp) as Ht. destruct (det_run_task _ _ _ _ _) as [e1 completion].
  cbn [fst snd] in Ht. destruct Ht as (I1&Hid&Hf1).
  apply orb_true_iff in Hmore. rewrite Nat.eqb_eq, Nat.ltb_lt in Hmore. apply IH in Hl; auto; rewrite ?fmap_app, ?length_app; cbn [fmap list_fmap length].
  - apply StronglySorted_app_2; [|done|repeat constructor]. intros x y Hx ->%list_elem_of_singleton. rewrite Hid. by eapply Forall_forall in Hf.
  - apply Forall_app. split; [eapply Forall_impl; [exact Hf|]; simpl; lia|repeat constructor; lia].
  - lia.
Qed.
Lemma det_run_loop_total max_tasks cancelled fuel e cs : 0 < max_tasks → max_tasks <= fuel + length cs →
  is_Some (det_run_loop perform complete fuel max_tasks cancelled e cs).
Proof.
  intros Hm. revert e cs. induction fuel as [|fuel IH]; intros e cs Hf; cbn [det_run_loop]; destruct (det_pending e); eauto;
    destruct (Nat.eqb_spec max_tasks 0) as [|_]; try lia; cbn [orb]; destruct (Nat.ltb_spec (length cs) max_tasks); eauto; try lia;
    destruct (cancelled _); eauto.
  destruct (det_run_task _ _ _ _ _). apply IH. rewrite length_app. simpl. lia.
Qed.

(** A bounded call of [run_ready] returns: whatever the works and callbacks submit, [max_tasks] rounds are enough.
    It runs at most [max_tasks] tasks in the order of their submission, leaves the queue empty when it ran fewer,
    and keeps the queue within the admission capacity and the counters in agreement with the queue. *)
Theorem run_ready_bounded fuel max_tasks cancelled e : det_inv 0 e → 0 < max_tasks <= fuel → ∃ e' completions,
  det_run_ready perform complete fuel max_tasks cancelled e = Some (e', completions) ∧
  det_inv 0 e' ∧ length completions <= max_tasks ∧ StronglySorted lt (completion_task_id <$> completions) ∧
  (length completions < max_tasks → det_pending e' = []).
Proof.
  intros I [Hm Hf]. unfold det_run_ready.
  destruct (det_run_loop_total max_tasks cancelled fuel e [] Hm) as [[e' cs] Hl]; [simpl; lia|]. rewrite Hl.
  apply det_run_loop_inv in Hl as (I'&Hs&Hlen&Hp); [|done|constructor|constructor|simpl; lia].
  eexists _, cs. split; [done|]. split_and!; [by eapply det_inv_same|lia|done|]. intros. simpl. apply Hp. lia.
Qed.

(** ** Works that submit nothing *)
Definition silent e : Prop := Forall (λ task, work_submissions (perform (task_work task)) = [] ∧
  match task_completion task with Some c => ∀ completion, complete c completion = [] | None => True end) (det_pending e).
Definition task_result (task : PendingTask W C) : TaskCompletion :=
  work_completion (task_id task) (work_result (perform (task_work task))).
Lemma det_run_task_silent task rest e : silent e → det_pending e = task :: rest →
  let r := det_run_task perform complete task rest e in snd r = task_result task ∧ det_pending (fst r) = rest.
Proof.
  intros Hs Hp. unfold silent in Hs. rewrite Hp in Hs. inversion Hs as [|?? [H1 H2] _]; subst. unfold det_run_task. rewrite H1.
  split; [done|]. destruct (task_completion task) as [c|]; [by rewrite H2|done].
Qed.
Lemma det_run_loop_silent fuel e cs : silent e → length (det_pending e) <= fuel → ∃ e',
  det_run_loop perform complete fuel 0 (λ _, false) e cs = Some (e', cs ++ (task_result <$> det_pending e)) ∧ det_pending e' = [].
Proof.
  revert e cs. induction fuel as [|fuel IH]; intros e cs Hs Hl; cbn [det_run_loop]; destruct (det_pending e) as [|task rest] eqn:Hp;
    simpl in Hl; try lia; try (exists e; by rewrite app_nil_r).
  cbn [Nat.eqb orb]. pose proof (det_run_task_silent task rest e Hs Hp) as H. destruct (det_run_task _ _ _ _ _) as [e1 completion].
  cbn [fst snd] in H. destruct H as [-> H]. destruct (IH e1 (cs ++ [task_result task])) as (e'&Hr&He').
  - unfold silent in *. rewrite H, Hp in *. by inversion Hs.
  - rewrite H. lia.
  - exists e'. rewrite Hr, H, <- (assoc_L (++)). by split.
Qed.
(** [run_ready] without a limit, on works that submit nothing further: it runs exactly the waiting tasks, front to
    back, and answers with the completion of each. *)
Theorem run_ready_runs_all e : silent e → ∃ e',
  det_run_ready perform complete (length (det_pending e)) 0 (λ _, false) e = Some (e', task_result <$> det_pending e) ∧ det_pending e' = [].
Proof.
  intros Hs. unfold det_run_ready. destruct (det_run_loop_silent (length (det_pending e)) e [] Hs) as (e'&->&He'); [done|].
  by eexists.
Qed.
End deterministic.

Definition demo_deterministic : DeterministicTaskExecutor nat nat :=
  det_submit_all [(Some 0, None); (Some 1, None); (Some 2, None); (None, None)] (DeterministicTaskExecutor_new (mkExecutorConfig 1 1 "drop_oldest" 0)).
Lemma run_ready_bounded_witness : ∃ e' completions,
  det_run_ready demo_perform (λ _ _, []) 1 1 (λ _, false) demo_deterministic = Some (e', completions) ∧ length completions <= 1.
Proof.
  destruct (run_ready_bounded demo_perform (λ _ _, []) 1 1 (λ _, false) demo_deterministic) as (e'&cs&H&_&Hl&_); [split; simpl; auto; lia|lia|].
  by exists e', cs.
Defined.
Lemma run_ready_runs_all_witness : ∃ e',
  det_run_ready demo_perform (λ _ _, []) 2 0 (λ _, false) demo_deterministic =
    Some (e', [task_result demo_perform (mkTask 2 1 None); task_result demo_perform (mkTask 3 2 None)]).
Proof.
  destruct (run_ready_runs_all demo_perform (λ _ _, []) demo_deterministic) as (e'&H&_); [repeat constructor|]. by exists e'.
Defined.
