(* ===== verification/Lanes.v ===== *)
(** * Lanes: admission to worker pools and the clock of fixed-rate lanes

    Models the lane helpers of [src/event_runtime.cpp]: how many workers and how much queue a lane has, what its
    overflow policy does, the priorities of invocations, the order in which a worker pool takes its work, and the
    schedule of wall-clock fixed-rate lanes.  Time points and durations are nanoseconds.  The period of a lane that
    gives a frequency is [1.0 / hz] seconds in double arithmetic, which is the argument [hz_period]. *)

From S2P Require Export Scheduler.
Local Open Scope nat_scope.

(** ** Workers, queues, overflow, priorities *)
Definition worker_count_for_lane (lane : SchedulerGroupConfig) : nat :=
  if (0 <? group_max_threads lane)%Z then Z.to_nat (group_max_threads lane) else 1.
Definition queue_capacity_for_lane (lane : SchedulerGroupConfig) (ready_count active_capacity : nat) : nat :=
  if (0 <? group_queue_capacity lane)%Z then Z.to_nat (group_queue_capacity lane)
  else if active_capacity <? ready_count then ready_count - active_capacity else 0.
Definition lane_overflow_drops_oldest (overflow : string) : bool := str_eqb overflow "drop_oldest" || str_eqb overflow "overwrite".
Definition lane_overflow_rejects_newest (overflow : string) : bool :=
  str_eqb overflow "drop_newest" || str_eqb overflow "reject" || str_eqb overflow "reject_new" || str_eqb overflow "block".
Definition lane_overflow_fails_fast (overflow : string) : bool := str_eqb overflow "fail_fast".
Definition runtime_priority_rank (priority : string) : nat :=
  if str_eqb priority "high" then 3 else if str_eqb priority "low" then 1 else if str_eqb priority "background" then 0 else 2.
Definition record_priority_metric (priority : string) (m : SchedulerMetrics) : SchedulerMetrics :=
  if str_eqb priority "high" then m <| priority_high_count ::= S |>
  else if str_eqb priority "low" then m <| priority_low_count ::= S |>
  else if str_eqb priority "background" then m <| priority_background_count ::= S |>
  else m <| priority_normal_count ::= S |>.
Definition is_low_priority (priority : string) : bool := str_eqb priority "low" || str_eqb priority "background".

(** What becomes of [ready] invocations that meet a bound: [inl] is the error of the lane, and the second component of
    the result is the range that was refused. *)
Inductive Admission {A} := LaneAccepts (accepted_work rejected : list A) | LaneFull | UnsupportedOverflow.
Arguments Admission : clear implicits.
Definition admit_ready {A} (overflow : string) (capacity : nat) (ready : list A) : Admission A :=
  if length ready <=? capacity then LaneAccepts ready [] else
  let overflow_count := length ready - capacity in
  if lane_overflow_fails_fast overflow then LaneFull else
  if lane_overflow_drops_oldest overflow then LaneAccepts (drop overflow_count ready) (take overflow_count ready)
  else if lane_overflow_rejects_newest overflow then LaneAccepts (take capacity ready) (drop capacity ready)
  else UnsupportedOverflow.

(** ** The queue of a worker pool *)
Record WorkItem {W : Type} := mkWorkItem { item_work : W; priority_rank : nat; enqueue_order : nat; item_component_id : string }.
Arguments WorkItem : clear implicits.
Arguments mkWorkItem {W}.
Section pool.
Context {W : Type}.
Implicit Types (x y : WorkItem W) (q : list (WorkItem W)).
(** The comparison of [worker_loop]; [std::string] is ordered by its bytes. *)
Definition item_before x y : bool :=
  if negb (priority_rank x =? priority_rank y) then priority_rank y <? priority_rank x else
  if negb (enqueue_order x =? enqueue_order y) then enqueue_order x <? enqueue_order y
  else bool_decide (String.le (item_component_id x) (item_component_id y)) &&
       negb (str_eqb (item_component_id x) (item_component_id y)).
(** [std::min_element]: the position of the first minimal element. *)
Fixpoint best_from (best : nat) (item : WorkItem W) (position : nat) q : nat * WorkItem W :=
  match q with
  | [] => (best, item)
  | x :: rest => if item_before x item then best_from position x (S position) rest else best_from best item (S position) rest
  end.
Definition best_item q : option (nat * WorkItem W) :=
  match q with [] => None | x :: rest => Some (best_from 0 x 1 rest) end.
(** A worker takes the best item of the queue. *)
Definition take_best q : option (WorkItem W * list (WorkItem W)) :=
  match best_item q with None => None | Some (i, x) => Some (x, delete i q) end.
End pool.

(** ** Fixed-rate lanes *)
Section fixed_rate.
Context (hz_period : QArith_base.Q → Z).
Definition fixed_rate_period_for_lane (lane : SchedulerGroupConfig) : Z :=
  if (0 <? group_period lane)%Z then ms (group_period lane)
  else if (0 <? QArith_base.Qnum (group_hz lane))%Z then hz_period (group_hz lane) else 0%Z.
Definition fixed_rate_budget_for_lane (lane : SchedulerGroupConfig) : Z :=
  if (0 <? group_tick_budget lane)%Z then ms (group_tick_budget lane) else fixed_rate_period_for_lane lane.
End fixed_rate.
Definition missed_periods (lateness period : Z) : nat :=
  if ((lateness <=? 0) || (period <=? 0))%Z then 0 else Z.to_nat (lateness / period).

(** The schedule after a tick that was due at [scheduled] and whose iteration ended at [finished]: the time of the next
    tick, the ticks counted as skipped, and the lateness. *)
Record NextTick := mkNextTick { next_tick : Z; skipped_ticks : nat; wall_clock_lateness : Z }.
Definition next_wall_clock_tick (policy : string) (period scheduled finished : Z) : NextTick :=
  let nominal := (scheduled + period)%Z in
  let lateness := if (nominal <? finished)%Z then (finished - nominal)%Z else 0%Z in
  let missed := missed_periods lateness period in
  if str_eqb policy "skip_next" && (0 <? lateness)%Z then mkNextTick (nominal + period) (Nat.max missed 1) lateness
  else if str_eqb policy "catch_up_once" && (0 <? lateness)%Z then mkNextTick finished missed lateness
  else if (0 <? lateness)%Z then mkNextTick (finished + period) missed lateness
  else mkNextTick nominal missed lateness.

(** ** Lemmas *)
Lemma admit_ready_spec {A} overflow capacity (ready : list A) : match admit_ready overflow capacity ready with
  | LaneAccepts kept refused => length kept <= capacity ∧ kept `sublist_of` ready ∧ kept ++ refused ≡ₚ ready ∧
      length kept = Nat.min capacity (length ready) ∧ length refused = length ready - capacity
  | LaneFull => capacity < length ready ∧ overflow = "fail_fast"
  | UnsupportedOverflow => capacity < length ready
  end.
Proof.
  unfold admit_ready. destruct (Nat.leb_spec (length ready) capacity).
  { rewrite app_nil_r. simpl. split_and!; done || lia. }
  destruct (lane_overflow_fails_fast overflow) eqn:Ef; [unfold lane_overflow_fails_fast in Ef; apply str_eqb_eq in Ef; by split|].
  destruct (lane_overflow_drops_oldest overflow); [|destruct (lane_overflow_rejects_newest overflow); [|done]].
  - rewrite length_drop, length_take. split; [lia|]. split; [apply sublist_drop|]. split; [|lia].
    by rewrite Permutation_app_comm, take_drop.
  - rewrite length_take, length_drop. split; [lia|]. split; [apply sublist_take|]. split; [|lia]. by rewrite take_drop.
Qed.

(** The order of a pool: higher rank first, then earlier. *)
Definition rank_le {W} (x y : WorkItem W) : Prop :=
  priority_rank y < priority_rank x ∨ priority_rank x = priority_rank y ∧ enqueue_order x <= enqueue_order y.
Lemma item_before_rank {W} (x y : WorkItem W) : if item_before x y then rank_le x y else rank_le y x.
Proof.
  unfold item_before, rank_le. destruct (Nat.eqb_spec (priority_rank x) (priority_rank y)) as [->|]; simpl.
  - destruct (Nat.eqb_spec (enqueue_order x) (enqueue_order y)) as [->|]; simpl.
    + destruct (bool_decide _ && _); right; lia.
    + destruct (Nat.ltb_spec (enqueue_order x) (enqueue_order y)); right; lia.
  - destruct (Nat.ltb_spec (priority_rank y) (priority_rank x)); left; lia.
Qed.
Lemma rank_le_refl {W} (x : WorkItem W) : rank_le x x.
Proof. right. lia. Qed.
Lemma rank_le_trans {W} (x y z : WorkItem W) : rank_le x y → rank_le y z → rank_le x z.
Proof. unfold rank_le. lia. Qed.
Lemma best_from_spec {W} (q : list (WorkItem W)) best item position l :
  l !! best = Some item → length l = position → Forall (rank_le item) l →
  let '(i, x) := best_from best item position q in (l ++ q) !! i = Some x ∧ Forall (rank_le x) (l ++ q).
Proof.
  revert best item position l. induction q as [|y q IH]; intros best item position l Hb Hl Hf; simpl; [by rewrite app_nil_r|].
  replace (l ++ y :: q) with ((l ++ [y]) ++ q) by (by rewrite <- app_assoc). pose proof (item_before_rank y item) as Hr.
  destruct (item_before y item); apply IH; rewrite ?length_app; simpl; try lia.
  - by rewrite lookup_app_r, Hl, Nat.sub_diag by lia.
  - apply Forall_app. split; [eapply Forall_impl; [exact Hf|]; intros z; by apply rank_le_trans|].
    constructor; [apply rank_le_refl|done].
  - by apply lookup_app_l_Some.
  - apply Forall_app. split; [done|]. by constructor.
Qed.
Lemma take_best_spec {W} (q : list (WorkItem W)) : match take_best q with
  | None => q = []
  | Some (x, rest) => q ≡ₚ x :: rest ∧ Forall (rank_le x) q
  end.
Proof.
  unfold take_best, best_item. destruct q as [|x q]; [done|].
  pose proof (best_from_spec q 0 x 1 [x] eq_refl eq_refl (proj2 (Forall_singleton (rank_le x) x) (rank_le_refl x))) as H.
  destruct (best_from 0 x 1 q) as [i y]. destruct H as [Hi Hf]. split; [by apply delete_Permutation|done].
Qed.

(** A run of ticks on one lane whose iterations end at the given times, each starting when it is due or late. *)
Fixpoint run_ticks (policy : string) (period scheduled : Z) (finished : list Z) : Z * nat :=
  match finished with
  | [] => (scheduled, 0)
  | f :: rest => let n := next_wall_clock_tick policy period scheduled f in
                 let '(last, skipped) := run_ticks policy period (next_tick n) rest in (last, skipped_ticks n + skipped)
  end.
(** When the ticks of such a run are due, the one after the last included. *)
Fixpoint due_times (policy : string) (period scheduled : Z) (finished : list Z) : list Z :=
  scheduled :: match finished with [] => [] | f :: rest => due_times policy period (next_tick (next_wall_clock_tick policy period scheduled f)) rest end.

(** One tick: how far its successor is scheduled, and what is counted as skipped. *)
Lemma next_tick_spec policy period scheduled finished : (0 < period)%Z →
  let n := next_wall_clock_tick policy period scheduled finished in
  (if str_eqb policy "skip_next" then next_tick n = (scheduled + period)%Z ∨ next_tick n = (scheduled + 2 * period)%Z
   else (scheduled + Z.of_nat (S (skipped_ticks n)) * period <= next_tick n <= scheduled + Z.of_nat (3 + skipped_ticks n) * period)%Z) ∧
  (scheduled + period <= next_tick n)%Z ∧
  ((finished <= scheduled + period)%Z → next_tick n = (scheduled + period)%Z ∧ skipped_ticks n = 0).
Proof.
  intros Hp. cbv zeta. unfold next_wall_clock_tick. set (nominal := (scheduled + period)%Z).
  destruct (Z.ltb_spec nominal finished) as [Hl|Hl].
  - rewrite (proj2 (Z.ltb_lt 0 _)) by lia. rewrite !andb_true_r.
    assert (Z.of_nat (missed_periods (finished - nominal) period) * period <= finished - nominal <
      (Z.of_nat (missed_periods (finished - nominal) period) + 1) * period)%Z as Hm.
    { unfold missed_periods. rewrite (proj2 (Z.leb_gt (finished - nominal) 0)), (proj2 (Z.leb_gt period 0)) by lia. cbn [orb].
      rewrite Z2Nat.id by (apply Z.div_pos; lia). pose proof (Z.mul_div_le (finished - nominal) period Hp).
      pose proof (Z.mul_succ_div_gt (finished - nominal) period Hp). lia. }
    destruct (str_eqb policy "skip_next"); [cbn [next_tick skipped_ticks]; split_and!; lia|].
    destruct (str_eqb policy "catch_up_once"); cbn [next_tick skipped_ticks]; split_and!; nia.
  - rewrite !andb_false_r, Z.ltb_irrefl. cbn [next_tick skipped_ticks]. unfold missed_periods. cbn [Z.leb orb Z.compare].
    destruct (str_eqb policy "skip_next"); split_and!; try lia; by left.
Qed.
Lemma due_times_head policy period scheduled finished : ∃ rest, due_times policy period scheduled finished = scheduled :: rest.
Proof. destruct finished; by eexists. Qed.
(** C26. The schedule of a wall-clock fixed-rate lane over any run of ticks, whenever their iterations end.  Due times are at least
    a period apart, so that by the time a tick is due no more ticks were due than there are periods since the first; a tick that starts
    late may be followed at once by one that was due meanwhile.  While every iteration ends before the next slot, tick [i]
    is due exactly [i] periods after the first and nothing is skipped.  Under [skip_next] the due times stay on the slots of
    the first tick, at most two apart, however long a delay was.  Under the other policies a slot is counted as skipped at most once:
    the ticks and the skipped slots together fit into the time that passed, and at most two slots a tick are left uncounted.
    ([skip_next] counts slots twice, skip_next_counts_twice.) *)
Theorem fixed_rate_schedule policy period first finished : (0 < period)%Z →
  let due := due_times policy period first finished in
  let '(next, skipped) := run_ticks policy period first finished in
  length due = S (length finished) ∧ last due = Some next ∧
  (∀ i k t t', due !! i = Some t → due !! (i + k) = Some t' → (t + Z.of_nat k * period <= t')%Z) ∧
  ((∀ i f t, finished !! i = Some f → due !! i = Some t → (f <= t + period)%Z) →
     skipped = 0 ∧ ∀ i t, due !! i = Some t → t = (first + Z.of_nat i * period)%Z) ∧
  (policy = "skip_next" → ∀ i t, due !! i = Some t → ∃ slot, i <= slot <= 2 * i ∧ t = (first + Z.of_nat slot * period)%Z) ∧
  (policy ≠ "skip_next" →
     (first + Z.of_nat (length finished + skipped) * period <= next <= first + Z.of_nat (3 * length finished + skipped) * period)%Z).
Proof.
  intros Hp. revert first. induction finished as [|f finished IH]; intros first; cbn [due_times run_ticks].
  { split_and!; try done.
    - intros [|i] [|k] t t'; simpl; try done. intros [= <-] [= <-]. lia.
    - intros _. split; [done|]. intros [|i] t; simpl; [intros [= <-]; lia|done].
    - intros _ [|i] t; simpl; [intros [= <-]; exists 0; lia|done].
    - simpl. lia. }
  pose proof (next_tick_spec policy period first f Hp) as (Hs&Hgap&Htime). cbv zeta in *.
  set (n := next_wall_clock_tick policy period first f) in *. specialize (IH (next_tick n)).
  destruct (due_times_head policy period (next_tick n) finished) as [rest Hrest].
  destruct (run_ticks policy period (next_tick n) finished) as [next skipped]. destruct IH as (H1&H2&H3&H4&H5&H6).
  assert (due_times policy period (next_tick n) finished !! 0 = Some (next_tick n)) as H0 by (by rewrite Hrest).
  split_and!.
  - simpl. by rewrite H1.
  - by rewrite Hrest in H2 |- *.
  - intros [|i] [|k] t t'; cbn [Nat.add lookup list_lookup]; [intros [= <-] [= <-]; lia| |rewrite Nat.add_0_r; intros -> [= <-]; lia|apply H3].
    intros [= <-] Hk. specialize (H3 0 k _ _ H0 Hk). nia.
  - intros Hin. destruct (Htime (Hin 0 f first eq_refl eq_refl)) as [Hn Hk].
    destruct H4 as [-> H4]; [intros i g t Hg Ht; by apply (Hin (S i) g t)|]. split; [by rewrite Hk|].
    intros [|i] t; cbn [lookup list_lookup]; [intros [= <-]; lia|]. intros Ht. rewrite (H4 i t Ht), Hn. lia.
  - intros E [|i] t; cbn [lookup list_lookup]; [intros [= <-]; exists 0; lia|]. intros Ht.
    destruct (H5 E i t Ht) as (slot&Hslot&->). rewrite (proj2 (str_eqb_eq _ _) E) in Hs.
    destruct Hs as [->| ->]; [exists (S slot)|exists (S (S slot))]; split; lia.
  - intros E. specialize (H6 E). destruct (str_eqb policy "skip_next") eqn:Es; [by apply str_eqb_eq in Es|]. simpl length. nia.
Qed.
Lemma fixed_rate_schedule_witness :
  due_times "drop_tick" 10 0 [3; 55; 66]%Z = [0; 10; 65; 75]%Z ∧ run_ticks "drop_tick" 10 0 [3; 55; 66]%Z = (75%Z, 3) ∧ (60 <= 75 <= 120)%Z.
Proof.
  split; [reflexivity|]. split; [reflexivity|].
  exact (proj2 (proj2 (proj2 (proj2 (proj2 (fixed_rate_schedule "drop_tick" 10 0 [3; 55; 66]%Z eq_refl))))) ltac:(discriminate)).
Defined.

(** Under [skip_next] one long delay is counted again by the ticks that follow it: with a period of 10, an iteration that
    ends at 55 and two short ones leave the schedule at 60; three of the six slots were used and seven are counted as
    skipped. *)
Lemma skip_next_counts_twice : run_ticks "skip_next" 10 0 [55; 56; 57]%Z = (60%Z, 7).
Proof. reflexivity. Qed.
