(* ===== verification/Program.v ===== *)
(** * Program: what a component does while it executes

    A component is user code.  What the runtime sees of an execution is the sequence of calls the code makes on its
    [GraphContext] and the status or exception it ends with.  [Prog] is the type of such executions: a call, and for
    every answer the rest of the execution.  [perform] gives each call its meaning on [World], the objects that the
    context points to ([component.hpp], [component.cpp]).

    The router, the bus behind it and the trace collector are one value, as they are one set of objects in
    [RuntimeRunner::run]; [w_routed] says whether the runtime was given the router or only the bus.  Clock readings, stop
    and cancellation flags are answers of the environment: the n-th moment of a run may read the clock ([clock n i j]
    are the readings of one operation) and ask whether a stop was requested. *)

From S2P Require Export Component RouterFacts StateStore Lanes Trigger.
Local Open Scope nat_scope.

(** ** Statuses and convergence reports *)
Record Status := mkStatus { status_ok : bool; status_message : string }.
Definition status_success : Status := mkStatus true "".
(** [Component::execute_status] and its callers turn an exception into an error. *)
Definition status_error (message : string) : Status := mkStatus false message.

Record LoopIterationContext := mkLoopIteration {
  li_loop_id : string; li_policy_type : string; li_iteration_index : nat; li_iteration_number : nat; li_max_iterations : nat }.
Record LoopConvergenceReport := mkConvergenceReport {
  report_converged : bool; report_residual : option Double; report_reason : string }.
Record LoopConvergenceSnapshot := mkConvergence {
  conv_reported : bool; conv_converged : bool; conv_residual : option Double; conv_reason : string }.
#[export] Instance eta_LoopConvergenceSnapshot : Eta LoopConvergenceSnapshot := fun s =>
  mkConvergence (conv_reported s) (conv_converged s) (conv_residual s) (conv_reason s).
Definition no_convergence : LoopConvergenceSnapshot := mkConvergence false false None "".
Definition record_convergence (report : LoopConvergenceReport) (s : LoopConvergenceSnapshot) : LoopConvergenceSnapshot :=
  mkConvergence true (conv_converged s || report_converged report)
    (match report_residual report with Some r => Some r | None => conv_residual s end)
    (if str_empty (report_reason report) then conv_reason s else report_reason report).

(** ** The objects of a run *)
Record World := mkWorld {
  w_hub : Router; w_routed : bool; w_state : option RuntimeStateStore; w_config : option ConfigSnapshotStore;
  w_convergence : LoopConvergenceSnapshot; w_health : option nat;
  w_events : list PendingChannelHealthEvent; w_moment : nat }.
#[export] Instance eta_World : Eta World := fun w =>
  mkWorld (w_hub w) (w_routed w) (w_state w) (w_config w) (w_convergence w) (w_health w) (w_events w) (w_moment w).
(** [w_events] are the health events that were emitted, in order; [w_health] is the sink of the runtime. *)
Definition emit_health (event : HealthEvent) (w : World) : World :=
  match w_health w with Some sink => w <| w_events ::= fun l => l ++ [mkPending sink event] |> | None => w end.
Definition w_bus (w : World) : option RuntimeChannelBus := router_bus (w_hub w).
Definition tick_moment (w : World) : World := w <| w_moment ::= S |>.
Definition trace_event (name : string) (attributes : gmap string string) (w : World) : World :=
  w <| w_hub ::= record_trace_event name attributes |>.

(** ** Calls of a component *)
Inductive ContextCall :=
| CPublish (port : string) (payload : RuntimePayloadPtr) (event_timestamp : option EventTimestamp)
| CReadLatest (port : string)
| CPeekLatest (port : string)
| CDrain (port : string) (max_batch : nat)
| CStageState (name_space key writer : string) (payload : RuntimePayloadPtr)
| CReadState (name_space key : string)
| CReadConfig (component_id : string)
| CStageConfig (component_id : string) (config : ConfigView) (apply_on_epoch_boundary : bool)
| CReportConvergence (report : LoopConvergenceReport)
| CCancelRequested.
(** The answer to a call on an absent store is [None]. *)
Definition Answer (call : ContextCall) : Type :=
  match call with
  | CPublish _ _ _ => RuntimeChannelPublishResult
  | CReadLatest _ | CPeekLatest _ => RuntimePayloadPtr
  | CDrain _ _ => list RuntimePayloadPtr
  | CStageState _ _ _ _ => option RuntimeStateWriteResult
  | CReadState _ _ => option RuntimePayloadPtr
  | CReadConfig _ => option ConfigView
  | CStageConfig _ _ _ => option ConfigSnapshotUpdateResult
  | CReportConvergence _ => unit
  | CCancelRequested => bool
  end.
Inductive Prog :=
| Returns (status : Status)
| Throws (what : string)
| Call (call : ContextCall) (k : Answer call → Prog).

(** The context of one invocation: the component, the metadata of the invocation, and whether a composite loop
    listens to convergence reports. *)
Record InvocationContext := mkInvocationContext {
  ic_component_id : string; ic_metadata : InvocationMetadata; ic_loop : option LoopIterationContext }.
Definition graph_context (w : World) (c : InvocationContext) : GraphContext :=
  mkContext (if w_routed w then Some (w_hub w) else None) (w_bus w) (ic_metadata c) (ic_component_id c).
(** The objects behind the context after a publication. *)
Definition store_context (g : GraphContext) (events : list PendingChannelHealthEvent) (w : World) : World :=
  w <| w_hub := match ctx_publisher g with Some r => r | None => (w_hub w) <| router_bus := ctx_channels g |> end |>
    <| w_events ::= fun l => l ++ events |>.
Definition store_bus (bus : option RuntimeChannelBus) (events : list PendingChannelHealthEvent) (w : World) : World :=
  w <| w_hub ::= fun r => r <| router_bus := bus |> |> <| w_events ::= fun l => l ++ events |>.

Section perform.
Context (clock : nat → nat → nat → Z) (cancelled : nat → bool).
Definition now (w : World) : Z := clock (w_moment w) 0 0.
Definition readings (w : World) : nat → Z := clock (w_moment w) 0.
Definition perform (c : InvocationContext) (call : ContextCall) (w : World) : option (World * Answer call) :=
  let w := tick_moment w in
  match call as call return option (World * Answer call) with
  | CPublish port payload ts =>
      match context_publish_shared (graph_context w c) (readings w) port payload ts with
      | None => None
      | Some (g, events, result) => Some (store_context g events w, result)
      end
  | CReadLatest port =>
      match view_read_latest_update (w_bus w) (readings w) (ic_component_id c) port with
      | None => None
      | Some (bus, events, payload) => Some (store_bus bus events w, payload)
      end
  | CPeekLatest port =>
      match view_peek_latest (w_bus w) (readings w) (ic_component_id c) port with
      | None => None
      | Some (bus, events, payload) => Some (store_bus bus events w, payload)
      end
  | CDrain port max_batch =>
      match view_drain (w_bus w) (readings w) (ic_component_id c) port max_batch with
      | None => None
      | Some (bus, events, payloads) => Some (store_bus bus events w, payloads)
      end
  | CStageState name_space key writer payload =>
      match w_state w with
      | None => Some (w, None)
      | Some s => let '(s, result) := stage_write name_space key writer payload s in Some (w <| w_state := Some s |>, Some result)
      end
  | CReadState name_space key =>
      match w_state w with
      | None => Some (w, None)
      | Some s => let '(s, payload) := read name_space key s in Some (w <| w_state := Some s |>, Some payload)
      end
  | CReadConfig component_id =>
      match w_config w with
      | None => Some (w, None)
      | Some s => let '(s, config) := read_component_config component_id s in Some (w <| w_config := Some s |>, Some config)
      end
  | CStageConfig component_id config boundary =>
      match w_config w with
      | None => Some (w, None)
      | Some s => let '(s, result) := stage_component_config_update component_id config boundary (now w) s in
                  Some (w <| w_config := Some s |>, Some result)
      end
  | CReportConvergence report =>
      Some (match ic_loop c with Some _ => w <| w_convergence ::= record_convergence report |> | None => w end, tt)
  | CCancelRequested => Some (w, cancelled (w_moment w))
  end.
(** The observation that a call makes through the token of its invocation. *)
Definition observes (call : ContextCall) : Answer call → nat :=
  match call as call return Answer call → nat with
  | CCancelRequested => fun answer : bool => if answer then 1 else 0
  | _ => fun _ => 0
  end.
(** A piece of user code from its first call to its end: an exception is the left summand; the number says how often
    cancellation was observed. *)
Fixpoint run_prog (c : InvocationContext) (p : Prog) (observed : nat) (w : World) : option (World * (string + Status) * nat) :=
  match p with
  | Returns status => Some (w, inr status, observed)
  | Throws what => Some (w, inl what, observed)
  | Call call k =>
      match perform c call w with
      | None => None
      | Some (w, answer) => run_prog c (k answer) (observed + observes call answer) w
      end
  end.
End perform.

Definition status_of (outcome : string + Status) : Status := match outcome with inl what => status_error what | inr s => s end.
