(* ===== verification/Ros2.v ===== *)
(** * Ros2: the adapter interface and the ROS 2 boundary

    Models [include/topoexec/adapters/sdk.hpp] and [include/topoexec/adapters/ros2.hpp]: the messages that cross a boundary,
    the validation of a mapping of endpoints to the boundaries of a graph, and the bridge with a bounded queue of inputs. *)

From S2P Require Export Component Program.
Local Open Scope nat_scope.

(** ** The adapter interface (sdk.hpp) *)
Record BoundaryMessage := mkBoundaryMessage {
  bm_boundary_id : string; bm_port : string; bm_payload : RuntimePayloadPtr; bm_event_timestamp : option EventTimestamp;
  bm_metadata : InvocationMetadata }.
Definition empty_boundary_message : BoundaryMessage := mkBoundaryMessage "" "" None None empty_metadata.
Record BoundaryPollResult := mkPoll { poll_ready : bool; poll_message : BoundaryMessage; poll_reason : string }.
Definition poll_no_input : BoundaryPollResult := mkPoll false empty_boundary_message "".
Definition poll_with_input (value : BoundaryMessage) : BoundaryPollResult := mkPoll true value "".
Definition poll_error (message : string) : BoundaryPollResult := mkPoll false empty_boundary_message message.
Definition poll_ok (r : BoundaryPollResult) : bool := str_empty (poll_reason r).
Record BoundaryBridgeStatus := mkBridgeStatus {
  pending_input_count : nat; accepted_input_count : nat; dropped_input_count : nat; published_output_count : nat;
  failed_output_count : nat }.
#[export] Instance eta_BoundaryBridgeStatus : Eta BoundaryBridgeStatus := fun s =>
  mkBridgeStatus (pending_input_count s) (accepted_input_count s) (dropped_input_count s) (published_output_count s) (failed_output_count s).
(** What an adapter implements. *)
Class BoundaryBridge (S : Type) := {
  poll_input : S → S * BoundaryPollResult;
  publish_output : BoundaryMessage → S → S * Status;
  bridge_status : S → BoundaryBridgeStatus }.

(** ** Endpoints (ros2.hpp) *)
Inductive EndpointKind :=
| kSubscription | kPublisher | kServiceRequest | kServiceResponse | kActionGoal | kActionFeedback | kActionResult | kActionCancel.
#[export] Instance EndpointKind_eq_dec : EqDecision EndpointKind.
Proof. solve_decision. Defined.
Inductive ReliabilityPolicy := kReliable | kBestEffort.
Inductive DurabilityPolicy := kVolatile | kTransientLocal.
Record QosProfilePreview := mkQos {
  qos_reliability : ReliabilityPolicy; qos_durability : DurabilityPolicy; qos_depth : nat; qos_deadline_ms : Z; qos_lifespan_ms : Z }.
Record BoundaryEndpoint := mkEndpoint {
  ep_kind : EndpointKind; ep_external_name : string; ep_boundary_id : string; ep_port : string; ep_qos : QosProfilePreview;
  ep_correlation_key : string }.
Definition is_inbound (kind : EndpointKind) : bool :=
  bool_decide (kind = kSubscription) || bool_decide (kind = kServiceRequest) || bool_decide (kind = kActionGoal) ||
  bool_decide (kind = kActionCancel).
Definition is_outbound (kind : EndpointKind) : bool := negb (is_inbound kind).
Definition endpoint_kind_name (kind : EndpointKind) : string :=
  match kind with
  | kSubscription => "subscription" | kPublisher => "publisher" | kServiceRequest => "service_request"
  | kServiceResponse => "service_response" | kActionGoal => "action_goal" | kActionFeedback => "action_feedback"
  | kActionResult => "action_result" | kActionCancel => "action_cancel"
  end.

(** ** The mapping *)
Record MappingValidationResult := mkMapping { map_ok : bool; map_errors : list string }.
Definition find_boundary_component (graph : GraphSpec) (boundary_id : string) : option ComponentNodeSpec :=
  List.find (fun c => str_eqb (comp_id c) boundary_id) (graph_components graph).
Definition mapping_error (message : string) (r : MappingValidationResult) : MappingValidationResult :=
  mkMapping false (map_errors r ++ [message]).
Definition mapping_error_if (b : bool) (message : string) (r : MappingValidationResult) : MappingValidationResult :=
  if b then mapping_error message r else r.
Definition validate_endpoint (graph : GraphSpec) (r : MappingValidationResult) (e : BoundaryEndpoint) : MappingValidationResult :=
  let id := ep_boundary_id e in
  let r := mapping_error_if (str_empty (ep_external_name e)) "ROS 2 endpoint external_name is required" r in
  if str_empty id then mapping_error "ROS 2 endpoint boundary_id is required" r else
  let r := mapping_error_if (str_empty (ep_port e)) ("ROS 2 endpoint " +:+ id +:+ " port is required") r in
  match find_boundary_component graph id with
  | None => mapping_error ("ROS 2 endpoint " +:+ id +:+ " does not reference a graph component") r
  | Some component =>
      let r := mapping_error_if (is_inbound (ep_kind e) && negb (component_role_has_input (boundary_role component)))
        ("ROS 2 inbound endpoint " +:+ id +:+ " must map to an input boundary") r in
      mapping_error_if (is_outbound (ep_kind e) && negb (component_role_has_output (boundary_role component)))
        ("ROS 2 outbound endpoint " +:+ id +:+ " must map to an output boundary") r
  end.
Definition validate_boundary_mapping (graph : GraphSpec) (endpoints : list BoundaryEndpoint) : MappingValidationResult :=
  fold_left (validate_endpoint graph) endpoints (mkMapping true []).

(** ** The bridge *)
Record PublishedMessagePreview := mkPublished {
  pm_external_name : string; pm_payload : RuntimePayloadPtr; pm_metadata : InvocationMetadata; pm_event_timestamp : option EventTimestamp;
  pm_qos : QosProfilePreview }.
Record FakeRos2BoundaryBridge := mkFake {
  fk_endpoints : list BoundaryEndpoint; fk_input_capacity : nat; fk_pending_inputs : list BoundaryMessage;
  fk_published_messages : list PublishedMessagePreview; fk_status : BoundaryBridgeStatus }.
#[export] Instance eta_FakeRos2BoundaryBridge : Eta FakeRos2BoundaryBridge := fun b =>
  mkFake (fk_endpoints b) (fk_input_capacity b) (fk_pending_inputs b) (fk_published_messages b) (fk_status b).
Definition FakeRos2BoundaryBridge_new (endpoints : list BoundaryEndpoint) (input_capacity : nat) : FakeRos2BoundaryBridge :=
  mkFake endpoints input_capacity [] [] (mkBridgeStatus 0 0 0 0 0).
Definition find_endpoint (b : FakeRos2BoundaryBridge) (boundary_id port : string) (outbound : bool) : option BoundaryEndpoint :=
  List.find (fun e => str_eqb (ep_boundary_id e) boundary_id && str_eqb (ep_port e) port && Bool.eqb (is_outbound (ep_kind e)) outbound)
    (fk_endpoints b).
Definition count_dropped (b : FakeRos2BoundaryBridge) : FakeRos2BoundaryBridge := b <| fk_status ::= fun s => s <| dropped_input_count ::= S |> |>.
Definition count_pending (b : FakeRos2BoundaryBridge) : FakeRos2BoundaryBridge :=
  b <| fk_status ::= fun s => s <| pending_input_count := length (fk_pending_inputs b) |> |>.
Definition received (e : BoundaryEndpoint) (payload : RuntimePayload) (event_timestamp : option EventTimestamp) (correlation_id : string)
    : BoundaryMessage :=
  mkBoundaryMessage (ep_boundary_id e) (ep_port e) (Some payload) event_timestamp
    (empty_metadata <| md_correlation_id := correlation_id |> <| md_source_component := ep_external_name e |>
       <| md_source_port := endpoint_kind_name (ep_kind e) |>).
Definition receive (e : BoundaryEndpoint) (payload : RuntimePayloadPtr) (event_timestamp : option EventTimestamp) (correlation_id : string)
    (b : FakeRos2BoundaryBridge) : FakeRos2BoundaryBridge * Status :=
  if negb (is_inbound (ep_kind e)) then
    (count_dropped b, status_error ("ROS 2 endpoint " +:+ ep_external_name e +:+ " is not inbound")) else
  match payload with
  | None => (count_dropped b, status_error "ROS 2 inbound payload is null")
  | Some payload =>
      match find_endpoint b (ep_boundary_id e) (ep_port e) false with
      | None => (count_dropped b, status_error ("ROS 2 inbound boundary endpoint not registered: " +:+ ep_boundary_id e +:+ "." +:+ ep_port e))
      | Some _ =>
          if fk_input_capacity b <=? length (fk_pending_inputs b)
          then (count_pending (count_dropped b), status_error "ROS 2 fake boundary input queue full")
          else (count_pending (b <| fk_pending_inputs ::= fun l => l ++ [received e payload event_timestamp correlation_id] |>
                                 <| fk_status ::= fun s => s <| accepted_input_count ::= S |> |>), status_success)
      end
  end.
Definition fake_poll_input (b : FakeRos2BoundaryBridge) : FakeRos2BoundaryBridge * BoundaryPollResult :=
  match fk_pending_inputs b with
  | [] => (b <| fk_status ::= fun s => s <| pending_input_count := 0 |> |>, poll_no_input)
  | message :: rest => (count_pending (b <| fk_pending_inputs := rest |>), poll_with_input message)
  end.
Definition count_failed (b : FakeRos2BoundaryBridge) : FakeRos2BoundaryBridge := b <| fk_status ::= fun s => s <| failed_output_count ::= S |> |>.
Definition fake_publish_output (message : BoundaryMessage) (b : FakeRos2BoundaryBridge) : FakeRos2BoundaryBridge * Status :=
  match find_endpoint b (bm_boundary_id message) (bm_port message) true with
  | None => (count_failed b, status_error ("ROS 2 outbound boundary endpoint not registered: " +:+ bm_boundary_id message +:+ "." +:+ bm_port message))
  | Some e =>
      match bm_payload message with
      | None => (count_failed b, status_error "ROS 2 outbound payload is null")
      | Some _ =>
          (b <| fk_published_messages ::= fun l => l ++
                 [mkPublished (ep_external_name e) (bm_payload message) (bm_metadata message) (bm_event_timestamp message) (ep_qos e)] |>
             <| fk_status ::= fun s => s <| published_output_count ::= S |> |>, status_success)
      end
  end.
#[export] Instance fake_bridge : BoundaryBridge FakeRos2BoundaryBridge := {
  poll_input := fake_poll_input; publish_output := fake_publish_output; bridge_status := fk_status }.

(** ** The mapping is checked exactly *)
(** Named at both ends, and on a boundary of its direction. *)
Record endpoint_maps (graph : GraphSpec) (e : BoundaryEndpoint) : Prop := {
  em_external : ep_external_name e ≠ ""; em_boundary : ep_boundary_id e ≠ ""; em_port : ep_port e ≠ "";
  em_component : ∃ c, find_boundary_component graph (ep_boundary_id e) = Some c ∧
    (if is_inbound (ep_kind e) then component_role_has_input (boundary_role c) else component_role_has_output (boundary_role c)) = true }.
Lemma mapping_error_if_ok b message r : map_ok (mapping_error_if b message r) = true ↔ map_ok r = true ∧ b = false.
Proof. destruct b; simpl; naive_solver. Qed.
Lemma validate_endpoint_ok graph r e : map_ok (validate_endpoint graph r e) = true ↔ map_ok r = true ∧ endpoint_maps graph e.
Proof.
  unfold validate_endpoint. destruct (str_empty (ep_boundary_id e)) eqn:Eb; [simpl; split; [done|]; intros [_ []]; by destruct (ep_boundary_id e)|].
  destruct (find_boundary_component graph (ep_boundary_id e)) as [c|] eqn:Ec; [|simpl; split; [done|]; intros [_ [_ _ _ (c&Hc&_)]]; congruence].
  rewrite !mapping_error_if_ok. unfold is_outbound. split.
  - intros ((((Hr&H1)&H2)&H3)&H4). split; [done|].
    split; [by destruct (ep_external_name e)|by destruct (ep_boundary_id e)|by destruct (ep_port e)|]. exists c. split; [done|].
    destruct (is_inbound (ep_kind e)); simpl in *; by apply negb_false_iff.
  - intros [Hr [H1 H2 H3 (c'&Hc&H4)]]. simplify_eq. split; [|by destruct (is_inbound (ep_kind e)); simpl in *; [|rewrite H4]].
    split; [|by destruct (is_inbound (ep_kind e)); simpl in *; [rewrite H4|]].
    split; [split; [done|by destruct (ep_external_name e)]|by destruct (ep_port e)].
Qed.
Lemma mapping_exact graph endpoints : map_ok (validate_boundary_mapping graph endpoints) = true ↔ Forall (endpoint_maps graph) endpoints.
Proof.
  unfold validate_boundary_mapping. enough (∀ r, map_ok (fold_left (validate_endpoint graph) endpoints r) = true ↔
    map_ok r = true ∧ Forall (endpoint_maps graph) endpoints) as H by (rewrite H; simpl; naive_solver).
  induction endpoints as [|e l IH]; intros r; cbn [fold_left]; [split; [by intros ?|by intros [? _]]|].
  rewrite IH, validate_endpoint_ok, Forall_cons. tauto.
Qed.
(** A mapping fails with a message. *)
Lemma mapping_reported graph endpoints : let r := validate_boundary_mapping graph endpoints in map_ok r = true ↔ map_errors r = [].
Proof.
  cbv zeta. unfold validate_boundary_mapping.
  assert (∀ m r, map_ok (mapping_error m r) = true ↔ map_errors (mapping_error m r) = []) as He.
  { intros m r. simpl. split; [done|]. by destruct (map_errors r). }
  assert (∀ b m r, (map_ok r = true ↔ map_errors r = []) → map_ok (mapping_error_if b m r) = true ↔ map_errors (mapping_error_if b m r) = []) as Hi.
  { intros [] m r H; [apply He|done]. }
  enough (∀ r, (map_ok r = true ↔ map_errors r = []) → map_ok (fold_left (validate_endpoint graph) endpoints r) = true ↔
    map_errors (fold_left (validate_endpoint graph) endpoints r) = []) as H by (by apply H).
  induction endpoints as [|e l IH]; intros r Hr; cbn [fold_left]; [done|]. apply IH. unfold validate_endpoint.
  destruct (str_empty (ep_boundary_id e)); [apply He|]. destruct (find_boundary_component _ _); [|apply He]. by do 4 apply Hi.
Qed.

(** ** The bridge is a bounded queue *)
Inductive BridgeCall :=
| BReceive (e : BoundaryEndpoint) (payload : RuntimePayloadPtr) (event_timestamp : option EventTimestamp) (correlation_id : string)
| BPoll
| BPublish (message : BoundaryMessage).
(** What the callers saw: the inputs that were accepted and those that were polled, the refused inputs, the outputs that
    were published and the failed ones. *)
Record BridgeHistory := mkHistory {
  bh_accepted : list BoundaryMessage; bh_polled : list BoundaryMessage; bh_refused : nat; bh_published : list BoundaryMessage;
  bh_failed : nat }.
Definition bridge_step (s : FakeRos2BoundaryBridge * BridgeHistory) (call : BridgeCall) : FakeRos2BoundaryBridge * BridgeHistory :=
  let '(b, mkHistory accepted polled refused published failed) := s in
  match call with
  | BReceive e payload ts id =>
      let '(b, status) := receive e payload ts id b in
      match payload with
      | Some p => if status_ok status then (b, mkHistory (accepted ++ [received e p ts id]) polled refused published failed)
                  else (b, mkHistory accepted polled (S refused) published failed)
      | None => (b, mkHistory accepted polled (S refused) published failed)
      end
  | BPoll =>
      let '(b, r) := poll_input b in
      (b, if poll_ready r then mkHistory accepted (polled ++ [poll_message r]) refused published failed
          else mkHistory accepted polled refused published failed)
  | BPublish message =>
      let '(b, status) := publish_output message b in
      (b, if status_ok status then mkHistory accepted polled refused (published ++ [message]) failed
          else mkHistory accepted polled refused published (S failed))
  end.
Definition bridge_session (endpoints : list BoundaryEndpoint) (capacity : nat) (calls : list BridgeCall) : FakeRos2BoundaryBridge * BridgeHistory :=
  fold_left bridge_step calls (FakeRos2BoundaryBridge_new endpoints capacity, mkHistory [] [] 0 [] 0).
(** Endpoints of the bridge for the ends of a message. *)
Definition registered (endpoints : list BoundaryEndpoint) (outbound : bool) (m : BoundaryMessage) : Prop :=
  bm_payload m ≠ None ∧ ∃ e, e ∈ endpoints ∧ ep_boundary_id e = bm_boundary_id m ∧ ep_port e = bm_port m ∧ is_outbound (ep_kind e) = outbound.
Record bridge_inv (endpoints : list BoundaryEndpoint) (capacity : nat) (b : FakeRos2BoundaryBridge) (h : BridgeHistory) : Prop := {
  bi_endpoints : fk_endpoints b = endpoints; bi_capacity : fk_input_capacity b = capacity;
  bi_queue : bh_accepted h = bh_polled h ++ fk_pending_inputs b; bi_bound : length (fk_pending_inputs b) <= capacity;
  bi_published : pm_payload <$> fk_published_messages b = bm_payload <$> bh_published h;
  bi_inbound : Forall (registered endpoints false) (bh_accepted h); bi_outbound : Forall (registered endpoints true) (bh_published h);
  bi_status : fk_status b = mkBridgeStatus (length (fk_pending_inputs b)) (length (bh_accepted h)) (bh_refused h) (length (bh_published h)) (bh_failed h) }.
Lemma find_endpoint_Some b id port outbound e : find_endpoint b id port outbound = Some e →
  e ∈ fk_endpoints b ∧ ep_boundary_id e = id ∧ ep_port e = port ∧ is_outbound (ep_kind e) = outbound.
Proof.
  intros [Hin H]%find_some. apply andb_true_iff in H as [[H1%str_eqb_eq H2%str_eqb_eq]%andb_true_iff H3%Bool.eqb_prop].
  by apply list_elem_of_In in Hin.
Qed.
Lemma bridge_step_inv endpoints capacity b h call : bridge_inv endpoints capacity b h →
  let '(b', h') := bridge_step (b, h) call in bridge_inv endpoints capacity b' h'.
Proof.
  intros [H1 H2 H3 H4 H5 H6 H7 H8]. destruct b as [eps cap pending out st], h as [acc polled refused pub failed]; simpl in *; subst.
  destruct call as [e payload ts id| |message]; cbn [bridge_step].
  - unfold receive. destruct (negb _); [destruct payload; split; simpl; try done; f_equal; lia|].
    destruct payload as [p|]; [|by split]. destruct (find_endpoint _ _ _ _) as [e'|] eqn:E; [|by split].
    apply find_endpoint_Some in E as (Hin&Hid&Hport&Hk). cbn [fk_input_capacity fk_pending_inputs].
    destruct (Nat.leb_spec capacity (length pending)); [by split|]. split; simpl; try done.
    + by rewrite (assoc_L (++)).
    + rewrite length_app. simpl. lia.
    + apply Forall_app_2; [done|]. constructor; [|constructor]. split; [done|]. by exists e'.
    + f_equal. rewrite !length_app. simpl. lia.
  - simpl. unfold fake_poll_input. simpl. destruct pending as [|m rest]; simpl; [by split|]. split; simpl; try done.
    + by rewrite <- (assoc_L (++)).
    + simpl in H4. lia.
  - simpl. unfold fake_publish_output. simpl. destruct (find_endpoint _ _ _ _) as [e'|] eqn:E; [|by split].
    apply find_endpoint_Some in E as (Hin&Hid&Hport&Hk). destruct (bm_payload message) as [p|] eqn:Ep; [|by split].
    split; simpl; try done.
    + by rewrite !fmap_app, H5; simpl; rewrite Ep.
    + apply Forall_app_2; [done|]. constructor; [|constructor]. split; [by rewrite Ep|]. by exists e'.
    + f_equal. rewrite length_app. simpl. lia.
Qed.
(** C. The bridge is a bounded queue with exact counters: whatever is received, polled and published, in whatever order, the
    inputs that were accepted are the polled ones followed by the pending ones, in order and at most the capacity of them;
    accepted inputs and published outputs have a payload and a registered endpoint of their direction; and the status
    counts the pending, accepted, refused, published and failed messages. *)
Theorem bridge_is_bounded_queue endpoints capacity calls :
  let '(b, h) := bridge_session endpoints capacity calls in bridge_inv endpoints capacity b h.
Proof.
  unfold bridge_session. assert (bridge_inv endpoints capacity (FakeRos2BoundaryBridge_new endpoints capacity) (mkHistory [] [] 0 [] 0)) as H
    by (split; simpl; [done..|lia|done|constructor|constructor|done]).
  revert H. generalize (FakeRos2BoundaryBridge_new endpoints capacity) (mkHistory [] [] 0 [] 0). induction calls as [|call calls IH]; intros b h H; [done|].
  cbn [fold_left]. pose proof (bridge_step_inv endpoints capacity b h call H) as Hs. destruct (bridge_step (b, h) call) as [b' h']. by apply IH.
Qed.
