(* ===== verification/EventRuntime.v ===== *)
(** * EventRuntime: the loop that runs a compiled graph

    Models [EventRuntime] of [src/event_runtime.cpp] and the run data of [scheduler.hpp].  [run] is a computation on the
    objects of a run ([Program.v]), the result record, the trigger engine and the in-flight counters, in the monad [M]:
    state, failure ([None]: an exception leaves [run]), and fuel, which only two loops consume: the wait for a fixed-rate
    tick, and the interleaving of the workers of a pool.

    A batch of invocations on a thread pool is a list of items, each unsubmitted, queued, running on a worker or
    finished.  The moves that are possible at a moment (the runtime submits the next item, an idle worker takes the best
    queued item, a worker makes the next call of its component) are listed, and the environment picks one: every
    interleaving of the calls is a choice function.  The callbacks of the options are user code that reaches the run only
    through the stop token. *)

From S2P Require Export Program.
Local Open Scope nat_scope.

(** ** Run data (scheduler.hpp) *)
Record ComponentExecutionMetrics := mkExecutionMetrics {
  cx_execution_count : nat; cx_error_count : nat; cx_last_duration_ns : Z; cx_max_duration_ns : Z; cx_budget_overrun_count : nat;
  cx_cancellation_requested_count : nat; cx_cancellation_observed_count : nat; cx_timeout_budget_exceeded_count : nat;
  cx_max_in_flight_count : nat }.
#[export] Instance eta_ComponentExecutionMetrics : Eta ComponentExecutionMetrics := fun m =>
  mkExecutionMetrics (cx_execution_count m) (cx_error_count m) (cx_last_duration_ns m) (cx_max_duration_ns m)
    (cx_budget_overrun_count m) (cx_cancellation_requested_count m) (cx_cancellation_observed_count m)
    (cx_timeout_budget_exceeded_count m) (cx_max_in_flight_count m).
Definition empty_execution_metrics : ComponentExecutionMetrics := mkExecutionMetrics 0 0 0 0 0 0 0 0 0.
Record SchedulerRunOptions := mkRunOptions {
  tick_iterations : nat; run_duration_ms : Z; run_until_idle : bool; cancel_token_valid : bool; max_recorded_ticked_tasks : nat }.
Record SchedulerRunResult := mkRunResult {
  res_ok : bool; res_errors : list string; res_stop_reason : SchedulerStopReason; res_iterations : nat; res_tick_calls : nat;
  res_group_metrics : gmap string SchedulerMetrics; res_component_metrics : gmap string ComponentExecutionMetrics;
  res_trigger_metrics : gmap string TriggerRuntimeMetrics;
  loop_iteration_count : gmap string nat; loop_converged_count : gmap string nat; loop_budget_overrun_count : gmap string nat;
  loop_max_iteration_hit_count : gmap string nat; loop_error_count : gmap string nat;
  loop_cancellation_requested_count : gmap string nat; loop_cancellation_observed_count : gmap string nat;
  loop_output_discarded_count : gmap string nat; loop_last_residual : gmap string Double; loop_stop_reason : gmap string string;
  ticked_tasks : list string }.
#[export] Instance eta_SchedulerRunResult : Eta SchedulerRunResult := fun r =>
  mkRunResult (res_ok r) (res_errors r) (res_stop_reason r) (res_iterations r) (res_tick_calls r) (res_group_metrics r)
    (res_component_metrics r) (res_trigger_metrics r) (loop_iteration_count r) (loop_converged_count r)
    (loop_budget_overrun_count r) (loop_max_iteration_hit_count r) (loop_error_count r)
    (loop_cancellation_requested_count r) (loop_cancellation_observed_count r) (loop_output_discarded_count r)
    (loop_last_residual r) (loop_stop_reason r) (ticked_tasks r).
Definition initial_result : SchedulerRunResult := mkRunResult true [] kTickBound 0 0 ∅ ∅ ∅ ∅ ∅ ∅ ∅ ∅ ∅ ∅ ∅ ∅ ∅ [].
Definition bump (m : gmap string nat) (k : string) : gmap string nat := <[k := S (map_at 0 m k)]> m.

(** User code: it may depend on everything that happened before, hence on the moment of the call. *)
Record ComponentCode := mkCode {
  code_execute : nat → Invocation → option LoopIterationContext → Prog;
  (** [validate_config] returns a status or throws. *)
  code_validate_config : nat → ConfigView → string + Status; code_apply_config : nat → ConfigView → Prog }.
Record EventRuntimeComponent := mkRuntimeComponent {
  rc_id : string; rc_component : option ComponentCode; rc_context_component_id : string; rc_spec : ComponentNodeSpec;
  rc_lane : SchedulerGroupConfig }.

(** ** The monad *)
Record Run := mkRun {
  rn_world : World; rn_result : SchedulerRunResult; rn_engine : TriggerPolicyEngine; rn_in_flight : gmap string nat }.
#[export] Instance eta_Run : Eta Run := fun r => mkRun (rn_world r) (rn_result r) (rn_engine r) (rn_in_flight r).
Definition M (A : Type) : Type := nat → Run → option (Run * A).
#[export] Instance M_ret : MRet M := fun A a _ s => Some (s, a).
#[export] Instance M_bind : MBind M := fun A B f m fuel s =>
  match m fuel s with None => None | Some (s, a) => f a fuel s end.
Definition modify (f : Run → Run) : M unit := fun _ s => Some (f s, tt).
Definition gets {A} (f : Run → A) : M A := fun _ s => Some (s, f s).
Definition throw {A} : M A := fun _ _ => None.
Definition update_result (f : SchedulerRunResult → SchedulerRunResult) : M unit := modify (fun s => s <| rn_result ::= f |>).
Definition update_world (f : World → World) : M unit := modify (fun s => s <| rn_world ::= f |>).
(** A step of the world that answers or throws. *)
Definition on_world {A} (f : World → option (World * A)) : M A := fun _ s =>
  match f (rn_world s) with None => None | Some (w, a) => Some (s <| rn_world := w |>, a) end.
Notation "'do' m ';' k" := (m ≫= fun _ => k) (at level 100, m at level 99, k at level 100, right associativity).
Definition attrs (l : list (string * string)) : gmap string string := list_to_map l.
Definition trace (name : string) (l : list (string * string)) : M unit := update_world (trace_event name (attrs l)).
Definition trace_map (name : string) (attributes : gmap string string) : M unit := update_world (trace_event name attributes).
(** The first error of an operation ends the run. *)
Definition fail (message : string) : M bool :=
  do update_result (fun r => r <| res_ok := false |> <| res_stop_reason := kError |> <| res_errors ::= fun l => l ++ [message] |>);
  mret false.
Definition stop_with (why : SchedulerStopReason) : M unit := update_result (fun r => r <| res_stop_reason := why |>).
Definition update_group (lane : string) (f : SchedulerMetrics → SchedulerMetrics) : M unit :=
  update_result (fun r => r <| res_group_metrics ::= fun m => <[lane := f (map_at empty_scheduler_metrics m lane)]> m |>).
Definition update_component (id : string) (f : ComponentExecutionMetrics → ComponentExecutionMetrics) : M unit :=
  update_result (fun r => r <| res_component_metrics ::= fun m => <[id := f (map_at empty_execution_metrics m id)]> m |>).
(** A loop whose body says whether to go on. *)
Fixpoint for_all {A} (body : A → M bool) (l : list A) : M bool :=
  match l with [] => mret true | x :: rest => go ← body x; if (go : bool) then for_all body rest else mret false end.
Fixpoint for_each {A} (body : A → M unit) (l : list A) : M unit :=
  match l with [] => mret tt | x :: rest => do body x; for_each body rest end.

(** ** Helpers *)
Definition with_invocation_metadata (attributes : gmap string string) (invocation : Invocation) : gmap string string :=
  let m := inv_metadata invocation in
  let put name (value : string) (a : gmap string string) := if str_empty value then a else <[name := value]> a in
  let a := put "correlation_id" (md_correlation_id m) attributes in
  let a := put "causation_id" (md_causation_id m) a in
  let a := if md_epoch_id m =? 0 then a else <["epoch_id" := to_string_nat (md_epoch_id m)]> a in
  let a := put "transaction_id" (md_transaction_id m) a in
  let a := put "source_component" (md_source_component m) a in
  let a := put "source_port" (md_source_port m) a in
  put "trigger_kind" (md_trigger_kind m) a.
Definition loop_policy_converged_after_iteration (policy : LoopPolicySpec) : bool :=
  let c := loop_convergence policy in str_eqb c "single_pass" || str_eqb c "after_first_iteration" || str_eqb c "always".
Definition loop_policy_is_solver_iteration (policy : LoopPolicySpec) : bool := str_eqb (loop_type policy) "solver_iteration".
Definition effective_partial_success_policy (policy : LoopPolicySpec) : string :=
  if negb (str_empty (loop_partial_success policy)) then loop_partial_success policy
  else if loop_policy_is_solver_iteration policy then "discard_outputs" else "commit_outputs".
Definition double_le_threshold (residual : Double) (threshold : QArith_base.Q) : bool :=
  match residual with Finite q => QArith_base.Qle_bool q threshold | Infinity negative => negative | NotANumber => false end.
Definition kDefaultRunUntilIdleIterationBound : nat := 1000.
Definition lane_map (components : list EventRuntimeComponent) : gmap string SchedulerGroupConfig :=
  fold_left (fun m c => <[group_id (rc_lane c) := rc_lane c]> m) components ∅.
Definition trigger_kind_index (trigger : TriggerKind) : nat :=
  match trigger with
  | tkOnMessage => 0 | tkOnTick => 1 | tkAllInputs => 2 | tkAnyInput => 3 | tkTimeSync => 4 | tkBatch => 5 | tkRequest => 6
  | tkTaskReady => 7 | tkManual => 8 | tkWatermark => 9 | tkCondition => 10 | tkDebounce => 11 | tkRateLimit => 12
  end.

(** ** The outcome of an invocation, the items of a batch *)
Record ComponentInvocationOutcome := mkInvocationOutcome {
  oc_status : Status; oc_started_at : Z; oc_finished_at : Z; oc_cancellation_observed : nat; oc_cancellation_requested_after : bool }.
Inductive ItemState :=
| Unsubmitted
| Queued
| Running (worker : nat) (started_at : Z) (observed : nat) (rest : Prog)
| Finished (worker : nat) (outcome : ComponentInvocationOutcome).
Inductive Move := MSubmit (item : nat) | MTake (worker item : nat) | MStep (item : nat).
Definition is_queued (s : ItemState) : bool := match s with Queued => true | _ => false end.
Definition runs_on (worker : nat) (s : ItemState) : bool := match s with Running w _ _ _ => w =? worker | _ => false end.
Definition positions (p : ItemState → bool) (items : list ItemState) : list nat :=
  omap (fun '(i, s) => if p s then Some i else None) (imap pair items).

Definition outcomes_of (items : list ItemState) : list (nat * ComponentInvocationOutcome) :=
  omap (fun s => match s with Finished worker outcome => Some (worker, outcome) | _ => None end) items.

(** ** The runtime *)
Section runtime.
Context (clock : nat → nat → nat → Z) (stop_token cancel_token : nat → bool) (pick : nat → nat)
  (hz_period : QArith_base.Q → Z) (show_double : Double → string) (show_threshold : QArith_base.Q → string) (show_ms : Z → string).
Context (options : SchedulerRunOptions) (components : list EventRuntimeComponent) (compiled_plan : GraphCompiledPlan).

(** [runtime_cancel_token]: the given token, or one that asks the stop token. *)
Definition cancelled (moment : nat) : bool := if cancel_token_valid options then cancel_token moment else stop_token moment.
Definition moment_passes : M unit := update_world tick_moment.
Definition read_clock : M Z := do moment_passes; gets (fun s => now clock (rn_world s)).
Definition cancel_requested : M bool := do moment_passes; gets (fun s => cancelled (w_moment (rn_world s))).
Definition stop_requested : M bool :=
  do moment_passes; gets (fun s => stop_token (w_moment (rn_world s)) || cancelled (w_moment (rn_world s))).

Definition component_for_id (id : string) : option EventRuntimeComponent := List.find (fun c => str_eqb (rc_id c) id) components.

(** *** Configuration transactions *)
Definition on_config {A} (d : A) (f : ConfigSnapshotStore → ConfigSnapshotStore * A) : M A :=
  on_world (fun w => match w_config w with
    | None => Some (w, d)
    | Some s => let '(s, a) := f s in Some (w <| w_config := Some s |>, a)
    end).
Definition rollback_config : M unit := do on_config 0 rollback_pending_updates; mret tt.
Definition commit_config : M nat := time ← read_clock; on_config 0 (commit_config_epoch time).
Definition pending_configs : M (option (list (string * ConfigView))) :=
  gets (fun s => (fun c => map_items (pending_component_configs c)) <$> w_config (rn_world s)).
Definition config_context (c : EventRuntimeComponent) : InvocationContext :=
  mkInvocationContext (rc_context_component_id c) empty_metadata None.
(** An exception of [apply_config] leaves the run. *)
Definition call_apply_config (c : EventRuntimeComponent) (code : ComponentCode) (config : ConfigView) : M Status :=
  do moment_passes;
  moment ← gets (fun s => w_moment (rn_world s));
  outcome ← on_world (fun w => option_map (fun r => (r.1.1, r.1.2))
    (run_prog clock cancelled (config_context c) (code_apply_config code moment config) 0 w));
  match outcome with inl _ => throw | inr status => mret status end.
(** So does one of [validate_config]. *)
Definition call_validate_config (code : ComponentCode) (config : ConfigView) : M Status :=
  do moment_passes;
  outcome ← gets (fun s => code_validate_config code (w_moment (rn_world s)) config);
  match outcome with inl _ => throw | inr status => mret status end.
Definition status_text (s : Status) : string := if status_ok s then "ok" else "error".
Fixpoint validate_updates (pending : list (string * ConfigView)) (previous : gmap string ConfigView)
    : M (option (gmap string ConfigView)) :=
  match pending with
  | [] => mret (Some previous)
  | (id, config) :: rest =>
      match component_for_id id ≫= rc_component with
      | None =>
          do rollback_config; do fail ("config transaction references missing component " +:+ id);
          do trace "config_transaction_rollback" [("component_id", id); ("reason", "missing_component")]; mret None
      | Some code =>
          validation ← call_validate_config code config;
          do trace "config_transaction_validate" [("component_id", id); ("status", status_text validation)];
          if negb (status_ok validation) then
            do rollback_config;
            do fail ("config transaction validation failed for component " +:+ id +:+ ": " +:+ status_message validation);
            do trace "config_transaction_rollback" [("component_id", id); ("reason", "validation")]; mret None
          else
            old ← on_config empty_config (read_component_config id);
            validate_updates rest (<[id := old]> previous)
      end
  end.
Definition restore_config (previous : gmap string ConfigView) (reason : list (string * string)) (id : string) : M unit :=
  match component_for_id id with
  | Some c =>
      match rc_component c with
      | Some code =>
          restored ← call_apply_config c code (map_at empty_config previous id);
          do trace "config_transaction_rollback" (("component_id", id) :: reason ++ [("status", status_text restored)]);
          if status_ok restored then mret tt
          else update_result (fun r => r <| res_errors ::= fun l => l ++
                 ["config transaction rollback failed for component " +:+ id +:+ ": " +:+ status_message restored] |>)
      | None => mret tt
      end
  | None => mret tt
  end.
Fixpoint apply_updates (pending : list (string * ConfigView)) (previous : gmap string ConfigView) (applied : list string) : M bool :=
  match pending with
  | [] => mret true
  | (id, config) :: rest =>
      match component_for_id id with
      | Some c =>
          match rc_component c with
          | Some code =>
              status ← call_apply_config c code config;
              do trace "config_transaction_apply" [("component_id", id); ("status", status_text status)];
              if negb (status_ok status) then
                do restore_config previous [("reason", "apply")] id;
                do for_each (restore_config previous []) (reverse applied);
                do rollback_config;
                fail ("config transaction apply failed for component " +:+ id +:+ ": " +:+ status_message status)
              else apply_updates rest previous (applied ++ [id])
          | None => throw
          end
      | None => throw
      end
  end.
Definition apply_config_transaction : M bool :=
  pending ← pending_configs;
  match pending with
  | None => mret true
  | Some [] => do commit_config; mret true
  | Some pending =>
      previous ← validate_updates pending ∅;
      match previous with
      | None => mret false
      | Some previous =>
          applied ← apply_updates pending previous [];
          if negb applied then mret false else
          committed ← commit_config;
          do trace "config_transaction_commit" [("applied_components", to_string_nat committed)]; mret true
      end
  end.

(** *** One invocation *)
Definition invocation_attributes (c : EventRuntimeComponent) (i : Invocation) (worker : option nat) : gmap string string :=
  with_invocation_metadata (attrs ([("component_id", rc_id c); ("lane", group_id (rc_lane c))] ++
    match worker with Some w => [("worker_id", to_string_nat w)] | None => [] end)) i.
Definition invocation_context (c : EventRuntimeComponent) (i : Invocation) (loop : option LoopIterationContext) : InvocationContext :=
  mkInvocationContext (rc_context_component_id c) (inv_metadata i) loop.
(** A null component would be dereferenced. *)
Definition begin_invocation (c : EventRuntimeComponent) (i : Invocation) (loop : option LoopIterationContext) (worker : option nat)
    : M (Z * Prog) :=
  started_at ← read_clock;
  do trace_map "component_execute_begin" (invocation_attributes c i worker);
  match rc_component c with
  | None => throw
  | Some code => program ← gets (fun s => code_execute code (w_moment (rn_world s)) i loop); mret (started_at, program)
  end.
Definition end_invocation (c : EventRuntimeComponent) (i : Invocation) (worker : option nat) (started_at : Z) (observed : nat)
    (outcome : string + Status) : M ComponentInvocationOutcome :=
  finished_at ← read_clock;
  requested ← cancel_requested;
  let attributes := invocation_attributes c i worker in
  do trace_map "component_execute" (<["trigger" := to_string_nat (trigger_kind_index (inv_trigger i))]> attributes);
  do trace_map "component_execute_end" attributes;
  mret (mkInvocationOutcome (status_of outcome) started_at finished_at observed requested).
Definition run_invocation (c : EventRuntimeComponent) (i : Invocation) (loop : option LoopIterationContext)
    : M ComponentInvocationOutcome :=
  '(started_at, program) ← begin_invocation c i loop None;
  '(outcome, observed) ← on_world (fun w => option_map (fun r => (r.1.1, (r.1.2, r.2)))
    (run_prog clock cancelled (invocation_context c i loop) program 0 w));
  end_invocation c i None started_at observed outcome.
Definition commit_publications : M (option RuntimeChannelPublishResult) :=
  do moment_passes;
  on_world (fun w =>
    if negb (w_routed w) then Some (w, None) else
    match commit_immediate (w_hub w) (readings clock w) with
    | None => None
    | Some (r, events, result) => Some (w <| w_hub := r |> <| w_events ::= fun l => l ++ events |>, Some result)
    end).
Definition commit_or_fail (prefix : string) : M bool :=
  commit ← commit_publications;
  match commit with
  | Some result => if accepted result then mret true else fail (prefix +:+ reason result)
  | None => mret true
  end.
Definition count_duration (duration : Z) (m : ComponentExecutionMetrics) : ComponentExecutionMetrics :=
  m <| cx_execution_count ::= S |> <| cx_last_duration_ns := duration |> <| cx_max_duration_ns ::= Z.max duration |>.
Definition note_tick (c : EventRuntimeComponent) (i : Invocation) : M unit :=
  do update_result (fun r => r <| res_tick_calls ::= S |>
       <| ticked_tasks ::= fun l => if (max_recorded_ticked_tasks options =? 0) || (length l <? max_recorded_ticked_tasks options)
                                     then l ++ [rc_id c] else l |>);
  update_group (group_id (rc_lane c)) (fun m => record_priority_metric (inv_priority i) (m <| completed_count ::= S |>)).
Definition record_invocation_outcome (c : EventRuntimeComponent) (i : Invocation) (o : ComponentInvocationOutcome)
    (commit_publications : bool) : M bool :=
  let elapsed := (oc_finished_at o - oc_started_at o)%Z in
  let duration := Z.max 0 elapsed in
  let where_ := [("component_id", rc_id c); ("lane", group_id (rc_lane c))] in
  do update_component (rc_id c) (count_duration duration);
  do (if ((0 <? inv_budget i) && (ms (inv_budget i) <? elapsed))%Z then
        do update_component (rc_id c) (fun m => m <| cx_budget_overrun_count ::= S |> <| cx_timeout_budget_exceeded_count ::= S |>);
        trace_map "component_timeout_budget_exceeded" (with_invocation_metadata
          (attrs (where_ ++ [("budget_ms", to_string_Z (inv_budget i)); ("duration_ns", to_string_Z duration)])) i)
      else mret tt);
  do (if oc_cancellation_requested_after o then
        do update_component (rc_id c) (fun m => m <| cx_cancellation_requested_count ::= S |>);
        trace_map "component_cancellation_requested" (with_invocation_metadata (attrs where_) i)
      else mret tt);
  do (if 0 <? oc_cancellation_observed o then
        do update_component (rc_id c) (fun m => m <| cx_cancellation_observed_count ::= S |>);
        trace_map "component_cancellation_observed" (with_invocation_metadata (attrs where_) i)
      else mret tt);
  if negb (status_ok (oc_status o)) then
    do update_component (rc_id c) (fun m => m <| cx_error_count ::= S |>);
    fail ("component " +:+ rc_id c +:+ " failed: " +:+ status_message (oc_status o))
  else
    committed ← (if commit_publications
                 then commit_or_fail ("immediate publication commit failed after component " +:+ rc_id c +:+ ": ")
                 else mret true);
    if negb committed then mret false else do note_tick c i; mret true.

(** *** Sequential execution *)
Definition in_flight_of (id : string) : M nat := gets (fun s => map_at 0 (rn_in_flight s) id).
Definition set_in_flight (id : string) (n : nat) : M unit := modify (fun s => s <| rn_in_flight ::= <[id := n]> |>).
Definition execute_one (c : EventRuntimeComponent) (loop : option LoopIterationContext) (i : Invocation) : M bool :=
  n ← in_flight_of (rc_id c);
  if negb (exec_reentrant (execution (rc_spec c))) && negb (n =? 0) then
    fail ("non-reentrant component " +:+ rc_id c +:+ " already has an in-flight invocation")
  else
    do set_in_flight (rc_id c) (S n);
    do update_component (rc_id c) (fun m => m <| cx_max_in_flight_count ::= Nat.max (S n) |>);
    outcome ← run_invocation c i loop;
    do set_in_flight (rc_id c) n;
    record_invocation_outcome c i outcome true.
Definition execute_sequential (c : EventRuntimeComponent) (loop : option LoopIterationContext) (invocations : list Invocation) : M bool :=
  for_all (execute_one c loop) invocations.

(** *** A batch on a thread pool *)
Definition pool_queue (c : EventRuntimeComponent) (invocations : list Invocation) (items : list ItemState) : list (WorkItem nat) :=
  omap (fun i => match invocations !! i with
                 | Some inv => Some (mkWorkItem i (runtime_priority_rank (inv_priority inv)) i (rc_id c))
                 | None => None
                 end) (positions is_queued items).
Definition idle_workers (workers : nat) (items : list ItemState) : list nat :=
  List.filter (fun w => negb (existsb (runs_on w) items)) (seq 0 workers).
Definition moves (c : EventRuntimeComponent) (workers : nat) (invocations : list Invocation) (items : list ItemState) : list Move :=
  match positions (fun s => match s with Unsubmitted => true | _ => false end) items with i :: _ => [MSubmit i] | [] => [] end ++
  match take_best (pool_queue c invocations items) with
  | Some (item, _) => (fun w => MTake w (item_work item)) <$> idle_workers workers items
  | None => []
  end ++
  (MStep <$> positions (fun s => match s with Running _ _ _ _ => true | _ => false end) items).
Definition make_move (c : EventRuntimeComponent) (loop : option LoopIterationContext) (invocations : list Invocation) (move : Move)
    (items : list ItemState) : M (list ItemState) :=
  match move with
  | MSubmit i => mret (<[i := Queued]> items)
  | MTake worker i =>
      match invocations !! i with
      | None => throw
      | Some inv =>
          '(started_at, program) ← begin_invocation c inv loop (Some worker);
          mret (<[i := Running worker started_at 0 program]> items)
      end
  | MStep i =>
      match invocations !! i, items !! i with
      | Some inv, Some (Running worker started_at observed rest) =>
          match rest with
          | Returns status =>
              outcome ← end_invocation c inv (Some worker) started_at observed (inr status);
              mret (<[i := Finished worker outcome]> items)
          | Throws what =>
              outcome ← end_invocation c inv (Some worker) started_at observed (inl what);
              mret (<[i := Finished worker outcome]> items)
          | Call call k =>
              answer ← on_world (perform clock cancelled (invocation_context c inv loop) call);
              mret (<[i := Running worker started_at (observed + observes call answer) (k answer)]> items)
          end
      | _, _ => throw
      end
  end.
Fixpoint run_batch_loop (fuel : nat) (c : EventRuntimeComponent) (loop : option LoopIterationContext) (workers : nat)
    (invocations : list Invocation) (items : list ItemState) : M (list ItemState) :=
  match moves c workers invocations items with
  | [] => mret items
  | move :: others =>
      match fuel with
      | 0 => throw
      | S fuel =>
          do moment_passes;
          choice ← gets (fun s => pick (w_moment (rn_world s)) mod S (length others));
          items ← make_move c loop invocations (nth choice (move :: others) move) items;
          run_batch_loop fuel c loop workers invocations items
      end
  end.
Definition run_batch (c : EventRuntimeComponent) (loop : option LoopIterationContext) (workers : nat) (invocations : list Invocation)
    : M (list (nat * ComponentInvocationOutcome)) :=
  items ← (fun fuel => run_batch_loop fuel c loop workers invocations (replicate (length invocations) Unsubmitted) fuel) : M _;
  mret (outcomes_of items).
Definition join_worker_ids (outcomes : list (nat * ComponentInvocationOutcome)) : string :=
  String.concat "," ((fun o => to_string_nat (fst o)) <$> outcomes).
Definition record_outcomes (c : EventRuntimeComponent) (commit_each : bool)
    (l : list (Invocation * (nat * ComponentInvocationOutcome))) : M bool :=
  for_all (fun '(i, (_, outcome)) => record_invocation_outcome c i outcome commit_each) l.
Definition execute_worker_invocations (c : EventRuntimeComponent) (loop : option LoopIterationContext)
    (workers active_capacity queue_capacity : nat) (commit_each : bool) (invocations : list Invocation) : M bool :=
  stop ← stop_requested;
  if (stop : bool) then do stop_with kStopRequested; mret false else
  let count := length invocations in
  let active := Nat.min active_capacity count in
  let lane := group_id (rc_lane c) in
  do update_group lane (fun m => m <| queue_depth ::= Nat.max (count - active) |> <| active_count ::= Nat.max active |>
                                   <| in_flight_count ::= Nat.max count |>);
  do update_component (rc_id c) (fun m => m <| cx_max_in_flight_count ::= Nat.max active |>);
  outcomes ← run_batch c loop workers invocations;
  recorded ← record_outcomes c commit_each (zip invocations outcomes);
  if negb recorded then mret false else
  committed ← (if commit_each then mret true
               else commit_or_fail ("immediate publication commit failed after thread_pool component " +:+ rc_id c +:+ ": "));
  if negb committed then mret false else
  do trace "thread_pool_batch" [("component_id", rc_id c); ("lane", lane); ("batch_size", to_string_nat count);
       ("worker_count", to_string_nat workers); ("queue_capacity", to_string_nat queue_capacity);
       ("worker_ids", join_worker_ids outcomes)];
  mret true.
Definition lane_reject_event (c : EventRuntimeComponent) (ready capacity : nat) : HealthEvent :=
  default_health_event <| he_kind := kSchedulerReject |> <| he_source := "scheduler" |> <| he_component_id := rc_id c |>
    <| he_lane := group_id (rc_lane c) |> <| he_policy := group_overflow (rc_lane c) |>
    <| he_reason := if lane_overflow_fails_fast (group_overflow (rc_lane c)) then "thread_pool queue capacity exceeded"
                    else "thread_pool invocation admission rejected" |>
    <| he_depth := ready |> <| he_capacity := capacity |> <| he_occurrence_count := ready - capacity |>
    <| he_attributes := attrs [("rejected_count", to_string_nat (ready - capacity))] |>.
(** The range counted as refused, also by the policies that end the run. *)
Definition refused_range (overflow : string) (capacity : nat) (ready : list Invocation) : list Invocation :=
  if lane_overflow_drops_oldest overflow then take (length ready - capacity) ready else drop capacity ready.
Definition admit_invocations (c : EventRuntimeComponent) (capacity : nat) (ready : list Invocation) : M (option (list Invocation)) :=
  if length ready <=? capacity then mret (Some ready) else
  let lane := group_id (rc_lane c) in
  let overflow := group_overflow (rc_lane c) in
  let refused := count_if (fun i => is_low_priority (inv_priority i)) (refused_range overflow capacity ready) in
  do update_group lane (fun m => m <| enqueue_rejected_count ::= fun n => n + (length ready - capacity) |>);
  do update_world (emit_health (lane_reject_event c (length ready) capacity));
  do update_group lane (fun m => m <| low_priority_rejected_count ::= fun n => n + refused |>);
  match admit_ready overflow capacity ready with
  | LaneAccepts kept _ => mret (Some kept)
  | LaneFull => do fail ("thread_pool lane " +:+ lane +:+ " queue capacity exceeded"); mret None
  | UnsupportedOverflow => do fail ("thread_pool lane " +:+ lane +:+ " has unsupported overflow " +:+ overflow); mret None
  end.
(** The pools are those of the lanes of the components, so the lane of a component has one. *)
Definition execute_on_pool (c : EventRuntimeComponent) (loop : option LoopIterationContext) (ready : list Invocation) : M bool :=
  let lane := rc_lane c in
  match lane_map components !! group_id lane with
  | None => fail ("thread_pool lane " +:+ group_id lane +:+ " has no worker pool")
  | Some pool_lane =>
      if negb (str_eqb (group_type pool_lane) "thread_pool") then fail ("thread_pool lane " +:+ group_id lane +:+ " has no worker pool") else
      let workers := Nat.max (worker_count_for_lane pool_lane) 1 in
      do update_group (group_id lane) (fun m => m <| worker_count ::= Nat.max workers |>);
      let reentrant := exec_reentrant (execution (rc_spec c)) in
      let active_capacity := if reentrant then workers else 1 in
      let queue_capacity := queue_capacity_for_lane lane (length ready) active_capacity in
      do update_group (group_id lane) (fun m => m <| Scheduler.queue_capacity ::= Nat.max queue_capacity |>);
      admitted ← admit_invocations c (active_capacity + queue_capacity) ready;
      match admitted with
      | None => mret false
      | Some invocations =>
          if negb reentrant
          then for_all (fun i => execute_worker_invocations c loop workers active_capacity queue_capacity true [i]) invocations
          else execute_worker_invocations c loop workers active_capacity queue_capacity false invocations
      end
  end.

(** *** One component *)
Definition add_trigger_stats (stats m : TriggerRuntimeMetrics) : TriggerRuntimeMetrics :=
  m <| timeout_drop_count ::= fun n => n + timeout_drop_count stats |> <| batch_flush_count ::= fun n => n + batch_flush_count stats |>
    <| time_sync_drop_count ::= fun n => n + time_sync_drop_count stats |> <| late_drop_count ::= fun n => n + late_drop_count stats |>
    <| pending_drop_count ::= fun n => n + pending_drop_count stats |>
    <| condition_suppressed_count ::= fun n => n + condition_suppressed_count stats |>
    <| rate_limit_suppressed_count ::= fun n => n + rate_limit_suppressed_count stats |>.
Definition count_ready (spec : ComponentNodeSpec) (ready : nat) (m : TriggerRuntimeMetrics) : TriggerRuntimeMetrics :=
  if (ready =? 0) && has_message_event_source spec then m <| tr_suppressed_count ::= S |> else
  let m := m <| tr_ready_count ::= fun n => n + ready |> in
  if coalesce (trigger_policy spec) || str_eqb (trigger_type (trigger_policy spec)) "debounce"
  then m <| tr_coalesced_count ::= fun n => n + ready |> else m.
Definition collect_ready (c : EventRuntimeComponent) : M (list Invocation) :=
  time ← read_clock;
  sequence ← gets (fun s => S (res_iterations (rn_result s)));
  invocations ← (fun fuel s =>
    match collect_ready_invocations (rn_engine s) (w_bus (rn_world s)) (clock (w_moment (rn_world s)))
            (mkTick sequence time time (Some 0) (Some 0)) (rc_spec c) (rc_lane c) with
    | None => None
    | Some (e, bus, events, invocations) =>
        Some (s <| rn_engine := e |> <| rn_world ::= store_bus bus events |>, invocations)
    end);
  stats ← (fun fuel s => let '(e, stats) := take_last_stats (rn_engine s) (rc_id c) in Some (s <| rn_engine := e |>, stats));
  do update_result (fun r => r <| res_trigger_metrics ::= fun m =>
       <[rc_id c := count_ready (rc_spec c) (length invocations) (add_trigger_stats stats (map_at empty_trigger_metrics m (rc_id c)))]> m |>);
  mret invocations.
Definition execute_component (loop : option LoopIterationContext) (id : string) : M bool :=
  match component_for_id id with
  | None => mret true
  | Some c =>
      ready ← collect_ready c;
      if negb (str_eqb (group_type (rc_lane c)) "thread_pool") || (length ready =? 0)
      then execute_sequential c loop ready
      else execute_on_pool c loop ready
  end.

(** *** Composite loops *)
Record LoopEnd := mkLoopEnd { end_converged : bool; end_budget_overrun : bool; end_cancelled : bool; end_reason : string }.
Definition loop_iteration_attributes (region : CompiledGraphRegion) (iteration : nat) (s : LoopConvergenceSnapshot) (why : string)
    : gmap string string :=
  let policy := region_loop_policy region in
  let a := attrs [("loop_id", region_id region); ("iteration", to_string_nat iteration); ("policy", loop_type policy)] in
  let a := match conv_residual s with Some r => <["residual" := show_double r]> a | None => a end in
  let a := match loop_residual_threshold policy with Some t => <["residual_threshold" := show_threshold t]> a | None => a end in
  let selected := if str_empty why then conv_reason s else why in
  if str_empty selected then a else <["reason" := selected]> a.
Definition residual_threshold_met (policy : LoopPolicySpec) (s : LoopConvergenceSnapshot) : bool :=
  match conv_residual s, loop_residual_threshold policy with
  | Some residual, Some threshold => double_le_threshold residual threshold
  | _, _ => false
  end.
(** The empty text: not converged. *)
Definition convergence_reason (policy : LoopPolicySpec) (s : LoopConvergenceSnapshot) : string :=
  if loop_policy_converged_after_iteration policy then loop_convergence policy
  else if conv_converged s then (if str_empty (conv_reason s) then "component_report" else conv_reason s)
  else if residual_threshold_met policy s then "residual_threshold" else "".
Definition stop_loop (region : CompiledGraphRegion) (why : string) (count : SchedulerRunResult → SchedulerRunResult) : M unit :=
  update_result (fun r => count (r <| loop_stop_reason ::= <[region_id region := why]> |>)).
Definition loop_max_iterations_of (region : CompiledGraphRegion) : nat :=
  let n := loop_max_iterations (region_loop_policy region) in if (0 <? n)%Z then Z.to_nat n else 1.
Definition loop_body (region : CompiledGraphRegion) (loop : LoopIterationContext) : M bool :=
  let id := region_id region in
  for_all (fun component =>
    executed ← execute_component (Some loop) component;
    if (executed : bool) then mret true else
    do stop_loop region "component_error" (fun r => r <| loop_error_count ::= fun m => bump m id |>);
    do trace "loop_error" [("loop_id", id); ("component_id", component); ("iteration", to_string_nat (li_iteration_number loop))];
    mret false) (region_components region).
(** [remaining] iterations are allowed from number [index] on; [None]: a component ended the run. *)
Fixpoint loop_iterations (region : CompiledGraphRegion) (loop_started_at : Z) (remaining index : nat) : M (option LoopEnd) :=
  match remaining with
  | 0 => mret (Some (mkLoopEnd false false false ""))
  | S remaining =>
      let id := region_id region in
      let policy := region_loop_policy region in
      let number := to_string_nat (S index) in
      cancel ← (if 0 <? index then cancel_requested else mret false);
      if (cancel : bool) then
        do stop_with kStopRequested;
        do stop_loop region "cancelled" (fun r => r <| loop_cancellation_requested_count ::= fun m => bump m id |>
                                                    <| loop_cancellation_observed_count ::= fun m => bump m id |>);
        do trace "loop_cancellation_requested" [("loop_id", id); ("iteration", number)];
        do trace "loop_cancellation_observed" [("loop_id", id); ("iteration", number)];
        mret (Some (mkLoopEnd false false true "cancelled"))
      else
        do update_world (fun w => w <| w_convergence := no_convergence |>);
        do trace "loop_iteration_begin" [("loop_id", id); ("iteration", number); ("policy", loop_type policy)];
        do update_result (fun r => r <| loop_iteration_count ::= fun m => bump m id |>);
        completed ← loop_body region (mkLoopIteration id (loop_type policy) index (S index) (loop_max_iterations_of region));
        if negb completed then mret None else
        snapshot ← gets (fun s => w_convergence (rn_world s));
        do (match conv_residual snapshot with
            | Some r => update_result (fun x => x <| loop_last_residual ::= <[id := r]> |>)
            | None => mret tt
            end);
        do trace_map "loop_iteration" (loop_iteration_attributes region (S index) snapshot "");
        do trace_map "loop_iteration_end" (loop_iteration_attributes region (S index) snapshot "");
        let why := convergence_reason policy snapshot in
        if negb (str_empty why) then
          do stop_loop region why (fun r => r <| loop_converged_count ::= fun m => bump m id |>);
          do trace_map "loop_converged" (loop_iteration_attributes region (S index) snapshot why);
          mret (Some (mkLoopEnd true false false why))
        else
          over ← (if (0 <? loop_budget_ms policy)%Z
                  then time ← read_clock; mret (ms (loop_budget_ms policy) <=? time - loop_started_at)%Z
                  else mret false);
          if (over : bool) then
            do stop_loop region "budget_overrun" (fun r => r <| loop_budget_overrun_count ::= fun m => bump m id |>);
            do trace_map "loop_budget_overrun" (loop_iteration_attributes region (S index) snapshot "budget_overrun");
            mret (Some (mkLoopEnd false true false "budget_overrun"))
          else loop_iterations region loop_started_at remaining (S index)
  end.
Definition on_router (f : Router → Router) : M unit := update_world (fun w => if w_routed w then w <| w_hub ::= f |> else w).
(** [None]: no router. *)
Definition commit_region_outputs : M (option RuntimeChannelPublishResult) :=
  do moment_passes;
  on_world (fun w =>
    if negb (w_routed w) then Some (w, None) else
    match commit_composite_region_outputs (w_hub w) (readings clock w) with
    | None => None
    | Some (r, events, result) => Some (w <| w_hub := r |> <| w_events ::= fun l => l ++ events |>, Some result)
    end).
(** What happens to the outputs of a region whose loop ended; [true] goes on with the next region. *)
Definition finish_region (region : CompiledGraphRegion) (e : LoopEnd) : M bool :=
  let id := region_id region in
  let policy := region_loop_policy region in
  let partial := effective_partial_success_policy policy in
  let partial_solver_stop := loop_policy_is_solver_iteration policy && negb (end_converged e) in
  let count_discarded := update_result (fun r => r <| loop_output_discarded_count ::= fun m => bump m id |>) in
  if partial_solver_stop && str_eqb partial "fail_run" then
    do on_router discard_composite_region_outputs;
    do count_discarded;
    fail ("composite_loop " +:+ id +:+ " stopped without convergence: " +:+ end_reason e)
  else
    settled ← (if negb partial_solver_stop || str_eqb partial "commit_outputs" then
        commit ← commit_region_outputs;
        match commit with
        | Some result => if accepted result then mret true
                         else fail ("composite region publication commit failed after region " +:+ id +:+ ": " +:+ reason result)
        | None => mret true
        end
      else
        routed ← gets (fun s => w_routed (rn_world s));
        if negb routed then mret true else
        do on_router discard_composite_region_outputs;
        do count_discarded;
        do trace "loop_output_discarded" [("loop_id", id); ("reason", end_reason e); ("policy", partial)];
        mret true);
    mret (settled && negb (end_cancelled e)).
Definition run_loop_region (region : CompiledGraphRegion) : M bool :=
  let id := region_id region in
  loop_started_at ← read_clock;
  do on_router (begin_composite_region (region_components region));
  ended ← loop_iterations region loop_started_at (loop_max_iterations_of region) 0;
  match ended with
  | None => mret false
  | Some e =>
      if end_converged e || end_budget_overrun e || end_cancelled e then finish_region region e else
      let e := mkLoopEnd false false false "max_iterations" in
      do stop_loop region "max_iterations" (fun r => r);
      do (if (0 <? loop_max_iterations (region_loop_policy region))%Z then
            do update_result (fun r => r <| loop_max_iteration_hit_count ::= fun m => bump m id |>);
            trace "loop_max_iterations_hit" [("loop_id", id); ("iteration", to_string_nat (loop_max_iterations_of region))]
          else mret tt);
      finish_region region e
  end.
Definition run_region (region : CompiledGraphRegion) : M bool :=
  match region_kind region with
  | kCompositeLoop => run_loop_region region
  | kComponent => for_all (execute_component None) (region_components region)
  end.
(** The regions in the order of the plan; without a plan, one region per component. *)
Definition region_of_component (c : EventRuntimeComponent) : CompiledGraphRegion :=
  mkRegion (rc_id c) kComponent [rc_id c] "" default_loop_policy [] [].
Definition regions_in_order : list CompiledGraphRegion :=
  let order := omap (fun id => List.find (fun r => str_eqb (region_id r) id) (plan_regions compiled_plan)) (region_order compiled_plan) in
  match order with [] => region_of_component <$> components | _ => order end.

(** *** Fixed-rate lanes *)
Definition lanes : gmap string SchedulerGroupConfig := lane_map components.
Definition is_fixed_rate (lane : SchedulerGroupConfig) : bool := str_eqb (group_type lane) "fixed_rate".
Definition wall_clock_lane (lane : SchedulerGroupConfig) : bool :=
  is_fixed_rate lane && group_wall_clock_enabled lane && (0 <? fixed_rate_period_for_lane hz_period lane)%Z.
Definition first_ticks (started_at : Z) : gmap string Z := (fun _ => started_at) <$> filter (fun kv => wall_clock_lane kv.2 = true) lanes.
Fixpoint sleep_loop (fuel : nat) (deadline : Z) : M bool :=
  time ← read_clock;
  if (deadline <=? time)%Z then stop_requested else
  match fuel with
  | 0 => throw
  | S fuel => stop ← stop_requested; if (stop : bool) then mret true else do read_clock; sleep_loop fuel deadline
  end.
Definition sleep_until_or_stop (deadline : Z) : M bool := fun fuel => sleep_loop fuel deadline fuel.
Definition lift_blocked (waited : Z) (m : SchedulerMetrics) : SchedulerMetrics := m <| blocked_duration_ns ::= Z.max waited |>.
(** Waits for the due ticks; [None]: stopped while waiting. *)
Fixpoint wait_for_ticks (iteration : nat) (ticks : list (string * Z)) (current : gmap string Z) : M (option (gmap string Z)) :=
  match ticks with
  | [] => mret (Some current)
  | (lane, scheduled) :: rest =>
      do update_group lane (fun m => m);
      time ← read_clock;
      if (0 <? iteration) && (time <? scheduled)%Z then
        stopped ← sleep_until_or_stop scheduled;
        woken ← read_clock;
        do update_group lane (lift_blocked (woken - time));
        if (stopped : bool) then mret None else wait_for_ticks iteration rest (<[lane := scheduled]> current)
      else wait_for_ticks iteration rest (<[lane := scheduled]> current)
  end.
Definition bool_text (b : bool) : string := if b then "true" else "false".
Definition tick_attributes (iteration : nat) (lane_id : string) (lane : SchedulerGroupConfig) : gmap string string :=
  attrs [("lane", lane_id); ("iteration", to_string_nat (S iteration));
         ("wall_clock_enabled", bool_text (group_wall_clock_enabled lane)); ("overrun_policy", group_overrun_policy lane)].
Definition begin_tick (iteration : nat) (current : gmap string Z) (kv : string * SchedulerGroupConfig) : M unit :=
  if negb (is_fixed_rate kv.2) then mret tt else
  let a := tick_attributes iteration kv.1 kv.2 in
  trace_map "fixed_rate_tick_begin" (match current !! kv.1 with Some _ => <["wall_clock_scheduled" := "true"]> a | None => a end).
Definition note_overrun (jitter : Z) (m : SchedulerMetrics) : SchedulerMetrics :=
  m <| tick_overrun_count ::= S |> <| tick_jitter_ns := jitter |> <| max_lateness_ns ::= Z.max jitter |>.
(** The lane after an iteration that took [duration] and ended at [finished]; the schedule of the lane, if it has one. *)
Definition end_tick (iteration : nat) (current : gmap string Z) (duration finished : Z) (kv : string * SchedulerGroupConfig)
    (next : gmap string Z) : M (gmap string Z) :=
  let '(lane_id, lane) := kv in
  do update_group lane_id (fun m => m <| last_callback_duration_ns := duration |>);
  if negb (is_fixed_rate lane) then mret next else
  let a := tick_attributes iteration lane_id lane in
  let period := fixed_rate_period_for_lane hz_period lane in
  let budget := fixed_rate_budget_for_lane hz_period lane in
  do update_group lane_id (fun m => m <| tick_count ::= S |>);
  do (if ((0 <? budget) && (budget <? duration))%Z then
        do update_group lane_id (note_overrun (duration - budget));
        trace_map "fixed_rate_overrun" (<["lateness_ms" := show_ms (duration - budget)]> a)
      else mret tt);
  next ← (match current !! lane_id with
    | Some scheduled =>
        if (0 <? period)%Z then
          let n := next_wall_clock_tick (group_overrun_policy lane) period scheduled finished in
          do update_group lane_id (fun m => m <| max_lateness_ns ::= Z.max (wall_clock_lateness n) |>);
          do (if 0 <? skipped_ticks n then
                do update_group lane_id (fun m => m <| skipped_tick_count ::= fun k => k + skipped_ticks n |>);
                trace_map "fixed_rate_skipped_tick" (<["skipped_ticks" := to_string_nat (skipped_ticks n)]> a)
              else mret tt);
          mret (<[lane_id := next_tick n]> next)
        else mret next
    | None => mret next
    end);
  do trace_map "fixed_rate_tick" a;
  do trace_map "fixed_rate_tick_end" a;
  mret next.
Fixpoint end_ticks (iteration : nat) (current : gmap string Z) (duration finished : Z) (l : list (string * SchedulerGroupConfig))
    (next : gmap string Z) : M (gmap string Z) :=
  match l with
  | [] => mret next
  | kv :: rest => next ← end_tick iteration current duration finished kv next; end_ticks iteration current duration finished rest next
  end.

(** *** The run *)
Definition commit_state : M unit :=
  update_world (fun w => w <| w_state ::= option_map (fun s => fst (commit_epoch_boundary s)) |>).
Definition begin_epoch_of_run : M bool :=
  do moment_passes;
  commit ← on_world (fun w =>
    if negb (w_routed w) then Some (w, None) else
    match begin_epoch (w_hub w) (readings clock w) with
    | None => None
    | Some (r, events, result) => Some (w <| w_hub := r |> <| w_events ::= fun l => l ++ events |>, Some result)
    end);
  match commit with
  | Some result => if accepted result then mret true else fail ("epoch deferred publication commit failed: " +:+ reason result)
  | None => mret true
  end.
(** Everything an iteration does between the waits and the end of its ticks. *)
Definition run_epoch : M bool :=
  do commit_state;
  configured ← apply_config_transaction;
  if negb configured then mret false else
  begun ← begin_epoch_of_run;
  if negb begun then mret false else
  completed ← for_all run_region regions_in_order;
  if negb completed then mret false else
  do on_router end_epoch;
  mret true.
(** One iteration; [None] ends the run, [Some next] is the schedule of the wall-clock lanes. *)
Definition run_iteration (run_started_at : Z) (iteration : nat) (next : gmap string Z) : M (option (gmap string Z)) :=
  calls_before ← gets (fun s => res_tick_calls (rn_result s));
  stop ← stop_requested;
  if (stop : bool) then do stop_with kStopRequested; mret None else
  over ← (if (0 <? run_duration_ms options)%Z
          then time ← read_clock; mret (ms (run_duration_ms options) <=? time - run_started_at)%Z else mret false);
  if (over : bool) then do stop_with kDurationBound; mret None else
  waited ← wait_for_ticks iteration (map_items next) ∅;
  match waited with
  | None => do stop_with kStopRequested; mret None
  | Some current =>
      started_at ← read_clock;
      do trace "scheduler_iteration_begin" [("iteration", to_string_nat (S iteration))];
      do for_each (begin_tick iteration current) (map_items lanes);
      completed ← run_epoch;
      if negb completed then mret None else
      finished ← read_clock;
      next ← end_ticks iteration current (finished - started_at) finished (map_items lanes) next;
      do trace "scheduler_iteration" [("iteration", to_string_nat (S iteration))];
      do trace "scheduler_iteration_end" [("iteration", to_string_nat (S iteration))];
      do update_result (fun r => r <| res_iterations ::= S |>);
      calls ← gets (fun s => res_tick_calls (rn_result s));
      if run_until_idle options && (calls =? calls_before) then do stop_with kIdle; mret None else mret (Some next)
  end.
Fixpoint run_iterations (run_started_at : Z) (remaining iteration : nat) (next : gmap string Z) : M unit :=
  match remaining with
  | 0 => mret tt
  | S remaining =>
      next ← run_iteration run_started_at iteration next;
      match next with None => mret tt | Some next => run_iterations run_started_at remaining (S iteration) next end
  end.
Definition iteration_bound : nat :=
  if tick_iterations options =? 0 then (if run_until_idle options then kDefaultRunUntilIdleIterationBound else 1)
  else tick_iterations options.
Definition run_loop : M unit :=
  started_at ← read_clock;
  run_iterations started_at iteration_bound 0 (first_ticks started_at).
Definition run (fuel : nat) (w : World) : option (World * SchedulerRunResult) :=
  match run_loop fuel (mkRun w initial_result TriggerPolicyEngine_new ∅) with
  | None => None
  | Some (s, _) => Some (rn_world s, rn_result s)
  end.
End runtime.
