(* ===== verification/ProgramFacts.v ===== *)
(** * ProgramFacts: what component code can and cannot do to the objects of a run

    Whatever calls a component makes, the router keeps its invariant, every channel of the bus is moved by channel
    operations only, no call throws, and the committed values of the state store do not change: writes are staged until
    the next epoch boundary. *)

From S2P Require Export Program TriggerFacts.
Local Open Scope nat_scope.

(** ** The router and its bus *)
Lemma router_ok_bus r b : router_ok r → bus_wf b → router_ok (r <| router_bus := Some b |>).
Proof.
  intros Hok W. apply (router_ok_restage r); try done. destruct (ro_inv _ Hok). split; try done. by intros ? [= <-].
Qed.
Lemma router_publish_bus r endpoint p md ts : router_ok r → router_bus (fst (router_publish r endpoint p md ts)) = router_bus r.
Proof.
  intros Hok. unfold router_publish. destruct p as [p|]; [|done].
  destruct (source_to_edges r !! endpoint) as [edges|] eqn:E; [|done].
  destruct (publish_edges edges endpoint p ts md r) as [r' res] eqn:Ep.
  apply publish_edges_spec in Ep as (_&_&Hb&_); [exact Hb|done|]. intros e He. by exists endpoint, edges.
Qed.
(** No composite region is open. *)
Definition closed (r : Router) : Prop := active_composite_components r = ∅ ∧ composite_external_stage r = [].
Lemma closed_same r r' : same_stages r r' → closed r → closed r'.
Proof. intros (_&H1&H2&_) [C1 C2]. split; congruence. Qed.
(** Without a region, publications are never held back. *)
Lemma publish_edges_closed edges endpoint p ts md r : closed r → closed (fst (publish_edges edges endpoint p ts md r)).
Proof.
  revert r. induction edges as [|edge edges IH]; intros r Hc; cbn [publish_edges]; [done|].
  set (q := edge_publication edge endpoint p ts md). set (r0 := record_trace_event _ _ r).
  destruct (if is_async (re_kind edge) then _ else _) as [r1 adm] eqn:Ea.
  assert (trimmed r0 r1) as (_&Ht&_&_&_&_&Hs).
  { destruct (is_async (re_kind edge)); [|simplify_eq; apply trimmed_refl].
    destruct (admit_async r0 edge) as [r2 adm2] eqn:E2. simplify_eq. by apply admit_async_trimmed in E2. }
  assert (closed r1) as Hc1.
  { destruct Hc as [C1 C2]. change (composite_external_stage r0) with (composite_external_stage r) in Hs. rewrite C2 in Hs.
    split; [by rewrite Ht|]. by apply sublist_nil_r in Hs. }
  destruct (negb _); [done|]. apply IH. destruct Hc1 as [C1 C2]. unfold stage_publication, leaves_region. rewrite C1, bool_decide_false by (intros H; by apply H).
  by destruct (re_kind edge).
Qed.
Lemma router_publish_closed r endpoint p md ts : closed r → closed (fst (router_publish r endpoint p md ts)).
Proof.
  intros Hc. unfold router_publish. destruct p as [p|]; [|done]. destruct (source_to_edges r !! endpoint); [|done]. by apply publish_edges_closed.
Qed.

(** The bus [o] is reached from the bus of [r0] by operations on channels. *)
Definition bus_from (r0 : Router) (o : option RuntimeChannelBus) : Prop :=
  ∃ b0 b, router_bus r0 = Some b0 ∧ o = Some b ∧ bus_moves b0 b.
Lemma bus_from_moves r0 b b' : bus_from r0 (Some b) → bus_moves b b' → bus_from r0 (Some b').
Proof. intros (b0&b1&H0&[= <-]&Hm) Hs. exists b0, b'. split; [done|]. split; [done|]. by eapply bus_moves_trans. Qed.
Lemma commit_batch_from r0 r clock pubs r' ev res : bus_ok (router_bus r) → commit_batch r clock pubs = Some (r', ev, res) →
  bus_from r0 (router_bus r) → bus_from r0 (router_bus r').
Proof.
  intros Hok E Hf. pose proof Hf as (b0&b&H0&Hb&Hm). destruct (commit_batch_spec r clock pubs Hok) as (r2&ev2&res2&E2&_&_&_&_&_&H).
  rewrite E in E2. simplify_eq. rewrite Hb in H. destruct H as [[_ H]|(b'&ev'&Ep&H)]; [by exists b0, b|].
  rewrite H. rewrite Hb in Hf. eapply bus_from_moves; [exact Hf|].
  destruct (publish_batch_spec b clock pubs (Hok b Hb)) as (b2&ev3&res3&E3&Hm2&_). rewrite Ep in E3. by simplify_eq.
Qed.
Lemma commit_batch_closed r clock pubs r' ev res : bus_ok (router_bus r) → commit_batch r clock pubs = Some (r', ev, res) →
  closed r → closed r'.
Proof.
  intros Hok E. destruct (commit_batch_spec r clock pubs Hok) as (r2&ev2&res2&E2&S&_). rewrite E in E2. simplify_eq. by apply closed_same.
Qed.

(** A router reached from [r0]: its bus is moved by operations on channels, every staged publication is accounted for
    unless a commit failed, and no region is open unless [open]. *)
Record hub_ok (r0 : Router) (open : bool) (r : Router) : Prop := {
  ho_router : router_ok r;
  ho_bus : bus_from r0 (router_bus r);
  ho_failed : failed_commit_count (router_metrics r0) <= failed_commit_count (router_metrics r);
  ho_balanced : failed_commit_count (router_metrics r) = failed_commit_count (router_metrics r0) → balanced r;
  ho_closed : open = false → closed r }.
Section hub.
Context (r0 : Router) (open : bool).
Implicit Types r : Router.
Lemma hub_ok_wf r b : hub_ok r0 open r → router_bus r = Some b → bus_wf b.
Proof. intros [Hok _ _ _ _] Hb. by apply (ri_bus _ (ro_inv _ Hok)). Qed.
Lemma hub_step r r' (clean : Prop) : hub_ok r0 open r → router_step_ok r clean r' → clean → bus_from r0 (router_bus r') →
  (open = false → closed r') → hub_ok r0 open r'.
Proof.
  intros [H1 H2 H3 H4 H5] (S1&S2&S3) Hc Hb Hcl. split; [done|done|lia| |done]. intros Hf. apply S3; [done|lia|]. apply H4. lia.
Qed.
Lemma hub_ok_open r : hub_ok r0 open r → hub_ok r0 true r.
Proof. intros []. by split. Qed.
Lemma hub_ok_close r : hub_ok r0 open r → closed r → hub_ok r0 false r.
Proof. intros []. by split. Qed.
Lemma hub_publish r endpoint p md ts : hub_ok r0 open r → hub_ok r0 open (fst (router_publish r endpoint p md ts)).
Proof.
  intros H. eapply hub_step; [exact H|apply router_publish_ok, H|done|rewrite router_publish_bus by apply H; apply H|].
  intros Ho. by apply router_publish_closed, (ho_closed _ _ _ H).
Qed.
Lemma hub_trace name a r : hub_ok r0 open r → hub_ok r0 open (record_trace_event name a r).
Proof.
  intros [H1 H2 H3 H4 H5]. split; [|done..]. apply (router_ok_restage r); try done. destruct (ro_inv _ H1). by split.
Qed.
Lemma hub_commit_immediate r clock : hub_ok r0 open r → ∃ r' ev res, commit_immediate r clock = Some (r', ev, res) ∧ hub_ok r0 open r'.
Proof.
  intros H. destruct (commit_immediate_ok r (ho_router _ _ _ H) clock) as (r'&ev&res&E&Hr). exists r', ev, res. split; [done|].
  pose proof (ri_bus _ (ro_inv _ (ho_router _ _ _ H))) as Hb. eapply hub_step; [exact H|exact Hr|done|..].
  - eapply commit_batch_from; [|exact E|]; [done|apply H].
  - intros Ho. eapply commit_batch_closed; [|exact E|]; [done|]. exact (ho_closed _ _ _ H Ho).
Qed.
Lemma hub_commit_composite r clock : hub_ok r0 open r →
  ∃ r' ev res, commit_composite_region_outputs r clock = Some (r', ev, res) ∧ hub_ok r0 false r'.
Proof.
  intros H. destruct (commit_composite_ok r (ho_router _ _ _ H) clock) as (r'&ev&res&E&Hr). exists r', ev, res. split; [done|].
  pose proof (ri_bus _ (ro_inv _ (ho_router _ _ _ H))) as Hb.
  assert (closed r') as Hc by (eapply commit_batch_closed; [|exact E|]; done).
  apply hub_ok_close; [|done]. eapply hub_step; [exact H|exact Hr|done|..]; [|done].
  eapply commit_batch_from; [|exact E|]; [done|apply H].
Qed.
Lemma hub_begin_epoch r clock : hub_ok r0 open r → ∃ r' ev res, begin_epoch r clock = Some (r', ev, res) ∧ hub_ok r0 open r'.
Proof.
  intros H. destruct (begin_epoch_ok r (ho_router _ _ _ H) clock) as (r'&ev&res&E&Hr). exists r', ev, res. split; [done|].
  unfold begin_epoch in E. destruct (commit_batch _ _ _) as [[[r1 ev1] res1]|] eqn:Ec; [|done].
  assert (router_bus r' = router_bus r1 ∧ (closed r1 → closed r')) as [Eb Hcl] by (destruct (accepted res1 && _); by simplify_eq).
  destruct (ho_bus _ _ _ H) as (b0&b&H0&Hb&Hm).
  assert (bus_ok (Some (advance_epoch b))) as Hw.
  { intros ? [= <-]. eapply bus_wf_moves; [apply advance_epoch_moves|]. by eapply hub_ok_wf. }
  eapply hub_step; [exact H|exact Hr|done|..].
  - rewrite Eb. eapply commit_batch_from; [|exact Ec|]; simpl; rewrite Hb; [done|]. exists b0, (advance_epoch b). split; [done|].
    split; [done|]. eapply bus_moves_trans; [done|apply advance_epoch_moves].
  - intros Ho. apply Hcl. eapply commit_batch_closed; [|exact Ec|]; [simpl; by rewrite Hb|]. exact (ho_closed _ _ _ H Ho).
Qed.
Lemma hub_discard r : hub_ok r0 open r → hub_ok r0 false (discard_composite_region_outputs r).
Proof.
  intros H. assert (router_bus (discard_composite_region_outputs r) = router_bus r ∧ closed (discard_composite_region_outputs r)) as [Hb Hc]
    by (unfold discard_composite_region_outputs; by destruct (0 <? _)).
  apply hub_ok_close; [|done]. eapply hub_step; [exact H|apply discard_ok, H|done|rewrite Hb; apply H|done].
Qed.
Lemma hub_end_epoch r : hub_ok r0 open r → hub_ok r0 open (end_epoch r).
Proof. intros H. eapply hub_step; [exact H|apply end_epoch_ok, H|done|apply H|]. exact (ho_closed _ _ _ H). Qed.
(** An operation on the bus that bypasses the router. *)
Lemma hub_bus r b b' : hub_ok r0 open r → router_bus r = Some b → bus_moves b b' → hub_ok r0 open (r <| router_bus := Some b' |>).
Proof.
  intros H Hb Hm. pose proof (hub_ok_wf r b H Hb) as W. destruct H as [H1 H2 H3 H4 H5]. split; try done.
  - apply router_ok_bus; [done|]. by eapply bus_wf_moves.
  - rewrite Hb in H2. by eapply bus_from_moves.
Qed.
End hub.
Lemma hub_begin_region r0 r l : hub_ok r0 false r → hub_ok r0 true (begin_composite_region l r).
Proof.
  intros H. pose proof (ho_closed _ _ _ H eq_refl) as [_ Hc].
  eapply hub_step; [by eapply hub_ok_open|apply begin_composite_ok, H|exact Hc|apply H|done].
Qed.
#[export] Hint Resolve hub_publish hub_trace hub_discard hub_end_epoch hub_begin_region : topoexec.

(** ** Committed state *)
Definition committed_value (s : RuntimeStateStore) (name_space key : string) : RuntimePayloadPtr :=
  entry_current (map_at new_entry (map_at ∅ (namespaces s) name_space) key).
Definition state_value (w : World) (name_space key : string) : RuntimePayloadPtr :=
  match w_state w with Some s => committed_value s name_space key | None => None end.
Lemma update_entry_committed ns k f s ns' k' : (∀ e, entry_current (f e) = entry_current e) →
  committed_value (update_entry ns k f s) ns' k' = committed_value s ns' k'.
Proof.
  intros Hf. unfold committed_value, update_entry. simpl. destruct (decide (ns' = ns)) as [->|];
    [rewrite map_at_insert_eq|by rewrite map_at_insert_ne]. destruct (decide (k' = k)) as [->|].
  - by rewrite map_at_insert_eq, Hf.
  - by rewrite map_at_insert_ne.
Qed.
Lemma validate_write_namespaces ns k writer p s : namespaces (fst (validate_write ns k writer p s)) = namespaces s.
Proof. unfold validate_write, reject_write. repeat case_match; done. Qed.
Lemma stage_write_committed ns k writer p s ns' k' : committed_value (fst (stage_write ns k writer p s)) ns' k' = committed_value s ns' k'.
Proof.
  unfold stage_write. pose proof (validate_write_namespaces ns k writer p s) as H.
  destruct (validate_write ns k writer p s) as [s1 v]. simpl in H. destruct (negb (state_accepted v)); simpl.
  - unfold committed_value. by rewrite H.
  - change (committed_value (update_entry ns k (λ e, e <| entry_pending := p |> <| entry_writer := writer |>) s1) ns' k' = committed_value s ns' k').
    rewrite update_entry_committed by done. unfold committed_value. by rewrite H.
Qed.
Lemma read_committed ns k s : snd (read ns k s) = committed_value s ns k ∧ namespaces (fst (read ns k s)) = namespaces s.
Proof.
  unfold read, snapshot, snapshot_get, committed_value. simpl. split; [|done]. rewrite lookup_omap.
  unfold map_at at 2. by destruct (map_at ∅ (namespaces s) ns !! k).
Qed.

(** ** The world *)
Record world_ok (r0 : Router) (open routed : bool) (committed : string → string → RuntimePayloadPtr) (w : World) : Prop := {
  wo_hub : hub_ok r0 (open && routed) (w_hub w);
  wo_routed : w_routed w = routed;
  wo_state : ∀ ns k, state_value w ns k = committed ns k }.
Section world.
Context (r0 : Router) (open routed : bool) (committed : string → string → RuntimePayloadPtr).
Abbreviation ok := (world_ok r0 open routed committed).
Lemma world_ok_bus w : ok w → ∃ b, w_bus w = Some b ∧ bus_wf b.
Proof. intros [H _ _]. pose proof (ho_bus _ _ _ H) as (b0&b&_&Hb&_). exists b. split; [done|]. by eapply hub_ok_wf. Qed.
(** Changes outside the router, the flag and the committed state. *)
Lemma world_ok_same w w' : ok w → w_hub w' = w_hub w → w_routed w' = w_routed w → w_state w' = w_state w → ok w'.
Proof. intros [] Hh Hr Hs. unfold state_value in *. split; unfold state_value; rewrite ?Hh, ?Hr, ?Hs; done. Qed.
Lemma world_ok_hub w r : ok w → hub_ok r0 (open && routed) r → ok (w <| w_hub := r |>).
Proof. intros []. by split. Qed.
Lemma world_ok_open w : ok w → world_ok r0 true routed committed w.
Proof. intros [H1 H2 H3]. split; [|done..]. simpl. destruct routed; [by eapply hub_ok_open|]. by rewrite andb_false_r in H1. Qed.
Lemma world_ok_trace name a w : ok w → ok (trace_event name a w).
Proof. intros [H ? ?]. split; [by apply hub_trace|done..]. Qed.
Lemma world_ok_store_bus w b b' ev : ok w → w_bus w = Some b → bus_moves b b' → ok (store_bus (Some b') ev w).
Proof. intros [H ? ?] Hb Hm. split; [by eapply hub_bus|done..]. Qed.
Lemma world_ok_stage w s s' : ok w → w_state w = Some s → (∀ ns k, committed_value s' ns k = committed_value s ns k) →
  ok (w <| w_state := Some s' |>).
Proof. intros [H1 H2 H3] Hs Hc. split; [done|done|]. unfold state_value in *. intros ns k. simpl. rewrite Hc. specialize (H3 ns k). by rewrite Hs in H3. Qed.
Hint Resolve world_ok_trace : topoexec.

Context (clock : nat → nat → nat → Z) (cancelled : nat → bool).
(** A reading of the bus on behalf of a component. *)
Lemma view_moved {A B} b (o : option (Reading A)) (f : A → B) : state_moved b (option_map (fun r => r.1.1) o) →
  ∃ b' ev a, match o with None => None | Some (b', ev, r) => Some (Some b', ev, f r) end = Some (Some b', ev, f a) ∧ bus_moves b b'.
Proof. intros (b'&E&M). destruct o as [[[b1 ev] a]|]; [|done]. simpl in E. simplify_eq. by exists b', ev, a. Qed.
Lemma perform_ok c call w : ok w → ∃ w' a, perform clock cancelled c call w = Some (w', a) ∧ ok w'.
Proof.
  intros H. assert (ok (tick_moment w)) as H1 by (by eapply world_ok_same).
  destruct (world_ok_bus _ H1) as (b&Hb&W). unfold perform. set (w1 := tick_moment w) in *. clearbody w1. clear H.
  destruct call.
  - unfold context_publish_shared, graph_context. simpl. destruct (w_routed w1) eqn:Er.
    + destruct (router_publish _ _ _ _ _) as [r res] eqn:E. eexists _, _. split; [done|]. destruct H1 as [H1 H2 H3].
      split; [|done..]. simpl. change r with (fst (r, res)). rewrite <- E. by apply hub_publish.
    + rewrite Hb. destruct (run_bus_op_moves b (BPublishFrom (readings clock w1) (ic_component_id c +:+ "." +:+ port) payload
        (publication_metadata_for (mkContext None (Some b) (ic_metadata c) (ic_component_id c)) port) event_timestamp) W) as (b'&E&M).
      cbn [run_bus_op] in E. destruct (publish_shared_from_with_metadata _ _ _ _ _ _) as [[[b1 ev] res]|]; [|done].
      simpl in E. simplify_eq. eexists _, _. split; [done|]. destruct H1 as [H1 H2 H3]. split; [|done..]. by eapply hub_bus.
  - unfold view_read_latest_update. rewrite Hb.
    destruct (view_moved b _ read_result_payload (run_bus_op_moves b (BReadUpdate (readings clock w1) (ic_component_id c) port) W)) as (b'&ev&a&->&M).
    eexists _, _. split; [done|]. by eapply world_ok_store_bus.
  - unfold view_peek_latest. rewrite Hb.
    destruct (view_moved b _ read_result_payload (run_bus_op_moves b (BPeek (readings clock w1) (ic_component_id c) port) W)) as (b'&ev&a&->&M).
    eexists _, _. split; [done|]. by eapply world_ok_store_bus.
  - unfold view_drain. rewrite Hb.
    destruct (view_moved b _ (fmap msg_payload) (run_bus_op_moves b (BDrainPort (readings clock w1) (ic_component_id c) port max_batch) W)) as (b'&ev&a&->&M).
    eexists _, _. split; [done|]. by eapply world_ok_store_bus.
  - destruct (w_state w1) as [s|] eqn:Es; [|by eexists _, _]. pose proof (stage_write_committed name_space key writer payload s) as Hc.
    destruct (stage_write _ _ _ _ s) as [s' res]. eexists _, _. split; [done|]. by eapply world_ok_stage.
  - destruct (w_state w1) as [s|] eqn:Es; [|by eexists _, _]. pose proof (proj2 (read_committed name_space key s)) as Hc.
    destruct (read _ _ s) as [s' res]. eexists _, _. split; [done|]. eapply world_ok_stage; [done..|].
    intros ns k. unfold committed_value. simpl in Hc. by rewrite Hc.
  - destruct (w_config w1); [|by eexists _, _]. destruct (read_component_config _ _). eexists _, _. split; [done|]. by eapply world_ok_same.
  - destruct (w_config w1); [|by eexists _, _]. destruct (stage_component_config_update _ _ _ _ _). eexists _, _. split; [done|]. by eapply world_ok_same.
  - eexists _, _. split; [done|]. destruct (ic_loop c); [by eapply world_ok_same|done].
  - by eexists _, _.
Qed.
(** Reading the state answers the committed value. *)
Lemma perform_reads_committed c ns k w w' a : ok w → perform clock cancelled c (CReadState ns k) w = Some (w', Some a) → a = committed ns k.
Proof.
  intros [_ _ H]. unfold perform. specialize (H ns k). unfold state_value in H. cbn [w_state tick_moment set_field].
  change (w_state (tick_moment w)) with (w_state w). destruct (w_state w) as [s|]; [|by intros [= _ ?]].
  rewrite <- H, <- (proj1 (read_committed ns k s)). destruct (read ns k s) as [s' p]. by intros [= _ <-].
Qed.
Lemma run_prog_ok c p observed w : ok w → ∃ w' outcome n, run_prog clock cancelled c p observed w = Some (w', outcome, n) ∧ ok w'.
Proof.
  revert observed w. induction p as [status|what|call k IH]; intros observed w H; simpl; [by eexists _, _, _..|].
  destruct (perform_ok c call w H) as (w1&a&->&H1). by apply IH.
Qed.
End world.
