(* ===== verification/RunInvariant.v ===== *)
(** * RunInvariant: triples for the monad of the event runtime, and what every operation of a run keeps

    [triple P m Q]: from every state that satisfies [P] the computation [m] returns, with any fuel that is large enough,
    the same state and answer, and these satisfy [Q].  The rules follow the constructions of [EventRuntime.v]; fuel is
    joined by maxima and never appears in a proof about the runtime.

    The invariant of a run ([run_inv]) holds between all its operations: the router and the bus are well formed and
    reached from the initial ones by channel operations, the committed state is the one of the last epoch boundary,
    and the result reports no error.  The operations that end the run lead to [run_over] instead. *)

From S2P Require Export EventRuntime ProgramFacts.
Local Open Scope nat_scope.

Definition triple {A} (P : Run → Prop) (m : M A) (Q : A → Run → Prop) : Prop :=
  ∀ s, P s → ∃ n s' a, (∀ fuel, n <= fuel → m fuel s = Some (s', a)) ∧ Q a s'.

Section rules.
Context {A B : Type}.
Implicit Types (P : Run → Prop) (Q : A → Run → Prop).
Lemma triple_ret P Q a : (∀ s, P s → Q a s) → triple P (mret a) Q.
Proof. intros H s Hs. exists 0, s, a. split; [done|auto]. Qed.
Lemma triple_bind P (R : A → Run → Prop) (Q : B → Run → Prop) (m : M A) (f : A → M B) :
  triple P m R → (∀ a, triple (R a) (f a) Q) → triple P (m ≫= f) Q.
Proof.
  intros Hm Hf s Hs. destruct (Hm s Hs) as (n1&s1&a&E1&H1). destruct (Hf a s1 H1) as (n2&s2&b&E2&H2).
  exists (Nat.max n1 n2), s2, b. split; [|done]. intros fuel Hn. unfold mbind, M_bind. rewrite E1 by lia. apply E2. lia.
Qed.
Lemma triple_conseq P P' Q Q' (m : M A) : triple P' m Q' → (∀ s, P s → P' s) → (∀ a s, Q' a s → Q a s) → triple P m Q.
Proof. intros Hm HP HQ s Hs. destruct (Hm s (HP s Hs)) as (n&s'&a&E&H). exists n, s', a. auto. Qed.
Lemma triple_post P Q Q' (m : M A) : triple P m Q' → (∀ a s, Q' a s → Q a s) → triple P m Q.
Proof. intros. by eapply triple_conseq. Qed.
Lemma triple_pre P P' Q (m : M A) : triple P' m Q → (∀ s, P s → P' s) → triple P m Q.
Proof. intros. by eapply triple_conseq. Qed.
Lemma triple_prop (X : Prop) P Q (m : M A) : (X → triple P m Q) → triple (λ s, X ∧ P s) m Q.
Proof. intros H s [HX Hs]. by apply H. Qed.
Lemma triple_exists {T} (P : T → Run → Prop) Q (m : M A) : (∀ t, triple (P t) m Q) → triple (λ s, ∃ t, P t s) m Q.
Proof. intros H s [t Hs]. by apply (H t). Qed.
Lemma triple_gets P Q (f : Run → A) : (∀ s, P s → Q (f s) s) → triple P (gets f) Q.
Proof. intros H s Hs. exists 0, s, (f s). split; [done|auto]. Qed.
Lemma triple_on_world P Q (f : World → option (World * A)) :
  (∀ s, P s → ∃ w a, f (rn_world s) = Some (w, a) ∧ Q a (s <| rn_world := w |>)) → triple P (on_world f) Q.
Proof.
  intros H s Hs. destruct (H s Hs) as (w&a&E&HQ). exists 0, (s <| rn_world := w |>), a. split; [|done].
  intros fuel _. unfold on_world. by rewrite E.
Qed.
(** A computation that runs with its own fuel. *)
Lemma triple_fuel P Q (m : M A) (f : nat → M A) : (∀ s, P s → ∃ n s' a, (∀ fuel, n <= fuel → f fuel fuel s = Some (s', a)) ∧ Q a s') →
  triple P (λ fuel, f fuel fuel) Q.
Proof. done. Qed.
End rules.

Lemma triple_modify P (Q : unit → Run → Prop) f : (∀ s, P s → Q tt (f s)) → triple P (modify f) Q.
Proof. intros H s Hs. exists 0, (f s), tt. split; [done|auto]. Qed.
Lemma triple_if {A} (b : bool) P (Q : A → Run → Prop) (m1 m2 : M A) :
  (b = true → triple P m1 Q) → (b = false → triple P m2 Q) → triple P (if b then m1 else m2) Q.
Proof. destruct b; auto. Qed.
(** Loops: [I] holds while the loop goes on, [E] when the body ends it. *)
Definition goes (I E : Run → Prop) (go : bool) (s : Run) : Prop := if go then I s else E s.
Lemma triple_for_all {A} (body : A → M bool) (l : list A) (I E : Run → Prop) :
  (∀ x, x ∈ l → triple I (body x) (goes I E)) → triple I (for_all body l) (goes I E).
Proof.
  induction l as [|x l IH]; intros H; simpl; [by apply triple_ret|].
  eapply triple_bind; [apply H; left|]. intros []; [apply IH; intros; apply H; by right|by apply triple_ret].
Qed.
Lemma triple_for_each {A} (body : A → M unit) (l : list A) (I : Run → Prop) :
  (∀ x, x ∈ l → triple I (body x) (λ _, I)) → triple I (for_each body l) (λ _, I).
Proof.
  induction l as [|x l IH]; intros H; simpl; [by apply triple_ret|].
  eapply triple_bind; [apply H; left|]. intros []. apply IH. intros; apply H; by right.
Qed.

(** ** Well-founded interleaving

    The items of a batch only move forward: from unsubmitted to queued to running, through the calls of the program, to
    finished.  One item moves at a time, so a batch ends under every choice of moves. *)
Definition prog_child (p' p : Prog) : Prop := match p with Call call k => ∃ answer, p' = k answer | _ => False end.
Definition item_lt (s' s : ItemState) : Prop :=
  match s, s' with
  | Unsubmitted, Queued => True
  | Queued, Running _ _ _ _ => True
  | Running w _ _ p, Running w' _ _ p' => w' = w ∧ prog_child p' p
  | Running w _ _ p, Finished w' _ => w' = w
  | _, _ => False
  end.
Lemma item_lt_acc s : Acc item_lt s.
Proof.
  assert (∀ w o, Acc item_lt (Finished w o)) as Hf by (intros; constructor; intros []; contradiction).
  assert (∀ p w t n, Acc item_lt (Running w t n p)) as Hr.
  { induction p as [status|what|call k IH]; intros w t n; constructor; intros s' H; destruct s' as [| |w' t' n' p'|w' o];
      simpl in H; try contradiction; try apply Hf; destruct H as [_ H]; try contradiction.
    destruct H as [answer ->]. apply IH. }
  assert (Acc item_lt Queued) by (constructor; intros []; simpl; intros; try contradiction; auto).
  destruct s; auto. constructor. intros []; simpl; intros; try contradiction; auto.
Qed.
Definition items_lt (l' l : list ItemState) : Prop := ∃ i s s', l !! i = Some s ∧ l' = <[i := s']> l ∧ item_lt s' s.
Lemma items_lt_acc l : Acc items_lt l.
Proof.
  induction l as [|s l IHl]; [constructor; by intros l' (i&s&s'&H&_)|].
  revert l IHl. induction (item_lt_acc s) as [s _ IHs]. intros l Hl. induction Hl as [l Hacc IHl].
  constructor. intros l' ([|i]&s0&s'&H&->&Hs); simplify_eq/=.
  - apply IHs; [done|]. by constructor.
  - apply IHl. by exists i, s0, s'.
Qed.

Create HintDb run_logic.

(** ** The result of a run *)
(** What the result says about the composite loops. *)
Record LoopCounts := mkLoopCounts {
  lc_iterations : gmap string nat; lc_converged : gmap string nat; lc_budget_overrun : gmap string nat;
  lc_max_hit : gmap string nat; lc_error : gmap string nat; lc_cancel_requested : gmap string nat;
  lc_cancel_observed : gmap string nat; lc_discarded : gmap string nat; lc_stop : gmap string string }.
#[export] Instance eta_LoopCounts : Eta LoopCounts := fun c =>
  mkLoopCounts (lc_iterations c) (lc_converged c) (lc_budget_overrun c) (lc_max_hit c) (lc_error c) (lc_cancel_requested c)
    (lc_cancel_observed c) (lc_discarded c) (lc_stop c).
Definition loop_counts (r : SchedulerRunResult) : LoopCounts :=
  mkLoopCounts (loop_iteration_count r) (loop_converged_count r) (loop_budget_overrun_count r) (loop_max_iteration_hit_count r)
    (loop_error_count r) (loop_cancellation_requested_count r) (loop_cancellation_observed_count r)
    (loop_output_discarded_count r) (loop_stop_reason r).
Definition going (it : nat) (counts : LoopCounts) (why : SchedulerStopReason) (r : SchedulerRunResult) : Prop :=
  res_ok r = true ∧ res_errors r = [] ∧ res_stop_reason r = why ∧ res_iterations r = it ∧ loop_counts r = counts.
Definition failed (it : nat) (counts : LoopCounts) (r : SchedulerRunResult) : Prop :=
  res_ok r = false ∧ res_errors r ≠ [] ∧ res_stop_reason r = kError ∧ res_iterations r = it ∧ loop_counts r = counts.

Section facts.
Context (clock : nat → nat → nat → Z) (stop_token cancel_token : nat → bool).
Context (options : SchedulerRunOptions).
Context (r0 : Router) (routed : bool).
Abbreviation is_cancelled := (cancelled stop_token cancel_token options).

Section epoch.
Context (open : bool) (committed : string → string → RuntimePayloadPtr) (it : nat) (counts : LoopCounts) (why : SchedulerStopReason).
Abbreviation wok := (world_ok r0 open routed committed).
Definition run_inv (s : Run) : Prop := wok (rn_world s) ∧ going it counts why (rn_result s).
Definition run_over (s : Run) : Prop := world_ok r0 true routed committed (rn_world s) ∧ (failed it counts (rn_result s) ∨ going it counts kStopRequested (rn_result s)).
Definition keeps {A} (m : M A) : Prop := triple run_inv m (λ _, run_inv).
Definition steps (m : M bool) : Prop := triple run_inv m (goes run_inv run_over).

(** *** Rules *)
Lemma keeps_ret {A} (a : A) : keeps (mret a).
Proof. by apply triple_ret. Qed.
Lemma keeps_bind {A B} (m : M A) (f : A → M B) : keeps m → (∀ a, keeps (f a)) → keeps (m ≫= f).
Proof. intros. by eapply triple_bind. Qed.
Lemma keeps_if {A} (b : bool) (m1 m2 : M A) : keeps m1 → keeps m2 → keeps (if b then m1 else m2).
Proof. by destruct b. Qed.
Lemma steps_true : steps (mret true).
Proof. by apply triple_ret. Qed.
Lemma steps_bind {A} (m : M A) (f : A → M bool) : keeps m → (∀ a, steps (f a)) → steps (m ≫= f).
Proof. intros. by eapply triple_bind. Qed.
Lemma steps_if (b : bool) (m1 m2 : M bool) : steps m1 → steps m2 → steps (if b then m1 else m2).
Proof. by destruct b. Qed.
Lemma steps_seq (m : M bool) (k : M bool) : steps m → steps k → steps (m ≫= λ go, if negb go then mret false else k).
Proof. intros Hm Hk. eapply triple_bind; [exact Hm|]. intros []; [exact Hk|by apply triple_ret]. Qed.
Lemma steps_keeps (m : M bool) : triple run_inv m (λ a s, a = true ∧ run_inv s) → steps m.
Proof. intros H. eapply triple_post; [exact H|]. by intros a s [-> ?]. Qed.
Lemma steps_then {A} (m : M bool) (f : bool → M A) (Q : A → Run → Prop) : steps m → triple run_inv (f true) Q → triple run_over (f false) Q →
  triple run_inv (m ≫= f) Q.
Proof. intros Hm H1 H2. eapply triple_bind; [exact Hm|]. intros []; done. Qed.
(** A first computation that keeps the invariant. *)
Lemma keeps_then {A B} (m : M A) (f : A → M B) (Q : B → Run → Prop) : keeps m → (∀ a, triple run_inv (f a) Q) → triple run_inv (m ≫= f) Q.
Proof. intros. by eapply triple_bind. Qed.
Lemma keeps_result f : (∀ r, going it counts why r → going it counts why (f r)) → keeps (update_result f).
Proof. intros H. apply triple_modify. intros s [? ?]. split; [done|by apply H]. Qed.
Lemma keeps_world f : (∀ w, wok w → wok (f w)) → keeps (update_world f).
Proof. intros H. apply triple_modify. intros s [? ?]. split; [by apply H|done]. Qed.
Lemma keeps_gets {A} (f : Run → A) : keeps (gets f).
Proof. by apply triple_gets. Qed.
Lemma keeps_on_world {A} (f : World → option (World * A)) :
  (∀ w, wok w → ∃ w' a, f w = Some (w', a) ∧ wok w') → keeps (on_world f).
Proof.
  intros H. apply triple_on_world. intros s [Hw Hr]. destruct (H _ Hw) as (w'&a&E&Hw'). exists w', a. split; [exact E|by split].
Qed.
Lemma keeps_for_each {A} (body : A → M unit) l : (∀ x, x ∈ l → keeps (body x)) → keeps (for_each body l).
Proof. apply triple_for_each. Qed.
Lemma steps_for_all {A} (body : A → M bool) l : (∀ x, x ∈ l → steps (body x)) → steps (for_all body l).
Proof. apply triple_for_all. Qed.
Lemma keeps_match {A B} (o : option A) (m : M B) (f : A → M B) : keeps m → (∀ a, keeps (f a)) → keeps (match o with Some a => f a | None => m end).
Proof. by destruct o. Qed.
Lemma wok_tick w : wok w → wok (tick_moment w).
Proof. intros. by eapply world_ok_same. Qed.

(** *** Elementary operations *)
Lemma keeps_trace name l : keeps (trace name l).
Proof. apply keeps_world. intros. by apply world_ok_trace. Qed.
Lemma keeps_trace_map name a : keeps (trace_map name a).
Proof. apply keeps_world. intros. by apply world_ok_trace. Qed.
Lemma keeps_group lane f : keeps (update_group lane f).
Proof. by apply keeps_result. Qed.
Lemma keeps_component id f : keeps (update_component id f).
Proof. by apply keeps_result. Qed.
Lemma keeps_moment : keeps moment_passes.
Proof. apply keeps_world, wok_tick. Qed.
Lemma keeps_clock : keeps (read_clock clock).
Proof. apply keeps_bind; [apply keeps_moment|]. intros; apply keeps_gets. Qed.
Lemma keeps_cancel : keeps (cancel_requested stop_token cancel_token options).
Proof. apply keeps_bind; [apply keeps_moment|]. intros; apply keeps_gets. Qed.
Lemma keeps_stop : keeps (stop_requested stop_token cancel_token options).
Proof. apply keeps_bind; [apply keeps_moment|]. intros; apply keeps_gets. Qed.
Lemma fail_fails message : triple run_inv (fail message)
  (λ go s, go = false ∧ world_ok r0 true routed committed (rn_world s) ∧ failed it counts (rn_result s)).
Proof.
  eapply triple_bind; [|intros a; apply triple_ret; intros s H; split; [done|exact H]].
  apply triple_modify. intros s [Hw%world_ok_open (H1&H2&H3&H4&H5)]. split; [done|]. split; [done|]. split; [|by split].
  simpl. by destruct (res_errors (rn_result s)).
Qed.
Lemma fail_over message : triple run_inv (fail message) (λ go s, go = false ∧ run_over s).
Proof. eapply triple_post; [apply fail_fails|]. intros a s (?&?&?). split; [done|]. split; [done|by left]. Qed.
Lemma steps_fail message : steps (fail message).
Proof. eapply triple_post; [apply fail_over|]. by intros a s [-> ?]. Qed.
Lemma keeps_prog {A} (ctx : InvocationContext) (p : Prog) (f : (string + Status) * nat → A) :
  keeps (on_world (λ w, option_map (λ r, (r.1.1, f (r.1.2, r.2))) (run_prog clock is_cancelled ctx p 0 w))).
Proof.
  apply keeps_on_world. intros w Hw. destruct (run_prog_ok r0 open routed committed clock is_cancelled ctx p 0 w Hw) as (w'&o&n&->&Hw').
  by eexists _, _.
Qed.
Lemma keeps_perform (ctx : InvocationContext) (call : ContextCall) : keeps (on_world (perform clock is_cancelled ctx call)).
Proof. apply keeps_on_world. intros w Hw. by apply perform_ok. Qed.
Lemma keeps_in_flight id n : keeps (set_in_flight id n).
Proof. apply triple_modify. by intros s [? ?]. Qed.
End epoch.

(** Operations of the router that may open or close a region. *)
Section region.
Context (open open' : bool) (committed : string → string → RuntimePayloadPtr) (it : nat) (counts : LoopCounts) (why : SchedulerStopReason).
Abbreviation inv o := (run_inv o committed it counts why).
Lemma triple_router f : (∀ r, hub_ok r0 (open && routed) r → routed = true → hub_ok r0 (open' && routed) (f r)) →
  triple (inv open) (on_router f) (λ _, inv open').
Proof.
  intros H. apply triple_modify. intros s [[H1 H2 H3] Hr]. split; [|exact Hr]. simpl. rewrite H2. destruct routed eqn:E.
  - split; [|done..]. by apply H.
  - rewrite !andb_false_r in *. by split; rewrite ?andb_false_r.
Qed.
(** A commit of the router. *)
Lemma triple_commit (f : Router → (nat → Z) → option (Router * list PendingChannelHealthEvent * RuntimeChannelPublishResult)) :
  (∀ r clk, hub_ok r0 (open && routed) r → routed = true → ∃ r' ev res, f r clk = Some (r', ev, res) ∧ hub_ok r0 (open' && routed) r') →
  triple (inv open) (on_world (λ w, if negb (w_routed w) then Some (w, None) else
    match f (w_hub w) (readings clock w) with
    | None => None
    | Some (r, events, result) => Some (w <| w_hub := r |> <| w_events ::= λ l, l ++ events |>, Some result)
    end)) (λ _, inv open').
Proof.
  intros H. apply triple_on_world. intros s [[H1 H2 H3] Hr]. rewrite H2. unfold run_inv. destruct routed eqn:E; simpl.
  - destruct (H (w_hub (rn_world s)) (readings clock (rn_world s)) H1 eq_refl) as (r&ev&res&->&Hr'). eexists _, _. split; [done|].
    split; [by split|done].
  - rewrite !andb_false_r in *. eexists _, _. split; [done|]. split; [|exact Hr]. by split; rewrite ?andb_false_r.
Qed.
End region.
End facts.
#[export] Hint Resolve keeps_ret keeps_trace keeps_trace_map keeps_group keeps_component keeps_moment keeps_clock keeps_cancel keeps_stop
  keeps_gets keeps_perform keeps_in_flight steps_true steps_fail : run_logic.
(** Follows the structure of a computation as far as the lemmas reach. *)
Ltac walk := repeat first
  [ solve [eauto 2 with run_logic]
  | lazymatch goal with
    | |- ∀ _, _ => intro
    | |- steps _ _ _ _ _ _ _ (mbind (λ go, if negb go then mret false else _) _) => apply steps_seq
    | |- steps _ _ _ _ _ _ _ (mbind _ _) => apply steps_bind
    | |- keeps _ _ _ _ _ _ _ (mbind _ _) => apply keeps_bind
    | |- steps _ _ _ _ _ _ _ (if _ then _ else _) => apply steps_if
    | |- keeps _ _ _ _ _ _ _ (if _ then _ else _) => apply keeps_if
    | |- keeps _ _ _ _ _ _ _ (update_result _) => apply keeps_result; done
    end ].
