(* ===== verification/EventRuntimeFacts.v ===== *)
(** * EventRuntimeFacts: invocations, batches and thread pools keep the invariant of a run

    An interleaving of workers ends under every choice of moves, and gives every invocation one outcome from a worker of
    the pool; admission keeps the newest or the oldest invocations up to the capacity of the lane. *)

From S2P Require Export RunInvariant.
Local Open Scope nat_scope.

(** User code that returns a status instead of throwing. *)
Fixpoint no_throw (p : Prog) : Prop :=
  match p with Returns _ => True | Throws _ => False | Call _ k => ∀ answer, no_throw (k answer) end.

Section facts.
Context (clock : nat → nat → nat → Z) (stop_token cancel_token : nat → bool) (pick : nat → nat).
Context (options : SchedulerRunOptions) (components : list EventRuntimeComponent).
Context (r0 : Router) (routed : bool).
Abbreviation is_cancelled := (cancelled stop_token cancel_token options).

(** The hooks of a configuration transaction do not throw. *)
Definition config_hooks_return (code : ComponentCode) : Prop :=
  (∀ moment config, ∃ status, code_validate_config code moment config = inr status) ∧
  ∀ moment config, no_throw (code_apply_config code moment config).
Definition hooks_ok (c : EventRuntimeComponent) : Prop := ∀ code, rc_component c = Some code → config_hooks_return code.
(** What the runner and the validator establish for the components. *)
Definition component_ok (c : EventRuntimeComponent) : Prop :=
  is_Some (rc_component c) ∧ (message_driven (rc_spec c) → NoDup (trigger_policy_inputs_for (rc_spec c))).
Context (Hcomponents : Forall component_ok components).
Lemma component_for_id_ok id c : component_for_id components id = Some c → component_ok c ∧ rc_id c = id ∧ c ∈ components.
Proof.
  unfold component_for_id. intros [Hin Hid]%find_some. apply list_elem_of_In in Hin. rewrite Forall_forall in Hcomponents.
  split; [auto|]. split; [by apply str_eqb_eq|done].
Qed.

Section epoch.
Context (open : bool) (committed : string → string → RuntimePayloadPtr) (it : nat) (counts : LoopCounts) (why : SchedulerStopReason).
Abbreviation wok := (world_ok r0 open routed committed).
Abbreviation run_inv := (run_inv r0 routed open committed it counts why).
Abbreviation run_over := (run_over r0 routed committed it counts).
Abbreviation keeps := (keeps r0 routed open committed it counts why).
Abbreviation steps := (steps r0 routed open committed it counts why).

(** *** Invocations *)
Lemma steps_commit_or_fail prefix : steps (commit_or_fail clock prefix).
Proof.
  unfold commit_or_fail, commit_publications. apply steps_bind; [|intros [res|]; [destruct (accepted res)|]; walk].
  apply keeps_bind; [walk|]. intros _. apply triple_commit. intros r clk Hr _. by apply hub_commit_immediate.
Qed.
Hint Resolve steps_commit_or_fail : run_logic.
Lemma steps_record c i o commit : steps (record_invocation_outcome clock options c i o commit).
Proof. unfold record_invocation_outcome, note_tick. walk. Qed.
Lemma keeps_begin c i loop worker : component_ok c → keeps (begin_invocation clock c i loop worker).
Proof. intros ([code Hc]&_). unfold begin_invocation. rewrite Hc. walk. Qed.
Lemma keeps_end c i worker started observed outcome :
  keeps (end_invocation clock stop_token cancel_token options c i worker started observed outcome).
Proof. unfold end_invocation. walk. Qed.
Hint Resolve steps_record keeps_begin keeps_end : run_logic.
Lemma keeps_run_invocation c i loop : component_ok c → keeps (run_invocation clock stop_token cancel_token options c i loop).
Proof.
  intros Hc. unfold run_invocation. apply keeps_bind; [walk|]. intros [started program]. apply keeps_bind.
  - exact (keeps_prog _ _ _ _ _ _ _ _ _ _ _ (invocation_context c i loop) program (λ x, x)).
  - intros [outcome observed]. walk.
Qed.
Hint Resolve keeps_run_invocation : run_logic.
Lemma steps_sequential c loop invocations : component_ok c →
  steps (execute_sequential clock stop_token cancel_token options c loop invocations).
Proof. intros Hc. apply steps_for_all. intros i _. unfold execute_one, in_flight_of. walk. Qed.

(** *** Batches *)
Definition item_ok (workers : nat) (s : ItemState) : Prop :=
  match s with Running w _ _ _ | Finished w _ => w < workers | _ => True end.
Record batch_ok (workers : nat) (invocations : list Invocation) (items : list ItemState) : Prop := {
  bk_length : length items = length invocations;
  bk_items : Forall (item_ok workers) items;
  bk_workers i j w : runs_on w <$> items !! i = Some true → runs_on w <$> items !! j = Some true → i = j }.
Lemma elem_of_positions p items i : i ∈ positions p items ↔ ∃ s, items !! i = Some s ∧ p s = true.
Proof.
  unfold positions. rewrite list_elem_of_omap. split.
  - intros ([j s]&Hj&E). destruct (p s) eqn:Hp; [|done]. simplify_eq. apply list_elem_of_lookup in Hj as [k Hk].
    rewrite list_lookup_imap in Hk. destruct (items !! k) eqn:Hs; simplify_eq/=. eauto.
  - intros (s&Hs&Hp). exists (i, s). rewrite Hp. split; [|done]. apply list_elem_of_lookup. exists i. by rewrite list_lookup_imap, Hs.
Qed.
Lemma elem_of_pool_queue c invocations items x : x ∈ pool_queue c invocations items ↔
  ∃ inv, invocations !! item_work x = Some inv ∧ items !! item_work x = Some Queued ∧
    x = mkWorkItem (item_work x) (runtime_priority_rank (inv_priority inv)) (item_work x) (rc_id c).
Proof.
  unfold pool_queue. rewrite list_elem_of_omap. split.
  - intros (i&Hi&E). apply elem_of_positions in Hi as (s&Hs&Hq). destruct s; try done.
    destruct (invocations !! i) as [inv|] eqn:Ei; [|done]. simplify_eq/=. by exists inv.
  - intros (inv&Hi&Hs&->). simpl in *. exists (item_work x). split; [apply elem_of_positions; by eexists|]. by rewrite Hi.
Qed.
Lemma elem_of_idle workers items w : w ∈ idle_workers workers items ↔ w < workers ∧ ∀ s, s ∈ items → runs_on w s = false.
Proof.
  unfold idle_workers. rewrite list_elem_of_In, filter_In, <- list_elem_of_In, elem_of_seq, negb_true_iff.
  split; intros [H1 H2]; (split; [lia|]).
  - intros s Hs. destruct (runs_on w s) eqn:E; [|done]. rewrite <- H2. symmetry. apply existsb_exists. exists s.
    split; [by apply list_elem_of_In|done].
  - destruct (existsb _ items) eqn:E; [|done]. apply existsb_exists in E as (s&Hs%list_elem_of_In&E). by rewrite H2 in E.
Qed.
(** The moves are what the runtime and the workers can do next. *)
Lemma elem_of_moves c workers invocations items move : move ∈ moves c workers invocations items →
  match move with
  | MSubmit i => items !! i = Some Unsubmitted
  | MTake worker i => items !! i = Some Queued ∧ worker < workers ∧ (∀ s, s ∈ items → runs_on worker s = false) ∧
      ∃ inv, invocations !! i = Some inv ∧ ∀ j inv', items !! j = Some Queued → invocations !! j = Some inv' →
        runtime_priority_rank (inv_priority inv') < runtime_priority_rank (inv_priority inv) ∨
        runtime_priority_rank (inv_priority inv') = runtime_priority_rank (inv_priority inv) ∧ i <= j
  | MStep i => ∃ w t n p, items !! i = Some (Running w t n p)
  end.
Proof.
  unfold moves. rewrite !elem_of_app. intros [H|[H|H]].
  - destruct (positions _ items) as [|i l] eqn:E; [by apply elem_of_nil in H|]. apply list_elem_of_singleton in H as ->.
    assert (i ∈ i :: l) as Hi by left. rewrite <- E in Hi. apply elem_of_positions in Hi as ([]&Hs&?); done.
  - pose proof (take_best_spec (pool_queue c invocations items)) as Ht. destruct (take_best _) as [[x rest]|]; [|by apply elem_of_nil in H].
    destruct Ht as [Hp Hf]. apply list_elem_of_fmap in H as (w&->&[Hw Hidle]%elem_of_idle).
    assert (x ∈ pool_queue c invocations items) as Hx by (rewrite Hp; left).
    apply elem_of_pool_queue in Hx as (inv&Hi&Hs&Hx). split; [done|]. split; [done|]. split; [done|]. exists inv. split; [done|].
    intros j inv' Hj Hinv. rewrite Forall_forall in Hf.
    assert (mkWorkItem j (runtime_priority_rank (inv_priority inv')) j (rc_id c) ∈ pool_queue c invocations items) as Hy
      by (apply elem_of_pool_queue; by exists inv').
    apply Hf in Hy. rewrite Hx in Hy. unfold rank_le in Hy. simpl in Hy. lia.
  - apply list_elem_of_fmap in H as (i&->&Hi). apply elem_of_positions in Hi as ([]&Hs&?); try done. by eexists _, _, _, _.
Qed.
(** When no move is left, every invocation is finished. *)
Lemma moves_nil c workers invocations items : 0 < workers → batch_ok workers invocations items →
  moves c workers invocations items = [] → Forall (λ s, ∃ w o, s = Finished w o) items.
Proof.
  intros Hw [Hl _ _] Hm. unfold moves in Hm. apply app_nil in Hm as [Hs [Hq Hr]%app_nil].
  assert (∀ i w t n p, items !! i ≠ Some (Running w t n p)) as Hrun.
  { intros i w t n p Hi. apply fmap_nil_inv in Hr. assert (i ∈ ([] : list nat)) as []%elem_of_nil.
    rewrite <- Hr. apply elem_of_positions. by eexists. }
  apply Forall_lookup. intros i s Hi. destruct s as [| |w t n p|w o]; [| |by apply Hrun in Hi|eauto].
  - destruct (positions _ items) eqn:E; [|done]. assert (i ∈ ([] : list nat)) as []%elem_of_nil.
    rewrite <- E. apply elem_of_positions. by eexists.
  - destruct (lookup_lt_is_Some_2 invocations i) as [inv Hinv]; [rewrite <- Hl; by eapply lookup_lt_Some|].
    pose proof (take_best_spec (pool_queue c invocations items)) as Ht. destruct (take_best _) as [[x rest]|].
    + apply fmap_nil_inv in Hq. assert (0 ∈ ([] : list nat)) as []%elem_of_nil. rewrite <- Hq. apply elem_of_idle. split; [done|].
      intros s [j Hj]%list_elem_of_lookup. destruct s; try done. by apply Hrun in Hj.
    + assert (mkWorkItem i (runtime_priority_rank (inv_priority inv)) i (rc_id c) ∈ pool_queue c invocations items) as Hx
        by (apply elem_of_pool_queue; by exists inv). rewrite Ht in Hx. by apply elem_of_nil in Hx.
Qed.
(** Changing an item to one that runs on no worker, or on one that no other item runs on. *)
Lemma batch_ok_insert workers invocations items i s : batch_ok workers invocations items → item_ok workers s →
  (∀ j w, runs_on w s = true → runs_on w <$> items !! j = Some true → i = j) → batch_ok workers invocations (<[i := s]> items).
Proof.
  intros [Hl Hf Hu] Hs Hw. split; [by rewrite length_insert|by apply Forall_insert|]. intros j k w.
  rewrite !list_lookup_insert. intros Hj Hk. repeat case_decide; destruct_and?; simplify_eq/=; eauto.
  symmetry. eauto.
Qed.
Lemma make_move_ok c loop workers invocations items move : component_ok c → batch_ok workers invocations items →
  move ∈ moves c workers invocations items →
  triple run_inv (make_move clock stop_token cancel_token options c loop invocations move items)
    (λ items' s, run_inv s ∧ batch_ok workers invocations items' ∧ items_lt items' items).
Proof.
  intros Hc Hb Hm%elem_of_moves. unfold make_move. destruct move as [i|worker i|i].
  - apply triple_ret. intros s Hs. split; [done|]. split; [by apply batch_ok_insert|]. by exists i, Unsubmitted, Queued.
  - destruct Hm as (Hi&Hw&Hidle&inv&Hinv&_). rewrite Hinv. eapply triple_bind; [by apply keeps_begin|]. intros [started program].
    apply triple_ret. intros s Hs. split; [done|]. split; [|by eexists i, Queued, _]. apply batch_ok_insert; [done|done|].
    intros j w Hr Hj. simpl in Hr. apply Nat.eqb_eq in Hr as <-. destruct (items !! j) as [x|] eqn:Ej; [|done].
    simpl in Hj. injection Hj as Hj. by rewrite (Hidle x (list_elem_of_lookup_2 _ _ _ Ej)) in Hj.
  - destruct Hm as (w&t&n&p&Hi). destruct (lookup_lt_is_Some_2 invocations i) as [inv Hinv];
      [rewrite <- (bk_length _ _ _ Hb); by eapply lookup_lt_Some|]. rewrite Hinv, Hi.
    assert (w < workers) as Hw. { pose proof (bk_items _ _ _ Hb) as Hf. rewrite Forall_lookup in Hf. exact (Hf _ _ Hi). }
    assert (∀ t' n' p' j w', runs_on w' (Running w t' n' p') = true → runs_on w' <$> items !! j = Some true → i = j) as Hsame.
    { intros t' n' p' j w' Hr Hj. apply (bk_workers _ _ _ Hb i j w'); [rewrite Hi; simpl in *; by rewrite Hr|done]. }
    destruct p as [status|what|call k].
    1,2: eapply triple_bind; [apply keeps_end|]; intros o; apply triple_ret; intros s Hs; (split; [done|]);
      (split; [by apply batch_ok_insert|]); by eexists i, _, _.
    eapply triple_bind; [apply keeps_perform|]. intros answer. apply triple_ret. intros s Hs. split; [done|].
    split; [apply batch_ok_insert; [done|done|apply Hsame]|]. eexists i, _, _. split; [exact Hi|]. split; [done|]. split; [done|]. by exists answer.
Qed.
Lemma nth_elem {A} (l : list A) n d : l ≠ [] → n < length l → nth n l d ∈ l.
Proof. intros _ Hn. apply list_elem_of_In. by apply nth_In. Qed.
Lemma batch_loop_ok c loop workers invocations items : component_ok c → 0 < workers → batch_ok workers invocations items →
  ∀ s, run_inv s → ∃ n s' items', (∀ fuel any, n <= fuel → n <= any →
    run_batch_loop clock stop_token cancel_token pick options any c loop workers invocations items fuel s = Some (s', items')) ∧
    run_inv s' ∧ batch_ok workers invocations items' ∧ Forall (λ x, ∃ w o, x = Finished w o) items'.
Proof.
  intros Hc Hw. induction (items_lt_acc items) as [items _ IH]. intros Hb s Hs.
  destruct (moves c workers invocations items) as [|move others] eqn:Em.
  { exists 0, s, items. split; [|split; [done|split; [done|by eapply moves_nil]]]. intros fuel [|any] _ _; simpl; by rewrite Em. }
  pose proof (keeps_moment r0 routed open committed it counts why s Hs) as (n1&s1&[]&E1&H1).
  set (choice := pick (w_moment (rn_world s1)) mod S (length others)).
  assert (nth choice (move :: others) move ∈ moves c workers invocations items) as Hin.
  { rewrite Em. apply nth_elem; [done|]. simpl. pose proof (Nat.mod_upper_bound (pick (w_moment (rn_world s1))) (S (length others))). lia. }
  destruct (make_move_ok c loop workers invocations items _ Hc Hb Hin s1 H1) as (n2&s2&items2&E2&H2&Hb2&Hlt).
  destruct (IH items2 Hlt Hb2 s2 H2) as (n3&s3&items3&E3&H3).
  exists (S (n1 + n2 + n3)), s3, items3. split; [|done]. intros fuel [|any] Hf Ha; [lia|]. simpl. rewrite Em.
  unfold mbind, M_bind. rewrite E1 by lia. unfold gets. fold choice. rewrite E2 by lia. apply E3; lia.
Qed.
(** A batch returns the outcome of every invocation, each from a worker of the pool. *)
Lemma run_batch_ok c loop workers invocations : component_ok c → 0 < workers →
  triple run_inv (run_batch clock stop_token cancel_token pick options c loop workers invocations)
    (λ outcomes s, run_inv s ∧ length outcomes = length invocations ∧ Forall (λ o, fst o < workers) outcomes).
Proof.
  intros Hc Hw. unfold run_batch. eapply triple_bind with (R := λ items s, run_inv s ∧ batch_ok workers invocations items ∧
    Forall (λ x, ∃ w o, x = Finished w o) items).
  - intros s Hs. destruct (batch_loop_ok c loop workers invocations (replicate (length invocations) Unsubmitted) Hc Hw) with (s := s)
      as (n&s'&items&E&H); [|done|].
    { split; [by rewrite length_replicate|by apply Forall_replicate|]. intros i j w Hi. exfalso.
      destruct (replicate (length invocations) Unsubmitted !! i) eqn:E; [|done]. apply lookup_replicate_1 in E as [-> _]. done. }
    exists n, s', items. split; [|done]. intros fuel Hn. by apply E.
  - intros items. apply triple_ret. intros s (Hs&[Hl Hf _]&Hd). split; [done|]. rewrite <- Hl. clear Hl. unfold outcomes_of.
    induction Hd as [|x items (w&o&->) _ IH]; [done|]. apply Forall_cons in Hf as [Hx Hf]. destruct (IH Hf) as [Hl Hl2]. split; [exact (f_equal S Hl)|].
    by constructor.
Qed.

(** *** Thread pools *)
Lemma halt_over : triple run_inv (do stop_with kStopRequested; mret false) (λ go s, go = false ∧ run_over s).
Proof.
  eapply triple_bind; [|intros a; apply triple_ret; intros s H; split; [done|exact H]].
  apply triple_modify. intros s [Hw%world_ok_open (H1&H2&H3&H4&H5)]. split; [done|]. right. by split.
Qed.
Lemma steps_halt : steps (do stop_with kStopRequested; mret false).
Proof. eapply triple_post; [apply halt_over|]. by intros a s [-> ?]. Qed.
Lemma steps_outcomes c commit l : steps (record_outcomes clock options c commit l).
Proof. apply steps_for_all. intros [i [w o]] _. walk. Qed.
Lemma keeps_batch c loop workers invocations : component_ok c → 0 < workers →
  keeps (run_batch clock stop_token cancel_token pick options c loop workers invocations).
Proof. intros Hc Hw. eapply triple_post; [by apply run_batch_ok|]. by intros a s (?&_). Qed.
Hint Resolve steps_halt steps_outcomes keeps_batch : run_logic.
Lemma steps_worker c loop workers active queue commit invocations : component_ok c → 0 < workers →
  steps (execute_worker_invocations clock stop_token cancel_token pick options c loop workers active queue commit invocations).
Proof. intros Hc Hw. unfold execute_worker_invocations. walk. Qed.
Hint Resolve steps_worker : run_logic.
Lemma admit_invocations_ok c capacity ready : triple run_inv (admit_invocations c capacity ready)
  (λ admitted s, match admitted with
     | Some kept => run_inv s ∧ length kept = Nat.min capacity (length ready) ∧ kept `sublist_of` ready
     | None => run_over s ∧ capacity < length ready
     end).
Proof.
  unfold admit_invocations. destruct (Nat.leb_spec (length ready) capacity).
  { apply triple_ret. intros s Hs. split; [done|]. split; [lia|done]. }
  eapply triple_bind; [apply keeps_group|intros []]. eapply triple_bind; [|intros []].
  { apply keeps_world. intros w Hw. unfold emit_health. destruct (w_health w); [by eapply world_ok_same|done]. }
  eapply triple_bind; [apply keeps_group|intros []].
  - pose proof (admit_ready_spec (group_overflow (rc_lane c)) capacity ready) as Ha. destruct (admit_ready _ _ _) as [kept refused| |].
    + apply triple_ret. intros s Hs. destruct Ha as (_&?&_&?&_). done.
    + eapply triple_bind; [apply fail_over|]. intros go. apply triple_ret. by intros s [_ ?].
    + eapply triple_bind; [apply fail_over|]. intros go. apply triple_ret. by intros s [_ ?].
Qed.
Lemma steps_pool c loop ready : component_ok c →
  steps (execute_on_pool clock stop_token cancel_token pick options components c loop ready).
Proof.
  intros Hc. unfold execute_on_pool. destruct (lane_map components !! _) as [lane|]; [|walk]. apply steps_if; [walk|].
  apply steps_bind; [walk|]. intros []. apply steps_bind; [walk|]. intros [].
  eapply triple_bind; [apply admit_invocations_ok|]. intros [kept|].
  - assert (0 < Nat.max (worker_count_for_lane lane) 1) by lia. eapply triple_pre; [|by intros s (?&_)].
    apply steps_if; [|walk]. apply steps_for_all. intros i _. walk.
  - apply triple_ret. by intros s [? _].
Qed.

(** *** Components *)
Lemma collect_total e b clk context c : component_ok c → bus_wf b → ∃ e' b' ev invs,
  collect_ready_invocations e (Some b) clk context (rc_spec c) (rc_lane c) = Some (e', Some b', ev, invs) ∧ bus_moves b b'.
Proof.
  intros (_&Hn) W. destruct (has_timer_event_source (rc_spec c)) eqn:Ht.
  { unfold collect_ready_invocations. rewrite Ht. eexists _, _, _, _. split; [done|apply bus_moves_refl]. }
  destruct (has_message_event_source (rc_spec c)) eqn:Hm.
  - assert (message_driven (rc_spec c)) as Hd by done.
    destruct (collect_ready_spec e b clk context (rc_spec c) (rc_lane c) Hd (Hn Hd) W) as (e'&b'&ev&invs&drained&E&M&_). eauto 10.
  - unfold collect_ready_invocations. rewrite Ht, Hm. eexists _, _, _, _. split; [done|apply bus_moves_refl].
Qed.
Lemma keeps_collect c : component_ok c → keeps (collect_ready clock c).
Proof.
  intros Hc. unfold collect_ready. apply keeps_bind; [walk|]. intros time. apply keeps_bind; [walk|]. intros sequence.
  apply keeps_bind.
  - intros s [Hw Hr]. destruct (world_ok_bus _ _ _ _ _ Hw) as (b&Hb&W). rewrite Hb.
    destruct (collect_total (rn_engine s) b (clock (w_moment (rn_world s))) (mkTick sequence time time (Some 0) (Some 0)) c Hc W)
      as (e'&b'&ev&invs&E&M). eexists 0, _, _. split; [intros fuel _; by rewrite E|]. split; [|done]. simpl.
    by eapply world_ok_store_bus.
  - intros invocations. apply keeps_bind.
    + intros s [Hw Hr]. exists 0, (s <| rn_engine := fst (take_last_stats (rn_engine s) (rc_id c)) |>), (snd (take_last_stats (rn_engine s) (rc_id c))).
      split; [|by split]. intros fuel _. simpl. by destruct (take_last_stats _ _).
    + intros stats. walk.
Qed.
Lemma steps_execute loop id : steps (execute_component clock stop_token cancel_token pick options components loop id).
Proof.
  unfold execute_component. destruct (component_for_id components id) as [c|] eqn:E; [|walk].
  apply component_for_id_ok in E as (Hc&_). apply steps_bind; [by apply keeps_collect|]. intros ready. apply steps_if.
  - by apply steps_sequential.
  - by apply steps_pool.
Qed.
End epoch.
End facts.
