(* ===== verification/EventLoopFacts.v ===== *)
(** * EventLoopFacts: composite loops refine an abstract loop

    A composite loop performs between one and its maximum of iterations, ends for one of five reasons, counts exactly
    that ending, and settles the outputs of its region by policy: what the iterations staged goes to the bus and to the next
    epoch, or is discarded and counted, or is discarded and fails the run. *)

From S2P Require Export EventRuntimeFacts.
Local Open Scope nat_scope.

(** ** The abstract loop *)
Inductive LoopEnding := LConverged (why : string) | LBudgetOverrun | LMaxIterations | LCancelled | LComponentError.
Definition ending_reason (e : LoopEnding) : string :=
  match e with
  | LConverged why => why | LBudgetOverrun => "budget_overrun" | LMaxIterations => "max_iterations"
  | LCancelled => "cancelled" | LComponentError => "component_error"
  end.
Definition note_ending (region : CompiledGraphRegion) (e : LoopEnding) (c : LoopCounts) : LoopCounts :=
  let id := region_id region in
  let c := c <| lc_stop ::= <[id := ending_reason e]> |> in
  match e with
  | LConverged _ => c <| lc_converged ::= fun m => bump m id |>
  | LBudgetOverrun => c <| lc_budget_overrun ::= fun m => bump m id |>
  | LMaxIterations => if (0 <? loop_max_iterations (region_loop_policy region))%Z then c <| lc_max_hit ::= fun m => bump m id |> else c
  | LCancelled => c <| lc_cancel_requested ::= fun m => bump m id |> <| lc_cancel_observed ::= fun m => bump m id |>
  | LComponentError => c <| lc_error ::= fun m => bump m id |>
  end.
Definition note_iteration (region : CompiledGraphRegion) (c : LoopCounts) : LoopCounts :=
  c <| lc_iterations ::= fun m => bump m (region_id region) |>.
Definition note_iterations (region : CompiledGraphRegion) (k : nat) (c : LoopCounts) : LoopCounts := Nat.iter k (note_iteration region) c.
(** What becomes of the outputs. *)
Inductive Settlement := CommitOutputs | DiscardOutputs | FailRun.
#[export] Instance Settlement_dec : EqDecision Settlement.
Proof. solve_decision. Defined.
Definition settlement (policy : LoopPolicySpec) (converged : bool) : Settlement :=
  let partial := effective_partial_success_policy policy in
  if negb (loop_policy_is_solver_iteration policy) || converged then CommitOutputs
  else if str_eqb partial "fail_run" then FailRun
  else if str_eqb partial "commit_outputs" then CommitOutputs else DiscardOutputs.
Definition note_settlement (routed : bool) (region : CompiledGraphRegion) (s : Settlement) (c : LoopCounts) : LoopCounts :=
  let discarded := c <| lc_discarded ::= fun m => bump m (region_id region) |> in
  match s with CommitOutputs => c | DiscardOutputs => if routed then discarded else c | FailRun => discarded end.
Definition converges (e : LoopEnding) : bool := match e with LConverged _ => true | _ => false end.
(** Everything a loop of [k] iterations that ends with [e] adds to the counters. *)
Definition note_loop (routed : bool) (region : CompiledGraphRegion) (k : nat) (e : LoopEnding) (c : LoopCounts) : LoopCounts :=
  let c := note_ending region e (note_iterations region k c) in
  match e with LComponentError => c | _ => note_settlement routed region (settlement (region_loop_policy region) (converges e)) c end.
(** The end of a loop as [loop_iterations] answers it. *)
Definition loop_end_of (e : LoopEnding) : option LoopEnd :=
  match e with
  | LConverged why => Some (mkLoopEnd true false false why)
  | LBudgetOverrun => Some (mkLoopEnd false true false "budget_overrun")
  | LMaxIterations => Some (mkLoopEnd false false false "")
  | LCancelled => Some (mkLoopEnd false false true "cancelled")
  | LComponentError => None
  end.
Lemma note_iterations_S region k c : note_iterations region (S k) c = note_iterations region k (note_iteration region c).
Proof. apply Nat.iter_succ_r. Qed.

Section facts.
Context (clock : nat → nat → nat → Z) (stop_token cancel_token : nat → bool) (pick : nat → nat).
Context (show_double : Double → string) (show_threshold : QArith_base.Q → string).
Context (options : SchedulerRunOptions) (components : list EventRuntimeComponent).
Context (r0 : Router) (routed : bool).
Context (Hcomponents : Forall component_ok components).
Context (committed : string → string → RuntimePayloadPtr) (it : nat).
Abbreviation inv := (λ open counts why, run_inv r0 routed open committed it counts why).
Abbreviation over := (λ counts, run_over r0 routed committed it counts).

(** What follows an ending keeps the end of the run. *)
Lemma over_result counts counts' (f : SchedulerRunResult → SchedulerRunResult) :
  (∀ r, failed it counts r → failed it counts' (f r)) →
  (∀ r, going it counts kStopRequested r → going it counts' kStopRequested (f r)) →
  triple (over counts) (update_result f) (λ _, over counts').
Proof. intros H1 H2. apply triple_modify. intros s [Hw [H|H]]; (split; [done|]); [left; by apply H1|right; by apply H2]. Qed.
Lemma over_trace counts name l : triple (over counts) (trace name l) (λ _, over counts).
Proof. apply triple_modify. intros s [Hw H]. split; [|done]. by apply world_ok_trace. Qed.
Lemma count_result open why counts counts' (f : SchedulerRunResult → SchedulerRunResult) :
  (∀ r, going it counts why r → going it counts' why (f r)) →
  triple (inv open counts why) (update_result f) (λ _, inv open counts' why).
Proof. intros H. apply triple_modify. intros s [Hw Hr]. split; [done|by apply H]. Qed.

Lemma loop_body_ok region loop counts why :
  triple (inv true counts why)
    (loop_body clock stop_token cancel_token pick options components region loop)
    (goes (inv true counts why) (over (note_ending region LComponentError counts))).
Proof.
  apply triple_for_all. intros component _. eapply triple_bind; [by apply steps_execute|]. intros [].
  - by apply triple_ret.
  - eapply triple_bind.
    + apply (over_result counts (note_ending region LComponentError counts)); intros r (H1&H2&H3&H4&<-); done.
    + intros []. eapply triple_bind; [apply over_trace|]. intros []. by apply triple_ret.
Qed.
(** *** Iterations *)
Lemma halt_inv counts : triple (inv true counts kTickBound) (stop_with kStopRequested) (λ _, inv true counts kStopRequested).
Proof. apply triple_modify. intros s [Hw (H1&H2&H3&H4&H5)]. split; [done|]. by split. Qed.
(** The state in which [loop_iterations] leaves a loop that ended with [e] after [k] iterations. *)
Definition loop_left (region : CompiledGraphRegion) (k : nat) (e : LoopEnding) (counts : LoopCounts) (s : Run) : Prop :=
  let counts := note_iterations region k counts in
  match e with
  | LConverged _ | LBudgetOverrun => inv true (note_ending region e counts) kTickBound s
  | LMaxIterations => inv true counts kTickBound s
  | LCancelled => inv true (note_ending region e counts) kStopRequested s
  | LComponentError => over (note_ending region e counts) s
  end.
(** [k] is possible for a loop that has [remaining] iterations left and has performed [index]. *)
Definition loop_bounds (policy : LoopPolicySpec) (remaining index k : nat) (e : LoopEnding) : Prop :=
  k <= remaining ∧ (index = 0 → 0 < remaining → 0 < k) ∧
  match e with
  | LConverged why => why ≠ ""
  | LMaxIterations => k = remaining ∧ (0 < remaining → loop_policy_converged_after_iteration policy = false ∨ loop_convergence policy = "")
  | _ => True
  end.
Lemma loop_left_S region k e counts s : loop_left region k e (note_iteration region counts) s → loop_left region (S k) e counts s.
Proof. unfold loop_left. by rewrite note_iterations_S. Qed.
Lemma triple_end {A} (P : Run → Prop) (Q : A → Run → Prop) (a : A) (m : M unit) : triple P m (λ _, Q a) → triple P (m ≫= λ _, mret a) Q.
Proof. intros H. eapply triple_bind; [exact H|]. intros []. by apply triple_ret. Qed.

Abbreviation iterations := (loop_iterations clock stop_token cancel_token pick show_double show_threshold options components).
Lemma loop_iterations_ok region started remaining index counts :
  triple (inv true counts kTickBound) (iterations region started remaining index)
    (λ ended s, ∃ k e, ended = loop_end_of e ∧ loop_bounds (region_loop_policy region) remaining index k e ∧ loop_left region k e counts s).
Proof.
  revert index counts. induction remaining as [|remaining IH]; intros index counts.
  { apply triple_ret. intros s Hs. exists 0, LMaxIterations. split; [done|]. split; [|done]. split; [lia|]. split; [lia|]. split; [done|lia]. }
  cbn [loop_iterations]. set (id := region_id region). set (policy := region_loop_policy region).
  eapply triple_bind with (R := λ cancel s, (cancel = true → index ≠ 0) ∧ inv true counts kTickBound s).
  { destruct (Nat.ltb_spec 0 index); [|by apply triple_ret]. eapply triple_post; [apply keeps_cancel|]. intros a s Hs. split; [lia|exact Hs]. }
  intros [].
  - apply triple_prop. intros Hi. specialize (Hi eq_refl).
    eapply triple_bind; [apply (halt_inv counts)|intros []].
    eapply triple_bind; [apply (count_result _ _ counts (note_ending region LCancelled counts)); by intros r (H1&H2&H3&H4&<-)|intros []].
    apply keeps_then; [apply keeps_trace|intros []]. apply triple_end. eapply triple_post; [apply keeps_trace|].
    intros [] s Hs. exists 0, LCancelled. split; [done|]. split; [|exact Hs]. split; [lia|]. by split.
  - apply triple_prop. intros _.
    apply keeps_then; [by apply keeps_world; intros w Hw; eapply world_ok_same|intros []].
    apply keeps_then; [apply keeps_trace|intros []].
    eapply triple_bind; [apply (count_result _ _ counts (note_iteration region counts)); by intros r (H1&H2&H3&H4&<-)|intros []].
    eapply triple_bind; [apply loop_body_ok|]. intros [];
      [|by apply triple_ret; intros s Hs; exists 1, LComponentError; (split; [done|]); (split; [split; [lia|split; [lia|done]]|])].
    cbn [goes negb]. apply keeps_then; [apply keeps_gets|]. intros snapshot.
    apply keeps_then; [apply keeps_match; [walk|intros residual; walk]|intros []].
    apply keeps_then; [apply keeps_trace_map|intros []]. apply keeps_then; [apply keeps_trace_map|intros []].
    destruct (str_empty (convergence_reason policy snapshot)) eqn:Ec; cbn [negb].
    + apply keeps_then; [walk|]. intros late. apply triple_if; intros _.
      * eapply triple_bind; [apply (count_result _ _ (note_iteration region counts) (note_ending region LBudgetOverrun (note_iteration region counts)));
          by intros r (H1&H2&H3&H4&<-)|intros []].
        apply triple_end. eapply triple_post; [apply keeps_trace_map|]. intros [] s Hs. exists 1, LBudgetOverrun.
        split; [done|]. split; [|exact Hs]. split; [lia|]. by split; [lia|].
      * eapply triple_post; [apply IH|]. intros ended s (k&e&->&(B1&B2&B3)&Hs). exists (S k), e. split; [done|].
        split; [|by apply loop_left_S]. split; [lia|]. split; [lia|].
        destruct e; [done|done| |done|done]. destruct B3 as [-> _]. split; [done|]. intros _. 
        unfold convergence_reason in Ec. destruct (loop_policy_converged_after_iteration policy); [right; by apply str_empty_true|by left].
    + eapply triple_bind; [apply (count_result _ _ (note_iteration region counts)
        (note_ending region (LConverged (convergence_reason policy snapshot)) (note_iteration region counts))); by intros r (H1&H2&H3&H4&<-)|intros []].
      apply triple_end. eapply triple_post; [apply keeps_trace_map|]. intros [] s Hs. exists 1, (LConverged (convergence_reason policy snapshot)).
      split; [done|]. split; [|exact Hs]. split; [lia|]. split; [lia|]. intros E. by rewrite E in Ec.
Qed.

(** *** The outputs of the region *)
Definition failure (counts : LoopCounts) (s : Run) : Prop := world_ok r0 true routed committed (rn_world s) ∧ failed it counts (rn_result s).
Lemma region_discard_ok counts why : triple (inv true counts why) (on_router discard_composite_region_outputs) (λ _, inv false counts why).
Proof. apply triple_router. intros r Hr _. by eapply hub_discard. Qed.
Lemma unrouted counts why s : routed = false → inv true counts why s → inv false counts why s.
Proof. intros E [[H1 H2 H3] Hr]. split; [|exact Hr]. rewrite E in *. by split. Qed.
Lemma region_commit_ok counts why : triple (inv true counts why) (commit_region_outputs clock) (λ _, inv false counts why).
Proof.
  apply keeps_then; [walk|]. intros []. apply triple_commit. intros r clk Hr _. by eapply hub_commit_composite.
Qed.
Lemma count_discarded_ok region counts why :
  triple (inv false counts why) (update_result (λ r, r <| loop_output_discarded_count ::= λ m, bump m (region_id region) |>))
    (λ _, inv false (counts <| lc_discarded ::= λ m, bump m (region_id region) |>) why).
Proof. apply count_result. by intros r (H1&H2&H3&H4&<-). Qed.
Lemma finish_region_ok region e counts why :
  let how := settlement (region_loop_policy region) (end_converged e) in
  let counts' := note_settlement routed region how counts in
  triple (inv true counts why) (finish_region clock region e)
    (λ go s, if go then how ≠ FailRun ∧ end_cancelled e = false ∧ inv false counts' why s
             else how ≠ FailRun ∧ end_cancelled e = true ∧ inv false counts' why s ∨ failure counts' s).
Proof.
  intros how counts'. unfold finish_region. set (policy := region_loop_policy region) in *.
  set (partial := effective_partial_success_policy policy). set (stop := loop_policy_is_solver_iteration policy && negb (end_converged e)).
  assert (how = if negb stop then CommitOutputs else if str_eqb partial "fail_run" then FailRun
    else if str_eqb partial "commit_outputs" then CommitOutputs else DiscardOutputs) as Hh.
  { unfold how, settlement, stop. by destruct (loop_policy_is_solver_iteration policy), (end_converged e). }
  clearbody how stop. destruct (stop && str_eqb partial "fail_run") eqn:E1.
  - apply andb_true_iff in E1 as [-> E1]. simpl in Hh. rewrite E1 in Hh.
    eapply triple_bind; [apply region_discard_ok|]. intros []. eapply triple_bind; [apply count_discarded_ok|]. intros [].
    unfold counts'. rewrite Hh. eapply triple_post; [apply fail_fails|]. intros go s [-> Hs]. by right.
  - assert (negb stop || str_eqb partial "commit_outputs" = bool_decide (how = CommitOutputs) ∧ how ≠ FailRun) as [-> Hf].
    { rewrite Hh. destruct stop; simpl in *; [rewrite E1|done]. by destruct (str_eqb partial "commit_outputs"). }
    eapply triple_bind with (R := λ (settled : bool) s, if settled then inv false counts' why s else failure counts' s).
    + case_bool_decide as E2.
      * unfold counts'. rewrite E2. eapply triple_bind; [apply region_commit_ok|]. intros [res|]; [|by apply triple_ret].
        destruct (accepted res); [by apply triple_ret|]. eapply triple_post; [apply fail_fails|]. by intros go s [-> Hs].
      * assert (how = DiscardOutputs) as Hd by (by destruct how). unfold counts'. rewrite Hd. simpl.
        eapply triple_bind; [apply (triple_gets _ (λ b s, b = routed ∧ inv true counts why s)); intros s Hs; split; [apply Hs|exact Hs]|].
        intros b. apply triple_prop. intros ->. apply triple_if; intros Er.
        { apply triple_ret. intros s Hs. apply negb_true_iff in Er. apply unrouted in Hs; [|exact Er]. destruct routed; [done|exact Hs]. }
        apply negb_false_iff in Er. assert (∀ x y : LoopCounts, (if routed then x else y) = x) as -> by (intros; by rewrite Er). eapply triple_bind; [apply region_discard_ok|]. intros [].
        eapply triple_bind; [apply count_discarded_ok|]. intros []. apply triple_end. apply keeps_trace.
    + intros [].
      * apply triple_ret. intros s Hs. simpl. destruct (end_cancelled e); simpl; [by left|done].
      * apply triple_ret. intros s Hs. by right.
Qed.

(** *** The region *)
(** The iterations a policy allows: at least one. *)
Definition allowed_iterations (region : CompiledGraphRegion) : nat := Z.to_nat (Z.max 1 (loop_max_iterations (region_loop_policy region))).
Lemma loop_max_iterations_allowed region : loop_max_iterations_of region = allowed_iterations region.
Proof. unfold loop_max_iterations_of, allowed_iterations. destruct (Z.ltb_spec 0 (loop_max_iterations (region_loop_policy region))); lia. Qed.
(** A loop that ran [k] iterations and ended with [e] leaves the run so. *)
Definition loop_ended (region : CompiledGraphRegion) (counts : LoopCounts) (k : nat) (e : LoopEnding) (go : bool) (s : Run) : Prop :=
  let how := settlement (region_loop_policy region) (converges e) in
  let counts' := note_loop routed region k e counts in
  if go then how ≠ FailRun ∧ e ≠ LCancelled ∧ e ≠ LComponentError ∧ inv false counts' kTickBound s
  else match e with
       | LComponentError => over counts' s
       | LCancelled => how ≠ FailRun ∧ inv false counts' kStopRequested s ∨ failure counts' s
       | _ => failure counts' s
       end.
Definition loop_possible (region : CompiledGraphRegion) (k : nat) (e : LoopEnding) : Prop :=
  0 < k <= allowed_iterations region ∧ loop_bounds (region_loop_policy region) (allowed_iterations region) 0 k e.
(** A region in two parts: its iterations, and what becomes of their outputs. *)
Definition loop_performed (region : CompiledGraphRegion) : M (option LoopEnd) :=
  started ← read_clock clock;
  do on_router (begin_composite_region (region_components region));
  iterations region started (loop_max_iterations_of region) 0.
Definition loop_settled (region : CompiledGraphRegion) (ended : option LoopEnd) : M bool :=
  let id := region_id region in
  match ended with
  | None => mret false
  | Some e =>
      if end_converged e || end_budget_overrun e || end_cancelled e then finish_region clock region e else
      let e := mkLoopEnd false false false "max_iterations" in
      do stop_loop region "max_iterations" (fun r => r);
      do (if (0 <? loop_max_iterations (region_loop_policy region))%Z then
            do update_result (fun r => r <| loop_max_iteration_hit_count ::= fun m => bump m id |>);
            trace "loop_max_iterations_hit" [("loop_id", id); ("iteration", to_string_nat (loop_max_iterations_of region))]
          else mret tt);
      finish_region clock region e
  end.
Lemma run_loop_region_split region fuel s :
  run_loop_region clock stop_token cancel_token pick show_double show_threshold options components region fuel s =
  (loop_performed region ≫= loop_settled region) fuel s.
Proof.
  unfold run_loop_region, loop_performed, mbind, M_bind. destruct (read_clock clock fuel s) as [[s1 started]|]; [|done].
  destruct (on_router _ fuel s1) as [[s2 []]|]; [|done]. by destruct (iterations region started _ 0 fuel s2) as [[s3 ended]|].
Qed.
Lemma loop_performed_ok region counts :
  triple (inv false counts kTickBound) (loop_performed region)
    (λ ended s, ∃ k e, ended = loop_end_of e ∧ loop_possible region k e ∧ loop_left region k e counts s).
Proof.
  unfold loop_performed. rewrite loop_max_iterations_allowed. apply keeps_then; [apply keeps_clock|]. intros started.
  eapply triple_bind; [apply (triple_router _ _ false true); intros r Hr Er; rewrite Er in *; by apply hub_begin_region|]. intros [].
  eapply triple_post; [apply loop_iterations_ok|]. intros ended s (k&e&He&B&Hs). exists k, e. split; [done|]. split; [|done].
  pose proof B as (B1&B2&_). assert (0 < allowed_iterations region) as Hmax by (unfold allowed_iterations; lia).
  specialize (B2 eq_refl Hmax). by split; [lia|].
Qed.
Lemma loop_settled_ok region counts k e :
  triple (loop_left region k e counts) (loop_settled region (loop_end_of e)) (loop_ended region counts k e).
Proof.
  unfold loop_ended, loop_left, loop_settled. destruct e as [why| | | |]; cbn [loop_end_of orb end_converged end_budget_overrun end_cancelled].
  - eapply triple_post; [apply finish_region_ok|]. intros go s Hs. destruct go; [by destruct Hs as (?&_&?)|]. by destruct Hs as [(_&?&_)|Hs].
  - eapply triple_post; [apply finish_region_ok|]. intros go s Hs. destruct go; [by destruct Hs as (?&_&?)|]. by destruct Hs as [(_&?&_)|Hs].
  - set (counts1 := note_iterations region k counts). set (counts2 := counts1 <| lc_stop ::= <[region_id region := "max_iterations"]> |>).
    eapply triple_bind; [apply (count_result _ _ counts1 counts2); by intros r (H1&H2&H3&H4&<-)|intros []].
    eapply triple_bind with (R := λ _, inv true (note_ending region LMaxIterations counts1) kTickBound).
    { unfold note_ending. fold counts2. destruct (0 <? _)%Z; [|by apply triple_ret].
      eapply triple_bind; [apply (count_result _ _ counts2 (counts2 <| lc_max_hit ::= λ m, bump m (region_id region) |>)); by intros r (H1&H2&H3&H4&<-)|].
      intros []. apply keeps_trace. }
    intros []. eapply triple_post; [apply finish_region_ok|]. intros go s Hs.
    destruct go; [by destruct Hs as (?&_&?)|]. by destruct Hs as [(_&?&_)|Hs].
  - eapply triple_post; [apply finish_region_ok|]. intros go s Hs.
    destruct go; [by destruct Hs as (_&?&_)|]. destruct Hs as [(?&_&Hs)|Hs]; [by left|by right].
  - apply triple_ret. intros s Hs. exact Hs.
Qed.

(** *** What became of the outputs *)
(** The publications that a region staged, those for this epoch and those for the next. *)
Definition staged_now (r : Router) : list RuntimeChannelPublication := st_publication <$> List.filter is_immediate (composite_external_stage r).
Definition staged_later (r : Router) : list RuntimeChannelPublication :=
  st_publication <$> List.filter (λ s, negb (is_immediate s)) (composite_external_stage r).
(** The router before and after the outputs of a region are settled; [ok]: the bus took what it was given. *)
Definition outputs_settled (how : Settlement) (r r' : Router) (ok : bool) : Prop :=
  composite_external_stage r' = [] ∧ active_composite_components r' = ∅ ∧ deferred_ready r' = deferred_ready r ∧
  match how with
  | CommitOutputs =>
      deferred_next_epoch r' = deferred_next_epoch r ++ staged_later r ∧
      composite_discarded_count (router_metrics r') = composite_discarded_count (router_metrics r) ∧
      committed_count (router_metrics r') = committed_count (router_metrics r) + (if ok then length (staged_now r) else 0) ∧
      (staged_now r = [] ∧ router_bus r' = router_bus r ∧ ok = true ∨
       ∃ bus readings bus' ev result, router_bus r = Some bus ∧ publish_batch bus readings (staged_now r) = Some (bus', ev, result) ∧
         router_bus r' = Some bus' ∧ ok = accepted result)
  | DiscardOutputs | FailRun =>
      ok = true ∧ deferred_next_epoch r' = deferred_next_epoch r ∧ router_bus r' = router_bus r ∧
      committed_count (router_metrics r') = committed_count (router_metrics r) ∧
      composite_discarded_count (router_metrics r') = composite_discarded_count (router_metrics r) + length (composite_external_stage r)
  end.
(** Everything of a router but its trace. *)
Definition same_outputs (r r' : Router) : Prop := ∃ events, r' = r <| router_trace := events |>.
Lemma same_outputs_refl r : same_outputs r r.
Proof. exists (router_trace r). by destruct r. Qed.
Lemma same_outputs_trans r1 r2 r3 : same_outputs r1 r2 → same_outputs r2 r3 → same_outputs r1 r3.
Proof. intros [t1 ->] [t2 ->]. by exists t2. Qed.
Lemma settled_same how r1 r2 r3 r4 ok : same_outputs r1 r2 → same_outputs r3 r4 → outputs_settled how r2 r3 ok → outputs_settled how r1 r4 ok.
Proof. intros [t1 ->] [t2 ->]. by destruct how. Qed.
Lemma commit_settles r readings r' ev result : bus_ok (router_bus r) → is_Some (router_bus r) →
  commit_composite_region_outputs r readings = Some (r', ev, result) → outputs_settled CommitOutputs r r' (accepted result).
Proof.
  intros Hb [bus Hbus]. unfold commit_composite_region_outputs. fold (staged_now r) (staged_later r).
  set (r1 := (r <| deferred_next_epoch ::= _ |> <| composite_external_stage := [] |> <| active_composite_components := ∅ |>)).
  intros E. destruct (decide (staged_now r = [])) as [Hn|Hn].
  - unfold commit_batch in E. rewrite Hn in E. cbn in E. injection E as <- <- <-. unfold outputs_settled. rewrite Hn.
    split_and!; try done; first [by left|simpl; lia].
  - destruct (commit_batch_spec r1 readings (staged_now r) Hb) as (r2&ev1&res1&E1&(S1&S2&S3&S4&S5&S6)&_&M&_&Hc&Hp). simplify_eq.
    change (router_bus r1) with (router_bus r) in Hp. rewrite Hbus in Hp. unfold outputs_settled. rewrite S2, S3, S5, S6, Hc.
    split_and!; try done; [apply M|]. right. destruct Hp as [[? _]|(bus'&ev'&Hp&Hp')]; [done|]. by exists bus, readings, bus', ev', result.
Qed.
Lemma discard_settles how r : how ≠ CommitOutputs → outputs_settled how r (discard_composite_region_outputs r) true.
Proof. intros Hh. unfold discard_composite_region_outputs. by destruct (0 <? _), how. Qed.

(** Steps of the run that leave the router alone but for its trace. *)
Definition leaves_outputs {A} (m : M A) : Prop := ∀ fuel s s' a, m fuel s = Some (s', a) →
  same_outputs (w_hub (rn_world s)) (w_hub (rn_world s')) ∧ w_routed (rn_world s') = w_routed (rn_world s).
Lemma leaves_ret {A} (a : A) : leaves_outputs (mret a).
Proof. intros fuel s s' b [= <- _]. split; [apply same_outputs_refl|done]. Qed.
Lemma leaves_bind {A B} (m : M A) (f : A → M B) : leaves_outputs m → (∀ a, leaves_outputs (f a)) → leaves_outputs (m ≫= f).
Proof.
  intros Hm Hf fuel s s' b. unfold mbind, M_bind. destruct (m fuel s) as [[s1 a]|] eqn:E; [|done]. intros E2.
  destruct (Hm _ _ _ _ E) as [H1 H2], (Hf a _ _ _ _ E2) as [H3 H4]. split; [by eapply same_outputs_trans|by rewrite H4].
Qed.
Lemma leaves_result f : leaves_outputs (update_result f).
Proof. intros fuel s s' b [= <- _]. split; [apply same_outputs_refl|done]. Qed.
Lemma leaves_trace name l : leaves_outputs (trace name l).
Proof. intros fuel s s' b [= <- _]. split; [|done]. by eexists. Qed.
Lemma leaves_fail message : leaves_outputs (fail message).
Proof. apply leaves_bind; [apply leaves_result|intros; apply leaves_ret]. Qed.
Lemma bind_some {A B} (m : M A) (f : A → M B) fuel s r : (m ≫= f) fuel s = Some r → ∃ s1 a, m fuel s = Some (s1, a) ∧ f a fuel s1 = Some r.
Proof. unfold mbind, M_bind. destruct (m fuel s) as [[s1 a]|]; [|done]. intros H. by exists s1, a. Qed.
Lemma commit_finishes (e : LoopEnd) (s s' : Run) fuel go (m : option RuntimeChannelPublishResult → M bool) :
  w_routed (rn_world s) = true → bus_ok (router_bus (w_hub (rn_world s))) → is_Some (router_bus (w_hub (rn_world s))) →
  (settled ← (commit ← commit_region_outputs clock; m commit); mret (settled && negb (end_cancelled e))) fuel s = Some (s', go) →
  (∀ s fuel s' settled commit, m commit fuel s = Some (s', settled) →
     settled = (match commit with Some result => accepted result | None => true end) ∧ same_outputs (w_hub (rn_world s)) (w_hub (rn_world s'))) →
  ∃ ok, outputs_settled CommitOutputs (w_hub (rn_world s)) (w_hub (rn_world s')) ok ∧ go = bool_decide (CommitOutputs ≠ FailRun) && ok && negb (end_cancelled e).
Proof.
  intros Hr Hb Hbus H Hm. apply bind_some in H as (s1&settled&H&[= <- <-]). apply bind_some in H as (s2&commit&H&Hs).
  apply bind_some in H as (s3&[]&[= <-]&H). unfold on_world in H. cbn -[commit_composite_region_outputs] in H. rewrite Hr in H. cbn [negb] in H.
  destruct (commit_composite_region_outputs _ _) as [[[r ev] result]|] eqn:E; [|done]. injection H as <- <-. apply Hm in Hs as [-> Hs].
  exists (accepted result). split; [|done]. eapply settled_same; [apply same_outputs_refl|exact Hs|]. by eapply commit_settles.
Qed.
Ltac settle_commit :=
  let H := fresh in let E := fresh in intros H; eapply commit_finishes; [done|done|done|exact H|];
  intros ? ? ? ? [?result|] E; [destruct (accepted result)|]; injection E as <- <-; (split; [done|apply same_outputs_refl]).
(** [how] and whether the run was cancelled decide whether it goes on, unless the bus refuses the outputs. *)
Lemma finish_settles region e fuel s s' go : w_routed (rn_world s) = true → bus_ok (router_bus (w_hub (rn_world s))) →
  is_Some (router_bus (w_hub (rn_world s))) → finish_region clock region e fuel s = Some (s', go) →
  let how := settlement (region_loop_policy region) (end_converged e) in
  ∃ ok, outputs_settled how (w_hub (rn_world s)) (w_hub (rn_world s')) ok ∧ go = bool_decide (how ≠ FailRun) && ok && negb (end_cancelled e).
Proof.
  intros Hr Hb Hbus. unfold finish_region. set (policy := region_loop_policy region).
  set (partial := effective_partial_success_policy policy). unfold settlement. fold policy partial.
  set (stop := loop_policy_is_solver_iteration policy && negb (end_converged e)).
  assert (negb (loop_policy_is_solver_iteration policy) || end_converged e = negb stop) as Hs
    by (unfold stop; by destruct (loop_policy_is_solver_iteration policy), (end_converged e)).
  rewrite Hs. clearbody stop. cbv zeta. destruct stop; cbn [andb negb orb].
  - destruct (str_eqb partial "fail_run"); cbn [orb].
    { intros H. apply bind_some in H as (s1&[]&[= <-]&H). apply bind_some in H as (s2&[]&[= <-]&H). injection H as <- <-.
      exists true. split; [|done]. simpl. rewrite Hr. by apply discard_settles. }
    destruct (str_eqb partial "commit_outputs"); cbn [orb]; [settle_commit|].
    intros H. apply bind_some in H as (s1&settled&H&[= <- <-]). apply bind_some in H as (s2&routed'&[= <- <-]&H). rewrite Hr in H. cbn [negb] in H.
    apply bind_some in H as (s3&[]&[= <-]&H). apply bind_some in H as (s4&[]&[= <-]&H). apply bind_some in H as (s5&[]&[= <-]&H). injection H as <- <-.
    exists true. split; [|done]. eapply settled_same; [apply same_outputs_refl| |apply (discard_settles DiscardOutputs); done]. simpl. rewrite Hr. by eexists.
  - settle_commit.
Qed.
Definition halts (e : LoopEnding) : bool := match e with LCancelled => true | _ => false end.
(** What a loop that ended with [e] in [s] did with its outputs when the region is closed in [s']. *)
Definition region_outputs (region : CompiledGraphRegion) (e : LoopEnding) (s s' : Run) (go : bool) : Prop :=
  let how := settlement (region_loop_policy region) (converges e) in
  match e with
  | LComponentError => s' = s ∧ go = false
  | _ => w_routed (rn_world s) = true → ∃ ok, outputs_settled how (w_hub (rn_world s)) (w_hub (rn_world s')) ok ∧
      go = bool_decide (how ≠ FailRun) && ok && negb (halts e)
  end.
Lemma loop_settled_outputs region k e counts fuel s s' go : loop_left region k e counts s →
  loop_settled region (loop_end_of e) fuel s = Some (s', go) → region_outputs region e s s' go.
Proof.
  intros Hs E. assert (∃ open, world_ok r0 open routed committed (rn_world s)) as [open [Hub _ _]].
  { exists true. unfold loop_left in Hs. by destruct e; apply Hs. }
  assert (bus_ok (router_bus (w_hub (rn_world s))) ∧ is_Some (router_bus (w_hub (rn_world s)))) as [Hb Hbus].
  { destruct (ho_bus _ _ _ Hub) as (b0&b&_&Hb&_). split; [|by eexists]. intros b' Hb'. by eapply hub_ok_wf. }
  unfold region_outputs, loop_settled in *. destruct e as [why| | | |]; cbn [loop_end_of orb end_converged end_budget_overrun end_cancelled] in E.
  - intros Hr. apply (finish_settles _ _ _ _ _ _ Hr Hb Hbus E).
  - intros Hr. apply (finish_settles _ _ _ _ _ _ Hr Hb Hbus E).
  - intros Hr. apply bind_some in E as (s1&[]&[= <-]&E). apply bind_some in E as (s2&[]&E1&E).
    assert (leaves_outputs (A := unit) (if (0 <? loop_max_iterations (region_loop_policy region))%Z then
        do update_result (fun r => r <| loop_max_iteration_hit_count ::= fun m => bump m (region_id region) |>);
        trace "loop_max_iterations_hit" [("loop_id", region_id region); ("iteration", to_string_nat (loop_max_iterations_of region))]
      else mret tt)) as Hl by (destruct (0 <? _)%Z; [apply leaves_bind; [apply leaves_result|intros; apply leaves_trace]|apply leaves_ret]).
    apply Hl in E1 as [H1 H2]. simpl in H1, H2. destruct H1 as [events H1].
    assert (router_bus (w_hub (rn_world s2)) = router_bus (w_hub (rn_world s))) as Hsame by (by rewrite H1).
    apply finish_settles in E as (ok&Ho&Hgo); [|rewrite H2; exact Hr|by rewrite Hsame|by rewrite Hsame].
    exists ok. split; [|exact Hgo]. eapply settled_same; [by exists events|apply same_outputs_refl|exact Ho].
  - intros Hr. apply (finish_settles _ _ _ _ _ _ Hr Hb Hbus E).
  - by injection E as <- <-.
Qed.
(** A loop region: the iterations are performed, then the outputs are settled. *)
Definition loop_result (region : CompiledGraphRegion) (counts : LoopCounts) (s s' : Run) (go : bool) : Prop :=
  ∃ n k e s1, (∀ fuel, n <= fuel → loop_performed region fuel s = Some (s1, loop_end_of e)) ∧
    loop_possible region k e ∧ loop_ended region counts k e go s' ∧ region_outputs region e s1 s' go.
Lemma run_loop_region_ok region counts s : inv false counts kTickBound s →
  ∃ n s' go, (∀ fuel, n <= fuel →
    run_loop_region clock stop_token cancel_token pick show_double show_threshold options components region fuel s = Some (s', go)) ∧
    loop_result region counts s s' go.
Proof.
  intros Hs. destruct (loop_performed_ok region counts s Hs) as (n1&s1&ended&E1&k&e&->&B&Hl).
  destruct (loop_settled_ok region counts k e s1 Hl) as (n2&s'&go&E2&He). exists (Nat.max n1 n2), s', go. split.
  - intros fuel Hf. rewrite run_loop_region_split. unfold mbind, M_bind. rewrite E1 by lia. apply E2. lia.
  - exists n1, k, e, s1. split; [exact E1|]. split; [exact B|]. split; [exact He|].
    eapply (loop_settled_outputs region k e counts n2); [exact Hl|]. by apply E2.
Qed.
End facts.
