(* ===== verification/EventRunFacts.v ===== *)
(** * EventRunFacts: every run of a graph ends, keeps its objects well formed and reports consistently

    Configuration transactions, epochs, fixed-rate waits and the iterations of a run; then the properties of runs. *)

From S2P Require Export EventLoopFacts.
Local Open Scope nat_scope.

(** User code that returns never leaves the run by an exception. *)
Lemma run_prog_returns clock cancelled ctx p n w w' outcome k : no_throw p →
  run_prog clock cancelled ctx p n w = Some (w', outcome, k) → ∃ status, outcome = inr status.
Proof.
  revert n w. induction p as [status|what|call kont IH]; intros n w Hp; simpl; [intros [= _ <- _]; eauto|done|].
  destruct (perform _ _ _ _ w) as [[w1 a]|]; [|done]. apply IH, Hp.
Qed.

Section facts.
Context (clock : nat → nat → nat → Z) (stop_token cancel_token : nat → bool) (pick : nat → nat)
  (hz_period : QArith_base.Q → Z) (show_double : Double → string) (show_threshold : QArith_base.Q → string) (show_ms : Z → string).
Context (options : SchedulerRunOptions) (components : list EventRuntimeComponent) (compiled_plan : GraphCompiledPlan).
Context (r0 : Router) (routed : bool).
Context (Hcomponents : Forall component_ok components) (Hhooks : Forall hooks_ok components).

(** *** Computations that leave the result alone *)
Lemma component_hooks id c : component_for_id components id = Some c → hooks_ok c.
Proof. intros (_&_&Hin)%(component_for_id_ok components Hcomponents). rewrite Forall_forall in Hhooks. by apply Hhooks. Qed.

Section frame.
Context (open : bool) (committed : string → string → RuntimePayloadPtr).
Definition frames {A} (m : M A) : Prop := ∀ X : SchedulerRunResult → Prop,
  triple (λ s, world_ok r0 open routed committed (rn_world s) ∧ X (rn_result s)) m
    (λ _ s, world_ok r0 open routed committed (rn_world s) ∧ X (rn_result s)).
Lemma frames_bind {A B} (m : M A) (f : A → M B) : frames m → (∀ a, frames (f a)) → frames (m ≫= f).
Proof. intros Hm Hf X. eapply triple_bind; [apply Hm|]. intros a. apply Hf. Qed.
Lemma frames_gets {A} (f : Run → A) : frames (gets f).
Proof. intros X. by apply triple_gets. Qed.
Lemma frames_ret {A} (a : A) : frames (mret a).
Proof. intros X. by apply triple_ret. Qed.
Lemma frames_world f : (∀ w, world_ok r0 open routed committed w → world_ok r0 open routed committed (f w)) → frames (update_world f).
Proof. intros H X. apply triple_modify. intros s [? ?]. split; [by apply H|done]. Qed.
Lemma frames_trace name l : frames (trace name l).
Proof. apply frames_world. intros. by apply world_ok_trace. Qed.
Lemma frames_moment : frames moment_passes.
Proof. apply frames_world, wok_tick. Qed.
Lemma frames_clock : frames (read_clock clock).
Proof. apply frames_bind; [apply frames_moment|]. intros; apply frames_gets. Qed.
Lemma frames_config {A} (d : A) f : frames (on_config d f).
Proof.
  intros X. apply triple_on_world. intros s [Hw Hr]. destruct (w_config (rn_world s)) as [c|]; [destruct (f c) as [c' a]|];
    eexists _, _; (split; [done|]); (split; [|done]); [by eapply world_ok_same|done].
Qed.
Lemma frames_apply c code config : hooks_ok c → rc_component c = Some code →
  frames (call_apply_config clock stop_token cancel_token options c code config).
Proof.
  intros Hn Hc. unfold call_apply_config. apply frames_bind; [apply frames_moment|]. intros []. apply frames_bind; [apply frames_gets|].
  intros moment X. eapply triple_bind with (R := λ o s, (∃ status, o = inr status) ∧ world_ok r0 open routed committed (rn_world s) ∧ X (rn_result s)).
  - apply triple_on_world. intros s [Hw Hr].
    destruct (run_prog_ok r0 open routed committed clock (cancelled stop_token cancel_token options) (config_context c)
      (code_apply_config code moment config) 0 (rn_world s) Hw) as (w'&o&n&E&Hw'). rewrite E. eexists _, _. split; [done|].
    split; [|by split]. eapply run_prog_returns; [|exact E]. by apply (Hn code Hc).
  - intros o. apply triple_prop. intros [status ->]. by apply triple_ret.
Qed.
Lemma frames_validate c code config : hooks_ok c → rc_component c = Some code → frames (call_validate_config code config).
Proof.
  intros Hn Hc. unfold call_validate_config. apply frames_bind; [apply frames_moment|]. intros [] X.
  eapply triple_bind with (R := λ o s, (∃ status, o = inr status) ∧ world_ok r0 open routed committed (rn_world s) ∧ X (rn_result s)).
  - apply triple_gets. intros s Hs. split; [apply (Hn code Hc)|exact Hs].
  - intros o. apply triple_prop. intros [status ->]. by apply triple_ret.
Qed.
End frame.

Section epoch.
Context (committed : string → string → RuntimePayloadPtr) (it : nat) (counts : LoopCounts).
Abbreviation inv := (run_inv r0 routed false committed it counts kTickBound).
Abbreviation over := (run_over r0 routed committed it counts).
Abbreviation keeps := (keeps r0 routed false committed it counts kTickBound).
Abbreviation steps := (steps r0 routed false committed it counts kTickBound).
Lemma frames_keeps {A} (m : M A) : frames false committed m → keeps m.
Proof. intros H. apply H. Qed.
Hint Resolve frames_keeps frames_config frames_clock : run_logic.

(** *** Configuration transactions *)
Lemma over_return {A} (m : M A) (Q : A → Run → Prop) (a : A) : triple inv m (λ _, over) → (∀ s, over s → Q a s) →
  triple inv (m ≫= λ _, mret a) Q.
Proof. intros Hm HQ. eapply triple_bind; [exact Hm|]. intros x. by apply triple_ret. Qed.
(** A refusal reports its error, traces the rollback and stops. *)
Lemma refuse_ok {A} message name l (a : A) (Q : A → Run → Prop) : (∀ s, over s → Q a s) →
  triple inv (do rollback_config; do fail message; do trace name l; mret a) Q.
Proof.
  intros HQ. apply keeps_then; [unfold rollback_config; walk|]. intros []. eapply triple_bind; [apply fail_over|]. intros go.
  eapply triple_pre; [|by intros s [_ Hs]]. eapply triple_bind; [apply over_trace|]. intros []. by apply triple_ret.
Qed.
Lemma validate_updates_ok pending previous :
  triple inv (validate_updates components pending previous)
    (λ o s, match o with Some _ => inv s ∧ Forall (λ kv, is_Some (component_for_id components kv.1)) pending | None => over s end).
Proof.
  revert previous. induction pending as [|[id config] pending IH]; intros previous; [by apply triple_ret|]. cbn [validate_updates].
  destruct (component_for_id components id) as [c|] eqn:Ec; [|by apply refuse_ok]. cbn [mbind option_bind].
  apply (component_for_id_ok components Hcomponents) in Ec as Hc. destruct Hc as (([code Hcode]&_)&_). rewrite Hcode. apply component_hooks in Ec as Hc.
  apply keeps_then; [by eapply frames_keeps, frames_validate|]. intros v. apply keeps_then; [walk|]. intros [].
  destruct (negb (status_ok v)); [by apply refuse_ok|]. apply keeps_then; [walk|]. intros old.
  eapply triple_post; [apply IH|]. intros [m|] s Hs; [|exact Hs]. destruct Hs as [? ?]. split; [done|]. constructor; [simpl; rewrite Ec; eauto|done].
Qed.
(** While a transaction is rolled back, errors may be reported before the failure is. *)
Definition rolling (s : Run) : Prop := world_ok r0 false routed committed (rn_world s) ∧
  res_iterations (rn_result s) = it ∧ loop_counts (rn_result s) = counts.
Lemma restore_ok previous reason id : triple rolling (restore_config clock stop_token cancel_token options components previous reason id) (λ _, rolling).
Proof.
  unfold restore_config. destruct (component_for_id components id) as [c|] eqn:Ec; [|by apply triple_ret].
  apply component_hooks in Ec as Hc. destruct (rc_component c) as [code|] eqn:Hcode; [|by apply triple_ret].
  set (X := λ r, res_iterations r = it ∧ loop_counts r = counts).
  eapply triple_bind; [apply (frames_apply _ _ _ _ _ Hc Hcode X)|]. intros status.
  eapply triple_bind; [apply (frames_trace _ _ _ _ X)|]. intros []. destruct (status_ok status); [by apply triple_ret|].
  by apply triple_modify.
Qed.
Lemma rolling_fail message : triple rolling (fail message) (λ go s, go = false ∧ over s).
Proof.
  eapply triple_bind; [|intros a; apply triple_ret; intros s H; split; [done|exact H]].
  apply triple_modify. intros s (Hw%world_ok_open&H1&H2). split; [done|]. left. split; [done|]. split; [|by split].
  simpl. by destruct (res_errors (rn_result s)).
Qed.
Lemma apply_updates_ok pending previous applied : Forall (λ kv, is_Some (component_for_id components kv.1)) pending →
  triple inv (apply_updates clock stop_token cancel_token options components pending previous applied) (goes inv over).
Proof.
  intros H. revert applied. induction H as [|[id config] pending [c Ec] _ IH]; intros applied; [by apply triple_ret|].
  cbn [apply_updates fst] in *. rewrite Ec. destruct (component_for_id_ok components Hcomponents _ _ Ec) as (([code Hcode]&_)&_).
  apply component_hooks in Ec as Hc. rewrite Hcode.
  apply keeps_then; [by apply frames_keeps, frames_apply|]. intros status. apply keeps_then; [walk|]. intros [].
  destruct (negb (status_ok status)); [|apply IH]. apply triple_pre with (P' := rolling).
  - eapply triple_bind; [apply restore_ok|]. intros []. eapply triple_bind; [apply triple_for_each; intros x _; apply restore_ok|].
    intros []. eapply triple_bind with (R := λ _, rolling); [|intros []; eapply triple_post; [apply rolling_fail|]; by intros go s [-> ?]].
    set (X := λ r, res_iterations r = it ∧ loop_counts r = counts).
    eapply triple_bind with (R := λ _, rolling); [apply (frames_config false committed _ _ X)|]. intros n. by apply triple_ret.
  - intros s [Hw (H1&H2&H3&H4&H5)]. by split.
Qed.
Lemma config_ok : steps (apply_config_transaction clock stop_token cancel_token options components).
Proof.
  unfold apply_config_transaction, pending_configs. apply steps_bind; [walk|]. intros [[|kv l]|]; [| |walk].
  - apply steps_bind; [unfold commit_config; walk|]. intros _. walk.
  - eapply triple_bind; [apply validate_updates_ok|]. intros [m|]; [|by apply triple_ret].
    intros s [Hs Hf]. revert s Hs. apply steps_seq; [by apply apply_updates_ok|]. unfold commit_config. walk.
Qed.

(** *** The waits and reports of fixed-rate lanes *)
Lemma keeps_begin_tick iteration current kv : keeps (begin_tick iteration current kv).
Proof. unfold begin_tick. walk. Qed.
Lemma keeps_end_ticks iteration current duration finished l next :
  keeps (end_ticks hz_period show_ms iteration current duration finished l next).
Proof.
  revert next. induction l as [|[id lane] l IH]; intros next; [walk|]. cbn [end_ticks]. apply keeps_bind; [|done].
  unfold end_tick. apply keeps_bind; [walk|]. intros []. apply keeps_if; [walk|]. apply keeps_bind; [walk|]. intros [].
  apply keeps_bind; [walk|]. intros []. apply keeps_bind; [|intros; walk]. apply keeps_match; [walk|]. intros scheduled. walk.
Qed.
Context (Hclock : ∀ deadline, ∃ n, ∀ m, n <= m → (deadline <= clock m 0 0)%Z).
(** A wait ends: the clock reaches the deadline, or a stop is requested before. *)
Lemma keeps_sleep deadline : keeps (sleep_until_or_stop clock stop_token cancel_token options deadline).
Proof.
  destruct (Hclock deadline) as [n Hn]. set (pass := λ s : Run, s <| rn_world ::= tick_moment |>).
  assert (∀ s, inv s → inv (pass s)) as Hpass by (intros s [Hw Hr]; split; [by apply wok_tick|done]).
  assert (∀ s fuel any, sleep_loop clock stop_token cancel_token options any deadline fuel s =
    if (deadline <=? clock (S (w_moment (rn_world s))) 0 0)%Z
    then stop_requested stop_token cancel_token options fuel (pass s)
    else match any with
         | 0 => None
         | S any => if stop_token (S (S (w_moment (rn_world s)))) || cancelled stop_token cancel_token options (S (S (w_moment (rn_world s))))
                    then Some (pass (pass s), true)
                    else sleep_loop clock stop_token cancel_token options any deadline fuel (pass (pass (pass s)))
         end) as Hstep.
  { intros s fuel any. set (b := stop_token _ || _).
    destruct any; cbn [sleep_loop]; unfold mbind, M_bind; change (read_clock clock fuel s) with (Some (pass s, clock (S (w_moment (rn_world s))) 0 0));
      cbv beta iota; (destruct (Z.leb deadline _); [done|]); [done|].
    change (stop_requested stop_token cancel_token options fuel (pass s)) with (Some (pass (pass s), b)). by destruct b. }
  assert (∀ d s, n <= d + w_moment (rn_world s) → inv s → ∃ n' s' a, (∀ fuel any, n' <= any →
    sleep_loop clock stop_token cancel_token options any deadline fuel s = Some (s', a)) ∧ inv s') as H.
  { induction d as [|d IH]; intros s Hd Hs.
    - exists 0, (pass (pass s)). eexists. split; [|by do 2 apply Hpass]. intros fuel any _. rewrite Hstep.
      destruct (Z.leb_spec deadline (clock (S (w_moment (rn_world s))) 0 0)); [reflexivity|]. specialize (Hn (S (w_moment (rn_world s)))). lia.
    - destruct (Z.leb_spec deadline (clock (S (w_moment (rn_world s))) 0 0)) as [Hle|Hlt].
      { exists 0, (pass (pass s)). eexists. split; [|by do 2 apply Hpass]. intros fuel any _. rewrite Hstep, (proj2 (Z.leb_le _ _)) by done. reflexivity. }
      destruct (stop_token (S (S (w_moment (rn_world s)))) || cancelled stop_token cancel_token options (S (S (w_moment (rn_world s))))) eqn:Es.
      { exists 1, (pass (pass s)), true. split; [|by do 2 apply Hpass]. intros fuel [|any] Ha; [lia|]. rewrite Hstep, Es.
        destruct (Z.leb_spec deadline (clock (S (w_moment (rn_world s))) 0 0)); [lia|done]. }
      destruct (IH (pass (pass (pass s)))) as (n'&s'&a&E&Hs'); [simpl; lia|by do 3 apply Hpass|].
      exists (S n'), s', a. split; [|done]. intros fuel [|any] Ha; [lia|]. rewrite Hstep, Es.
      destruct (Z.leb_spec deadline (clock (S (w_moment (rn_world s))) 0 0)); [lia|]. apply E. lia. }
  intros s Hs. destruct (H n s ltac:(lia) Hs) as (n'&s'&a&E&Hs'). exists n', s', a. split; [|done]. intros fuel Hf. by apply E.
Qed.
Lemma keeps_wait iteration ticks current :
  keeps (wait_for_ticks clock stop_token cancel_token options iteration ticks current).
Proof.
  revert current. induction ticks as [|[lane scheduled] ticks IH]; intros current; [walk|]. cbn [wait_for_ticks].
  apply keeps_bind; [walk|]. intros []. apply keeps_bind; [walk|]. intros time. apply keeps_if; [|done].
  apply keeps_bind; [apply keeps_sleep|]. intros stopped. apply keeps_bind; [walk|]. intros woken. apply keeps_bind; [walk|].
  intros []. apply keeps_if; [walk|done].
Qed.
End epoch.

(** *** Regions and epochs *)
Definition in_epoch (committed : string → string → RuntimePayloadPtr) (it : nat) (s : Run) : Prop :=
  ∃ counts, run_inv r0 routed false committed it counts kTickBound s.
Definition epoch_over (committed : string → string → RuntimePayloadPtr) (it : nat) (s : Run) : Prop :=
  ∃ counts, run_over r0 routed committed it counts s.
Lemma loop_ended_goes committed it region counts k e go s : loop_ended r0 routed committed it region counts k e go s →
  goes (in_epoch committed it) (epoch_over committed it) go s.
Proof.
  intros H. unfold loop_ended in H. destruct go; simpl; [by eexists; apply H|]. eexists (note_loop routed region k e counts).
  destruct e; [..|exact H]; try (destruct H as [? ?]; split; [done|by left]).
  destruct H as [[_ [Hw Hr]]|[? ?]]; (split; [|by (left + right)]); [by apply world_ok_open in Hw|done].
Qed.
Abbreviation regions_run := (for_all (run_region clock stop_token cancel_token pick show_double show_threshold options components)).
Lemma run_regions_ok committed it regions :
  triple (in_epoch committed it) (regions_run regions) (goes (in_epoch committed it) (epoch_over committed it)).
Proof.
  apply triple_for_all. intros region _. apply triple_exists. intros counts. unfold run_region. destruct (region_kind region).
  - eapply triple_post; [apply steps_for_all; intros id _; by apply steps_execute|]. intros [] s Hs; by exists counts.
  - intros s Hs. destruct (run_loop_region_ok clock stop_token cancel_token pick show_double show_threshold options components r0 routed Hcomponents
      committed it region counts s Hs) as (n&s'&go&E&_&k&e&_&_&_&He&_). exists n, s', go. split; [exact E|]. by eapply loop_ended_goes.
Qed.
(** Between epochs the committed state may be any. *)
Definition between (it : nat) (s : Run) : Prop := ∃ committed, in_epoch committed it s.
Definition ended (it : nat) (s : Run) : Prop := ∃ committed, epoch_over committed it s.
Lemma begin_epoch_of_run_ok committed it :
  triple (in_epoch committed it) (begin_epoch_of_run clock) (goes (in_epoch committed it) (epoch_over committed it)).
Proof.
  apply triple_exists. intros counts. eapply triple_post with (Q' := goes _ _).
  - apply steps_bind.
    + apply keeps_moment.
    + intros []. apply steps_bind.
      * apply triple_commit. intros r clk Hr _. by apply hub_begin_epoch.
      * intros [res|]; [destruct (accepted res)|]; walk.
  - intros [] s Hs; by exists counts.
Qed.
Abbreviation epoch := (run_epoch clock stop_token cancel_token pick show_double show_threshold options components compiled_plan).
Lemma commit_state_ok it : triple (between it) commit_state (λ _, between it).
Proof.
  apply triple_modify. intros s (committed&counts&[H1 H2 H3]&Hr). eexists (state_value _), counts. split; [|exact Hr].
  split; [exact H1|exact H2|done].
Qed.
Lemma run_epoch_ok it : triple (between it) epoch (goes (between it) (ended it)).
Proof.
  eapply triple_bind; [apply commit_state_ok|]. intros []. apply triple_exists. intros committed.
  eapply triple_post with (Q' := goes (in_epoch committed it) (epoch_over committed it)); [|intros [] s Hs; by exists committed].
  apply triple_bind with (R := goes (in_epoch committed it) (epoch_over committed it)).
  { apply triple_exists. intros counts. eapply triple_post; [by apply config_ok|]. intros [] s Hs; by exists counts. }
  intros []; [|by apply triple_ret]. eapply triple_bind; [apply begin_epoch_of_run_ok|]. intros []; [|by apply triple_ret].
  eapply triple_bind; [apply run_regions_ok|]. intros []; [|by apply triple_ret]. cbn [negb].
  apply triple_exists. intros counts. eapply triple_bind; [apply (triple_router _ _ false false); intros r Hr _; by apply hub_end_epoch|].
  intros []. apply triple_ret. intros s Hs. by exists counts.
Qed.

(** *** Iterations *)
(** A run that ended after [it] iterations. *)
Definition stopped_because (it : nat) (why : SchedulerStopReason) (s : Run) : Prop :=
  ∃ committed counts, run_inv r0 routed false committed it counts why s.
Definition iteration_ended (it : nat) (s : Run) : Prop :=
  ended it s ∨ stopped_because it kStopRequested s ∨ (0 < run_duration_ms options)%Z ∧ stopped_because it kDurationBound s ∨
  run_until_idle options = true ∧ stopped_because (S it) kIdle s.
Lemma stop_ok {A} it committed counts why (a : A) :
  triple (run_inv r0 routed false committed it counts kTickBound) (do stop_with why; mret a)
    (λ b s, b = a ∧ stopped_because it why s).
Proof.
  apply triple_bind with (R := λ _, stopped_because it why); [|intros []; apply triple_ret; intros s Hs; split; [done|exact Hs]].
  apply triple_modify. intros s [Hw (H1&H2&H3&H4&H5)]. exists committed, counts. split; [done|]. by split.
Qed.
Context (Hclock : ∀ deadline, ∃ n, ∀ m, n <= m → (deadline <= clock m 0 0)%Z).
Lemma run_iteration_ok started it next :
  triple (between it)
    (run_iteration clock stop_token cancel_token pick hz_period show_double show_threshold show_ms options components compiled_plan started it next)
    (λ o, match o with Some _ => between (S it) | None => iteration_ended it end).
Proof.
  apply triple_exists. intros committed. apply triple_exists. intros counts. unfold run_iteration.
  apply keeps_then; [walk|]. intros calls. apply keeps_then; [walk|]. intros stop.
  apply triple_if; intros _; [eapply triple_post; [apply stop_ok|]; intros o s [-> Hs]; by right; left|].
  eapply triple_bind with (R := λ (late : bool) s, (late = true → (0 < run_duration_ms options)%Z) ∧ run_inv r0 routed false committed it counts kTickBound s).
  { destruct (Z.ltb_spec 0 (run_duration_ms options)); [|by apply triple_ret].
    apply keeps_then; [walk|]. intros time. by apply triple_ret. }
  intros late. apply triple_prop. intros Hlate.
  apply triple_if; intros El; [eapply triple_post; [apply stop_ok|]; intros o s [-> Hs]; right; right; left; auto|].
  apply keeps_then; [by apply keeps_wait|]. intros [current|]; [|eapply triple_post; [apply stop_ok|]; intros o s [-> Hs]; by right; left].
  apply keeps_then; [walk|]. intros time. apply keeps_then; [walk|]. intros [].
  apply keeps_then; [apply keeps_for_each; intros x _; apply keeps_begin_tick|]. intros [].
  eapply triple_bind; [eapply triple_pre; [apply run_epoch_ok|]; intros s Hs; by exists committed, counts|].
  intros []; [|apply triple_ret; intros s Hs; by left]. cbn [negb]. clear committed counts.
  apply triple_exists. intros committed. apply triple_exists. intros counts.
  apply keeps_then; [walk|]. intros finished. apply keeps_then; [apply keeps_end_ticks|]. intros next'.
  apply keeps_then; [walk|]. intros []. apply keeps_then; [walk|]. intros [].
  eapply triple_bind with (R := λ _, run_inv r0 routed false committed (S it) counts kTickBound).
  { apply triple_modify. intros s [Hw (H1&H2&H3&H4&H5)]. split; [done|]. split; [done|]. split; [done|]. split; [done|].
    split; [by rewrite <- H4|done]. }
  intros []. apply keeps_then; [walk|]. intros calls'. apply triple_if; intros Ei.
  - eapply triple_post; [apply stop_ok|]. intros o s [-> Hs]. right; right; right. apply andb_true_iff in Ei as [? _]. auto.
  - apply triple_ret. intros s Hs. by exists committed, counts.
Qed.

(** *** The run *)
(** [s] is the state in which a run of at most [bound] iterations ends. *)
Definition run_ended (bound : nat) (s : Run) : Prop :=
  stopped_because bound kTickBound s ∨ ∃ it, it < bound ∧ iteration_ended it s.
Lemma run_iterations_ok started remaining it next :
  triple (between it)
    (run_iterations clock stop_token cancel_token pick hz_period show_double show_threshold show_ms options components compiled_plan started
       remaining it next)
    (λ _, run_ended (it + remaining)).
Proof.
  revert it next. induction remaining as [|remaining IH]; intros it next.
  { apply triple_ret. intros s (committed&counts&Hs). left. rewrite Nat.add_0_r. by exists committed, counts. }
  cbn [run_iterations]. eapply triple_bind; [apply run_iteration_ok|]. intros [next'|].
  - replace (it + S remaining) with (S it + remaining) by lia. apply IH.
  - apply triple_ret. intros s Hs. right. exists it. split; [lia|done].
Qed.
Record consistent_result (r : SchedulerRunResult) : Prop := {
  cr_errors : res_ok r = true ↔ res_errors r = [];
  cr_error : res_ok r = false ↔ res_stop_reason r = kError;
  cr_bound : res_iterations r <= iteration_bound options;
  cr_tick_bound : res_stop_reason r = kTickBound → res_iterations r = iteration_bound options;
  cr_duration : res_stop_reason r = kDurationBound → (0 < run_duration_ms options)%Z;
  cr_idle : res_stop_reason r = kIdle → run_until_idle options = true ∧ 0 < res_iterations r }.
(** Only a run that ends with these reasons may leave a region open. *)
Definition ends_inside (why : SchedulerStopReason) : bool := match why with kError | kStopRequested => true | _ => false end.
Definition world_after (r : SchedulerRunResult) (w : World) : Prop :=
  ∃ committed, world_ok r0 (ends_inside (res_stop_reason r)) routed committed w.
Lemma stopped_consistent bound it why s : stopped_because it why s → bound = iteration_bound options → it <= bound →
  why ≠ kError → (why = kTickBound → it = bound) → (why = kDurationBound → (0 < run_duration_ms options)%Z) →
  (why = kIdle → run_until_idle options = true ∧ 0 < it) → consistent_result (rn_result s) ∧ world_after (rn_result s) (rn_world s).
Proof.
  intros (committed&counts&Hw&(H1&H2&H3&H4&H5)) -> Hit Hne Ht Hd Hi. split.
  - split; rewrite ?H1, ?H2, ?H3, ?H4; done.
  - exists committed. rewrite H3. destruct (ends_inside why); [by eapply world_ok_open|done].
Qed.
Lemma over_consistent it s : ended it s → it <= iteration_bound options →
  consistent_result (rn_result s) ∧ world_after (rn_result s) (rn_world s).
Proof.
  intros (committed&counts&Hw&[(H1&H2&H3&H4&H5)|(H1&H2&H3&H4&H5)]) Hit; split.
  - split; rewrite ?H1, ?H3, ?H4; done.
  - exists committed. by rewrite H3.
  - split; rewrite ?H1, ?H2, ?H3, ?H4; done.
  - exists committed. by rewrite H3.
Qed.
Lemma run_ended_consistent s : run_ended (iteration_bound options) s →
  consistent_result (rn_result s) ∧ world_after (rn_result s) (rn_world s).
Proof.
  intros [Hs|(it&Hit&[Hs|[Hs|[[Hd Hs]|[Hi Hs]]]])].
  - by eapply stopped_consistent.
  - eapply over_consistent; [done|lia].
  - eapply stopped_consistent; [done|done|lia|done..].
  - eapply stopped_consistent; [done|done|lia|done..].
  - eapply stopped_consistent; [done|done|lia|done|done|done|]. intros _. split; [done|lia].
Qed.
Lemma run_ok w : hub_ok r0 false (w_hub w) → w_routed w = routed → ∃ n w' r,
  (∀ fuel, n <= fuel → run clock stop_token cancel_token pick hz_period show_double show_threshold show_ms options components compiled_plan
     fuel w = Some (w', r)) ∧ consistent_result r ∧ world_after r w'.
Proof.
  intros Hh Hr. set (s0 := mkRun w initial_result TriggerPolicyEngine_new ∅).
  assert (run_inv r0 routed false (state_value w) 0 (loop_counts initial_result) kTickBound s0) as H0 by (split; by split).
  assert (triple (run_inv r0 routed false (state_value w) 0 (loop_counts initial_result) kTickBound)
    (run_loop clock stop_token cancel_token pick hz_period show_double show_threshold show_ms options components compiled_plan)
    (λ _, run_ended (iteration_bound options))) as H.
  { apply keeps_then; [apply keeps_clock|]. intros started.
    eapply triple_pre; [apply run_iterations_ok|]. intros s Hs. by exists (state_value w), (loop_counts initial_result). }
  destruct (H s0 H0) as (n&s&[]&E&Hs). exists n, (rn_world s), (rn_result s). split.
  - intros fuel Hf. unfold run. fold s0. by rewrite E.
  - by apply run_ended_consistent.
Qed.
End facts.
