(* ===== verification/QuietRun.v ===== *)
(** * QuietRun: runs in which nothing can fail

    Components that are not driven by messages and whose code returns success without publishing: every iteration executes
    every component of the plan once, and the run ends without an error. *)

From S2P Require Export EventRuntimeFacts.
Local Open Scope nat_scope.

(** ** Quiet code *)
Definition quiet_call (call : ContextCall) : Prop :=
  match call with CStageState _ _ _ _ | CReadState _ _ | CReadConfig _ | CReportConvergence _ | CCancelRequested => True | _ => False end.
Fixpoint quiet_prog (p : Prog) : Prop :=
  match p with
  | Returns status => status_ok status = true
  | Throws _ => False
  | Call call k => quiet_call call ∧ ∀ answer, quiet_prog (k answer)
  end.
(** No publication waits, and no update of a configuration. *)
Record calm_hub (r : Router) : Prop := {
  ch_immediate : immediate_stage r = []; ch_next : deferred_next_epoch r = []; ch_ready : deferred_ready r = [] }.
Record calm_world (w : World) : Prop := {
  cw_hub : calm_hub (w_hub w); cw_config : ∀ s, w_config w = Some s → pending_component_configs s = ∅ }.
Lemma calm_same w w' : calm_world w → w_hub w' = w_hub w → w_config w' = w_config w → calm_world w'.
Proof. intros [H1 H2] E1 E2. split; [by rewrite E1|by rewrite E2]. Qed.
Lemma calm_trace name a w : calm_world w → calm_world (trace_event name a w).
Proof. intros [[] ?]. by split. Qed.
Lemma calm_tick w : calm_world w → calm_world (tick_moment w).
Proof. intros. by eapply calm_same. Qed.
Lemma perform_calm clock cancelled c call w : quiet_call call → calm_world w → ∃ w' a, perform clock cancelled c call w = Some (w', a) ∧ calm_world w'.
Proof.
  intros Hq Hw%calm_tick. unfold perform. generalize dependent (tick_moment w). clear w. intros w Hw. destruct call; try done.
  - destruct (w_state w) as [s|]; [|by eexists _, _]. destruct (stage_write _ _ _ _ s). eexists _, _. split; [done|by eapply calm_same].
  - destruct (w_state w) as [s|]; [|by eexists _, _]. destruct (read _ _ s). eexists _, _. split; [done|by eapply calm_same].
  - destruct (w_config w) as [s|] eqn:E; [|by eexists _, _]. simpl. eexists _, _. split; [done|]. destruct Hw as [H1 H2].
    split; [done|]. simpl. intros s' [= <-]. simpl. by apply H2.
  - eexists _, _. split; [done|]. destruct (ic_loop c); [by eapply calm_same|done].
  - by eexists _, _.
Qed.
Lemma run_calm clock cancelled c p observed w : quiet_prog p → calm_world w →
  ∃ w' status n, run_prog clock cancelled c p observed w = Some (w', inr status, n) ∧ status_ok status = true ∧ calm_world w'.
Proof.
  revert observed w. induction p as [status|what|call k IH]; intros observed w Hp Hw; simpl in *; [|done|].
  - by eexists _, _, _.
  - destruct Hp as [Hc Hk]. destruct (perform_calm clock cancelled c call w Hc Hw) as (w'&a&->&Hw'). by apply IH.
Qed.

(** ** Quiet runs *)
Section quiet.
Context (clock : nat → nat → nat → Z) (stop_token cancel_token : nat → bool) (pick : nat → nat)
  (hz_period : QArith_base.Q → Z) (show_double : Double → string) (show_threshold : QArith_base.Q → string) (show_ms : Z → string).
Context (options : SchedulerRunOptions) (components : list EventRuntimeComponent) (compiled_plan : GraphCompiledPlan).
Record calm (n : nat) (busy : option string) (s : Run) : Prop := {
  cm_world : calm_world (rn_world s); cm_ok : res_ok (rn_result s) = true; cm_errors : res_errors (rn_result s) = [];
  cm_calls : res_tick_calls (rn_result s) = n; cm_flight : ∀ id, busy ≠ Some id → map_at 0 (rn_in_flight s) id = 0 }.
Definition still {A} (m : M A) : Prop := ∀ n busy, triple (calm n busy) m (λ _, calm n busy).
Lemma still_ret {A} (a : A) : still (mret a).
Proof. intros n busy. by apply triple_ret. Qed.
Lemma still_bind {A B} (m : M A) (f : A → M B) : still m → (∀ a, still (f a)) → still (m ≫= f).
Proof. intros Hm Hf n busy. eapply triple_bind; [apply Hm|]. intros a. apply Hf. Qed.
Lemma still_if {A} (b : bool) (m1 m2 : M A) : still m1 → still m2 → still (if b then m1 else m2).
Proof. by destruct b. Qed.
Lemma still_gets {A} (f : Run → A) : still (gets f).
Proof. intros n busy. by apply triple_gets. Qed.
Lemma still_result f : (∀ r, res_ok (f r) = res_ok r ∧ res_errors (f r) = res_errors r ∧ res_tick_calls (f r) = res_tick_calls r) → still (update_result f).
Proof. intros H n busy. apply triple_modify. intros s [H1 H2 H3 H4 H5]. destruct (H (rn_result s)) as (E1&E2&E3). split; simpl; first [done|congruence]. Qed.
Lemma still_world f : (∀ w, calm_world w → calm_world (f w)) → still (update_world f).
Proof. intros H n busy. apply triple_modify. intros s [H1 H2 H3 H4 H5]. split; simpl; auto. Qed.
Lemma still_on_world {A} (f : World → option (World * A)) : (∀ w, calm_world w → ∃ w' a, f w = Some (w', a) ∧ calm_world w') → still (on_world f).
Proof.
  intros H n busy. apply triple_on_world. intros s [H1 H2 H3 H4 H5]. destruct (H _ H1) as (w'&a&E&Hw). exists w', a. by split.
Qed.
Lemma still_trace name l : still (trace name l).
Proof. apply still_world. intros. by apply calm_trace. Qed.
Lemma still_trace_map name a : still (trace_map name a).
Proof. apply still_world. intros. by apply calm_trace. Qed.
Lemma still_moment : still moment_passes.
Proof. apply still_world, calm_tick. Qed.
Lemma still_clock : still (read_clock clock).
Proof. apply still_bind; [apply still_moment|]. intros []. apply still_gets. Qed.
Lemma still_cancel : still (cancel_requested stop_token cancel_token options).
Proof. apply still_bind; [apply still_moment|]. intros []. apply still_gets. Qed.
Lemma still_group lane f : still (update_group lane f).
Proof. by apply still_result. Qed.
Lemma still_component id f : still (update_component id f).
Proof. by apply still_result. Qed.
(** A first computation that changes nothing that matters. *)
Lemma still_then {A B} (m : M A) (f : A → M B) n busy Q : still m → (∀ a, triple (calm n busy) (f a) Q) → triple (calm n busy) (m ≫= f) Q.
Proof. intros Hm Hf. eapply triple_bind; [apply Hm|exact Hf]. Qed.
End quiet.
Create HintDb quiet.
#[export] Hint Resolve still_ret still_gets still_trace still_trace_map still_moment still_clock still_cancel still_group still_component : quiet.
Ltac stay := repeat first
  [ solve [eauto 1 with quiet]
  | lazymatch goal with
    | |- ∀ _, _ => intro
    | |- still (mbind _ _) => apply still_bind
    | |- still (if _ then _ else _) => apply still_if
    | |- still (update_result _) => apply still_result; done
    end ].

(** ** Quiet components *)
Definition quiet_code (code : ComponentCode) : Prop := ∀ moment i loop, quiet_prog (code_execute code moment i loop).
(** Code that returns success, no messages to wait for, and no pool. *)
Record quiet_component (c : EventRuntimeComponent) : Prop := {
  qc_code : ∃ code, rc_component c = Some code ∧ quiet_code code; qc_events : ¬ message_driven (rc_spec c);
  qc_sequential : str_eqb (group_type (rc_lane c)) "thread_pool" = false }.
Section execution.
Context (clock : nat → nat → nat → Z) (stop_token cancel_token : nat → bool) (pick : nat → nat).
Context (options : SchedulerRunOptions) (components : list EventRuntimeComponent).
Context (Hcomponents : Forall quiet_component components).
Lemma still_end c i worker started observed outcome : still (end_invocation clock stop_token cancel_token options c i worker started observed outcome).
Proof. unfold end_invocation. stay. Qed.
Hint Resolve still_end : quiet.
(** The body of an invocation, and its outcome. *)
Lemma run_invocation_calm c i loop n busy : quiet_component c →
  triple (calm n busy) (run_invocation clock stop_token cancel_token options c i loop) (λ o s, calm n busy s ∧ status_ok (oc_status o) = true).
Proof.
  intros [(code&Hcode&Hq) _ _]. unfold run_invocation, begin_invocation. rewrite Hcode.
  eapply triple_bind with (R := λ a s, calm n busy s ∧ quiet_prog a.2).
  { eapply still_then; [stay|]. intros started. eapply still_then; [stay|]. intros []. intros s Hs. eexists 0, _, _. split; [done|]. split; [exact Hs|apply Hq]. }
  intros [started program]. apply (triple_pre _ (λ s, quiet_prog program ∧ calm n busy s)); [|by intros s [? ?]].
  apply triple_prop. intros Hp.
  eapply triple_bind with (R := λ a s, calm n busy s ∧ status_ok (status_of a.1) = true).
  - apply triple_on_world. intros s [H1 H2 H3 H4 H5]. destruct (run_calm clock (cancelled stop_token cancel_token options)
      (invocation_context c i loop) program 0 (rn_world s) Hp H1) as (w'&st&k&->&Hst&Hw). eexists _, _. split; [done|]. by split.
  - intros [outcome observed]. apply (triple_pre _ (λ s, status_ok (status_of outcome) = true ∧ calm n busy s)); [|by intros s [? ?]].
    apply triple_prop. intros Ho. unfold end_invocation. eapply still_then; [stay|]. intros finished. eapply still_then; [stay|]. intros requested.
    eapply still_then; [stay|]. intros []. eapply still_then; [stay|]. intros []. apply triple_ret. intros s Hs. by split.
Qed.
Lemma commit_immediate_calm r clk : calm_hub r → commit_immediate r clk = Some (r, [], accept).
Proof. intros [H1 H2 H3]. destruct r. simpl in *. subst. done. Qed.
Lemma still_commit prefix n busy : triple (calm n busy) (commit_or_fail clock prefix) (λ go s, go = true ∧ calm n busy s).
Proof.
  unfold commit_or_fail, commit_publications.
  eapply triple_bind with (R := λ o s, match o with Some r => accepted r = true | None => True end ∧ calm n busy s).
  - eapply still_then; [stay|]. intros []. apply triple_on_world. intros s Hs. destruct (w_routed (rn_world s)); simpl.
    + rewrite commit_immediate_calm by apply Hs. eexists _, _. split; [done|]. split; [done|]. destruct Hs as [[H1 H2] H3 H4 H5 H6]. by split.
    + eexists _, _. split; [done|]. split; [done|]. by destruct Hs.
  - intros [result|]; [|apply triple_ret; by intros s [_ ?]]. apply triple_prop. intros ->. by apply triple_ret.
Qed.
Lemma record_outcome_calm c i o n busy : status_ok (oc_status o) = true →
  triple (calm n busy) (record_invocation_outcome clock options c i o true) (λ go s, go = true ∧ calm (S n) busy s).
Proof.
  intros Ho. unfold record_invocation_outcome. do 4 (eapply still_then; [stay|]; intros []). rewrite Ho. cbn [negb].
  eapply triple_bind; [apply still_commit|]. intros go. apply triple_prop. intros ->. cbn [negb]. unfold note_tick.
  eapply triple_bind with (R := λ _, calm (S n) busy); [|intros []; by apply triple_ret].
  eapply triple_bind with (R := λ _, calm (S n) busy); [|intros []; stay; apply still_group].
  apply triple_modify. intros s [H1 H2 H3 H4 H5]. split; simpl; [done..|by rewrite H4|done].
Qed.
Lemma execute_one_calm c loop i n : quiet_component c →
  triple (calm n None) (execute_one clock stop_token cancel_token options c loop i) (λ go s, go = true ∧ calm (S n) None s).
Proof.
  intros Hc. unfold execute_one. eapply triple_bind with (R := λ k s, k = 0 ∧ calm n None s).
  { intros s Hs. eexists 0, _, _. split; [done|]. split; [|done]. by apply (cm_flight _ _ _ Hs). }
  intros k. apply triple_prop. intros ->. rewrite andb_false_r. cbn [negb].
  eapply triple_bind with (R := λ _, calm n (Some (rc_id c))).
  { apply triple_modify. intros s [H1 H2 H3 H4 H5]. split; simpl; [done..|]. intros id Hid. rewrite map_at_insert_ne by congruence. by apply H5. }
  intros []. eapply still_then; [stay|]. intros []. eapply triple_bind; [by apply run_invocation_calm|]. intros o.
  apply (triple_pre _ (λ s, status_ok (oc_status o) = true ∧ calm n (Some (rc_id c)) s)); [|by intros s [? ?]].
  apply triple_prop. intros Ho. eapply triple_bind with (R := λ _, calm n None).
  { apply triple_modify. intros s [H1 H2 H3 H4 H5]. split; simpl; [done..|]. intros id _.
    destruct (decide (rc_id c = id)) as [->|Hne]; [by rewrite map_at_insert_eq|]. rewrite map_at_insert_ne by done. apply H5. congruence. }
  intros []. by apply record_outcome_calm.
Qed.
(** One invocation is always ready. *)
Lemma collect_calm c n busy : ¬ message_driven (rc_spec c) → 
  triple (calm n busy) (collect_ready clock c) (λ invs s, length invs = 1 ∧ calm n busy s).
Proof.
  intros Hm. unfold collect_ready. eapply still_then; [stay|]. intros time. eapply still_then; [stay|]. intros sequence.
  eapply triple_bind with (R := λ invs s, length invs = 1 ∧ calm n busy s).
  - intros s Hs. exists 0.
    assert (∃ e inv, collect_ready_invocations (rn_engine s) (w_bus (rn_world s)) (clock (w_moment (rn_world s)))
      (mkTick sequence time time (Some 0) (Some 0)) (rc_spec c) (rc_lane c) = Some (e, w_bus (rn_world s), [], [inv])) as (e&inv&E).
    { unfold collect_ready_invocations. destruct (has_timer_event_source (rc_spec c)) eqn:Et; [by eexists _, _|].
      destruct (has_message_event_source (rc_spec c)) eqn:Em; [|by eexists _, _]. destruct Hm. by split. }
    eexists _, _. split; [intros fuel _; rewrite E; reflexivity|]. split; [done|]. destruct Hs as [[[] H1'] H2 H3 H4 H5]. by split.
  - intros invs. apply triple_prop. intros Hl. eapply still_then with (f := λ stats, _ ≫= λ _, _).
    + intros k b s Hs. destruct (take_last_stats (rn_engine s) (rc_id c)) as [e stats] eqn:E. exists 0, (s <| rn_engine := e |>), stats. split; [done|]. by destruct Hs.
    + intros stats. eapply still_then; [stay|]. intros []. by apply triple_ret.
Qed.
Lemma execute_component_calm id n : is_Some (component_for_id components id) →
  triple (calm n None) (execute_component clock stop_token cancel_token pick options components None id) (λ go s, go = true ∧ calm (S n) None s).
Proof.
  intros [c Hc]. unfold execute_component. rewrite Hc. unfold component_for_id in Hc. apply find_some in Hc as [Hin%list_elem_of_In _].
  rewrite Forall_forall in Hcomponents. pose proof (Hcomponents c Hin) as Hq. eapply triple_bind; [apply collect_calm, Hq|].
  intros invs. apply triple_prop. intros Hl. rewrite (qc_sequential _ Hq). cbn [negb orb].
  destruct invs as [|i [|? ?]]; try done. unfold execute_sequential. simpl.
  eapply triple_bind; [by apply execute_one_calm|]. intros go. apply triple_prop. intros ->. by apply triple_ret.
Qed.
(** A loop over steps that each count [size] calls. *)
Lemma for_all_calm {A} (body : A → M bool) (size : A → nat) (l : list A) n :
  (∀ x k, x ∈ l → triple (calm k None) (body x) (λ go s, go = true ∧ calm (k + size x) None s)) →
  triple (calm n None) (for_all body l) (λ go s, go = true ∧ calm (n + sum_list_with size l) None s).
Proof.
  revert n. induction l as [|x l IH]; intros n H; simpl; [apply triple_ret; by rewrite Nat.add_0_r|].
  eapply triple_bind; [apply H; left|]. intros go. apply triple_prop. intros ->. rewrite Nat.add_assoc. apply IH. intros; apply H; by right.
Qed.
End execution.

(** ** Quiet iterations *)
Section iterations.
Context (clock : nat → nat → nat → Z) (stop_token cancel_token : nat → bool) (pick : nat → nat)
  (hz_period : QArith_base.Q → Z) (show_double : Double → string) (show_threshold : QArith_base.Q → string) (show_ms : Z → string).
Context (options : SchedulerRunOptions) (components : list EventRuntimeComponent) (compiled_plan : GraphCompiledPlan).
Context (Hcomponents : Forall quiet_component components).
Definition plain_region (region : CompiledGraphRegion) : Prop :=
  region_kind region = kComponent ∧ ∀ id, id ∈ region_components region → is_Some (component_for_id components id).
Context (Hregions : Forall plain_region (regions_in_order components compiled_plan)).
Context (Hlanes : ∀ c, c ∈ components → wall_clock_lane hz_period (rc_lane c) = false).
Context (Hstop : ∀ moment, stop_token moment || cancelled stop_token cancel_token options moment = false).
Context (Hduration : run_duration_ms options = 0%Z) (Hidle : run_until_idle options = false).
(** The executions of an iteration. *)
Definition plan_size : nat := sum_list_with (λ region, length (region_components region)) (regions_in_order components compiled_plan).
Lemma run_region_calm region n : plain_region region →
  triple (calm n None) (run_region clock stop_token cancel_token pick show_double show_threshold options components region)
    (λ go s, go = true ∧ calm (n + length (region_components region)) None s).
Proof.
  intros [Hk Hids]. unfold run_region. rewrite Hk. 
  assert (∀ l : list string, sum_list_with (λ _, 1) l = length l) as Hone by (induction l as [|x l IH]; simpl; [done|by rewrite IH]).
  rewrite <- Hone. apply for_all_calm. intros id k Hid. rewrite Nat.add_1_r. apply execute_component_calm; [done|by apply Hids].
Qed.
Lemma still_commit_config n busy : triple (calm n busy) (apply_config_transaction clock stop_token cancel_token options components)
  (λ go s, go = true ∧ calm n busy s).
Proof.
  unfold apply_config_transaction, pending_configs.
  eapply triple_bind with (R := λ p s, (p = None ∨ p = Some []) ∧ calm n busy s).
  { apply triple_gets. intros s Hs. split; [|done]. destruct (w_config (rn_world s)) as [c|] eqn:E; [|by left]. right.
    simpl. by rewrite (cw_config _ (cm_world _ _ _ Hs) _ E). }
  intros p. apply triple_prop. intros [-> | ->]; [by apply triple_ret|].
  eapply still_then; [|intros k; by apply triple_ret]. unfold commit_config. apply still_bind; [apply still_clock|]. intros time.
  apply still_on_world. intros w [H1 H2]. destruct (w_config w) as [c|] eqn:E; [|eexists _, _; split; [done|]; by split; [|rewrite E]].
  destruct (commit_config_epoch time c) as [c' k] eqn:Ec. eexists _, _. split; [done|]. split; [done|]. simpl. intros ? [= <-].
  unfold commit_config_epoch in Ec. rewrite (H2 c eq_refl) in Ec. by injection Ec as <- _.
Qed.
Lemma begin_epoch_calm n busy : triple (calm n busy) (begin_epoch_of_run clock) (λ go s, go = true ∧ calm n busy s).
Proof.
  unfold begin_epoch_of_run. eapply still_then; [apply still_moment|]. intros [].
  eapply triple_bind with (R := λ o s, match o with Some r => accepted r = true | None => True end ∧ calm n busy s).
  - apply triple_on_world. intros s [[[H1 H2 H3] H4] H5 H6 H7 H8]. destruct (w_routed (rn_world s)); simpl.
    + unfold begin_epoch, commit_batch. simpl. rewrite H3. simpl. eexists _, _. split; [done|]. split; [done|]. by repeat split.
    + eexists _, _. split; [done|]. split; [done|]. by repeat split.
  - intros [result|]; [|apply triple_ret; by intros s [_ ?]]. apply triple_prop. intros ->. by apply triple_ret.
Qed.
Lemma run_epoch_calm n : triple (calm n None)
  (run_epoch clock stop_token cancel_token pick show_double show_threshold options components compiled_plan)
  (λ go s, go = true ∧ calm (n + plan_size) None s).
Proof.
  unfold run_epoch. eapply still_then. { apply still_world. intros w Hw. by eapply calm_same. } intros [].
  eapply triple_bind; [apply still_commit_config|]. intros go. apply triple_prop. intros ->. cbn [negb].
  eapply triple_bind; [apply begin_epoch_calm|]. intros go. apply triple_prop. intros ->. cbn [negb].
  eapply triple_bind.
  { apply for_all_calm with (size := λ region, length (region_components region)). intros region k Hin. apply run_region_calm.
    rewrite Forall_forall in Hregions. by apply Hregions. }
  intros go. apply triple_prop. intros ->. cbn [negb]. eapply still_then; [|intros []; by apply triple_ret].
  apply still_world. intros w [[H1 H2 H3] H4]. destruct (w_routed w); [|by repeat split]. split; [|done]. split; simpl; [done|done|by rewrite H2, H3].
Qed.
Lemma no_stop n busy : triple (calm n busy) (stop_requested stop_token cancel_token options) (λ stop s, stop = false ∧ calm n busy s).
Proof. eapply still_then; [apply still_moment|]. intros []. apply triple_gets. intros s Hs. split; [apply Hstop|done]. Qed.
Lemma no_wall_clock time : first_ticks hz_period components time = ∅.
Proof.
  unfold first_ticks. assert (∀ l (m : gmap string SchedulerGroupConfig), (∀ k x, m !! k = Some x → wall_clock_lane hz_period x = false) →
    (∀ c, c ∈ l → wall_clock_lane hz_period (rc_lane c) = false) → ∀ k x,
    fold_left (λ m c, <[group_id (rc_lane c) := rc_lane c]> m) l m !! k = Some x → wall_clock_lane hz_period x = false) as H.
  { induction l as [|c l IH]; intros m Hm Hl k x; cbn [fold_left]; [apply Hm|]. apply IH; [|intros; apply Hl; by right].
    intros k' x' [[_ <-]|[_ Hx]]%lookup_insert_Some; [apply Hl; left|by eapply Hm]. }
  specialize (H components ∅ ltac:(intros k x; by rewrite lookup_empty) Hlanes).
  apply map_eq. intros k. rewrite lookup_fmap, lookup_empty. destruct (filter _ _ !! k) eqn:E; [|done].
  apply map_lookup_filter_Some in E as [E Hw]. simpl in Hw. unfold lanes, lane_map in E. by rewrite (H _ _ E) in Hw.
Qed.
Lemma end_tick_still iteration duration finished kv n busy : triple (calm n busy) (end_tick hz_period show_ms iteration ∅ duration finished kv ∅)
  (λ next s, next = ∅ ∧ calm n busy s).
Proof.
  unfold end_tick. destruct kv as [lane_id lane]. rewrite lookup_empty. eapply still_then; [stay|]. intros [].
  destruct (negb _); [by apply triple_ret|]. eapply still_then; [stay|]. intros []. eapply still_then; [stay|]. intros [].
  eapply triple_bind with (R := λ next s, next = ∅ ∧ calm n busy s); [by apply triple_ret|]. intros next. apply triple_prop. intros ->.
  eapply still_then; [stay|]. intros []. eapply still_then; [stay|]. intros []. by apply triple_ret.
Qed.
Lemma end_ticks_still iteration duration finished l n busy : triple (calm n busy)
  (end_ticks hz_period show_ms iteration ∅ duration finished l ∅) (λ next s, next = ∅ ∧ calm n busy s).
Proof.
  induction l as [|kv l IH]; simpl; [by apply triple_ret|]. eapply triple_bind; [apply end_tick_still|]. intros next.
  apply triple_prop. by intros ->.
Qed.
Lemma run_iteration_calm started iteration n : triple (calm n None)
  (run_iteration clock stop_token cancel_token pick hz_period show_double show_threshold show_ms options components compiled_plan started iteration ∅)
  (λ next s, next = Some ∅ ∧ calm (n + plan_size) None s).
Proof.
  unfold run_iteration. eapply still_then; [stay|]. intros before. eapply triple_bind; [apply no_stop|]. intros stop. apply triple_prop. intros ->.
  rewrite Hduration. cbn [Z.ltb Z.compare]. eapply triple_bind with (R := λ over s, over = false ∧ calm n None s); [by apply triple_ret|].
  intros over. apply triple_prop. intros ->. change (map_items (∅ : gmap string Z)) with ([] : list (string * Z)). cbn [wait_for_ticks].
  eapply triple_bind with (R := λ w s, w = Some ∅ ∧ calm n None s); [by apply triple_ret|]. intros w. apply triple_prop. intros ->.
  eapply still_then; [stay|]. intros at_. eapply still_then; [stay|]. intros [].
  eapply still_then. { intros k b. apply triple_for_each. intros kv _. unfold begin_tick. assert (∀ m : M unit, still m → triple (calm k b) m (λ _, calm k b)) as H by auto.
    apply H. stay. }
  intros []. eapply triple_bind; [apply run_epoch_calm|]. intros go. apply triple_prop. intros ->. cbn [negb].
  eapply still_then; [stay|]. intros finished. eapply triple_bind; [apply end_ticks_still|]. intros next. apply triple_prop. intros ->.
  do 3 (eapply still_then; [stay|]; intros []). eapply still_then; [stay|]. intros calls. rewrite Hidle. by apply triple_ret.
Qed.
Lemma run_iterations_calm started remaining iteration n : triple (calm n None)
  (run_iterations clock stop_token cancel_token pick hz_period show_double show_threshold show_ms options components compiled_plan started remaining iteration ∅)
  (λ _, calm (n + remaining * plan_size) None).
Proof.
  revert iteration n. induction remaining as [|remaining IH]; intros iteration n; simpl; [apply triple_ret; by rewrite Nat.add_0_r|].
  eapply triple_bind; [apply run_iteration_calm|]. intros next. apply triple_prop. intros ->. rewrite Nat.add_assoc. apply IH.
Qed.
(** Every iteration executes everything, and the run ends without an error. *)
Lemma run_calm_ends w : calm_world w → ∃ n w' r, (∀ fuel, n <= fuel →
    run clock stop_token cancel_token pick hz_period show_double show_threshold show_ms options components compiled_plan fuel w = Some (w', r)) ∧
  res_ok r = true ∧ res_errors r = [] ∧ res_tick_calls r = Nat.max 1 (tick_iterations options) * plan_size.
Proof.
  intros Hw. assert (triple (calm 0 None)
    (run_loop clock stop_token cancel_token pick hz_period show_double show_threshold show_ms options components compiled_plan)
    (λ _, calm (Nat.max 1 (tick_iterations options) * plan_size) None)) as H.
  { unfold run_loop. eapply still_then; [stay|]. intros started. rewrite no_wall_clock.
    replace (Nat.max 1 (tick_iterations options)) with (iteration_bound options); [apply run_iterations_calm|].
    unfold iteration_bound. rewrite Hidle. destruct (tick_iterations options) as [|[|k]]; done. }
  destruct (H (mkRun w initial_result TriggerPolicyEngine_new ∅)) as (n&s&[]&E&[_ H1 H2 H3 _]); [by split|].
  exists n, (rn_world s), (rn_result s). split; [|done]. intros fuel Hf. unfold run. by rewrite E.
Qed.
End iterations.
