(* ===== verification/ConfigFacts.v ===== *)
(** * ConfigFacts: configuration transactions are atomic

    Between the stores of a run and the components that are asked to validate and to apply: whatever the components
    answer, the active configurations are replaced by all pending ones or by none. *)

From S2P Require Export EventRunFacts.
Local Open Scope nat_scope.

(** Code that reads configurations but stages none. *)
Fixpoint stages_no_config (p : Prog) : Prop :=
  match p with
  | Call call k => (match call with CStageConfig _ _ _ => False | _ => True end) ∧ ∀ answer, stages_no_config (k answer)
  | _ => True
  end.
(** The active and the pending configurations. *)
Definition configs_of (w : World) : option (gmap string ConfigView * gmap string ConfigView) :=
  (λ s, (component_configs s, pending_component_configs s)) <$> w_config w.
Lemma map_items_nil {V} (m : gmap string V) : map_items m = [] → m = ∅.
Proof. intros E. apply map_empty. intros k. destruct (m !! k) as [v|] eqn:Ek; [|done]. apply elem_of_map_items in Ek. rewrite E in Ek. by apply elem_of_nil in Ek. Qed.
Lemma perform_configs clock cancelled c call w w' a : match call with CStageConfig _ _ _ => False | _ => True end →
  perform clock cancelled c call w = Some (w', a) → configs_of w' = configs_of w.
Proof.
  intros Hc. unfold perform, configs_of. destruct call; try done; intros H.
  - destruct (context_publish_shared _ _ _ _ _) as [[[g ev] res]|]; [|done]. by simplify_eq/=.
  - destruct (view_read_latest_update _ _ _ _) as [[[g ev] res]|]; [|done]. by simplify_eq/=.
  - destruct (view_peek_latest _ _ _ _) as [[[g ev] res]|]; [|done]. by simplify_eq/=.
  - destruct (view_drain _ _ _ _ _) as [[[g ev] res]|]; [|done]. by simplify_eq/=.
  - change (w_state (tick_moment w)) with (w_state w) in H. destruct (w_state w) as [s|]; [destruct (stage_write _ _ _ _ _)|]; by simplify_eq/=.
  - change (w_state (tick_moment w)) with (w_state w) in H. destruct (w_state w) as [s|]; [destruct (read _ _ _)|]; by simplify_eq/=.
  - change (w_config (tick_moment w)) with (w_config w) in H. destruct (w_config w) as [s|] eqn:E; simplify_eq/=; [done|by rewrite E].
  - simplify_eq/=. by destruct (ic_loop c).
  - by simplify_eq/=.
Qed.
Lemma run_prog_configs clock cancelled c p n w w' o k : stages_no_config p →
  run_prog clock cancelled c p n w = Some (w', o, k) → configs_of w' = configs_of w.
Proof.
  revert n w. induction p as [status|what|call kont IH]; intros n w Hp; simpl; [by intros [= <- _ _]..|].
  destruct Hp as [Hc Hk]. destruct (perform clock cancelled c call w) as [[w1 a]|] eqn:E; [|done]. intros H.
  rewrite (IH a _ _ (Hk a) H). by eapply perform_configs.
Qed.

Section facts.
Context (clock : nat → nat → nat → Z) (stop_token cancel_token : nat → bool) (options : SchedulerRunOptions).
Context (components : list EventRuntimeComponent) (r0 : Router) (open routed : bool) (committed : string → string → RuntimePayloadPtr).
Context (Hcomponents : Forall component_ok components) (Hhooks : Forall hooks_ok components).
Context (Hstages : ∀ c code moment config, c ∈ components → rc_component c = Some code → stages_no_config (code_apply_config code moment config)).
Abbreviation configs := (option (gmap string ConfigView * gmap string ConfigView)).

(** The stores hold [v]; the result of the run may be anything. *)
Definition txn (v : configs) (s : Run) : Prop := world_ok r0 open routed committed (rn_world s) ∧ configs_of (rn_world s) = v.
Definition txn_keeps {A} (m : M A) : Prop := ∀ v, triple (txn v) m (λ _, txn v).
Lemma txn_then {A B} v (m : M A) (f : A → M B) (Q : B → Run → Prop) : txn_keeps m → (∀ a, triple (txn v) (f a) Q) → triple (txn v) (m ≫= f) Q.
Proof. intros Hm Hf. eapply triple_bind; [apply Hm|exact Hf]. Qed.
Lemma txn_bind {A B} (m : M A) (f : A → M B) : txn_keeps m → (∀ a, txn_keeps (f a)) → txn_keeps (m ≫= f).
Proof. intros Hm Hf v. apply txn_then; [done|]. intros a. apply Hf. Qed.
Lemma txn_ret {A} (a : A) : txn_keeps (mret a).
Proof. intros v. by apply triple_ret. Qed.
Lemma txn_gets {A} (f : Run → A) : txn_keeps (gets f).
Proof. intros v. by apply triple_gets. Qed.
Lemma txn_result f : txn_keeps (update_result f).
Proof. intros v. by apply triple_modify. Qed.
Lemma txn_trace name l : txn_keeps (trace name l).
Proof. intros v. apply triple_modify. intros s [Hw Hv]. split; [by apply world_ok_trace|done]. Qed.
Lemma txn_moment : txn_keeps moment_passes.
Proof. intros v. apply triple_modify. intros s [Hw Hv]. split; [by apply wok_tick|done]. Qed.
Lemma txn_fail message : txn_keeps (fail message).
Proof. apply txn_bind; [apply txn_result|]. intros; apply txn_ret. Qed.
Lemma txn_for_each {A} (body : A → M unit) l : (∀ x, txn_keeps (body x)) → txn_keeps (for_each body l).
Proof. intros H v. apply triple_for_each. intros x _. apply H. Qed.
(** An operation of the configuration store. *)
Lemma txn_config {A} (d : A) f v v' :
  (∀ s, (component_configs s, pending_component_configs s) = v → (component_configs (fst (f s)), pending_component_configs (fst (f s))) = v') →
  triple (txn (Some v)) (on_config d f) (λ _, txn (Some v')).
Proof.
  intros H. apply triple_on_world. intros s [Hw Hv]. unfold configs_of in Hv. destruct (w_config (rn_world s)) as [c|] eqn:E; [|done].
  injection Hv as Hv. specialize (H c Hv). destruct (f c) as [c' a]. eexists _, _. split; [done|]. split; [by eapply world_ok_same|].
  by apply (f_equal Some).
Qed.
Lemma txn_rollback cfg pending : triple (txn (Some (cfg, pending))) rollback_config (λ _, txn (Some (cfg, ∅))).
Proof.
  eapply triple_bind; [apply (txn_config _ _ (cfg, pending) (cfg, ∅))|intros n; by apply triple_ret]. intros s [= <- _]. done.
Qed.
Lemma txn_commit cfg pending : triple (txn (Some (cfg, pending))) (commit_config clock) (λ _, txn (Some (pending ∪ cfg, ∅))).
Proof.
  apply txn_then; [apply txn_bind; [apply txn_moment|intros []; apply txn_gets]|]. intros time. apply txn_config.
  intros s [= <- <-]. unfold commit_config_epoch. rewrite fold_insert_union. by destruct (_ =? 0).
Qed.
Lemma txn_apply c code config : c ∈ components → rc_component c = Some code →
  txn_keeps (call_apply_config clock stop_token cancel_token options c code config).
Proof.
  intros Hin Hc v. unfold call_apply_config. apply txn_then; [apply txn_moment|]. intros []. apply txn_then; [apply txn_gets|]. intros moment.
  eapply triple_bind with (R := λ o s, (∃ status, o = inr status) ∧ txn v s).
  - apply triple_on_world. intros s [Hw Hv].
    destruct (run_prog_ok r0 open routed committed clock (cancelled stop_token cancel_token options) (config_context c)
      (code_apply_config code moment config) 0 (rn_world s) Hw) as (w'&o&n&E&Hw'). rewrite E. eexists _, _. split; [done|].
    rewrite Forall_forall in Hhooks. split; [eapply run_prog_returns; [|exact E]; by apply (Hhooks c Hin)|].
    split; [exact Hw'|]. simpl. rewrite <- Hv. eapply run_prog_configs; [|exact E]. by eapply Hstages.
  - intros o. apply triple_prop. intros [status ->]. by apply triple_ret.
Qed.
Lemma txn_restore previous reason id : txn_keeps (restore_config clock stop_token cancel_token options components previous reason id).
Proof.
  unfold restore_config. destruct (component_for_id components id) as [c|] eqn:Ec; [|apply txn_ret].
  apply (component_for_id_ok components Hcomponents) in Ec as (_&_&Hin). destruct (rc_component c) as [code|] eqn:Hc; [|apply txn_ret].
  apply txn_bind; [by apply txn_apply|]. intros status. apply txn_bind; [apply txn_trace|]. intros [].
  destruct (status_ok status); [apply txn_ret|apply txn_result].
Qed.
Lemma txn_refuse {A} message name l (a : A) cfg pending (Q : A → Run → Prop) : (∀ s, txn (Some (cfg, ∅)) s → Q a s) →
  triple (txn (Some (cfg, pending))) (do rollback_config; do fail message; do trace name l; mret a) Q.
Proof.
  intros HQ. eapply triple_bind; [apply txn_rollback|]. intros []. apply txn_then; [apply txn_fail|]. intros go.
  apply txn_then; [apply txn_trace|]. intros []. by apply triple_ret.
Qed.
Lemma txn_call_validate code config : config_hooks_return code → txn_keeps (call_validate_config code config).
Proof.
  intros [Hv _] c. unfold call_validate_config. apply txn_then; [apply txn_moment|]. intros [].
  eapply triple_bind with (R := λ o s, (∃ status, o = inr status) ∧ txn c s).
  - apply triple_gets. intros s Hs. split; [apply Hv|exact Hs].
  - intros o. apply triple_prop. intros [status ->]. by apply triple_ret.
Qed.
Lemma txn_validate cfg pending l previous :
  triple (txn (Some (cfg, pending))) (validate_updates components l previous)
    (λ o, match o with Some _ => λ s, Forall (λ kv, is_Some (component_for_id components kv.1)) l ∧ txn (Some (cfg, pending)) s
                     | None => txn (Some (cfg, ∅)) end).
Proof.
  revert previous. induction l as [|[id config] l IH]; intros previous; [by apply triple_ret|]. cbn [validate_updates].
  destruct (component_for_id components id) as [c|] eqn:Ec; [|by apply txn_refuse]. cbn [mbind option_bind].
  destruct (rc_component c) as [code|] eqn:Hcode; [|by apply txn_refuse].
  assert (hooks_ok c) as Hn by (by eapply component_hooks).
  apply txn_then; [by apply txn_call_validate, Hn|]. intros v. apply txn_then; [apply txn_trace|]. intros [].
  destruct (negb (status_ok v)); [by apply txn_refuse|]. eapply triple_bind; [by apply (txn_config _ _ (cfg, pending) (cfg, pending))|]. intros old.
  eapply triple_post; [apply IH|]. intros [m|] s Hs; [|exact Hs]. destruct Hs as [? ?]. split; [|done]. constructor; [simpl; rewrite Ec; eauto|done].
Qed.
Lemma txn_updates cfg pending l previous applied : Forall (λ kv, is_Some (component_for_id components kv.1)) l →
  triple (txn (Some (cfg, pending))) (apply_updates clock stop_token cancel_token options components l previous applied)
    (λ ok, txn (Some (cfg, if ok then pending else ∅))).
Proof.
  intros H. revert applied. induction H as [|[id config] l [c Ec] _ IH]; intros applied; [by apply triple_ret|].
  cbn [apply_updates fst] in *. rewrite Ec. apply (component_for_id_ok components Hcomponents) in Ec as (Hc&_&Hin).
  destruct (proj1 Hc) as [code Hcode]. rewrite Hcode.
  apply txn_then; [by apply txn_apply|]. intros status. apply txn_then; [apply txn_trace|]. intros [].
  destruct (negb (status_ok status)); [|apply IH]. apply txn_then; [apply txn_restore|]. intros [].
  apply txn_then; [apply txn_for_each; intros x; apply txn_restore|]. intros []. eapply triple_bind; [apply txn_rollback|]. intros [].
  eapply triple_bind; [apply txn_result|]. intros []. by apply triple_ret.
Qed.
Lemma txn_ok cfg pending :
  triple (txn (Some (cfg, pending))) (apply_config_transaction clock stop_token cancel_token options components)
    (λ ok, txn (Some (if ok then pending ∪ cfg else cfg, ∅))).
Proof.
  unfold apply_config_transaction, pending_configs.
  eapply triple_bind with (R := λ o s, o = Some (map_items pending) ∧ txn (Some (cfg, pending)) s).
  { apply triple_gets. intros s [Hw Hv]. split; [|by split]. unfold configs_of in Hv. destruct (w_config (rn_world s)); [|done].
    by injection Hv as _ <-. }
  intros o. apply triple_prop. intros ->. destruct (map_items pending) as [|kv l] eqn:E.
  - apply map_items_nil in E as ->. eapply triple_bind; [apply txn_commit|]. intros n. by apply triple_ret.
  - rewrite <- E. clear E. eapply triple_bind; [apply txn_validate|]. intros [m|]; [|by apply triple_ret].
    apply triple_prop. intros Hf. eapply triple_bind; [by apply txn_updates|]. intros []; [|by apply triple_ret].
    cbn [negb]. eapply triple_bind; [apply txn_commit|]. intros n. apply txn_then; [apply txn_trace|]. intros []. by apply triple_ret.
Qed.
End facts.
