(* ===== verification/RunProperties.v ===== *)
(** * RunProperties: the properties of runs

    What [EventRuntime::run] promises to its callers, for every choice of the environment: the clock, the stop and
    cancellation tokens, the interleaving of pool workers and the code of the components. *)

From S2P Require Export ConfigFacts.
Local Open Scope nat_scope.

Section properties.
Context (clock : nat → nat → nat → Z) (stop_token cancel_token : nat → bool) (pick : nat → nat)
  (hz_period : QArith_base.Q → Z) (show_double : Double → string) (show_threshold : QArith_base.Q → string) (show_ms : Z → string).
Context (options : SchedulerRunOptions) (components : list EventRuntimeComponent) (compiled_plan : GraphCompiledPlan).
Abbreviation runtime :=
  (run clock stop_token cancel_token pick hz_period show_double show_threshold show_ms options components compiled_plan).
Abbreviation regions_run := (for_all (run_region clock stop_token cancel_token pick show_double show_threshold options components)).

Lemma start_ok r bus : router_ok r → router_bus r = Some bus → balanced r → closed r → hub_ok r false r.
Proof. intros Hok Hb Hbal Hc. split; try done. exists bus, bus. split; [done|]. split; [done|apply bus_moves_refl]. Qed.

(** C16. A run ends and reports consistently.  The conditions: the [validate_config] and the [apply_config] of the components return
    (an exception of either leaves the run, throwing_validation_escapes), no message-driven component names an input twice, the
    clock reaches every deadline, and the router is well formed with no region open.  Then for every interleaving of pool
    workers, every answer of the stop and cancellation tokens and every other code of the components, throwing or not, [run]
    returns a result; it is ok exactly when it has no errors, and exactly when the stop reason is not the error one; the
    iterations stay within the bound of the options, the tick-bound reason means that all were performed, the duration reason
    that a duration was set, and the idle reason that the run was to end when idle. *)
Theorem run_ends w bus : Forall component_ok components → Forall hooks_ok components → (∀ deadline, ∃ n, ∀ m, n <= m → (deadline <= clock m 0 0)%Z) →
  router_ok (w_hub w) → router_bus (w_hub w) = Some bus → balanced (w_hub w) → closed (w_hub w) →
  ∃ n w' r, (∀ fuel, n <= fuel → runtime fuel w = Some (w', r)) ∧
    (res_ok r = true ↔ res_errors r = []) ∧ (res_ok r = false ↔ res_stop_reason r = kError) ∧
    res_iterations r <= iteration_bound options ∧
    (res_stop_reason r = kTickBound → res_iterations r = iteration_bound options) ∧
    (res_stop_reason r = kDurationBound → (0 < run_duration_ms options)%Z) ∧
    (res_stop_reason r = kIdle → run_until_idle options = true ∧ 0 < res_iterations r).
Proof.
  intros Hc Hk Hclock Hok Hb Hbal Hcl.
  destruct (run_ok clock stop_token cancel_token pick hz_period show_double show_threshold show_ms options components compiled_plan
    (w_hub w) (w_routed w) Hc Hk Hclock w (start_ok _ _ Hok Hb Hbal Hcl) eq_refl) as (n&w'&r&E&[]&_).
  exists n, w', r. split; [exact E|]. by repeat (split; [done|]).
Qed.

(** C17. A run leaves its channels and its router well formed: the router keeps its invariant (so asynchronous admission
    stays bounded), every channel of the bus has been changed by channel operations only, every publication that the
    router staged is still staged, committed, discarded or overwritten unless a commit failed, and no composite region
    is open unless the run ended with an error or a stop request. *)
Theorem run_keeps_objects w bus : Forall component_ok components → Forall hooks_ok components → (∀ deadline, ∃ n, ∀ m, n <= m → (deadline <= clock m 0 0)%Z) →
  router_ok (w_hub w) → router_bus (w_hub w) = Some bus → balanced (w_hub w) → closed (w_hub w) →
  ∃ n w' r, (∀ fuel, n <= fuel → runtime fuel w = Some (w', r)) ∧
    router_ok (w_hub w') ∧ (∃ bus', router_bus (w_hub w') = Some bus' ∧ bus_moves bus bus') ∧
    (failed_commit_count (router_metrics (w_hub w')) = failed_commit_count (router_metrics (w_hub w)) → balanced (w_hub w')) ∧
    (res_stop_reason r ≠ kError → res_stop_reason r ≠ kStopRequested → closed (w_hub w')).
Proof.
  intros Hc Hk Hclock Hok Hb Hbal Hcl.
  destruct (run_ok clock stop_token cancel_token pick hz_period show_double show_threshold show_ms options components compiled_plan
    (w_hub w) (w_routed w) Hc Hk Hclock w (start_ok _ _ Hok Hb Hbal Hcl) eq_refl) as (n&w'&r&E&_&(committed&[[H1 H2 H3 H4 H5] _ _])).
  exists n, w', r. split; [exact E|]. split; [done|]. split.
  { destruct H2 as (b0&b&Hb0&Hb'&Hm). rewrite Hb in Hb0. simplify_eq. by exists b. }
  split; [exact H4|]. intros He Hs. apply H5. by destruct (res_stop_reason r).
Qed.

(** C18. A composite loop refines the abstract loop: from a state between regions, for components whose triggers name no input twice,
    a loop region performs between one and its maximum of iterations and ends by convergence (with a reason), by its budget,
    by its maximum (only then all iterations were performed), by cancellation or by an error of a component; the loop counters
    of the result change exactly as that ending says.  What the iterations staged is settled as the policy says: on a commit
    the immediate publications are handed to the bus as one batch and the others wait for the next epoch, otherwise all of them are
    dropped and counted as discarded while the bus stays as it was.  The run goes on with the region closed exactly when neither
    cancellation, nor an error, nor the policy, nor the bus ended it. *)
Theorem composite_loop_refines r0 routed committed it region counts s : Forall component_ok components →
  run_inv r0 routed false committed it counts kTickBound s →
  ∃ n s' go, (∀ fuel, n <= fuel →
    run_loop_region clock stop_token cancel_token pick show_double show_threshold options components region fuel s = Some (s', go)) ∧
    loop_result clock stop_token cancel_token pick show_double show_threshold options components r0 routed committed it region counts s s' go.
Proof. intros Hc. by apply run_loop_region_ok. Qed.

(** C19. Within an epoch the committed state does not change: whatever the regions execute, in whatever interleaving, a
    component that reads the state afterwards is given the value that was committed when the epoch began. *)
Theorem epoch_isolates_state r0 routed it counts s regions context ns key : Forall component_ok components →
  run_inv r0 routed false (state_value (rn_world s)) it counts kTickBound s →
  ∃ n s' go, (∀ fuel, n <= fuel → regions_run regions fuel s = Some (s', go)) ∧
    state_value (rn_world s') ns key = state_value (rn_world s) ns key ∧
    ∀ w answer, perform clock (cancelled stop_token cancel_token options) context (CReadState ns key) (rn_world s') = Some (w, Some answer) →
      answer = state_value (rn_world s) ns key.
Proof.
  intros Hc Hs. destruct (run_regions_ok clock stop_token cancel_token pick show_double show_threshold options components r0 routed Hc
    (state_value (rn_world s)) it regions s) as (n&s'&go&E&H); [by exists counts|].
  assert (∃ open, world_ok r0 open routed (state_value (rn_world s)) (rn_world s')) as [open Hw].
  { destruct go; destruct H as (counts'&Hw&_); [by exists false|by exists true]. }
  exists n, s', go. split; [exact E|]. split; [apply (wo_state _ _ _ _ _ Hw)|]. intros w answer.
  by apply (perform_reads_committed _ _ _ _ _ _ _ _ _ _ _ _ Hw).
Qed.

(** C20. A configuration transaction is atomic on the configuration store when the hooks of the components return and [apply_config]
    stages no updates itself: whatever they answer when they are asked to validate and to apply, it returns with nothing
    pending, and the active configurations are overwritten with all pending ones if it succeeds and left as they were if it
    does not.  A hook that throws ends the run with the updates still pending (throwing_validation_escapes). *)
Theorem config_transaction_atomic r0 open routed committed s store : Forall component_ok components → Forall hooks_ok components →
  (∀ c code moment config, c ∈ components → rc_component c = Some code → stages_no_config (code_apply_config code moment config)) →
  world_ok r0 open routed committed (rn_world s) → w_config (rn_world s) = Some store →
  ∃ n s' ok store', (∀ fuel, n <= fuel → apply_config_transaction clock stop_token cancel_token options components fuel s = Some (s', ok)) ∧
    w_config (rn_world s') = Some store' ∧ pending_component_configs store' = ∅ ∧
    component_configs store' = if (ok : bool) then pending_component_configs store ∪ component_configs store else component_configs store.
Proof.
  intros Hc Hk Hs Hw Hst. destruct (txn_ok clock stop_token cancel_token options components r0 open routed committed Hc Hk Hs
    (component_configs store) (pending_component_configs store) s) as (n&s'&ok&E&_&Hv); [split; [done|]; unfold configs_of; by rewrite Hst|].
  exists n, s', ok. unfold configs_of in Hv. destruct (w_config (rn_world s')) as [store'|]; [|done]. exists store'.
  split; [exact E|]. split; [done|]. by injection Hv as -> ->.
Qed.

(** C21. The workers of a pool: in a batch where every worker runs at most one invocation, every move that is possible
    keeps it so, an idle worker takes the queued invocation of the best priority and among those the oldest, and when
    no move is left every invocation has finished. *)
Theorem pool_moves_safe r0 routed open committed it counts why c loop workers invocations items : component_ok c → 0 < workers →
  batch_ok workers invocations items →
  (moves c workers invocations items = [] → Forall (λ x, ∃ w o, x = Finished w o) items) ∧
  ∀ move, move ∈ moves c workers invocations items →
    (∀ worker i, move = MTake worker i → items !! i = Some Queued ∧ worker < workers ∧ (∀ x, x ∈ items → runs_on worker x = false) ∧
       ∃ inv, invocations !! i = Some inv ∧ ∀ j inv', items !! j = Some Queued → invocations !! j = Some inv' →
         runtime_priority_rank (inv_priority inv') < runtime_priority_rank (inv_priority inv) ∨
         runtime_priority_rank (inv_priority inv') = runtime_priority_rank (inv_priority inv) ∧ i <= j) ∧
    triple (run_inv r0 routed open committed it counts why)
      (make_move clock stop_token cancel_token options c loop invocations move items) (λ items' _, batch_ok workers invocations items').
Proof.
  intros Hc Hw Hb. split; [by eapply moves_nil|]. intros move Hm. split; [intros worker i ->; by apply elem_of_moves in Hm|].
  eapply triple_post; [by eapply make_move_ok|]. by intros items' s (_&?&_).
Qed.

(** A batch on a thread pool ends under every choice of moves, with one outcome per invocation, in the order of the
    invocations, each from a worker of the pool. *)
Theorem batch_completes r0 routed open committed it counts why c loop workers invocations : component_ok c → 0 < workers →
  triple (run_inv r0 routed open committed it counts why)
    (run_batch clock stop_token cancel_token pick options c loop workers invocations)
    (λ outcomes s, run_inv r0 routed open committed it counts why s ∧ length outcomes = length invocations ∧
       Forall (λ o, fst o < workers) outcomes).
Proof. intros Hc Hw. by apply run_batch_ok. Qed.
End properties.

(** ** A small run *)
Definition demo_clock (moment i j : nat) : Z := Z.of_nat moment.
Lemma demo_clock_reaches deadline : ∃ n, ∀ m, n <= m → (deadline <= demo_clock m 0 0)%Z.
Proof. exists (Z.to_nat deadline). unfold demo_clock. lia. Qed.
Definition demo_token (moment : nat) : bool := false.
Definition demo_options : SchedulerRunOptions := mkRunOptions 2 0 false false 0.
(** Publishes, reads a state value and reports convergence in the second iteration of a loop. *)
Definition demo_execute (moment : nat) (i : Invocation) (loop : option LoopIterationContext) : Prog :=
  Call (CPublish "x" (Some (make_text_payload "p" kTextPayloadSchema)) None) (fun _ =>
  Call (CReadState "ns" "key") (fun _ =>
  Call (CReportConvergence (mkConvergenceReport (match loop with Some l => li_iteration_number l =? 2 | None => false end) None "stable")) (fun _ =>
  Returns status_success))).
Definition demo_code : ComponentCode := mkCode demo_execute (fun _ _ => inr status_success) (fun _ _ => Returns status_success).
Definition demo_pool : SchedulerGroupConfig :=
  mkGroup "pool" "thread_pool" (QArith_base.Qmake 0 1) "normal" 0 2 8 "reject" false 0 0 "drop_tick" "" [] 0 "none" 0 "none".
Definition demo_spec (id lane : string) : ComponentNodeSpec :=
  mkComponentNode id "demo" [] default_trigger_policy (mkExecution lane true "normal" 0 "fail_fast") [] kProcessing "" empty_config.
Definition demo_components : list EventRuntimeComponent :=
  [mkRuntimeComponent "a" (Some demo_code) "a" (demo_spec "a" "main") demo_lane;
   mkRuntimeComponent "c" (Some demo_code) "c" (demo_spec "c" "pool") demo_pool].
Definition demo_loop : CompiledGraphRegion :=
  mkRegion "loop" kCompositeLoop ["a"] "loop" (mkLoopPolicy "fixed_point" 0 3 0 "" 0 "" None "") [] [].
Definition demo_plan : GraphCompiledPlan :=
  mkPlan [demo_loop; mkRegion "c" kComponent ["c"] "" default_loop_policy [] []] ["loop"; "c"] ∅ [].
Definition demo_world : World :=
  mkWorld demo_router true (Some empty_state_store) (Some empty_config_store) no_convergence (Some 0) [] 0.
Lemma demo_code_ok id lane group : component_ok (mkRuntimeComponent id (Some demo_code) id (demo_spec id lane) group).
Proof.
  split; [by eexists|]. intros _. apply (bool_decide_unpack _). vm_compute. exact Logic.I.
Qed.
Lemma demo_components_ok : Forall component_ok demo_components.
Proof. repeat (apply Forall_cons; split; [apply demo_code_ok|]). constructor. Qed.
Lemma demo_hooks_ok : Forall hooks_ok demo_components.
Proof. repeat (apply Forall_cons; split; [intros code [= <-]; split; intros; [by eexists|exact Logic.I]|]). constructor. Qed.
Abbreviation demo_run :=
  (run demo_clock demo_token demo_token (fun n => n) (fun _ => 0%Z) (fun _ => "") (fun _ => "") (fun _ => "") demo_options demo_components
     demo_plan).
(** The loop converges in its second iteration, twice; the component of the pool runs once an epoch. *)
Example demo_run_result : (λ '(w, r), (res_ok r, res_stop_reason r, res_iterations r, ticked_tasks r, map_at 0 (loop_iteration_count r) "loop",
    map_at 0 (loop_converged_count r) "loop", map_at "" (loop_stop_reason r) "loop")) <$> demo_run 20 demo_world =
  Some (true, kTickBound, 2, ["a"; "a"; "c"; "a"; "a"; "c"], 4, 2, "stable").
Proof. vm_compute. reflexivity. Qed.

Lemma demo_balanced : balanced demo_router.
Proof. by split. Qed.
Lemma run_ends_witness : ∃ n w' r, (∀ fuel, n <= fuel → demo_run fuel demo_world = Some (w', r)) ∧
  (res_ok r = true ↔ res_errors r = []) ∧ res_iterations r <= 2.
Proof.
  destruct (run_ends demo_clock demo_token demo_token (fun n => n) (fun _ => 0%Z) (fun _ => "") (fun _ => "") (fun _ => "") demo_options
    demo_components demo_plan demo_world (RuntimeChannelBus_new demo_specs) demo_components_ok demo_hooks_ok demo_clock_reaches demo_router_ok eq_refl
    demo_balanced (conj eq_refl eq_refl)) as (n&w'&r&E&H1&_&H2&_).
  exists n, w', r. split; [exact E|]. split; [exact H1|exact H2].
Defined.
Lemma run_keeps_objects_witness : ∃ n w' r, (∀ fuel, n <= fuel → demo_run fuel demo_world = Some (w', r)) ∧ router_ok (w_hub w').
Proof.
  destruct (run_keeps_objects demo_clock demo_token demo_token (fun n => n) (fun _ => 0%Z) (fun _ => "") (fun _ => "") (fun _ => "") demo_options
    demo_components demo_plan demo_world (RuntimeChannelBus_new demo_specs) demo_components_ok demo_hooks_ok demo_clock_reaches demo_router_ok eq_refl
    demo_balanced (conj eq_refl eq_refl)) as (n&w'&r&E&H&_).
  exists n, w', r. split; [exact E|exact H].
Defined.
Definition demo_state : Run := mkRun demo_world initial_result TriggerPolicyEngine_new ∅.
Lemma demo_run_inv : run_inv demo_router true false (state_value demo_world) 0 (loop_counts initial_result) kTickBound demo_state.
Proof.
  split; [|by split]. split; [|done..]. eapply start_ok; [apply demo_router_ok|reflexivity|apply demo_balanced|by split].
Qed.
Lemma composite_loop_refines_witness :
  ∃ n s' go, (∀ fuel, n <= fuel →
    run_loop_region demo_clock demo_token demo_token (fun n => n) (fun _ => "") (fun _ => "") demo_options demo_components demo_loop fuel
      demo_state = Some (s', go)) ∧
    loop_result demo_clock demo_token demo_token (fun n => n) (fun _ => "") (fun _ => "") demo_options demo_components
      demo_router true (state_value demo_world) 0 demo_loop (loop_counts initial_result) demo_state s' go.
Proof.
  exact (composite_loop_refines demo_clock demo_token demo_token (fun n => n) (fun _ => "") (fun _ => "") demo_options demo_components
    demo_router true (state_value demo_world) 0 demo_loop (loop_counts initial_result) demo_state demo_components_ok demo_run_inv).
Defined.
Lemma epoch_isolates_state_witness : ∃ n s' go, (∀ fuel, n <= fuel →
    for_all (run_region demo_clock demo_token demo_token (fun n => n) (fun _ => "") (fun _ => "") demo_options demo_components) [demo_loop]
      fuel demo_state = Some (s', go)) ∧ state_value (rn_world s') "ns" "key" = None.
Proof.
  destruct (epoch_isolates_state demo_clock demo_token demo_token (fun n => n) (fun _ => "") (fun _ => "") demo_options demo_components
    demo_router true 0 (loop_counts initial_result) demo_state [demo_loop] (mkInvocationContext "a" empty_metadata None) "ns" "key"
    demo_components_ok demo_run_inv) as (n&s'&go&E&H&_).
  exists n, s', go. split; [exact E|exact H].
Defined.
Definition demo_config_store : ConfigSnapshotStore :=
  fst (stage_component_config_update "a" (mkConfigView {["rate" := "10"]} ∅) true 0 empty_config_store).
Definition demo_config_state : Run := demo_state <| rn_world ::= fun w => w <| w_config := Some demo_config_store |> |>.
Lemma config_transaction_atomic_witness :
  size (pending_component_configs demo_config_store) = 1 ∧
  ∃ n s' ok store', (∀ fuel, n <= fuel →
      apply_config_transaction demo_clock demo_token demo_token demo_options demo_components fuel demo_config_state = Some (s', ok)) ∧
    w_config (rn_world s') = Some store' ∧ pending_component_configs store' = ∅ ∧
    component_configs store' = if (ok : bool) then pending_component_configs demo_config_store ∪ component_configs demo_config_store
                               else component_configs demo_config_store.
Proof.
  split; [vm_compute; reflexivity|].
  apply (config_transaction_atomic demo_clock demo_token demo_token demo_options demo_components demo_router false true
    (state_value demo_world) demo_config_state demo_config_store demo_components_ok demo_hooks_ok).
  - intros c code moment config Hin Hc. apply elem_of_cons in Hin as [->|Hin]; [|apply list_elem_of_singleton in Hin as ->];
      injection Hc as <-; exact Logic.I.
  - eapply world_ok_same; [exact (proj1 demo_run_inv)|reflexivity..].
  - reflexivity.
Defined.
(** The exception of a [validate_config] leaves the transaction before anything is rolled back. *)
Lemma throwing_validation_escapes fuel :
  let code := mkCode demo_execute (fun _ _ => inl "bad config") (fun _ _ => Returns status_success) in
  apply_config_transaction demo_clock demo_token demo_token demo_options
    [mkRuntimeComponent "a" (Some code) "a" (demo_spec "a" "main") demo_lane] fuel demo_config_state = None.
Proof. reflexivity. Qed.
Definition demo_invocations : list Invocation :=
  [event_invocation_for kManual (demo_tick 1) (demo_spec "c" "pool") demo_pool;
   (event_invocation_for kManual (demo_tick 1) (demo_spec "c" "pool") demo_pool) <| inv_priority := "high" |>].
Definition demo_component_c : EventRuntimeComponent :=
  mkRuntimeComponent "c" (Some demo_code) "c" (demo_spec "c" "pool") demo_pool.
Lemma demo_component_c_ok : component_ok demo_component_c.
Proof. pose proof demo_components_ok as H. rewrite Forall_forall in H. apply H. right. left. Qed.
Lemma demo_batch_ok : batch_ok 2 demo_invocations [Queued; Queued].
Proof. split; [done|by repeat constructor|]. intros [|[|i]] j w; done. Qed.
Lemma pool_moves_safe_witness :
  moves demo_component_c 2 demo_invocations [Queued; Queued] = [MTake 0 1; MTake 1 1] ∧
  triple (run_inv demo_router true false (state_value demo_world) 0 (loop_counts initial_result) kTickBound)
    (make_move demo_clock demo_token demo_token demo_options demo_component_c None demo_invocations (MTake 1 1) [Queued; Queued])
    (λ items' _, batch_ok 2 demo_invocations items').
Proof.
  split; [vm_compute; reflexivity|].
  refine (proj2 (proj2 (pool_moves_safe demo_clock demo_token demo_token demo_options demo_router true false (state_value demo_world) 0
    (loop_counts initial_result) kTickBound demo_component_c None 2 demo_invocations [Queued; Queued] demo_component_c_ok ltac:(lia)
    demo_batch_ok) (MTake 1 1) _)).
  right. left.
Defined.
Lemma batch_completes_witness :
  ∃ n s' outcomes, (∀ fuel, n <= fuel → run_batch demo_clock demo_token demo_token (fun n => n) demo_options demo_component_c None 2
      demo_invocations fuel demo_state = Some (s', outcomes)) ∧ length outcomes = 2.
Proof.
  destruct (batch_completes demo_clock demo_token demo_token (fun n => n) demo_options demo_router true false (state_value demo_world) 0
    (loop_counts initial_result) kTickBound demo_component_c None 2 demo_invocations demo_component_c_ok ltac:(lia) demo_state
    demo_run_inv) as (n&s'&outcomes&E&_&H&_).
  exists n, s', outcomes. split; [exact E|exact H].
Defined.
