(* ===== verification/MetricSchema.v ===== *)
(** * MetricSchema: the descriptors of the runtime metrics

    Models [src/metric_schema.cpp] and [metric_schema.hpp]: the table of the metrics that exporters may rely on, and the
    check that a list of samples keeps to it.  A [std::string_view] is a string. *)

From S2P Require Export Validate.
Local Open Scope nat_scope.

Record RuntimeMetricDescriptor := mkDescriptor {
  descr_name : string; descr_kind : string; descr_unit : string; descr_labels : list string; descr_cardinality : string; descr_stability : string;
  descr_description : string }.
Record RuntimeMetricSchemaValidationResult := mkSchemaResult { schema_ok : bool; schema_errors : list string }.
#[export] Instance eta_RuntimeMetricSchemaValidationResult : Eta RuntimeMetricSchemaValidationResult := fun r =>
  mkSchemaResult (schema_ok r) (schema_errors r).

Definition make_descriptor (name kind unit : string) (labels : list string) (cardinality stability : string) : RuntimeMetricDescriptor :=
  mkDescriptor name kind unit labels cardinality stability "".
Definition has_label (descriptor : RuntimeMetricDescriptor) (label : string) : bool := bool_decide (label ∈ descr_labels descriptor).
(** [value.rfind(prefix, 0) == 0] *)
Definition starts_with (value pre : string) : bool := String.prefix pre value.
Definition is_forbidden_default_label (label : string) : bool :=
  one_of label ["correlation_id"; "causation_id"; "transaction_id"; "trace_id"; "request_id"].

(** ** The table *)
Definition stable : string := "stable-v0.2".
Definition descriptors_for (kind unit : string) (labels : list string) (cardinality stability : string) (names : list string)
    : list RuntimeMetricDescriptor :=
  (fun name => make_descriptor name kind unit labels cardinality stability) <$> names.
Definition runtime_metric_descriptors : list RuntimeMetricDescriptor :=
  let no_labels : list string := [] in
  let lane := ["lane"] in
  let component := ["component_id"] in
  let channel := ["channel_id"] in
  descriptors_for "counter" "count" lane "bounded: lane id" stable
    ["runtime.scheduler.tick_count"; "runtime.scheduler.completed_count"; "runtime.scheduler.tick_overrun_count";
     "runtime.scheduler.skipped_tick_count"; "runtime.scheduler.rejected_count"; "runtime.scheduler.priority_high_count";
     "runtime.scheduler.priority_normal_count"; "runtime.scheduler.priority_low_count"; "runtime.scheduler.priority_background_count";
     "runtime.scheduler.low_priority_rejected_count"; "runtime.scheduler.starvation_guard_count"] ++
  descriptors_for "gauge" "count" lane "bounded: lane id" stable
    ["runtime.scheduler.queue_depth"; "runtime.scheduler.queue_capacity"; "runtime.scheduler.worker_count";
     "runtime.scheduler.active_count"; "runtime.scheduler.in_flight_count"] ++
  descriptors_for "gauge" "ms" lane "bounded: lane id" stable
    ["runtime.scheduler.max_lateness_ms"; "runtime.scheduler.last_callback_duration_ms"; "runtime.scheduler.blocked_duration_ms";
     "runtime.scheduler.tick_jitter_ms"] ++
  descriptors_for "counter" "count" channel "bounded: graph channel/edge id" stable
    ["runtime.channel.configured"; "runtime.channel.publish_count"; "runtime.channel.delivery_count"; "runtime.channel.drop_count";
     "runtime.channel.deadline_miss_count"; "runtime.channel.stale_drop_count"; "runtime.channel.reject_count";
     "runtime.channel.overwrite_count"; "runtime.channel.health_event_count"; "runtime.channel.payload_copy_count"] ++
  [make_descriptor "runtime.channel.max_depth" "gauge" "count" channel "bounded: graph channel/edge id" stable;
   make_descriptor "runtime.channel.message_age_ms" "gauge" "ms" channel "bounded: graph channel/edge id" stable] ++
  descriptors_for "counter" "count" component "bounded: graph component id" stable
    ["runtime.component.execution_count"; "runtime.component.error_count"; "runtime.component.budget_overrun_count";
     "runtime.component.cancellation_requested_count"; "runtime.component.cancellation_observed_count";
     "runtime.component.timeout_budget_exceeded_count"] ++
  [make_descriptor "runtime.component.last_duration_ns" "gauge" "ns" component "bounded: graph component id" stable;
   make_descriptor "runtime.component.max_duration_ns" "gauge" "ns" component "bounded: graph component id" stable;
   make_descriptor "runtime.component.max_in_flight_count" "gauge" "count" component "bounded: graph component id" stable] ++
  descriptors_for "counter" "count" component "bounded: graph component id" stable
    ["runtime.trigger.ready_count"; "runtime.trigger.suppressed_count"; "runtime.trigger.coalesced_count";
     "runtime.trigger.timeout_drop_count"; "runtime.trigger.batch_flush_count"; "runtime.trigger.time_sync_drop_count";
     "runtime.trigger.late_drop_count"; "runtime.trigger.pending_drop_count"; "runtime.trigger.condition_suppressed_count";
     "runtime.trigger.rate_limit_suppressed_count"] ++
  descriptors_for "counter" "count" component "bounded: composite loop id in component_id" stable
    ["runtime.loop.iterations"; "runtime.loop.converged"; "runtime.loop.budget_overrun"; "runtime.loop.max_iterations_hit";
     "runtime.loop.error"; "runtime.loop.cancellation_requested"; "runtime.loop.cancellation_observed"; "runtime.loop.output_discarded"] ++
  [make_descriptor "runtime.loop.residual" "gauge" "residual" component "bounded: composite loop id in component_id" "experimental"] ++
  descriptors_for "counter" "count" no_labels "none" stable
    ["runtime.publication.staged"; "runtime.publication.committed"; "runtime.publication.delayed"; "runtime.publication.state";
     "runtime.publication.state_committed"; "runtime.publication.async"; "runtime.publication.failed_commit";
     "runtime.async.accepted_count"; "runtime.async.rejected_count"; "runtime.async.dropped_count"; "runtime.async.overwrite_count";
     "runtime.async.completed_count"; "runtime.async.cancelled_count"; "runtime.publication.composite_discarded"] ++
  descriptors_for "gauge" "count" no_labels "none" stable
    ["runtime.async.in_flight_count"; "runtime.async.max_in_flight_count"] ++
  descriptors_for "counter" "count" no_labels "none" stable
    ["runtime.health.event_count"; "runtime.health.dropped_count"; "runtime.health.coalesced_count"] ++
  descriptors_for "counter" "count" no_labels "none" "experimental"
    ["runtime.state.staged_write_count"; "runtime.state.committed_write_count"; "runtime.state.rejected_write_count";
     "runtime.state.snapshot_read_count"] ++
  [make_descriptor "runtime.state.current_value_count" "gauge" "count" no_labels "none" "experimental";
   make_descriptor "runtime.config.version" "gauge" "version" no_labels "none" "experimental";
   make_descriptor "runtime.config.last_transaction_id" "gauge" "id" no_labels "none" "experimental"] ++
  descriptors_for "counter" "count" no_labels "none" "experimental"
    ["runtime.config.staged_update_count"; "runtime.config.committed_update_count"; "runtime.config.immediate_update_count";
     "runtime.config.rejected_update_count"; "runtime.config.rolled_back_update_count"; "runtime.config.snapshot_read_count"] ++
  descriptors_for "counter" "count" no_labels "none" "experimental"
    ["runtime.lifecycle.reset_count"; "runtime.lifecycle.reset_failure_count"; "runtime.lifecycle.restore_count";
     "runtime.lifecycle.restore_failure_count"; "runtime.lifecycle.snapshot_count"; "runtime.lifecycle.snapshot_failure_count"] ++
  [make_descriptor "runtime.lifecycle.snapshot_size_bytes" "counter" "bytes" no_labels "none" "experimental";
   make_descriptor "runtime.trace.event_count" "gauge" "count" no_labels "none" stable;
   make_descriptor "runtime.observer.failure_count" "counter" "count" no_labels "none" stable;
   make_descriptor "runtime.observer.dropped_event_count" "counter" "count" no_labels "none" stable].
Definition find_runtime_metric_descriptor (name : string) : option RuntimeMetricDescriptor :=
  List.find (fun d => str_eqb (descr_name d) name) runtime_metric_descriptors.

(** ** Validation of samples *)
Definition schema_error (error : string) (r : RuntimeMetricSchemaValidationResult) : RuntimeMetricSchemaValidationResult :=
  r <| schema_ok := false |> <| schema_errors ::= fun l => l ++ [error] |>.
Definition schema_check (b : bool) (error : string) (r : RuntimeMetricSchemaValidationResult) : RuntimeMetricSchemaValidationResult :=
  if b then schema_error error r else r.
Definition check_descriptor (acc : RuntimeMetricSchemaValidationResult * gset string) (d : RuntimeMetricDescriptor)
    : RuntimeMetricSchemaValidationResult * gset string :=
  let '(r, names) := acc in
  let r := schema_check (bool_decide (descr_name d ∈ names)) ("duplicate metric descriptor: " +:+ descr_name d) r in
  (fold_left (fun r label => schema_check (is_forbidden_default_label label)
      ("metric descriptor uses forbidden default label " +:+ label +:+ ": " +:+ descr_name d) r) (descr_labels d) r,
   {[descr_name d]} ∪ names).
Definition check_label (d : RuntimeMetricDescriptor) (name label value : string) : RuntimeMetricSchemaValidationResult → RuntimeMetricSchemaValidationResult :=
  schema_check (negb (str_empty value) && negb (has_label d label)) ("metric " +:+ name +:+ " has unexpected " +:+ label +:+ " label").
Definition check_tag (d : RuntimeMetricDescriptor) (name : string) (r : RuntimeMetricSchemaValidationResult) (tag : string)
    : RuntimeMetricSchemaValidationResult :=
  if is_forbidden_default_label tag then schema_error ("metric " +:+ name +:+ " uses forbidden default tag " +:+ tag) r
  else schema_check (negb (has_label d tag)) ("metric " +:+ name +:+ " uses undeclared tag " +:+ tag) r.
Definition check_sample (r : RuntimeMetricSchemaValidationResult) (sample : RuntimeMetricSample) : RuntimeMetricSchemaValidationResult :=
  let name := sample_name sample in
  match find_runtime_metric_descriptor name with
  | None => schema_check (starts_with name "runtime.") ("missing metric descriptor: " +:+ name) r
  | Some d =>
      let r := check_label d name "component_id" (sample_component_id sample) r in
      let r := check_label d name "lane" (sample_lane sample) r in
      let r := check_label d name "channel_id" (sample_channel_id sample) r in
      fold_left (check_tag d name) (sample_tags sample) r
  end.
Definition validate_runtime_metric_samples (samples : list RuntimeMetricSample) : RuntimeMetricSchemaValidationResult :=
  fold_left check_sample samples (fst (fold_left check_descriptor runtime_metric_descriptors (mkSchemaResult true [], ∅))).

(** ** What the check decides *)
Definition label_allowed (d : RuntimeMetricDescriptor) (label value : string) : Prop := value = "" ∨ label ∈ descr_labels d.
(** A sample that no descriptor names is the user's own, unless its name claims to be the runtime's. *)
Definition sample_conforms (s : RuntimeMetricSample) : Prop :=
  match find_runtime_metric_descriptor (sample_name s) with
  | None => starts_with (sample_name s) "runtime." = false
  | Some d => label_allowed d "component_id" (sample_component_id s) ∧ label_allowed d "lane" (sample_lane s) ∧
              label_allowed d "channel_id" (sample_channel_id s) ∧
              Forall (fun tag => is_forbidden_default_label tag = false ∧ tag ∈ descr_labels d) (sample_tags s)
  end.

(** ** Theorems *)
Abbreviation schema_result := RuntimeMetricSchemaValidationResult.
(** A check adds exactly its errors; [ok] stays true when there are none. *)
Definition schema_checks (P : Prop) (f : schema_result → schema_result) : Prop :=
  ∀ r, (schema_ok r = true ↔ schema_errors r = []) → (schema_ok (f r) = true ↔ schema_errors (f r) = []) ∧
    (schema_ok (f r) = true ↔ schema_ok r = true ∧ P).
Lemma schema_checks_error (P : Prop) e : ¬ P → schema_checks P (schema_error e).
Proof.
  intros HP r Hr. unfold schema_error. simpl. split; [|by split; [|intros [_ ?]]].
  split; [done|]. intros H. by apply app_nil in H as [_ ?].
Qed.
Lemma schema_checks_check (P : Prop) b e : (b = false ↔ P) → schema_checks P (schema_check b e).
Proof.
  intros HP. unfold schema_check. destruct b.
  - apply schema_checks_error. by rewrite <- HP.
  - intros r Hr. split; [done|]. assert P by (by apply HP). by split; [|intros [? _]].
Qed.
Lemma schema_checks_comp (P Q : Prop) f g : schema_checks P f → schema_checks Q g → schema_checks (P ∧ Q) (λ r, g (f r)).
Proof. intros Hf Hg r Hr. destruct (Hf r Hr) as [H1 H2], (Hg (f r) H1) as [H3 H4]. split; [done|]. rewrite H4, H2. tauto. Qed.
Lemma schema_checks_iff (P Q : Prop) f : (P ↔ Q) → schema_checks P f → schema_checks Q f.
Proof. intros HPQ Hf r Hr. destruct (Hf r Hr) as [H1 H2]. split; [done|]. rewrite H2. tauto. Qed.
Lemma schema_checks_fold {A} (P : A → Prop) (f : schema_result → A → schema_result) l :
  (∀ x, schema_checks (P x) (λ r, f r x)) → schema_checks (Forall P l) (λ r, fold_left f l r).
Proof.
  intros Hf. induction l as [|x l IH].
  - intros r Hr. split; [done|]. simpl. split; [by split; [|constructor]|by intros [? _]].
  - apply (schema_checks_iff (P x ∧ Forall P l)); [by rewrite list.Forall_cons|].
    apply (schema_checks_comp _ _ (λ r, f r x) (λ r, fold_left f l r)); [apply Hf|apply IH].
Qed.
Lemma check_label_exact d name label value : schema_checks (label_allowed d label value) (check_label d name label value).
Proof.
  apply schema_checks_check. unfold label_allowed, has_label. rewrite andb_false_iff, !negb_false_iff, bool_decide_eq_true, str_empty_true.
  done.
Qed.
Lemma check_tag_exact d name tag :
  schema_checks (is_forbidden_default_label tag = false ∧ tag ∈ descr_labels d) (λ r, check_tag d name r tag).
Proof.
  unfold check_tag. destruct (is_forbidden_default_label tag); [apply schema_checks_error; by intros []|].
  apply schema_checks_check. unfold has_label. rewrite negb_false_iff, bool_decide_eq_true. by split; [|intros [_ ?]].
Qed.
Lemma check_sample_exact s : schema_checks (sample_conforms s) (λ r, check_sample r s).
Proof.
  unfold sample_conforms, check_sample. destruct (find_runtime_metric_descriptor (sample_name s)) as [d|].
  - apply (schema_checks_comp _ _ (check_label d _ "component_id" _) (λ r, fold_left (check_tag d _) (sample_tags s)
      (check_label d _ "channel_id" _ (check_label d _ "lane" _ r)))); [apply check_label_exact|].
    apply (schema_checks_comp _ _ (check_label d _ "lane" _) (λ r, fold_left (check_tag d _) (sample_tags s)
      (check_label d _ "channel_id" _ r))); [apply check_label_exact|].
    apply (schema_checks_comp _ _ (check_label d _ "channel_id" _) (λ r, fold_left (check_tag d _) (sample_tags s) r));
      [apply check_label_exact|].
    apply schema_checks_fold, check_tag_exact.
  - by apply schema_checks_check.
Qed.
(** No descriptor is repeated, and none has a forbidden label. *)
Lemma descriptors_pass : fst (fold_left check_descriptor runtime_metric_descriptors (mkSchemaResult true [], ∅)) = mkSchemaResult true [].
Proof. vm_compute. reflexivity. Qed.
Lemma schema_exact samples : let r := validate_runtime_metric_samples samples in
  (schema_ok r = true ↔ schema_errors r = []) ∧ (schema_ok r = true ↔ Forall sample_conforms samples).
Proof.
  unfold validate_runtime_metric_samples. rewrite descriptors_pass.
  destruct (schema_checks_fold sample_conforms check_sample samples check_sample_exact (mkSchemaResult true [])) as [H1 H2]; [done|].
  split; [exact H1|]. rewrite H2. simpl. tauto.
Qed.
#[export] Instance label_allowed_dec d label value : Decision (label_allowed d label value).
Proof. unfold label_allowed. solve_decision. Defined.
#[export] Instance sample_conforms_dec s : Decision (sample_conforms s).
Proof. unfold sample_conforms. destruct (find_runtime_metric_descriptor (sample_name s)); solve_decision. Defined.
