(* ===== verification/RunnerResult.v ===== *)
(** * RunnerResult: the options, the result and the observers of the runtime runner

    Models the data of [include/topoexec/runtime/runtime_runner.hpp], and from [src/runtime_runner.cpp] the helpers that
    fill a result, the settings read from the graph configuration, and the observers.

    An observer is user code with a state of its own, packed with its callbacks ([Observer]); an exception of a callback
    leaves [RuntimeRunner::run].  The in-memory observer is one of them.  The values of metric samples are kept before
    they are rounded to a [double]. *)

From S2P Require Export MetricSchema LiveObserve EventRuntime.
From Stdlib Require Import Ascii.
Local Open Scope nat_scope.

(** ** Data *)
Inductive RuntimeRunMode := kValidate | kDryRun | kRun.
Definition run_mode_name (mode : RuntimeRunMode) : string :=
  match mode with kValidate => "validate" | kDryRun => "dry_run" | kRun => "run" end.
Record ComponentStateSnapshot := mkStateOf {
  so_component_type : string; so_version : string; so_payload : RuntimePayloadPtr; so_size_bytes : Z }.
#[export] Instance eta_ComponentStateSnapshot : Eta ComponentStateSnapshot := fun s =>
  mkStateOf (so_component_type s) (so_version s) (so_payload s) (so_size_bytes s).
Record RuntimeTraceEvent := mkTraceEvent {
  te_name : string; te_trace_id : string; te_phase : string; te_component_id : string; te_channel_id : string; te_lane : string;
  te_worker_id : string; te_epoch_id : string; te_transaction_id : string; te_correlation_id : string; te_causation_id : string;
  te_start_offset_ns : Z; te_duration_ns : Z; te_attributes : gmap string string }.
Record RuntimeError := mkRuntimeError {
  err_phase : string; err_component_id : string; err_lane : string; err_message : string; err_code : string;
  err_trace_id : string; err_fatal : bool }.
Record RuntimeRunnerResult := mkRunnerResult {
  out_ok : bool; out_graph_name : string; out_component_count : nat; out_channel_count : nat;
  out_validation : GraphValidationResult; out_dry_run : GraphDryRunResult; out_instantiated_components : nat;
  out_configured_components : nat; out_started_components : nat; out_stopped_components : nat; out_tick_calls : nat;
  out_metric_samples : nat; out_channel_publish_count : nat; out_channel_delivery_count : nat; out_channel_drop_count : nat;
  out_channel_overwrite_count : nat; out_channel_reject_count : nat; out_channel_stale_drop_count : nat;
  out_channel_deadline_miss_count : nat; out_payload_copy_count : nat; out_staged_publication_count : nat;
  out_committed_publication_count : nat; out_delayed_publication_count : nat; out_state_publication_count : nat;
  out_state_commit_count : nat; out_async_publication_count : nat; out_failed_publication_commit_count : nat;
  out_health_event_count : nat; out_health_event_dropped_count : nat; out_health_event_coalesced_count : nat;
  out_trace_event_count : nat; out_loop_iteration_count : nat; out_loop_converged_count : nat;
  out_loop_budget_overrun_count : nat; out_loop_max_iteration_hit_count : nat; out_loop_error_count : nat;
  out_loop_cancellation_requested_count : nat; out_loop_cancellation_observed_count : nat;
  out_loop_output_discarded_count : nat; out_lifecycle_reset_count : nat; out_lifecycle_reset_failure_count : nat;
  out_lifecycle_restore_count : nat; out_lifecycle_restore_failure_count : nat; out_lifecycle_snapshot_count : nat;
  out_lifecycle_snapshot_failure_count : nat; out_lifecycle_snapshot_bytes : Z; out_observer_failure_count : nat;
  out_observer_dropped_event_count : nat; out_live_observe_dropped_event_count : nat;
  out_scheduler_stop_reason : SchedulerStopReason; out_ticked_components : list string; out_trace : list RuntimeTraceEvent;
  out_live_events : list LiveEvent; out_health_events : list HealthEvent; out_runtime_metrics : list RuntimeMetricSample;
  out_runtime_errors : list RuntimeError; out_loop_last_residual : gmap string Double;
  out_loop_stop_reason : gmap string string; out_component_state_snapshots : gmap string ComponentStateSnapshot }.
#[export] Instance eta_RuntimeRunnerResult : Eta RuntimeRunnerResult := fun r => mkRunnerResult
  (out_ok r) (out_graph_name r) (out_component_count r) (out_channel_count r) (out_validation r) (out_dry_run r)
  (out_instantiated_components r) (out_configured_components r) (out_started_components r) (out_stopped_components r)
  (out_tick_calls r) (out_metric_samples r) (out_channel_publish_count r) (out_channel_delivery_count r)
  (out_channel_drop_count r) (out_channel_overwrite_count r) (out_channel_reject_count r) (out_channel_stale_drop_count r)
  (out_channel_deadline_miss_count r) (out_payload_copy_count r) (out_staged_publication_count r)
  (out_committed_publication_count r) (out_delayed_publication_count r) (out_state_publication_count r)
  (out_state_commit_count r) (out_async_publication_count r) (out_failed_publication_commit_count r) (out_health_event_count r)
  (out_health_event_dropped_count r) (out_health_event_coalesced_count r) (out_trace_event_count r)
  (out_loop_iteration_count r) (out_loop_converged_count r) (out_loop_budget_overrun_count r)
  (out_loop_max_iteration_hit_count r) (out_loop_error_count r) (out_loop_cancellation_requested_count r)
  (out_loop_cancellation_observed_count r) (out_loop_output_discarded_count r) (out_lifecycle_reset_count r)
  (out_lifecycle_reset_failure_count r) (out_lifecycle_restore_count r) (out_lifecycle_restore_failure_count r)
  (out_lifecycle_snapshot_count r) (out_lifecycle_snapshot_failure_count r) (out_lifecycle_snapshot_bytes r)
  (out_observer_failure_count r) (out_observer_dropped_event_count r) (out_live_observe_dropped_event_count r)
  (out_scheduler_stop_reason r) (out_ticked_components r) (out_trace r) (out_live_events r) (out_health_events r)
  (out_runtime_metrics r) (out_runtime_errors r) (out_loop_last_residual r) (out_loop_stop_reason r)
  (out_component_state_snapshots r).
Definition initial_runner_result : RuntimeRunnerResult := mkRunnerResult
  false "" 0 0 empty_validation default_dry_run 0 0 0 0 0 0 0 0 0 0 0 0 0 0 0 0 0 0 0 0 0 0 0 0 0 0 0 0 0 0 0 0 0 0 0 0 0 0 0 0
  0 0 0 Scheduler.kNotStarted [] [] [] [] [] [] ∅ ∅ ∅.

(** ** Filling a result *)
Definition of_count (n : nat) : Double := of_int (Z.of_nat n).
(** Nanoseconds as fractional milliseconds. *)
Definition of_ms (ns : Z) : Double := Finite (QArith_base.Qmake ns 1000000).
Definition copy_dry_run_to_runner (d : GraphDryRunResult) (r : RuntimeRunnerResult) : RuntimeRunnerResult :=
  r <| out_dry_run := d |> <| out_instantiated_components := dry_instantiated d |>
    <| out_configured_components := dry_configured d |> <| out_started_components := dry_started d |>
    <| out_stopped_components := dry_stopped d |> <| out_tick_calls := dry_tick_calls d |>
    <| out_metric_samples := dry_metric_samples d |> <| out_channel_publish_count := dry_channel_publish_count d |>
    <| out_channel_delivery_count := dry_channel_delivery_count d |> <| out_channel_drop_count := dry_channel_drop_count d |>
    <| out_channel_overwrite_count := dry_channel_overwrite_count d |> <| out_channel_reject_count := dry_channel_reject_count d |>
    <| out_channel_stale_drop_count := dry_channel_stale_drop_count d |>
    <| out_channel_deadline_miss_count := dry_channel_deadline_miss_count d |>
    <| out_payload_copy_count := dry_payload_copy_count d |> <| out_ticked_components := dry_ticked_components d |>
    <| out_runtime_metrics := dry_runtime_metrics d |>.
Definition append_runtime_metric (name : string) (value : Double) (component_id lane channel_id : string)
    (r : RuntimeRunnerResult) : RuntimeRunnerResult :=
  r <| out_runtime_metrics ::= fun l => l ++ [mkSample name value component_id lane channel_id []] |>.
Definition append_runtime_error (error : RuntimeError) (r : RuntimeRunnerResult) : RuntimeRunnerResult :=
  r <| out_runtime_errors ::= fun l => l ++ [error] |>.
Definition make_runtime_error (phase component_id lane message code : string) (fatal : bool) : RuntimeError :=
  mkRuntimeError phase component_id lane message code "" fatal.
Definition has_fatal_runtime_error (r : RuntimeRunnerResult) : bool := existsb err_fatal (out_runtime_errors r).
Definition count_metric_samples (r : RuntimeRunnerResult) : RuntimeRunnerResult :=
  r <| out_metric_samples := length (out_runtime_metrics r) |>.
(** A metric that is only reported when it is not zero. *)
Definition append_if_set (name : string) (n : Z) (r : RuntimeRunnerResult) : RuntimeRunnerResult :=
  if (n =? 0)%Z then r else append_runtime_metric name (of_int n) "" "" "" r.
Definition append_lifecycle_metrics (r : RuntimeRunnerResult) : RuntimeRunnerResult :=
  let n (f : RuntimeRunnerResult → nat) : Z := Z.of_nat (f r) in
  let r1 := append_if_set "runtime.lifecycle.reset_count" (n out_lifecycle_reset_count) r in
  let r2 := append_if_set "runtime.lifecycle.reset_failure_count" (n out_lifecycle_reset_failure_count) r1 in
  let r3 := append_if_set "runtime.lifecycle.restore_count" (n out_lifecycle_restore_count) r2 in
  let r4 := append_if_set "runtime.lifecycle.restore_failure_count" (n out_lifecycle_restore_failure_count) r3 in
  let r5 := append_if_set "runtime.lifecycle.snapshot_count" (n out_lifecycle_snapshot_count) r4 in
  let r6 := append_if_set "runtime.lifecycle.snapshot_failure_count" (n out_lifecycle_snapshot_failure_count) r5 in
  append_if_set "runtime.lifecycle.snapshot_size_bytes" (out_lifecycle_snapshot_bytes r) r6.
Definition snapshot_size_bytes (s : ComponentStateSnapshot) : Z :=
  if negb (so_size_bytes s =? 0)%Z then so_size_bytes s else
  match so_payload s with None => 0%Z | Some p => info_size_estimate (describe_payload_schema p) end.
(** The component of an error message of the event runtime; empty when the message is not about a component. *)
Definition component_id_from_legacy_error (message : string) : string :=
  if negb (String.prefix "component " message) then "" else
  match String.index 10 " failed:" message with
  | None => ""
  | Some stop => String.substring 10 (stop - 10) message
  end.

(** ** Settings of the graph configuration *)
Definition parse_config_bool (config : ConfigView) (key : string) : option bool :=
  match config_values config !! key with
  | None => None
  | Some value =>
      if one_of value ["true"; "1"; "yes"; "on"] then Some true
      else if one_of value ["false"; "0"; "no"; "off"] then Some false else None
  end.
Definition is_space (c : ascii) : bool := one_of (String c "") [" "; "009"; "010"; "011"; "012"; "013"].
Fixpoint skip_spaces (s : string) : string :=
  match s with String c rest => if is_space c then skip_spaces rest else s | EmptyString => s end.
Definition digit (c : ascii) : option Z :=
  let n := Z.of_nat (nat_of_ascii c) in if ((48 <=? n) && (n <=? 57))%Z then Some (n - 48)%Z else None.
(** The digits at the front, read as a number; [None]: there are none. *)
Fixpoint read_digits (s : string) (seen : option Z) : option Z :=
  match s with
  | String c rest => match digit c with Some d => read_digits rest (Some (default 0 seen * 10 + d)%Z) | None => seen end
  | EmptyString => seen
  end.
(** [std::stoull]: spaces, a sign, digits; [None]: it throws.  A negative number is negated in 64 bits. *)
Definition stoull (s : string) : option Z :=
  let s := skip_spaces s in
  let '(negative, digits) := match s with
    | String "-" rest => (true, rest)
    | String "+" rest => (false, rest)
    | _ => (false, s)
    end in
  match read_digits digits None with
  | None => None
  | Some n => if (u64_max <? n)%Z then None else Some (if negative then u64 (- n) else n)
  end.
Definition starts_with_minus (s : string) : bool := match s with String c _ => bool_decide (c = "-"%char) | EmptyString => false end.
Definition parse_config_size (config : ConfigView) (key : string) : option Z :=
  match config_values config !! key with
  | None => None
  | Some value => if str_empty value || starts_with_minus value then None else stoull value
  end.

(** ** Observers *)
Inductive ObserverCall :=
| OnMetric (metric : RuntimeMetricSample)
| OnTraceEvent (event : RuntimeTraceEvent)
| OnHealthEvent (event : HealthEvent)
| OnRuntimeError (error : RuntimeError)
| OnResult (result : RuntimeRunnerResult).
Definition callback_name (call : ObserverCall) : string :=
  match call with
  | OnMetric _ => "on_metric" | OnTraceEvent _ => "on_trace_event" | OnHealthEvent _ => "on_health_event"
  | OnRuntimeError _ => "on_runtime_error" | OnResult _ => "on_result"
  end.
Record RuntimeObserverStatus := mkObserverStatus { os_dropped_event_count : nat; os_failure_count : nat }.
(** [None]: the callback throws. *)
Record Observer := mkObserver {
  observer_state : Type; observer_call : ObserverCall → observer_state → option (observer_state * Status);
  observer_status : observer_state → RuntimeObserverStatus; observer_current : observer_state }.
Definition call_observer (call : ObserverCall) (o : Observer) : option (Observer * Status) :=
  match observer_call o call (observer_current o) with
  | None => None
  | Some (state, status) => Some (mkObserver (observer_state o) (observer_call o) (observer_status o) state, status)
  end.
Definition status_of_observer (o : Observer) : RuntimeObserverStatus := observer_status o (observer_current o).
(** [RuntimeObserver] itself: every callback succeeds. *)
Definition NoopRuntimeObserver : Observer :=
  mkObserver unit (fun _ s => Some (s, status_success)) (fun _ => mkObserverStatus 0 0) tt.

Record RuntimeRunnerOptions := mkRunnerOptions {
  opt_mode : RuntimeRunMode; opt_tick_iterations : nat; opt_run_duration_ms : Z; opt_run_until_idle : bool;
  opt_emit_health_events : bool; opt_health_event_capacity : Z; opt_reset_component_ids : list string;
  opt_restore_component_states : gmap string ComponentStateSnapshot; opt_capture_component_state_snapshots : bool;
  opt_live_observe : LiveObserveOptions; opt_observers : list (option Observer) }.
Definition resolved_health_event_enabled (graph : GraphSpec) (options : RuntimeRunnerOptions) : bool :=
  default (opt_emit_health_events options) (parse_config_bool (graph_config graph) "emit_health_events").
Definition resolved_health_event_capacity (graph : GraphSpec) (options : RuntimeRunnerOptions) : Z :=
  default (opt_health_event_capacity options) (parse_config_size (graph_config graph) "health_event_capacity").

(** The failed deliveries so far, and the text of the first. *)
Record Delivery := mkDelivery { callback_failure_count : nat; first_failure : string }.
Definition record_delivery (status : Status) (callback : string) (d : Delivery) : Delivery :=
  if status_ok status then d else
  mkDelivery (S (callback_failure_count d))
    (if str_empty (first_failure d) then callback +:+ ": " +:+ status_message status else first_failure d).
Fixpoint deliver (calls : list ObserverCall) (o : Observer) (d : Delivery) : option (Observer * Delivery) :=
  match calls with
  | [] => Some (o, d)
  | call :: rest =>
      match call_observer call o with
      | None => None
      | Some (o, status) => deliver rest o (record_delivery status (callback_name call) d)
      end
  end.
(** What an observer is told, in order. *)
Definition observations (r : RuntimeRunnerResult) : list ObserverCall :=
  (OnMetric <$> out_runtime_metrics r) ++ (OnTraceEvent <$> out_trace r) ++ (OnHealthEvent <$> out_health_events r) ++
  (OnRuntimeError <$> out_runtime_errors r) ++ [OnResult r].
Fixpoint tell_observers (observers : list (option Observer)) (d : Delivery) (r : RuntimeRunnerResult)
    : option (list (option Observer) * Delivery * RuntimeRunnerResult) :=
  match observers with
  | [] => Some ([], d, r)
  | None :: rest =>
      match tell_observers rest d r with None => None | Some (os, d, r) => Some (None :: os, d, r) end
  | Some o :: rest =>
      match deliver (observations r) o d with
      | None => None
      | Some (o, d) =>
          let status := status_of_observer o in
          let r := r <| out_observer_dropped_event_count ::= fun n => n + os_dropped_event_count status |>
                     <| out_observer_failure_count ::= fun n => n + os_failure_count status |> in
          match tell_observers rest d r with None => None | Some (os, d, r) => Some (Some o :: os, d, r) end
      end
  end.
Definition notify_runtime_observers (observers : list (option Observer)) (r : RuntimeRunnerResult)
    : option (list (option Observer) * RuntimeRunnerResult) :=
  match observers with
  | [] => Some ([], r)
  | _ =>
      match tell_observers observers (mkDelivery 0 "") r with
      | None => None
      | Some (os, d, r) =>
          let failures := callback_failure_count d in
          let r := r <| out_observer_failure_count ::= fun n => n + failures |> in
          let r := if failures =? 0 then r else
            append_runtime_error (make_runtime_error "observer" "" ""
              ("observer callback failure count: " +:+ to_string_nat failures +:+
               (if str_empty (first_failure d) then "" else " (" +:+ first_failure d +:+ ")")) "observer_failure" false) r in
          let r := append_if_set "runtime.observer.failure_count" (Z.of_nat (out_observer_failure_count r)) r in
          let r := append_if_set "runtime.observer.dropped_event_count" (Z.of_nat (out_observer_dropped_event_count r)) r in
          Some (os, count_metric_samples r)
      end
  end.

(** *** The observer that keeps what it is told *)
Record InMemoryRuntimeObserver := mkInMemory {
  mem_capacity : nat; mem_results : list RuntimeRunnerResult; mem_metrics : list RuntimeMetricSample;
  mem_trace_events : list RuntimeTraceEvent; mem_health_events : list HealthEvent; mem_runtime_errors : list RuntimeError;
  mem_dropped_event_count : nat }.
#[export] Instance eta_InMemoryRuntimeObserver : Eta InMemoryRuntimeObserver := fun o =>
  mkInMemory (mem_capacity o) (mem_results o) (mem_metrics o) (mem_trace_events o) (mem_health_events o) (mem_runtime_errors o)
    (mem_dropped_event_count o).
Definition InMemoryRuntimeObserver_new (capacity : nat) : InMemoryRuntimeObserver := mkInMemory capacity [] [] [] [] [] 0.
(** The records after a push, and how many events it dropped; [locked]: [try_lock] obtained the mutex. *)
Definition push_bounded {T} (capacity : nat) (locked : bool) (records : list T) (value : T) : list T * nat :=
  if capacity =? 0 then (records, 1) else
  if negb locked then (records, 1) else
  if capacity <=? length records then (tail records ++ [value], 1) else (records ++ [value], 0).
Definition store_call (locked : bool) (call : ObserverCall) (o : InMemoryRuntimeObserver) : InMemoryRuntimeObserver :=
  let capacity := mem_capacity o in
  let '(o, dropped) := match call with
    | OnMetric x => let '(l, n) := push_bounded capacity locked (mem_metrics o) x in (o <| mem_metrics := l |>, n)
    | OnTraceEvent x => let '(l, n) := push_bounded capacity locked (mem_trace_events o) x in (o <| mem_trace_events := l |>, n)
    | OnHealthEvent x => let '(l, n) := push_bounded capacity locked (mem_health_events o) x in (o <| mem_health_events := l |>, n)
    | OnRuntimeError x => let '(l, n) := push_bounded capacity locked (mem_runtime_errors o) x in (o <| mem_runtime_errors := l |>, n)
    | OnResult x => let '(l, n) := push_bounded capacity locked (mem_results o) x in (o <| mem_results := l |>, n)
    end in
  o <| mem_dropped_event_count ::= fun n => n + dropped |>.
Definition in_memory_status (o : InMemoryRuntimeObserver) : RuntimeObserverStatus := mkObserverStatus (mem_dropped_event_count o) 0.
(** [clear] *)
Definition clear_in_memory (o : InMemoryRuntimeObserver) : InMemoryRuntimeObserver := InMemoryRuntimeObserver_new (mem_capacity o).
(** The observer with the number of its calls; [lock n]: the n-th call obtained the mutex. *)
Definition in_memory_observer (lock : nat → bool) (o : InMemoryRuntimeObserver) : Observer :=
  mkObserver (nat * InMemoryRuntimeObserver) (fun call s => Some ((S s.1, store_call (lock s.1) call s.2), status_success))
    (fun s => in_memory_status s.2) (0, o).
