(* ===== verification/Otel.v ===== *)
(** * Otel: the OpenTelemetry exporter

    Models [include/topoexec/adapters/otel.hpp]: an observer that maps what the runner tells it to metric, span and log
    records and keeps the first [capacity] of each kind. *)

From S2P Require Export RunnerResult.
Local Open Scope nat_scope.

(** ** Records *)
Record MetricRecord := mkMetricRecord {
  mr_name : string; mr_instrument_kind : string; mr_unit : string; mr_stability : string; mr_value : Double;
  mr_attributes : gmap string string }.
Record OtelSpanRecord := mkOtelSpan {
  os_name : string; os_trace_id : string; os_span_kind : string; os_phase : string; os_start_offset_ns : Z; os_duration_ns : Z;
  os_attributes : gmap string string }.
Record OtelLogRecord := mkOtelLog { ol_severity : string; ol_body : string; ol_attributes : gmap string string }.
Record ExporterPreview := mkOtelExporter {
  ox_capacity : nat; ox_fail_on_unknown_metric : bool; ox_metrics : list MetricRecord; ox_spans : list OtelSpanRecord;
  ox_logs : list OtelLogRecord; ox_dropped_event_count : nat; ox_failure_count : nat }.
#[export] Instance eta_ExporterPreview : Eta ExporterPreview := fun x =>
  mkOtelExporter (ox_capacity x) (ox_fail_on_unknown_metric x) (ox_metrics x) (ox_spans x) (ox_logs x) (ox_dropped_event_count x)
    (ox_failure_count x).
Definition ExporterPreview_new (capacity : nat) (fail_on_unknown_metric : bool) : ExporterPreview :=
  mkOtelExporter capacity fail_on_unknown_metric [] [] [] 0 0.

(** ** Mapping *)
Definition kRuntimeMetricSchemaVersion : string := "1".
Definition kRuntimeTraceSchemaVersion : string := "1".
Definition add_if_present (key value : string) (attributes : gmap string string) : gmap string string :=
  if negb (str_empty value) then <[key := value]> attributes else attributes.
Definition add_all (pairs : list (string * string)) (attributes : gmap string string) : gmap string string :=
  fold_left (fun a kv => add_if_present kv.1 kv.2 a) pairs attributes.
Definition otel_instrument_kind (kind : string) : string :=
  if str_eqb kind "counter" then "counter" else if str_eqb kind "histogram" then "histogram" else "observable_gauge".
Definition add_label (d : RuntimeMetricDescriptor) (label value : string) (attributes : gmap string string) : gmap string string :=
  if has_label d label then add_if_present label value attributes else attributes.
Definition add_ignored_tags (m : RuntimeMetricSample) (attributes : gmap string string) : gmap string string :=
  if bool_decide (sample_tags m = []) then attributes
  else <["topoexec.ignored_tag_count" := to_string_nat (length (sample_tags m))]> attributes.
(** The record, or the failure; [counted] says whether the failure count grows. *)
Definition map_metric (fail_on_unknown : bool) (m : RuntimeMetricSample) : bool * (Status + MetricRecord) :=
  match find_runtime_metric_descriptor (sample_name m) with
  | None =>
      (true, if fail_on_unknown then inl (status_error ("unknown runtime metric descriptor: " +:+ sample_name m))
             else inr (mkMetricRecord (sample_name m) "observable_gauge" "1" "unknown" (sample_value m) (add_ignored_tags m ∅)))
  | Some d =>
      let attributes : gmap string string := <["topoexec.metric_schema_version" := kRuntimeMetricSchemaVersion]> ∅ in
      let attributes := add_label d "component_id" (sample_component_id m) attributes in
      let attributes := add_label d "lane" (sample_lane m) attributes in
      let attributes := add_label d "channel_id" (sample_channel_id m) attributes in
      (false, inr (mkMetricRecord (descr_name d) (otel_instrument_kind (descr_kind d)) (descr_unit d) (descr_stability d)
        (sample_value m) (add_ignored_tags m attributes)))
  end.
Definition map_trace_event (e : RuntimeTraceEvent) : OtelSpanRecord :=
  mkOtelSpan (te_name e) (te_trace_id e) "internal" (te_phase e) (te_start_offset_ns e) (te_duration_ns e)
    (add_all [("topoexec.trace_schema_version", kRuntimeTraceSchemaVersion); ("phase", te_phase e); ("component_id", te_component_id e);
      ("channel_id", te_channel_id e); ("lane", te_lane e); ("worker_id", te_worker_id e); ("epoch_id", te_epoch_id e);
      ("transaction_id", te_transaction_id e); ("correlation_id", te_correlation_id e); ("causation_id", te_causation_id e)]
      (te_attributes e)).
Definition add_count (key : string) (n : nat) (attributes : gmap string string) : gmap string string :=
  if n =? 0 then attributes else <[key := to_string_nat n]> attributes.
Definition map_health_event (e : HealthEvent) : OtelLogRecord :=
  let attributes := add_all [("source", he_source e); ("component_id", he_component_id e); ("lane", he_lane e);
    ("channel_id", he_channel_id e); ("edge_id", he_edge_id e); ("policy", he_policy e); ("reason", he_reason e)] ∅ in
  let attributes := <["sequence" := to_string_nat (he_sequence e)]> attributes in
  let attributes := <["occurrence_count" := to_string_nat (he_occurrence_count e)]> attributes in
  let attributes := add_count "capacity" (he_capacity e) (add_count "depth" (he_depth e) attributes) in
  mkOtelLog "warning" ("topoexec.health." +:+ health_event_kind_name (he_kind e)) (add_all (map_items (he_attributes e)) attributes).
Definition map_runtime_error (e : RuntimeError) : OtelLogRecord :=
  mkOtelLog (if err_fatal e then "error" else "warning") (err_message e)
    (<["fatal" := if err_fatal e then "true" else "false"]>
      (add_all [("phase", err_phase e); ("component_id", err_component_id e); ("lane", err_lane e); ("code", err_code e);
        ("trace_id", err_trace_id e)] ∅)).
Definition map_result (r : RuntimeRunnerResult) : OtelLogRecord :=
  let attributes := add_if_present "graph_name" (out_graph_name r) ∅ in
  let attributes := <["ok" := if out_ok r then "true" else "false"]> attributes in
  let attributes := <["tick_calls" := to_string_nat (out_tick_calls r)]> attributes in
  let attributes := <["metric_samples" := to_string_nat (length (out_runtime_metrics r))]> attributes in
  let attributes := <["trace_event_count" := to_string_nat (length (out_trace r))]> attributes in
  mkOtelLog (if out_ok r then "info" else "error") "topoexec.runtime.result"
    (<["runtime_errors" := to_string_nat (length (out_runtime_errors r))]> attributes).

(** ** The observer *)
(** The records after [push_bounded], and how many were dropped. *)
Definition otel_push_bounded {A} (capacity : nat) (records : list A) (record : A) : list A * nat :=
  if capacity <=? length records then (records, 1) else (records ++ [record], 0).
Definition push_metric (record : MetricRecord) (x : ExporterPreview) : ExporterPreview :=
  let '(records, dropped) := otel_push_bounded (ox_capacity x) (ox_metrics x) record in
  x <| ox_metrics := records |> <| ox_dropped_event_count ::= Nat.add dropped |>.
Definition push_span (record : OtelSpanRecord) (x : ExporterPreview) : ExporterPreview :=
  let '(records, dropped) := otel_push_bounded (ox_capacity x) (ox_spans x) record in
  x <| ox_spans := records |> <| ox_dropped_event_count ::= Nat.add dropped |>.
Definition push_log (record : OtelLogRecord) (x : ExporterPreview) : ExporterPreview :=
  let '(records, dropped) := otel_push_bounded (ox_capacity x) (ox_logs x) record in
  x <| ox_logs := records |> <| ox_dropped_event_count ::= Nat.add dropped |>.
Definition otel_on_metric (m : RuntimeMetricSample) (x : ExporterPreview) : ExporterPreview * Status :=
  let '(counted, mapped) := map_metric (ox_fail_on_unknown_metric x) m in
  let x := if counted then x <| ox_failure_count ::= S |> else x in
  match mapped with inl status => (x, status) | inr record => (push_metric record x, status_success) end.
Definition otel_call (call : ObserverCall) (x : ExporterPreview) : ExporterPreview * Status :=
  match call with
  | OnMetric m => otel_on_metric m x
  | OnTraceEvent e => (push_span (map_trace_event e) x, status_success)
  | OnHealthEvent e => (push_log (map_health_event e) x, status_success)
  | OnRuntimeError e => (push_log (map_runtime_error e) x, status_success)
  | OnResult r => (push_log (map_result r) x, status_success)
  end.
(** Calls in order, up to the first that fails. *)
Fixpoint otel_calls (calls : list ObserverCall) (x : ExporterPreview) : ExporterPreview * Status :=
  match calls with
  | [] => (x, status_success)
  | call :: rest => let '(x, status) := otel_call call x in if negb (status_ok status) then (x, status) else otel_calls rest x
  end.
Definition result_calls (r : RuntimeRunnerResult) : list ObserverCall :=
  (OnMetric <$> out_runtime_metrics r) ++ (OnTraceEvent <$> out_trace r) ++ (OnHealthEvent <$> out_health_events r) ++
  (OnRuntimeError <$> out_runtime_errors r) ++ [OnResult r].
Definition otel_export_result (r : RuntimeRunnerResult) (x : ExporterPreview) : ExporterPreview * Status := otel_calls (result_calls r) x.
Definition otel_status (x : ExporterPreview) : RuntimeObserverStatus := mkObserverStatus (ox_dropped_event_count x) (ox_failure_count x).
Definition otel_clear (x : ExporterPreview) : ExporterPreview := ExporterPreview_new (ox_capacity x) (ox_fail_on_unknown_metric x).
Definition otel_observer (x : ExporterPreview) : Observer :=
  mkObserver ExporterPreview (fun call x => Some (otel_call call x)) otel_status x.

(** ** What the exporter keeps *)
Definition metrics_of (fail : bool) (calls : list ObserverCall) : list MetricRecord :=
  omap (λ call, match call with OnMetric m => match (map_metric fail m).2 with inr record => Some record | inl _ => None end | _ => None end) calls.
Definition spans_of_calls (calls : list ObserverCall) : list OtelSpanRecord :=
  omap (λ call, match call with OnTraceEvent e => Some (map_trace_event e) | _ => None end) calls.
Definition logs_of (calls : list ObserverCall) : list OtelLogRecord :=
  omap (λ call, match call with
    | OnHealthEvent e => Some (map_health_event e) | OnRuntimeError e => Some (map_runtime_error e) | OnResult r => Some (map_result r)
    | _ => None end) calls.
Definition unknown_metrics (calls : list ObserverCall) : list RuntimeMetricSample :=
  filter (λ m, find_runtime_metric_descriptor (sample_name m) = None) (omap (λ call, match call with OnMetric m => Some m | _ => None end) calls).
(** What observer calls from outside do: none ends the sequence. *)
Definition otel_told (calls : list ObserverCall) (x : ExporterPreview) : ExporterPreview := fold_left (λ x call, (otel_call call x).1) calls x.
Lemma push_take {A} capacity (l : list A) record : otel_push_bounded capacity (take capacity l) record =
  (take capacity (l ++ [record]), if capacity <=? length l then 1 else 0).
Proof.
  unfold otel_push_bounded. rewrite length_take. destruct (Nat.leb_spec capacity (length l)).
  - replace (capacity <=? _) with true by (symmetry; apply Nat.leb_le; lia). by rewrite take_app_le by lia.
  - replace (capacity <=? _) with false by (symmetry; apply Nat.leb_gt; lia). rewrite (take_ge l) by lia.
    by rewrite take_ge by (rewrite length_app; simpl; lia).
Qed.
Lemma over_snoc {A} (l : list A) (record : A) capacity :
  length l + length [record] - capacity = (if capacity <=? length l then 1 else 0) + (length l - capacity).
Proof. simpl. destruct (Nat.leb_spec capacity (length l)); lia. Qed.
(** C. Whatever it is told, in whatever order, the exporter keeps of every kind the first records up to its capacity, in
    order, drops and counts the others, and counts the metrics without a descriptor. *)
Theorem otel_keeps_first capacity fail calls : let x := otel_told calls (ExporterPreview_new capacity fail) in
  ox_metrics x = take capacity (metrics_of fail calls) ∧ ox_spans x = take capacity (spans_of_calls calls) ∧
  ox_logs x = take capacity (logs_of calls) ∧
  ox_dropped_event_count x = (length (metrics_of fail calls) - capacity) + (length (spans_of_calls calls) - capacity) + (length (logs_of calls) - capacity) ∧
  ox_failure_count x = length (unknown_metrics calls).
Proof.
  cut (otel_told calls (ExporterPreview_new capacity fail) =
    mkOtelExporter capacity fail (take capacity (metrics_of fail calls)) (take capacity (spans_of_calls calls)) (take capacity (logs_of calls))
      ((length (metrics_of fail calls) - capacity) + (length (spans_of_calls calls) - capacity) + (length (logs_of calls) - capacity))
      (length (unknown_metrics calls))); [by intros ->|].
  induction calls as [|call calls IH] using rev_ind; [cbn; by rewrite !take_nil|]. unfold otel_told in *. rewrite fold_left_app, IH. cbn [fold_left]. clear IH.
  unfold metrics_of, spans_of_calls, logs_of, unknown_metrics. rewrite !omap_app, filter_app, !length_app.
  destruct call as [m|e|e|e|r]; cbn [omap list_omap otel_call fst]; rewrite ?app_nil_r, ?Nat.add_0_r;
    [|unfold push_span, push_log; cbn [ox_capacity ox_spans ox_logs]; rewrite push_take, over_snoc; cbn; f_equal; lia..].
  unfold otel_on_metric. destruct (map_metric fail m) as [counted mapped] eqn:Em. cbn [ox_fail_on_unknown_metric]. rewrite Em. cbn [snd].
  assert (counted = bool_decide (find_runtime_metric_descriptor (sample_name m) = None)) as ->.
  { unfold map_metric in Em. destruct (find_runtime_metric_descriptor _); by injection Em as <- _. }
  destruct (decide (find_runtime_metric_descriptor (sample_name m) = None)) as [Hn|Hn];
    [rewrite (bool_decide_eq_true_2 _ Hn), filter_cons_True by done|rewrite (bool_decide_eq_false_2 _ Hn), filter_cons_False by done];
    rewrite filter_nil; (destruct mapped as [status|record]; [rewrite app_nil_r; cbn; f_equal; lia|]).
  all: rewrite over_snoc; destruct (otel_push_bounded capacity (take capacity (metrics_of fail calls)) record) as [records dropped] eqn:Ep;
    unfold push_metric; cbn -[otel_push_bounded omap list_omap take filter]; fold (metrics_of fail calls); rewrite Ep;
    rewrite push_take in Ep; injection Ep as <- <-; cbn; f_equal; lia.
Qed.
(** An attribute of a health event replaces what the exporter says about the event under the same name. *)
Lemma health_attributes_win e key value : he_attributes e !! key = Some value → value ≠ "" →
  ol_attributes (map_health_event e) !! key = Some value.
Proof.
  intros Hk Hv. unfold map_health_event. cbn [ol_attributes]. unfold add_all. generalize (add_count "capacity" (he_capacity e) (add_count "depth" (he_depth e)
    (<["occurrence_count" := to_string_nat (he_occurrence_count e)]> (<["sequence" := to_string_nat (he_sequence e)]> (fold_left
      (λ (a : gmap string string) (kv : string * string), add_if_present kv.1 kv.2 a)
      [("source", he_source e); ("component_id", he_component_id e); ("lane", he_lane e); ("channel_id", he_channel_id e); ("edge_id", he_edge_id e);
       ("policy", he_policy e); ("reason", he_reason e)] ∅))))). intros attributes.
  apply elem_of_map_items in Hk. pose proof (NoDup_map_keys (he_attributes e)) as Hn. unfold map_keys in Hn. revert attributes Hk Hn.
  generalize (map_items (he_attributes e)). intros l. induction l as [|[k v] l IH]; intros attributes Hin Hn; [by apply elem_of_nil in Hin|].
  cbn [fold_left fst snd]. apply NoDup_cons in Hn as [Hk Hn]. apply elem_of_cons in Hin as [[= <- <-]|Hin]; [|by apply IH].
  assert (∀ m : gmap string string, m !! key = Some value → fold_left (λ a kv, add_if_present kv.1 kv.2 a) l m !! key = Some value) as Hkeep.
  { clear IH Hn. induction l as [|[k' v'] l IH]; intros m Hm; [done|]. cbn [fold_left fst snd]. apply IH; [set_solver|].
    unfold add_if_present. destruct (negb _); [|done]. rewrite lookup_insert_ne; [done|]. set_solver. }
  apply Hkeep. unfold add_if_present. destruct value; [done|]. apply lookup_insert_eq.
Qed.
