(* ===== verification/RunnerMetrics.v ===== *)
(** * RunnerMetrics: the metrics of a result

    Models the part of [RuntimeRunner::run] ([src/runtime_runner.cpp]) that turns what a run counted into totals of the
    result and metric samples, one function per group of metrics.  [std::map] is iterated in the order of its keys. *)

From S2P Require Export RunnerResult.
Local Open Scope nat_scope.

(** Appends samples in order. *)
Definition append_samples (samples : list RuntimeMetricSample) (r : RuntimeRunnerResult) : RuntimeRunnerResult :=
  r <| out_runtime_metrics ::= fun l => l ++ samples |>.
Definition lane_sample (lane : string) (nv : string * Double) : RuntimeMetricSample := mkSample nv.1 nv.2 "" lane "" [].
Definition component_sample (id : string) (nv : string * Double) : RuntimeMetricSample := mkSample nv.1 nv.2 id "" "" [].
Definition channel_sample (id : string) (nv : string * Double) : RuntimeMetricSample := mkSample nv.1 nv.2 "" "" id [].
Definition plain_sample (nv : string * Double) : RuntimeMetricSample := mkSample nv.1 nv.2 "" "" "" [].

(** ** The event runtime *)
Definition scheduler_samples (lane : string) (m : SchedulerMetrics) : list RuntimeMetricSample :=
  lane_sample lane <$>
  [("runtime.scheduler.tick_count", of_count (tick_count m)); ("runtime.scheduler.completed_count", of_count (completed_count m));
   ("runtime.scheduler.tick_overrun_count", of_count (tick_overrun_count m));
   ("runtime.scheduler.skipped_tick_count", of_count (skipped_tick_count m));
   ("runtime.scheduler.max_lateness_ms", of_ms (max_lateness_ns m)); ("runtime.scheduler.queue_depth", of_count (queue_depth m));
   ("runtime.scheduler.queue_capacity", of_count (queue_capacity m)); ("runtime.scheduler.worker_count", of_count (worker_count m));
   ("runtime.scheduler.last_callback_duration_ms", of_ms (last_callback_duration_ns m));
   ("runtime.scheduler.blocked_duration_ms", of_ms (blocked_duration_ns m)); ("runtime.scheduler.tick_jitter_ms", of_ms (tick_jitter_ns m));
   ("runtime.scheduler.active_count", of_count (active_count m)); ("runtime.scheduler.in_flight_count", of_count (in_flight_count m));
   ("runtime.scheduler.rejected_count", of_count (enqueue_rejected_count m));
   ("runtime.scheduler.priority_high_count", of_count (priority_high_count m));
   ("runtime.scheduler.priority_normal_count", of_count (priority_normal_count m));
   ("runtime.scheduler.priority_low_count", of_count (priority_low_count m));
   ("runtime.scheduler.priority_background_count", of_count (priority_background_count m));
   ("runtime.scheduler.low_priority_rejected_count", of_count (low_priority_rejected_count m));
   ("runtime.scheduler.starvation_guard_count", of_count (starvation_guard_count m))].
Definition component_samples (id : string) (m : ComponentExecutionMetrics) : list RuntimeMetricSample :=
  component_sample id <$>
  [("runtime.component.execution_count", of_count (cx_execution_count m)); ("runtime.component.error_count", of_count (cx_error_count m));
   ("runtime.component.last_duration_ns", of_int (cx_last_duration_ns m)); ("runtime.component.max_duration_ns", of_int (cx_max_duration_ns m));
   ("runtime.component.budget_overrun_count", of_count (cx_budget_overrun_count m));
   ("runtime.component.cancellation_requested_count", of_count (cx_cancellation_requested_count m));
   ("runtime.component.cancellation_observed_count", of_count (cx_cancellation_observed_count m));
   ("runtime.component.timeout_budget_exceeded_count", of_count (cx_timeout_budget_exceeded_count m));
   ("runtime.component.max_in_flight_count", of_count (cx_max_in_flight_count m))].
Definition trigger_samples (id : string) (m : TriggerRuntimeMetrics) : list RuntimeMetricSample :=
  component_sample id <$>
  [("runtime.trigger.ready_count", of_count (tr_ready_count m)); ("runtime.trigger.suppressed_count", of_count (tr_suppressed_count m));
   ("runtime.trigger.coalesced_count", of_count (tr_coalesced_count m));
   ("runtime.trigger.timeout_drop_count", of_count (timeout_drop_count m));
   ("runtime.trigger.batch_flush_count", of_count (batch_flush_count m));
   ("runtime.trigger.time_sync_drop_count", of_count (time_sync_drop_count m));
   ("runtime.trigger.late_drop_count", of_count (late_drop_count m)); ("runtime.trigger.pending_drop_count", of_count (pending_drop_count m));
   ("runtime.trigger.condition_suppressed_count", of_count (condition_suppressed_count m));
   ("runtime.trigger.rate_limit_suppressed_count", of_count (rate_limit_suppressed_count m))].
(** Samples for every entry of a map. *)
Definition samples_of {V} (f : string → V → list RuntimeMetricSample) (m : gmap string V) : list RuntimeMetricSample :=
  map_items m ≫= fun '(k, v) => f k v.
Definition loop_samples (name : string) (m : gmap string nat) : list RuntimeMetricSample :=
  samples_of (fun id n => [component_sample id (name, of_count n)]) m.
Definition loop_total (m : gmap string nat) : nat := sum_list_with snd (map_items m).
Definition append_run_metrics (x : SchedulerRunResult) (r : RuntimeRunnerResult) : RuntimeRunnerResult :=
  let r := append_samples (samples_of scheduler_samples (res_group_metrics x)) r in
  let r := append_samples (samples_of component_samples (res_component_metrics x)) r in
  append_samples (samples_of trigger_samples (res_trigger_metrics x)) r.
(** A group of counts by loop: the metric, the counts, and the total of the result that they are added to. *)
Record LoopGroup := mkLoopGroup {
  lg_name : string; lg_counts : gmap string nat; lg_add : nat → RuntimeRunnerResult → RuntimeRunnerResult }.
Definition loop_groups (x : SchedulerRunResult) : list LoopGroup :=
  [mkLoopGroup "runtime.loop.iterations" (loop_iteration_count x) (fun n r => r <| out_loop_iteration_count ::= Nat.add n |>);
   mkLoopGroup "runtime.loop.converged" (loop_converged_count x) (fun n r => r <| out_loop_converged_count ::= Nat.add n |>);
   mkLoopGroup "runtime.loop.budget_overrun" (loop_budget_overrun_count x) (fun n r => r <| out_loop_budget_overrun_count ::= Nat.add n |>);
   mkLoopGroup "runtime.loop.max_iterations_hit" (loop_max_iteration_hit_count x)
     (fun n r => r <| out_loop_max_iteration_hit_count ::= Nat.add n |>);
   mkLoopGroup "runtime.loop.error" (loop_error_count x) (fun n r => r <| out_loop_error_count ::= Nat.add n |>);
   mkLoopGroup "runtime.loop.cancellation_requested" (loop_cancellation_requested_count x)
     (fun n r => r <| out_loop_cancellation_requested_count ::= Nat.add n |>);
   mkLoopGroup "runtime.loop.cancellation_observed" (loop_cancellation_observed_count x)
     (fun n r => r <| out_loop_cancellation_observed_count ::= Nat.add n |>);
   mkLoopGroup "runtime.loop.output_discarded" (loop_output_discarded_count x)
     (fun n r => r <| out_loop_output_discarded_count ::= Nat.add n |>)].
Definition append_loop_group (r : RuntimeRunnerResult) (g : LoopGroup) : RuntimeRunnerResult :=
  append_samples (loop_samples (lg_name g) (lg_counts g)) (lg_add g (loop_total (lg_counts g)) r).
Definition append_loop_metrics (x : SchedulerRunResult) (r : RuntimeRunnerResult) : RuntimeRunnerResult :=
  let r := fold_left append_loop_group (loop_groups x) r in
  let r := append_samples (samples_of (fun id residual => [component_sample id ("runtime.loop.residual", residual)]) (loop_last_residual x))
    (r <| out_loop_last_residual ::= fun m => loop_last_residual x ∪ m |>) in
  r <| out_loop_stop_reason ::= fun m => loop_stop_reason x ∪ m |>.
(** The error of the event runtime, attributed to a component when it names one. *)
Definition runtime_error_of (error : string) : RuntimeError :=
  let id := component_id_from_legacy_error error in
  make_runtime_error (if str_empty id then "runtime" else "execute") id "" error
    (if str_empty id then "runtime" else "component_execute") true.
Definition copy_run_result (x : SchedulerRunResult) (r : RuntimeRunnerResult) : RuntimeRunnerResult :=
  let r := r <| out_ok := res_ok x |> <| out_scheduler_stop_reason := res_stop_reason x |>
             <| out_tick_calls := res_tick_calls x |> <| out_ticked_components := ticked_tasks x |> in
  let r := r <| out_runtime_errors ::= fun l => l ++ (runtime_error_of <$> res_errors x) |> in
  append_loop_metrics x (append_run_metrics x r).

(** ** Channels and publications *)
Definition channel_samples (m : RuntimeChannelMetrics) : list RuntimeMetricSample :=
  channel_sample (cm_channel_id m) <$>
  [("runtime.channel.publish_count", of_count (published_count m)); ("runtime.channel.delivery_count", of_count (delivered_count m));
   ("runtime.channel.drop_count", of_count (drop_count m)); ("runtime.channel.deadline_miss_count", of_count (deadline_miss_count m));
   ("runtime.channel.stale_drop_count", of_count (stale_drop_count m)); ("runtime.channel.reject_count", of_count (reject_count m));
   ("runtime.channel.overwrite_count", of_count (overwrite_count m)); ("runtime.channel.health_event_count", of_count (health_event_count m));
   ("runtime.channel.max_depth", of_count (max_depth m)); ("runtime.channel.message_age_ms", of_ms (message_age_ns m));
   ("runtime.channel.payload_copy_count", of_count (payload_copy_count m))].
Definition append_channel (m : RuntimeChannelMetrics) (r : RuntimeRunnerResult) : RuntimeRunnerResult :=
  append_samples (channel_samples m)
    (r <| out_channel_publish_count ::= Nat.add (published_count m) |> <| out_channel_delivery_count ::= Nat.add (delivered_count m) |>
       <| out_channel_drop_count ::= Nat.add (drop_count m) |> <| out_channel_overwrite_count ::= Nat.add (overwrite_count m) |>
       <| out_channel_reject_count ::= Nat.add (reject_count m) |> <| out_channel_stale_drop_count ::= Nat.add (stale_drop_count m) |>
       <| out_channel_deadline_miss_count ::= Nat.add (deadline_miss_count m) |>
       <| out_payload_copy_count ::= Nat.add (payload_copy_count m) |>).
Definition append_channels (l : list RuntimeChannelMetrics) (r : RuntimeRunnerResult) : RuntimeRunnerResult :=
  fold_left (fun r m => append_channel m r) l r.
Definition publication_samples (m : RuntimePublicationRouterMetrics) : list RuntimeMetricSample :=
  plain_sample <$>
  [("runtime.publication.staged", of_count (staged_count m)); ("runtime.publication.committed", of_count (committed_count m));
   ("runtime.publication.delayed", of_count (delayed_staged_count m)); ("runtime.publication.state", of_count (state_staged_count m));
   ("runtime.publication.state_committed", of_count (state_commit_count m)); ("runtime.publication.async", of_count (async_staged_count m));
   ("runtime.publication.failed_commit", of_count (failed_commit_count m));
   ("runtime.publication.composite_discarded", of_count (composite_discarded_count m));
   ("runtime.async.accepted_count", of_count (async_admission_accepted_count m));
   ("runtime.async.rejected_count", of_count (async_admission_rejected_count m));
   ("runtime.async.dropped_count", of_count (async_admission_dropped_count m));
   ("runtime.async.overwrite_count", of_count (async_admission_overwrite_count m));
   ("runtime.async.in_flight_count", of_count (async_in_flight_count m));
   ("runtime.async.max_in_flight_count", of_count (async_max_in_flight_count m));
   ("runtime.async.completed_count", of_count (async_completion_count m)); ("runtime.async.cancelled_count", of_count (async_cancelled_count m))].
Definition append_publications (m : RuntimePublicationRouterMetrics) (r : RuntimeRunnerResult) : RuntimeRunnerResult :=
  append_samples (publication_samples m)
    (r <| out_staged_publication_count := staged_count m |> <| out_committed_publication_count := committed_count m |>
       <| out_delayed_publication_count := delayed_staged_count m |> <| out_state_publication_count := state_staged_count m |>
       <| out_state_commit_count := state_commit_count m |> <| out_async_publication_count := async_staged_count m |>
       <| out_failed_publication_commit_count := failed_commit_count m |>).

(** ** Health events, state, configuration, the registry *)
Definition copy_health (s : HealthEventSink) (r : RuntimeRunnerResult) : RuntimeRunnerResult :=
  r <| out_health_events := sink_events s |> <| out_health_event_count := length (sink_events s) |>
    <| out_health_event_dropped_count := sink_dropped_count s |> <| out_health_event_coalesced_count := sink_coalesced_count s |>.
Definition append_health (r : RuntimeRunnerResult) : RuntimeRunnerResult :=
  append_samples (plain_sample <$> [("runtime.health.event_count", of_count (out_health_event_count r));
    ("runtime.health.dropped_count", of_count (out_health_event_dropped_count r));
    ("runtime.health.coalesced_count", of_count (out_health_event_coalesced_count r))]) r.
Definition any_set (l : list nat) : bool := existsb (fun n => negb (n =? 0)) l.
Definition append_state (m : RuntimeStateStoreMetrics) (r : RuntimeRunnerResult) : RuntimeRunnerResult :=
  if any_set [sm_staged_write_count m; sm_committed_write_count m; sm_rejected_write_count m; sm_snapshot_read_count m] then
    append_samples (plain_sample <$> [("runtime.state.staged_write_count", of_count (sm_staged_write_count m));
      ("runtime.state.committed_write_count", of_count (sm_committed_write_count m));
      ("runtime.state.rejected_write_count", of_count (sm_rejected_write_count m));
      ("runtime.state.snapshot_read_count", of_count (sm_snapshot_read_count m));
      ("runtime.state.current_value_count", of_count (sm_current_value_count m))]) r
  else r.
Definition append_config (m : ConfigSnapshotStoreMetrics) (r : RuntimeRunnerResult) : RuntimeRunnerResult :=
  if any_set [cm_staged_update_count m; cm_committed_update_count m; cm_immediate_update_count m; cm_rejected_update_count m;
              cm_rolled_back_update_count m; cm_snapshot_read_count m; cm_version m; cm_last_transaction_id m] then
    append_samples (plain_sample <$> [("runtime.config.version", of_count (cm_version m));
      ("runtime.config.last_transaction_id", of_count (cm_last_transaction_id m));
      ("runtime.config.staged_update_count", of_count (cm_staged_update_count m));
      ("runtime.config.committed_update_count", of_count (cm_committed_update_count m));
      ("runtime.config.immediate_update_count", of_count (cm_immediate_update_count m));
      ("runtime.config.rejected_update_count", of_count (cm_rejected_update_count m));
      ("runtime.config.rolled_back_update_count", of_count (cm_rolled_back_update_count m));
      ("runtime.config.snapshot_read_count", of_count (cm_snapshot_read_count m))]) r
  else r.
