(* ===== verification/RunnerTrace.v ===== *)
(** * RunnerTrace: the trace and the live events of a result

    Models the ids, spans and collectors of [src/trace.cpp] and, of [src/runtime_runner.cpp], how the spans that a run recorded and its health events become the trace of the
    result ([copy_trace_to_result]), and how the trace and the errors become live events ([finish_live_observe]).  The trace
    lists every recorded span and every health event once, by start offset and then by the order in which they were recorded;
    offsets count from the earliest event.

    The router keeps the names and attributes of the recorded spans in order ([Router.v]); their times and the ids that
    [TraceId::generate] draws are answers of the environment, by position. *)

From S2P Require Export RunnerResult.
Local Open Scope nat_scope.

(** ** Spans *)
Record SpanRecord := mkSpan {
  span_trace_id : string; span_name : string; span_started_at : Z; span_finished_at : Z; span_attributes : gmap string string }.
(** [TraceId::generate]: the reading of the steady clock, and the counter that all threads share, which wraps. *)
Definition TraceId_generate (now counter : Z) : string * Z :=
  ("trace-" +:+ to_string_Z now +:+ "-" +:+ to_string_Z counter, ((counter + 1) mod 2 ^ 64)%Z).
Definition span_duration (s : SpanRecord) : Z := (span_finished_at s - span_started_at s)%Z.
(** A collector is the list of its spans. *)
Definition collector_add (s : SpanRecord) (spans : list SpanRecord) : list SpanRecord := spans ++ [s].
Definition collector_clear (spans : list SpanRecord) : list SpanRecord := [].
(** The destructor of a scoped span, with the readings of its constructor and its own. *)
Definition scoped_span (trace_id name : string) (started_at finished_at : Z) : list SpanRecord → list SpanRecord :=
  collector_add (mkSpan trace_id name started_at finished_at ∅).

(** ** The trace *)
Definition non_negative_duration_ns (duration : Z) : Z := if (duration <? 0)%Z then 0%Z else duration.
(** Zero is the epoch that is not set yet. *)
Definition lower_epoch (epoch time : Z) : Z := if ((epoch =? 0) || (time <? epoch))%Z then time else epoch.
Definition earliest_trace_epoch (spans : list SpanRecord) (health_events : list HealthEvent) : Z :=
  fold_left (fun epoch e => lower_epoch epoch (he_observed_at e)) health_events
    (fold_left (fun epoch s => lower_epoch epoch (span_started_at s)) spans 0%Z).
Definition trace_phase_for_name (name : string) : string :=
  if starts_with name "component_" then "component" else
  if starts_with name "channel_" || str_eqb name "state_commit" || str_eqb name "async_admission" then "channel" else
  if starts_with name "scheduler_" || starts_with name "fixed_rate_" || str_eqb name "thread_pool_batch" then "scheduler" else
  if starts_with name "loop_" then "loop" else
  if starts_with name "config_transaction_" then "config" else
  if str_eqb name "health_event" then "health" else "runtime".
Definition attribute_value (attributes : gmap string string) (key : string) : string := map_at "" attributes key.
Definition make_runtime_trace_event (name trace_id : string) (start_offset_ns duration_ns : Z) (attributes : gmap string string)
    : RuntimeTraceEvent :=
  let a := attribute_value attributes in
  mkTraceEvent name trace_id (trace_phase_for_name name)
    (if str_empty (a "component_id") then a "source_component" else a "component_id")
    (a "channel_id") (a "lane") (a "worker_id") (a "epoch_id") (a "transaction_id") (a "correlation_id") (a "causation_id")
    start_offset_ns duration_ns attributes.
Definition span_event (epoch : Z) (s : SpanRecord) : RuntimeTraceEvent :=
  make_runtime_trace_event (span_name s) (span_trace_id s) (non_negative_duration_ns (span_started_at s - epoch))
    (non_negative_duration_ns (span_duration s)) (span_attributes s).
Definition health_trace_event (epoch : Z) (trace_id : string) (e : HealthEvent) : RuntimeTraceEvent :=
  make_runtime_trace_event "health_event" trace_id (non_negative_duration_ns (he_observed_at e - epoch)) 0 (health_event_attributes e).
(** The order of [std::stable_sort]; positions are distinct, so it is strict on the list that is sorted. *)
Definition ordered_before (left right : nat * RuntimeTraceEvent) : Prop :=
  (te_start_offset_ns left.2 < te_start_offset_ns right.2)%Z ∨
  te_start_offset_ns left.2 = te_start_offset_ns right.2 ∧ left.1 <= right.1.
#[export] Instance ordered_before_dec left right : Decision (ordered_before left right).
Proof. unfold ordered_before. solve_decision. Defined.

Section trace.
(** [span_times i]: start and end of the i-th span; [trace_ids i]: the id of the i-th event. *)
Context (span_times : nat → Z * Z) (trace_ids : nat → string).
Definition spans_of (recorded : list (string * gmap string string)) : list SpanRecord :=
  imap (fun i s => mkSpan (trace_ids i) s.1 (span_times i).1 (span_times i).2 s.2) recorded.
Definition trace_events_of (spans : list SpanRecord) (health_events : list HealthEvent) : list RuntimeTraceEvent :=
  let epoch := earliest_trace_epoch spans health_events in
  (span_event epoch <$> spans) ++ imap (fun i e => health_trace_event epoch (trace_ids (length spans + i)) e) health_events.
Definition copy_trace_to_result (recorded : list (string * gmap string string)) (health_events : list HealthEvent)
    (r : RuntimeRunnerResult) : RuntimeRunnerResult :=
  let ordered := merge_sort ordered_before (imap pair (trace_events_of (spans_of recorded) health_events)) in
  let r := r <| out_trace ::= fun l => l ++ ordered.*2 |> in
  r <| out_trace_event_count := length (out_trace r) |>.
End trace.

(** ** Live events *)
Definition u32 (z : Z) : Z := (z mod 2 ^ 32)%Z.
Record LiveIdMaps := mkLiveIds { live_components : gmap string Z; live_channels : gmap string Z; live_lanes : gmap string Z; live_loops : gmap string Z }.
(** [emplace] keeps the first id of a name; the counter advances for every entry. *)
Definition emplace (m : gmap string Z) (name : string) (id : Z) : gmap string Z :=
  match m !! name with Some _ => m | None => <[name := id]> m end.
Definition number_names (names : list string) : gmap string Z :=
  fst (fold_left (fun '(m, next) name => (emplace m name next, u32 (next + 1))) names (∅, 1%Z)).
Definition make_live_id_maps (graph : GraphSpec) : LiveIdMaps :=
  mkLiveIds (number_names (comp_id <$> graph_components graph)) (number_names (edge_id <$> graph_edges graph))
    (number_names (lane_id <$> graph_lanes graph)) (number_names (loop_id <$> graph_composite_loops graph)).
Definition live_id_for (ids : gmap string Z) (key : string) : Z := map_at 0%Z ids key.
Definition parse_live_u32 (value : string) : Z :=
  if str_empty value || starts_with_minus value then 0%Z else
  match stoull value with Some n => u32 n | None => 0%Z end.
Definition live_kind_for_trace (event : RuntimeTraceEvent) : option LiveEventKind :=
  let named := str_eqb (te_name event) in
  if named "component_execute_begin" then Some kComponentBegin else
  if named "component_execute_end" || named "component_execute" then Some kComponentEnd else
  if named "channel_publish" then Some kChannelPublishSummary else
  if named "state_commit" then Some kChannelCommitSummary else
  if named "async_admission" then Some kAsyncAdmission else
  if named "loop_iteration_begin" then Some kLoopIterationBegin else
  if named "loop_iteration_end" || named "loop_iteration" then Some kLoopIterationEnd else
  if named "loop_converged" then Some kLoopConverged else
  if named "loop_budget_overrun" then Some kLoopBudgetOverrun else
  if named "loop_max_iterations_hit" then Some kLoopMaxIterationsHit else
  if named "loop_error" then Some kLoopError else
  if named "health_event" then Some kHealthEvent else None.

Section live.
(** [now i]: the clock at the i-th event of the session; a build without live observation publishes
    nothing. *)
Context (kLiveObserveCompiledIn : bool) (now : nat → Z).
Abbreviation publish := (session_try_publish kLiveObserveCompiledIn).
(** Without a time, the event is stamped with the clock. *)
Definition make_live_event (kind : LiveEventKind) (i : nat) (mono_ns : Z) : LiveEvent :=
  empty_event <| ev_mono_ns := if (mono_ns =? 0)%Z then now i else mono_ns |> <| ev_kind := encode_kind kind |>
    <| ev_flags := encode_exactness LiveObserve.kExact |> <| ev_reason_id := encode_severity kInfo |>.
Definition live_trace_event (ids : LiveIdMaps) (i : nat) (e : RuntimeTraceEvent) : option LiveEvent :=
  match live_kind_for_trace e with
  | None => None
  | Some kind =>
      let event := (make_live_event kind i (te_start_offset_ns e))
        <| ev_epoch_id := parse_live_u32 (te_epoch_id e) |> <| ev_component_id := live_id_for (live_components ids) (te_component_id e) |>
        <| ev_channel_id := live_id_for (live_channels ids) (te_channel_id e) |> <| ev_lane_id := live_id_for (live_lanes ids) (te_lane e) |>
        <| ev_worker_id := parse_live_u32 (te_worker_id e) |>
        <| ev_loop_id := live_id_for (live_loops ids) (attribute_value (te_attributes e) "loop_id") |>
        <| ev_value0 := Z.to_nat (te_duration_ns e) |> in
      Some (if ((ev_kind event =? encode_kind kChannelPublishSummary) || (ev_kind event =? encode_kind kChannelCommitSummary))%Z
            then event <| ev_flags := encode_exactness kAggregated |> else event)
  end.
Definition live_error_event (ids : LiveIdMaps) (i : nat) (e : RuntimeError) : LiveEvent :=
  (make_live_event (if str_empty (err_component_id e) then kRuntimeError else kComponentError) i 0)
    <| ev_component_id := live_id_for (live_components ids) (err_component_id e) |>
    <| ev_lane_id := live_id_for (live_lanes ids) (err_lane e) |>
    <| ev_reason_id := encode_severity (if err_fatal e then LiveObserve.kError else LiveObserve.kWarning) |>.
Definition publish_all (events : list LiveEvent) (s : LiveObserveSession) : LiveObserveSession :=
  fold_left (fun s e => fst (publish s e)) events s.
(** The events of a result, after the first event of the session. *)
Definition live_trace_events (ids : LiveIdMaps) (r : RuntimeRunnerResult) : list LiveEvent :=
  omap id (imap (fun i e => live_trace_event ids (S i) e) (out_trace r)).
Definition live_error_events (ids : LiveIdMaps) (r : RuntimeRunnerResult) : list LiveEvent :=
  imap (fun i e => live_error_event ids (S (length (out_trace r) + i)) e) (out_runtime_errors r).
Definition last_live_event (r : RuntimeRunnerResult) : nat := S (length (out_trace r) + length (out_runtime_errors r)).
Definition run_finished_event (r : RuntimeRunnerResult) : LiveEvent :=
  (make_live_event kRunFinished (last_live_event r) 0) <| ev_value0 := if out_ok r then 1 else 0 |>
    <| ev_value1 := out_tick_calls r |> <| ev_value2 := Z.of_nat (length (out_runtime_errors r)) |>.
Definition finish_live_observe (ids : LiveIdMaps) (s : LiveObserveSession) (r : RuntimeRunnerResult)
    : LiveObserveSession * RuntimeRunnerResult :=
  if negb (session_enabled kLiveObserveCompiledIn s) then (s, r) else
  let s := publish_all (live_trace_events ids r) s in
  let s := publish_all (live_error_events ids r) s in
  let s := publish_all [run_finished_event r] s in
  let '(s, drained) := session_drain kLiveObserveCompiledIn 0 s in
  let r := r <| out_live_events := drained |> in
  let '(s, summary) := session_take_drop_summary kLiveObserveCompiledIn (now (S (last_live_event r))) 0 s in
  let r := match summary with Some e => r <| out_live_events ::= fun l => l ++ [e] |> | None => r end in
  let r := r <| out_live_observe_dropped_event_count := session_dropped_event_count kLiveObserveCompiledIn s |> in
  let r := append_if_set "runtime.live_observe.dropped_event_count" (Z.of_nat (out_live_observe_dropped_event_count r)) r in
  (s, count_metric_samples r).
End live.

(** ** Sorting by offset and position *)
#[export] Instance ordered_before_trans : Transitive ordered_before.
Proof. intros [i a] [j b] [k c]. unfold ordered_before. simpl. lia. Qed.
#[export] Instance ordered_before_total : Total ordered_before.
Proof. intros [i a] [j b]. unfold ordered_before. simpl. lia. Qed.
Lemma fst_imap_pair {A} (l : list A) : (imap pair l).*1 = seq 0 (length l).
Proof.
  apply list_eq. intros i. rewrite list_lookup_fmap, list_lookup_imap. destruct (l !! i) as [x|] eqn:E; simpl.
  - symmetry. apply lookup_seq. apply lookup_lt_Some in E. lia.
  - symmetry. apply lookup_seq_ge. by apply lookup_ge_None.
Qed.
Section order.
Context (all : list RuntimeTraceEvent).
Definition in_order (i j : nat) : Prop := ∀ a b, all !! i = Some a → all !! j = Some b →
  (te_start_offset_ns a < te_start_offset_ns b)%Z ∨ te_start_offset_ns a = te_start_offset_ns b ∧ i < j.
Abbreviation sorted := (merge_sort ordered_before (imap pair all)).
Lemma elem_of_sorted i e : (i, e) ∈ sorted → all !! i = Some e.
Proof.
  rewrite merge_sort_Permutation. intros [k Hk]%list_elem_of_lookup. rewrite list_lookup_imap in Hk.
  destruct (all !! k) eqn:E; [|done]. simpl in Hk. by simplify_eq.
Qed.
Lemma sorted_positions : sorted.*1 ≡ₚ seq 0 (length all).
Proof. by rewrite merge_sort_Permutation, fst_imap_pair. Qed.
Lemma sorted_events : Some <$> sorted.*2 = (λ i, all !! i) <$> sorted.*1.
Proof.
  rewrite <- !list_fmap_compose. apply list_fmap_ext. intros k [i e] Hk. simpl. symmetry. apply elem_of_sorted.
  by eapply list_elem_of_lookup_2.
Qed.
Lemma StronglySorted_positions l : StronglySorted ordered_before l → NoDup l.*1 → (∀ i e, (i, e) ∈ l → all !! i = Some e) →
  StronglySorted in_order l.*1.
Proof.
  induction 1 as [|[i a] l Hl IH Ha]; intros Hn Hall; [constructor|]. simpl in *. apply NoDup_cons in Hn as [Hi Hn]. constructor.
  - apply IH; [done|]. intros j e Hj. apply Hall. by right.
  - apply Forall_fmap, Forall_forall. intros [j b] Hj. rewrite Forall_forall in Ha. specialize (Ha _ Hj). unfold ordered_before in Ha. simpl in *.
    assert (i ≠ j). { intros ->. apply Hi, list_elem_of_fmap. by exists (j, b). }
    intros a' b' E1 E2. rewrite (Hall i a) in E1 by left. rewrite (Hall j b) in E2 by (by right). simplify_eq. lia.
Qed.
Lemma sorted_in_order : StronglySorted in_order sorted.*1.
Proof.
  apply StronglySorted_positions; [apply StronglySorted_merge_sort; apply _|rewrite sorted_positions; apply NoDup_seq|apply elem_of_sorted].
Qed.
End order.

(** ** Offsets *)
Definition event_times (spans : list SpanRecord) (events : list HealthEvent) : list Z := (span_started_at <$> spans) ++ (he_observed_at <$> events).
Lemma earliest_fold times epoch : (0 <= epoch)%Z → Forall (λ t, 0 < t)%Z times → times ≠ [] ∨ (0 < epoch)%Z →
  let e := fold_left lower_epoch times epoch in
  (0 < e)%Z ∧ (e ∈ times ∨ e = epoch) ∧ Forall (λ t, e <= t)%Z times ∧ ((0 < epoch)%Z → e <= epoch)%Z.
Proof.
  intros H0 Ht. revert epoch H0. induction Ht as [|t times Ht Hts IH]; intros epoch H0 Hne; cbn [fold_left].
  - destruct Hne as [?|Hp]; [done|]. split; [done|]. split; [by right|]. split; [constructor|lia].
  - assert (0 < lower_epoch epoch t)%Z as Hl.
    { unfold lower_epoch. destruct (Z.eqb_spec epoch 0); simpl; [done|]. destruct (Z.ltb_spec t epoch); lia. }
    assert ((lower_epoch epoch t = t ∨ lower_epoch epoch t = epoch) ∧ (lower_epoch epoch t <= t)%Z ∧
      ((0 < epoch)%Z → lower_epoch epoch t <= epoch)%Z) as (Hc&Hle1&Hle2).
    { unfold lower_epoch. destruct (Z.eqb_spec epoch 0); simpl; [lia|]. destruct (Z.ltb_spec t epoch); lia. }
    destruct (IH (lower_epoch epoch t)) as (H1&H2&H3&H4); [lia|by right|]. set (e := fold_left lower_epoch times (lower_epoch epoch t)) in *.
    split; [done|]. split; [|split; [constructor; [lia|done]|lia]].
    destruct H2 as [H2|H2]; [left; by right|]. destruct Hc as [Hc|Hc]; rewrite H2, Hc; [left; left|by right].
Qed.
Lemma earliest_trace_epoch_times spans events :
  earliest_trace_epoch spans events = fold_left lower_epoch (event_times spans events) 0%Z.
Proof.
  unfold earliest_trace_epoch, event_times. rewrite fold_left_app.
  assert (∀ {A} (f : A → Z) l e, fold_left (λ epoch x, lower_epoch epoch (f x)) l e = fold_left lower_epoch (f <$> l) e) as H.
  { intros A f l. induction l as [|x l IH]; intros e; [done|]. apply IH. }
  by rewrite (H _ span_started_at), (H _ he_observed_at).
Qed.
Lemma offsets_from_earliest times_of ids recorded events : let spans := spans_of times_of ids recorded in
  let times := event_times spans events in times ≠ [] → Forall (λ t, 0 < t)%Z times →
  ∃ earliest, earliest ∈ times ∧ Forall (λ t, earliest <= t)%Z times ∧
    te_start_offset_ns <$> trace_events_of ids spans events = (λ t, t - earliest)%Z <$> times.
Proof.
  intros spans times Hne Hp. exists (earliest_trace_epoch spans events). rewrite earliest_trace_epoch_times.
  destruct (earliest_fold times 0) as (H1&H2&H3&_); [lia|done|by left|]. fold times. set (e := fold_left lower_epoch times 0%Z) in *.
  split; [destruct H2; [done|lia]|]. split; [done|]. unfold trace_events_of. cbv zeta. rewrite earliest_trace_epoch_times. fold times. fold e.
  unfold times in H3 |- *. unfold event_times in H3 |- *. apply Forall_app in H3 as [Hs Hh]. rewrite !fmap_app. f_equal.
  - rewrite <- !list_fmap_compose. apply list_fmap_ext. intros i s Hi. simpl. unfold non_negative_duration_ns.
    rewrite Forall_fmap, Forall_lookup in Hs. specialize (Hs i s Hi). simpl in Hs. destruct (Z.ltb_spec (span_started_at s - e) 0); lia.
  - rewrite fmap_imap, <- list_fmap_compose. apply list_eq. intros i. rewrite list_lookup_imap, list_lookup_fmap.
    destruct (events !! i) as [h|] eqn:Hi; [|done]. simpl. f_equal. unfold non_negative_duration_ns.
    rewrite Forall_fmap, Forall_lookup in Hh. specialize (Hh i h Hi). simpl in Hh. destruct (Z.ltb_spec (he_observed_at h - e) 0); lia.
Qed.
