(* ===== verification/Runner.v ===== *)
(** * Runner: the lifecycle of a graph, from validation to the result

    Models [RuntimeRunner::run] of [src/runtime_runner.cpp]: validation, dry runs, and runs, which create, configure and
    activate the components, restore and reset their states, hand them to the event runtime, capture their states,
    deactivate them in reverse, and collect the metrics, the health events and the trace of the run.

    A computation is in the monad [R]: state, C++ exceptions that a handler may catch (the left summand of the answer), and
    failure ([None]) for what leaves [run] itself: undefined behaviour (a factory that returns a null pointer), or an
    exception that no handler catches.  Components are user code; the calls that the runner makes on them, in order, are
    kept in [ru_log]. *)

From S2P Require Export RunnerTrace RunnerMetrics.
Local Open Scope nat_scope.

(** ** User code *)
Record RunnerComponent := mkRunnerComponent {
  code_component : ComponentCode; code_configure : nat → ConfigView → Prog; code_activate : nat → string + Status;
  code_reset : nat → Prog; code_restore_state : nat → ComponentStateSnapshot → string + Status;
  code_snapshot_state : nat → string + (string + ComponentStateSnapshot); code_deactivate : nat → string + Status }.
(** A factory is probed by the validation; when it is called it throws, or returns a pointer. *)
Record ComponentFactory := mkFactory {
  factory_probe : string + ComponentDescriptor; factory_create : nat → string + option RunnerComponent }.
(** What a run meets: the clock and the stop token, the moves of pool workers, conversions of the standard library, times
    and ids of spans, the lock and the clock of the emission of health events, the clock of the live events, the samples
    that the components left in the metric registry, and the text of an exception that leaves the event runtime. *)
Record RunnerEnvironment := mkEnvironment {
  env_clock : nat → nat → nat → Z; env_stop_token : nat → bool; env_pick : nat → nat; env_hz_period : QArith_base.Q → Z;
  env_show_double : Double → string; env_show_threshold : QArith_base.Q → string; env_show_ms : Z → string;
  env_stod : string → option (Double * nat); env_span_times : nat → Z * Z; env_trace_ids : nat → string;
  env_emission : nat → bool * Z; env_live_clock : nat → Z; env_live_compiled_in : bool;
  env_metric_samples : list (string * Double); env_runtime_exception : string }.

(** ** State *)
Inductive LifecycleEvent :=
| EConfigure (id : string) | EActivate (id : string) | ERestore (id : string) | EReset (id : string) | ERun
| ESnapshot (id : string) | EDeactivate (id : string).
Record Instance := mkInstance { in_id : string; in_component : RunnerComponent; in_configured : bool; in_started : bool }.
Record Runner := mkRunner {
  ru_world : World; ru_result : RuntimeRunnerResult; ru_instances : list Instance; ru_log : list LifecycleEvent }.
#[export] Instance eta_Runner : Eta Runner := fun r => mkRunner (ru_world r) (ru_result r) (ru_instances r) (ru_log r).

Definition R (A : Type) : Type := Runner → option (Runner * (string + A)).
#[export] Instance R_ret : MRet R := fun A a s => Some (s, inr a).
#[export] Instance R_bind : MBind R := fun A B f m s =>
  match m s with None => None | Some (s, inl what) => Some (s, inl what) | Some (s, inr a) => f a s end.
Definition raise {A} (what : string) : R A := fun s => Some (s, inl what).
Definition abandon {A} : R A := fun _ => None.
Definition get {A} (f : Runner → A) : R A := fun s => Some (s, inr (f s)).
Definition put_state (f : Runner → Runner) : R unit := fun s => Some (f s, inr tt).
Definition on_result (f : RuntimeRunnerResult → RuntimeRunnerResult) : R unit := put_state (fun s => s <| ru_result ::= f |>).
Definition note (e : LifecycleEvent) : R unit := put_state (fun s => s <| ru_log ::= fun l => l ++ [e] |>).
Definition next_moment : R nat := do put_state (fun s => s <| ru_world ::= tick_moment |>); get (fun s => w_moment (ru_world s)).
Definition catching {A} (handler : string → R A) (m : R A) : R A := fun s =>
  match m s with None => None | Some (s, inl what) => handler what s | Some (s, inr a) => Some (s, inr a) end.
(** A loop over a list; the body may throw. *)
Fixpoint for_every {A} (body : A → R unit) (l : list A) : R unit :=
  match l with [] => mret tt | x :: rest => do body x; for_every body rest end.
(** A loop that the body may leave. *)
Fixpoint for_while {A} (body : A → R bool) (l : list A) : R unit :=
  match l with [] => mret tt | x :: rest => go ← body x; if (go : bool) then for_while body rest else mret tt end.
(** A call on a component that has no access to the objects of the run. *)
Definition call_component {A} (event : LifecycleEvent) (code : nat → string + A) : R A :=
  do note event;
  moment ← next_moment;
  match code moment with inl what => raise what | inr a => mret a end.

Definition report_error (phase id lane message code : string) (fatal : bool) : RuntimeRunnerResult → RuntimeRunnerResult :=
  append_runtime_error (make_runtime_error phase id lane message code fatal).
(** A lifecycle call failed before the run. *)
Definition lifecycle_failed (phase id lane message code : string) (r : RuntimeRunnerResult) : RuntimeRunnerResult :=
  report_error phase id lane message code true (r <| out_ok := false |> <| out_scheduler_stop_reason := Scheduler.kError |>).
Definition lane_config_from_spec (lane : LaneSpec) : SchedulerGroupConfig :=
  mkGroup (lane_id lane) (lane_type lane) (lane_hz lane) (lane_priority lane) (ms (lane_max_callback_ms lane))
    (lane_max_threads lane) (lane_queue_capacity lane) (lane_overflow lane) (lane_wall_clock_enabled lane)
    (ms (lane_period_ms lane)) (ms (lane_tick_budget_ms lane)) (lane_overrun_policy lane) (lane_thread_name lane)
    (lane_cpu_affinity lane) (lane_nice_priority lane) (lane_rt_policy lane) (lane_rt_priority lane) (lane_isolation_intent lane).
Definition lane_configs (graph : GraphSpec) : gmap string SchedulerGroupConfig :=
  fold_left (fun m lane => <[lane_id lane := lane_config_from_spec lane]> m) (graph_lanes graph) ∅.
(** [instance_indexes] keeps the last instance of an id, [specs_by_id] the first component. *)
Definition instance_for_id (id : string) (instances : list Instance) : option Instance :=
  List.find (fun i => str_eqb (in_id i) id) (reverse instances).
Definition spec_for_id (id : string) (graph : GraphSpec) : option ComponentNodeSpec :=
  List.find (fun c => str_eqb (comp_id c) id) (graph_components graph).
Definition lifecycle_context (id : string) : InvocationContext := mkInvocationContext id empty_metadata None.

(** ** The runner *)
Section runner.
(** The graph compiler and the event runtime have their own fuel. *)
Context (env : RunnerEnvironment) (registry : ComponentRegistry ComponentFactory) (compile_fuel fuel : nat).
Context (graph : GraphSpec) (options : RuntimeRunnerOptions).

(** The objects of a run.  The health event sink is object 0. *)
Definition health_sink : nat := 0.
Definition initial_world : World :=
  let bus := set_health_event_sink (Some health_sink) (RuntimeChannelBus_new (graph_edges graph)) in
  let router := set_trace_collector (Some []) (Router_new (Some bus) (graph_edges graph)) in
  let config := fold_left (fun s c => set_component_config (comp_id c) (comp_config c) s) (graph_components graph)
    (set_graph_config (graph_config graph) empty_config_store) in
  mkWorld router true (Some empty_state_store) (Some config) no_convergence (Some health_sink) [] 0.
(** The sink after everything that was emitted to it. *)
Definition health_sink_after (w : World) : HealthEventSink :=
  let sink := HealthEventSink_new (Z.to_nat (resolved_health_event_capacity graph options)) (resolved_health_event_enabled graph options) in
  fst (fold_left (fun '(s, i) e => (sink_emit (env_emission env i).1 (env_emission env i).2 (pe_event e) s, S i)) (w_events w) (sink, 0)).
(** The token of the components asks the stop token. *)
Definition run_program (id : string) (p : Prog) : R Status := fun s =>
  match run_prog (env_clock env) (env_stop_token env) (lifecycle_context id) p 0 (ru_world s) with
  | None => None
  | Some (w, answer, _) => Some (s <| ru_world := w |>, answer)
  end.
Definition call_program (event : LifecycleEvent) (id : string) (code : nat → Prog) : R Status :=
  do note event;
  moment ← next_moment;
  run_program id (code moment).
Definition record_runner_trace_event (name : string) (attributes : list (string * string)) : R unit :=
  put_state (fun s => s <| ru_world ::= trace_event name (attrs attributes) |>).

(** *** Creation and activation *)
Definition remember_instance (i : Instance) : R unit := put_state (fun s => s <| ru_instances ::= fun l => l ++ [i] |>).
Definition create_component (type : string) : R RunnerComponent :=
  match registry_create registry type with
  | inl what => raise what
  | inr factory =>
      moment ← next_moment;
      match factory_create factory moment with
      | inl what => raise what
      | inr None => abandon
      | inr (Some code) => mret code
      end
  end.
Definition start_component (spec : ComponentNodeSpec) : R bool :=
  let id := comp_id spec in
  let lane := exec_lane (execution spec) in
  code ← create_component (comp_type spec);
  configure ← call_program (EConfigure id) id (fun moment => code_configure code moment (comp_config spec));
  if negb (status_ok configure) then
    do on_result (lifecycle_failed "configure" id lane (status_message configure) "component_configure");
    do remember_instance (mkInstance id code false false);
    mret false
  else
    activate ← call_component (EActivate id) (code_activate code);
    if negb (status_ok activate) then
      do on_result (lifecycle_failed "activate" id lane (status_message activate) "component_activate");
      do remember_instance (mkInstance id code true false);
      mret false
    else
      do remember_instance (mkInstance id code true true);
      mret true.
Definition count_instances : R unit :=
  put_state (fun s => s <| ru_result ::= fun r =>
    r <| out_instantiated_components := length (ru_instances s) |>
      <| out_configured_components := count_if in_configured (ru_instances s) |>
      <| out_started_components := count_if in_started (ru_instances s) |> |>).

(** *** Restore and reset *)
(** The instance and the specification of a component that was started. *)
Definition started_target (id : string) (instances : list Instance) : option (Instance * ComponentNodeSpec) :=
  match instance_for_id id instances, spec_for_id id graph with
  | Some i, Some spec => if in_started i then Some (i, spec) else None
  | _, _ => None
  end.
Definition restore_failed (id lane message : string) : R unit :=
  on_result (fun r => lifecycle_failed "restore" id lane message "component_restore" (r <| out_lifecycle_restore_failure_count ::= S |>)).
Definition restore_component (entry : string * ComponentStateSnapshot) : R unit :=
  let '(id, state) := entry in
  target ← get (fun s => started_target id (ru_instances s));
  match target with
  | None => restore_failed id "" "component state restore target is not started"
  | Some (i, spec) =>
      let lane := exec_lane (execution spec) in
      let traced status := record_runner_trace_event "component_restore" [("component_id", id); ("status", status)] in
      if negb (str_empty (so_component_type state)) && negb (str_eqb (so_component_type state) (comp_type spec)) then
        do restore_failed id lane ("component state type " +:+ so_component_type state +:+ " does not match graph type " +:+ comp_type spec);
        traced "type_mismatch"
      else
        do traced "begin";
        restore ← call_component (ERestore id) (fun moment => code_restore_state (in_component i) moment state);
        if negb (status_ok restore) then do restore_failed id lane (status_message restore); traced "error"
        else do on_result (fun r => r <| out_lifecycle_restore_count ::= S |>); traced "ok"
  end.
Definition reset_failed (id lane message : string) : R unit :=
  on_result (fun r => lifecycle_failed "reset" id lane message "component_reset" (r <| out_lifecycle_reset_failure_count ::= S |>)).
Definition reset_component (id : string) : R unit :=
  target ← get (fun s => started_target id (ru_instances s));
  match target with
  | None => reset_failed id "" "component reset target is not started"
  | Some (i, spec) =>
      let traced status := record_runner_trace_event "component_reset" [("component_id", id); ("status", status)] in
      do traced "begin";
      reset ← call_program (EReset id) id (code_reset (in_component i));
      if negb (status_ok reset) then do reset_failed id (exec_lane (execution spec)) (status_message reset); traced "error"
      else do on_result (fun r => r <| out_lifecycle_reset_count ::= S |>); traced "ok"
  end.
(** Every id once. *)
Fixpoint first_occurrences (ids : list string) (seen : gset string) : list string :=
  match ids with
  | [] => []
  | id :: rest => if bool_decide (id ∈ seen) then first_occurrences rest seen else id :: first_occurrences rest ({[id]} ∪ seen)
  end.

(** *** The run *)
Fixpoint add_components (instances : list Instance) (specs : list ComponentNodeSpec) : R (list EventRuntimeComponent) :=
  match specs with
  | [] => mret []
  | spec :: rest =>
      match instance_for_id (comp_id spec) instances with
      | None => add_components instances rest
      | Some i =>
          match lane_configs graph !! exec_lane (execution spec) with
          | None => raise "map::at"
          | Some lane =>
              others ← add_components instances rest;
              mret (mkRuntimeComponent (comp_id spec) (Some (code_component (in_component i))) (comp_id spec) spec lane :: others)
          end
      end
  end.
Definition runtime_components (instances : list Instance) : R (list EventRuntimeComponent) :=
  add_components instances (graph_components graph).
Definition scheduler_options : SchedulerRunOptions :=
  mkRunOptions (opt_tick_iterations options) (opt_run_duration_ms options) (opt_run_until_idle options) true
    (length (graph_components graph) * Nat.max 1 (opt_tick_iterations options)).
(** An exception leaves the objects of the run in a state that is not read any more. *)
Definition execute_runtime (components : list EventRuntimeComponent) : R SchedulerRunResult := fun s =>
  match run (env_clock env) (env_stop_token env) (env_stop_token env) (env_pick env) (env_hz_period env) (env_show_double env)
      (env_show_threshold env) (env_show_ms env) scheduler_options components (gv_plan (out_validation (ru_result s))) fuel (ru_world s) with
  | None => Some (s, inl (env_runtime_exception env))
  | Some (w, result) => Some (s <| ru_world := w |>, inr result)
  end.
Definition run_event_runtime (components : list EventRuntimeComponent) : R SchedulerRunResult :=
  do note ERun; execute_runtime components.

(** *** State snapshots *)
Definition snapshot_failed (id lane message : string) (r : RuntimeRunnerResult) : RuntimeRunnerResult :=
  report_error "snapshot" id lane message "component_snapshot" false
    (r <| out_ok := false |> <| out_lifecycle_snapshot_failure_count ::= S |>).
Definition keep_snapshot (id : string) (state : ComponentStateSnapshot) (r : RuntimeRunnerResult) : RuntimeRunnerResult :=
  r <| out_lifecycle_snapshot_bytes ::= Z.add (so_size_bytes state) |> <| out_component_state_snapshots ::= <[id := state]> |>
    <| out_lifecycle_snapshot_count ::= S |>.
Definition snapshot_component (i : Instance) : R unit :=
  if negb (in_started i) then mret tt else
  let id := in_id i in
  let spec := spec_for_id id graph in
  let traced status := record_runner_trace_event "component_snapshot" [("component_id", id); ("status", status)] in
  do traced "begin";
  taken ← call_component (ESnapshot id) (code_snapshot_state (in_component i));
  match taken with
  | inl message =>
      do on_result (snapshot_failed id (match spec with Some c => exec_lane (execution c) | None => "" end) message);
      traced "error"
  | inr state =>
      let state := match spec with
        | Some c => if str_empty (so_component_type state) then state <| so_component_type := comp_type c |> else state
        | None => state
        end in
      do on_result (keep_snapshot id (state <| so_size_bytes := snapshot_size_bytes state |>));
      traced "ok"
  end.

(** *** Deactivation *)
(** [settle]: whether a failure makes the result fail. *)
Definition deactivate_failed (settle : bool) (id message : string) (r : RuntimeRunnerResult) : RuntimeRunnerResult :=
  report_error "deactivate" id "" message "component_deactivate" false (if settle then r <| out_ok := false |> else r).
Definition deactivate_component (settle : bool) (i : Instance) : R unit :=
  if negb (in_started i) then mret tt else
  deactivate ← call_component (EDeactivate (in_id i)) (code_deactivate (in_component i));
  do on_result (fun r => r <| out_stopped_components ::= S |>);
  if status_ok deactivate then mret tt
  else on_result (deactivate_failed settle (in_id i) (status_message deactivate)).
Definition deactivate_started (settle : bool) : R unit :=
  instances ← get ru_instances;
  for_every (deactivate_component settle) (reverse instances).

(** *** Collection *)
Definition copy_trace (w : World) (r : RuntimeRunnerResult) : RuntimeRunnerResult :=
  copy_trace_to_result (env_span_times env) (env_trace_ids env) (default [] (router_trace (w_hub w))) (out_health_events r) r.
Definition collect (w : World) (r : RuntimeRunnerResult) : RuntimeRunnerResult :=
  let r := append_channels (match w_bus w with Some b => metrics_snapshot b | None => [] end) r in
  let r := append_publications (router_metrics (w_hub w)) r in
  let r := append_health (copy_health (health_sink_after w) r) in
  let r := match w_state w with Some s => append_state (store_metrics s) r | None => r end in
  let r := match w_config w with Some s => append_config (config_store_metrics s) r | None => r end in
  let r := append_lifecycle_metrics r in
  let r := append_samples (plain_sample <$> env_metric_samples env) r in
  let r := copy_trace w r in
  count_metric_samples (append_runtime_metric "runtime.trace.event_count" (of_count (out_trace_event_count r)) "" "" "" r).
Definition collect_early (w : World) (r : RuntimeRunnerResult) : RuntimeRunnerResult :=
  let r := copy_trace w (copy_health (health_sink_after w) (append_lifecycle_metrics r)) in
  count_metric_samples (append_if_set "runtime.trace.event_count" (Z.of_nat (out_trace_event_count r)) r).
Definition collecting (f : World → RuntimeRunnerResult → RuntimeRunnerResult) : R unit :=
  put_state (fun s => s <| ru_result ::= f (ru_world s) |>).

(** *** [RuntimeRunner::run] *)
Definition failed_fatally : R bool := get (fun s => has_fatal_runtime_error (ru_result s)).
Definition run_started : R unit :=
  instances ← get ru_instances;
  components ← runtime_components instances;
  result ← run_event_runtime components;
  do on_result (copy_run_result result);
  do (if opt_capture_component_state_snapshots options then for_every snapshot_component instances else mret tt);
  do deactivate_started true;
  collecting collect.
(** The body of the [try] block. *)
Definition run_lifecycle : R unit :=
  do for_while start_component (graph_components graph);
  do count_instances;
  failed ← failed_fatally;
  if (failed : bool) then deactivate_started false else
  do for_every restore_component (map_items (opt_restore_component_states options));
  do for_every reset_component (first_occurrences (opt_reset_component_ids options) ∅);
  failed ← failed_fatally;
  if (failed : bool) then do deactivate_started false; collecting collect_early else run_started.
Definition handle_exception (what : string) : R unit :=
  do on_result (fun r => report_error "runtime" "" "" what "exception" true (r <| out_ok := false |>));
  deactivate_started false.
(** The result and the calls of the mode that runs the graph; [None]: an exception leaves [run]. *)
Definition run_components (r : RuntimeRunnerResult) : option (RuntimeRunnerResult * list LifecycleEvent) :=
  match catching handle_exception run_lifecycle (mkRunner initial_world r [] []) with
  | Some (s, inr _) => Some (ru_result s, ru_log s)
  | _ => None
  end.
Definition dry_run_result (d : GraphDryRunResult) (r : RuntimeRunnerResult) : RuntimeRunnerResult :=
  let r := r <| out_ok := dry_ok d |> in
  let r := fold_left (fun r error => report_error "dry_run" "" "" error "dry_run" true r) (dry_errors d) r in
  (copy_dry_run_to_runner d r) <| out_scheduler_stop_reason := Scheduler.kTickBound |>.
Definition invalid_result (v : GraphValidationResult) (r : RuntimeRunnerResult) : RuntimeRunnerResult :=
  fold_left (fun r error => report_error "validate" "" "" error "validation" true r) (gv_errors v) (r <| out_ok := false |>).
(** Everything between the first live event and [finish_result]. *)
Definition run_mode : option (RuntimeRunnerResult * list LifecycleEvent) :=
  match validate_graph (env_stod env) (Some registry) factory_probe compile_fuel graph with
  | None => None
  | Some validation =>
      let r := initial_runner_result <| out_graph_name := graph_name graph |>
        <| out_component_count := length (graph_components graph) |> <| out_channel_count := length (graph_edges graph) |>
        <| out_validation := validation |> in
      if negb (gv_ok validation) then Some (invalid_result validation r, []) else
      match opt_mode options with
      | kValidate => Some (r <| out_ok := true |>, [])
      | kDryRun =>
          match dry_run_graph (env_stod env) registry factory_probe compile_fuel graph (opt_tick_iterations options) with
          | None => None
          | Some d => Some (dry_run_result d r, [])
          end
      | kRun => run_components r
      end
  end.
Record RunnerOutcome := mkOutcome {
  outcome_result : RuntimeRunnerResult; outcome_observers : list (option Observer); outcome_log : list LifecycleEvent }.
Definition finish_result (session : LiveObserveSession) (r : RuntimeRunnerResult) (log : list LifecycleEvent) : option RunnerOutcome :=
  let r := snd (finish_live_observe (env_live_compiled_in env) (env_live_clock env) (make_live_id_maps graph) session r) in
  match notify_runtime_observers (opt_observers options) r with
  | None => None
  | Some (observers, r) => Some (mkOutcome r observers log)
  end.
Definition run_graph : option RunnerOutcome :=
  let session := publish_all (env_live_compiled_in env) [make_live_event (env_live_clock env) kRunStarted 0 0]
    (LiveObserveSession_new (opt_live_observe options)) in
  match run_mode with
  | None => None
  | Some (r, log) => finish_result session r log
  end.
End runner.
