(* ===== verification/RunnerLogic.v ===== *)
(** * RunnerLogic: reasoning about computations of the runner

    A Hoare logic for the monad [R]: [sat P m Q E] says that from a state in [P] the computation [m] answers in a state in
    [Q], or throws in a state in [E], unless an exception or undefined behaviour leaves it altogether; [sure P m Q E] says
    that the latter does not happen either. *)

From S2P Require Export Runner.
Local Open Scope nat_scope.

Definition sat {A} (P : Runner → Prop) (m : R A) (Q : A → Runner → Prop) (E : string → Runner → Prop) : Prop :=
  ∀ s, P s → match m s with
    | None => True
    | Some (s', inr a) => Q a s'
    | Some (s', inl what) => E what s'
    end.

Section rules.
Context {A B : Type}.
Implicit Types (P : Runner → Prop) (Q : A → Runner → Prop) (E : string → Runner → Prop).
Lemma sat_ret P Q E a : (∀ s, P s → Q a s) → sat P (mret a) Q E.
Proof. intros H s Hs. by apply H. Qed.
Lemma sat_bind P Q (Q' : B → Runner → Prop) E (m : R A) (f : A → R B) :
  sat P m Q E → (∀ a, sat (Q a) (f a) Q' E) → sat P (m ≫= f) Q' E.
Proof.
  intros Hm Hf s Hs. specialize (Hm s Hs). unfold mbind, R_bind. destruct (m s) as [[s' [what|a]]|]; [done| |done].
  by apply Hf.
Qed.
Lemma sat_conseq P P' Q Q' E E' (m : R A) : sat P' m Q' E' → (∀ s, P s → P' s) → (∀ a s, Q' a s → Q a s) → (∀ what s, E' what s → E what s) →
  sat P m Q E.
Proof. intros Hm HP HQ HE s Hs. specialize (Hm s (HP s Hs)). destruct (m s) as [[s' [what|a]]|]; auto. Qed.
Lemma sat_post P Q Q' E (m : R A) : sat P m Q' E → (∀ a s, Q' a s → Q a s) → sat P m Q E.
Proof. intros. by eapply sat_conseq. Qed.
Lemma sat_pre P P' Q E (m : R A) : sat P' m Q E → (∀ s, P s → P' s) → sat P m Q E.
Proof. intros. by eapply sat_conseq. Qed.
Lemma sat_get P Q E (f : Runner → A) : (∀ s, P s → Q (f s) s) → sat P (get f) Q E.
Proof. intros H s Hs. by apply H. Qed.
Lemma sat_raise P Q E what : (∀ s, P s → E what s) → sat P (raise what) Q E.
Proof. intros H s Hs. by apply H. Qed.
Lemma sat_exists {T} (P : T → Runner → Prop) Q E (m : R A) : (∀ t, sat (P t) m Q E) → sat (λ s, ∃ t, P t s) m Q E.
Proof. intros H s [t Hs]. by apply (H t). Qed.
Lemma sat_catching P Q E E' (m : R A) (handler : string → R A) :
  sat P m Q E → (∀ what, sat (E what) (handler what) Q E') → sat P (catching handler m) Q E'.
Proof.
  intros Hm Hh s Hs. specialize (Hm s Hs). unfold catching. destruct (m s) as [[s' [what|a]]|]; [|done..]. by apply Hh.
Qed.
Lemma sat_if (b : bool) P Q E (m1 m2 : R A) : (b = true → sat P m1 Q E) → (b = false → sat P m2 Q E) → sat P (if b then m1 else m2) Q E.
Proof. destruct b; auto. Qed.
End rules.
Lemma sat_put P (Q : unit → Runner → Prop) E f : (∀ s, P s → Q tt (f s)) → sat P (put_state f) Q E.
Proof. intros H s Hs. by apply H. Qed.

(** *** Total correctness *)
(** The computation ends, in a state as [sat] says. *)
Definition sure {A} (P : Runner → Prop) (m : R A) (Q : A → Runner → Prop) (E : string → Runner → Prop) : Prop :=
  ∀ s, P s → match m s with
    | None => False
    | Some (s', inr a) => Q a s'
    | Some (s', inl what) => E what s'
    end.
Section sure.
Context {A B : Type}.
Implicit Types (P : Runner → Prop) (Q : A → Runner → Prop) (E : string → Runner → Prop).
Lemma sure_ret P Q E a : (∀ s, P s → Q a s) → sure P (mret a) Q E.
Proof. intros H s Hs. by apply H. Qed.
Lemma sure_raise P Q E what : (∀ s, P s → E what s) → sure P (raise what) Q E.
Proof. intros H s Hs. by apply H. Qed.
Lemma sure_get P Q E (f : Runner → A) : (∀ s, P s → Q (f s) s) → sure P (get f) Q E.
Proof. intros H s Hs. by apply H. Qed.
Lemma sure_bind P Q (Q' : B → Runner → Prop) E (m : R A) (f : A → R B) :
  sure P m Q E → (∀ a, sure (Q a) (f a) Q' E) → sure P (m ≫= f) Q' E.
Proof.
  intros Hm Hf s Hs. specialize (Hm s Hs). unfold mbind, R_bind. destruct (m s) as [[s' [what|a]]|]; [done| |done].
  by apply Hf.
Qed.
Lemma sure_conseq P P' Q Q' E E' (m : R A) : sure P' m Q' E' → (∀ s, P s → P' s) → (∀ a s, Q' a s → Q a s) →
  (∀ what s, E' what s → E what s) → sure P m Q E.
Proof. intros Hm HP HQ HE s Hs. specialize (Hm s (HP s Hs)). destruct (m s) as [[s' [what|a]]|]; auto. Qed.
Lemma sure_catching P Q E E' (m : R A) (handler : string → R A) :
  sure P m Q E → (∀ what, sure (E what) (handler what) Q E') → sure P (catching handler m) Q E'.
Proof.
  intros Hm Hh s Hs. specialize (Hm s Hs). unfold catching. destruct (m s) as [[s' [what|a]]|]; [|done..]. by apply Hh.
Qed.
Lemma sure_exists {T} (P : T → Runner → Prop) Q E (m : R A) : (∀ t, sure (P t) m Q E) → sure (λ s, ∃ t, P t s) m Q E.
Proof. intros H s [t Hs]. by apply (H t). Qed.
End sure.
Lemma sure_put P (Q : unit → Runner → Prop) E f : (∀ s, P s → Q tt (f s)) → sure P (put_state f) Q E.
Proof. intros H s Hs. by apply H. Qed.
(** Computations that keep [I] and throw only in [E]. *)
Section goes_on.
Context (I : Runner → Prop) (E : string → Runner → Prop).
Definition goes_on {A} (m : R A) : Prop := sure I m (λ _, I) E.
Lemma goes_on_ret {A} (a : A) : goes_on (mret a).
Proof. by apply sure_ret. Qed.
Lemma goes_on_get {A} (f : Runner → A) : goes_on (get f).
Proof. by apply sure_get. Qed.
Lemma goes_on_put f : (∀ s, I s → I (f s)) → goes_on (put_state f).
Proof. intros H. by apply sure_put. Qed.
Lemma goes_on_bind {A B} (m : R A) (f : A → R B) : goes_on m → (∀ a, goes_on (f a)) → goes_on (m ≫= f).
Proof. intros. by eapply sure_bind. Qed.
Lemma goes_on_every {A} (body : A → R unit) l : (∀ x, x ∈ l → goes_on (body x)) → goes_on (for_every body l).
Proof.
  induction l as [|x l IH]; intros H; simpl; [apply goes_on_ret|].
  apply goes_on_bind; [apply H; left|]. intros _. apply IH. intros; apply H; by right.
Qed.
Lemma goes_on_while {A} (body : A → R bool) l : (∀ x, x ∈ l → goes_on (body x)) → goes_on (for_while body l).
Proof.
  induction l as [|x l IH]; intros H; simpl; [apply goes_on_ret|].
  apply goes_on_bind; [apply H; left|]. intros []; [|apply goes_on_ret]. apply IH. intros; apply H; by right.
Qed.
End goes_on.
Ltac goes_on_walk tac :=
  lazymatch goal with
  | |- goes_on _ _ (mret _) => apply goes_on_ret
  | |- goes_on _ _ (get _) => apply goes_on_get
  | |- goes_on _ _ (mbind _ _) => apply goes_on_bind; [goes_on_walk tac|intros ?; goes_on_walk tac]
  | |- goes_on _ _ (match ?x with _ => _ end) => destruct x; goes_on_walk tac
  | |- goes_on _ _ _ => tac
  end.

(** ** Invariants *)
Section keeps.
Context (I : Runner → Prop).
(** A computation that keeps [I] whether it answers or throws. *)
Definition holds {A} (m : R A) : Prop := sat I m (λ _, I) (λ _, I).
Lemma holds_ret {A} (a : A) : holds (mret a).
Proof. by apply sat_ret. Qed.
Lemma holds_raise {A} what : holds (raise (A := A) what).
Proof. by apply sat_raise. Qed.
Lemma holds_abandon {A} : holds (abandon (A := A)).
Proof. done. Qed.
Lemma holds_get {A} (f : Runner → A) : holds (get f).
Proof. by apply sat_get. Qed.
Lemma holds_put f : (∀ s, I s → I (f s)) → holds (put_state f).
Proof. intros H. by apply sat_put. Qed.
Lemma holds_bind {A B} (m : R A) (f : A → R B) : holds m → (∀ a, holds (f a)) → holds (m ≫= f).
Proof. intros. by eapply sat_bind. Qed.
Lemma holds_if {A} (b : bool) (m1 m2 : R A) : holds m1 → holds m2 → holds (if b then m1 else m2).
Proof. by destruct b. Qed.
Lemma holds_every {A} (body : A → R unit) l : (∀ x, x ∈ l → holds (body x)) → holds (for_every body l).
Proof.
  induction l as [|x l IH]; intros H; simpl; [apply holds_ret|].
  apply holds_bind; [apply H; left|]. intros _. apply IH. intros; apply H; by right.
Qed.
Lemma holds_while {A} (body : A → R bool) l : (∀ x, x ∈ l → holds (body x)) → holds (for_while body l).
Proof.
  induction l as [|x l IH]; intros H; simpl; [apply holds_ret|].
  apply holds_bind; [apply H; left|]. intros []; [|apply holds_ret]. apply IH. intros; apply H; by right.
Qed.
Lemma holds_catching {A} (m : R A) handler : holds m → (∀ what, holds (handler what)) → holds (catching handler m).
Proof. intros. by eapply sat_catching. Qed.
End keeps.
(** Walks through a computation by its shape; [tac] proves the steps. *)
Ltac holds_walk tac :=
  lazymatch goal with
  | |- holds _ (mret _) => apply holds_ret
  | |- holds _ (raise _) => apply holds_raise
  | |- holds _ abandon => apply holds_abandon
  | |- holds _ (get _) => apply holds_get
  | |- holds _ (mbind _ _) => apply holds_bind; [holds_walk tac|intros ?; holds_walk tac]
  | |- holds _ (for_every _ _) => first [solve [tac]|apply holds_every; intros ? _; holds_walk tac]
  | |- holds _ (for_while _ _) => first [solve [tac]|apply holds_while; intros ? _; holds_walk tac]
  | |- holds _ (match ?x with _ => _ end) => destruct x; holds_walk tac
  | |- holds _ _ => tac
  end.

(** ** What the elementary steps change *)
(** A step that keeps everything but the moment of the world and the log. *)
Lemma sat_call_component {A} P (Q : A → Runner → Prop) E event (code : nat → string + A) :
  (∀ s, P s → ∀ w what, (∃ m, code m = inl what) → E what (s <| ru_world := w |> <| ru_log ::= λ l, l ++ [event] |>)) →
  (∀ s, P s → ∀ w a, (∃ m, code m = inr a) → Q a (s <| ru_world := w |> <| ru_log ::= λ l, l ++ [event] |>)) →
  sat P (call_component event code) Q E.
Proof.
  intros HE HQ s Hs. unfold call_component, note, next_moment, put_state, get, mbind, R_bind. simpl.
  match goal with |- context [code ?m] => destruct (code m) as [what|a] eqn:Ec end; simpl.
  - apply (HE s Hs (tick_moment (ru_world s)) what). by eexists.
  - apply (HQ s Hs (tick_moment (ru_world s)) a). by eexists.
Qed.
Lemma sat_call_program P (Q : Status → Runner → Prop) E env event id code :
  (∀ s, P s → ∀ w what, E what (s <| ru_world := w |> <| ru_log ::= λ l, l ++ [event] |>)) →
  (∀ s, P s → ∀ w a, Q a (s <| ru_world := w |> <| ru_log ::= λ l, l ++ [event] |>)) →
  sat P (call_program env event id code) Q E.
Proof.
  intros HE HQ s Hs. unfold call_program, note, next_moment, run_program, put_state, get, mbind, R_bind. simpl.
  destruct (run_prog _ _ _ _ _ _) as [[[w [what|a]] n]|]; simpl; [|by apply (HQ s Hs w a)|done]. by apply (HE s Hs w what).
Qed.

(** ** What the collection of metrics leaves alone *)
(** The part of a result that says how the run went. *)
Record Verdict := mkVerdict {
  vd_ok : bool; vd_errors : list RuntimeError; vd_stop_reason : SchedulerStopReason; vd_started : nat; vd_stopped : nat;
  vd_lost : nat; vd_tick_calls : nat }.
Definition verdict (r : RuntimeRunnerResult) : Verdict :=
  mkVerdict (out_ok r) (out_runtime_errors r) (out_scheduler_stop_reason r) (out_started_components r) (out_stopped_components r)
    (out_live_observe_dropped_event_count r) (out_tick_calls r).
Create Rewrite HintDb verdict.
Lemma verdict_samples l r : verdict (append_samples l r) = verdict r.
Proof. reflexivity. Qed.
Lemma verdict_metric name v c l ch r : verdict (append_runtime_metric name v c l ch r) = verdict r.
Proof. reflexivity. Qed.
Lemma verdict_count r : verdict (count_metric_samples r) = verdict r.
Proof. reflexivity. Qed.
Lemma verdict_if_set name n r : verdict (append_if_set name n r) = verdict r.
Proof. unfold append_if_set. by destruct (n =? 0)%Z. Qed.
Lemma verdict_lifecycle r : verdict (append_lifecycle_metrics r) = verdict r.
Proof. unfold append_lifecycle_metrics. cbv zeta. by rewrite !verdict_if_set. Qed.
Lemma verdict_channel m r : verdict (append_channel m r) = verdict r.
Proof. reflexivity. Qed.
Lemma verdict_channels l r : verdict (append_channels l r) = verdict r.
Proof. unfold append_channels. revert r. induction l as [|m l IH]; intros r; cbn [fold_left]; [done|]. by rewrite IH, verdict_channel. Qed.
Lemma verdict_publications m r : verdict (append_publications m r) = verdict r.
Proof. reflexivity. Qed.
Lemma verdict_copy_health s r : verdict (copy_health s r) = verdict r.
Proof. reflexivity. Qed.
Lemma verdict_health r : verdict (append_health r) = verdict r.
Proof. reflexivity. Qed.
Lemma verdict_state m r : verdict (append_state m r) = verdict r.
Proof. unfold append_state. by destruct (any_set _). Qed.
Lemma verdict_config m r : verdict (append_config m r) = verdict r.
Proof. unfold append_config. by destruct (any_set _). Qed.
Lemma verdict_copy_trace times ids spans events r : verdict (copy_trace_to_result times ids spans events r) = verdict r.
Proof. reflexivity. Qed.
#[export] Hint Rewrite verdict_samples verdict_metric verdict_count verdict_if_set verdict_lifecycle verdict_channels verdict_publications
  verdict_copy_health verdict_health verdict_state verdict_config verdict_copy_trace : verdict.
Lemma verdict_collect env graph options w r : verdict (collect env graph options w r) = verdict r.
Proof. unfold collect, copy_trace. cbv zeta. destruct (w_config w), (w_state w); by autorewrite with verdict. Qed.
Lemma verdict_collect_early env graph options w r : verdict (collect_early env graph options w r) = verdict r.
Proof. unfold collect_early, copy_trace. cbv zeta. by autorewrite with verdict. Qed.
(** After a run the verdict is the one of the event runtime. *)
Lemma verdict_loop_metrics x r : verdict (append_loop_metrics x r) = verdict r.
Proof. reflexivity. Qed.
Lemma verdict_run_metrics x r : verdict (append_run_metrics x r) = verdict r.
Proof. reflexivity. Qed.
Lemma verdict_copy_run x r : verdict (copy_run_result x r) =
  mkVerdict (res_ok x) (out_runtime_errors r ++ (runtime_error_of <$> res_errors x)) (res_stop_reason x) (out_started_components r)
    (out_stopped_components r) (out_live_observe_dropped_event_count r) (res_tick_calls x).
Proof. unfold copy_run_result. cbv zeta. by rewrite verdict_loop_metrics, verdict_run_metrics. Qed.

(** ** Invariants of the result *)
Section result.
Context (I : RuntimeRunnerResult → Prop).
Definition of_result (s : Runner) : Prop := I (ru_result s).
Lemma result_other f : (∀ s, ru_result (f s) = ru_result s) → holds of_result (put_state f).
Proof. intros H. apply holds_put. intros s Hs. unfold of_result. by rewrite H. Qed.
Lemma result_on f : (∀ r, I r → I (f r)) → holds of_result (on_result f).
Proof. intros H. apply holds_put. intros s Hs. by apply H. Qed.
Lemma result_collecting f : (∀ w r, I r → I (f w r)) → holds of_result (collecting f).
Proof. intros H. apply holds_put. intros s Hs. by apply H. Qed.
Lemma result_moment : holds of_result next_moment.
Proof. apply holds_bind; [by apply result_other|]. intros. apply holds_get. Qed.
Lemma result_trace name a : holds of_result (record_runner_trace_event name a).
Proof. by apply result_other. Qed.
Lemma result_remember i : holds of_result (remember_instance i).
Proof. by apply result_other. Qed.
Lemma result_call {A} e (code : nat → string + A) : holds of_result (call_component e code).
Proof. by apply sat_call_component. Qed.
Lemma result_program env e id code : holds of_result (call_program env e id code).
Proof. by apply sat_call_program. Qed.
Lemma result_create registry type : holds of_result (create_component registry type).
Proof.
  unfold create_component. destruct (registry_create registry type) as [what|f]; [apply holds_raise|].
  apply holds_bind; [apply result_moment|]. intros m. destruct (factory_create f m) as [|[|]]; [apply holds_raise|apply holds_ret|done].
Qed.
Lemma result_components graph instances : holds of_result (runtime_components graph instances).
Proof.
  unfold runtime_components. induction (graph_components graph) as [|spec specs IH]; [apply holds_ret|]. cbn [add_components].
  destruct (instance_for_id (comp_id spec) instances); [|done]. destruct (lane_configs graph !! exec_lane (execution spec)); [|apply holds_raise].
  apply holds_bind; [done|]. intros. apply holds_ret.
Qed.
Lemma result_runtime env fuel graph options components : holds of_result (run_event_runtime env fuel graph options components).
Proof.
  apply holds_bind; [by apply result_other|]. intros _ s Hs. unfold execute_runtime. by destruct (run _ _ _ _ _ _ _ _ _ _ _ _ _) as [[w x]|].
Qed.
End result.
(** [tac] proves that an update of the result keeps the invariant. *)
Ltac result_walk tac :=
  holds_walk ltac:(first
    [ apply result_call | apply result_program | apply result_trace | apply result_remember | apply result_create | apply result_moment
    | apply result_components | apply result_runtime | apply result_on; intros ?; tac | apply result_collecting; intros ? ?; tac ]).
