(* ===== verification/LifecycleFacts.v ===== *)
(** * LifecycleFacts: the order of the calls that the runner makes on components

    The log of a run is the documented lifecycle: components are configured and activated in the order of the graph until
    one fails; if all are active, states are restored, then components are reset, then the graph runs, then states are
    captured; and whatever happened, the active components, and no others, are deactivated once, in reverse. *)

From S2P Require Export RunnerLogic.
Local Open Scope nat_scope.

(** ** The documented order *)
Definition started_log (ids : list string) : list LifecycleEvent := ids ≫= λ id, [EConfigure id; EActivate id].
(** The calls on the component whose start failed, the one after [started]. *)
Definition partial_start (ids started : list string) (l : list LifecycleEvent) : Prop :=
  l = [] ∨ ∃ id, ids !! length started = Some id ∧ (l = [EConfigure id] ∨ l = [EConfigure id; EActivate id]).
(** The calls after the start of all components. *)
Definition phases (ids restorable resettable : list string) (l : list LifecycleEvent) : Prop :=
  ∃ restores resets rest, l = (ERestore <$> restores) ++ (EReset <$> resets) ++ rest ∧
    restores `sublist_of` restorable ∧ resets `sublist_of` resettable ∧
    (rest = [] ∨ ∃ captured, rest = ERun :: (ESnapshot <$> captured) ∧ captured `sublist_of` ids).
Definition calls_before_stop (ids restorable resettable started : list string) (l : list LifecycleEvent) : Prop :=
  ∃ partial middle, l = started_log started ++ partial ++ middle ∧ started `prefix_of` ids ∧ partial_start ids started partial ∧
    (middle = [] ∨ partial = [] ∧ started = ids ∧ phases ids restorable resettable middle).

(** ** Lemmas *)
Definition started_ids (instances : list Instance) : list string := in_id <$> List.filter in_started instances.
Definition deactivates (c : RunnerComponent) : Prop := ∀ moment, ∃ status, code_deactivate c moment = inr status.
Definition deactivation_safe (registry : ComponentRegistry ComponentFactory) : Prop :=
  ∀ type factory moment code, factories registry !! type = Some factory → factory_create factory moment = inr (Some code) →
    deactivates code.
Lemma started_log_app l1 l2 : started_log (l1 ++ l2) = started_log l1 ++ started_log l2.
Proof. apply bind_app. Qed.
Lemma started_ids_app l1 l2 : started_ids (l1 ++ l2) = started_ids l1 ++ started_ids l2.
Proof. unfold started_ids. by rewrite List.filter_app, fmap_app. Qed.
Lemma started_ids_length l : length (started_ids l) = count_if in_started l.
Proof. unfold started_ids. apply length_fmap. Qed.
Lemma partial_start_nil ids started : partial_start ids started [].
Proof. by left. Qed.

Section lifecycle.
Context (env : RunnerEnvironment) (registry : ComponentRegistry ComponentFactory) (fuel : nat).
Context (graph : GraphSpec) (options : RuntimeRunnerOptions).
Context (Hsafe : deactivation_safe registry).
Abbreviation ids := (comp_id <$> graph_components graph).
Abbreviation restorable := (map_keys (opt_restore_component_states options)).
Abbreviation resettable := (first_occurrences (opt_reset_component_ids options) ∅).
Abbreviation before_stop := (calls_before_stop ids restorable resettable).

(** The state while nothing has been stopped: the components [started] are active and [log] was called. *)
Record active (started : list string) (log : list LifecycleEvent) (s : Runner) : Prop := {
  ac_log : ru_log s = log;
  ac_started : started_ids (ru_instances s) = started;
  ac_stopped : out_stopped_components (ru_result s) = 0;
  ac_safe : Forall (λ i, deactivates (in_component i)) (ru_instances s) }.
Definition live (s : Runner) : Prop := ∃ started log, active started log s ∧ before_stop started log.
Definition stopped (s : Runner) : Prop := ∃ started log, before_stop started log ∧
  ru_log s = log ++ (EDeactivate <$> reverse started) ∧ out_stopped_components (ru_result s) = length started.

Lemma active_result started log f : (∀ r, out_stopped_components (f r) = out_stopped_components r) →
  holds (active started log) (on_result f).
Proof. intros H. apply holds_put. intros s [H1 H2 H3 H4]. split; simpl; [done..| |done]. by rewrite H. Qed.
Lemma active_world started log f : holds (active started log) (put_state (λ s, s <| ru_world ::= f |>)).
Proof. apply holds_put. intros s []. by split. Qed.
Lemma active_moment started log : holds (active started log) next_moment.
Proof. apply holds_bind; [apply active_world|]. intros _. apply holds_get. Qed.
Lemma active_trace started log name a : holds (active started log) (record_runner_trace_event name a).
Proof. apply active_world. Qed.
(** A call adds one event. *)
Lemma active_logs started log s w e : active started log s →
  active started (log ++ [e]) (s <| ru_world := w |> <| ru_log ::= λ l, l ++ [e] |>).
Proof. intros [H1 H2 H3 H4]. split; simpl; [by rewrite H1|done..]. Qed.
Lemma active_call {A} started log e (code : nat → string + A) :
  sat (active started log) (call_component e code) (λ _, active started (log ++ [e])) (λ _, active started (log ++ [e])).
Proof. apply sat_call_component; intros s Hs w a _; by apply active_logs. Qed.
Lemma active_program started log e id code :
  sat (active started log) (call_program env e id code) (λ _, active started (log ++ [e])) (λ _, active started (log ++ [e])).
Proof. apply sat_call_program; intros s Hs w a; by apply active_logs. Qed.

(** *** Starting *)
Definition not_all_started (s : Runner) : Prop := live s ∧ has_fatal_runtime_error (ru_result s) = true.
Lemma create_active started log type :
  sat (active started log) (create_component registry type) (λ code s, active started log s ∧ deactivates code) (λ _, active started log).
Proof.
  unfold create_component, registry_create. destruct (factories registry !! type) as [f|] eqn:Ef; [|by apply sat_raise].
  eapply sat_bind; [apply active_moment|]. intros m. destruct (factory_create f m) as [what|[code|]] eqn:Ec; [by apply sat_raise| |done].
  apply sat_ret. intros s Hs. split; [done|]. by eapply Hsafe.
Qed.
Lemma active_remember started log s i : active started log s → deactivates (in_component i) →
  active (started ++ (if in_started i then [in_id i] else [])) log (s <| ru_instances ::= λ l, l ++ [i] |>).
Proof.
  intros [H1 H2 H3 H4] Hi. split; simpl; [done| |done|].
  - rewrite started_ids_app, H2. unfold started_ids. simpl. by destruct (in_started i).
  - apply Forall_app_2; [done|by constructor].
Qed.
Lemma live_before started log s : active started log s → before_stop started log → live s.
Proof. intros. by exists started, log. Qed.
Lemma before_partial started partial : started `prefix_of` ids → partial_start ids started partial →
  before_stop started (started_log started ++ partial).
Proof. intros H1 H2. exists partial, []. rewrite (right_id_L [] (++)). repeat (split; [done|]). by left. Qed.
Lemma start_failed started log phase lane message code (i : Instance) id : in_started i = false → before_stop started log →
  sat (λ s, active started log s ∧ deactivates (in_component i))
    (do on_result (lifecycle_failed phase id lane message code); do remember_instance i; mret false)
    (λ go s, go = false ∧ not_all_started s) (λ _, live).
Proof.
  intros Hi Hb s [Hs Hd]. simpl. split; [done|]. split.
  - apply (live_before started log); [|done]. eapply (active_remember _ _ _ i) in Hs; [|done]. rewrite Hi, app_nil_r in Hs.
    destruct Hs as [H1 H2 H3 H4]. by split.
  - unfold has_fatal_runtime_error. simpl. rewrite existsb_app. simpl. by rewrite orb_true_r.
Qed.
Lemma start_component_order started spec rest : ids = started ++ comp_id spec :: rest →
  sat (active started (started_log started)) (start_component env registry spec)
    (λ go s, if (go : bool) then active (started ++ [comp_id spec]) (started_log (started ++ [comp_id spec])) s else not_all_started s)
    (λ _, live).
Proof.
  intros Hids. assert (started `prefix_of` ids) as Hp by (rewrite Hids; by apply prefix_app_r).
  assert (ids !! length started = Some (comp_id spec)) as Hnext by (rewrite Hids; by apply list_lookup_middle).
  assert (∀ l, l = [] ∨ l = [EConfigure (comp_id spec)] ∨ l = [EConfigure (comp_id spec); EActivate (comp_id spec)] →
    before_stop started (started_log started ++ l)) as Hpart.
  { intros l Hl. apply before_partial; [done|]. destruct Hl as [->|Hl]; [by left|]. right. by exists (comp_id spec). }
  unfold start_component. eapply sat_bind.
  { eapply sat_conseq; [apply create_active|done|intros c s H; exact H|]. intros what s Hs.
    apply (live_before _ _ s Hs). rewrite <- (app_nil_r (started_log started)). apply Hpart. by left. }
  intros code. eapply sat_bind.
  { apply (sat_call_program _ (λ _ s, active started (started_log started ++ [EConfigure (comp_id spec)]) s ∧ deactivates code)).
    - intros s [Hs _] w _. eapply live_before; [by apply active_logs|]. apply Hpart. auto.
    - intros s [Hs ?] w _. split; [by apply active_logs|done]. }
  intros configure. destruct (status_ok configure); simpl.
  2: { eapply sat_post; [apply (start_failed started _ _ _ _ _ (mkInstance (comp_id spec) code false false)); [done|apply Hpart; auto]|].
       intros a s [-> H]. done. }
  eapply sat_bind.
  { apply (sat_call_component _ (λ _ s, active started (started_log started ++ [EConfigure (comp_id spec); EActivate (comp_id spec)]) s ∧
      deactivates code)).
    - intros s [Hs _] w _ _. eapply live_before; [by apply active_logs|]. rewrite <- app_assoc. apply Hpart. auto.
    - intros s [Hs ?] w _ _. split; [|done]. eapply (active_logs _ _ _ w (EActivate (comp_id spec))) in Hs. by rewrite <- app_assoc in Hs. }
  intros activate. destruct (status_ok activate); simpl.
  2: { eapply sat_post; [apply (start_failed started _ _ _ _ _ (mkInstance (comp_id spec) code true false)); [done|apply Hpart; auto]|].
       intros a s [-> H]. done. }
  intros s [Hs Hd]. simpl. rewrite started_log_app. by apply (active_remember _ _ _ (mkInstance (comp_id spec) code true true)).
Qed.
Lemma start_all_order specs started : ids = started ++ (comp_id <$> specs) →
  sat (active started (started_log started)) (for_while (start_component env registry) specs)
    (λ _ s, active ids (started_log ids) s ∨ not_all_started s) (λ _, live).
Proof.
  revert started. induction specs as [|spec specs IH]; intros started Hids; simpl in *.
  - apply sat_ret. intros s Hs. left. by rewrite Hids, app_nil_r.
  - eapply sat_bind; [by eapply start_component_order|]. intros []; [|apply sat_ret; by right].
    apply IH. by rewrite Hids, <- app_assoc.
Qed.

(** *** Between the start and the stop *)
(** A loop whose body calls at most [f x] for the element [x], and nothing unless [p x]. *)
Lemma every_logs {A} (body : A → R unit) (p : A → bool) (f : A → LifecycleEvent) started l :
  (∀ x log, sat (active started log) (body x) (λ _ s, active started log s ∨ p x = true ∧ active started (log ++ [f x]) s)
    (λ _ s, active started log s ∨ p x = true ∧ active started (log ++ [f x]) s)) →
  ∀ log, sat (active started log) (for_every body l)
    (λ _ s, ∃ called, called `sublist_of` List.filter p l ∧ active started (log ++ (f <$> called)) s)
    (λ _ s, ∃ called, called `sublist_of` List.filter p l ∧ active started (log ++ (f <$> called)) s).
Proof.
  intros Hbody. induction l as [|x l IH]; intros log.
  - apply sat_ret. intros s Hs. exists []. split; [done|]. by rewrite app_nil_r.
  - cbn [for_every List.filter]. eapply sat_bind.
    { eapply sat_conseq; [apply Hbody|done|intros a s H; exact H|]. intros what s [Hs|[-> Hs]]; [exists []|exists [x]];
        (split; [|rewrite ?app_nil_r; done]); [apply sublist_nil_l|]. by apply sublist_skip, sublist_nil_l. }
    intros u s [Hs|[-> Hs]].
    + eapply (sat_conseq _ _ _ _ _ _ _ (IH log)); [done|..|exact Hs]; intros a s' (called&Hc&H); exists called;
        (split; [|done]); (destruct (p x); [by apply sublist_cons|done]).
    + eapply (sat_conseq _ _ _ _ _ _ _ (IH (log ++ [f x]))); [done|..|exact Hs]; intros a s' (called&Hc&H); exists (x :: called);
        (split; [by apply sublist_skip|by rewrite <- app_assoc in H]).
Qed.
Lemma every_calls {A} (body : A → R unit) (f : A → LifecycleEvent) started l :
  (∀ x log, sat (active started log) (body x) (λ _ s, active started log s ∨ active started (log ++ [f x]) s)
    (λ _ s, active started log s ∨ active started (log ++ [f x]) s)) →
  ∀ log, sat (active started log) (for_every body l)
    (λ _ s, ∃ called, called `sublist_of` l ∧ active started (log ++ (f <$> called)) s)
    (λ _ s, ∃ called, called `sublist_of` l ∧ active started (log ++ (f <$> called)) s).
Proof.
  intros Hbody log. assert (List.filter (λ _ : A, true) l = l) as Hl by (clear; induction l as [|x l IH]; simpl; by rewrite ?IH).
  eapply sat_conseq; [apply (every_logs body (λ _, true) f)|done|..]; [|intros a s (called&Hc&H); rewrite Hl in Hc; by exists called..].
  intros x log'. eapply sat_conseq; [apply Hbody|done|..]; intros a s [H|H]; auto.
Qed.

Section body.
Context (started : list string) (log : list LifecycleEvent) (e : LifecycleEvent).
Definition either (s : Runner) : Prop := active started log s ∨ active started (log ++ [e]) s.
Lemma either_before {A} (m : R A) : holds (active started log) m → sat (active started log) m (λ _, either) (λ _, either).
Proof. intros H. eapply sat_conseq; [exact H|done|..]; by left. Qed.
Lemma either_after {A} (m : R A) : holds (active started (log ++ [e])) m → sat (active started (log ++ [e])) m (λ _, either) (λ _, either).
Proof. intros H. eapply sat_conseq; [exact H|done|..]; by right. Qed.
Lemma either_then {A B} (m : R A) (k : A → R B) : holds (active started log) m →
  (∀ a, sat (active started log) (k a) (λ _, either) (λ _, either)) → sat (active started log) (m ≫= k) (λ _, either) (λ _, either).
Proof. intros Hm Hk. eapply sat_bind; [|exact Hk]. eapply sat_conseq; [exact Hm|done|done|by left]. Qed.
(** The call of the body. *)
Lemma either_call {A B} (m : R A) (k : A → R B) :
  sat (active started log) m (λ _, active started (log ++ [e])) (λ _, active started (log ++ [e])) →
  (∀ a, holds (active started (log ++ [e])) (k a)) → sat (active started log) (m ≫= k) (λ _, either) (λ _, either).
Proof.
  intros Hm Hk. eapply sat_bind; [eapply sat_conseq; [exact Hm|done|done|by right]|]. intros a. by apply either_after, Hk.
Qed.
End body.
Ltac active_walk := holds_walk ltac:(first [by apply active_result | apply active_trace | done]).

Lemma restore_order started log x : sat (active started log) (restore_component graph x) (λ _, either started log (ERestore x.1))
  (λ _, either started log (ERestore x.1)).
Proof.
  destruct x as [id state]. unfold restore_component. apply either_then; [apply holds_get|]. intros [[i spec]|]; [|apply either_before; active_walk].
  apply sat_if; intros _; [apply either_before; unfold restore_failed; active_walk|].
  apply either_then; [apply active_trace|]. intros _. apply either_call; [apply active_call|]. intros status. unfold restore_failed. active_walk.
Qed.
Lemma reset_order started log id : sat (active started log) (reset_component env graph id) (λ _, either started log (EReset id))
  (λ _, either started log (EReset id)).
Proof.
  unfold reset_component. apply either_then; [apply holds_get|]. intros [[i spec]|]; [|apply either_before; unfold reset_failed; active_walk].
  apply either_then; [apply active_trace|]. intros _. apply either_call; [apply active_program|]. intros status. unfold reset_failed. active_walk.
Qed.
Lemma snapshot_order started log i : sat (active started log) (snapshot_component graph i)
  (λ _ s, active started log s ∨ in_started i = true ∧ active started (log ++ [ESnapshot (in_id i)]) s)
  (λ _ s, active started log s ∨ in_started i = true ∧ active started (log ++ [ESnapshot (in_id i)]) s).
Proof.
  unfold snapshot_component. destruct (in_started i); [|apply sat_ret; by left].
  eapply (sat_conseq _ _ _ (λ _, either started log (ESnapshot (in_id i))) _ (λ _, either started log (ESnapshot (in_id i))));
    [|done|intros a s [H|H]; auto..].
  apply either_then; [apply active_trace|]. intros _. apply either_call; [apply active_call|]. intros [message|state]; active_walk.
Qed.
(** *** Deactivation *)
Definition stops (log : list LifecycleEvent) (n : nat) (s : Runner) : Prop :=
  ru_log s = log ∧ out_stopped_components (ru_result s) = n.
Lemma deactivate_one settle i log n : deactivates (in_component i) →
  sat (stops log n) (deactivate_component settle i)
    (λ _, stops (log ++ (EDeactivate <$> started_ids [i])) (n + length (started_ids [i]))) (λ _ _, False).
Proof.
  intros Hi. unfold deactivate_component, started_ids. simpl. destruct (in_started i); simpl.
  - eapply sat_bind.
    + apply (sat_call_component _ (λ _, stops (log ++ [EDeactivate (in_id i)]) n)).
      * intros s _ w what [m Hm]. destruct (Hi m) as [st Hst]. congruence.
      * intros s [H1 H2] w a _. split; simpl; [by rewrite H1|done].
    + intros status s [H1 H2]. unfold stops. simpl. destruct (status_ok status), settle; simpl; rewrite H2; (split; [done|lia]).
  - apply sat_ret. intros s [H1 H2]. split; [by rewrite app_nil_r|lia].
Qed.
Lemma deactivate_order settle l log n : Forall (λ i, deactivates (in_component i)) l →
  sat (stops log n) (for_every (deactivate_component settle) l)
    (λ _, stops (log ++ (EDeactivate <$> started_ids l)) (n + length (started_ids l))) (λ _ _, False).
Proof.
  intros Hl. revert log n. induction Hl as [|i l Hi Hl IH]; intros log n.
  - apply sat_ret. intros s [H1 H2]. unfold started_ids. split; simpl; [by rewrite app_nil_r|lia].
  - simpl. eapply sat_bind; [by apply deactivate_one|]. intros u0. change (i :: l) with ([i] ++ l).
    rewrite started_ids_app, fmap_app, length_app. eapply sat_post; [apply IH|]. intros _ s [H1 H2].
    split; [by rewrite H1, app_assoc|lia].
Qed.
Lemma started_ids_reverse l : started_ids (reverse l) = reverse (started_ids l).
Proof.
  induction l as [|i l IH]; [done|]. rewrite !reverse_cons, started_ids_app, IH. unfold started_ids. simpl.
  destruct (in_started i); simpl; [by rewrite reverse_cons|by rewrite app_nil_r].
Qed.
Lemma deactivate_started_order settle : sat live (deactivate_started settle) (λ _, stopped) (λ _ _, False).
Proof.
  apply sat_exists. intros started. apply sat_exists. intros log s [Hs Hb]. pose proof Hs as [H1 H2 H3 H4].
  unfold deactivate_started, get, mbind, R_bind. simpl.
  assert (Forall (λ i, deactivates (in_component i)) (reverse (ru_instances s))) as Hr by (by rewrite Forall_reverse).
  pose proof (deactivate_order settle _ log 0 Hr s (conj H1 H3)) as H.
  destruct (for_every _ _ s) as [[s' [what|a]]|]; [done| |done]. destruct H as [E1 E2].
  rewrite started_ids_reverse, H2 in E1. rewrite started_ids_reverse, H2, length_reverse in E2. by exists started, log.
Qed.

(** *** The whole lifecycle *)
Lemma deactivate_collecting settle f : (∀ w r, verdict (f w r) = verdict r) →
  sat live (do deactivate_started settle; collecting f) (λ _, stopped) (λ _ _, False).
Proof.
  intros H. eapply sat_bind; [apply deactivate_started_order|]. intros [] s (started&log&H1&H2&H3). exists started, log.
  split; [done|]. split; [done|]. change (vd_stopped (verdict (f (ru_world s) (ru_result s))) = length started). by rewrite H.
Qed.

Definition restores_of (called : list (string * ComponentStateSnapshot)) : list LifecycleEvent := (λ x, ERestore x.1) <$> called.
Lemma phases_so_far restores resets rest : restores `sublist_of` map_items (opt_restore_component_states options) →
  resets `sublist_of` resettable → (rest = [] ∨ ∃ captured, rest = ERun :: (ESnapshot <$> captured) ∧ captured `sublist_of` ids) →
  before_stop ids (started_log ids ++ restores_of restores ++ (EReset <$> resets) ++ rest).
Proof.
  intros H1 H2 H3. exists [], (restores_of restores ++ (EReset <$> resets) ++ rest). split; [done|]. split; [done|].
  split; [apply partial_start_nil|]. right. repeat (split; [done|]). exists (restores.*1), resets, rest.
  split; [by rewrite <- list_fmap_compose|]. split; [|done]. unfold map_keys. by rewrite H1.
Qed.
Lemma live_from log : before_stop ids log → ∀ s, active ids log s → live s.
Proof. intros. by eapply live_before. Qed.
Lemma runtime_components_order started log instances : holds (active started log) (runtime_components graph instances).
Proof.
  unfold runtime_components. induction (graph_components graph) as [|spec specs IH]; [apply holds_ret|]. cbn [add_components].
  destruct (instance_for_id (comp_id spec) instances); [|done]. destruct (lane_configs graph !! exec_lane (execution spec)); [|apply holds_raise].
  apply holds_bind; [done|]. intros. apply holds_ret.
Qed.
Lemma run_event_runtime_order started log components : sat (active started log) (run_event_runtime env fuel graph options components)
  (λ _, active started (log ++ [ERun])) (λ _, active started (log ++ [ERun])).
Proof.
  intros s Hs. unfold run_event_runtime, note, put_state, mbind, R_bind. simpl. unfold execute_runtime. simpl.
  destruct (run _ _ _ _ _ _ _ _ _ _ _ _ _) as [[w x]|]; eapply (active_logs _ _ s _ ERun) in Hs; exact Hs.
Qed.
Lemma run_started_order restores resets : restores `sublist_of` map_items (opt_restore_component_states options) → resets `sublist_of` resettable →
  sat (active ids (started_log ids ++ restores_of restores ++ (EReset <$> resets))) (run_started env fuel graph options)
    (λ _, stopped) (λ _, live).
Proof.
  intros H1 H2. set (log := started_log ids ++ restores_of restores ++ (EReset <$> resets)).
  assert (∀ rest, (rest = [] ∨ ∃ captured, rest = ERun :: (ESnapshot <$> captured) ∧ captured `sublist_of` ids) → before_stop ids (log ++ rest)) as Hb.
  { intros rest Hrest. unfold log. rewrite <- !app_assoc. by apply phases_so_far. }
  assert (before_stop ids log) as Hb0 by (rewrite <- (app_nil_r log); apply (Hb []); by left).
  assert (∀ captured, captured `sublist_of` ids → before_stop ids ((log ++ [ERun]) ++ (ESnapshot <$> captured))) as Hb1.
  { intros captured Hc. rewrite <- app_assoc. apply Hb. right. by exists captured. }
  assert (before_stop ids (log ++ [ERun])) as Hb2 by (rewrite <- (app_nil_r (log ++ [ERun])); apply (Hb1 []), sublist_nil_l).
  unfold run_started. eapply (sat_bind _ (λ instances s, active ids log s ∧ started_ids instances = ids)).
  { apply sat_get. intros s Hs. split; [done|apply Hs]. }
  intros instances. eapply (sat_bind _ (λ _ s, active ids log s ∧ started_ids instances = ids)).
  { intros s [Hs Hi]. pose proof (runtime_components_order ids log instances s Hs) as H.
    destruct (runtime_components graph instances s) as [[s' [what|a]]|]; [exact (live_from log Hb0 s' H)|by split|done]. }
  intros components. eapply (sat_bind _ (λ _ s, active ids (log ++ [ERun]) s ∧ started_ids instances = ids)).
  { intros s [Hs Hi]. pose proof (run_event_runtime_order ids log components s Hs) as H.
    destruct (run_event_runtime _ _ _ _ _ s) as [[s' [what|a]]|]; [exact (live_from _ Hb2 s' H)|by split|done]. }
  intros x. eapply (sat_bind _ (λ _ s, active ids (log ++ [ERun]) s ∧ started_ids instances = ids)).
  { intros s [Hs Hi]. simpl. split; [|done]. destruct Hs as [E1 E2 E3 E4]. split; simpl; [done..| |done].
    change (vd_stopped (verdict (copy_run_result x (ru_result s))) = 0). by rewrite verdict_copy_run. }
  intros []. eapply (sat_bind _ (λ _, live)).
  - apply sat_if; intros _; [|apply sat_ret; intros s [Hs _]; exact (live_from _ Hb2 s Hs)].
    intros s [Hs Hi].
    pose proof (every_logs (snapshot_component graph) in_started (λ i, ESnapshot (in_id i)) ids instances
      (λ i log, snapshot_order ids log i)
      (log ++ [ERun]) s Hs) as H.
    assert (∀ s', (∃ called, called `sublist_of` List.filter in_started instances ∧
      active ids ((log ++ [ERun]) ++ ((λ i, ESnapshot (in_id i)) <$> called)) s') → live s') as Hlive.
    { intros s' (called&Hc&Ha). eapply live_before; [exact Ha|]. rewrite (list_fmap_compose in_id ESnapshot). apply Hb1.
      rewrite <- Hi. unfold started_ids. by rewrite Hc. }
    destruct (for_every _ _ s) as [[s' [what|a]]|]; auto.
  - intros []. eapply sat_conseq; [apply deactivate_collecting, verdict_collect|done..].
Qed.
Lemma run_lifecycle_order : sat (active [] []) (run_lifecycle env registry fuel graph options) (λ _, stopped) (λ _, live).
Proof.
  unfold run_lifecycle. eapply sat_bind; [by apply (start_all_order (graph_components graph) [])|]. intros [].
  eapply (sat_bind _ (λ _ s, active ids (started_log ids) s ∨ not_all_started s)).
  { intros s [[]|[(started&log&[]&Hb) Hf]]; simpl; [left; by split|right]. split; [|done]. exists started, log. split; [by split|done]. }
  intros []. eapply (sat_bind _ (λ failed s, if (failed : bool) then live s else active ids (started_log ids) s)).
  { intros s Hs. unfold failed_fatally, get. simpl. destruct (has_fatal_runtime_error (ru_result s)) eqn:Ef.
    - destruct Hs as [Hs|[Hs _]]; [|done]. eapply live_before; [exact Hs|]. rewrite <- (app_nil_r (started_log ids)).
      apply before_partial; [done|apply partial_start_nil].
    - destruct Hs as [Hs|[_ Hf]]; [done|congruence]. }
  intros []; [eapply sat_conseq; [apply deactivate_started_order|done..]|].
  eapply (sat_bind _ (λ _ s, ∃ restores, restores `sublist_of` map_items (opt_restore_component_states options) ∧
    active ids (started_log ids ++ restores_of restores) s)).
  { eapply sat_conseq; [apply (every_calls (restore_component graph) (λ x, ERestore x.1)); intros x log; apply restore_order|done|done|].
    intros what s (restores&Hr&Hs). eapply live_before; [exact Hs|]. fold (restores_of restores). rewrite <- (app_nil_r (restores_of restores)).
    apply (phases_so_far restores [] []); [done|apply sublist_nil_l|by left]. }
  intros []. apply sat_exists. intros restores. intros s [Hr Hs]. revert s Hs. change (sat (active ids (started_log ids ++ restores_of restores))
    (do for_every (reset_component env graph) resettable; failed ← failed_fatally;
     if (failed : bool) then do deactivate_started false; collecting (collect_early env graph options) else run_started env fuel graph options)
    (λ _, stopped) (λ _, live)).
  eapply (sat_bind _ (λ _ s, ∃ resets, resets `sublist_of` resettable ∧
    active ids (started_log ids ++ restores_of restores ++ (EReset <$> resets)) s)).
  { eapply sat_conseq; [apply (every_calls (reset_component env graph) EReset); intros x log; apply reset_order|done|..];
      intros what s (resets&Hr'&Hs); rewrite <- app_assoc in Hs; [by exists resets|].
    eapply live_before; [exact Hs|]. rewrite <- (app_nil_r (EReset <$> resets)). apply phases_so_far; [done..|by left]. }
  intros []. apply sat_exists. intros resets s [Hr' Hs]. unfold failed_fatally, get, mbind at 1, R_bind at 1.
  destruct (has_fatal_runtime_error (ru_result s)); [|exact (run_started_order restores resets Hr Hr' s Hs)].
  assert (live s) as Hl.
  { eapply live_before; [exact Hs|]. rewrite <- (app_nil_r (EReset <$> resets)). apply phases_so_far; [done..|by left]. }
  assert (sat live (do deactivate_started false; collecting (collect_early env graph options)) (λ _, stopped) (λ _, live)) as H.
  { eapply sat_conseq; [apply deactivate_collecting, verdict_collect_early|done..]. }
  exact (H s Hl).
Qed.
(** Whatever happens, the lifecycle ends with the components stopped. *)
Lemma lifecycle_order r r' log : out_stopped_components r = 0 →
  run_components env registry fuel graph options r = Some (r', log) →
  ∃ started called, before_stop started called ∧ log = called ++ (EDeactivate <$> reverse started) ∧
    out_stopped_components r' = length started.
Proof.
  intros Hr. unfold run_components.
  assert (active [] [] (mkRunner (initial_world graph) r [] [])) as H0 by (by split).
  assert (sat (active [] []) (catching handle_exception (run_lifecycle env registry fuel graph options)) (λ _, stopped) (λ _ _, False)) as H.
  { eapply sat_catching; [apply run_lifecycle_order|]. intros what. unfold handle_exception.
    eapply (sat_bind _ (λ _, live)); [|intros []; apply deactivate_started_order].
    intros s (started&called&[]&Hb). exists started, called. by split. }
  specialize (H _ H0). destruct (catching _ _ _) as [[s [what|a]]|]; [done| |done]. intros [= <- <-].
  destruct H as (started&called&?&?&?). by exists started, called.
Qed.
End lifecycle.
