(* ===== verification/RunnerMetricsFacts.v ===== *)
(** * RunnerMetricsFacts: the metrics of a result keep to the metric schema, and texts that the runner reads back

    Every sample that the runner appends has a descriptor that allows its labels ([conforming]), except the count of lost
    live events, which has no descriptor.

    A number that is written in decimal into the graph configuration is read back exactly when it fits [std::size_t], an
    execution error of the event runtime is attributed to the component that it names, and trace ids differ. *)

From S2P Require Export RunnerLogic RunnerMetrics.
From Stdlib Require Import Ascii.
Local Open Scope nat_scope.

Definition conforming (r : RuntimeRunnerResult) : Prop := Forall sample_conforms (out_runtime_metrics r).

(** ** Samples *)
(** The metric exists and may carry the label; no label at all is always allowed. *)
Definition metric_with (label name : string) : bool :=
  match find_runtime_metric_descriptor name with Some d => has_label d label | None => false end.
Definition metric_known (name : string) : bool := match find_runtime_metric_descriptor name with Some _ => true | None => false end.
Lemma labelled_conforms name v c l ch label : metric_with label name = true →
  (c = "" ∨ label = "component_id") → (l = "" ∨ label = "lane") → (ch = "" ∨ label = "channel_id") →
  sample_conforms (mkSample name v c l ch []).
Proof.
  unfold metric_with, sample_conforms, label_allowed, has_label. simpl. destruct (find_runtime_metric_descriptor name); [|done].
  rewrite bool_decide_eq_true. intros H Hc Hl Hch. split_and!; [..|constructor];
    match goal with H : _ ∨ _ |- ?x = _ ∨ _ => destruct H as [->|<-]; [by left|by right] end.
Qed.
Lemma plain_conforms name v : metric_known name = true → sample_conforms (mkSample name v "" "" "" []).
Proof.
  unfold metric_known, sample_conforms, label_allowed. simpl. destruct (find_runtime_metric_descriptor name); [|done].
  intros _. split_and!; by left.
Qed.
Lemma labelled_all label f l : (∀ nv, metric_with label nv.1 = true → sample_conforms (f nv)) →
  forallb (λ nv : string * Double, metric_with label nv.1) l = true → Forall sample_conforms (f <$> l).
Proof. intros Hf. rewrite forallb_forall, Forall_fmap. intros H. apply Forall_forall. intros nv Hnv. apply Hf, H. by apply list_elem_of_In. Qed.
Lemma lane_conforms lane nv : metric_with "lane" nv.1 = true → sample_conforms (lane_sample lane nv).
Proof. intros H. eapply labelled_conforms; [exact H|auto..]. Qed.
Lemma component_conforms id nv : metric_with "component_id" nv.1 = true → sample_conforms (component_sample id nv).
Proof. intros H. eapply labelled_conforms; [exact H|auto..]. Qed.
Lemma channel_conforms id nv : metric_with "channel_id" nv.1 = true → sample_conforms (channel_sample id nv).
Proof. intros H. eapply labelled_conforms; [exact H|auto..]. Qed.
Lemma plain_all l : forallb (λ nv : string * Double, metric_known nv.1) l = true → Forall sample_conforms (plain_sample <$> l).
Proof.
  rewrite forallb_forall, Forall_fmap. intros H. apply Forall_forall. intros nv Hnv. apply plain_conforms, H. by apply list_elem_of_In.
Qed.
Ltac known := vm_compute; reflexivity.
Lemma scheduler_conforms lane m : Forall sample_conforms (scheduler_samples lane m).
Proof. apply (labelled_all "lane" (lane_sample lane)); [apply lane_conforms|known]. Qed.
Lemma execution_conforms id m : Forall sample_conforms (component_samples id m).
Proof. apply (labelled_all "component_id" (component_sample id)); [apply component_conforms|known]. Qed.
Lemma trigger_conforms id m : Forall sample_conforms (trigger_samples id m).
Proof. apply (labelled_all "component_id" (component_sample id)); [apply component_conforms|known]. Qed.
Lemma channel_samples_conform m : Forall sample_conforms (channel_samples m).
Proof. apply (labelled_all "channel_id" (channel_sample (cm_channel_id m))); [apply channel_conforms|known]. Qed.
Lemma samples_of_conform {V} (f : string → V → list RuntimeMetricSample) m : (∀ k v, Forall sample_conforms (f k v)) →
  Forall sample_conforms (samples_of f m).
Proof. intros H. unfold samples_of. apply Forall_bind, Forall_forall. intros [k v] _. apply H. Qed.
Lemma loop_conforms name m : metric_with "component_id" name = true → Forall sample_conforms (loop_samples name m).
Proof. intros H. apply samples_of_conform. intros id n. constructor; [|constructor]. by apply component_conforms. Qed.

(** ** Operations on results *)
Lemma conforming_samples l r : Forall sample_conforms l → conforming r → conforming (append_samples l r).
Proof. intros Hl Hr. unfold conforming. apply Forall_app_2; done. Qed.
Lemma conforming_metrics r r' : out_runtime_metrics r' = out_runtime_metrics r → conforming r → conforming r'.
Proof. unfold conforming. by intros ->. Qed.
Lemma conforming_plain name v r : metric_known name = true → conforming r → conforming (append_runtime_metric name v "" "" "" r).
Proof. intros Hn. apply (conforming_samples [mkSample name v "" "" "" []]). constructor; [by apply plain_conforms|constructor]. Qed.
Lemma conforming_if_set name n r : metric_known name = true → conforming r → conforming (append_if_set name n r).
Proof. unfold append_if_set. destruct (n =? 0)%Z; [done|]. apply conforming_plain. Qed.
Lemma conforming_lifecycle r : conforming r → conforming (append_lifecycle_metrics r).
Proof. intros H. unfold append_lifecycle_metrics. cbv zeta. repeat (apply conforming_if_set; [known|]). exact H. Qed.
Lemma conforming_run_metrics x r : conforming r → conforming (append_run_metrics x r).
Proof.
  intros H. unfold append_run_metrics. cbv zeta. repeat apply conforming_samples; try done; apply samples_of_conform; intros.
  - apply trigger_conforms.
  - apply execution_conforms.
  - apply scheduler_conforms.
Qed.
Lemma loop_groups_known x : Forall (λ g, metric_with "component_id" (lg_name g) = true ∧
  ∀ n r, out_runtime_metrics (lg_add g n r) = out_runtime_metrics r) (loop_groups x).
Proof. repeat constructor. Qed.
Lemma conforming_loop_groups groups r : Forall (λ g, metric_with "component_id" (lg_name g) = true ∧
  ∀ n r, out_runtime_metrics (lg_add g n r) = out_runtime_metrics r) groups → conforming r → conforming (fold_left append_loop_group groups r).
Proof.
  intros Hg. revert r. induction Hg as [|g groups [Hn Ha] Hg IH]; intros r H; cbn [fold_left]; [done|]. apply IH.
  unfold append_loop_group. apply conforming_samples; [by apply loop_conforms|]. apply (conforming_metrics r); [apply Ha|done].
Qed.
Lemma conforming_stop_reason f r : conforming r → conforming (r <| out_loop_stop_reason ::= f |>).
Proof. by apply conforming_metrics. Qed.
Lemma conforming_residual f r : conforming r → conforming (r <| out_loop_last_residual ::= f |>).
Proof. by apply conforming_metrics. Qed.
Lemma conforming_loop_metrics x r : conforming r → conforming (append_loop_metrics x r).
Proof.
  intros H. unfold append_loop_metrics. cbv zeta. apply conforming_stop_reason, conforming_samples.
  - apply samples_of_conform. intros. constructor; [apply component_conforms; known|constructor].
  - apply conforming_residual, conforming_loop_groups; [apply loop_groups_known|done].
Qed.
Lemma conforming_copy_run x r : conforming r → conforming (copy_run_result x r).
Proof.
  intros H. unfold copy_run_result. cbv zeta. apply conforming_loop_metrics, conforming_run_metrics. by eapply conforming_metrics.
Qed.
Lemma conforming_channels l r : conforming r → conforming (append_channels l r).
Proof.
  unfold append_channels. revert r. induction l as [|m l IH]; intros r H; cbn [fold_left]; [done|]. apply IH.
  unfold append_channel. apply conforming_samples; [apply channel_samples_conform|]. by eapply conforming_metrics.
Qed.
Lemma conforming_publications m r : conforming r → conforming (append_publications m r).
Proof. intros H. unfold append_publications. apply conforming_samples; [apply plain_all; known|]. by eapply conforming_metrics. Qed.
Lemma conforming_health r : conforming r → conforming (append_health r).
Proof. intros H. unfold append_health. apply conforming_samples; [apply plain_all; known|done]. Qed.
Lemma conforming_state m r : conforming r → conforming (append_state m r).
Proof. intros H. unfold append_state. destruct (any_set _); [|done]. apply conforming_samples; [apply plain_all; known|done]. Qed.
Lemma conforming_config m r : conforming r → conforming (append_config m r).
Proof. intros H. unfold append_config. destruct (any_set _); [|done]. apply conforming_samples; [apply plain_all; known|done]. Qed.
Lemma conforming_trace times ids spans events r : conforming r → conforming (copy_trace_to_result times ids spans events r).
Proof. by apply conforming_metrics. Qed.
Lemma conforming_count r : conforming r → conforming (count_metric_samples r).
Proof. by apply conforming_metrics. Qed.
Lemma conforming_copy_health s r : conforming r → conforming (copy_health s r).
Proof. by apply conforming_metrics. Qed.

(** ** The lifecycle *)
Section lifecycle.
Context (env : RunnerEnvironment) (registry : ComponentRegistry ComponentFactory) (compile_fuel fuel : nat).
Context (graph : GraphSpec) (options : RuntimeRunnerOptions).
Context (Huser : Forall sample_conforms (plain_sample <$> env_metric_samples env)).
Lemma conforming_collect w r : conforming r → conforming (collect env graph options w r).
Proof.
  intros H. unfold collect, copy_trace. cbv zeta. apply conforming_count, conforming_plain; [known|].
  apply conforming_trace, conforming_samples; [exact Huser|]. apply conforming_lifecycle.
  assert (∀ r, conforming r → conforming (match w_config w with Some s => append_config (config_store_metrics s) r | None => r end)) as H1.
  { intros r1 Hr1. destruct (w_config w); [by apply conforming_config|done]. }
  assert (∀ r, conforming r → conforming (match w_state w with Some s => append_state (store_metrics s) r | None => r end)) as H2.
  { intros r1 Hr1. destruct (w_state w); [by apply conforming_state|done]. }
  apply H1, H2, conforming_health, conforming_copy_health, conforming_publications, conforming_channels, H.
Qed.
Lemma conforming_collect_early w r : conforming r → conforming (collect_early env graph options w r).
Proof.
  intros H. unfold collect_early, copy_trace. cbv zeta. apply conforming_count, conforming_if_set; [known|].
  by apply conforming_trace, conforming_copy_health, conforming_lifecycle.
Qed.
Ltac conforming_update :=
  cbv beta; lazymatch goal with
  | |- _ → conforming (copy_run_result _ _) => apply conforming_copy_run
  | |- _ → conforming (collect _ _ _ _ _) => apply conforming_collect
  | |- _ → conforming (collect_early _ _ _ _ _) => apply conforming_collect_early
  | |- _ => by apply conforming_metrics
  end.
Lemma conforming_deactivate settle : holds (of_result conforming) (deactivate_started settle).
Proof.
  unfold deactivate_started, deactivate_component. destruct settle; result_walk conforming_update.
Qed.
Lemma conforming_run_started : holds (of_result conforming) (run_started env fuel graph options).
Proof.
  unfold run_started, snapshot_component.
  holds_walk ltac:(first [apply conforming_deactivate | result_walk conforming_update]).
Qed.
Lemma conforming_run_lifecycle : holds (of_result conforming) (run_lifecycle env registry fuel graph options).
Proof.
  unfold run_lifecycle, start_component, restore_component, reset_component, restore_failed, reset_failed, failed_fatally, count_instances.
  holds_walk ltac:(first [apply conforming_deactivate | apply conforming_run_started | result_walk conforming_update]).
Qed.
Lemma conforming_components r r' log : run_components env registry fuel graph options r = Some (r', log) → conforming r → conforming r'.
Proof.
  unfold run_components. intros E H.
  assert (holds (of_result conforming) (catching handle_exception (run_lifecycle env registry fuel graph options))) as Hl.
  { apply holds_catching; [apply conforming_run_lifecycle|]. intros what. unfold handle_exception.
    holds_walk ltac:(first [apply conforming_deactivate | result_walk conforming_update]). }
  specialize (Hl (mkRunner (initial_world graph) r [] []) H). destruct (catching _ _ _) as [[s [what|a]]|]; [done| |done].
  by injection E as <- <-.
Qed.
(** No live event is lost before the end. *)
Definition none_lost (r : RuntimeRunnerResult) : Prop := out_live_observe_dropped_event_count r = 0.
Lemma none_lost_verdict r r' : verdict r' = verdict r → none_lost r → none_lost r'.
Proof. unfold none_lost. intros E. change (vd_lost (verdict r) = 0 → vd_lost (verdict r') = 0). by rewrite E. Qed.
Ltac none_lost_update :=
  cbv beta; lazymatch goal with
  | |- none_lost ?r → none_lost (copy_run_result ?x ?r) =>
      let H := fresh in intros H; change (vd_lost (verdict (copy_run_result x r)) = 0); by rewrite verdict_copy_run
  | |- none_lost ?r → none_lost (collect _ _ _ _ _) => apply none_lost_verdict, verdict_collect
  | |- none_lost ?r → none_lost (collect_early _ _ _ _ _) => apply none_lost_verdict, verdict_collect_early
  | |- _ => let H := fresh in intros H; exact H
  end.
Lemma none_lost_deactivate settle : holds (of_result none_lost) (deactivate_started settle).
Proof. unfold deactivate_started, deactivate_component. destruct settle; result_walk none_lost_update. Qed.
Lemma none_lost_run_started : holds (of_result none_lost) (run_started env fuel graph options).
Proof.
  unfold run_started, snapshot_component. holds_walk ltac:(first [apply none_lost_deactivate | result_walk none_lost_update]).
Qed.
Lemma none_lost_run_lifecycle : holds (of_result none_lost) (run_lifecycle env registry fuel graph options).
Proof.
  unfold run_lifecycle, start_component, restore_component, reset_component, restore_failed, reset_failed, failed_fatally, count_instances.
  holds_walk ltac:(first [apply none_lost_deactivate | apply none_lost_run_started | result_walk none_lost_update]).
Qed.
Lemma none_lost_components r r' log : run_components env registry fuel graph options r = Some (r', log) → none_lost r → none_lost r'.
Proof.
  unfold run_components. intros E H.
  assert (holds (of_result none_lost) (catching handle_exception (run_lifecycle env registry fuel graph options))) as Hl.
  { apply holds_catching; [apply none_lost_run_lifecycle|]. intros what. unfold handle_exception.
    holds_walk ltac:(first [apply none_lost_deactivate | result_walk none_lost_update]). }
  specialize (Hl (mkRunner (initial_world graph) r [] []) H). destruct (catching _ _ _) as [[s [what|a]]|]; [done| |done].
  by injection E as <- <-.
Qed.
Lemma conforming_errors phase code l r : conforming r → conforming (fold_left (λ r error, report_error phase "" "" error code true r) l r).
Proof. revert r. induction l as [|e l IH]; intros r H; cbn [fold_left]; [done|]. apply IH. by apply conforming_metrics with r. Qed.
Lemma dry_run_conforms n d : dry_run_graph (env_stod env) registry factory_probe compile_fuel graph n = Some d →
  Forall sample_conforms (dry_runtime_metrics d).
Proof.
  unfold dry_run_graph. destruct (validate_graph _ _ _ _ _) as [v|]; [|done]. simpl. intros [= <-].
  destruct (gv_ok v); simpl; [|constructor]. apply Forall_fmap, Forall_forall. intros e _.
  exact (channel_conforms (edge_id e) ("runtime.channel.configured", of_int 1) eq_refl).
Qed.
Lemma none_lost_errors phase code l r : none_lost r → none_lost (fold_left (λ r error, report_error phase "" "" error code true r) l r).
Proof. revert r. induction l as [|e l IH]; intros r H; cbn [fold_left]; [done|]. by apply IH. Qed.
Lemma run_mode_conforms r log : run_mode env registry compile_fuel fuel graph options = Some (r, log) → conforming r ∧ none_lost r.
Proof.
  unfold run_mode. destruct (validate_graph _ _ _ _ _) as [v|]; [|done].
  set (r0 := initial_runner_result <| out_graph_name := graph_name graph |> <| out_component_count := length (graph_components graph) |>
    <| out_channel_count := length (graph_edges graph) |> <| out_validation := v |>).
  assert (conforming r0) as H0 by constructor. assert (none_lost r0) as L0 by done. clearbody r0. destruct (gv_ok v); cbn [negb].
  - destruct (opt_mode options).
    + intros [= <- <-]. split; [by apply conforming_metrics with r0|exact L0].
    + destruct (dry_run_graph _ _ _ _ _ _) as [d|] eqn:Ed; [|done]. intros [= <- <-]. split; [by eapply dry_run_conforms|].
      assert (none_lost (r0 <| out_ok := dry_ok d |>)) as L1 by exact L0. exact (none_lost_errors "dry_run" "dry_run" (dry_errors d) _ L1).
    + intros E. split; [by eapply conforming_components|by eapply none_lost_components].
  - intros [= <- <-]. split; [apply conforming_errors; by apply conforming_metrics with r0|by apply none_lost_errors].
Qed.
End lifecycle.

(** ** Live events and observers *)
Definition lost_events_metric : string := "runtime.live_observe.dropped_event_count".
Lemma lost_events_undescribed v : ¬ sample_conforms (mkSample lost_events_metric v "" "" "" []).
Proof. unfold sample_conforms. vm_compute. done. Qed.
(** A result conforms but for the count of lost live events. *)
Definition conforming_unless_lost (r : RuntimeRunnerResult) : Prop := conforming r ↔ out_live_observe_dropped_event_count r = 0.
Lemma lost_events_reported n r : conforming r →
  conforming_unless_lost (count_metric_samples (append_if_set lost_events_metric (Z.of_nat n) (r <| out_live_observe_dropped_event_count := n |>))).
Proof.
  intros H. unfold conforming_unless_lost, append_if_set. destruct (Z.eqb_spec (Z.of_nat n) 0) as [Hn|Hn].
  - change (conforming r ↔ n = 0). split; [lia|done].
  - change (Forall sample_conforms (out_runtime_metrics r ++ [mkSample lost_events_metric (of_int (Z.of_nat n)) "" "" "" []]) ↔ n = 0).
    rewrite Forall_app, list.Forall_singleton. split; [intros [_ Hl]; by apply lost_events_undescribed in Hl|lia].
Qed.
Lemma finish_live_conforming compiled_in now ids s r : conforming r → out_live_observe_dropped_event_count r = 0 →
  conforming_unless_lost (snd (finish_live_observe compiled_in now ids s r)).
Proof.
  intros Hr H0. unfold finish_live_observe. destruct (session_enabled compiled_in s); cbn [negb]; [|by split].
  destruct (session_drain _ _ _) as [s1 drained]. destruct (session_take_drop_summary _ _ _ _) as [s2 summary]. cbv zeta. cbn [snd].
  set (r1 := match summary with Some e => _ | None => _ end).
  assert (conforming r1) as H1 by (unfold r1; destruct summary; by apply conforming_metrics with r). clearbody r1.
  exact (lost_events_reported _ r1 H1).
Qed.
Lemma conforming_unless_metrics r r' : out_runtime_metrics r' = out_runtime_metrics r →
  out_live_observe_dropped_event_count r' = out_live_observe_dropped_event_count r → conforming_unless_lost r → conforming_unless_lost r'.
Proof. unfold conforming_unless_lost, conforming. by intros -> ->. Qed.
Lemma conforming_unless_if_set name n r : metric_known name = true → conforming_unless_lost r → conforming_unless_lost (append_if_set name n r).
Proof.
  intros Hn. unfold append_if_set. destruct (n =? 0)%Z; [done|]. unfold conforming_unless_lost.
  change (out_live_observe_dropped_event_count (append_runtime_metric ?a ?b ?c ?d ?e ?r)) with (out_live_observe_dropped_event_count r).
  intros <-. split; [|by apply conforming_plain]. unfold conforming. simpl. intros H. by apply Forall_app in H as [H _].
Qed.
Lemma tell_observers_metrics observers d r os d' r' : tell_observers observers d r = Some (os, d', r') →
  out_runtime_metrics r' = out_runtime_metrics r ∧ out_live_observe_dropped_event_count r' = out_live_observe_dropped_event_count r.
Proof.
  revert d r os. induction observers as [|[o|] observers IH]; intros d r os; cbn [tell_observers]; [by intros [= <- <- <-]|..].
  - destruct (deliver _ _ _) as [[o1 d1]|]; [|done]. cbv zeta.
    destruct (tell_observers observers d1 _) as [[[os1 d2] r1]|] eqn:E; [|done]. intros [= <- <- <-]. apply IH in E. exact E.
  - destruct (tell_observers observers d r) as [[[os1 d2] r1]|] eqn:E; [|done]. intros [= <- <- <-]. by apply IH in E.
Qed.
Lemma notify_conforming observers r os r' : notify_runtime_observers observers r = Some (os, r') → conforming_unless_lost r →
  conforming_unless_lost r'.
Proof.
  unfold notify_runtime_observers. destruct observers as [|o l]; [by intros [= <- <-]|].
  destruct (tell_observers _ _ _) as [[[os1 d] r1]|] eqn:E; [|done]. apply tell_observers_metrics in E as [E1 E2]. cbv zeta. intros [= <- <-] H.
  eapply conforming_unless_metrics; [reflexivity..|]. apply conforming_unless_if_set; [known|]. apply conforming_unless_if_set; [known|].
  destruct (callback_failure_count d =? 0).
  - by apply conforming_unless_metrics with r.
  - by apply conforming_unless_metrics with r.
Qed.

Lemma metrics_conform env registry compile_fuel fuel graph options o : Forall sample_conforms (plain_sample <$> env_metric_samples env) →
  run_graph env registry compile_fuel fuel graph options = Some o → conforming_unless_lost (outcome_result o).
Proof.
  intros Huser. unfold run_graph. destruct (run_mode _ _ _ _ _ _) as [[r log]|] eqn:E; [|done].
  apply run_mode_conforms in E as [H1 H2]; [|done]. unfold finish_result.
  pose proof (finish_live_conforming (env_live_compiled_in env) (env_live_clock env) (make_live_id_maps graph)
    (publish_all (env_live_compiled_in env) [make_live_event (env_live_clock env) kRunStarted 0 0]
      (LiveObserveSession_new (opt_live_observe options))) r H1 H2) as H.
  cbv zeta. destruct (notify_runtime_observers _ _) as [[os r']|] eqn:En; [|done]. intros [= <-]. by eapply notify_conforming.
Qed.

(** ** Decimal numbers *)
Definition digit_char (c : ascii) : Prop := ∃ d, (d < 10)%N ∧ c = pretty_N_char d.
Lemma digit_cases (P : N → Prop) : P 0%N → P 1%N → P 2%N → P 3%N → P 4%N → P 5%N → P 6%N → P 7%N → P 8%N → P 9%N → ∀ d, (d < 10)%N → P d.
Proof.
  intros. assert (d = 0 ∨ d = 1 ∨ d = 2 ∨ d = 3 ∨ d = 4 ∨ d = 5 ∨ d = 6 ∨ d = 7 ∨ d = 8 ∨ d = 9)%N as Hd by lia.
  by repeat destruct Hd as [->|Hd]; [..|subst].
Qed.
Lemma digit_pretty d : (d < 10)%N → digit (pretty_N_char d) = Some (Z.of_N d).
Proof. revert d. by apply digit_cases. Qed.
Lemma digit_char_plain c : digit_char c → is_space c = false ∧ c ≠ "-"%char ∧ c ≠ "+"%char.
Proof. intros (d&Hd&->). revert d Hd. by apply digit_cases. Qed.
Lemma read_pretty_go x s : (0 < x)%N → read_digits (pretty_N_go x s) None = read_digits s (Some (Z.of_N x)) ∧
  ∃ c r, pretty_N_go x s = String c r ∧ digit_char c.
Proof.
  revert s. induction (N.lt_wf_0 x) as [x _ IH]. intros s Hx. rewrite pretty_N_go_step by done.
  assert (x mod 10 < 10)%N as Hd by (by apply N.mod_lt). pose proof (N.div_mod x 10) as Hdm.
  destruct (decide (x `div` 10 = 0)%N) as [E|E].
  - rewrite E, pretty_N_go_0. split; [|exists (pretty_N_char (x mod 10)), s; split; [done|by exists (x mod 10)%N]].
    cbn [read_digits]. rewrite digit_pretty by done. f_equal. f_equal. simpl. lia.
  - destruct (IH (x `div` 10)%N) with (s := String (pretty_N_char (x mod 10)) s) as [H1 H2]; [by apply N.div_lt|lia|].
    split; [|done]. rewrite H1. cbn [read_digits]. rewrite digit_pretty by done. f_equal. f_equal. simpl. lia.
Qed.
Lemma read_pretty (n : N) : read_digits (pretty n) None = Some (Z.of_N n) ∧ ∃ c r, pretty n = String c r ∧ digit_char c.
Proof.
  unfold pretty, pretty_N. destruct (decide (n = 0)%N) as [->|Hn].
  - split; [done|]. exists "0"%char, "". split; [done|]. by exists 0%N.
  - apply (read_pretty_go n ""). lia.
Qed.
Lemma stoull_unsigned c r : digit_char c →
  stoull (String c r) = match read_digits (String c r) None with
    | None => None
    | Some n => if (u64_max <? n)%Z then None else Some n
    end.
Proof.
  intros (Hs&Hm&Hp)%digit_char_plain. unfold stoull. cbn [skip_spaces]. rewrite Hs.
  destruct c as [[] [] [] [] [] [] [] []]; reflexivity || done.
Qed.
Lemma stoull_digits (n : N) : stoull (pretty n) = if (u64_max <? Z.of_N n)%Z then None else Some (Z.of_N n).
Proof. destruct (read_pretty n) as (Hr&c&r&Hc&Hd). rewrite Hc in Hr |- *. by rewrite stoull_unsigned, Hr. Qed.
Lemma pretty_plain (n : N) : str_empty (pretty n) = false ∧ starts_with_minus (pretty n) = false.
Proof.
  destruct (read_pretty n) as (_&c&r&->&(Hs&Hm&Hp)%digit_char_plain). split; [done|]. simpl. by rewrite bool_decide_eq_false_2.
Qed.
Lemma parse_size_of_text config key (n : N) : config_values config !! key = Some (pretty n) →
  parse_config_size config key = if (u64_max <? Z.of_N n)%Z then None else Some (Z.of_N n).
Proof.
  intros H. unfold parse_config_size. rewrite H. destruct (pretty_plain n) as [-> ->]. apply stoull_digits.
Qed.
(** Every integer: a size is read back, anything else is ignored. *)
Lemma parse_size_of_integer config key z : config_values config !! key = Some (to_string_Z z) →
  parse_config_size config key = if bool_decide (0 <= z <= u64_max)%Z then Some z else None.
Proof.
  intros H. unfold to_string_Z in H. destruct z as [|p|p].
  - by rewrite (parse_size_of_text config key 0%N).
  - rewrite (parse_size_of_text config key (N.pos p)) by done. simpl.
    destruct (Z.ltb_spec u64_max (Z.pos p)); case_bool_decide; (done || lia).
  - unfold parse_config_size. rewrite H. rewrite bool_decide_eq_false_2 by lia. done.
Qed.
(** A space before the sign hides it. *)
Lemma negative_size_read config key : config_values config !! key = Some " -5" → parse_config_size config key = Some (2 ^ 64 - 5)%Z.
Proof. intros H. unfold parse_config_size. by rewrite H. Qed.

(** ** Attribution of errors *)
(** What the event runtime writes when a component fails. *)
Definition failure_text (id message : string) : string := "component " +:+ id +:+ " failed: " +:+ message.
Fixpoint no_space (s : string) : Prop := match s with String c rest => c ≠ " "%char ∧ no_space rest | EmptyString => True end.
Lemma prefix_empty s : String.prefix "" s = true.
Proof. by destruct s. Qed.
Lemma index_failed id rest : no_space id → String.index 0 " failed:" (id +:+ " failed:" +:+ rest) = Some (String.length id).
Proof.
  induction id as [|c id IH].
  - intros _. destruct rest; reflexivity.
  - intros [Hc Hr]. change (String c id +:+ ?x) with (String c (id +:+ x)). generalize (IH Hr). generalize (id +:+ " failed:" +:+ rest). intros t Ht. cbn [String.index String.prefix]. destruct (ascii_dec " " c) as [<-|_]; [done|]. by rewrite Ht.
Qed.
Lemma substring_front id rest : String.substring 0 (String.length id) (id +:+ rest) = id.
Proof. induction id as [|c id IH]; simpl; [by destruct rest|]. by rewrite IH. Qed.
Lemma index_succ n s c t : String.index (S n) s (String c t) = S <$> String.index n s t.
Proof. destruct t; [by destruct s|done]. Qed.
Lemma index_after p s t k : String.index 0 s t = Some k → String.index (String.length p) s (p +:+ t) = Some (String.length p + k).
Proof.
  intros H. induction p as [|c p IH]; [done|]. change (String c p +:+ t) with (String c (p +:+ t)).
  cbn [String.length]. by rewrite index_succ, IH.
Qed.
Lemma substring_after n t : String.substring 10 n ("component " +:+ t) = String.substring 0 n t.
Proof. reflexivity. Qed.
Lemma component_of_failure id message : no_space id → component_id_from_legacy_error (failure_text id message) = id.
Proof.
  intros H. unfold component_id_from_legacy_error, failure_text.
  assert (String.prefix "component " ("component " +:+ id +:+ " failed: " +:+ message) = true) as -> by apply prefix_empty. cbn [negb].
  rewrite (index_after "component " _ _ (String.length id)) by apply (index_failed id (" " +:+ message) H). cbn [String.length].
  rewrite substring_after. replace (10 + String.length id - 10) with (String.length id) by lia. apply substring_front.
Qed.

(** ** Trace ids *)
Fixpoint without_char (c : ascii) (s : string) : Prop := match s with EmptyString => True | String x rest => x ≠ c ∧ without_char c rest end.
Lemma pretty_go_without_dash x s : without_char "-" s → without_char "-" (pretty_N_go x s).
Proof.
  revert s. induction (N.lt_wf_0 x) as [x _ IH]. intros s Hs. destruct (decide (x = 0)%N) as [->|Hx]; [by rewrite pretty_N_go_0|].
  rewrite pretty_N_go_step by lia. apply IH; [apply N.div_lt; lia|]. split; [|done].
  assert (digit_char (pretty_N_char (x mod 10))) as H by (exists (x mod 10)%N; split; [by apply N.mod_lt|done]). apply (digit_char_plain _ H).
Qed.
Lemma number_without_dash z : (0 <= z)%Z → without_char "-" (to_string_Z z).
Proof.
  intros Hz. unfold to_string_Z. assert (pretty z = pretty (Z.to_N z)) as -> by (destruct z; [done|done|lia]).
  unfold pretty, pretty_N. destruct (decide _); [by repeat split|]. by apply pretty_go_without_dash.
Qed.
(** What stands behind the last dash. *)
Lemma last_part c s1 s2 d1 d2 : without_char c d1 → without_char c d2 → s1 +:+ String c d1 = s2 +:+ String c d2 → s1 = s2 ∧ d1 = d2.
Proof.
  assert (∀ s d, ¬ without_char c (s +:+ String c d)) as Hno by (induction s as [|x s IH]; intros d [H1 H2]; [done|by eapply IH]).
  intros H1 H2. revert s2. induction s1 as [|x s1 IH]; intros [|y s2] E; simpl in E; injection E.
  - by intros ->.
  - intros -> _. by apply Hno in H1.
  - intros <- ->. by apply Hno in H2.
  - intros E' ->. by apply IH in E' as [-> ->].
Qed.
Lemma to_string_Z_inj a b : (0 <= a)%Z → (0 <= b)%Z → to_string_Z a = to_string_Z b → a = b.
Proof.
  intros Ha Hb. unfold to_string_Z.
  assert (∀ z, (0 <= z)%Z → pretty z = pretty (Z.to_N z)) as Hz by (intros [] ?; [done|done|lia]).
  rewrite !Hz by done. intros E%pretty_N_inj. lia.
Qed.
(** The ids of threads that draw one after the other, each with its reading of the clock. *)
Fixpoint draw_ids (readings : list Z) (counter : Z) : list string :=
  match readings with
  | [] => []
  | now :: rest => let '(id, counter) := TraceId_generate now counter in id :: draw_ids rest counter
  end.
Lemma drawn_id readings counter id : (0 <= counter)%Z → (counter + Z.of_nat (length readings) <= 2 ^ 64)%Z → id ∈ draw_ids readings counter →
  ∃ now k, id = "trace-" +:+ to_string_Z now +:+ "-" +:+ to_string_Z k ∧ (counter <= k < 2 ^ 64)%Z.
Proof.
  revert counter. induction readings as [|now rest IH]; intros counter Hc Hl; [by intros ?%elem_of_nil|]. cbn [length] in Hl. cbn [draw_ids TraceId_generate].
  destruct (decide (rest = [])) as [->|Hne].
  - intros ->%list_elem_of_singleton. exists now, counter. split; [done|]. simpl in Hl. lia.
  - assert (0 < length rest) by (destruct rest; [done|simpl; lia]). rewrite Z.mod_small by lia. intros [->|Hin]%elem_of_cons; [exists now, counter; split; [done|lia]|].
    destruct (IH (counter + 1)%Z) as (t&k&->&Hk); [lia|lia|done|]. exists t, k. split; [done|lia].
Qed.
(** Ids differ as long as the counter does not wrap, whatever the clock says. *)
Lemma trace_ids_distinct readings counter : (0 <= counter)%Z → (counter + Z.of_nat (length readings) <= 2 ^ 64)%Z → NoDup (draw_ids readings counter).
Proof.
  revert counter. induction readings as [|now rest IH]; intros counter Hc Hl; [constructor|]. cbn [length] in Hl. cbn [draw_ids TraceId_generate].
  destruct (decide (rest = [])) as [->|Hne]; [simpl; apply NoDup_singleton|].
  assert (0 < length rest) by (destruct rest; [done|simpl; lia]). rewrite Z.mod_small by lia. apply NoDup_cons. split; [|apply IH; lia].
  intros Hin. apply drawn_id in Hin as (t&k&E&Hk); [|lia|lia].
  assert (("trace-" +:+ to_string_Z now) +:+ String "-" (to_string_Z counter) = ("trace-" +:+ to_string_Z t) +:+ String "-" (to_string_Z k)) as E'.
  { exact E. }
  apply last_part in E' as [_ E']; [|apply number_without_dash; lia..]. apply to_string_Z_inj in E'; lia.
Qed.
