(* ===== verification/RunnerFacts.v ===== *)
(** * RunnerFacts: the runner returns, with a consistent verdict

    With components whose deactivation does not throw, every lifecycle ends, and the result is ok exactly when it has no
    errors.  An exception is only reported when user code throws ([quiet]). *)

From S2P Require Export LifecycleFacts ValidateFacts ConfigFacts.
Local Open Scope nat_scope.

(** ** Components *)
Definition component_fine (c : RunnerComponent) : Prop :=
  deactivates c ∧ EventRuntimeFacts.config_hooks_return (code_component c).
Record component_quiet (c : RunnerComponent) : Prop := {
  cq_configure : ∀ moment config, no_throw (code_configure c moment config);
  cq_activate : ∀ moment, ∃ status, code_activate c moment = inr status;
  cq_reset : ∀ moment, no_throw (code_reset c moment);
  cq_restore : ∀ moment state, ∃ status, code_restore_state c moment state = inr status;
  cq_snapshot : ∀ moment, ∃ answer, code_snapshot_state c moment = inr answer }.
(** A factory never returns a null pointer, and makes well-behaved components. *)
Definition factory_fine (f : ComponentFactory) : Prop :=
  ∀ moment, factory_create f moment ≠ inr None ∧ ∀ c, factory_create f moment = inr (Some c) → component_fine c.
Definition factory_quiet (f : ComponentFactory) : Prop :=
  ∀ moment, ∃ c, factory_create f moment = inr (Some c) ∧ component_quiet c.
Definition factories_are (P : ComponentFactory → Prop) (registry : ComponentRegistry ComponentFactory) : Prop :=
  ∀ type f, factories registry !! type = Some f → P f.

(** ** Settled results *)
(** Errors other than the one of the observers. *)
Definition own_error (quiet : Prop) (e : RuntimeError) : Prop :=
  err_code e ≠ "observer_failure" ∧ (quiet → err_code e ≠ "exception").
Lemma run_prog_quiet clock cancelled c p n w w' x k : no_throw p → run_prog clock cancelled c p n w = Some (w', x, k) → ∃ status, x = inr status.
Proof.
  revert n w. induction p as [status|what|call f IH]; intros n w; simpl; [|done|].
  - intros _ [= <- <- <-]. by eexists.
  - intros H. destruct (perform _ _ _ _ _) as [[w1 answer]|]; [|done]. by apply IH.
Qed.

Section facts.
Context (env : RunnerEnvironment) (registry : ComponentRegistry ComponentFactory) (fuel : nat).
Context (graph : GraphSpec) (options : RuntimeRunnerOptions).
Context (quiet : Prop) (Hquiet : quiet → factories_are factory_quiet registry ∧
  (∀ c, c ∈ graph_components graph → is_Some (factories registry !! comp_type c)) ∧
  ∀ c, c ∈ graph_components graph → is_Some (lane_configs graph !! exec_lane (execution c))).
Context (Hfine : factories_are factory_fine registry).
Context (r0 : Router) (committed : string → string → RuntimePayloadPtr).
Abbreviation own := (Forall (own_error quiet)).

(** Every instance came from a factory. *)
Definition instance_fine (i : Instance) : Prop := component_fine (in_component i) ∧ (quiet → component_quiet (in_component i)).
Definition cleanable (s : Runner) : Prop := Forall instance_fine (ru_instances s) ∧ own (out_runtime_errors (ru_result s)).
(** Before the run: no ok result, only fatal errors. *)
Record ready (s : Runner) : Prop := {
  rd_world : world_ok r0 false true committed (ru_world s);
  rd_ok : out_ok (ru_result s) = false;
  rd_fatal : Forall (λ e, err_fatal e = true) (out_runtime_errors (ru_result s));
  rd_clean : cleanable s }.
(** After it: the verdict is consistent. *)
Definition settled (s : Runner) : Prop := (out_ok (ru_result s) = true ↔ out_runtime_errors (ru_result s) = []) ∧ cleanable s.
Definition failing (s : Runner) : Prop := out_ok (ru_result s) = false ∧ out_runtime_errors (ru_result s) ≠ [] ∧ cleanable s.
Lemma failing_settled s : failing s → settled s.
Proof. intros (H1&H2&H3). split; [|done]. by rewrite H1. Qed.
(** What an exception leaves. *)
Definition thrown (what : string) (s : Runner) : Prop := cleanable s ∧ ¬ quiet.

(** ** Steps before the run *)
Abbreviation prepares := (goes_on ready thrown).
Lemma ready_world w s : ready s → world_ok r0 false true committed w → ready (s <| ru_world := w |>).
Proof. intros [] Hw. by split. Qed.
Lemma ready_note e s : ready s → ready (s <| ru_log ::= λ l, l ++ [e] |>).
Proof. intros []. by split. Qed.
Lemma ready_tick s : ready s → ready (s <| ru_world ::= tick_moment |>).
Proof. intros H. apply ready_world; [done|]. eapply world_ok_same; [apply H|done..]. Qed.
Lemma prepares_note e : prepares (note e).
Proof. apply goes_on_put. intros s. apply ready_note. Qed.
Lemma prepares_moment : prepares next_moment.
Proof. apply goes_on_bind; [|intros; apply goes_on_get]. apply goes_on_put, ready_tick. Qed.
Lemma prepares_trace name a : prepares (record_runner_trace_event name a).
Proof. apply goes_on_put. intros s H. apply ready_world; [done|]. apply world_ok_trace, H. Qed.
Lemma prepares_failed phase id lane message code f : code ≠ "observer_failure" → code ≠ "exception" →
  (∀ r, out_runtime_errors (f r) = out_runtime_errors r) → prepares (on_result (λ r, lifecycle_failed phase id lane message code (f r))).
Proof.
  intros H1 H2 Hf. apply goes_on_put. intros s [Hw Ho Hfa [Hi Hc]]. split; [done|done| |split; [done|]]; simpl; rewrite Hf;
    (apply Forall_app_2; [done|by constructor]).
Qed.
Lemma prepares_count f : (∀ r, out_ok (f r) = out_ok r) → (∀ r, out_runtime_errors (f r) = out_runtime_errors r) → prepares (on_result f).
Proof. intros H1 H2. apply goes_on_put. intros s [Hw Ho Hfa [Hi Hc]]. split; simpl; [done|by rewrite H1|by rewrite H2|split; simpl; [done|by rewrite H2]]. Qed.
(** Calls on a component that may throw unless everything is quiet. *)
Lemma prepares_call {A} e (code : nat → string + A) : (quiet → ∀ m, ∃ a, code m = inr a) → prepares (call_component e code).
Proof.
  intros Hq. apply goes_on_bind; [apply prepares_note|]. intros _. apply goes_on_bind; [apply prepares_moment|].
  intros m s Hs. destruct (code m) as [what|a] eqn:E; simpl; [|done]. split; [apply Hs|]. intros q. destruct (Hq q m) as [a Ha]. congruence.
Qed.
Lemma prepares_program e id code : (quiet → ∀ m, no_throw (code m)) → prepares (call_program env e id code).
Proof.
  intros Hq. apply goes_on_bind; [apply prepares_note|]. intros _. apply goes_on_bind; [apply prepares_moment|].
  intros m s Hs. unfold run_program.
  destruct (run_prog_ok r0 false true committed (env_clock env) (env_stop_token env) (lifecycle_context id) (code m) 0 (ru_world s)
    (rd_world s Hs)) as (w'&x&n&E&Hw').
  rewrite E. destruct x as [what|status]; [|by apply ready_world]. split; [apply Hs|]. intros q.
  by destruct (run_prog_quiet _ _ _ _ _ _ _ _ _ (Hq q m) E).
Qed.

(** *** Creation *)
Lemma create_ready type : (quiet → is_Some (factories registry !! type)) →
  sure ready (create_component registry type) (λ code s, ready s ∧ component_fine code ∧ (quiet → component_quiet code)) thrown.
Proof.
  intros Ht. unfold create_component, registry_create. destruct (factories registry !! type) as [f|] eqn:Ef.
  - eapply sure_bind; [apply prepares_moment|]. intros m. destruct (Hfine _ _ Ef m) as [Hn Hc].
    destruct (factory_create f m) as [what|[code|]] eqn:Ec; [|apply sure_ret; intros s Hs|done].
    + apply sure_raise. intros s Hs. split; [apply Hs|]. intros q. destruct (Hquiet q) as [Hf _]. destruct (Hf _ _ Ef m) as (c&Hc'&_). congruence.
    + split; [done|]. split; [by apply Hc|]. intros q. destruct (Hquiet q) as [Hf _]. destruct (Hf _ _ Ef m) as (c&Hc'&Hq). congruence.
  - apply sure_raise. intros s Hs. split; [apply Hs|]. intros q. by destruct (Ht q).
Qed.
Lemma ready_remember i s : ready s → instance_fine i → ready (s <| ru_instances ::= λ l, l ++ [i] |>).
Proof. intros [Hw Ho Hfa [Hi Hc]] H. split; [done..|split; [|done]]. apply Forall_app_2; [done|by constructor]. Qed.
Lemma prepares_remember i : instance_fine i → prepares (remember_instance i).
Proof. intros H. apply goes_on_put. intros s Hs. by apply ready_remember. Qed.
Lemma prepares_lifecycle_failed phase id lane message code : code ≠ "observer_failure" → code ≠ "exception" →
  prepares (on_result (lifecycle_failed phase id lane message code)).
Proof. intros H1 H2. by apply (prepares_failed phase id lane message code (λ r, r)). Qed.
Lemma start_component_ready spec : spec ∈ graph_components graph → prepares (start_component env registry spec).
Proof.
  intros Hin. unfold start_component. eapply sure_bind; [apply create_ready; intros q; destruct (Hquiet q) as (_&H&_); by apply H|].
  intros code s (Hs&Hc&Hq). revert s Hs.
  match goal with |- ∀ s, ready s → match ?m s with _ => _ end => change (prepares m) end.
  apply goes_on_bind; [apply prepares_program; intros q m; by apply Hq|]. intros configure.
  destruct (negb (status_ok configure)).
  { apply goes_on_bind; [by apply prepares_lifecycle_failed|]. intros _.
    apply goes_on_bind; [by apply prepares_remember|]. intros _. apply goes_on_ret. }
  apply goes_on_bind; [apply prepares_call; intros q m; by apply Hq|]. intros activate.
  destruct (negb (status_ok activate)).
  { apply goes_on_bind; [by apply prepares_lifecycle_failed|]. intros _.
    apply goes_on_bind; [by apply prepares_remember|]. intros _. apply goes_on_ret. }
  apply goes_on_bind; [by apply prepares_remember|]. intros _. apply goes_on_ret.
Qed.

(** *** Restore and reset *)
Lemma instance_for_id_fine id instances i : Forall instance_fine instances → instance_for_id id instances = Some i → instance_fine i.
Proof.
  intros H [Hin _]%find_some. rewrite Forall_forall in H. apply H. apply list_elem_of_In in Hin. by rewrite elem_of_reverse in Hin.
Qed.
Lemma started_target_fine id instances i spec : Forall instance_fine instances → started_target graph id instances = Some (i, spec) → instance_fine i.
Proof.
  intros H. unfold started_target. destruct (instance_for_id id instances) as [i'|] eqn:E; [|done].
  destruct (spec_for_id id graph); [|done]. destruct (in_started i'); [|done]. intros [= <- <-]. by eapply instance_for_id_fine.
Qed.
Lemma with_target id (body : option (Instance * ComponentNodeSpec) → R unit) :
  (∀ t, (∀ i spec, t = Some (i, spec) → instance_fine i) → prepares (body t)) →
  prepares (target ← get (λ s, started_target graph id (ru_instances s)); body target).
Proof.
  intros H s Hs. unfold get, mbind, R_bind. apply (H (started_target graph id (ru_instances s))); [|done].
  intros i spec E. eapply started_target_fine; [|exact E]. apply Hs.
Qed.
Lemma restore_ready x : prepares (restore_component graph x).
Proof.
  destruct x as [id state]. unfold restore_component. apply with_target. intros [[i spec]|] Ht; [|by apply prepares_failed].
  destruct (_ && _).
  { apply goes_on_bind; [by apply prepares_failed|]. intros _. apply prepares_trace. }
  apply goes_on_bind; [apply prepares_trace|]. intros _. destruct (Ht i spec eq_refl) as [_ Hq].
  apply goes_on_bind; [apply prepares_call; intros q m; by apply Hq|]. intros restore. destruct (negb (status_ok restore)).
  - apply goes_on_bind; [by apply prepares_failed|]. intros _. apply prepares_trace.
  - apply goes_on_bind; [by apply prepares_count|]. intros _. apply prepares_trace.
Qed.
Lemma reset_ready id : prepares (reset_component env graph id).
Proof.
  unfold reset_component. apply with_target. intros [[i spec]|] Ht; [|by apply prepares_failed].
  apply goes_on_bind; [apply prepares_trace|]. intros _. destruct (Ht i spec eq_refl) as [_ Hq].
  apply goes_on_bind; [apply prepares_program; intros q m; by apply Hq|]. intros reset. destruct (negb (status_ok reset)).
  - apply goes_on_bind; [by apply prepares_failed|]. intros _. apply prepares_trace.
  - apply goes_on_bind; [by apply prepares_count|]. intros _. apply prepares_trace.
Qed.

(** ** Steps after the run *)
Abbreviation settles := (goes_on settled thrown).
Lemma settled_verdict s s' : settled s → ru_instances s' = ru_instances s → verdict (ru_result s') = verdict (ru_result s) → settled s'.
Proof.
  intros [H1 [H2 H3]] Hi Hv. assert (out_ok (ru_result s') = out_ok (ru_result s)) as Ho by exact (f_equal vd_ok Hv).
  assert (out_runtime_errors (ru_result s') = out_runtime_errors (ru_result s)) as He by exact (f_equal vd_errors Hv).
  split; [by rewrite Ho, He|]. split; [by rewrite Hi|by rewrite He].
Qed.
Lemma settles_other f : (∀ s, ru_instances (f s) = ru_instances s ∧ verdict (ru_result (f s)) = verdict (ru_result s)) → settles (put_state f).
Proof. intros H. apply goes_on_put. intros s Hs. eapply settled_verdict; [exact Hs|apply H..]. Qed.
Lemma settles_trace name a : settles (record_runner_trace_event name a).
Proof. by apply settles_other. Qed.
(** An error that is not fatal makes the result fail. *)
Lemma own_app l e : own l → err_code e ≠ "observer_failure" → err_code e ≠ "exception" → own (l ++ [e]).
Proof. intros H H1 H2. apply Forall_app_2; [done|]. constructor; [by split|constructor]. Qed.
Lemma settled_error s phase id lane message code fatal f : settled s → code ≠ "observer_failure" → code ≠ "exception" →
  (∀ r, out_ok (f r) = false) → (∀ r, out_runtime_errors (f r) = out_runtime_errors r) →
  settled (s <| ru_result ::= λ r : RuntimeRunnerResult, report_error phase id lane message code fatal (f r) |>).
Proof.
  intros [H1 [H2 H3]] Hc1 Hc2 Hok He. split; [|split; [done|]]; simpl.
  - rewrite Hok, He. split; [done|]. intros H. by apply app_nil in H as [_ ?].
  - rewrite He. by apply own_app.
Qed.
Lemma settles_call {A} e (code : nat → string + A) : (quiet → ∀ m, ∃ a, code m = inr a) → settles (call_component e code).
Proof.
  intros Hq. apply goes_on_bind; [by apply settles_other|]. intros _. apply goes_on_bind.
  { apply goes_on_bind; [by apply settles_other|]. intros _. apply goes_on_get. }
  intros m s Hs. destruct (code m) as [what|a] eqn:E; simpl; [|done]. split; [apply Hs|]. intros q. destruct (Hq q m) as [a Ha]. congruence.
Qed.
Lemma snapshot_settles i : instance_fine i → settles (snapshot_component graph i).
Proof.
  intros [_ Hq]. unfold snapshot_component. destruct (negb (in_started i)); [apply goes_on_ret|].
  apply goes_on_bind; [apply settles_trace|]. intros _. apply goes_on_bind; [apply settles_call; intros q m; by apply Hq|].
  intros [message|state].
  - apply goes_on_bind; [|intros _; apply settles_trace]. apply goes_on_put. intros s Hs.
    by apply (settled_error s _ _ _ _ _ _ (λ r : RuntimeRunnerResult, r <| out_ok := false |> <| out_lifecycle_snapshot_failure_count ::= S |>)).
  - apply goes_on_bind; [|intros _; apply settles_trace]. by apply settles_other.
Qed.
(** Deactivation never throws. *)
Lemma deactivate_component_sure (J : Runner → Prop) settle i : deactivates (in_component i) →
  (∀ (s : Runner) w e, J s → J (s <| ru_world := w |> <| ru_log ::= λ l, l ++ [e] |> <| ru_result ::= λ r : RuntimeRunnerResult, r <| out_stopped_components ::= S |> |>)) →
  (∀ (s : Runner) message, J s → J (s <| ru_result ::= deactivate_failed settle (in_id i) message |>)) →
  sure J (deactivate_component settle i) (λ _, J) (λ _ _, False).
Proof.
  intros Hd H1 H2 s Hs. unfold deactivate_component. destruct (in_started i); simpl; [|done].
  unfold call_component, note, next_moment, put_state, get, mbind, R_bind. simpl.
  match goal with |- context [code_deactivate _ ?m] => destruct (Hd m) as [st Hst]; rewrite Hst end. simpl.
  pose proof (H1 s (tick_moment (ru_world s)) (EDeactivate (in_id i)) Hs) as H. destruct (status_ok st); [exact H|].
  by apply (H2 _ (status_message st)) in H.
Qed.
Lemma deactivate_settled : sure settled (deactivate_started true) (λ _, settled) (λ _ _, False).
Proof.
  intros s Hs. unfold deactivate_started, get, mbind, R_bind. cbv beta iota.
  assert (Forall instance_fine (reverse (ru_instances s))) as Hf by (rewrite Forall_reverse; apply Hs).
  revert s Hs Hf. intros s Hs. generalize (reverse (ru_instances s)) as l. intros l Hl. revert s Hs.
  change (goes_on settled (λ _ _, False) (for_every (deactivate_component true) l)). apply goes_on_every. intros i Hi.
  rewrite Forall_forall in Hl. apply deactivate_component_sure; [apply (Hl i Hi)|..].
  - intros s w e Hs. by destruct Hs.
  - intros s message Hs. by apply (settled_error s _ _ _ _ _ _ (λ r : RuntimeRunnerResult, r <| out_ok := false |>)).
Qed.
Lemma deactivate_failing : sure failing (deactivate_started false) (λ _, failing) (λ _ _, False).
Proof.
  intros s Hs. unfold deactivate_started, get, mbind, R_bind. cbv beta iota.
  assert (Forall instance_fine (reverse (ru_instances s))) as Hf by (rewrite Forall_reverse; apply Hs).
  revert s Hs Hf. intros s Hs. generalize (reverse (ru_instances s)) as l. intros l Hl. revert s Hs.
  change (goes_on failing (λ _ _, False) (for_every (deactivate_component false) l)). apply goes_on_every. intros i Hi.
  rewrite Forall_forall in Hl. apply deactivate_component_sure; [apply (Hl i Hi)|..].
  - intros s w e (?&?&?). by split.
  - intros s message (H1&H2&H3&H4). split; [done|]. split; [simpl; by destruct (out_runtime_errors (ru_result s))|]. split; [done|]. by apply own_app.
Qed.
Lemma settled_collecting f s : (∀ w r, verdict (f w r) = verdict r) → settled s → settled (s <| ru_result ::= f (ru_world s) |>).
Proof. intros H Hs. eapply settled_verdict; [exact Hs|done|apply H]. Qed.

(** ** The run *)
Definition inputs_distinct : Prop :=
  ∀ c, c ∈ graph_components graph → message_driven c → NoDup (trigger_policy_inputs_for c).
Context (Hinputs : inputs_distinct) (Hclock : ∀ deadline, ∃ n, ∀ m, n <= m → (deadline <= env_clock env m 0 0)%Z).
Definition prepared (instances : list Instance) (s : Runner) : Prop :=
  ready s ∧ out_runtime_errors (ru_result s) = [] ∧ instances = ru_instances s.
Lemma add_components_ready instances specs : Forall instance_fine instances → (∀ c, c ∈ specs → c ∈ graph_components graph) →
  sure (prepared instances) (add_components graph instances specs)
    (λ components s, prepared instances s ∧ Forall EventRuntimeFacts.component_ok components ∧ Forall EventRuntimeFacts.hooks_ok components) thrown.
Proof.
  intros Hi. induction specs as [|spec specs IH]; intros Hsub; [by apply sure_ret|]. cbn [add_components].
  assert (∀ c, c ∈ specs → c ∈ graph_components graph) as Hrest by (intros c Hc; apply Hsub; by right).
  assert (spec ∈ graph_components graph) as Hspec by (apply Hsub; left).
  destruct (instance_for_id (comp_id spec) instances) as [i|] eqn:Ei; [|by apply IH].
  destruct (lane_configs graph !! exec_lane (execution spec)) as [lane|] eqn:El.
  - eapply sure_bind; [by apply IH|]. intros others. apply sure_ret. intros s (Hs&Ho&Hk). split; [done|]. split; constructor; [split; [by eexists|by apply Hinputs]|done| |done]. intros code [= <-].
    destruct (instance_for_id_fine _ _ _ Hi Ei) as [[_ Hc] _]. apply Hc.
  - apply sure_raise. intros s (Hr&_). split; [apply Hr|]. intros q. destruct (Hquiet q) as (_&_&Hl).
    destruct (Hl spec Hspec) as [lane Hlane]. congruence.
Qed.
Lemma copy_run_settled x s : cleanable s → out_runtime_errors (ru_result s) = [] → (res_ok x = true ↔ res_errors x = []) →
  settled (s <| ru_result ::= copy_run_result x |>).
Proof.
  intros Hs He Hx. pose proof (verdict_copy_run x (ru_result s)) as V.
  assert (out_ok (copy_run_result x (ru_result s)) = res_ok x) as V1 by exact (f_equal vd_ok V).
  assert (out_runtime_errors (copy_run_result x (ru_result s)) = runtime_error_of <$> res_errors x) as V2.
  { change (vd_errors (verdict (copy_run_result x (ru_result s))) = runtime_error_of <$> res_errors x). rewrite V. simpl. by rewrite He. }
  split; [|split; [apply Hs|]].
  - change (out_ok (copy_run_result x (ru_result s)) = true ↔ out_runtime_errors (copy_run_result x (ru_result s)) = []). rewrite V1, V2, Hx. by destruct (res_errors x).
  - change (own (out_runtime_errors (copy_run_result x (ru_result s)))). rewrite V2.
    apply Forall_fmap, Forall_forall. intros error _. unfold own_error, runtime_error_of, make_runtime_error. simpl.
    destruct (str_empty _); by split.
Qed.
Definition after_run (instances : list Instance) : R unit :=
  do (if opt_capture_component_state_snapshots options then for_every (snapshot_component graph) instances else mret tt);
  do deactivate_started true;
  collecting (collect env graph options).
Lemma after_run_settled instances : Forall instance_fine instances → sure settled (after_run instances) (λ _, settled) thrown.
Proof.
  intros Hi. unfold after_run. eapply sure_bind.
  { instantiate (1 := λ _, settled). destruct (opt_capture_component_state_snapshots options); [|by apply sure_ret].
    apply goes_on_every. intros i Hin. apply snapshot_settles. rewrite Forall_forall in Hi. by apply Hi. }
  intros []. eapply sure_bind; [eapply sure_conseq; [apply deactivate_settled|done|intros u t H; exact H|done]|].
  intros []. apply sure_put. intros s Hs. apply settled_collecting; [|done]. apply verdict_collect.
Qed.
(** With enough fuel, the computation ends as [Q] and [E] say. *)
Definition ends_in {A} (m : nat → option (Runner * (string + A))) (Q : A → Runner → Prop) (E : string → Runner → Prop) : Prop :=
  ∃ n x, (∀ fuel, n <= fuel → m fuel = Some x) ∧ match x with (s, inr a) => Q a s | (s, inl what) => E what s end.
Lemma ends_sure {A} P (m : R A) Q E s : sure P m Q E → P s → ends_in (λ _, m s) Q E.
Proof. intros H Hs. specialize (H s Hs). destruct (m s) as [x|] eqn:Em; [|done]. exists 0, x. by destruct x as [s' [what|a]]. Qed.
Lemma ends_bind {A B} (m : R A) (f : nat → A → R B) s P Q Q' E : sure P m Q E → P s → (∀ a s, Q a s → ends_in (λ fuel, f fuel a s) Q' E) →
  ends_in (λ fuel, (m ≫= f fuel) s) Q' E.
Proof.
  intros H Hs Hf. specialize (H s Hs). unfold mbind, R_bind. destruct (m s) as [[s' [what|a]]|]; [|by apply Hf|done].
  by exists 0, (s', inl what).
Qed.
Lemma run_event_runtime_ends components s : ready s → Forall EventRuntimeFacts.component_ok components → Forall EventRuntimeFacts.hooks_ok components →
  ∃ n w x, (∀ fuel, n <= fuel → run_event_runtime env fuel graph options components s =
      Some (s <| ru_world := w |> <| ru_log ::= λ l, l ++ [ERun] |>, inr x)) ∧ (res_ok x = true ↔ res_errors x = []).
Proof.
  intros Hs Hc Hk. destruct (rd_world s Hs) as [Hh Hr _].
  destruct (run_ok (env_clock env) (env_stop_token env) (env_stop_token env) (env_pick env) (env_hz_period env) (env_show_double env)
    (env_show_threshold env) (env_show_ms env) (scheduler_options graph options) components (gv_plan (out_validation (ru_result s)))
    r0 true Hc Hk Hclock (ru_world s) Hh Hr) as (n&w&x&E&[He _ _ _ _ _]&_).
  exists n, w, x. split; [|done]. intros fuel' Hf. unfold run_event_runtime, note, put_state, mbind, R_bind, execute_runtime. simpl.
  by rewrite E.
Qed.
Lemma run_started_ends s : ready s → out_runtime_errors (ru_result s) = [] →
  ends_in (λ fuel, run_started env fuel graph options s) (λ _, settled) thrown.
Proof.
  intros Hs He. unfold run_started.
  change (ends_in (λ fuel, (runtime_components graph (ru_instances s) ≫= λ components,
    result ← run_event_runtime env fuel graph options components; do on_result (copy_run_result result); after_run (ru_instances s)) s)
    (λ _, settled) thrown).
  assert (Forall instance_fine (ru_instances s)) as Hi by apply Hs.
  eapply (ends_bind _ _ _ (prepared (ru_instances s))); [by apply add_components_ready|done|].
  intros components s1 [(Hs1&He1&Hi1) [Hc Hk]]. destruct (run_event_runtime_ends components s1 Hs1 Hc Hk) as (n&w&x&E&Hx).
  set (s2 := s1 <| ru_world := w |> <| ru_log ::= λ l, l ++ [ERun] |>) in *.
  assert (settled (s2 <| ru_result ::= copy_run_result x |>)) as H3.
  { apply copy_run_settled; [exact (rd_clean _ Hs1)|exact He1|exact Hx]. }
  pose proof (after_run_settled (ru_instances s) Hi _ H3) as H4.
  destruct (after_run (ru_instances s) (s2 <| ru_result ::= copy_run_result x |>)) as [y|] eqn:Ey; [|done].
  exists n, y. split; [|by destruct y as [s' [what|a]]]. intros fuel' Hf. unfold mbind at 1, R_bind at 1. rewrite E by done. exact Ey.
Qed.
Lemma fatal_or_not s : ready s → (has_fatal_runtime_error (ru_result s) = true ∧ failing s) ∨
  (has_fatal_runtime_error (ru_result s) = false ∧ out_runtime_errors (ru_result s) = []).
Proof.
  intros [Hw Ho Hf Hc]. unfold has_fatal_runtime_error. destruct (out_runtime_errors (ru_result s)) as [|e l] eqn:El; [by right|].
  left. apply Forall_cons in Hf as [Hf1 _]. cbn [existsb]. rewrite Hf1. split; [done|]. split; [done|]. by rewrite El.
Qed.
(** The choice after a phase. *)
Lemma ends_unless_failed s (m1 : R unit) (m2 : nat → R unit) : ready s → (failing s → ends_in (λ _, m1 s) (λ _, settled) thrown) →
  (out_runtime_errors (ru_result s) = [] → ends_in (λ fuel, m2 fuel s) (λ _, settled) thrown) →
  ends_in (λ fuel, (failed ← failed_fatally; if (failed : bool) then m1 else m2 fuel) s) (λ _, settled) thrown.
Proof.
  intros Hs H1 H2. unfold failed_fatally, get, mbind, R_bind. destruct (fatal_or_not s Hs) as [[-> Hf]|[-> He]]; auto.
Qed.
Lemma early_ends s f : (∀ w r, verdict (f w r) = verdict r) → failing s →
  ends_in (λ _, (do deactivate_started false; collecting f) s) (λ _, settled) thrown.
Proof.
  intros Hf Hs. eapply (ends_sure failing); [|done].
  eapply sure_bind; [eapply sure_conseq; [apply deactivate_failing|done|intros u t H; exact H|done]|].
  intros []. apply sure_put. intros t Ht. apply settled_collecting; [done|]. by apply failing_settled.
Qed.
Lemma run_lifecycle_ends s : ready s → ends_in (λ fuel, run_lifecycle env registry fuel graph options s) (λ _, settled) thrown.
Proof.
  intros Hs. unfold run_lifecycle.
  eapply (ends_bind _ (λ fuel _, _ ≫= λ _, _) _ ready (λ _, ready)); [|done|].
  { apply goes_on_while. intros spec Hin. by apply start_component_ready. }
  intros [] s1 H1. eapply (ends_bind count_instances _ _ ready (λ _, ready)); [|done|].
  { apply goes_on_put. intros t [Hw Ho Hf Hc]. by split. }
  intros [] s2 H2. apply ends_unless_failed; [done|..].
  { intros Hf. eapply (ends_sure failing); [|done]. eapply sure_conseq; [apply deactivate_failing|done|intros u t; apply failing_settled|done]. }
  intros _. eapply (ends_bind (for_every (restore_component graph) _) _ _ ready (λ _, ready)); [|done|].
  { apply goes_on_every. intros x _. apply restore_ready. }
  intros [] s3 H3. eapply (ends_bind (for_every (reset_component env graph) _) _ _ ready (λ _, ready)); [|done|].
  { apply goes_on_every. intros x _. apply reset_ready. }
  intros [] s4 H4. apply ends_unless_failed; [done|..].
  { intros Hf. apply early_ends; [|done]. apply verdict_collect_early. }
  intros He. by apply run_started_ends.
Qed.
Lemma run_components_ends r : out_ok r = false → out_runtime_errors r = [] →
  world_ok r0 false true committed (initial_world graph) →
  ∃ n r' log, (∀ fuel, n <= fuel → run_components env registry fuel graph options r = Some (r', log)) ∧
    (out_ok r' = true ↔ out_runtime_errors r' = []) ∧ own (out_runtime_errors r').
Proof.
  intros Hok He Hw. set (s0 := mkRunner (initial_world graph) r [] []).
  assert (ready s0) as H0 by (split; [done|done|simpl; by rewrite He|split; [done|simpl; by rewrite He]]).
  destruct (run_lifecycle_ends s0 H0) as (n&[s [what|[]]]&E&H).
  - destruct H as [Hc Hq].
    assert (failing (s <| ru_result ::= λ r, report_error "runtime" "" "" what "exception" true (r <| out_ok := false |>) |>)) as Hf.
    { destruct Hc as [Hi Ho]. split; [done|]. split; [simpl; by destruct (out_runtime_errors (ru_result s))|]. split; [done|].
      apply Forall_app_2; [done|]. constructor; [|constructor]. by split. }
    pose proof (deactivate_failing _ Hf) as Hd.
    destruct (deactivate_started false _) as [[s1 [w|[]]]|] eqn:Ed; [done| |done].
    exists n, (ru_result s1), (ru_log s1). split.
    + intros fuel' Hfu. unfold run_components, catching. fold s0. rewrite E by done. cbn [mbind]. 
      unfold handle_exception, on_result, put_state, mbind, R_bind. by rewrite Ed.
    + apply failing_settled in Hd as [H1 [H2 H3]]. by split.
  - exists n, (ru_result s), (ru_log s). split; [|by destruct H as [H1 [H2 H3]]].
    intros fuel' Hfu. unfold run_components, catching. fold s0. by rewrite E.
Qed.
End facts.
