(* ===== verification/ComponentBase.v ===== *)
(** * ComponentBase: the status methods of the component base class

    Models the methods of [Component] in [src/component.cpp].  A component class overrides methods that return or throw
    ([configure], [activate], [execute], ...); the base class wraps each of them in a status method that turns an exception
    into an error, and the runtime calls the status methods only.  [component_of_class] is the component that the runner
    sees; the lemmas show that it satisfies everything the runner asks of components, whatever the class does. *)

From S2P Require Export RunnerFacts.
Local Open Scope nat_scope.

(** ** Guards *)
(** A method without a result: [None] when it returns, the text of the exception when it throws. *)
Definition Method : Type := nat → option string.
Definition guarded (outcome : option string) : Status :=
  match outcome with None => status_success | Some what => status_error what end.
(** The same for a method that uses its context; the status it ends with is not looked at. *)
Fixpoint guarded_program (p : Prog) : Prog :=
  match p with
  | Returns _ => Returns status_success
  | Throws what => Returns (status_error what)
  | Call call k => Call call (fun answer => guarded_program (k answer))
  end.

(** ** Classes *)
(** What a class overrides.  [configure] is pure virtual; [None] where the method of the base class is kept. *)
Record ComponentClass := mkClass {
  cls_configure : nat → ConfigView → Prog; cls_activate : option Method; cls_deactivate : option Method;
  cls_execute : option (nat → Invocation → option LoopIterationContext → Prog); cls_reset : option (nat → Prog);
  cls_pause : option Method; cls_resume : option Method;
  cls_snapshot_state : option (nat → string + (string + ComponentStateSnapshot));
  cls_restore_state : option (nat → ComponentStateSnapshot → string + Status);
  cls_validate_config : option (nat → ConfigView → string + Status); cls_apply_config : option (nat → ConfigView → Prog) }.
Definition empty_method : Method := fun _ => None.
Definition configure_status (c : ComponentClass) (moment : nat) (config : ConfigView) : Prog := guarded_program (cls_configure c moment config).
Definition activate_status (c : ComponentClass) (moment : nat) : Status := guarded (default empty_method (cls_activate c) moment).
Definition deactivate_status (c : ComponentClass) (moment : nat) : Status := guarded (default empty_method (cls_deactivate c) moment).
Definition pause_status (c : ComponentClass) (moment : nat) : Status := guarded (default empty_method (cls_pause c) moment).
Definition resume_status (c : ComponentClass) (moment : nat) : Status := guarded (default empty_method (cls_resume c) moment).
Definition base_reset (moment : nat) : Prog := Returns status_success.
Definition reset_status (c : ComponentClass) (moment : nat) : Prog := guarded_program (default base_reset (cls_reset c) moment).
Definition base_execute (moment : nat) (i : Invocation) (loop : option LoopIterationContext) : Prog :=
  Throws "component does not implement execute".
Definition execute_status (c : ComponentClass) (moment : nat) (i : Invocation) (loop : option LoopIterationContext) : Prog :=
  guarded_program (default base_execute (cls_execute c) moment i loop).
Definition base_snapshot_state (moment : nat) : string + (string + ComponentStateSnapshot) := inr (inr (mkStateOf "" "" None 0)).
(** A state without content is accepted by every component. *)
Definition base_restore_state (moment : nat) (state : ComponentStateSnapshot) : string + Status :=
  inr (match so_payload state with
       | None => if str_empty (so_version state) then status_success else status_error "component does not implement restore_state"
       | Some _ => status_error "component does not implement restore_state"
       end).
Definition base_validate_config (moment : nat) (config : ConfigView) : string + Status := inr status_success.
Definition apply_config (c : ComponentClass) : nat → ConfigView → Prog := default (configure_status c) (cls_apply_config c).
Definition component_of_class (c : ComponentClass) : RunnerComponent :=
  mkRunnerComponent (mkCode (execute_status c) (default base_validate_config (cls_validate_config c)) (apply_config c))
    (configure_status c) (fun moment => inr (activate_status c moment)) (reset_status c)
    (default base_restore_state (cls_restore_state c)) (default base_snapshot_state (cls_snapshot_state c))
    (fun moment => inr (deactivate_status c moment)).

(** ** What the guards give *)
Lemma guarded_no_throw p : no_throw (guarded_program p).
Proof. induction p as [status|what|call k IH]; simpl; [done|done|]. intros answer. apply IH. Qed.
(** The overrides of the methods without a guard return. *)
Definition overrides_return (c : ComponentClass) : Prop :=
  (∀ code, cls_snapshot_state c = Some code → ∀ moment, ∃ answer, code moment = inr answer) ∧
  (∀ code, cls_restore_state c = Some code → ∀ moment state, ∃ status, code moment state = inr status) ∧
  (∀ code, cls_validate_config c = Some code → ∀ moment config, ∃ status, code moment config = inr status) ∧
  (∀ code, cls_apply_config c = Some code → ∀ moment config, no_throw (code moment config)).
Lemma class_quiet c : overrides_return c → component_quiet (component_of_class c).
Proof.
  intros (H1&H2&_&H3). split; simpl.
  - intros moment config. apply guarded_no_throw.
  - intros moment. by eexists.
  - intros moment. apply guarded_no_throw.
  - intros moment state. destruct (cls_restore_state c) eqn:E; [by apply H2|by eexists].
  - intros moment. destruct (cls_snapshot_state c) eqn:E; [by apply H1|by eexists].
Qed.
Lemma class_fine c : overrides_return c → component_fine (component_of_class c).
Proof.
  intros (_&_&Hv&H3). split; [intros moment; by eexists|]. split; intros moment config; simpl.
  { destruct (cls_validate_config c) eqn:E; [by apply Hv|by eexists]. }
  unfold apply_config.
  destruct (cls_apply_config c) eqn:E; [by apply H3|apply guarded_no_throw].
Qed.
(** Guards keep the calls of a program. *)
Lemma run_guarded clock cancelled context p n w : run_prog clock cancelled context (guarded_program p) n w =
  match run_prog clock cancelled context p n w with
  | None => None
  | Some (w', outcome, k) => Some (w', inr (match outcome with inl what => status_error what | inr _ => status_success end), k)
  end.
Proof.
  revert n w. induction p as [status|what|call f IH]; intros n w; simpl; [done..|].
  destruct (perform _ _ _ _ _) as [[w' answer]|]; [|done]. apply IH.
Qed.
(** Factories of classes. *)
Definition class_factory (descriptor : string + ComponentDescriptor) (c : nat → ComponentClass) : ComponentFactory :=
  mkFactory descriptor (fun moment => inr (Some (component_of_class (c moment)))).
Definition made_of_classes (registry : ComponentRegistry ComponentFactory) : Prop :=
  factories_are (λ f, ∃ descriptor c, f = class_factory descriptor c ∧ ∀ moment, overrides_return (c moment)) registry.
Lemma classes_fine registry : made_of_classes registry → factories_are factory_fine registry.
Proof.
  intros H type f Hf. destruct (H type f Hf) as (d&c&->&Hc). intros moment. split; [done|]. intros code [= <-]. by apply class_fine.
Qed.
Lemma classes_quiet registry : made_of_classes registry → factories_are factory_quiet registry.
Proof.
  intros H type f Hf. destruct (H type f Hf) as (d&c&->&Hc). intros moment. eexists. split; [done|]. by apply class_quiet.
Qed.
