(* ===== verification/RunnerRun.v ===== *)
(** * RunnerRun: a whole call of the runner

    What observers are told: everything the result holds, in order; they cannot change the result except through the counts
    of failures and losses, and the in-memory observer keeps the newest records of each kind and counts the others.  Then the
    call from the validation to the observers: what the validated graph gives to the lifecycle, and what the result says. *)

From S2P Require Export RunnerLogic RunnerFacts RunProperties.
Local Open Scope nat_scope.

(** ** The in-memory observer *)
(** The newest [capacity] records. *)
Definition newest {A} (capacity : nat) (l : list A) : list A := drop (length l - capacity) l.
Lemma newest_length {A} capacity (l : list A) : length (newest capacity l) = Nat.min capacity (length l).
Proof. unfold newest. rewrite length_drop. lia. Qed.
Lemma tail_drop {A} k (l : list A) : tail (drop k l) = drop (S k) l.
Proof. revert l. induction k as [|k IH]; intros [|x l]; [done..|]. apply IH. Qed.
Lemma push_newest {A} capacity (l : list A) x :
  RunnerResult.push_bounded capacity true (newest capacity l) x = (newest capacity (l ++ [x]), length (l ++ [x]) - capacity - (length l - capacity)).
Proof.
  unfold RunnerResult.push_bounded. rewrite newest_length, length_app. simpl. destruct (Nat.eqb_spec capacity 0) as [->|Hc].
  - unfold newest. rewrite !Nat.sub_0_r, length_app. simpl. rewrite !drop_ge by (rewrite ?length_app; simpl; lia). f_equal. lia.
  - unfold newest. rewrite length_app. simpl. destruct (Nat.leb_spec capacity (Nat.min capacity (length l))).
    + replace (length l + 1 - capacity) with (S (length l - capacity)) by lia. rewrite drop_app_le by lia.
      f_equal; [|lia]. f_equal. apply tail_drop.
    + replace (length l + 1 - capacity) with 0 by lia. replace (length l - capacity) with 0 by lia. f_equal.
Qed.
(** The state of the observer after these calls, when nobody else holds its mutex. *)
Definition metrics_of (calls : list ObserverCall) := omap (λ c, match c with OnMetric x => Some x | _ => None end) calls.
Definition traces_of (calls : list ObserverCall) := omap (λ c, match c with OnTraceEvent x => Some x | _ => None end) calls.
Definition healths_of (calls : list ObserverCall) := omap (λ c, match c with OnHealthEvent x => Some x | _ => None end) calls.
Definition errors_of (calls : list ObserverCall) := omap (λ c, match c with OnRuntimeError x => Some x | _ => None end) calls.
Definition results_of (calls : list ObserverCall) := omap (λ c, match c with OnResult x => Some x | _ => None end) calls.
Definition excess {A} (capacity : nat) (l : list A) : nat := length l - capacity.
Definition observed (capacity : nat) (calls : list ObserverCall) : InMemoryRuntimeObserver :=
  mkInMemory capacity (newest capacity (results_of calls)) (newest capacity (metrics_of calls)) (newest capacity (traces_of calls))
    (newest capacity (healths_of calls)) (newest capacity (errors_of calls))
    (excess capacity (results_of calls) + excess capacity (metrics_of calls) + excess capacity (traces_of calls) +
     excess capacity (healths_of calls) + excess capacity (errors_of calls)).
Lemma excess_app {A} capacity (l : list A) x : excess capacity (l ++ [x]) = excess capacity l + (length (l ++ [x]) - capacity - (length l - capacity)).
Proof. unfold excess. rewrite length_app. simpl. lia. Qed.
Lemma store_observed capacity calls call : store_call true call (observed capacity calls) = observed capacity (calls ++ [call]).
Proof.
  unfold store_call, observed, metrics_of, traces_of, healths_of, errors_of, results_of. rewrite !omap_app.
  destruct call; cbn [mem_capacity mem_metrics mem_trace_events mem_health_events mem_runtime_errors mem_results];
    rewrite push_newest; simpl; rewrite ?app_nil_r, excess_app; f_equal; lia.
Qed.
(** The observer after [n] calls. *)
Definition in_memory_at (lock : nat → bool) (n : nat) (o : InMemoryRuntimeObserver) : Observer :=
  mkObserver (nat * InMemoryRuntimeObserver) (λ call s, Some ((S s.1, store_call (lock s.1) call s.2), status_success))
    (λ s, in_memory_status s.2) (n, o).
Lemma deliver_at lock calls n o d : ∃ o', deliver calls (in_memory_at lock n o) d = Some (in_memory_at lock (n + length calls) o', d) ∧
  ∀ (P : list ObserverCall → InMemoryRuntimeObserver → Prop) told, P told o →
    (∀ told k call o, k < length calls → P told o → P (told ++ [call]) (store_call (lock (n + k)) call o)) → P (told ++ calls) o'.
Proof.
  revert n o. induction calls as [|call calls IH]; intros n o; cbn [deliver length].
  - exists o. rewrite Nat.add_0_r. split; [done|]. intros P told HP _. by rewrite app_nil_r.
  - destruct (IH (S n) (store_call (lock n) call o)) as (o'&E&H). exists o'. split.
    + change (call_observer call (in_memory_at lock n o)) with (Some (in_memory_at lock (S n) (store_call (lock n) call o), status_success)).
      cbv iota beta. change (record_delivery status_success (callback_name call) d) with d. rewrite E. by rewrite <- Nat.add_succ_comm.
    + intros P told HP Hstep. rewrite (cons_middle call), (app_assoc told). apply H.
      * rewrite <- (Nat.add_0_r n) at 1. apply Hstep; [lia|done].
      * intros told' k call' o1 Hk. rewrite Nat.add_succ_comm. apply Hstep. lia.
Qed.
(** Everything is kept or counted, whoever else holds the mutex. *)
Definition kept_records (o : InMemoryRuntimeObserver) : nat :=
  length (mem_results o) + length (mem_metrics o) + length (mem_trace_events o) + length (mem_health_events o) + length (mem_runtime_errors o).
Definition within_capacity (o : InMemoryRuntimeObserver) : Prop :=
  length (mem_results o) <= mem_capacity o ∧ length (mem_metrics o) <= mem_capacity o ∧ length (mem_trace_events o) <= mem_capacity o ∧
  length (mem_health_events o) <= mem_capacity o ∧ length (mem_runtime_errors o) <= mem_capacity o.
Lemma push_accounted {A} capacity locked (l : list A) x l' n : RunnerResult.push_bounded capacity locked l x = (l', n) → length l <= capacity →
  length l' + n = length l + 1 ∧ length l' <= capacity.
Proof.
  unfold RunnerResult.push_bounded. destruct (Nat.eqb_spec capacity 0); [by intros [= <- <-]|]. destruct locked; simpl; [|by intros [= <- <-]].
  destruct (Nat.leb_spec capacity (length l)); intros [= <- <-]; rewrite ?length_app; simpl; [|lia].
  destruct l; simpl in *; lia.
Qed.
Lemma store_accounted locked call o : within_capacity o → let o' := store_call locked call o in
  mem_capacity o' = mem_capacity o ∧ within_capacity o' ∧ mem_dropped_event_count o' + kept_records o' = S (mem_dropped_event_count o + kept_records o).
Proof.
  intros (H1&H2&H3&H4&H5). unfold store_call, within_capacity, kept_records.
  destruct call; destruct (RunnerResult.push_bounded _ _ _ _) as [l n] eqn:E; apply push_accounted in E as [E1 E2]; try done;
    cbv zeta; cbn; (split; [done|]); (split; [by repeat split|lia]).
Qed.
Lemma omap_fmap_all {A B} (f : A → B) (g : B → option A) (l : list A) : (∀ x, g (f x) = Some x) → omap g (f <$> l) = l.
Proof. intros H. induction l as [|x l IH]; [done|]. simpl. rewrite H. by f_equal. Qed.
Lemma omap_fmap_none {A B C} (f : A → B) (g : B → option C) (l : list A) : (∀ x, g (f x) = None) → omap g (f <$> l) = [].
Proof. intros H. induction l as [|x l IH]; [done|]. simpl. by rewrite H. Qed.
Lemma observations_sorted r : let calls := observations r in
  metrics_of calls = out_runtime_metrics r ∧ traces_of calls = out_trace r ∧ healths_of calls = out_health_events r ∧
  errors_of calls = out_runtime_errors r ∧ results_of calls = [r].
Proof.
  unfold observations, metrics_of, traces_of, healths_of, errors_of, results_of. cbv zeta.
  repeat split; rewrite !omap_app; simpl;
    repeat first [rewrite omap_fmap_all by done | rewrite omap_fmap_none by done]; rewrite ?app_nil_r; done.
Qed.

(** ** All observers *)
(** Callbacks that return. *)
Definition observer_fine (o : option Observer) : Prop :=
  match o with Some o => ∀ call state, is_Some (observer_call o call state) | None => True end.
Lemma deliver_returns calls o d : (∀ call state, is_Some (observer_call o call state)) → is_Some (deliver calls o d).
Proof.
  revert o d. induction calls as [|call calls IH]; intros o d Ho; cbn [deliver]; [by eexists|].
  unfold call_observer. destruct (Ho call (observer_current o)) as [[st status] ->]. by apply IH.
Qed.
Lemma tell_observers_returns observers d r : Forall observer_fine observers → ∃ os d' r', tell_observers observers d r = Some (os, d', r') ∧
  out_ok r' = out_ok r ∧ out_runtime_errors r' = out_runtime_errors r ∧ out_validation r' = out_validation r.
Proof.
  intros H. revert d r. induction H as [|[o|] observers Ho _ IH]; intros d r; cbn [tell_observers]; [by eexists _, _, _|..].
  - destruct (deliver_returns (observations r) o d Ho) as [[o1 d1] ->]. cbv zeta.
    match goal with |- context [tell_observers observers d1 ?r1] => destruct (IH d1 r1) as (os&d2&r2&->&H1&H2&H3) end.
    by eexists _, _, _.
  - destruct (IH d r) as (os&d2&r2&->&H1&H2&H3). by eexists _, _, _.
Qed.
Lemma if_set_errors name n r : out_runtime_errors (append_if_set name n r) = out_runtime_errors r ∧ out_ok (append_if_set name n r) = out_ok r ∧
  out_validation (append_if_set name n r) = out_validation r.
Proof. unfold append_if_set. by destruct (n =? 0)%Z. Qed.
Lemma notify_returns observers r : Forall observer_fine observers → ∃ os r' extra, notify_runtime_observers observers r = Some (os, r') ∧
  out_ok r' = out_ok r ∧ out_validation r' = out_validation r ∧ out_runtime_errors r' = out_runtime_errors r ++ extra ∧
  Forall (λ e, err_code e = "observer_failure") extra.
Proof.
  intros H. unfold notify_runtime_observers. destruct observers as [|o l].
  { exists [], r, []. rewrite app_nil_r. repeat (split; [done|]). constructor. }
  destruct (tell_observers_returns (o :: l) (mkDelivery 0 "") r H) as (os&d&r1&->&H1&H2&H3). cbv zeta. clear H.
  set (r2 := r1 <| out_observer_failure_count ::= λ n, n + callback_failure_count d |>).
  assert (out_ok r2 = out_ok r ∧ out_runtime_errors r2 = out_runtime_errors r ∧ out_validation r2 = out_validation r) as (E1&E2&E3) by done.
  clearbody r2. destruct (callback_failure_count d =? 0); cbv iota.
  - eexists _, _, []. split; [reflexivity|]. rewrite app_nil_r.
    change (out_ok (count_metric_samples ?x)) with (out_ok x). change (out_validation (count_metric_samples ?x)) with (out_validation x).
    change (out_runtime_errors (count_metric_samples ?x)) with (out_runtime_errors x).
    split_and!; [..|constructor]; do 2 (rewrite (proj1 (if_set_errors _ _ _)) || rewrite (proj1 (proj2 (if_set_errors _ _ _))) ||
      rewrite (proj2 (proj2 (if_set_errors _ _ _)))); done.
  - set (r3 := append_runtime_error _ r2). assert (out_ok r3 = out_ok r2 ∧ out_validation r3 = out_validation r2) as (F1&F2) by done.
    eexists _, _, [_]. split; [reflexivity|].
    change (out_ok (count_metric_samples ?x)) with (out_ok x). change (out_validation (count_metric_samples ?x)) with (out_validation x).
    change (out_runtime_errors (count_metric_samples ?x)) with (out_runtime_errors x).
    split_and!; [do 2 rewrite (proj1 (proj2 (if_set_errors _ _ _)))|do 2 rewrite (proj2 (proj2 (if_set_errors _ _ _)))|
      do 2 rewrite (proj1 (if_set_errors _ _ _)); unfold r3; simpl; rewrite E2; reflexivity|by constructor]; congruence.
Qed.

(** ** One in-memory observer *)
Lemma observations_length r : length (observations r) =
  length (out_runtime_metrics r) + length (out_trace r) + length (out_health_events r) + length (out_runtime_errors r) + 1.
Proof. unfold observations. rewrite !length_app, !length_fmap. simpl. lia. Qed.
Lemma in_memory_told lock capacity r d : ∃ o,
  deliver (observations r) (in_memory_observer lock (InMemoryRuntimeObserver_new capacity)) d =
    Some (in_memory_at lock (length (observations r)) o, d) ∧
  mem_capacity o = capacity ∧ within_capacity o ∧ mem_dropped_event_count o + kept_records o = length (observations r) ∧
  ((∀ k, lock k = true) → o = observed capacity (observations r)).
Proof.
  destruct (deliver_at lock (observations r) 0 (InMemoryRuntimeObserver_new capacity) d) as (o&E&H). exists o. split; [exact E|].
  destruct (H (λ told o, mem_capacity o = capacity ∧ within_capacity o ∧ mem_dropped_event_count o + kept_records o = length told) [])
    as (H1&H2&H3).
  { split; [done|]. split; [|done]. unfold within_capacity. simpl. lia. }
  { intros told k call o1 _ (E1&E2&E3). destruct (store_accounted (lock (0 + k)) call o1 E2) as (F1&F2&F3).
    split; [by rewrite F1|]. split; [done|]. rewrite F3, length_app. simpl. lia. }
  split; [done|]. split; [done|]. split; [done|]. intros Hl.
  apply (H (λ told o, o = observed capacity told) []); [done|]. intros told k call o1 _ ->. rewrite Hl. apply store_observed.
Qed.
Lemma if_set_dropped name n r : out_observer_dropped_event_count (append_if_set name n r) = out_observer_dropped_event_count r.
Proof. unfold append_if_set. by destruct (n =? 0)%Z. Qed.
Lemma in_memory_notified lock capacity r : ∃ o r',
  notify_runtime_observers [Some (in_memory_observer lock (InMemoryRuntimeObserver_new capacity))] r =
    Some ([Some (in_memory_at lock (length (observations r)) o)], r') ∧
  out_ok r' = out_ok r ∧ out_runtime_errors r' = out_runtime_errors r ∧
  out_observer_dropped_event_count r' = out_observer_dropped_event_count r + mem_dropped_event_count o ∧
  mem_capacity o = capacity ∧ within_capacity o ∧ mem_dropped_event_count o + kept_records o = length (observations r) ∧
  ((∀ k, lock k = true) → o = observed capacity (observations r)).
Proof.
  destruct (in_memory_told lock capacity r (mkDelivery 0 "")) as (o&E&H). unfold notify_runtime_observers. cbn [tell_observers].
  rewrite E. cbv zeta. cbn [callback_failure_count Nat.eqb]. eexists o, _. split; [reflexivity|].
  change (out_observer_dropped_event_count (count_metric_samples ?x)) with (out_observer_dropped_event_count x).
  change (out_ok (count_metric_samples ?x)) with (out_ok x). change (out_runtime_errors (count_metric_samples ?x)) with (out_runtime_errors x).
  split; [do 2 rewrite (proj1 (proj2 (if_set_errors _ _ _))); done|].
  split; [do 2 rewrite (proj1 (if_set_errors _ _ _)); done|]. by rewrite !if_set_dropped.
Qed.

(** ** The objects of a run *)
Lemma lane_configs_found graph l : l ∈ graph_lanes graph → is_Some (lane_configs graph !! lane_id l).
Proof.
  unfold lane_configs. assert (∀ ls (m : gmap string SchedulerGroupConfig), is_Some (m !! lane_id l) ∨ l ∈ ls →
    is_Some (fold_left (λ m lane, <[lane_id lane := lane_config_from_spec lane]> m) ls m !! lane_id l)) as H.
  { induction ls as [|l1 ls IH]; intros m; cbn [fold_left]; [by intros [?|?%elem_of_nil]|]. intros H. apply IH.
    destruct (decide (lane_id l1 = lane_id l)) as [E|E]; [left; rewrite E, lookup_insert_eq; by eexists|].
    rewrite lookup_insert_ne by done. destruct H as [H|[->|H]%elem_of_cons]; [by left|done|by right]. }
  intros Hl. apply H. by right.
Qed.
Lemma set_sink_wf sink b : bus_wf b → bus_wf (set_health_event_sink sink b).
Proof. intros []. by split. Qed.
Lemma set_trace_ok trace r : router_ok r → router_ok (set_trace_collector trace r).
Proof. intros [[] [] ?]. by split. Qed.
Lemma initial_world_ok graph : specs_ok (graph_edges graph) →
  world_ok (w_hub (initial_world graph)) false true (state_value (initial_world graph)) (initial_world graph).
Proof.
  intros Hs. split; [|done..]. eapply start_ok; [|reflexivity|by split|by split].
  apply set_trace_ok, router_new_ok; [|done]. intros b [= <-]. apply set_sink_wf, bus_new_origin.
Qed.

(** ** What a valid graph provides *)
Section valid.
Context (env : RunnerEnvironment) (registry : ComponentRegistry ComponentFactory) (graph : GraphSpec).
Abbreviation valid := (graph_valid (env_stod env) (Some registry) factory_probe graph).
Lemma valid_specs : valid → specs_ok (graph_edges graph).
Proof.
  intros H. destruct (gva_edges _ _ _ _ H) as [Hn He]. split; [|done]. apply Forall_forall. intros e Hin. by apply He in Hin as [? _].
Qed.
Lemma valid_lanes c : valid → c ∈ graph_components graph → is_Some (lane_configs graph !! exec_lane (execution c)).
Proof.
  intros H Hc. destruct (gva_components _ _ _ _ H) as [_ Hd]. apply Hd in Hc as (_&(_&Hl&_)&_).
  apply elem_of_list_to_set, list_elem_of_fmap in Hl as (l&->&Hl). by apply lane_configs_found.
Qed.
Lemma valid_factories c : valid → c ∈ graph_components graph → is_Some (factories registry !! comp_type c).
Proof.
  intros H Hc. destruct (gva_components _ _ _ _ H) as [_ Hd]. apply Hd in Hc as (_&_&Hk).
  destruct (Hk ltac:(done)) as (d&Hdesc&_). unfold describe, probe_type, registry_create in Hdesc. simpl in Hdesc.
  destruct (registry_metadata registry (comp_type c)); [|done]. simpl in Hdesc. by destruct (factories registry !! comp_type c).
Qed.
End valid.

(** ** Errors of the modes that do not run *)
Lemma reported_errors phase code l r : let r' := fold_left (λ r error, report_error phase "" "" error code true r) l r in
  out_ok r' = out_ok r ∧ out_runtime_errors r' = out_runtime_errors r ++ ((λ error, make_runtime_error phase "" "" error code true) <$> l).
Proof.
  revert r. induction l as [|e l IH]; intros r; cbn [fold_left]; [by rewrite app_nil_r|].
  destruct (IH (report_error phase "" "" e code true r)) as [-> ->]. split; [done|]. cbn [fmap list_fmap].
  change (out_runtime_errors (report_error phase "" "" e code true r)) with (out_runtime_errors r ++ [make_runtime_error phase "" "" e code true]).
  by rewrite <- app_assoc.
Qed.
(** Ok exactly without errors, which are the runner's own. *)
Definition consistent (quiet : Prop) (r : RuntimeRunnerResult) : Prop :=
  (out_ok r = true ↔ out_runtime_errors r = []) ∧ Forall (own_error quiet) (out_runtime_errors r).
Lemma reported_consistent quiet phase code l r : code ≠ "observer_failure" → code ≠ "exception" → out_runtime_errors r = [] →
  (out_ok r = true ↔ l = []) → consistent quiet (fold_left (λ r error, report_error phase "" "" error code true r) l r).
Proof.
  intros H1 H2 He Ho. destruct (reported_errors phase code l r) as [E1 E2]. unfold consistent. rewrite E1, E2, He, Ho. simpl. split.
  - destruct l; [done|split; done].
  - apply Forall_fmap, Forall_forall. by split.
Qed.
Lemma dry_run_consistent quiet d r : out_runtime_errors r = [] → (dry_ok d = true ↔ dry_errors d = []) → consistent quiet (dry_run_result d r).
Proof. intros He Hd. apply (reported_consistent quiet "dry_run" "dry_run" (dry_errors d) (r <| out_ok := dry_ok d |>)); done. Qed.

(** ** The whole call *)
Lemma finish_live_verdict compiled_in now ids s r :
  out_ok (snd (finish_live_observe compiled_in now ids s r)) = out_ok r ∧
  out_runtime_errors (snd (finish_live_observe compiled_in now ids s r)) = out_runtime_errors r.
Proof.
  unfold finish_live_observe. destruct (session_enabled _ _); [|done]. cbv zeta. cbn [negb].
  destruct (session_drain _ _ _) as [s1 drained]. destruct (session_take_drop_summary _ _ _ _) as [s2 summary]. cbn [snd].
  match goal with |- context [append_if_set ?name ?n ?r0] =>
    change (out_ok (count_metric_samples ?x)) with (out_ok x);
    change (out_runtime_errors (count_metric_samples ?x)) with (out_runtime_errors x);
    destruct (if_set_errors name n r0) as (-> & -> & _) end.
  by destruct summary.
Qed.
Section whole.
Context (env : RunnerEnvironment) (registry : ComponentRegistry ComponentFactory) (compile_fuel : nat).
Context (graph : GraphSpec) (options : RuntimeRunnerOptions) (sccs : list (list string)).
Context (Hsccs : graph_sccs graph = Some sccs) (Hids : NoDup (region_ids graph sccs)) (Hfuel : length sccs <= compile_fuel).
Context (Hinputs : inputs_distinct graph) (Hclock : ∀ deadline, ∃ n, ∀ m, n <= m → (deadline <= env_clock env m 0 0)%Z).
Context (Hfine : factories_are factory_fine registry).
Abbreviation valid := (graph_valid (env_stod env) (Some registry) factory_probe graph).
Abbreviation quiet := (factories_are factory_quiet registry).
(** What the mode returns: a consistent result, and calls only when a valid graph is run. *)
Definition mode_result (r : RuntimeRunnerResult) (log : list LifecycleEvent) : Prop :=
  consistent quiet r ∧ (¬ valid → out_ok r = false ∧ log = []) ∧ (opt_mode options ≠ kRun → log = []) ∧
  (opt_mode options = kValidate → out_ok r = true ↔ valid).
Lemma valid_mode_ends validation r : validate_graph (env_stod env) (Some registry) factory_probe compile_fuel graph = Some validation →
  gv_ok validation = true → valid → out_ok r = false → out_runtime_errors r = [] →
  ∃ n r' log, (∀ fuel, n <= fuel → match opt_mode options with
      | kValidate => Some (r <| out_ok := true |>, [])
      | kDryRun => match dry_run_graph (env_stod env) registry factory_probe compile_fuel graph (opt_tick_iterations options) with
          | None => None | Some d => Some (dry_run_result d r, []) end
      | kRun => run_components env registry fuel graph options r
      end = Some (r', log)) ∧ mode_result r' log.
Proof.
  intros Hv Hok Hval Hr He. unfold mode_result. destruct (opt_mode options).
  - exists 0, (r <| out_ok := true |>), []. split; [done|]. split; [|done]. split; simpl; rewrite ?He; [done|constructor].
  - unfold dry_run_graph. rewrite Hv. cbn [mbind option_bind]. rewrite Hok. eexists 0, _, _. split; [intros fuel _; reflexivity|].
    split; [apply dry_run_consistent; [done|by split]|]. split; [by intros []|done].
  - pose proof (initial_world_ok graph (valid_specs env registry graph Hval)) as Hw.
    destruct (run_components_ends env registry graph options quiet) with (r0 := w_hub (initial_world graph))
      (committed := state_value (initial_world graph)) (r := r) as (n&r'&log&E&H); [|done..|].
    { intros Hq. split; [done|]. split; intros c Hc; [by apply (valid_factories env registry graph)|by apply (valid_lanes env registry)]. }
    exists n, r', log. split; [exact E|]. split; [exact H|]. split; [by intros []|done].
Qed.
Lemma run_mode_ends : ∃ n r log, (∀ fuel, n <= fuel → run_mode env registry compile_fuel fuel graph options = Some (r, log)) ∧ mode_result r log.
Proof.
  destruct (validation_spec (env_stod env) (Some registry) factory_probe compile_fuel graph sccs Hsccs Hids Hfuel) as (v&Hv&Hw&Hval).
  unfold run_mode. rewrite Hv.
  set (r0 := initial_runner_result <| out_graph_name := graph_name graph |> <| out_component_count := length (graph_components graph) |>
    <| out_channel_count := length (graph_edges graph) |> <| out_validation := v |>).
  assert (out_ok r0 = false) as H0 by done. assert (out_runtime_errors r0 = []) as E0 by done. clearbody r0.
  destruct (gv_ok v) eqn:Hok; cbn [negb]; [apply (valid_mode_ends v); [done|done|by apply Hval|done|done]|].
  eexists 0, _, _. split; [intros fuel _; reflexivity|].
  assert (¬ valid) as Hn by (intros Hx%Hval; done). unfold invalid_result.
  destruct (reported_errors "validate" "validation" (gv_errors v) (r0 <| out_ok := false |>)) as [R1 R2].
  change (out_ok (r0 <| out_ok := false |>)) with false in R1.
  split; [|split; [by split|split; [done|intros _; by rewrite R1]]].
  apply reported_consistent; [done|done|exact E0|]. pose proof (wr_ok _ Hw) as Hx. rewrite Hok in Hx. exact Hx.
Qed.
Lemma run_graph_ends : Forall observer_fine (opt_observers options) →
  ∃ n o, (∀ fuel, n <= fuel → run_graph env registry compile_fuel fuel graph options = Some o) ∧
    (out_ok (outcome_result o) = true ↔ Forall (λ e, err_code e = "observer_failure") (out_runtime_errors (outcome_result o))) ∧
    (quiet → Forall (λ e, err_code e ≠ "exception") (out_runtime_errors (outcome_result o))) ∧
    (¬ valid → out_ok (outcome_result o) = false) ∧ (¬ valid ∨ opt_mode options ≠ kRun → outcome_log o = []) ∧
    (opt_mode options = kValidate → out_ok (outcome_result o) = true ↔ valid).
Proof.
  intros Hobs. destruct run_mode_ends as (n&r&log&E&[Hc Hown]&Hinv&Hlog&Hvalidate). unfold run_graph, finish_result.
  set (session := publish_all _ _ _). 
  set (r1 := snd (finish_live_observe (env_live_compiled_in env) (env_live_clock env) (make_live_id_maps graph) session r)).
  destruct (finish_live_verdict (env_live_compiled_in env) (env_live_clock env) (make_live_id_maps graph) session r) as [V1 V2].
  fold r1 in V1, V2. destruct (notify_returns (opt_observers options) r1 Hobs) as (os&r2&extra&N&O1&_&O2&Hextra).
  exists n, (mkOutcome r2 os log). split; [intros fuel Hf; rewrite E by done; cbv zeta; fold r1; by rewrite N|].
  cbn [outcome_result outcome_log]. rewrite O1, O2, V1, V2. split; [|split; [|split; [|split]]].
  - rewrite Hc, Forall_app. split; [intros ->; by split|]. intros [H _].
    destruct (out_runtime_errors r) as [|e l]; [done|]. apply Forall_cons in H as [H _]. apply Forall_cons in Hown as [[H' _] _]. done.
  - intros Hq. apply Forall_app. split; [|eapply Forall_impl; [exact Hextra|]; by intros e ->].
    eapply Forall_impl; [exact Hown|]. intros e [_ H]. by apply H.
  - intros H. by apply Hinv.
  - intros [H|H]; [by apply Hinv|by apply Hlog].
  - exact Hvalidate.
Qed.
End whole.

(** ** The calls of a whole call *)
Lemma no_calls ids restorable resettable : calls_before_stop ids restorable resettable [] [].
Proof. exists [], []. split; [done|]. split; [by exists ids|]. split; [by left|by left]. Qed.
Lemma run_graph_order env registry compile_fuel fuel graph options o : deactivation_safe registry →
  run_graph env registry compile_fuel fuel graph options = Some o →
  ∃ started called, calls_before_stop (comp_id <$> graph_components graph) (map_keys (opt_restore_component_states options))
      (first_occurrences (opt_reset_component_ids options) ∅) started called ∧
    outcome_log o = called ++ (EDeactivate <$> reverse started).
Proof.
  intros Hs. unfold run_graph. destruct (run_mode _ _ _ _ _ _) as [[r log]|] eqn:E; [|done]. unfold finish_result. cbv zeta.
  destruct (notify_runtime_observers _ _) as [[os r']|]; [|done]. intros [= <-]. cbn [outcome_log].
  assert (log = [] ∨ ∃ r0, out_stopped_components r0 = 0 ∧ run_components env registry fuel graph options r0 = Some (r, log)) as [->|(r0&H0&H)].
  { unfold run_mode in E. destruct (validate_graph _ _ _ _ _) as [v|]; [|done].
    set (r0 := initial_runner_result <| out_graph_name := graph_name graph |> <| out_component_count := length (graph_components graph) |>
      <| out_channel_count := length (graph_edges graph) |> <| out_validation := v |>) in E.
    assert (out_stopped_components r0 = 0) as H0 by done. clearbody r0.
    destruct (negb (gv_ok v)); [left; congruence|]. destruct (opt_mode options); [left; congruence| |right; by exists r0].
    left. destruct (dry_run_graph _ _ _ _ _ _); congruence. }
  - exists [], []. split; [apply no_calls|done].
  - destruct (lifecycle_order env registry fuel graph options Hs r0 r log H0 H) as (started&called&H1&H2&_). by exists started, called.
Qed.
