(* ===== verification/RunnerProperties.v ===== *)
(** * RunnerProperties: the properties of the runner

    What [RuntimeRunner::run] promises for every graph, every registry of components, every mode and every choice of the
    environment. *)

From S2P Require Export RunnerRun RunnerMetricsFacts RunnerTrace ComponentBase.
Local Open Scope nat_scope.

(** ** The whole call *)
Section properties.
Context (env : RunnerEnvironment) (registry : ComponentRegistry ComponentFactory) (compile_fuel : nat).
Context (graph : GraphSpec) (options : RuntimeRunnerOptions).
Abbreviation valid := (graph_valid (env_stod env) (Some registry) factory_probe graph).

(** C9. The runner returns with a consistent verdict under these conditions: the regions of the graph have different ids and no
    trigger names an input twice, no factory gives a null pointer, the [deactivate], [validate_config] and [apply_config] of
    the components return, the observers return and the clock reaches every deadline.  Then every call ends; the result is ok exactly when every
    error of it is about an observer; no error says that there was an exception when the user code does not throw; an
    invalid graph is not ok and has no component called, a mode other than [run] calls no component, and the mode
    [validate] is ok exactly for a valid graph. *)
Theorem runner_ends sccs : graph_sccs graph = Some sccs → NoDup (region_ids graph sccs) → length sccs <= compile_fuel →
  inputs_distinct graph → (∀ deadline, ∃ n, ∀ m, n <= m → (deadline <= env_clock env m 0 0)%Z) →
  factories_are factory_fine registry → Forall observer_fine (opt_observers options) →
  ∃ n o, (∀ fuel, n <= fuel → run_graph env registry compile_fuel fuel graph options = Some o) ∧
    (out_ok (outcome_result o) = true ↔ Forall (λ e, err_code e = "observer_failure") (out_runtime_errors (outcome_result o))) ∧
    (factories_are factory_quiet registry → Forall (λ e, err_code e ≠ "exception") (out_runtime_errors (outcome_result o))) ∧
    (¬ valid → out_ok (outcome_result o) = false) ∧ (¬ valid ∨ opt_mode options ≠ kRun → outcome_log o = []) ∧
    (opt_mode options = kValidate → out_ok (outcome_result o) = true ↔ valid).
Proof. apply run_graph_ends. Qed.

(** C10. When no [deactivate] throws and running the components gives a result, the calls on the components follow the documented
    lifecycle, whichever of the other calls fail: the components are configured and activated in the order of the graph
    until one of them fails; only after all of them have been activated are states restored, then components reset, each
    at most once, then the graph run and the states captured; and at the end exactly the components that were activated
    are deactivated, in reverse, each once, also after an exception.  A [deactivate] that throws is called a second time
    (throwing_deactivate_repeats). *)
Theorem lifecycle_documented fuel r r' log : deactivation_safe registry → out_stopped_components r = 0 →
  run_components env registry fuel graph options r = Some (r', log) →
  ∃ started called,
    calls_before_stop (comp_id <$> graph_components graph) (map_keys (opt_restore_component_states options))
      (first_occurrences (opt_reset_component_ids options) ∅) started called ∧
    log = called ++ (EDeactivate <$> reverse started) ∧ out_stopped_components r' = length started.
Proof. intros Hs. by apply lifecycle_order. Qed.

(** C27. The metrics of a result conform to the metric schema of the library, if those that the components recorded do:
    every sample with a name of the runtime has a descriptor, and carries only labels of its descriptor.  The only
    exception is the count of lost live events, which has no descriptor: the schema check passes exactly when no live
    event was lost. *)
Theorem metrics_described fuel o : Forall sample_conforms (plain_sample <$> env_metric_samples env) →
  run_graph env registry compile_fuel fuel graph options = Some o →
  schema_ok (validate_runtime_metric_samples (out_runtime_metrics (outcome_result o))) = true ↔
  out_live_observe_dropped_event_count (outcome_result o) = 0.
Proof.
  intros Hu H. apply metrics_conform in H; [|done]. unfold conforming_unless_lost in H. rewrite <- H. apply (proj2 (schema_exact _)).
Qed.

(** C11. The status methods of the base class contain user code: for classes that override the methods behind them, with
    any code, throwing or not, every call of the runner returns without an exception error and follows the lifecycle to its
    end: every component that was activated is deactivated, once, in reverse.  The methods that are called without a guard,
    [snapshot_state], [restore_state], [validate_config] and [apply_config], must return where the class overrides them; and as for every
    run, the regions of the graph have different ids, no trigger names an input twice, the observers return and the clock
    reaches every deadline. *)
Theorem classes_contained sccs : graph_sccs graph = Some sccs → NoDup (region_ids graph sccs) → length sccs <= compile_fuel →
  inputs_distinct graph → (∀ deadline, ∃ n, ∀ m, n <= m → (deadline <= env_clock env m 0 0)%Z) →
  made_of_classes registry → Forall observer_fine (opt_observers options) →
  ∃ n o started called, (∀ fuel, n <= fuel → run_graph env registry compile_fuel fuel graph options = Some o) ∧
    Forall (λ e, err_code e ≠ "exception") (out_runtime_errors (outcome_result o)) ∧
    calls_before_stop (comp_id <$> graph_components graph) (map_keys (opt_restore_component_states options))
      (first_occurrences (opt_reset_component_ids options) ∅) started called ∧
    outcome_log o = called ++ (EDeactivate <$> reverse started).
Proof.
  intros H1 H2 H3 H4 H5 Hc Ho.
  destruct (run_graph_ends env registry compile_fuel graph options sccs H1 H2 H3 H4 H5 (classes_fine _ Hc) Ho) as (n&o&E&_&Hq&_).
  destruct (run_graph_order env registry compile_fuel n graph options o) as (started&called&Hl); [|by apply E|].
  { intros type f moment code Hf Hcode. exact (proj1 (proj2 (classes_fine _ Hc type f Hf moment) code Hcode)). }
  exists n, o, started, called. split; [exact E|]. split; [by apply Hq, classes_quiet|exact Hl].
Qed.
End properties.

(** ** The trace *)
(** The trace lists everything that was recorded, once: the events of the spans and of the health events, ordered by
    start offset and, at the same offset, in the order in which they were recorded; and the offsets count from the
    earliest of their times. *)
Theorem trace_in_order times_of ids recorded events r :
  let spans := spans_of times_of ids recorded in
  let all := trace_events_of ids spans events in
  let times := event_times spans events in
  ∃ l positions, out_trace (copy_trace_to_result times_of ids recorded events r) = out_trace r ++ l ∧
    positions ≡ₚ seq 0 (length all) ∧ Some <$> l = (λ i, all !! i) <$> positions ∧ StronglySorted (in_order all) positions ∧
    out_trace_event_count (copy_trace_to_result times_of ids recorded events r) = length (out_trace r) + length recorded + length events ∧
    (times ≠ [] → Forall (λ t, 0 < t)%Z times → ∃ earliest, earliest ∈ times ∧ Forall (λ t, earliest <= t)%Z times ∧
       te_start_offset_ns <$> all = (λ t, t - earliest)%Z <$> times).
Proof.
  intros spans all times. exists (merge_sort ordered_before (imap pair all)).*2, (merge_sort ordered_before (imap pair all)).*1.
  split; [reflexivity|]. split; [apply sorted_positions|]. split; [apply sorted_events|]. split; [apply sorted_in_order|].
  split; [|apply offsets_from_earliest].
  change (length (out_trace r ++ (merge_sort ordered_before (imap pair all)).*2) = length (out_trace r) + length recorded + length events).
  rewrite length_app, length_fmap, merge_sort_Permutation, length_imap. unfold all, trace_events_of, spans, spans_of.
  rewrite length_app, length_fmap, !length_imap. lia.
Qed.

(** ** Observers *)
(** The in-memory observer keeps or counts everything it is told, within its capacity: the records it holds and the
    count of the dropped ones add up to the metrics, trace events, health events and errors of the result and the result
    itself, also when another thread holds its mutex; without contention it holds the newest of each; and all that the
    result shows of it is the number of dropped records. *)
Theorem in_memory_observer_accounts lock capacity r : ∃ n o r',
  notify_runtime_observers [Some (in_memory_observer lock (InMemoryRuntimeObserver_new capacity))] r = Some ([Some (in_memory_at lock n o)], r') ∧
  out_ok r' = out_ok r ∧ out_runtime_errors r' = out_runtime_errors r ∧
  out_observer_dropped_event_count r' = out_observer_dropped_event_count r + mem_dropped_event_count o ∧
  mem_capacity o = capacity ∧ within_capacity o ∧
  mem_dropped_event_count o + kept_records o = length (out_runtime_metrics r) + length (out_trace r) + length (out_health_events r) +
    length (out_runtime_errors r) + 1 ∧
  ((∀ k, lock k = true) → mem_results o = newest capacity [r] ∧ mem_metrics o = newest capacity (out_runtime_metrics r) ∧
     mem_trace_events o = newest capacity (out_trace r) ∧ mem_health_events o = newest capacity (out_health_events r) ∧
     mem_runtime_errors o = newest capacity (out_runtime_errors r)).
Proof.
  destruct (in_memory_notified lock capacity r) as (o&r'&E&H1&H2&H3&H4&H5&H6&H7). exists (length (observations r)), o, r'.
  split; [exact E|]. do 5 (split; [done|]). split; [rewrite H6; apply observations_length|]. intros Hl. rewrite (H7 Hl).
  destruct (observations_sorted r) as (S1&S2&S3&S4&S5). unfold observed. cbn. by rewrite S1, S2, S3, S4, S5.
Qed.

(** ** Texts *)
(** A size that is written into the graph configuration is read back: for every integer in decimal, [parse_config_size]
    gives the integer when it fits [std::size_t], and nothing, so that the default stays, when it is negative or too
    large. *)
Theorem config_size_roundtrip key z :
  parse_config_size (mkConfigView {[key := to_string_Z z]} ∅) key = if bool_decide (0 <= z <= u64_max)%Z then Some z else None.
Proof. apply parse_size_of_integer. apply lookup_singleton_eq. Qed.
(** An execution error is attributed to the component that failed: the runner reads the id back from the text that the
    event runtime wrote, for every id without a space and every message. *)
Theorem failure_attributed id message : no_space id → id ≠ "" →
  let text := "component " +:+ id +:+ " failed: " +:+ message in
  runtime_error_of text = make_runtime_error "execute" id "" text "component_execute" true.
Proof.
  intros H Hne. cbv zeta. change ("component " +:+ id +:+ " failed: " +:+ message) with (failure_text id message).
  unfold runtime_error_of. rewrite component_of_failure by done. by destruct id.
Qed.

(** ** A small graph *)
(** Two components; the second fails when it is told to. *)
Definition small_graph : GraphSpec := demo_graph [("a", "normal"); ("b", "normal")] [("a", "b")] [].
Definition small_descriptor : ComponentDescriptor :=
  mkComponentDescriptor "t" "T" kProcessing "" [] [mkPort "in" "" "" kSingle false] [mkPort "out" "" "" kSingle false] "".
Definition small_execute (moment : nat) (i : Invocation) (loop : option LoopIterationContext) : Prog :=
  Call (CPublish "out" (Some (make_text_payload "p" kTextPayloadSchema)) None) (fun _ => Returns status_success).
Definition small_component (activates : bool) : RunnerComponent :=
  mkRunnerComponent (mkCode small_execute (fun _ _ => inr status_success) (fun _ _ => Returns status_success))
    (fun _ _ => Returns status_success) (fun _ => inr (if activates then status_success else status_error "no"))
    (fun _ => Returns status_success) (fun _ _ => inr status_success) (fun _ => inr (inr (mkStateOf "" "1" None 8)))
    (fun _ => inr status_success).
(** The factory makes a component that fails from this moment on. *)
Definition small_factory (until : nat) : ComponentFactory :=
  mkFactory (inr small_descriptor) (fun moment => inr (Some (small_component (moment <? until)))).
Definition small_registry (until : nat) : ComponentRegistry ComponentFactory :=
  mkRegistry {["t" := mkRegistration "t" "" "" true true true]} {["t" := small_factory until]}.
Definition small_environment : RunnerEnvironment :=
  mkEnvironment demo_clock demo_token (fun n => n) (fun _ => 0%Z) (fun _ => "") (fun _ => "") (fun _ => "") no_stod
    (fun i => (Z.of_nat (40 - i), 50)%Z) (fun _ => "id") (fun _ => (true, 1%Z)) (fun n => Z.of_nat n) true
    [("app.frames", of_int 1)] "what".
Definition small_options (mode : RuntimeRunMode) : RuntimeRunnerOptions :=
  mkRunnerOptions mode 2 0 false true 8 ["a"; "a"] {["b" := mkStateOf "t" "1" None 0]} true (mkObserveOptions kOff 4 1)
    [Some (in_memory_observer (fun _ => true) (InMemoryRuntimeObserver_new 2)); None].
Abbreviation small_run :=
  (fun until mode fuel => run_graph small_environment (small_registry until) 9 fuel small_graph (small_options mode)).
Definition run_summary (o : option RunnerOutcome) : option (bool * list string * list LifecycleEvent) :=
  (fun o => (out_ok (outcome_result o), err_code <$> out_runtime_errors (outcome_result o), outcome_log o)) <$> o.
(** All goes well; the second component fails to activate; and the modes that call nothing. *)
Example small_runs :
  run_summary (small_run 99 kRun 40) = Some (true, [],
    [EConfigure "a"; EActivate "a"; EConfigure "b"; EActivate "b"; ERestore "b"; EReset "a"; ERun; ESnapshot "a"; ESnapshot "b";
     EDeactivate "b"; EDeactivate "a"]) ∧
  run_summary (small_run 4 kRun 40) = Some (false, ["component_activate"],
    [EConfigure "a"; EActivate "a"; EConfigure "b"; EActivate "b"; EDeactivate "a"]) ∧
  run_summary (small_run 4 kDryRun 40) = Some (true, [], []).
Proof. vm_compute. by split_and!. Qed.

(** ** Witnesses *)
Definition small_sccs : list (list string) := [["b"]; ["a"]].
Lemma small_inputs : inputs_distinct small_graph.
Proof. intros c Hc _. apply list_elem_of_In in Hc as [<-|[<-|[]]]; constructor. Qed.
Lemma small_factories until : factories_are factory_fine (small_registry until).
Proof.
  intros type f Hf. cbn [factories small_registry] in Hf. apply (lookup_singleton_Some "t" type) in Hf as [_ <-]. intros moment. split; [done|]. intros c [= <-].
  split; [intros m; by eexists|]. split; [intros m config; by eexists|done].
Qed.
Lemma small_observers mode : Forall observer_fine (opt_observers (small_options mode)).
Proof. repeat constructor; intros; by eexists. Qed.
Lemma runner_ends_witness :
  ∃ n o, (∀ fuel, n <= fuel → small_run 4 kRun fuel = Some o) ∧
    (out_ok (outcome_result o) = true ↔ Forall (λ e, err_code e = "observer_failure") (out_runtime_errors (outcome_result o))).
Proof.
  destruct (runner_ends small_environment (small_registry 4) 9 small_graph (small_options kRun) small_sccs) as (n&o&E&H&_).
  - vm_compute. reflexivity.
  - apply (bool_decide_unpack _). vm_compute. exact Logic.I.
  - vm_compute. lia.
  - apply small_inputs.
  - apply demo_clock_reaches.
  - apply small_factories.
  - apply small_observers.
  - exists n, o. split; [exact E|exact H].
Defined.
Lemma lifecycle_documented_witness :
  ∃ r log started called, run_components small_environment (small_registry 4) 40 small_graph (small_options kRun)
      (initial_runner_result <| out_validation := default empty_validation (validate_structure 9 small_graph) |>) = Some (r, log) ∧
    log = called ++ (EDeactivate <$> reverse started) ∧ out_stopped_components r = length started.
Proof.
  destruct (run_components small_environment (small_registry 4) 40 small_graph (small_options kRun)
      (initial_runner_result <| out_validation := default empty_validation (validate_structure 9 small_graph) |>)) as [[r log]|] eqn:E.
  - destruct (lifecycle_documented small_environment (small_registry 4) small_graph (small_options kRun) 40
      (initial_runner_result <| out_validation := default empty_validation (validate_structure 9 small_graph) |>) r log) as (started&called&_&H).
    + intros type f moment code Hf Hc. exact (proj1 (proj2 (small_factories 4 type f Hf moment) code Hc)).
    + reflexivity.
    + exact E.
    + exists r, log, started, called. split; [reflexivity|exact H].
  - exfalso. assert (is_Some (@None (RuntimeRunnerResult * list LifecycleEvent))) as [? ?]; [rewrite <- E; vm_compute; by eexists|discriminate].
Defined.
(** A class that throws wherever it can. *)
Definition throwing_class : ComponentClass :=
  mkClass (fun _ _ => Returns status_success) (Some (fun _ => None)) (Some (fun _ => Some "deactivate")) None (Some (fun _ => Throws "reset"))
    None None None None None None.
Definition throwing_registry : ComponentRegistry ComponentFactory :=
  mkRegistry {["t" := mkRegistration "t" "" "" true true true]} {["t" := class_factory (inr small_descriptor) (fun _ => throwing_class)]}.
Definition throwing_options : RuntimeRunnerOptions :=
  mkRunnerOptions kRun 2 0 false true 8 [] ∅ true (mkObserveOptions kOff 4 1) [].
Example throwing_run : run_summary (run_graph small_environment throwing_registry 9 40 small_graph throwing_options) =
  Some (false, ["component_execute"; "component_deactivate"; "component_deactivate"],
    [EConfigure "a"; EActivate "a"; EConfigure "b"; EActivate "b"; ERun; ESnapshot "a"; ESnapshot "b"; EDeactivate "b"; EDeactivate "a"]).
Proof. vm_compute. reflexivity. Qed.
Lemma classes_contained_witness :
  ∃ n o started called, (∀ fuel, n <= fuel → run_graph small_environment throwing_registry 9 fuel small_graph throwing_options = Some o) ∧
    Forall (λ e, err_code e ≠ "exception") (out_runtime_errors (outcome_result o)) ∧
    outcome_log o = called ++ (EDeactivate <$> reverse started).
Proof.
  destruct (classes_contained small_environment throwing_registry 9 small_graph throwing_options small_sccs)
    as (n&o&started&called&E&He&_&Hl).
  - vm_compute. reflexivity.
  - apply (bool_decide_unpack _). vm_compute. exact Logic.I.
  - vm_compute. lia.
  - apply small_inputs.
  - apply demo_clock_reaches.
  - intros type f Hf. cbn [factories throwing_registry] in Hf. apply (lookup_singleton_Some "t" type) in Hf as [_ <-].
    eexists _, _. split; [reflexivity|]. intros moment. split_and!; done.
  - constructor.
  - exists n, o, started, called. split; [exact E|]. split; [exact He|exact Hl].
Defined.
(** Components whose [deactivate] throws once, at the moment [until]. *)
Definition unsafe_component (until : nat) : RunnerComponent :=
  mkRunnerComponent (mkCode small_execute (fun _ _ => inr status_success) (fun _ _ => Returns status_success))
    (fun _ _ => Returns status_success) (fun _ => inr status_success)
    (fun _ => Returns status_success) (fun _ _ => inr status_success) (fun _ => inr (inr (mkStateOf "" "1" None 8)))
    (fun moment => if moment =? until then inl "late" else inr status_success).
Definition unsafe_registry (until : nat) : ComponentRegistry ComponentFactory :=
  mkRegistry {["t" := mkRegistration "t" "" "" true true true]}
    {["t" := mkFactory (inr small_descriptor) (fun _ => inr (Some (unsafe_component until)))]}.
(** When the [deactivate] of the first component throws, the handler deactivates both again. *)
Example throwing_deactivate_repeats : run_summary (run_graph small_environment (unsafe_registry 45) 9 40 small_graph throwing_options) =
  Some (false, ["exception"],
    [EConfigure "a"; EActivate "a"; EConfigure "b"; EActivate "b"; ERun; ESnapshot "a"; ESnapshot "b"; EDeactivate "b"; EDeactivate "a";
     EDeactivate "b"; EDeactivate "a"]).
Proof. vm_compute. reflexivity. Qed.
Definition small_outcome : RunnerOutcome := default (mkOutcome initial_runner_result [] []) (small_run 99 kRun 40).
Lemma metrics_described_witness :
  length (out_runtime_metrics (outcome_result small_outcome)) > 20 ∧
  (schema_ok (validate_runtime_metric_samples (out_runtime_metrics (outcome_result small_outcome))) = true ↔
    out_live_observe_dropped_event_count (outcome_result small_outcome) = 0).
Proof.
  split; [vm_compute; lia|].
  apply (metrics_described small_environment (small_registry 99) 9 small_graph (small_options kRun) 40).
  - apply (bool_decide_unpack _). vm_compute. exact Logic.I.
  - vm_compute. reflexivity.
Defined.
Lemma failure_attributed_witness : runtime_error_of "component b failed: no" =
  make_runtime_error "execute" "b" "" "component b failed: no" "component_execute" true.
Proof. apply (failure_attributed "b" "no"); [vm_compute; by split|discriminate]. Defined.
