(* ===== verification/QuietRunner.v ===== *)
(** * QuietRunner: calls of the runner in which nothing can fail

    A valid graph of components that return success, without messages, publications or pools: the call of the runner ends
    with an ok result, after every component was executed once in every iteration. *)

From S2P Require Export QuietRun RunnerProperties.
Local Open Scope nat_scope.

Record calm_component (c : RunnerComponent) : Prop := {
  cc_configure : ∀ moment config, quiet_prog (code_configure c moment config);
  cc_activate : ∀ moment, ∃ status, code_activate c moment = inr status ∧ status_ok status = true;
  cc_deactivate : ∀ moment, ∃ status, code_deactivate c moment = inr status ∧ status_ok status = true;
  cc_execute : quiet_code (code_component c) }.
(** A class gives one when what it overrides does. *)
Lemma guarded_quiet p : quiet_prog p → quiet_prog (guarded_program p).
Proof. induction p as [status|what|call k IH]; simpl; [done|done|]. intros [H1 H2]. split; [done|]. intros answer. apply IH, H2. Qed.

Section quiet.
Context (env : RunnerEnvironment) (registry : ComponentRegistry ComponentFactory) (fuel : nat).
Context (graph : GraphSpec) (options : RuntimeRunnerOptions).
Definition calm_lane (lane : SchedulerGroupConfig) : Prop :=
  str_eqb (group_type lane) "thread_pool" = false ∧ wall_clock_lane (env_hz_period env) lane = false.
(** What makes a component of the graph quiet. *)
Record calm_spec (c : ComponentNodeSpec) : Prop := {
  ca_factory : ∃ f, factories registry !! comp_type c = Some f ∧ ∀ moment, ∃ code, factory_create f moment = inr (Some code) ∧ calm_component code;
  ca_lane : ∃ lane, lane_configs graph !! exec_lane (execution c) = Some lane ∧ calm_lane lane;
  ca_events : ¬ message_driven c }.
Context (Hspecs : ∀ c, c ∈ graph_components graph → calm_spec c).
Context (validation : GraphValidationResult).
Definition calm_instance (i : Instance) : Prop := in_started i = true ∧ calm_component (in_component i).
Record fresh (ids : list string) (s : Runner) : Prop := {
  fr_world : calm_world (ru_world s); fr_errors : out_runtime_errors (ru_result s) = [];
  fr_validation : out_validation (ru_result s) = validation;
  fr_ids : in_id <$> ru_instances s = ids; fr_instances : Forall calm_instance (ru_instances s) }.
Abbreviation never := (λ (_ : string) (_ : Runner), False).
Lemma fresh_world ids s w : fresh ids s → calm_world w → fresh ids (s <| ru_world := w |>).
Proof. intros [] Hw. by split. Qed.
Lemma fresh_note ids e : sure (fresh ids) (note e) (λ _, fresh ids) never.
Proof. apply sure_put. intros s []. by split. Qed.
Lemma fresh_moment ids : sure (fresh ids) next_moment (λ _, fresh ids) never.
Proof.
  apply sure_bind with (Q := λ _, fresh ids); [|intros []; by apply sure_get]. apply sure_put. intros s Hs. apply (fresh_world _ _ (tick_moment (ru_world s))); [done|].
  apply calm_tick, Hs.
Qed.
Lemma sure_prop {A} (X : Prop) P Q E (m : R A) : (X → sure P m Q E) → sure (λ s, X ∧ P s) m Q E.
Proof. intros H s [HX Hs]. by apply H. Qed.
Lemma fresh_call ids e (code : nat → string + Status) : (∀ m, ∃ status, code m = inr status ∧ status_ok status = true) →
  sure (fresh ids) (call_component e code) (λ status s, status_ok status = true ∧ fresh ids s) never.
Proof.
  intros Hc. eapply sure_bind; [apply fresh_note|]. intros []. eapply sure_bind; [apply fresh_moment|]. intros m s Hs.
  destruct (Hc m) as (status&E&Hok). rewrite E. by split.
Qed.
Lemma start_calm ids c : c ∈ graph_components graph →
  sure (fresh ids) (start_component env registry c) (λ go s, go = true ∧ fresh (ids ++ [comp_id c]) s) never.
Proof.
  intros Hin. destruct (ca_factory _ (Hspecs c Hin)) as (f&Hf&Hcode). unfold start_component.
  eapply sure_bind with (Q := λ code s, calm_component code ∧ fresh ids s).
  { unfold create_component, registry_create. rewrite Hf. eapply sure_bind; [apply fresh_moment|]. intros m.
    destruct (Hcode m) as (code&->&Hc). by apply sure_ret. }
  intros code. apply sure_prop. intros Hc. eapply sure_bind with (Q := λ status s, status_ok status = true ∧ fresh ids s).
  { eapply sure_bind; [apply fresh_note|]. intros []. eapply sure_bind; [apply fresh_moment|]. intros m s Hs. unfold run_program.
    destruct (run_calm (env_clock env) (env_stop_token env) (lifecycle_context (comp_id c)) (code_configure code m (comp_config c)) 0 (ru_world s))
      as (w&status&k&->&Hok&Hw); [apply Hc|apply Hs|]. split; [done|]. by apply fresh_world. }
  intros status. apply sure_prop. intros ->. cbn [negb]. eapply sure_bind; [apply fresh_call, Hc|]. intros activate.
  apply sure_prop. intros ->. cbn [negb]. eapply sure_bind with (Q := λ _, fresh (ids ++ [comp_id c])); [|intros _; by apply sure_ret].
  apply sure_put. intros s [H1 H2 H3 H4 H5]. split; simpl; [done..| |].
  - rewrite fmap_app. simpl. by rewrite H4.
  - apply Forall_app_2; [done|]. constructor; [by split|constructor].
Qed.
Lemma starts_calm cs ids : (∀ c, c ∈ cs → c ∈ graph_components graph) →
  sure (fresh ids) (for_while (start_component env registry) cs) (λ _, fresh (ids ++ (comp_id <$> cs))) never.
Proof.
  revert ids. induction cs as [|c cs IH]; intros ids H; simpl; [apply sure_ret; by rewrite app_nil_r|].
  change (comp_id <$> c :: cs) with (comp_id c :: (comp_id <$> cs)). rewrite (cons_middle (comp_id c)), (assoc_L (++)).
  eapply sure_bind; [apply start_calm, H; left|]. intros go. apply sure_prop. intros ->. apply IH. intros; apply H; by right.
Qed.
Lemma instance_found id instances : id ∈ in_id <$> instances → Forall calm_instance instances →
  ∃ i, instance_for_id id instances = Some i ∧ calm_instance i.
Proof.
  intros Hid Hi. unfold instance_for_id. destruct (List.find _ _) as [i|] eqn:E.
  - exists i. split; [done|]. apply find_some in E as [Hin _]. rewrite Forall_forall in Hi. apply Hi. apply list_elem_of_In in Hin. by rewrite elem_of_reverse in Hin.
  - apply list_elem_of_fmap in Hid as (i&->&Hin). exfalso.
    assert (In i (reverse instances)) as Hr by (by apply list_elem_of_In, elem_of_reverse).
    pose proof (find_none _ _ E i Hr) as Hf. simpl in Hf. by rewrite (proj2 (str_eqb_eq _ _) eq_refl) in Hf.
Qed.
Lemma add_components_calm ids instances cs : (∀ c, c ∈ cs → c ∈ graph_components graph) →
  (∀ c, c ∈ cs → comp_id c ∈ in_id <$> instances) → Forall calm_instance instances →
  sure (fresh ids) (add_components graph instances cs)
    (λ components s, (rc_id <$> components = comp_id <$> cs ∧ Forall quiet_component components ∧
      ∀ c, c ∈ components → wall_clock_lane (env_hz_period env) (rc_lane c) = false) ∧ fresh ids s) never.
Proof.
  intros H1 H2 Hi. induction cs as [|c cs IH]; cbn [add_components].
  { apply sure_ret. intros s Hs. split; [|done]. split; [done|]. split; [constructor|]. intros c []%elem_of_nil. }
  destruct (instance_found (comp_id c) instances) as (i&->&Hs&Hc); [apply H2; left|done|].
  destruct (Hspecs c) as [_ (lane&Hl&Hp&Hw) Hm]; [apply H1; left|]. rewrite Hl.
  eapply sure_bind; [apply IH; intros; [apply H1|apply H2]; by right|]. intros others. apply sure_prop. intros (E&F&W).
  apply sure_ret. intros s Hfr. split; [|done]. split; [by rewrite fmap_cons, E|]. split.
  - constructor; [|done]. split; [|done..]. eexists. split; [done|]. apply Hc.
  - intros c' [->|Hc']%elem_of_cons; [exact Hw|by apply W].
Qed.

(** *** The run *)
Context (Hrestore : opt_restore_component_states options = ∅) (Hreset : opt_reset_component_ids options = []).
Context (Hsnapshots : opt_capture_component_state_snapshots options = false).
Context (Hduration : opt_run_duration_ms options = 0%Z) (Hidle : opt_run_until_idle options = false).
Context (Hstop : ∀ moment, env_stop_token env moment = false).
(** The plan names the components of the graph, each once. *)
Context (Hplan : ∀ components, rc_id <$> components = comp_id <$> graph_components graph →
  Forall (plain_region components) (regions_in_order components (gv_plan validation)) ∧
  plan_size components (gv_plan validation) = length (graph_components graph)).
Definition run_calls : nat := Nat.max 1 (opt_tick_iterations options) * length (graph_components graph).
Record well_run (s : Runner) : Prop := {
  wl_ok : out_ok (ru_result s) = true; wl_errors : out_runtime_errors (ru_result s) = [];
  wl_calls : out_tick_calls (ru_result s) = run_calls; wl_instances : Forall calm_instance (ru_instances s) }.
Lemma deactivate_calm i : calm_instance i → sure well_run (deactivate_component true i) (λ _, well_run) never.
Proof.
  intros [Hs Hc]. unfold deactivate_component. rewrite Hs. cbn [negb].
  apply sure_bind with (Q := λ status s, status_ok status = true ∧ well_run s).
  { unfold call_component. apply sure_bind with (Q := λ _, well_run); [apply sure_put; intros s []; by split|]. intros [].
    apply sure_bind with (Q := λ _, well_run).
    { apply sure_bind with (Q := λ _, well_run); [apply sure_put; intros s []; by split|]. intros []. by apply sure_get. }
    intros m s Hw. destruct (cc_deactivate _ Hc m) as (status&E&Hok). rewrite E. by split. }
  intros status. apply sure_prop. intros Hok. apply sure_bind with (Q := λ _, well_run); [apply sure_put; intros s []; by split|].
  intros []. rewrite Hok. by apply sure_ret.
Qed.
Lemma deactivate_all_calm : sure well_run (deactivate_started true) (λ _, well_run) never.
Proof.
  intros s Hs. unfold deactivate_started, get, mbind, R_bind. cbv beta iota.
  assert (Forall calm_instance (reverse (ru_instances s))) as Hf by (rewrite Forall_reverse; apply Hs).
  revert s Hs Hf. intros s Hs. generalize (reverse (ru_instances s)) as l. intros l Hl. revert s Hs.
  change (goes_on well_run never (for_every (deactivate_component true) l)). apply goes_on_every. intros i Hi.
  rewrite Forall_forall in Hl. by apply deactivate_calm, Hl.
Qed.
Lemma fresh_not_failed ids s : fresh ids s → has_fatal_runtime_error (ru_result s) = false.
Proof. intros [_ He _ _ _]. unfold has_fatal_runtime_error. by rewrite He. Qed.
Lemma run_started_calm s : fresh (comp_id <$> graph_components graph) s →
  ends_in (λ fuel, run_started env fuel graph options s) (λ _, well_run) never.
Proof.
  intros Hs. unfold run_started.
  change (ends_in (λ fuel, (runtime_components graph (ru_instances s) ≫= λ components,
    result ← run_event_runtime env fuel graph options components; do on_result (copy_run_result result);
    do (if opt_capture_component_state_snapshots options then for_every (snapshot_component graph) (ru_instances s) else mret tt);
    do deactivate_started true; collecting (collect env graph options)) s) (λ _, well_run) never).
  eapply ends_bind; [apply (add_components_calm (comp_id <$> graph_components graph) (ru_instances s))|exact Hs|].
  { done. } { intros c Hc. rewrite (fr_ids _ _ Hs). apply list_elem_of_fmap. by exists c. } { apply Hs. }
  intros components s1 [(Hids&Hq&Hw) Hs1]. cbv beta. destruct (Hplan components Hids) as [Hregions Hsize].
  destruct (run_calm_ends (env_clock env) (env_stop_token env) (env_stop_token env) (env_pick env) (env_hz_period env) (env_show_double env)
    (env_show_threshold env) (env_show_ms env) (scheduler_options graph options) components (gv_plan validation) Hq Hregions Hw)
    with (w := ru_world s1) as (n&w&x&E&Hok&Herr&Hcalls); [|done|done|apply Hs1|].
  { intros m. unfold cancelled. by rewrite !Hstop; destruct (cancel_token_valid _). }
  set (s2 := s1 <| ru_world := w |> <| ru_log ::= λ l, l ++ [ERun] |>).
  assert (well_run (s2 <| ru_result ::= copy_run_result x |>)) as H3.
  { pose proof (verdict_copy_run x (ru_result s1)) as V. split; simpl.
    - change (vd_ok (verdict (copy_run_result x (ru_result s1))) = true). by rewrite V.
    - change (vd_errors (verdict (copy_run_result x (ru_result s1))) = []). rewrite V. simpl. by rewrite (fr_errors _ _ Hs1), Herr.
    - change (vd_tick_calls (verdict (copy_run_result x (ru_result s1))) = run_calls). rewrite V. simpl. by rewrite Hcalls, Hsize.
    - apply Hs1. }
  rewrite Hsnapshots. pose proof (deactivate_all_calm _ H3) as H4.
  destruct (deactivate_started true (s2 <| ru_result ::= copy_run_result x |>)) as [[s4 [what|[]]]|] eqn:E4; [done| |done].
  assert (∀ k, n <= k → run_event_runtime env k graph options components s1 = Some (s2, inr x)) as Erun.
  { intros k Hk. unfold run_event_runtime, note, put_state, mbind, R_bind, execute_runtime. simpl. by rewrite (fr_validation _ _ Hs1), E. }
  exists n, (s4 <| ru_result ::= collect env graph options (ru_world s4) |>, inr tt). split.
  - intros k Hk. unfold mbind at 1, R_bind at 1. rewrite Erun by done.
    change ((deactivate_started true ≫= λ _, collecting (collect env graph options)) (s2 <| ru_result ::= copy_run_result x |>) =
      Some (s4 <| ru_result ::= collect env graph options (ru_world s4) |>, inr tt)).
    unfold mbind, R_bind. by rewrite E4.
  - destruct H4 as [H1 H2 H4 H5]. pose proof (verdict_collect env graph options (ru_world s4) (ru_result s4)) as V. split; simpl.
    + change (vd_ok (verdict (collect env graph options (ru_world s4) (ru_result s4))) = true). by rewrite V.
    + change (vd_errors (verdict (collect env graph options (ru_world s4) (ru_result s4))) = []). by rewrite V.
    + change (vd_tick_calls (verdict (collect env graph options (ru_world s4) (ru_result s4))) = run_calls). by rewrite V.
    + done.
Qed.
Lemma run_lifecycle_calm s : fresh [] s → ends_in (λ fuel, run_lifecycle env registry fuel graph options s) (λ _, well_run) never.
Proof.
  intros Hs. unfold run_lifecycle. rewrite Hrestore, Hreset.
  eapply (ends_bind _ (λ fuel _, _ ≫= λ _, _) _ (fresh []) (λ _, fresh (comp_id <$> graph_components graph))); [by apply starts_calm|done|].
  intros [] s1 H1. eapply (ends_bind count_instances _ _ (fresh (comp_id <$> graph_components graph)) (λ _, fresh (comp_id <$> graph_components graph)));
    [|done|]. { apply sure_put. intros s' []. by split. }
  intros [] s2 H2.
  destruct (run_started_calm s2 H2) as (n&x&E&Hx). exists n, x. split; [|done]. intros k Hk. specialize (E k Hk).
  unfold failed_fatally, get, mbind, R_bind. cbv beta. rewrite (fresh_not_failed _ _ H2). 
  change (map_items (∅ : gmap string ComponentStateSnapshot)) with ([] : list (string * ComponentStateSnapshot)).
  cbn [for_every first_occurrences]. unfold mret, R_ret. cbv beta iota. rewrite (fresh_not_failed _ _ H2). exact E.
Qed.
Lemma run_components_calm r : calm_world (initial_world graph) → out_runtime_errors r = [] → out_validation r = validation →
  ∃ n r' log, (∀ fuel, n <= fuel → run_components env registry fuel graph options r = Some (r', log)) ∧
    out_ok r' = true ∧ out_runtime_errors r' = [] ∧ out_tick_calls r' = run_calls.
Proof.
  intros Hw He Hv. destruct (run_lifecycle_calm (mkRunner (initial_world graph) r [] [])) as (n&[s [what|a]]&E&Hx); [by split|done|].
  exists n, (ru_result s), (ru_log s). destruct Hx as [H1 H2 H3 _]. split; [|done]. intros k Hk. unfold run_components, catching. by rewrite E.
Qed.
End quiet.
(** The world of a run starts calm. *)
Lemma initial_calm graph : calm_world (initial_world graph).
Proof.
  split.
  - unfold initial_world. simpl. by split.
  - unfold initial_world. simpl. intros s [= <-]. 
    assert (∀ cs c, pending_component_configs c = ∅ → pending_component_configs
      (fold_left (λ s c, set_component_config (comp_id c) (comp_config c) s) cs c) = ∅) as H; [|by apply H].
    induction cs as [|c cs IH]; intros s Hs; simpl; [done|]. by apply IH.
Qed.

(** ** The plan of a valid graph without loops *)
Section plan.
Context (stod : string → option (Double * nat)) {F : Type} (registry : option (ComponentRegistry F)) (probe : F → string + ComponentDescriptor).
Lemma errors_keep_plan errors r : gv_plan (Validate.for_each errors add_error r) = gv_plan r.
Proof. revert r. induction errors as [|e errors IH]; intros r; [done|]. simpl. by rewrite IH. Qed.
Lemma validated_plan fuel graph r : validate_graph stod registry probe fuel graph = Some r → graph_valid stod registry probe graph →
  ∃ compiled, compile_graph fuel graph = Some compiled ∧ gv_plan r = cr_plan compiled.
Proof.
  intros Hr (Hs&_)%graph_valid_unfold. destruct (sections_spec stod registry probe graph) as (_&O2&F2).
  apply O2, F2 in Hs as (Hd&_). unfold validate_graph, validate_sections in *.
  destruct (validate_lanes (graph_lanes graph) ∅ (header_checks graph empty_validation)) as [lanes r1].
  destruct (compute_component_lifecycle_order graph) as [lo|]; [|done]. cbn [mbind option_bind] in Hr. cbv zeta in Hr.
  unfold compile_checks in Hr. rewrite Hd in Hr. destruct (compile_graph fuel graph) as [compiled|]; [|done].
  cbn [mbind option_bind] in Hr. injection Hr as <-. exists compiled. split; [done|]. by rewrite errors_keep_plan.
Qed.
End plan.
Lemma find_by_id (regions : list CompiledGraphRegion) : NoDup (region_id <$> regions) →
  omap (λ id, List.find (λ r, str_eqb (region_id r) id) regions) (region_id <$> regions) = regions.
Proof.
  intros Hn. assert (∀ l : list CompiledGraphRegion, (∀ r, r ∈ l → r ∈ regions) → omap (λ id, List.find (λ r, str_eqb (region_id r) id) regions) (region_id <$> l) = l) as H;
    [|by apply H]. induction l as [|r l IH]; intros Hl; [done|]. cbn [fmap list_fmap omap list_omap].
  assert (List.find (λ r', str_eqb (region_id r') (region_id r)) regions = Some r) as ->; [|f_equal; apply IH; intros; apply Hl; by right].
  destruct (List.find _ regions) as [r'|] eqn:E.
  - apply find_some in E as [Hin He%str_eqb_eq]. apply list_elem_of_In, list_elem_of_lookup in Hin as [i Hi].
    assert (r ∈ regions) as [j Hj]%list_elem_of_lookup by (apply Hl; left). f_equal.
    assert (i = j) as ->; [|congruence]. eapply NoDup_lookup; [exact Hn|by rewrite list_lookup_fmap, Hi|rewrite list_lookup_fmap, Hj; simpl; by rewrite He].
  - assert (In r regions) as Hin by (apply list_elem_of_In, Hl; left). pose proof (find_none _ _ E r Hin) as Hf. simpl in Hf.
    by rewrite (proj2 (str_eqb_eq _ _) eq_refl) in Hf.
Qed.
Lemma link_region_id e r : region_id (link_region e r) = region_id r.
Proof. done. Qed.
Lemma size_fmap_imap (f : nat → list string → CompiledGraphRegion) (sccs : list (list string)) : (∀ i c, region_components (f i c) = c) →
  sum_list_with (λ region, length (region_components region)) (imap f sccs) = length (mjoin sccs).
Proof.
  revert f. induction sccs as [|c sccs IH]; intros f H; [done|]. rewrite imap_cons. simpl. rewrite H, IH by (intros; apply H).
  by rewrite length_app.
Qed.
Lemma sum_list_perm {A} (f : A → nat) (l l' : list A) : l ≡ₚ l' → sum_list_with f l = sum_list_with f l'.
Proof. induction 1; simpl; lia. Qed.
(** Without loops the regions in order are plain and hold every component once. *)
Lemma plain_plan graph fuel sccs compiled components : graph_sccs graph = Some sccs → NoDup (region_ids graph sccs) → length sccs <= fuel →
  compile_graph fuel graph = Some compiled → graph_composite_loops graph = [] → NoDup (comp_id <$> graph_components graph) →
  (∀ c, c ∈ graph_components graph → comp_id c ≠ EmptyString) → rc_id <$> components = comp_id <$> graph_components graph →
  Forall (plain_region components) (regions_in_order components (cr_plan compiled)) ∧
  plan_size components (cr_plan compiled) = length (graph_components graph).
Proof.
  intros Hs Hn Hf Hc Hl Hd Hne Hids. destruct (graph_sccs_spec graph) as (sccs'&Hs'&C). rewrite Hs in Hs'. simplify_eq.
  set (E := region_edges graph sccs' (region_ids graph sccs')).
  assert (∃ order, order ≡ₚ region_ids graph sccs' ∧ region_order (cr_plan compiled) = order ∧
    plan_regions (cr_plan compiled) = link_region E <$> make_regions graph sccs') as (order&Hp&Ho&Hr).
  { unfold compile_graph in Hc. rewrite Hs in Hc. cbn [mbind option_bind] in Hc.
    change (region_id <$> make_regions graph sccs') with (region_ids graph sccs') in Hc. cbv zeta in Hc. fold E in Hc.
    destruct (order_spec graph sccs' C Hn (region_priority_rank (component_priority graph) (link_region E <$> make_regions graph sccs')) fuel)
      as (order&Hord&[Hp _]&_); [by rewrite length_region_ids|]. fold E in Hord. rewrite Hord in Hc. cbn [mbind option_bind] in Hc.
    injection Hc as <-. rewrite compile_error_if_plan, check_matched_plan, check_regions_plan, check_loops_plan. simpl. by exists order. }
  assert (region_id <$> plan_regions (cr_plan compiled) = region_ids graph sccs') as Hri by (by rewrite Hr, <- list_fmap_compose).
  assert (omap (λ id, List.find (λ r, str_eqb (region_id r) id) (plan_regions (cr_plan compiled))) order ≡ₚ plan_regions (cr_plan compiled)) as Hperm.
  { rewrite Hp, <- Hri. rewrite find_by_id; [done|]. by rewrite Hri. }
  assert (length (mjoin sccs') = length (graph_components graph)) as Hlen.
  { rewrite <- (length_fmap comp_id). apply Permutation_length. apply NoDup_Permutation; [apply C|done|]. intros x.
    rewrite (co_members _ _ C). unfold component_ids. rewrite elem_of_collect_ids, list_elem_of_fmap. split.
    - intros (_&_&c&Hx&<-). by exists c.
    - intros (c&->&Hx). split; [by apply Hne|]. split; [apply not_elem_of_empty|by exists c]. }
  unfold plan_size, regions_in_order. rewrite Ho. cbv zeta.
  set (ordered := omap (λ id, List.find (λ r, str_eqb (region_id r) id) (plan_regions (cr_plan compiled))) order) in *.
  assert (sum_list_with (λ region, length (region_components region)) ordered = length (graph_components graph)) as Hsum.
  { rewrite (sum_list_perm _ _ _ Hperm), Hr, <- Hlen. unfold make_regions. rewrite fmap_imap. apply size_fmap_imap.
    intros i c. simpl. unfold make_region. by destruct (matching_loop graph c). }
  destruct ordered as [|o os] eqn:Eo.
  - cbn [sum_list_with] in Hsum. destruct components as [|c cs]; [by split|]. exfalso.
    apply (f_equal length) in Hids. rewrite !length_fmap in Hids. simpl in Hids. lia.
  - split; [|exact Hsum]. apply Forall_forall. intros region Hin. rewrite Hperm, Hr in Hin.
    apply list_elem_of_fmap in Hin as (r1&->&(i&c&->&Hi)%elem_of_lookup_imap). unfold plain_region. simpl.
    assert (matching_loop graph c = None) as Hm by (unfold matching_loop; by rewrite Hl).
    unfold make_region. rewrite Hm. simpl. split; [done|]. intros id Hid. unfold component_for_id.
    destruct (List.find _ components) as [rc|] eqn:Ef; [by eexists|]. exfalso.
    assert (id ∈ rc_id <$> components) as Hrc.
    { rewrite Hids. assert (id ∈ mjoin sccs') as Hj by (apply list_elem_of_join; exists c; split; [done|by eapply list_elem_of_lookup_2]).
      apply (co_members _ _ C) in Hj. unfold component_ids in Hj. rewrite elem_of_collect_ids in Hj. destruct Hj as (_&_&x&Hx&<-).
      apply list_elem_of_fmap. by exists x. }
    apply list_elem_of_fmap in Hrc as (rc&->&Hrc). apply list_elem_of_In in Hrc. pose proof (find_none _ _ Ef rc Hrc) as Hf'. simpl in Hf'.
    by rewrite (proj2 (str_eqb_eq _ _) eq_refl) in Hf'.
Qed.

(** ** The whole call *)
Lemma finish_live_calls compiled_in now ids s r : out_tick_calls (snd (finish_live_observe compiled_in now ids s r)) = out_tick_calls r.
Proof.
  unfold finish_live_observe. destruct (session_enabled _ _); [|done]. cbv zeta. cbn [negb].
  destruct (session_drain _ _ _) as [s1 drained]. destruct (session_take_drop_summary _ _ _ _) as [s2 summary]. cbn [snd].
  assert (∀ name n r, out_tick_calls (append_if_set name n r) = out_tick_calls r) as H by (intros name n r'; unfold append_if_set; by destruct (n =? 0)%Z).
  change (out_tick_calls (count_metric_samples ?x)) with (out_tick_calls x). rewrite H. by destruct summary.
Qed.
(** A plain run: nothing is restored, reset, captured or observed, and only the iterations bound it. *)
Record plain_options (options : RuntimeRunnerOptions) : Prop := {
  po_mode : opt_mode options = kRun; po_restore : opt_restore_component_states options = ∅; po_reset : opt_reset_component_ids options = [];
  po_snapshots : opt_capture_component_state_snapshots options = false; po_duration : opt_run_duration_ms options = 0%Z;
  po_idle : opt_run_until_idle options = false; po_observers : opt_observers options = [] }.
Section whole.
Context (env : RunnerEnvironment) (registry : ComponentRegistry ComponentFactory) (compile_fuel : nat).
Context (graph : GraphSpec) (options : RuntimeRunnerOptions) (sccs : list (list string)).
Abbreviation valid := (graph_valid (env_stod env) (Some registry) factory_probe graph).
Lemma finish_plain session r log : opt_observers options = [] → ∃ o, finish_result env graph options session r log = Some o ∧
  out_ok (outcome_result o) = out_ok r ∧ out_runtime_errors (outcome_result o) = out_runtime_errors r ∧
  out_tick_calls (outcome_result o) = out_tick_calls r ∧ outcome_log o = log.
Proof.
  intros Ho. unfold finish_result. rewrite Ho. cbv zeta. unfold notify_runtime_observers. eexists. split; [reflexivity|].
  cbn [outcome_result outcome_log]. destruct (finish_live_verdict (env_live_compiled_in env) (env_live_clock env) (make_live_id_maps graph) session r) as [-> ->].
  by rewrite finish_live_calls.
Qed.
Lemma quiet_run_ends : graph_sccs graph = Some sccs → NoDup (region_ids graph sccs) → length sccs <= compile_fuel → valid →
  graph_composite_loops graph = [] → (∀ c, c ∈ graph_components graph → calm_spec env registry graph c) →
  (∀ moment, env_stop_token env moment = false) → plain_options options →
  ∃ n o, (∀ fuel, n <= fuel → run_graph env registry compile_fuel fuel graph options = Some o) ∧ out_ok (outcome_result o) = true ∧
    out_runtime_errors (outcome_result o) = [] ∧
    out_tick_calls (outcome_result o) = Nat.max 1 (opt_tick_iterations options) * length (graph_components graph).
Proof.
  intros Hs Hn Hf Hv Hl Hc Hstop [P1 P2 P3 P4 P5 P6 P7].
  destruct (validation_spec (env_stod env) (Some registry) factory_probe compile_fuel graph sccs Hs Hn Hf) as (v&Ev&_&Hok).
  apply Hok in Hv as Hgv. destruct (validated_plan _ _ _ _ _ _ Ev Hv) as (compiled&Ec&Ep).
  set (r0 := initial_runner_result <| out_graph_name := graph_name graph |> <| out_component_count := length (graph_components graph) |>
    <| out_channel_count := length (graph_edges graph) |> <| out_validation := v |>).
  destruct (run_components_calm env registry graph options Hc v P2 P3 P4 P5 P6 Hstop) with (r := r0) as (n&r&log&E&H1&H2&H3); [|apply initial_calm|done|done|].
  { intros components Hids. rewrite Ep. destruct (gva_components _ _ _ _ Hv) as [Hd Hne].
    apply (plain_plan graph compile_fuel sccs); [done..|intros c Hin; by apply Hne|done]. }
  destruct (finish_plain (publish_all (env_live_compiled_in env) [make_live_event (env_live_clock env) kRunStarted 0 0]
    (LiveObserveSession_new (opt_live_observe options))) r log P7) as (o&Eo&O1&O2&O3&_).
  exists n, o. split; [|by rewrite O1, O2, O3, H1, H2, H3]. intros fuel Hfu. unfold run_graph, run_mode. rewrite Ev, Hgv, P1. cbn [negb].
  fold r0. rewrite E by done. exact Eo.
Qed.
(** A graph that is not valid ends before anything runs. *)
Lemma invalid_run_ends : graph_sccs graph = Some sccs → NoDup (region_ids graph sccs) → length sccs <= compile_fuel → ¬ valid →
  opt_observers options = [] → ∃ o, (∀ fuel, run_graph env registry compile_fuel fuel graph options = Some o) ∧
    out_ok (outcome_result o) = false ∧ out_runtime_errors (outcome_result o) ≠ [] ∧ outcome_log o = [].
Proof.
  intros Hs Hn Hf Hv Ho.
  destruct (validation_spec (env_stod env) (Some registry) factory_probe compile_fuel graph sccs Hs Hn Hf) as (v&Ev&Hw&Hok).
  assert (gv_ok v = false) as Hgv by (destruct (gv_ok v) eqn:E; [by destruct Hv; apply Hok|done]).
  set (r0 := initial_runner_result <| out_graph_name := graph_name graph |> <| out_component_count := length (graph_components graph) |>
    <| out_channel_count := length (graph_edges graph) |> <| out_validation := v |>).
  destruct (finish_plain (publish_all (env_live_compiled_in env) [make_live_event (env_live_clock env) kRunStarted 0 0]
    (LiveObserveSession_new (opt_live_observe options))) (invalid_result v r0) [] Ho) as (o&Eo&O1&O2&_&O3).
  destruct (reported_errors "validate" "validation" (gv_errors v) (r0 <| out_ok := false |>)) as [R1 R2].
  exists o. split; [|split; [|split; [|exact O3]]].
  - intros fuel. unfold run_graph, run_mode. rewrite Ev, Hgv. cbn [negb]. exact Eo.
  - rewrite O1. unfold invalid_result. by rewrite R1.
  - rewrite O2. unfold invalid_result. rewrite R2. pose proof (wr_ok _ Hw) as Hx. rewrite Hgv in Hx.
    destruct (gv_errors v); [exfalso; destruct Hx as [_ Hx]; by specialize (Hx eq_refl)|done].
Qed.
End whole.

(** ** A quiet run *)
Definition calm_code : RunnerComponent :=
  mkRunnerComponent (mkCode (fun _ _ _ => Call (CReadConfig "a") (fun _ => Returns status_success)) (fun _ _ => inr status_success) (fun _ _ => Returns status_success))
    (fun _ _ => Returns status_success) (fun _ => inr status_success) (fun _ => Throws "reset") (fun _ _ => inl "restore") (fun _ => inl "snapshot")
    (fun _ => inr status_success).
Definition calm_registry : ComponentRegistry ComponentFactory :=
  mkRegistry {["t" := mkRegistration "t" "" "" true true true]} {["t" := mkFactory (inr small_descriptor) (fun _ => inr (Some calm_code))]}.
Definition calm_options : RuntimeRunnerOptions := mkRunnerOptions kRun 3 0 false true 8 [] ∅ false (mkObserveOptions kOff 4 1) [].
