(* ===== verification/CApi.v ===== *)
(** * CApi: the graph builder and the C interface

    Models [include/topoexec/runtime/graph_builder.hpp]: the builder, which appends to the lists of a graph, and the functions
    that fill in the parts of a graph from their defaults; and [src/c_api.cpp]: handles for a runtime, a graph builder and a
    result, over the graph builder and the runner.  A pointer is an [option], [None] the null pointer; a C string is an
    [option string].  Running out of memory is not modelled; it is what the [catch] clauses of the builder functions are for. *)

From S2P Require Export GraphSpec ComponentBase.
Local Open Scope nat_scope.

#[export] Instance eta_GraphSpec : Eta GraphSpec := fun g =>
  mkGraph (graph_schema_version g) (graph_name g) (graph_kind g) (graph_clock g) (graph_config g) (graph_lanes g) (graph_components g)
    (graph_edges g) (graph_composite_loops g) (graph_hierarchy g).
(** A lane with the default member initialisers of [LaneSpec]. *)
Definition default_lane (id type : string) : LaneSpec :=
  mkLane id type (QArith_base.inject_Z 0) "" 0 0 0 "reject" false 0 0 "drop_tick" "" [] 0 "none" 0 "none".
Definition empty_graph (name kind : string) : GraphSpec :=
  mkGraph kTopoExecSchemaVersion name kind (mkClockPolicy "steady" "steady") empty_config [] [] [] [] [].

(** ** The builder *)
Record GraphBuilder := mkBuilder { builder_graph : GraphSpec }.
Definition GraphBuilder_new (name kind : string) : GraphBuilder := mkBuilder (empty_graph name kind).
Definition builder_lane (lane : LaneSpec) (b : GraphBuilder) : GraphBuilder :=
  mkBuilder ((builder_graph b) <| graph_lanes ::= fun l => l ++ [lane] |>).
Definition builder_event_loop_lane (id : string) : GraphBuilder → GraphBuilder := builder_lane (default_lane id "event_loop").
Definition builder_component (component : ComponentNodeSpec) (b : GraphBuilder) : GraphBuilder :=
  mkBuilder ((builder_graph b) <| graph_components ::= fun l => l ++ [component] |>).
Definition builder_edge (edge : EdgeSpec) (b : GraphBuilder) : GraphBuilder :=
  mkBuilder ((builder_graph b) <| graph_edges ::= fun l => l ++ [edge] |>).
Definition builder_composite_loop (loop : CompositeLoopSpec) (b : GraphBuilder) : GraphBuilder :=
  mkBuilder ((builder_graph b) <| graph_composite_loops ::= fun l => l ++ [loop] |>).
Definition build (b : GraphBuilder) : GraphSpec := builder_graph b.

(** ** The parts *)
Definition manual_event_source : EventSourceSpec := mkEventSource "" "manual" [] "" 0.
Definition message_event_source (inputs : list string) : EventSourceSpec := mkEventSource "" "message" inputs "" 0.
Definition policy_of (type : string) (inputs : list string) : TriggerPolicySpec :=
  mkTriggerPolicy type inputs "" 0 0 0 0 0 0 0 "all_inputs_ready" false.
Definition manual_trigger : TriggerPolicySpec := policy_of "manual" [].
Definition any_input_trigger (inputs : list string) : TriggerPolicySpec := policy_of "any_input" inputs.
Definition lane_execution (lane_id : string) : ExecutionSpec := mkExecution lane_id false "normal" 0 "fail_fast".
(** [boundary] is the pair of the role and the descriptor; by default that of a processing component. *)
Definition component_node (id type : string) (sources : list EventSourceSpec) (trigger : TriggerPolicySpec) (execution : ExecutionSpec)
    (boundary : ComponentRole * string) : ComponentNodeSpec :=
  mkComponentNode id type sources trigger execution [] boundary.1 boundary.2 empty_config.
Definition no_boundary : ComponentRole * string := (kProcessing, "").
Definition latest_shared_policy : EdgePolicySpec :=
  mkEdgePolicy "latest" 1 "overwrite" 0 0 0 true true true "steady" "shared_view" "runtime" "single".
Definition immediate_edge (id from to : string) (policy : EdgePolicySpec) : EdgeSpec := mkEdge id from to kImmediate true "" policy.

(** ** Chains of calls *)
Inductive BuilderCall :=
| BLane (lane : LaneSpec) | BEventLoopLane (id : string) | BComponent (component : ComponentNodeSpec) | BEdge (edge : EdgeSpec)
| BCompositeLoop (loop : CompositeLoopSpec).
Definition builder_call (b : GraphBuilder) (call : BuilderCall) : GraphBuilder :=
  match call with
  | BLane lane => builder_lane lane b | BEventLoopLane id => builder_event_loop_lane id b
  | BComponent component => builder_component component b | BEdge edge => builder_edge edge b
  | BCompositeLoop loop => builder_composite_loop loop b
  end.
Definition lanes_called (calls : list BuilderCall) : list LaneSpec :=
  omap (λ c, match c with BLane l => Some l | BEventLoopLane id => Some (default_lane id "event_loop") | _ => None end) calls.
Definition components_called (calls : list BuilderCall) : list ComponentNodeSpec :=
  omap (λ c, match c with BComponent c => Some c | _ => None end) calls.
Definition edges_called (calls : list BuilderCall) : list EdgeSpec := omap (λ c, match c with BEdge e => Some e | _ => None end) calls.
Definition loops_called (calls : list BuilderCall) : list CompositeLoopSpec :=
  omap (λ c, match c with BCompositeLoop l => Some l | _ => None end) calls.
(** What is built holds the lanes, components, edges and loops of the calls, each in the order of the calls, whatever the
    order between kinds: nothing is checked, merged or dropped here. *)
Lemma build_collects name kind calls :
  build (fold_left builder_call calls (GraphBuilder_new name kind)) =
  (empty_graph name kind) <| graph_lanes := lanes_called calls |> <| graph_components := components_called calls |>
    <| graph_edges := edges_called calls |> <| graph_composite_loops := loops_called calls |>.
Proof.
  induction calls as [|call calls IH] using rev_ind; [done|]. rewrite fold_left_app. cbn [fold_left].
  unfold build in *. unfold lanes_called, components_called, edges_called, loops_called in *. rewrite !omap_app.
  destruct call; cbn [builder_call builder_lane builder_event_loop_lane builder_component builder_edge builder_composite_loop builder_graph omap list_omap];
    rewrite ?app_nil_r; unfold builder_event_loop_lane, builder_lane; cbn [builder_graph]; by rewrite IH.
Qed.
(** So a graph without hierarchy and configuration can be built by calls. *)
Lemma build_reaches graph : graph_schema_version graph = kTopoExecSchemaVersion → graph_clock graph = mkClockPolicy "steady" "steady" →
  graph_config graph = empty_config → graph_hierarchy graph = [] →
  build (fold_left builder_call ((BLane <$> graph_lanes graph) ++ (BComponent <$> graph_components graph) ++ (BEdge <$> graph_edges graph) ++
    (BCompositeLoop <$> graph_composite_loops graph)) (GraphBuilder_new (graph_name graph) (graph_kind graph))) = graph.
Proof.
  intros H1 H2 H3 H4. rewrite build_collects. unfold lanes_called, components_called, edges_called, loops_called. rewrite !omap_app.
  assert (∀ A B C (f : A → B) (g : B → option C) l, (∀ a, g (f a) = None) → omap g (f <$> l) = []) as Hnone.
  { intros A B C f g l H. induction l as [|a l IH]; [done|]. cbn. by rewrite H. }
  assert (∀ A B (f : A → B) (g : B → option A) (l : list A), (∀ a, g (f a) = Some a) → omap g (f <$> l) = l) as Hsome.
  { intros A B f g l H. induction l as [|a l IH]; [done|]. cbn. rewrite H. f_equal. exact IH. }
  rewrite !Hsome, !Hnone, !app_nil_r by done.
  destruct graph; simpl in *. by subst.
Qed.

Definition kNoopComponentType : string := "topoexec.c_api.Noop".

(** ** The component and its registry *)
Definition noop_descriptor : ComponentDescriptor := mkComponentDescriptor kNoopComponentType "" kProcessing "" [] [] [] "".
Definition CApiNoopComponent : ComponentClass :=
  mkClass (fun _ _ => Returns status_success) None None (Some (fun _ _ _ => Returns status_success)) None None None None None None None.
Definition make_c_api_registry : ComponentRegistry ComponentFactory :=
  match register_component empty_registry (mkRegistration kNoopComponentType "1" "0.1.0" true false true)
      (Some (class_factory (inr noop_descriptor) (fun _ => CApiNoopComponent))) with
  | inl _ => empty_registry
  | inr (registry, _) => registry
  end.

(** ** Handles *)
Inductive topoexec_status_code := TOPOEXEC_STATUS_OK | TOPOEXEC_STATUS_ERROR.
Record topoexec_metric_sample := mkCSample {
  c_name : string; c_value : Double; c_component_id : string; c_lane : string; c_channel_id : string }.
Record topoexec_runtime := mkCRuntime { rt_registry : ComponentRegistry ComponentFactory; rt_last_error : string }.
Record topoexec_graph_builder := mkCBuilder { gb_graph : GraphSpec; gb_last_error : string }.
Record topoexec_result := mkCResult { rs_result : RuntimeRunnerResult; rs_last_error : string }.
Definition stable_c_str (value : string) : string := if str_empty value then "" else value.
Definition set_error (message : option string) : string := default "unknown C API error" message.
(** Null, or the empty string. *)
Definition no_text (text : option string) : bool := match text with None => true | Some s => str_empty s end.

(** ** Runtimes and builders *)
Definition topoexec_runtime_create : option topoexec_runtime := Some (mkCRuntime make_c_api_registry "").
Definition topoexec_runtime_last_error (runtime : option topoexec_runtime) : string :=
  match runtime with None => "topoexec_runtime is null" | Some r => stable_c_str (rt_last_error r) end.
Definition topoexec_graph_builder_create (graph_name : option string) : option topoexec_graph_builder :=
  match graph_name with
  | None => None
  | Some name => if str_empty name then None else Some (mkCBuilder (build (GraphBuilder_new name "internal_test")) "")
  end.
Definition topoexec_graph_builder_last_error (builder : option topoexec_graph_builder) : string :=
  match builder with None => "topoexec_graph_builder is null" | Some b => stable_c_str (gb_last_error b) end.
Definition refuse (b : topoexec_graph_builder) (message : string) : option topoexec_graph_builder * topoexec_status_code :=
  (Some (mkCBuilder (gb_graph b) (set_error (Some message))), TOPOEXEC_STATUS_ERROR).
Definition topoexec_graph_builder_add_event_loop_lane (builder : option topoexec_graph_builder) (lane_id : option string)
    : option topoexec_graph_builder * topoexec_status_code :=
  match builder with
  | None => (None, TOPOEXEC_STATUS_ERROR)
  | Some b =>
      if no_text lane_id then refuse b "lane_id is required" else
      let lane := default_lane (default "" lane_id) "event_loop" in
      (Some (mkCBuilder ((gb_graph b) <| graph_lanes ::= fun l => l ++ [lane] |>) ""), TOPOEXEC_STATUS_OK)
  end.
Definition noop_node (component_id lane_id : string) : ComponentNodeSpec :=
  component_node component_id kNoopComponentType [manual_event_source] manual_trigger (lane_execution lane_id) no_boundary.
Definition topoexec_graph_builder_add_noop_component (builder : option topoexec_graph_builder) (component_id lane_id : option string)
    : option topoexec_graph_builder * topoexec_status_code :=
  match builder with
  | None => (None, TOPOEXEC_STATUS_ERROR)
  | Some b =>
      if no_text component_id then refuse b "component_id is required" else
      if no_text lane_id then refuse b "lane_id is required" else
      let component := noop_node (default "" component_id) (default "" lane_id) in
      (Some (mkCBuilder ((gb_graph b) <| graph_components ::= fun l => l ++ [component] |>) ""), TOPOEXEC_STATUS_OK)
  end.

(** ** Runs *)
Section run.
Context (env : RunnerEnvironment) (compile_fuel fuel : nat).
Definition c_api_options (tick_iterations : nat) : RuntimeRunnerOptions :=
  mkRunnerOptions kRun tick_iterations 0 false true (Z.of_nat kDefaultHealthEventCapacity) [] ∅ false (mkObserveOptions kOff 1024 0) [].
(** [None]: the run does not end within the fuel. *)
Definition topoexec_runtime_run (runtime : option topoexec_runtime) (builder : option topoexec_graph_builder) (tick_iterations : nat)
    : option (option topoexec_runtime * option topoexec_result) :=
  match runtime, builder with
  | Some rt, Some b =>
      match run_graph env (rt_registry rt) compile_fuel fuel (gb_graph b) (c_api_options tick_iterations) with
      | None => None
      | Some o =>
          let result := outcome_result o in
          let last_error := match out_runtime_errors result with
            | [] => "" | e :: _ => if out_ok result then "" else err_message e end in
          Some (Some (mkCRuntime (rt_registry rt) last_error), Some (mkCResult result ""))
      end
  | _, _ => Some (runtime, None)
  end.
End run.

(** ** Results *)
Definition topoexec_result_ok (result : option topoexec_result) : Z :=
  match result with Some r => if out_ok (rs_result r) then 1 else 0 | None => 0 end.
Definition topoexec_result_error_count (result : option topoexec_result) : nat :=
  match result with None => 0 | Some r => length (out_runtime_errors (rs_result r)) end.
Definition topoexec_result_error_at (result : option topoexec_result) (index : nat) : string :=
  match result with
  | None => ""
  | Some r => match out_runtime_errors (rs_result r) !! index with None => "" | Some e => stable_c_str (err_message e) end
  end.
Definition topoexec_result_metric_count (result : option topoexec_result) : nat :=
  match result with None => 0 | Some r => length (out_runtime_metrics (rs_result r)) end.
Definition c_sample (m : RuntimeMetricSample) : topoexec_metric_sample :=
  mkCSample (stable_c_str (sample_name m)) (sample_value m) (stable_c_str (sample_component_id m)) (stable_c_str (sample_lane m))
    (stable_c_str (sample_channel_id m)).
(** The sample that [out_metric] points to is written on success only. *)
Definition topoexec_result_metric_at (result : option topoexec_result) (index : nat) (out_metric : option topoexec_metric_sample)
    : option topoexec_metric_sample * topoexec_status_code :=
  match result, out_metric with
  | Some r, Some _ =>
      match out_runtime_metrics (rs_result r) !! index with
      | None => (out_metric, TOPOEXEC_STATUS_ERROR)
      | Some m => (Some (c_sample m), TOPOEXEC_STATUS_OK)
      end
  | _, _ => (out_metric, TOPOEXEC_STATUS_ERROR)
  end.
Lemma stable_c_str_id s : stable_c_str s = s.
Proof. by destruct s. Qed.
(** The indices below the counts are the ones that can be read. *)
Lemma metric_at_exact r index m : topoexec_result_metric_at (Some r) index (Some m) =
  match out_runtime_metrics (rs_result r) !! index with
  | Some s => (Some (mkCSample (sample_name s) (sample_value s) (sample_component_id s) (sample_lane s) (sample_channel_id s)), TOPOEXEC_STATUS_OK)
  | None => (Some m, TOPOEXEC_STATUS_ERROR)
  end.
Proof. unfold topoexec_result_metric_at, c_sample. destruct (_ !! index); [|done]. by rewrite !stable_c_str_id. Qed.
Lemma metric_at_ok r index m : (topoexec_result_metric_at (Some r) index (Some m)).2 = TOPOEXEC_STATUS_OK ↔
  index < topoexec_result_metric_count (Some r).
Proof.
  rewrite metric_at_exact. cbn [topoexec_result_metric_count]. rewrite <- lookup_lt_is_Some.
  destruct (_ !! index); simpl; split; [by eexists|done|done|by intros []].
Qed.
