(* ===== verification/CApiFacts.v ===== *)
(** * CApiFacts: what the C interface builds and runs

    The calls of a C builder are calls of the graph builder; the graph they build is valid exactly when the names fit; and
    the interface runs it accordingly. *)

From S2P Require Export CApi QuietRunner.
Local Open Scope nat_scope.

(** ** The builder *)
Inductive CBuilderCall := CAddLane (lane_id : option string) | CAddNoop (component_id lane_id : option string).
Definition c_builder_call (call : CBuilderCall) (builder : option topoexec_graph_builder) : option topoexec_graph_builder * topoexec_status_code :=
  match call with
  | CAddLane lane_id => topoexec_graph_builder_add_event_loop_lane builder lane_id
  | CAddNoop component_id lane_id => topoexec_graph_builder_add_noop_component builder component_id lane_id
  end.
Definition c_builder_calls (calls : list CBuilderCall) (builder : option topoexec_graph_builder) : option topoexec_graph_builder :=
  fold_left (λ b call, (c_builder_call call b).1) calls builder.
(** The call of the graph builder that an accepted call stands for, or the message of a refusal. *)
Definition builder_call_of (call : CBuilderCall) : string + BuilderCall :=
  match call with
  | CAddLane lane_id => if no_text lane_id then inl "lane_id is required" else inr (BEventLoopLane (default "" lane_id))
  | CAddNoop component_id lane_id =>
      if no_text component_id then inl "component_id is required" else
      if no_text lane_id then inl "lane_id is required" else inr (BComponent (noop_node (default "" component_id) (default "" lane_id)))
  end.
Definition accepted_calls (calls : list CBuilderCall) : list BuilderCall :=
  omap (λ c, match builder_call_of c with inl _ => None | inr b => Some b end) calls.
Definition last_message (calls : list CBuilderCall) : string :=
  match last calls with Some c => match builder_call_of c with inl message => message | inr _ => "" end | None => "" end.
Definition c_built (name : string) (calls : list CBuilderCall) : GraphSpec :=
  build (fold_left builder_call (accepted_calls calls) (GraphBuilder_new name "internal_test")).
Lemma c_call_exact b call : c_builder_call call (Some b) =
  match builder_call_of call with
  | inl message => (Some (mkCBuilder (gb_graph b) message), TOPOEXEC_STATUS_ERROR)
  | inr bc => (Some (mkCBuilder (build (builder_call (mkBuilder (gb_graph b)) bc)) ""), TOPOEXEC_STATUS_OK)
  end.
Proof. by destruct call as [[[|? ?]|]|[[|? ?]|] [[|? ?]|]]. Qed.
Lemma c_builder_refines name calls : str_empty name = false →
  c_builder_calls calls (topoexec_graph_builder_create (Some name)) = Some (mkCBuilder (c_built name calls) (last_message calls)).
Proof.
  intros Hn. unfold topoexec_graph_builder_create. rewrite Hn. induction calls as [|call calls IH] using rev_ind; [done|].
  unfold c_builder_calls in *. rewrite fold_left_app, IH. cbn [fold_left]. rewrite c_call_exact.
  unfold last_message. rewrite last_snoc. unfold c_built, accepted_calls. rewrite omap_app, fold_left_app. cbn [omap list_omap].
  destruct (builder_call_of call); [done|]. cbn [fold_left fst gb_graph]. by destruct (fold_left _ _ _).
Qed.

(** ** What is built *)
Definition given (text : option string) : option string := match text with Some s => if str_empty s then None else Some s | None => None end.
Definition lanes_added (calls : list CBuilderCall) : list string := omap (λ c, match c with CAddLane id => given id | _ => None end) calls.
Definition nodes_added (calls : list CBuilderCall) : list (string * string) :=
  omap (λ c, match c with CAddNoop c l => match given c, given l with Some c, Some l => Some (c, l) | _, _ => None end | _ => None end) calls.
Lemma c_built_parts name calls : c_built name calls =
  (empty_graph name "internal_test") <| graph_lanes := (λ id, default_lane id "event_loop") <$> lanes_added calls |>
    <| graph_components := (λ p, noop_node p.1 p.2) <$> nodes_added calls |>.
Proof.
  unfold c_built. rewrite build_collects.
  assert (lanes_called (accepted_calls calls) = (λ id, default_lane id "event_loop") <$> lanes_added calls ∧
    components_called (accepted_calls calls) = (λ p, noop_node p.1 p.2) <$> nodes_added calls ∧
    edges_called (accepted_calls calls) = [] ∧ loops_called (accepted_calls calls) = []) as (->&->&->&->); [|done].
  unfold accepted_calls, lanes_added, nodes_added, lanes_called, components_called, edges_called, loops_called.
  induction calls as [|call calls (H1&H2&H3&H4)]; [done|]. destruct call as [[[|? ?]|]|[[|? ?]|] [[|? ?]|]]; cbn in *; rewrite ?H1, ?H2; auto.
Qed.
Lemma given_spec text s : given text = Some s ↔ text = Some s ∧ s ≠ "".
Proof. destruct text as [[|a t]|]; simpl; naive_solver. Qed.
Lemma lanes_added_named calls id : id ∈ lanes_added calls → id ≠ "".
Proof. intros (c&_&E)%list_elem_of_omap. destruct c; [|done]. by apply given_spec in E as [_ ?]. Qed.
Lemma nodes_added_named calls p : p ∈ nodes_added calls → p.1 ≠ "" ∧ p.2 ≠ "".
Proof.
  intros (c&_&E)%list_elem_of_omap. destruct c as [|c l]; [done|]. destruct (given c) eqn:Ec, (given l) eqn:El; simplify_eq.
  apply given_spec in Ec as [_ ?]. by apply given_spec in El as [_ ?].
Qed.
(** Names that the validation accepts: no lane twice, no component twice, and every lane of a component added. *)
Record names_fit (calls : list CBuilderCall) : Prop := {
  nf_lanes : NoDup (lanes_added calls); nf_nodes : NoDup (nodes_added calls).*1;
  nf_declared : ∀ p, p ∈ nodes_added calls → p.2 ∈ lanes_added calls }.

Section built.
Context (name : string) (calls : list CBuilderCall).
Abbreviation graph := (c_built name calls).
Lemma built_lanes : lane_id <$> graph_lanes graph = lanes_added calls.
Proof. rewrite c_built_parts. simpl. rewrite <- list_fmap_compose. apply list_fmap_id. Qed.
Lemma built_ids : comp_id <$> graph_components graph = (nodes_added calls).*1.
Proof. rewrite c_built_parts. simpl. by rewrite <- list_fmap_compose. Qed.
Lemma built_edges : graph_edges graph = [].
Proof. by rewrite c_built_parts. Qed.
Lemma built_loops : graph_composite_loops graph = [].
Proof. by rewrite c_built_parts. Qed.
Lemma built_component c : c ∈ graph_components graph → ∃ p, p ∈ nodes_added calls ∧ c = noop_node p.1 p.2.
Proof. rewrite c_built_parts. simpl. intros (p&->&Hp)%list_elem_of_fmap. by exists p. Qed.
Lemma built_component_in p : p ∈ nodes_added calls → noop_node p.1 p.2 ∈ graph_components graph.
Proof. rewrite c_built_parts. simpl. intros Hp. apply list_elem_of_fmap. by exists p. Qed.
Lemma built_lane l : l ∈ graph_lanes graph → ∃ id, id ∈ lanes_added calls ∧ l = default_lane id "event_loop".
Proof. rewrite c_built_parts. simpl. intros (id&->&Hid)%list_elem_of_fmap. by exists id. Qed.
Lemma no_immediate x y : ¬ immediate graph x y.
Proof. intros (e&He&_). rewrite built_edges in He. by apply elem_of_nil in He. Qed.
Lemma no_same_cycle x y : ¬ same_cycle graph x y.
Proof. intros [H _]. destruct H as [? ? H|? ? ? H _]; by apply no_immediate in H. Qed.
(** Every component is a region of its own. *)
Lemma nodes_added_length : length (nodes_added calls) <= length calls.
Proof. unfold nodes_added. induction calls as [|c l IH]; [done|]. cbn. destruct c as [|c' l']; [|destruct (given c'), (given l')]; simpl; lia. Qed.
Lemma built_sccs : ∃ sccs, graph_sccs graph = Some sccs ∧ NoDup (region_ids graph sccs) ∧ length sccs <= length calls.
Proof.
  destruct (graph_sccs_spec graph) as (sccs&Hs&[H1 H2 H3 H4]). exists sccs. split; [done|].
  assert (∀ c, c ∈ sccs → ∃ x, c = [x]) as Hone.
  { intros c Hc. destruct (H1 c Hc) as (Hne&_&Hr). destruct c as [|x [|y c]]; [done|by exists x|].
    assert (x ≠ y) as Hxy.
    { assert (NoDup (x :: y :: c)) as Hn.
      { apply list_elem_of_lookup in Hc as [i Hi]. clear -H2 Hi. revert i Hi. induction sccs as [|c' sccs IH]; [done|].
        cbn in H2. apply NoDup_app in H2 as (Hd&_&Hd2). intros [|i] Hi; simplify_eq/=; [done|by eapply IH]. }
      apply NoDup_cons in Hn as [Hn _]. intros ->. apply Hn. left. }
    assert (y ∈ x :: y :: c) as Hy by (right; left). apply (Hr x) in Hy as [Hy _]; [|left].
    exfalso. inversion Hy as [|? z ? Hz _]; subst; [done|]. by apply immediate_edges_spec, no_immediate in Hz. }
  assert (region_ids graph sccs = mjoin sccs) as Hids.
  2: { rewrite Hids. split; [done|]. rewrite <- (length_region_ids graph sccs), Hids. etransitivity; [|apply nodes_added_length].
    rewrite <- (length_fmap fst). apply submseteq_length, NoDup_submseteq; [done|]. intros x Hx. apply H3 in Hx. rewrite <- built_ids.
    unfold component_ids in Hx. rewrite elem_of_collect_ids in Hx. destruct Hx as (_&_&c&Hc&<-). apply list_elem_of_fmap. by exists c. }
  unfold region_ids, make_regions. generalize 0. clear -Hone. intros n. revert n.
  enough (∀ n, region_id <$> imap (λ i, make_region graph (n + i)) sccs = mjoin sccs) as H by (intros n; exact (H 0)).
  induction sccs as [|c sccs IH]; intros n; [done|]. rewrite imap_cons. cbn [fmap list_fmap]. destruct (Hone c) as [x ->]; [left|].
  change (mjoin ([x] :: sccs)) with (x :: mjoin sccs). f_equal.
  - unfold make_region, matching_loop. by rewrite built_loops.
  - rewrite <- (IH ltac:(intros c' Hc'; apply Hone; by right) (S n)). f_equal. apply imap_ext. intros i y _. simpl. f_equal. lia.
Qed.
End built.

(** ** Which graphs are valid *)
Section valid.
Context (stod : string → option (Double * nat)) (name : string) (calls : list CBuilderCall).
Abbreviation graph := (c_built name calls).
Abbreviation registry := (Some make_c_api_registry).
Lemma describe_noop p : describe registry factory_probe (noop_node p.1 p.2) = Some noop_descriptor.
Proof. reflexivity. Qed.
Lemma noop_declared lanes p : p.1 ≠ "" → p.2 ∈ lanes → component_declared stod registry factory_probe lanes (noop_node p.1 p.2).
Proof.
  intros H1 H2. split; [done|]. split.
  - split; [done|]. split; [done|]. split; [done|]. split; [done|]. split; [done|]. split.
    + intros s ->%list_elem_of_singleton. by split_and!.
    + unfold trigger_ok. simpl. split_and!; done.
  - intros _. exists noop_descriptor. split; [apply describe_noop|]. unfold descriptor_ok. simpl. split; [done|]. split; [done|].
    split; [done|]. intros field []%elem_of_nil.
Qed.
Lemma built_descriptor id d : graph_descriptors registry factory_probe graph !! id = Some d → d = noop_descriptor.
Proof.
  unfold graph_descriptors. assert (∀ c, c ∈ graph_components graph → ∃ p, c = noop_node p.1 p.2) as H
    by (intros c (p&_&->)%built_component; by exists p). revert H.
  assert (∀ (m : gmap string ComponentDescriptor), (∀ d, m !! id = Some d → d = noop_descriptor) → ∀ cs, (∀ c, c ∈ cs → ∃ p, c = noop_node p.1 p.2) →
    fold_left (add_description registry factory_probe) cs m !! id = Some d → d = noop_descriptor) as Hfold.
  { intros m Hm cs. revert m Hm. induction cs as [|c cs IH]; intros m Hm Hcs; cbn [fold_left]; [apply Hm|].
    apply IH; [|intros; apply Hcs; by right]. destruct (Hcs c) as [p ->]; [left|]. intros d' E. unfold add_description in E.
    rewrite describe_noop in E. destruct (decide (comp_id (noop_node p.1 p.2) = id)) as [Hid|Hid].
    - rewrite Hid, lookup_insert_eq in E. by injection E as <-.
    - rewrite lookup_insert_ne in E by done. by apply Hm. }
  intros H. apply Hfold; [intros d'; by rewrite lookup_empty|done].
Qed.
Lemma built_valid : name ≠ "" → graph_valid stod registry factory_probe graph ↔ names_fit calls.
Proof.
  intros Hname. split.
  - intros [_ [Hl _] [Hc Hd] _ _ _ _ _ _ _ _ _ _]. rewrite built_lanes in Hl. rewrite built_ids in Hc. split; [done..|].
    intros p Hp. apply (built_component_in name), Hd in Hp as (_&(_&Hin&_)&_). unfold lane_ids in Hin.
    rewrite built_lanes in Hin. by apply elem_of_list_to_set in Hin.
  - intros [Hl Hc Hd]. split.
    + rewrite c_built_parts. split; [done|]. split; [done|]. split; [by right|]. by split.
    + rewrite built_lanes. split; [done|]. intros l (id&Hid%lanes_added_named&->)%built_lane. by split.
    + rewrite built_ids. split; [done|]. intros c (p&Hp&->)%built_component. apply noop_declared; [by eapply nodes_added_named|].
      apply elem_of_list_to_set. rewrite built_lanes. by apply Hd.
    + intros _. rewrite c_built_parts. discriminate.
    + assert (∀ c, c ∈ graph_components graph → depends_on c = []) as Hno by (by intros c (p&_&->)%built_component).
      split; [intros c Hin; rewrite (Hno c Hin); split; [constructor|intros d []%elem_of_nil]|].
      exists (seq 0 (length (graph_components graph))). split; [done|]. intros u v (c&d&Hv&Hin&_).
      apply list_elem_of_lookup_2 in Hv. rewrite (Hno c Hv) in Hin. by apply elem_of_nil in Hin.
    + rewrite built_edges. split; [constructor|]. intros e []%elem_of_nil.
    + rewrite built_edges. intros l1 e0 l2 He. by destruct l1.
    + intros t. rewrite built_edges. simpl. lia.
    + intros c d Hin Hdesc input Hi. apply built_component in Hin as (p&Hp&->).
      assert (d = noop_descriptor) as -> by (eapply built_descriptor; exact Hdesc). by apply elem_of_nil in Hi.
    + intros c input (p&_&->)%built_component []%elem_of_nil.
    + intros l. rewrite built_loops. by intros []%elem_of_nil.
    + rewrite c_built_parts. split; [constructor|]. intros h []%elem_of_nil.
    + split; rewrite ?built_loops; [by intros l []%elem_of_nil|constructor|by intros l []%elem_of_nil| |by intros l1 l2 x []%elem_of_nil].
      intros x Hx. by apply no_same_cycle in Hx.
Qed.
End valid.

(** ** Runs of what is built *)
Lemma lane_config_origin graph id lane : lane_configs graph !! id = Some lane → ∃ l, l ∈ graph_lanes graph ∧ lane = lane_config_from_spec l.
Proof.
  unfold lane_configs. assert (∀ ls (m : gmap string SchedulerGroupConfig), fold_left (λ m lane, <[lane_id lane := lane_config_from_spec lane]> m) ls m !! id = Some lane →
    m !! id = Some lane ∨ ∃ l, l ∈ ls ∧ lane = lane_config_from_spec l) as H.
  { induction ls as [|l ls IH]; intros m; cbn [fold_left]; [by left|]. intros [[[_ <-]|[_ Hm]]%lookup_insert_Some|(l'&Hl&->)]%IH.
    - right. exists l. split; [left|done].
    - by left.
    - right. exists l'. split; [by right|done]. }
  intros [Hx|Hx]%H; [by rewrite lookup_empty in Hx|done].
Qed.
Lemma noop_calm : calm_component (component_of_class CApiNoopComponent).
Proof. split; [done|by eexists|by eexists|]. intros moment i loop. reflexivity. Qed.
Lemma built_calm env name calls c : names_fit calls → c ∈ graph_components (c_built name calls) → calm_spec env make_c_api_registry (c_built name calls) c.
Proof.
  intros [Hl Hn Hd] (p&Hp&->)%built_component. split.
  - eexists. split; [reflexivity|]. intros moment. eexists. split; [reflexivity|apply noop_calm].
  - destruct (lane_configs_found (c_built name calls) (default_lane p.2 "event_loop")) as [lane E].
    { rewrite c_built_parts. apply list_elem_of_fmap. exists p.2. split; [done|by apply Hd]. }
    exists lane. split; [exact E|]. apply lane_config_origin in E as (l&(id&_&->)%built_lane&->). by split.
  - by intros [_ ?].
Qed.

(** ** Runs of the interface *)
Definition c_calls : list CBuilderCall :=
  [CAddLane (Some "main"); CAddNoop (Some "a") (Some "main"); CAddNoop None (Some "main"); CAddNoop (Some "b") (Some "main")].
Definition c_run (calls : list CBuilderCall) : option (Z * nat * string * string) :=
  match topoexec_runtime_run small_environment 9 40 topoexec_runtime_create
      (c_builder_calls calls (topoexec_graph_builder_create (Some "g"))) 3 with
  | Some (rt, result) => Some (topoexec_result_ok result, topoexec_result_error_count result, topoexec_runtime_last_error rt,
                               topoexec_result_error_at result 0)
  | None => None
  end.
Example c_runs : c_run c_calls = Some (1%Z, 0, "", "") ∧
  c_run (c_calls ++ [CAddNoop (Some "a") (Some "main")]) = Some (0%Z, 1, "duplicate component: a", "duplicate component: a").
Proof. vm_compute. by split. Qed.
