(* ===== verification/Plugins.v ===== *)
(** * Plugins: loading component factories from shared libraries

    Models [src/plugin_loader.cpp].  The dynamic linker and the code of the plugin are an argument ([SharedLibrary]): what
    [dlopen] and [dlsym] return, the manifest the plugin hands out, and what its register function does to the registry.
    C strings are optional; an array of descriptors that is shorter than its count is undefined behaviour ([None]). *)

From S2P Require Export Component.
Local Open Scope nat_scope.

(** ** Manifests *)
Record PluginComponentDescriptorView := mkComponentView {
  cv_type : option string; cv_component_api_version : option string; cv_realtime_allowed : bool; cv_dry_run_safe : bool }.
Record PluginManifestView := mkManifestView {
  mv_plugin_id : option string; mv_plugin_api_version : option string; mv_schema_version : option string;
  mv_component_count : nat; mv_components : option (list PluginComponentDescriptorView) }.
Record PluginManifest := mkManifest {
  plugin_id : string; plugin_api_version : string; schema_version : string; manifest_components : list ComponentRegistration }.
Definition empty_manifest : PluginManifest := mkManifest "" "" "" [].
Record PluginLoadOptions := mkLoadOptions {
  required_plugin_api_version : string; required_schema_version : string; require_declared_components : bool; close_on_destroy : bool }.
Definition default_load_options : PluginLoadOptions := mkLoadOptions "0" "1" true false.
Record PluginLoadError := mkLoadError { load_error_code : string; load_error_message : string }.
Record PluginLoadResult := mkLoadResult {
  load_ok : bool; load_manifest : PluginManifest; registered_components : list string; load_errors : list PluginLoadError }.
#[export] Instance eta_PluginLoadResult : Eta PluginLoadResult := fun r =>
  mkLoadResult (load_ok r) (load_manifest r) (registered_components r) (load_errors r).
Definition empty_load_result : PluginLoadResult := mkLoadResult false empty_manifest [] [].
Definition load_error (code message : string) (r : PluginLoadResult) : PluginLoadResult :=
  r <| load_errors ::= fun l => l ++ [mkLoadError code message] |>.
Definition load_error_if (b : bool) (code message : string) (r : PluginLoadResult) : PluginLoadResult :=
  if b then load_error code message r else r.

Definition safe_c_string (value : option string) : string := default "" value.
Definition copy_component (component : PluginComponentDescriptorView) : ComponentRegistration :=
  let version := safe_c_string (cv_component_api_version component) in
  mkRegistration (safe_c_string (cv_type component)) (if str_empty version then "1" else version) "0.1.0" false
    (cv_realtime_allowed component) (cv_dry_run_safe component).
(** The manifest, and the error of a missing array. *)
Definition copy_manifest (view : PluginManifestView) (r : PluginLoadResult) : option (PluginManifest * PluginLoadResult) :=
  let manifest := mkManifest (safe_c_string (mv_plugin_id view)) (safe_c_string (mv_plugin_api_version view))
    (safe_c_string (mv_schema_version view)) in
  match mv_components view with
  | None =>
      if 0 <? mv_component_count view
      then Some (manifest [], load_error "manifest.components" "component descriptors pointer is required" r)
      else Some (manifest [], r)
  | Some components =>
      if length components <? mv_component_count view then None
      else Some (manifest (copy_component <$> take (mv_component_count view) components), r)
  end.
Definition validate_manifest_shape (m : PluginManifest) (r : PluginLoadResult) : PluginLoadResult :=
  let r := load_error_if (str_empty (plugin_id m)) "manifest.plugin_id" "plugin_id is required" r in
  let r := load_error_if (str_empty (plugin_api_version m)) "manifest.plugin_api_version" "plugin_api_version is required" r in
  let r := load_error_if (str_empty (schema_version m)) "manifest.schema_version" "schema_version is required" r in
  let r := load_error_if (match manifest_components m with [] => true | _ => false end) "manifest.components" "at least one component must be declared" r in
  fold_left (fun r c => load_error_if (str_empty (reg_type c)) "manifest.component.type" "component type is required" r)
    (manifest_components m) r.
Definition contains_type (registrations : list ComponentRegistration) (type : string) : bool :=
  existsb (fun registration => str_eqb (reg_type registration) type) registrations.

(** ** Libraries *)
Section loader.
Context {F : Type}.
(** What the register function does: operations on the registry, and how it ends. *)
Inductive RegisterAnswer := Returned (ok : bool) | Threw (what : string) | ThrewOther.
Definition RegisterFunction : Type := ComponentRegistry F → list (RegistryOp F) * RegisterAnswer.
(** A symbol: the text of [dlerror] after [dlsym], and the pointer. *)
Definition Symbol (A : Type) : Type := option string * option A.
(** [inl]: [dlopen] failed, with the text of [dlerror] if there is one.  The manifest function may return null. *)
Definition SharedLibrary : Type := option string + (Symbol (option PluginManifestView) * Symbol RegisterFunction).
Definition find_symbol {A} (s : Symbol A) (missing : string) : string + A :=
  match s with
  | (Some error, _) => inl error
  | (None, None) => inl missing
  | (None, Some a) => inr a
  end.

(** A plugin object: whether it owns an open handle. *)
Record LoadedPlugin := mkPlugin { has_native_handle : bool; plugin_result : PluginLoadResult; plugin_close_on_destroy : bool }.
Record LoadOutcome := mkLoadOutcome {
  lo_registry : ComponentRegistry F; lo_plugin : LoadedPlugin; lo_closed : bool }.
(** The loader gives up: the handle, if there is one, is closed. *)
Definition refused (registry : ComponentRegistry F) (opened : bool) (r : PluginLoadResult) : LoadOutcome :=
  mkLoadOutcome registry (mkPlugin false r false) opened.

(** Removes the types that were not there before. *)
Definition rollback_registered (before : list string) (registry : ComponentRegistry F) : ComponentRegistry F :=
  fold_left (fun r type => if bool_decide (type ∈ before) then r else fst (unregister r type)) (registry_types registry) registry.
Definition register_failure (answer : RegisterAnswer) : option (string * string) :=
  match answer with
  | Returned true => None
  | Returned false => Some ("register.failed", "plugin register function returned false")
  | Threw what => Some ("register.threw", "plugin register function threw: " +:+ what)
  | ThrewOther => Some ("register.threw", "plugin register function threw a non-standard exception")
  end.
Definition note_registered (options : PluginLoadOptions) (before : list string) (r : PluginLoadResult) (type : string) : PluginLoadResult :=
  if bool_decide (type ∈ before) then r else
  load_error_if (require_declared_components options && negb (contains_type (manifest_components (load_manifest r)) type))
    "register.undeclared_component" ("plugin registered undeclared component " +:+ type)
    (r <| registered_components ::= fun l => l ++ [type] |>).
Definition check_declared (registry : ComponentRegistry F) (r : PluginLoadResult) (c : ComponentRegistration) : PluginLoadResult :=
  load_error_if (negb (registry_contains registry (reg_type c)))
    "register.missing_component" ("plugin did not register declared component " +:+ reg_type c) r.
(** The registration, once the manifest is accepted. *)
Definition register_plugin (options : PluginLoadOptions) (register : RegisterFunction) (registry : ComponentRegistry F)
    (r : PluginLoadResult) : LoadOutcome :=
  let before := registry_types registry in
  let '(ops, answer) := register registry in
  let after := fold_left registry_step ops registry in
  match register_failure answer with
  | Some (code, message) => refused (rollback_registered before after) true (load_error code message r)
  | None =>
      let r := fold_left (note_registered options before) (registry_types after) r in
      let r := fold_left (check_declared after) (manifest_components (load_manifest r)) r in
      let r := r <| load_ok := bool_decide (length (load_errors r) = 0) |> in
      mkLoadOutcome after (mkPlugin true r (close_on_destroy options)) false
  end.
Definition check_manifest (options : PluginLoadOptions) (view : PluginManifestView) (r : PluginLoadResult) : option PluginLoadResult :=
  match copy_manifest view r with
  | None => None
  | Some (manifest, r) =>
      let r := validate_manifest_shape manifest (r <| load_manifest := manifest |>) in
      let r := load_error_if (negb (str_eqb (plugin_api_version manifest) (required_plugin_api_version options)))
        "version.plugin_api" "plugin_api_version mismatch" r in
      Some (load_error_if (negb (str_eqb (schema_version manifest) (required_schema_version options)))
        "version.schema" "schema_version mismatch" r)
  end.
Definition load_plugin (library : SharedLibrary) (options : PluginLoadOptions) (registry : ComponentRegistry F) : option LoadOutcome :=
  match library with
  | inl error => Some (refused registry false (load_error "dlopen" (default "failed to open plugin" error) empty_load_result))
  | inr (manifest_symbol, register_symbol) =>
      match find_symbol manifest_symbol "missing manifest symbol" with
      | inl error => Some (refused registry true (load_error "symbol.manifest" error empty_load_result))
      | inr None => Some (refused registry true (load_error "manifest.null" "plugin manifest function returned null" empty_load_result))
      | inr (Some view) =>
          match check_manifest options view empty_load_result with
          | None => None
          | Some r =>
              if negb (length (load_errors r) =? 0) then Some (refused registry true r) else
              match find_symbol register_symbol "missing register symbol" with
              | inl error => Some (refused registry true (load_error "symbol.register" error r))
              | inr register => Some (register_plugin options register registry r)
              end
          end
      end
  end.
End loader.

(** ** Plugin objects *)
(** [reset]: the object, and whether the handle is closed. *)
Definition plugin_reset (p : LoadedPlugin) : LoadedPlugin * bool :=
  (mkPlugin false (plugin_result p) false, plugin_close_on_destroy p && has_native_handle p).
(** Moves: the new object and the old one, whose result is what a moved-from result is. *)
Definition plugin_move (moved_from : PluginLoadResult → PluginLoadResult) (other : LoadedPlugin) : LoadedPlugin * LoadedPlugin :=
  (other, mkPlugin false (moved_from (plugin_result other)) false).
(** Assignment between two objects: both afterwards, and whether the old handle is closed. *)
Definition plugin_assign (moved_from : PluginLoadResult → PluginLoadResult) (this other : LoadedPlugin) : LoadedPlugin * LoadedPlugin * bool :=
  (plugin_move moved_from other, snd (plugin_reset this)).
Arguments SharedLibrary : clear implicits.
Arguments LoadOutcome : clear implicits.
