(* ===== verification/PluginFacts.v ===== *)
(** * PluginFacts: what loading a plugin does to the registry

    A load succeeds exactly when the library, its manifest and its registrations are as the loader asks; a load that fails
    before the registrations are compared with the manifest leaves the registry as it was. *)

From S2P Require Export Plugins.
Local Open Scope nat_scope.

(** ** Errors *)
Definition errors_from (codes : list string) (r r' : PluginLoadResult) : Prop :=
  ∃ errors, load_errors r' = load_errors r ++ errors ∧ Forall (λ e, load_error_code e ∈ codes) errors.
Lemma no_errors_if b code message r : load_errors (load_error_if b code message r) = [] ↔ load_errors r = [] ∧ b = false.
Proof.
  unfold load_error_if. destruct b; simpl; [|tauto]. split; [|by intros [_ ?]]. intros H. by apply app_eq_nil in H as [_ ?].
Qed.
Lemma no_errors_fold {A} (f : PluginLoadResult → A → PluginLoadResult) (P : A → Prop) l r :
  (∀ r x, load_errors (f r x) = [] ↔ load_errors r = [] ∧ P x) → load_errors (fold_left f l r) = [] ↔ load_errors r = [] ∧ Forall P l.
Proof.
  intros Hf. revert r. induction l as [|x l IH]; intros r; cbn [fold_left]; [naive_solver|]. rewrite IH, Hf, Forall_cons. tauto.
Qed.
Create Rewrite HintDb load.
#[export] Hint Rewrite @no_errors_if negb_false_iff : load.

Section facts.
Context {F : Type}.
Implicit Types registry : ComponentRegistry F.

(** ** Rollback *)
Lemma rollback_lookup (before l : list string) registry t : let r := fold_left (λ r type, if bool_decide (type ∈ before) then r else fst (unregister r type)) l registry in
  registrations r !! t = (if bool_decide (t ∈ l ∧ t ∉ before) then None else registrations registry !! t) ∧
  factories r !! t = (if bool_decide (t ∈ l ∧ t ∉ before) then None else factories registry !! t).
Proof.
  revert registry. induction l as [|x l IH]; intros registry; cbn [fold_left].
  - rewrite bool_decide_eq_false_2; [done|]. by intros [?%elem_of_nil _].
  - destruct (IH (if bool_decide (x ∈ before) then registry else fst (unregister registry x))) as [-> ->]. clear IH.
    destruct (decide (t ∈ l ∧ t ∉ before)) as [H|H].
    + rewrite (bool_decide_eq_true_2 (t ∈ l ∧ t ∉ before)) by done.
      rewrite (bool_decide_eq_true_2 (t ∈ x :: l ∧ t ∉ before)) by (destruct H; split; [by right|done]). done.
    + rewrite (bool_decide_eq_false_2 (t ∈ l ∧ t ∉ before)) by done. destruct (decide (x ∈ before)) as [Hx|Hx].
      * rewrite (bool_decide_eq_true_2 (x ∈ before)) by done. rewrite (bool_decide_eq_false_2 (t ∈ x :: l ∧ t ∉ before)); [done|].
        intros [[->|?]%elem_of_cons ?]; [done|by apply H].
      * rewrite (bool_decide_eq_false_2 (x ∈ before)) by done. simpl. destruct (decide (x = t)) as [->|Hne].
        { rewrite !lookup_delete_eq, bool_decide_eq_true_2; [done|]. split; [left|done]. }
        rewrite !lookup_delete_ne by done. rewrite bool_decide_eq_false_2; [done|]. intros [[->|?]%elem_of_cons ?]; [done|by apply H].
Qed.
Definition registers (op : RegistryOp F) : Prop := match op with ORegister _ _ => True | OUnregister _ => False end.
(** Registrations only add. *)
Definition extends registry registry' : Prop := registry_wf registry' ∧ ∀ t, is_Some (registrations registry !! t) →
  registrations registry' !! t = registrations registry !! t ∧ factories registry' !! t = factories registry !! t.
Lemma register_extends registry registry' op : extends registry registry' → registers op → extends registry (registry_step registry' op).
Proof.
  intros [W H] Hop. destruct op as [registration factory|]; [|done]. simpl. unfold register_component.
  destruct (str_empty _); [done|]. destruct factory as [f|]; [|done]. destruct (registrations registry' !! _) eqn:E; [done|].
  split; [unfold registry_wf in *; simpl; by rewrite !dom_insert_L, W|]. intros t Ht. destruct (H t Ht) as [H1 H2].
  assert (reg_type registration ≠ t) by (intros Heq; rewrite Heq, H1 in E; destruct Ht; congruence). simpl. by rewrite !lookup_insert_ne.
Qed.
Lemma registers_extend ops registry registry' : extends registry registry' → Forall registers ops → extends registry (fold_left registry_step ops registry').
Proof. intros H Ho. revert registry' H. induction Ho as [|op ops Hop _ IH]; intros registry' H; [done|]. apply IH. by apply register_extends. Qed.
Lemma rollback_restores ops registry : registry_wf registry → Forall registers ops →
  rollback_registered (registry_types registry) (fold_left registry_step ops registry) = registry.
Proof.
  intros W Ho. destruct (registers_extend ops registry registry) as [W' H]; [by split|done|].
  set (after := fold_left registry_step ops registry) in *. unfold rollback_registered.
  assert (∀ t, is_Some (registrations after !! t) ↔ is_Some (factories after !! t)) as Wa.
  { intros t. by rewrite <- !elem_of_dom, W'. }
  assert (∀ t, is_Some (registrations registry !! t) ↔ is_Some (factories registry !! t)) as Wr.
  { intros t. by rewrite <- !elem_of_dom, W. }
  set (r := fold_left _ _ after). assert (∀ t, registrations r !! t = registrations registry !! t ∧ factories r !! t = factories registry !! t) as E.
  { intros t. destruct (rollback_lookup (registry_types registry) (registry_types after) after t) as [E1 E2].
    fold r in E1, E2. rewrite E1, E2.
    unfold registry_types. destruct (decide (is_Some (registrations registry !! t))) as [Hs|Hn].
    - rewrite bool_decide_eq_false_2; [by apply H|]. intros [_ Hn]. apply Hn. by apply elem_of_map_keys.
    - assert (registrations registry !! t = None ∧ factories registry !! t = None) as [-> ->].
      { rewrite !eq_None_not_Some, <- Wr. tauto. }
      destruct (bool_decide _) eqn:Eb; [done|]. apply bool_decide_eq_false in Eb as Hd. assert (¬ is_Some (registrations after !! t)) as Ha.
      { intros Ht. apply Hd. split; [by apply elem_of_map_keys|]. intros Hin. apply Hn. by apply elem_of_map_keys. }
      split; apply eq_None_not_Some; [done|by rewrite <- Wa]. }
  destruct r as [r1 r2], registry as [g1 g2]. simpl in E. f_equal; apply map_eq; intros t; apply E.
Qed.

(** ** Acceptance *)
Definition declared_types (view : PluginManifestView) : list string :=
  (λ c, safe_c_string (cv_type c)) <$> take (mv_component_count view) (default [] (mv_components view)).
(** The manifest as the loader asks for it. *)
Record acceptable (options : PluginLoadOptions) (view : PluginManifestView) : Prop := {
  ac_id : safe_c_string (mv_plugin_id view) ≠ "";
  ac_api : safe_c_string (mv_plugin_api_version view) = required_plugin_api_version options ∧ required_plugin_api_version options ≠ "";
  ac_schema : safe_c_string (mv_schema_version view) = required_schema_version options ∧ required_schema_version options ≠ "";
  ac_some : declared_types view ≠ [];
  ac_types : Forall (λ type, type ≠ "") (declared_types view) }.
Lemma shape_exact m r : load_errors (validate_manifest_shape m r) = [] ↔ load_errors r = [] ∧ plugin_id m ≠ "" ∧ plugin_api_version m ≠ "" ∧
  schema_version m ≠ "" ∧ (reg_type <$> manifest_components m) ≠ [] ∧ Forall (λ type, type ≠ "") (reg_type <$> manifest_components m).
Proof.
  unfold validate_manifest_shape. rewrite (no_errors_fold _ (λ c, reg_type c ≠ "")).
  2: { intros r' c. rewrite no_errors_if. destruct (reg_type c); simpl; naive_solver. }
  autorewrite with load. rewrite Forall_fmap.
  assert (∀ s, str_empty s = false ↔ s ≠ "") as He by (intros []; simpl; split; congruence).
  assert ((match manifest_components m with [] => true | _ => false end) = false ↔ reg_type <$> manifest_components m ≠ []) as ->
    by (destruct (manifest_components m); simpl; split; congruence).
  rewrite !He. unfold compose. tauto.
Qed.
Lemma manifest_kept b code message r : load_manifest (load_error_if b code message r) = load_manifest r.
Proof. by destruct b. Qed.
Lemma manifest_kept_fold {A} (f : PluginLoadResult → A → PluginLoadResult) l r :
  (∀ r x, load_manifest (f r x) = load_manifest r) → load_manifest (fold_left f l r) = load_manifest r.
Proof. intros H. revert r. induction l as [|x l IH]; intros r; cbn [fold_left]; [done|]. by rewrite IH, H. Qed.
Lemma copy_manifest_exact view m r : copy_manifest view empty_load_result = Some (m, r) →
  m = mkManifest (safe_c_string (mv_plugin_id view)) (safe_c_string (mv_plugin_api_version view)) (safe_c_string (mv_schema_version view))
    (manifest_components m) ∧ reg_type <$> manifest_components m = declared_types view ∧
  (load_errors r = [] ∨ declared_types view = []).
Proof.
  unfold copy_manifest, declared_types. destruct (mv_components view) as [cs|]; simpl.
  - destruct (length cs <? _); [done|]. intros [= <- <-]. split; [done|]. split; [|by left]. cbn [manifest_components]. by rewrite <- list_fmap_compose.
  - rewrite take_nil. destruct (0 <? _); intros [= <- <-]; (split; [done|]); (split; [done|]); by right.
Qed.
Lemma check_manifest_exact options view r : check_manifest options view empty_load_result = Some r →
  (load_errors r = [] ↔ acceptable options view) ∧ reg_type <$> manifest_components (load_manifest r) = declared_types view.
Proof.
  unfold check_manifest. destruct (copy_manifest view empty_load_result) as [[m r0]|] eqn:E; [|done]. intros [= <-].
  apply copy_manifest_exact in E as (Hm&Ht&He). split.
  - autorewrite with load. rewrite shape_exact, !str_eqb_eq. simpl. rewrite Ht, Hm. cbn [plugin_id plugin_api_version schema_version].
    split; [intros [[(_&?&?&?&?&?) ?] ?]; split; [done|split; congruence|split; congruence|done|done]|].
    intros [? [H1 H2] [H3 H4] ? ?]. rewrite H1, H3. split_and!; try done. by destruct He.
  - rewrite !manifest_kept. unfold validate_manifest_shape. rewrite manifest_kept_fold by (intros; apply manifest_kept).
    rewrite !manifest_kept. exact Ht.
Qed.
(** ** Registrations *)
Definition new_types registry registry' : list string := List.filter (λ t, negb (bool_decide (t ∈ registry_types registry))) (registry_types registry').
Lemma note_registered_fold options before l r : let r' := fold_left (note_registered options before) l r in
  load_manifest r' = load_manifest r ∧
  registered_components r' = registered_components r ++ List.filter (λ t, negb (bool_decide (t ∈ before))) l ∧
  (load_errors r' = [] ↔ load_errors r = [] ∧ (require_declared_components options = true →
     ∀ t, t ∈ l → t ∉ before → contains_type (manifest_components (load_manifest r)) t = true)) ∧
  ∃ errors, load_errors r' = load_errors r ++ errors ∧ Forall (λ e, load_error_code e = "register.undeclared_component") errors.
Proof.
  revert r. induction l as [|t l IH]; intros r; cbn [fold_left].
  { split; [done|]. split; [simpl; by rewrite app_nil_r|]. split; [|exists []; by rewrite app_nil_r].
    split; [intros H; split; [done|]; by intros _ t ?%elem_of_nil|by intros [? _]]. }
  destruct (IH (note_registered options before r t)) as (H1&H2&H3&(errors&H4&H5)). clear IH. cbn [List.filter].
  destruct (decide (t ∈ before)) as [Ht|Ht].
  - assert (note_registered options before r t = r) as Er by (unfold note_registered; by rewrite bool_decide_eq_true_2).
    rewrite Er in *. rewrite (bool_decide_eq_true_2 (t ∈ before)) by done. cbn [negb]. split; [done|]. split; [done|]. split; [|by exists errors].
    rewrite H3. split; intros [Hno Hall]; (split; [done|]); intros Hr t' Hin Hn; [|apply Hall; by try right].
    apply elem_of_cons in Hin as [->|Hin]; [done|by apply Hall].
  - rewrite (bool_decide_eq_false_2 (t ∈ before)) by done. cbn [negb].
    set (b := require_declared_components options && negb (contains_type (manifest_components (load_manifest r)) t)).
    assert (note_registered options before r t = load_error_if b "register.undeclared_component" ("plugin registered undeclared component " +:+ t)
      (r <| registered_components ::= λ l, l ++ [t] |>)) as En by (unfold note_registered; by rewrite bool_decide_eq_false_2).
    rewrite En in *. rewrite manifest_kept in H1, H3. cbn [load_manifest] in H1, H3.
    split; [done|]. split; [rewrite H2; unfold load_error_if; destruct b; simpl; by rewrite <- app_assoc|]. split.
    + rewrite H3, no_errors_if. simpl. split.
      * intros [[Hno Hb] Hall]. split; [done|]. intros Hr t' Hin Hn. apply elem_of_cons in Hin as [->|Hin]; [|by apply Hall].
        unfold b in Hb. rewrite Hr in Hb. simpl in Hb. by apply negb_false_iff.
      * intros [Hno Hall]. split; [split; [done|]|].
        { unfold b. destruct (require_declared_components options) eqn:Er; [|done]. simpl. rewrite Hall by (done || left). done. }
        intros Hr t' Hin Hn. apply Hall; [done|by right|done].
    + unfold load_error_if in H4. destruct b; simpl in H4; [|by exists errors]. rewrite <- app_assoc in H4. eexists. split; [exact H4|].
      by constructor.
Qed.
Lemma check_declared_fold registry l r : let r' := fold_left (check_declared registry) l r in
  load_manifest r' = load_manifest r ∧ registered_components r' = registered_components r ∧
  (load_errors r' = [] ↔ load_errors r = [] ∧ Forall (λ type, registry_contains registry type = true) (reg_type <$> l)) ∧
  ∃ errors, load_errors r' = load_errors r ++ errors ∧ Forall (λ e, load_error_code e = "register.missing_component") errors.
Proof.
  assert (∀ r c, load_manifest (check_declared registry r c) = load_manifest r ∧
    registered_components (check_declared registry r c) = registered_components r) as Hk by (intros r' c; unfold check_declared, load_error_if; destruct (negb _); by split).
  split; [apply manifest_kept_fold; intros; apply Hk|]. split.
  { revert r. induction l as [|c l IH]; intros r; cbn [fold_left]; [done|]. rewrite IH. apply Hk. }
  split.
  { rewrite (no_errors_fold _ (λ c, registry_contains registry (reg_type c) = true)); [by rewrite Forall_fmap|].
    intros r' c. unfold check_declared. by rewrite no_errors_if, negb_false_iff. }
  revert r. induction l as [|c l IH]; intros r; cbn [fold_left]; [exists []; by rewrite app_nil_r|].
  destruct (IH (check_declared registry r c)) as (errors&->&H). unfold check_declared, load_error_if.
  destruct (negb _); simpl; [|by exists errors]. rewrite <- app_assoc. eexists. split; [reflexivity|]. by constructor.
Qed.
End facts.

(** ** The properties of a load *)
Section properties.
Context {F : Type}.
Implicit Types registry : ComponentRegistry F.
Definition after_registration (ops : list (RegistryOp F)) registry : ComponentRegistry F := fold_left registry_step ops registry.
(** A plugin that loads: its symbols, its manifest and its registrations. *)
Record loads (library : SharedLibrary F) (options : PluginLoadOptions) registry (view : PluginManifestView) (ops : list (RegistryOp F)) : Prop := {
  ld_symbols : ∃ register, library = inr ((None, Some (Some view)), (None, Some register)) ∧ register registry = (ops, Returned true);
  ld_manifest : acceptable options view;
  ld_declared : require_declared_components options = true → ∀ t, registry_contains (after_registration ops registry) t = true →
    registry_contains registry t = false → t ∈ declared_types view;
  ld_registered : ∀ t, t ∈ declared_types view → registry_contains (after_registration ops registry) t = true }.
Lemma contains_types registry t : registry_contains registry t = true ↔ t ∈ registry_types registry.
Proof. unfold registry_contains, registry_types. by rewrite bool_decide_eq_true, elem_of_map_keys. Qed.
Lemma not_contains_types registry t : registry_contains registry t = false ↔ t ∉ registry_types registry.
Proof. rewrite <- contains_types. by destruct (registry_contains registry t). Qed.
Lemma contains_type_types registrations t : contains_type registrations t = true ↔ t ∈ reg_type <$> registrations.
Proof.
  unfold contains_type. rewrite existsb_exists, list_elem_of_fmap. setoid_rewrite str_eqb_eq.
  split; intros (c&H1&H2); exists c; [split; [done|by apply list_elem_of_In]|split; [by apply list_elem_of_In|done]].
Qed.
Lemma register_plugin_spec options register registry r : let '(ops, answer) := register registry in
  let o := register_plugin options register registry r in load_errors r = [] → load_ok r = false →
  (load_ok (plugin_result (lo_plugin o)) = true ↔ answer = Returned true ∧
    (require_declared_components options = true → ∀ t, registry_contains (after_registration ops registry) t = true →
      registry_contains registry t = false → t ∈ reg_type <$> manifest_components (load_manifest r)) ∧
    ∀ t, t ∈ reg_type <$> manifest_components (load_manifest r) → registry_contains (after_registration ops registry) t = true) ∧
  (answer = Returned true → lo_registry o = after_registration ops registry ∧
    lo_plugin o = mkPlugin true (plugin_result (lo_plugin o)) (close_on_destroy options) ∧ lo_closed o = false ∧
    registered_components (plugin_result (lo_plugin o)) = registered_components r ++ new_types registry (after_registration ops registry) ∧
    Forall (λ e, load_error_code e ∈ ["register.undeclared_component"; "register.missing_component"]) (load_errors (plugin_result (lo_plugin o)))) ∧
  (answer ≠ Returned true → lo_registry o = rollback_registered (registry_types registry) (after_registration ops registry) ∧
    has_native_handle (lo_plugin o) = false ∧ lo_closed o = true).
Proof.
  unfold register_plugin. destruct (register registry) as [ops answer]. cbv zeta. intros He Hok. fold (after_registration ops registry).
  set (after := after_registration ops registry). destruct (register_failure answer) as [[code message]|] eqn:Ea.
  { assert (answer ≠ Returned true) as Hn by (by intros ->). split; [split; [intros H; simpl in H; congruence|by intros [? _]]|].
    split; [by intros ?|done]. }
  assert (answer = Returned true) as -> by (by destruct answer as [[]| |]).
  destruct (note_registered_fold options (registry_types registry) (registry_types after) r) as (N1&N2&N3&(e1&N4&N5)).
  set (r1 := fold_left (note_registered options (registry_types registry)) (registry_types after) r) in *.
  destruct (check_declared_fold after (manifest_components (load_manifest r1)) r1) as (C1&C2&C3&(e2&C4&C5)).
  set (r2 := fold_left (check_declared after) (manifest_components (load_manifest r1)) r1) in *.
  cbn [lo_registry lo_plugin lo_closed plugin_result]. change (load_ok (r2 <| load_ok := ?b |>)) with b.
  change (registered_components (r2 <| load_ok := ?b |>)) with (registered_components r2).
  change (load_errors (r2 <| load_ok := ?b |>)) with (load_errors r2). split; [|split; [|done]].
  - rewrite bool_decide_eq_true, length_zero_iff_nil, C3, N3, N1. rewrite Forall_forall. split.
    + intros [[_ H1] H2]. split; [done|]. split; [|done]. intros Hr t Ht Hn. apply contains_type_types, H1; [done|by apply contains_types|by apply not_contains_types].
    + intros (_&H1&H2). split; [split; [done|]|done]. intros Hr t Ht Hn. apply contains_type_types, H1; [done|by apply contains_types|by apply not_contains_types].
  - intros _. split; [done|]. split; [done|]. split; [done|]. split; [by rewrite C2, N2|]. rewrite C4, N4, He. simpl.
    apply Forall_app. split; [eapply Forall_impl; [exact N5|]; intros e ->; left|eapply Forall_impl; [exact C5|]; intros e ->; right; left].
Qed.

(** What the library offers. *)
Definition registering (library : SharedLibrary F) : option (RegisterFunction (F := F)) :=
  match library with inr (_, (_, register)) => register | inl _ => None end.
Lemma refused_not_ok registry opened r : load_ok r = false → load_ok (plugin_result (lo_plugin (refused registry opened r))) = false.
Proof. done. Qed.
(** A load gives up before the registration, or registers. *)
Lemma load_cases library options registry o : load_plugin library options registry = Some o →
  (∃ r, o = refused registry (match library with inl _ => false | inr _ => true end) r ∧ load_ok r = false ∧
     ∀ view ops, ¬ loads library options registry view ops) ∨
  ∃ view register r, library = inr ((None, Some (Some view)), (None, Some register)) ∧ acceptable options view ∧
    o = register_plugin options register registry r ∧ load_errors r = [] ∧ load_ok r = false ∧ registered_components r = [] ∧
    reg_type <$> manifest_components (load_manifest r) = declared_types view.
Proof.
  unfold load_plugin. destruct library as [error|[ms rs]].
  { intros [= <-]. left. eexists. split; [done|]. split; [done|]. by intros view ops [(register&?&_) _ _ _]. }
  destruct (find_symbol ms _) as [error|[view|]] eqn:Em.
  - intros [= <-]. left. eexists. split; [done|]. split; [done|]. intros view ops [(register&[= -> ->]&_) _ _ _]. done.
  - assert (ms = (None, Some (Some view))) as -> by (destruct ms as [[?|] [[?|]|]]; simpl in Em; congruence). clear Em.
    destruct (check_manifest options view empty_load_result) as [r|] eqn:Er; [|done].
    pose proof (check_manifest_exact options view r Er) as [Hr Ht].
    assert (load_ok r = false ∧ registered_components r = []) as [Hok Hreg].
    { unfold check_manifest in Er. destruct (copy_manifest _ _) as [[m r0]|] eqn:Ec; [|done]. injection Er as <-.
      assert (load_ok r0 = false ∧ registered_components r0 = []) as [H1 H2].
      { unfold copy_manifest in Ec. destruct (mv_components view); simpl in Ec; [destruct (_ <? _)|destruct (_ <? _)]; simplify_eq; done. }
      assert (∀ b code message x, load_ok (load_error_if b code message x) = load_ok x ∧
        registered_components (load_error_if b code message x) = registered_components x) as Hk by (intros []; done).
      assert (∀ (l : list ComponentRegistration) x, let x' := fold_left (λ r c, load_error_if (str_empty (reg_type c)) "manifest.component.type"
        "component type is required" r) l x in load_ok x' = load_ok x ∧ registered_components x' = registered_components x) as Hf.
      { induction l as [|c l IH]; intros x; cbn [fold_left]; [done|]. cbv zeta in *. destruct (IH (load_error_if (str_empty (reg_type c))
        "manifest.component.type" "component type is required" x)) as [-> ->]. apply Hk. }
      unfold validate_manifest_shape. do 2 rewrite (proj1 (Hk _ _ _ _)), (proj2 (Hk _ _ _ _)).
      rewrite (proj1 (Hf _ _)), (proj2 (Hf _ _)). do 4 rewrite (proj1 (Hk _ _ _ _)), (proj2 (Hk _ _ _ _)). done. }
    destruct (load_errors r) as [|e l] eqn:He; cbn [length Nat.eqb negb].
    + destruct (find_symbol rs _) as [error|register] eqn:Es.
      * intros [= <-]. left. eexists. split; [done|]. split; [done|]. intros view' ops [(register&[= -> ->]&_) _ _ _]. done.
      * intros [= <-]. right. assert (rs = (None, Some register)) as -> by (destruct rs as [[?|] [?|]]; simpl in Es; congruence).
        exists view, register, r. split; [done|]. split; [by apply Hr|]. by split_and!.
    + intros [= <-]. left. exists r. split; [done|]. split; [done|]. intros view' ops [(register&[= <- ->]&_) Ha _ _]. by apply Hr in Ha.
  - intros [= <-]. left. eexists. split; [done|]. split; [done|].
    assert (ms = (None, Some None)) as -> by (destruct ms as [[?|] [[?|]|]]; simpl in Em; congruence).
    by intros view ops [(register&?&_) _ _ _].
Qed.
(** A plugin load succeeds exactly when the plugin is as the loader asks: the library opens and has both symbols, the
    manifest has an id, the required versions, and components with types, the register function returns true, what it
    added is declared (if that is required), and what is declared is there; and then the registry is what the register
    function made of it, the handle is kept, and the added types are reported. *)
Theorem plugin_load_exact library options registry o : load_plugin library options registry = Some o →
  (load_ok (plugin_result (lo_plugin o)) = true ↔ ∃ view ops, loads library options registry view ops) ∧
  ∀ view ops, loads library options registry view ops → lo_registry o = after_registration ops registry ∧
    has_native_handle (lo_plugin o) = true ∧ lo_closed o = false ∧
    registered_components (plugin_result (lo_plugin o)) = new_types registry (after_registration ops registry).
Proof.
  intros H. destruct (load_cases _ _ _ _ H) as [(r&->&Hok&Hn)|(view&register&r&->&Ha&->&He&Hok&Hreg&Ht)].
  { split; [split; [intros Hx; simpl in Hx; congruence|by intros (v&ops&Hl%Hn)]|]. by intros v ops Hl%Hn. }
  pose proof (register_plugin_spec options register registry r) as Hs. destruct (register registry) as [ops answer] eqn:Er.
  destruct (Hs He Hok) as (S1&S2&_). clear Hs. rewrite Ht in S1. split.
  - rewrite S1. split.
    + intros (->&H1&H2). exists view, ops. split; [by exists register|done|done|done].
    + intros (v&ops'&[(register'&[= <- <-]&Er') _ H1 H2]). rewrite Er in Er'. injection Er' as -> ->. by split.
  - intros v ops' [(register'&[= <- <-]&Er') _ _ _]. rewrite Er in Er'. injection Er' as -> ->.
    destruct (S2 eq_refl) as (H1&H2&H3&H4&_). split; [done|]. split; [by rewrite H2|]. split; [done|]. by rewrite H4, Hreg.
Qed.
End properties.

(** Moves neither duplicate nor lose a handle, and a handle is closed at most once, by the object that owns it. *)
Definition owned (p : LoadedPlugin) : nat := if has_native_handle p then 1 else 0.
Lemma handles_conserved moved_from this other : let '(this', other', closed) := plugin_assign moved_from this other in
  owned this' + owned other' + (if closed then 1 else 0) =
    owned other + (if plugin_close_on_destroy this then owned this else 0) ∧
  snd (plugin_reset other') = false ∧ snd (plugin_reset (fst (plugin_reset this'))) = false.
Proof. destruct this as [[] r []], other as [[] r' []]; by split_and!. Qed.

(** ** Plugins *)
Definition demo_view (types : list string) : PluginManifestView :=
  mkManifestView (Some "demo") (Some "0") (Some "1") (length types) (Some ((fun t => mkComponentView (Some t) None false true) <$> types)).
Definition registering_plugin (declared : list string) (types : list string) (answer : RegisterAnswer) : SharedLibrary unit :=
  inr ((None, Some (Some (demo_view declared))),
       (None, Some (fun _ => ((fun t => ORegister (mkRegistration t "1" "0.1.0" false false true) (Some tt)) <$> types, answer)))).
Definition load_summary (o : option (LoadOutcome unit)) : option (bool * list string * list string * bool) :=
  (fun o => (load_ok (plugin_result (lo_plugin o)), load_error_code <$> load_errors (plugin_result (lo_plugin o)),
             registry_types (lo_registry o), has_native_handle (lo_plugin o))) <$> o.
Example plugin_loads : load_summary (load_plugin (registering_plugin ["a"; "b"] ["b"; "a"] (Returned true)) default_load_options empty_registry) =
  Some (true, [], ["a"; "b"], true).
Proof. vm_compute. reflexivity. Qed.
(** A load that fails because of an undeclared component keeps it: the registry holds the factory of a plugin that was
    not loaded, and with [close_on_destroy] its code is unmapped when the result is destroyed. *)
Lemma undeclared_component_stays :
  load_summary (load_plugin (registering_plugin ["a"] ["a"; "b"] (Returned true)) (mkLoadOptions "0" "1" true true) empty_registry) =
    Some (false, ["register.undeclared_component"], ["a"; "b"], true).
Proof. vm_compute. reflexivity. Qed.
Definition demo_throwing_library : SharedLibrary unit := registering_plugin ["a"; "b"] ["a"] (Threw "no").
Definition demo_load_outcome (library : SharedLibrary unit) : LoadOutcome unit :=
  default (refused empty_registry false empty_load_result) (load_plugin library default_load_options empty_registry).
Lemma plugin_load_exact_witness :
  load_ok (plugin_result (lo_plugin (demo_load_outcome demo_throwing_library))) = true ↔
  ∃ view ops, loads demo_throwing_library default_load_options empty_registry view ops.
Proof.
  refine (proj1 (plugin_load_exact demo_throwing_library default_load_options empty_registry (demo_load_outcome demo_throwing_library) _)).
  vm_compute. reflexivity.
Defined.
