(* ===== verification/Prometheus.v ===== *)
(** * Prometheus: the text exporter

    Models [include/topoexec/adapters/prometheus.hpp]: the observer that keeps the metric samples of a run and renders
    them in the text exposition format.  The text of a finite [double] and the rounded product of two are arguments.
    A string is a sequence of bytes; [std::isalnum] and [std::isdigit] are those of the C locale. *)

From S2P Require Export RunnerResult.
From Stdlib Require Import Ascii.
Local Open Scope nat_scope.

(** ** Characters *)
Definition is_digit_char (c : ascii) : bool := let n := nat_of_ascii c in (48 <=? n) && (n <=? 57).
Definition is_letter_char (c : ascii) : bool :=
  let n := nat_of_ascii c in ((65 <=? n) && (n <=? 90)) || ((97 <=? n) && (n <=? 122)).
Definition quote_char : ascii := "034"%char.
Definition backslash_char : ascii := "\"%char.
Definition newline_char : ascii := "010"%char.
Definition return_char : ascii := "013"%char.
Definition quote : string := String quote_char "".
Definition newline : string := String newline_char "".
Fixpoint on_characters (f : ascii → string) (s : string) : string :=
  match s with EmptyString => "" | String c rest => f c +:+ on_characters f rest end.
Definition ends_with (value suffix : string) : bool :=
  (String.length suffix <=? String.length value) &&
  str_eqb (String.substring (String.length value - String.length suffix) (String.length suffix) value) suffix.

(** ** Names and labels *)
Definition name_char (c : ascii) : bool := is_letter_char c || is_digit_char c || bool_decide (c = "_"%char) || bool_decide (c = ":"%char).
Definition sanitize_name (name : string) : string :=
  let result := on_characters (fun c => if name_char c then String c "" else "_") name in
  match result with
  | EmptyString => "_"
  | String c _ => if is_digit_char c then String "_" result else result
  end.
Definition prometheus_sample_name (d : RuntimeMetricDescriptor) : string :=
  let name := sanitize_name (descr_name d) in
  if str_eqb (descr_kind d) "counter" && negb (ends_with name "_total") then name +:+ "_total" else name.
Definition prometheus_type (d : RuntimeMetricDescriptor) : string :=
  if str_eqb (descr_kind d) "counter" then "counter" else if str_eqb (descr_kind d) "histogram" then "histogram" else "gauge".
Definition escape_char (c : ascii) : string :=
  if bool_decide (c = backslash_char) || bool_decide (c = quote_char) then String backslash_char (String c "")
  else if bool_decide (c = newline_char) then String backslash_char "n"
  else if bool_decide (c = return_char) then String backslash_char "r"
  else String c "".
Definition escape_label_value (value : string) : string := on_characters escape_char value.
Definition descriptor_labels (d : RuntimeMetricDescriptor) (m : RuntimeMetricSample) : gmap string string :=
  let add key value (labels : gmap string string) :=
    if has_label d key && negb (str_empty value) then <[key := value]> labels else labels in
  add "channel_id" (sample_channel_id m) (add "lane" (sample_lane m) (add "component_id" (sample_component_id m) ∅)).
Definition render_label (label : string * string) : string := label.1 +:+ "=" +:+ quote +:+ escape_label_value label.2 +:+ quote.
Fixpoint separated (l : list string) : string :=
  match l with [] => "" | [x] => x | x :: rest => x +:+ "," +:+ separated rest end.
Definition render_labels (labels : gmap string string) : string :=
  match map_items labels with [] => "" | items => "{" +:+ separated (render_label <$> items) +:+ "}" end.
Definition validate_descriptor_labels (d : RuntimeMetricDescriptor) (m : RuntimeMetricSample) : Status :=
  let unexpected label value := negb (str_empty value) && negb (has_label d label) in
  if unexpected "component_id" (sample_component_id m) then status_error ("metric " +:+ sample_name m +:+ " has unexpected component_id label") else
  if unexpected "lane" (sample_lane m) then status_error ("metric " +:+ sample_name m +:+ " has unexpected lane label") else
  if unexpected "channel_id" (sample_channel_id m) then status_error ("metric " +:+ sample_name m +:+ " has unexpected channel_id label") else
  status_success.

(** ** Summaries of histograms *)
Definition histogram_suffixes : list string := [".count"; ".min"; ".max"; ".avg"; ".p50"; ".p95"; ".p99"].
(** The base name and the part that a name stands for; the first suffix decides. *)
Definition parse_histogram_summary (name : string) : option (string * string) :=
  match List.find (ends_with name) histogram_suffixes with
  | None => None
  | Some suffix =>
      let base := String.substring 0 (String.length name - String.length suffix) name in
      if str_empty base then None else Some (base, String.substring 1 (String.length suffix - 1) suffix)
  end.
Record HistogramSummary := mkSummary {
  hs_count : option Double; hs_min : option Double; hs_max : option Double; hs_avg : option Double; hs_p50 : option Double;
  hs_p95 : option Double; hs_p99 : option Double }.
#[export] Instance eta_HistogramSummary : Eta HistogramSummary := fun h =>
  mkSummary (hs_count h) (hs_min h) (hs_max h) (hs_avg h) (hs_p50 h) (hs_p95 h) (hs_p99 h).
Definition empty_summary : HistogramSummary := mkSummary None None None None None None None.
Definition summary_observe (part : string) (value : Double) (h : HistogramSummary) : HistogramSummary :=
  if str_eqb part "count" then h <| hs_count := Some value |> else if str_eqb part "min" then h <| hs_min := Some value |> else
  if str_eqb part "max" then h <| hs_max := Some value |> else if str_eqb part "avg" then h <| hs_avg := Some value |> else
  if str_eqb part "p50" then h <| hs_p50 := Some value |> else if str_eqb part "p95" then h <| hs_p95 := Some value |> else
  if str_eqb part "p99" then h <| hs_p99 := Some value |> else h.

(** ** The observer *)
Record TextExporter := mkExporter {
  ex_capacity : nat; ex_fail_on_unknown_metric : bool; ex_metrics : list RuntimeMetricSample; ex_dropped_event_count : nat;
  ex_failure_count : nat }.
#[export] Instance eta_TextExporter : Eta TextExporter := fun e =>
  mkExporter (ex_capacity e) (ex_fail_on_unknown_metric e) (ex_metrics e) (ex_dropped_event_count e) (ex_failure_count e).
Definition TextExporter_new (capacity : nat) (fail_on_unknown_metric : bool) : TextExporter := mkExporter capacity fail_on_unknown_metric [] 0 0.
Definition exporter_push (m : RuntimeMetricSample) (e : TextExporter) : TextExporter :=
  if ex_capacity e <=? length (ex_metrics e) then e <| ex_dropped_event_count ::= S |> else e <| ex_metrics ::= fun l => l ++ [m] |>.
Definition exporter_on_metric (m : RuntimeMetricSample) (e : TextExporter) : TextExporter * Status :=
  match find_runtime_metric_descriptor (sample_name m) with
  | None =>
      match parse_histogram_summary (sample_name m) with
      | Some _ => (exporter_push m e, status_success)
      | None =>
          let e := e <| ex_failure_count ::= S |> in
          if ex_fail_on_unknown_metric e then (e, status_error ("unknown runtime metric descriptor: " +:+ sample_name m))
          else (exporter_push m e, status_success)
      end
  | Some d =>
      let labels := validate_descriptor_labels d m in
      if negb (status_ok labels) then (e <| ex_failure_count ::= S |>, labels) else (exporter_push m e, status_success)
  end.
(** Stops at the first failure. *)
Fixpoint export_metrics (metrics : list RuntimeMetricSample) (e : TextExporter) : TextExporter * Status :=
  match metrics with
  | [] => (e, status_success)
  | m :: rest => let '(e, status) := exporter_on_metric m e in if negb (status_ok status) then (e, status) else export_metrics rest e
  end.
Definition export_result (r : RuntimeRunnerResult) (e : TextExporter) : TextExporter * Status := export_metrics (out_runtime_metrics r) e.
Definition exporter_status (e : TextExporter) : RuntimeObserverStatus := mkObserverStatus (ex_dropped_event_count e) (ex_failure_count e).
Definition clear_exporter (e : TextExporter) : TextExporter := TextExporter_new (ex_capacity e) (ex_fail_on_unknown_metric e).
Definition exporter_call (call : ObserverCall) (e : TextExporter) : option (TextExporter * Status) :=
  Some (match call with OnMetric m => exporter_on_metric m e | _ => (e, status_success) end).
Definition exporter_observer (e : TextExporter) : Observer := mkObserver TextExporter exporter_call exporter_status e.

(** ** Rendering *)
Section render.
Context (show_finite : QArith_base.Q → string) (double_mul : Double → Double → Double).
Definition format_value (value : Double) : string :=
  match value with NotANumber => "NaN" | Infinity negative => if negative then "-Inf" else "+Inf" | Finite q => show_finite q end.
(** The text so far, as lines, and the names whose headers were written. *)
Record Text := mkText { text_lines : list string; text_headers : gset string }.
Definition add_line (line : string) (t : Text) : Text := mkText (text_lines t ++ [line]) (text_headers t).
Definition render_header (name type help : string) (t : Text) : Text :=
  if bool_decide (name ∈ text_headers t) then t else
  mkText (text_lines t ++ ["# HELP " +:+ name +:+ " " +:+ help; "# TYPE " +:+ name +:+ " " +:+ type]) ({[name]} ∪ text_headers t).
Definition render_descriptor_sample (d : RuntimeMetricDescriptor) (m : RuntimeMetricSample) (t : Text) : Text :=
  let name := prometheus_sample_name d in
  add_line (name +:+ render_labels (descriptor_labels d m) +:+ " " +:+ format_value (sample_value m))
    (render_header name (prometheus_type d) ("TopoExec runtime metric " +:+ descr_name d) t).
Definition render_optional_gauge (base suffix : string) (value : option Double) (t : Text) : Text :=
  match value with
  | None => t
  | Some v =>
      let name := base +:+ "_" +:+ suffix in
      add_line (name +:+ " " +:+ format_value v) (render_header name "gauge" ("TopoExec custom histogram " +:+ suffix) t)
  end.
Definition render_quantile (name quantile : string) (value : option Double) (t : Text) : Text :=
  match value with None => t | Some v => add_line (name +:+ "{quantile=" +:+ quote +:+ quantile +:+ quote +:+ "} " +:+ format_value v) t end.
Definition render_histogram_summary (raw_base_name : string) (h : HistogramSummary) (t : Text) : Text :=
  let name := sanitize_name raw_base_name in
  let t := render_header name "summary" ("TopoExec custom histogram summary " +:+ raw_base_name) t in
  let t := match hs_count h with
    | None => t
    | Some count =>
        let t := add_line (name +:+ "_count " +:+ format_value count) t in
        match hs_avg h with None => t | Some avg => add_line (name +:+ "_sum " +:+ format_value (double_mul avg count)) t end
    end in
  let t := render_quantile name "0.99" (hs_p99 h) (render_quantile name "0.95" (hs_p95 h) (render_quantile name "0.5" (hs_p50 h) t)) in
  render_optional_gauge name "avg" (hs_avg h) (render_optional_gauge name "max" (hs_max h) (render_optional_gauge name "min" (hs_min h) t)).
Definition render_sample (acc : Text * gmap string HistogramSummary) (m : RuntimeMetricSample) : Text * gmap string HistogramSummary :=
  let '(t, histograms) := acc in
  match find_runtime_metric_descriptor (sample_name m) with
  | Some d => (render_descriptor_sample d m t, histograms)
  | None =>
      match parse_histogram_summary (sample_name m) with
      | Some (base, part) => (t, <[base := summary_observe part (sample_value m) (map_at empty_summary histograms base)]> histograms)
      | None => (t, histograms)
      end
  end.
Definition render_lines (metrics : list RuntimeMetricSample) : Text :=
  let '(t, histograms) := fold_left render_sample metrics (mkText [] ∅, ∅) in
  fold_left (fun t '(base, h) => render_histogram_summary base h t) (map_items histograms) t.
(** Every line ends with a line break. *)
Definition render_text (e : TextExporter) : string :=
  fold_right (fun line text => line +:+ newline +:+ text) "" (text_lines (render_lines (ex_metrics e))).
End render.
