(* ===== verification/PrometheusFacts.v ===== *)
(** * PrometheusFacts: the text exporter writes what can be read back

    A label value is read back from its quoted form, whatever it contains, so that it cannot end its quotes; names are
    valid metric names; and the text has one line for each sample and two for each header. *)

From S2P Require Export Prometheus.
From Stdlib Require Import Ascii.
Local Open Scope nat_scope.

(** ** Reading a quoted value *)
(** The value up to the closing quote, and the text behind it. *)
Fixpoint read_quoted (s : string) : option (string * string) :=
  match s with
  | EmptyString => None
  | String c rest =>
      if bool_decide (c = quote_char) then Some ("", rest) else
      if bool_decide (c = backslash_char) then
        match rest with
        | String e rest =>
            let meant := if bool_decide (e = "n"%char) then newline_char else if bool_decide (e = "r"%char) then return_char else e in
            match read_quoted rest with Some (value, rest) => Some (String meant value, rest) | None => None end
        | EmptyString => None
        end
      else match read_quoted rest with Some (value, rest) => Some (String c value, rest) | None => None end
  end.
Lemma read_escaped_char c s : read_quoted (escape_char c +:+ s) = match read_quoted s with Some (value, rest) => Some (String c value, rest) | None => None end.
Proof.
  unfold escape_char. destruct (decide (c = backslash_char)) as [->|H1]; [done|]. rewrite (bool_decide_eq_false_2 _ H1).
  destruct (decide (c = quote_char)) as [->|H2]; [done|]. rewrite (bool_decide_eq_false_2 _ H2). cbn [orb].
  destruct (decide (c = newline_char)) as [->|H3]; [done|]. rewrite (bool_decide_eq_false_2 _ H3).
  destruct (decide (c = return_char)) as [->|H4]; [done|]. rewrite (bool_decide_eq_false_2 _ H4). simpl.
  by rewrite (bool_decide_eq_false_2 _ H1), (bool_decide_eq_false_2 _ H2).
Qed.
Lemma read_escaped value rest : read_quoted (escape_label_value value +:+ quote +:+ rest) = Some (value, rest).
Proof.
  induction value as [|c value IH]; [done|]. unfold escape_label_value in *. cbn [on_characters].
  by rewrite str_app_assoc, read_escaped_char, IH.
Qed.

(** ** Characters of texts *)
Fixpoint string_forall (P : ascii → Prop) (s : string) : Prop := match s with EmptyString => True | String c rest => P c ∧ string_forall P rest end.
Lemma string_forall_app P a b : string_forall P (a +:+ b) ↔ string_forall P a ∧ string_forall P b.
Proof. induction a as [|c a IH]; simpl; [tauto|]. rewrite IH. tauto. Qed.
Lemma string_forall_impl (P Q : ascii → Prop) s : (∀ c, P c → Q c) → string_forall P s → string_forall Q s.
Proof. intros H. induction s as [|c s IH]; simpl; [done|]. intros [? ?]. auto. Qed.
#[export] Instance string_forall_dec P `{∀ c, Decision (P c)} s : Decision (string_forall P s).
Proof. induction s as [|c s IH]; simpl; apply _. Defined.
Lemma on_characters_forall f P s : (∀ c, string_forall P (f c)) → string_forall P (on_characters f s).
Proof. intros H. induction s as [|c s IH]; simpl; [done|]. by apply string_forall_app. Qed.

(** ** Names *)
(** A metric name of the text format. *)
Definition valid_name (s : string) : Prop :=
  match s with EmptyString => False | String c rest => is_digit_char c = false ∧ string_forall (λ c, name_char c = true) s end.
Lemma sanitize_chars name : string_forall (λ c, name_char c = true) (on_characters (fun c => if name_char c then String c "" else "_") name).
Proof. apply on_characters_forall. intros c. destruct (name_char c) eqn:E; simpl; by split. Qed.
Lemma sanitize_valid name : valid_name (sanitize_name name).
Proof.
  unfold sanitize_name. pose proof (sanitize_chars name) as H. destruct (on_characters _ name) as [|c s]; [by vm_compute|].
  destruct (is_digit_char c) eqn:E; [|by split]. split; [done|]. split; [done|exact H].
Qed.
Lemma on_characters_id s : string_forall (λ c, name_char c = true) s → on_characters (fun c => if name_char c then String c "" else "_") s = s.
Proof. induction s as [|c s IH]; simpl; [done|]. intros [-> Hs]. simpl. by rewrite IH. Qed.
Lemma sanitize_keeps name : valid_name name → sanitize_name name = name.
Proof.
  unfold sanitize_name, valid_name. destruct name as [|c s]; [done|]. intros [Hd Hn]. rewrite on_characters_id by done. by rewrite Hd.
Qed.

(** ** Lines *)
Definition one_line (s : string) : Prop := string_forall (λ c, c ≠ newline_char) s.
Lemma one_line_app a b : one_line (a +:+ b) ↔ one_line a ∧ one_line b.
Proof. apply string_forall_app. Qed.
Lemma name_one_line s : string_forall (λ c, name_char c = true) s → one_line s.
Proof. apply string_forall_impl. intros c H ->. by vm_compute in H. Qed.
Lemma sanitize_one_line name : one_line (sanitize_name name).
Proof. pose proof (sanitize_valid name) as H. destruct (sanitize_name name); [done|]. apply name_one_line, H. Qed.
Lemma escape_one_line value : one_line (escape_label_value value).
Proof.
  apply on_characters_forall. intros c. unfold escape_char. destruct (decide (c = backslash_char)) as [->|H1]; [by vm_compute|].
  rewrite (bool_decide_eq_false_2 _ H1). destruct (decide (c = quote_char)) as [->|H2]; [by vm_compute|].
  rewrite (bool_decide_eq_false_2 _ H2). cbn [orb]. destruct (decide (c = newline_char)) as [->|H3]; [by vm_compute|].
  rewrite (bool_decide_eq_false_2 _ H3). destruct (bool_decide _); [by vm_compute|]. by split.
Qed.
(** How many line breaks a text has. *)
Fixpoint line_breaks (s : string) : nat :=
  match s with EmptyString => 0 | String c rest => (if bool_decide (c = newline_char) then 1 else 0) + line_breaks rest end.
Lemma line_breaks_app a b : line_breaks (a +:+ b) = line_breaks a + line_breaks b.
Proof. induction a as [|c a IH]; simpl; [done|]. rewrite IH. lia. Qed.
Lemma one_line_breaks s : one_line s → line_breaks s = 0.
Proof. induction s as [|c s IH]; simpl; [done|]. intros [Hc Hs]. rewrite bool_decide_eq_false_2 by done. by apply IH. Qed.
Lemma lines_breaks lines : Forall one_line lines → line_breaks (fold_right (fun line text => line +:+ newline +:+ text) "" lines) = length lines.
Proof.
  induction 1 as [|line lines H _ IH]; cbn [fold_right length]; [done|]. rewrite !line_breaks_app, (one_line_breaks line), IH by done.
  reflexivity.
Qed.

(** ** The text of an exporter *)
Section render.
Context (show_finite : QArith_base.Q → string) (double_mul : Double → Double → Double).
Context (Hshow : ∀ q, one_line (show_finite q)).
Abbreviation format := (format_value show_finite).
Lemma format_one_line v : one_line (format v).
Proof. destruct v as [q|[]|]; simpl; [apply Hshow|by vm_compute..]. Qed.
Lemma separated_one_line l : Forall one_line l → one_line (separated l).
Proof. induction 1 as [|x [|y l] Hx _ IH]; simpl separated; [done|done|]. apply one_line_app. split; [done|]. by split. Qed.
Lemma map_items_forall {V} (P : string → V → Prop) (m : gmap string V) : map_Forall P m → Forall (λ x, P x.1 x.2) (map_items m).
Proof. intros H. apply Forall_forall. intros [k v] Hin. apply elem_of_map_items in Hin. by apply H. Qed.
Lemma labels_one_line d m : one_line (render_labels (descriptor_labels d m)).
Proof.
  unfold render_labels. set (labels := descriptor_labels d m).
  assert (map_Forall (λ k _, one_line k) labels) as H.
  { unfold labels, descriptor_labels. repeat case_match; repeat apply map_Forall_insert_2; try (by vm_compute); apply map_Forall_empty. }
  apply map_items_forall in H. destruct (map_items labels) as [|x l]; [done|]. revert H. generalize (x :: l). clear x l. intros l H.
  rewrite !one_line_app. split; [by vm_compute|]. split; [|by vm_compute]. apply separated_one_line, Forall_fmap. eapply Forall_impl; [exact H|].
  intros [k v] Hk. unfold compose, render_label. rewrite !one_line_app. split_and!; [done|by vm_compute|by vm_compute|apply escape_one_line|by vm_compute].
Qed.
(** What rendering keeps: every line is one line, header lines belong to names whose headers were written, and are not
    repeated. *)
Definition is_header (line : string) : bool := starts_with line "# ".
Definition header_line (kind name rest : string) : string := "# " +:+ kind +:+ " " +:+ name +:+ " " +:+ rest.
Definition plain_name (name : string) : Prop := string_forall (λ c, name_char c = true) name.
(** No two lines are the same header of the same name. *)
Definition one_header_each (lines : list string) : Prop := ∀ i j kind name rest rest', kind ∈ ["HELP"; "TYPE"] → plain_name name →
  lines !! i = Some (header_line kind name rest) → lines !! j = Some (header_line kind name rest') → i = j.
Record well_formed (t : Text) : Prop := {
  wf_lines : Forall one_line (text_lines t);
  wf_headers : one_header_each (text_lines t);
  wf_names : Forall (λ line, is_header line = true → ∃ kind name rest, kind ∈ ["HELP"; "TYPE"] ∧ name ∈ text_headers t ∧ plain_name name ∧
    line = header_line kind name rest) (text_lines t) }.
Lemma empty_wf : well_formed (mkText [] ∅).
Proof. split; [constructor| |constructor]. by intros i j ?????? [=]. Qed.
Lemma app_string_inj_l a b c : a +:+ b = a +:+ c → b = c.
Proof. induction a as [|x a IH]; [done|]. intros [= H]. by apply IH. Qed.
(** The first word of a text. *)
Lemma first_word_inj n n' r r' : plain_name n → plain_name n' → n +:+ " " +:+ r = n' +:+ " " +:+ r' → n = n'.
Proof.
  revert n'. induction n as [|c n IH]; intros [|c' n'] H H' E; [done| | |].
  - injection E as <- _. by destruct H' as [H' _].
  - injection E as -> _. by destruct H as [H _].
  - injection E as <- E. f_equal. apply (IH n'); [apply H|apply H'|exact E].
Qed.
Lemma header_line_name kind kind' n n' r r' : kind ∈ ["HELP"; "TYPE"] → kind' ∈ ["HELP"; "TYPE"] → plain_name n → plain_name n' →
  header_line kind n r = header_line kind' n' r' → kind = kind' ∧ n = n'.
Proof.
  intros Hk Hk' Hn Hn' E. apply list_elem_of_In in Hk, Hk'. unfold header_line in E. apply app_string_inj_l in E.
  destruct Hk as [<-|[<-|[]]], Hk' as [<-|[<-|[]]]; simpl in E; (try done); injection E as E; (split; [done|]);
    by eapply (first_word_inj n n' r r').
Qed.
Lemma header_is_header kind name rest : is_header (header_line kind name rest) = true.
Proof. unfold is_header, header_line, starts_with. by destruct (kind +:+ " " +:+ name +:+ " " +:+ rest). Qed.
Lemma headers_app lines new : one_header_each lines → one_header_each new →
  (∀ kind name rest rest', kind ∈ ["HELP"; "TYPE"] → plain_name name → header_line kind name rest ∈ lines → header_line kind name rest' ∈ new → False) →
  one_header_each (lines ++ new).
Proof.
  intros H1 H2 H i j kind name rest rest' Hk Hn Hi Hj. apply lookup_app_Some in Hi, Hj.
  destruct Hi as [Hi|[Li Hi]], Hj as [Hj|[Lj Hj]].
  - exact (H1 _ _ _ _ _ _ Hk Hn Hi Hj).
  - exfalso. eapply (H kind name rest rest'); [done|done|by eapply list_elem_of_lookup_2..].
  - exfalso. eapply (H kind name rest' rest); [done|done|by eapply list_elem_of_lookup_2..].
  - pose proof (H2 _ _ _ _ _ _ Hk Hn Hi Hj). lia.
Qed.
Lemma fresh_header kind name rest t : kind ∈ ["HELP"; "TYPE"] → plain_name name → well_formed t → header_line kind name rest ∈ text_lines t → name ∈ text_headers t.
Proof.
  intros Hk Hn [_ _ H] Hin. rewrite Forall_forall in H. destruct (H _ Hin (header_is_header _ _ _)) as (kind'&name'&rest'&Hk'&Hin'&Hn'&E).
  by apply header_line_name in E as [_ ->].
Qed.
Lemma add_line_wf line t : one_line line → is_header line = false → well_formed t → well_formed (add_line line t).
Proof.
  intros Hl Hh [H1 H2 H3]. split; cbn [text_lines add_line text_headers].
  - apply Forall_app. split; [done|]. by constructor.
  - apply headers_app; [done| |].
    + intros i j ????? _ Hi _. apply list_elem_of_lookup_2, list_elem_of_singleton in Hi. by rewrite <- Hi, header_is_header in Hh.
    + intros ?????? _ Hi%list_elem_of_singleton. by rewrite <- Hi, header_is_header in Hh.
  - apply Forall_app. split; [done|]. constructor; [by rewrite Hh|constructor].
Qed.
Lemma header_pair_once name help type : plain_name name → one_header_each [header_line "HELP" name help; header_line "TYPE" name type].
Proof.
  intros Hp i j kind n rest rest' Hk Hn Hi Hj.
  assert (∀ i rest, [header_line "HELP" name help; header_line "TYPE" name type] !! i = Some (header_line kind n rest) →
    i = if str_eqb kind "HELP" then 0 else 1) as H; [|by rewrite (H i rest), (H j rest')].
  clear i j Hi Hj rest rest'. intros [|[|i]] rest Hi; [| |by destruct i];
    apply (inj Some) in Hi; apply header_line_name in Hi as [<- _]; (done || set_solver).
Qed.
Lemma render_header_wf name type help t : plain_name name → one_line type → one_line help → well_formed t →
  well_formed (render_header name type help t) ∧ text_lines t `prefix_of` text_lines (render_header name type help t).
Proof.
  intros Hn Ht Hh Hw. unfold render_header. destruct (bool_decide _) eqn:Eb; [done|]. apply bool_decide_eq_false in Eb as Hf.
  split; [|by eexists]. change ("# HELP " +:+ name +:+ " " +:+ help) with (header_line "HELP" name help).
  change ("# TYPE " +:+ name +:+ " " +:+ type) with (header_line "TYPE" name type).
  apply name_one_line in Hn as Hl. pose proof (fun kind rest Hk => fresh_header kind name rest t Hk Hn Hw) as Hfresh.
  destruct Hw as [H1 H2 H3]. split; cbn [text_lines text_headers].
  - apply Forall_app. split; [done|]. unfold header_line. constructor; [|constructor; [|constructor]]; rewrite !one_line_app; split_and!; (done || by vm_compute).
  - apply headers_app; [done|by apply header_pair_once|]. intros kind n rest rest' Hk Hn' Hold Hnew.
    assert (n = name) as ->; [|by eapply Hf, Hfresh].
    apply elem_of_cons in Hnew as [E|E%list_elem_of_singleton]; apply header_line_name in E as [_ ->]; (done || set_solver).
  - apply Forall_app. split.
    + eapply Forall_impl; [exact H3|]. intros line H Hl'. destruct (H Hl') as (kind&n&rest&?&?&?&?). exists kind, n, rest. set_solver.
    + constructor; [|constructor; [|constructor]]; intros _; eexists _, name, _; (split; [|split; [by apply elem_of_union_l, elem_of_singleton|by split]]); set_solver.
Qed.
(** A step of the rendering. *)
Definition step_ok (t t' : Text) : Prop := well_formed t → well_formed t' ∧ text_lines t `prefix_of` text_lines t'.
Lemma step_refl t : step_ok t t.
Proof. by intros H. Qed.
Lemma step_trans t1 t2 t3 : step_ok t1 t2 → step_ok t2 t3 → step_ok t1 t3.
Proof. intros H1 H2 W. destruct (H1 W) as [W2 P1]. destruct (H2 W2) as [W3 P2]. split; [done|by etrans]. Qed.
Lemma named_line name rest : plain_name name → name ≠ "" → is_header (name +:+ rest) = false.
Proof.
  destruct name as [|c name]; [done|]. intros [Hc _] _. unfold is_header, starts_with.
  change (String c name +:+ rest) with (String c (name +:+ rest)). cbn [String.prefix].
  destruct (ascii_dec "#" c) as [<-|]; [by vm_compute in Hc|done].
Qed.
Lemma named_step name rest t : plain_name name → name ≠ "" → one_line rest → step_ok t (add_line (name +:+ rest) t).
Proof.
  intros Hn Hne Hr W. split; [|by eexists]. apply add_line_wf; [|by apply named_line|done]. apply one_line_app. split; [by apply name_one_line|done].
Qed.
Lemma header_step name type help t : plain_name name → one_line type → one_line help → step_ok t (render_header name type help t).
Proof. intros ? ? ? W. by apply render_header_wf. Qed.
Lemma sanitize_plain name : plain_name (sanitize_name name) ∧ sanitize_name name ≠ "".
Proof. pose proof (sanitize_valid name) as H. destruct (sanitize_name name); [done|]. by destruct H. Qed.
Lemma plain_app a b : plain_name a → plain_name b → plain_name (a +:+ b).
Proof. intros. by apply string_forall_app. Qed.
Lemma app_not_empty a b : a ≠ "" → a +:+ b ≠ "".
Proof. by destruct a. Qed.
Lemma sample_name_plain d : plain_name (prometheus_sample_name d) ∧ prometheus_sample_name d ≠ "".
Proof.
  unfold prometheus_sample_name. destruct (sanitize_plain (descr_name d)) as [H1 H2]. destruct (_ && _); [|done].
  split; [apply plain_app; [done|by vm_compute]|by apply app_not_empty].
Qed.
Definition sample_line (d : RuntimeMetricDescriptor) (m : RuntimeMetricSample) : string :=
  prometheus_sample_name d +:+ render_labels (descriptor_labels d m) +:+ " " +:+ format (sample_value m).
Lemma descriptor_step d m t : one_line (descr_name d) → let t' := render_descriptor_sample show_finite d m t in
  step_ok t t' ∧ (∃ before, text_lines t' = text_lines t ++ before ++ [sample_line d m]).
Proof.
  intros Hd. unfold render_descriptor_sample. destruct (sample_name_plain d) as [H1 H2]. split.
  - eapply step_trans; [apply (header_step (prometheus_sample_name d) (prometheus_type d)); [done| |]|apply named_step; [done|done|]].
    + unfold prometheus_type. repeat case_match; by vm_compute.
    + apply one_line_app. split; [by vm_compute|done].
    + rewrite !one_line_app. split_and!; [apply labels_one_line|by vm_compute|apply format_one_line].
  - unfold render_header. destruct (bool_decide _); simpl; [by exists []|]. exists ["# HELP " +:+ prometheus_sample_name d +:+ " TopoExec runtime metric " +:+ descr_name d;
      "# TYPE " +:+ prometheus_sample_name d +:+ " " +:+ prometheus_type d]. by rewrite <- app_assoc.
Qed.
Lemma gauge_step base suffix value t : plain_name base → base ≠ "" → plain_name suffix → step_ok t (render_optional_gauge show_finite base suffix value t).
Proof.
  intros H1 H2 H3. unfold render_optional_gauge. destruct value as [v|]; [|apply step_refl].
  assert (plain_name (base +:+ "_" +:+ suffix)) as Hn by (apply plain_app; [done|apply plain_app; [by vm_compute|done]]).
  eapply step_trans; [apply (header_step (base +:+ "_" +:+ suffix) "gauge"); [done|by vm_compute|]|apply named_step; [done|by apply app_not_empty|]].
  - apply one_line_app. split; [by vm_compute|by apply name_one_line].
  - apply one_line_app. split; [by vm_compute|apply format_one_line].
Qed.
Lemma quantile_step name quantile value t : plain_name name → name ≠ "" → one_line quantile → step_ok t (render_quantile show_finite name quantile value t).
Proof.
  intros H1 H2 H3. unfold render_quantile. destruct value as [v|]; [|apply step_refl]. apply named_step; [done|done|].
  rewrite !one_line_app. split_and!; [by vm_compute|by vm_compute|done|by vm_compute|by vm_compute|apply format_one_line].
Qed.
Lemma summary_step base h t : one_line base → step_ok t (render_histogram_summary show_finite double_mul base h t).
Proof.
  intros Hb. unfold render_histogram_summary. destruct (sanitize_plain base) as [H1 H2]. cbv zeta.
  eapply step_trans; [apply (header_step (sanitize_name base) "summary" ("TopoExec custom histogram summary " +:+ base)); [done|by vm_compute|]|].
  { apply one_line_app. split; [by vm_compute|done]. }
  assert (∀ v suffix t, one_line suffix → step_ok t (add_line (sanitize_name base +:+ suffix +:+ format v) t)) as Hl.
  { intros v suffix t0 Hs. apply named_step; [done|done|]. apply one_line_app. split; [done|apply format_one_line]. }
  match goal with |- step_ok ?t1 _ => generalize t1 end. clear t. intros t.
  assert (step_ok t (match hs_count h with
    | None => t
    | Some count =>
        let t := add_line (sanitize_name base +:+ "_count " +:+ format count) t in
        match hs_avg h with None => t | Some avg => add_line (sanitize_name base +:+ "_sum " +:+ format (double_mul avg count)) t end
    end)) as Hc.
  { destruct (hs_count h) as [count|]; [|apply step_refl]. cbv zeta. eapply step_trans; [apply (Hl count "_count "); by vm_compute|].
    destruct (hs_avg h) as [avg|]; [apply (Hl (double_mul avg count) "_sum "); by vm_compute|apply step_refl]. }
  cbv zeta in Hc. eapply step_trans; [exact Hc|]. clear Hc Hl. match goal with |- step_ok ?t1 _ => generalize t1 end. clear t. intros t.
  assert (∀ q v, one_line q → ∀ t, step_ok t (render_quantile show_finite (sanitize_name base) q v t)) as Hq by (intros; by apply quantile_step).
  assert (∀ suffix v, plain_name suffix → ∀ t, step_ok t (render_optional_gauge show_finite (sanitize_name base) suffix v t)) as Hg
    by (intros; by apply gauge_step).
  eapply step_trans; [apply (Hq "0.5" (hs_p50 h)); by vm_compute|]. eapply step_trans; [apply (Hq "0.95" (hs_p95 h)); by vm_compute|].
  eapply step_trans; [apply (Hq "0.99" (hs_p99 h)); by vm_compute|]. eapply step_trans; [apply (Hg "min" (hs_min h)); by vm_compute|].
  eapply step_trans; [apply (Hg "max" (hs_max h)); by vm_compute|]. apply (Hg "avg" (hs_avg h)); by vm_compute.
Qed.

(** *** The whole text *)
Definition described_samples (metrics : list RuntimeMetricSample) : list (RuntimeMetricDescriptor * RuntimeMetricSample) :=
  omap (λ m, d ← find_runtime_metric_descriptor (sample_name m); Some (d, m)) metrics.
Lemma descriptor_names_one_line : Forall (λ d, one_line (descr_name d)) runtime_metric_descriptors.
Proof. apply (bool_decide_unpack _). vm_compute. exact Logic.I. Qed.
Lemma found_one_line name d : find_runtime_metric_descriptor name = Some d → one_line (descr_name d).
Proof.
  intros H. pose proof descriptor_names_one_line as Hall. rewrite Forall_forall in Hall. apply Hall, list_elem_of_In.
  unfold find_runtime_metric_descriptor in H. by apply find_some in H as [H _].
Qed.
Lemma substring_forall P n k s : string_forall P s → string_forall P (String.substring n k s).
Proof.
  revert n k. induction s as [|c s IH]; intros n k H; [by destruct n, k|]. destruct H as [Hc Hs].
  destruct n as [|n], k as [|k]; simpl; [done|split; [done|by apply IH]|by apply IH|by apply IH].
Qed.
Lemma summary_name_one_line name base part : one_line name → parse_histogram_summary name = Some (base, part) → one_line base.
Proof.
  unfold parse_histogram_summary. destruct (List.find _ _); [|done]. intros Hn. destruct (str_empty _); [done|]. intros [= <- _].
  by apply substring_forall.
Qed.
Lemma samples_fold metrics t histograms : Forall (λ m, one_line (sample_name m)) metrics → map_Forall (λ base _, one_line base) histograms →
  let '(t', histograms') := fold_left (render_sample show_finite) metrics (t, histograms) in
  (step_ok t t' ∧ ∃ lines, text_lines t' = text_lines t ++ lines ∧
     (λ x, sample_line x.1 x.2) <$> described_samples metrics `sublist_of` lines) ∧ map_Forall (λ base _, one_line base) histograms'.
Proof.
  intros Hm. revert t histograms. induction Hm as [|m metrics Hm _ IH]; intros t histograms Hh; cbn [fold_left].
  { split; [|done]. split; [apply step_refl|]. exists []. by rewrite app_nil_r. }
  unfold render_sample at 2. destruct (find_runtime_metric_descriptor (sample_name m)) as [d|] eqn:Ed.
  - destruct (descriptor_step d m t) as [Hs (before&Eb)]; [by eapply found_one_line|]. specialize (IH (render_descriptor_sample show_finite d m t) histograms Hh).
    destruct (fold_left _ metrics _) as [t' h']. destruct IH as [[H1 (lines&E&Hsub)] H2]. split; [|done]. split; [by eapply step_trans|].
    exists ((before ++ [sample_line d m]) ++ lines). split; [by rewrite E, Eb, <- app_assoc|].
    assert (described_samples (m :: metrics) = (d, m) :: described_samples metrics) as -> by (unfold described_samples; simpl; by rewrite Ed).
    cbn [fmap list_fmap fst snd]. rewrite <- app_assoc. apply sublist_inserts_l. simpl. by apply sublist_skip.
  - assert (described_samples (m :: metrics) = described_samples metrics) as -> by (unfold described_samples; simpl; by rewrite Ed).
    destruct (parse_histogram_summary (sample_name m)) as [[base part]|] eqn:Ep; [|by apply IH]. apply IH. apply map_Forall_insert_2; [|done].
    by eapply summary_name_one_line.
Qed.
Lemma summaries_fold items t : Forall (λ x : string * HistogramSummary, one_line x.1) items →
  step_ok t (fold_left (λ t '(base, h), render_histogram_summary show_finite double_mul base h t) items t).
Proof.
  intros H. revert t. induction H as [|[base h] items Hb _ IH]; intros t; cbn [fold_left]; [apply step_refl|].
  eapply step_trans; [by apply summary_step|apply IH].
Qed.
Lemma render_lines_ok metrics : Forall (λ m, one_line (sample_name m)) metrics → let t := render_lines show_finite double_mul metrics in
  well_formed t ∧ (λ x, sample_line x.1 x.2) <$> described_samples metrics `sublist_of` text_lines t.
Proof.
  intros Hm. unfold render_lines. pose proof (samples_fold metrics (mkText [] ∅) ∅ Hm (map_Forall_empty _)) as H.
  destruct (fold_left _ metrics _) as [t h]. destruct H as [[H1 (lines&E&Hsub)] H2]. destruct (H1 empty_wf) as [W _].
  destruct (summaries_fold (map_items h) t (map_items_forall _ _ H2) W) as [W' P]. split; [exact W'|].
  etrans; [exact Hsub|]. simpl in E. rewrite <- E. destruct P as [rest ->]. by apply sublist_inserts_r.
Qed.
End render.

(** ** Reading a sample line *)
(** The name at the front of a text. *)
Fixpoint span_name (s : string) : string * string :=
  match s with
  | EmptyString => ("", "")
  | String c rest => if name_char c then let '(name, rest) := span_name rest in (String c name, rest) else ("", s)
  end.
Fixpoint read_pairs (fuel : nat) (s : string) : option (list (string * string) * string) :=
  match fuel with
  | 0 => None
  | S fuel =>
      let '(key, s) := span_name s in
      match s with
      | String e (String q s) =>
          if bool_decide (e = "="%char) && bool_decide (q = quote_char) then
            match read_quoted s with
            | Some (value, String c s) =>
                if bool_decide (c = ","%char) then
                  match read_pairs fuel s with Some (pairs, s) => Some ((key, value) :: pairs, s) | None => None end
                else if bool_decide (c = "}"%char) then Some ([(key, value)], s) else None
            | _ => None
            end
          else None
      | _ => None
      end
  end.
(** Name, labels and the text of the value. *)
Definition read_sample (s : string) : option (string * list (string * string) * string) :=
  let '(name, s) := span_name s in
  match s with
  | String c s =>
      if bool_decide (c = " "%char) then Some (name, [], s)
      else if bool_decide (c = "{"%char) then
        match read_pairs (String.length s) s with
        | Some (pairs, String c s) => if bool_decide (c = " "%char) then Some (name, pairs, s) else None
        | _ => None
        end
      else None
  | EmptyString => None
  end.
Lemma span_name_app name c rest : plain_name name → name_char c = false → span_name (name +:+ String c rest) = (name, String c rest).
Proof.
  intros Hn Hc. induction name as [|x name IH]; [exact (f_equal (λ b : bool, if b then _ else _) Hc)|]. destruct Hn as [Hx Hn].
  change (String x name +:+ String c rest) with (String x (name +:+ String c rest)). cbn [span_name]. by rewrite Hx, IH.
Qed.
Lemma read_label key value c rest fuel : plain_name key → (c = ","%char ∨ c = "}"%char) →
  read_pairs (S fuel) (render_label (key, value) +:+ String c rest) =
  if bool_decide (c = ","%char) then match read_pairs fuel rest with Some (pairs, s) => Some ((key, value) :: pairs, s) | None => None end
  else Some ([(key, value)], rest).
Proof.
  intros Hk Hc. unfold render_label. cbn [fst snd]. rewrite !str_app_assoc.
  change ("=" +:+ quote +:+ escape_label_value value +:+ quote +:+ String c rest) with
    (String "=" (String quote_char (escape_label_value value +:+ quote +:+ String c rest))).
  cbn [read_pairs]. rewrite span_name_app by done. rewrite read_escaped. rewrite !bool_decide_eq_true_2 by done. cbn [andb].
  by destruct Hc as [->| ->].
Qed.
Lemma read_separated items rest fuel : items ≠ [] → Forall (λ x : string * string, plain_name x.1) items → length items ≤ fuel →
  read_pairs fuel (separated (render_label <$> items) +:+ String "}" rest) = Some (items, rest).
Proof.
  intros Hne H. revert fuel Hne. induction H as [|[k v] items Hk H IH]; [done|]. intros [|fuel] _ Hf; [simpl in Hf; lia|].
  cbn [fst] in Hk. destruct items as [|y items].
  - change (separated (render_label <$> [(k, v)])) with (render_label (k, v)). by rewrite read_label by auto.
  - change (separated (render_label <$> (k, v) :: y :: items)) with (render_label (k, v) +:+ String "," (separated (render_label <$> y :: items))).
    rewrite str_app_assoc. change (String "," (separated (render_label <$> y :: items)) +:+ String "}" rest) with
      (String "," (separated (render_label <$> y :: items) +:+ String "}" rest)).
    rewrite read_label by auto. rewrite bool_decide_eq_true_2 by done. rewrite IH; [done|done|]. simpl in *. lia.
Qed.
Lemma separated_length items : length items ≤ String.length (separated (render_label <$> items)).
Proof.
  induction items as [|[k v] [|y items] IH]; [done| |].
  - change (separated (render_label <$> [(k, v)])) with (render_label (k, v)). unfold render_label. rewrite !str_app_length. simpl. lia.
  - change (separated (render_label <$> (k, v) :: y :: items)) with (render_label (k, v) +:+ "," +:+ separated (render_label <$> y :: items)).
    rewrite !str_app_length. change (String.length ",") with 1. cbn [length] in *. lia.
Qed.
Lemma read_rendered name (labels : gmap string string) value : plain_name name → map_Forall (λ k _, plain_name k) labels →
  read_sample (name +:+ render_labels labels +:+ " " +:+ value) = Some (name, map_items labels, value).
Proof.
  intros Hn Hl. unfold render_labels. apply map_items_forall in Hl. destruct (map_items labels) as [|x items].
  - unfold read_sample. change ("" +:+ " " +:+ value) with (String " " value). by rewrite span_name_app.
  - revert Hl. generalize (x :: items), (@nil_cons _ x items). clear x items. intros items Hne Hl. rewrite !str_app_assoc.
    change ("{" +:+ separated (render_label <$> items) +:+ "}" +:+ " " +:+ value) with
      (String "{" (separated (render_label <$> items) +:+ String "}" (String " " value))).
    unfold read_sample. rewrite span_name_app by done. rewrite read_separated; [done|by apply not_eq_sym|exact Hl|].
    rewrite str_app_length. pose proof (separated_length items). lia.
Qed.

(** ** What the exporter promises *)
Lemma add_label_spec allowed key value (labels : gmap string string) k v :
  (if allowed && negb (str_empty value) then <[key := value]> labels else labels) !! k = Some v ↔
  (key = k ∧ value = v ∧ v ≠ "" ∧ allowed = true) ∨ ((key ≠ k ∨ value = "" ∨ allowed = false) ∧ labels !! k = Some v).
Proof.
  destruct allowed; [|naive_solver]. destruct value as [|c value]; cbn [andb negb str_empty]; [naive_solver|].
  destruct (decide (key = k)) as [->|]; [rewrite lookup_insert_eq|rewrite lookup_insert_ne by done]; naive_solver.
Qed.
Lemma descriptor_labels_spec d m k v : descriptor_labels d m !! k = Some v ↔
  (k, v) ∈ [("component_id", sample_component_id m); ("lane", sample_lane m); ("channel_id", sample_channel_id m)] ∧ v ≠ "" ∧ has_label d k = true.
Proof.
  unfold descriptor_labels. rewrite !add_label_spec, lookup_empty, !elem_of_cons, elem_of_nil, !pair_equal_spec. naive_solver.
Qed.
Lemma accepted_labels d m : status_ok (validate_descriptor_labels d m) = true → ∀ k v,
  (k, v) ∈ [("component_id", sample_component_id m); ("lane", sample_lane m); ("channel_id", sample_channel_id m)] → v ≠ "" → has_label d k = true.
Proof.
  unfold validate_descriptor_labels. intros H k v Hin Hv. assert (str_empty v = false) as Hv' by (by destruct v).
  rewrite !elem_of_cons, elem_of_nil, !pair_equal_spec in Hin.
  destruct (has_label d k) eqn:E; [done|]. exfalso. destruct Hin as [[-> ->]|[[-> ->]|[[-> ->]|[]]]]; rewrite Hv', E in H; by repeat case_match.
Qed.
Lemma accepted_metric m e d : find_runtime_metric_descriptor (sample_name m) = Some d → status_ok (exporter_on_metric m e).2 = true →
  status_ok (validate_descriptor_labels d m) = true ∧ (exporter_on_metric m e).1 = exporter_push m e.
Proof. intros Hd. unfold exporter_on_metric. rewrite Hd. by destruct (status_ok (validate_descriptor_labels d m)) eqn:El; simpl; rewrite ?El. Qed.
Lemma items_labels d m k v : (k, v) ∈ map_items (descriptor_labels d m) ↔ descriptor_labels d m !! k = Some v.
Proof. apply elem_of_map_items. Qed.
Lemma sample_line_reads show d m : read_sample (sample_line show d m) =
  Some (prometheus_sample_name d, map_items (descriptor_labels d m), format_value show (sample_value m)).
Proof.
  unfold sample_line. apply read_rendered; [apply sample_name_plain|]. intros k v Hk. apply descriptor_labels_spec in Hk as [Hk _].
  rewrite !elem_of_cons, elem_of_nil, !pair_equal_spec in Hk. destruct Hk as [[-> _]|[[-> _]|[[-> _]|[]]]]; by vm_compute.
Qed.
(** C29. C. While the exporter has room and the names of the metrics that it holds are one line each, a described metric that it accepts is a line
    of its text from which the metric's name, the component, lane and channel of the sample, whatever characters these three contain, and the
    text of the value are read back.  (A full exporter drops the metric and reports success; a held name with a line break
    forges lines, torn_name_forges_line.) *)
Theorem exported_sample_reads_back (show : QArith_base.Q → string) double_mul (e : TextExporter) (m : RuntimeMetricSample) d :
  (∀ q, one_line (show q)) → Forall (λ x, one_line (sample_name x)) (ex_metrics e) →
  find_runtime_metric_descriptor (sample_name m) = Some d → status_ok (exporter_on_metric m e).2 = true → length (ex_metrics e) < ex_capacity e →
  ∃ line labels, line ∈ text_lines (render_lines show double_mul (ex_metrics (exporter_on_metric m e).1)) ∧
    read_sample line = Some (prometheus_sample_name d, labels, format_value show (sample_value m)) ∧ NoDup labels.*1 ∧
    ∀ k v, (k, v) ∈ labels ↔ v ≠ "" ∧ (k, v) ∈ [("component_id", sample_component_id m); ("lane", sample_lane m); ("channel_id", sample_channel_id m)].
Proof.
  intros Hs He Hd Hok Hr. apply accepted_metric with (d := d) in Hok as [Hl ->]; [|done]. unfold exporter_push.
  rewrite (proj2 (Nat.leb_gt _ _) Hr). cbn. exists (sample_line show d m), (map_items (descriptor_labels d m)).
  split; [|split; [apply sample_line_reads|split; [apply NoDup_map_keys|]]].
  - assert (Forall (λ x, one_line (sample_name x)) (ex_metrics e ++ [m])) as Hm.
    { apply Forall_app. split; [done|]. constructor; [|constructor]. apply find_some in Hd as [Hin ->%str_eqb_eq%eq_sym]. apply list_elem_of_In in Hin.
      pose proof descriptor_names_one_line as Hall. rewrite Forall_forall in Hall. by apply Hall. }
    pose proof (render_lines_ok show double_mul Hs _ Hm) as [_ Hsub]. eapply elem_of_submseteq; [|by apply sublist_submseteq].
    apply list_elem_of_fmap. exists (d, m). split; [done|]. unfold described_samples. rewrite omap_app, elem_of_app. right. simpl. rewrite Hd. left.
  - intros k v. rewrite items_labels, descriptor_labels_spec. split; [tauto|]. intros [Hv Hin]. split; [done|split; [done|]]. by eapply accepted_labels.
Qed.
(** C. The text of an exporter is its lines with a line break after each and none inside, as long as metric names have
    none; the headers of a name are written once, and every described sample has its line, in the order of the samples. *)
Theorem text_well_formed (show : QArith_base.Q → string) double_mul (e : TextExporter) :
  (∀ q, one_line (show q)) → Forall (λ x, one_line (sample_name x)) (ex_metrics e) →
  ∃ lines, render_text show double_mul e = fold_right (λ line text, line +:+ newline +:+ text) "" lines ∧
    line_breaks (render_text show double_mul e) = length lines ∧ one_header_each lines ∧
    (λ x, sample_line show x.1 x.2) <$> described_samples (ex_metrics e) `sublist_of` lines.
Proof.
  intros Hs He. pose proof (render_lines_ok show double_mul Hs _ He) as [[H1 H2 _] H3]. eexists. split; [reflexivity|].
  split; [|by split]. unfold render_text. by apply lines_breaks.
Qed.
(** A histogram name with a line break is accepted, and its rest becomes a line of the text. *)
Definition torn_name : string := "a" +:+ newline +:+ "forged_total 7.count".
Lemma torn_name_forges_line show double_mul : let m := mkSample torn_name (Finite (QArith_base.inject_Z 1)) "" "" "" [] in
  let e := (exporter_on_metric m (TextExporter_new 8 true)).1 in
  ex_metrics e = [m] ∧ ∃ before after, render_text show double_mul e = before +:+ newline +:+ "forged_total 7" +:+ newline +:+ after.
Proof.
  cbv zeta. split; [by vm_compute|]. eexists "# HELP a_forged_total_7 TopoExec custom histogram summary a", _. vm_compute. reflexivity.
Qed.

(** ** The theorems at work *)
Definition demo_show (q : QArith_base.Q) : string := if QArith_base.Qle_bool (QArith_base.inject_Z 1) q then "1" else "0".
Lemma demo_show_line q : one_line (demo_show q).
Proof. unfold demo_show. destruct (QArith_base.Qle_bool _ _); by vm_compute. Qed.
Definition demo_mul (a b : Double) : Double := a.
Definition demo_sample : RuntimeMetricSample :=
  mkSample "runtime.component.error_count" (Finite (QArith_base.inject_Z 1)) ("a" +:+ quote +:+ newline +:+ "\b}") "" "" [].
Definition demo_exporter : TextExporter := (exporter_on_metric demo_sample (TextExporter_new 4 true)).1.
Definition demo_lines : list string :=
  ["# HELP runtime_component_error_count_total TopoExec runtime metric runtime.component.error_count";
   "# TYPE runtime_component_error_count_total counter";
   "runtime_component_error_count_total{component_id=" +:+ quote +:+ "a\" +:+ quote +:+ "\n\\b}" +:+ quote +:+ "} 1"].
Example demo_exporter_text : text_lines (render_lines demo_show demo_mul (ex_metrics demo_exporter)) = demo_lines.
Proof. vm_compute. reflexivity. Qed.
Example demo_line_read : read_sample (List.nth 2 demo_lines "") =
  Some ("runtime_component_error_count_total", [("component_id", "a" +:+ quote +:+ newline +:+ "\b}")], "1").
Proof. vm_compute. reflexivity. Qed.
Lemma exported_sample_reads_back_witness : ∃ d line labels,
  find_runtime_metric_descriptor (sample_name demo_sample) = Some d ∧
  line ∈ text_lines (render_lines demo_show demo_mul (ex_metrics demo_exporter)) ∧
  read_sample line = Some (prometheus_sample_name d, labels, format_value demo_show (sample_value demo_sample)) ∧
  ("component_id", sample_component_id demo_sample) ∈ labels.
Proof.
  destruct (find_runtime_metric_descriptor (sample_name demo_sample)) as [d|] eqn:Ed; [|by vm_compute in Ed].
  destruct (exported_sample_reads_back demo_show demo_mul (TextExporter_new 4 true) demo_sample d demo_show_line
    ltac:(constructor) Ed ltac:(vm_compute; reflexivity) ltac:(vm_compute; lia)) as (line&labels&H1&H2&_&H3).
  exists d, line, labels. split; [reflexivity|]. split; [exact H1|]. split; [exact H2|]. apply H3. split; [done|left].
Defined.
Lemma text_well_formed_witness : ∃ lines, line_breaks (render_text demo_show demo_mul demo_exporter) = length lines ∧ one_header_each lines.
Proof.
  destruct (text_well_formed demo_show demo_mul demo_exporter demo_show_line ltac:(apply (bool_decide_unpack _); vm_compute; exact Logic.I))
    as (lines&_&H1&H2&_). by exists lines.
Defined.
