(* ===== verification/Utf8.v ===== *)
(** * Utf8: the text of a graph document is UTF-8

    Models [is_valid_utf8] of [src/graph_io.cpp] on the bytes of a string, and proves that it accepts exactly the
    concatenations of the encodings of Unicode scalar values (no overlong forms, no surrogates, nothing above U+10FFFF). *)

From S2P Require Export Prelude.
From Stdlib Require Import Ascii.
Local Open Scope Z_scope.

(** ** The scanner *)
Definition byte (c : ascii) : Z := Z.of_N (N_of_ascii c).
(** How many bytes follow a first byte above 0x7F, and the bits that it contributes. *)
Definition lead_byte (b : Z) : option (nat * Z) :=
  if Z.land b 0xE0 =? 0xC0 then let codepoint := Z.land b 0x1F in if codepoint =? 0 then None else Some (1%nat, codepoint)
  else if Z.land b 0xF0 =? 0xE0 then Some (2%nat, Z.land b 0x0F)
  else if Z.land b 0xF8 =? 0xF0 then Some (3%nat, Z.land b 0x07)
  else None.
Fixpoint read_continuation (needed : nat) (codepoint : Z) (s : string) : option (Z * string) :=
  match needed, s with
  | O, _ => Some (codepoint, s)
  | S n, String c rest =>
      if negb (Z.land (byte c) 0xC0 =? 0x80) then None
      else read_continuation n (Z.lor (Z.shiftl codepoint 6) (Z.land (byte c) 0x3F)) rest
  | S _, EmptyString => None
  end.
Definition bad_codepoint (needed : nat) (codepoint : Z) : bool :=
  ((needed =? 1)%nat && (codepoint <? 0x80)) || ((needed =? 2)%nat && (codepoint <? 0x800)) ||
  ((needed =? 3)%nat && (codepoint <? 0x10000)) || ((0xD800 <=? codepoint) && (codepoint <=? 0xDFFF)) || (0x10FFFF <? codepoint).
(** One round of the loop: what remains after the character at the front. *)
Definition utf8_step (s : string) : option string :=
  match s with
  | EmptyString => None
  | String c rest =>
      if byte c <=? 0x7F then Some rest else
      match lead_byte (byte c) with
      | None => None
      | Some (needed, codepoint) =>
          if (String.length rest <? needed)%nat then None else
          match read_continuation needed codepoint rest with
          | None => None
          | Some (codepoint, rest) => if bad_codepoint needed codepoint then None else Some rest
          end
      end
  end.
Fixpoint utf8_loop (fuel : nat) (s : string) : bool :=
  match fuel, s with
  | _, EmptyString => true
  | O, _ => false
  | S fuel, _ => match utf8_step s with Some rest => utf8_loop fuel rest | None => false end
  end.
Definition is_valid_utf8 (text : string) : bool := utf8_loop (String.length text) text.

(** ** The encoding *)
Definition scalar_value (v : Z) : Prop := 0 ≤ v < 0xD800 ∨ 0xE000 ≤ v ≤ 0x10FFFF.
Definition encode_scalar (v : Z) : list Z :=
  let tail q := 0x80 + q mod 64 in
  if v <? 0x80 then [v]
  else if v <? 0x800 then [0xC0 + v / 64; tail v]
  else if v <? 0x10000 then [0xE0 + v / 4096; tail (v / 64); tail v]
  else [0xF0 + v / 262144; tail (v / 4096); tail (v / 64); tail v].
Fixpoint bytes_of (s : string) : list Z := match s with EmptyString => [] | String c rest => byte c :: bytes_of rest end.

(** ** Bits and numbers *)
Lemma byte_range c : 0 ≤ byte c < 256.
Proof. unfold byte. pose proof (N_ascii_bounded c). lia. Qed.
(** A statement about a byte holds when it holds of all 256. *)
Lemma for_bytes (P : Z → bool) b : 0 ≤ b < 256 → forallb P (Z.of_nat <$> seq 0 256) = true → P b = true.
Proof.
  intros Hb H. rewrite forallb_forall in H. apply H, list_elem_of_In, list_elem_of_fmap. exists (Z.to_nat b).
  split; [lia|]. apply elem_of_seq. lia.
Qed.
Definition lead_byte_spec (b : Z) : option (nat * Z) :=
  if (0xC2 <=? b) && (b <? 0xE0) || (b =? 0xC1) then Some (1%nat, b - 0xC0)
  else if (0xE0 <=? b) && (b <? 0xF0) then Some (2%nat, b - 0xE0)
  else if (0xF0 <=? b) && (b <? 0xF8) then Some (3%nat, b - 0xF0) else None.
Lemma lead_byte_arith b : 0 ≤ b < 256 → lead_byte b = lead_byte_spec b.
Proof.
  intros Hb. apply (bool_decide_eq_true_1 _).
  apply (for_bytes (λ b, bool_decide (lead_byte b = lead_byte_spec b)) b Hb). vm_compute. reflexivity.
Qed.
Lemma continuation_arith b : 0 ≤ b < 256 → (Z.land b 0xC0 =? 0x80) = ((0x80 <=? b) && (b <? 0xC0)).
Proof.
  intros Hb. apply (bool_decide_eq_true_1 _).
  apply (for_bytes (λ b, bool_decide ((Z.land b 0xC0 =? 0x80) = ((0x80 <=? b) && (b <? 0xC0)))) b Hb). vm_compute. reflexivity.
Qed.
Lemma shift_or v b : 0 ≤ v → Z.lor (Z.shiftl v 6) (Z.land b 0x3F) = v * 64 + b mod 64.
Proof.
  intros Hv. rewrite Z.shiftl_mul_pow2 by lia. change 0x3F with (Z.ones 6). rewrite Z.land_ones by lia.
  assert (Z.land (v * 2 ^ 6) (b mod 2 ^ 6) = 0) as H.
  { apply Z.bits_inj'. intros n Hn. rewrite Z.land_spec, Z.bits_0. destruct (decide (n < 6)).
    - by rewrite Z.mul_pow2_bits_low by lia.
    - rewrite Z.mod_pow2_bits_high by lia. apply andb_false_r. }
  by rewrite <- Z.lxor_lor, <- Z.add_nocarry_lxor by done.
Qed.

(** ** One character *)
Definition add_tail (v b : Z) : Z := v * 64 + b mod 64.
Lemma read_tail n v c rest : 0 ≤ v → read_continuation (S n) v (String c rest) =
  if (0x80 <=? byte c) && (byte c <? 0xC0) then read_continuation n (add_tail v (byte c)) rest else None.
Proof.
  intros Hv. cbn [read_continuation]. rewrite continuation_arith by apply byte_range. rewrite shift_or by done.
  by destruct ((0x80 <=? byte c) && (byte c <? 0xC0)).
Qed.
Lemma add_tail_nonneg v b : 0 ≤ v → 0 ≤ add_tail v b.
Proof. unfold add_tail. intros. pose proof (Z.mod_pos_bound b 64). lia. Qed.
Definition tail_byte (b : Z) : Prop := 0x80 ≤ b < 0xC0.
Lemma read_tails tails v s l : 0 ≤ v → Forall tail_byte tails → bytes_of s = tails ++ l →
  ∃ rest, bytes_of rest = l ∧ read_continuation (length tails) v s = Some (fold_left add_tail tails v, rest).
Proof.
  intros Hv Ht. revert v s Hv. induction Ht as [|b tails Hb _ IH]; intros v s Hv Hs; [by exists s; destruct s|].
  destruct s as [|c s]; [done|]. injection Hs as Hc Hs. cbn [length fold_left]. rewrite read_tail, Hc by done.
  unfold tail_byte in Hb. rewrite (proj2 (Z.leb_le _ _)), (proj2 (Z.ltb_lt _ _)) by lia. apply IH; [by apply add_tail_nonneg|done].
Qed.
Lemma tails_read n v s v' rest : 0 ≤ v → read_continuation n v s = Some (v', rest) →
  ∃ tails, length tails = n ∧ Forall tail_byte tails ∧ bytes_of s = tails ++ bytes_of rest ∧ v' = fold_left add_tail tails v.
Proof.
  revert v s. induction n as [|n IH]; intros v s Hv H.
  - exists []. destruct s; injection H as <- <-; by repeat constructor.
  - destruct s as [|c s]; [done|]. rewrite read_tail in H by done. destruct (_ && _) eqn:E; [|done].
    apply andb_true_iff in E as [H1%Z.leb_le H2%Z.ltb_lt]. apply IH in H as (tails&<-&Ht&Hs&->); [|by apply add_tail_nonneg].
    exists (byte c :: tails). split; [done|]. split; [by constructor|]. split; [|done]. simpl. by rewrite Hs.
Qed.
Lemma bytes_length s : length (bytes_of s) = String.length s.
Proof. induction s as [|c s IH]; simpl; [done|]. by rewrite IH. Qed.
Lemma step_reads c s tails v0 l : lead_byte_spec (byte c) = Some (length tails, v0) → 0x7F < byte c → 0 ≤ v0 → Forall tail_byte tails →
  bytes_of s = tails ++ l → bad_codepoint (length tails) (fold_left add_tail tails v0) = false →
  ∃ rest, bytes_of rest = l ∧ utf8_step (String c s) = Some rest.
Proof.
  intros Hc Hgt Hv Ht Hs Hgood. destruct (read_tails tails v0 s l Hv Ht Hs) as (rest&Hrest&Hr). exists rest. split; [done|]. cbn [utf8_step].
  rewrite lead_byte_arith, Hc, Hr, Hgood by apply byte_range. rewrite (proj2 (Z.leb_gt _ _)) by done.
  rewrite (proj2 (Nat.ltb_ge _ _)); [done|]. rewrite <- bytes_length, Hs, length_app. lia.
Qed.
Lemma tail_range q : tail_byte (0x80 + q mod 64).
Proof. unfold tail_byte. pose proof (Z.mod_pos_bound q 64). lia. Qed.
Lemma add_tail_back v : add_tail (v / 64) (0x80 + v mod 64) = v.
Proof. unfold add_tail. Z.to_euclidean_division_equations. lia. Qed.
Lemma lead_byte_cases b n v : lead_byte_spec b = Some (n, v) →
  n = 1%nat ∧ b = 0xC0 + v ∧ 1 ≤ v < 32 ∨ n = 2%nat ∧ b = 0xE0 + v ∧ 0 ≤ v < 16 ∨ n = 3%nat ∧ b = 0xF0 + v ∧ 0 ≤ v < 8.
Proof.
  unfold lead_byte_spec. destruct (_ || _) eqn:E1; [|destruct ((0xE0 <=? b) && _) eqn:E2; [|destruct ((0xF0 <=? b) && _) eqn:E3]]; intros [=]; subst.
  - left. lia.
  - right. left. lia.
  - right. right. lia.
Qed.
Lemma good_codepoint n v : bad_codepoint n v = false ↔ v ≤ 0x10FFFF ∧ ¬ 0xD800 ≤ v ≤ 0xDFFF ∧
  (n = 1%nat → 0x80 ≤ v) ∧ (n = 2%nat → 0x800 ≤ v) ∧ (n = 3%nat → 0x10000 ≤ v).
Proof.
  unfold bad_codepoint. rewrite !orb_false_iff, !andb_false_iff, Z.ltb_ge, !Z.ltb_ge, !Z.leb_gt, !Nat.eqb_neq.
  split; [intros [[[[H1 H2] H3] H4] H5]; split_and!; [done|lia|intros ->; tauto..]|].
  intros (H1&H2&H3&H4&H5). split_and!; [destruct (decide (n = 1%nat)); auto|destruct (decide (n = 2%nat)); auto|destruct (decide (n = 3%nat)); auto|lia|done].
Qed.
Lemma lead_byte_at n q : n = 1%nat ∧ 2 ≤ q < 32 ∨ n = 2%nat ∧ 0 ≤ q < 16 ∨ n = 3%nat ∧ 0 ≤ q < 8 →
  let b := (if (n =? 1)%nat then 0xC0 else if (n =? 2)%nat then 0xE0 else 0xF0) + q in lead_byte_spec b = Some (n, q) ∧ 0x7F < b.
Proof.
  intros [[-> H]|[[-> H]|[-> H]]]; cbn [Nat.eqb]; (split; [|lia]); unfold lead_byte_spec;
    [replace (_ || _) with true by lia|replace (_ || _) with false by lia; replace ((0xE0 <=? _) && _) with true by lia
    |replace (_ || _) with false by lia; replace ((0xE0 <=? _) && _) with false by lia; replace ((0xF0 <=? _) && _) with true by lia]; do 2 f_equal; lia.
Qed.
Lemma div_range v q lo hi : 0 < q → lo * q ≤ v < hi * q → lo ≤ v / q < hi.
Proof. intros Hq H. split; [apply Z.div_le_lower_bound|apply Z.div_lt_upper_bound]; lia. Qed.
Lemma step_accepts v s l : scalar_value v → bytes_of s = encode_scalar v ++ l → ∃ rest, bytes_of rest = l ∧ utf8_step s = Some rest.
Proof.
  unfold scalar_value, encode_scalar. intros Hv Hs. destruct (Z.ltb_spec v 0x80); [|destruct (Z.ltb_spec v 0x800); [|destruct (Z.ltb_spec v 0x10000)]];
    (destruct s as [|c s]; [done|]; injection Hs as Hc Hs).
  - exists s. split; [done|]. cbn [utf8_step]. by rewrite (proj2 (Z.leb_le _ _)) by lia.
  - destruct (lead_byte_at 1 (v / 64)) as [Hl Hb]; [left; split; [done|repeat (apply div_range; [lia|]); lia]|].
    apply (step_reads c s [0x80 + v mod 64] (v / 64) l); cbn [length fold_left]; rewrite ?Hc, ?add_tail_back;
      [done..|repeat apply Z.div_pos; lia|by repeat (constructor; [apply tail_range|])|done|]. apply good_codepoint. lia.
  - replace (v / 4096) with (v / 64 / 64) in Hc by (rewrite Z.div_div by lia; done).
    destruct (lead_byte_at 2 (v / 64 / 64)) as [Hl Hb]; [right; left; split; [done|repeat (apply div_range; [lia|]); lia]|].
    apply (step_reads c s [0x80 + (v / 64) mod 64; 0x80 + v mod 64] (v / 64 / 64) l); cbn [length fold_left]; rewrite ?Hc, ?add_tail_back;
      [done..|repeat apply Z.div_pos; lia|by repeat (constructor; [apply tail_range|])|done|]. apply good_codepoint. lia.
  - replace (v / 4096) with (v / 64 / 64) in Hs by (rewrite Z.div_div by lia; done).
    replace (v / 262144) with (v / 64 / 64 / 64) in Hc by (rewrite !Z.div_div by lia; done).
    destruct (lead_byte_at 3 (v / 64 / 64 / 64)) as [Hl Hb]; [right; right; split; [done|repeat (apply div_range; [lia|]); lia]|].
    apply (step_reads c s [0x80 + (v / 64 / 64) mod 64; 0x80 + (v / 64) mod 64; 0x80 + v mod 64] (v / 64 / 64 / 64) l);
      cbn [length fold_left]; rewrite ?Hc, ?add_tail_back;
      [done..|repeat apply Z.div_pos; lia|by repeat (constructor; [apply tail_range|])|done|]. apply good_codepoint. lia.
Qed.
(** What the bits of a continuation byte are read back from. *)
Lemma add_tail_eq v b : tail_byte b → add_tail v b = v * 64 + (b - 0x80).
Proof. unfold add_tail, tail_byte. intros. Z.to_euclidean_division_equations. lia. Qed.
Lemma add_tail_div v b : tail_byte b → add_tail v b / 64 = v.
Proof. intros Hb. rewrite add_tail_eq by done. unfold tail_byte in Hb. rewrite Z.div_add_l by lia. rewrite Z.div_small by lia. lia. Qed.
Lemma add_tail_mod v b : tail_byte b → 0x80 + add_tail v b mod 64 = b.
Proof. intros Hb. rewrite add_tail_eq by done. unfold tail_byte in Hb. rewrite (Z.add_comm (v * 64)), Z.mod_add, Z.mod_small by lia. lia. Qed.
Lemma encode_tails n b v0 tails : lead_byte_spec b = Some (n, v0) → length tails = n → Forall tail_byte tails →
  bad_codepoint n (fold_left add_tail tails v0) = false →
  scalar_value (fold_left add_tail tails v0) ∧ encode_scalar (fold_left add_tail tails v0) = b :: tails.
Proof.
  intros Hl <- Ht (Hmax&Hsur&H1&H2&H3)%good_codepoint. apply lead_byte_cases in Hl.
  destruct Hl as [(Hn&->&Hv)|[(Hn&->&Hv)|(Hn&->&Hv)]]; destruct tails as [|b1 [|b2 [|b3 [|b4 tails]]]]; try done;
    repeat (apply Forall_cons in Ht as [? Ht]); cbn [fold_left] in *; unfold encode_scalar.
  - specialize (H1 eq_refl). split; [unfold scalar_value; lia|]. pose proof (add_tail_eq v0 b1 ltac:(done)). unfold tail_byte in *.
    rewrite (proj2 (Z.ltb_ge _ _)), (proj2 (Z.ltb_lt _ _)) by lia. by rewrite add_tail_div, add_tail_mod.
  - specialize (H2 eq_refl). split; [unfold scalar_value; lia|].
    pose proof (add_tail_eq v0 b1 ltac:(done)). pose proof (add_tail_eq (add_tail v0 b1) b2 ltac:(done)). unfold tail_byte in *.
    rewrite !(proj2 (Z.ltb_ge _ _)), (proj2 (Z.ltb_lt _ _)) by lia. change 4096 with (64 * 64). rewrite <- Z.div_div by lia.
    by rewrite !add_tail_div, !add_tail_mod.
  - specialize (H3 eq_refl). split; [unfold scalar_value; lia|].
    rewrite !(proj2 (Z.ltb_ge _ _)) by lia. change 262144 with (64 * 64 * 64). change 4096 with (64 * 64). rewrite <- !Z.div_div by lia.
    by rewrite !add_tail_div, !add_tail_mod.
Qed.
Lemma step_sound s rest : utf8_step s = Some rest → ∃ v, scalar_value v ∧ bytes_of s = encode_scalar v ++ bytes_of rest.
Proof.
  destruct s as [|c s]; [done|]. cbn [utf8_step]. pose proof (byte_range c) as Hc. rewrite lead_byte_arith by done.
  destruct (Z.leb_spec (byte c) 0x7F).
  { intros [= ->]. exists (byte c). split; [unfold scalar_value; lia|]. unfold encode_scalar. by rewrite (proj2 (Z.ltb_lt _ _)) by lia. }
  destruct (lead_byte_spec (byte c)) as [[needed v0]|] eqn:El; [|done]. destruct (_ <? _)%nat; [done|].
  destruct (read_continuation needed v0 s) as [[v rest']|] eqn:Er; [|done]. destruct (bad_codepoint needed v) eqn:Eb; [done|].
  intros [= ->]. assert (0 ≤ v0) as Hv0 by (apply lead_byte_cases in El; lia).
  apply tails_read in Er as (tails&Hlen&Ht&Hs&->); [|done]. exists (fold_left add_tail tails v0). cbn [bytes_of]. rewrite Hs.
  by destruct (encode_tails needed (byte c) v0 tails El Hlen Ht Eb) as [? ->].
Qed.

(** ** The whole text *)
Lemma encode_nonempty v : encode_scalar v ≠ [].
Proof. unfold encode_scalar. by repeat case_match. Qed.
Lemma loop_exact fuel s : (String.length s ≤ fuel)%nat →
  utf8_loop fuel s = true ↔ ∃ values, Forall scalar_value values ∧ bytes_of s = concat (encode_scalar <$> values).
Proof.
  revert s. induction fuel as [|fuel IH]; intros s Hf.
  { destruct s; [|simpl in Hf; lia]. split; [|done]. intros _. by exists []. }
  destruct s as [|c s]; [split; [intros _; by exists []|done]|]. cbn [utf8_loop]. split.
  - destruct (utf8_step _) as [rest|] eqn:Es; [|done]. apply step_sound in Es as (v&Hv&Hs). intros Hl.
    apply IH in Hl as (values&Hvs&Hr).
    + exists (v :: values). split; [by constructor|]. cbn [fmap list_fmap concat]. by rewrite Hs, Hr.
    + rewrite <- bytes_length. assert (length (bytes_of (String c s)) = length (encode_scalar v) + length (bytes_of rest))%nat as Hlen
        by (by rewrite Hs, length_app). rewrite bytes_length in Hlen. pose proof (encode_nonempty v). destruct (encode_scalar v); [done|].
      simpl in *. lia.
  - intros ([|v values]&Hvs&Hs); [done|]. apply Forall_cons in Hvs as [Hv Hvs]. cbn [fmap list_fmap concat] in Hs.
    destruct (step_accepts _ _ _ Hv Hs) as (rest&Hr&->). apply IH; [|by exists values].
    assert (length (bytes_of (String c s)) = length (encode_scalar v) + length (bytes_of rest))%nat as Hlen by (by rewrite Hs, Hr, length_app).
    rewrite !bytes_length in Hlen. pose proof (encode_nonempty v). destruct (encode_scalar v); [done|]. simpl in *. lia.
Qed.
(** C8. C. A text is accepted as UTF-8 exactly when its bytes are the encodings of Unicode scalar values, one after the other:
    no overlong form, no surrogate, nothing above U+10FFFF, no character cut short. *)
Theorem utf8_exact text : is_valid_utf8 text = true ↔
  ∃ values, Forall scalar_value values ∧ bytes_of text = concat (encode_scalar <$> values).
Proof. by apply loop_exact. Qed.
