(* ===== verification/Loader.v ===== *)
(** * Loader: reading a graph from a document

    Models [src/graph_io.cpp] up to [load_graph_file]: the limits on the input, the readers of every part of a graph,
    the expansion of subgraphs and templates, and [load_graph_text].  The active limits, a thread-local pointer that
    [ScopedGraphInputLimits] sets for the time of a load, are the argument [limits] of the readers. *)

From S2P Require Export Yaml Utf8.
From Stdlib Require Import Ascii.
Local Open Scope nat_scope.

(** ** Limits (graph.hpp) *)
Record GraphInputLimits := mkInputLimits {
  max_graph_input_bytes : nat; max_lanes : nat; max_components : nat; max_edges : nat; max_composite_loops : nat;
  max_identifier_bytes : nat; max_config_depth : nat; max_config_value_bytes : nat; max_string_bytes : nat;
  max_yaml_alias_count : nat }.
Definition default_graph_input_limits : GraphInputLimits :=
  mkInputLimits (1024 * 1024) 256 4096 8192 1024 128 8 4096 4096 32.

Definition parse_edge_kind (kind : string) : option EdgeKind :=
  if str_eqb kind "immediate" then Some kImmediate else
  if str_eqb kind "delay" then Some kDelay else
  if str_eqb kind "state" then Some kState else
  if str_eqb kind "async" then Some kAsync else None.

Definition enforce_limit (value limit : nat) (context : string) : Load () :=
  if limit <? value then invalid (context +:+ " exceeds limit " +:+ to_string_nat limit) else mret ().
Definition enforce_valid_utf8 (text : string) : Load () :=
  if negb (is_valid_utf8 text) then invalid "graph input must be valid UTF-8 text" else mret ().
Definition indexed (context : string) (index : nat) : string := context +:+ "[" +:+ to_string_nat index +:+ "]".

(** ** Templates' placeholders *)
(** [value.find(needle, cursor)] *)
Fixpoint find_from (needle value : string) (cursor : nat) : option nat :=
  match value with
  | EmptyString => None
  | String _ rest =>
      match cursor with
      | S cursor => S <$> find_from needle rest cursor
      | O => if String.prefix needle value then Some 0 else S <$> find_from needle rest 0
      end
  end.
Definition substr (value : string) (first count : nat) : string := String.substring first count value.

Section limited.
Context (limits : GraphInputLimits).
Definition enforce_string_limit (value context : string) : Load () :=
  enforce_limit (String.length value) (max_string_bytes limits) (context +:+ " length").
Definition enforce_identifier_limit (value context : string) : Load () :=
  if str_empty value then invalid (context +:+ " must not be empty")
  else enforce_limit (String.length value) (max_identifier_bytes limits) (context +:+ " length").
Definition checked_identifier (value context : string) : Load string := _ ← enforce_identifier_limit value context; mret value.

Definition prefixed_id (namespace_id local_id context : string) : Load string :=
  checked_identifier (namespace_id +:+ "." +:+ local_id) context.
Definition namespace_endpoint (namespace_id endpoint context : string) : Load string :=
  let local_component := component_id_from_endpoint endpoint in
  if str_empty local_component then invalid (context +:+ " must name a local component") else
  let prefixed_component := namespace_id +:+ "." +:+ local_component in
  _ ← enforce_identifier_limit prefixed_component (context +:+ " component");
  if String.length local_component =? String.length endpoint then mret prefixed_component else
  mret (prefixed_component +:+ substr endpoint (String.length local_component) (String.length endpoint - String.length local_component)).
Definition namespace_component_refs (namespace_id : string) (local_ids : list string) (context : string) : Load (list string) :=
  mapM (fun local_id =>
    _ ← enforce_identifier_limit local_id context;
    let value := namespace_id +:+ "." +:+ local_id in
    _ ← enforce_identifier_limit value context;
    mret value) local_ids.

(** The loop over [cursor]; every round advances it by at least four characters. *)
Fixpoint substitute_loop (fuel : nat) (value : string) (parameters : gmap string string) (context : string) (cursor : nat)
    (output : string) : Load string :=
  match fuel with
  | O => Thrown Diverged
  | S fuel =>
      if negb (cursor <? String.length value) then mret output else
      match find_from "{{" value cursor with
      | None => mret (output +:+ substr value cursor (String.length value - cursor))
      | Some open =>
          let output := output +:+ substr value cursor (open - cursor) in
          match find_from "}}" value (open + 2) with
          | None => invalid (context +:+ " has an unterminated template parameter")
          | Some close =>
              let name := substr value (open + 2) (close - open - 2) in
              _ ← checked_identifier name (context +:+ " parameter");
              match parameters !! name with
              | None => invalid (context +:+ " references missing template parameter " +:+ name)
              | Some replacement => substitute_loop fuel value parameters context (close + 2) (output +:+ replacement)
              end
          end
      end
  end.
Definition substitute_placeholders (value : string) (parameters : gmap string string) (context : string) : Load string :=
  output ← substitute_loop (S (String.length value)) value parameters context 0 "";
  _ ← enforce_string_limit output context;
  mret output.
End limited.

(** ** Reading nodes *)
Section readers.
Context {Node : Type} `{YamlLib Node} (limits : GraphInputLimits).
(** [depth] counts from the configuration down; the limit on it bounds the recursion. *)
Fixpoint config_limits (fuel : nat) (node : Node) (context : string) (depth : nat) : Load () :=
  match fuel with
  | O => Thrown Diverged
  | S fuel =>
      if absent node then mret () else
      _ ← enforce_limit depth (max_config_depth limits) (context +:+ " depth");
      if is_map node then
        each (fun item : Node * Node =>
          key ← lib (as_string item.1);
          _ ← enforce_limit (String.length key) (max_identifier_bytes limits) (context +:+ " key length");
          config_limits fuel item.2 (context +:+ "." +:+ key) (depth + 1)) (node_items node)
      else if is_sequence node then
        each (fun x : nat * Node => config_limits fuel x.2 (indexed context x.1) (depth + 1)) (imap pair (node_elements node))
      else
        value ← lib (as_string node);
        enforce_limit (String.length value) (max_config_value_bytes limits) (context +:+ " value size")
  end.
Definition enforce_config_limits (node : Node) (context : string) : Load () := config_limits (max_config_depth limits + 2) node context 0.

Definition require_map (node : Node) (context : string) : Load () :=
  if absent node || negb (is_map node) then invalid (context +:+ " must be a mapping") else mret ().
Definition require_sequence (node : Node) (context : string) : Load () :=
  if absent node || negb (is_sequence node) then invalid (context +:+ " must be a sequence") else mret ().
Definition require_node (node : Node) (key context : string) : Load Node :=
  child ← lib (node_at node key);
  if absent child then invalid (context +:+ "." +:+ key +:+ " is required") else mret child.
Definition require_string (node : Node) (key context : string) : Load string := child ← require_node node key context; lib (as_string child).
(** [node\[key\]] read by [read], or the fallback when it is absent. *)
Definition optional {A} (node : Node) (key : string) (fallback : A) (read : Node → Load A) : Load A :=
  child ← lib (node_at node key);
  if absent child then mret fallback else read child.
Definition optional_string (node : Node) (key fallback : string) : Load string := optional node key fallback (fun child => lib (as_string child)).
Definition optional_int (node : Node) (key : string) (fallback : Z) : Load Z :=
  optional node key fallback (fun child => lib_or ("field " +:+ key +:+ " must be an integer") (as_int child)).
Definition optional_double (node : Node) (key : string) (fallback : QArith_base.Q) : Load QArith_base.Q :=
  optional node key fallback (fun child => lib_or ("field " +:+ key +:+ " must be a number") (as_double child)).
Definition optional_bool (node : Node) (key : string) (fallback : bool) : Load bool :=
  optional node key fallback (fun child => lib_or ("field " +:+ key +:+ " must be a boolean (true/false)") (as_bool child)).
Definition optional_string_vector (node : Node) (key context : string) : Load (list string) :=
  optional node key [] (fun child =>
    _ ← require_sequence child (context +:+ "." +:+ key);
    mapM (fun item => lib (as_string item)) (node_elements child)).
Definition optional_int_vector (node : Node) (key context : string) : Load (list Z) :=
  optional node key [] (fun child =>
    _ ← require_sequence child (context +:+ "." +:+ key);
    mapM (fun item => lib (as_int item)) (node_elements child)).
Definition reject_unknown_fields (node : Node) (context : string) (allowed : list string) : Load () :=
  if absent node then mret () else
  _ ← require_map node context;
  each (fun item : Node * Node =>
    key ← lib (as_string item.1);
    if bool_decide (key ∈ allowed) then mret () else invalid ("unexpected field " +:+ context +:+ "." +:+ key)) (node_items node).

(** ** Configurations *)
Definition read_config_item (context : string) (view : ConfigView) (item : Node * Node) : Load ConfigView :=
  key ← lib (as_string item.1);
  if is_map item.2 || is_sequence item.2 then
    let text := emit item.2 in
    _ ← enforce_limit (String.length text) (max_config_value_bytes limits) (context +:+ "." +:+ key +:+ " serialized value size");
    mret (mkConfigView (<[key := text]> (config_values view)) ({[key]} ∪ config_nested_values view))
  else
    value ← lib (as_string item.2);
    mret (mkConfigView (<[key := value]> (config_values view)) (config_nested_values view)).
Fixpoint read_config_items (context : string) (view : ConfigView) (items : list (Node * Node)) : Load ConfigView :=
  match items with [] => mret view | item :: rest => view ← read_config_item context view item; read_config_items context view rest end.
Definition read_config_node (config : Node) (context : string) : Load ConfigView :=
  if absent config then mret empty_config else
  _ ← require_map config context;
  _ ← enforce_config_limits config context;
  read_config_items context empty_config (node_items config).
Definition read_config (component_node : Node) (component_id : string) : Load ConfigView :=
  config ← lib (node_at component_node "config");
  read_config_node config ("components." +:+ component_id +:+ ".config").

(** ** Components *)
Definition default_event_source : EventSourceSpec := mkEventSource "" "manual" [] "" 0.
(** [input] stands for a list of one input when [inputs] is empty. *)
Definition inputs_or_input (inputs : list string) (input : string) : list string :=
  if negb (str_empty input) && bool_decide (inputs = []) then [input] else inputs.
Definition read_event_source (source_node : Node) (context : string) : Load EventSourceSpec :=
  _ ← require_map source_node context;
  _ ← reject_unknown_fields source_node context ["id"; "type"; "inputs"; "input"; "period_ms"];
  id ← optional_string source_node "id" "";
  type ← optional_string source_node "type" "manual";
  inputs ← optional_string_vector source_node "inputs" context;
  input ← optional_string source_node "input" "";
  period_ms ← optional_int source_node "period_ms" 0;
  mret (mkEventSource id type (inputs_or_input inputs input) input period_ms).
Definition read_event_sources (component_node : Node) (component_id : string) : Load (list EventSourceSpec) :=
  let context := "components." +:+ component_id +:+ ".event_sources" in
  optional component_node "event_sources" [default_event_source] (fun event_sources =>
    _ ← require_sequence event_sources context;
    collect (fun index source => read_event_source source (indexed context index)) (node_elements event_sources)).
Definition read_trigger_policy (component_node : Node) (component_id : string) : Load TriggerPolicySpec :=
  let context := "components." +:+ component_id +:+ ".trigger_policy" in
  optional component_node "trigger_policy" default_trigger_policy (fun policy_node =>
    _ ← require_map policy_node context;
    _ ← reject_unknown_fields policy_node context
      ["type"; "inputs"; "input"; "batch_size"; "batch_window_ms"; "sync_slop_ms"; "min_interval_ms"; "max_latency_ms";
       "watermark_lateness_ms"; "debounce_window_ms"; "condition"; "coalesce"];
    type ← optional_string policy_node "type" "manual";
    inputs ← optional_string_vector policy_node "inputs" context;
    input ← optional_string policy_node "input" "";
    batch_size ← optional_int policy_node "batch_size" 0;
    batch_window_ms ← optional_int policy_node "batch_window_ms" 0;
    sync_slop_ms ← optional_int policy_node "sync_slop_ms" 0;
    min_interval_ms ← optional_int policy_node "min_interval_ms" 0;
    max_latency_ms ← optional_int policy_node "max_latency_ms" 0;
    watermark_lateness_ms ← optional_int policy_node "watermark_lateness_ms" 0;
    debounce_window_ms ← optional_int policy_node "debounce_window_ms" 0;
    condition ← optional_string policy_node "condition" "all_inputs_ready";
    coalesce ← optional_bool policy_node "coalesce" false;
    mret (mkTriggerPolicy type (inputs_or_input inputs input) input batch_size batch_window_ms sync_slop_ms min_interval_ms
      max_latency_ms watermark_lateness_ms debounce_window_ms condition coalesce)).
Definition read_execution_spec (component_node : Node) (component_id : string) : Load ExecutionSpec :=
  let context := "components." +:+ component_id +:+ ".execution" in
  execution_node ← require_node component_node "execution" ("components." +:+ component_id);
  _ ← require_map execution_node context;
  _ ← reject_unknown_fields execution_node context ["lane"; "reentrant"; "priority"; "budget_ms"; "on_error"];
  lane ← require_string execution_node "lane" context;
  reentrant ← optional_bool execution_node "reentrant" false;
  priority ← optional_string execution_node "priority" (exec_priority default_execution);
  budget_ms ← optional_int execution_node "budget_ms" 0;
  on_error ← optional_string execution_node "on_error" (exec_on_error default_execution);
  mret (mkExecution lane reentrant priority budget_ms on_error).
Definition read_boundary_descriptor (component_node : Node) (component_id : string) : Load (ComponentRole * string) :=
  let context := "components." +:+ component_id +:+ ".boundary" in
  optional component_node "boundary" (kProcessing, "") (fun boundary_node =>
    _ ← require_map boundary_node context;
    _ ← reject_unknown_fields boundary_node context ["role"; "descriptor"];
    name ← optional_string boundary_node "role" "processing";
    match parse_component_role name with
    | None => invalid (context +:+ ".role has unsupported value")
    | Some role => descriptor ← optional_string boundary_node "descriptor" ""; mret (role, descriptor)
    end).
Definition read_component_node (component_node : Node) (component_id context : string) : Load ComponentNodeSpec :=
  _ ← require_map component_node context;
  id ← checked_identifier limits component_id (context +:+ ".id");
  _ ← reject_unknown_fields component_node ("components." +:+ id)
    ["id"; "type"; "event_sources"; "trigger_policy"; "execution"; "depends_on"; "boundary"; "config"];
  type ← require_string component_node "type" ("components." +:+ id);
  event_sources ← read_event_sources component_node id;
  trigger_policy ← read_trigger_policy component_node id;
  execution ← read_execution_spec component_node id;
  depends_on ← optional_string_vector component_node "depends_on" ("components." +:+ id);
  '(role, descriptor) ← read_boundary_descriptor component_node id;
  config ← read_config component_node id;
  mret (mkComponentNode id type event_sources trigger_policy execution depends_on role descriptor config).
End readers.

(** ** Edges and loops *)
Section edges.
Context {Node : Type} `{YamlLib Node} (limits : GraphInputLimits).
Definition read_edge_policy (edge_node : Node) (edge_id : string) : Load EdgePolicySpec :=
  let context := "edges." +:+ edge_id +:+ ".policy" in
  optional edge_node "policy" default_edge_policy (fun policy_node =>
    _ ← require_map policy_node context;
    _ ← reject_unknown_fields policy_node context
      ["mode"; "capacity"; "overflow"; "lifespan_ms"; "deadline_ms"; "max_inflight"; "preserve_order"; "allow_drop";
       "emit_health_events"; "timestamp_domain"; "copy_policy"; "owner"; "readers"];
    let d := default_edge_policy in
    mode ← optional_string policy_node "mode" (policy_mode d);
    capacity ← optional_int policy_node "capacity" (policy_capacity d);
    overflow ← optional_string policy_node "overflow" (policy_overflow d);
    lifespan_ms ← optional_int policy_node "lifespan_ms" 0;
    deadline_ms ← optional_int policy_node "deadline_ms" 0;
    max_inflight ← optional_int policy_node "max_inflight" 0;
    preserve_order ← optional_bool policy_node "preserve_order" (policy_preserve_order d);
    allow_drop ← optional_bool policy_node "allow_drop" (policy_allow_drop d);
    emit_health_events ← optional_bool policy_node "emit_health_events" (policy_emit_health_events d);
    timestamp_domain ← optional_string policy_node "timestamp_domain" (policy_timestamp_domain d);
    copy_policy ← optional_string policy_node "copy_policy" (policy_copy_policy d);
    owner ← optional_string policy_node "owner" (policy_owner d);
    readers ← optional_string policy_node "readers" (policy_readers d);
    mret (mkEdgePolicy mode capacity overflow lifespan_ms deadline_ms max_inflight preserve_order allow_drop emit_health_events
      timestamp_domain copy_policy owner readers)).
(** The kind, whether there is one, and the text of a kind that is not known. *)
Definition read_edge_kind (edge_node : Node) : Load (EdgeKind * bool * string) :=
  optional edge_node "kind" (kImmediate, false, "") (fun kind_node =>
    kind ← lib (as_string kind_node);
    mret (match parse_edge_kind kind with Some parsed => (parsed, true, "") | None => (kImmediate, true, kind) end)).
Definition read_edge_node (edge_node : Node) (edge_id context : string) : Load EdgeSpec :=
  _ ← require_map edge_node context;
  id ← checked_identifier limits edge_id (context +:+ ".id");
  _ ← reject_unknown_fields edge_node ("edges." +:+ id) ["id"; "from"; "to"; "kind"; "policy"];
  from ← require_string edge_node "from" ("edges." +:+ id);
  to ← require_string edge_node "to" ("edges." +:+ id);
  '(kind, has_kind, invalid_kind) ← read_edge_kind edge_node;
  policy ← read_edge_policy edge_node id;
  mret (mkEdge id from to kind has_kind invalid_kind policy).
Definition read_loop_policy (policy_node : Node) (context : string) : Load LoopPolicySpec :=
  _ ← require_map policy_node context;
  _ ← reject_unknown_fields policy_node context
    ["type"; "budget_ms"; "max_iterations"; "max_inflight"; "drop_policy"; "min_interval_ms"; "convergence";
     "residual_threshold"; "partial_success"];
  type ← require_string policy_node "type" context;
  budget_ms ← optional_int policy_node "budget_ms" 0;
  max_iterations ← optional_int policy_node "max_iterations" 0;
  max_inflight ← optional_int policy_node "max_inflight" 0;
  drop_policy ← optional_string policy_node "drop_policy" "";
  min_interval_ms ← optional_int policy_node "min_interval_ms" 0;
  convergence ← optional_string policy_node "convergence" "";
  residual_threshold ← optional policy_node "residual_threshold" None (fun child => value ← lib (as_double child); mret (Some value));
  partial_success ← optional_string policy_node "partial_success" "";
  mret (mkLoopPolicy type budget_ms max_iterations max_inflight drop_policy min_interval_ms convergence residual_threshold
    partial_success).
Definition read_composite_loop (loop_node : Node) (context : string) : Load CompositeLoopSpec :=
  _ ← require_map loop_node context;
  _ ← reject_unknown_fields loop_node context ["id"; "components"; "loop_policy"];
  given_id ← require_string loop_node "id" context;
  id ← checked_identifier limits given_id (context +:+ ".id");
  components ← optional_string_vector loop_node "components" context;
  if bool_decide (components = []) then invalid (context +:+ ".components must contain at least one component") else
  policy_node ← require_node loop_node "loop_policy" context;
  policy ← read_loop_policy policy_node (context +:+ ".loop_policy");
  mret (mkCompositeLoop id components policy).
(** The identifier of an element of a list: its own, checked. *)
Definition read_id (node : Node) (context : string) : Load string :=
  id ← require_string node "id" context;
  checked_identifier limits id (context +:+ ".id").

(** ** Subgraphs *)
Definition read_subgraph_component (namespace_id context : string) (component_node : Node) : Load ComponentNodeSpec :=
  local_id ← read_id component_node context;
  id ← prefixed_id limits namespace_id local_id (context +:+ ".id");
  component ← read_component_node limits component_node id context;
  refs ← namespace_component_refs limits namespace_id (depends_on component) ("components." +:+ comp_id component +:+ ".depends_on");
  mret (mkComponentNode (comp_id component) (comp_type component) (event_sources component) (trigger_policy component)
    (execution component) refs (boundary_role component) (boundary_descriptor component) (comp_config component)).
Definition read_subgraph_edge (namespace_id context : string) (edge_node : Node) : Load EdgeSpec :=
  local_id ← read_id edge_node context;
  id ← prefixed_id limits namespace_id local_id (context +:+ ".id");
  edge ← read_edge_node edge_node id context;
  from ← namespace_endpoint limits namespace_id (edge_from edge) ("edges." +:+ edge_id edge +:+ ".from");
  to ← namespace_endpoint limits namespace_id (edge_to edge) ("edges." +:+ edge_id edge +:+ ".to");
  mret (mkEdge (edge_id edge) from to (edge_kind edge) (edge_has_kind edge) (edge_invalid_kind edge) (edge_policy edge)).
Definition read_subgraph_loop (namespace_id context : string) (loop_node : Node) : Load CompositeLoopSpec :=
  loop ← read_composite_loop loop_node context;
  id ← prefixed_id limits namespace_id (loop_id loop) (context +:+ ".id");
  refs ← namespace_component_refs limits namespace_id (loop_components loop) ("composite_loops." +:+ id +:+ ".components");
  mret (mkCompositeLoop id refs (loop_policy loop)).
(** What an expansion appends to the graph. *)
Record Expansion := mkExpansion {
  exp_components : list ComponentNodeSpec; exp_edges : list EdgeSpec; exp_loops : list CompositeLoopSpec;
  exp_hierarchy : GraphHierarchyEntry }.
Definition append_expansion (e : Expansion) (graph : GraphSpec) : GraphSpec :=
  mkGraph (graph_schema_version graph) (graph_name graph) (graph_kind graph) (graph_clock graph) (graph_config graph)
    (graph_lanes graph) (graph_components graph ++ exp_components e) (graph_edges graph ++ exp_edges e)
    (graph_composite_loops graph ++ exp_loops e) (graph_hierarchy graph ++ [exp_hierarchy e]).
Definition read_subgraph (subgraph_node : Node) (context : string) : Load Expansion :=
  _ ← require_map subgraph_node context;
  _ ← reject_unknown_fields subgraph_node context ["id"; "components"; "edges"; "composite_loops"];
  id ← read_id subgraph_node context;
  components_node ← require_node subgraph_node "components" context;
  _ ← require_sequence components_node (context +:+ ".components");
  if bool_decide (node_elements components_node = []) then invalid (context +:+ ".components must contain at least one component") else
  components ← collect (fun index => read_subgraph_component id (indexed (context +:+ ".components") index)) (node_elements components_node);
  edges_node ← require_node subgraph_node "edges" context;
  _ ← require_sequence edges_node (context +:+ ".edges");
  edges ← collect (fun index => read_subgraph_edge id (indexed (context +:+ ".edges") index)) (node_elements edges_node);
  loops ← optional subgraph_node "composite_loops" [] (fun loops_node =>
    _ ← require_sequence loops_node (context +:+ ".composite_loops");
    collect (fun index => read_subgraph_loop id (indexed (context +:+ ".composite_loops") index)) (node_elements loops_node));
  mret (mkExpansion components edges loops
    (mkHierarchy id (comp_id <$> components) (edge_id <$> edges) (loop_id <$> loops))).
Definition append_subgraph_expansion (subgraph_node : Node) (graph : GraphSpec) (context : string) : Load GraphSpec :=
  e ← read_subgraph subgraph_node context; mret (append_expansion e graph).
End edges.

(** ** Templates *)
Record GraphTemplateDefinition (Node : Type) := mkTemplate { tmpl_id : string; tmpl_parameters : list string; tmpl_body : Node }.
Arguments mkTemplate {Node} _ _ _.
Arguments tmpl_id {Node} _.
Arguments tmpl_parameters {Node} _.
Arguments tmpl_body {Node} _.
Section templates.
Context {Node : Type} `{YamlLib Node} (limits : GraphInputLimits).
Fixpoint substitute_node (fuel : nat) (node : Node) (parameters : gmap string string) (context : string) : Load Node :=
  match fuel with
  | O => Thrown Diverged
  | S fuel =>
      if absent node then mret null_node
      else if is_scalar node then
        text ← lib (as_string node);
        text ← substitute_placeholders limits text parameters context;
        mret (scalar_node text)
      else if is_sequence node then
        elements ← collect (fun index element => substitute_node fuel element parameters (indexed context index)) (node_elements node);
        mret (sequence_node elements)
      else if is_map node then
        fields ← mapM (fun item : Node * Node =>
          text ← lib (as_string item.1);
          key ← substitute_placeholders limits text parameters (context +:+ ".key");
          value ← substitute_node fuel item.2 parameters (context +:+ "." +:+ key);
          mret (key, value)) (node_items node);
        mret (map_node fields)
      else invalid (context +:+ " has unsupported template node type")
  end.
Definition substitute_template_node (node : Node) (parameters : gmap string string) (context : string) : Load Node :=
  substitute_node (S (node_depth node)) node parameters context.
(** Stops at the first parameter that is no identifier or occurs again. *)
Fixpoint check_parameters (context : string) (names : gset string) (parameters : list string) : Load () :=
  match parameters with
  | [] => mret ()
  | parameter :: rest =>
      _ ← checked_identifier limits parameter (context +:+ ".parameters");
      if bool_decide (parameter ∈ names) then invalid (context +:+ " lists duplicate template parameter " +:+ parameter)
      else check_parameters context ({[parameter]} ∪ names) rest
  end.
Definition read_graph_template (template_node : Node) (context : string) : Load (GraphTemplateDefinition Node) :=
  _ ← require_map template_node context;
  _ ← reject_unknown_fields template_node context ["id"; "parameters"; "components"; "edges"; "composite_loops"];
  id ← read_id limits template_node context;
  parameters ← optional_string_vector template_node "parameters" context;
  _ ← check_parameters context ∅ parameters;
  _ ← require_node template_node "components" context;
  _ ← require_node template_node "edges" context;
  mret (mkTemplate id parameters template_node).
Fixpoint read_parameter_items (required : list string) (context : string) (values : gmap string string) (items : list (Node * Node))
    : Load (gmap string string) :=
  match items with
  | [] => mret values
  | item :: rest =>
      text ← lib (as_string item.1);
      name ← checked_identifier limits text (context +:+ ".parameters key");
      if bool_decide (name ∉ required) then invalid (context +:+ " provides unknown template parameter " +:+ name) else
      if negb (is_scalar item.2) then invalid (context +:+ ".parameters." +:+ name +:+ " must be a scalar string") else
      value ← lib (as_string item.2);
      _ ← enforce_string_limit limits value (context +:+ ".parameters." +:+ name);
      read_parameter_items required context (<[name := value]> values) rest
  end.
Definition read_template_instance_parameters (instance_node : Node) (definition : GraphTemplateDefinition Node) (context : string)
    : Load (gmap string string) :=
  values ← optional instance_node "parameters" ∅ (fun parameters_node =>
    _ ← require_map parameters_node (context +:+ ".parameters");
    read_parameter_items (tmpl_parameters definition) context ∅ (node_items parameters_node));
  _ ← each (fun name => if bool_decide (is_Some (values !! name)) then mret ()
    else invalid (context +:+ " is missing template parameter " +:+ name)) (tmpl_parameters definition);
  mret values.
(** [substitute_template_node(body\[key\], ...)] *)
Definition substitute_part (body : Node) (key : string) (values : gmap string string) (context : string) : Load Node :=
  part ← lib (node_at body key);
  substitute_template_node part values (context +:+ "." +:+ key).
Definition expand_template (definition : GraphTemplateDefinition Node) (instance_id : string) (values : gmap string string)
    (context : string) : Load Node :=
  let body := tmpl_body definition in
  components ← substitute_part body "components" values context;
  edges ← substitute_part body "edges" values context;
  loops_node ← lib (node_at body "composite_loops");
  loops ← (if absent loops_node then mret [] else
    loops ← substitute_template_node loops_node values (context +:+ ".composite_loops"); mret [("composite_loops", loops)]);
  mret (map_node ([("id", scalar_node instance_id); ("components", components); ("edges", edges)] ++ loops)).
Definition append_template_instance_expansion (instance_node : Node) (templates : gmap string (GraphTemplateDefinition Node))
    (graph : GraphSpec) (context : string) : Load GraphSpec :=
  _ ← require_map instance_node context;
  _ ← reject_unknown_fields instance_node context ["id"; "template"; "parameters"];
  instance_id ← read_id limits instance_node context;
  given_template ← require_string instance_node "template" context;
  template_id ← checked_identifier limits given_template (context +:+ ".template");
  match templates !! template_id with
  | None => invalid (context +:+ " references unknown template " +:+ template_id)
  | Some definition =>
      values ← read_template_instance_parameters instance_node definition context;
      expansion ← expand_template definition instance_id values context;
      append_subgraph_expansion limits expansion graph context
  end.
End templates.

(** ** The whole document *)
Section document.
Context {Node : Type} `{YamlLib Node} (limits : GraphInputLimits).
Definition read_lane (item : Node * Node) : Load LaneSpec :=
  given_id ← lib (as_string item.1);
  id ← checked_identifier limits given_id "lanes id";
  let context := "lanes." +:+ id in
  let node := item.2 in
  _ ← require_map node context;
  _ ← reject_unknown_fields node context
    ["type"; "hz"; "priority"; "max_callback_ms"; "max_threads"; "queue_capacity"; "overflow"; "wall_clock_enabled"; "period_ms";
     "tick_budget_ms"; "overrun_policy"; "thread_name"; "cpu_affinity"; "nice_priority"; "rt_policy"; "rt_priority"; "isolation_intent"];
  type ← require_string node "type" context;
  hz ← optional_double node "hz" (QArith_base.inject_Z 0);
  priority ← optional_string node "priority" "";
  max_callback_ms ← optional_int node "max_callback_ms" 0;
  max_threads ← optional_int node "max_threads" 0;
  queue_capacity ← optional_int node "queue_capacity" 0;
  overflow ← optional_string node "overflow" "reject";
  wall_clock_enabled ← optional_bool node "wall_clock_enabled" false;
  period_ms ← optional_int node "period_ms" 0;
  tick_budget_ms ← optional_int node "tick_budget_ms" 0;
  overrun_policy ← optional_string node "overrun_policy" "drop_tick";
  thread_name ← optional_string node "thread_name" "";
  cpu_affinity ← optional_int_vector node "cpu_affinity" context;
  nice_priority ← optional_int node "nice_priority" 0;
  rt_policy ← optional_string node "rt_policy" "none";
  rt_priority ← optional_int node "rt_priority" 0;
  isolation_intent ← optional_string node "isolation_intent" "none";
  mret (mkLane id type hz priority max_callback_ms max_threads queue_capacity overflow wall_clock_enabled period_ms tick_budget_ms
    overrun_policy thread_name cpu_affinity nice_priority rt_policy rt_priority isolation_intent).
Definition default_clock_policy : ClockPolicySpec := mkClockPolicy "steady" "steady".
Definition read_clock (graph_node : Node) : Load ClockPolicySpec :=
  let context := "runtime graph.graph.clock" in
  optional graph_node "clock" default_clock_policy (fun clock_node =>
    _ ← require_map clock_node context;
    _ ← reject_unknown_fields clock_node context ["runtime_domain"; "event_domain"];
    runtime_domain ← optional_string clock_node "runtime_domain" (clock_runtime_domain default_clock_policy);
    event_domain ← optional_string clock_node "event_domain" (clock_event_domain default_clock_policy);
    mret (mkClockPolicy runtime_domain event_domain)).
Definition read_component_at (index : nat) (component_node : Node) : Load ComponentNodeSpec :=
  let context := indexed "components" index in
  id ← read_id limits component_node context;
  read_component_node limits component_node id context.
Definition read_edge_at (index : nat) (edge_node : Node) : Load EdgeSpec :=
  let context := indexed "edges" index in
  id ← read_id limits edge_node context;
  read_edge_node limits edge_node id context.
(** The elements of an optional list of the root; [limit] bounds how many there are. *)
Definition root_list (root : Node) (key : string) (limit : nat) : Load (list Node) :=
  optional root key [] (fun list_node =>
    _ ← require_sequence list_node ("runtime graph." +:+ key);
    _ ← enforce_limit (length (node_elements list_node)) limit ("runtime graph." +:+ key +:+ " count");
    mret (node_elements list_node)).
Definition required_list (root : Node) (key : string) (limit : nat) : Load (list Node) :=
  list_node ← require_node root key "runtime graph";
  _ ← require_sequence list_node ("runtime graph." +:+ key);
  _ ← enforce_limit (length (node_elements list_node)) limit ("runtime graph." +:+ key +:+ " count");
  mret (node_elements list_node).
Fixpoint expand_subgraphs (index : nat) (ids : gset string) (nodes : list Node) (graph : GraphSpec) : Load GraphSpec :=
  match nodes with
  | [] => mret graph
  | node :: rest =>
      let context := indexed "subgraphs" index in
      id ← read_id limits node context;
      if bool_decide (id ∈ ids) then invalid ("duplicate subgraph: " +:+ id) else
      graph ← append_subgraph_expansion limits node graph context;
      expand_subgraphs (S index) ({[id]} ∪ ids) rest graph
  end.
Fixpoint read_templates (index : nat) (templates : gmap string (GraphTemplateDefinition Node)) (nodes : list Node)
    : Load (gmap string (GraphTemplateDefinition Node)) :=
  match nodes with
  | [] => mret templates
  | node :: rest =>
      definition ← read_graph_template limits node (indexed "templates" index);
      if bool_decide (is_Some (templates !! tmpl_id definition)) then invalid ("duplicate template: " +:+ tmpl_id definition) else
      read_templates (S index) (<[tmpl_id definition := definition]> templates) rest
  end.
Fixpoint expand_instances (index : nat) (templates : gmap string (GraphTemplateDefinition Node)) (nodes : list Node) (graph : GraphSpec)
    : Load GraphSpec :=
  match nodes with
  | [] => mret graph
  | node :: rest =>
      graph ← append_template_instance_expansion limits node templates graph (indexed "template_instances" index);
      expand_instances (S index) templates rest graph
  end.
(** Everything but subgraphs and templates. *)
Definition read_flat_graph (root : Node) : Load GraphSpec :=
  _ ← require_map root "runtime graph";
  _ ← reject_unknown_fields root "runtime graph"
    ["schema_version"; "graph"; "components"; "lanes"; "edges"; "composite_loops"; "subgraphs"; "templates"; "template_instances"];
  version_node ← require_node root "schema_version" "runtime graph";
  schema_version ← lib (as_int version_node);
  if negb (schema_version =? kTopoExecSchemaVersion)%Z
  then invalid ("runtime graph.schema_version must be " +:+ to_string_Z kTopoExecSchemaVersion) else
  graph_node ← require_node root "graph" "runtime graph";
  _ ← require_map graph_node "runtime graph.graph";
  _ ← reject_unknown_fields graph_node "runtime graph.graph" ["name"; "kind"; "clock"; "config"];
  given_name ← require_string graph_node "name" "runtime graph.graph";
  name ← checked_identifier limits given_name "runtime graph.graph.name";
  kind ← optional_string graph_node "kind" "runnable";
  config_node ← lib (node_at graph_node "config");
  config ← read_config_node limits config_node "runtime graph.graph.config";
  clock ← read_clock graph_node;
  lanes_node ← require_node root "lanes" "runtime graph";
  _ ← require_map lanes_node "runtime graph.lanes";
  _ ← enforce_limit (length (node_items lanes_node)) (max_lanes limits) "runtime graph.lanes count";
  lanes ← mapM read_lane (node_items lanes_node);
  component_nodes ← required_list root "components" (max_components limits);
  components ← collect read_component_at component_nodes;
  edge_nodes ← required_list root "edges" (max_edges limits);
  edges ← collect read_edge_at edge_nodes;
  loop_nodes ← root_list root "composite_loops" (max_composite_loops limits);
  loops ← collect (fun index node => read_composite_loop limits node (indexed "composite_loops" index)) loop_nodes;
  mret (mkGraph schema_version name kind clock config lanes components edges loops []).
Definition load_graph_node (root : Node) : Load GraphSpec :=
  graph ← read_flat_graph root;
  subgraph_nodes ← root_list root "subgraphs" (max_components limits);
  graph ← expand_subgraphs 0 ∅ subgraph_nodes graph;
  template_nodes ← root_list root "templates" (max_components limits);
  templates ← read_templates 0 ∅ template_nodes;
  instance_nodes ← root_list root "template_instances" (max_components limits);
  graph ← expand_instances 0 templates instance_nodes graph;
  _ ← enforce_limit (length (graph_components graph)) (max_components limits) "runtime graph expanded components count";
  _ ← enforce_limit (length (graph_edges graph)) (max_edges limits) "runtime graph expanded edges count";
  _ ← enforce_limit (length (graph_composite_loops graph)) (max_composite_loops limits) "runtime graph expanded composite_loops count";
  mret graph.
End document.

(** ** The strings of a loaded graph *)
Section strings.
Context (limits : GraphInputLimits).
Abbreviation text_limit := (enforce_string_limit limits).
Abbreviation id_limit := (enforce_identifier_limit limits).
Definition enforce_config_view_string_limits (config : ConfigView) (context : string) : Load () :=
  each (fun kv : string * string =>
    _ ← enforce_limit (String.length kv.1) (max_identifier_bytes limits) (context +:+ "." +:+ kv.1 +:+ " key length");
    enforce_limit (String.length kv.2) (max_config_value_bytes limits) (context +:+ "." +:+ kv.1 +:+ " value size"))
  (map_items (config_values config)).
Definition enforce_lane_strings (lane : LaneSpec) : Load () :=
  let context := "lanes." +:+ lane_id lane in
  _ ← id_limit (lane_id lane) "lanes id";
  _ ← text_limit (lane_type lane) (context +:+ ".type");
  _ ← text_limit (lane_priority lane) (context +:+ ".priority");
  _ ← text_limit (lane_overflow lane) (context +:+ ".overflow");
  _ ← text_limit (lane_overrun_policy lane) (context +:+ ".overrun_policy");
  _ ← text_limit (lane_thread_name lane) (context +:+ ".thread_name");
  _ ← text_limit (lane_rt_policy lane) (context +:+ ".rt_policy");
  text_limit (lane_isolation_intent lane) (context +:+ ".isolation_intent").
Definition enforce_source_strings (context : string) (source : EventSourceSpec) : Load () :=
  _ ← text_limit (source_id source) (context +:+ ".id");
  _ ← text_limit (source_type source) (context +:+ ".type");
  _ ← text_limit (source_input source) (context +:+ ".input");
  each (fun input => text_limit input (context +:+ ".inputs")) (source_inputs source).
Definition enforce_component_strings (c : ComponentNodeSpec) : Load () :=
  let context := "components." +:+ comp_id c in
  _ ← id_limit (comp_id c) (context +:+ ".id");
  _ ← text_limit (comp_type c) (context +:+ ".type");
  _ ← text_limit (boundary_descriptor c) (context +:+ ".boundary.descriptor");
  _ ← text_limit (component_role_name (boundary_role c)) (context +:+ ".boundary.role");
  _ ← enforce_config_view_string_limits (comp_config c) (context +:+ ".config");
  _ ← each (fun dependency => id_limit dependency (context +:+ ".depends_on")) (depends_on c);
  _ ← each (enforce_source_strings (context +:+ ".event_sources")) (event_sources c);
  _ ← text_limit (trigger_type (trigger_policy c)) (context +:+ ".trigger_policy.type");
  _ ← text_limit (trigger_input (trigger_policy c)) (context +:+ ".trigger_policy.input");
  _ ← text_limit (trigger_condition (trigger_policy c)) (context +:+ ".trigger_policy.condition");
  _ ← each (fun input => text_limit input (context +:+ ".trigger_policy.inputs")) (trigger_inputs (trigger_policy c));
  _ ← id_limit (exec_lane (execution c)) (context +:+ ".execution.lane");
  _ ← text_limit (exec_priority (execution c)) (context +:+ ".execution.priority");
  text_limit (exec_on_error (execution c)) (context +:+ ".execution.on_error").
Definition enforce_edge_strings (edge : EdgeSpec) : Load () :=
  let context := "edges." +:+ edge_id edge in
  let p := edge_policy edge in
  _ ← id_limit (edge_id edge) (context +:+ ".id");
  _ ← text_limit (edge_from edge) (context +:+ ".from");
  _ ← text_limit (edge_to edge) (context +:+ ".to");
  _ ← text_limit (edge_invalid_kind edge) (context +:+ ".kind");
  _ ← text_limit (policy_mode p) (context +:+ ".policy.mode");
  _ ← text_limit (policy_overflow p) (context +:+ ".policy.overflow");
  _ ← text_limit (policy_timestamp_domain p) (context +:+ ".policy.timestamp_domain");
  _ ← text_limit (policy_copy_policy p) (context +:+ ".policy.copy_policy");
  _ ← text_limit (policy_owner p) (context +:+ ".policy.owner");
  text_limit (policy_readers p) (context +:+ ".policy.readers").
Definition enforce_loop_strings (loop : CompositeLoopSpec) : Load () :=
  let context := "composite_loops." +:+ loop_id loop in
  _ ← id_limit (loop_id loop) (context +:+ ".id");
  _ ← each (fun component => id_limit component (context +:+ ".components")) (loop_components loop);
  _ ← text_limit (loop_type (loop_policy loop)) (context +:+ ".loop_policy.type");
  _ ← text_limit (loop_drop_policy (loop_policy loop)) (context +:+ ".loop_policy.drop_policy");
  _ ← text_limit (loop_convergence (loop_policy loop)) (context +:+ ".loop_policy.convergence");
  text_limit (loop_partial_success (loop_policy loop)) (context +:+ ".loop_policy.partial_success").
Definition enforce_hierarchy_strings (h : GraphHierarchyEntry) : Load () :=
  let context := "subgraphs." +:+ hier_id h in
  _ ← id_limit (hier_id h) (context +:+ ".id");
  _ ← each (fun component => id_limit component (context +:+ ".components")) (hier_components h);
  _ ← each (fun edge => id_limit edge (context +:+ ".edges")) (hier_edges h);
  each (fun loop => id_limit loop (context +:+ ".composite_loops")) (hier_composite_loops h).
Definition enforce_graph_string_limits (graph : GraphSpec) : Load () :=
  _ ← id_limit (graph_name graph) "runtime graph.graph.name";
  _ ← text_limit (graph_kind graph) "runtime graph.graph.kind";
  _ ← text_limit (clock_runtime_domain (graph_clock graph)) "runtime graph.graph.clock.runtime_domain";
  _ ← text_limit (clock_event_domain (graph_clock graph)) "runtime graph.graph.clock.event_domain";
  _ ← enforce_config_view_string_limits (graph_config graph) "runtime graph.graph.config";
  _ ← each enforce_lane_strings (graph_lanes graph);
  _ ← each enforce_component_strings (graph_components graph);
  _ ← each enforce_edge_strings (graph_edges graph);
  _ ← each enforce_loop_strings (graph_composite_loops graph);
  each enforce_hierarchy_strings (graph_hierarchy graph).
End strings.

(** ** Texts and files *)
Section text.
Context {Node : Type} `{YamlLib Node} (limits : GraphInputLimits).
(** [AliasCountingEventHandler] over the events that the parser delivers. *)
Definition on_event (count : nat) (event : YamlEvent) : nat := match event with OnAlias => S count | _ => count end.
Definition count_yaml_alias_references (text : string) : nat := fold_left on_event (yaml_events text) 0.
(** The exceptions of the library become one of the loader. *)
Definition catch_yaml {A} (m : Load A) : Load A :=
  match m with Thrown (YamlException what) => invalid ("failed to parse graph input: " +:+ what) | _ => m end.
Definition load_graph_text (text : string) : Load GraphSpec :=
  _ ← enforce_limit (String.length text) (max_graph_input_bytes limits) "graph input size";
  _ ← enforce_valid_utf8 text;
  let alias_count := count_yaml_alias_references text in
  if max_yaml_alias_count limits <? alias_count then
    invalid ("graph input uses too many YAML aliases (" +:+ to_string_nat alias_count +:+ " exceeds limit " +:+
      to_string_nat (max_yaml_alias_count limits) +:+ ")") else
  catch_yaml (
    root ← lib (yaml_load text);
    graph ← load_graph_node limits root;
    _ ← enforce_graph_string_limits limits graph;
    mret graph).
(** What reading a file yields: the pieces that [read] delivers, and whether the stream went bad. *)
Record GraphFile := mkGraphFile { file_chunks : list string; file_bad : bool }.
Fixpoint read_chunks (text : string) (chunks : list string) : Load string :=
  match chunks with
  | [] => mret text
  | chunk :: rest =>
      if str_empty chunk then mret text else
      if (max_graph_input_bytes limits <? String.length text) || (max_graph_input_bytes limits - String.length text <? String.length chunk)
      then invalid ("graph input size exceeds limit " +:+ to_string_nat (max_graph_input_bytes limits))
      else read_chunks (text +:+ chunk) rest
  end.
Definition read_bounded_graph_file (path : string) (file : option GraphFile) : Load string :=
  match file with
  | None => invalid ("failed to open graph file: " +:+ path)
  | Some file =>
      text ← read_chunks "" (file_chunks file);
      if file_bad file then invalid ("failed to read graph file: " +:+ path) else mret text
  end.
Definition load_graph_file (path : string) (file : option GraphFile) : Load GraphSpec :=
  text ← read_bounded_graph_file path file; load_graph_text text.
End text.
