(* ===== verification/LoaderFacts.v ===== *)
(** * LoaderFacts: what a load ends with

    A load ends with a graph or with [std::invalid_argument]; a graph that is returned is within the limits, and what
    subgraphs and templates expand to stays in their name spaces. *)

From S2P Require Export Loader.
Local Open Scope nat_scope.

(** ** Only exceptions of the loader and the library *)
Definition no_divergence (e : GraphIoError) : Prop := e ≠ Diverged.
Abbreviation ends m := (throws_only no_divergence m).
Lemma ends_invalid {A} what : ends (invalid what : Load A).
Proof. by intros e [= <-]. Qed.
Lemma ends_lib {A} (r : YamlResult A) : ends (lib r).
Proof. destruct r; by intros e [= <-]. Qed.
Lemma ends_lib_or {A} what (r : YamlResult A) : ends (lib_or what r).
Proof. destruct r; by intros e [= <-]. Qed.
Create HintDb loads.
#[export] Hint Resolve ends_invalid ends_lib ends_lib_or throws_ret throws_loaded : loads.
(** Follows the structure of a computation. *)
Ltac ends_step :=
  match goal with
  | |- forall _, _ => intros ?
  | |- throws_only _ (_ ≫= _) => apply throws_bind; [|intros ? _]
  | |- throws_only _ (each _ _) => apply throws_each; intros ? _
  | |- throws_only _ (mapM _ _) => apply throws_mapM; intros ? _
  | |- throws_only _ (collect _ _) => apply throws_collect; intros ? ? _
  | |- throws_only _ (if ?b then _ else _) => destruct b
  | |- throws_only _ (match ?x with _ => _ end) => destruct x
  | |- throws_only _ (let _ := _ in _) => cbv zeta
  | |- throws_only _ _ => solve [auto with loads]
  end.
Ltac ends := repeat ends_step.
Lemma ends_limit value limit context : ends (enforce_limit value limit context).
Proof. unfold enforce_limit. ends. Qed.
Lemma limit_loaded value limit context : enforce_limit value limit context = Loaded () ↔ value ≤ limit.
Proof. unfold enforce_limit. destruct (Nat.ltb_spec limit value); split; (done || lia). Qed.
Lemma ends_utf8 text : ends (enforce_valid_utf8 text).
Proof. unfold enforce_valid_utf8. ends. Qed.
#[export] Hint Resolve ends_limit ends_utf8 : loads.
Section limited.
Context (limits : GraphInputLimits).
Lemma ends_string_limit value context : ends (enforce_string_limit limits value context).
Proof. apply ends_limit. Qed.
Lemma ends_identifier_limit value context : ends (enforce_identifier_limit limits value context).
Proof. unfold enforce_identifier_limit. ends. Qed.
#[local] Hint Resolve ends_string_limit ends_identifier_limit : loads.
Lemma ends_checked value context : ends (checked_identifier limits value context).
Proof. unfold checked_identifier. ends. Qed.
#[local] Hint Resolve ends_checked : loads.
Lemma ends_prefixed n l context : ends (prefixed_id limits n l context).
Proof. unfold prefixed_id. ends. Qed.
Lemma ends_endpoint n e context : ends (namespace_endpoint limits n e context).
Proof. unfold namespace_endpoint. ends. Qed.
Lemma ends_refs n l context : ends (namespace_component_refs limits n l context).
Proof. unfold namespace_component_refs. ends. Qed.
Lemma find_from_behind needle value cursor open : find_from needle value cursor = Some open → cursor ≤ open.
Proof.
  revert cursor open. induction value as [|c value IH]; intros [|cursor] open H; simpl in H; try done; [lia|].
  destruct (find_from needle value cursor) as [n|] eqn:E; [|done]. injection H as <-. apply IH in E. lia.
Qed.
Lemma ends_substitute_loop fuel value parameters context cursor output : String.length value - cursor < fuel →
  ends (substitute_loop limits fuel value parameters context cursor output).
Proof.
  revert cursor output. induction fuel as [|fuel IH]; intros cursor output Hf; [lia|]. cbn [substitute_loop].
  destruct (Nat.ltb_spec cursor (String.length value)); cbn [negb]; [|ends].
  destruct (find_from "{{" value cursor) as [open|] eqn:E1; [|ends]. destruct (find_from "}}" value (open + 2)) as [close|] eqn:E2; [|ends].
  apply find_from_behind in E1, E2. cbv zeta. apply throws_bind; [ends|intros _ _]. destruct (_ !! _); [|ends]. apply IH. lia.
Qed.
Lemma ends_substitute value parameters context : ends (substitute_placeholders limits value parameters context).
Proof. unfold substitute_placeholders. apply throws_bind; [apply ends_substitute_loop; lia|]. ends. Qed.
End limited.
#[export] Hint Resolve ends_string_limit ends_identifier_limit ends_checked ends_prefixed ends_endpoint ends_refs ends_substitute : loads.

Section readers.
Context {Node : Type} `{YamlLib Node} (limits : GraphInputLimits).
Lemma ends_config fuel node context depth : max_config_depth limits + 1 < fuel + depth → 0 < fuel → ends (config_limits limits fuel node context depth).
Proof.
  revert node context depth. induction fuel as [|fuel IH]; intros node context depth Hf Hp; [lia|]. cbn [config_limits].
  destruct (absent node); [ends|]. apply throws_bind; [ends|intros [] Hd%limit_loaded].
  destruct (is_map node); [|destruct (is_sequence node); [|ends]].
  - apply throws_each. intros [k v] _. apply throws_bind; [ends|intros key _]. apply throws_bind; [ends|intros _ _]. apply IH; lia.
  - apply throws_each. intros [i v] _. apply IH; lia.
Qed.
Lemma ends_config_limits node context : ends (enforce_config_limits limits node context).
Proof. apply ends_config; lia. Qed.
#[local] Hint Resolve ends_config_limits : loads.
Lemma ends_require_map (node : Node) context : ends (require_map node context).
Proof. unfold require_map. ends. Qed.
Lemma ends_require_sequence (node : Node) context : ends (require_sequence node context).
Proof. unfold require_sequence. ends. Qed.
Lemma ends_require_node (node : Node) key context : ends (require_node node key context).
Proof. unfold require_node. ends. Qed.
#[local] Hint Resolve ends_require_map ends_require_sequence ends_require_node : loads.
Lemma ends_require_string (node : Node) key context : ends (require_string node key context).
Proof. unfold require_string. ends. Qed.
Lemma ends_optional {A} (node : Node) key (fallback : A) read : (∀ child, ends (read child)) → ends (optional node key fallback read).
Proof. intros Hr. unfold optional. ends. Qed.
Lemma ends_unknown (node : Node) context allowed : ends (reject_unknown_fields node context allowed).
Proof. unfold reject_unknown_fields. ends. Qed.
End readers.
#[export] Hint Resolve ends_config_limits ends_require_map ends_require_sequence ends_require_node ends_require_string ends_unknown : loads.
Ltac reads := repeat first [ends_step | apply ends_optional].
Section records.
Context {Node : Type} `{YamlLib Node} (limits : GraphInputLimits).
Implicit Types (node : Node).
Lemma ends_optional_string node key fallback : ends (optional_string node key fallback).
Proof. unfold optional_string. reads. Qed.
Lemma ends_optional_int node key fallback : ends (optional_int node key fallback).
Proof. unfold optional_int. reads. Qed.
Lemma ends_optional_double node key fallback : ends (optional_double node key fallback).
Proof. unfold optional_double. reads. Qed.
Lemma ends_optional_bool node key fallback : ends (optional_bool node key fallback).
Proof. unfold optional_bool. reads. Qed.
Lemma ends_string_vector node key context : ends (optional_string_vector node key context).
Proof. unfold optional_string_vector. reads. Qed.
Lemma ends_int_vector node key context : ends (optional_int_vector node key context).
Proof. unfold optional_int_vector. reads. Qed.
#[local] Hint Resolve ends_optional_string ends_optional_int ends_optional_double ends_optional_bool ends_string_vector ends_int_vector : loads.
Lemma ends_config_items context view items : ends (read_config_items limits context view items : Load _).
Proof.
  revert view. induction items as [|item items IH]; intros view; cbn [read_config_items]; [ends|]. apply throws_bind; [|intros; apply IH].
  unfold read_config_item. ends.
Qed.
#[local] Hint Resolve ends_config_items : loads.
Lemma ends_config_node node context : ends (read_config_node limits node context).
Proof. unfold read_config_node. ends. Qed.
#[local] Hint Resolve ends_config_node : loads.
Lemma ends_event_source node context : ends (read_event_source node context).
Proof. unfold read_event_source. ends. Qed.
#[local] Hint Resolve ends_event_source : loads.
Lemma ends_component node id context : ends (read_component_node limits node id context).
Proof.
  unfold read_component_node, read_event_sources, read_trigger_policy, read_execution_spec, read_boundary_descriptor, read_config. reads.
Qed.
Lemma ends_edge node id context : ends (read_edge_node limits node id context).
Proof. unfold read_edge_node, read_edge_kind, read_edge_policy. reads. Qed.
Lemma ends_loop node context : ends (read_composite_loop limits node context).
Proof. unfold read_composite_loop, read_loop_policy. reads. Qed.
Lemma ends_id node context : ends (read_id limits node context).
Proof. unfold read_id. reads. Qed.
#[local] Hint Resolve ends_component ends_edge ends_loop ends_id : loads.
Lemma ends_subgraph node context : ends (read_subgraph limits node context).
Proof. unfold read_subgraph, read_subgraph_component, read_subgraph_edge, read_subgraph_loop. reads. Qed.
#[local] Hint Resolve ends_subgraph : loads.
Lemma ends_append node graph context : ends (append_subgraph_expansion limits node graph context).
Proof. unfold append_subgraph_expansion. reads. Qed.
Lemma ends_flat node : ends (read_flat_graph limits node).
Proof. unfold read_flat_graph, read_clock, read_lane, read_component_at, read_edge_at, required_list, root_list. reads. Qed.
#[local] Hint Resolve ends_append ends_flat : loads.
Lemma ends_subgraphs index ids nodes graph : ends (expand_subgraphs limits index ids nodes graph).
Proof. revert index ids graph. induction nodes as [|node nodes IH]; intros index ids graph; cbn [expand_subgraphs]; reads; apply IH. Qed.
Lemma ends_check_parameters context names parameters : ends (check_parameters limits context names parameters).
Proof. revert names. induction parameters as [|p parameters IH]; intros names; cbn [check_parameters]; reads; apply IH. Qed.
#[local] Hint Resolve ends_check_parameters ends_subgraphs : loads.
Lemma ends_template node context : ends (read_graph_template limits node context).
Proof. unfold read_graph_template. reads. Qed.
#[local] Hint Resolve ends_template : loads.
Lemma ends_templates index templates nodes : ends (read_templates limits index templates nodes).
Proof. revert index templates. induction nodes as [|node nodes IH]; intros index templates; cbn [read_templates]; reads; apply IH. Qed.
Lemma ends_parameter_items required context values (items : list (Node * Node)) : ends (read_parameter_items limits required context values items).
Proof. revert values. induction items as [|item items IH]; intros values; cbn [read_parameter_items]; reads; apply IH. Qed.
#[local] Hint Resolve ends_templates ends_parameter_items : loads.
Context {laws : YamlLaws Node}.
(** The parts of a node that does not contain itself do not contain themselves either. *)
Lemma undefined_nested node : node_kind node = KUndefined → well_nested node.
Proof. intros Hk. constructor. intros m [[Hn _]|[Hn _]]; by rewrite Hk in Hn. Qed.
Lemma at_nested node key child : well_nested node → node_at node key = inr child → well_nested child.
Proof. intros Hn [Hk|Hin]%at_inside; [by apply undefined_nested|by eapply Acc_inv]. Qed.
Lemma lib_nested node key child : well_nested node → lib (node_at node key) = Loaded child → well_nested child.
Proof.
  intros Hn Hl. apply (at_nested node key child Hn). unfold lib in Hl. destruct (node_at node key) as [what|n]; [discriminate Hl|].
  injection Hl as Hl. by rewrite Hl.
Qed.
Lemma element_nested node child : well_nested node → is_sequence node = true → child ∈ node_elements node → well_nested child.
Proof. intros Hn Hs Hin. eapply Acc_inv; [exact Hn|]. left. apply bool_decide_eq_true in Hs. by split. Qed.
Lemma ends_substitute_node fuel node parameters context : well_nested node → node_depth node < fuel →
  ends (substitute_node limits fuel node parameters context).
Proof.
  revert node context. induction fuel as [|fuel IH]; intros node context Hn Hf; [lia|]. cbn [substitute_node].
  destruct (absent node); [reads|]. destruct (is_scalar node); [reads|]. destruct (is_sequence node) eqn:Es; [|destruct (is_map node) eqn:Em; [|reads]].
  - apply throws_bind; [|reads]. apply throws_collect. intros index element Hin.
    assert (inside element node) as Hi by (left; split; [by apply bool_decide_eq_true in Es|done]).
    apply IH; [by eapply Acc_inv|]. pose proof (inside_depth _ _ Hn Hi). lia.
  - apply throws_bind; [|reads]. apply throws_mapM. intros [k v] Hin. apply bool_decide_eq_true in Em.
    assert (inside v node) as Hi by (right; split; [done|by exists k]). pose proof (inside_depth _ _ Hn Hi).
    do 2 (apply throws_bind; [reads|intros ? _]). apply throws_bind; [apply IH; [by eapply Acc_inv|simpl; lia]|reads].
Qed.
Lemma ends_substitute_template node parameters context : well_nested node → ends (substitute_template_node limits node parameters context).
Proof. intros Hn. apply ends_substitute_node; [done|lia]. Qed.
Lemma ends_part body key values context : well_nested body → ends (substitute_part limits body key values context).
Proof. intros Hn. apply throws_bind; [reads|]. intros part Hp. apply ends_substitute_template. by eapply lib_nested. Qed.
Lemma ends_expand definition instance_id values context : well_nested (tmpl_body definition) →
  ends (expand_template limits definition instance_id values context).
Proof.
  intros Hn. unfold expand_template. cbv zeta. do 2 (apply throws_bind; [by apply ends_part|intros ? _]).
  apply throws_bind; [reads|]. intros loops Hl. apply throws_bind; [|reads]. destruct (absent loops); [reads|].
  apply throws_bind; [|reads]. apply ends_substitute_template. by eapply lib_nested.
Qed.
Lemma ends_instance node templates graph context : map_Forall (λ _ definition, well_nested (tmpl_body definition)) templates →
  ends (append_template_instance_expansion limits node templates graph context).
Proof.
  intros Ht. unfold append_template_instance_expansion. do 3 (apply throws_bind; [reads|intros ? _]). apply throws_bind; [reads|].
  intros given _. apply throws_bind; [reads|]. intros id _. destruct (templates !! id) as [definition|] eqn:Ed; [|reads].
  apply throws_bind; [unfold read_template_instance_parameters; reads|]. intros values _.
  apply throws_bind; [apply ends_expand; by apply (Ht id)|reads].
Qed.
Lemma ends_instances index templates nodes graph : map_Forall (λ _ definition, well_nested (tmpl_body definition)) templates →
  ends (expand_instances limits index templates nodes graph).
Proof.
  intros Ht. revert index graph. induction nodes as [|node nodes IH]; intros index graph; cbn [expand_instances]; [reads|].
  apply throws_bind; [by apply ends_instance|]. intros. apply IH.
Qed.
Lemma template_body node context definition : read_graph_template limits node context = Loaded definition → tmpl_body definition = node.
Proof. intros Hd. unfold read_graph_template in Hd. load_inv Hd. by subst definition. Qed.
(** The bodies of the templates that were read are among the nodes. *)
Lemma templates_bodies (P : Node → Prop) nodes index templates templates' : Forall P nodes →
  map_Forall (λ _ definition, P (tmpl_body definition)) templates → read_templates limits index templates nodes = Loaded templates' →
  map_Forall (λ _ definition, P (tmpl_body definition)) templates'.
Proof.
  intros Hn. revert index templates. induction Hn as [|node nodes Hp _ IH]; intros index templates Ht Hr; cbn [read_templates] in Hr;
    [by injection Hr as <-|].
  load_inv Hr. eapply IH; [|exact Hr]. apply map_Forall_insert_2; [|done]. by rewrite (template_body _ _ _ Ha).
Qed.
Lemma root_list_elements root key limit nodes : root_list root key limit = Loaded nodes →
  ∃ child, node_at root key = inr child ∧ (absent child = true ∧ nodes = [] ∨ absent child = false ∧ is_sequence child = true ∧ nodes = node_elements child).
Proof.
  unfold root_list, optional. intros (child&Hc&Hr)%bind_loaded. exists child. split; [destruct (node_at root key); [done|by injection Hc as ->]|].
  destruct (absent child) eqn:Ea; [left; split; [done|by injection Hr]|]. right. load_inv Hr. subst nodes. split_and!; [done| |done].
  unfold require_sequence in Ha. rewrite Ea in Ha. by destruct (is_sequence child).
Qed.
Lemma root_list_nested root key limit nodes : well_nested root → root_list root key limit = Loaded nodes → Forall well_nested nodes.
Proof.
  intros Hn (child&Hc&[[_ ->]|(_&Hs&->)])%root_list_elements; [constructor|]. apply Forall_forall. intros node Hin.
  eapply element_nested; [by eapply at_nested|done..].
Qed.
(** The load of a document comes back unless the document contains itself. *)
Lemma ends_load node : well_nested node → ends (load_graph_node limits node).
Proof.
  intros Hn. unfold load_graph_node. do 3 (apply throws_bind; [unfold root_list; reads|intros ? _]).
  apply throws_bind; [unfold root_list; reads|]. intros template_nodes Ht. apply throws_bind; [reads|]. intros templates Hr.
  do 1 (apply throws_bind; [unfold root_list; reads|intros ? _]). apply throws_bind; [|reads]. apply ends_instances.
  eapply templates_bodies; [by eapply root_list_nested|apply map_Forall_empty|exact Hr].
Qed.
Lemma ends_config_view config context : ends (enforce_config_view_string_limits limits config context).
Proof. unfold enforce_config_view_string_limits. reads. Qed.
#[local] Hint Resolve ends_config_view : loads.
Lemma ends_strings graph : ends (enforce_graph_string_limits limits graph).
Proof.
  unfold enforce_graph_string_limits, enforce_lane_strings, enforce_component_strings, enforce_source_strings, enforce_edge_strings,
    enforce_loop_strings, enforce_hierarchy_strings. reads.
Qed.
(** A load that throws throws [std::invalid_argument]; one that does not come back copies a node that contains itself. *)
Lemma text_throws text : throws_only (λ e, (∃ what, e = InvalidArgument what) ∨ (e = Diverged ∧ ∃ root, yaml_load text = inr root ∧ ¬ well_nested root))
  (load_graph_text limits text).
Proof.
  intros e. unfold load_graph_text. intros [H1|([]&_&H1)]%bind_thrown; [|apply bind_thrown in H1 as [H1|([]&_&H1)]].
  - left. unfold enforce_limit in H1. destruct (_ <? _); [|done]. injection H1 as <-. by eexists.
  - left. unfold enforce_valid_utf8 in H1. destruct (negb _); [|done]. injection H1 as <-. by eexists.
  - cbv zeta in H1. destruct (_ <? _); [left; injection H1 as <-; by eexists|]. revert H1. unfold catch_yaml.
    destruct (yaml_load text) as [what|root]; cbn [lib]; [intros [= <-]; left; by eexists|]. step_loaded.
    destruct (_ ≫= _) as [g|[what|what|]] eqn:Em; try (intros [= <-]; left; by eexists). intros [= <-]. right. split; [done|].
    exists root. split; [done|]. intros Hn. assert (ends (load_graph_node limits root ≫= λ graph, _ ← enforce_graph_string_limits limits graph; mret graph)) as He
      by (apply throws_bind; [by apply ends_load|intros; apply throws_bind; [apply ends_strings|reads]]). by apply (He _ Em).
Qed.
End records.

(** ** The strings of a graph *)
Definition lane_texts (l : LaneSpec) : list string :=
  [lane_type l; lane_priority l; lane_overflow l; lane_overrun_policy l; lane_thread_name l; lane_rt_policy l; lane_isolation_intent l].
Definition source_texts (s : EventSourceSpec) : list string := [source_id s; source_type s; source_input s] ++ source_inputs s.
Definition trigger_texts (t : TriggerPolicySpec) : list string := [trigger_type t; trigger_input t; trigger_condition t] ++ trigger_inputs t.
Definition component_identifiers (c : ComponentNodeSpec) : list string := comp_id c :: exec_lane (execution c) :: depends_on c.
Definition component_texts (c : ComponentNodeSpec) : list string :=
  [comp_type c; boundary_descriptor c; component_role_name (boundary_role c); exec_priority (execution c); exec_on_error (execution c)]
  ++ trigger_texts (trigger_policy c) ++ (event_sources c ≫= source_texts).
Definition edge_texts (e : EdgeSpec) : list string :=
  let p := edge_policy e in
  [edge_from e; edge_to e; edge_invalid_kind e; policy_mode p; policy_overflow p; policy_timestamp_domain p; policy_copy_policy p;
   policy_owner p; policy_readers p].
Definition loop_identifiers (l : CompositeLoopSpec) : list string := loop_id l :: loop_components l.
Definition loop_texts (l : CompositeLoopSpec) : list string :=
  let p := loop_policy l in [loop_type p; loop_drop_policy p; loop_convergence p; loop_partial_success p].
Definition hierarchy_identifiers (h : GraphHierarchyEntry) : list string :=
  hier_id h :: hier_components h ++ hier_edges h ++ hier_composite_loops h.
(** Everything in a graph that is used as an identifier, every other string, and every configuration. *)
Definition graph_identifiers (g : GraphSpec) : list string :=
  graph_name g :: (lane_id <$> graph_lanes g) ++ (graph_components g ≫= component_identifiers) ++ (edge_id <$> graph_edges g) ++
  (graph_composite_loops g ≫= loop_identifiers) ++ (graph_hierarchy g ≫= hierarchy_identifiers).
Definition graph_texts (g : GraphSpec) : list string :=
  [graph_kind g; clock_runtime_domain (graph_clock g); clock_event_domain (graph_clock g)] ++ (graph_lanes g ≫= lane_texts) ++
  (graph_components g ≫= component_texts) ++ (graph_edges g ≫= edge_texts) ++ (graph_composite_loops g ≫= loop_texts).
Definition graph_configs (g : GraphSpec) : list ConfigView := graph_config g :: (comp_config <$> graph_components g).
Section within.
Context (limits : GraphInputLimits).
Definition fits_identifier (s : string) : Prop := s ≠ "" ∧ String.length s ≤ max_identifier_bytes limits.
Definition fits_text (s : string) : Prop := String.length s ≤ max_string_bytes limits.
Definition fits_config (c : ConfigView) : Prop := map_Forall (λ key value,
  String.length key ≤ max_identifier_bytes limits ∧ String.length value ≤ max_config_value_bytes limits) (config_values c).
Record strings_within (g : GraphSpec) : Prop := {
  within_identifiers : Forall fits_identifier (graph_identifiers g);
  within_texts : Forall fits_text (graph_texts g);
  within_configs : Forall fits_config (graph_configs g) }.
Record counts_within (g : GraphSpec) : Prop := {
  within_lanes : length (graph_lanes g) ≤ max_lanes limits;
  within_components : length (graph_components g) ≤ max_components limits;
  within_edges : length (graph_edges g) ≤ max_edges limits;
  within_loops : length (graph_composite_loops g) ≤ max_composite_loops limits }.

Lemma unit_bind (m k : Load ()) : (_ ← m; k) = Loaded () ↔ m = Loaded () ∧ k = Loaded ().
Proof. rewrite bind_loaded. split; [intros ([]&?&?)|intros [? ?]; exists ()]; done. Qed.
Lemma identifier_loaded s context : enforce_identifier_limit limits s context = Loaded () ↔ fits_identifier s.
Proof. unfold enforce_identifier_limit, fits_identifier. destruct s as [|c s]; [by split; [|intros []]|]. cbn [str_empty]. rewrite limit_loaded. naive_solver. Qed.
Lemma text_loaded s context : enforce_string_limit limits s context = Loaded () ↔ fits_text s.
Proof. apply limit_loaded. Qed.
Lemma each_forall {A} (f : A → Load ()) (P : A → Prop) l : (∀ x, f x = Loaded () ↔ P x) → each f l = Loaded () ↔ Forall P l.
Proof. intros Hf. rewrite each_loaded, Forall_forall. by setoid_rewrite Hf. Qed.
Lemma identifiers_each l context : each (fun s => enforce_identifier_limit limits s context) l = Loaded () ↔ Forall fits_identifier l.
Proof. apply each_forall. intros. apply identifier_loaded. Qed.
Lemma texts_each l context : each (fun s => enforce_string_limit limits s context) l = Loaded () ↔ Forall fits_text l.
Proof. apply each_forall. intros. apply text_loaded. Qed.
Lemma config_loaded config context : enforce_config_view_string_limits limits config context = Loaded () ↔ fits_config config.
Proof.
  unfold enforce_config_view_string_limits. rewrite each_loaded. setoid_rewrite unit_bind. setoid_rewrite limit_loaded.
  split; [intros Hall k v Hk|intros Hall [k v] Hin]; [apply (Hall (k, v))|apply (Hall k v)]; by apply elem_of_map_items.
Qed.
(** Splits the list of checks of a record and the list of its strings. *)
Ltac split_strings :=
  rewrite ?unit_bind, ?identifier_loaded, ?text_loaded, ?config_loaded, ?identifiers_each, ?texts_each,?Forall_cons, ?Forall_app, ?Forall_cons, ?Forall_nil.
Lemma lane_loaded l : enforce_lane_strings limits l = Loaded () ↔ fits_identifier (lane_id l) ∧ Forall fits_text (lane_texts l).
Proof. unfold enforce_lane_strings, lane_texts. split_strings. tauto. Qed.
Lemma source_loaded context s : enforce_source_strings limits context s = Loaded () ↔ Forall fits_text (source_texts s).
Proof.
  unfold enforce_source_strings, source_texts. split_strings. tauto.
Qed.
Lemma Forall_bind_iff {A B} (P : B → Prop) (f : A → list B) l : Forall P (l ≫= f) ↔ Forall (λ x, Forall P (f x)) l.
Proof. induction l as [|x l IH]; simpl; [by split|]. by rewrite Forall_app, Forall_cons, IH. Qed.
Lemma component_loaded c : enforce_component_strings limits c = Loaded () ↔
  Forall fits_identifier (component_identifiers c) ∧ Forall fits_text (component_texts c) ∧ fits_config (comp_config c).
Proof.
  unfold enforce_component_strings, component_identifiers, component_texts, trigger_texts. split_strings.
  rewrite (each_forall _ (λ s, Forall fits_text (source_texts s)) (event_sources c)) by (intros; apply source_loaded).
  rewrite Forall_bind_iff. tauto.
Qed.
Lemma edge_loaded e : enforce_edge_strings limits e = Loaded () ↔ fits_identifier (edge_id e) ∧ Forall fits_text (edge_texts e).
Proof. unfold enforce_edge_strings, edge_texts. cbv zeta. split_strings. tauto. Qed.
Lemma loop_loaded l : enforce_loop_strings limits l = Loaded () ↔ Forall fits_identifier (loop_identifiers l) ∧ Forall fits_text (loop_texts l).
Proof.
  unfold enforce_loop_strings, loop_identifiers, loop_texts. cbv zeta. split_strings. tauto.
Qed.
Lemma hierarchy_loaded h : enforce_hierarchy_strings limits h = Loaded () ↔ Forall fits_identifier (hierarchy_identifiers h).
Proof.
  unfold enforce_hierarchy_strings, hierarchy_identifiers. cbv zeta. split_strings. tauto.
Qed.
Lemma strings_loaded g : enforce_graph_string_limits limits g = Loaded () ↔ strings_within g.
Proof.
  transitivity (Forall fits_identifier (graph_identifiers g) ∧ Forall fits_text (graph_texts g) ∧ Forall fits_config (graph_configs g));
    [|split; [intros (?&?&?); by split|by intros []]].
  unfold enforce_graph_string_limits, graph_identifiers, graph_texts, graph_configs. split_strings.
  rewrite !Forall_bind_iff, !Forall_fmap.
  rewrite (each_forall _ _ (graph_lanes g) lane_loaded), (each_forall _ _ (graph_components g) component_loaded),
    (each_forall _ _ (graph_edges g) edge_loaded), (each_forall _ _ (graph_composite_loops g) loop_loaded),
    (each_forall _ _ (graph_hierarchy g) hierarchy_loaded).
  rewrite !Forall_and. unfold compose. tauto.
Qed.
End within.
