(* ===== verification/LoaderShape.v ===== *)
(** * LoaderShape: subgraphs and templates stay in their name spaces

    What a document loads to is its flat part followed by the expansions of its subgraphs and template instances, in
    order; an expansion names and references components of its own name space only. *)

From S2P Require Export LoaderFacts.
Local Open Scope nat_scope.

(** ** Name spaces *)
Definition in_namespace (id s : string) : Prop := ∃ local, local ≠ "" ∧ s = id +:+ "." +:+ local.
(** An endpoint in a name space; one with a port names a component of it. *)
Definition endpoint_in_namespace (id s : string) : Prop := ∃ endpoint, s = id +:+ "." +:+ endpoint ∧
  (is_Some (rfind_dot endpoint) → in_namespace id (component_id_from_endpoint s) ∧ port_name_from_endpoint s = port_name_from_endpoint endpoint).
Record namespaced (e : Expansion) : Prop := {
  ns_components : Forall (λ c, in_namespace (hier_id (exp_hierarchy e)) (comp_id c) ∧
    Forall (in_namespace (hier_id (exp_hierarchy e))) (depends_on c)) (exp_components e);
  ns_edges : Forall (λ x, in_namespace (hier_id (exp_hierarchy e)) (edge_id x) ∧
    endpoint_in_namespace (hier_id (exp_hierarchy e)) (edge_from x) ∧ endpoint_in_namespace (hier_id (exp_hierarchy e)) (edge_to x)) (exp_edges e);
  ns_loops : Forall (λ l, in_namespace (hier_id (exp_hierarchy e)) (loop_id l) ∧
    Forall (in_namespace (hier_id (exp_hierarchy e))) (loop_components l)) (exp_loops e);
  ns_lists : hier_components (exp_hierarchy e) = comp_id <$> exp_components e ∧ hier_edges (exp_hierarchy e) = edge_id <$> exp_edges e ∧
    hier_composite_loops (exp_hierarchy e) = loop_id <$> exp_loops e;
  ns_inhabited : exp_components e ≠ [] }.

Lemma rfind_dot_app a b d : rfind_dot b = Some d → rfind_dot (a +:+ b) = Some (String.length a + d).
Proof. intros Hb. induction a as [|c a IH]; [done|]. rewrite str_app_cons. cbn [rfind_dot]. by rewrite IH. Qed.
Lemma rfind_dot_bound s d : rfind_dot s = Some d → d < String.length s.
Proof.
  revert d. induction s as [|c s IH]; intros d; cbn [rfind_dot]; [done|]. destruct (rfind_dot s) as [n|].
  - intros [= <-]. specialize (IH _ eq_refl). simpl. lia.
  - destruct (bool_decide _); [|done]. intros [= <-]. simpl. lia.
Qed.
Lemma substring_app a b n : String.substring 0 (String.length a + n) (a +:+ b) = a +:+ String.substring 0 n b.
Proof. induction a as [|c a IH]; [done|]. rewrite !str_app_cons. exact (f_equal (String c) IH). Qed.
Lemma component_id_app a b : is_Some (rfind_dot b) → component_id_from_endpoint (a +:+ b) = a +:+ component_id_from_endpoint b.
Proof. intros [d Hd]. unfold component_id_from_endpoint. rewrite (rfind_dot_app a b d Hd), Hd. apply substring_app. Qed.
Lemma substring_skip a b n m : String.substring (String.length a + n) m (a +:+ b) = String.substring n m b.
Proof. induction a as [|c a IH]; [done|]. rewrite str_app_cons. exact IH. Qed.
Lemma port_name_app a b : is_Some (rfind_dot b) → port_name_from_endpoint (a +:+ b) = port_name_from_endpoint b.
Proof.
  intros [d Hd]. unfold port_name_from_endpoint. rewrite (rfind_dot_app a b d Hd), Hd, str_app_length.
  replace (String.length a + String.length b <=? String.length a + d + 1) with (String.length b <=? d + 1)
    by (destruct (Nat.leb_spec (String.length b) (d + 1)), (Nat.leb_spec (String.length a + String.length b) (String.length a + d + 1)); (done || lia)).
  destruct (_ <=? _); [done|]. replace (String.length a + d + 1) with (String.length a + (d + 1)) by lia. rewrite substring_skip. f_equal. lia.
Qed.
Lemma component_id_nonempty b : str_empty (component_id_from_endpoint b) = false → component_id_from_endpoint b ≠ "".
Proof. by destruct (component_id_from_endpoint b). Qed.
Lemma component_id_split endpoint : component_id_from_endpoint endpoint +:+
  substr endpoint (String.length (component_id_from_endpoint endpoint)) (String.length endpoint - String.length (component_id_from_endpoint endpoint)) = endpoint.
Proof.
  assert (∀ s n, n ≤ String.length s → String.length (String.substring 0 n s) = n ∧
    String.substring 0 n s +:+ String.substring n (String.length s - n) s = s) as Hs.
  { induction s as [|c s IH]; intros [|n] Hn; simpl in Hn; try lia; [done| |].
    - split; [done|]. cbn [String.substring String.length]. rewrite Nat.sub_0_r. exact (f_equal (String c) (substring_all s)).
    - destruct (IH n ltac:(lia)) as [H1 H2]. split; [exact (f_equal S H1)|]. exact (f_equal (String c) H2). }
  unfold component_id_from_endpoint, substr. destruct (rfind_dot endpoint) as [d|] eqn:Ed.
  - apply rfind_dot_bound in Ed. destruct (Hs endpoint d ltac:(lia)) as [-> H]. exact H.
  - rewrite Nat.sub_diag. assert (∀ s, String.substring (String.length s) 0 s = "") as -> by (clear; induction s; done).
    apply str_app_nil_r.
Qed.
Section namespaces.
Context (limits : GraphInputLimits).
Lemma endpoint_loaded_as id endpoint context r : namespace_endpoint limits id endpoint context = Loaded r →
  r = id +:+ "." +:+ endpoint ∧ (is_Some (rfind_dot endpoint) → in_namespace id (component_id_from_endpoint r) ∧ port_name_from_endpoint r = port_name_from_endpoint endpoint).
Proof.
  unfold namespace_endpoint. intros H. destruct (str_empty _) eqn:Ee; [done|]. apply component_id_nonempty in Ee. apply bind_loaded in H as ([]&_&H).
  assert (r = id +:+ "." +:+ endpoint) as ->.
  { rewrite <- (component_id_split endpoint) at 1. destruct (_ =? _) eqn:El; injection H as <-.
    - apply Nat.eqb_eq in El. rewrite El, Nat.sub_diag. unfold substr.
      assert (∀ s, String.substring (String.length s) 0 s = "") as -> by (clear; induction s; done). by rewrite str_app_nil_r.
    - by rewrite !str_app_assoc. }
  split; [done|]. intros Hd. rewrite <- str_app_assoc. split; [|by apply port_name_app].
  rewrite component_id_app by done. exists (component_id_from_endpoint endpoint). split; [done|]. by rewrite str_app_assoc.
Qed.
Lemma endpoint_loaded id endpoint context r : namespace_endpoint limits id endpoint context = Loaded r → endpoint_in_namespace id r.
Proof. intros H%endpoint_loaded_as. by exists endpoint. Qed.
Lemma identifier_nonempty s context : enforce_identifier_limit limits s context = Loaded () → s ≠ "".
Proof. intros [H _]%identifier_loaded. done. Qed.
Lemma checked_loaded s context r : checked_identifier limits s context = Loaded r → r = s ∧ s ≠ "".
Proof. intros H. apply bind_loaded in H as ([]&H&[= ->]). split; [done|by eapply identifier_nonempty]. Qed.
Lemma prefixed_loaded id local context r : local ≠ "" → prefixed_id limits id local context = Loaded r → in_namespace id r.
Proof. intros Hl [-> _]%checked_loaded. by exists local. Qed.
(** A name of a name space. *)
Definition prefix_with (id s : string) : string := id +:+ "." +:+ s.
Lemma prefixed_text id local context r : prefixed_id limits id local context = Loaded r → r = prefix_with id local.
Proof. by intros [-> _]%checked_loaded. Qed.
Lemma endpoint_text id endpoint context r : namespace_endpoint limits id endpoint context = Loaded r → r = prefix_with id endpoint.
Proof. by intros [-> _]%endpoint_loaded_as. Qed.
Lemma refs_text id l context r : namespace_component_refs limits id l context = Loaded r → r = prefix_with id <$> l.
Proof.
  unfold namespace_component_refs. rewrite mapM_loaded. induction 1 as [|x y l k Hx _ IH]; [done|]. cbn. f_equal; [|exact IH].
  apply bind_loaded in Hx as ([]&_&Hx). apply bind_loaded in Hx as ([]&_&[= <-]). done.
Qed.
Lemma refs_loaded id l context r : namespace_component_refs limits id l context = Loaded r → Forall (in_namespace id) r.
Proof.
  intros H. apply Forall_forall. intros y Hy. destruct (mapM_elem _ _ _ _ H Hy) as (x&_&Hx).
  apply bind_loaded in Hx as ([]&H1&Hx). apply bind_loaded in Hx as ([]&_&[= <-]). exists x. split; [by eapply identifier_nonempty|done].
Qed.
End namespaces.

(** ** Expansions *)
Section shape.
Context {Node : Type} `{YamlLib Node} (limits : GraphInputLimits).
Lemma optional_loaded {A} (node : Node) key (fallback : A) read r : optional node key fallback read = Loaded r →
  r = fallback ∨ ∃ child, read child = Loaded r.
Proof. intros [child [_ Hr]]%bind_loaded. destruct (absent child); [left; by injection Hr|right; by exists child]. Qed.
Lemma id_loaded (node : Node) context r : read_id limits node context = Loaded r → r ≠ "".
Proof. intros H0. apply bind_loaded in H0 as (a&_&[-> Hne]%checked_loaded). done. Qed.
Lemma component_loaded_id (node : Node) id context c : read_component_node limits node id context = Loaded c → comp_id c = id.
Proof. intros Hc. unfold read_component_node in Hc. load_inv Hc. destruct a7 as [role descriptor]. load_inv Hc. subst c. by apply checked_loaded in Ha0 as [-> _]. Qed.
Lemma edge_loaded_id (node : Node) id context x : read_edge_node limits node id context = Loaded x → edge_id x = id.
Proof. intros Hx. unfold read_edge_node in Hx. load_inv Hx. destruct a4 as [[kind has_kind] invalid_kind]. load_inv Hx. subst x. by apply checked_loaded in Ha0 as [-> _]. Qed.
Lemma subgraph_component_loaded id context (node : Node) c : read_subgraph_component limits id context node = Loaded c →
  in_namespace id (comp_id c) ∧ Forall (in_namespace id) (depends_on c).
Proof.
  intros Hc. unfold read_subgraph_component in Hc. load_inv Hc. subst c. cbn. rewrite (component_loaded_id _ _ _ _ Ha1).
  split; [|by eapply refs_loaded]. eapply prefixed_loaded; [|exact Ha0]. by eapply id_loaded.
Qed.
Lemma subgraph_edge_loaded id context (node : Node) x : read_subgraph_edge limits id context node = Loaded x →
  in_namespace id (edge_id x) ∧ endpoint_in_namespace id (edge_from x) ∧ endpoint_in_namespace id (edge_to x).
Proof.
  intros Hx. unfold read_subgraph_edge in Hx. load_inv Hx. subst x. cbn. rewrite (edge_loaded_id _ _ _ _ Ha1).
  split_and!; [eapply prefixed_loaded; [|exact Ha0]; by eapply id_loaded|by eapply endpoint_loaded..].
Qed.
Lemma subgraph_loop_loaded id context (node : Node) l : read_subgraph_loop limits id context node = Loaded l →
  in_namespace id (loop_id l) ∧ Forall (in_namespace id) (loop_components l).
Proof.
  intros Hl. unfold read_subgraph_loop in Hl. load_inv Hl. subst l. cbn. split; [|by eapply refs_loaded].
  eapply prefixed_loaded; [|exact Ha0]. unfold read_composite_loop in Ha. load_inv Ha. subst a. cbn. by match goal with Hc : checked_identifier _ _ _ = Loaded _ |- _ => apply checked_loaded in Hc as [-> Hne] end.
Qed.
Lemma subgraph_loaded (node : Node) context e : read_subgraph limits node context = Loaded e → namespaced e.
Proof.
  intros He. unfold read_subgraph in He. load_inv He. subst e. split; cbn.
  - apply Forall_forall. intros c Hc. match goal with Hcol : collect _ _ = Loaded a4 |- _ => destruct (collect_elem _ _ _ _ Hcol Hc) as (i&x&Hx) end.
    by eapply subgraph_component_loaded.
  - apply Forall_forall. intros c Hc. match goal with Hcol : collect _ _ = Loaded a7 |- _ => destruct (collect_elem _ _ _ _ Hcol Hc) as (i&x&Hx) end.
    by eapply subgraph_edge_loaded.
  - apply Forall_forall. intros l Hl. match goal with Hopt : optional _ _ _ _ = Loaded a8 |- _ => apply optional_loaded in Hopt as [->|(child&Hread)] end;
      [by apply elem_of_nil in Hl|]. load_inv Hread. destruct (collect_elem _ _ _ _ Hread Hl) as (i&x&Hx). by eapply subgraph_loop_loaded.
  - done.
  - intros ->. match goal with Hcol : collect _ _ = Loaded [] |- _ => apply collect_length in Hcol; apply nil_length_inv in Hcol end.
    match goal with E : bool_decide _ = false |- _ => by apply bool_decide_eq_false in E end.
Qed.
(** ** What an expansion is made from *)
(** The text and the elements that a field of a node holds. *)
Definition text_field (node : Node) (key : string) : option string :=
  match node_at node key with
  | inr child => match as_string child with inr s => Some s | inl _ => None end
  | inl _ => None
  end.
Definition list_field (node : Node) (key : string) : list Node :=
  match node_at node key with inr child => if absent child then [] else node_elements child | inl _ => [] end.
(** A component, an edge and a loop of the name space [ns]: what the node says, with its names prefixed. *)
Definition component_of (ns : string) (node : Node) (c : ComponentNodeSpec) : Prop := ∃ local context c0,
  text_field node "id" = Some local ∧ read_component_node limits node (prefix_with ns local) context = Loaded c0 ∧
  c = mkComponentNode (prefix_with ns local) (comp_type c0) (event_sources c0) (trigger_policy c0) (execution c0)
    (prefix_with ns <$> depends_on c0) (boundary_role c0) (boundary_descriptor c0) (comp_config c0).
Definition edge_of (ns : string) (node : Node) (x : EdgeSpec) : Prop := ∃ local context x0,
  text_field node "id" = Some local ∧ read_edge_node limits node (prefix_with ns local) context = Loaded x0 ∧
  x = mkEdge (prefix_with ns local) (prefix_with ns (edge_from x0)) (prefix_with ns (edge_to x0)) (edge_kind x0) (edge_has_kind x0)
    (edge_invalid_kind x0) (edge_policy x0).
Definition loop_of (ns : string) (node : Node) (l : CompositeLoopSpec) : Prop := ∃ context l0,
  text_field node "id" = Some (loop_id l0) ∧ read_composite_loop limits node context = Loaded l0 ∧
  l = mkCompositeLoop (prefix_with ns (loop_id l0)) (prefix_with ns <$> loop_components l0) (loop_policy l0).
(** [e] has all components, edges and loops of the subgraph [node], in their order. *)
Record expansion_of (node : Node) (e : Expansion) : Prop := {
  eo_id : text_field node "id" = Some (hier_id (exp_hierarchy e));
  eo_components : Forall2 (component_of (hier_id (exp_hierarchy e))) (list_field node "components") (exp_components e);
  eo_edges : Forall2 (edge_of (hier_id (exp_hierarchy e))) (list_field node "edges") (exp_edges e);
  eo_loops : Forall2 (loop_of (hier_id (exp_hierarchy e))) (list_field node "composite_loops") (exp_loops e) }.
(** [e] is the expansion of the template that [node] names, with the parameters that [node] gives, under the id of [node]. *)
Definition instance_of (templates : list Node) (node : Node) (e : Expansion) : Prop := ∃ template definition values body c1 c2 c3,
  template ∈ templates ∧ read_graph_template limits template c1 = Loaded definition ∧ text_field node "template" = Some (tmpl_id definition) ∧
  text_field node "id" = Some (hier_id (exp_hierarchy e)) ∧
  read_template_instance_parameters limits node definition c2 = Loaded values ∧
  expand_template limits definition (hier_id (exp_hierarchy e)) values c3 = Loaded body ∧ expansion_of body e.
Lemma require_node_at (node : Node) key context child : require_node node key context = Loaded child → node_at node key = inr child ∧ absent child = false.
Proof.
  unfold require_node. intros (n&Hn&Hr)%bind_loaded. destruct (absent n) eqn:Ea; [done|]. injection Hr as <-.
  split; [|done]. destruct (node_at node key); [done|]. by injection Hn as ->.
Qed.
Lemma string_field (node : Node) key context s : require_string node key context = Loaded s → text_field node key = Some s.
Proof.
  unfold require_string. intros (n&[Hn _]%require_node_at&Hr)%bind_loaded. unfold text_field. rewrite Hn.
  destruct (as_string n); [done|]. by injection Hr as ->.
Qed.
Lemma id_field (node : Node) context s : read_id limits node context = Loaded s → text_field node "id" = Some s.
Proof. unfold read_id. intros (given&Hg%string_field&[-> _]%checked_loaded)%bind_loaded. done. Qed.
Lemma required_elements (node : Node) key context child : require_node node key context = Loaded child → list_field node key = node_elements child.
Proof. intros [Hc Ha]%require_node_at. unfold list_field. by rewrite Hc, Ha. Qed.
Lemma collect_forall2 {A B} (f : nat → A → Load B) (P : A → B → Prop) l k : (∀ i x y, f i x = Loaded y → P x y) → collect f l = Loaded k → Forall2 P l k.
Proof.
  intros Hf Hk. apply mapM_loaded in Hk. apply Forall2_same_length_lookup. pose proof (Forall2_length _ _ _ Hk) as Hl. rewrite length_imap in Hl.
  split; [done|]. intros i x y Hx Hy. apply (Hf i). rewrite Forall2_lookup in Hk. specialize (Hk i). rewrite list_lookup_imap, Hx, Hy in Hk. by inversion Hk.
Qed.
Lemma component_is_of id context (node : Node) c : read_subgraph_component limits id context node = Loaded c → component_of id node c.
Proof.
  intros Hc. unfold read_subgraph_component in Hc. load_inv Hc. subst c. pose proof (component_loaded_id _ _ _ _ Ha1) as Hid.
  apply prefixed_text in Ha0 as ->. apply refs_text in Ha2 as ->. exists a, context, a1. rewrite Hid. split; [by eapply id_field|done].
Qed.
Lemma edge_is_of id context (node : Node) x : read_subgraph_edge limits id context node = Loaded x → edge_of id node x.
Proof.
  intros Hx. unfold read_subgraph_edge in Hx. load_inv Hx. subst x. pose proof (edge_loaded_id _ _ _ _ Ha1) as Hid.
  apply prefixed_text in Ha0 as ->. apply endpoint_text in Ha2 as ->. apply endpoint_text in Ha3 as ->.
  exists a, context, a1. rewrite Hid. split; [by eapply id_field|done].
Qed.
Lemma loop_is_of id context (node : Node) l : read_subgraph_loop limits id context node = Loaded l → loop_of id node l.
Proof.
  intros Hl. unfold read_subgraph_loop in Hl. load_inv Hl. subst l. apply prefixed_text in Ha0 as ->. apply refs_text in Ha1 as ->.
  exists context, a. split; [|done]. unfold read_composite_loop in Ha. load_inv Ha. subst a. cbn.
  match goal with Hc : checked_identifier _ _ _ = Loaded _ |- _ => apply checked_loaded in Hc as [-> _] end. by eapply string_field.
Qed.
Lemma subgraph_is_of (node : Node) context e : read_subgraph limits node context = Loaded e → expansion_of node e.
Proof.
  intros He. unfold read_subgraph in He. load_inv He. subst e. split; cbn.
  - match goal with Hi : read_id _ _ _ = Loaded _ |- _ => by eapply id_field end.
  - match goal with Hr : require_node _ "components" _ = Loaded _ |- _ => rewrite (required_elements _ _ _ _ Hr) end.
    eapply collect_forall2; [|eassumption]. intros i x y. apply component_is_of.
  - match goal with Hr : require_node _ "edges" _ = Loaded _ |- _ => rewrite (required_elements _ _ _ _ Hr) end.
    eapply collect_forall2; [|eassumption]. intros i x y. apply edge_is_of.
  - match goal with Ho : optional _ "composite_loops" _ _ = Loaded _ |- _ => apply bind_loaded in Ho; destruct Ho as (child&Hc&Hread) end.
    unfold list_field. destruct (node_at node "composite_loops"); [done|]. injection Hc as ->. destruct (absent child); [injection Hread as <-; constructor|].
    load_inv Hread. eapply collect_forall2; [|eassumption]. intros i x y. apply loop_is_of.
Qed.
(** ** Expansions in the order of the document *)
(** What a graph becomes when expansions are appended. *)
Definition append_expansions (es : list Expansion) (g : GraphSpec) : GraphSpec := fold_left (λ g e, append_expansion e g) es g.
Lemma append_loaded (node : Node) g context g' : append_subgraph_expansion limits node g context = Loaded g' →
  ∃ e, read_subgraph limits node context = Loaded e ∧ g' = append_expansion e g.
Proof. intros Hg. unfold append_subgraph_expansion in Hg. load_inv Hg. by exists a. Qed.
Lemma subgraphs_loaded nodes index ids g g' : expand_subgraphs limits index ids nodes g = Loaded g' → ∃ es : list Expansion,
  Forall namespaced es ∧ NoDup (hier_id ∘ exp_hierarchy <$> es) ∧ Forall (λ e, hier_id (exp_hierarchy e) ∉ ids) es ∧ g' = append_expansions es g ∧
  Forall2 expansion_of nodes es.
Proof.
  revert index ids g. induction nodes as [|node nodes IH]; intros index ids g Hg; cbn [expand_subgraphs] in Hg.
  { injection Hg as <-. exists []. split_and!; constructor || done. }
  load_inv Hg. apply append_loaded in Ha0 as (e&He&->). apply IH in Hg as (es&H1&H2&H3&->&H5). pose proof (subgraph_is_of _ _ _ He) as Hof.
  assert (hier_id (exp_hierarchy e) = a) as Hid.
  { unfold read_subgraph in He. load_inv He. subst e. cbn. match goal with H4 : read_id _ _ _ = Loaded ?b |- ?b = _ => rewrite Ha in H4; by injection H4 end. }
  apply subgraph_loaded in He. apply bool_decide_eq_false in E. exists (e :: es). split_and!; [by constructor| | |done|by constructor].
  - cbn. constructor; [|done]. intros (e'&Heq&Hin)%list_elem_of_fmap. rewrite Forall_forall in H3. apply (H3 e' Hin). cbn in Heq. rewrite <- Heq. set_solver.
  - constructor; [by rewrite Hid|]. eapply Forall_impl; [exact H3|]. cbn. set_solver.
Qed.
(** The templates that were read are the nodes of the list. *)
Lemma templates_named nodes index templates templates' : read_templates limits index templates nodes = Loaded templates' →
  map_Forall (λ id definition, tmpl_id definition = id) templates → map_Forall (λ id definition, tmpl_id definition = id) templates'.
Proof.
  revert index templates. induction nodes as [|node nodes IH]; intros index templates Hr Ht; cbn [read_templates] in Hr; [by injection Hr as <-|].
  load_inv Hr. eapply IH; [exact Hr|]. by apply map_Forall_insert_2.
Qed.
Lemma templates_read nodes (all : list Node) index templates templates' : (∀ node, node ∈ nodes → node ∈ all) →
  let P := λ (_ : string) (definition : GraphTemplateDefinition Node), ∃ template context, template ∈ all ∧ read_graph_template limits template context = Loaded definition in
  read_templates limits index templates nodes = Loaded templates' → map_Forall P templates → map_Forall P templates'.
Proof.
  cbv zeta. revert index templates. induction nodes as [|node nodes IH]; intros index templates Hin Hr Ht; cbn [read_templates] in Hr; [by injection Hr as <-|].
  load_inv Hr. eapply IH; [|exact Hr|]; [intros; apply Hin; by right|]. apply map_Forall_insert_2; [|done].
  eexists node, _. split; [apply Hin; left|exact Ha].
Qed.
Lemma append_expansions_lists es g : let g' := append_expansions es g in
  graph_components g' = graph_components g ++ (es ≫= exp_components) ∧ graph_edges g' = graph_edges g ++ (es ≫= exp_edges) ∧
  graph_composite_loops g' = graph_composite_loops g ++ (es ≫= exp_loops) ∧ graph_hierarchy g' = graph_hierarchy g ++ (exp_hierarchy <$> es) ∧
  graph_lanes g' = graph_lanes g ∧ graph_schema_version g' = graph_schema_version g.
Proof.
  revert g. induction es as [|e es IH]; intros g; [cbn; by rewrite !app_nil_r|]. destruct (IH (append_expansion e g)) as (H1&H2&H3&H4&H5&H6).
  cbv zeta. unfold append_expansions in *. cbn [fold_left]. rewrite H1, H2, H3, H4, H5, H6. cbn. by rewrite <- !app_assoc.
Qed.
Lemma flat_loaded (root : Node) g : read_flat_graph limits root = Loaded g →
  graph_hierarchy g = [] ∧ graph_schema_version g = kTopoExecSchemaVersion ∧ length (graph_lanes g) ≤ max_lanes limits.
Proof.
  intros Hg. unfold read_flat_graph in Hg. load_inv Hg. subst g. cbn. split; [done|]. split.
  - match goal with E : negb _ = false |- _ => by apply negb_false_iff, Z.eqb_eq in E end.
  - match goal with Hm : mapM (read_lane _) _ = Loaded _ |- _ => apply mapM_length in Hm; rewrite <- Hm end.
    match goal with Hl : enforce_limit _ (max_lanes limits) _ = Loaded ?u |- _ => destruct u; by apply limit_loaded in Hl end.
Qed.
Context {laws : YamlLaws Node}.
Lemma expanded_id definition id values context body : expand_template limits definition id values context = Loaded body → text_field body "id" = Some id.
Proof.
  unfold expand_template. cbv zeta. intros Hb. load_inv Hb. subst body. unfold text_field.
  match goal with |- context [map_node ?l] => destruct (map_subscript l "id") as (n&->&Hn) end.
  - match goal with Hl : (if absent ?n then _ else _) = Loaded a2 |- _ => destruct (absent n) end; [injection Ha2 as <-|load_inv Ha2; subst a2];
      apply (bool_decide_unpack _); vm_compute; exact Logic.I.
  - match type of Hn with context [field ?l "id"] => assert (field l "id" = Some (scalar_node id)) as Hf by reflexivity end.
    rewrite Hf in Hn. subst n. by rewrite scalar_string.
Qed.
Lemma instances_loaded all nodes index templates g g' : map_Forall (λ id definition, tmpl_id definition = id) templates →
  map_Forall (λ _ definition, ∃ template context, template ∈ all ∧ read_graph_template limits template context = Loaded definition) templates →
  expand_instances limits index templates nodes g = Loaded g' →
  ∃ es, Forall namespaced es ∧ g' = append_expansions es g ∧ Forall2 (instance_of all) nodes es.
Proof.
  intros Hnamed Hread. revert index g. induction nodes as [|node nodes IH]; intros index g Hg; cbn [expand_instances] in Hg.
  { injection Hg as <-. exists []. split_and!; constructor || done. }
  load_inv Hg. apply IH in Hg as (es&H1&->&Hall). unfold append_template_instance_expansion in Ha. load_inv Ha.
  match goal with Hc : checked_identifier _ _ _ = Loaded ?t |- _ => apply checked_loaded in Hc as [-> _] end.
  destruct (templates !! _) as [definition|] eqn:Ed; [|done]. load_inv Ha. apply append_loaded in Ha as (e&He&->).
  pose proof (subgraph_is_of _ _ _ He) as Hof. pose proof (subgraph_loaded _ _ _ He) as Hns.
  match goal with Hx : expand_template _ _ _ _ _ = Loaded _ |- _ => pose proof (expanded_id _ _ _ _ _ Hx) as Hid end.
  rewrite (eo_id _ _ Hof) in Hid. injection Hid as Hid.
  exists (e :: es). split_and!; [by constructor|done|]. constructor; [|done].
  destruct (Hread _ _ Ed) as (template&c1&Hin&Ht). pose proof (Hnamed _ _ Ed) as Hname. cbn in Hname.
  do 4 eexists. eexists c1, _, _. split_and!; [exact Hin|exact Ht|rewrite Hname; by eapply string_field|rewrite Hid; by eapply id_field|eassumption|rewrite Hid; eassumption|exact Hof].
Qed.
Lemma root_list_field (root : Node) key limit nodes : root_list root key limit = Loaded nodes → nodes = list_field root key.
Proof. intros (child&Hc&[[Ha ->]|(Ha&_&->)])%root_list_elements; unfold list_field; by rewrite Hc, Ha. Qed.
Lemma load_shape (root : Node) g : load_graph_node limits root = Loaded g → ∃ flat subgraphs instances,
  read_flat_graph limits root = Loaded flat ∧ g = append_expansions (subgraphs ++ instances) flat ∧
  Forall2 expansion_of (list_field root "subgraphs") subgraphs ∧
  Forall2 (instance_of (list_field root "templates")) (list_field root "template_instances") instances ∧
  Forall namespaced (subgraphs ++ instances) ∧ NoDup (hier_id ∘ exp_hierarchy <$> subgraphs) ∧ counts_within limits g.
Proof.
  intros Hg. unfold load_graph_node in Hg. load_inv Hg. subst g.
  repeat match goal with Hl : enforce_limit _ _ _ = Loaded ?u |- _ => destruct u; apply limit_loaded in Hl end.
  repeat match goal with Hl : root_list _ _ _ = Loaded _ |- _ => apply root_list_field in Hl as -> end.
  match goal with Hs : expand_subgraphs _ _ _ _ _ = Loaded _ |- _ => apply subgraphs_loaded in Hs as (subs&H1&H2&_&->&Hsubs) end.
  match goal with Ht : read_templates _ _ _ _ = Loaded _ |- _ =>
    pose proof (templates_named _ _ _ _ Ht (map_Forall_empty _)) as Hnamed;
    pose proof (templates_read _ _ _ _ _ (λ node Hin, Hin) Ht (map_Forall_empty _)) as Hread end.
  match goal with Hi : expand_instances _ _ _ _ _ = Loaded _ |- _ => apply (instances_loaded _ _ _ _ _ _ Hnamed Hread) in Hi as (insts&H3&->&Hinsts) end.
  pose proof (flat_loaded _ _ Ha) as (_&_&Hlanes). exists a, subs, insts. unfold append_expansions in *. rewrite fold_left_app.
  split_and!; [done|done|done|done|by apply Forall_app|done|]. split; [|done..]. rewrite <- fold_left_app.
  destruct (append_expansions_lists (subs ++ insts) a) as (_&_&_&_&Hl&_). unfold append_expansions in Hl. by rewrite Hl.
Qed.
End shape.
