(* ===== verification/LoaderTemplates.v ===== *)
(** * LoaderTemplates: the substitution of template parameters

    [substitute_placeholders] against a reference: a text is cut at its placeholders, each placeholder is replaced by the
    value of its parameter, and what was put in is not looked at again. *)

From S2P Require Export LoaderShape.
From Stdlib Require Import Ascii.
Local Open Scope nat_scope.

(** ** Pairs of braces *)
Definition pair (c : ascii) : string := String c (String c "").
(** No two [c] in a row. *)
Fixpoint no_pair (c : ascii) (s : string) : Prop :=
  match s with
  | String x rest => (match rest with String y _ => ¬ (x = c ∧ y = c) | EmptyString => True end) ∧ no_pair c rest
  | EmptyString => True
  end.
Lemma prefix_pair c s : String.prefix (pair c) s = true ↔ ∃ rest, s = pair c +:+ rest.
Proof.
  unfold pair. destruct s as [|x [|y s]]; cbn [String.prefix].
  - split; [done|]. by intros [? ?].
  - split; [by destruct (ascii_dec c x)|]. by intros [? ?].
  - change (∃ rest, String x (String y s) = String c (String c "") +:+ rest) with (∃ rest, String x (String y s) = String c (String c rest)).
    destruct (ascii_dec c x) as [<-|Hx]; [destruct (ascii_dec c y) as [<-|Hy]|].
    + split; [intros _; by exists s|]. by destruct s.
    + split; [done|]. by intros [r [= ? ?]].
    + split; [done|]. by intros [r [= ? ? ?]].
Qed.
Abbreviation find needle value := (find_from needle value 0).
Lemma find_cons needle x s : find needle (String x s) = if String.prefix needle (String x s) then Some 0 else S <$> find needle s.
Proof. done. Qed.
Lemma find_skip needle skipped s : find_from needle (skipped +:+ s) (String.length skipped) = (λ k, String.length skipped + k) <$> find needle s.
Proof.
  induction skipped as [|x skipped IH]; [change (find needle s = (λ k, 0 + k) <$> find needle s); by destruct (find needle s)|]. rewrite str_app_cons. cbn [String.length find_from].
  rewrite IH. by destruct (find needle s).
Qed.
Lemma find_some c s k : find (pair c) s = Some k → ∃ before rest, s = before +:+ pair c +:+ rest ∧ String.length before = k ∧ no_pair c (before +:+ String c "").
Proof.
  revert k. induction s as [|x s IH]; intros k; [done|]. rewrite find_cons. destruct (String.prefix (pair c) (String x s)) eqn:Ep.
  - apply prefix_pair in Ep as [rest ->]. intros [= <-]. by exists "", rest.
  - destruct (find (pair c) s) as [n|] eqn:E; [|done]. intros [= <-]. destruct (IH _ eq_refl) as (before&rest&->&<-&Hn).
    exists (String x before), rest. split; [by rewrite str_app_cons|]. split; [done|]. rewrite str_app_cons. split; [|done].
    destruct before as [|y before]; cbn.
    + intros [-> _]. assert (String.prefix (pair c) (String c ("" +:+ pair c +:+ rest)) = true) as Hp; [|congruence].
      apply prefix_pair. exists (String c rest). done.
    + intros [-> ->]. assert (String.prefix (pair c) (String c (String c before +:+ pair c +:+ rest)) = true) as Hp; [|congruence].
      apply prefix_pair. by eexists.
Qed.
Lemma find_at c before rest : no_pair c (before +:+ String c "") → find (pair c) (before +:+ pair c +:+ rest) = Some (String.length before).
Proof.
  induction before as [|x before IH]; intros Hn.
  - rewrite str_app_nil. change (pair c +:+ rest) with (String c (String c rest)). rewrite find_cons.
    by rewrite (proj2 (prefix_pair _ _)) by (by exists rest).
  - rewrite str_app_cons in Hn |- *. destruct Hn as [Hx Hn]. rewrite find_cons, IH by done.
    destruct (String.prefix _ _) eqn:Ep; [|done]. exfalso. apply prefix_pair in Ep as [r [= -> E]].
    destruct before as [|y before]; cbn in Hx; [by apply Hx|]. injection E as -> _. by apply Hx.
Qed.
Lemma find_none c s : find (pair c) s = None ↔ no_pair c s.
Proof.
  induction s as [|x s IH]; [done|]. rewrite find_cons. cbn [no_pair]. rewrite <- IH.
  destruct (String.prefix (pair c) (String x s)) eqn:Ep.
  - apply prefix_pair in Ep as [r [= -> ->]]. split; [done|]. intros [H _]. exfalso. by apply H.
  - rewrite fmap_None. split; [|tauto]. intros ->. split; [|done]. destruct s as [|y s]; [done|]. intros [-> ->].
    assert (String.prefix (pair c) (String c (String c s)) = true) by (apply prefix_pair; by exists s). congruence.
Qed.

(** ** The reference *)
Definition open_brace : ascii := "{"%char.
Definition close_brace : ascii := "}"%char.
Inductive Substituted (limits : GraphInputLimits) (parameters : gmap string string) : string → string → Prop :=
| substituted_text text : no_pair open_brace text → Substituted limits parameters text text
| substituted_parameter before name value rest out :
    no_pair open_brace (before +:+ "{") → no_pair close_brace (name +:+ "}") → fits_identifier limits name →
    parameters !! name = Some value → Substituted limits parameters rest out →
    Substituted limits parameters (before +:+ "{{" +:+ name +:+ "}}" +:+ rest) (before +:+ value +:+ out).
Section substitute.
Context (limits : GraphInputLimits) (parameters : gmap string string).
Lemma substr_at a b c : substr (a +:+ b +:+ c) (String.length a) (String.length b) = b.
Proof.
  unfold substr. induction a as [|x a IH]; [rewrite str_app_nil; apply substring_prefix|]. rewrite str_app_cons. exact IH.
Qed.
Lemma substr_end a b : substr (a +:+ b) (String.length a) (String.length (a +:+ b) - String.length a) = b.
Proof. rewrite str_app_length. replace (_ + _ - _) with (String.length b) by lia. rewrite <- (str_app_nil_r b) at 1. apply substr_at. Qed.
Lemma loop_done fuel skipped context output : substitute_loop limits (S fuel) skipped parameters context (String.length skipped) output = Loaded output.
Proof. cbn [substitute_loop]. by rewrite Nat.ltb_irrefl. Qed.
(** One round of the loop, in terms of the text that is left. *)
Lemma loop_text fuel skipped text context output : no_pair open_brace text →
  substitute_loop limits (S fuel) (skipped +:+ text) parameters context (String.length skipped) output = Loaded (output +:+ text).
Proof.
  intros Hn. cbn [substitute_loop]. destruct (Nat.ltb_spec (String.length skipped) (String.length (skipped +:+ text))); cbn [negb].
  - rewrite (find_skip "{{"). change "{{" with (pair open_brace). rewrite (proj2 (find_none _ _) Hn). cbn [fmap option_fmap option_map].
    by rewrite substr_end.
  - rewrite str_app_length in H. destruct text; [|simpl in *; lia]. by rewrite str_app_nil_r.
Qed.
Lemma loop_placeholder fuel skipped before tail context output : no_pair open_brace (before +:+ "{") →
  substitute_loop limits (S fuel) (skipped +:+ before +:+ "{{" +:+ tail) parameters context (String.length skipped) output =
  match find (pair close_brace) tail with
  | None => invalid (context +:+ " has an unterminated template parameter")
  | Some n =>
      let name := substr tail 0 n in
      _ ← checked_identifier limits name (context +:+ " parameter");
      match parameters !! name with
      | None => invalid (context +:+ " references missing template parameter " +:+ name)
      | Some value => substitute_loop limits fuel (skipped +:+ before +:+ "{{" +:+ tail) parameters context
          (String.length (skipped +:+ before +:+ "{{") + n + 2) ((output +:+ before) +:+ value)
      end
  end.
Proof.
  intros Hn. cbn [substitute_loop]. destruct (Nat.ltb_spec (String.length skipped) (String.length (skipped +:+ before +:+ "{{" +:+ tail)));
    [|exfalso; rewrite !str_app_length in *; simpl in *; lia]. cbn [negb].
  rewrite (find_skip "{{"). change "{{" with (pair open_brace) at 1. change "{{" with (pair open_brace) at 1.
  rewrite (find_at _ _ _ Hn). cbn [fmap option_fmap option_map].
  replace (String.length skipped + String.length before - String.length skipped) with (String.length before) by lia. rewrite substr_at.
  assert (skipped +:+ before +:+ "{{" +:+ tail = (skipped +:+ before +:+ "{{") +:+ tail) as Ha by (by rewrite !str_app_assoc).
  assert (String.length skipped + String.length before + 2 = String.length (skipped +:+ before +:+ "{{")) as Hl by (rewrite !str_app_length; simpl; lia).
  rewrite Hl, Ha. rewrite (find_skip "}}"). change "}}" with (pair close_brace).
  destruct (find (pair close_brace) tail) as [n|] eqn:En; cbn [fmap option_fmap option_map]; [|done]. cbv zeta.
  replace (String.length (skipped +:+ before +:+ "{{") + n - (String.length skipped + String.length before) - 2) with n by lia.
  assert (substr ((skipped +:+ before +:+ "{{") +:+ tail) (String.length (skipped +:+ before +:+ "{{")) n = substr tail 0 n) as ->; [|done].
  unfold substr. rewrite <- (Nat.add_0_r (String.length _)). apply substring_skip.
Qed.
Lemma identifier_checked s context : checked_identifier limits s context = Loaded s ↔ fits_identifier limits s.
Proof.
  rewrite <- (identifier_loaded limits s context). unfold checked_identifier. rewrite bind_loaded.
  split; [by intros ([]&H&_)|]. intros H. by exists ().
Qed.
(** Where the loop stands after a placeholder. *)
Lemma after_placeholder (skipped before name rest : string) :
  skipped +:+ before +:+ "{{" +:+ name +:+ "}}" +:+ rest = (skipped +:+ before +:+ "{{" +:+ name +:+ "}}") +:+ rest ∧
  String.length (skipped +:+ before +:+ "{{") + String.length name + 2 = String.length (skipped +:+ before +:+ "{{" +:+ name +:+ "}}").
Proof. rewrite !str_app_assoc, !str_app_length. split; [done|simpl; lia]. Qed.
Lemma substr_front a b : substr (a +:+ b) 0 (String.length a) = a.
Proof. apply substring_prefix. Qed.
Lemma loop_sound fuel skipped text context output o :
  substitute_loop limits fuel (skipped +:+ text) parameters context (String.length skipped) output = Loaded o →
  ∃ out, Substituted limits parameters text out ∧ o = output +:+ out.
Proof.
  revert skipped text output. induction fuel as [|fuel IH]; intros skipped text output H; [done|].
  destruct (find (pair open_brace) text) as [k|] eqn:Ek.
  - apply find_some in Ek as (before&tail&->&_&Hn). change (pair open_brace) with "{{" in H. rewrite loop_placeholder in H by done.
    destruct (find (pair close_brace) tail) as [n|] eqn:En; [|done]. apply find_some in En as (name&rest&->&<-&Hc). cbv zeta in H.
    rewrite substr_front in H. apply bind_loaded in H as (a&Hid&H). pose proof (checked_loaded _ _ _ _ Hid) as [-> _].
    apply identifier_checked in Hid. destruct (parameters !! name) as [value|] eqn:Ev; [|done].
    change (pair close_brace) with "}}" in H. destruct (after_placeholder skipped before name rest) as [Ha Hl]. rewrite Ha, Hl in H.
    apply IH in H as (out&Hout&->). exists (before +:+ value +:+ out). split; [by constructor|]. by rewrite !str_app_assoc.
  - apply find_none in Ek. rewrite loop_text in H by done. injection H as <-. exists text. split; [by constructor|done].
Qed.
Lemma loop_complete text out : Substituted limits parameters text out → ∀ fuel skipped context output, String.length text < fuel →
  substitute_loop limits fuel (skipped +:+ text) parameters context (String.length skipped) output = Loaded (output +:+ out).
Proof.
  induction 1 as [text Hn|before name value rest out Ho Hc Hid Hv _ IH]; intros [|fuel] skipped context output Hf; [lia|by apply loop_text|lia|].
  rewrite loop_placeholder by done. change ("}}" +:+ rest) with (pair close_brace +:+ rest). rewrite (find_at _ _ _ Hc). cbv zeta.
  rewrite substr_front. rewrite (proj2 (identifier_checked name _) Hid). change (mret name ≫= ?f) with (f name).
  change (Loaded name ≫= ?f) with (f name). cbv beta. rewrite Hv. change (pair close_brace) with "}}".
  destruct (after_placeholder skipped before name rest) as [-> ->]. rewrite IH; [by rewrite !str_app_assoc|].
  rewrite !str_app_length in Hf. change (String.length "{{") with 2 in Hf. change (String.length "}}") with 2 in Hf. lia.
Qed.
Lemma substitute_loaded text context out :
  substitute_placeholders limits text parameters context = Loaded out ↔ Substituted limits parameters text out ∧ fits_text limits out.
Proof.
  unfold substitute_placeholders. rewrite bind_loaded. split.
  - intros (o&Ho&H). apply bind_loaded in H as ([]&Hl&[= <-]). change text with ("" +:+ text) in Ho. apply (loop_sound _ "") in Ho as (out&Hout&->).
    rewrite str_app_nil in *. split; [done|by eapply text_loaded].
  - intros [Hs Hl]. exists out. pose proof (loop_complete text out Hs (S (String.length text)) "" context "" ltac:(lia)) as Hc.
    rewrite !str_app_nil in Hc. split; [exact Hc|]. apply bind_loaded. exists (). split; [by apply text_loaded|done].
Qed.
End substitute.
