(* ===== verification/LoaderRoundtrip.v ===== *)
(** * LoaderRoundtrip: a graph written as a document is loaded back

    [write_graph] is the specification's own writer, the repository has none: it writes every field of a graph under its
    name.  Loading the document gives the same graph: every field is read from its own name, none is lost, and none is
    refused.  The numbers of the graph are those that the program can hold, an [int] or a [double]; the library reads no
    others. *)

From S2P Require Export LoaderShape.
Local Open Scope nat_scope.

(** ** Fields of a written map *)
Section fields.
Context {Node : Type}.
Lemma field_here key (v : Node) l : field ((key, v) :: l) key = Some v.
Proof. unfold field. simpl. by rewrite str_eqb_refl. Qed.
Lemma field_next key key' (v : Node) l o : key ≠ key' → field l key' = o → field ((key, v) :: l) key' = o.
Proof. intros Hne <-. unfold field. simpl. unfold str_eqb at 1. by rewrite (bool_decide_eq_false_2 (key = key')). Qed.
End fields.
Ltac find_field := repeat first [apply field_here|apply field_next; [discriminate|]|reflexivity].
Ltac literal_keys := apply (bool_decide_unpack _); vm_compute; exact Logic.I.

(** ** Numbers *)
(** What an [int] of the program holds. *)
Definition is_int (z : Z) : Prop := (- 2 ^ 31 ≤ z < 2 ^ 31)%Z.
#[export] Instance is_int_decision z : Decision (is_int z).
Proof. unfold is_int. apply _. Defined.
(** What a finite [double] holds: a fraction [m * 2 ^ e] of 53 bits, in lowest terms. *)
Definition is_double (q : QArith_base.Q) : Prop := Qreduction.Qred q = q ∧ ∃ m e : Z, (Z.abs m < 2 ^ 53)%Z ∧ (-1074 ≤ e ≤ 971)%Z ∧
  QArith_base.Qeq q (QArith_base.Qmult (QArith_base.inject_Z m) (QArith_base.Qpower (QArith_base.inject_Z 2) e)).
Definition source_numbers (s : EventSourceSpec) : Prop := is_int (source_period_ms s).
Definition trigger_numbers (t : TriggerPolicySpec) : Prop :=
  is_int (batch_size t) ∧ is_int (batch_window_ms t) ∧ is_int (sync_slop_ms t) ∧ is_int (min_interval_ms t) ∧ is_int (max_latency_ms t) ∧
  is_int (watermark_lateness_ms t) ∧ is_int (debounce_window_ms t).
Definition execution_numbers (e : ExecutionSpec) : Prop := is_int (exec_budget_ms e).
Definition edge_numbers (e : EdgeSpec) : Prop := let p := edge_policy e in
  is_int (policy_capacity p) ∧ is_int (policy_lifespan_ms p) ∧ is_int (policy_deadline_ms p) ∧ is_int (policy_max_inflight p).
Definition loop_numbers (x : CompositeLoopSpec) : Prop := let p := loop_policy x in
  is_int (loop_budget_ms p) ∧ is_int (loop_max_iterations p) ∧ is_int (loop_max_inflight p) ∧ is_int (loop_min_interval_ms p) ∧
  match loop_residual_threshold p with Some q => is_double q | None => True end.
Definition lane_numbers (x : LaneSpec) : Prop :=
  is_double (lane_hz x) ∧ is_int (lane_max_callback_ms x) ∧ is_int (lane_max_threads x) ∧ is_int (lane_queue_capacity x) ∧
  is_int (lane_period_ms x) ∧ is_int (lane_tick_budget_ms x) ∧ Forall is_int (lane_cpu_affinity x) ∧ is_int (lane_nice_priority x) ∧
  is_int (lane_rt_priority x).
(** A number of a part whose numbers are in range. *)
Ltac in_range := cbv zeta in *; repeat match goal with Hr : _ ∧ _ |- _ => destruct Hr end; assumption.

Section written.
Context {Node : Type} `{YamlLaws Node}.
Context (int_node : Z → Node) (real_node : QArith_base.Q → Node) (bool_node : bool → Node).
Context (int_kind : ∀ z, node_kind (int_node z) = KScalar) (int_read : ∀ z, is_int z → as_int (int_node z) = inr z).
Context (real_kind : ∀ q, node_kind (real_node q) = KScalar) (real_read : ∀ q, is_double q → as_double (real_node q) = inr q).
Context (bool_kind : ∀ b, node_kind (bool_node b) = KScalar) (bool_read : ∀ b, as_bool (bool_node b) = inr b).
Implicit Types (l : list (string * Node)).
Definition present (n : Node) : Prop := absent n = false.
Lemma kind_present n kind : node_kind n = kind → kind ≠ KUndefined → kind ≠ KNull → present n.
Proof. intros Hk H1 H2. unfold present, absent. rewrite Hk. by rewrite !bool_decide_eq_false_2. Qed.
Lemma at_field l key m : NoDup l.*1 → field l key = Some m → node_at (map_node l) key = inr m.
Proof. intros Hn Hf. destruct (map_subscript l key Hn) as (n&Hat&Hm). rewrite Hf in Hm. by rewrite Hat, Hm. Qed.
Lemma optional_hit {A} l key m (fallback : A) read : NoDup l.*1 → field l key = Some m → present m → optional (map_node l) key fallback read = read m.
Proof. intros Hn Hf Hp. unfold optional. rewrite (at_field l key m) by done. simpl. by rewrite Hp. Qed.
Lemma optional_miss {A} l key (fallback : A) read : NoDup l.*1 → field l key = None → optional (map_node l) key fallback read = Loaded fallback.
Proof.
  intros Hn Hf. unfold optional. destruct (map_subscript l key Hn) as (n&Hat&Hm). rewrite Hf in Hm. rewrite Hat. simpl. unfold absent.
  by rewrite Hm.
Qed.
Lemma require_hit l key m context : NoDup l.*1 → field l key = Some m → present m → require_node (map_node l) key context = Loaded m.
Proof. intros Hn Hf Hp. unfold require_node. rewrite (at_field l key m) by done. simpl. by rewrite Hp. Qed.
Lemma scalar_present s : present (scalar_node s).
Proof. eapply kind_present; [apply scalar_kind|done..]. Qed.
Lemma sequence_present ns : present (sequence_node ns).
Proof. eapply kind_present; [apply sequence_kind|done..]. Qed.
Lemma map_present l : present (map_node l).
Proof. eapply kind_present; [apply map_kind|done..]. Qed.
Lemma int_present z : present (int_node z).
Proof. eapply kind_present; [apply int_kind|done..]. Qed.
Lemma real_present q : present (real_node q).
Proof. eapply kind_present; [apply real_kind|done..]. Qed.
Lemma bool_present b : present (bool_node b).
Proof. eapply kind_present; [apply bool_kind|done..]. Qed.
Definition text_list (ss : list string) : Node := sequence_node (scalar_node <$> ss).
Definition int_list (zs : list Z) : Node := sequence_node (int_node <$> zs).
(** A key of a written map holds the value that was written. *)
Lemma read_text l key s fallback : NoDup l.*1 → field l key = Some (scalar_node s) → optional_string (map_node l) key fallback = Loaded s.
Proof. intros Hn Hf. unfold optional_string. rewrite (optional_hit l key _ _ _ Hn Hf (scalar_present s)). by rewrite scalar_string. Qed.
Lemma read_required_text l key s context : NoDup l.*1 → field l key = Some (scalar_node s) → require_string (map_node l) key context = Loaded s.
Proof. intros Hn Hf. unfold require_string. rewrite (require_hit l key _ _ Hn Hf (scalar_present s)). simpl. by rewrite scalar_string. Qed.
Lemma read_int l key z fallback : NoDup l.*1 → field l key = Some (int_node z) → is_int z → optional_int (map_node l) key fallback = Loaded z.
Proof. intros Hn Hf Hz. unfold optional_int. rewrite (optional_hit l key _ _ _ Hn Hf (int_present z)). by rewrite int_read by done. Qed.
Lemma read_real l key q fallback : NoDup l.*1 → field l key = Some (real_node q) → is_double q → optional_double (map_node l) key fallback = Loaded q.
Proof. intros Hn Hf Hq. unfold optional_double. rewrite (optional_hit l key _ _ _ Hn Hf (real_present q)). by rewrite real_read by done. Qed.
Lemma read_bool l key b fallback : NoDup l.*1 → field l key = Some (bool_node b) → optional_bool (map_node l) key fallback = Loaded b.
Proof. intros Hn Hf. unfold optional_bool. rewrite (optional_hit l key _ _ _ Hn Hf (bool_present b)). by rewrite bool_read. Qed.
Lemma sequence_required ns context : require_sequence (sequence_node ns) context = Loaded ().
Proof. unfold require_sequence, is_sequence. rewrite (sequence_present ns). by rewrite bool_decide_eq_true_2 by apply sequence_kind. Qed.
Lemma map_required l context : require_map (map_node l) context = Loaded ().
Proof. unfold require_map, is_map. rewrite (map_present l). by rewrite bool_decide_eq_true_2 by apply map_kind. Qed.
Lemma mapM_fmap {A B C} (f : B → Load C) (g : A → B) (h : A → C) xs : (∀ x, x ∈ xs → f (g x) = Loaded (h x)) → mapM f (g <$> xs) = Loaded (h <$> xs).
Proof.
  intros Hf. apply mapM_loaded, Forall2_fmap, Forall_Forall2_diag. apply Forall_forall. exact Hf.
Qed.
Lemma read_texts l key ss context : NoDup l.*1 → field l key = Some (text_list ss) → optional_string_vector (map_node l) key context = Loaded ss.
Proof.
  intros Hn Hf. unfold optional_string_vector. rewrite (optional_hit l key _ _ _ Hn Hf (sequence_present _)). unfold text_list.
  rewrite sequence_required. simpl. rewrite sequence_elements. rewrite (mapM_fmap _ _ (λ s, s)); [by rewrite list_fmap_id|].
  intros s _. by rewrite scalar_string.
Qed.
Lemma read_ints l key zs context : NoDup l.*1 → field l key = Some (int_list zs) → Forall is_int zs → optional_int_vector (map_node l) key context = Loaded zs.
Proof.
  intros Hn Hf Hz. unfold optional_int_vector. rewrite (optional_hit l key _ _ _ Hn Hf (sequence_present _)). unfold int_list.
  rewrite sequence_required. simpl. rewrite sequence_elements. rewrite (mapM_fmap _ _ (λ s, s)); [by rewrite list_fmap_id|].
  intros z Hin. rewrite Forall_forall in Hz. by rewrite int_read by (by apply Hz).
Qed.
Lemma known_fields l context allowed : NoDup l.*1 → Forall (λ key, key ∈ allowed) l.*1 → reject_unknown_fields (map_node l) context allowed = Loaded ().
Proof.
  intros Hn Hk. unfold reject_unknown_fields. rewrite (map_present l). rewrite map_required. simpl. rewrite map_items_of by done.
  apply each_loaded. intros x ([key v]&->&Hin)%list_elem_of_fmap. cbn [fst snd]. rewrite scalar_string. simpl.
  rewrite bool_decide_eq_true_2; [done|]. rewrite Forall_forall in Hk. apply Hk. apply list_elem_of_fmap. by exists (key, v).
Qed.
Lemma collect_fmap {A B} (f : nat → B → Load A) (g : A → B) xs : (∀ i x, x ∈ xs → f i (g x) = Loaded x) → collect f (g <$> xs) = Loaded xs.
Proof.
  intros Hf. unfold collect. rewrite <- (list_fmap_id xs) at 2. apply mapM_loaded. apply Forall2_lookup. intros i.
  rewrite list_lookup_imap, !list_lookup_fmap. destruct (xs !! i) as [x|] eqn:Ex; simpl; constructor. apply Hf. by eapply list_elem_of_lookup_2.
Qed.

(** ** The parts of a graph as nodes *)
Definition write_config (c : ConfigView) : Node := map_node ((λ kv, (kv.1, scalar_node kv.2)) <$> map_items (config_values c)).
Definition write_event_source (s : EventSourceSpec) : Node :=
  map_node [("id", scalar_node (source_id s)); ("type", scalar_node (source_type s)); ("inputs", text_list (source_inputs s));
    ("input", scalar_node (source_input s)); ("period_ms", int_node (source_period_ms s))].
Definition write_trigger_policy (t : TriggerPolicySpec) : Node :=
  map_node [("type", scalar_node (trigger_type t)); ("inputs", text_list (trigger_inputs t)); ("input", scalar_node (trigger_input t));
    ("batch_size", int_node (batch_size t)); ("batch_window_ms", int_node (batch_window_ms t)); ("sync_slop_ms", int_node (sync_slop_ms t));
    ("min_interval_ms", int_node (min_interval_ms t)); ("max_latency_ms", int_node (max_latency_ms t));
    ("watermark_lateness_ms", int_node (watermark_lateness_ms t)); ("debounce_window_ms", int_node (debounce_window_ms t));
    ("condition", scalar_node (trigger_condition t)); ("coalesce", bool_node (coalesce t))].
Definition write_execution (e : ExecutionSpec) : Node :=
  map_node [("lane", scalar_node (exec_lane e)); ("reentrant", bool_node (exec_reentrant e)); ("priority", scalar_node (exec_priority e));
    ("budget_ms", int_node (exec_budget_ms e)); ("on_error", scalar_node (exec_on_error e))].
Definition write_boundary (c : ComponentNodeSpec) : Node :=
  map_node [("role", scalar_node (component_role_name (boundary_role c))); ("descriptor", scalar_node (boundary_descriptor c))].
Definition write_component (c : ComponentNodeSpec) : Node :=
  map_node [("id", scalar_node (comp_id c)); ("type", scalar_node (comp_type c));
    ("event_sources", sequence_node (write_event_source <$> event_sources c)); ("trigger_policy", write_trigger_policy (trigger_policy c));
    ("execution", write_execution (execution c)); ("depends_on", text_list (depends_on c)); ("boundary", write_boundary c);
    ("config", write_config (comp_config c))].
Definition write_edge_policy (p : EdgePolicySpec) : Node :=
  map_node [("mode", scalar_node (policy_mode p)); ("capacity", int_node (policy_capacity p)); ("overflow", scalar_node (policy_overflow p));
    ("lifespan_ms", int_node (policy_lifespan_ms p)); ("deadline_ms", int_node (policy_deadline_ms p));
    ("max_inflight", int_node (policy_max_inflight p)); ("preserve_order", bool_node (policy_preserve_order p));
    ("allow_drop", bool_node (policy_allow_drop p)); ("emit_health_events", bool_node (policy_emit_health_events p));
    ("timestamp_domain", scalar_node (policy_timestamp_domain p)); ("copy_policy", scalar_node (policy_copy_policy p));
    ("owner", scalar_node (policy_owner p)); ("readers", scalar_node (policy_readers p))].
(** The text of a kind that is not known is written as it is. *)
Definition written_kind (e : EdgeSpec) : string := if str_empty (edge_invalid_kind e) then edge_kind_name (edge_kind e) else edge_invalid_kind e.
Definition write_edge (e : EdgeSpec) : Node :=
  map_node ([("id", scalar_node (edge_id e)); ("from", scalar_node (edge_from e)); ("to", scalar_node (edge_to e));
    ("policy", write_edge_policy (edge_policy e))] ++ (if edge_has_kind e then [("kind", scalar_node (written_kind e))] else [])).
Definition write_loop_policy (p : LoopPolicySpec) : Node :=
  map_node ([("type", scalar_node (loop_type p)); ("budget_ms", int_node (loop_budget_ms p)); ("max_iterations", int_node (loop_max_iterations p));
    ("max_inflight", int_node (loop_max_inflight p)); ("drop_policy", scalar_node (loop_drop_policy p));
    ("min_interval_ms", int_node (loop_min_interval_ms p)); ("convergence", scalar_node (loop_convergence p));
    ("partial_success", scalar_node (loop_partial_success p))] ++
    (match loop_residual_threshold p with Some q => [("residual_threshold", real_node q)] | None => [] end)).
Definition write_loop (x : CompositeLoopSpec) : Node :=
  map_node [("id", scalar_node (loop_id x)); ("components", text_list (loop_components x)); ("loop_policy", write_loop_policy (loop_policy x))].
Definition write_lane (x : LaneSpec) : Node :=
  map_node [("type", scalar_node (lane_type x)); ("hz", real_node (lane_hz x)); ("priority", scalar_node (lane_priority x));
    ("max_callback_ms", int_node (lane_max_callback_ms x)); ("max_threads", int_node (lane_max_threads x));
    ("queue_capacity", int_node (lane_queue_capacity x)); ("overflow", scalar_node (lane_overflow x));
    ("wall_clock_enabled", bool_node (lane_wall_clock_enabled x)); ("period_ms", int_node (lane_period_ms x));
    ("tick_budget_ms", int_node (lane_tick_budget_ms x)); ("overrun_policy", scalar_node (lane_overrun_policy x));
    ("thread_name", scalar_node (lane_thread_name x)); ("cpu_affinity", int_list (lane_cpu_affinity x));
    ("nice_priority", int_node (lane_nice_priority x)); ("rt_policy", scalar_node (lane_rt_policy x));
    ("rt_priority", int_node (lane_rt_priority x)); ("isolation_intent", scalar_node (lane_isolation_intent x))].
Definition write_clock (c : ClockPolicySpec) : Node :=
  map_node [("runtime_domain", scalar_node (clock_runtime_domain c)); ("event_domain", scalar_node (clock_event_domain c))].
Definition write_graph (g : GraphSpec) : Node :=
  map_node [("schema_version", int_node (graph_schema_version g));
    ("graph", map_node [("name", scalar_node (graph_name g)); ("kind", scalar_node (graph_kind g)); ("clock", write_clock (graph_clock g));
      ("config", write_config (graph_config g))]);
    ("lanes", map_node ((λ x, (lane_id x, write_lane x)) <$> graph_lanes g));
    ("components", sequence_node (write_component <$> graph_components g)); ("edges", sequence_node (write_edge <$> graph_edges g));
    ("composite_loops", sequence_node (write_loop <$> graph_composite_loops g))].

(** ** Reading them back *)
Ltac read_step :=
  match goal with
  | |- context [require_map (map_node ?l) ?c] => rewrite (map_required l c)
  | |- context [require_sequence (sequence_node ?l) ?c] => rewrite (sequence_required l c)
  | |- context [reject_unknown_fields (map_node ?l) ?c ?a] => rewrite (known_fields l c a) by literal_keys
  | |- context [optional_string (map_node ?l) ?k ?d] => erewrite (read_text l k _ d); [|literal_keys|find_field]
  | |- context [require_string (map_node ?l) ?k ?d] => erewrite (read_required_text l k _ d); [|literal_keys|find_field]
  | |- context [optional_int (map_node ?l) ?k ?d] => erewrite (read_int l k _ d); [|literal_keys|find_field|in_range]
  | |- context [optional_double (map_node ?l) ?k ?d] => erewrite (read_real l k _ d); [|literal_keys|find_field|in_range]
  | |- context [optional_bool (map_node ?l) ?k ?d] => erewrite (read_bool l k _ d); [|literal_keys|find_field]
  | |- context [optional_string_vector (map_node ?l) ?k ?d] => erewrite (read_texts l k _ d); [|literal_keys|find_field]
  | |- context [optional_int_vector (map_node ?l) ?k ?d] => erewrite (read_ints l k _ d); [|literal_keys|find_field|in_range]
  end; step_loaded.
Ltac read_back := cbv zeta; repeat read_step.
(** A single input is only written when it stands in the list. *)
Definition input_listed (inputs : list string) (input : string) : Prop := input ≠ "" → inputs ≠ [].
Lemma inputs_kept inputs input : input_listed inputs input → inputs_or_input inputs input = inputs.
Proof.
  unfold input_listed, inputs_or_input. intros Hi. destruct input as [|c input]; [done|]. cbn [str_empty negb andb].
  rewrite bool_decide_eq_false_2; [done|]. by apply Hi.
Qed.
Lemma event_source_back s context : input_listed (source_inputs s) (source_input s) → source_numbers s → read_event_source (write_event_source s) context = Loaded s.
Proof. intros Hi Hr. unfold source_numbers in Hr. unfold read_event_source, write_event_source. read_back. rewrite inputs_kept by done. by destruct s. Qed.
Lemma boundary_back l id c : NoDup l.*1 → field l "boundary" = Some (write_boundary c) →
  read_boundary_descriptor (map_node l) id = Loaded (boundary_role c, boundary_descriptor c).
Proof.
  intros Hn Hf. unfold read_boundary_descriptor. cbv zeta. rewrite (optional_hit l _ _ _ _ Hn Hf (map_present _)). unfold write_boundary. read_back.
  rewrite parse_component_role_name. by read_back.
Qed.
Lemma trigger_back l id t : NoDup l.*1 → field l "trigger_policy" = Some (write_trigger_policy t) → input_listed (trigger_inputs t) (trigger_input t) →
  trigger_numbers t → read_trigger_policy (map_node l) id = Loaded t.
Proof.
  intros Hn Hf Hi Hr. unfold trigger_numbers in Hr. unfold read_trigger_policy. cbv zeta. rewrite (optional_hit l _ _ _ _ Hn Hf (map_present _)). unfold write_trigger_policy. read_back.
  rewrite inputs_kept by done. by destruct t.
Qed.
Lemma execution_back l id e : NoDup l.*1 → field l "execution" = Some (write_execution e) → execution_numbers e → read_execution_spec (map_node l) id = Loaded e.
Proof.
  intros Hn Hf Hr. unfold execution_numbers in Hr. unfold read_execution_spec. rewrite (require_hit l _ _ _ Hn Hf (map_present _)). step_loaded. unfold write_execution. read_back.
  by destruct e.
Qed.
Lemma event_sources_back l id ss : NoDup l.*1 → field l "event_sources" = Some (sequence_node (write_event_source <$> ss)) →
  Forall (λ s, input_listed (source_inputs s) (source_input s) ∧ source_numbers s) ss → read_event_sources (map_node l) id = Loaded ss.
Proof.
  intros Hn Hf Hs. unfold read_event_sources. cbv zeta. rewrite (optional_hit l _ _ _ _ Hn Hf (sequence_present _)). rewrite sequence_required.
  step_loaded. rewrite sequence_elements. apply collect_fmap. intros i x Hx. rewrite Forall_forall in Hs. by apply event_source_back; apply Hs.
Qed.

Context (limits : GraphInputLimits) (depth_allowed : 1 ≤ max_config_depth limits).
(** A configuration of texts only. *)
Definition plain_config (c : ConfigView) : Prop := config_nested_values c = ∅ ∧ fits_config limits c.
Lemma config_keys (m : gmap string string) : NoDup ((λ kv : string * string, (kv.1, scalar_node (Node := Node) kv.2)) <$> map_items m).*1.
Proof. rewrite <- list_fmap_compose. exact (NoDup_map_keys m). Qed.
Lemma config_within c context : fits_config limits c → enforce_config_limits limits (write_config c) context = Loaded ().
Proof.
  intros Hc. unfold enforce_config_limits. rewrite Nat.add_comm. change (2 + ?n) with (S (S n)). cbn [config_limits].
  unfold write_config. rewrite map_present. rewrite (proj2 (limit_loaded _ _ _)) by lia. step_loaded. unfold is_map at 1.
  rewrite bool_decide_eq_true_2 by apply map_kind. apply each_loaded. intros x Hx. rewrite map_items_of in Hx by apply config_keys.
  apply list_elem_of_fmap in Hx as (y&->&Hy). apply list_elem_of_fmap in Hy as ([k v]&->&Hkv). cbn [fst snd].
  rewrite (scalar_string k). cbn [lib]. step_loaded. apply elem_of_map_items in Hkv. destruct (Hc _ _ Hkv) as [Hk Hv].
  rewrite (proj2 (limit_loaded _ _ _)) by done. step_loaded. rewrite (scalar_present v). rewrite (proj2 (limit_loaded _ _ _)) by (simpl; lia). step_loaded.
  unfold is_map, is_sequence. rewrite !bool_decide_eq_false_2 by (by rewrite scalar_kind). rewrite (scalar_string v). cbn [lib]. step_loaded.
  by apply limit_loaded.
Qed.
Lemma config_items_back context items values nested :
  read_config_items limits context (mkConfigView values nested) ((λ kv : string * string, (scalar_node (Node := Node) kv.1, scalar_node kv.2)) <$> items) =
  Loaded (mkConfigView (fold_left (λ m kv, <[kv.1 := kv.2]> m) items values) nested).
Proof.
  revert values. induction items as [|[k v] items IH]; intros values; [done|]. cbn [fmap list_fmap read_config_items fold_left fst snd].
  unfold read_config_item. cbn [fst snd config_values config_nested_values]. rewrite !scalar_string. cbn [lib]. step_loaded. unfold is_map, is_sequence.
  rewrite !bool_decide_eq_false_2 by (by rewrite scalar_kind). cbn [orb]. step_loaded. change (mret ?x ≫= ?f) with (f x). cbv beta. apply IH.
Qed.
Lemma items_back {V} (m : gmap string V) : fold_left (λ m kv, <[kv.1 := kv.2]> m) (map_items m) ∅ = m.
Proof.
  assert (∀ (l : list (string * V)) (m0 : gmap string V), NoDup l.*1 → fold_left (λ m kv, <[kv.1 := kv.2]> m) l m0 = (list_to_map l : gmap string V) ∪ m0) as Hf.
  { induction l as [|[k v] l IH]; intros m0 Hn; [symmetry; apply (left_id_L (A := gmap string V) ∅ union)|]. apply NoDup_cons in Hn as [Hk Hn]. cbn [fold_left fst snd list_to_map].
    rewrite IH by done. cbn. rewrite <- insert_union_r by (by apply not_elem_of_list_to_map_1). by rewrite insert_union_l. }
  rewrite Hf by apply NoDup_map_keys. rewrite (right_id_L (A := gmap string V) ∅ union). rewrite <- (list_to_map_to_list m) at 2.
  apply list_to_map_proper; [apply NoDup_map_keys|]. apply map_items_perm.
Qed.
Lemma config_back c context : plain_config c → read_config_node limits (write_config c) context = Loaded c.
Proof.
  intros [Hn Hc]. unfold read_config_node. rewrite config_within by done. unfold write_config. rewrite map_present, map_required. step_loaded.
  rewrite map_items_of by apply config_keys. rewrite <- list_fmap_compose. change empty_config with (mkConfigView ∅ ∅).
  rewrite (config_items_back context (map_items (config_values c)) ∅ ∅). rewrite items_back. rewrite <- Hn. by destruct c.
Qed.
Lemma read_config_back l id c : NoDup l.*1 → field l "config" = Some (write_config c) → plain_config c → read_config limits (map_node l) id = Loaded c.
Proof. intros Hn Hf Hc. unfold read_config. rewrite (at_field l _ _ Hn Hf). cbn [lib]. step_loaded. by apply config_back. Qed.
Lemma checked_back s context : fits_identifier limits s → checked_identifier limits s context = Loaded s.
Proof. intros Hs. unfold checked_identifier. rewrite (proj2 (identifier_loaded limits s context) Hs). done. Qed.
(** What a component needs to be written as a document. *)
Record component_writable (c : ComponentNodeSpec) : Prop := {
  cw_sources : Forall (λ s, input_listed (source_inputs s) (source_input s) ∧ source_numbers s) (event_sources c);
  cw_trigger : input_listed (trigger_inputs (trigger_policy c)) (trigger_input (trigger_policy c));
  cw_numbers : trigger_numbers (trigger_policy c) ∧ execution_numbers (execution c);
  cw_config : plain_config (comp_config c) }.
Lemma component_back c context : component_writable c → fits_identifier limits (comp_id c) →
  read_component_node limits (write_component c) (comp_id c) context = Loaded c.
Proof.
  intros [H1 H2 [Ht He] H3] Hid. unfold read_component_node, write_component. read_step. rewrite checked_back by done. step_loaded. do 2 read_step.
  erewrite event_sources_back; [|literal_keys|find_field|done]. step_loaded. erewrite trigger_back; [|literal_keys|find_field|done|done]. step_loaded.
  erewrite execution_back; [|literal_keys|find_field|done]. step_loaded. read_step.
  erewrite boundary_back; [|literal_keys|find_field]. step_loaded. erewrite read_config_back; [|literal_keys|find_field|done]. step_loaded.
  by destruct c.
Qed.
Lemma edge_policy_back l id (e : EdgeSpec) : NoDup l.*1 → field l "policy" = Some (write_edge_policy (edge_policy e)) → edge_numbers e →
  read_edge_policy (map_node l) id = Loaded (edge_policy e).
Proof.
  intros Hn Hf Hr. unfold edge_numbers in Hr. unfold read_edge_policy. cbv zeta. rewrite (optional_hit l _ _ _ _ Hn Hf (map_present _)). unfold write_edge_policy. read_back. by destruct (edge_policy e).
Qed.
(** An edge without a kind is immediate; one with a kind that is not known keeps its text. *)
Definition edge_writable (e : EdgeSpec) : Prop :=
  if edge_has_kind e then edge_invalid_kind e ≠ "" → parse_edge_kind (edge_invalid_kind e) = None ∧ edge_kind e = kImmediate
  else edge_invalid_kind e = "" ∧ edge_kind e = kImmediate.
Lemma parse_kind_name k : parse_edge_kind (edge_kind_name k) = Some k.
Proof. by destruct k. Qed.
Lemma edge_kind_back l (e : EdgeSpec) : edge_writable e → NoDup l.*1 →
  field l "kind" = (if edge_has_kind e then Some (scalar_node (written_kind e)) else None) →
  read_edge_kind (map_node l) = Loaded (edge_kind e, edge_has_kind e, edge_invalid_kind e).
Proof.
  unfold edge_writable, read_edge_kind. intros He Hn Hf. destruct (edge_has_kind e).
  - rewrite (optional_hit l _ _ _ _ Hn Hf (scalar_present _)), scalar_string. cbn [lib]. step_loaded. unfold written_kind.
    destruct (edge_invalid_kind e) as [|x k]; cbn [str_empty]; [by rewrite parse_kind_name|]. by destruct He as [-> ->].
  - rewrite (optional_miss l _ _ _ Hn Hf). by destruct He as [-> ->].
Qed.
Lemma edge_back e context : edge_writable e → edge_numbers e → fits_identifier limits (edge_id e) → read_edge_node limits (write_edge e) (edge_id e) context = Loaded e.
Proof.
  intros He Hr Hid. unfold read_edge_node, write_edge. pose proof (λ l, edge_kind_back l e He) as Hk.
  destruct (edge_has_kind e) eqn:Eh; cbn [app]; read_step; rewrite checked_back by done; step_loaded; do 3 read_step;
    (rewrite Hk; [|literal_keys|find_field]); step_loaded; (erewrite edge_policy_back; [|literal_keys|find_field|done]); step_loaded;
    destruct e; cbn in *; by subst.
Qed.
Lemma threshold_back l q : NoDup l.*1 → field l "residual_threshold" = (real_node <$> q) →
  match q with Some q => is_double q | None => True end →
  optional (map_node l) "residual_threshold" None (λ child, value ← lib (as_double child); mret (Some value)) = Loaded q.
Proof.
  intros Hn Hf Hq. destruct q as [q|]; cbn in Hf; [|by rewrite (optional_miss l _ _ _ Hn Hf)].
  rewrite (optional_hit l _ _ _ _ Hn Hf (real_present _)), real_read by done. done.
Qed.
Lemma loop_policy_back (x : CompositeLoopSpec) context : loop_numbers x → read_loop_policy (write_loop_policy (loop_policy x)) context = Loaded (loop_policy x).
Proof.
  unfold loop_numbers. cbv zeta. generalize (loop_policy x). intros p Hr.
  unfold read_loop_policy, write_loop_policy. destruct (loop_residual_threshold p) as [q|] eqn:Eq; cbn [app]; do 9 read_step;
    (erewrite (threshold_back _ (loop_residual_threshold p)); [|literal_keys|rewrite Eq; find_field|rewrite Eq; in_range || done]); step_loaded; read_step; by destruct p.
Qed.
Definition loop_writable (x : CompositeLoopSpec) : Prop := loop_components x ≠ [].
Lemma loop_back x context : loop_writable x → loop_numbers x → fits_identifier limits (loop_id x) → read_composite_loop limits (write_loop x) context = Loaded x.
Proof.
  intros Hx Hr Hid. unfold read_composite_loop, write_loop. do 3 read_step. rewrite checked_back by done. step_loaded. read_step.
  rewrite bool_decide_eq_false_2 by done. erewrite require_hit; [|literal_keys|find_field|apply map_present]. step_loaded.
  rewrite loop_policy_back by done. step_loaded. by destruct x.
Qed.
Lemma lane_back x : lane_numbers x → fits_identifier limits (lane_id x) → read_lane limits (scalar_node (lane_id x), write_lane x) = Loaded x.
Proof.
  intros Hr Hid. unfold lane_numbers in Hr. unfold read_lane. cbn [fst snd]. rewrite scalar_string. cbn [lib]. step_loaded. rewrite checked_back by done. step_loaded.
  unfold write_lane. read_back. by destruct x.
Qed.
Lemma clock_back l c : NoDup l.*1 → field l "clock" = Some (write_clock c) → read_clock (map_node l) = Loaded c.
Proof.
  intros Hn Hf. unfold read_clock. cbv zeta. rewrite (optional_hit l _ _ _ _ Hn Hf (map_present _)). unfold write_clock. read_back. by destruct c.
Qed.
Lemma id_back l s context : NoDup l.*1 → field l "id" = Some (scalar_node s) → fits_identifier limits s → read_id limits (map_node l) context = Loaded s.
Proof. intros Hn Hf Hs. unfold read_id. rewrite (read_required_text l _ s _ Hn Hf). step_loaded. by apply checked_back. Qed.
Lemma root_list_back l key ns limit : NoDup l.*1 → field l key = Some (sequence_node ns) → length ns ≤ limit → root_list (map_node l) key limit = Loaded ns.
Proof.
  intros Hn Hf Hl. unfold root_list. rewrite (optional_hit l _ _ _ _ Hn Hf (sequence_present _)). rewrite sequence_required. step_loaded.
  rewrite sequence_elements. by rewrite (proj2 (limit_loaded _ _ _)) by done.
Qed.
Lemma required_list_back l key ns limit : NoDup l.*1 → field l key = Some (sequence_node ns) → length ns ≤ limit → required_list (map_node l) key limit = Loaded ns.
Proof.
  intros Hn Hf Hl. unfold required_list. rewrite (require_hit l _ _ _ Hn Hf (sequence_present _)). step_loaded. rewrite sequence_required. step_loaded.
  rewrite sequence_elements. by rewrite (proj2 (limit_loaded _ _ _)) by done.
Qed.

(** ** The whole graph *)
(** What a graph needs to be written: no expansions, distinct lanes, configurations of texts, numbers in range, and no part
    that the format cannot express. *)
Record graph_writable (g : GraphSpec) : Prop := {
  gw_version : graph_schema_version g = kTopoExecSchemaVersion;
  gw_hierarchy : graph_hierarchy g = [];
  gw_lanes : NoDup (lane_id <$> graph_lanes g);
  gw_numbers : Forall lane_numbers (graph_lanes g) ∧ Forall edge_numbers (graph_edges g) ∧ Forall loop_numbers (graph_composite_loops g);
  gw_config : plain_config (graph_config g);
  gw_components : Forall component_writable (graph_components g);
  gw_edges : Forall edge_writable (graph_edges g);
  gw_loops : Forall loop_writable (graph_composite_loops g) }.
Lemma identifier_of g s : strings_within limits g → s ∈ graph_identifiers g → fits_identifier limits s.
Proof. intros [H1 _ _]. rewrite Forall_forall in H1. apply H1. Qed.
Lemma component_identifier g c : strings_within limits g → c ∈ graph_components g → fits_identifier limits (comp_id c).
Proof.
  intros Hg Hc. apply (identifier_of g); [done|]. unfold graph_identifiers. rewrite elem_of_cons, !elem_of_app. right. right. left.
  apply list_elem_of_bind. exists c. split; [left|done].
Qed.
Lemma edge_identifier g e : strings_within limits g → e ∈ graph_edges g → fits_identifier limits (edge_id e).
Proof.
  intros Hg He. apply (identifier_of g); [done|]. unfold graph_identifiers. rewrite elem_of_cons, !elem_of_app. do 3 right. left.
  apply list_elem_of_fmap. by exists e.
Qed.
Lemma loop_identifier g x : strings_within limits g → x ∈ graph_composite_loops g → fits_identifier limits (loop_id x).
Proof.
  intros Hg Hx. apply (identifier_of g); [done|]. unfold graph_identifiers. rewrite elem_of_cons, !elem_of_app. do 4 right. left.
  apply list_elem_of_bind. exists x. split; [left|done].
Qed.
Lemma lane_identifier g x : strings_within limits g → x ∈ graph_lanes g → fits_identifier limits (lane_id x).
Proof.
  intros Hg Hx. apply (identifier_of g); [done|]. unfold graph_identifiers. rewrite elem_of_cons, !elem_of_app. right. left.
  apply list_elem_of_fmap. by exists x.
Qed.
Lemma lane_keys g : NoDup (lane_id <$> graph_lanes g) → NoDup ((λ x, (lane_id x, write_lane x)) <$> graph_lanes g).*1.
Proof. intros Hn. by rewrite <- list_fmap_compose. Qed.
Lemma flat_back g : graph_writable g → strings_within limits g → counts_within limits g → read_flat_graph limits (write_graph g) = Loaded g.
Proof.
  intros [Hv Hh Hl (Nl&Ne&No) Hc Hcs Hes Hls] Hs [C1 C2 C3 C4]. unfold read_flat_graph, write_graph. do 2 read_step.
  erewrite (require_hit _ "schema_version"); [|literal_keys|find_field|apply int_present]. step_loaded. rewrite int_read by (by rewrite Hv). cbn [lib]. step_loaded.
  rewrite Hv. cbn [negb Z.eqb kTopoExecSchemaVersion Pos.eqb]. erewrite (require_hit _ "graph"); [|literal_keys|find_field|apply map_present]. step_loaded.
  do 4 read_step. rewrite checked_back by (apply (identifier_of g); [done|left]). step_loaded.
  erewrite at_field; [|literal_keys|find_field]. cbn [lib]. step_loaded. rewrite config_back by done. step_loaded.
  erewrite clock_back; [|literal_keys|find_field]. step_loaded. erewrite (require_hit _ "lanes"); [|literal_keys|find_field|apply map_present]. step_loaded. read_step.
  rewrite map_items_of by (by apply lane_keys). rewrite <- list_fmap_compose. rewrite (proj2 (limit_loaded _ _ _)) by (by rewrite length_fmap). step_loaded.
  rewrite (mapM_fmap _ _ (λ x, x)) by (intros x Hx; rewrite Forall_forall in Nl; apply lane_back; [by apply Nl|by eapply lane_identifier]). rewrite list_fmap_id. step_loaded.
  erewrite (required_list_back _ "components"); [|literal_keys|find_field|by rewrite length_fmap]. step_loaded. rewrite collect_fmap; cycle 1.
  { intros i c Hin. pose proof (component_identifier g c Hs Hin) as Hid. unfold read_component_at. cbv zeta.
    assert (read_id limits (write_component c) (indexed "components" i) = Loaded (comp_id c)) as -> by (apply id_back; [literal_keys|find_field|done]).
    step_loaded. apply component_back; [|done]. rewrite Forall_forall in Hcs. by apply Hcs. }
  step_loaded. erewrite (required_list_back _ "edges"); [|literal_keys|find_field|by rewrite length_fmap]. step_loaded. rewrite collect_fmap; cycle 1.
  { intros i e Hin. pose proof (edge_identifier g e Hs Hin) as Hid. unfold read_edge_at. cbv zeta.
    assert (read_id limits (write_edge e) (indexed "edges" i) = Loaded (edge_id e)) as ->
      by (apply id_back; [destruct (edge_has_kind e); literal_keys|find_field|done]).
    step_loaded.
    rewrite Forall_forall in Hes, Ne. apply edge_back; [by apply Hes|by apply Ne|done]. }
  step_loaded. erewrite root_list_back; [|literal_keys|find_field|by rewrite length_fmap]. step_loaded. rewrite collect_fmap; cycle 1.
  { intros i x Hin. rewrite Forall_forall in Hls, No. apply loop_back; [by apply Hls|by apply No|by eapply loop_identifier]. }
  step_loaded. rewrite <- Hv, <- Hh. by destruct g.
Qed.
Lemma document_back g : graph_writable g → strings_within limits g → counts_within limits g → load_graph_node limits (write_graph g) = Loaded g.
Proof.
  intros Hw Hs Hc. unfold load_graph_node. rewrite (flat_back g Hw Hs Hc). step_loaded. unfold write_graph, root_list.
  rewrite !optional_miss by (literal_keys || find_field). step_loaded. change (expand_subgraphs limits 0 ∅ [] g) with (Loaded g). step_loaded.
  change (read_templates limits 0 ∅ []) with (Loaded (∅ : gmap string (GraphTemplateDefinition Node))). step_loaded.
  change (expand_instances limits 0 (∅ : gmap string (GraphTemplateDefinition Node)) [] g) with (Loaded g). step_loaded.
  destruct Hc as [C1 C2 C3 C4]. rewrite !(proj2 (limit_loaded _ _ _)) by done. by step_loaded.
Qed.
End written.
