(* ===== verification/LoaderProperties.v ===== *)
(** * LoaderProperties: what the graph loader promises

    The theorems about [load_graph_text], with concrete documents. *)

From S2P Require Export LoaderTemplates LoaderRoundtrip Yaml.
Local Open Scope nat_scope.

(** ** Loading a text *)
Section contract.
Context {Node : Type} `{YamlLib Node} (limits : GraphInputLimits).
Lemma text_loaded_graph text g : load_graph_text limits text = Loaded g →
  String.length text ≤ max_graph_input_bytes limits ∧ is_valid_utf8 text = true ∧
  count_yaml_alias_references text ≤ max_yaml_alias_count limits ∧
  ∃ root, yaml_load text = inr root ∧ load_graph_node limits root = Loaded g ∧ strings_within limits g.
Proof.
  intros Hg. unfold load_graph_text in Hg. apply bind_loaded in Hg as ([]&H1%limit_loaded&Hg). apply bind_loaded in Hg as ([]&H2&Hg).
  unfold enforce_valid_utf8 in H2. destruct (is_valid_utf8 text); [|done]. cbv zeta in Hg.
  destruct (Nat.ltb_spec (max_yaml_alias_count limits) (count_yaml_alias_references text)); [done|]. split_and!; [done..|].
  unfold catch_yaml in Hg. destruct (_ ≫= _) as [g'|[]] eqn:Em; try done. injection Hg as ->.
  apply bind_loaded in Em as (root&Hr&Em). apply bind_loaded in Em as (g'&Hl&Em). apply bind_loaded in Em as ([]&Hs%strings_loaded&[= ->]).
  exists root. split_and!; [|done..]. unfold lib in Hr. destruct (yaml_load text); [done|]. by injection Hr as ->.
Qed.
Lemma alias_count text : count_yaml_alias_references text = length (filter (λ event, event = OnAlias) (yaml_events text)).
Proof.
  unfold count_yaml_alias_references. generalize (yaml_events text). intros events.
  assert (∀ n, fold_left on_event events n = n + length (filter (λ event, event = OnAlias) events)) as Hn; [|apply (Hn 0)].
  induction events as [|event events IH]; intros n; [simpl; lia|]. cbn [fold_left]. rewrite IH.
  destruct event; rewrite ?filter_cons_True, ?filter_cons_False by done; simpl; lia.
Qed.
(** The text that a file is read as is at most as long as the limit. *)
Lemma chunks_bounded text chunks r : String.length text ≤ max_graph_input_bytes limits → read_chunks limits text chunks = Loaded r →
  String.length r ≤ max_graph_input_bytes limits ∧ ∃ n, r = fold_left String.append (take n chunks) text.
Proof.
  revert text. induction chunks as [|chunk chunks IH]; intros text Hl Hr; cbn [read_chunks] in Hr; [injection Hr as <-; split; [done|by exists 0]|].
  destruct (str_empty chunk); [injection Hr as <-; split; [done|by exists 0]|]. destruct (_ || _) eqn:E; [done|].
  apply orb_false_iff in E as [E1%Nat.ltb_ge E2%Nat.ltb_ge]. apply IH in Hr as [Hr (n&Hn)]; [|rewrite str_app_length; lia].
  split; [done|]. by exists (S n).
Qed.
End contract.

(** A template that contains itself: whatever the depth that is tried, the copy does not come back.  yaml-cpp builds such a
    node from [&a [*a]]. *)
Lemma self_template_diverges {Node : Type} `{YamlLib Node} (limits : GraphInputLimits) (node : Node) parameters :
  node_kind node = KSequence → node_elements node = [node] →
  ¬ well_nested node ∧ ∀ fuel context, substitute_node limits fuel node parameters context = Thrown Diverged.
Proof.
  intros Hk He. split.
  - intros Hn. induction Hn as [node _ IH]. apply (IH node); [|done..]. left. rewrite He. split; [done|left].
  - induction fuel as [|fuel IH]; intros context; [done|]. cbn [substitute_node]. unfold absent, is_scalar, is_sequence. rewrite Hk, He.
    rewrite !bool_decide_eq_false_2 by done. rewrite bool_decide_eq_true_2 by done. cbn [orb]. unfold collect. cbn [imap mapM fst snd compose].
    by rewrite IH.
Qed.

(** ** Theorems *)
(** C4. C. Loading a text gives a graph or throws [std::invalid_argument], whatever the library throws, unless the document
    contains itself: a load that does not come back copies a template inside which a descent goes on forever
    ([self_template_diverges]).  A graph that is returned comes from a text within its limits, has lists within theirs, and no empty
    identifier and no string, identifier or configuration value beyond its limit anywhere. *)
Theorem load_contract {Node : Type} `{YamlLaws Node} (limits : GraphInputLimits) (text : string) :
  match load_graph_text limits text with
  | Loaded g => String.length text ≤ max_graph_input_bytes limits ∧ is_valid_utf8 text = true ∧
      length (filter (λ event, event = OnAlias) (yaml_events text)) ≤ max_yaml_alias_count limits ∧
      counts_within limits g ∧ strings_within limits g
  | Thrown e => (∃ what, e = InvalidArgument what) ∨ (e = Diverged ∧ ∃ root, yaml_load text = inr root ∧ ¬ well_nested root)
  end.
Proof.
  destruct (load_graph_text limits text) as [g|e] eqn:E; [|by apply (text_throws limits text)].
  apply text_loaded_graph in E as (H1&H2&H3&root&_&Hl&Hs). rewrite alias_count in H3. apply (load_shape limits) in Hl as (?&?&?&_&_&_&_&_&_&Hc). by split_and!.
Qed.
(** C5. C. A graph that the format can express ([graph_writable]: no expansions, distinct lanes, configurations of texts, integers
    of 32 bits, rationals that a [double] holds) and that is within the limits is loaded back from the document that
    [write_graph], the specification's own writer, makes of it: each field is read from its name, nothing is lost, added or
    refused.  [int_node], [real_node] and [bool_node] are any scalars that the library reads back as such a number or flag. *)
Theorem document_roundtrip {Node : Type} `{YamlLaws Node} (int_node : Z → Node) (real_node : QArith_base.Q → Node) (bool_node : bool → Node)
    (limits : GraphInputLimits) (text : string) (g : GraphSpec) :
  (∀ z, node_kind (int_node z) = KScalar ∧ (is_int z → as_int (int_node z) = inr z)) →
  (∀ q, node_kind (real_node q) = KScalar ∧ (is_double q → as_double (real_node q) = inr q)) →
  (∀ b, node_kind (bool_node b) = KScalar ∧ as_bool (bool_node b) = inr b) →
  1 ≤ max_config_depth limits → graph_writable limits g → strings_within limits g → counts_within limits g →
  String.length text ≤ max_graph_input_bytes limits → is_valid_utf8 text = true →
  length (filter (λ event, event = OnAlias) (yaml_events text)) ≤ max_yaml_alias_count limits →
  yaml_load text = inr (write_graph int_node real_node bool_node g) → load_graph_text limits text = Loaded g.
Proof.
  intros Hi Hr Hb Hd Hw Hs Hc Hl Hu Ha Ht. unfold load_graph_text. rewrite (proj2 (limit_loaded _ _ _)) by done. step_loaded.
  unfold enforce_valid_utf8. rewrite Hu. cbn [negb]. change (mret () ≫= ?f) with (f ()). cbv beta zeta. rewrite alias_count.
  rewrite (proj2 (Nat.ltb_ge _ _) Ha). rewrite Ht. cbn [lib]. step_loaded.
  rewrite (document_back int_node real_node bool_node) by (done || (intros; first [by apply Hi|by apply Hr|by apply Hb])).
  step_loaded. by rewrite (proj2 (strings_loaded limits g) Hs).
Qed.
(** C7. C. Substituting template parameters yields exactly the reference substitution: the text is cut at its placeholders,
    left to right, each is an identifier that has a value, and what was put in is not looked at again; the result is
    within the limit. *)
Theorem substitution_exact (limits : GraphInputLimits) (parameters : gmap string string) (text context out : string) :
  substitute_placeholders limits text parameters context = Loaded out ↔ Substituted limits parameters text out ∧ fits_text limits out.
Proof. apply substitute_loaded. Qed.
(** C6. C. What a document loads to is its own components, edges and loops, followed by those of the expansions: one for each
    node of [subgraphs] and one for each node of [template_instances], in their order.  An expansion holds one component, edge
    and loop for each node of the subgraph, read as the flat ones are, with every name that it declares or refers to prefixed by
    the identifier of the subgraph; an instance is the expansion of the template that it names with its parameters put in.
    So the identifiers and the references of an expansion are in its name space.  The exception is an end of an edge without a
    port: it is prefixed too, but then names a port of the outer component (bare_endpoint_leaves_namespace). *)
Theorem expansions_stay_in_namespace {Node : Type} `{YamlLaws Node} (limits : GraphInputLimits) (root : Node) (g : GraphSpec) :
  load_graph_node limits root = Loaded g → ∃ flat subgraphs instances, let es := subgraphs ++ instances in
    read_flat_graph limits root = Loaded flat ∧
    Forall2 (expansion_of limits) (list_field root "subgraphs") subgraphs ∧
    Forall2 (instance_of limits (list_field root "templates")) (list_field root "template_instances") instances ∧
    Forall namespaced es ∧ NoDup (hier_id ∘ exp_hierarchy <$> subgraphs) ∧
    graph_components g = graph_components flat ++ (es ≫= exp_components) ∧ graph_edges g = graph_edges flat ++ (es ≫= exp_edges) ∧
    graph_composite_loops g = graph_composite_loops flat ++ (es ≫= exp_loops) ∧ graph_hierarchy g = exp_hierarchy <$> es ∧
    graph_lanes g = graph_lanes flat.
Proof.
  intros Hg. apply (load_shape limits) in Hg as (flat&subs&insts&Hf&->&Hs&Hi&Hn&Hd&_). exists flat, subs, insts. cbv zeta.
  destruct (append_expansions_lists (subs ++ insts) flat) as (->&->&->&->&->&_). destruct (flat_loaded _ _ _ Hf) as (->&_). by split_and!.
Qed.
(** An end without a port loses its component: in the name space [ns], [a] becomes the port [a] of the component [ns]. *)
Lemma bare_endpoint_leaves_namespace : namespace_endpoint default_graph_input_limits "ns" "a" "edges.ns.e.to" = Loaded "ns.a" ∧
  component_id_from_endpoint "a" = "a" ∧ component_id_from_endpoint "ns.a" = "ns" ∧ port_name_from_endpoint "ns.a" = "a" ∧
  ¬ in_namespace "ns" "ns".
Proof. split_and!; [done..|]. intros (l&Hl&E). destruct l; done. Qed.

(** ** Documents *)
Definition small : GraphInputLimits := mkInputLimits 1000 16 16 16 16 32 8 64 64 4.
Definition demo_source : EventSourceSpec := mkEventSource "tick" "message" ["in"] "in" 5.
Definition demo_component (id : string) : ComponentNodeSpec :=
  mkComponentNode id "demo.Type" [demo_source] default_trigger_policy (mkExecution "main" false "normal" 0 "fail_fast") [] kProcessing ""
    (mkConfigView {["gain" := "3"]} ∅).
Definition demo_lane : LaneSpec :=
  mkLane "main" "event_loop" (QArith_base.inject_Z 0) "" 0 0 0 "reject" false 0 0 "drop_tick" "" [0%Z; 1%Z] 0 "none" 0 "none".
Definition demo_edge : EdgeSpec := mkEdge "a_b" "a.out" "b.in" kDelay true "" default_edge_policy.
Definition demo_document : GraphSpec :=
  mkGraph 1 "demo" "runnable" default_clock_policy empty_config [demo_lane] [demo_component "a"; demo_component "b"] [demo_edge] [] [].
Definition demo_documents (text : string) : option Yaml :=
  if str_eqb text "demo" then Some (write_graph (H := tree_lib (λ _, None)) YInt YReal YBool demo_document) else None.
#[local] Instance demo_lib : YamlLib Yaml := tree_lib demo_documents.
#[local] Instance demo_laws : YamlLaws Yaml := tree_laws demo_documents.
Lemma demo_numbers : Forall lane_numbers (graph_lanes demo_document) ∧ Forall edge_numbers (graph_edges demo_document) ∧
  Forall loop_numbers (graph_composite_loops demo_document).
Proof.
  split_and!; [apply Forall_singleton|apply Forall_singleton; by split_and!|constructor]. split; [|split_and!; try done; by repeat constructor].
  split; [done|]. exists 0%Z, 0%Z. split_and!; done.
Qed.
Lemma demo_writable : graph_writable small demo_document ∧ strings_within small demo_document ∧ counts_within small demo_document.
Proof.
  assert (strings_within small demo_document) as Hs by (apply strings_loaded; vm_compute; reflexivity).
  split; [|split; [exact Hs|split; vm_compute; lia]]. split; [done|done|apply (bool_decide_unpack _); vm_compute; exact Logic.I|exact demo_numbers| | | |constructor].
  - split; [done|]. destruct Hs as [_ _ Hc]. by inversion Hc.
  - destruct Hs as [_ _ Hc]. apply Forall_cons in Hc as [_ Hc]. rewrite Forall_forall in Hc.
    apply Forall_forall. intros c Hin. assert (fits_config small (comp_config c)) as Hfit by (apply Hc, list_elem_of_fmap; by exists c).
    apply list_elem_of_In in Hin. destruct Hin as [<-|[<-|[]]]; (split; [apply Forall_singleton; by split|by intros ?|by split_and!|by split]).
  - by repeat constructor.
Qed.
Lemma load_contract_witness : ∃ g, load_graph_text (Node := Yaml) small "demo" = Loaded g ∧ counts_within small g.
Proof.
  pose proof (load_contract (Node := Yaml) small "demo") as H. destruct (load_graph_text small "demo") as [g|e] eqn:E.
  - exists g. split; [reflexivity|apply H].
  - exfalso. vm_compute in E. discriminate E.
Defined.
Lemma document_roundtrip_witness : load_graph_text (Node := Yaml) small "demo" = Loaded demo_document.
Proof.
  destruct demo_writable as (H1&H2&H3).
  apply (document_roundtrip (Node := Yaml) YInt YReal YBool small "demo" demo_document);
    [by intros|by intros|by intros|vm_compute; lia|exact H1|exact H2|exact H3|vm_compute; lia|reflexivity|vm_compute; lia|vm_compute; reflexivity].
Defined.
Example demo_substitution : substitute_placeholders small "{{kind}}.{{name}}" {["kind" := "{{name}}"; "name" := "x"]} "t" = Loaded "{{name}}.x".
Proof. vm_compute. reflexivity. Qed.
(** A document with a subgraph, and a template with two instances. *)
Definition cell_body (sink : string) : list (string * Yaml) :=
  [("components", YSequence [YMap [("id", YText "source"); ("type", YText "t"); ("execution", YMap [("lane", YText "main")])];
     YMap [("id", YText sink); ("type", YText "t"); ("execution", YMap [("lane", YText "main")]); ("depends_on", YSequence [YText "source"])]]);
   ("edges", YSequence [YMap [("id", YText "e"); ("from", YText "source.out"); ("to", YText (sink +:+ ".in"))]])].
Definition instance_node (id name : string) : Yaml :=
  YMap [("id", YText id); ("template", YText "pair"); ("parameters", YMap [("name", YText name)])].
Definition nested_root : Yaml :=
  YMap [("schema_version", YInt 1); ("graph", YMap [("name", YText "g")]); ("lanes", YMap [("main", YMap [("type", YText "event_loop")])]);
    ("components", YSequence []); ("edges", YSequence []); ("subgraphs", YSequence [YMap (("id", YText "cell") :: cell_body "sink")]);
    ("templates", YSequence [YMap (("id", YText "pair") :: ("parameters", YSequence [YText "name"]) :: cell_body "{{name}}")]);
    ("template_instances", YSequence [instance_node "l" "x"; instance_node "r" "y"])].
Lemma expansions_stay_in_namespace_witness : ∃ g flat subs insts, load_graph_node (Node := Yaml) small nested_root = Loaded g ∧
  comp_id <$> graph_components g = ["cell.source"; "cell.sink"; "l.source"; "l.x"; "r.source"; "r.y"] ∧
  graph_components g = graph_components flat ++ ((subs ++ insts) ≫= exp_components) ∧ length subs = 1 ∧ length insts = 2 ∧ Forall namespaced (subs ++ insts).
Proof.
  destruct (load_graph_node (Node := Yaml) small nested_root) as [g|e] eqn:E; [|exfalso; vm_compute in E; discriminate E].
  destruct (expansions_stay_in_namespace (Node := Yaml) small nested_root g E) as (flat&subs&insts&_&Hs&Hi&H1&_&H2&_).
  exists g, flat, subs, insts. split; [reflexivity|]. split.
  - assert (match load_graph_node (Node := Yaml) small nested_root with Loaded g => comp_id <$> graph_components g | Thrown _ => [] end =
      ["cell.source"; "cell.sink"; "l.source"; "l.x"; "r.source"; "r.y"]) as Hv by (vm_compute; reflexivity). by rewrite E in Hv.
  - split; [exact H2|]. split; [exact (eq_sym (Forall2_length _ _ _ Hs))|]. split; [exact (eq_sym (Forall2_length _ _ _ Hi))|exact H1].
Defined.
