(* ===== verification/CliSupport.v ===== *)
(** * CliSupport: texts and components of the command line tool

    Models the helpers of [src/tools/topoexec/main.cpp] that work on texts and files: names of benchmark cases, the hash of a
    graph file, what the tool says about the machine and the repository, and the rules of the sampling options; and the
    components that the tool runs graphs with: [DemoComponent], [demo_registry], [resolve_run_steps] and [run_graph_file].  A file
    that cannot be opened is [None]; a text file is a list of lines where the code reads lines. *)

From S2P Require Export RunnerResult PlanText ComponentBase Loader.
From Stdlib Require Import Ascii.
Local Open Scope nat_scope.

(** ** Exceptions *)
(** The message of the exception that ends a command, or a value. *)
Abbreviation Cli A := (string + A)%type.
Definition cli_bind {A B} (m : Cli A) (f : A → Cli B) : Cli B := match m with inl what => inl what | inr a => f a end.

(** ** Positions in a text *)
(** [find_last_of]: the last position of a character with [p]. *)
Fixpoint find_last_of (p : ascii → bool) (s : string) : option nat :=
  match s with
  | EmptyString => None
  | String c rest => match find_last_of p rest with Some n => Some (S n) | None => if p c then Some 0 else None end
  end.
Definition is_char (c : ascii) : ascii → bool := fun d => bool_decide (d = c).
(** [substr(n)] of a position within the text. *)
Fixpoint drop_chars (n : nat) (s : string) : string :=
  match n, s with S n, String _ rest => drop_chars n rest | _, _ => s end.
Definition take_chars (n : nat) (s : string) : string := String.substring 0 n s.
Definition join (values : list string) : string :=
  fst (fold_left (fun acc value => (acc.1 +:+ (if 0 <? acc.2 then "," else "") +:+ value, S acc.2)) values ("", 0)).
Definition benchmark_case_name (path : string) : string :=
  let start := match find_last_of (fun c => is_char "/" c || is_char "\" c) path with None => 0 | Some slash => S slash end in
  let stop := match find_last_of (is_char ".") path with
    | None => String.length path
    | Some dot => if dot <? start then String.length path else dot
    end in
  String.substring start (stop - start) path.
(** [find_first_not_of(" \t\r\n")] and [find_last_not_of(" \t\r\n")]. *)
Definition is_blank (c : ascii) : bool := is_char " " c || is_char "009" c || is_char "013" c || is_char "010" c.
Fixpoint skip_blanks (s : string) : string := match s with String c rest => if is_blank c then skip_blanks rest else s | EmptyString => s end.
Fixpoint drop_blanks (s : string) : string :=
  match s with
  | EmptyString => EmptyString
  | String c rest => match drop_blanks rest with EmptyString => if is_blank c then EmptyString else String c EmptyString | r => String c r end
  end.
Definition trim (value : string) : string := drop_blanks (skip_blanks value).

(** ** The hash of a graph *)
Definition fnv_step (hash : Z) (byte : ascii) : Z := u64 (Z.lxor hash (Z.of_nat (nat_of_ascii byte)) * 1099511628211).
Fixpoint fnv1a64 (hash : Z) (text : string) : Z := match text with EmptyString => hash | String c rest => fnv1a64 (fnv_step hash c) rest end.
Definition hex_digit (n : Z) : ascii := ascii_of_nat (Z.to_nat (if (n <? 10)%Z then 48 + n else 87 + n)%Z).
(** [std::hex] with width 16 and fill [0]: the sixteen digits of a 64-bit number. *)
Fixpoint hex_digits (n : nat) (z : Z) : string :=
  match n with 0 => "" | S n => hex_digits n (z / 16) +:+ String (hex_digit (z mod 16)) "" end.
Definition fnv1a64_hex (text : string) : string := hex_digits 16 (fnv1a64 14695981039346656037 text).
Definition read_text_file (path : string) (file : option string) : Cli string :=
  match file with None => inl ("failed to open file: " +:+ path) | Some text => inr text end.
Definition graph_hash (path : string) (file : option string) : Cli string :=
  cli_bind (read_text_file path file) (fun text => inr ("fnv1a64:" +:+ fnv1a64_hex text)).
Definition observe_run_id (path : string) (file : option string) : Cli string :=
  cli_bind (read_text_file path file) (fun text => inr ("run-" +:+ take_chars 12 (fnv1a64_hex text))).

(** ** The machine and the repository *)
Fixpoint find_char (c : ascii) (s : string) : option nat :=
  match s with
  | EmptyString => None
  | String d rest => if bool_decide (d = c) then Some 0 else S <$> find_char c rest
  end.
(** The lines of [/proc/cpuinfo]. *)
Fixpoint cpu_model (lines : list string) : string :=
  match lines with
  | [] => "unknown"
  | line :: rest =>
      match find_char ":" line with
      | None => cpu_model rest
      | Some colon => if str_eqb (trim (take_chars colon line)) "model name" then trim (drop_chars (S colon) line) else cpu_model rest
      end
  end.
Definition short_commit (value : string) : string := if 12 <? String.length value then take_chars 12 value else value.
(** The first line of a file of the repository: [None] for a file that is missing or empty. *)
Definition read_git_head_commit (git_dir : string) (first_line : string → option string) : string :=
  match first_line (git_dir +:+ "/HEAD") with
  | None => "unknown"
  | Some value =>
      if String.prefix "ref: " value then
        match first_line (git_dir +:+ "/" +:+ drop_chars 5 value) with Some value => short_commit value | None => "unknown" end
      else short_commit value
  end.
Definition git_commit (variable configured : option string) (first_line : string → option string) : string :=
  match variable with
  | Some value => if negb (str_empty value) then value else
      match configured with
      | Some value => if negb (str_empty value) && negb (str_eqb value "unknown") then value else read_git_head_commit ".git" first_line
      | None => read_git_head_commit ".git" first_line
      end
  | None =>
      match configured with
      | Some value => if negb (str_empty value) && negb (str_eqb value "unknown") then value else read_git_head_commit ".git" first_line
      | None => read_git_head_commit ".git" first_line
      end
  end.
Definition schema_candidates (executable_dir : string) : list string :=
  (if negb (str_empty executable_dir) then [executable_dir +:+ "/../share/topoexec/schema/topoexec.schema.v1.json"] else []) ++
  ["schema/topoexec.schema.v1.json"; "../share/topoexec/schema/topoexec.schema.v1.json"; "share/topoexec/schema/topoexec.schema.v1.json"].
Definition find_schema_path (variable : option string) (executable_dir : string) (opens : string → bool) : string :=
  match variable with
  | Some value => if negb (str_empty value) then value else default "" (List.find opens (schema_candidates executable_dir))
  | None => default "" (List.find opens (schema_candidates executable_dir))
  end.
Fixpoint yaml_file_has_graph_schema (lines : list string) : bool :=
  match lines with
  | [] => false
  | line :: rest =>
      if contains line "assertion_schema_version:" then false else
      if contains line "schema_version:" then true else yaml_file_has_graph_schema rest
  end.

(** ** Sampling rules *)
Definition parse_sample_rule (rule : string) : Cli (string * Z) :=
  match find_char ":" rule with
  | None => inl "--sample-event must use KIND:RATIO"
  | Some separator =>
      if (separator =? 0) || (String.length rule <=? separator + 1) then inl "--sample-event must use KIND:RATIO" else
      match stoull (drop_chars (separator + 1) rule) with
      | None => inl "stoull"
      | Some ratio =>
          if (ratio =? 0)%Z then inl "--sample-event ratio must be positive" else inr (take_chars separator rule, ratio)
      end
  end.
(** A later rule for the same kind replaces an earlier one. *)
Fixpoint parse_sample_rules_from (rules : list string) (parsed : gmap string Z) : Cli (gmap string Z) :=
  match rules with
  | [] => inr parsed
  | rule :: rest => cli_bind (parse_sample_rule rule) (fun kr => parse_sample_rules_from rest (<[kr.1 := kr.2]> parsed))
  end.
Definition parse_sample_rules (rules : list string) : Cli (gmap string Z) := parse_sample_rules_from rules ∅.
Definition contains_string (values : list string) (value : string) : bool := bool_decide (value ∈ values).

(** ** Components *)
Inductive DemoBehavior := kSource | kForward | kLargeSource | kEstimator | kController | kSink.
(** Publishes a text, throws the reason of a rejection, and goes on. *)
Definition publish_or_throw (port text : string) (next : Prog) : Prog :=
  Call (CPublish port (Some (make_text_payload text kTextPayloadSchema)) None)
    (fun result => if negb (accepted result) then Throws (reason result) else next).
Definition demo_done : Prog := Returns status_success.
(** [invocation.payload->text()] throws when the payload is not a text. *)
Definition with_text (payload : RuntimePayload) (next : string → Prog) : Prog :=
  match payload_text payload with inl what => Throws what | inr text => next text end.
Definition when_payload (i : Invocation) (next : string → Prog) : Prog :=
  match inv_payload i with None => demo_done | Some payload => with_text payload next end.
Definition demo_execute (behavior : DemoBehavior) (moment : nat) (i : Invocation) (loop : option LoopIterationContext) : Prog :=
  match behavior with
  | kSource => publish_or_throw "out" ("payload-" +:+ to_string_nat (inv_sequence i)) demo_done
  | kForward => when_payload i (fun text => publish_or_throw "out" text demo_done)
  | kLargeSource => publish_or_throw "out" ("large-payload-placeholder-" +:+ to_string_nat (inv_sequence i)) demo_done
  | kEstimator => when_payload i (fun text => publish_or_throw "estimate" ("estimate:" +:+ text) demo_done)
  | kController => when_payload i (fun text =>
      publish_or_throw "command" ("command:" +:+ text) (publish_or_throw "correction" ("correction:" +:+ text) demo_done))
  | kSink => demo_done
  end.
Definition DemoComponent (behavior : DemoBehavior) : ComponentClass :=
  mkClass (fun _ _ => demo_done) None None (Some (demo_execute behavior)) None None None None None None None.

(** ** The registry *)
Definition text_port (name : string) : PortDescriptor := mkPort name kTextPayloadSchema "" kSingle false.
Definition large_port (name schema : string) : PortDescriptor := mkPort name schema "" kSingle false.
Definition descriptor (type : string) (role : ComponentRole) (inputs outputs : list PortDescriptor) : ComponentDescriptor :=
  mkComponentDescriptor type type role "" [] inputs outputs "".
(** A type that is registered twice, or an empty one, leaves the registry as it is. *)
Definition register_demo_component (registry : ComponentRegistry ComponentFactory) (component : ComponentDescriptor) (behavior : DemoBehavior)
    : ComponentRegistry ComponentFactory :=
  match register_component registry (mkRegistration (cd_type component) "1" "0.1.0" true false true)
      (Some (class_factory (inr component) (fun _ => DemoComponent behavior))) with
  | inl _ => registry
  | inr (registry, _) => registry
  end.
Definition demo_components : list (ComponentDescriptor * DemoBehavior) :=
  [(descriptor "topoexec.boundary.Input" kInputBoundary [] [text_port "out"], kSource);
   (descriptor "topoexec.transforms.Identity" kProcessing [text_port "in"] [text_port "out"], kForward);
   (descriptor "topoexec.transforms.Join" kProcessing [text_port "left"; text_port "right"] [text_port "out"], kForward);
   (descriptor "topoexec.transforms.Validator" kProcessing [text_port "request"] [text_port "out"], kForward);
   (descriptor "topoexec.transforms.AsyncWorker" kProcessing [text_port "ready"] [text_port "out"], kForward);
   (descriptor "topoexec.boundary.Output" kOutputBoundary [text_port "in"] [], kSink);
   (descriptor "topoexec.boundary.FrameInput" kInputBoundary [] [large_port "out" kFrameViewPayloadSchema], kLargeSource);
   (descriptor "topoexec.boundary.BinaryInput" kInputBoundary [] [large_port "out" kBinaryBlobPayloadSchema], kLargeSource);
   (descriptor "topoexec.example.Sensor" kInputBoundary [] [text_port "out"], kSource);
   (descriptor "topoexec.example.Estimator" kProcessing [text_port "sensor"; text_port "correction"] [text_port "estimate"], kEstimator);
   (descriptor "topoexec.example.Controller" kProcessing [text_port "estimate"] [text_port "command"; text_port "correction"], kController);
   (descriptor "topoexec.example.Actuator" kOutputBoundary [text_port "command"] [], kSink)].
Definition demo_registry : ComponentRegistry ComponentFactory :=
  fold_left (fun registry cb => register_demo_component registry cb.1 cb.2) demo_components empty_registry.

(** ** Runs *)
(** Without an explicit number of steps, a run until idle has no bound of its own. *)
Definition resolve_run_steps (steps : nat) (until_idle : bool) (steps_option_count : nat) : nat :=
  if until_idle && (steps_option_count =? 0) then 0 else steps.
Definition demo_run_options (steps : nat) (duration_ms : Z) (until_idle : bool) (live_observe_options : option LiveObserveOptions)
    : RuntimeRunnerOptions :=
  mkRunnerOptions kRun steps duration_ms until_idle true (Z.of_nat kDefaultHealthEventCapacity) [] ∅ false
    (default (mkObserveOptions kOff 1024 0) live_observe_options) [].
(** The exception of the loader, or the result; [None]: the run does not end within the fuel. *)
Definition run_graph_file {Node} `{YamlLib Node} (env : RunnerEnvironment) (compile_fuel fuel : nat) (limits : GraphInputLimits)
    (path : string) (file : option GraphFile) (steps : nat) (duration_ms : Z) (until_idle : bool)
    (live_observe_options : option LiveObserveOptions) : option (Load RuntimeRunnerResult) :=
  match load_graph_file limits path file with
  | Thrown e => Some (Thrown e)
  | Loaded graph =>
      match run_graph env demo_registry compile_fuel fuel graph (demo_run_options steps duration_ms until_idle live_observe_options) with
      | None => None
      | Some o => Some (Loaded (outcome_result o))
      end
  end.

(** ** Lemmas *)
(** The tool registers a component for each of its types, none of them twice. *)
Lemma demo_types_distinct : NoDup ((λ cb, cd_type cb.1) <$> demo_components).
Proof. apply (bool_decide_unpack _). vm_compute. exact Logic.I. Qed.
Lemma demo_registered component behavior : (component, behavior) ∈ demo_components →
  registry_create demo_registry (cd_type component) = inr (class_factory (inr component) (fun _ => DemoComponent behavior)).
Proof.
  intros H. apply list_elem_of_In in H. simpl in H. repeat destruct H as [[= <- <-]|H]; [vm_compute; reflexivity..|done].
Qed.
Lemma demo_factory type f : factories demo_registry !! type = Some f →
  ∃ component behavior, (component, behavior) ∈ demo_components ∧ type = cd_type component ∧
    f = class_factory (inr component) (fun _ => DemoComponent behavior).
Proof.
  assert (∀ l r, (∀ t g, factories r !! t = Some g → ∃ c b, (c, b) ∈ demo_components ∧ t = cd_type c ∧ g = class_factory (inr c) (fun _ => DemoComponent b)) →
    (∀ cb, cb ∈ l → cb ∈ demo_components) →
    ∀ t g, factories (fold_left (fun registry cb => register_demo_component registry cb.1 cb.2) l r) !! t = Some g →
    ∃ c b, (c, b) ∈ demo_components ∧ t = cd_type c ∧ g = class_factory (inr c) (fun _ => DemoComponent b)) as Hfold.
  { induction l as [|[c b] l IH]; intros r Hr Hl; simpl; [done|]. apply IH; [|intros; apply Hl; by right].
    intros t g. unfold register_demo_component, register_component. destruct (str_empty _); [by apply Hr|]. simpl.
    destruct (registrations r !! cd_type c); [by apply Hr|]. simpl. intros [[<- <-]|[_ Hg]]%lookup_insert_Some; [|by apply Hr].
    exists c, b. split; [apply Hl; left|done]. }
  apply Hfold; [|done]. intros t g E. cbn in E. by rewrite lookup_empty in E.
Qed.
Lemma demo_made_of_classes : made_of_classes demo_registry.
Proof. intros type f (c&b&_&_&->)%demo_factory. eexists _, _. split; [done|]. intros moment. split_and!; done. Qed.
