(* ===== verification/CliOutput.v ===== *)
(** * CliOutput: what the command line tool prints

    Models the JSON records and the text reports of [src/tools/topoexec/main.cpp]: validations, plans, runs, metrics, traces,
    explanations and plan comparisons.  A report is a text for the standard output and an exit code.  How a stream prints a
    [double], and how the result of an operation on [double]s is rounded, are arguments. *)

From S2P Require Export CliSupport Json.
Local Open Scope nat_scope.

(** ** JSON records *)
Section json.
Context {Json : Type} `{JsonLib Json}.
Definition diagnostic_category (d : GraphDiagnostic) : string :=
  if str_empty (diag_category d) then graph_diagnostic_category (diag_code d) else diag_category d.
Definition diagnostic_json (d : GraphDiagnostic) : Json :=
  json_object [("code", json_string (diag_code d)); ("severity", json_string (diag_severity d)); ("category", json_string (diagnostic_category d));
    ("message", json_string (diag_message d)); ("graph_path", json_string (diag_graph_path d));
    ("involved_components", json_strings (diag_involved_components d)); ("involved_edges", json_strings (diag_involved_edges d));
    ("suggested_fix", json_string (diag_suggested_fix d))].
Definition diagnostic_categories : list string := ["graph_structure"; "scheduler"; "channel"; "payload"; "trigger"].
Definition grouped_diagnostics (diagnostics : list GraphDiagnostic) : gmap string (list GraphDiagnostic) :=
  fold_left (fun groups d => <[diagnostic_category d := map_at [] groups (diagnostic_category d) ++ [d]]> groups) diagnostics
    (fold_left (fun groups category => <[category := []]> groups) diagnostic_categories ∅).
Definition grouped_diagnostics_json (diagnostics : list GraphDiagnostic) : Json :=
  json_map (fun group => json_array (diagnostic_json <$> group)) (grouped_diagnostics diagnostics).
Definition graph_input_limits_json (limits : GraphInputLimits) : Json :=
  json_object [("max_graph_input_bytes", json_count (max_graph_input_bytes limits)); ("max_lanes", json_count (max_lanes limits));
    ("max_components", json_count (max_components limits)); ("max_edges", json_count (max_edges limits));
    ("max_composite_loops", json_count (max_composite_loops limits)); ("max_identifier_bytes", json_count (max_identifier_bytes limits));
    ("max_config_depth", json_count (max_config_depth limits)); ("max_config_value_bytes", json_count (max_config_value_bytes limits));
    ("max_string_bytes", json_count (max_string_bytes limits)); ("valid_text_encoding", json_string "utf-8")].
Definition edge_policy_json (e : EdgeSpec) : Json :=
  let p := edge_policy e in
  json_object [("id", json_string (edge_id e)); ("from", json_string (edge_from e)); ("to", json_string (edge_to e));
    ("kind", json_string (edge_kind_name (edge_kind e))); ("mode", json_string (policy_mode p)); ("capacity", json_int (policy_capacity p));
    ("overflow", json_string (policy_overflow p)); ("copy_policy", json_string (policy_copy_policy p)); ("readers", json_string (policy_readers p));
    ("slow_reader_drop_risk", json_bool (slow_reader_drop_risk p))].
Definition runtime_metrics_json (r : RuntimeRunnerResult) : Json :=
  json_array ((fun m => json_object [("name", json_string (sample_name m)); ("value", json_number (sample_value m));
    ("component_id", json_string (sample_component_id m)); ("lane", json_string (sample_lane m)); ("channel_id", json_string (sample_channel_id m));
    ("tags", json_strings (sample_tags m))]) <$> out_runtime_metrics r).
Definition runtime_trace_json (r : RuntimeRunnerResult) : Json :=
  json_array ((fun e => json_object [("name", json_string (te_name e)); ("trace_id", json_string (te_trace_id e)); ("phase", json_string (te_phase e));
    ("component_id", json_string (te_component_id e)); ("channel_id", json_string (te_channel_id e)); ("lane", json_string (te_lane e));
    ("worker_id", json_string (te_worker_id e)); ("epoch_id", json_string (te_epoch_id e)); ("transaction_id", json_string (te_transaction_id e));
    ("correlation_id", json_string (te_correlation_id e)); ("causation_id", json_string (te_causation_id e));
    ("start_offset_ns", json_int (te_start_offset_ns e)); ("duration_ns", json_int (te_duration_ns e));
    ("attributes", json_map json_string (te_attributes e))]) <$> out_trace r).
Definition runtime_errors_json (r : RuntimeRunnerResult) : Json :=
  json_array ((fun e => json_object [("phase", json_string (err_phase e)); ("component_id", json_string (err_component_id e));
    ("lane", json_string (err_lane e)); ("message", json_string (err_message e)); ("code", json_string (err_code e));
    ("trace_id", json_string (err_trace_id e)); ("fatal", json_bool (err_fatal e))]) <$> out_runtime_errors r).
Definition runtime_error_messages (r : RuntimeRunnerResult) : list string := err_message <$> out_runtime_errors r.
Definition runtime_health_events_json (r : RuntimeRunnerResult) : Json :=
  json_array ((fun e => json_object [("kind", json_string (health_event_kind_name (he_kind e))); ("source", json_string (he_source e));
    ("component_id", json_string (he_component_id e)); ("lane", json_string (he_lane e)); ("channel_id", json_string (he_channel_id e));
    ("edge_id", json_string (he_edge_id e)); ("policy", json_string (he_policy e)); ("reason", json_string (he_reason e));
    ("sequence", json_count (he_sequence e)); ("depth", json_count (he_depth e)); ("capacity", json_count (he_capacity e));
    ("occurrence_count", json_count (he_occurrence_count e)); ("attributes", json_map json_string (he_attributes e))]) <$> out_health_events r).
Definition normalized_graph_json (graph : GraphSpec) : Json :=
  json_object [("graph_schema_version", json_int kTopoExecSchemaVersion); ("graph_name", json_string (graph_name graph));
    ("components", json_array ((fun c => json_object [("id", json_string (comp_id c)); ("type", json_string (comp_type c));
       ("lane", json_string (exec_lane (execution c)))]) <$> graph_components graph));
    ("edges", json_array ((fun e => json_object [("id", json_string (edge_id e)); ("from", json_string (edge_from e)); ("to", json_string (edge_to e));
       ("kind", json_string (edge_kind_name (edge_kind e))); ("mode", json_string (policy_mode (edge_policy e)));
       ("capacity", json_int (policy_capacity (edge_policy e))); ("overflow", json_string (policy_overflow (edge_policy e)))]) <$> graph_edges graph));
    ("lanes", json_array ((fun l => json_object [("id", json_string (lane_id l)); ("type", json_string (lane_type l)); ("hz", json_number (Finite (lane_hz l)));
       ("max_threads", json_int (lane_max_threads l))]) <$> graph_lanes graph));
    ("composite_loops", json_array ((fun l => json_object [("id", json_string (loop_id l)); ("components", json_strings (loop_components l));
       ("policy", json_string (loop_type (loop_policy l)))]) <$> graph_composite_loops graph))].
Definition region_json (plan : GraphCompiledPlan) : Json :=
  json_array ((fun r => json_object [("id", json_string (region_id r)); ("kind", json_string (region_kind_name (region_kind r)));
    ("components", json_strings (region_components r)); ("incoming_regions", json_strings (incoming_regions r));
    ("outgoing_regions", json_strings (outgoing_regions r))]) <$> plan_regions plan).

(** ** The Chrome trace *)
Definition track_key (e : RuntimeTraceEvent) : string :=
  te_phase e +:+
  (if negb (str_empty (te_channel_id e)) then ":channel:" +:+ te_channel_id e else
   if negb (str_empty (te_lane e)) then ":lane:" +:+ te_lane e else
   if negb (str_empty (te_component_id e)) then ":component:" +:+ te_component_id e else ":runtime").
(** A new track gets the number of tracks so far. *)
Definition track_id_for (tracks : gmap string nat) (e : RuntimeTraceEvent) : gmap string nat * nat :=
  match tracks !! track_key e with
  | Some id => (tracks, id)
  | None => (<[track_key e := size tracks]> tracks, size tracks)
  end.
(** Nanoseconds as microseconds: an integer that becomes a [double], and a division. *)
Definition microseconds (round : QArith_base.Q → QArith_base.Q) (ns : Z) : Double :=
  Finite (round (QArith_base.Qdiv (round (QArith_base.inject_Z ns)) (QArith_base.inject_Z 1000))).
Definition chrome_event_json (round : QArith_base.Q → QArith_base.Q) (tid : nat) (e : RuntimeTraceEvent) : Json :=
  let args := <["lane" := te_lane e]> (<["channel_id" := te_channel_id e]> (<["component_id" := te_component_id e]>
    (<["phase" := te_phase e]> (<["trace_id" := te_trace_id e]> (te_attributes e))))) in
  json_object [("name", json_string (te_name e)); ("cat", json_string "topoexec"); ("ph", json_string "X");
    ("ts", json_number (microseconds round (te_start_offset_ns e))); ("dur", json_number (microseconds round (te_duration_ns e)));
    ("pid", json_int 1); ("tid", json_count tid); ("args", json_map json_string args)].
Fixpoint chrome_tracks (tracks : gmap string nat) (events : list RuntimeTraceEvent) : list (nat * RuntimeTraceEvent) :=
  match events with
  | [] => []
  | e :: rest => let '(tracks, tid) := track_id_for tracks e in (tid, e) :: chrome_tracks tracks rest
  end.
Definition kRuntimeTraceSchemaVersion : string := "1".
Definition chrome_trace_json (round : QArith_base.Q → QArith_base.Q) (r : RuntimeRunnerResult) : Json :=
  json_object [("traceEvents", json_array ((fun te => chrome_event_json round te.1 te.2) <$> chrome_tracks ∅ (out_trace r)));
    ("displayTimeUnit", json_string "ns"); ("trace_schema_version", json_string kRuntimeTraceSchemaVersion)].
End json.

(** ** Reports *)
Section reports.
Context {Json : Type} `{JsonLib Json} (show_double : Double → string).
Definition Report : Type := string * Z.
Definition verdict_line (ok : bool) : string := (if ok then "ok" else "error") +:+ nl.
Definition exit_of (ok : bool) : Z := if ok then 0%Z else 1%Z.
Definition bullet (text : string) : string := "- " +:+ text +:+ nl.
Definition true_false (b : bool) : string := if b then "true" else "false".
(** A validation report leaves errors to the list of errors. *)
Definition diagnostic_line (d : GraphDiagnostic) : string :=
  if str_eqb (diag_severity d) "error" then "" else
  "- " +:+ diag_severity d +:+ " " +:+ diag_code d +:+
  (if negb (str_empty (diag_graph_path d)) then " " +:+ diag_graph_path d else "") +:+ ": " +:+ diag_message d +:+ nl.
Definition print_validation (v : GraphValidationResult) (format : string) : Report :=
  (if str_eqb format "json" then
     json_pretty (json_object [("ok", json_bool (gv_ok v)); ("errors", json_strings (gv_errors v)); ("diagnostics_schema_version", json_string "1");
       ("diagnostics", json_array (diagnostic_json <$> gv_diagnostics v)); ("region_order", json_strings (region_order (gv_plan v)))]) +:+ nl
   else verdict_line (gv_ok v) +:+ out_each bullet (gv_errors v) +:+ out_each diagnostic_line (gv_diagnostics v), exit_of (gv_ok v)).
Definition apply_strict_diagnostics (v : GraphValidationResult) : GraphValidationResult :=
  let warning_codes := diag_code <$> filter (fun d => diag_severity d = "warning") (gv_diagnostics v) in
  if bool_decide (warning_codes = []) then v else
  v <| gv_ok := false |> <| gv_errors ::= fun l => l ++ ((fun code => "strict diagnostics rejected warning: " +:+ code) <$> warning_codes) |>.

Definition runner_result_fields (r : RuntimeRunnerResult) : list (string * Json) :=
  [("ok", json_bool (out_ok r)); ("runtime_errors", runtime_errors_json r); ("graph_name", json_string (out_graph_name r));
   ("component_count", json_count (out_component_count r)); ("channel_count", json_count (out_channel_count r));
   ("tick_calls", json_count (out_tick_calls r)); ("stop_reason", json_string (stop_reason_name (out_scheduler_stop_reason r)));
   ("ticked_components", json_strings (out_ticked_components r)); ("channel_publish_count", json_count (out_channel_publish_count r));
   ("channel_delivery_count", json_count (out_channel_delivery_count r)); ("channel_drop_count", json_count (out_channel_drop_count r));
   ("channel_overwrite_count", json_count (out_channel_overwrite_count r)); ("channel_reject_count", json_count (out_channel_reject_count r));
   ("channel_stale_drop_count", json_count (out_channel_stale_drop_count r));
   ("channel_deadline_miss_count", json_count (out_channel_deadline_miss_count r)); ("payload_copy_count", json_count (out_payload_copy_count r));
   ("staged_publication_count", json_count (out_staged_publication_count r));
   ("committed_publication_count", json_count (out_committed_publication_count r));
   ("delayed_publication_count", json_count (out_delayed_publication_count r)); ("state_publication_count", json_count (out_state_publication_count r));
   ("state_commit_count", json_count (out_state_commit_count r)); ("async_publication_count", json_count (out_async_publication_count r));
   ("failed_publication_commit_count", json_count (out_failed_publication_commit_count r)); ("health_event_count", json_count (out_health_event_count r));
   ("health_event_dropped_count", json_count (out_health_event_dropped_count r));
   ("health_event_coalesced_count", json_count (out_health_event_coalesced_count r)); ("health_events", runtime_health_events_json r);
   ("trace_event_count", json_count (out_trace_event_count r)); ("trace_schema_version", json_string kRuntimeTraceSchemaVersion);
   ("trace", runtime_trace_json r); ("loop_iteration_count", json_count (out_loop_iteration_count r));
   ("loop_converged_count", json_count (out_loop_converged_count r)); ("loop_budget_overrun_count", json_count (out_loop_budget_overrun_count r));
   ("loop_max_iteration_hit_count", json_count (out_loop_max_iteration_hit_count r));
   ("loop_output_discarded_count", json_count (out_loop_output_discarded_count r)); ("loop_last_residual", json_map json_number (out_loop_last_residual r));
   ("loop_stop_reason", json_map json_string (out_loop_stop_reason r)); ("metric_schema_version", json_string "1"); ("metrics", runtime_metrics_json r)].
Definition runner_result_json (r : RuntimeRunnerResult) : Json := json_object (runner_result_fields r).
Definition count_line (separator name : string) (n : nat) : string := name +:+ separator +:+ to_string_nat n +:+ nl.
Definition channel_lines (separator : string) (r : RuntimeRunnerResult) : string :=
  out_each (fun kv : string * nat => count_line separator kv.1 kv.2)
    [("channel_publish_count", out_channel_publish_count r); ("channel_delivery_count", out_channel_delivery_count r);
     ("channel_drop_count", out_channel_drop_count r); ("channel_overwrite_count", out_channel_overwrite_count r);
     ("channel_reject_count", out_channel_reject_count r); ("channel_stale_drop_count", out_channel_stale_drop_count r);
     ("channel_deadline_miss_count", out_channel_deadline_miss_count r); ("health_event_count", out_health_event_count r)].
Definition print_runner_result (r : RuntimeRunnerResult) (format : string) : Report :=
  (if str_eqb format "json" then json_pretty (runner_result_json r) +:+ nl
   else verdict_line (out_ok r) +:+ "graph: " +:+ out_graph_name r +:+ nl +:+ count_line ": " "ticks" (out_tick_calls r) +:+
     "stop_reason: " +:+ stop_reason_name (out_scheduler_stop_reason r) +:+ nl +:+ "order: " +:+ CliSupport.join (out_ticked_components r) +:+ nl +:+
     channel_lines ": " r +:+ count_line ": " "runtime_publication_committed" (out_committed_publication_count r) +:+
     out_each bullet (runtime_error_messages r), exit_of (out_ok r)).
Definition print_metrics_result (r : RuntimeRunnerResult) (format : string) : Report :=
  (if str_eqb format "json" then json_pretty (runner_result_json r) +:+ nl
   else verdict_line (out_ok r) +:+ out_each (fun m => sample_name m +:+ "=" +:+ show_double (sample_value m) +:+ nl) (out_runtime_metrics r) +:+
     channel_lines "=" r +:+ count_line "=" "health_event_dropped_count" (out_health_event_dropped_count r), exit_of (out_ok r)).
Definition print_trace_result (round : QArith_base.Q → QArith_base.Q) (r : RuntimeRunnerResult) (format : string) : Report :=
  (if str_eqb format "chrome" then json_pretty (chrome_trace_json round r) +:+ nl
   else if str_eqb format "json" then
     json_pretty (json_object [("ok", json_bool (out_ok r)); ("runtime_errors", runtime_errors_json r); ("graph_name", json_string (out_graph_name r));
       ("trace_event_count", json_count (out_trace_event_count r)); ("trace_schema_version", json_string kRuntimeTraceSchemaVersion);
       ("trace", runtime_trace_json r)]) +:+ nl
   else verdict_line (out_ok r) +:+ out_each (fun e => te_name e +:+ nl) (out_trace r) +:+ out_each bullet (runtime_error_messages r), exit_of (out_ok r)).

Definition grouped_line (d : GraphDiagnostic) : string :=
  "  - " +:+ diag_severity d +:+ " " +:+ diag_code d +:+ " " +:+ diag_graph_path d +:+ ": " +:+ diag_message d +:+ nl.
Definition group_text (groups : gmap string (list GraphDiagnostic)) (category : string) : string :=
  match map_at [] groups category with [] => "" | group => "- " +:+ category +:+ ":" +:+ nl +:+ out_each grouped_line group end.
Definition print_explain (graph : GraphSpec) (v : GraphValidationResult) (format : string) : Report :=
  (if str_eqb format "json" then
     json_pretty (json_object [("ok", json_bool (gv_ok v)); ("errors", json_strings (gv_errors v)); ("graph_name", json_string (graph_name graph));
       ("semantics", json_object [
         ("publish", json_string "GraphContext::publish stages output; scheduler/runtime commit decides visibility");
         ("immediate", json_string "visible during the current epoch according to compiled region order");
         ("delay", json_string "visible at the next epoch boundary");
         ("state", json_string "staged during the current epoch and committed at the next epoch boundary");
         ("async", json_string "deferred to a later epoch; no recursive downstream execution")]);
       ("edge_policies", json_array (edge_policy_json <$> graph_edges graph)); ("diagnostics_schema_version", json_string "1");
       ("diagnostic_groups", grouped_diagnostics_json (gv_diagnostics v)); ("region_order", json_strings (region_order (gv_plan v)))]) +:+ nl
   else "graph: " +:+ graph_name graph +:+ nl +:+ "publish: staged by runtime; never directly executes downstream components" +:+ nl +:+
     "immediate: current epoch by compiled region order" +:+ nl +:+ "delay/state/async: deferred to next epoch boundary" +:+ nl +:+
     (if bool_decide (length (gv_diagnostics v) = 0) then "" else
      "diagnostics:" +:+ nl +:+ out_each (group_text (grouped_diagnostics (gv_diagnostics v))) diagnostic_categories) +:+
     graph_plan_text graph (gv_plan v), exit_of (gv_ok v)).
Definition print_diff_plan (left right : GraphValidationResult) (format : string) : Report :=
  let same_region_order := bool_decide (region_order (gv_plan left) = region_order (gv_plan right)) in
  let same_component_regions := bool_decide (component_region (gv_plan left) = component_region (gv_plan right)) in
  let ok := gv_ok left && gv_ok right in
  (if str_eqb format "json" then
     json_pretty (json_object [("ok", json_bool ok); ("left_errors", json_strings (gv_errors left)); ("right_errors", json_strings (gv_errors right));
       ("same_region_order", json_bool same_region_order); ("same_component_regions", json_bool same_component_regions);
       ("left_region_order", json_strings (region_order (gv_plan left))); ("right_region_order", json_strings (region_order (gv_plan right)));
       ("left_regions", region_json (gv_plan left)); ("right_regions", region_json (gv_plan right))]) +:+ nl
   else verdict_line ok +:+ "same_region_order: " +:+ true_false same_region_order +:+ nl +:+ "same_component_regions: " +:+
     true_false same_component_regions +:+ nl +:+ "left_order: " +:+ CliSupport.join (region_order (gv_plan left)) +:+ nl +:+
     "right_order: " +:+ CliSupport.join (region_order (gv_plan right)) +:+ nl, exit_of ok).
End reports.
