(* ===== verification/CliLint.v ===== *)
(** * CliLint: the lint rules of the command line tool

    Models [lint_graph], [print_lint_findings] and the helpers behind them of [src/tools/topoexec/main.cpp], and shows what
    they report.  [std::map]s keep the last of several entries with one key.  The division that gives the period of a lane is
    rounded; the rounding is an argument. *)

From S2P Require Export CliSupport Json ValidateFacts.
From Stdlib Require Import QArith.
Local Open Scope nat_scope.

Record LintFinding := mkFinding { finding_severity : string; finding_rule : string; finding_message : string; finding_id : string }.
Definition is_error (f : LintFinding) : bool := str_eqb (finding_severity f) "error".

(** ** Maps *)
Definition index_last {A B} (key : A → string) (value : A → B) (l : list A) : gmap string B :=
  fold_left (fun m x => <[key x := value x]> m) l ∅.
Definition last_with {A} (key : A → string) (k : string) (l : list A) : option A := List.find (fun x => str_eqb (key x) k) (reverse l).

(** ** The rules *)
Section lint.
Context (round : Q → Q) (stod : string → option (Double * nat)) (registry : option (ComponentRegistry ComponentFactory)).
Definition validation_findings (graph : GraphSpec) (validation : GraphValidationResult) : list LintFinding :=
  match gv_diagnostics validation with
  | [] => (fun error => mkFinding "error" "validation" error (graph_name graph)) <$> gv_errors validation
  | _ =>
      (fun d => mkFinding (diag_severity d) (diag_code d) (diag_message d)
                  (if str_empty (diag_graph_path d) then graph_name graph else diag_graph_path d)) <$>
        filter (fun d => diag_severity d = "error") (gv_diagnostics validation)
  end.
(** [registry->create(component.type)->describe()], where it does not throw. *)
Definition lint_descriptor (r : ComponentRegistry ComponentFactory) (c : ComponentNodeSpec) : option ComponentDescriptor :=
  if negb (registry_contains r (comp_type c)) then None else
  match registry_create r (comp_type c) with
  | inl _ => None
  | inr f => match factory_probe f with inl _ => None | inr d => Some d end
  end.
Definition lint_descriptors (graph : GraphSpec) : gmap string ComponentDescriptor :=
  match registry with
  | None => ∅
  | Some r =>
      fold_left (fun m c => match lint_descriptor r c with Some d => <[comp_id c := d]> m | None => m end) (graph_components graph) ∅
  end.
Definition finding_if (b : bool) (severity rule message id : string) : list LintFinding :=
  if b then [mkFinding severity rule message id] else [].
Definition blocks_event_loop (component_lane : gmap string string) (lanes : gmap string LaneSpec) (edge : EdgeSpec) : bool :=
  str_eqb (policy_overflow (edge_policy edge)) "block" &&
  match lanes !! map_at "" component_lane (component_id_from_endpoint (edge_to edge)) with
  | Some lane => str_eqb (lane_type lane) "event_loop"
  | None => false
  end.
Definition copies_large_payload (descriptors : gmap string ComponentDescriptor) (edge : EdgeSpec) : bool :=
  str_eqb (policy_copy_policy (edge_policy edge)) "copy" &&
  match descriptors !! component_id_from_endpoint (edge_from edge) with
  | Some d =>
      match find_port (cd_outputs d) (port_name_from_endpoint (edge_from edge)) with
      | Some port => is_large_payload_schema (port_schema port)
      | None => false
      end
  | None => false
  end.
Definition edge_findings (component_lane : gmap string string) (lanes : gmap string LaneSpec) (descriptors : gmap string ComponentDescriptor)
    (edge : EdgeSpec) : list LintFinding :=
  let p := edge_policy edge in let id := edge_id edge in
  finding_if (1024 <? policy_capacity p)%Z "warning" "suspicious_capacity" "edge capacity is unusually high for an in-process runtime" id ++
  finding_if (blocks_event_loop component_lane lanes edge) "warning" "blocking_overflow_event_loop"
    "blocking overflow can stall a single-thread event_loop" id ++
  finding_if (bool_decide (edge_kind edge = kAsync) && (policy_max_inflight p <=? 0)%Z && (policy_capacity p <=? 1)%Z)
    "info" "async_capacity" "async edge uses capacity <= 1; excess completions may be dropped" id ++
  finding_if (bool_decide (edge_kind edge = kDelay)) "info" "delay_epoch_boundary" "delay edge becomes visible at the next epoch boundary" id ++
  finding_if (slow_reader_drop_risk p) "info" "slow_reader_drop_risk"
    "multi-reader edge keeps only bounded history; slow readers can miss dropped messages" id ++
  finding_if (str_eqb (policy_copy_policy p) "loaned_view" && negb (str_eqb (policy_owner p) "producer")) "warning" "loaned_view_without_pool_owner"
    "loaned_view should declare owner: producer until pool-return callbacks exist" id ++
  finding_if (copies_large_payload descriptors edge) "warning" "large_payload_copy"
    "large payload output uses copy policy; use shared_view or loaned_view" id.
(** [++state_writers[edge.to]] for every state edge. *)
Definition count_writer (writers : gmap string nat) (edge : EdgeSpec) : gmap string nat :=
  if bool_decide (edge_kind edge = kState) then <[edge_to edge := S (map_at 0 writers (edge_to edge))]> writers else writers.
Definition writer_findings (writers : gmap string nat) : list LintFinding :=
  map_items writers ≫= fun tc =>
    finding_if (1 <? tc.2) "warning" "state_multiple_writers" ("state target has multiple writers: " +:+ tc.1) tc.1.
Definition exceeds_period (lanes : gmap string LaneSpec) (c : ComponentNodeSpec) : bool :=
  match lanes !! exec_lane (execution c) with
  | None => false
  | Some lane =>
      if Qle_bool (lane_hz lane) 0 || (exec_budget_ms (execution c) <=? 0)%Z then false
      else negb (Qle_bool (inject_Z (exec_budget_ms (execution c))) (round (1000 / lane_hz lane)))
  end.
Definition budget_findings (lanes : gmap string LaneSpec) (c : ComponentNodeSpec) : list LintFinding :=
  finding_if (exceeds_period lanes c) "warning" "budget_exceeds_lane_period" ("component budget exceeds lane period: " +:+ comp_id c) (comp_id c).
(** [None]: the compiler behind the validation runs out of fuel. *)
Definition lint_graph (compile_fuel : nat) (graph : GraphSpec) : option (list LintFinding) :=
  match validate_graph stod None factory_probe compile_fuel graph with
  | None => None
  | Some validation =>
      let component_lane := index_last comp_id (fun c => exec_lane (execution c)) (graph_components graph) in
      let lanes := index_last lane_id id (graph_lanes graph) in
      let descriptors := lint_descriptors graph in
      Some (validation_findings graph validation ++
        (graph_edges graph ≫= edge_findings component_lane lanes descriptors) ++
        writer_findings (fold_left count_writer (graph_edges graph) ∅) ++
        (graph_components graph ≫= budget_findings lanes))
  end.
End lint.

(** ** Output *)
Section output.
Context {Json : Type} `{JsonLib Json}.
Definition finding_json (f : LintFinding) : Json :=
  json_object [("severity", json_string (finding_severity f)); ("rule", json_string (finding_rule f));
    ("message", json_string (finding_message f)); ("id", json_string (finding_id f))].
Definition finding_text (f : LintFinding) : string :=
  finding_severity f +:+ " " +:+ finding_rule f +:+ " " +:+ finding_id f +:+ ": " +:+ finding_message f +:+ nl.
(** What is written to the standard output, and the exit code. *)
Definition print_lint_findings (findings : list LintFinding) (format : string) : string * Z :=
  (if str_eqb format "json" then
     json_pretty (json_object [("ok", json_bool (negb (existsb is_error findings))); ("findings", json_array (finding_json <$> findings))]) +:+ nl
   else (if bool_decide (findings = []) then "ok" +:+ nl else "") +:+ out_each finding_text findings,
   if existsb is_error findings then 1%Z else 0%Z).
End output.

(** ** Maps *)
Lemma index_last_lookup {A B} (key : A → string) (value : A → B) l k : index_last key value l !! k = value <$> last_with key k l.
Proof.
  unfold index_last, last_with. induction l as [|x l IH] using rev_ind; [by apply lookup_empty|].
  rewrite fold_left_app, reverse_app. simpl. destruct (str_eqb (key x) k) eqn:E.
  - apply str_eqb_eq in E as <-. by rewrite lookup_insert_eq.
  - rewrite lookup_insert_ne; [done|]. intros <-. by rewrite str_eqb_refl in E.
Qed.
Lemma last_with_Some {A} (key : A → string) k l x : last_with key k l = Some x → x ∈ l ∧ key x = k.
Proof. intros [Hin E%str_eqb_eq]%find_some. split; [|done]. apply list_elem_of_In in Hin. by apply elem_of_reverse. Qed.
Lemma last_with_distinct {A} (key : A → string) l x : NoDup (key <$> l) → x ∈ l → last_with key (key x) l = Some x.
Proof.
  intros Hn Hx. unfold last_with. destruct (List.find _ _) as [y|] eqn:E.
  - apply find_some in E as [Hy E%str_eqb_eq]. apply list_elem_of_In in Hy; rewrite elem_of_reverse in Hy. f_equal.
    apply list_elem_of_lookup in Hx as [i Hi], Hy as [j Hj]. assert (i = j) as <-; [|rewrite Hi in Hj; by injection Hj].
    eapply NoDup_lookup; [exact Hn|..]; rewrite list_lookup_fmap; [by rewrite Hi|by rewrite Hj, <- E].
  - exfalso. apply elem_of_reverse, list_elem_of_In in Hx. eapply find_none in Hx; [|exact E]. simpl in Hx. by rewrite str_eqb_refl in Hx.
Qed.
Lemma count_writer_at writers e t : map_at 0 (count_writer writers e) t = map_at 0 writers t + (if decide (is_state_to t e) then 1 else 0).
Proof.
  unfold count_writer. destruct (decide (edge_kind e = kState)) as [Hk|Hk].
  - rewrite bool_decide_true by done. destruct (decide (edge_to e = t)) as [<-|Ht].
    + rewrite map_at_insert_eq, decide_True by done. lia.
    + rewrite map_at_insert_ne by done. rewrite decide_False; [lia|]. intros H. by apply Ht, H.
  - rewrite bool_decide_false by done. rewrite decide_False; [lia|]. intros H. by apply Hk, H.
Qed.
Lemma count_writers edges t : map_at 0 (fold_left count_writer edges ∅) t = length (filter (is_state_to t) edges).
Proof.
  induction edges as [|e edges IH] using rev_ind; [done|]. rewrite fold_left_app, filter_app, length_app. simpl.
  rewrite count_writer_at, IH, filter_cons. by destruct (decide _).
Qed.

(** ** The rules, stated *)
Section rules.
Context (round : Q → Q) (stod : string → option (Double * nat)) (registry : option (ComponentRegistry ComponentFactory)).
Context (graph : GraphSpec).
Definition lane_named (id : string) : option LaneSpec := last_with lane_id id (graph_lanes graph).
(** The lane of a component; a component that does not exist has the empty one. *)
Definition lane_of_component (id : string) : string := default "" (exec_lane ∘ execution <$> last_with comp_id id (graph_components graph)).
Definition described_components : list (string * ComponentDescriptor) :=
  omap (λ c, pair (comp_id c) <$> (registry ≫= λ r, lint_descriptor r c)) (graph_components graph).
Definition descriptor_of (id : string) : option ComponentDescriptor := snd <$> last_with fst id described_components.
Inductive lint_reports (validation : GraphValidationResult) : LintFinding → Prop :=
| reports_error d : d ∈ gv_diagnostics validation → diag_severity d = "error" →
    lint_reports validation (mkFinding "error" (diag_code d) (diag_message d) (if str_empty (diag_graph_path d) then graph_name graph else diag_graph_path d))
| reports_capacity e : e ∈ graph_edges graph → (1024 < policy_capacity (edge_policy e))%Z →
    lint_reports validation (mkFinding "warning" "suspicious_capacity" "edge capacity is unusually high for an in-process runtime" (edge_id e))
| reports_blocking e lane : e ∈ graph_edges graph → policy_overflow (edge_policy e) = "block" →
    lane_named (lane_of_component (component_id_from_endpoint (edge_to e))) = Some lane → lane_type lane = "event_loop" →
    lint_reports validation (mkFinding "warning" "blocking_overflow_event_loop" "blocking overflow can stall a single-thread event_loop" (edge_id e))
| reports_async e : e ∈ graph_edges graph → edge_kind e = kAsync → (policy_max_inflight (edge_policy e) <= 0)%Z →
    (policy_capacity (edge_policy e) <= 1)%Z →
    lint_reports validation (mkFinding "info" "async_capacity" "async edge uses capacity <= 1; excess completions may be dropped" (edge_id e))
| reports_delay e : e ∈ graph_edges graph → edge_kind e = kDelay →
    lint_reports validation (mkFinding "info" "delay_epoch_boundary" "delay edge becomes visible at the next epoch boundary" (edge_id e))
| reports_slow_reader e : e ∈ graph_edges graph → policy_readers (edge_policy e) ∈ ["multi"; "multiple"] →
    policy_overflow (edge_policy e) ∈ ["drop_oldest"; "overwrite"] →
    lint_reports validation (mkFinding "info" "slow_reader_drop_risk" "multi-reader edge keeps only bounded history; slow readers can miss dropped messages" (edge_id e))
| reports_loan e : e ∈ graph_edges graph → policy_copy_policy (edge_policy e) = "loaned_view" → policy_owner (edge_policy e) ≠ "producer" →
    lint_reports validation (mkFinding "warning" "loaned_view_without_pool_owner" "loaned_view should declare owner: producer until pool-return callbacks exist" (edge_id e))
| reports_copy e d port : e ∈ graph_edges graph → policy_copy_policy (edge_policy e) = "copy" →
    descriptor_of (component_id_from_endpoint (edge_from e)) = Some d → find_port (cd_outputs d) (port_name_from_endpoint (edge_from e)) = Some port →
    port_schema port ∈ [kFrameViewPayloadSchema; kBinaryBlobPayloadSchema] →
    lint_reports validation (mkFinding "warning" "large_payload_copy" "large payload output uses copy policy; use shared_view or loaned_view" (edge_id e))
| reports_writers target : 1 < length (filter (is_state_to target) (graph_edges graph)) →
    lint_reports validation (mkFinding "warning" "state_multiple_writers" ("state target has multiple writers: " +:+ target) target)
| reports_budget c lane : c ∈ graph_components graph → lane_named (exec_lane (execution c)) = Some lane → (0 < lane_hz lane)%Q →
    (0 < exec_budget_ms (execution c))%Z → (round (1000 / lane_hz lane) < inject_Z (exec_budget_ms (execution c)))%Q →
    lint_reports validation (mkFinding "warning" "budget_exceeds_lane_period" ("component budget exceeds lane period: " +:+ comp_id c) (comp_id c)).

(** ** The rules, computed *)
Lemma finding_if_spec b severity rule message id f :
  f ∈ finding_if b severity rule message id ↔ b = true ∧ f = mkFinding severity rule message id.
Proof. destruct b; simpl; [rewrite list_elem_of_singleton|rewrite elem_of_nil]; naive_solver. Qed.
Lemma lanes_lookup id : index_last lane_id Datatypes.id (graph_lanes graph) !! id = lane_named id.
Proof. rewrite index_last_lookup. unfold lane_named. by destruct (last_with _ _ _). Qed.
Lemma component_lane_at id : map_at "" (index_last comp_id (λ c, exec_lane (execution c)) (graph_components graph)) id = lane_of_component id.
Proof. unfold map_at. rewrite index_last_lookup. done. Qed.
Lemma descriptors_lookup id : lint_descriptors registry graph !! id = descriptor_of id.
Proof.
  unfold descriptor_of. rewrite <- (index_last_lookup fst snd). unfold lint_descriptors, described_components, index_last.
  destruct registry as [r|].
  - generalize (∅ : gmap string ComponentDescriptor). induction (graph_components graph) as [|c cs IH]; intros m; [done|]. simpl.
    destruct (lint_descriptor r c); simpl; apply IH.
  - induction (graph_components graph) as [|c cs IH]; [done|exact IH].
Qed.
Lemma blocks_spec e : blocks_event_loop (index_last comp_id (λ c, exec_lane (execution c)) (graph_components graph))
    (index_last lane_id Datatypes.id (graph_lanes graph)) e = true ↔
  policy_overflow (edge_policy e) = "block" ∧ ∃ lane, lane_named (lane_of_component (component_id_from_endpoint (edge_to e))) = Some lane ∧
    lane_type lane = "event_loop".
Proof.
  unfold blocks_event_loop. rewrite andb_true_iff, str_eqb_eq, component_lane_at, lanes_lookup.
  destruct (lane_named _) as [lane|]; [rewrite str_eqb_eq|]; naive_solver.
Qed.
Lemma copies_spec e : copies_large_payload (lint_descriptors registry graph) e = true ↔
  policy_copy_policy (edge_policy e) = "copy" ∧ ∃ d port, descriptor_of (component_id_from_endpoint (edge_from e)) = Some d ∧
    find_port (cd_outputs d) (port_name_from_endpoint (edge_from e)) = Some port ∧ port_schema port ∈ [kFrameViewPayloadSchema; kBinaryBlobPayloadSchema].
Proof.
  unfold copies_large_payload. rewrite andb_true_iff, str_eqb_eq, descriptors_lookup. destruct (descriptor_of _) as [d|].
  - destruct (find_port _ _) as [port|] eqn:E.
    + unfold is_large_payload_schema. rewrite one_of_spec. split; [intros [? ?]; split; [done|by exists d, port]|].
      intros (?&d'&port'&[= <-]&Hp&?). rewrite E in Hp. by injection Hp as ->.
    + split; [by intros [_ ?]|]. intros (_&d'&port'&[= <-]&Hp&_). by rewrite E in Hp.
  - split; [by intros [_ ?]|]. by intros (_&d'&port'&?&_).
Qed.
Lemma slow_reader_spec p : slow_reader_drop_risk p = true ↔ policy_readers p ∈ ["multi"; "multiple"] ∧ policy_overflow p ∈ ["drop_oldest"; "overwrite"].
Proof.
  unfold slow_reader_drop_risk, is_multi_reader_value. rewrite andb_true_iff, !orb_true_iff, !str_eqb_eq, !elem_of_cons, !elem_of_nil. tauto.
Qed.
Lemma exceeds_spec c : exceeds_period round (index_last lane_id Datatypes.id (graph_lanes graph)) c = true ↔
  ∃ lane, lane_named (exec_lane (execution c)) = Some lane ∧ (0 < lane_hz lane)%Q ∧ (0 < exec_budget_ms (execution c))%Z ∧
    (round (1000 / lane_hz lane) < inject_Z (exec_budget_ms (execution c)))%Q.
Proof.
  unfold exceeds_period. rewrite lanes_lookup. destruct (lane_named _) as [lane|]; [|split; [done|by intros (?&?&_)]].
  assert ((∃ l, Some lane = Some l ∧ (0 < lane_hz l)%Q ∧ (0 < exec_budget_ms (execution c))%Z ∧
    (round (1000 / lane_hz l) < inject_Z (exec_budget_ms (execution c)))%Q) ↔ (0 < lane_hz lane)%Q ∧ (0 < exec_budget_ms (execution c))%Z ∧
    (round (1000 / lane_hz lane) < inject_Z (exec_budget_ms (execution c)))%Q) as -> by (split; [by intros (l&[= <-]&H)|intros H; by exists lane]).
  assert (∀ a b, negb (Qle_bool a b) = true ↔ (b < a)%Q) as Hlt.
  { intros a b. rewrite negb_true_iff, <- not_true_iff_false, Qle_bool_iff. split; [apply Qnot_le_lt|apply Qlt_not_le]. }
  rewrite <- !Hlt. destruct (Qle_bool (lane_hz lane) 0); simpl; [split; [done|by intros [? _]]|]. destruct (Z.leb_spec (exec_budget_ms (execution c)) 0); [|tauto].
  split; [done|]. intros (_&?&_). lia.
Qed.
Lemma writer_findings_spec f : f ∈ writer_findings (fold_left count_writer (graph_edges graph) ∅) ↔
  ∃ target, 1 < length (filter (is_state_to target) (graph_edges graph)) ∧
    f = mkFinding "warning" "state_multiple_writers" ("state target has multiple writers: " +:+ target) target.
Proof.
  unfold writer_findings. rewrite list_elem_of_bind. split.
  - intros ([t n]&Hf&Hin). apply finding_if_spec in Hf as [Hn ->]. apply elem_of_map_items in Hin. exists t. split; [|done].
    apply Nat.ltb_lt in Hn. rewrite <- count_writers. unfold map_at. by rewrite Hin.
  - intros (t&Hn&->). rewrite <- count_writers in Hn. unfold map_at in Hn. destruct (fold_left _ _ _ !! t) as [n|] eqn:E; [|simpl in Hn; lia].
    exists (t, n). split; [|by apply elem_of_map_items]. apply finding_if_spec. split; [by apply Nat.ltb_lt|done].
Qed.
Lemma edge_findings_spec validation e f : e ∈ graph_edges graph →
  f ∈ edge_findings (index_last comp_id (λ c, exec_lane (execution c)) (graph_components graph)) (index_last lane_id Datatypes.id (graph_lanes graph))
        (lint_descriptors registry graph) e → lint_reports validation f.
Proof.
  intros He. unfold edge_findings. rewrite !elem_of_app, !finding_if_spec, blocks_spec, copies_spec, slow_reader_spec.
  rewrite !andb_true_iff, negb_true_iff, <- not_true_iff_false, !str_eqb_eq, !bool_decide_eq_true, Z.ltb_lt, !Z.leb_le.
  intros [[? ->]|[[(?&lane&?&?) ->]|[[[[? ?] ?] ->]|[[? ->]|[[[? ?] ->]|[[[? ?] ->]|[(?&d&port&?&?&?) ->]]]]]]].
  - by apply reports_capacity.
  - by apply (reports_blocking _ e lane).
  - by apply reports_async.
  - by apply reports_delay.
  - by apply reports_slow_reader.
  - by apply reports_loan.
  - by apply (reports_copy _ e d port).
Qed.
Lemma validation_findings_spec validation f : well_reported validation → f ∈ validation_findings graph validation ↔
  ∃ d, d ∈ gv_diagnostics validation ∧ diag_severity d = "error" ∧
    f = mkFinding "error" (diag_code d) (diag_message d) (if str_empty (diag_graph_path d) then graph_name graph else diag_graph_path d).
Proof.
  intros Hw. unfold validation_findings. destruct (gv_diagnostics validation) as [|d0 ds] eqn:E.
  - pose proof (wr_errors _ Hw) as He. rewrite E in He. rewrite He. simpl. split; [by intros ?%elem_of_nil|by intros (?&?%elem_of_nil&_)].
  - rewrite list_elem_of_fmap. setoid_rewrite list_elem_of_filter. split.
    + intros (d&->&Hs&Hd). exists d. split; [done|]. split; [done|]. by rewrite Hs.
    + intros (d&Hd&Hs&->). exists d. by rewrite Hs.
Qed.
Lemma errors_spec validation : well_reported validation → gv_ok validation = false ↔ ∃ d, d ∈ gv_diagnostics validation ∧ diag_severity d = "error".
Proof.
  intros Hw. rewrite <- not_true_iff_false, (wr_ok _ Hw), (wr_errors _ Hw). split.
  - intros H. destruct (filter _ (gv_diagnostics validation)) as [|d ds] eqn:E; [done|].
    assert (d ∈ filter (λ d, diag_severity d = "error") (gv_diagnostics validation)) as [? ?]%list_elem_of_filter by (rewrite E; left). by exists d.
  - intros (d&Hd&Hs) H. assert (d ∈ filter (λ d, diag_severity d = "error") (gv_diagnostics validation)) as Hin by (by apply list_elem_of_filter).
    apply fmap_nil_inv in H. rewrite H in Hin. by apply elem_of_nil in Hin.
Qed.
Lemma lint_spec fuel validation : validate_graph stod None factory_probe fuel graph = Some validation → well_reported validation →
  ∃ findings, lint_graph round stod registry fuel graph = Some findings ∧ ∀ f, f ∈ findings ↔ lint_reports validation f.
Proof.
  intros Hv Hw. unfold lint_graph. rewrite Hv. eexists. split; [reflexivity|]. intros f.
  rewrite !elem_of_app, validation_findings_spec, writer_findings_spec, !list_elem_of_bind by done. split.
  - intros [(d&?&?&->)|[(e&Hf&He)|[(t&Ht&->)|(c&Hf&Hc)]]].
    + by apply reports_error.
    + by eapply edge_findings_spec.
    + by apply reports_writers.
    + apply finding_if_spec in Hf as [(lane&?&?&?&?)%exceeds_spec ->]. by apply (reports_budget _ c lane).
  - assert (∀ e b severity rule message, e ∈ graph_edges graph → b = true → f = mkFinding severity rule message (edge_id e) →
      f ∈ finding_if b severity rule message (edge_id e)) as Hf by (intros; subst; by apply finding_if_spec).
    intros []; [left; by eexists| | | | | | | |right; right; left; by eexists|right; right; right].
    all: try (right; left; exists e; split; [|done]; unfold edge_findings; rewrite !elem_of_app, !finding_if_spec, blocks_spec, copies_spec, slow_reader_spec;
      rewrite !andb_true_iff, negb_true_iff, <- not_true_iff_false, !str_eqb_eq, !bool_decide_eq_true, Z.ltb_lt, !Z.leb_le).
    + by left.
    + right. left. split; [|done]. split; [done|]. by exists lane.
    + do 2 right. by left.
    + do 3 right. by left.
    + do 4 right. by left.
    + do 5 right. by left.
    + do 6 right. split; [|done]. split; [done|]. by exists d, port.
    + exists c. split; [|done]. apply finding_if_spec. split; [|done]. apply exceeds_spec. by exists lane.
Qed.
End rules.

(** ** A graph with findings *)
Definition lint_sample : GraphSpec :=
  with_edges [mkEdge "e" "a.out" "b.in" kDelay true "" (mkEdgePolicy "latest" 2000 "overwrite" 0 0 0 true true true "steady" "copy" "runtime" "single")] loop_graph.
