(* ===== verification/CliObserve.v ===== *)
(** * CliObserve: the observe command

    Models the live event records, the output filter, the live assertions and [print_observe_result] of
    [src/tools/topoexec/main.cpp].  Assertion files are YAML documents, read through [YamlLib]; [SizeLib] is the conversion to
    [std::size_t].  [round] rounds a sum of doubles; [out_of_range] is what the machine makes of the conversion of a [double]
    that no [std::size_t] represents, which the language leaves undefined. *)

From S2P Require Export CliOutput.
From Stdlib Require QArith Qabs.
Local Open Scope nat_scope.

(** ** Names of encoded values *)
Definition live_kinds : list (LiveEventKind * string) :=
  [(kRunStarted, "run_started"); (kRunFinished, "run_finished"); (kSchedulerEpochBegin, "scheduler_epoch_begin");
   (kSchedulerEpochEnd, "scheduler_epoch_end"); (kComponentBegin, "component_begin"); (kComponentEnd, "component_end");
   (kComponentError, "component_error"); (kChannelPublishSummary, "channel_publish_summary"); (kChannelCommitSummary, "channel_commit_summary");
   (kChannelDrop, "channel_drop"); (kChannelReject, "channel_reject"); (kChannelOverwrite, "channel_overwrite");
   (kTriggerReadySummary, "trigger_ready_summary"); (kTriggerSuppressedSummary, "trigger_suppressed_summary"); (kAsyncAdmission, "async_admission");
   (kAsyncReject, "async_reject"); (kAsyncDrop, "async_drop"); (kLoopIterationBegin, "loop_iteration_begin");
   (kLoopIterationEnd, "loop_iteration_end"); (kLoopConverged, "loop_converged"); (kLoopBudgetOverrun, "loop_budget_overrun");
   (kLoopMaxIterationsHit, "loop_max_iterations_hit"); (kLoopError, "loop_error"); (LiveObserve.kHealthEvent, "health_event");
   (LiveObserve.kRuntimeError, "runtime_error"); (kObserverDropSummary, "observer_drop_summary")].
(** [switch (static_cast<Kind>(kind))]. *)
Definition live_kind_name (kind : Z) : string :=
  match List.find (fun kn => (encode_kind kn.1 =? kind)%Z) live_kinds with Some kn => kn.2 | None => "unknown" end.
Definition live_exactness_name (exactness : Z) : string :=
  match exactness with 1 => "exact" | 2 => "aggregated" | 3 => "sampled" | 4 => "lossy" | 5 => "partial" | _ => "partial" end%Z.
Definition live_severity_name (severity : Z) : string :=
  match severity with 1 => "trace" | 2 => "debug" | 3 => "info" | 4 => "warning" | 5 => "error" | _ => "info" end%Z.
Definition parse_live_observe_level (level : string) : Cli LiveObserveLevel :=
  if str_eqb level "off" then inr kOff else
  if str_eqb level "summary" then inr kSummary else
  if str_eqb level "detailed" then inr kDetailed else
  if str_eqb level "debug" then inr kDebugLevel else inl ("unknown observe level: " +:+ level).

(** ** The symbol table *)
Section symbols.
Context {Json : Type} `{JsonLib Json}.
(** The names with their ids: 1, 2, ... in 32 bits. *)
Fixpoint numbered (id : Z) (names : list string) : list (Z * string) :=
  match names with [] => [] | name :: rest => (id, name) :: numbered (u32 (id + 1)) rest end.
Definition id_map (names : list string) : Json := json_object ((λ p, (to_string_Z p.1, json_string p.2)) <$> numbered 1 names).
Definition live_symbol_table (graph : GraphSpec) (run_id : string) : list (string * Json) :=
  [("observe_schema_version", json_string "1"); ("kind", json_string "symbol_table"); ("run_id", json_string run_id);
   ("components", id_map (comp_id <$> graph_components graph)); ("channels", id_map (edge_id <$> graph_edges graph));
   ("lanes", id_map (lane_id <$> graph_lanes graph)); ("loops", id_map (loop_id <$> graph_composite_loops graph));
   ("policies", json_object []); ("reasons", json_object [])].
Definition live_symbol_table_json (graph : GraphSpec) (run_id : string) : Json := json_object (live_symbol_table graph run_id).
(** [std::stoul] of the key and [get] of the name, which do not throw on a table of this tool. *)
Definition reverse_live_ids (table : Json) (key : string) : gmap Z string :=
  match json_find table key ≫= json_items with
  | None => ∅
  | Some items => fold_left (fun m kv => <[u32 (default 0%Z (stoull kv.1)) := default "" (json_text kv.2)]> m) items ∅
  end.
Definition live_name_for (names : gmap Z string) (id : Z) : string := default "" (names !! id).

(** ** Event records *)
Record LiveNames := mkLiveNames { component_names : gmap Z string; channel_names : gmap Z string; lane_names : gmap Z string; loop_names : gmap Z string }.
Definition live_names (symbols : Json) : LiveNames :=
  mkLiveNames (reverse_live_ids symbols "components") (reverse_live_ids symbols "channels") (reverse_live_ids symbols "lanes") (reverse_live_ids symbols "loops").
Definition number_text (n : Z) : string := if (n =? 0)%Z then "" else to_string_Z n.
Definition live_attributes (e : LiveEvent) : Json :=
  json_object [("value0", json_count (ev_value0 e)); ("value1", json_count (ev_value1 e)); ("value2", json_int (ev_value2 e)); ("value3", json_int (ev_value3 e))].
Definition live_event_fields (e : LiveEvent) (run_id : string) (display_seq : nat) (names : LiveNames) : list (string * Json) :=
  [("observe_schema_version", json_string "1"); ("run_id", json_string run_id); ("display_seq", json_count display_seq);
   ("stream_id", json_string ("stream:" +:+ to_string_Z (ev_stream_id e))); ("local_seq", json_count (ev_local_seq e));
   ("kind", json_string (live_kind_name (ev_kind e))); ("severity", json_string (live_severity_name (ev_reason_id e)));
   ("exactness", json_string (live_exactness_name (ev_flags e))); ("mono_ns", json_int (ev_mono_ns e)); ("epoch_id", json_string (number_text (ev_epoch_id e)));
   ("lane", json_string (live_name_for (lane_names names) (ev_lane_id e))); ("worker_id", json_string (number_text (ev_worker_id e)));
   ("component_id", json_string (live_name_for (component_names names) (ev_component_id e)));
   ("channel_id", json_string (live_name_for (channel_names names) (ev_channel_id e)));
   ("loop_id", json_string (live_name_for (loop_names names) (ev_loop_id e))); ("trace_id", json_string ""); ("transaction_id", json_string "");
   ("correlation_id", json_string ""); ("causation_id", json_string ""); ("attributes", live_attributes e)] ++
  (if (ev_kind e =? encode_kind kObserverDropSummary)%Z then
     [("dropped_event_count", json_count (ev_value0 e)); ("total_dropped_event_count", json_count (ev_value1 e));
      ("affected_kind", json_string (if (ev_value2 e =? 0)%Z then "" else live_kind_name (u32 (ev_value2 e))))] else []).
Definition live_event_json (e : LiveEvent) (run_id : string) (display_seq : nat) (names : LiveNames) : Json :=
  json_object (live_event_fields e run_id display_seq names).

(** ** The output filter *)
Record ObserveOutputFilter := mkFilter {
  include_components : list string; include_channels : list string; include_events : list string; exclude_events : list string;
  sample_events : list string }.
Definition included (wanted : list string) (value : string) : bool :=
  bool_decide (wanted = []) || (negb (str_empty value) && contains_string wanted value).
Definition passes_filter (filter : ObserveOutputFilter) (event : Json) : bool :=
  (bool_decide (include_events filter = []) || contains_string (include_events filter) (json_value event "kind")) &&
  negb (contains_string (exclude_events filter) (json_value event "kind")) &&
  included (include_components filter) (json_value event "component_id") && included (include_channels filter) (json_value event "channel_id").
(** Only an event that passes the filter is counted for its sampling rule; the first is kept, then every [ratio]-th. *)
Definition observe_event_selected (event : Json) (filter : ObserveOutputFilter) (sample_rules : gmap string Z) (sample_counts : gmap string nat)
    : gmap string nat * bool :=
  if negb (passes_filter filter event) then (sample_counts, false) else
  let kind := json_value event "kind" in
  match sample_rules !! kind with
  | None => (sample_counts, true)
  | Some ratio =>
      let count := S (map_at 0 sample_counts kind) in
      (<[kind := count]> sample_counts, (Z.of_nat (count - 1) mod ratio =? 0)%Z)
  end.
Record CollectedEvents := mkCollectedEvents { event_lines : list Json; sample_counts : gmap string nat; display_seq : nat }.
Definition collect_event (run_id : string) (names : LiveNames) (filter : ObserveOutputFilter) (rules : gmap string Z) (c : CollectedEvents) (e : LiveEvent)
    : CollectedEvents :=
  let event := live_event_json e run_id (display_seq c) names in
  let '(counts, selected) := observe_event_selected event filter rules (sample_counts c) in
  if selected then mkCollectedEvents (event_lines c ++ [event]) counts (S (display_seq c)) else mkCollectedEvents (event_lines c) counts (display_seq c).
Definition collect_events (run_id : string) (names : LiveNames) (filter : ObserveOutputFilter) (rules : gmap string Z) (events : list LiveEvent)
    : list Json := event_lines (fold_left (collect_event run_id names filter rules) events (mkCollectedEvents [] ∅ 1)).
Definition event_kind_counts (events : list LiveEvent) : gmap string nat :=
  fold_left (fun m e => <[live_kind_name (ev_kind e) := S (map_at 0 m (live_kind_name (ev_kind e)))]> m) events ∅.
End symbols.

(** ** Values for assertions *)
Section numbers.
Import QArith.
Local Open Scope nat_scope.
Context (round : Q → Double) (out_of_range : Double → Z).
Definition double_add (a b : Double) : Double :=
  match a, b with
  | Finite x, Finite y => round (x + y)%Q
  | NotANumber, _ | _, NotANumber => NotANumber
  | Infinity s, Infinity t => if Bool.eqb s t then a else NotANumber
  | Infinity _, _ => a
  | _, Infinity _ => b
  end.
Definition double_neg (a : Double) : Double :=
  match a with Finite x => Finite (- x)%Q | Infinity s => Infinity (negb s) | NotANumber => NotANumber end.
(** [std::fabs(actual - expected)]. *)
Definition distance (a b : Double) : Double :=
  match double_add a (double_neg b) with
  | Finite x => Finite (Qabs.Qabs x)
  | Infinity _ => Infinity false
  | NotANumber => NotANumber
  end.
Definition double_le (a b : Double) : bool :=
  match a, b with
  | NotANumber, _ | _, NotANumber => false
  | Infinity s, Infinity t => s || negb t
  | Infinity s, Finite _ => s
  | Finite _, Infinity t => negb t
  | Finite x, Finite y => Qle_bool x y
  end.
Definition metric_value_for_assertion (r : RuntimeRunnerResult) (metric_name : string) : Double :=
  fold_left (fun value m => if str_eqb (sample_name m) metric_name then double_add value (sample_value m) else value) (out_runtime_metrics r) (of_int 0).
(** [static_cast<std::size_t>]: towards zero. *)
Definition to_size (d : Double) : Z :=
  match d with
  | Finite q => let z := Z.quot (Qnum q) (Z.pos (Qden q)) in if (0 <=? z)%Z && (z <=? u64_max)%Z then z else out_of_range d
  | _ => out_of_range d
  end.
Definition counter_value_for_assertion (r : RuntimeRunnerResult) (source : string) : Z :=
  if str_eqb source "runtime_errors" then Z.of_nat (length (out_runtime_errors r)) else
  if str_eqb source "observer_drops" || str_eqb source "runtime.observer.dropped_event_count" then Z.of_nat (out_live_observe_dropped_event_count r) else
  if str_eqb source "events" then Z.of_nat (length (out_live_events r)) else to_size (metric_value_for_assertion r source).
Definition metric_holds (type : string) (actual expected : Double) : bool :=
  if str_eqb type "metric_equals" then double_lt (distance actual expected) (round (1 # 1000000)) else
  if str_eqb type "metric_lte" then double_le actual expected else double_le expected actual.
End numbers.

(** ** Assertions *)
(** [as<std::size_t>()], and [YAML::LoadFile] of a file that may be missing. *)
Class SizeLib (Node : Type) := { as_size : Node → YamlResult Z; load_assert_file : option string → YamlResult Node }.
(** What an assertion ends with, and the reason when it does not pass. *)
Inductive AssertionVerdict := Passed | Pending (reason : string) | Failed (reason : string).
Definition cli_map {A B} (f : A → B) (m : Cli A) : Cli B := cli_bind m (fun a => inr (f a)).

Section assertions.
Context {Json Node : Type} `{JsonLib Json, YamlLib Node, SizeLib Node}.
Context (round : QArith_base.Q → Double) (out_of_range : Double → Z).
(** The node tests as [true] when it is defined. *)
Definition is_defined (n : Node) : bool := negb (bool_decide (node_kind n = KUndefined)).
Definition text_or (n : Node) (otherwise : string) : Cli string := if is_defined n then as_string n else inr otherwise.
(** A text is compared with the text, anything else as it is printed. *)
Definition field_equals (value : Json) (expected : string) : bool :=
  match json_text value with Some s => str_eqb s expected | None => str_eqb (json_dump value) expected end.
Definition found_equal (object : Json) (key expected : string) : bool :=
  match json_find object key with Some value => field_equals value expected | None => false end.
Definition entry_matches (event : Json) (key expected : string) : bool :=
  found_equal event key expected ||
  match json_find event "attributes" with Some attributes => found_equal attributes key expected | None => false end.
Fixpoint entries_match (event : Json) (items : list (Node * Node)) : Cli bool :=
  match items with
  | [] => inr true
  | (k, v) :: rest =>
      cli_bind (as_string k) (fun key => cli_bind (as_string v) (fun expected =>
        if entry_matches event key expected then entries_match event rest else inr false))
  end.
Definition json_event_matches_where (event : Json) (condition : Node) : Cli bool :=
  if negb (is_defined condition) || negb (is_map condition) then inr true else entries_match event (node_items condition).
Definition json_event_matches_assertion (event : Json) (assertion : Node) : Cli bool :=
  cli_bind (node_at assertion "event") (fun expected =>
  cli_bind (if is_defined expected then cli_map (fun kind => negb (str_eqb (json_value event "kind") kind)) (as_string expected) else inr false) (fun other =>
  if (other : bool) then inr false else cli_bind (node_at assertion "where") (json_event_matches_where event))).

(** The loop that stops at the first match. *)
Fixpoint any_match (assertion : Node) (events : list Json) : Cli bool :=
  match events with
  | [] => inr false
  | event :: rest => cli_bind (json_event_matches_assertion event assertion) (fun m => if (m : bool) then inr true else any_match assertion rest)
  end.
(** The loop over all events: whether one matches, and whether one does not. *)
Fixpoint all_matches (assertion : Node) (events : list Json) : Cli (bool * bool) :=
  match events with
  | [] => inr (false, false)
  | event :: rest =>
      cli_bind (json_event_matches_assertion event assertion) (fun m =>
        cli_map (fun mm : bool * bool => (m || mm.1, negb m || mm.2)) (all_matches assertion rest))
  end.
(** The events behind the first that matches the step; [None]: none does. *)
Fixpoint after_match (step : Node) (events : list Json) : Cli (option (list Json)) :=
  match events with
  | [] => inr None
  | event :: rest => cli_bind (json_event_matches_assertion event step) (fun m => if (m : bool) then inr (Some rest) else after_match step rest)
  end.
Fixpoint sequence_observed (steps : list Node) (events : list Json) : Cli bool :=
  match steps with
  | [] => inr true
  | step :: rest =>
      cli_bind (after_match step events) (fun found => match found with Some events => sequence_observed rest events | None => inr false end)
  end.

Definition verdict_of (passed : bool) (reason : string) : AssertionVerdict := if passed then Passed else Failed reason.
Definition check_counter (assertion : Node) (r : RuntimeRunnerResult) : Cli AssertionVerdict :=
  cli_bind (node_at assertion "source") (fun n => cli_bind (text_or n "") (fun source =>
  cli_bind (node_at assertion "value") (fun n => cli_map (fun expected =>
    let actual := counter_value_for_assertion round out_of_range r source in
    verdict_of (actual =? expected)%Z ("counter " +:+ source +:+ " expected " +:+ to_string_Z expected +:+ " got " +:+ to_string_Z actual)) (as_size n)))).
Definition check_metric (type : string) (assertion : Node) (r : RuntimeRunnerResult) : Cli AssertionVerdict :=
  cli_bind (node_at assertion "metric") (fun n => cli_bind (as_string n) (fun metric =>
  cli_bind (node_at assertion "value") (fun n => cli_map (fun expected =>
    verdict_of (metric_holds round type (metric_value_for_assertion round r metric) (Finite expected)) ("metric " +:+ metric +:+ " check failed"))
    (as_double n)))).
(** [std::min] of the limit and a number of the assertion, when it has one. *)
Definition bounded_by (n : Node) (limit : Z) : Cli Z := if is_defined n then cli_map (Z.min limit) (as_size n) else inr limit.
Definition check_eventually (type : string) (assertion : Node) (events : list Json) : Cli AssertionVerdict :=
  cli_bind (node_at assertion "within_events") (fun within =>
  cli_bind (bounded_by within (Z.of_nat (length events))) (fun limit =>
  cli_bind (if str_eqb type "within_events" then cli_bind (node_at assertion "value") (fun n => bounded_by n limit) else inr limit) (fun limit =>
  cli_bind (any_match assertion (take (Z.to_nat limit) events)) (fun passed =>
  if (passed : bool) then inr Passed else
  if negb (str_eqb type "eventually" && negb (is_defined within)) then inr (Failed "event condition not satisfied") else
  cli_map (fun epochs => if negb (is_defined epochs) then Pending "eventually condition still pending" else Failed "event condition not satisfied")
    (node_at assertion "within_epochs"))))).
Definition check_all (type : string) (assertion : Node) (events : list Json) : Cli AssertionVerdict :=
  cli_map (fun mm : bool * bool =>
    if str_eqb type "never" then verdict_of (negb mm.1) "forbidden event observed" else verdict_of (negb mm.2) "not all events matched")
    (all_matches assertion events).
Definition check_sequence (assertion : Node) (events : list Json) : Cli AssertionVerdict :=
  cli_bind (node_at assertion "sequence") (fun sequence =>
  if negb (is_defined sequence) || negb (is_sequence sequence) then inr (Failed "sequence assertion requires sequence list") else
  cli_map (fun passed => verdict_of passed "sequence step not observed") (sequence_observed (node_elements sequence) events)).
Definition check_assertion (type : string) (assertion : Node) (r : RuntimeRunnerResult) (events : list Json) : Cli AssertionVerdict :=
  if str_eqb type "counter_equals" then check_counter assertion r else
  if one_of type ["metric_equals"; "metric_lte"; "metric_gte"] then check_metric type assertion r else
  if one_of type ["eventually"; "within_events"; "within_epochs"] then check_eventually type assertion events else
  if one_of type ["never"; "always"] then check_all type assertion events else
  if str_eqb type "sequence" then check_sequence assertion events else inr (Failed ("unsupported assertion type: " +:+ type)).

(** ** Evaluation *)
Record LiveAssertionEvaluation := mkEvaluation {
  eval_ok : bool; eval_events : list (list (string * Json)); eval_passed : nat; eval_failed : nat; eval_pending : nat;
  eval_failures : list (string * string) }.
Definition assertion_event (kind id : string) (reason : option string) : list (string * Json) :=
  [("kind", json_string kind); ("assertion_schema_version", json_string "1"); ("assertion_id", json_string id); ("exactness", json_string "exact")] ++
  match reason with Some reason => [("reason", json_string reason)] | None => [] end.
Definition record_verdict (id : string) (v : AssertionVerdict) (e : LiveAssertionEvaluation) : LiveAssertionEvaluation :=
  let '(mkEvaluation ok events passed failed pending failures) := e in
  let events := events ++ [assertion_event "assertion_registered" id None] in
  match v with
  | Passed => mkEvaluation ok (events ++ [assertion_event "assertion_pass" id None]) (S passed) failed pending failures
  | Pending reason => mkEvaluation false (events ++ [assertion_event "assertion_pending" id (Some reason)]) passed failed (S pending) failures
  | Failed reason => mkEvaluation false (events ++ [assertion_event "assertion_fail" id (Some reason)]) passed (S failed) pending (failures ++ [(id, reason)])
  end.
Definition empty_evaluation : LiveAssertionEvaluation := mkEvaluation true [] 0 0 0 [].
Fixpoint evaluate_each (assertions : list Node) (r : RuntimeRunnerResult) (events : list Json) (e : LiveAssertionEvaluation) : Cli LiveAssertionEvaluation :=
  match assertions with
  | [] => inr e
  | assertion :: rest =>
      cli_bind (node_at assertion "id") (fun n => cli_bind (text_or n "unnamed") (fun id =>
      cli_bind (node_at assertion "type") (fun n => cli_bind (text_or n "") (fun type =>
      cli_bind (check_assertion type assertion r events) (fun v => evaluate_each rest r events (record_verdict id v e))))))
  end.
Definition evaluate_live_assertions (assert_file : string) (file : option string) (r : RuntimeRunnerResult) (events : list Json)
    : Cli LiveAssertionEvaluation :=
  if str_empty assert_file then inr empty_evaluation else
  cli_bind (load_assert_file file) (fun root =>
  cli_bind (node_at root "assertion_schema_version") (fun version =>
  cli_bind (if is_defined version then cli_map (fun v => negb (str_eqb v "1")) (as_string version) else inr true) (fun wrong =>
  if (wrong : bool) then inl ("assertion file must set assertion_schema_version: " +:+ quote +:+ "1" +:+ quote) else
  cli_bind (node_at root "assertions") (fun assertions =>
  if negb (is_defined assertions) || negb (is_sequence assertions) then inl "assertion file must contain assertions list" else
  evaluate_each (node_elements assertions) r events empty_evaluation)))).
Definition assertion_result_fields (e : LiveAssertionEvaluation) (run_id : string) : list (string * Json) :=
  [("assertion_schema_version", json_string "1"); ("kind", json_string "assertion_result"); ("ok", json_bool (eval_ok e));
   ("passed", json_count (eval_passed e)); ("failed", json_count (eval_failed e)); ("pending", json_count (eval_pending e));
   ("failures", json_array ((λ f, json_object [("id", json_string f.1); ("reason", json_string f.2)]) <$> eval_failures e));
   ("observe_schema_version", json_string "1"); ("run_id", json_string run_id)].
End assertions.
Arguments LiveAssertionEvaluation : clear implicits.

(** ** The command *)
(** What a command leaves behind: the standard output, the files it writes into the record directory, the exit code, and the
    exception that ended it, if one did after it had begun to write files. *)
Record CommandResult := mkCommandResult {
  cmd_output : string; cmd_files : list (string * string); cmd_exit : Z; cmd_exception : option string }.
Definition of_report (r : Report) : CommandResult := mkCommandResult r.1 [] r.2 None.
(** The file system under the record directory: the exception of [create_directories], if it throws; what [copy_file] leaves
    of a file under a name, or the message of its error code; what a file holds after a text was written to it, [None] if
    it cannot be opened ([write_text_file] does not look at the stream again); and how a path in the directory is shown. *)
Record RecordDisk := mkRecordDisk {
  disk_create : string → option string; disk_copy : string → string → string → string + string;
  disk_write : string → string → string → option string; disk_path : string → string → string }.
(** One file of a record: a copy, with the text that goes before the error, or a text. *)
Inductive RecordStep := StepCopy (failure source name : string) | StepWrite (name text : string).
Definition step_name (s : RecordStep) : string := match s with StepCopy _ _ name | StepWrite name _ => name end.
Definition run_record_step (disk : RecordDisk) (dir : string) (s : RecordStep) : string + string :=
  match s with
  | StepCopy failure source name =>
      match disk_copy disk source dir name with inl what => inl (failure +:+ what) | inr stored => inr stored end
  | StepWrite name text =>
      match disk_write disk dir name text with None => inl ("failed to write file: " +:+ disk_path disk dir name) | Some stored => inr stored end
  end.
(** The files that were written, and the exception that ended the writing. *)
Fixpoint run_record_steps (disk : RecordDisk) (dir : string) (steps : list RecordStep) : list (string * string) * option string :=
  match steps with
  | [] => ([], None)
  | s :: rest =>
      match run_record_step disk dir s with
      | inl what => ([], Some what)
      | inr stored => let '(files, failure) := run_record_steps disk dir rest in ((step_name s, stored) :: files, failure)
      end
  end.
Definition write_record_artifact (disk : RecordDisk) (dir : string) (steps : list RecordStep) : list (string * string) * option string :=
  if str_empty dir then ([], None) else
  match disk_create disk dir with
  | Some what => ([], Some what)
  | None => run_record_steps disk dir steps
  end.
Definition has_output_filter (f : ObserveOutputFilter) : bool :=
  negb (bool_decide (include_components f = []) && bool_decide (include_channels f = []) && bool_decide (include_events f = []) &&
        bool_decide (exclude_events f = []) && bool_decide (sample_events f = [])).
Definition empty_filter : ObserveOutputFilter := mkFilter [] [] [] [] [].
(** A runtime failure goes before a failed assertion. *)
Definition observe_exit (runtime_ok assertions_ok fail_on_assertion_fail : bool) : Z :=
  if negb runtime_ok then 1%Z else if negb assertions_ok && fail_on_assertion_fail then 3%Z else 0%Z.

Section command.
Context {Json Node : Type} `{JsonLib Json, YamlLib Node, SizeLib Node}.
Context (round : QArith_base.Q → Double) (out_of_range : Double → Z) (to_double : QArith_base.Q → QArith_base.Q).
Definition final_summary_fields (run_id : string) (r : RuntimeRunnerResult) (assertions_ok : bool) (level : string) (ui_frame_ms : Z)
    : list (string * Json) :=
  [("observe_schema_version", json_string "1"); ("kind", json_string "final_summary"); ("run_id", json_string run_id);
   ("runtime_ok", json_bool (out_ok r)); ("assertions_ok", json_bool assertions_ok); ("tick_calls", json_count (out_tick_calls r));
   ("runtime_error_count", json_count (length (out_runtime_errors r)));
   ("observer_dropped_event_count", json_count (out_live_observe_dropped_event_count r)); ("observe_level", json_string level);
   ("ui_frame_ms", json_int ui_frame_ms); ("exactness", json_string (if out_live_observe_dropped_event_count r =? 0 then "exact" else "lossy"))].
Definition graph_validated_record (run_id : string) (v : GraphValidationResult) : Json :=
  json_object [("observe_schema_version", json_string "1"); ("kind", json_string "graph_validated"); ("run_id", json_string run_id);
    ("ok", json_bool (gv_ok v)); ("errors", json_strings (gv_errors v)); ("exactness", json_string "exact")].
Definition plan_ready_record (run_id : string) (v : GraphValidationResult) : Json :=
  json_object [("observe_schema_version", json_string "1"); ("kind", json_string "plan_ready"); ("run_id", json_string run_id);
    ("ok", json_bool (gv_ok v)); ("region_order", json_strings (region_order (gv_plan v))); ("exactness", json_string "exact")].
(** What the command emits, in order. *)
Record ObserveRecords := mkRecords {
  rec_symbols : Json; rec_validated : Json; rec_plan : Json; rec_events : list Json; rec_assertion_events : list Json;
  rec_assertion_result : Json; rec_summary : Json }.
Definition ndjson_records (with_assertions : bool) (x : ObserveRecords) : list Json :=
  [rec_symbols x; rec_validated x; rec_plan x] ++ rec_events x ++ rec_assertion_events x ++
  (if with_assertions then [rec_assertion_result x] else []) ++ [rec_summary x].
Definition json_lines (l : list Json) : string := out_each (fun j => json_dump j +:+ nl) l.
(** [graph_mermaid] may run out of names only without fuel; see PlanText. *)
Definition record_steps (graph_path : string) (graph : GraphSpec) (v : GraphValidationResult) (mermaid : string) (r : RuntimeRunnerResult)
    (run_id level : string) (x : ObserveRecords) (assert_file : string) (assertions_ok : bool) : list RecordStep :=
  let pretty (j : Json) : string := json_pretty j +:+ nl in
  [StepCopy "failed to copy graph into record artifact: " graph_path "graph.yaml";
   StepWrite "graph.normalized.json" (pretty (normalized_graph_json graph)); StepWrite "plan.json" (graph_plan_json graph (gv_plan v) +:+ nl);
   StepWrite "render.mmd" mermaid; StepWrite "observe.ndjson" (json_lines (ndjson_records (negb (str_empty assert_file)) x));
   StepWrite "observe.summary.json" (pretty (rec_summary x));
   (if str_empty assert_file
    then StepWrite "assertions.yaml" ("assertion_schema_version: " +:+ quote +:+ "1" +:+ quote +:+ nl +:+ "assertions: []" +:+ nl)
    else StepCopy "failed to copy assertions into record artifact: " assert_file "assertions.yaml");
   StepWrite "assertion_result.json" (pretty (rec_assertion_result x));
   StepWrite "metrics.final.json" (pretty (json_object [("metric_schema_version", json_string "1"); ("metrics", runtime_metrics_json r)]));
   StepWrite "trace.final.json" (pretty (json_object [("trace_schema_version", json_string kRuntimeTraceSchemaVersion); ("trace", runtime_trace_json r)]));
   StepWrite "trace.chrome.json" (pretty (chrome_trace_json to_double r));
   StepWrite "health.final.json" (pretty (json_object [("health_events", runtime_health_events_json r)]));
   StepWrite "dashboard.html" ("<!doctype html><meta charset=" +:+ quote +:+ "utf-8" +:+ quote +:+ "><title>TopoExec Live Artifact</title>" +:+
      "<h1>TopoExec Live Artifact</h1><p>Replay this directory with tools/topoexec_live_server.py.</p>" +:+ nl);
   StepWrite "manifest.json" (pretty (json_object [("artifact_schema_version", json_string "1"); ("run_id", json_string run_id);
      ("graph_name", json_string (graph_name graph)); ("observe_schema_version", json_string "1"); ("assertion_schema_version", json_string "1");
      ("observe_level", json_string level);
      ("files", json_object [("graph", json_string "graph.yaml"); ("graph_normalized", json_string "graph.normalized.json"); ("plan", json_string "plan.json");
         ("render", json_string "render.mmd"); ("observe", json_string "observe.ndjson"); ("observe_summary", json_string "observe.summary.json");
         ("assertions", json_string "assertions.yaml"); ("assertion_result", json_string "assertion_result.json");
         ("metrics", json_string "metrics.final.json"); ("trace", json_string "trace.final.json"); ("chrome_trace", json_string "trace.chrome.json");
         ("health", json_string "health.final.json"); ("dashboard", json_string "dashboard.html")]);
      ("summary", json_object [("runtime_ok", json_bool (out_ok r)); ("assertions_ok", json_bool assertions_ok);
         ("observer_dropped_event_count", json_count (out_live_observe_dropped_event_count r))])]))].
(** The arguments of the command that its output depends on.  A file is its text, [None] where it cannot be read. *)
Record ObserveArguments := mkObserveArguments {
  oa_path : string; oa_graph_text : option string; oa_level : string; oa_format : string; oa_ui_frame_ms : Z; oa_assert_file : string;
  oa_assert_text : option string; oa_record_dir : string; oa_fail_on_assertion_fail : bool; oa_filter : ObserveOutputFilter }.
Definition observed_events (a : ObserveArguments) (run_id : string) (symbols : Json) (rules : gmap string Z) (r : RuntimeRunnerResult) : list Json :=
  if negb (str_eqb (oa_format a) "json-summary") || negb (str_empty (oa_assert_file a)) || negb (str_empty (oa_record_dir a)) || has_output_filter (oa_filter a)
  then collect_events run_id (live_names symbols) (oa_filter a) rules (out_live_events r) else [].
Definition json_summary (run_id : string) (v : GraphValidationResult) (r : RuntimeRunnerResult) (x : ObserveRecords) : Json :=
  json_object [("observe_schema_version", json_string "1"); ("run_id", json_string run_id); ("symbol_table", rec_symbols x);
    ("graph_validated", json_bool (gv_ok v)); ("plan_ready", json_bool (gv_ok v)); ("event_count", json_count (length (out_live_events r)));
    ("event_kind_counts", json_map json_count (event_kind_counts (out_live_events r))); ("events", json_array (rec_events x));
    ("assertion_events", json_array (rec_assertion_events x)); ("assertion_result", rec_assertion_result x); ("final_summary", rec_summary x)].
Definition tag_event (run_id : string) (fields : list (string * Json)) : Json :=
  json_object (fields ++ [("observe_schema_version", json_string "1"); ("run_id", json_string run_id)]).
(** The record is written before anything is printed; an exception of it ends the command. *)
Definition print_observe_result (disk : RecordDisk) (a : ObserveArguments) (graph : GraphSpec) (v : GraphValidationResult) (mermaid : string) (r : RuntimeRunnerResult)
    : Cli CommandResult :=
  cli_bind (observe_run_id (oa_path a) (oa_graph_text a)) (fun run_id =>
  let symbols := live_symbol_table_json graph run_id in
  cli_bind (parse_sample_rules (sample_events (oa_filter a))) (fun rules =>
  let events := observed_events a run_id symbols rules r in
  cli_map (fun e =>
    let x := mkRecords symbols (graph_validated_record run_id v) (plan_ready_record run_id v) events (tag_event run_id <$> eval_events e)
      (json_object (assertion_result_fields e run_id))
      (json_object (final_summary_fields run_id r (eval_ok e) (oa_level a) (oa_ui_frame_ms a))) in
    let with_assertions := negb (str_empty (oa_assert_file a)) in
    let '(files, failure) := write_record_artifact disk (oa_record_dir a)
      (record_steps (oa_path a) graph v mermaid r run_id (oa_level a) x (oa_assert_file a) (eval_ok e)) in
    match failure with
    | Some what => mkCommandResult "" files 1 (Some what)
    | None => mkCommandResult
        (if str_eqb (oa_format a) "json-summary" then json_pretty (json_summary run_id v r x) +:+ nl else json_lines (ndjson_records with_assertions x))
        files (observe_exit (out_ok r) (eval_ok e) (oa_fail_on_assertion_fail a)) None
    end)
    (evaluate_live_assertions round out_of_range (oa_assert_file a) (oa_assert_text a) r events))).
End command.
