(* ===== verification/Cli.v ===== *)
(** * Cli: the commands of the tool

    Models [load_and_validate], [print_doctor], [print_schema_dump], [print_schema_check], [print_bench_result] and [main] of
    [src/tools/topoexec/main.cpp], after the command line has been parsed, which the CLI11 library does: a [Command] is a parsed
    command line.  A command answers with what it writes and its exit code; an exception ends it with a message and code 1;
    [None] is a run or a compilation that does not end within the fuel. *)

From S2P Require Export CliLint CliObserve Metrics.
From Stdlib Require Import QArith.
Local Open Scope nat_scope.

(** ** Environment *)
(** What the build and the machine say about themselves. *)
Record BuildInfo := mkBuildInfo {
  bi_compiler : string; bi_compiler_version : string; bi_cpp_standard : Z; bi_build_type : string; bi_version : string;
  bi_hardware_threads : Z; bi_cpu_lines : list string; bi_commit_variable : option string; bi_commit_default : option string;
  bi_first_line : string → option string; bi_schema_variable : option string; bi_executable_dir : string; bi_opens : string → bool;
  bi_files_under : string → list (string * bool * string * list string) }.
(** Files, by path: as the graph loader reads them, and as text.  [cli_run i] is the world of the i-th run of a command,
    [cli_elapsed i] the milliseconds it takes, [cli_total] those of all runs. *)
Record CliEnvironment := mkCli {
  cli_graph_file : string → option GraphFile; cli_text_file : string → option string; cli_run : nat → RunnerEnvironment;
  cli_elapsed : nat → Q; cli_total : Q; cli_build : BuildInfo; cli_round : Q → Q; cli_round_sum : Q → Double; cli_out_of_range : Double → Z;
  cli_show_double : Double → string; cli_parse_pretty : string → Cli string; cli_disk : RecordDisk }.

(** ** Commands *)
Record RunArguments := mkRunArguments {
  ra_path : string; ra_steps : nat; ra_steps_count : nat; ra_duration_ms : Z; ra_until_idle : bool; ra_format : string }.
Inductive Command :=
| CDoctor (format : string)
| CSchemaDump (format : string)
| CSchemaCheck (path format : string)
| CValidate (path format : string) (schema_only semantic strict_diagnostics : bool)
| CPlan (path format : string)
| CRender (path format : string)
| CRun (a : RunArguments)
| CMetrics (a : RunArguments)
| CTrace (a : RunArguments)
| CObserve (a : RunArguments) (level : string) (event_buffer_capacity : nat) (ui_frame_ms : Z) (payload_preview_bytes : nat)
    (assert_file record_dir : string) (fail_on_assertion_fail fail_on_observer_drop : bool) (filter : ObserveOutputFilter)
| CLint (path format : string)
| CExplain (path format : string)
| CDiffPlan (left_path right_path format : string)
| CBench (path format : string) (steps runs : nat).

(** ** Loading *)
(** The value of a [GraphSpec] that was not loaded. *)
Definition unread_graph : GraphSpec := mkGraph 0 "" "internal_test" (mkClockPolicy "steady" "steady") empty_config [] [] [] [] [].
Definition what_of (e : GraphIoError) : string :=
  match e with InvalidArgument what => what | YamlException what => what | Diverged => "" end.
Definition of_load {A} (m : Load A) : Cli A := match m with Loaded a => inr a | Thrown e => inl (what_of e) end.
Definition failed_validation (what : string) : GraphValidationResult :=
  empty_validation <| gv_ok := false |> <| gv_errors := [what] |>.

Section commands.
Context {Json Node : Type} `{JsonLib Json, YamlLib Node, SizeLib Node}.
Context (env : CliEnvironment) (compile_fuel fuel : nat) (limits : GraphInputLimits).
Definition load (path : string) : Load GraphSpec := load_graph_file limits path (cli_graph_file env path).
Definition load_graph_file_result (path : string) : GraphSpec * GraphValidationResult :=
  match load path with
  | Loaded graph => (graph, empty_validation <| gv_ok := true |>)
  | Thrown e => (unread_graph, failed_validation (what_of e))
  end.
Definition validate_graph_structure (graph : GraphSpec) : option GraphValidationResult :=
  validate_graph (env_stod (cli_run env 0)) None factory_probe compile_fuel graph.
Definition load_and_validate (path : string) : option (GraphSpec * GraphValidationResult) :=
  let '(graph, result) := load_graph_file_result path in
  if negb (gv_ok result) then Some (graph, result) else
  validation ← validate_graph_structure graph; Some (graph, validation).
Definition run_file (i : nat) (path : string) (steps : nat) (duration_ms : Z) (until_idle : bool) (live : option LiveObserveOptions)
    : option (Cli RuntimeRunnerResult) :=
  result ← run_graph_file (cli_run env i) compile_fuel fuel limits path (cli_graph_file env path) steps duration_ms until_idle live;
  Some (of_load result).
Definition run_command (a : RunArguments) (live : option LiveObserveOptions) : option (Cli RuntimeRunnerResult) :=
  run_file 0 (ra_path a) (resolve_run_steps (ra_steps a) (ra_until_idle a) (ra_steps_count a)) (ra_duration_ms a) (ra_until_idle a) live.

(** ** Doctor and schema *)
(** A stable order; [std::sort] of paths. *)
Definition existing_yaml_files (directory : string) : list string :=
  merge_sort String.le ((fun f : string * bool * string * list string => f.1.1.1) <$>
    List.filter (fun f : string * bool * string * list string =>
      let '(path, regular, extension, lines) := f in
      regular && (str_eqb extension ".yaml" || str_eqb extension ".yml") && yaml_file_has_graph_schema lines)
      (bi_files_under (cli_build env) directory)).
Definition schema_path : string := find_schema_path (bi_schema_variable (cli_build env)) (bi_executable_dir (cli_build env)) (bi_opens (cli_build env)).
Definition print_doctor (format : string) : Report :=
  let found := negb (str_empty schema_path) in
  let defaults := default_graph_input_limits in
  (if str_eqb format "json" then
     json_pretty (json_object [("ok", json_bool found); ("version", json_string (bi_version (cli_build env)));
       ("semantic_contract_version", json_string kTopoExecSemanticContractVersion); ("schema_version", json_int kTopoExecSchemaVersion);
       ("cxx_standard", json_int (bi_cpp_standard (cli_build env))); ("schema_found", json_bool found); ("schema_path", json_string schema_path);
       ("examples", json_strings (existing_yaml_files "examples")); ("benchmarks", json_strings (existing_yaml_files "benchmarks"));
       ("features", json_object [("runtime", json_bool true); ("yaml", json_bool true); ("json", json_bool true); ("health_events", json_bool true);
          ("sanitizers", json_string "external-ci")]);
       ("health_events", json_object [("default_emit", json_bool true); ("default_capacity", json_count kDefaultHealthEventCapacity);
          ("bounded_sink", json_bool true); ("control_flow", json_string "observer_only")]);
       ("graph_input_limits", graph_input_limits_json defaults)]) +:+ nl
   else verdict_line found +:+ "version: " +:+ bi_version (cli_build env) +:+ nl +:+
     "semantic_contract_version: " +:+ kTopoExecSemanticContractVersion +:+ nl +:+ "schema_version: " +:+ to_string_Z kTopoExecSchemaVersion +:+ nl +:+
     "cxx_standard: " +:+ to_string_Z (bi_cpp_standard (cli_build env)) +:+ nl +:+
     "health_events: observer_only bounded default_capacity=" +:+ to_string_nat kDefaultHealthEventCapacity +:+ nl +:+
     "graph_input_limits: max_graph_input_bytes=" +:+ to_string_nat (max_graph_input_bytes defaults) +:+ " max_components=" +:+
     to_string_nat (max_components defaults) +:+ " max_edges=" +:+ to_string_nat (max_edges defaults) +:+ nl +:+
     "schema_found: " +:+ true_false found +:+ nl +:+ (if found then "schema_path: " +:+ schema_path +:+ nl else "") +:+
     count_line ": " "examples" (length (existing_yaml_files "examples")) +:+ count_line ": " "benchmarks" (length (existing_yaml_files "benchmarks")) +:+
     "sanitizers: external-ci" +:+ nl, exit_of found).
Definition ends_line (text : string) : bool :=
  match find_last_of (fun _ => true) text with Some n => str_eqb (drop_chars n text) nl | None => true end.
(** [cli_parse_pretty] is the JSON parser followed by [dump(2)]. *)
Definition print_schema_dump (format : string) : Cli Report :=
  if str_empty schema_path then inl "schema/topoexec.schema.v1.json not found; set TOPOEXEC_SCHEMA_PATH" else
  cli_bind (read_text_file schema_path (cli_text_file env schema_path)) (fun text =>
  if str_eqb format "json" then cli_map (fun pretty => (pretty +:+ nl, 0%Z)) (cli_parse_pretty env text)
  else inr (text +:+ (if ends_line text then "" else nl), 0%Z)).
Definition print_schema_check (path format : string) : Report := print_validation (Json := Json) (snd (load_graph_file_result path)) format.

(** ** Benchmarks *)
Record BenchTotals := mkBench { bench_ok_runs : nat; bench_tick_calls : nat; bench_errors : list string; bench_elapsed : list Q }.
Definition count_run (i : nat) (r : RuntimeRunnerResult) (t : BenchTotals) : BenchTotals :=
  if out_ok r then mkBench (S (bench_ok_runs t)) (bench_tick_calls t + out_tick_calls r) (bench_errors t) (bench_elapsed t ++ [cli_elapsed env i])
  else mkBench (bench_ok_runs t) (bench_tick_calls t) (bench_errors t ++ runtime_error_messages r) (bench_elapsed t ++ [cli_elapsed env i]).
Fixpoint bench_runs (i n : nat) (path : string) (steps : nat) (t : BenchTotals) : option (Cli BenchTotals) :=
  match n with
  | 0 => Some (inr t)
  | S n =>
      result ← run_file i path steps 0 false None;
      match result with
      | inl what => Some (inl what)
      | inr r => bench_runs (S i) n path steps (count_run i r t)
      end
  end.
(** [percentile] of the tool: no check of the ratio; the ratios are literals, the [double]s nearest to them.  Outside of the
    values it would read what is not there; that does not happen ([CliFacts.bench_percentile_defined]). *)
Definition bench_percentile (values : list Q) (ratio : Q) : Q :=
  match values with [] => 0%Q | _ => default 0%Q (interpolate (cli_round env) (sorted values) ratio) end.
Definition throughput (n : nat) : Q :=
  let seconds := cli_round env (cli_total env / 1000)%Q in
  if Qle_bool seconds 0 then 0%Q else cli_round env (of_size (cli_round env) n / seconds)%Q.
Definition print_bench (path format : string) (steps runs : nat) (hash : string) (t : BenchTotals) : Report :=
  let b := cli_build env in
  let ok := bool_decide (bench_errors t = []) in
  let show (q : Q) : string := cli_show_double env (Finite q) in
  let commit := git_commit (bi_commit_variable b) (bi_commit_default b) (bi_first_line b) in
  let elapsed_ms := Z.quot (Qnum (cli_total env)) (Z.pos (Qden (cli_total env))) in
  let p (ratio : Q) : Q := bench_percentile (bench_elapsed t) (cli_round env ratio) in
  (if str_eqb format "json" then
     json_pretty (json_object [("ok", json_bool ok); ("case", json_string (benchmark_case_name path)); ("runs", json_count runs);
       ("ok_runs", json_count (bench_ok_runs t)); ("steps", json_count steps);
       ("params", json_object [("file", json_string path); ("steps", json_count steps); ("runs", json_count runs)]);
       ("graph_hash", json_string hash); ("tick_calls", json_count (bench_tick_calls t)); ("elapsed_ms", json_int elapsed_ms);
       ("run_elapsed_ms", json_array ((fun q => json_number (Finite q)) <$> bench_elapsed t));
       ("p50_run_elapsed_ms", json_number (Finite (p (1 # 2)))); ("p95_run_elapsed_ms", json_number (Finite (p (95 # 100))));
       ("p99_run_elapsed_ms", json_number (Finite (p (99 # 100)))); ("throughput_tick_calls_per_sec", json_number (Finite (throughput (bench_tick_calls t))));
       ("throughput_runs_per_sec", json_number (Finite (throughput (bench_ok_runs t))));
       ("environment", json_object [("benchmark_schema", json_int 2); ("clock", json_string "steady_clock"); ("runtime", json_string "RuntimeRunner");
          ("compiler", json_string (bi_compiler b)); ("compiler_version", json_string (bi_compiler_version b)); ("cpp_standard", json_string (to_string_Z (bi_cpp_standard b)));
          ("build_type", json_string (bi_build_type b)); ("cpu_model", json_string (cpu_model (bi_cpu_lines b)));
          ("cpu_threads", json_int (bi_hardware_threads b)); ("commit", json_string commit)]);
       ("errors", json_strings (bench_errors t))]) +:+ nl
   else verdict_line ok +:+ "case: " +:+ benchmark_case_name path +:+ nl +:+ "benchmark_schema: 2" +:+ nl +:+ "graph_hash: " +:+ hash +:+ nl +:+
     count_line ": " "runs" runs +:+ count_line ": " "ok_runs" (bench_ok_runs t) +:+ count_line ": " "steps" steps +:+
     count_line ": " "tick_calls" (bench_tick_calls t) +:+ "elapsed_ms: " +:+ to_string_Z elapsed_ms +:+ nl +:+
     "throughput_tick_calls_per_sec: " +:+ show (throughput (bench_tick_calls t)) +:+ nl +:+ "p50_run_elapsed_ms: " +:+ show (p (1 # 2)) +:+ nl +:+ "p95_run_elapsed_ms: " +:+
     show (p (95 # 100)) +:+ nl +:+ "p99_run_elapsed_ms: " +:+ show (p (99 # 100)) +:+ nl +:+ "compiler: " +:+ bi_compiler b +:+ " " +:+
     bi_compiler_version b +:+ nl +:+ "build_type: " +:+ bi_build_type b +:+ nl +:+ "commit: " +:+ commit +:+ nl +:+ out_each bullet (bench_errors t),
   exit_of ok).
Definition print_bench_result (path format : string) (steps runs : nat) : option (Cli Report) :=
  if runs =? 0 then Some (inl "bench --runs must be positive") else
  totals ← bench_runs 0 runs path steps (mkBench 0 0 [] []);
  Some (cli_bind totals (fun t => cli_map (fun hash => print_bench path format steps runs hash t) (graph_hash path (cli_text_file env path)))).

(** ** The observe command *)
Definition observe_arguments (a : RunArguments) (level : string) (ui_frame_ms : Z) (assert_file record_dir : string) (fail_on_assertion_fail : bool)
    (filter : ObserveOutputFilter) : ObserveArguments :=
  mkObserveArguments (ra_path a) (cli_text_file env (ra_path a)) level (ra_format a) ui_frame_ms assert_file (cli_text_file env assert_file) record_dir
    fail_on_assertion_fail filter.
Definition print_observe (a : ObserveArguments) (graph : GraphSpec) (v : GraphValidationResult) (r : RuntimeRunnerResult) : option (Cli CommandResult) :=
  mermaid ← graph_mermaid graph (gv_plan v);
  Some (print_observe_result (Json := Json) (cli_round_sum env) (cli_out_of_range env) (cli_round env) (cli_disk env) a graph v mermaid r).
(** The result that stands for the run of an invalid graph. *)
Definition invalid_run (graph : GraphSpec) : RuntimeRunnerResult :=
  initial_runner_result <| out_graph_name := graph_name graph |> <| out_component_count := length (graph_components graph) |>
    <| out_channel_count := length (graph_edges graph) |>.
Definition observe (a : RunArguments) (level : string) (event_buffer_capacity : nat) (ui_frame_ms : Z) (payload_preview_bytes : nat)
    (assert_file record_dir : string) (fail_on_assertion_fail fail_on_observer_drop : bool) (filter : ObserveOutputFilter) : option (Cli CommandResult) :=
  if (0 <? payload_preview_bytes) && negb (str_eqb level "debug") then Some (inl "--payload-preview-bytes requires --observe-level debug") else
  let '(graph, loaded) := load_graph_file_result (ra_path a) in
  validation ← (if negb (gv_ok loaded) then Some loaded
    else validate_graph (env_stod (cli_run env 0)) (Some CliSupport.demo_registry) factory_probe compile_fuel graph);
  if negb (gv_ok validation) then
    printed ← print_observe (observe_arguments a level ui_frame_ms "" "" false empty_filter) graph validation (invalid_run graph);
    Some (cli_map (fun r => match cmd_exception r with None => mkCommandResult (cmd_output r) (cmd_files r) 2 None | Some _ => r end) printed)
  else
  match parse_live_observe_level level with
  | inl what => Some (inl what)
  | inr live_level =>
      result ← run_command a (Some (mkObserveOptions live_level event_buffer_capacity 1));
      match result with
      | inl what => Some (inl what)
      | inr r =>
          printed ← print_observe (observe_arguments a level ui_frame_ms assert_file record_dir fail_on_assertion_fail filter) graph validation r;
          Some (cli_map (fun c =>
            if (cmd_exit c =? 0)%Z && fail_on_observer_drop && negb (out_live_observe_dropped_event_count r =? 0)
            then mkCommandResult (cmd_output c) (cmd_files c) 4 None else c) printed)
      end
  end.

(** ** main *)
Definition report (r : Report) : option (Cli CommandResult) := Some (inr (of_report r)).
Definition report_run (result : option (Cli RuntimeRunnerResult)) (print : RuntimeRunnerResult → Report) : option (Cli CommandResult) :=
  result ← result; Some (cli_map (fun r => of_report (print r)) result).
(** The text of a valid graph, or its errors. *)
Definition report_plan (path format : string) (text : GraphSpec → GraphCompiledPlan → option string) : option (Cli CommandResult) :=
  '(graph, v) ← load_and_validate path;
  if negb (gv_ok v) then report (print_validation (Json := Json) v (if str_eqb format "json" then "json" else "text")) else
  out ← text graph (gv_plan v); report (out, 0%Z).
Definition plan_json_line (graph : GraphSpec) (plan : GraphCompiledPlan) : string := graph_plan_json (Json := Json) graph plan +:+ nl.
Definition run_main (c : Command) : option (Cli CommandResult) :=
  match c with
  | CDoctor format => report (print_doctor format)
  | CSchemaDump format => Some (cli_map of_report (print_schema_dump format))
  | CSchemaCheck path format => report (print_schema_check path format)
  | CValidate path format schema_only semantic strict =>
      if schema_only && semantic then Some (inl "--schema-only and --semantic are mutually exclusive") else
      v ← (if schema_only then Some (snd (load_graph_file_result path)) else snd <$> load_and_validate path);
      report (print_validation (Json := Json) (if strict then apply_strict_diagnostics v else v) format)
  | CPlan path format =>
      report_plan path format (fun graph plan => Some (if str_eqb format "json" then plan_json_line graph plan else graph_plan_text graph plan))
  | CRender path format =>
      report_plan path format (fun graph plan =>
        if str_eqb format "json" then Some (plan_json_line graph plan) else
        if str_eqb format "text" then Some (graph_plan_text graph plan) else graph_mermaid graph plan)
  | CRun a => report_run (run_command a None) (fun r => print_runner_result (Json := Json) r (ra_format a))
  | CMetrics a => report_run (run_command a None) (fun r => print_metrics_result (Json := Json) (cli_show_double env) r (ra_format a))
  | CTrace a => report_run (run_command a None) (fun r => print_trace_result (Json := Json) (cli_round env) r (ra_format a))
  | CObserve a level capacity ui_frame_ms preview assert_file record_dir fail_assertion fail_drop filter =>
      observe a level capacity ui_frame_ms preview assert_file record_dir fail_assertion fail_drop filter
  | CLint path format =>
      match load path with
      | Thrown e => Some (inl (what_of e))
      | Loaded graph =>
          findings ← lint_graph (cli_round env) (env_stod (cli_run env 0)) (Some CliSupport.demo_registry) compile_fuel graph;
          report (print_lint_findings (Json := Json) findings format)
      end
  | CExplain path format => '(graph, v) ← load_and_validate path; report (print_explain (Json := Json) graph v format)
  | CDiffPlan left_path right_path format =>
      '(_, l) ← load_and_validate left_path; '(_, r) ← load_and_validate right_path; report (print_diff_plan (Json := Json) l r format)
  | CBench path format steps runs => result ← print_bench_result path format steps runs; Some (cli_map of_report result)
  end.
(** What the process leaves: the output, the error output, the files it wrote, the exit code. *)
Record ProcessResult := mkProcess { proc_stdout : string; proc_stderr : string; proc_files : list (string * string); proc_exit : Z }.
Definition main (c : Command) : option ProcessResult :=
  result ← run_main c;
  Some (match result with
  | inl what => mkProcess "" ("error: " +:+ what +:+ nl) [] 1
  | inr r =>
      match cmd_exception r with
      | None => mkProcess (cmd_output r) "" (cmd_files r) (cmd_exit r)
      | Some what => mkProcess "" ("error: " +:+ what +:+ nl) (cmd_files r) 1
      end
  end).
End commands.
