(* ===== verification/CliObserveFacts.v ===== *)
(** * CliObserveFacts: names of live records, filters, sampling and live assertions

    The runner numbers the components, channels, lanes and loops of a graph and puts the numbers into its live events; the tool
    numbers them again for its symbol table and reads the names back from the table.  The two numberings agree. *)

From S2P Require Export CliObserve RunnerMetricsFacts Yaml.
Local Open Scope nat_scope.

(** ** Numbers *)
Lemma stoull_number z : (0 <= z <= u64_max)%Z → stoull (to_string_Z z) = Some z.
Proof.
  intros Hz. unfold to_string_Z. pose proof (stoull_digits (Z.to_N z)) as H.
  assert (pretty z = pretty (Z.to_N z)) as -> by (destruct z; [done|done|lia]).
  rewrite H, Z2N.id by lia. destruct (Z.ltb_spec u64_max z); [lia|done].
Qed.
Lemma u32_small z : (0 <= z < 2 ^ 32)%Z → u32 z = z.
Proof. apply Z.mod_small. Qed.
Lemma numbered_elem k names id name : (0 <= k)%Z → (k + Z.of_nat (length names) <= 2 ^ 32)%Z → (id, name) ∈ numbered k names →
  ∃ i, names !! i = Some name ∧ id = (k + Z.of_nat i)%Z ∧ (k <= id < 2 ^ 32)%Z.
Proof.
  revert k. induction names as [|n names IH]; intros k Hk Hl; simpl; [by intros ?%elem_of_nil|].
  cbn [length] in Hl. intros [[= -> ->]|Hin]%elem_of_cons; [exists 0; split; [done|lia]|].
  destruct names as [|m names]; [by apply elem_of_nil in Hin|]. cbn [length] in Hl. rewrite u32_small in Hin by lia.
  destruct (IH (k + 1)%Z) as (i&Hi&->&?); [lia|cbn [length]; lia|done|]. exists (S i). split; [done|lia].
Qed.
Lemma numbered_ids k names : (0 <= k)%Z → (k + Z.of_nat (length names) <= 2 ^ 32)%Z → NoDup (numbered k names).*1.
Proof.
  revert k. induction names as [|n names IH]; intros k Hk Hl; simpl; [constructor|]. cbn [length] in Hl.
  destruct names as [|m names]; [apply NoDup_singleton|]. cbn [length] in Hl. rewrite u32_small by lia. apply NoDup_cons. split.
  - intros ([id name]&->&Hin)%list_elem_of_fmap. apply numbered_elem in Hin as (?&_&_&?); [cbn [fst] in *; lia|lia|cbn [length]; lia].
  - apply IH; [lia|cbn [length]; lia].
Qed.
(** The runner gives a name the first of its numbers. *)
Lemma number_names_fold names m k m' k' :
  fold_left (λ '(m, next) name, (emplace m name next, u32 (next + 1))) names (m, k) = (m', k') →
  (∀ name id, m' !! name = Some id → m !! name = Some id ∨ (id, name) ∈ numbered k names) ∧
  (∀ name, is_Some (m' !! name) ↔ is_Some (m !! name) ∨ name ∈ names).
Proof.
  revert m k. induction names as [|n names IH]; intros m k; simpl.
  - intros [= <- <-]. split; [by left|]. intros name. rewrite elem_of_nil. tauto.
  - intros Hf. destruct (IH _ _ Hf) as [H1 H2]. unfold emplace in *. split.
    + intros name id [Hm|Hin]%H1; [|right; by right]. destruct (m !! n) eqn:E; [by left|].
      apply lookup_insert_Some in Hm as [[<- <-]|[_ Hm]]; [right; left|by left].
    + intros name. rewrite H2, elem_of_cons. destruct (m !! n) eqn:E.
      * split; [tauto|]. intros [?|[->|?]]; [by left|left; by eexists|by right].
      * rewrite lookup_insert_is_Some. destruct (decide (n = name)) as [<-|]; [tauto|]. split; [|naive_solver]. intros [[?|[_ ?]]|?]; tauto.
Qed.
Lemma number_names_spec names name : match number_names names !! name with
  | Some id => (id, name) ∈ numbered 1 names | None => name ∉ names end.
Proof.
  unfold number_names. destruct (fold_left _ names (∅, 1%Z)) as [m k] eqn:E. apply number_names_fold in E as [H1 H2]. simpl.
  destruct (m !! name) as [id|] eqn:Em.
  - apply H1 in Em as [Em|?]; [by rewrite lookup_empty in Em|done].
  - intros Hin. assert (is_Some (m !! name)) as [? E] by (apply H2; by right). by rewrite Em in E.
Qed.

(** ** The table *)
Lemma fold_insert_lookup {A B} (key : A → Z) (value : A → B) l k v (m : gmap Z B) : NoDup (key <$> l) → (∀ x, x ∈ l → m !! key x = None) →
  fold_left (λ m x, <[key x := value x]> m) l m !! k = Some v ↔ m !! k = Some v ∨ ∃ x, x ∈ l ∧ key x = k ∧ value x = v.
Proof.
  revert m. induction l as [|x l IH]; intros m Hn Hm; simpl.
  - split; [by left|]. intros [?|(?&?%elem_of_nil&_)]; done.
  - apply NoDup_cons in Hn as [Hx Hn]. rewrite IH; [|done|].
    + rewrite lookup_insert_Some. setoid_rewrite elem_of_cons. split.
      * intros [[[<- <-]|[_ ?]]|(y&?&?&?)]; [right; by exists x; split; [left|]|by left|right; exists y; split; [by right|done]].
      * intros [Hk|(y&[->|Hy]&<-&<-)]; [|by left; left|right; by exists y].
        left. right. split; [|done]. intros <-. rewrite Hm in Hk; [done|left].
    + intros y Hy. rewrite lookup_insert_ne; [apply Hm; by right|]. intros E. apply Hx. rewrite E. by apply list_elem_of_fmap_2.
Qed.
Section table.
Context {Json : Type} `{JsonLaws Json}.
Lemma to_string_inj a b : (0 <= a <= u64_max)%Z → (0 <= b <= u64_max)%Z → to_string_Z a = to_string_Z b → a = b.
Proof. intros Ha Hb E. apply stoull_number in Ha, Hb. rewrite E, Hb in Ha. by injection Ha. Qed.
(** The table of some names gives back every pair of it. *)
Lemma reverse_ids_spec l key names id name : NoDup l.*1 → (key, id_map names) ∈ l → (Z.of_nat (length names) < 2 ^ 32)%Z →
  reverse_live_ids (json_object l) key !! id = Some name ↔ (id, name) ∈ numbered 1 names.
Proof.
  intros Hl Hin Hn. unfold reverse_live_ids. rewrite (object_read _ _ _ Hl Hin). cbn [mbind option_bind]. unfold id_map.
  assert (∀ p, p ∈ numbered 1 names → (0 <= p.1 < 2 ^ 32)%Z) as Hrange.
  { intros [i n] Hp. apply numbered_elem in Hp as (?&_&_&?); simpl; lia. }
  assert (NoDup ((λ p : Z * string, (to_string_Z p.1, json_string p.2)) <$> numbered 1 names).*1) as Hkeys.
  { rewrite <- list_fmap_compose. assert (NoDup (numbered 1 names).*1) as Hids by (apply numbered_ids; lia).
    clear Hin. induction (numbered 1 names) as [|p ps IH]; simpl in *; [constructor|]. apply NoDup_cons in Hids as [Hp Hids]. apply NoDup_cons. split.
    - intros (q&E&Hq)%list_elem_of_fmap. simpl in E. apply Hp.
      assert (0 <= p.1 < 2 ^ 32)%Z by (apply Hrange; left). assert (0 <= q.1 < 2 ^ 32)%Z by (apply Hrange; by right).
      apply to_string_inj in E as ->; [by apply list_elem_of_fmap_2|unfold u64_max; lia..].
    - apply IH; [|done]. intros q Hq. apply Hrange. by right. }
  destruct (items_object _ Hkeys) as (items&->&Hp).
  assert (∀ x, x ∈ items → ∃ p, p ∈ numbered 1 names ∧ u32 (default 0%Z (stoull x.1)) = p.1 ∧ default "" (json_text x.2) = p.2) as Hitem.
  { intros x Hx. rewrite Hp in Hx. apply list_elem_of_fmap in Hx as (p&->&Hpin). exists p. split; [done|]. simpl.
    pose proof (Hrange p Hpin). rewrite stoull_number by (unfold u64_max; lia). simpl. rewrite u32_small by lia. by rewrite text_string. }
  rewrite fold_insert_lookup; [|..].
  - rewrite lookup_empty. split.
    + intros [?|(x&Hx&<-&<-)]; [done|]. destruct (Hitem x Hx) as ([i n]&Hpin&->&->). done.
    + intros Hpin. right. exists (to_string_Z id, json_string name). split.
      * rewrite Hp. apply list_elem_of_fmap. by exists (id, name).
      * simpl. pose proof (Hrange _ Hpin). simpl in *. rewrite stoull_number by (unfold u64_max; lia). simpl. by rewrite u32_small, text_string by lia.
  - assert ((λ kv : string * Json, u32 (default 0%Z (stoull kv.1))) <$> items ≡ₚ (numbered 1 names).*1) as ->; [|apply numbered_ids; lia].
    rewrite Hp, <- list_fmap_compose. match goal with |- ?a ≡ₚ ?b => enough (a = b) as -> by done end. apply list_fmap_ext. intros i p Hi. simpl.
    pose proof (Hrange p (list_elem_of_lookup_2 _ _ _ Hi)). rewrite stoull_number by (unfold u64_max; lia). simpl. by apply u32_small.
  - intros. apply lookup_empty.
Qed.
Lemma name_of_number l key names name : NoDup l.*1 → (key, id_map names) ∈ l → (Z.of_nat (length names) < 2 ^ 32)%Z →
  live_name_for (reverse_live_ids (json_object l) key) (live_id_for (number_names names) name) = if bool_decide (name ∈ names) then name else "".
Proof.
  intros Hl Hin Hn. unfold live_name_for, live_id_for, map_at. pose proof (number_names_spec names name) as Hs.
  destruct (number_names names !! name) as [id|]; simpl.
  - assert (name ∈ names) as Hname by (apply numbered_elem in Hs as (i&Hi&_); [by eapply list_elem_of_lookup_2|lia|lia]).
    rewrite bool_decide_true by done. apply (reverse_ids_spec l key names) in Hs as ->; done.
  - rewrite bool_decide_false by done. destruct (reverse_live_ids (json_object l) key !! 0%Z) as [n|] eqn:E; [|done].
    apply (reverse_ids_spec l key names) in E; [|done..]. apply numbered_elem in E as (?&_&_&?); lia.
Qed.
End table.

(** ** Records *)
Lemma event_fields_distinct {Json} `{JsonLib Json} e run_id seq names : NoDup (live_event_fields e run_id seq names).*1.
Proof. unfold live_event_fields. destruct (ev_kind e =? _)%Z; distinct_keys. Qed.
Lemma symbols_distinct {Json} `{JsonLib Json} graph run_id : NoDup (live_symbol_table graph run_id).*1.
Proof. distinct_keys. Qed.
Lemma event_value {Json} `{JsonLaws Json} e run_id seq names key s : (key, json_string s) ∈ live_event_fields e run_id seq names →
  json_value (live_event_json e run_id seq names) key = s.
Proof. apply object_value, event_fields_distinct. Qed.
Ltac in_event_fields := unfold live_event_fields; apply elem_of_app; left; in_fields.
(** Graphs whose parts can be numbered with 32 bits. *)
Record countable_parts (graph : GraphSpec) : Prop := {
  cp_components : (Z.of_nat (length (graph_components graph)) < 2 ^ 32)%Z; cp_edges : (Z.of_nat (length (graph_edges graph)) < 2 ^ 32)%Z;
  cp_lanes : (Z.of_nat (length (graph_lanes graph)) < 2 ^ 32)%Z; cp_loops : (Z.of_nat (length (graph_composite_loops graph)) < 2 ^ 32)%Z }.
Definition if_known (names : list string) (name : string) : string := if bool_decide (name ∈ names) then name else "".
Lemma live_names_spec {Json} `{JsonLaws Json} graph run_id name : countable_parts graph →
  let names := live_names (live_symbol_table_json (Json := Json) graph run_id) in let ids := make_live_id_maps graph in
  live_name_for (component_names names) (live_id_for (live_components ids) name) = if_known (comp_id <$> graph_components graph) name ∧
  live_name_for (channel_names names) (live_id_for (live_channels ids) name) = if_known (edge_id <$> graph_edges graph) name ∧
  live_name_for (lane_names names) (live_id_for (live_lanes ids) name) = if_known (lane_id <$> graph_lanes graph) name ∧
  live_name_for (loop_names names) (live_id_for (live_loops ids) name) = if_known (loop_id <$> graph_composite_loops graph) name.
Proof.
  intros [H1 H2 H3 H4]. cbv zeta. unfold live_names, live_symbol_table_json. cbn [component_names channel_names lane_names loop_names].
  split_and!; (apply name_of_number; [apply symbols_distinct|unfold live_symbol_table; in_fields|by rewrite length_fmap]).
Qed.
Lemma live_kind_name_inj kind kind' : live_kind_name (encode_kind kind) = live_kind_name (encode_kind kind') → kind = kind'.
Proof. destruct kind, kind'; (reflexivity || (vm_compute; discriminate)). Qed.
(** What the stream makes of an event before it queues it. *)
Definition queued (stream_id : Z) (seq : nat) (e : LiveEvent) : LiveEvent := e <| ev_stream_id := stream_id |> <| ev_local_seq := seq |>.

(** C24. C. The live records of the tool name what the runner observed: the record of a trace event or of an error carries the kind that
    the runner gave it, under a name that no other kind has, and the names of its component, channel, lane and loop as far as
    the graph declares them, although the event in between carries numbers only, numbered by the runner and read back from
    the symbol table that the tool numbers on its own. *)
Theorem live_records_name_parts {Json} `{JsonLaws Json} graph run_id now i stream_id local_seq display_seq : countable_parts graph →
  let ids := make_live_id_maps graph in
  let names := live_names (live_symbol_table_json (Json := Json) graph run_id) in
  let components := comp_id <$> graph_components graph in let lanes := lane_id <$> graph_lanes graph in
  (∀ e event, live_trace_event now ids i e = Some event →
     let record := live_event_json (Json := Json) (queued stream_id local_seq event) run_id display_seq names in
     json_value record "component_id" = if_known components (te_component_id e) ∧
     json_value record "channel_id" = if_known (edge_id <$> graph_edges graph) (te_channel_id e) ∧
     json_value record "lane" = if_known lanes (te_lane e) ∧
     json_value record "loop_id" = if_known (loop_id <$> graph_composite_loops graph) (attribute_value (te_attributes e) "loop_id") ∧
     ∀ kind, json_value record "kind" = live_kind_name (encode_kind kind) ↔ live_kind_for_trace e = Some kind) ∧
  (∀ e, let record := live_event_json (Json := Json) (queued stream_id local_seq (live_error_event now ids i e)) run_id display_seq names in
     json_value record "component_id" = if_known components (err_component_id e) ∧ json_value record "lane" = if_known lanes (err_lane e) ∧
     json_value record "severity" = (if err_fatal e then "error" else "warning") ∧
     json_value record "kind" = (if str_empty (err_component_id e) then "runtime_error" else "component_error")).
Proof.
  intros Hg ids names components lanes. subst components lanes. pose proof (λ name, live_names_spec (Json := Json) graph run_id name Hg) as Hnames. cbv zeta in Hnames.
  assert (∀ e key s, (key, json_string s) ∈ live_event_fields e run_id display_seq names → json_value (live_event_json (Json := Json) e run_id display_seq names) key = s) as Hvalue
    by (intros; by apply event_value).
  split.
  - intros e event He record. unfold live_trace_event in He. destruct (live_kind_for_trace e) as [kind|]; [|done].
    assert (∃ flags, event = (make_live_event now kind i (te_start_offset_ns e))
        <| ev_epoch_id := parse_live_u32 (te_epoch_id e) |> <| ev_component_id := live_id_for (live_components ids) (te_component_id e) |>
        <| ev_channel_id := live_id_for (live_channels ids) (te_channel_id e) |> <| ev_lane_id := live_id_for (live_lanes ids) (te_lane e) |>
        <| ev_worker_id := parse_live_u32 (te_worker_id e) |>
        <| ev_loop_id := live_id_for (live_loops ids) (attribute_value (te_attributes e) "loop_id") |>
        <| ev_value0 := Z.to_nat (te_duration_ns e) |> <| ev_flags := flags |>) as (flags&->).
    { injection He as <-. cbv zeta. destruct (_ || _)%bool; by eexists. }
    clear He. split_and!; [apply Hvalue; rewrite <- (proj1 (Hnames (te_component_id e)))
      |apply Hvalue; rewrite <- (proj1 (proj2 (Hnames (te_channel_id e))))|apply Hvalue; rewrite <- (proj1 (proj2 (proj2 (Hnames (te_lane e)))))
      |apply Hvalue; rewrite <- (proj2 (proj2 (proj2 (Hnames (attribute_value (te_attributes e) "loop_id")))))|]; [in_event_fields..|].
    intros kind'. unfold record. rewrite (Hvalue _ "kind" (live_kind_name (encode_kind kind))) by in_event_fields.
    split; [by intros <-%live_kind_name_inj|by intros [= ->]].
  - intros e record. split_and!; [apply Hvalue; rewrite <- (proj1 (Hnames (err_component_id e)))
      |apply Hvalue; rewrite <- (proj1 (proj2 (proj2 (Hnames (err_lane e)))))| |]; [in_event_fields..| |].
    + apply Hvalue. unfold live_error_event. destruct (err_fatal e); in_event_fields.
    + apply Hvalue. unfold live_error_event. destruct (str_empty _); in_event_fields.
Qed.
Definition named_graph : GraphSpec :=
  mkGraph 1 "g" "internal_test" (mkClockPolicy "steady" "steady") empty_config [] 
    [mkComponentNode "a" "t" [] default_trigger_policy default_execution [] kProcessing "" empty_config;
     mkComponentNode "b" "t" [] default_trigger_policy default_execution [] kProcessing "" empty_config] [] [] [].
Definition named_event : RuntimeTraceEvent := mkTraceEvent "component_execute_end" "t" "execute" "b" "" "" "" "7" "" "" "" 5 9 ∅.
Lemma live_records_name_parts_witness : ∃ event, live_trace_event (λ _, 0%Z) (make_live_id_maps named_graph) 1 named_event = Some event ∧
  json_value (live_event_json (Json := JsonTree) (queued 1 2 event) "run" 3 (live_names (live_symbol_table_json named_graph "run"))) "component_id" = "b".
Proof.
  destruct (live_trace_event (λ _, 0%Z) (make_live_id_maps named_graph) 1 named_event) as [event|] eqn:Ev; [|vm_compute in Ev; discriminate Ev].
  exists event. split; [reflexivity|].
  destruct (live_records_name_parts (Json := JsonTree) named_graph "run" (λ _, 0%Z) 1 1 2 3) as [H _].
  - split; vm_compute; reflexivity.
  - destruct (H named_event event Ev) as [E _]. etransitivity; [exact E|vm_compute; reflexivity].
Defined.

(** ** The collected records *)
Section collected.
Context {Json : Type} `{JsonLaws Json} (run_id : string) (names : LiveNames) (filter : ObserveOutputFilter) (rules : gmap string Z).
Definition event_kind (e : LiveEvent) : string := live_kind_name (ev_kind e).
(** The filter, on the event itself. *)
Definition wanted (e : LiveEvent) : bool :=
  (bool_decide (include_events filter = []) || contains_string (include_events filter) (event_kind e)) &&
  negb (contains_string (exclude_events filter) (event_kind e)) &&
  included (include_components filter) (live_name_for (component_names names) (ev_component_id e)) &&
  included (include_channels filter) (live_name_for (channel_names names) (ev_channel_id e)).
(** The events of this kind that the filter let through before. *)
Definition earlier (events : list LiveEvent) (i : nat) (kind : string) : nat :=
  count_if (fun d => wanted d && str_eqb (event_kind d) kind) (take i events).
Definition kept_at (events : list LiveEvent) (i : nat) (e : LiveEvent) : bool :=
  wanted e && match rules !! event_kind e with None => true | Some ratio => (Z.of_nat (earlier events i (event_kind e)) mod ratio =? 0)%Z end.
Definition kept (events : list LiveEvent) : list LiveEvent :=
  omap Datatypes.id (imap (fun i e => if kept_at events i e then Some e else None) events).
Lemma passes_wanted e seq : passes_filter filter (live_event_json (Json := Json) e run_id seq names) = wanted e.
Proof.
  unfold passes_filter. rewrite (event_value e run_id seq names "kind" (event_kind e)) by in_event_fields.
  rewrite (event_value e run_id seq names "component_id" (live_name_for (component_names names) (ev_component_id e))) by in_event_fields.
  by rewrite (event_value e run_id seq names "channel_id" (live_name_for (channel_names names) (ev_channel_id e))) by in_event_fields.
Qed.
Lemma kept_app events e : kept (events ++ [e]) = kept events ++ if kept_at (events ++ [e]) (length events) e then [e] else [].
Proof.
  unfold kept. rewrite imap_app, omap_app. simpl. rewrite Nat.add_0_r. f_equal; [|by destruct (kept_at _ _ _)]. f_equal. apply imap_ext. intros i d Hi.
  unfold kept_at, earlier. apply lookup_lt_Some in Hi. by rewrite take_app_le by lia.
Qed.
Lemma collected_spec events : let c := fold_left (collect_event (Json := Json) run_id names filter rules) events (mkCollectedEvents [] ∅ 1) in
  event_lines c = imap (λ n e, live_event_json e run_id (S n) names) (kept events) ∧ display_seq c = S (length (kept events)) ∧
  ∀ kind, is_Some (rules !! kind) → map_at 0 (sample_counts c) kind = earlier events (length events) kind.
Proof.
  induction events as [|e events IH] using rev_ind; [done|]. rewrite fold_left_app. cbn [fold_left]. destruct IH as (IH1&IH2&IH3).
  set (c := fold_left _ events _) in *. clearbody c. rewrite kept_app. unfold collect_event, observe_event_selected. rewrite passes_wanted.
  rewrite (event_value e run_id (display_seq c) names "kind" (event_kind e)) by in_event_fields.
  assert (earlier (events ++ [e]) (length events) = earlier events (length events)) as Ht.
  { unfold earlier. rewrite take_app_le by lia. done. }
  assert (∀ kind, earlier (events ++ [e]) (length (events ++ [e])) kind =
    earlier events (length events) kind + (if wanted e && str_eqb (event_kind e) kind then 1 else 0)) as He.
  { intros kind. unfold earlier. rewrite !take_ge by done. rewrite count_if_app, count_if_cons, count_if_nil. lia. }
  assert (imap (λ n e, live_event_json (Json := Json) e run_id (S n) names) (kept events ++ [e]) =
    imap (λ n e, live_event_json e run_id (S n) names) (kept events) ++ [live_event_json e run_id (S (length (kept events))) names]) as Happ.
  { rewrite imap_app. simpl. by rewrite Nat.add_0_r. }
  unfold kept_at. rewrite Ht. destruct (wanted e) eqn:Ew; cbn [negb andb].
  - destruct (rules !! event_kind e) as [ratio|] eqn:Er.
    + rewrite Nat.sub_succ, Nat.sub_0_r, IH3 by (by rewrite Er).
      destruct (_ =? 0)%Z; cbn [event_lines display_seq sample_counts].
      * rewrite Happ, length_app, IH1, IH2. split; [done|]. split; [simpl; lia|]. intros kind Hk. rewrite He.
        destruct (str_eqb (event_kind e) kind) eqn:E; [apply str_eqb_eq in E as <-; rewrite map_at_insert_eq; cbn; lia|].
        rewrite map_at_insert_ne, IH3 by (done || (intros E'; rewrite E', str_eqb_refl in E; discriminate)). cbn. lia.
      * rewrite app_nil_r. split; [done|]. split; [done|]. intros kind Hk. rewrite He.
        destruct (str_eqb (event_kind e) kind) eqn:E; [apply str_eqb_eq in E as <-; rewrite map_at_insert_eq; cbn; lia|].
        rewrite map_at_insert_ne, IH3 by (done || (intros E'; rewrite E', str_eqb_refl in E; discriminate)). cbn. lia.
    + cbn [event_lines display_seq sample_counts]. rewrite Happ, length_app, IH1, IH2. split; [done|]. split; [simpl; lia|].
      intros kind Hk. rewrite He, IH3 by done. destruct (str_eqb (event_kind e) kind) eqn:E; [|cbn; lia].
      apply str_eqb_eq in E as <-. rewrite Er in Hk. by destruct Hk.
  - rewrite app_nil_r. split; [done|]. split; [done|]. intros kind Hk. rewrite He, IH3 by done. cbn. lia.
Qed.
End collected.

(** ** Assertions *)
Section assertions.
Context {Json Node : Type} `{JsonLib Json, YamlLib Node, SizeLib Node}.
Definition holds (assertion : Node) (event : Json) : Prop := json_event_matches_assertion event assertion = inr true.
(** The conditions of the assertion can be read: matching does not throw. *)
Definition readable (events : list Json) (assertion : Node) : Prop := ∀ event, event ∈ events → ∃ b, json_event_matches_assertion event assertion = inr b.
Lemma readable_cons event events assertion : readable (event :: events) assertion →
  readable events assertion ∧ ∃ b, json_event_matches_assertion event assertion = inr b ∧ (b = true ↔ holds assertion event).
Proof.
  intros Hr. split; [intros e He; apply Hr; by right|]. destruct (Hr event) as [b Hb]; [left|]. exists b. split; [done|].
  unfold holds. rewrite Hb. split; [by intros ->|by intros [= ->]].
Qed.
Lemma any_match_spec assertion events : readable events assertion →
  ∃ b, any_match assertion events = inr b ∧ (b = true ↔ ∃ event, event ∈ events ∧ holds assertion event).
Proof.
  induction events as [|event events IH]; intros Hr; simpl; [exists false; split; [done|]; split; [done|by intros (?&?%elem_of_nil&_)]|].
  apply readable_cons in Hr as [Hr (b&Hb&Hh)]. rewrite Hb. setoid_rewrite elem_of_cons. destruct b; simpl.
  - exists true. split; [done|]. split; [|done]. intros _. exists event. split; [by left|by apply Hh].
  - destruct (IH Hr) as (b&->&Hb'). exists b. split; [done|]. rewrite Hb'. split.
    + intros (e&?&?). exists e. split; [by right|done].
    + intros (e&[->|?]&He); [by apply Hh in He|by exists e].
Qed.
Lemma all_matches_spec assertion events : readable events assertion →
  ∃ a b, all_matches assertion events = inr (a, b) ∧ (a = true ↔ ∃ event, event ∈ events ∧ holds assertion event) ∧
    (b = true ↔ ∃ event, event ∈ events ∧ ¬ holds assertion event).
Proof.
  induction events as [|event events IH]; intros Hr; simpl.
  - exists false, false. split; [done|]. split; (split; [done|by intros (?&?%elem_of_nil&_)]).
  - apply readable_cons in Hr as [Hr (m&Hm&Hh)]. rewrite Hm. simpl. destruct (IH Hr) as (a&b&->&Ha&Hb). simpl. exists (m || a), (negb m || b).
    split; [done|]. rewrite !orb_true_iff, Hh, Ha, Hb, negb_true_iff, <- not_true_iff_false, Hh. setoid_rewrite elem_of_cons. split; split.
    + intros [?|(e&?&?)]; [exists event; split; [by left|done]|exists e; split; [by right|done]].
    + intros (e&[->|?]&?); [by left|right; by exists e].
    + intros [?|(e&?&?)]; [exists event; split; [by left|done]|exists e; split; [by right|done]].
    + intros (e&[->|?]&?); [by left|right; by exists e].
Qed.
Lemma after_match_spec step events : readable events step →
  ∃ r, after_match step events = inr r ∧
    match r with
    | None => ∀ event, event ∈ events → ¬ holds step event
    | Some rest => ∃ front event, events = front ++ event :: rest ∧ holds step event ∧ ∀ e, e ∈ front → ¬ holds step e
    end.
Proof.
  induction events as [|event events IH]; intros Hr; simpl; [exists None; split; [done|]; by intros e ?%elem_of_nil|].
  apply readable_cons in Hr as [Hr (b&Hb&Hh)]. rewrite Hb. simpl. destruct b.
  - exists (Some events). split; [done|]. exists [], event. split; [done|]. split; [by apply Hh|]. by intros e ?%elem_of_nil.
  - destruct (IH Hr) as (r&->&Hrest). exists r. split; [done|]. destruct r as [rest|].
    + destruct Hrest as (front&e&->&?&Hf). exists (event :: front), e. split; [done|]. split; [done|].
      intros d [->|Hd]%elem_of_cons; [by intros ?%Hh|by apply Hf].
    + intros d [->|Hd]%elem_of_cons; [by intros ?%Hh|by apply Hrest].
Qed.
(** An embedding of the steps leaves the events before the first match alone. *)
Lemma embedding_skips step steps front event rest l : (∀ e, e ∈ front → ¬ holds step e) → Forall2 holds (step :: steps) l →
  l `sublist_of` front ++ event :: rest → ∃ l', Forall2 holds steps l' ∧ l' `sublist_of` rest.
Proof.
  intros Hf (x&l'&Hx&Hl&->)%Forall2_cons_inv_l Hs. exists l'. split; [done|]. revert Hs. induction front as [|e front IH]; simpl; intros Hs.
  - apply sublist_cons_l in Hs as (k1&k2&E&Hk). destruct k1 as [|y k1]; simpl in E; injection E as -> E; [by rewrite E|].
    rewrite E. apply sublist_inserts_l. by apply sublist_cons.
  - apply IH; [intros d Hd; apply Hf; by right|]. inversion Hs as [|? ? ? Hs'|? ? ? Hs']; subst; [|done]. exfalso. by apply (Hf e); [left|].
Qed.
Lemma sequence_spec steps events : Forall (readable events) steps →
  ∃ b, sequence_observed steps events = inr b ∧ (b = true ↔ ∃ l, Forall2 holds steps l ∧ l `sublist_of` events).
Proof.
  revert events. induction steps as [|step steps IH]; intros events Hr; simpl.
  - exists true. split; [done|]. split; [|done]. intros _. exists []. split; [constructor|apply sublist_nil_l].
  - apply Forall_cons in Hr as [Hstep Hr]. destruct (after_match_spec step events Hstep) as (r&->&Hrest). simpl. destruct r as [rest|].
    + destruct Hrest as (front&event&->&Hev&Hf). destruct (IH rest) as (b&->&Hb).
      { eapply Forall_impl; [exact Hr|]. intros s Hs e He. apply Hs, elem_of_app. right. by right. }
      exists b. split; [done|]. rewrite Hb. split.
      * intros (l&Hl&Hs). exists (event :: l). split; [by constructor|]. apply sublist_inserts_l. by constructor.
      * intros (l&Hl&Hs). by eapply embedding_skips.
    + exists false. split; [done|]. split; [done|]. intros (l&(x&l'&Hx&_&->)%Forall2_cons_inv_l&Hs).
      exfalso. apply (Hrest x); [|done]. eapply elem_of_sublist; [|exact Hs]; left.
Qed.

Context (round : QArith_base.Q → Double) (out_of_range : Double → Z).
Lemma verdict_passed passed reason : verdict_of passed reason = Passed ↔ passed = true.
Proof. by destruct passed. Qed.
Lemma check_all_spec type assertion events : readable events assertion →
  ∃ v, check_all type assertion events = inr v ∧
    (v = Passed ↔ if str_eqb type "never" then ∀ event, event ∈ events → ¬ holds assertion event else ∀ event, event ∈ events → holds assertion event).
Proof.
  intros Hr. destruct (all_matches_spec assertion events Hr) as (a&b&E&Ha&Hb). unfold check_all. rewrite E. simpl. eexists. split; [done|].
  destruct (str_eqb type "never"); rewrite verdict_passed, negb_true_iff, <- not_true_iff_false.
  - rewrite Ha. split; [intros Hn e He Hh; apply Hn; by exists e|by intros Hn (e&He&?%(Hn e He))].
  - rewrite Hb. split; [|intros Hn (e&He&Hh); by apply Hh, Hn]. intros Hn e He. destruct (Hr e He) as [[] Hm]; [done|].
    exfalso. apply Hn. exists e. split; [done|]. unfold holds. by rewrite Hm.
Qed.
(** The bound of an assertion: a node that is not there, or a number. *)
Definition bound_is (n : Node) (bound : option Z) : Prop :=
  match bound with None => is_defined n = false | Some z => is_defined n = true ∧ as_size n = inr z end.
Lemma bounded_by_spec n bound limit : bound_is n bound → bounded_by n limit = inr (match bound with None => limit | Some z => Z.min limit z end).
Proof. unfold bounded_by. destruct bound as [z|]; simpl; [intros [-> ->]; done|by intros ->]. Qed.
Definition within_bound (bound : option Z) (events : list Json) : list Json :=
  match bound with None => events | Some z => take (Z.to_nat z) events end.
Lemma take_limit bound (events : list Json) : (∀ z, bound = Some z → (0 <= z)%Z) →
  take (Z.to_nat (match bound with None => Z.of_nat (length events) | Some z => Z.min (Z.of_nat (length events)) z end)) events = within_bound bound events.
Proof.
  intros Hb. unfold within_bound. destruct bound as [z|]; [|rewrite Nat2Z.id; by apply take_ge]. specialize (Hb z eq_refl).
  destruct (Z.le_gt_cases (Z.of_nat (length events)) z); [rewrite Z.min_l by lia; rewrite Nat2Z.id; rewrite !take_ge by lia; done|by rewrite Z.min_r by lia].
Qed.
Lemma within_bound_sub bound (events : list Json) event : event ∈ within_bound bound events → event ∈ events.
Proof. destruct bound; simpl; [|done]. intros (i&Hi&_)%elem_of_take. by eapply list_elem_of_lookup_2. Qed.
Lemma within_bounds b b' (events : list Json) : (∀ z, b = Some z → (0 <= z)%Z) → (∀ z, b' = Some z → (0 <= z)%Z) →
  take (Z.to_nat (let limit := match b with None => Z.of_nat (length events) | Some z => Z.min (Z.of_nat (length events)) z end in
    match b' with None => limit | Some z => Z.min limit z end)) events = within_bound b' (within_bound b events).
Proof.
  intros Hb Hb'. destruct b' as [z|]; simpl; [|by apply take_limit]. specialize (Hb' z eq_refl). rewrite <- (take_limit b) by done.
  rewrite take_take. f_equal. destruct b as [y|]; [specialize (Hb y eq_refl)|]; lia.
Qed.
(** The search in the first events, and when it is still open. *)
Lemma check_eventually_spec type assertion events within epochs value b b' : readable events assertion →
  node_at assertion "within_events" = inr within → node_at assertion "within_epochs" = inr epochs → node_at assertion "value" = inr value →
  bound_is within b → (∀ z, b = Some z → (0 <= z)%Z) →
  (if str_eqb type "within_events" then bound_is value b' else b' = None) → (∀ z, b' = Some z → (0 <= z)%Z) →
  ∃ v, check_eventually type assertion events = inr v ∧
    (v = Passed ↔ ∃ event, event ∈ within_bound b' (within_bound b events) ∧ holds assertion event) ∧
    (v = Pending "eventually condition still pending" ↔
      v ≠ Passed ∧ type = "eventually" ∧ is_defined within = false ∧ is_defined epochs = false).
Proof.
  intros Hr Hw He Hv Hb Hpos Hb' Hpos'. unfold check_eventually. rewrite Hw. cbn [cli_bind]. rewrite (bounded_by_spec within b) by done. cbn [cli_bind].
  set (limit := match b with None => _ | Some z => _ end). rewrite Hv. cbn [cli_bind].
  assert ((if str_eqb type "within_events" then bounded_by value limit else inr limit) = inr (match b' with None => limit | Some z => Z.min limit z end)) as ->.
  { destruct (str_eqb type "within_events"); [by apply bounded_by_spec|by rewrite Hb']. }
  cbn [cli_bind]. pose proof (within_bounds b b' events Hpos Hpos') as E. cbn zeta in E. fold limit in E. rewrite E.
  destruct (any_match_spec assertion (within_bound b' (within_bound b events))) as (m&->&Hm).
  { intros e Hin. apply Hr. by do 2 eapply within_bound_sub. }
  cbn [cli_bind]. destruct m.
  - exists Passed. split; [done|]. split; [split; [intros _; by apply Hm|done]|]. split; [done|by intros [? _]].
  - assert (¬ ∃ event, event ∈ within_bound b' (within_bound b events) ∧ holds assertion event) as Hn by (by intros ?%Hm). rewrite He. cbn [cli_map cli_bind].
    destruct (str_eqb type "eventually") eqn:Ht; simpl; [apply str_eqb_eq in Ht|eexists; split; [done|]; split; [by split|]; split; [done|by intros (_&->&_)]].
    destruct (is_defined within); simpl; [eexists; split; [done|]; split; [by split|]; split; [done|by intros (_&_&?&_)]|].
    destruct (is_defined epochs); simpl; (eexists; split; [done|]; split; [by split|]; split; [done|]); [by intros (_&_&_&?)|done].
Qed.
(** The type [within_epochs] is a search in all records: no number of epochs is read. *)
Lemma within_epochs_ignores_epochs assertion r events within epochs value b : readable events assertion →
  node_at assertion "within_events" = inr within → node_at assertion "within_epochs" = inr epochs → node_at assertion "value" = inr value →
  bound_is within b → (∀ z, b = Some z → (0 <= z)%Z) →
  ∃ v, check_assertion round out_of_range "within_epochs" assertion r events = inr v ∧
    (v = Passed ↔ ∃ event, event ∈ within_bound b events ∧ holds assertion event).
Proof.
  intros Hr Hw He Hv Hb Hpos. destruct (check_eventually_spec "within_epochs" assertion events within epochs value b None) as (v&E&H'&_); [done..|by exists v].
Qed.
Lemma check_counter_spec assertion r source value count expected : node_at assertion "source" = inr source → node_at assertion "value" = inr value →
  is_defined source = true → as_size value = inr expected → ∀ name, as_string source = inr name →
  (name, count) ∈ [("runtime_errors", length (out_runtime_errors r)); ("observer_drops", out_live_observe_dropped_event_count r); ("events", length (out_live_events r))] →
  ∃ v, check_counter round out_of_range assertion r = inr v ∧ (v = Passed ↔ expected = Z.of_nat count).
Proof.
  intros Hs Hv Hd He name Hn Hin. unfold check_counter, text_or. rewrite Hs. cbn [cli_bind]. rewrite Hd, Hn. cbn [cli_bind]. rewrite Hv. cbn [cli_bind cli_map].
  rewrite He. cbn [cli_bind]. eexists. split; [done|]. rewrite verdict_passed, Z.eqb_eq.
  assert (counter_value_for_assertion round out_of_range r name = Z.of_nat count) as ->; [|done].
  apply list_elem_of_In in Hin. by repeat destruct Hin as [[= <- <-]|Hin].
Qed.

(** C23. C. Live assertions mean what they say, for events that their conditions can be matched with: [never] passes when no record
    matches, [always] when every record does; [eventually] when a record does, one of the first [within_events] records if that is given, and is pending
    rather than failed exactly without a bound of either kind; [within_events] when one of the first records does, as many as both of its
    numbers allow; [counter_equals] when the number is that of the run's errors, lost events or events; and [sequence]
    when there are records, in the order of the stream but not necessarily adjacent, that match its steps one by one, although the
    code looks for the first match only.  The records are those that passed the filters.  Not stated: counters of other names and the three kinds that
    compare the rounded sum of a metric; and [within_epochs], which does not look at epochs (within_epochs_ignores_epochs). *)
Theorem assertions_exact assertion r events : readable events assertion →
  (∃ v, check_assertion round out_of_range "never" assertion r events = inr v ∧ (v = Passed ↔ ∀ event, event ∈ events → ¬ holds assertion event)) ∧
  (∃ v, check_assertion round out_of_range "always" assertion r events = inr v ∧ (v = Passed ↔ ∀ event, event ∈ events → holds assertion event)) ∧
  (∀ within epochs value b b', node_at assertion "within_events" = inr within → node_at assertion "within_epochs" = inr epochs →
     node_at assertion "value" = inr value → bound_is within b → (∀ z, b = Some z → (0 <= z)%Z) →
     (∃ v, check_assertion round out_of_range "eventually" assertion r events = inr v ∧
        (v = Passed ↔ ∃ event, event ∈ within_bound b events ∧ holds assertion event) ∧
        (v = Pending "eventually condition still pending" ↔ v ≠ Passed ∧ b = None ∧ is_defined epochs = false)) ∧
     (bound_is value b' → (∀ z, b' = Some z → (0 <= z)%Z) →
      ∃ v, check_assertion round out_of_range "within_events" assertion r events = inr v ∧
        (v = Passed ↔ ∃ event, event ∈ within_bound b' (within_bound b events) ∧ holds assertion event))) ∧
  (∀ source value name count expected, node_at assertion "source" = inr source → node_at assertion "value" = inr value →
     is_defined source = true → as_string source = inr name → as_size value = inr expected →
     (name, count) ∈ [("runtime_errors", length (out_runtime_errors r)); ("observer_drops", out_live_observe_dropped_event_count r);
       ("events", length (out_live_events r))] →
     ∃ v, check_assertion round out_of_range "counter_equals" assertion r events = inr v ∧ (v = Passed ↔ expected = Z.of_nat count)) ∧
  ∀ sequence, node_at assertion "sequence" = inr sequence → is_defined sequence = true → is_sequence sequence = true →
     Forall (readable events) (node_elements sequence) →
     ∃ v, check_assertion round out_of_range "sequence" assertion r events = inr v ∧
       (v = Passed ↔ ∃ l, Forall2 holds (node_elements sequence) l ∧ l `sublist_of` events).
Proof.
  intros Hr. split; [exact (check_all_spec "never" assertion events Hr)|]. split; [exact (check_all_spec "always" assertion events Hr)|]. split; [|split].
  - intros within epochs value b b' Hw He Hv Hb Hpos. split; [|intros Hb' Hpos'].
    + destruct (check_eventually_spec "eventually" assertion events within epochs value b None) as (v&E&Hv'&Hp); [done..|].
      exists v. split; [exact E|]. split; [done|]. rewrite Hp. destruct b as [z|]; simpl in Hb; [destruct Hb as [-> _]|rewrite Hb]; naive_solver.
    + destruct (check_eventually_spec "within_events" assertion events within epochs value b b') as (v&E&Hv'&_); [done..|]. by exists v.
  - intros source value name count expected Hs Hv Hd Hn He Hin. by eapply (check_counter_spec assertion r source value count expected).
  - intros sequence Hs Hd Hq Hsteps. destruct (sequence_spec (node_elements sequence) events Hsteps) as (b&E&Hb).
    exists (verdict_of b "sequence step not observed"). split; [|by rewrite verdict_passed].
    change (check_sequence assertion events = inr (verdict_of b "sequence step not observed")). unfold check_sequence. rewrite Hs. cbn [cli_bind].
    rewrite Hd, Hq. cbn [negb orb]. by rewrite E.
Qed.

(** ** Evaluations *)
(** An evaluation is fine exactly when nothing failed or is pending, and every assertion is counted once. *)
Record accounted (n : nat) (e : LiveAssertionEvaluation Json) : Prop := {
  ac_ok : eval_ok e = true ↔ eval_failed e = 0 ∧ eval_pending e = 0; ac_count : eval_passed e + eval_failed e + eval_pending e = n;
  ac_failures : length (eval_failures e) = eval_failed e; ac_events : length (eval_events e) = 2 * n }.
Lemma record_accounted n id v e : accounted n e → accounted (S n) (record_verdict id v e).
Proof.
  destruct e as [ok events passed failed pending failures]. intros [A1 A2 A3 A4]. cbn in *.
  destruct v; split; cbn [record_verdict eval_ok eval_failed eval_pending eval_passed eval_failures eval_events];
    rewrite ?length_app; cbn [length]; try lia; try done; (split; [done|lia]).
Qed.
Lemma evaluation_accounted assertions r events n e e' : accounted n e → evaluate_each round out_of_range assertions r events e = inr e' →
  accounted (n + length assertions) e'.
Proof.
  revert n e. induction assertions as [|assertion rest IH]; intros n e Ha; simpl; [intros [= <-]; by rewrite Nat.add_0_r|].
  destruct (node_at assertion "id") as [|idn]; simpl; [done|]. destruct (text_or idn "unnamed") as [|id]; simpl; [done|].
  destruct (node_at assertion "type") as [|tn]; simpl; [done|]. destruct (text_or tn "") as [|type]; simpl; [done|].
  destruct (check_assertion _ _ type assertion r events) as [|v]; simpl; [done|]. intros He.
  replace (n + S (length rest)) with (S n + length rest) by lia. eapply IH; [|exact He]. by apply record_accounted.
Qed.
End assertions.

(** ** Assertions over trees *)
Definition tree_sizes (documents : string → option Yaml) : SizeLib Yaml := {|
  as_size := fun n => match n with YInt z => if (z <? 0)%Z then inl "bad conversion" else inr z | _ => inl "bad conversion" end;
  load_assert_file := fun file => match file ≫= documents with Some n => inr n | None => inl "bad file" end |}.
Definition no_documents : string → option Yaml := fun _ => None.
Definition live_record (kind component : string) : JsonTree := json_object [("kind", json_string kind); ("component_id", json_string component)].
Definition live_sample : list JsonTree := [live_record "run_started" ""; live_record "component_end" "a"; live_record "component_end" "b"; live_record "run_finished" ""].
Definition step_of (kind component : string) : Yaml := YMap [("event", YText kind); ("where", YMap [("component_id", YText component)])].
Definition sequence_assertion : Yaml := YMap [("id", YText "s"); ("sequence", YSequence [step_of "run_started" ""; step_of "component_end" "b"])].
Lemma assertions_exact_witness : ∃ v,
  check_assertion (Json := JsonTree) (H0 := tree_lib no_documents) (H1 := tree_sizes no_documents) Finite (λ _, 0%Z) "sequence" sequence_assertion
    initial_runner_result live_sample = inr v ∧ v = Passed ∧ ∃ l, length l = 2 ∧ l `sublist_of` live_sample.
Proof.
  destruct (assertions_exact (Json := JsonTree) (H0 := tree_lib no_documents) (H1 := tree_sizes no_documents) Finite (λ _, 0%Z) sequence_assertion
    initial_runner_result live_sample) as (_&_&_&_&H).
  - intros event He. apply list_elem_of_In in He as [<-|[<-|[<-|[<-|[]]]]]; eexists; vm_compute; reflexivity.
  - destruct (H (YSequence [step_of "run_started" ""; step_of "component_end" "b"])) as (v&E&Hv).
    + reflexivity.
    + reflexivity.
    + reflexivity.
    + apply Forall_forall. intros step Hs event He.
      apply list_elem_of_In in Hs as [<-|[<-|[]]], He as [<-|[<-|[<-|[<-|[]]]]]; eexists; vm_compute; reflexivity.
    + exists v. split; [exact E|]. assert (v = Passed) as Hp.
      { assert (inr v = inr Passed :> Cli AssertionVerdict) as [= <-]; [|reflexivity]. rewrite <- E. vm_compute. reflexivity. }
      split; [exact Hp|]. apply Hv in Hp as (l&Hl&Hsub). exists l. split; [|exact Hsub]. symmetry. exact (Forall2_length _ _ _ Hl).
Defined.
