(* ===== verification/CliFacts.v ===== *)
(** * CliFacts: exit codes, and the run command from the file to the exit code *)

From S2P Require Export Cli CliLint CliObserveFacts RunnerProperties LoaderProperties.
From Stdlib Require Import QArith.
Local Open Scope nat_scope.

Section exits.
Context {Json Node : Type} `{JsonLib Json, YamlLib Node, SizeLib Node}.
Context (env : CliEnvironment) (compile_fuel fuel : nat) (limits : GraphInputLimits).
Abbreviation main := (main (Json := Json) (Node := Node) env compile_fuel fuel limits).
Abbreviation load := (load (Node := Node) env limits).
Abbreviation structure_of := (validate_graph_structure env compile_fuel).
Abbreviation run_command := (run_command (Node := Node) env compile_fuel fuel limits).

(** ** Codes *)
Lemma exit_of_spec ok : exit_of ok = 0%Z ↔ ok = true.
Proof. by destruct ok. Qed.
Lemma of_load_spec {A} (m : Load A) a : of_load m = inr a ↔ m = Loaded a.
Proof. destruct m; simpl; split; congruence. Qed.
(** A graph that is loaded and has no structural error. *)
Definition accepted_file (path : string) : Prop := ∃ g v, load path = Loaded g ∧ structure_of g = Some v ∧ gv_ok v = true.
Lemma load_and_validate_spec path g v : load_and_validate (Node := Node) env compile_fuel limits path = Some (g, v) →
  gv_ok v = true ↔ load path = Loaded g ∧ structure_of g = Some v ∧ gv_ok v = true.
Proof.
  unfold load_and_validate, load_graph_file_result. destruct (load path) as [g'|e]; cbn [gv_ok failed_validation negb].
  - simpl. destruct (structure_of g') as [v'|] eqn:E; [|done]. simpl. intros [= <- <-]. split; [done|by intros (_&_&?)].
  - intros [= <- <-]. split; [done|]. by intros (?&_).
Qed.
Lemma load_and_validate_accepts path g v : load_and_validate (Node := Node) env compile_fuel limits path = Some (g, v) → gv_ok v = true ↔ accepted_file path.
Proof.
  intros E. rewrite (load_and_validate_spec path g v E). split; [by intros (?&?&?); exists g, v|]. intros (g'&v'&Hl&Hv&Ho).
  unfold load_and_validate, load_graph_file_result in E. rewrite Hl in E. simpl in E. rewrite Hv in E. simpl in E. injection E as <- <-. done.
Qed.
Lemma report_plan_exit path format text c : report_plan (Json := Json) (Node := Node) env compile_fuel limits path format text = Some (inr c) →
  cmd_exception c = None ∧ (cmd_exit c = 0%Z ↔ accepted_file path).
Proof.
  unfold report_plan. destruct (load_and_validate env compile_fuel limits path) as [[g v]|] eqn:E; simpl; [|done].
  rewrite <- (load_and_validate_accepts path g v E). destruct (gv_ok v) eqn:Ok; simpl.
  - destruct (text g (gv_plan v)); simpl; [|done]. by intros [= <-].
  - intros [= <-]. simpl. split; [done|]. by rewrite exit_of_spec, Ok.
Qed.
(** No warning among the diagnostics. *)
Definition no_warnings (v : GraphValidationResult) : Prop := ∀ d, d ∈ gv_diagnostics v → diag_severity d ≠ "warning".
Lemma strict_ok v : gv_ok (apply_strict_diagnostics v) = true ↔ gv_ok v = true ∧ no_warnings v.
Proof.
  unfold apply_strict_diagnostics, no_warnings. destruct (filter (λ d, diag_severity d = "warning") (gv_diagnostics v)) as [|d ds] eqn:E; simpl.
  - split; [|by intros [? _]]. intros Hok. split; [done|]. intros d Hd Hs.
    assert (d ∈ filter (λ d, diag_severity d = "warning") (gv_diagnostics v)) as Hin by (by apply list_elem_of_filter). rewrite E in Hin. by apply elem_of_nil in Hin.
  - split; [done|]. intros [_ Hn]. exfalso. assert (d ∈ filter (λ d, diag_severity d = "warning") (gv_diagnostics v)) as [Hs Hd]%list_elem_of_filter
      by (rewrite E; left). by apply (Hn d).
Qed.
Lemma report_run_exit result print c : report_run result print = Some (inr c) → (∀ r, snd (print r) = exit_of (out_ok r)) →
  cmd_exception c = None ∧ (cmd_exit c = 0%Z ↔ ∃ r, result = Some (inr r) ∧ out_ok r = true).
Proof.
  intros E Hp. unfold report_run in E. destruct result as [[what|r]|]; simpl in E; [done| |done]. injection E as <-. simpl. split; [done|].
  rewrite Hp, exit_of_spec. split; [by intros ?; exists r|]. by intros (?&[= <-]&?).
Qed.
(** ** The observe command *)
Lemma printed_exit a graph v mermaid r c :
  print_observe_result (Json := Json) (cli_round_sum env) (cli_out_of_range env) (cli_round env) (cli_disk env) a graph v mermaid r = inr c →
  cmd_exception c = None ∨ cmd_exit c = 0%Z → ∃ run_id rules e, observe_run_id (oa_path a) (oa_graph_text a) = inr run_id ∧ parse_sample_rules (sample_events (oa_filter a)) = inr rules ∧
    evaluate_live_assertions (cli_round_sum env) (cli_out_of_range env) (oa_assert_file a) (oa_assert_text a) r
      (observed_events a run_id (live_symbol_table_json graph run_id) rules r) = inr e ∧
    cmd_exit c = observe_exit (out_ok r) (eval_ok e) (oa_fail_on_assertion_fail a).
Proof.
  unfold print_observe_result. destruct (observe_run_id _ _) as [|run_id]; simpl; [done|]. destruct (parse_sample_rules _) as [|rules]; simpl; [done|].
  destruct (evaluate_live_assertions _ _ _ _ _ _) as [|e] eqn:Ee; simpl; [done|]. intros [= <-].
  destruct (write_record_artifact _ _ _) as [files [what|]]; [by intros [|]|]. intros _. by exists run_id, rules, e.
Qed.
(** What an exit code of the observe command says about the run [r] behind it. *)
Definition observed_run (a : RunArguments) (level : string) (capacity : nat) (r : RuntimeRunnerResult) : Prop :=
  ∃ live_level, parse_live_observe_level level = inr live_level ∧ run_command a (Some (mkObserveOptions live_level capacity 1)) = Some (inr r).
(** Some evaluation of the assertions on records of the run ends with this flag. *)
Definition assertions_end (graph : GraphSpec) (a : ObserveArguments) (r : RuntimeRunnerResult) (ok : bool) : Prop :=
  ∃ run_id rules e, parse_sample_rules (sample_events (oa_filter a)) = inr rules ∧
    evaluate_live_assertions (cli_round_sum env) (cli_out_of_range env) (oa_assert_file a) (oa_assert_text a) r
      (observed_events (Json := Json) a run_id (live_symbol_table_json graph run_id) rules r) = inr e ∧ eval_ok e = ok.
Definition observe_means (a : RunArguments) (level : string) (capacity : nat) (args : ObserveArguments) (fail_on_observer_drop : bool) (code : Z) : Prop :=
  (code = 2%Z ∧ ∀ graph v, load (ra_path a) = Loaded graph →
     validate_graph (env_stod (cli_run env 0)) (Some CliSupport.demo_registry) factory_probe compile_fuel graph = Some v → gv_ok v = false) ∨
  ∃ graph r, load (ra_path a) = Loaded graph ∧ observed_run a level capacity r ∧
    ((code = 1%Z ∧ out_ok r = false) ∨
     (code = 3%Z ∧ out_ok r = true ∧ oa_fail_on_assertion_fail args = true ∧ assertions_end graph args r false) ∨
     (out_ok r = true ∧ (oa_fail_on_assertion_fail args = true → assertions_end graph args r true) ∧
        code = if fail_on_observer_drop && negb (out_live_observe_dropped_event_count r =? 0) then 4%Z else 0%Z)).
Lemma if_exit (b : bool) c c' code : cmd_exit c = code → cmd_exit (if b then c else c') = if b then code else cmd_exit c'.
Proof. by destruct b. Qed.
Lemma observe_exits a level capacity ui_frame_ms preview assert_file record_dir fail_assertion fail_drop filter c :
  observe (Json := Json) (Node := Node) env compile_fuel fuel limits a level capacity ui_frame_ms preview assert_file record_dir fail_assertion fail_drop filter = Some (inr c) →
  cmd_exception c = None → observe_means a level capacity (observe_arguments env a level ui_frame_ms assert_file record_dir fail_assertion filter) fail_drop (cmd_exit c).
Proof.
  unfold observe, observe_means, load_graph_file_result. destruct (_ && _)%bool; [done|].
  destruct (load (ra_path a)) as [graph|what] eqn:El; cbn [gv_ok failed_validation empty_validation negb].
  2: { simpl. destruct (print_observe _ _ _ _ _) as [[|p]|]; simpl; [done| |done]. intros [= <-]. destruct (cmd_exception p) eqn:Ex; [simpl; congruence|].
    left. split; [done|]. by intros. }
  cbn [mbind option_bind]. destruct (validate_graph _ _ _ _ graph) as [v|] eqn:Ev; [|done]. simpl. destruct (gv_ok v) eqn:Ok; simpl.
  2: { destruct (print_observe _ _ _ _ _) as [[|p]|]; simpl; [done| |done]. intros [= <-]. destruct (cmd_exception p) eqn:Ex; [simpl; congruence|]. left. split; [done|]. intros g v' [= <-]. rewrite Ev. by intros [= <-]. }
  destruct (parse_live_observe_level level) as [|live_level] eqn:Elevel; [done|]. destruct (run_command a _) as [[|r]|] eqn:Er; simpl; [done| |done].
  unfold print_observe. destruct (graph_mermaid graph (gv_plan v)) as [mermaid|]; simpl; [|done].
  destruct (print_observe_result _ _ _ _ _ _ _ _ _) as [|p] eqn:Ep; simpl; [done|]. intros [= <-] Hx.
  apply printed_exit in Ep as (run_id&rules&e&_&Hrules&He&Hexit); [|destruct (_ && _)%bool eqn:Ed; [right|by left]; by apply andb_true_iff in Ed as [[?%Z.eqb_eq _]%andb_true_iff _]]. right. exists graph, r. split; [done|]. split; [by exists live_level|].
  rewrite (if_exit _ _ _ 4%Z) by done. rewrite Hexit. unfold observe_exit. destruct (out_ok r); simpl; [|by left]. right. destruct (eval_ok e) eqn:Ee; simpl.
  - right. split; [done|]. split; [by exists run_id, rules, e|]. by destruct (_ && _)%bool.
  - destruct fail_assertion; simpl; [left|right].
    + split; [done|]. split; [done|]. split; [done|]. by exists run_id, rules, e.
    + split; [done|]. split; [done|]. by destruct (_ && _)%bool.
Qed.
(** ** The benchmark command *)
(** Every run that is not fine has no message. *)
Definition quiet_benchmark (path : string) (steps i n : nat) : Prop :=
  ∀ k, i <= k < i + n → ∃ r, run_file env compile_fuel fuel limits k path steps 0 false None (Node := Node) = Some (inr r) ∧
    (out_ok r = true ∨ out_runtime_errors r = []).
Lemma count_run_errors i r t : bench_errors (count_run env i r t) = [] ↔ bench_errors t = [] ∧ (out_ok r = true ∨ out_runtime_errors r = []).
Proof.
  unfold count_run. destruct (out_ok r); simpl; [naive_solver|]. rewrite app_nil. unfold runtime_error_messages.
  split; intros [? Hr]; (split; [done|]).
  - right. by apply fmap_nil_inv in Hr.
  - destruct Hr as [|Hr]; [done|]. by rewrite Hr.
Qed.
Lemma bench_runs_errors path steps n i t t' : bench_runs (Node := Node) env compile_fuel fuel limits i n path steps t = Some (inr t') →
  bench_errors t' = [] ↔ bench_errors t = [] ∧ quiet_benchmark path steps i n.
Proof.
  revert i t. induction n as [|n IH]; intros i t; simpl.
  - intros [= <-]. split; [|by intros [? _]]. intros Ht. split; [done|]. intros k Hk. lia.
  - destruct (run_file _ _ _ _ i _ _ _ _ _) as [[|r]|] eqn:E; simpl; [done| |done]. intros Hr. rewrite (IH _ _ Hr), count_run_errors. split.
    + intros [[Ht Hr0] Hq]. split; [done|]. intros k Hk. destruct (decide (k = i)) as [->|]; [by exists r|]. apply Hq. lia.
    + intros [Ht Hq]. split; [split; [done|]|intros k Hk; apply Hq; lia]. destruct (Hq i) as (r'&E'&Hr'); [lia|].
      rewrite E in E'. by injection E' as <-.
Qed.
Lemma bench_exit path format steps runs report :
  print_bench_result (Json := Json) (Node := Node) env compile_fuel fuel limits path format steps runs = Some (inr report) →
  snd report = 0%Z ↔ quiet_benchmark path steps 0 runs.
Proof.
  unfold print_bench_result. destruct (runs =? 0); [done|]. destruct (bench_runs _ _ _ _ _ _ _ _ _) as [[|t]|] eqn:E; simpl; [done| |done].
  destruct (graph_hash _ _) as [|hash]; simpl; [done|]. intros [= <-]. unfold print_bench. cbn [snd]. rewrite exit_of_spec, bool_decide_eq_true.
  rewrite (bench_runs_errors _ _ _ _ _ _ E). simpl. naive_solver.
Qed.
(** ** Every command *)
(** When a command succeeds; for the observe command, what its code says. *)
Definition exit_means (c : Command) (p : ProcessResult) : Prop :=
  match c with
  | CDoctor _ => proc_exit p = 0%Z ↔ schema_path env ≠ ""
  | CSchemaDump _ => proc_exit p = 0%Z ↔ proc_stderr p = ""
  | CSchemaCheck path _ => proc_exit p = 0%Z ↔ ∃ g, load path = Loaded g
  | CValidate path _ schema_only semantic strict =>
      proc_exit p = 0%Z ↔ (schema_only && semantic)%bool = false ∧
        if schema_only then ∃ g, load path = Loaded g
        else ∃ g v, load path = Loaded g ∧ structure_of g = Some v ∧ gv_ok v = true ∧ (strict = true → no_warnings v)
  | CPlan path _ | CRender path _ | CExplain path _ => proc_exit p = 0%Z ↔ accepted_file path
  | CDiffPlan path other _ => proc_exit p = 0%Z ↔ accepted_file path ∧ accepted_file other
  | CRun a | CMetrics a | CTrace a => proc_exit p = 0%Z ↔ ∃ r, run_command a None = Some (inr r) ∧ out_ok r = true
  | CLint path _ =>
      proc_exit p = 0%Z ↔ ∃ g findings, load path = Loaded g ∧
        lint_graph (cli_round env) (env_stod (cli_run env 0)) (Some CliSupport.demo_registry) compile_fuel g = Some findings ∧
        ∀ f, f ∈ findings → finding_severity f ≠ "error"
  | CObserve a level capacity ui_frame_ms _ assert_file record_dir fail_assertion fail_drop filter =>
      proc_stderr p = "" →
      observe_means a level capacity (observe_arguments env a level ui_frame_ms assert_file record_dir fail_assertion filter) fail_drop (proc_exit p)
  | CBench path _ steps runs => proc_stderr p = "" → proc_exit p = 0%Z ↔ quiet_benchmark path steps 0 runs
  end.
Abbreviation run_main := (run_main (Json := Json) (Node := Node) env compile_fuel fuel limits).
(** What [main] makes of the answer of a command. *)
Definition process_of (answer : Cli CommandResult) : ProcessResult :=
  match answer with
  | inl what => mkProcess "" ("error: " +:+ what +:+ nl) [] 1
  | inr r =>
      match cmd_exception r with
      | None => mkProcess (cmd_output r) "" (cmd_files r) (cmd_exit r)
      | Some what => mkProcess "" ("error: " +:+ what +:+ nl) (cmd_files r) 1
      end
  end.
Lemma main_process c p : main c = Some p ↔ ∃ answer, run_main c = Some answer ∧ p = process_of answer.
Proof.
  unfold Cli.main. destruct (run_main c) as [answer|]; simpl; [|naive_solver].
  split; [intros [= <-]; by exists answer|by intros (?&[= <-]&->)].
Qed.
(** A command that cannot answer exits with 1: enough to say when it answers with 0. *)
Lemma exit_when (P : Prop) answer : (∀ what, answer = inl what → ¬ P) → (∀ c, answer = inr c → cmd_exception c = None ∧ (cmd_exit c = 0%Z ↔ P)) →
  proc_exit (process_of answer) = 0%Z ↔ P.
Proof. intros Hl Hr. destruct answer as [what|c]; simpl; [|by destruct (Hr c) as [-> ?]]. split; [done|]. intros HP. by destruct (Hl what). Qed.
Lemma report_exit (P : Prop) result r : report r = Some result → (snd r = 0%Z ↔ P) → proc_exit (process_of result) = 0%Z ↔ P.
Proof. intros [= <-]. done. Qed.
Lemma lint_exit findings format : snd (print_lint_findings (Json := Json) findings format) = 0%Z ↔ ∀ f, f ∈ findings → finding_severity f ≠ "error".
Proof.
  unfold print_lint_findings. cbn [snd]. destruct (existsb is_error findings) eqn:E.
  - split; [done|]. intros Hf. apply existsb_exists in E as (f&Hin%list_elem_of_In&E%str_eqb_eq). by destruct (Hf f).
  - split; [|done]. intros _ f Hin Hs. apply list_elem_of_In in Hin. assert (existsb is_error findings = true); [|congruence].
    apply existsb_exists. exists f. split; [done|]. by apply str_eqb_eq.
Qed.
Lemma validate_exit path (schema_only strict : bool) format v :
  (if schema_only then Some (snd (load_graph_file_result (Node := Node) env limits path))
   else snd <$> load_and_validate (Node := Node) env compile_fuel limits path) = Some v →
  snd (print_validation (Json := Json) (if strict then apply_strict_diagnostics v else v) format) = 0%Z ↔
  if schema_only then ∃ g, load path = Loaded g
  else ∃ g v, load path = Loaded g ∧ structure_of g = Some v ∧ gv_ok v = true ∧ (strict = true → no_warnings v).
Proof.
  intros Ev. unfold print_validation. cbn [snd]. rewrite exit_of_spec.
  assert (gv_ok (if strict then apply_strict_diagnostics v else v) = true ↔ gv_ok v = true ∧ (strict = true → no_warnings v)) as ->.
  { destruct strict; [rewrite strict_ok|]; naive_solver. }
  destruct schema_only.
  - injection Ev as <-. unfold load_graph_file_result. destruct (load path) as [g|e]; simpl.
    + split; [by exists g|]. intros _. split; [done|]. intros _ d Hd. by apply elem_of_nil in Hd.
    + split; [by intros [? _]|by intros [? ?]].
  - destruct (load_and_validate env compile_fuel limits path) as [[g v0]|] eqn:E; [|done]. injection Ev as <-. simpl.
    pose proof (load_and_validate_spec path g v0 E) as Hs. split.
    + intros [Ok Hn]. exists g, v0. apply Hs in Ok as (?&?&?). done.
    + intros (g'&v'&Hl&Hv&Ok&Hn). unfold load_and_validate, load_graph_file_result in E. rewrite Hl in E. simpl in E. rewrite Hv in E.
      injection E as <- <-. done.
Qed.
Lemma plan_command_exit path format text answer :
  report_plan (Json := Json) (Node := Node) env compile_fuel limits path format text = Some answer → proc_exit (process_of answer) = 0%Z ↔ accepted_file path.
Proof.
  intros Ha. apply exit_when; [|by intros c ->; eapply report_plan_exit]. intros what -> _. unfold report_plan in Ha.
  destruct (load_and_validate _ _ _ _) as [[g v]|]; simpl in Ha; [|done]. destruct (negb _); [done|]. by destruct (text _ _).
Qed.
Lemma run_command_exit result print answer : report_run result print = Some answer → (∀ r, snd (print r) = exit_of (out_ok r)) →
  proc_exit (process_of answer) = 0%Z ↔ ∃ r, result = Some (inr r) ∧ out_ok r = true.
Proof.
  intros Ha Hp. apply exit_when; [|by intros c ->; eapply report_run_exit]. intros what -> (r&->&_). unfold report_run in Ha. done.
Qed.
Lemma valid_exit path (print : GraphSpec → GraphValidationResult → Report) answer : (∀ g v, snd (print g v) = exit_of (gv_ok v)) →
  ('(g, v) ← load_and_validate (Node := Node) env compile_fuel limits path; report (print g v)) = Some answer →
  proc_exit (process_of answer) = 0%Z ↔ accepted_file path.
Proof.
  intros Hp. destruct (load_and_validate _ _ _ _) as [[g v]|] eqn:E; simpl; [|done]. intros Ha. eapply report_exit; [exact Ha|].
  rewrite Hp, exit_of_spec. by apply (load_and_validate_accepts path g).
Qed.
Lemma diff_exit path other format answer :
  ('(_, l) ← load_and_validate (Node := Node) env compile_fuel limits path; '(_, r) ← load_and_validate (Node := Node) env compile_fuel limits other;
   report (print_diff_plan (Json := Json) l r format)) = Some answer →
  proc_exit (process_of answer) = 0%Z ↔ accepted_file path ∧ accepted_file other.
Proof.
  destruct (load_and_validate _ _ _ path) as [[g v]|] eqn:E; simpl; [|done]. destruct (load_and_validate _ _ _ other) as [[g' v']|] eqn:E'; simpl; [|done].
  intros Ha. eapply report_exit; [exact Ha|]. unfold print_diff_plan. cbn [snd].
  rewrite exit_of_spec, andb_true_iff, (load_and_validate_accepts path g v E), (load_and_validate_accepts other g' v' E'). done.
Qed.
Lemma error_line_some what : "error: " +:+ what ≠ "".
Proof. done. Qed.
Lemma command_means c answer : run_main c = Some answer → exit_means c (process_of answer).
Proof.
  destruct c; cbn [Cli.run_main exit_means]; intros Ha.
  - eapply report_exit; [exact Ha|]. unfold print_doctor. cbn [snd]. rewrite exit_of_spec. destruct (schema_path env); simpl; naive_solver.
  - injection Ha as <-. unfold print_schema_dump. destruct (str_empty _); [done|]. destruct (read_text_file _ _); [done|]. simpl.
    destruct (str_eqb _ _); [|done]. by destruct (cli_parse_pretty _ _).
  - eapply report_exit; [exact Ha|]. exact (validate_exit path true false format _ eq_refl).
  - destruct (schema_only && semantic)%bool eqn:Eb; [injection Ha as <-; simpl; naive_solver|].
    destruct (if schema_only then _ else _) as [v|] eqn:Ev; simpl in Ha; [|done]. eapply report_exit; [exact Ha|].
    rewrite (validate_exit path schema_only strict_diagnostics format v Ev). tauto.
  - by eapply plan_command_exit.
  - by eapply plan_command_exit.
  - by eapply run_command_exit; [exact Ha|].
  - by eapply run_command_exit; [exact Ha|].
  - by eapply run_command_exit; [exact Ha|].
  - destruct answer as [what|r]; [done|]. simpl. destruct (cmd_exception r) eqn:Ex; [done|]. intros _. by eapply observe_exits.
  - destruct (load path) as [g|e] eqn:El; [|injection Ha as <-; simpl; split; [done|by intros (?&?&?&_)]].
    destruct (lint_graph _ _ _ _ g) as [findings|] eqn:Ef; simpl in Ha; [|done]. eapply report_exit; [exact Ha|]. rewrite lint_exit.
    split; [intros Hf; by exists g, findings|]. intros (g'&fs&[= <-]&Hg&Hf). rewrite Ef in Hg. by injection Hg as <-.
  - by apply (valid_exit path (fun g v => print_explain (Json := Json) g v format)).
  - by apply (diff_exit left_path right_path format).
  - unfold print_bench_result. intros Hp. destruct (print_bench_result _ _ _ _ _ _ _ _) as [[what|r]|] eqn:E; simpl in Ha; [| |done]; injection Ha as <-.
    + done.
    + by eapply bench_exit.
Qed.
(** ** The files of a record *)
(** In the order in which they are written. *)
Definition record_names : list string :=
  ["graph.yaml"; "graph.normalized.json"; "plan.json"; "render.mmd"; "observe.ndjson"; "observe.summary.json"; "assertions.yaml"; "assertion_result.json";
   "metrics.final.json"; "trace.final.json"; "trace.chrome.json"; "health.final.json"; "dashboard.html"; "manifest.json"].
Lemma run_steps_written disk dir steps files failure : run_record_steps disk dir steps = (files, failure) →
  files.*1 `prefix_of` (step_name <$> steps) ∧ (failure = None → files.*1 = step_name <$> steps).
Proof.
  revert files. induction steps as [|s steps IH]; intros files; simpl; [by intros [= <- <-]|].
  destruct (run_record_step disk dir s) as [what|stored]; [intros [= <- <-]; split; [apply prefix_nil|done]|].
  destruct (run_record_steps disk dir steps) as [rest failure'] eqn:E. intros [= <- <-]. destruct (IH rest eq_refl) as [Hp Ha]. simpl. split.
  - by apply prefix_cons.
  - intros Hf. f_equal. by apply Ha.
Qed.
(** What a command leaves in a record directory: the first files of a record, all of them unless an exception ended the writing. *)
Definition recorded (dir : string) (files : list (string * string)) (failure : option string) : Prop :=
  files.*1 `prefix_of` record_names ∧ (failure = None → files.*1 = if str_empty dir then [] else record_names) ∧ (dir = "" → files = []).
Lemma written_record disk dir steps files failure : step_name <$> steps = record_names →
  write_record_artifact disk dir steps = (files, failure) → recorded dir files failure.
Proof.
  intros Hs. unfold write_record_artifact, recorded. destruct (str_empty dir) eqn:E.
  - intros [= <- <-]. split; [apply prefix_nil|]. done.
  - assert (dir ≠ "") by (by intros ->). destruct (disk_create disk dir); [intros [= <- <-]; split; [apply prefix_nil|done]|].
    intros (Hp&Ha)%run_steps_written. rewrite Hs in Hp, Ha. by split_and!.
Qed.
Lemma steps_named to_double path graph v mermaid r run_id level (x : ObserveRecords (Json := Json)) assert_file ok :
  step_name <$> record_steps to_double path graph v mermaid r run_id level x assert_file ok = record_names.
Proof. unfold record_steps. by destruct (str_empty assert_file). Qed.
Lemma observe_exit_not_invalid ok assertions fail : observe_exit ok assertions fail ≠ 2%Z.
Proof. by destruct ok, assertions, fail. Qed.
Lemma printed_files a graph v r c : print_observe (Json := Json) env a graph v r = Some (inr c) →
  recorded (oa_record_dir a) (cmd_files c) (cmd_exception c) ∧ cmd_exit c ≠ 2%Z ∧ (cmd_exception c = None ∨ cmd_exit c = 1%Z).
Proof.
  unfold print_observe, print_observe_result. destruct (graph_mermaid _ _); simpl; [|done]. destruct (observe_run_id _ _); simpl; [done|].
  destruct (parse_sample_rules _); simpl; [done|]. destruct (evaluate_live_assertions _ _ _ _ _ _) as [|e]; simpl; [done|].
  intros [= <-]. destruct (write_record_artifact _ _ _) as [files failure] eqn:E. apply written_record in E; [|apply steps_named].
  destruct failure; simpl; (split; [done|]); [by split; [|right]|]. split; [|by left]. apply observe_exit_not_invalid.
Qed.
(** An invalid graph leaves no record; a valid one leaves its record in the directory. *)
Lemma observe_files a level capacity ui_frame_ms preview assert_file record_dir fail_assertion fail_drop filter c :
  observe (Json := Json) (Node := Node) env compile_fuel fuel limits a level capacity ui_frame_ms preview assert_file record_dir fail_assertion fail_drop filter = Some (inr c) →
  (cmd_exit c = 2%Z ∧ cmd_files c = []) ∨ (cmd_exit c ≠ 2%Z ∧ recorded record_dir (cmd_files c) (cmd_exception c)).
Proof.
  unfold observe. destruct (_ && _)%bool; [done|]. destruct (load_graph_file_result _ _ _) as [graph loaded].
  destruct (if negb (gv_ok loaded) then _ else _) as [v|]; simpl; [|done]. destruct (negb (gv_ok v)).
  - destruct (print_observe _ _ _ _ _) as [[|p]|] eqn:Ep; simpl; [done| |done]. intros [= <-]. apply printed_files in Ep as ((Hp&Ha&Hn)&Hx&He).
    specialize (Hn eq_refl). destruct (cmd_exception p) eqn:Ee; [right|by left]. split; [done|]. unfold recorded. rewrite Ee, Hn. split; [apply prefix_nil|done].
  - destruct (parse_live_observe_level level); [done|]. destruct (run_command _ _) as [[|r]|]; simpl; [done| |done].
    destruct (print_observe _ _ _ _ _) as [[|p]|] eqn:Ep; simpl; [done| |done]. intros [= <-]. apply printed_files in Ep as ((Hp&Ha&Hn)&Hx&He). right.
    destruct (_ && _)%bool eqn:Ed; [|done]. simpl. split; [done|]. split; [done|]. split; [|done]. intros _. apply Ha.
    destruct He as [|He]; [done|]. by rewrite He in Ed.
Qed.
Lemma unrecorded c r : run_main c = Some (inr r) → (∀ a level capacity ms preview assert_file record_dir fail_assertion fail_drop filter,
    c ≠ CObserve a level capacity ms preview assert_file record_dir fail_assertion fail_drop filter) → cmd_files r = [].
Proof.
  intros Hr Hc. assert (∀ x, report x = Some (inr r) → cmd_files r = []) as Hreport by (intros x [= <-]; done).
  assert (∀ (m : Cli Report), Some (cli_map of_report m) = Some (inr r) → cmd_files r = []) as Hmap by (intros [|x]; [done|intros [= <-]; done]).
  assert (∀ m p, report_run m p = Some (inr r) → cmd_files r = []) as Hrun by (intros [[|x]|] p; unfold report_run; simpl; [done|intros [= <-]; done|done]).
  assert (∀ path format text, report_plan (Json := Json) (Node := Node) env compile_fuel limits path format text = Some (inr r) → cmd_files r = []) as Hplan.
  { intros path format text. unfold report_plan. destruct (load_and_validate _ _ _ _) as [[]|]; simpl; [|done].
    destruct (negb _); [apply Hreport|]. destruct (text _ _); simpl; [apply Hreport|done]. }
  destruct c; cbn [Cli.run_main] in Hr; try (eauto; fail).
  - destruct (_ && _)%bool; [done|]. destruct (if schema_only then _ else _); cbn [mbind option_bind] in Hr; [eauto|done].
  - by destruct (Hc a level event_buffer_capacity ui_frame_ms payload_preview_bytes assert_file record_dir fail_on_assertion_fail fail_on_observer_drop filter).
  - destruct (load path); [|done]. destruct (lint_graph _ _ _ _ _); cbn [mbind option_bind] in Hr; [eauto|done].
  - destruct (load_and_validate _ _ _ _) as [[]|]; cbn [mbind option_bind] in Hr; [eauto|done].
  - destruct (load_and_validate _ _ _ left_path) as [[]|]; simpl in Hr; [|done].
    destruct (load_and_validate _ _ _ right_path) as [[]|]; cbn [mbind option_bind] in Hr; [eauto|done].
  - destruct (print_bench_result _ _ _ _ _ _ _ _); cbn [mbind option_bind] in Hr; [eauto|done].
Qed.
(** What files a command leaves behind. *)
Definition files_mean (c : Command) (p : ProcessResult) : Prop :=
  match c with
  | CObserve _ _ _ _ _ _ record_dir _ _ _ =>
      (proc_files p).*1 `prefix_of` record_names ∧ (record_dir = "" → proc_files p = []) ∧ (proc_exit p = 2%Z → proc_files p = []) ∧
      (proc_stderr p = "" → proc_exit p ≠ 2%Z → record_dir ≠ "" → (proc_files p).*1 = record_names)
  | _ => proc_files p = []
  end.
Lemma command_files c answer : run_main c = Some answer → files_mean c (process_of answer).
Proof.
  intros Ha. assert ((∀ a level capacity ms preview assert_file record_dir fail_assertion fail_drop filter,
    c ≠ CObserve a level capacity ms preview assert_file record_dir fail_assertion fail_drop filter) → proc_files (process_of answer) = []) as Hn.
  { intros Hc. destruct answer as [|r]; [done|]. apply unrecorded in Ha; [|done]. simpl. by destruct (cmd_exception r). }
  destruct c; try (apply Hn; discriminate). clear Hn. destruct answer as [what|r]; [split; [apply prefix_nil|done]|].
  apply observe_files in Ha as [(Hx&Hf)|(Hx&Hp&Ha&Hn)]; unfold files_mean; simpl.
  - destruct (cmd_exception r); simpl; rewrite Hf, ?Hx; (split; [apply prefix_nil|done]).
  - destruct (cmd_exception r); simpl; (split; [done|]); (split; [done|]); (split; [done|]); [done|]. intros _ _ Hd. rewrite Ha by done.
    destruct (str_empty record_dir) eqn:Ed; [|done]. exfalso. apply Hd. by destruct record_dir.
Qed.
(** C12. C. The exit code of the tool means what its command found, for every command that ends: validate, plan, render, explain and
    diff-plan exit with 0 exactly when their graphs load and have no structural error, and strict validation also no warning;
    lint exactly without an error among its findings; run, metrics and trace exactly when the run is ok; bench without a message exactly
    when no run has errors; observe without a message with 2 for a graph that is not loaded or not valid, with 1 for a run that fails, with 3 for failed
    assertions, with 4 for lost records.  A message on the error output (of a command that cannot do its work: options that contradict each other, a
    file that cannot be read or written) goes with the code 1 and an empty output.  Only observe writes files: without a message exactly
    the fourteen files of a record, in the order of the code, if a directory is given and the graph is valid; with a message the first of them, up to the one
    whose writing failed; none for an invalid graph.  The codes are those of the code; the documentation gives 2 to some of the messages. *)
Theorem main_exits c p : main c = Some p →
  exit_means c p ∧ files_mean c p ∧ (proc_stderr p ≠ "" → proc_exit p = 1%Z ∧ proc_stdout p = "").
Proof.
  intros (answer&Ha&->)%main_process. split; [by apply command_means|]. split; [by apply command_files|].
  destruct answer as [what|r]; [done|]. simpl. by destruct (cmd_exception r).
Qed.
End exits.

(** The percentiles of a benchmark are read from the values. *)
Lemma bench_percentile_defined env (values : list Q) (ratio : Q) : rounding (cli_round env) → values ≠ [] →
  (Z.of_nat (length values) <= max_exact)%Z → (0 <= ratio <= 1)%Q →
  interpolate (cli_round env) (sorted values) (cli_round env ratio) = Some (bench_percentile env values (cli_round env ratio)).
Proof.
  intros Hr Hne Hl Hb. destruct (interpolate_inside (cli_round env) Hr (sorted values) (cli_round env ratio)) as [v E].
  - intros Hs. apply (f_equal length) in Hs. rewrite sorted_length in Hs. by destruct values.
  - by rewrite sorted_length.
  - by apply round_ratio.
  - rewrite E. unfold bench_percentile. rewrite E. by destruct values.
Qed.

(** ** From a file to an exit code *)
Section ends.
Context {Json Node : Type} `{JsonLib Json, YamlLib Node, SizeLib Node}.
Context (env : CliEnvironment) (compile_fuel : nat) (limits : GraphInputLimits) (path : string) (g : GraphSpec) (sccs : list (list string)).
Context (Hload : load (Node := Node) env limits path = Loaded g) (Hsccs : graph_sccs g = Some sccs).
Context (Hids : NoDup (region_ids g sccs)) (Hfuel : length sccs <= compile_fuel).
Abbreviation main fuel := (main (Json := Json) (Node := Node) env compile_fuel fuel limits).
Abbreviation valid := (graph_valid (env_stod (cli_run env 0)) None factory_probe g).
Lemma structure_ends : ∃ v, validate_graph_structure env compile_fuel g = Some v ∧ well_reported v ∧ (gv_ok v = true ↔ valid).
Proof. by apply (validation_spec _ None factory_probe compile_fuel g sccs). Qed.
Lemma plan_ends fuel c : c ∈ [CValidate path "text" false false false; CValidate path "json" false false false; CPlan path "text"; CPlan path "json";
    CExplain path "text"; CExplain path "json"; CLint path "text"; CLint path "json"] →
  ∃ p, main fuel c = Some p ∧ proc_stderr p = "" ∧ (proc_exit p = 0%Z ↔ valid).
Proof.
  destruct structure_ends as (v&Hv&Hw&Hval).
  assert (load_and_validate (Node := Node) env compile_fuel limits path = Some (g, v)) as El.
  { unfold load_and_validate, load_graph_file_result. rewrite Hload. simpl. by rewrite Hv. }
  destruct (lint_spec (cli_round env) (env_stod (cli_run env 0)) (Some CliSupport.demo_registry) g compile_fuel v Hv Hw) as (findings&Hl&Hspec).
  assert (∀ format, snd (print_lint_findings (Json := Json) findings format) = 0%Z ↔ gv_ok v = true) as Hlint.
  { intros format. rewrite lint_exit, <- not_false_iff_true, errors_spec by done. setoid_rewrite Hspec. split.
    - intros Hn (d&Hd&Hs). by eapply Hn; [apply reports_error|].
    - intros Hn f Hf Hs. destruct Hf; try discriminate. apply Hn. by eexists. }
  setoid_rewrite <- Hval. intros Hc. apply list_elem_of_In in Hc.
  repeat destruct Hc as [<-|Hc]; [..|done]; unfold Cli.main; cbn [run_main andb]; rewrite ?Hload, ?Hl; unfold report_plan; rewrite ?El;
    cbn [fmap option_fmap option_map mbind option_bind snd]; try (destruct (gv_ok v) eqn:Ok; cbn [negb]); eexists; (split; [reflexivity|]);
    (split; [done|]); cbn [report of_report proc_exit cmd_exit mbind option_bind]; unfold print_validation, print_explain; cbn [snd];
    rewrite ?Hlint, ?Ok; try destruct (gv_ok v); by split.
Qed.
Context (Hinputs : inputs_distinct g) (Hclock : ∀ deadline, ∃ n, ∀ m, n <= m → (deadline <= env_clock (cli_run env 0) m 0 0)%Z).
(** The run has a result that says whether it is fine; every error of it has a cause of its own. *)
Record answered_run (r : RuntimeRunnerResult) : Prop := {
  ar_ok : out_ok r = true ↔ Forall (λ e, err_code e = "observer_failure") (out_runtime_errors r);
  ar_errors : Forall (λ e, err_code e ≠ "exception") (out_runtime_errors r);
  ar_invalid : ¬ graph_valid (env_stod (cli_run env 0)) (Some CliSupport.demo_registry) factory_probe g → out_ok r = false }.
Lemma run_file_ends steps duration_ms until_idle : ∃ n r, answered_run r ∧
  ∀ fuel, n <= fuel → run_file (Node := Node) env compile_fuel fuel limits 0 path steps duration_ms until_idle None = Some (inr r).
Proof.
  destruct (run_graph_ends (cli_run env 0) CliSupport.demo_registry compile_fuel g (demo_run_options steps duration_ms until_idle None) sccs)
    as (n&o&E&H1'&H2'&H3'&_); [done|done|done|done|done|apply classes_fine, demo_made_of_classes|constructor|].
  exists n, (outcome_result o). split; [split; [done|apply H2', classes_quiet, demo_made_of_classes|done]|]. intros fuel Hf.
  unfold run_file, run_graph_file. unfold load in Hload. rewrite Hload, E by done. done.
Qed.
End ends.

(** ** A file *)
(** A boundary that feeds another over a lane of its own thread. *)
Definition cli_component (id type : string) (sources : list EventSourceSpec) : ComponentNodeSpec :=
  mkComponentNode id type sources default_trigger_policy (mkExecution "main" false "normal" 0 "fail_fast") [] kProcessing "" empty_config.
Definition cli_document : GraphSpec :=
  mkGraph 1 "cli" "runnable" default_clock_policy empty_config [demo_lane]
    [cli_component "a" "topoexec.boundary.Input" [mkEventSource "tick" "timer" [] "" 5]; cli_component "b" "topoexec.boundary.Output" [mkEventSource "m" "message" ["in"] "in" 0]]
    [mkEdge "a_b" "a.out" "b.in" kDelay true "" default_edge_policy] [] [].
Definition cli_documents (text : string) : option Yaml :=
  if str_eqb text "cli" then Some (write_graph (H := tree_lib no_documents) YInt YReal YBool cli_document) else None.
Definition cli_build_info : BuildInfo := mkBuildInfo "c++" "1" 20 "Debug" "0.1.0" 4 [] None None (fun _ => None) None "/bin" (fun _ => false) (fun _ => []).
(** A directory that has no room for the chrome trace. *)
Definition cli_test_disk : RecordDisk :=
  mkRecordDisk (fun _ => None) (fun source _ _ => inr source) (fun _ name text => if str_eqb name "trace.chrome.json" then None else Some text)
    (fun dir name => dir +:+ "/" +:+ name).
Definition cli_environment : CliEnvironment :=
  mkCli (fun path => if str_eqb path "cli.yaml" then Some (mkGraphFile ["cl"; "i"] false) else None) (fun path => if str_eqb path "cli.yaml" then Some "cli" else None)
    (fun _ => small_environment)
    (fun _ => 1%Q) 1%Q cli_build_info (fun q => q) Finite (fun _ => 0%Z) (fun _ => "") inr cli_test_disk.
Definition cli_main (c : Command) : option ProcessResult :=
  main (Json := JsonTree) (Node := Yaml) (H0 := tree_lib cli_documents) (H1 := tree_sizes no_documents) cli_environment 9 60 small c.
Definition cli_exit (c : Command) : option Z := proc_exit <$> cli_main c.
Example cli_exits :
  cli_exit (CRun (mkRunArguments "cli.yaml" 3 1 0 false "json")) = Some 0%Z ∧ cli_exit (CPlan "cli.yaml" "text") = Some 0%Z ∧
  cli_exit (CRun (mkRunArguments "none.yaml" 3 1 0 false "json")) = Some 1%Z ∧ cli_exit (CLint "cli.yaml" "json") = Some 0%Z ∧
  cli_exit (CValidate "cli.yaml" "text" true true false) = Some 1%Z.
Proof. vm_compute. by split_and!. Qed.
Definition cli_observe (record_dir : string) : Command :=
  CObserve (mkRunArguments "cli.yaml" 3 1 0 false "json-summary") "detailed" 64 16 0 "" record_dir false false empty_filter.
(** The files before the one that cannot be written stay. *)
Example cli_record_fails :
  (fun p => (proc_stderr p, proc_exit p, (proc_files p).*1)) <$> cli_main (cli_observe "out") =
    Some ("error: failed to write file: out/trace.chrome.json" +:+ nl, 1%Z, take 10 record_names) ∧
  (fun p => (proc_stderr p, proc_exit p, proc_files p)) <$> cli_main (cli_observe "") = Some ("", 0%Z, []).
Proof. vm_compute. by split. Qed.
Lemma main_exits_witness : ∃ p, cli_main (CPlan "cli.yaml" "text") = Some p ∧ proc_exit p = 0%Z ∧
  accepted_file (Node := Yaml) (H0 := tree_lib cli_documents) cli_environment 9 small "cli.yaml".
Proof.
  assert (proc_exit <$> cli_main (CPlan "cli.yaml" "text") = Some 0%Z) as Hv by (vm_compute; reflexivity).
  destruct (cli_main (CPlan "cli.yaml" "text")) as [p|] eqn:E; [|discriminate Hv]. injection Hv as Hp.
  destruct (main_exits (Json := JsonTree) (Node := Yaml) (H0 := tree_lib cli_documents) (H1 := tree_sizes no_documents)
    cli_environment 9 60 small _ p E) as [H _]. exists p. split; [reflexivity|]. split; [exact Hp|]. by apply H.
Defined.
Definition cli_sccs : list (list string) := default [] (graph_sccs cli_document).
