(* ===== verification/Submit.v ===== *)
(** * Submit: tasks that publish their result

    Models [GraphContext::submit_task] of [src/component.cpp]: a component hands a work to the executor of its context, and the
    callback publishes the payload of the completion from the port of the component, with the metadata of the invocation that
    submitted it.  The executor is an argument; the deterministic one of [TaskExecutor.v] is composed with the callback.  The
    event runtime gives the components no executor, so that a run of it only sees the refusal. *)

From S2P Require Export Component TaskExecutor.
Local Open Scope nat_scope.

(** ** Submitting *)
(** What the callback captures; the output is the publisher of the context, or its channels, by reference. *)
Record TaskPublication := mkTaskPublication { tp_endpoint : string; tp_metadata : InvocationMetadata }.
Definition task_publication (ctx : GraphContext) (port : string) : TaskPublication :=
  mkTaskPublication (ctx_component_id ctx +:+ "." +:+ port) (publication_metadata_for ctx port).
Definition submit_task {W E} (submit : option W * option TaskPublication → E → E * TaskSubmissionResult) (executor : option E)
    (ctx : GraphContext) (completion_port : string) (work : option W) : option E * TaskSubmissionResult :=
  match executor with
  | None => (None, mkSubmission false 0 "graph context has no task executor")
  | Some e => let '(e, result) := submit (work, Some (task_publication ctx completion_port)) e in (Some e, result)
  end.

(** ** The callback *)
(** [None] where the bus throws. *)
Definition publish_completion (clock : nat → Z) (p : TaskPublication) (completion : TaskCompletion) (ctx : GraphContext)
    : option (GraphContext * list PendingChannelHealthEvent) :=
  if negb (completion_ok completion) || bool_decide (completion_payload completion = None) then Some (ctx, []) else
  match ctx_publisher ctx with
  | Some r => Some (ctx <| ctx_publisher := Some (fst (router_publish r (tp_endpoint p) (completion_payload completion) (tp_metadata p) None)) |>, [])
  | None =>
      match ctx_channels ctx with
      | Some b =>
          match publish_shared_from_with_metadata b clock (tp_endpoint p) (completion_payload completion) (tp_metadata p) None with
          | None => None
          | Some (b', events, _) => Some (ctx <| ctx_channels := Some b' |>, events)
          end
      | None => Some (ctx, [])
      end
  end.

(** ** The deterministic executor with its callbacks *)
Section run.
Context {W : Type} (perform : W → WorkOutcome W TaskPublication) (clock : nat → nat → Z).
Abbreviation Executor := (DeterministicTaskExecutor W TaskPublication).
Definition no_submissions (p : TaskPublication) (completion : TaskCompletion) : list (option W * option TaskPublication) := [].
(** The loop of [run_ready] without a bound and without cancellation; the [n]-th task reads the clock [clock n]. *)
Fixpoint run_publishing (fuel : nat) (e : Executor) (ctx : GraphContext) (events : list PendingChannelHealthEvent)
    : option (Executor * GraphContext * list PendingChannelHealthEvent) :=
  match det_pending e with
  | [] => Some (e, ctx, events)
  | task :: rest =>
      match fuel with
      | 0 => None
      | S fuel =>
          let '(e, completion) := det_run_task perform no_submissions task rest e in
          match (match task_completion task with Some p => publish_completion (clock (task_id task)) p completion ctx | None => Some (ctx, []) end) with
          | None => None
          | Some (ctx, new) => run_publishing fuel e ctx (events ++ new)
          end
      end
  end.
(** It is the loop of the executor. *)
Lemma run_publishing_executor fuel e ctx events e' ctx' events' completions :
  run_publishing fuel e ctx events = Some (e', ctx', events') →
  ∃ cs, det_run_loop perform no_submissions fuel 0 (λ _, false) e completions = Some (e', cs).
Proof.
  revert e ctx events completions. induction fuel as [|fuel IH]; intros e ctx events completions; simpl.
  - destruct (det_pending e); [intros [= <- <- <-]; by eexists|done].
  - destruct (det_pending e) as [|task rest]; [intros [= <- <- <-]; by eexists|].
    destruct (det_run_task perform no_submissions task rest e) as [e1 c]. destruct (match task_completion task with Some _ => _ | None => _ end) as [[ctx1 new]|]; [|done].
    apply IH.
Qed.

(** ** The reference: the results are published as they are *)
(** Tasks whose works submit nothing, numbered from [id]: the payload of each that succeeds, published from its port. *)
Fixpoint publish_results (id : nat) (tasks : list (string * W)) (ctx : GraphContext) (events : list PendingChannelHealthEvent)
    : option (GraphContext * list PendingChannelHealthEvent) :=
  match tasks with
  | [] => Some (ctx, events)
  | (port, work) :: rest =>
      match work_result (perform work) with
      | inl _ => publish_results (S id) rest ctx events
      | inr payload =>
          match context_publish ctx (clock id) port payload None with
          | None => None
          | Some (ctx, new, _) => publish_results (S id) rest ctx (events ++ new)
          end
      end
  end.
Definition submit_tasks (ctx : GraphContext) (tasks : list (string * W)) (e : Executor) : option Executor * list TaskSubmissionResult :=
  fold_left (fun acc t => let '(e, result) := submit_task det_submit acc.1 ctx t.1 (Some t.2) in (e, acc.2 ++ [result])) tasks (Some e, []).
Definition task_of (ctx : GraphContext) (id : nat) (t : string * W) : PendingTask W TaskPublication :=
  mkTask id t.2 (Some (task_publication ctx t.1)).
Definition tasks_from (ctx : GraphContext) (id : nat) (tasks : list (string * W)) : list (PendingTask W TaskPublication) :=
  imap (fun i t => task_of ctx (id + i) t) tasks.
Lemma tasks_from_cons ctx id t tasks : tasks_from ctx id (t :: tasks) = task_of ctx id t :: tasks_from ctx (S id) tasks.
Proof. unfold tasks_from. simpl. rewrite Nat.add_0_r. f_equal. apply imap_ext. intros i x _. simpl. by rewrite Nat.add_succ_r. Qed.
Lemma submit_with_room ctx t e : length (det_pending e) < admission_capacity (det_config e) →
  ∃ e', submit_task det_submit (Some e) ctx t.1 (Some t.2) = (Some e', mkSubmission true (det_next_task_id e) "") ∧
    det_pending e' = det_pending e ++ [task_of ctx (det_next_task_id e) t] ∧ det_next_task_id e' = S (det_next_task_id e) ∧ det_config e' = det_config e.
Proof.
  intros Hl. unfold submit_task, det_submit. destruct (Nat.leb_spec (admission_capacity (det_config e)) (length (det_pending e))); [lia|].
  by eexists.
Qed.
Lemma submitted_tasks ctx tasks e results : length (det_pending e) + length tasks <= admission_capacity (det_config e) →
  ∃ e', fold_left (fun acc t => let '(e, result) := submit_task det_submit acc.1 ctx t.1 (Some t.2) in (e, acc.2 ++ [result])) tasks (Some e, results) =
      (Some e', results ++ ((λ id, mkSubmission true id "") <$> seq (det_next_task_id e) (length tasks))) ∧
    det_pending e' = det_pending e ++ tasks_from ctx (det_next_task_id e) tasks.
Proof.
  revert e results. induction tasks as [|t tasks IH]; intros e results Hl; cbn [fold_left length seq fmap list_fmap]; [exists e; by rewrite !app_nil_r|].
  cbn [length] in Hl. cbn [fst snd]. destruct (submit_with_room ctx t e) as (e1&->&Hp&Hn&Hc); [lia|].
  destruct (IH e1 (results ++ [mkSubmission true (det_next_task_id e) ""])) as (e'&E&Hp'); [rewrite Hp, Hc, length_app; simpl; lia|].
  exists e'. rewrite E, Hp', Hp, Hn, tasks_from_cons, <- !app_assoc. done.
Qed.
(** Publishing keeps the metadata and the component of the context. *)
Lemma published_context ctx readings port payload ctx' new result : context_publish ctx readings port payload None = Some (ctx', new, result) →
  ctx_metadata ctx' = ctx_metadata ctx ∧ ctx_component_id ctx' = ctx_component_id ctx.
Proof.
  unfold context_publish, context_publish_shared. destruct (ctx_publisher ctx); [destruct (router_publish _ _ _ _ _); by intros [= <- _ _]|].
  destruct (ctx_channels ctx); [|by intros [= <- _ _]]. destruct (publish_shared_from_with_metadata _ _ _ _ _ _) as [[[??]?]|]; [by intros [= <- _ _]|done].
Qed.
Lemma completion_published ctx0 ctx readings port payload id : ctx_metadata ctx0 = ctx_metadata ctx → ctx_component_id ctx0 = ctx_component_id ctx →
  publish_completion readings (task_publication ctx0 port) (work_completion id (inr payload)) ctx =
  (λ r : GraphContext * list PendingChannelHealthEvent * RuntimeChannelPublishResult, r.1) <$> context_publish ctx readings port payload None.
Proof.
  intros Hm Hc. assert (task_publication ctx0 port = task_publication ctx port) as -> by (unfold task_publication, publication_metadata_for; by rewrite Hm, Hc).
  unfold publish_completion, context_publish, context_publish_shared, work_completion. cbn [completion_ok completion_payload negb orb task_publication tp_endpoint tp_metadata].
  rewrite bool_decide_false by done. destruct (ctx_publisher ctx); [by destruct (router_publish _ _ _ _ _)|].
  destruct (ctx_channels ctx); [|done]. by destruct (publish_shared_from_with_metadata _ _ _ _ _ _) as [[[??]?]|].
Qed.
Lemma task_keeps_pending task rest e : work_submissions (perform (task_work task)) = [] →
  det_pending (fst (det_run_task perform no_submissions task rest e)) = rest.
Proof. intros Hs. unfold det_run_task. rewrite Hs. destruct (task_completion task); simpl; by repeat case_match. Qed.
(** Submitting works to a deterministic executor with room for them and running it publishes exactly what the works that
    succeed produce, in the order of the submissions, as if the component had published it itself: from its ports, with the
    metadata of the submitting invocation. *)
Lemma submitted_work_publishes ctx0 tasks id e ctx events fuel : Forall (λ t, work_submissions (perform t.2) = []) tasks →
  det_pending e = tasks_from ctx0 id tasks → length tasks <= fuel →
  ctx_metadata ctx0 = ctx_metadata ctx → ctx_component_id ctx0 = ctx_component_id ctx →
  (λ r : Executor * GraphContext * list PendingChannelHealthEvent, (r.1.2, r.2)) <$> run_publishing fuel e ctx events = publish_results id tasks ctx events.
Proof.
  revert id e ctx events fuel. induction tasks as [|[port work] tasks IH]; intros id e ctx events fuel Hw Hp Hf Hm Hc.
  - destruct fuel; simpl; by rewrite Hp.
  - apply Forall_cons in Hw as [Hw Hws]. cbn [length] in Hf. destruct fuel as [|fuel]; [lia|]. cbn [run_publishing publish_results]. rewrite Hp, tasks_from_cons.
    pose proof (task_keeps_pending (task_of ctx0 id (port, work)) (tasks_from ctx0 (S id) tasks) e Hw) as Hk.
    destruct (det_run_task perform no_submissions (task_of ctx0 id (port, work)) (tasks_from ctx0 (S id) tasks) e) as [e1 c] eqn:E.
    assert (c = work_completion id (work_result (perform work))) as -> by (by injection E as _ <-). cbn [fst] in Hk. cbn [task_of task_completion task_id fst].
    destruct (work_result (perform work)) as [what|payload]; [cbn [work_completion publish_completion completion_ok negb orb]; rewrite app_nil_r; apply IH; [done..|lia|done|done]|].
    rewrite completion_published by done. destruct (context_publish ctx (clock id) port payload None) as [[[ctx1 new] result]|] eqn:Ep; [|done].
    cbn [fmap option_fmap option_map fst]. destruct (published_context _ _ _ _ _ _ _ Ep) as [H1 H2]. apply IH; [done|done|lia|congruence|congruence].
Qed.
Theorem tasks_publish_like_components ctx tasks config fuel : Forall (λ t, work_submissions (perform t.2) = []) tasks →
  length tasks <= admission_capacity (normalize_config config) → length tasks <= fuel →
  ∃ e, submit_tasks ctx tasks (DeterministicTaskExecutor_new config) = (Some e, (λ id, mkSubmission true id "") <$> seq 1 (length tasks)) ∧
    (λ r : Executor * GraphContext * list PendingChannelHealthEvent, (r.1.2, r.2)) <$> run_publishing fuel e ctx [] = publish_results 1 tasks ctx [].
Proof.
  intros Hw Hl Hf. destruct (submitted_tasks ctx tasks (DeterministicTaskExecutor_new config) []) as (e&E&Hp); [done|]. exists e. split; [exact E|].
  by apply (submitted_work_publishes ctx).
Qed.
End run.
